(* ===== verification/_CoqProject ===== *)
-Q . S2P
Prelude.v
Kernel.v
Trackers.v
GpfifoTable.v
KthreadQ.v
DbellCache.v
DbellHandler.v
DbellVma.v
DbellSystem.v
Resolve.v
Submit.v
NvMmap.v
Pbcap.v
Rings.v
UvmPushbuffer.v
UvmSemaphore.v
UvmChannel.v
UvmSystem.v
UvmTracker.v
UvmPush.v
Msgq.v
GspQueue.v
GspSetup.v
GspRpc.v
RbTree.v
RangeTree.v
RangeAllocator.v
TraceText.v
FtraceParse.v
TraceBodies.v
TraceDump.v
LcsDiff.v
Timeline.v
TraceSection.v
Atlas.v
AtlasHistory.v
AtlasMirror.v
AtlasLedger.v
