(* ===== verification/Prelude.v ===== *)
(** * Verification of the doorbell tracing of libcuda-research

    ** The program

    The repository is NVIDIA's open GPU kernel modules with a doorbell watch
    added, and tools that capture and decode what libcuda submits to the GPU. A
    program submits work by writing a GPFIFO entry that points at a pushbuffer,
    advancing GP_PUT in USERD, and storing a work-submit token into a doorbell
    register mapped in a 64 KiB window. The watch maps a shadow page instead of
    the window, arms a hardware breakpoint on its doorbell in every thread, and
    in the #DB handler reads the token, finds the channel's USERD and ring, logs
    the entry and the pushbuffer bytes and forwards the token to the device. The
    channel's addresses come from a cache, filled by a resolver that runs on a
    kernel thread and asks the resource manager (RM). The addresses the handler
    may read come from two trackers of user mappings, filled by the driver's mmap.
    On the other side of the interface, nvidia-uvm submits the same way from the
    kernel: it takes room in a pushbuffer, an entry of a channel's GPFIFO and a
    value of the channel's tracking semaphore, whose payload tells when the entry
    is done and its room can be taken again. RM itself talks to the GSP through a
    pair of message queues in shared memory.

    ** Files

    - [Prelude]: machine integers, bit fields, scans of fixed tables, and the
      monad [prog E S A] of C functions over a state [S] with actions [E].
    - [Kernel]: errno values, VMAs, the actions of the driver side, trace records
      (src/src/common/sdk/nvidia/inc/mc-trace.h) and the accounting of resources
      [run_res], which fails on a release of something not held; [wp], a weakest
      precondition for programs that acquire and release.
    - [Trackers]: nv_dbell_bar1_track_*, nv_dbell_sysmem_track_* and the address
      lookups of src/kernel-open/nvidia/nv-doorbell-watch.c. The class
      [VaTracker] is what both promise.
    - [GpfifoTable]: the open-addressing table of ring addresses,
      nvGpuOpsDbellGpfifoRegister/Unregister and _dbellGpfifoLookup of
      src/src/nvidia/src/kernel/rmapi/nv_gpu_ops.c.
    - [KthreadQ]: src/kernel-open/nvidia/nv-kthread-q.c.
    - [DbellCache]: the driver state [dstate], the channel cache, the resolver
      nv_dbell_resolve_fn, its enqueueing, and the BAR1 teardown.
    - [DbellHandler]: nv_dbell_db_handler.
    - [DbellVma]: nv_dbell_intercept_mmap, slots, breakpoints, nv_dbell_vma_release.
    - [DbellSystem]: all entry points and the kernel thread as one step relation.
    - [Resolve]: nvGpuOpsDbellResolveChannel and its trampoline, the channel
      lookup of kernel_fifo.c, the hooks of channel construction and destruction.
    - [Submit]: GPFIFO entries and method headers as nvidia-uvm writes them, the
      work-submit token of kernel_fifo_ga100.c, and the codecs of
      src/reverse/tools/decode.py and address_atlas.py.
    - [NvMmap]: src/kernel-open/nvidia/nv-mmap.c: mmap, fault, access, release
      and revocation, with the calls into the watch and the trackers.
    - [Pbcap]: src/reverse/tools/pbcap.c, the preloaded user-space capture shim.
    - [Rings]: the index arithmetic of ring buffers, shared by the next files.
    - [UvmPushbuffer]: src/kernel-open/nvidia-uvm/uvm_pushbuffer.c, the allocator
      of the memory that GPFIFO entries point at.
    - [UvmSemaphore]: uvm_gpu_semaphore.c: pools of semaphores, the 64-bit tracking
      semaphore, and the reader of payloads the copy engine encrypts.
    - [UvmChannel]: uvm_channel.c: reservation, pushes, control entries, progress,
      waiting, errors and suspension of a channel and of a pool.
    - [UvmSystem]: channels that share a pushbuffer, run together.
    - [UvmTracker]: uvm_tracker.c: lists of work to wait for, against what the class
      [channel_laws] says of channels.
    - [UvmPush]: uvm_push.c, uvm_push.h and the semaphore, membar and no-op methods of
      uvm_turing_host.c and uvm_hopper_host.c; the channels of [UvmChannel] as an
      instance of [channel_laws].
    - [Msgq]: src/src/nvidia/src/libraries/msgq/msgq.c, the message queue between
      RM and the GPU's system processor (GSP).
    - [GspQueue]: the records of remote procedure calls that
      src/src/nvidia/src/kernel/gpu/gsp/message_queue_cpu.c sends and receives over
      that queue, with their checksum and sequence number.
    - [GspSetup]: GspMsgQueuesInit and GspMsgQueuesCleanup of the same file.
    - [GspRpc]: two ends that run [GspQueue] over the queues of [GspSetup].
    - [RbTree], [RangeTree]: uvm_rb_tree.c and uvm_range_tree.c of nvidia-uvm, search
      trees whose nodes are also on a list; the class [RbLaws] is what the kernel's
      rebalancing keeps.
    - [RangeAllocator]: uvm_range_allocator.c, over a range tree of what is free.
    - [TraceText]: the text of a trace record, as MC_TRACE of mc-trace.h prints it and
      as the regular expressions of src/reverse/tools/strace_diff.py read it.
    - [FtraceParse]: parse_ftrace of strace_diff.py, from the lines of a capture to
      the events the other tools work on.
    - [TraceBodies]: the rows in which escape.c and uvm.c print the parameters of an
      allocation and of an ioctl, through the parser; the class [RowLaws] is what the
      parser's tables of rows have in common.
    - [TraceDump]: the chunks of the trap handler's dump, through the parser.
    - [LcsDiff]: lcs_diff of strace_diff.py, the alignment of two sequences of ioctls.
    - [Timeline]: src/reverse/tools/timeline_merge.py: the parser's events, those of the
      shim and those of strace as dictionaries on one clock, merged, filtered and cut.
    - [TraceSection]: src/reverse/tools/trace_section.py: the window of a call in that
      timeline, and the rows of one ioctl folded into one event.
    - [Atlas]: build_atlas and _resolve_gpu_va of src/reverse/tools/address_atlas.py: the
      allocations, mappings, channels and submissions of that timeline, in one state
      [Atlas] that each event changes; the passes after the last event.
    - [AtlasHistory]: which timelines it reads to the end, and what it says of a
      submitted address.
    - [AtlasMirror]: the driver's tracker, its trace records, the parser, the timeline
      and the atlas, composed.
    - [AtlasLedger]: the mappings of each channel.

    State is a record per component with the source's fields, an operation a
    definition with the source's name; where a C function is long its blocks are
    definitions of their own, composed as the function composes them.

    ** What the theorems show

    - The watch as a system ([DbellSystem]): while the work queue
      accepts items, in every reachable state resources are held exactly once and
      nothing is freed twice, every trap is handled with in-bounds reads, at most
      four windows are watched, and a pending cache entry always has a work item
      behind it.
    - The handler ([DbellHandler]): the token is always forwarded, last; reads
      stay in the ring, USERD and the tracked pushbuffer; a submission is dumped
      completely, once.
    - Interception and release ([DbellVma]): all or nothing, and inverse.
    - Tables ([Trackers], [GpfifoTable], [DbellCache], [Resolve]): the hash table
      refines a bounded finite map, the trackers' lookups are sound and complete,
      the resolver answers with what the live channel registered.
    - The work queue ([KthreadQ]): it never warns about an empty list, and a flush
      runs what was queued and what that queued.
    - mmap ([NvMmap]): mapping, faulting and debugger access agree on the physical
      address behind each byte; a failed mmap leaves counts and locks as they were.
    - Formats ([Submit]): what the drivers write is what the handler and the tools
      read; the token carries the channel and the runlist.
    - The shim ([Pbcap]): each store to an armed page happens once and is logged
      once; what a snapshot of a maps listing writes, line by line.
    - Submission in nvidia-uvm: what begins, ends or is pending in the pushbuffer
      never overlaps ([UvmPushbuffer]), a channel completes entries in the order
      they were pushed and its assertions hold ([UvmChannel]), the tracking
      semaphore loses no wrap-around and the pool never hands a semaphore out
      twice, an encrypted payload is decrypted only from a consistent snapshot
      ([UvmSemaphore]); the loops that wait end when the GPU makes progress or an
      error appears. Together ([UvmSystem]): what the GPU may still read is never
      given to another push.
    - Dependencies in nvidia-uvm ([UvmTracker], [UvmPush]): a tracker loses no
      dependency whichever allocations fail, waiting for it ends, adding one to
      another takes the larger value per channel, and the methods a push begins
      with hold its work back until what its tracker names is done; inline data
      is at the same place for the CPU and the GPU, and a push that fails to begin
      returns its entry.
    - Ranges in nvidia-uvm ([RbTree], [RangeTree], [RangeAllocator]): a search tree is a
      map by key; every operation of a range tree changes the owner of exactly the
      addresses it should, holes are the largest there are; allocated ranges are
      aligned and disjoint, a request is refused only when nothing fits, and freeing
      everything restores the one range and frees the memory.
    - The message queue ([Msgq]): from creation and linking on, in any interleaving
      and with any failing access, each direction delivers every message once and
      in order; the cached pointers err on the safe side; a submission is all or
      nothing.
    - Remote procedure calls ([GspSetup], [GspRpc]): set up as the code does, records
      of up to 16 pages arrive once, unchanged and in order in both directions;
      a changed word or an injected error costs that record only; receiving always
      ends; a failed set-up releases what it acquired.
    - Traces ([TraceText], [TraceBodies], [TraceDump]): a printed record is read back as
      it was; parameters and pushbuffer dumps come out of a capture as the bytes the
      driver read, in whatever order their rows and chunks stand and whatever stands
      between them.
    - The tools' view of a trace ([LcsDiff], [Timeline], [TraceSection]): every event the
      parser makes has the shape its kind is unpacked with, so the projection never
      raises; the merge is a stable sort that loses nothing; a call's window is that
      call, nested calls inside; folding cuts the timeline into clusters of at most one
      row per source and kind and keeps each row's details; the diff of two sequences
      aligns them with as much in common as there is.
    - The atlas ([AtlasHistory], [AtlasMirror], [AtlasLedger]): a timeline of readable
      numbers raises nothing; what is said of a submitted address is what was mapped at
      the time of the submission, whatever comes later; the ranges open in the atlas of
      a complete capture are those in the driver's table of tracked memory; a mapping
      into a carrier is kept once, with the channel it belongs to or apart.
    - Some theorems pin down behaviour that differs from the code's intent: an
      address range that wraps, a double free when the queue refuses an item, a
      teardown during a resolution, a stale cache entry when a channel id is
      reused, a mapping leaked when peer I/O fails, a revocation that ends the
      watch, a GPFIFO decoder that shifts the address, a chunk claimed for good
      after an error, a reservation count that wraps, a message queue header
      that places the receiver's read pointer outside the block, a record that
      overruns the staging area, and a page table that misses a page.

    ** Bounds and fuel

    C loops over arrays and lists are structural. Loops on a counter carry fuel:
    64 chunks of 64 bytes in [emit_chunks], as the dump is guarded by 4096 bytes;
    16 pages in [insert_pages], as the interception is guarded by 64 KiB; the
    table size in [gp_scan] and [gp_choose], as the source bounds the probe; the
    number of queued items in [_raw_q_flush], as the queue is first-in first-out
    and the completion item is the last of them; the number of words in
    [decode_pushbuffer], as each turn consumes one; the length of the buffer in
    [snapshot_all_sigsafe], as each turn overwrites a newline; 20 hexadecimal and
    16 decimal digits in the formatters, the sizes of their buffers; two
    executions of a store in [cpu_stores], proved enough. The loops of nvidia-uvm
    that spin until the GPU makes progress carry fuel for their rounds and an
    oracle of what the other threads and the GPU do in each round; the termination
    theorems give the number of rounds that is enough. [rx_loop] carries fuel for
    its retries: four rounds are enough between ends that follow the protocol,
    2^32 + 3 whatever the memory holds. A loop over a range tree carries the
    length of its list, as each turn moves along it; a scan of a text its length, as
    each turn consumes a character; [fold_loop] the number of events and [diff_walk] the
    lengths of both sequences, as each turn takes one; a printed number 20 decimal or 16 hexadecimal
    digits, enough for 64 bits. Unsigned arithmetic
    that can leave its width is wrapped with [u8], [u32] or [u64].

    ** What is a parameter

    The kernel's allocators, ioremap, vmap, page insertion, breakpoint
    registration, thread creation, red-black rebalancing, memory contents, and RM's
    objects are arguments: functions and records of answers. So are Python's conversion
    of a time stamp, its decoding of a quoted value and its [str] of what is no number
    or string, and the text of a hashed pointer ([%p]) in a trace. Each theorem names what it
    assumes of them, and its witness instantiates them.

    ** What is not modelled

    A section under a spinlock is one step; the race of the resolver with a
    teardown is modelled with its steps apart. Weak memory order and
    locking-only code are left out. So are the rest of the
    kernel modules and of RM, the other nvidia-uvm code (and of its channels the
    proxy channels of virtual GPUs, the launch channels and key rotation of
    confidential computing, creation and destruction; of its pushes the choice of
    a channel by type, descriptions and timestamps), the encryption of the
    GSP's records (a send and a receive of these are one step each), the tools that only
    reformat traces, and of the modelled ones their files and printed reports, the
    strace parser and the inference of a handle's role, the names of the method
    catalogue and the search for pushbuffers in snapshot files; the CUDA test programs, and of [pbcap.c] the worker thread's
    snapshot through stdio, the CUDA call markers and the start-up. *)
From stdpp Require Import base numbers list list_numbers sorting strings gmap.
#[local] Open Scope Z_scope.

(** ** Machine integers

    A C unsigned integer of width [w] is a [Z]; arithmetic that can leave the
    range is wrapped explicitly with [u8], [u32] or [u64]. *)
Definition u8 (z : Z) : Z := z mod 2 ^ 8.
Definition u32 (z : Z) : Z := z mod 2 ^ 32.
Definition u64 (z : Z) : Z := z mod 2 ^ 64.

(** A C [int] keeps its value in two's complement. *)
Definition s32 (z : Z) : Z := (z + 2 ^ 31) mod 2 ^ 32 - 2 ^ 31.

Definition is_u8 (z : Z) : Prop := 0 ≤ z < 2 ^ 8.
Definition is_u32 (z : Z) : Prop := 0 ≤ z < 2 ^ 32.
Definition is_u64 (z : Z) : Prop := 0 ≤ z < 2 ^ 64.

(** UVM_ALIGN_UP of uvm_common.h, of a 64-bit value. *)
Definition UVM_ALIGN_UP (x a : Z) : Z := Z.land (u64 (x + a - 1)) (u64 (Z.lnot (a - 1))).

(** ** Texts

    A text is the list of its character codes: bytes in C, code points in Python. *)
Abbreviation text := (list Z).

(** The codes of a string literal. *)
Fixpoint codes (s : string) : text :=
  match s with
  | EmptyString => []
  | String c s => Z.of_N (Ascii.N_of_ascii c) :: codes s
  end.

Fixpoint take_while (f : Z → bool) (t : text) : text :=
  match t with
  | [] => []
  | c :: t => if f c then c :: take_while f t else []
  end.

Fixpoint drop_while (f : Z → bool) (t : text) : text :=
  match t with
  | [] => []
  | c :: t' => if f c then drop_while f t' else t
  end.

Definition starts_with (needle t : text) : bool :=
  bool_decide (take (length needle) t = needle).

(** A null pointer. Pointers are addresses, hence integers. *)
Definition NULL : Z := 0.

(** Status codes several components return. *)
Definition NV_OK : Z := 0.
Definition NV_ERR_GENERIC : Z := 0xFFFF.
Definition NV_ERR_INVALID_STATE : Z := 0x40.
Definition NV_ERR_NO_MEMORY : Z := 0x51.
Definition NV_ERR_BUSY_RETRY : Z := 0x03.

(** ** Resources

    [release r held] gives back [r], which must be among what is held. *)
Fixpoint release {R} `{!EqDecision R} (r : R) (held : list R) : option (list R) :=
  match held with
  | [] => None
  | r' :: held' => if decide (r = r') then Some held' else (r' ::.) <$> release r held'
  end.

(** ** The effect monad

    A C function that reads and writes a state [S] and performs externally
    visible actions [E] (memory reads, MMIO writes, allocations, trace records)
    is a state transformer that also returns the actions it performed, in
    program order. *)
Definition prog (E S A : Type) : Type := S → A * S * list E.

Section ops.
Context {E S : Type}.

#[global] Instance prog_ret : MRet (prog E S) := λ A a s, (a, s, []).

#[global] Instance prog_bind : MBind (prog E S) := λ A B k m s,
  let '(a, s1, es1) := m s in
  let '(b, s2, es2) := k a s1 in
  (b, s2, es1 ++ es2).

Definition get : prog E S S := λ s, (s, s, []).
Definition gets {A} (f : S → A) : prog E S A := λ s, (f s, s, []).
Definition put (s : S) : prog E S unit := λ _, (tt, s, []).
Definition modify (f : S → S) : prog E S unit := λ s, (tt, f s, []).
Definition tell (es : list E) : prog E S unit := λ s, (tt, s, es).
Definition skip : prog E S unit := λ s, (tt, s, []).

(** [when b m] is C's [if (b) m;]. *)
Definition when (b : bool) (m : prog E S unit) : prog E S unit :=
  if b then m else skip.

Definition run_val {A} (m : prog E S A) (s : S) : A := (m s).1.1.
Definition run_st {A} (m : prog E S A) (s : S) : S := (m s).1.2.
Definition run_eff {A} (m : prog E S A) (s : S) : list E := (m s).2.

(** [emits Φ m]: whatever the state, every action of [m] satisfies [Φ]. *)
Definition emits {A} (Φ : E → Prop) (m : prog E S A) : Prop :=
  ∀ s, Forall Φ (run_eff m s).

(** [steps R m]: [m] relates its initial and final state by [R]. *)
Definition steps {A} (R : relation S) (m : prog E S A) : Prop :=
  ∀ s, R s (run_st m s).
End ops.

(** Run a program over a component of a larger state. *)
Definition zoom {E S T A} (g : S → T) (u : T → S → S) (m : prog E T A)
  : prog E S A :=
  λ s, let '(a, t, es) := m (g s) in (a, u t s, es).

(** Run [f] on each element in turn: C's [for] over a list of values. *)
Fixpoint for_each {E S A} (f : A → prog E S unit) (l : list A) : prog E S unit :=
  match l with
  | [] => skip
  | x :: l => f x;; for_each f l
  end.

(** ** Bit fields: C's [(x >> lo) & mask(hi-lo+1)] and its inverse *)
Definition bits (hi lo x : Z) : Z := Z.land (Z.shiftr x lo) (Z.ones (hi - lo + 1)).

Create HintDb mach.
Create Rewrite HintDb mach.
Create HintDb eff.

(** * Lemmas *)

Ltac zify_divmod := Z.to_euclidean_division_equations; lia.

Lemma u32_small z : is_u32 z → u32 z = z.
Proof. apply Z.mod_small. Qed.

Lemma u64_small z : is_u64 z → u64 z = z.
Proof. apply Z.mod_small. Qed.

Lemma u8_small z : is_u8 z → u8 z = z.
Proof. apply Z.mod_small. Qed.

Lemma u32_range z : is_u32 (u32 z).
Proof. apply Z.mod_pos_bound. lia. Qed.

Lemma u64_range z : is_u64 (u64 z).
Proof. apply Z.mod_pos_bound. lia. Qed.

Lemma u8_range z : is_u8 (u8 z).
Proof. apply Z.mod_pos_bound. lia. Qed.

#[export] Hint Resolve u8_range u32_range u64_range : mach.
#[export] Hint Rewrite u8_small u32_small u64_small
  using (unfold is_u8, is_u32, is_u64 in *; lia) : mach.

(** Masking with [2^n - 1] is reduction modulo [2^n]. *)
Lemma land_ones_mod x n : 0 ≤ n → Z.land x (Z.ones n) = x mod 2 ^ n.
Proof. apply Z.land_ones. Qed.

Lemma land_pow2_mask x n : 0 ≤ n → Z.land x (2 ^ n - 1) = x mod 2 ^ n.
Proof. intros. rewrite <-Z.land_ones by lia. by rewrite Z.ones_equiv, Z.sub_1_r. Qed.

Lemma bits_div hi lo x : 0 ≤ lo ≤ hi + 1 →
  bits hi lo x = (x / 2 ^ lo) mod 2 ^ (hi - lo + 1).
Proof. intros. unfold bits. rewrite Z.land_ones, Z.shiftr_div_pow2 by lia. done. Qed.

Lemma take_while_all f t q : Forall (λ c, f c = true) t →
  take_while f (t ++ q) = t ++ take_while f q.
Proof. induction 1 as [|c t Hc _ IH]; [done|]. simpl. by rewrite Hc, IH. Qed.

Lemma drop_while_all f t q : Forall (λ c, f c = true) t →
  drop_while f (t ++ q) = drop_while f q.
Proof. induction 1 as [|c t Hc _ IH]; [done|]. simpl. by rewrite Hc, IH. Qed.

Lemma drop_while_stop f t : (∀ c, head t = Some c → f c = false) → drop_while f t = t.
Proof. destruct t as [|c t]; [done|]. intros H. simpl. by rewrite (H c). Qed.

Lemma take_while_length f t : (length (take_while f t) ≤ length t)%nat.
Proof. induction t as [|c t IH]; [done|]. simpl. destruct (f c); simpl; lia. Qed.

(** Or-ing a low part with a shifted high part is addition. *)
Lemma lor_shift_add a b n : 0 ≤ n → 0 ≤ a < 2 ^ n →
  Z.lor a (Z.shiftl b n) = a + b * 2 ^ n.
Proof.
  intros Hn Ha. rewrite <-Z.shiftl_mul_pow2 by lia.
  symmetry. rewrite Z.add_nocarry_lxor, Z.lxor_lor; try done.
  all: apply Z.bits_inj'; intros i Hi; rewrite Z.land_spec, Z.shiftl_spec, Z.bits_0 by lia.
  all: destruct (decide (i < n));
    [by rewrite (Z.testbit_neg_r b), andb_false_r by lia|].
  all: rewrite <-(Z.mod_small a (2 ^ n)), Z.mod_pow2_bits_high by lia; done.
Qed.

Lemma lor_mul_add a b n : 0 ≤ n → 0 ≤ a < 2 ^ n → Z.lor a (b * 2 ^ n) = a + b * 2 ^ n.
Proof. intros Hn Ha. rewrite <-(Z.shiftl_mul_pow2 b n) at 1 by lia. by apply lor_shift_add. Qed.

(** Masking with [b] ones above [a] zeros clears the low [a] bits of a number of
    [a + b] bits. *)
Lemma land_high_mask x a b : 0 ≤ a → 0 ≤ b → 0 ≤ x < 2 ^ (a + b) →
  Z.land x (Z.shiftl (Z.ones b) a) = x / 2 ^ a * 2 ^ a.
Proof.
  intros Ha Hb Hx. rewrite <-Z.shiftr_div_pow2, <-Z.shiftl_mul_pow2 by lia.
  apply Z.bits_inj'. intros n Hn. rewrite Z.land_spec, !Z.shiftl_spec by lia.
  destruct (decide (n < a)).
  { by rewrite (Z.testbit_neg_r (Z.ones b)), (Z.testbit_neg_r (Z.shiftr x a)), andb_false_r by lia. }
  rewrite Z.shiftr_spec, Z.testbit_ones by lia. replace (n - a + a) with n by lia.
  rewrite (proj2 (Z.leb_le 0 (n - a))) by lia. destruct (Z.ltb_spec (n - a) b); [by rewrite andb_true_r|].
  rewrite andb_false_r. rewrite <-(Z.mod_small x (2 ^ (a + b))) by lia.
  by rewrite Z.mod_pow2_bits_high by lia.
Qed.

(** The mask of UVM_ALIGN_UP keeps the bits from [k] up. *)
Lemma align_mask k : 0 ≤ k ≤ 63 → u64 (Z.lnot (2 ^ k - 1)) = Z.shiftl (Z.ones (64 - k)) k.
Proof.
  intros Hk. assert (0 < 2 ^ k) by (apply Z.pow_pos_nonneg; lia).
  rewrite Z.shiftl_mul_pow2, Z.ones_equiv, <-Z.sub_1_r, Z.mul_sub_distr_r, <-Z.pow_add_r by lia.
  replace (64 - k + k) with 64 by lia. unfold u64, Z.lnot.
  replace (Z.pred (- (2 ^ k - 1))) with (2 ^ 64 - 1 * 2 ^ k + (-1) * 2 ^ 64) by lia.
  rewrite Z.mod_add by lia. apply Z.mod_small. assert (2 ^ k ≤ 2 ^ 63) by (apply Z.pow_le_mono_r; lia). lia.
Qed.

Lemma UVM_ALIGN_UP_eq x k : 0 ≤ k ≤ 63 → 0 ≤ x → x + 2 ^ k - 1 < 2 ^ 64 →
  UVM_ALIGN_UP x (2 ^ k) = (x + 2 ^ k - 1) / 2 ^ k * 2 ^ k.
Proof.
  intros Hk Hx Hb. unfold UVM_ALIGN_UP. assert (0 < 2 ^ k) by (apply Z.pow_pos_nonneg; lia).
  rewrite (u64_small (x + 2 ^ k - 1)) by (unfold is_u64; lia). rewrite align_mask by done.
  apply land_high_mask; [lia..|]. replace (k + (64 - k)) with 64 by lia. lia.
Qed.

(** Past the last multiple of the alignment it wraps to 0. *)
Lemma UVM_ALIGN_UP_wrap x k : 0 ≤ k ≤ 63 → is_u64 x → 2 ^ 64 ≤ x + 2 ^ k - 1 → UVM_ALIGN_UP x (2 ^ k) = 0.
Proof.
  intros Hk [Hx Hx'] Hb. unfold UVM_ALIGN_UP. assert (0 < 2 ^ k) by (apply Z.pow_pos_nonneg; lia).
  assert (2 ^ k ≤ 2 ^ 63) by (apply Z.pow_le_mono_r; lia).
  assert (u64 (x + 2 ^ k - 1) = x + 2 ^ k - 1 - 2 ^ 64) as ->.
  { unfold u64. symmetry. apply (Z.mod_unique _ _ 1); lia. }
  rewrite align_mask by done. rewrite land_high_mask by (try lia; replace (k + (64 - k)) with 64 by lia; lia).
  rewrite Z.div_small by lia. lia.
Qed.

(** A masked value never exceeds the mask. *)
Lemma land_le_r a b : 0 ≤ b → 0 ≤ Z.land a b ≤ b.
Proof.
  intros Hb. apply Z.ldiff_le; [done|]. apply Z.bits_inj'. intros n _.
  rewrite Z.ldiff_spec, Z.land_spec, Z.bits_0. by destruct (Z.testbit a n), (Z.testbit b n).
Qed.

Section laws.
Context {E S : Type}.
Implicit Types (s : S) (Φ : E → Prop).

Lemma run_eta {A} (m : prog E S A) s : m s = (run_val m s, run_st m s, run_eff m s).
Proof. unfold run_val, run_st, run_eff. by destruct (m s) as [[??]?]. Qed.

Lemma run_bind {A B} (m : prog E S A) (k : A → prog E S B) s :
  (m ≫= k) s =
    (run_val (k (run_val m s)) (run_st m s),
     run_st (k (run_val m s)) (run_st m s),
     run_eff m s ++ run_eff (k (run_val m s)) (run_st m s)).
Proof.
  unfold mbind, prog_bind, run_val, run_st, run_eff.
  destruct (m s) as [[a s1] es1]; simpl. by destruct (k a s1) as [[b s2] es2].
Qed.

Lemma run_val_bind {A B} (m : prog E S A) (k : A → prog E S B) s :
  run_val (m ≫= k) s = run_val (k (run_val m s)) (run_st m s).
Proof. unfold run_val at 1. by rewrite run_bind. Qed.

Lemma run_st_bind {A B} (m : prog E S A) (k : A → prog E S B) s :
  run_st (m ≫= k) s = run_st (k (run_val m s)) (run_st m s).
Proof. unfold run_st at 1. by rewrite run_bind. Qed.

Lemma run_eff_bind {A B} (m : prog E S A) (k : A → prog E S B) s :
  run_eff (m ≫= k) s = run_eff m s ++ run_eff (k (run_val m s)) (run_st m s).
Proof. unfold run_eff at 1. by rewrite run_bind. Qed.

(** A first step whose whole run is known. *)
Lemma run_bind_eq {A B} (m : prog E S A) (k : A → prog E S B) s a s' es b s'' es' :
  m s = (a, s', es) → k a s' = (b, s'', es') → (m ≫= k) s = (b, s'', es ++ es').
Proof. intros Hm Hk. unfold mbind, prog_bind. by rewrite Hm, Hk. Qed.

(** First steps of a program that do not branch. *)
Lemma run_gets {A B} (f : S → A) (k : A → prog E S B) s : (gets f ≫= k) s = k (f s) s.
Proof. unfold mbind, prog_bind, gets. by destruct (k (f s) s) as [[??]?]. Qed.

Lemma run_get {B} (k : S → prog E S B) s : (get ≫= k) s = k s s.
Proof. unfold mbind, prog_bind, get. by destruct (k s s) as [[??]?]. Qed.

Lemma run_modify {B} (f : S → S) (k : unit → prog E S B) s : (modify f ≫= k) s = k tt (f s).
Proof. unfold mbind, prog_bind, modify. by destruct (k tt (f s)) as [[??]?]. Qed.

Lemma run_skip {B} (k : unit → prog E S B) s : (skip ≫= k) s = k tt s.
Proof. unfold mbind, prog_bind, skip. by destruct (k tt s) as [[??]?]. Qed.

Lemma run_st_gets {A B} (f : S → A) (k : A → prog E S B) s :
  run_st (gets f ≫= k) s = run_st (k (f s)) s.
Proof. unfold run_st. by rewrite run_gets. Qed.

Lemma run_st_get {B} (k : S → prog E S B) s : run_st (get ≫= k) s = run_st (k s) s.
Proof. unfold run_st. by rewrite run_get. Qed.

Lemma run_st_modify {B} (f : S → S) (k : unit → prog E S B) s :
  run_st (modify f ≫= k) s = run_st (k tt) (f s).
Proof. unfold run_st. by rewrite run_modify. Qed.

Lemma run_st_tell {B} es (k : unit → prog E S B) s :
  run_st (tell es ≫= k) s = run_st (k tt) s.
Proof. by rewrite run_st_bind. Qed.

Lemma run_st_skip {B} (k : unit → prog E S B) s : run_st (skip ≫= k) s = run_st (k tt) s.
Proof. by rewrite run_st_bind. Qed.

Lemma run_eff_gets {A B} (f : S → A) (k : A → prog E S B) s :
  run_eff (gets f ≫= k) s = run_eff (k (f s)) s.
Proof. unfold run_eff. by rewrite run_gets. Qed.

Lemma run_eff_get {B} (k : S → prog E S B) s : run_eff (get ≫= k) s = run_eff (k s) s.
Proof. unfold run_eff. by rewrite run_get. Qed.

Lemma run_eff_modify {B} (f : S → S) (k : unit → prog E S B) s :
  run_eff (modify f ≫= k) s = run_eff (k tt) (f s).
Proof. unfold run_eff. by rewrite run_modify. Qed.

Lemma run_eff_skip {B} (k : unit → prog E S B) s : run_eff (skip ≫= k) s = run_eff (k tt) s.
Proof. unfold run_eff. by rewrite run_skip. Qed.

Lemma run_eff_tell {B} es (k : unit → prog E S B) s :
  run_eff (tell es ≫= k) s = es ++ run_eff (k tt) s.
Proof. by rewrite run_eff_bind. Qed.

Lemma emits_ret {A} Φ (a : A) : emits Φ (mret a : prog E S A).
Proof. intros s. constructor. Qed.

Lemma emits_bind {A B} Φ (m : prog E S A) (k : A → prog E S B) :
  emits Φ m → (∀ a, emits Φ (k a)) → emits Φ (m ≫= k).
Proof. intros Hm Hk s. rewrite run_eff_bind. apply Forall_app. split; [apply Hm|apply Hk]. Qed.

Lemma emits_tell Φ (es : list E) : Forall Φ es → emits Φ (tell es : prog E S unit).
Proof. by intros H s. Qed.

Lemma emits_get Φ : emits Φ (get : prog E S S).
Proof. intros s. constructor. Qed.

Lemma emits_gets {A} Φ (f : S → A) : emits Φ (gets f : prog E S A).
Proof. intros s. constructor. Qed.

Lemma emits_put Φ s' : emits Φ (put s' : prog E S unit).
Proof. intros s. constructor. Qed.

Lemma emits_modify Φ (f : S → S) : emits Φ (modify f : prog E S unit).
Proof. intros s. constructor. Qed.

Lemma emits_skip Φ : emits Φ (skip : prog E S unit).
Proof. intros s. constructor. Qed.

Lemma emits_when Φ b (m : prog E S unit) : emits Φ m → emits Φ (when b m).
Proof. intros H. destruct b; [done|apply emits_skip]. Qed.

Lemma emits_zoom {T A} Φ (g : S → T) (u : T → S → S) (m : prog E T A) :
  emits Φ m → emits Φ (zoom g u m).
Proof.
  intros H s. specialize (H (g s)). unfold run_eff, zoom in *.
  by destruct (m (g s)) as [[a t] es].
Qed.

Lemma emits_for_each {A} Φ (f : A → prog E S unit) l :
  (∀ x, emits Φ (f x)) → emits Φ (for_each f l).
Proof. intros H. induction l; [apply emits_skip|by apply emits_bind]. Qed.

Lemma emits_impl {A} (Φ Ψ : E → Prop) (m : prog E S A) :
  (∀ e, Φ e → Ψ e) → emits Φ m → emits Ψ m.
Proof. intros HI Hm s. eapply Forall_impl; [apply Hm|done]. Qed.

Lemma steps_ret {A} (R : relation S) `{!Reflexive R} (a : A) : steps R (mret a : prog E S A).
Proof. intros s. by unfold run_st. Qed.

Lemma steps_bind {A B} (R : relation S) `{!Transitive R}
    (m : prog E S A) (k : A → prog E S B) :
  steps R m → (∀ a, steps R (k a)) → steps R (m ≫= k).
Proof. intros Hm Hk s. rewrite run_st_bind. etrans; [apply Hm|apply Hk]. Qed.

Lemma steps_tell (R : relation S) `{!Reflexive R} es : steps R (tell es : prog E S unit).
Proof. intros s. by unfold run_st. Qed.

Lemma steps_gets {A} (R : relation S) `{!Reflexive R} (f : S → A) : steps R (gets f : prog E S A).
Proof. intros s. by unfold run_st. Qed.

Lemma steps_get (R : relation S) `{!Reflexive R} : steps R (get : prog E S S).
Proof. intros s. by unfold run_st. Qed.

Lemma steps_skip (R : relation S) `{!Reflexive R} : steps R (skip : prog E S unit).
Proof. intros s. by unfold run_st. Qed.

Lemma steps_modify (R : relation S) f : (∀ s, R s (f s)) → steps R (modify f : prog E S unit).
Proof. intros H s. apply H. Qed.

(** [m] run in [s] ends with a result and a state in [Q]. *)
Definition runs_to {A} (m : prog E S A) (Q : A → S → Prop) (s : S) : Prop := Q (run_val m s) (run_st m s).

Lemma runs_to_bind {A B} (m : prog E S A) (k : A → prog E S B) Q s :
  runs_to m (λ a, runs_to (k a) Q) s → runs_to (m ≫= k) Q s.
Proof. unfold runs_to. by rewrite run_val_bind, run_st_bind. Qed.

Lemma runs_to_mono {A} (m : prog E S A) (Q Q' : A → S → Prop) s :
  runs_to m Q s → (∀ a s', Q a s' → Q' a s') → runs_to m Q' s.
Proof. intros Hm HQ. apply HQ, Hm. Qed.

Lemma runs_to_ret {A} (a : A) (Q : A → S → Prop) s : Q a s → runs_to (mret a : prog E S A) Q s.
Proof. done. Qed.

(** Sequencing with a known first part. *)
Lemma runs_to_seq {A B} (m : prog E S A) (k : A → prog E S B) (R : A → S → Prop) Q s :
  runs_to m R s → (∀ a s', R a s' → runs_to (k a) Q s') → runs_to (m ≫= k) Q s.
Proof. intros Hm Hk. apply runs_to_bind. by eapply runs_to_mono. Qed.

Lemma runs_to_gets {A B} (f : S → A) (k : A → prog E S B) Q s : runs_to (k (f s)) Q s → runs_to (gets f ≫= k) Q s.
Proof. intros H. by apply runs_to_bind. Qed.

Lemma runs_to_modify {B} (f : S → S) (k : unit → prog E S B) Q s : runs_to (k tt) Q (f s) → runs_to (modify f ≫= k) Q s.
Proof. intros H. by apply runs_to_bind. Qed.

Lemma runs_to_tell {B} es (k : unit → prog E S B) Q s : runs_to (k tt) Q s → runs_to (tell es ≫= k) Q s.
Proof. intros H. by apply runs_to_bind. Qed.
End laws.

Lemma release_eq `{!EqDecision R} (r : R) held : release r (r :: held) = Some held.
Proof. simpl. by rewrite decide_True. Qed.

Lemma release_ne `{!EqDecision R} (r r' : R) held :
  r ≠ r' → release r (r' :: held) = (r' ::.) <$> release r held.
Proof. intros. simpl. by rewrite decide_False. Qed.

#[global] Arguments release : simpl never.

(** Decompose a [steps] goal, for a relation with a [PreOrder] instance. *)
Ltac steps_solve :=
  repeat match goal with
  | |- steps ?R (mbind _ _) => apply (steps_bind R); [|intros ?]
  | |- steps _ (if ?b then _ else _) => destruct b
  | |- steps _ (match ?x with _ => _ end) => destruct x
  | |- steps ?R (mret _) => apply (steps_ret R)
  | |- steps ?R skip => apply (steps_skip R)
  | |- steps ?R (tell _) => apply (steps_tell R)
  | |- steps ?R (gets _) => apply (steps_gets R)
  | |- steps ?R get => apply (steps_get R)
  | |- steps ?R (modify _) => apply (steps_modify R); intros ?; try done
  end.

Create Rewrite HintDb run.
#[export] Hint Rewrite @run_st_gets @run_st_get @run_st_modify @run_st_tell @run_st_skip
  @run_eff_gets @run_eff_get @run_eff_modify @run_eff_skip @run_eff_tell : run.

#[export] Hint Resolve emits_ret emits_get emits_gets emits_put emits_modify emits_skip : eff.

(** Decompose an [emits] goal along the structure of the program. *)
Ltac emits_step :=
  match goal with
  | |- emits _ (mbind _ _) => apply emits_bind; [|intros ?]
  | |- emits _ (when _ _) => apply emits_when
  | |- emits _ (zoom _ _ _) => apply emits_zoom
  | |- emits _ (tell _) => apply emits_tell
  | |- emits _ (for_each _ _) => apply emits_for_each; intros ?
  | |- emits _ (if ?b then _ else _) => destruct b eqn:?
  | |- emits _ (match ?x with _ => _ end) => destruct x eqn:?
  | |- emits _ _ => solve [eauto with eff]
  end.
Ltac emits_solve := repeat emits_step; repeat constructor; try done.

(** ** Scans of fixed-size tables

    Every table of the code is searched by [for (i = 0; i < N; i++) if (cond)
    { ...; break; }]: the first index whose entry satisfies the condition. *)
Section scan.
Context {A : Type} (P : A → Prop) `{∀ x, Decision (P x)}.
Implicit Types (l : list A).

Lemma scan_lookup l i x : list_find P l = Some (i, x) → l !! i = Some x ∧ P x.
Proof. rewrite list_find_Some. naive_solver. Qed.

Lemma scan_lt l i x : list_find P l = Some (i, x) → (i < length l)%nat.
Proof. intros [? _]%scan_lookup. by eapply lookup_lt_Some. Qed.

Lemma scan_complete l i x : l !! i = Some x → P x → ∃ j y, list_find P l = Some (j, y).
Proof.
  intros Hl Hx. destruct (list_find P l) as [[j y]|] eqn:Hf; [eauto|].
  apply list_find_None in Hf. rewrite Forall_lookup in Hf. exfalso. by eapply Hf.
Qed.

(** Writing a slot and writing it back restores the table. *)
Lemma insert_restore l i x y : l !! i = Some x → <[i:=x]> (<[i:=y]> l) = l.
Proof. intros Hl. rewrite list_insert_insert_eq. by apply list_insert_id. Qed.

(** Updating a slot in place is writing its new contents. *)
Lemma list_alter_insert (f : A → A) l i x : l !! i = Some x → alter f i l = <[i := f x]> l.
Proof.
  revert i. induction l as [|y l IH]; intros [|i] Hl; simplify_eq/=; [done|].
  unfold alter, insert in *. simpl. f_equal. by apply IH.
Qed.
End scan.

(** A sum over a table of which one slot is written. *)
Lemma sum_list_insert {A} (f : A → nat) l i x y : l !! i = Some x →
  (sum_list (f <$> <[i := y]> l) + f x = sum_list (f <$> l) + f y)%nat.
Proof.
  revert i. induction l as [|z l IH]; intros [|i] Hi; simplify_eq/=; [lia|].
  specialize (IH i Hi). change (list_insert i y l) with (<[i := y]> l). lia.
Qed.

Lemma sum_list_le {A} (f : A → nat) l i x : l !! i = Some x → (f x ≤ sum_list (f <$> l))%nat.
Proof.
  revert i. induction l as [|z l IH]; intros [|i] Hi; simplify_eq/=; [lia|].
  specialize (IH i Hi). lia.
Qed.

Lemma omap_length_le {A B} (f : A → option B) l : (length (omap f l) ≤ length l)%nat.
Proof. induction l as [|x l IH]; csimpl; [lia|]. destruct (f x); simpl; lia. Qed.

Lemma sorted_snoc {A} (R : relation A) l x :
  StronglySorted R (l ++ [x]) ↔ StronglySorted R l ∧ Forall (λ y, R y x) l.
Proof.
  rewrite StronglySorted_app, Forall_forall. split.
  - intros (H & Hl & _). split; [done|]. intros y Hy. apply H; [done|]. by apply list_elem_of_singleton.
  - intros [Hl H]. split; [|split; [done|repeat constructor]].
    intros y z Hy ->%list_elem_of_singleton. by apply H.
Qed.

Lemma sorted_sublist {A} (R : relation A) (l k : list A) : l `sublist_of` k → StronglySorted R k → StronglySorted R l.
Proof.
  induction 1 as [|x l k Hs IH|x l k Hs IH]; [done| |]; intros [Hk Hx]%StronglySorted_inv; [|by apply IH].
  constructor; [by apply IH|]. rewrite Forall_forall in *. intros y Hy. apply Hx. by eapply elem_of_sublist.
Qed.
