(* ===== verification/Kernel.v ===== *)
(** * Kernel: the Linux-kernel vocabulary of the driver side

    Errno values, VMAs, the actions a driver function performs on its
    environment, the bookkeeping of acquired resources, and the trace records
    of [src/src/common/sdk/nvidia/inc/mc-trace.h]. *)
From stdpp Require Import base numbers list strings gmap.
From S2P Require Import Prelude.
#[local] Open Scope Z_scope.

(** ** Errno values and RM status codes the sources return *)
Definition EAGAIN : Z := 11.
Definition ENOMEM : Z := 12.
Definition EINVAL : Z := 22.
Definition ENOSPC : Z := 28.
Definition E2BIG : Z := 7.
Definition ENXIO : Z := 6.
Definition ERANGE : Z := 34.
Definition ENOSYS : Z := 38.
Definition EIO : Z := 5.
Definition EACCES : Z := 13.

Definition PAGE_SHIFT : Z := 12.
Definition PAGE_SIZE : Z := 4096.

(** ** [struct vm_area_struct]: its address and the bounds the driver reads *)
Record vm_area : Type := VmArea { vma_ptr : Z; vm_start : Z; vm_end : Z }.

Definition NV_VMA_SIZE (vma : vm_area) : Z := u64 (vm_end vma - vm_start vma).

(** ** Trace records (mc-trace.h) *)
Inductive mc_cat : Type :=
  rm | uvm | fifo | mmu | dbell | pb | gsp | mmap_ | body | pte.

Definition mc_cat_bit (c : mc_cat) : Z :=
  match c with
  | rm => 0 | uvm => 1 | fifo => 2 | mmu => 3 | dbell => 4
  | pb => 5 | gsp => 6 | mmap_ => 7 | body => 8 | pte => 9
  end.

(** [MC_TRACE_CAT_##n = (1u << (b))] *)
Definition MC_TRACE_CAT (c : mc_cat) : Z := Z.shiftl 1 (mc_cat_bit c).
Definition MC_TRACE_CAT_DEFAULT : Z := 0x1ff.

(** A field value: decimal ([%u], [%d], [%llu]), hexadecimal ([0x%x],
    [0x%llx], [%p]) or a string ([%s]). *)
Inductive fval : Type := FDec (z : Z) | FHex (z : Z) | FStr (s : string).

(** ** Resources and actions *)
Inductive res : Type :=
| RIomap (kva : Z)      (* ioremap / ioremap_wc *)
| RVmap (kva : Z)       (* nv_vm_map_pages *)
| RMem (p : Z)          (* kmalloc / kzalloc *)
| RStack (p : Z)        (* nv_kmem_cache_alloc_stack_atomic *)
| RPage (p : Z)         (* alloc_page *)
| RBp (ev : Z)          (* a registered hardware breakpoint *)
| RTask (t : Z)         (* get_task_struct *)
| RLock (l : Z).        (* an RM lock, or the thread state *)

(** The changes of a page protection (nv-pgprot.h). *)
Inductive pgprot_op : Type :=
| PgUncached | PgUncachedDevice | PgUncachedWeak | PgWriteCombined | PgReadOnly | PgAdjust.

Inductive keff : Type :=
| KRead (addr len : Z)                                   (* a load *)
| KWritel (val addr : Z)                                 (* MMIO store *)
| KAcq (r : res)
| KRel (r : res)
| KSchedule (work : Z)                                   (* a work item queued *)
| KFault (p : Z)                                         (* use of a freed object *)
| KInsertPage (addr page : Z)                            (* vm_insert_page *)
| KVmFlags (vma flags : Z)                               (* nv_vm_flags_set *)
| KVmClear (vma flags : Z)                               (* nv_vm_flags_clear *)
| KPgprot (vma : Z) (op : pgprot_op)                     (* vma->vm_page_prot *)
| KVmOps (vma : Z)                                       (* vma->vm_ops = &nv_vm_ops *)
| KRemap (vma virt phys size : Z)                        (* remap_pfn_range *)
| KInsertPfn (vma virt pfn : Z)                          (* vmf_insert_pfn_prot *)
| KZap                                                   (* unmap_mapping_range *)
| KWakeup                                                (* rm_schedule_gpu_wakeup *)
| KMemcpy (kva len : Z) (write : bool)                   (* kernel side of a memcpy *)
| KBug                                                   (* BUG_ON *)
| KTrace (c : mc_cat) (ev : string) (fs : list (string * fval)).

#[global] Instance mc_cat_eq_dec : EqDecision mc_cat.
Proof. solve_decision. Defined.
#[global] Instance fval_eq_dec : EqDecision fval.
Proof. solve_decision. Defined.
#[global] Instance res_eq_dec : EqDecision res.
Proof. solve_decision. Defined.
#[global] Instance pgprot_op_eq_dec : EqDecision pgprot_op.
Proof. solve_decision. Defined.
#[global] Instance keff_eq_dec : EqDecision keff.
Proof. solve_decision. Defined.

(** [MC_TRACE(cat, event, fmt, ...)]: one record, gated by the mask. *)
Definition MC_TRACE {S} (mask : Z) (c : mc_cat) (ev : string)
    (fs : list (string * fval)) : prog keff S unit :=
  if Z.land mask (MC_TRACE_CAT c) =? 0 then skip else tell [KTrace c ev fs].

(** [kfree(p)], a no-op on a null pointer. *)
Definition kfree {S} (p : Z) : prog keff S unit :=
  if p =? NULL then skip else tell [KRel (RMem p)].

(** *** Resource accounting

    [run_res held es] follows the resources held along the actions [es].
    [None] means that an action released something not held: a double free or
    the release of something never acquired. *)
Fixpoint run_res (held : list res) (es : list keff) : option (list res) :=
  match es with
  | [] => Some held
  | KAcq r :: es => run_res (r :: held) es
  | KRel r :: es =>
      match release r held with
      | Some held' => run_res held' es
      | None => None
      end
  | _ :: es => run_res held es
  end.

(** ** Memory: bytes of the kernel address space, little endian *)
Definition read32 (mem : Z → Z) (a : Z) : Z :=
  mem a + mem (a + 1) * 2 ^ 8 + mem (a + 2) * 2 ^ 16 + mem (a + 3) * 2 ^ 24.

Definition is_trace (e : keff) : Prop :=
  match e with KTrace _ _ _ => True | _ => False end.
Definition not_writel (e : keff) : Prop :=
  match e with KWritel _ _ => False | _ => True end.
(** Neither acquires nor releases a resource. *)
Definition res_neutral (e : keff) : Prop :=
  match e with KAcq _ | KRel _ => False | _ => True end.
Definition not_read (e : keff) : Prop :=
  match e with KRead _ _ => False | _ => True end.

(** * Lemmas *)

Lemma mc_trace_emits {S} (Φ : keff → Prop) mask c ev fs :
  (∀ c ev fs, Φ (KTrace c ev fs)) → emits Φ (MC_TRACE (S:=S) mask c ev fs).
Proof. intros HΦ. unfold MC_TRACE. emits_solve. Qed.

Lemma mc_trace_not_writel {S} mask c ev fs : emits not_writel (MC_TRACE (S:=S) mask c ev fs).
Proof. by apply mc_trace_emits. Qed.

Lemma mc_trace_res_neutral {S} mask c ev fs : emits res_neutral (MC_TRACE (S:=S) mask c ev fs).
Proof. by apply mc_trace_emits. Qed.

Lemma mc_trace_not_read {S} mask c ev fs : emits not_read (MC_TRACE (S:=S) mask c ev fs).
Proof. by apply mc_trace_emits. Qed.

#[export] Hint Resolve mc_trace_not_writel mc_trace_res_neutral mc_trace_not_read : eff.

(** A trace record changes no state and returns nothing. *)
Lemma mc_trace_run {S} mask c ev fs (s : S) :
  MC_TRACE mask c ev fs s = (tt, s, run_eff (MC_TRACE mask c ev fs) s).
Proof. unfold MC_TRACE, run_eff. by destruct (_ =? _). Qed.

Lemma mc_trace_st {S} mask c ev fs (s : S) : run_st (MC_TRACE mask c ev fs) s = s.
Proof. unfold run_st. by rewrite mc_trace_run. Qed.

Lemma mc_trace_st_bind {S B} mask c ev fs (k : unit → prog keff S B) (s : S) :
  run_st (MC_TRACE mask c ev fs ≫= k) s = run_st (k tt) s.
Proof. rewrite run_st_bind, mc_trace_st. by destruct (run_val _ s). Qed.

(** A record of an enabled category is written. *)
Definition mc_enabled (mask : Z) (c : mc_cat) : Prop := Z.land mask (MC_TRACE_CAT c) ≠ 0.

Lemma mc_trace_eff {S} mask c ev fs (s : S) :
  mc_enabled mask c → run_eff (MC_TRACE mask c ev fs) s = [KTrace c ev fs].
Proof. intros H. unfold MC_TRACE. by rewrite (proj2 (Z.eqb_neq _ _) H). Qed.

#[export] Hint Rewrite @mc_trace_st : mach.
#[export] Hint Rewrite @mc_trace_st @mc_trace_st_bind : run.

(** Execute a program symbolically: the monad's operations compute and trace
    records are skipped over. *)
Ltac prog_simpl :=
  unfold mbind, prog_bind, mret, prog_ret;
  repeat first
    [ rewrite mc_trace_run
    | progress cbn [tell get gets put modify skip when run_val run_st zoom fst snd] ].

(** Membership of a literal errno in a literal list. *)
Ltac errno_in := cbn; repeat constructor.

Lemma run_res_app held es1 es2 :
  run_res held (es1 ++ es2) = run_res held es1 ≫= λ h, run_res h es2.
Proof.
  revert held. induction es1 as [|e es1 IH]; intros held; [done|].
  destruct e; simpl; auto. by case_match.
Qed.

Lemma run_res_neutral held es : Forall res_neutral es → run_res held es = Some held.
Proof. induction 1 as [|e es He _ IH]; [done|]. by destruct e. Qed.

(** A neutral first half of a program can be skipped. *)
Lemma run_res_bind_neutral {S A B} held (m : prog keff S A) (k : A → prog keff S B) s :
  emits res_neutral m →
  run_res held (run_eff (m ≫= k) s) = run_res held (run_eff (k (run_val m s)) (run_st m s)).
Proof. intros Hm. rewrite run_eff_bind, run_res_app, run_res_neutral by apply Hm. done. Qed.

(** The actions of a trace record never matter to resources. *)
Lemma run_res_trace {S} held mask c ev fs (s : S) es :
  run_res held (run_eff (MC_TRACE mask c ev fs) s ++ es) = run_res held es.
Proof.
  rewrite run_res_app, run_res_neutral; [done|apply mc_trace_res_neutral].
Qed.

Lemma run_res_trace_nil {S} held mask c ev fs (s : S) :
  run_res held (run_eff (MC_TRACE mask c ev fs) s) = Some held.
Proof. apply run_res_neutral, mc_trace_res_neutral. Qed.

(** Evaluate a [run_res] along explicit actions, skipping trace records. *)
Ltac res_simp :=
  repeat first
    [ rewrite run_res_trace
    | rewrite run_res_trace_nil
    | rewrite release_eq
    | rewrite release_ne by congruence
    | match goal with |- context [Some ?x ≫= ?k] => change (Some x ≫= k) with (k x) end
    | match goal with |- context [?f <$> Some ?x] => change (f <$> Some x) with (Some (f x)) end
    | progress cbn [run_res app mbind option_bind fmap option_fmap option_map] ];
  try done.

(** ** Accounting up to the order of the held resources *)
Definition res_goes (held : list res) (es : list keff) (held' : list res) : Prop :=
  ∃ h, run_res held es = Some h ∧ h ≡ₚ held'.

Lemma release_perm (r : res) held held' :
  held ≡ₚ r :: held' → ∃ h, release r held = Some h ∧ h ≡ₚ held'.
Proof.
  revert held'. induction held as [|x held IH]; intros held' Hp.
  { by apply Permutation_nil_cons in Hp. }
  destruct (decide (r = x)) as [->|Hne].
  { exists held. rewrite release_eq. split; [done|]. by apply Permutation_cons_inv in Hp. }
  rewrite release_ne by done.
  assert (x ∈ held') as Hx.
  { assert (x ∈ r :: held') as Hx by (rewrite <-Hp; left). by apply elem_of_cons in Hx as [->|]. }
  apply elem_of_Permutation in Hx as [l Hl].
  destruct (IH l) as (h & -> & Hh).
  { apply (Permutation_cons_inv (a:=x)). rewrite Hp, Hl. apply Permutation_swap. }
  exists (x :: h). split; [done|]. by rewrite Hh, Hl.
Qed.

Lemma release_perm_Some (r : res) held h held' :
  held ≡ₚ held' → release r held = Some h → ∃ h', release r held' = Some h' ∧ h' ≡ₚ h.
Proof.
  intros Hp Hr. apply release_perm. rewrite <-Hp. clear Hp held'. revert h Hr.
  induction held as [|x held IH]; intros h Hr; [done|].
  destruct (decide (r = x)) as [->|Hne].
  - rewrite release_eq in Hr. by simplify_eq.
  - rewrite release_ne in Hr by done. destruct (release r held) as [l|]; [|done].
    simplify_eq/=. rewrite (IH l) by done. apply Permutation_swap.
Qed.

#[global] Instance res_goes_proper : Proper ((≡ₚ) ==> (=) ==> (≡ₚ) ==> iff) res_goes.
Proof.
  assert (∀ es h1 h1' h2 h2', h1 ≡ₚ h1' → h2 ≡ₚ h2' → res_goes h1 es h2 → res_goes h1' es h2') as H.
  { induction es as [|e es IH]; intros h1 h1' h2 h2' H1 H2 (h & Hr & Hh).
    - simplify_eq/=. exists h1'. split; [done|]. by rewrite <-H1, Hh.
    - destruct e; cbn [run_res] in Hr; try (apply (IH h1 h1' h2 h2' H1 H2); by exists h).
      + apply (IH (r :: h1) (r :: h1') h2 h2'); [by rewrite H1|done|by exists h].
      + destruct (release r h1) as [l|] eqn:Hl; [|done].
        destruct (release_perm_Some r h1 l h1' H1 Hl) as (l' & Hl' & Hp).
        unfold res_goes. cbn [run_res]. rewrite Hl'.
        apply (IH l l' h2 h2'); [done|done|by exists h]. }
  intros h1 h1' H1 es ? <- h2 h2' H2. split; apply H; done.
Qed.

Lemma res_goes_of held es held' : run_res held es = Some held' → res_goes held es held'.
Proof. intros H. by exists held'. Qed.

Lemma res_goes_app h1 h2 h3 es1 es2 :
  res_goes h1 es1 h2 → res_goes h2 es2 h3 → res_goes h1 (es1 ++ es2) h3.
Proof.
  intros (h & H1 & Hp) H2. rewrite <-Hp in H2. destruct H2 as (h' & H2 & Hp').
  exists h'. split; [|done]. by rewrite run_res_app, H1.
Qed.

Lemma res_goes_neutral h es : Forall res_neutral es → res_goes h es h.
Proof. intros. by apply res_goes_of, run_res_neutral. Qed.

Lemma res_goes_acq h r : res_goes h [KAcq r] (r :: h).
Proof. by apply res_goes_of. Qed.

Lemma res_goes_rel h r : res_goes (r :: h) [KRel r] h.
Proof. apply res_goes_of. simpl. by rewrite release_eq. Qed.

(** Along a sequence of statements. *)
Lemma res_goes_bind {S A B} (m : prog keff S A) (k : A → prog keff S B) s h1 h2 h3 :
  res_goes h1 (run_eff m s) h2 →
  res_goes h2 (run_eff (k (run_val m s)) (run_st m s)) h3 →
  res_goes h1 (run_eff (m ≫= k) s) h3.
Proof. intros. rewrite run_eff_bind. by eapply res_goes_app. Qed.

Lemma res_goes_bind_neutral {S A B} (m : prog keff S A) (k : A → prog keff S B) s h1 h3 :
  emits res_neutral m →
  res_goes h1 (run_eff (k (run_val m s)) (run_st m s)) h3 →
  res_goes h1 (run_eff (m ≫= k) s) h3.
Proof. intros Hm. apply res_goes_bind. apply res_goes_neutral, Hm. Qed.

Lemma release_frame (r : res) h l f : release r h = Some l → release r (h ++ f) = Some (l ++ f).
Proof.
  revert l. induction h as [|x h IH]; intros l Hr; [done|].
  destruct (decide (r = x)) as [->|Hne].
  - rewrite release_eq in Hr. simplify_eq. by rewrite <-app_comm_cons, release_eq.
  - rewrite release_ne in Hr by done. destruct (release r h) as [l'|]; [|done]. simplify_eq/=.
    rewrite release_ne by done. by erewrite IH by done.
Qed.

(** Resources an action sequence does not mention are kept. *)
Lemma res_goes_frame h h' es f : res_goes h es h' → res_goes (h ++ f) es (h' ++ f).
Proof.
  intros (l & Hr & Hp). exists (l ++ f). split; [|by rewrite Hp]. clear Hp h'.
  revert h l Hr. induction es as [|e es IH]; intros h l Hr; [by simplify_eq/=|].
  destruct e; cbn [run_res] in *; try by apply IH.
  - by apply (IH (r :: h)).
  - destruct (release r h) as [h'|] eqn:Hh; [|done]. erewrite release_frame by done. by apply IH.
Qed.

(** ** A small program logic

    [wp m s h Q]: run from state [s] holding [h], [m] releases only what is
    held, and its value, its final state and what is held then satisfy [Q]. *)
Definition wp {S A} (m : prog keff S A) (s : S) (h : list res)
    (Q : A → S → list res → Prop) : Prop :=
  ∃ h', res_goes h (run_eff m s) h' ∧ Q (run_val m s) (run_st m s) h'.

Section wp.
Context {S : Type}.
Implicit Types (s : S) (h : list res).

Lemma wp_bind {A B} (m : prog keff S A) (k : A → prog keff S B) s h Q :
  wp m s h (λ a s' h', wp (k a) s' h' Q) → wp (m ≫= k) s h Q.
Proof.
  intros (h1 & H1 & h2 & H2 & HQ). exists h2. rewrite run_val_bind, run_st_bind.
  split; [by eapply res_goes_bind|done].
Qed.

Lemma wp_mono {A} (m : prog keff S A) s h (Q Q' : A → S → list res → Prop) :
  wp m s h Q → (∀ a s' h', Q a s' h' → Q' a s' h') → wp m s h Q'.
Proof. intros (h' & ? & ?) HQ. exists h'. auto. Qed.

Lemma wp_ret {A} (a : A) s h Q : Q a s h → wp (mret a) s h Q.
Proof. intros HQ. exists h. split; [by apply res_goes_of|done]. Qed.

Lemma wp_skip s h Q : Q tt s h → wp skip s h Q.
Proof. intros HQ. exists h. split; [by apply res_goes_of|done]. Qed.

Lemma wp_get s h Q : Q s s h → wp get s h Q.
Proof. intros HQ. exists h. split; [by apply res_goes_of|done]. Qed.

Lemma wp_gets {A} (f : S → A) s h Q : Q (f s) s h → wp (gets f) s h Q.
Proof. intros HQ. exists h. split; [by apply res_goes_of|done]. Qed.

Lemma wp_modify (f : S → S) s h Q : Q tt (f s) h → wp (modify f) s h Q.
Proof. intros HQ. exists h. split; [by apply res_goes_of|done]. Qed.

Lemma wp_acq r s h Q : Q tt s (r :: h) → wp (tell [KAcq r]) s h Q.
Proof. intros HQ. exists (r :: h). split; [apply res_goes_acq|done]. Qed.

Lemma wp_rel r s h h' Q : h ≡ₚ r :: h' → Q tt s h' → wp (tell [KRel r]) s h Q.
Proof. intros Hh HQ. exists h'. rewrite Hh. split; [apply res_goes_rel|done]. Qed.

(** A program without resource actions and without effect on the state. *)
Lemma wp_pure (m : prog keff S unit) s h Q :
  emits res_neutral m → run_st m s = s → Q tt s h → wp m s h Q.
Proof.
  intros Hm Hs HQ. exists h. rewrite Hs. split; [apply res_goes_neutral, Hm|].
  by destruct (run_val m s).
Qed.

Lemma wp_neutral (m : prog keff S unit) s s' h Q :
  emits res_neutral m → run_st m s = s' → Q tt s' h → wp m s h Q.
Proof.
  intros Hm <- HQ. exists h. split; [apply res_goes_neutral, Hm|]. by destruct (run_val m s).
Qed.

Lemma wp_trace mask c ev fs s h Q : Q tt s h → wp (MC_TRACE mask c ev fs) s h Q.
Proof. apply wp_pure; [eauto with eff|apply mc_trace_st]. Qed.

Lemma wp_when (b : bool) (m : prog keff S unit) s h Q :
  (b = true → wp m s h Q) → (b = false → Q tt s h) → wp (when b m) s h Q.
Proof. destruct b; intros H1 H2; [auto|apply wp_skip; auto]. Qed.
End wp.

(** Execute the next statement of a [wp] goal. *)
Ltac wp_step :=
  lazymatch goal with
  | |- wp (mbind _ _) _ _ _ => apply wp_bind
  | |- wp (mret _) _ _ _ => apply wp_ret
  | |- wp skip _ _ _ => apply wp_skip
  | |- wp get _ _ _ => apply wp_get
  | |- wp (gets _) _ _ _ => apply wp_gets
  | |- wp (modify _) _ _ _ => apply wp_modify
  | |- wp (tell [KAcq _]) _ _ _ => apply wp_acq
  | |- wp (MC_TRACE _ _ _ _) _ _ _ => apply wp_trace
  end.
Ltac wp_steps := repeat (wp_step; cbv beta).
