(* ===== verification/Trackers.v ===== *)
(** * Trackers: the BAR1 and sysmem mapping tables of nv-doorbell-watch.c

    Two fixed-size tables keyed by VMA.  The BAR1 table records the kernel
    [ioremap] of a device mapping, the sysmem table the [vmap] of a system
    memory mapping; both translate a GPU virtual address, which equals the
    user virtual address, into a kernel address the trap handler may read. *)
From stdpp Require Import base numbers list strings gmap.
From S2P Require Import Prelude Kernel.
#[local] Open Scope Z_scope.

(** ** BAR1 tracker *)
Definition NV_DBELL_BAR1_TABLE_SIZE : nat := 16.

Record bar1_entry : Type := Bar1Entry {
  b_vma : Z;
  b_phys_start : Z;
  b_phys_end : Z;
  b_user_va_start : Z;
  b_user_va_end : Z;
  b_kernel_va : Z
}.

Definition bar1_free : bar1_entry := Bar1Entry NULL 0 0 0 0 NULL.
Definition g_bar1_tracked0 : list bar1_entry :=
  replicate NV_DBELL_BAR1_TABLE_SIZE bar1_free.

Section bar1.
Context (mask : Z) (ioremap_wc ioremap : Z → Z → Z).

(** The first free slot takes the new mapping. *)
Definition bar1_insert (vma : vm_area) (phys_start phys_size kva : Z)
    (tbl : list bar1_entry) : option (nat * list bar1_entry) :=
  match list_find (λ e, b_vma e = NULL) tbl with
  | Some (i, _) =>
      Some (i, <[i := Bar1Entry (vma_ptr vma) phys_start (u64 (phys_start + phys_size))
                        (vm_start vma) (vm_end vma) kva]> tbl)
  | None => None
  end.

Definition nv_dbell_bar1_track_add (vma : vm_area) (phys_start phys_size : Z)
    : prog keff (list bar1_entry) Z :=
  let kva_wc := ioremap_wc phys_start phys_size in
  let kva := if kva_wc =? NULL then ioremap phys_start phys_size else kva_wc in
  if kva =? NULL then
    MC_TRACE mask dbell "bar1_track"
      [("state", FStr "ioremap_fail"); ("phys", FHex phys_start); ("size", FHex phys_size)];;
    mret (- ENOMEM)
  else
    tell [KAcq (RIomap kva)];;
    tbl ← get;
    match bar1_insert vma phys_start phys_size kva tbl with
    | None =>
        tell [KRel (RIomap kva)];;
        MC_TRACE mask dbell "bar1_track" [("state", FStr "table_full")];;
        mret (- ENOSPC)
    | Some (slot, tbl') =>
        put tbl';;
        MC_TRACE mask dbell "bar1_track"
          [("state", FStr "add"); ("slot", FDec (Z.of_nat slot)); ("phys", FHex phys_start);
           ("size", FHex phys_size); ("kva", FHex kva)];;
        mret 0
    end.
End bar1.

(** The locked part of nv_dbell_bar1_track_remove: clear the slot of [vma] and
    report the slot index, its kernel address and its size. *)
Definition bar1_take (vma : Z) (tbl : list bar1_entry)
    : option (nat * Z * Z) * list bar1_entry :=
  match list_find (λ e, b_vma e = vma) tbl with
  | Some (i, e) =>
      (Some (i, b_kernel_va e, u64 (b_phys_end e - b_phys_start e)), <[i := bar1_free]> tbl)
  | None => (None, tbl)
  end.

Definition bar1_phys_hit (phys size : Z) (e : bar1_entry) : bool :=
  negb (b_vma e =? NULL) && (b_phys_start e <=? phys) && (u64 (phys + size) <=? b_phys_end e).

Definition nv_dbell_bar1_lookup_kva (tbl : list bar1_entry) (phys size : Z) : Z :=
  match list_find (bar1_phys_hit phys size) tbl with
  | Some (_, e) => b_kernel_va e + u64 (phys - b_phys_start e)
  | None => NULL
  end.

(** One iteration of nv_dbell_bar1_offset_kva on [(best_size, result)]. *)
Definition bar1_offset_step (off size : Z) (acc : Z * Z) (e : bar1_entry) : Z * Z :=
  let '(best_size, result) := acc in
  if (b_vma e =? NULL) || (b_kernel_va e =? NULL) then acc
  else
    let entry_size := u64 (b_phys_end e - b_phys_start e) in
    if entry_size <? u64 (off + size) then acc
    else if best_size <? entry_size then (entry_size, b_kernel_va e + off)
    else acc.

Definition nv_dbell_bar1_offset_kva (tbl : list bar1_entry) (off size : Z) : Z :=
  (foldl (bar1_offset_step off size) (0, NULL) tbl).2.

Definition bar1_va_hit (gpu_va size : Z) (e : bar1_entry) : bool :=
  negb ((b_vma e =? NULL) || (b_kernel_va e =? NULL))
  && negb ((b_user_va_start e =? 0) || (b_user_va_end e =? 0))
  && negb (gpu_va <? b_user_va_start e)
  && negb (b_user_va_end e <? u64 (gpu_va + size)).

Definition nv_dbell_bar1_gpu_va_to_kva (tbl : list bar1_entry) (gpu_va size : Z) : Z :=
  match list_find (bar1_va_hit gpu_va size) tbl with
  | Some (_, e) => b_kernel_va e + u64 (gpu_va - b_user_va_start e)
  | None => NULL
  end.

(** ** Sysmem tracker *)
Definition NV_DBELL_SYSMEM_TABLE_SIZE : nat := 8.

Record sysmem_entry : Type := SysmemEntry {
  y_vma : Z;
  y_user_va_start : Z;
  y_user_va_end : Z;
  y_kernel_va : Z;
  y_num_pages : Z
}.

Definition sysmem_free : sysmem_entry := SysmemEntry NULL 0 0 NULL 0.
Definition g_sysmem_tracked0 : list sysmem_entry :=
  replicate NV_DBELL_SYSMEM_TABLE_SIZE sysmem_free.

Section sysmem.
(** [kmalloc_array n]: the address of the temporary page array, or null;
    [nv_vm_map_pages pages n]: the kernel address of the mapping, or null.
    [page_struct] is [NV_GET_PAGE_STRUCT]. *)
Context (mask : Z) (kmalloc_array : Z → Z)
        (nv_vm_map_pages : list Z → Z → Z) (page_struct : Z → Z).

Definition sysmem_insert (vma : vm_area) (kva num_pages : Z)
    (tbl : list sysmem_entry) : option (nat * list sysmem_entry) :=
  match list_find (λ e, y_vma e = NULL) tbl with
  | Some (i, _) =>
      Some (i, <[i := SysmemEntry (vma_ptr vma) (vm_start vma) (vm_end vma) kva
                        (u32 num_pages)]> tbl)
  | None => None
  end.

(** [page_table j] is [page_table[j].phys_addr]; [None] is a null table, and
    so is a VMA whose address is null. *)
Definition nv_dbell_sysmem_track_add (vma : vm_area) (page_table : option (Z → Z))
    (page_index num_pages : Z) : prog keff (list sysmem_entry) Z :=
  match page_table with
  | None => mret (- EINVAL)
  | Some pt =>
    if (vma_ptr vma =? NULL) || (num_pages =? 0) then mret (- EINVAL)
    else if 256 * 1024 <? num_pages then mret (- E2BIG)
    else
      let pages := kmalloc_array num_pages in
      if pages =? NULL then mret (- ENOMEM)
      else
        tell [KAcq (RMem pages)];;
        let kva := nv_vm_map_pages
                     ((λ j, page_struct (pt (u64 (page_index + j)))) <$> seqZ 0 num_pages)
                     (u32 num_pages) in
        tell (if kva =? NULL then [] else [KAcq (RVmap kva)]);;
        kfree pages;;
        if kva =? NULL then
          MC_TRACE mask dbell "sysmem_track"
            [("state", FStr "vmap_fail"); ("user_va", FHex (vm_start vma));
             ("num_pages", FDec num_pages)];;
          mret (- ENOMEM)
        else
          tbl ← get;
          match sysmem_insert vma kva num_pages tbl with
          | None =>
              tell [KRel (RVmap kva)];;
              MC_TRACE mask dbell "sysmem_track" [("state", FStr "table_full")];;
              mret (- ENOSPC)
          | Some (slot, tbl') =>
              put tbl';;
              MC_TRACE mask dbell "sysmem_track"
                [("state", FStr "add"); ("slot", FDec (Z.of_nat slot));
                 ("user_va_start", FHex (vm_start vma)); ("user_va_end", FHex (vm_end vma));
                 ("num_pages", FDec num_pages); ("kva", FHex kva)];;
              mret 0
          end
  end.

Definition sysmem_take (vma : Z) (tbl : list sysmem_entry)
    : option (Z * Z) * list sysmem_entry :=
  match list_find (λ e, y_vma e = vma) tbl with
  | Some (i, e) => (Some (y_kernel_va e, y_num_pages e), <[i := sysmem_free]> tbl)
  | None => (None, tbl)
  end.

Definition nv_dbell_sysmem_track_remove (vma : Z) : prog keff (list sysmem_entry) unit :=
  tbl ← get;
  let '(hit, tbl') := sysmem_take vma tbl in
  put tbl';;
  match hit with
  | Some (kva, pages) =>
      if kva =? NULL then skip
      else
        tell [KRel (RVmap kva)];;
        MC_TRACE mask dbell "sysmem_track"
          [("state", FStr "remove"); ("kva", FHex kva); ("num_pages", FDec pages)]
  | None => skip
  end.
End sysmem.

Definition sysmem_va_hit (gpu_va size : Z) (e : sysmem_entry) : bool :=
  negb ((y_vma e =? NULL) || (y_kernel_va e =? NULL))
  && negb ((y_user_va_start e =? 0) || (y_user_va_end e =? 0))
  && negb (gpu_va <? y_user_va_start e)
  && negb (y_user_va_end e <? u64 (gpu_va + size)).

Definition nv_dbell_sysmem_gpu_va_to_kva (tbl : list sysmem_entry) (gpu_va size : Z) : Z :=
  match list_find (sysmem_va_hit gpu_va size) tbl with
  | Some (_, e) => y_kernel_va e + u64 (gpu_va - y_user_va_start e)
  | None => NULL
  end.

(** ** Address translation as an interface

    What the resolver and the trap handler need from either tracker: a list of
    mappings [(lo, hi, base)] from user addresses to kernel addresses, and a
    translation that follows them. *)
Definition covers (m : Z * Z * Z) (va size : Z) : Prop :=
  let '(lo, hi, _) := m in lo ≤ va ∧ va + size ≤ hi.

Definition image (m : Z * Z * Z) (va : Z) : Z :=
  let '(lo, _, base) := m in base + (va - lo).

Class VaTracker (T : Type) := {
  vt_maps : T → list (Z * Z * Z);
  vt_translate : T → Z → Z → Z;
  vt_sound : ∀ t va size,
    0 ≤ va → 0 ≤ size → va + size < 2 ^ 64 →
    Forall (λ '(lo, _, _), 0 ≤ lo) (vt_maps t) →
    vt_translate t va size ≠ NULL →
    ∃ m, m ∈ vt_maps t ∧ covers m va size ∧ vt_translate t va size = image m va;
  vt_complete : ∀ t va size m,
    0 ≤ va → 0 ≤ size → va + size < 2 ^ 64 →
    Forall (λ '(lo, _, base), 0 ≤ lo ∧ 0 < base) (vt_maps t) →
    m ∈ vt_maps t → covers m va size →
    vt_translate t va size ≠ NULL
}.

(** * Theorems *)

(** Both tables are searched by the same loop over the same four fields. *)
Section va_table.
Context {A : Type} (vma lo hi kva : A → Z).

Definition va_live (e : A) : bool :=
  negb ((vma e =? NULL) || (kva e =? NULL)) && negb ((lo e =? 0) || (hi e =? 0)).

Definition va_hit (va size : Z) (e : A) : bool :=
  negb ((vma e =? NULL) || (kva e =? NULL)) && negb ((lo e =? 0) || (hi e =? 0))
  && negb (va <? lo e) && negb (hi e <? u64 (va + size)).

Definition va_maps (tbl : list A) : list (Z * Z * Z) :=
  (λ e, (lo e, hi e, kva e)) <$> filter va_live tbl.

Definition va_translate (tbl : list A) (va size : Z) : Z :=
  match list_find (va_hit va size) tbl with
  | Some (_, e) => kva e + u64 (va - lo e)
  | None => NULL
  end.

Lemma va_maps_elem tbl m :
  m ∈ va_maps tbl ↔ ∃ e, e ∈ tbl ∧ va_live e ∧ m = (lo e, hi e, kva e).
Proof.
  unfold va_maps. rewrite list_elem_of_fmap. setoid_rewrite list_elem_of_filter. naive_solver.
Qed.

Lemma va_hit_spec va size e :
  0 ≤ va → 0 ≤ size → va + size < 2 ^ 64 →
  va_hit va size e ↔ va_live e ∧ covers (lo e, hi e, kva e) va size.
Proof.
  intros Hva Hsz Hw. unfold va_hit, va_live, covers. rewrite u64_small by (unfold is_u64; lia).
  rewrite !Is_true_true, !andb_true_iff, !negb_true_iff. lia.
Qed.

Lemma va_translate_sound tbl va size :
  0 ≤ va → 0 ≤ size → va + size < 2 ^ 64 →
  Forall (λ '(l, _, _), 0 ≤ l) (va_maps tbl) →
  va_translate tbl va size ≠ NULL →
  ∃ m, m ∈ va_maps tbl ∧ covers m va size ∧ va_translate tbl va size = image m va.
Proof.
  intros Hva Hsz Hw Hlo. unfold va_translate.
  destruct (list_find _ tbl) as [[i e]|] eqn:Hf; [|done]. intros _.
  apply scan_lookup in Hf as [Hi He]. apply va_hit_spec in He as [Hl Hc]; [|done..].
  assert ((lo e, hi e, kva e) ∈ va_maps tbl) as Hm.
  { apply va_maps_elem. exists e. eauto using list_elem_of_lookup_2. }
  exists (lo e, hi e, kva e). split_and!; try done. simpl in *.
  rewrite Forall_forall in Hlo. specialize (Hlo _ Hm). simpl in Hlo.
  rewrite u64_small by (unfold is_u64; lia). lia.
Qed.

Lemma va_translate_complete tbl va size m :
  0 ≤ va → 0 ≤ size → va + size < 2 ^ 64 →
  Forall (λ '(l, _, b), 0 ≤ l ∧ 0 < b) (va_maps tbl) →
  m ∈ va_maps tbl → covers m va size →
  va_translate tbl va size ≠ NULL.
Proof.
  intros Hva Hsz Hw Hpos (e & [i Hi]%list_elem_of_lookup & Hl & ->)%va_maps_elem Hc.
  destruct (scan_complete (va_hit va size) tbl i e Hi) as (j & y & Hf).
  { by apply va_hit_spec. }
  unfold va_translate. rewrite Hf.
  apply scan_lookup in Hf as [Hj Hy]. apply va_hit_spec in Hy as [Hly _]; [|done..].
  rewrite Forall_forall in Hpos.
  destruct (Hpos (lo y, hi y, kva y)) as [_ ?].
  { apply va_maps_elem. exists y. eauto using list_elem_of_lookup_2. }
  pose proof (u64_range (va - lo y)). unfold is_u64, NULL in *. lia.
Qed.

(** A request that wraps around the top of the address space hits any live
    mapping, although no mapping can cover it. *)
Lemma va_hit_wrap e :
  va_live e → 0 ≤ lo e ≤ 2 ^ 64 - 8 → 0 ≤ hi e → va_hit (2 ^ 64 - 8) 8 e.
Proof.
  intros Hl Hlo Hhi. unfold va_hit. fold (va_live e). rewrite Is_true_true in *.
  rewrite Hl. change (u64 (2 ^ 64 - 8 + 8)) with 0.
  rewrite !andb_true_iff, !negb_true_iff. lia.
Qed.
End va_table.

Definition bar1_maps : list bar1_entry → list (Z * Z * Z) :=
  va_maps b_vma b_user_va_start b_user_va_end b_kernel_va.
Definition sysmem_maps : list sysmem_entry → list (Z * Z * Z) :=
  va_maps y_vma y_user_va_start y_user_va_end y_kernel_va.

(** The two C functions are instances of the shared loop. *)
Lemma bar1_translate_generic tbl va size :
  nv_dbell_bar1_gpu_va_to_kva tbl va size =
  va_translate b_vma b_user_va_start b_user_va_end b_kernel_va tbl va size.
Proof. reflexivity. Qed.

Lemma sysmem_translate_generic tbl va size :
  nv_dbell_sysmem_gpu_va_to_kva tbl va size =
  va_translate y_vma y_user_va_start y_user_va_end y_kernel_va tbl va size.
Proof. reflexivity. Qed.

#[export] Instance bar1_va_tracker : VaTracker (list bar1_entry) := {|
  vt_maps := bar1_maps;
  vt_translate := nv_dbell_bar1_gpu_va_to_kva;
  vt_sound := va_translate_sound _ _ _ _;
  vt_complete := va_translate_complete _ _ _ _
|}.

#[export] Instance sysmem_va_tracker : VaTracker (list sysmem_entry) := {|
  vt_maps := sysmem_maps;
  vt_translate := nv_dbell_sysmem_gpu_va_to_kva;
  vt_sound := va_translate_sound _ _ _ _;
  vt_complete := va_translate_complete _ _ _ _
|}.

(** *** The sysmem table over time *)
Definition sysmem_wf (tbl : list sysmem_entry) : Prop :=
  Forall (λ e, y_vma e = NULL → e = sysmem_free) tbl.

Lemma sysmem_insert_Some vma kva n tbl i tbl' :
  sysmem_insert vma kva n tbl = Some (i, tbl') →
  ∃ e, tbl !! i = Some e ∧ y_vma e = NULL ∧
       (∀ j y, tbl !! j = Some y → (j < i)%nat → y_vma y ≠ NULL) ∧
       tbl' = <[i := SysmemEntry (vma_ptr vma) (vm_start vma) (vm_end vma) kva (u32 n)]> tbl.
Proof.
  unfold sysmem_insert. destruct (list_find _ tbl) as [[j e]|] eqn:Hf; [|done].
  intros [= <- <-]. apply list_find_Some in Hf as (?&?&?). eauto 6.
Qed.

Lemma sysmem_take_insert vma kva n tbl i tbl' :
  sysmem_wf tbl → Forall (λ e, y_vma e ≠ vma_ptr vma) tbl →
  sysmem_insert vma kva n tbl = Some (i, tbl') →
  sysmem_take (vma_ptr vma) tbl' = (Some (kva, u32 n), tbl).
Proof.
  intros Hwf Hfresh (e & Hi & He & _ & ->)%sysmem_insert_Some.
  unfold sysmem_take.
  assert (i < length tbl)%nat by (by eapply lookup_lt_Some).
  rewrite (proj2 (list_find_Some _ _ i
    (SysmemEntry (vma_ptr vma) (vm_start vma) (vm_end vma) kva (u32 n)))).
  - simpl. f_equal. rewrite list_insert_insert_eq.
    unfold sysmem_wf in Hwf. rewrite Forall_lookup in Hwf. rewrite <-(Hwf i e) by done. by apply list_insert_id.
  - split_and!; [by apply list_lookup_insert_eq|done|].
    intros j y Hj ?. rewrite list_lookup_insert_ne in Hj by lia.
    rewrite Forall_lookup in Hfresh. eauto.
Qed.

Section sysmem_ops.
Context (mask : Z) (kmalloc_array : Z → Z)
        (nv_vm_map_pages : list Z → Z → Z) (page_struct : Z → Z).
Implicit Types (tbl : list sysmem_entry).

Let track_add := nv_dbell_sysmem_track_add mask kmalloc_array nv_vm_map_pages page_struct.
Let track_remove := nv_dbell_sysmem_track_remove mask.

(** Every outcome of track_add: success records exactly one mapping and holds
    exactly its vmap; every error leaves the table and the held resources as
    they were. *)
Lemma sysmem_track_add_outcome vma pt idx n tbl held :
  let r := track_add vma pt idx n tbl in
  (∃ i kva tbl', r.1 = (0, tbl') ∧ kva ≠ NULL ∧
     sysmem_insert vma kva n tbl = Some (i, tbl') ∧ vma_ptr vma ≠ NULL ∧
     n ≤ 256 * 1024 ∧ (∃ l k, kva = nv_vm_map_pages l k) ∧
     run_res held r.2 = Some (RVmap kva :: held)) ∨
  (r.1.1 ∈ [- EINVAL; - E2BIG; - ENOMEM; - ENOSPC] ∧ r.1.2 = tbl ∧
     run_res held r.2 = Some held).
Proof.
  unfold track_add, nv_dbell_sysmem_track_add.
  destruct pt as [pt|]; [|by right; split_and!; [errno_in|..]].
  destruct (_ || _) eqn:Hnull; [by right; split_and!; [errno_in|..]|].
  apply orb_false_iff in Hnull as [Hvma%Z.eqb_neq _].
  destruct (_ <? _) eqn:Hn; [by right; split_and!; [errno_in|..]|].
  set (pages := kmalloc_array n). destruct (pages =? NULL) eqn:Hp;
    [by right; split_and!; [errno_in|..]|].
  set (kva := nv_vm_map_pages _ _). unfold kfree. rewrite Hp.
  destruct (kva =? NULL) eqn:Hk; prog_simpl.
  { right. split_and!; [errno_in|done|]. res_simp. }
  apply Z.eqb_neq in Hk.
  destruct (sysmem_insert vma kva n tbl) as [[i tbl']|] eqn:Hins; prog_simpl.
  - left. exists i, kva, tbl'. split_and!; try done; [lia|by eexists _, _|res_simp].
  - right. split_and!; [errno_in|done|]. res_simp.
Qed.
End sysmem_ops.

(** *** The BAR1 table over time *)
Definition bar1_wf (tbl : list bar1_entry) : Prop :=
  Forall (λ e, b_vma e = NULL → e = bar1_free) tbl.

Definition bar1_new (vma : vm_area) (phys_start phys_size kva : Z) : bar1_entry :=
  Bar1Entry (vma_ptr vma) phys_start (u64 (phys_start + phys_size))
    (vm_start vma) (vm_end vma) kva.

Lemma bar1_insert_Some vma ps sz kva tbl i tbl' :
  bar1_insert vma ps sz kva tbl = Some (i, tbl') →
  ∃ e, tbl !! i = Some e ∧ b_vma e = NULL ∧
       (∀ j y, tbl !! j = Some y → (j < i)%nat → b_vma y ≠ NULL) ∧
       tbl' = <[i := bar1_new vma ps sz kva]> tbl.
Proof.
  unfold bar1_insert. destruct (list_find _ tbl) as [[j e]|] eqn:Hf; [|done].
  intros [= <- <-]. apply list_find_Some in Hf as (?&?&?). eauto 6.
Qed.

(** The table is full exactly when no slot is free. *)
Lemma bar1_insert_None vma ps sz kva tbl :
  bar1_insert vma ps sz kva tbl = None ↔ Forall (λ e, b_vma e ≠ NULL) tbl.
Proof.
  unfold bar1_insert. rewrite <-(list_find_None (λ e, b_vma e = NULL)).
  by destruct (list_find _ tbl) as [[j e]|].
Qed.

Lemma bar1_take_insert vma ps sz kva tbl i tbl' :
  bar1_wf tbl → Forall (λ e, b_vma e ≠ vma_ptr vma) tbl →
  bar1_insert vma ps sz kva tbl = Some (i, tbl') →
  bar1_take (vma_ptr vma) tbl' =
    (Some (i, kva, u64 (u64 (ps + sz) - ps)), tbl).
Proof.
  intros Hwf Hfresh (e & Hi & He & _ & ->)%bar1_insert_Some.
  unfold bar1_take. assert (i < length tbl)%nat by (by eapply lookup_lt_Some).
  rewrite (proj2 (list_find_Some _ _ i (bar1_new vma ps sz kva))).
  - simpl. f_equal. rewrite list_insert_insert_eq.
    unfold bar1_wf in Hwf. rewrite Forall_lookup in Hwf.
    rewrite <-(Hwf i e) by done. by apply list_insert_id.
  - split_and!; [by apply list_lookup_insert_eq|done|].
    intros j y Hj ?. rewrite list_lookup_insert_ne in Hj by lia.
    rewrite Forall_lookup in Hfresh. eauto.
Qed.

(** What the tracked mapping list becomes. *)
Lemma bar1_take_None vma tbl tbl' :
  bar1_take vma tbl = (None, tbl') → tbl' = tbl ∧ Forall (λ e, b_vma e ≠ vma) tbl.
Proof.
  unfold bar1_take. destruct (list_find _ tbl) as [[j e]|] eqn:Hf; [done|].
  intros [= <-]. split; [done|]. by apply list_find_None in Hf.
Qed.

Lemma bar1_take_Some vma tbl i kva size tbl' :
  bar1_take vma tbl = (Some (i, kva, size), tbl') →
  ∃ e, tbl !! i = Some e ∧ b_vma e = vma ∧ kva = b_kernel_va e ∧
       size = u64 (b_phys_end e - b_phys_start e) ∧ tbl' = <[i := bar1_free]> tbl.
Proof.
  unfold bar1_take. destruct (list_find _ tbl) as [[j e]|] eqn:Hf; [|done].
  intros [= <- <- <- <-]. apply scan_lookup in Hf as [??]. eauto 6.
Qed.

Section bar1_ops.
Context (mask : Z) (ioremap_wc ioremap : Z → Z → Z).

Let track_add := nv_dbell_bar1_track_add mask ioremap_wc ioremap.

(** The kernel address the two-step ioremap obtains. *)
Definition bar1_kva (ps sz : Z) : Z :=
  if ioremap_wc ps sz =? NULL then ioremap ps sz else ioremap_wc ps sz.

Lemma bar1_track_add_outcome vma ps sz tbl held :
  let r := track_add vma ps sz tbl in
  (∃ i tbl', r.1 = (0, tbl') ∧ bar1_kva ps sz ≠ NULL ∧
     bar1_insert vma ps sz (bar1_kva ps sz) tbl = Some (i, tbl') ∧
     run_res held r.2 = Some (RIomap (bar1_kva ps sz) :: held)) ∨
  ((r.1.1 = - ENOMEM ∧ bar1_kva ps sz = NULL ∨
    r.1.1 = - ENOSPC ∧ Forall (λ e, b_vma e ≠ NULL) tbl) ∧
   r.1.2 = tbl ∧ run_res held r.2 = Some held).
Proof.
  unfold track_add, nv_dbell_bar1_track_add. fold (bar1_kva ps sz).
  destruct (bar1_kva ps sz =? NULL) eqn:Hk; prog_simpl.
  { right. apply Z.eqb_eq in Hk. split_and!; [by left|done|res_simp]. }
  apply Z.eqb_neq in Hk.
  destruct (bar1_insert _ _ _ _ tbl) as [[i tbl']|] eqn:Hins; prog_simpl.
  - left. exists i, tbl'. split_and!; try done. res_simp.
  - right. split_and!; [right|done|res_simp]. split; [done|].
    by apply bar1_insert_None in Hins.
Qed.
End bar1_ops.

(** nv_dbell_bar1_offset_kva keeps the largest sufficient entry seen so far. *)
Definition bar1_fits (off size : Z) (e : bar1_entry) : Prop :=
  b_vma e ≠ NULL ∧ b_kernel_va e ≠ NULL ∧
  u64 (off + size) ≤ u64 (b_phys_end e - b_phys_start e).

Lemma bar1_offset_fold off size tbl best res :
  0 ≤ best →
  let '(best', res') := foldl (bar1_offset_step off size) (best, res) tbl in
  best ≤ best' ∧
  (∀ e, e ∈ tbl → bar1_fits off size e → u64 (b_phys_end e - b_phys_start e) ≤ best') ∧
  ((best', res') = (best, res) ∨
   ∃ e, e ∈ tbl ∧ bar1_fits off size e ∧ best' = u64 (b_phys_end e - b_phys_start e) ∧
        res' = b_kernel_va e + off).
Proof.
  revert best res. induction tbl as [|e tbl IH]; intros best res Hb; cbn [foldl].
  { split_and!; [lia|by intros ? ?%elem_of_nil|by left]. }
  assert (bar1_offset_step off size (best, res) e = (best, res) ∧
            (bar1_fits off size e → u64 (b_phys_end e - b_phys_start e) ≤ best) ∨
          bar1_offset_step off size (best, res) e =
            (u64 (b_phys_end e - b_phys_start e), b_kernel_va e + off) ∧
            bar1_fits off size e ∧ best < u64 (b_phys_end e - b_phys_start e)) as Hstep.
  { unfold bar1_offset_step, bar1_fits, NULL.
    destruct (_ || _) eqn:E1; [left; split; [done|lia]|].
    destruct (_ <? _) eqn:E2; [left; split; [done|lia]|].
    destruct (best <? _) eqn:E3; [right|left]; split; try done; lia. }
  destruct Hstep as [[-> Hle]|(-> & Hfit & Hlt)].
  - specialize (IH best res Hb). destruct (foldl _ _ tbl) as [best' res'].
    destruct IH as (? & Hall & Hor). split_and!; [done| |].
    + intros x [->|?]%elem_of_cons Hx; [specialize (Hle Hx); lia|eauto].
    + destruct Hor as [|(x&?&?&?&?)]; [by left|right; exists x; set_solver].
  - pose proof (u64_range (b_phys_end e - b_phys_start e)) as Hu. unfold is_u64 in Hu.
    specialize (IH (u64 (b_phys_end e - b_phys_start e)) (b_kernel_va e + off) ltac:(lia)).
    destruct (foldl _ _ tbl) as [best' res']. destruct IH as (? & Hall & Hor).
    split_and!; [lia| |].
    + intros x [->|?]%elem_of_cons Hx; [lia|eauto].
    + right. destruct Hor as [[= -> ->]|(x&?&?&?&?)]; [exists e|exists x]; set_solver.
Qed.

(** * Properties *)

(** Translating a GPU virtual address through the BAR1 table finds a kernel
    address exactly when a tracked mapping covers the whole request
    [[va, va+size)], and the address it returns is the image of [va] in such a
    mapping, as long as the request does not wrap around 2^64. *)
Theorem bar1_gpu_va_to_kva_correct (tbl : list bar1_entry) (va size : Z)
    (Hva : 0 ≤ va) (Hsize : 0 ≤ size) (Hwrap : va + size < 2 ^ 64)
    (Hpos : Forall (λ '(lo, _, base), 0 ≤ lo ∧ 0 < base) (bar1_maps tbl)) :
  (nv_dbell_bar1_gpu_va_to_kva tbl va size ≠ NULL ↔
     ∃ m, m ∈ bar1_maps tbl ∧ covers m va size) ∧
  (nv_dbell_bar1_gpu_va_to_kva tbl va size ≠ NULL →
     ∃ m, m ∈ bar1_maps tbl ∧ covers m va size ∧
          nv_dbell_bar1_gpu_va_to_kva tbl va size = image m va).
Proof.
  assert (Forall (λ '(lo, _, _), 0 ≤ lo) (vt_maps tbl)) as Hlo.
  { eapply Forall_impl; [exact Hpos|]. intros [[??]?] []. done. }
  assert (nv_dbell_bar1_gpu_va_to_kva tbl va size ≠ NULL →
     ∃ m, m ∈ bar1_maps tbl ∧ covers m va size ∧
          nv_dbell_bar1_gpu_va_to_kva tbl va size = image m va) as Hs.
  { exact (vt_sound tbl va size Hva Hsize Hwrap Hlo). }
  split; [split|exact Hs].
  - intros (m & ? & ? & _)%Hs. eauto.
  - intros (m & Hm & Hc). exact (vt_complete tbl va size m Hva Hsize Hwrap Hpos Hm Hc).
Qed.

Definition demo_bar1_tbl : list bar1_entry :=
  Bar1Entry 7 0x1fc022000000 0x1fc022200000 0x203c00000 0x203e00000 0xff0000 :: replicate 15 bar1_free.

Lemma bar1_gpu_va_to_kva_correct_witness :
  nv_dbell_bar1_gpu_va_to_kva demo_bar1_tbl 0x203c00100 8192 ≠ NULL ↔
  ∃ m, m ∈ bar1_maps demo_bar1_tbl ∧ covers m 0x203c00100 8192.
Proof.
  apply (bar1_gpu_va_to_kva_correct demo_bar1_tbl 0x203c00100 8192);
    [lia|lia|lia|apply Forall_singleton; cbn; lia].
Defined.

(** A request that wraps around 2^64 is accepted by any live mapping: the
    range check compares the wrapped end address, so the translation returns an
    address outside every tracked mapping although none covers the request. *)
Theorem bar1_gpu_va_wrap_escapes (tbl : list bar1_entry)
    (Hrange : Forall (λ '(lo, hi, base), 0 ≤ lo ≤ 2 ^ 64 - 8 ∧ 0 ≤ hi < 2 ^ 64 ∧ 0 < base)
                (bar1_maps tbl))
    (Hlive : bar1_maps tbl ≠ []) :
  ∃ va size, is_u64 va ∧ is_u64 size ∧
    nv_dbell_bar1_gpu_va_to_kva tbl va size ≠ NULL ∧
    ¬ (∃ m, m ∈ bar1_maps tbl ∧ covers m va size).
Proof.
  exists (2 ^ 64 - 8), 8. split_and!; [unfold is_u64; lia..| |].
  - destruct (bar1_maps tbl) as [|m l] eqn:Hm; [done|].
    assert (m ∈ bar1_maps tbl) as Hin by (rewrite Hm; left).
    rewrite <-Hm in Hrange. rewrite Forall_forall in Hrange.
    apply va_maps_elem in Hin as (e & [i Hi]%list_elem_of_lookup & Hl & ->).
    destruct (scan_complete (bar1_va_hit (2 ^ 64 - 8) 8) tbl i e Hi) as (j & y & Hf).
    { apply (va_hit_wrap b_vma b_user_va_start b_user_va_end b_kernel_va); [done|..].
      all: destruct (Hrange (b_user_va_start e, b_user_va_end e, b_kernel_va e)); [|lia].
      all: apply va_maps_elem; eauto using list_elem_of_lookup_2. }
    unfold nv_dbell_bar1_gpu_va_to_kva. rewrite Hf. apply scan_lookup in Hf as [Hj Hy].
    assert (0 < b_kernel_va y).
    { destruct (Hrange (b_user_va_start y, b_user_va_end y, b_kernel_va y)); [|lia].
      apply va_maps_elem. exists y. split_and!; [eauto using list_elem_of_lookup_2| |done].
      unfold bar1_va_hit, va_live in *. rewrite Is_true_true in *.
      rewrite !andb_true_iff in Hy. rewrite !andb_true_iff. tauto. }
    pose proof (u64_range (2 ^ 64 - 8 - b_user_va_start y)). unfold is_u64, NULL in *. lia.
  - intros (m & Hin & Hc). rewrite Forall_forall in Hrange. specialize (Hrange m Hin).
    destruct m as [[lo hi] base]. simpl in *. lia.
Qed.

Lemma bar1_gpu_va_wrap_escapes_witness :
  ∃ va size, is_u64 va ∧ is_u64 size ∧
    nv_dbell_bar1_gpu_va_to_kva demo_bar1_tbl va size ≠ NULL ∧
    ¬ (∃ m, m ∈ bar1_maps demo_bar1_tbl ∧ covers m va size).
Proof.
  apply (bar1_gpu_va_wrap_escapes demo_bar1_tbl);
    [apply Forall_singleton; cbn; lia|vm_compute; done].
Defined.

(** resolving a USERD by offset picks, among the tracked BAR1 mappings long
    enough for [[off, off+size)], one of maximal length, and answers null only
    when no mapping of positive length is long enough. *)
Theorem bar1_offset_kva_largest (tbl : list bar1_entry) (off size : Z)
    (Hoff : 0 ≤ off) (Hpos : Forall (λ e, 0 ≤ b_kernel_va e) tbl) :
  (nv_dbell_bar1_offset_kva tbl off size ≠ NULL →
   ∃ e, e ∈ tbl ∧ bar1_fits off size e ∧
     nv_dbell_bar1_offset_kva tbl off size = b_kernel_va e + off ∧
     ∀ e', e' ∈ tbl → bar1_fits off size e' →
       u64 (b_phys_end e' - b_phys_start e') ≤ u64 (b_phys_end e - b_phys_start e)) ∧
  (∀ e, e ∈ tbl → bar1_fits off size e → 0 < u64 (b_phys_end e - b_phys_start e) →
   nv_dbell_bar1_offset_kva tbl off size ≠ NULL).
Proof.
  pose proof (bar1_offset_fold off size tbl 0 NULL ltac:(lia)) as H.
  unfold nv_dbell_bar1_offset_kva.
  destruct (foldl _ _ tbl) as [best res]. destruct H as (_ & Hall & Hor). simpl. split.
  - intros Hnz. destruct Hor as [[= -> ->]|(e & He & Hf & -> & ->)]; [done|].
    exists e. eauto.
  - intros e He Hf Hlt. specialize (Hall e He Hf).
    destruct Hor as [[= -> ->]|(x & Hx & (_ & Hk & _) & _ & ->)]; [lia|].
    rewrite Forall_forall in Hpos. specialize (Hpos x Hx). unfold NULL in *. lia.
Qed.

Lemma bar1_offset_kva_largest_witness :
  nv_dbell_bar1_offset_kva demo_bar1_tbl 0x1000 512 = 0xff0000 + 0x1000 ∧
  ∃ e, e ∈ demo_bar1_tbl ∧ bar1_fits 0x1000 512 e.
Proof.
  split; [vm_compute; reflexivity|].
  destruct (bar1_offset_kva_largest demo_bar1_tbl 0x1000 512 ltac:(lia)
              ltac:(repeat (constructor; [vm_compute; done|]); constructor))
    as [H _].
  destruct H as (e & ? & ? & _); [vm_compute; done|]. eauto.
Defined.

(** tracking a system-memory mapping and releasing it again restores the
    table, and the only resource acquired, the vmap, is released. *)
Theorem sysmem_track_roundtrip mask kmalloc_array nv_vm_map_pages page_struct
    (vma : vm_area) pt idx n (tbl : list sysmem_entry) (held : list res)
    (Hwf : sysmem_wf tbl) (Hfresh : Forall (λ e, y_vma e ≠ vma_ptr vma) tbl)
    (Hok : run_val (nv_dbell_sysmem_track_add mask kmalloc_array nv_vm_map_pages page_struct
                      vma pt idx n) tbl = 0) :
  let r := nv_dbell_sysmem_track_add mask kmalloc_array nv_vm_map_pages page_struct
             vma pt idx n tbl in
  let r' := nv_dbell_sysmem_track_remove mask (vma_ptr vma) r.1.2 in
  r'.1.2 = tbl ∧ run_res held (r.2 ++ r'.2) = Some held.
Proof.
  pose proof (sysmem_track_add_outcome mask kmalloc_array nv_vm_map_pages page_struct
                vma pt idx n tbl held) 
    as [(i & kva & tbl' & Hr & Hk & Hins & Hv & _ & _ & Hres)|(Hin & _)].
  - simpl in *. rewrite Hr. simpl.
    pose proof (sysmem_take_insert vma kva n tbl i tbl' Hwf Hfresh Hins) as Htake.
    unfold nv_dbell_sysmem_track_remove. prog_simpl. rewrite Htake. cbn.
    rewrite (proj2 (Z.eqb_neq kva NULL) Hk). prog_simpl. split; [done|].
    rewrite run_res_app, Hres. res_simp.
  - unfold run_val in Hok. cbv zeta in Hin. rewrite Hok in Hin. exfalso.
    apply list_elem_of_In in Hin. vm_compute in Hin. intuition discriminate.
Qed.

Lemma sysmem_track_roundtrip_witness :
  let m := nv_dbell_sysmem_track_add 0x1ff (λ _, 0x5000) (λ _ _, 0x900000) id
             (VmArea 3 0x7f0000000000 0x7f0000400000) (Some (λ j, j * 4096)) 0 1024 in
  run_val m g_sysmem_tracked0 = 0 ∧
  run_st (nv_dbell_sysmem_track_remove 0x1ff 3) (run_st m g_sysmem_tracked0) = g_sysmem_tracked0.
Proof.
  split; [vm_compute; reflexivity|].
  apply (sysmem_track_roundtrip 0x1ff (λ _, 0x5000) (λ _ _, 0x900000) id
           (VmArea 3 0x7f0000000000 0x7f0000400000) (Some (λ j, j * 4096)) 0 1024
           g_sysmem_tracked0 []);
    [repeat constructor; done|repeat constructor; done|vm_compute; reflexivity].
Defined.
