(* ===== verification/GpfifoTable.v ===== *)
(** * GpfifoTable: the GPFIFO parameter table of nv_gpu_ops.c

    An open-addressing hash table with linear probing and tombstones that maps
    [(pGpu, runlist, chid)] to the GPU address and the entry count of the
    channel's GPFIFO ring.  It is filled when a channel is constructed,
    cleared when it is destructed, and consulted by the doorbell resolver.

    The development refines it to a finite map of bounded size. *)
From stdpp Require Import base numbers list strings gmap.
From S2P Require Import Prelude Kernel.
#[local] Open Scope Z_scope.

(** ** Data *)
Record dbellGpfifoSlot : Type := GpSlot {
  s_pGpu : Z;
  s_runlist : Z;
  s_chid : Z;
  s_gpFifoOffset : Z;
  s_gpFifoEntries : Z;
  s_state : Z            (* 0 empty, 1 live, 2 tombstone *)
}.

Definition gp_empty_slot : dbellGpfifoSlot := GpSlot NULL 0 0 0 0 0.
Definition TRACE_DBELL_GPFIFO_SLOTS : Z := 4096.
Definition g_dbellGpfifoTable0 : list dbellGpfifoSlot :=
  replicate (Z.to_nat TRACE_DBELL_GPFIFO_SLOTS) gp_empty_slot.

(** [(pGpu, runlist, chid)] *)
Abbreviation gp_key := (Z * Z * Z)%type.

Definition slot_key (s : dbellGpfifoSlot) : gp_key := (s_pGpu s, s_runlist s, s_chid s).
Definition slot_val (s : dbellGpfifoSlot) : Z * Z := (s_gpFifoOffset s, s_gpFifoEntries s).

(** ** Operations *)
Definition _dbellGpfifoHash (k : gp_key) : Z :=
  let '(pGpu, runlist, chid) := k in
  let k := u64 pGpu in
  let k := Z.lxor k (Z.lor (u64 (Z.shiftl runlist 32)) chid) in
  let k := Z.lxor k (Z.shiftr k 33) in
  let k := u64 (k * 0xff51afd7ed558ccd) in
  let k := Z.lxor k (Z.shiftr k 33) in
  Z.land k (TRACE_DBELL_GPFIFO_SLOTS - 1).

(** [idx = (start + i) & (TRACE_DBELL_GPFIFO_SLOTS - 1u)] *)
Definition probe (start i : Z) : nat :=
  Z.to_nat (Z.land (u32 (start + i)) (TRACE_DBELL_GPFIFO_SLOTS - 1)).

(** [s->state == 1 && s->pGpu == pGpu && s->runlist == runlist && s->chid == chid] *)
Definition slot_matches (k : gp_key) (s : dbellGpfifoSlot) : bool :=
  let '(pGpu, runlist, chid) := k in
  (s_state s =? 1) && (s_pGpu s =? pGpu) && (s_runlist s =? runlist) && (s_chid s =? chid).

(** The loop of the lookup and of the unregister: stop at an empty slot, skip
    tombstones and other keys.  [n] counts the iterations left. *)
Fixpoint gp_scan (tbl : list dbellGpfifoSlot) (k : gp_key) (n : nat) (i : Z) : option nat :=
  match n with
  | O => None
  | S n =>
      let idx := probe (_dbellGpfifoHash k) i in
      match tbl !! idx with
      | None => None
      | Some s =>
          if s_state s =? 0 then None
          else if slot_matches k s then Some idx
          else gp_scan tbl k n (i + 1)
      end
  end.

Definition gp_fuel : nat := Z.to_nat TRACE_DBELL_GPFIFO_SLOTS.

Definition _dbellGpfifoLookup (tbl : list dbellGpfifoSlot) (k : gp_key) : option (Z * Z) :=
  if k.1.1 =? NULL then None
  else idx ← gp_scan tbl k gp_fuel 0; slot_val <$> tbl !! idx.

Definition nvGpuOpsDbellGpfifoUnregister (k : gp_key) (tbl : list dbellGpfifoSlot)
    : list dbellGpfifoSlot :=
  if k.1.1 =? NULL then tbl
  else
    match gp_scan tbl k gp_fuel 0 with
    | Some idx =>
        alter (λ s, GpSlot NULL (s_runlist s) (s_chid s) (s_gpFifoOffset s) 0 2) idx tbl
    | None => tbl
    end.

(** Where the register loop ends. *)
Inductive gp_slot_choice : Type :=
| GpUpdate (idx : nat)          (* a live entry for this key *)
| GpInsert (idx : nat)          (* an empty slot or the first tombstone *)
| GpFull.                       (* every slot is live *)

(** The loop of the register, with [firstTombstone]. *)
Fixpoint gp_choose (tbl : list dbellGpfifoSlot) (k : gp_key) (n : nat) (i : Z)
    (firstTombstone : option nat) : gp_slot_choice :=
  match n with
  | O => match firstTombstone with Some t => GpInsert t | None => GpFull end
  | S n =>
      let idx := probe (_dbellGpfifoHash k) i in
      match tbl !! idx with
      | None => GpFull
      | Some s =>
          if slot_matches k s then GpUpdate idx
          else
            let ft :=
              if (s_state s =? 2) then
                match firstTombstone with None => Some idx | Some t => Some t end
              else firstTombstone in
            if s_state s =? 0 then
              GpInsert (match ft with Some t => t | None => idx end)
            else gp_choose tbl k n (i + 1) ft
      end
  end.

(** The table part of the register: the new table and whether this is a new
    registration; [None] when the table is saturated. *)
Definition gp_register (k : gp_key) (v : Z * Z) (tbl : list dbellGpfifoSlot)
    : option (bool * list dbellGpfifoSlot) :=
  let '(pGpu, runlist, chid) := k in
  let '(gpFifoOffset, gpFifoEntries) := v in
  match gp_choose tbl k gp_fuel 0 None with
  | GpUpdate idx =>
      Some (false, alter (λ s, GpSlot (s_pGpu s) (s_runlist s) (s_chid s)
                                 gpFifoOffset gpFifoEntries (s_state s)) idx tbl)
  | GpInsert idx =>
      Some (true, <[idx := GpSlot pGpu runlist chid gpFifoOffset gpFifoEntries 1]> tbl)
  | GpFull => None
  end.

Section register.
(** [osinfo pGpu] is [pGpu->pOsGpuInfo]; [pre_resolve] is the doorbell cache's
    nv_dbell_cache_pre_resolve over the rest of the driver state. *)
Context {S : Type} (mask : Z) (getT : S → list dbellGpfifoSlot)
        (setT : list dbellGpfifoSlot → S → S)
        (osinfo : Z → Z) (pre_resolve : Z → Z → Z → prog keff S unit).

Definition nvGpuOpsDbellGpfifoRegister (k : gp_key) (gpFifoOffset gpFifoEntries : Z)
    : prog keff S unit :=
  let '(pGpu, runlist, chid) := k in
  if (pGpu =? NULL) || (gpFifoEntries =? 0) then skip
  else
    tbl ← gets getT;
    match gp_register k (gpFifoOffset, gpFifoEntries) tbl with
    | Some (newRegistration, tbl') =>
        modify (setT tbl');;
        when newRegistration (pre_resolve chid runlist (osinfo pGpu))
    | None =>
        MC_TRACE mask dbell "gpfifo_register"
          [("result", FStr "table_full"); ("chid", FDec chid); ("runlist", FDec runlist)]
    end.
End register.

(** ** The abstract map

    The table promises to be a finite map that refuses a new key when it holds
    [TRACE_DBELL_GPFIFO_SLOTS] of them. *)
Definition spec_register (k : gp_key) (v : Z * Z) (m : gmap gp_key (Z * Z))
    : gmap gp_key (Z * Z) :=
  if (k.1.1 =? NULL) || (v.2 =? 0) then m
  else if decide (is_Some (m !! k) ∨ Z.of_nat (size m) < TRACE_DBELL_GPFIFO_SLOTS)
       then <[k := v]> m else m.

Definition spec_unregister (k : gp_key) (m : gmap gp_key (Z * Z)) : gmap gp_key (Z * Z) :=
  delete k m.

Inductive gp_op : Type :=
| OpRegister (k : gp_key) (v : Z * Z)
| OpUnregister (k : gp_key).

(** The table part of an operation, with the register's argument guards. *)
Definition gp_run_op (o : gp_op) (tbl : list dbellGpfifoSlot) : list dbellGpfifoSlot :=
  match o with
  | OpRegister k v =>
      if (k.1.1 =? NULL) || (v.2 =? 0) then tbl
      else match gp_register k v tbl with Some (_, tbl') => tbl' | None => tbl end
  | OpUnregister k => nvGpuOpsDbellGpfifoUnregister k tbl
  end.

Definition spec_run_op (o : gp_op) (m : gmap gp_key (Z * Z)) : gmap gp_key (Z * Z) :=
  match o with
  | OpRegister k v => spec_register k v m
  | OpUnregister k => spec_unregister k m
  end.

(** * Theorems *)
#[local] Opaque TRACE_DBELL_GPFIFO_SLOTS.
#[local] Abbreviation SLOTS := TRACE_DBELL_GPFIFO_SLOTS.

Lemma slots_pow2 : SLOTS = 2 ^ 12.
Proof. reflexivity. Qed.

Lemma slots_fuel : Z.of_nat gp_fuel = SLOTS.
Proof. reflexivity. Qed.

(** ** Probing visits every slot once *)
Lemma hash_range k : 0 ≤ _dbellGpfifoHash k < SLOTS.
Proof.
  destruct k as [[g r] c]. unfold _dbellGpfifoHash.
  rewrite slots_pow2, land_pow2_mask by lia. apply Z.mod_pos_bound. lia.
Qed.

Lemma probe_mod start i : 0 ≤ start < SLOTS → 0 ≤ i < SLOTS →
  probe start i = Z.to_nat ((start + i) mod SLOTS).
Proof.
  intros Hs Hi. unfold probe. rewrite u32_small by (unfold is_u32; rewrite slots_pow2 in *; lia).
  rewrite slots_pow2, land_pow2_mask by lia. done.
Qed.

(** The distance from the home slot to [idx] along the probe sequence. *)
Definition dist (start : Z) (idx : nat) : Z := (Z.of_nat idx - start) mod SLOTS.

Lemma dist_range start idx : 0 ≤ dist start idx < SLOTS.
Proof. apply Z.mod_pos_bound. rewrite slots_pow2. lia. Qed.

Lemma probe_dist start idx : 0 ≤ start < SLOTS → Z.of_nat idx < SLOTS →
  probe start (dist start idx) = idx.
Proof.
  intros Hs Hi. rewrite probe_mod by (done || apply dist_range). unfold dist.
  rewrite slots_pow2 in *.
  replace ((start + (Z.of_nat idx - start) mod 2 ^ 12) mod 2 ^ 12) with (Z.of_nat idx) by zify_divmod.
  lia.
Qed.

Lemma probe_lt start i : 0 ≤ start < SLOTS → 0 ≤ i < SLOTS → (probe start i < gp_fuel)%nat.
Proof.
  intros Hs Hi. rewrite probe_mod by done. unfold gp_fuel.
  rewrite slots_pow2 in *. zify_divmod.
Qed.

Lemma dist_probe start i : 0 ≤ start < SLOTS → 0 ≤ i < SLOTS →
  dist start (probe start i) = i.
Proof.
  intros Hs Hi. rewrite probe_mod by done. unfold dist. rewrite slots_pow2 in *. zify_divmod.
Qed.

(** ** The representation invariant *)
Definition live (s : dbellGpfifoSlot) : Prop := s_state s = 1.
#[global] Instance live_dec s : Decision (live s).
Proof. unfold live. apply _. Defined.

Record gp_wf (tbl : list dbellGpfifoSlot) : Prop := GpWf {
  wf_length : length tbl = gp_fuel;
  wf_uniq : ∀ i j s t, tbl !! i = Some s → tbl !! j = Some t → live s → live t →
    slot_key s = slot_key t → i = j;
  wf_chain : ∀ i s j, tbl !! i = Some s → live s →
    0 ≤ j < dist (_dbellGpfifoHash (slot_key s)) i →
    ∃ t, tbl !! probe (_dbellGpfifoHash (slot_key s)) j = Some t ∧ s_state t ≠ 0;
  wf_gpu : ∀ i s, tbl !! i = Some s → live s → s_pGpu s ≠ NULL;
  wf_state : ∀ i s, tbl !! i = Some s → s_state s = 0 ∨ s_state s = 1 ∨ s_state s = 2
}.

Lemma slot_matches_spec k s : slot_matches k s = true ↔ live s ∧ slot_key s = k.
Proof.
  destruct k as [[g r] c]. unfold slot_matches, live, slot_key.
  rewrite !andb_true_iff, !Z.eqb_eq. naive_solver.
Qed.

Section scan_correct.
Context (tbl : list dbellGpfifoSlot) (Hwf : gp_wf tbl) (k : gp_key).

Lemma gp_lookup_probe i : 0 ≤ i < SLOTS →
  ∃ s, tbl !! probe (_dbellGpfifoHash k) i = Some s.
Proof.
  intros Hi. apply lookup_lt_is_Some. rewrite (wf_length _ Hwf).
  apply probe_lt; [apply hash_range|done].
Qed.

Lemma gp_scan_sound n i idx :
  gp_scan tbl k n i = Some idx → ∃ s, tbl !! idx = Some s ∧ live s ∧ slot_key s = k.
Proof.
  revert i. induction n as [|n IH]; intros i; simpl; [done|].
  destruct (tbl !! probe _ i) as [s|] eqn:Hs; [|done].
  destruct (_ =? 0); [done|]. destruct (slot_matches k s) eqn:Hm; [|apply IH].
  intros [= <-]. apply slot_matches_spec in Hm. eauto.
Qed.

Lemma gp_scan_complete idx s n i :
  tbl !! idx = Some s → live s → slot_key s = k →
  0 ≤ i ≤ dist (_dbellGpfifoHash k) idx → i + Z.of_nat n = SLOTS →
  gp_scan tbl k n i = Some idx.
Proof.
  intros Hidx Hl Hk. revert i.
  pose proof (dist_range (_dbellGpfifoHash k) idx) as Hd.
  assert (Z.of_nat idx < SLOTS) as Hlt.
  { apply lookup_lt_Some in Hidx. rewrite (wf_length _ Hwf) in Hidx.
    rewrite <-slots_fuel. lia. }
  induction n as [|n IH]; intros i Hi Hn; [lia|]. simpl.
  destruct (gp_lookup_probe i) as [t Ht]; [lia|]. rewrite Ht.
  destruct (slot_matches k t) eqn:Hm.
  { apply slot_matches_spec in Hm as [Hlt' Hkt].
    rewrite (proj2 (Z.eqb_neq _ 0)) by (unfold live in *; lia).
    f_equal. eapply (wf_uniq _ Hwf); eauto. congruence. }
  destruct (decide (i = dist (_dbellGpfifoHash k) idx)) as [->|Hne].
  { rewrite probe_dist in Ht by (done || apply hash_range).
    assert (slot_matches k t = true) by (apply slot_matches_spec; naive_solver). congruence. }
  destruct (wf_chain _ Hwf idx s i) as (t' & Ht' & Hz); [done..|rewrite Hk; lia|].
  rewrite Hk, Ht in Ht'. injection Ht' as <-.
  rewrite (proj2 (Z.eqb_neq _ 0)) by done. apply IH; lia.
Qed.

(** The scan finds the live slot of the key when there is one. *)
Lemma gp_scan_spec idx :
  gp_scan tbl k gp_fuel 0 = Some idx ↔ ∃ s, tbl !! idx = Some s ∧ live s ∧ slot_key s = k.
Proof.
  split; [apply gp_scan_sound|]. intros (s & Hi & Hl & Hk).
  pose proof (dist_range (_dbellGpfifoHash k) idx).
  apply (gp_scan_complete idx s); [done..|lia|by rewrite slots_fuel].
Qed.

Lemma gp_scan_None :
  gp_scan tbl k gp_fuel 0 = None ↔ ∀ i s, tbl !! i = Some s → live s → slot_key s ≠ k.
Proof.
  destruct (gp_scan tbl k gp_fuel 0) as [idx|] eqn:H.
  - apply gp_scan_spec in H as (s & ? & ? & ?). split; [done|]. intros Hn. exfalso. by eapply Hn.
  - split; [|done]. intros _ i s Hi Hl Hk. enough (gp_scan tbl k gp_fuel 0 = Some i) by congruence.
    apply gp_scan_spec. eauto.
Qed.
End scan_correct.

(** ** Choosing a slot *)
Section choose_correct.
Context (tbl : list dbellGpfifoSlot) (Hwf : gp_wf tbl) (k : gp_key).

Definition gp_state_at (j : Z) : option Z := s_state <$> tbl !! probe (_dbellGpfifoHash k) j.

(** [gp_slot_ok idx]: [idx] is not live and no empty slot precedes it on the
    probe sequence of [k], so an entry stored there will be found. *)
Definition gp_slot_ok (idx : nat) : Prop :=
  ∃ s j, 0 ≤ j < SLOTS ∧ idx = probe (_dbellGpfifoHash k) j ∧ tbl !! idx = Some s ∧ ¬ live s ∧
    ∀ j', 0 ≤ j' < j → ∃ t, tbl !! probe (_dbellGpfifoHash k) j' = Some t ∧ s_state t ≠ 0.

(** The loop invariant: the slots seen so far are not empty, and
    [firstTombstone] is the first one not live. *)
Definition gp_choose_inv (i : Z) (ft : option nat) : Prop :=
  (∀ j, 0 ≤ j < i → ∃ t, tbl !! probe (_dbellGpfifoHash k) j = Some t ∧ s_state t ≠ 0) ∧
  match ft with
  | Some t => gp_slot_ok t
  | None => ∀ j, 0 ≤ j < i → ∃ t, tbl !! probe (_dbellGpfifoHash k) j = Some t ∧ live t
  end.

Lemma gp_choose_absent n i ft :
  (∀ idx s, tbl !! idx = Some s → live s → slot_key s ≠ k) →
  0 ≤ i → i + Z.of_nat n = SLOTS → gp_choose_inv i ft →
  match gp_choose tbl k n i ft with
  | GpUpdate _ => False
  | GpInsert idx => gp_slot_ok idx
  | GpFull => ∀ j, 0 ≤ j < SLOTS → ∃ t, tbl !! probe (_dbellGpfifoHash k) j = Some t ∧ live t
  end.
Proof.
  intros Habs. revert i ft. induction n as [|n IH]; intros i ft Hi Hn [Hseen Hft]; simpl.
  { replace SLOTS with i by lia. by destruct ft. }
  destruct (gp_lookup_probe tbl Hwf k i) as [t Ht]; [lia|]. rewrite Ht.
  destruct (slot_matches k t) eqn:Hm.
  { apply slot_matches_spec in Hm as [? ?]. by eapply Habs. }
  assert (¬ live t → gp_slot_ok (probe (_dbellGpfifoHash k) i)) as Hok.
  { intros Hnl. exists t, i. split_and!; try done; lia. }
  destruct (s_state t =? 2) eqn:H2.
  - apply Z.eqb_eq in H2. rewrite (proj2 (Z.eqb_neq _ 0)) by lia.
    apply IH; [lia..|]. split.
    + intros j Hj. destruct (decide (j = i)) as [->|]; [exists t; split; [done|lia]|].
      apply Hseen. lia.
    + destruct ft as [t0|]; [done|]. apply Hok. unfold live. lia.
  - destruct (s_state t =? 0) eqn:H0.
    + destruct ft as [t0|]; [done|]. apply Hok. unfold live. lia.
    + apply IH; [lia..|]. split.
      * intros j Hj. destruct (decide (j = i)) as [->|]; [exists t; split; [done|lia]|].
        apply Hseen. lia.
      * destruct ft as [t0|]; [done|]. intros j Hj.
        destruct (decide (j = i)) as [->|]; [|apply Hft; lia].
        exists t. split; [done|]. destruct (wf_state _ Hwf _ _ Ht) as [|[|]]; unfold live; lia.
Qed.

Lemma gp_choose_present idx s n i ft :
  tbl !! idx = Some s → live s → slot_key s = k →
  0 ≤ i ≤ dist (_dbellGpfifoHash k) idx → i + Z.of_nat n = SLOTS →
  gp_choose tbl k n i ft = GpUpdate idx.
Proof.
  intros Hidx Hl Hk. revert i ft.
  pose proof (dist_range (_dbellGpfifoHash k) idx) as Hd.
  assert (Z.of_nat idx < SLOTS) as Hlt.
  { apply lookup_lt_Some in Hidx. rewrite (wf_length _ Hwf) in Hidx.
    rewrite <-slots_fuel. lia. }
  induction n as [|n IH]; intros i ft Hi Hn; [lia|]. simpl.
  destruct (gp_lookup_probe tbl Hwf k i) as [t Ht]; [lia|]. rewrite Ht.
  destruct (slot_matches k t) eqn:Hm.
  { apply slot_matches_spec in Hm as [Hlt' Hkt].
    f_equal. eapply (wf_uniq _ Hwf); eauto. congruence. }
  destruct (decide (i = dist (_dbellGpfifoHash k) idx)) as [->|Hne].
  { rewrite probe_dist in Ht by (done || apply hash_range).
    assert (slot_matches k t = true) by (apply slot_matches_spec; naive_solver). congruence. }
  destruct (wf_chain _ Hwf idx s i) as (t' & Ht' & Hz); [done..|rewrite Hk; lia|].
  rewrite Hk, Ht in Ht'. injection Ht' as <-.
  rewrite (proj2 (Z.eqb_neq (s_state t) 0)) by done. apply IH; lia.
Qed.
End choose_correct.

(** ** Preservation of the invariant *)

(** Slot [idx] may hold a live entry for [k]: no other slot does, and the probe
    sequence reaches [idx] without meeting an empty slot. *)
Definition gp_placeable (tbl : list dbellGpfifoSlot) (k : gp_key) (idx : nat) : Prop :=
  k.1.1 ≠ NULL ∧
  (∀ i t, i ≠ idx → tbl !! i = Some t → live t → slot_key t ≠ k) ∧
  (∀ j, 0 ≤ j < dist (_dbellGpfifoHash k) idx →
     ∃ t, tbl !! probe (_dbellGpfifoHash k) j = Some t ∧ s_state t ≠ 0).

Lemma gp_wf_write tbl idx s s' :
  gp_wf tbl → tbl !! idx = Some s → (s_state s' = 1 ∨ s_state s' = 2) →
  (live s' → gp_placeable tbl (slot_key s') idx) →
  gp_wf (<[idx := s']> tbl).
Proof.
  intros Hwf Hs Hst Hpl.
  assert (idx < length tbl)%nat as Hlt by (by eapply lookup_lt_Some).
  assert (∀ i t, tbl !! i = Some t → s_state t ≠ 0 →
            ∃ t', <[idx := s']> tbl !! i = Some t' ∧ s_state t' ≠ 0) as Hnew.
  { intros i t Hi Ht. destruct (decide (i = idx)) as [->|].
    - exists s'. rewrite list_lookup_insert_eq by done. split; [done|lia].
    - exists t. by rewrite list_lookup_insert_ne. }
  split.
  - by rewrite length_insert, (wf_length _ Hwf).
  - intros i j a b [(-> & -> & _)|[Hi Ha]]%list_lookup_insert_Some
                   [(-> & -> & _)|[Hj Hb]]%list_lookup_insert_Some Hla Hlb Hk; [done|..].
    + destruct (Hpl Hla) as (_ & Hu & _). exfalso. by eapply (Hu j b).
    + destruct (Hpl Hlb) as (_ & Hu & _). exfalso. by eapply (Hu i a).
    + by eapply (wf_uniq _ Hwf).
  - intros i a j [(-> & -> & _)|[Hi Ha]]%list_lookup_insert_Some Hla Hj.
    + destruct (Hpl Hla) as (_ & _ & Hc). destruct (Hc j Hj) as (t & Ht & Hz). eauto.
    + destruct (wf_chain _ Hwf i a j Ha Hla Hj) as (t & Ht & Hz). eauto.
  - intros i a [(-> & -> & _)|[Hi Ha]]%list_lookup_insert_Some Hla.
    + by destruct (Hpl Hla) as (? & _).
    + by eapply (wf_gpu _ Hwf).
  - intros i a [(-> & -> & _)|[Hi Ha]]%list_lookup_insert_Some; [lia|].
    by eapply (wf_state _ Hwf).
Qed.

Lemma gp_placeable_live tbl idx s :
  gp_wf tbl → tbl !! idx = Some s → live s → gp_placeable tbl (slot_key s) idx.
Proof.
  intros Hwf Hs Hl. split_and!.
  - by eapply (wf_gpu _ Hwf).
  - intros i t Hne Hi Hlt Hk. apply Hne. by eapply (wf_uniq _ Hwf).
  - intros j Hj. by eapply (wf_chain _ Hwf).
Qed.

Lemma gp_placeable_ok tbl k idx :
  k.1.1 ≠ NULL → (∀ i t, tbl !! i = Some t → live t → slot_key t ≠ k) →
  gp_slot_ok tbl k idx → gp_placeable tbl k idx.
Proof.
  intros Hg Habs (s & j & Hj & -> & Hs & Hnl & Hseen). split_and!; [done|eauto|].
  rewrite dist_probe by (done || apply hash_range). done.
Qed.

(** ** Counting live slots *)
Definition live_count (tbl : list dbellGpfifoSlot) : nat := length (filter live tbl).

Lemma live_count_insert tbl idx s s' :
  tbl !! idx = Some s →
  (live_count (<[idx := s']> tbl) + (if decide (live s) then 1 else 0) =
   live_count tbl + (if decide (live s') then 1 else 0))%nat.
Proof.
  unfold live_count. revert idx. induction tbl as [|t tbl IH]; intros [|idx] Hs; simplify_eq/=.
  - rewrite !filter_cons. repeat case_decide; simpl; lia.
  - rewrite !filter_cons. specialize (IH idx Hs). repeat case_decide; simpl in *; lia.
Qed.

Lemma live_count_lt tbl idx s :
  tbl !! idx = Some s → ¬ live s → (live_count tbl < length tbl)%nat.
Proof.
  unfold live_count. revert idx. induction tbl as [|t tbl IH]; intros [|idx] Hs Hl; simplify_eq/=.
  - rewrite filter_cons_False by done. pose proof (length_filter live tbl). lia.
  - rewrite filter_cons. specialize (IH idx Hs Hl). case_decide; simpl in *; lia.
Qed.

Lemma live_count_full tbl : Forall live tbl → live_count tbl = length tbl.
Proof.
  unfold live_count. induction 1 as [|t l Ht _ IH]; [done|].
  rewrite filter_cons_True by done. simpl. by rewrite IH.
Qed.

(** ** Refinement *)
Record gp_rel (tbl : list dbellGpfifoSlot) (m : gmap gp_key (Z * Z)) : Prop := GpRel {
  rel_wf : gp_wf tbl;
  rel_map : ∀ k v, m !! k = Some v ↔
    ∃ i s, tbl !! i = Some s ∧ live s ∧ slot_key s = k ∧ slot_val s = v;
  rel_size : size m = live_count tbl
}.

Lemma gp_rel_absent tbl m k : gp_rel tbl m →
  m !! k = None ↔ ∀ i s, tbl !! i = Some s → live s → slot_key s ≠ k.
Proof.
  intros Hr. rewrite eq_None_not_Some. split.
  - intros Hn i s Hi Hl Hk. apply Hn. exists (slot_val s). apply (rel_map _ _ Hr). eauto 6.
  - intros Hn [v (i & s & ? & ? & ? & _)%(rel_map _ _ Hr)]. by eapply Hn.
Qed.

Lemma gp_rel_store tbl m idx s s' :
  gp_rel tbl m → tbl !! idx = Some s → live s' →
  gp_placeable tbl (slot_key s') idx → (live s → slot_key s = slot_key s') →
  gp_rel (<[idx := s']> tbl) (<[slot_key s' := slot_val s']> m).
Proof.
  intros Hr Hs Hl Hpl Hsame. pose proof (rel_wf _ _ Hr) as Hwf.
  assert (idx < length tbl)%nat as Hlt by (by eapply lookup_lt_Some).
  destruct Hpl as (Hg & Hu & Hc) eqn:Hpl_eq.
  split.
  - eapply gp_wf_write; eauto.
  - intros k v. rewrite lookup_insert_Some. split.
    + intros [[<- <-]|[Hne (i & t & Hi & Hlt' & <- & <-)%(rel_map _ _ Hr)]].
      { exists idx, s'. by rewrite list_lookup_insert_eq. }
      exists i, t. rewrite list_lookup_insert_ne; [done|].
      intros ->. rewrite Hs in Hi. injection Hi as ->. by rewrite Hsame in Hne.
    + intros (i & t & [(-> & -> & _)|[Hi Ht]]%list_lookup_insert_Some & Hlt' & <- & <-);
        [by left|right].
      split; [by intros Heq; eapply (Hu i t)|]. apply (rel_map _ _ Hr). eauto 6.
  - pose proof (live_count_insert tbl idx s s' Hs) as Hcnt.
    rewrite (decide_True (P:=live s')) in Hcnt by done. pose proof (rel_size _ _ Hr) as Hsz.
    case_decide as Hls.
    + assert (is_Some (m !! slot_key s')).
      { exists (slot_val s). apply (rel_map _ _ Hr). exists idx, s. auto. }
      rewrite map_size_insert_Some by done. lia.
    + rewrite map_size_insert_None; [lia|]. eapply gp_rel_absent; [done|].
      intros i t Hi Hlt' Hk. destruct (decide (i = idx)) as [->|]; [congruence|].
      by eapply (Hu i t).
Qed.

Lemma gp_rel_kill tbl m idx s s' :
  gp_rel tbl m → tbl !! idx = Some s → live s → s_state s' = 2 →
  gp_rel (<[idx := s']> tbl) (delete (slot_key s) m).
Proof.
  intros Hr Hs Hl H2. pose proof (rel_wf _ _ Hr) as Hwf.
  assert (¬ live s') as Hnl by (unfold live; lia). split.
  - eapply gp_wf_write; eauto. done.
  - intros k v. rewrite lookup_delete_Some. split.
    + intros [Hne (i & t & Hi & Hlt & <- & <-)%(rel_map _ _ Hr)].
      exists i, t. rewrite list_lookup_insert_ne; [done|]. intros ->. congruence.
    + intros (i & t & [(-> & -> & _)|[Hi Ht]]%list_lookup_insert_Some & Hlt & <- & <-); [done|].
      split; [|apply (rel_map _ _ Hr); eauto 6].
      intros Hk. apply Hi. by eapply (wf_uniq _ Hwf).
  - pose proof (live_count_insert tbl idx s s' Hs) as Hcnt.
    rewrite (decide_True (P:=live s)), (decide_False (P:=live s')) in Hcnt by done.
    rewrite map_size_delete_Some, (rel_size _ _ Hr); [lia|].
    exists (slot_val s). apply (rel_map _ _ Hr). eauto 6.
Qed.

Lemma gp_rel_init : gp_rel g_dbellGpfifoTable0 ∅.
Proof.
  assert (∀ i s, g_dbellGpfifoTable0 !! i = Some s → s = gp_empty_slot) as He.
  { intros i s [-> _]%lookup_replicate. done. }
  assert (∀ i s, g_dbellGpfifoTable0 !! i = Some s → ¬ live s) as Hn.
  { intros i s ->%He. done. }
  split.
  - split.
    + apply length_replicate.
    + intros i j s t Hi _ Hl. by apply Hn in Hi.
    + intros i s j Hi Hl. by apply Hn in Hi.
    + intros i s Hi Hl. by apply Hn in Hi.
    + intros i s ->%He. by left.
  - intros k v. split; [done|]. intros (i & s & Hi%Hn & ? & _). done.
  - rewrite map_size_empty. unfold live_count, g_dbellGpfifoTable0.
    induction (Z.to_nat SLOTS) as [|n IH]; [done|]. by rewrite replicate_S, filter_cons_False.
Qed.

Lemma gp_lookup_refines tbl m k : gp_rel tbl m → _dbellGpfifoLookup tbl k = m !! k.
Proof.
  intros Hr. pose proof (rel_wf _ _ Hr) as Hwf. unfold _dbellGpfifoLookup.
  destruct (k.1.1 =? NULL) eqn:Hg.
  { apply Z.eqb_eq in Hg. symmetry. eapply gp_rel_absent; [done|].
    intros i s Hi Hl <-. by eapply (wf_gpu _ Hwf). }
  destruct (gp_scan tbl k gp_fuel 0) as [idx|] eqn:Hsc; simpl.
  - apply (gp_scan_spec _ Hwf) in Hsc as (s & Hs & Hl & Hk). rewrite Hs. simpl.
    symmetry. apply (rel_map _ _ Hr). eauto 6.
  - symmetry. eapply gp_rel_absent; [done|]. by apply (gp_scan_None _ Hwf).
Qed.

Lemma gp_unregister_refines tbl m k :
  gp_rel tbl m → gp_rel (nvGpuOpsDbellGpfifoUnregister k tbl) (spec_unregister k m).
Proof.
  intros Hr. pose proof (rel_wf _ _ Hr) as Hwf.
  unfold nvGpuOpsDbellGpfifoUnregister, spec_unregister.
  assert ((∀ i s, tbl !! i = Some s → live s → slot_key s ≠ k) → gp_rel tbl (delete k m)) as Hid.
  { intros Habs. by rewrite delete_id by (by eapply gp_rel_absent). }
  destruct (k.1.1 =? NULL) eqn:Hg.
  { apply Z.eqb_eq in Hg. apply Hid. intros i s Hi Hl <-. by eapply (wf_gpu _ Hwf). }
  destruct (gp_scan tbl k gp_fuel 0) as [idx|] eqn:Hsc.
  - apply (gp_scan_spec _ Hwf) in Hsc as (s & Hs & Hl & <-).
    erewrite list_alter_insert by done. by eapply gp_rel_kill.
  - apply Hid. by apply (gp_scan_None _ Hwf).
Qed.

Lemma gp_register_refines tbl m k v :
  gp_rel tbl m → k.1.1 ≠ NULL → v.2 ≠ 0 →
  match gp_register k v tbl with
  | Some (new, tbl') =>
      gp_rel tbl' (<[k := v]> m) ∧ new = bool_decide (m !! k = None) ∧
      (is_Some (m !! k) ∨ Z.of_nat (size m) < SLOTS)
  | None => m !! k = None ∧ Z.of_nat (size m) = SLOTS
  end.
Proof.
  intros Hr Hg Hv. pose proof (rel_wf _ _ Hr) as Hwf.
  destruct k as [[pGpu runlist] chid], v as [off ent]. unfold gp_register.
  set (k := (pGpu, runlist, chid)) in *. destruct (m !! k) as [v0|] eqn:Hm.
  - pose proof Hm as Hm'. apply (rel_map _ _ Hr) in Hm' as (idx & s & Hs & Hl & Hk & _).
    rewrite (gp_choose_present tbl Hwf k idx s) by
      (try done; try (by rewrite slots_fuel); pose proof (dist_range (_dbellGpfifoHash k) idx); lia).
    erewrite list_alter_insert by done.
    set (s' := GpSlot _ _ _ off ent _). split_and!; [|by rewrite bool_decide_eq_false_2|left; eauto].
    assert (slot_key s' = k) as <- by (rewrite <-Hk; done).
    eapply (gp_rel_store tbl m idx s s'); [done..| |by rewrite Hk; intros].
    rewrite <-Hk. by apply gp_placeable_live.
  - assert (∀ i s, tbl !! i = Some s → live s → slot_key s ≠ k) as Habs
      by (by eapply gp_rel_absent).
    pose proof (gp_choose_absent tbl Hwf k gp_fuel 0 None Habs ltac:(lia)
                  ltac:(by rewrite slots_fuel) ltac:(split; intros; lia)) as Hch.
    destruct (gp_choose tbl k gp_fuel 0 None) as [|idx|]; [done| |].
    + pose proof Hch as (s & j & _ & _ & Hs & Hnl & _). split_and!.
      * eapply (gp_rel_store tbl m idx s (GpSlot pGpu runlist chid off ent 1)); [done..| |done].
        by apply gp_placeable_ok.
      * by rewrite bool_decide_eq_true_2.
      * right. rewrite (rel_size _ _ Hr). pose proof (live_count_lt _ _ _ Hs Hnl).
        rewrite (wf_length _ Hwf) in *. rewrite <-slots_fuel. lia.
    + split; [done|]. rewrite (rel_size _ _ Hr), live_count_full, (wf_length _ Hwf), slots_fuel;
        [done|].
      apply Forall_lookup. intros i s Hs.
      assert (Z.of_nat i < SLOTS) as Hi.
      { rewrite <-slots_fuel, <-(wf_length _ Hwf). apply lookup_lt_Some in Hs. lia. }
      destruct (Hch (dist (_dbellGpfifoHash k) i)) as (t & Ht & Hl); [apply dist_range|].
      rewrite probe_dist in Ht by (done || apply hash_range). congruence.
Qed.

Lemma gp_rel_bound tbl m : gp_rel tbl m → Z.of_nat (size m) ≤ SLOTS.
Proof.
  intros Hr. rewrite (rel_size _ _ Hr), <-slots_fuel, <-(wf_length _ (rel_wf _ _ Hr)).
  unfold live_count. pose proof (length_filter live tbl). lia.
Qed.

Lemma gp_op_refines o tbl m : gp_rel tbl m → gp_rel (gp_run_op o tbl) (spec_run_op o m).
Proof.
  intros Hr. destruct o as [k v|k]; simpl; [|by apply gp_unregister_refines].
  unfold spec_register. destruct (_ || _) eqn:Hg; [done|].
  apply orb_false_iff in Hg as [Hg%Z.eqb_neq Hv%Z.eqb_neq].
  pose proof (gp_register_refines tbl m k v Hr Hg Hv) as H.
  destruct (gp_register k v tbl) as [[new tbl']|].
  - destruct H as (Hr' & _ & Hroom). by rewrite decide_True.
  - destruct H as [Hn Hfull]. rewrite decide_False; [done|].
    intros [[? ?]|?]; [congruence|lia].
Qed.

Lemma gp_ops_refine (ops : list gp_op) :
  gp_rel (foldl (flip gp_run_op) g_dbellGpfifoTable0 ops) (foldl (flip spec_run_op) ∅ ops).
Proof.
  cut (∀ tbl m, gp_rel tbl m →
         gp_rel (foldl (flip gp_run_op) tbl ops) (foldl (flip spec_run_op) m ops)).
  { intros H. apply H, gp_rel_init. }
  induction ops as [|o ops IH]; intros tbl m Hr; [done|]. simpl. by apply IH, gp_op_refines.
Qed.

(** * Properties *)

(** C7: the GPFIFO parameter table implements its abstract map.  After any
    sequence of channel registrations and unregistrations starting from the
    empty table, looking up a (GPU, runlist, channel) triple gives exactly what
    a finite map bounded by the number of slots gives: the last registered ring,
    or nothing after an unregistration. *)
Theorem gpfifo_table_refines_map (ops : list gp_op) (k : gp_key) :
  _dbellGpfifoLookup (foldl (flip gp_run_op) g_dbellGpfifoTable0 ops) k =
  foldl (flip spec_run_op) ∅ ops !! k.
Proof. apply gp_lookup_refines, gp_ops_refine. Qed.

(** in any reachable table, a registration of a new channel is refused only
    when all 4096 slots are live; tombstones never make the table refuse, and a
    successful registration is visible to the next lookup. *)
Theorem gpfifo_register_refused_only_when_full (ops : list gp_op) (k : gp_key) (v : Z * Z)
    (Hgpu : k.1.1 ≠ NULL) (Hv : v.2 ≠ 0) :
  let tbl := foldl (flip gp_run_op) g_dbellGpfifoTable0 ops in
  match gp_register k v tbl with
  | Some (_, tbl') => _dbellGpfifoLookup tbl' k = Some v
  | None => length (filter live tbl) = Z.to_nat TRACE_DBELL_GPFIFO_SLOTS
  end.
Proof.
  pose proof (gp_ops_refine ops) as Hr. cbv zeta.
  set (tbl := foldl _ g_dbellGpfifoTable0 ops) in *.
  pose proof (gp_register_refines tbl _ k v Hr Hgpu Hv) as H.
  destruct (gp_register k v tbl) as [[new tbl']|].
  - destruct H as (Hr' & _). rewrite (gp_lookup_refines _ _ _ Hr'). apply lookup_insert_eq.
  - destruct H as [_ Hfull]. pose proof (rel_size _ _ Hr) as Hsz. unfold live_count in Hsz. lia.
Qed.

Lemma gpfifo_register_refused_only_when_full_witness :
  let k := (0xffff888100000000, 3, 17) in
  match gp_register k (0x203c00000, 1024) g_dbellGpfifoTable0 with
  | Some (_, tbl') => _dbellGpfifoLookup tbl' k = Some (0x203c00000, 1024)
  | None => length (filter live g_dbellGpfifoTable0) = Z.to_nat TRACE_DBELL_GPFIFO_SLOTS
  end.
Proof.
  exact (gpfifo_register_refused_only_when_full [] (0xffff888100000000, 3, 17)
           (0x203c00000, 1024) ltac:(done) ltac:(done)).
Defined.
