(* ===== verification/KthreadQ.v ===== *)
(** * KthreadQ: the kernel-thread work queue of nv-kthread-q.c

    One FIFO list of work items, a counting semaphore and one thread that
    consumes them.  The doorbell resolver runs on this queue. *)
From stdpp Require Import base numbers list strings gmap.
From S2P Require Import Prelude Kernel.
#[local] Open Scope Z_scope.

(** ** State: [nv_kthread_q_t].  A queued item is its address; an item is on
    the list exactly when its [q_list_node] is not empty. *)
Record kq : Type := Kq {
  q_list : list Z;
  q_sem : Z;
  main_loop_should_exit : bool;
  q_kthread : bool           (* the thread exists *)
}.

(** nv_kthread_q_init_on_node after a successful thread creation, and after a
    failed one. *)
Definition nv_kthread_q_init (created : bool) : kq := Kq [] 0 false created.

(** ** Operations *)
Definition _raw_q_schedule (q_item : Z) (q : kq) : Z * kq :=
  if decide (q_item ∈ q_list q) then (0, q)
  else (1, Kq (q_list q ++ [q_item]) (q_sem q + 1) (main_loop_should_exit q) (q_kthread q)).

Definition nv_kthread_q_schedule_q_item (q_item : Z) (q : kq) : Z * kq :=
  if main_loop_should_exit q then (0, q) else _raw_q_schedule q_item q.

(** What one iteration of [_main_loop] does. *)
Inductive kq_event : Type :=
| KqBlocked                  (* waits on the semaphore *)
| KqExit                     (* leaves the loop *)
| KqWarnEmpty                (* "Empty queue", the case called a bug *)
| KqRun (q_item : Z).        (* runs this item's function *)

Definition _main_loop_iter (q : kq) : kq_event * kq :=
  if q_sem q <=? 0 then (KqBlocked, q)
  else
    let q := Kq (q_list q) (q_sem q - 1) (main_loop_should_exit q) (q_kthread q) in
    if main_loop_should_exit q then (KqExit, q)
    else
      match q_list q with
      | [] => (KqWarnEmpty, q)
      | x :: l => (KqRun x, Kq l (q_sem q) (main_loop_should_exit q) (q_kthread q))
      end.

Section running.
(** [run x] is the effect on the queue of item [x]'s function: the items it
    schedules. *)
Context (run : Z → list Z).

Definition schedule_all (xs : list Z) (q : kq) : kq :=
  foldl (λ q x, (nv_kthread_q_schedule_q_item x q).2) q xs.

(** [n] iterations of the main loop, with the items run in order. *)
Fixpoint _main_loop (n : nat) (q : kq) : list Z * kq :=
  match n with
  | O => ([], q)
  | S n =>
      match _main_loop_iter q with
      | (KqRun x, q') =>
          let '(xs, q'') := _main_loop n (schedule_all (run x) q') in (x :: xs, q'')
      | (KqWarnEmpty, q') => _main_loop n q'
      | (_, q') => ([], q')
      end
  end.

(** Schedule the completion item [f] and let the thread run until it has run. *)
Definition _raw_q_flush (f : Z) (q : kq) : list Z * kq :=
  let q := (_raw_q_schedule f q).2 in
  _main_loop (length (q_list q)) q.

Definition nv_kthread_q_flush (f1 f2 : Z) (q : kq) : list Z * kq :=
  if main_loop_should_exit q then ([], q)
  else
    let '(xs, q) := _raw_q_flush f1 q in
    let '(ys, q) := _raw_q_flush f2 q in
    (xs ++ ys, q).

(** Returns the items run, whether the "list not empty" warning fired, and the
    queue. *)
Definition nv_kthread_q_stop (f1 f2 : Z) (q : kq) : list Z * bool * kq :=
  if negb (q_kthread q) then ([], false, q)
  else
    let '(xs, q) := nv_kthread_q_flush f1 f2 q in
    let warn := negb (bool_decide (q_list q = [])) in
    if main_loop_should_exit q then (xs, warn, q)
    else (xs, warn, Kq (q_list q) (q_sem q + 1) true false).
End running.

(** *** thread_create_on_node: up to three attempts at a stack on the preferred
    NUMA node.  [create i] is the [i]-th kthread_create_on_node: [None] is an
    error, [Some (vmalloced, preferred)] says where the stack is. *)
Section threads.
Context (create : nat → option (bool * bool)).

(** The creation loop from attempt [i], with [fuel] attempts allowed: the index
    picked and the number of threads created. *)
Fixpoint pick_thread (fuel : nat) (i : nat) : nat * nat :=
  match create i with
  | None => (Nat.pred i, i)
  | Some (vmalloced, preferred) =>
      if negb vmalloced then (i, S i)
      else
        match fuel with
        | O => (i, S i)
        | S fuel => if preferred then (i, S i) else pick_thread fuel (S i)
        end
  end.

(** The picked index, the indices of the threads created, and those stopped by
    [for (j = i; j > 0; j--) kthread_stop(thread[j - 1])]. *)
Definition thread_create_on_node : nat * list nat * list nat :=
  let '(i, created) := pick_thread 2 0 in
  (i, seq 0 created, reverse (seq 0 i)).
End threads.

(** ** Steps of the queue, in any interleaving of its users and its thread *)
Inductive kq_step : kq → kq → Prop :=
| kq_sched x q : kq_step q (nv_kthread_q_schedule_q_item x q).2
| kq_flush_item f q : main_loop_should_exit q = false → kq_step q (_raw_q_schedule f q).2
| kq_iter q : kq_step q (_main_loop_iter q).2.

(** * Theorems *)

(** The semaphore counts the queued items, which are distinct. *)
Definition kq_inv (q : kq) : Prop :=
  q_sem q = Z.of_nat (length (q_list q)) ∧ NoDup (q_list q).

Lemma raw_schedule_inv x q : kq_inv q → kq_inv (_raw_q_schedule x q).2.
Proof.
  unfold _raw_q_schedule, kq_inv. intros [Hs Hd]. case_decide; [done|]. simpl.
  rewrite length_app. simpl. split; [lia|].
  apply NoDup_app. split_and!; [done| |apply NoDup_singleton]. set_solver.
Qed.

Lemma schedule_inv x q : kq_inv q → kq_inv (nv_kthread_q_schedule_q_item x q).2.
Proof.
  unfold nv_kthread_q_schedule_q_item. intros. destruct (main_loop_should_exit q); [done|].
  by apply raw_schedule_inv.
Qed.

Lemma main_loop_iter_inv q :
  kq_inv q → main_loop_should_exit q = false →
  kq_inv (_main_loop_iter q).2 ∧ (_main_loop_iter q).1 ≠ KqWarnEmpty.
Proof.
  unfold _main_loop_iter, kq_inv. intros [Hs Hd] He.
  destruct (_ <=? _) eqn:E; [done|]. simpl. rewrite He.
  destruct (q_list q) as [|x l] eqn:Hl; simpl in *; [lia|].
  split; [|done]. split; [lia|]. by apply NoDup_cons in Hd as [_ ?].
Qed.

Lemma kq_step_exit q q' : kq_step q q' → main_loop_should_exit q' = main_loop_should_exit q.
Proof.
  destruct 1; unfold nv_kthread_q_schedule_q_item, _raw_q_schedule, _main_loop_iter;
    repeat case_match; done.
Qed.

(** Scheduling keeps what is queued in place and order. *)
Lemma schedule_all_prefix xs q : q_list q `prefix_of` q_list (schedule_all xs q).
Proof.
  unfold schedule_all. revert q. induction xs as [|x xs IH]; intros q; [done|]. simpl.
  etrans; [|apply IH]. unfold nv_kthread_q_schedule_q_item, _raw_q_schedule.
  repeat case_match; simpl; try done. by apply prefix_app_r.
Qed.

Lemma schedule_all_inv xs q : kq_inv q → kq_inv (schedule_all xs q).
Proof.
  unfold schedule_all. revert q. induction xs as [|x xs IH]; intros q Hq; [done|]. simpl.
  by apply IH, schedule_inv.
Qed.

Lemma schedule_all_exit xs q :
  main_loop_should_exit (schedule_all xs q) = main_loop_should_exit q.
Proof.
  unfold schedule_all. revert q. induction xs as [|x xs IH]; intros q; [done|]. simpl.
  rewrite IH. unfold nv_kthread_q_schedule_q_item, _raw_q_schedule. by repeat case_match.
Qed.

Lemma main_loop_fifo run n q :
  kq_inv q → main_loop_should_exit q = false → (n ≤ length (q_list q))%nat →
  let '(xs, q') := _main_loop run n q in
  xs = take n (q_list q) ∧ drop n (q_list q) `prefix_of` q_list q' ∧
  kq_inv q' ∧ main_loop_should_exit q' = false.
Proof.
  revert q. induction n as [|n IH]; intros q Hq He Hn; simpl.
  { rewrite drop_0. done. }
  pose proof Hq as [Hs Hd].
  unfold _main_loop_iter. rewrite (proj2 (Z.leb_gt _ _)) by lia. simpl. rewrite He.
  destruct (q_list q) as [|x l] eqn:Hl; simpl in *; [lia|].
  set (q1 := Kq l (q_sem q - 1) false (q_kthread q)).
  assert (kq_inv q1) as Hq1.
  { split; simpl; [lia|]. by apply NoDup_cons in Hd as [_ ?]. }
  pose proof (schedule_all_prefix (run x) q1) as [l' Hl'].
  specialize (IH (schedule_all (run x) q1) ltac:(by apply schedule_all_inv)).
  rewrite schedule_all_exit, Hl', length_app in IH.
  specialize (IH eq_refl ltac:(simpl; lia)).
  destruct (_main_loop run n _) as [xs q']. destruct IH as (-> & Hp & Hi & Hx).
  simpl in *. split_and!; [|  |done..].
  - by rewrite take_app_le by lia.
  - rewrite drop_app_le in Hp by lia. etrans; [|exact Hp]. by apply prefix_app_r.
Qed.

Lemma schedule_elem x q : main_loop_should_exit q = false →
  x ∈ q_list (nv_kthread_q_schedule_q_item x q).2.
Proof.
  intros He. unfold nv_kthread_q_schedule_q_item, _raw_q_schedule. rewrite He.
  case_decide; simpl; set_solver.
Qed.

Lemma schedule_all_elem x xs q : main_loop_should_exit q = false → x ∈ xs →
  x ∈ q_list (schedule_all xs q).
Proof.
  unfold schedule_all. revert q. induction xs as [|y xs IH]; intros q He Hx; [by apply elem_of_nil in Hx|].
  simpl. assert (main_loop_should_exit (nv_kthread_q_schedule_q_item y q).2 = false) as He'.
  { unfold nv_kthread_q_schedule_q_item, _raw_q_schedule. by repeat case_match. }
  apply elem_of_cons in Hx as [->|Hx]; [|by apply IH].
  destruct (schedule_all_prefix xs (nv_kthread_q_schedule_q_item y q).2) as [l Hl].
  unfold schedule_all in Hl. rewrite Hl. apply elem_of_app. left. by apply schedule_elem.
Qed.

(** Whatever an item run in [n] iterations schedules is run in those iterations
    or still queued after them. *)
Lemma main_loop_children run n q x y :
  kq_inv q → main_loop_should_exit q = false → (n ≤ length (q_list q))%nat →
  x ∈ take n (q_list q) → y ∈ run x →
  let '(xs, q') := _main_loop run n q in y ∈ xs ∨ y ∈ q_list q'.
Proof.
  revert q. induction n as [|n IH]; intros q Hq He Hn Hx Hy; [by apply elem_of_nil in Hx|]. simpl.
  pose proof Hq as [Hs Hd].
  unfold _main_loop_iter. rewrite (proj2 (Z.leb_gt _ _)) by lia. simpl. rewrite He.
  destruct (q_list q) as [|z l] eqn:Hl; simpl in *; [lia|].
  set (q1 := Kq l (q_sem q - 1) false (q_kthread q)).
  assert (kq_inv q1) as Hq1.
  { split; simpl; [lia|]. by apply NoDup_cons in Hd as [_ ?]. }
  pose proof (schedule_all_prefix (run z) q1) as [l' Hl'].
  assert (kq_inv (schedule_all (run z) q1)) as Hq2 by (by apply schedule_all_inv).
  assert (main_loop_should_exit (schedule_all (run z) q1) = false) as He2
    by (by rewrite schedule_all_exit).
  assert (n ≤ length (q_list (schedule_all (run z) q1)))%nat as Hn2
    by (rewrite Hl', length_app; simpl; lia).
  pose proof (main_loop_fifo run n _ Hq2 He2 Hn2) as Hfifo.
  specialize (IH _ Hq2 He2 Hn2).
  destruct (_main_loop run n _) as [xs q']. destruct Hfifo as (-> & [l'' Hp] & _).
  apply elem_of_cons in Hx as [->|Hx].
  - assert (y ∈ q_list (schedule_all (run z) q1)) as Hin by (by apply schedule_all_elem).
    rewrite <-(take_drop n) in Hin. rewrite Hp. set_solver.
  - destruct IH as [?|?]; [|done|left; by right|by right].
    rewrite Hl'. simpl. rewrite take_app_le by (simpl; lia). done.
Qed.

Lemma raw_flush_spec run f q :
  kq_inv q → main_loop_should_exit q = false → f ∉ q_list q →
  let '(xs, q') := _raw_q_flush run f q in
  xs = q_list q ++ [f] ∧ kq_inv q' ∧ main_loop_should_exit q' = false ∧
  ∀ x y, x ∈ q_list q → y ∈ run x → y ∈ xs ∨ y ∈ q_list q'.
Proof.
  intros Hq He Hf. unfold _raw_q_flush.
  assert (q_list (_raw_q_schedule f q).2 = q_list q ++ [f]) as Hl.
  { unfold _raw_q_schedule. by rewrite decide_False. }
  assert (main_loop_should_exit (_raw_q_schedule f q).2 = false) as He'.
  { unfold _raw_q_schedule. by rewrite decide_False. }
  pose proof (raw_schedule_inv f q Hq) as Hq'.
  pose proof (main_loop_fifo run _ _ Hq' He' ltac:(done)) as H.
  pose proof (λ x y, main_loop_children run _ _ x y Hq' He' ltac:(done)) as Hc.
  cbv zeta. destruct (_main_loop run _ _) as [xs q'].
  destruct H as (-> & _ & Hi & Hx). rewrite firstn_all in *. rewrite Hl in *.
  split_and!; try done. intros x y Hxq Hy. apply (Hc x y); [set_solver|done].
Qed.

(** * Properties *)

(** the main loop never meets an empty list after a successful semaphore
    wait, in any interleaving of schedulers, flushers and the loop itself: the
    "Empty queue" warning is unreachable. *)
Theorem kthread_q_never_warns_empty (q : kq)
    (Hreach : rtc kq_step (nv_kthread_q_init true) q) :
  (_main_loop_iter q).1 ≠ KqWarnEmpty ∧ NoDup (q_list q).
Proof.
  assert (kq_inv q ∧ main_loop_should_exit q = false) as [Hq He].
  { remember (nv_kthread_q_init true) as q0 eqn:Hq0.
    assert (kq_inv q0 ∧ main_loop_should_exit q0 = false) as H0.
    { subst. split; [split; [done|apply NoDup_nil_2]|done]. }
    clear Hq0. induction Hreach as [|q1 q2 q3 Hstep _ IH]; [done|]. apply IH.
    destruct H0 as [Hi He]. split; [|by rewrite (kq_step_exit _ _ Hstep)].
    destruct Hstep; [by apply schedule_inv|by apply raw_schedule_inv|by apply main_loop_iter_inv]. }
  split; [by apply main_loop_iter_inv|apply Hq].
Qed.

Lemma kthread_q_never_warns_empty_witness :
  (_main_loop_iter (nv_kthread_q_schedule_q_item 5 (nv_kthread_q_init true)).2).1 = KqRun 5 ∧
  (_main_loop_iter (nv_kthread_q_schedule_q_item 5 (nv_kthread_q_init true)).2).1 ≠ KqWarnEmpty.
Proof.
  split; [reflexivity|].
  apply (kthread_q_never_warns_empty (nv_kthread_q_schedule_q_item 5 (nv_kthread_q_init true)).2).
  eapply rtc_l; [apply kq_sched|apply rtc_refl].
Defined.

(** flushing the queue runs every item queued before the call, in order,
    before anything else, and, because it flushes twice, also every item those
    items schedule. *)
Theorem kthread_q_flush_runs_two_generations (run : Z → list Z) (f1 f2 : Z) (q : kq)
    (Hinv : kq_inv q) (Halive : main_loop_should_exit q = false)
    (Hf1 : f1 ∉ q_list q) (Hf2 : f2 ∉ q_list (_raw_q_flush run f1 q).2) :
  let xs := (nv_kthread_q_flush run f1 f2 q).1 in
  (q_list q ++ [f1]) `prefix_of` xs ∧
  ∀ x y, x ∈ q_list q → y ∈ run x → y ∈ xs.
Proof.
  unfold nv_kthread_q_flush. rewrite Halive.
  pose proof (raw_flush_spec run f1 q Hinv Halive Hf1) as H1.
  destruct (_raw_q_flush run f1 q) as [xs q1]. destruct H1 as (-> & Hq1 & He1 & Hc1).
  pose proof (raw_flush_spec run f2 q1 Hq1 He1 Hf2) as H2.
  destruct (_raw_q_flush run f2 q1) as [ys q2]. destruct H2 as (-> & _ & _ & _).
  simpl. split; [by apply prefix_app_r|].
  intros x y Hx Hy. destruct (Hc1 x y Hx Hy); set_solver.
Qed.

Lemma kthread_q_flush_runs_two_generations_witness :
  (nv_kthread_q_flush (λ x, if x =? 1 then [9] else []) 100 101 (Kq [1; 2] 2 false true)).1
    = [1; 2; 100; 9; 101] ∧
  ([1; 2] ++ [100]) `prefix_of`
    (nv_kthread_q_flush (λ x, if x =? 1 then [9] else []) 100 101 (Kq [1; 2] 2 false true)).1.
Proof.
  split; [reflexivity|].
  apply (kthread_q_flush_runs_two_generations (λ x, if x =? 1 then [9] else []) 100 101
           (Kq [1; 2] 2 false true));
    [split; [done|apply (bool_decide_unpack _); vm_compute; exact I]|done
    |apply (bool_decide_unpack _); vm_compute; exact I
    |apply (bool_decide_unpack _); vm_compute; exact I].
Defined.

(** of the threads created while looking for a stack on the preferred node,
    all but the one returned are stopped, each once; the one returned is not
    stopped, and at most three are created. *)
Theorem thread_create_on_node_keeps_one (create : nat → option (bool * bool))
    (Hfirst : is_Some (create 0%nat)) :
  let '(i, created, stopped) := thread_create_on_node create in
  (length created ≤ 3)%nat ∧ (i ∈ created) ∧ (i ∉ stopped) ∧ NoDup stopped ∧
  ∀ j, (j ∈ created) ↔ (j = i ∨ j ∈ stopped).
Proof.
  destruct Hfirst as [[v0 p0] H0].
  assert (∃ i, pick_thread create 2 0 = (i, S i) ∧ (i ≤ 2)%nat) as (i & Hp & Hi).
  { simpl. rewrite H0. destruct v0; simpl; [|eauto]. destruct p0; [eauto|].
    destruct (create 1%nat) as [[v1 p1]|]; [|eauto]. destruct v1; simpl; [|eauto].
    destruct p1; [eauto|]. destruct (create 2%nat) as [[v2 p2]|]; [|eauto].
    destruct v2; simpl; eauto. }
  unfold thread_create_on_node. rewrite Hp. rewrite length_seq.
  assert (∀ j, j ∈ reverse (seq 0 i) ↔ (j < i)%nat) as Hrev.
  { intros j. rewrite elem_of_reverse, elem_of_seq. lia. }
  split_and!; [lia|apply elem_of_seq; lia|rewrite Hrev; lia| |].
  - rewrite reverse_Permutation. apply NoDup_seq.
  - intros j. rewrite Hrev, elem_of_seq. lia.
Qed.

Lemma thread_create_on_node_keeps_one_witness :
  thread_create_on_node (λ i, if decide (i = 2%nat) then None else Some (true, false))
    = (1%nat, [0; 1]%nat, [0]%nat) ∧
  let '(i, created, stopped) :=
    thread_create_on_node (λ i, if decide (i = 2%nat) then None else Some (true, false)) in
  (length created ≤ 3)%nat ∧ (i ∈ created) ∧ (i ∉ stopped) ∧ NoDup stopped ∧
  ∀ j, (j ∈ created) ↔ (j = i ∨ j ∈ stopped).
Proof.
  split; [reflexivity|].
  apply (thread_create_on_node_keeps_one
           (λ i, if decide (i = 2%nat) then None else Some (true, false))).
  vm_compute. eauto.
Defined.
