(* ===== verification/DbellCache.v ===== *)
(** * DbellCache: the per-(chid, runlist) USERD cache of nv-doorbell-watch.c

    The driver-wide state of the doorbell watchpoint, the cache the trap
    handler consults, the deferred resolver that fills it from a work queue,
    and the BAR1 teardown that invalidates it. *)
From stdpp Require Import base numbers list strings gmap.
From S2P Require Import Prelude Kernel Trackers KthreadQ.
#[local] Open Scope Z_scope.

(** ** Data *)
Definition NV_DBELL_CACHE_SIZE : nat := 80.
Definition NV_DBELL_SLOTS : nat := 4.
Definition NV_DBELL_VMA_TAG : Z := 0xDB11D00B.
Definition NV_DBELL_OFFSET : Z := 0x90.
Definition NV_DBELL_REGION_SIZE : Z := 0x10000.
Definition NV_DBELL_MAX_BP_PER_CTX : nat := 64.

(** NV_DBELL_CACHE_FREE .. NV_DBELL_CACHE_FAILED *)
Inductive cache_state : Type := CFree | CPending | CResolved | CFailed.

#[global] Instance cache_state_eq_dec : EqDecision cache_state.
Proof. solve_decision. Defined.

Record cache_entry : Type := CacheEntry {
  c_state : cache_state;
  c_chid : Z;
  c_runlist : Z;
  c_userd_kva : Z;
  c_gpfifo_kva : Z;
  c_gpfifo_entries : Z;
  c_nv : Z;
  c_last_pb_bytes_idx : Z;
  c_last_pb_bytes_va : Z
}.

Definition cache_zero : cache_entry := CacheEntry CFree 0 0 NULL NULL 0 NULL 0 0.

Record dbell_ctx : Type := DbellCtx {
  x_tag : Z;
  x_slot_idx : Z;
  x_bp_events : list Z;         (* the first bp_event_count elements *)
  x_nv : Z;
  x_shadow_page : Z;
  x_shadow_kva : Z;
  x_user_va : Z;
  x_doorbell_iomap : Z;
  x_owner : Z;
  x_bp_count : Z
}.

(** [nv_dbell_slot_t] *)
Record dbell_slot : Type := DbellSlot { sl_claimed : bool; sl_ctx : Z }.

(** [nv_dbell_resolve_work_t]: the cache entry, by index, and the stack. *)
Record resolve_work : Type := ResolveWork { w_entry : nat; w_sp : Z }.

(** The file's globals, the work queue and the heap objects they point to. *)
Record dstate : Type := DState {
  d_bar1 : list bar1_entry;
  d_sysmem : list sysmem_entry;
  d_slots : list dbell_slot;
  d_cache : list cache_entry;
  d_seq : Z;
  d_ctxs : gmap Z dbell_ctx;
  d_works : gmap Z resolve_work;
  d_q : kq;
  d_priv : gmap Z Z             (* vm_private_data of each VMA, null if absent *)
}.

Definition dstate0 : dstate :=
  DState g_bar1_tracked0 g_sysmem_tracked0
    (replicate NV_DBELL_SLOTS (DbellSlot false NULL))
    (replicate NV_DBELL_CACHE_SIZE cache_zero) 0 ∅ ∅ (nv_kthread_q_init true) ∅.

Definition set_bar1 x s :=
  DState x (d_sysmem s) (d_slots s) (d_cache s) (d_seq s) (d_ctxs s) (d_works s) (d_q s) (d_priv s).
Definition set_sysmem x s :=
  DState (d_bar1 s) x (d_slots s) (d_cache s) (d_seq s) (d_ctxs s) (d_works s) (d_q s) (d_priv s).
Definition set_slots x s :=
  DState (d_bar1 s) (d_sysmem s) x (d_cache s) (d_seq s) (d_ctxs s) (d_works s) (d_q s) (d_priv s).
Definition set_cache x s :=
  DState (d_bar1 s) (d_sysmem s) (d_slots s) x (d_seq s) (d_ctxs s) (d_works s) (d_q s) (d_priv s).
Definition set_seq x s :=
  DState (d_bar1 s) (d_sysmem s) (d_slots s) (d_cache s) x (d_ctxs s) (d_works s) (d_q s) (d_priv s).
Definition set_ctxs x s :=
  DState (d_bar1 s) (d_sysmem s) (d_slots s) (d_cache s) (d_seq s) x (d_works s) (d_q s) (d_priv s).
Definition set_works x s :=
  DState (d_bar1 s) (d_sysmem s) (d_slots s) (d_cache s) (d_seq s) (d_ctxs s) x (d_q s) (d_priv s).
Definition set_q x s :=
  DState (d_bar1 s) (d_sysmem s) (d_slots s) (d_cache s) (d_seq s) (d_ctxs s) (d_works s) x (d_priv s).
Definition set_priv x s :=
  DState (d_bar1 s) (d_sysmem s) (d_slots s) (d_cache s) (d_seq s) (d_ctxs s) (d_works s) (d_q s) x.

(** A status and the seven outputs of rm_gpu_ops_dbell_resolve_channel. *)
Record resolve_out : Type := ResolveOut {
  ro_status : Z;
  ro_userd_kva : Z;
  ro_userd_phys : Z;
  ro_userd_size : Z;
  ro_addrspace : Z;
  ro_gpfifo_gpu_va : Z;
  ro_gpfifo_entries : Z
}.
Definition ADDR_SYSMEM : Z := 1.
Definition ADDR_FBMEM : Z := 2.

(** ** Lookup and reservation *)
Definition cache_key_is (chid runlist : Z) (e : cache_entry) : Prop :=
  c_state e ≠ CFree ∧ c_chid e = chid ∧ c_runlist e = runlist.

#[global] Instance cache_key_is_dec chid runlist e : Decision (cache_key_is chid runlist e).
Proof. unfold cache_key_is. apply _. Defined.

Definition nv_dbell_cache_find (chid runlist : Z) (cache : list cache_entry)
    : option (nat * cache_entry) :=
  list_find (cache_key_is chid runlist) cache.

Definition cache_reserved (chid runlist nv : Z) : cache_entry :=
  CacheEntry CPending chid runlist NULL NULL 0 nv 0xFFFFFFFF 0.

Definition nv_dbell_cache_reserve (chid runlist nv : Z) (cache : list cache_entry)
    : option nat * list cache_entry :=
  match list_find (λ e, c_state e = CFree) cache with
  | Some (i, _) => (Some i, <[i := cache_reserved chid runlist nv]> cache)
  | None => (None, cache)
  end.

Definition set_entry_state (st : cache_state) (e : cache_entry) : cache_entry :=
  CacheEntry st (c_chid e) (c_runlist e) (c_userd_kva e) (c_gpfifo_kva e)
    (c_gpfifo_entries e) (c_nv e) (c_last_pb_bytes_idx e) (c_last_pb_bytes_va e).

(** [atomic_set(&e->state, st)] on entry [i]. *)
Definition cache_set_state (i : nat) (st : cache_state) : prog keff dstate unit :=
  modify (λ s, set_cache (alter (set_entry_state st) i (d_cache s)) s).

(** ** Invalidation *)
Definition in_range (lo hi p : Z) : bool := negb (p =? NULL) && (lo <=? p) && (p <? hi).

Definition cache_points_into (lo hi : Z) (e : cache_entry) : bool :=
  bool_decide (c_state e = CResolved) &&
  (in_range lo hi (c_userd_kva e) || in_range lo hi (c_gpfifo_kva e)).

Definition cache_invalidated (e : cache_entry) : cache_entry :=
  CacheEntry CFree (c_chid e) (c_runlist e) NULL NULL 0 (c_nv e) 0xFFFFFFFF 0.

Definition invalidate_entry (lo hi : Z) (e : cache_entry) : cache_entry :=
  if cache_points_into lo hi e then cache_invalidated e else e.

Definition nv_dbell_cache_invalidate_range (mask kva_base size : Z) : prog keff dstate unit :=
  if (kva_base =? NULL) || (size =? 0) then skip
  else
    let lo := kva_base in
    let hi := lo + size in
    cache ← gets d_cache;
    modify (set_cache (invalidate_entry lo hi <$> cache));;
    for_each (λ e, MC_TRACE mask dbell "cache"
      [("state", FStr "invalidate"); ("chid", FDec (c_chid e)); ("runlist", FDec (c_runlist e));
       ("reason", FStr "bar1_iounmap")]) (filter (cache_points_into lo hi) cache).

Definition nv_dbell_bar1_track_remove (mask vma : Z) : prog keff dstate unit :=
  bar1 ← gets d_bar1;
  let '(hit, bar1') := bar1_take vma bar1 in
  modify (set_bar1 bar1');;
  match hit with
  | Some (i, kva_to_unmap, iomap_size) =>
      if kva_to_unmap =? NULL then skip
      else
        nv_dbell_cache_invalidate_range mask kva_to_unmap iomap_size;;
        tell [KRel (RIomap kva_to_unmap)];;
        MC_TRACE mask dbell "bar1_track"
          [("state", FStr "remove"); ("slot", FDec (Z.of_nat i)); ("kva", FHex kva_to_unmap)]
  | None => skip
  end.

(** ** The resolver *)
Section resolver.
Context (mask : Z).

(** What the allocators answer: kmalloc(GFP_ATOMIC), rm_is_altstack_in_use and
    the stack cache. *)
Record enq_env : Type := EnqEnv { ee_kmalloc : Z; ee_altstack : bool; ee_stack : Z }.

(** The return code and [*stack]. *)
Definition nv_kmem_cache_alloc_stack_atomic (env : enq_env) : Z * Z :=
  if ee_altstack env then
    if ee_stack env =? NULL then (- ENOMEM, NULL) else (0, ee_stack env)
  else (0, NULL).

Definition nv_kmem_cache_free_stack (altstack : bool) (sp : Z) : prog keff dstate unit :=
  if negb (sp =? NULL) && altstack then tell [KRel (RStack sp)] else skip.

(** The [fail:] label of nv_dbell_try_enqueue_resolve. *)
Definition enqueue_fail (altstack : bool) (e : nat) (sp work : Z) : prog keff dstate unit :=
  (if sp =? NULL then skip else nv_kmem_cache_free_stack altstack sp);;
  kfree work;;
  cache_set_state e CFree.

Definition nv_dbell_try_enqueue_resolve (env : enq_env) (e : nat) : prog keff dstate unit :=
  let work := ee_kmalloc env in
  if work =? NULL then enqueue_fail (ee_altstack env) e NULL work
  else
    tell [KAcq (RMem work)];;
    let '(rc, sp) := nv_kmem_cache_alloc_stack_atomic env in
    if negb (rc =? 0) then enqueue_fail (ee_altstack env) e sp work
    else
      tell (if sp =? NULL then [] else [KAcq (RStack sp)]);;
      modify (λ s, set_works (<[work := ResolveWork e sp]> (d_works s)) s);;
      q ← gets d_q;
      let '(rc, q') := nv_kthread_q_schedule_q_item work q in
      modify (set_q q');;
      if rc =? 0 then
        nv_kmem_cache_free_stack (ee_altstack env) sp;;
        kfree work;;
        modify (λ s, set_works (delete work (d_works s)) s);;
        enqueue_fail (ee_altstack env) e sp work
      else tell [KSchedule work].

(** The pointers the resolver obtains from RM's answer and the BAR1 table. *)
Definition resolve_userd (phys_to_virt : Z → Z) (bar1 : list bar1_entry) (ro : resolve_out) : Z :=
  let kva := ro_userd_kva ro in
  let kva := if (ro_status ro =? NV_OK) && (kva =? NULL) && (ro_addrspace ro =? ADDR_FBMEM)
                && (0 <? ro_userd_size ro)
             then nv_dbell_bar1_offset_kva bar1 (ro_userd_phys ro) (ro_userd_size ro)
             else kva in
  if (ro_status ro =? NV_OK) && (kva =? NULL) && (ro_addrspace ro =? ADDR_SYSMEM)
     && negb (ro_userd_phys ro =? 0)
  then phys_to_virt (ro_userd_phys ro)
  else kva.

Definition resolve_gpfifo (bar1 : list bar1_entry) (ro : resolve_out) : Z :=
  if (ro_status ro =? NV_OK) && negb (ro_gpfifo_gpu_va ro =? 0) && (0 <? ro_gpfifo_entries ro)
  then nv_dbell_bar1_gpu_va_to_kva bar1 (ro_gpfifo_gpu_va ro) (u64 (ro_gpfifo_entries ro * 8))
  else NULL.

(** Storing the outcome in the cache entry. *)
Definition resolve_publish (i : nat) (ro : resolve_out) (userd_kva gpfifo_kva : Z)
    : prog keff dstate unit :=
  cache ← gets d_cache;
  match cache !! i with
  | None => skip
  | Some e =>
    if negb (userd_kva =? NULL) then
      modify (set_cache (<[i := CacheEntry CResolved (c_chid e) (c_runlist e) userd_kva gpfifo_kva
                                  (ro_gpfifo_entries ro) (c_nv e)
                                  (c_last_pb_bytes_idx e) (c_last_pb_bytes_va e)]> cache));;
      MC_TRACE mask dbell "cache"
        [("state", FStr "resolved"); ("chid", FDec (c_chid e)); ("runlist", FDec (c_runlist e));
         ("userd_kva", FHex userd_kva); ("gpfifo_kva", FHex gpfifo_kva);
         ("entries", FDec (ro_gpfifo_entries ro))]
    else if ro_status ro =? NV_OK then
      cache_set_state i CFree;;
      MC_TRACE mask dbell "cache"
        [("state", FStr "retry"); ("chid", FDec (c_chid e)); ("runlist", FDec (c_runlist e));
         ("phys", FHex (ro_userd_phys ro)); ("addrspace", FDec (ro_addrspace ro))]
    else
      cache_set_state i CFailed;;
      MC_TRACE mask dbell "cache"
        [("state", FStr "failed"); ("chid", FDec (c_chid e)); ("runlist", FDec (c_runlist e));
         ("status", FHex (ro_status ro)); ("phys", FHex (ro_userd_phys ro));
         ("addrspace", FDec (ro_addrspace ro))]
  end.

(** [rm_resolve nv chid runlist] is rm_gpu_ops_dbell_resolve_channel. *)
Definition nv_dbell_resolve_fn (altstack : bool) (rm_resolve : Z → Z → Z → resolve_out)
    (phys_to_virt : Z → Z) (work : Z) : prog keff dstate unit :=
  s ← get;
  match d_works s !! work with
  | None => tell [KFault work]
  | Some w =>
    match d_cache s !! w_entry w with
    | None => skip
    | Some e =>
      let ro := rm_resolve (c_nv e) (c_chid e) (c_runlist e) in
      let userd_kva := resolve_userd phys_to_virt (d_bar1 s) ro in
      let gpfifo_kva := resolve_gpfifo (d_bar1 s) ro in
      when ((ro_status ro =? NV_OK) && negb (ro_gpfifo_gpu_va ro =? 0)
            && (0 <? ro_gpfifo_entries ro) && (gpfifo_kva =? NULL))
        (MC_TRACE mask dbell "gpfifo_lookup"
           [("result", FStr "miss"); ("chid", FDec (c_chid e));
            ("gpu_va", FHex (ro_gpfifo_gpu_va ro)); ("entries", FDec (ro_gpfifo_entries ro))]);;
      resolve_publish (w_entry w) ro userd_kva gpfifo_kva;;
      nv_kmem_cache_free_stack altstack (w_sp w);;
      kfree work;;
      modify (λ s, set_works (delete work (d_works s)) s)
    end
  end.

Definition nv_dbell_cache_pre_resolve (env : enq_env) (chid runlist nv : Z)
    : prog keff dstate unit :=
  if nv =? NULL then skip
  else
    cache ← gets d_cache;
    match nv_dbell_cache_find chid runlist cache with
    | Some _ => skip
    | None =>
      match nv_dbell_cache_reserve chid runlist nv cache with
      | (None, _) => skip
      | (Some e, cache') =>
          modify (set_cache cache');;
          MC_TRACE mask dbell "cache"
            [("state", FStr "pre_reserve"); ("chid", FDec chid); ("runlist", FDec runlist)];;
          nv_dbell_try_enqueue_resolve env e
      end
    end.
End resolver.

(** * Theorems *)

(** ** Running the small programs *)
Lemma kfree_run {S} p (s : S) : kfree p s = (tt, s, run_eff (kfree p) s).
Proof. unfold kfree, run_eff. by destruct (_ =? _). Qed.

Lemma free_stack_run b sp s :
  nv_kmem_cache_free_stack b sp s = (tt, s, run_eff (nv_kmem_cache_free_stack b sp) s).
Proof. unfold nv_kmem_cache_free_stack, run_eff. by destruct (_ && _). Qed.

Lemma trace_all_st {S A} mask c ev (f : A → list (string * fval)) l (s : S) :
  run_st (for_each (λ x, MC_TRACE mask c ev (f x)) l) s = s.
Proof.
  induction l as [|x l IH]; [done|]. cbn [for_each]. rewrite run_st_bind, mc_trace_st. done.
Qed.

Lemma trace_all_neutral {S A} mask c ev (f : A → list (string * fval)) (l : list A) :
  emits res_neutral (for_each (S:=S) (λ x, MC_TRACE mask c ev (f x)) l).
Proof. apply emits_for_each. intros x. apply mc_trace_res_neutral. Qed.
#[export] Hint Resolve trace_all_neutral : eff.

Lemma invalidate_st mask base size s :
  run_st (nv_dbell_cache_invalidate_range mask base size) s =
  set_cache (if (base =? NULL) || (size =? 0) then d_cache s
             else invalidate_entry base (base + size) <$> d_cache s) s.
Proof.
  unfold nv_dbell_cache_invalidate_range. destruct (_ || _); [by destruct s|].
  rewrite !run_st_bind. rewrite trace_all_st. done.
Qed.

Lemma invalidate_neutral mask base size :
  emits res_neutral (nv_dbell_cache_invalidate_range mask base size).
Proof. unfold nv_dbell_cache_invalidate_range. emits_solve. Qed.
#[export] Hint Resolve invalidate_neutral : eff.

(** The state after nv_dbell_bar1_track_remove. *)
Lemma bar1_track_remove_st mask vma s :
  run_st (nv_dbell_bar1_track_remove mask vma) s =
  match bar1_take vma (d_bar1 s) with
  | (Some (_, kva, size), bar1') =>
      set_cache (if (kva =? NULL) || (size =? 0) then d_cache s
                 else invalidate_entry kva (kva + size) <$> d_cache s) (set_bar1 bar1' s)
  | (None, bar1') => set_bar1 bar1' s
  end.
Proof.
  unfold nv_dbell_bar1_track_remove. rewrite run_st_bind. cbn.
  destruct (bar1_take vma (d_bar1 s)) as [[[[i kva] size]|] bar1'] eqn:Ht; rewrite run_st_bind; cbn.
  - destruct (kva =? NULL) eqn:Hk; [by destruct s|].
    rewrite !run_st_bind, invalidate_st, mc_trace_st. cbn. rewrite Hk. done.
  - done.
Qed.

(** Its actions: the mapping found, if any, is unmapped once. *)
Lemma bar1_track_remove_res mask vma s held :
  run_res held (run_eff (nv_dbell_bar1_track_remove mask vma) s) =
  match (bar1_take vma (d_bar1 s)).1 with
  | Some (_, kva, _) => if kva =? NULL then Some held else release (RIomap kva) held
  | None => Some held
  end.
Proof.
  unfold nv_dbell_bar1_track_remove. rewrite run_eff_bind. cbn.
  destruct (bar1_take vma (d_bar1 s)) as [[[[i kva] size]|] bar1'] eqn:Ht; rewrite run_eff_bind; cbn;
    [|done].
  destruct (kva =? NULL) eqn:Hk; [done|].
  rewrite !run_eff_bind, run_res_app, run_res_neutral by apply invalidate_neutral.
  cbn. destruct (release (RIomap kva) held) as [h|]; [|done]. by rewrite run_res_trace_nil.
Qed.

(** ** The state machine of a cache entry

    FREE -> PENDING by reservation, PENDING -> RESOLVED, FREE or FAILED by the
    resolver or a failed enqueue, RESOLVED -> FREE by invalidation.  FAILED is
    final. *)
Inductive cache_tr : cache_state → cache_state → Prop :=
| tr_refl st : cache_tr st st
| tr_reserve : cache_tr CFree CPending
| tr_resolved : cache_tr CPending CResolved
| tr_retry : cache_tr CPending CFree
| tr_failed : cache_tr CPending CFailed
| tr_invalidate : cache_tr CResolved CFree.

(** Entry-wise relation between two caches of the same length. *)
Definition cache_evolves (c c' : list cache_entry) : Prop :=
  Forall2 (λ e e', cache_tr (c_state e) (c_state e')) c c'.

Lemma cache_evolves_refl c : cache_evolves c c.
Proof. apply Forall_Forall2_diag. apply Forall_true. intros. constructor. Qed.

Lemma cache_evolves_insert c i e e' :
  c !! i = Some e → cache_tr (c_state e) (c_state e') → cache_evolves c (<[i := e']> c).
Proof.
  intros Hi Ht. rewrite <-(list_insert_id c i e) at 1 by done.
  apply Forall2_insert; [apply cache_evolves_refl|done].
Qed.

Lemma reserve_evolves chid runlist nv c :
  cache_evolves c (nv_dbell_cache_reserve chid runlist nv c).2.
Proof.
  unfold nv_dbell_cache_reserve. destruct (list_find _ c) as [[i e]|] eqn:Hf;
    [|apply cache_evolves_refl].
  apply scan_lookup in Hf as [Hi He]. eapply cache_evolves_insert; [done|]. rewrite He. constructor.
Qed.

Lemma invalidate_evolves lo hi c : cache_evolves c (invalidate_entry lo hi <$> c).
Proof.
  unfold cache_evolves. rewrite Forall2_fmap_r. apply Forall_Forall2_diag, Forall_true.
  intros e. unfold compose, invalidate_entry, cache_points_into. simpl.
  case_bool_decide as He; [|constructor].
  destruct (_ && _); simpl; rewrite ?He; constructor.
Qed.

Lemma set_state_evolves c i e st :
  c !! i = Some e → c_state e = CPending → st = CFree ∨ st = CFailed →
  cache_evolves c (alter (set_entry_state st) i c).
Proof.
  intros Hi He Hst. erewrite list_alter_insert by done.
  eapply cache_evolves_insert; [done|]. rewrite He. simpl. destruct Hst as [->| ->]; constructor.
Qed.

(** The entry the resolver writes back. *)
Definition publish_entry (ro : resolve_out) (u g : Z) (e : cache_entry) : cache_entry :=
  if negb (u =? NULL) then
    CacheEntry CResolved (c_chid e) (c_runlist e) u g (ro_gpfifo_entries ro) (c_nv e)
      (c_last_pb_bytes_idx e) (c_last_pb_bytes_va e)
  else if ro_status ro =? NV_OK then set_entry_state CFree e
  else set_entry_state CFailed e.

Lemma publish_st mask i ro u g s e :
  d_cache s !! i = Some e →
  run_st (resolve_publish mask i ro u g) s =
  set_cache (<[i := publish_entry ro u g e]> (d_cache s)) s.
Proof.
  intros Hi. unfold resolve_publish, publish_entry. rewrite run_st_bind. cbn. rewrite Hi.
  destruct (negb (u =? NULL)); [by rewrite run_st_bind, mc_trace_st|].
  destruct (_ =? NV_OK); rewrite run_st_bind, mc_trace_st; cbn;
    by erewrite list_alter_insert by done.
Qed.

Lemma publish_neutral mask i ro u g : emits res_neutral (resolve_publish mask i ro u g).
Proof. unfold resolve_publish, cache_set_state. emits_solve. Qed.
#[export] Hint Resolve publish_neutral : eff.

Lemma publish_entry_tr ro u g e :
  c_state e = CPending → cache_tr (c_state e) (c_state (publish_entry ro u g e)).
Proof. intros ->. unfold publish_entry. repeat case_match; constructor. Qed.

(** What a run of the resolver does to the state. *)
Lemma resolve_fn_st mask alt rm p2v work s w e :
  d_works s !! work = Some w → d_cache s !! w_entry w = Some e →
  let ro := rm (c_nv e) (c_chid e) (c_runlist e) in
  run_st (nv_dbell_resolve_fn mask alt rm p2v work) s =
  set_works (delete work (d_works s))
    (set_cache (<[w_entry w := publish_entry ro (resolve_userd p2v (d_bar1 s) ro)
                                 (resolve_gpfifo (d_bar1 s) ro) e]> (d_cache s)) s).
Proof.
  intros Hw He ro. unfold nv_dbell_resolve_fn. rewrite run_st_bind. cbn. rewrite Hw, He. fold ro.
  rewrite !run_st_bind. unfold run_st at 2 3 4. rewrite kfree_run, free_stack_run. cbn.
  replace (run_st (when _ _) s) with s by (destruct (_ && _); cbn; rewrite ?mc_trace_st; done).
  fold (run_st (resolve_publish mask (w_entry w) ro (resolve_userd p2v (d_bar1 s) ro)
                  (resolve_gpfifo (d_bar1 s) ro)) s).
  by erewrite publish_st by done.
Qed.

(** Its resources: the stack, if one is in use, and the work item are released. *)
Lemma resolve_fn_res mask alt rm p2v work s w e held :
  d_works s !! work = Some w → d_cache s !! w_entry w = Some e → work ≠ NULL →
  run_res ((if negb (w_sp w =? NULL) && alt then [RStack (w_sp w)] else []) ++ RMem work :: held)
    (run_eff (nv_dbell_resolve_fn mask alt rm p2v work) s) = Some held.
Proof.
  intros Hw He Hnz. unfold nv_dbell_resolve_fn. rewrite run_eff_bind. cbn. rewrite Hw, He.
  rewrite run_res_bind_neutral by (apply emits_when; eauto with eff).
  rewrite run_res_bind_neutral by eauto with eff. rewrite !run_eff_bind.
  unfold nv_kmem_cache_free_stack, kfree. rewrite (proj2 (Z.eqb_neq work NULL)) by done.
  destruct (_ && alt); cbn; res_simp.
Qed.
(** ** Validity of cached pointers

    A kernel range is mapped when a live BAR1 entry covers it. *)
Definition bar1_size (e : bar1_entry) : Z := u64 (b_phys_end e - b_phys_start e).

Definition mapped (bar1 : list bar1_entry) (a n : Z) : Prop :=
  ∃ e, e ∈ bar1 ∧ b_vma e ≠ NULL ∧ b_kernel_va e ≤ a ∧ a + n ≤ b_kernel_va e + bar1_size e.

(** Entries the callers create: the user range and the physical range have the
    same size, nothing wraps, and the kernel address is not null. *)
Definition bar1_entry_ok (e : bar1_entry) : Prop :=
  b_vma e ≠ NULL →
  0 < b_kernel_va e ∧ 0 ≤ b_user_va_start e ∧
  0 ≤ b_phys_end e - b_phys_start e < 2 ^ 64 ∧
  b_user_va_end e - b_user_va_start e = b_phys_end e - b_phys_start e.

(** Bytes of a USERD up to and including GPPut. *)
Definition USERD_BYTES : Z := 0x90.

Section safety.
(** [valid]: the kernel addresses RM itself keeps mapped and those of the
    direct map, neither of which a BAR1 teardown takes away. *)
Context (valid : Z → Prop).

(** What the trap handler relies on when it finds an entry RESOLVED: a USERD
    pointer it may read GPPut from and a ring it may index. *)
Definition entry_safe (bar1 : list bar1_entry) (e : cache_entry) : Prop :=
  c_state e = CResolved →
  (c_userd_kva e ≠ NULL → valid (c_userd_kva e) ∨ mapped bar1 (c_userd_kva e) USERD_BYTES) ∧
  (c_gpfifo_kva e ≠ NULL → 0 < c_gpfifo_entries e →
     mapped bar1 (c_gpfifo_kva e) (c_gpfifo_entries e * 8)).

Definition dstate_ok (s : dstate) : Prop :=
  Forall bar1_entry_ok (d_bar1 s) ∧ Forall (entry_safe (d_bar1 s)) (d_cache s).

(** RM's answer: a ring and a USERD that do not wrap, a USERD large enough to
    hold GPPut, and a kernel address, if any, that RM keeps mapped. *)
Definition ro_ok (ro : resolve_out) : Prop :=
  (0 ≤ ro_gpfifo_gpu_va ro ∧ 0 ≤ ro_gpfifo_entries ro ∧
   ro_gpfifo_gpu_va ro + ro_gpfifo_entries ro * 8 < 2 ^ 64) ∧
  (0 ≤ ro_userd_phys ro ∧ ro_userd_phys ro + ro_userd_size ro < 2 ^ 64) ∧
  (ro_addrspace ro = ADDR_FBMEM → USERD_BYTES ≤ ro_userd_size ro) ∧
  (ro_userd_kva ro ≠ NULL → valid (ro_userd_kva ro)).

Lemma resolve_gpfifo_mapped bar1 ro :
  Forall bar1_entry_ok bar1 → ro_ok ro → resolve_gpfifo bar1 ro ≠ NULL →
  mapped bar1 (resolve_gpfifo bar1 ro) (ro_gpfifo_entries ro * 8).
Proof.
  intros Hok ((Hva & Hn & Hw) & _). unfold resolve_gpfifo.
  destruct (_ && _ && _) eqn:Hc; [|done].
  rewrite u64_small by (unfold is_u64; lia). intros Hnz. rewrite Forall_forall in Hok.
  destruct (vt_sound bar1 (ro_gpfifo_gpu_va ro) (ro_gpfifo_entries ro * 8)) as (m & Hm & Hcov & Heq);
    [lia|lia|lia| |done|].
  { apply Forall_forall. intros [[lo hi] base] Hin.
    apply va_maps_elem in Hin as (e & He & Hl & [= -> -> ->]).
    unfold va_live in Hl. rewrite Is_true_true in Hl.
    destruct (Hok e He) as (_ & ? & _); [lia|done]. }
  simpl in Heq. rewrite Heq.
  apply va_maps_elem in Hm as (e & He & Hl & ->). simpl in *.
  unfold va_live in Hl. rewrite Is_true_true in Hl.
  destruct (Hok e He) as (? & ? & ? & Hsz); [lia|].
  exists e. unfold bar1_size. rewrite u64_small by (unfold is_u64; lia). split_and!; [done|lia..].
Qed.

Lemma bar1_offset_mapped bar1 off size :
  0 ≤ off → 0 ≤ size → off + size < 2 ^ 64 → nv_dbell_bar1_offset_kva bar1 off size ≠ NULL →
  mapped bar1 (nv_dbell_bar1_offset_kva bar1 off size) size.
Proof.
  intros Ho Hs Hw. unfold nv_dbell_bar1_offset_kva.
  pose proof (bar1_offset_fold off size bar1 0 NULL ltac:(lia)) as H.
  destruct (foldl _ _ bar1) as [best res]. destruct H as (_ & _ & [[= -> ->]|H]); [done|].
  destruct H as (e & He & (Hv & Hk & Hfit) & _ & ->). simpl. intros _.
  rewrite u64_small in Hfit by (unfold is_u64; lia).
  exists e. unfold bar1_size. split_and!; [done|done|lia|lia].
Qed.

Lemma mapped_shorter bar1 a n m : m ≤ n → mapped bar1 a n → mapped bar1 a m.
Proof. intros Hm (e & ? & ? & ? & ?). exists e. split_and!; [done..|lia]. Qed.

Lemma resolve_userd_safe p2v bar1 ro :
  (∀ p, valid (p2v p)) → ro_ok ro → resolve_userd p2v bar1 ro ≠ NULL →
  valid (resolve_userd p2v bar1 ro) ∨ mapped bar1 (resolve_userd p2v bar1 ro) USERD_BYTES.
Proof.
  intros Hp (_ & (Ho & Hw) & Hsz & Hv). unfold resolve_userd.
  destruct (_ && _ && (ro_addrspace ro =? ADDR_FBMEM) && _) eqn:Hc.
  - rewrite !andb_true_iff in Hc. destruct (_ && _ && _ && _) eqn:Hc'; [auto|].
    intros Hnz. right. eapply mapped_shorter; [|apply bar1_offset_mapped; [lia..|done]].
    apply Hsz. lia.
  - destruct (_ && _ && (ro_addrspace ro =? ADDR_SYSMEM) && _); auto.
Qed.

Lemma publish_safe p2v bar1 ro e :
  (∀ p, valid (p2v p)) → Forall bar1_entry_ok bar1 → ro_ok ro →
  entry_safe bar1 (publish_entry ro (resolve_userd p2v bar1 ro) (resolve_gpfifo bar1 ro) e).
Proof.
  intros Hp Hb Hro. unfold publish_entry. destruct (negb _) eqn:Hu.
  - intros _. simpl. split; [by apply resolve_userd_safe|]. intros ? _. by apply resolve_gpfifo_mapped.
  - destruct (_ =? NV_OK); done.
Qed.

(** An entry stays safe when every range mapped before still is. *)
Lemma entry_safe_mono bar1 bar1' e :
  (∀ a n, 0 < n → a ≠ NULL → (a = c_userd_kva e ∨ a = c_gpfifo_kva e) →
     mapped bar1 a n → mapped bar1' a n) →
  entry_safe bar1 e → entry_safe bar1' e.
Proof.
  intros Hm He Hs. destruct (He Hs) as [Hu Hg]. split.
  - intros Hnz. destruct (Hu Hnz); [by left|right; apply Hm; auto; unfold USERD_BYTES; lia].
  - intros Hnz Hn. apply Hm; auto; lia.
Qed.

Lemma mapped_insert bar1 i e e' a n :
  bar1 !! i = Some e → b_vma e = NULL → mapped bar1 a n → mapped (<[i := e']> bar1) a n.
Proof.
  intros Hi He (x & [j Hj]%list_elem_of_lookup & Hx & ?).
  exists x. split_and!; [|tauto..]. apply list_elem_of_lookup. exists j.
  rewrite list_lookup_insert_ne; [done|]. intros ->. simplify_eq.
Qed.

(** Clearing slot [i] keeps every mapping that lies outside its range. *)
Lemma mapped_clear bar1 i e a n :
  bar1 !! i = Some e → 0 < n → ¬ (b_kernel_va e ≤ a < b_kernel_va e + bar1_size e) →
  mapped bar1 a n → mapped (<[i := bar1_free]> bar1) a n.
Proof.
  intros Hi Hn Hout (x & [j Hj]%list_elem_of_lookup & Hv & Hlo & Hhi). exists x.
  split_and!; [|done..]. apply list_elem_of_lookup. exists j.
  rewrite list_lookup_insert_ne; [done|]. intros ->. simplify_eq. apply Hout. lia.
Qed.

Lemma invalidate_safe bar1 i b lo hi e :
  bar1 !! i = Some b → lo = b_kernel_va b → hi = lo + bar1_size b →
  entry_safe bar1 e → entry_safe (<[i := bar1_free]> bar1) (invalidate_entry lo hi e).
Proof.
  intros Hi -> -> He. unfold invalidate_entry.
  destruct (cache_points_into _ _ e) eqn:Hp; [done|]. intros Hs.
  apply (entry_safe_mono bar1); [|done|done]. intros a n Hn Hnz Ha.
  apply (mapped_clear bar1 i b); [done..|].
  unfold cache_points_into, in_range, NULL in *. rewrite bool_decide_eq_true_2 in Hp by done.
  simpl in Hp. destruct Ha as [->| ->]; lia.
Qed.

(** *** Every operation keeps the state safe *)
Lemma dstate_ok0 : dstate_ok dstate0.
Proof. split; apply Forall_replicate; done. Qed.

Lemma dstate_ok_cache s s' :
  dstate_ok s → d_bar1 s' = d_bar1 s → Forall (entry_safe (d_bar1 s)) (d_cache s') →
  dstate_ok s'.
Proof. intros [? ?] Hb Hc. split; by rewrite Hb. Qed.

Lemma set_state_safe bar1 st i c :
  st ≠ CResolved → Forall (entry_safe bar1) c →
  Forall (entry_safe bar1) (alter (set_entry_state st) i c).
Proof. intros Hst Hc. apply Forall_alter; [done|]. by intros x ? _ ?. Qed.

Lemma reserve_safe bar1 chid runlist nv c :
  Forall (entry_safe bar1) c →
  Forall (entry_safe bar1) (nv_dbell_cache_reserve chid runlist nv c).2.
Proof.
  intros Hc. unfold nv_dbell_cache_reserve. destruct (list_find _ c) as [[i e]|]; [|done].
  by apply Forall_insert.
Qed.

Lemma track_add_ok mask iowc io vma ps sz s :
  dstate_ok s → vma_ptr vma ≠ NULL → 0 ≤ vm_start vma → 0 ≤ ps → ps + sz < 2 ^ 64 → 0 ≤ sz →
  vm_end vma - vm_start vma = sz → (∀ p n, 0 ≤ iowc p n) → (∀ p n, 0 ≤ io p n) →
  dstate_ok (run_st (zoom d_bar1 set_bar1 (nv_dbell_bar1_track_add mask iowc io vma ps sz)) s).
Proof.
  intros [Hb Hc] Hv Hvs Hps Hw Hsz Hlen Hio1 Hio2. unfold run_st, zoom.
  pose proof (bar1_track_add_outcome mask iowc io vma ps sz (d_bar1 s) []) as Ho. cbv zeta in Ho.
  destruct (nv_dbell_bar1_track_add mask iowc io vma ps sz (d_bar1 s)) as [[v tbl] es].
  destruct Ho as [(i & tbl' & [= -> ->] & Hk & Hins & _)|(_ & Heq & _)].
  - apply bar1_insert_Some in Hins as (e & Hi & He & _ & ->).
    assert (0 < bar1_kva iowc io ps sz).
    { unfold bar1_kva, NULL in *. specialize (Hio1 ps sz). specialize (Hio2 ps sz).
      destruct (_ =? 0) eqn:?; lia. }
    split; simpl.
    + apply Forall_insert; [done|]. intros _. unfold bar1_new. simpl.
      rewrite u64_small by (unfold is_u64; lia). lia.
    + eapply Forall_impl; [exact Hc|]. intros x. apply entry_safe_mono.
      intros a n _ _ _. by eapply mapped_insert.
  - simpl in *. subst tbl. by destruct s.
Qed.

Lemma track_remove_ok mask vma s :
  dstate_ok s → vma ≠ NULL → dstate_ok (run_st (nv_dbell_bar1_track_remove mask vma) s).
Proof.
  intros [Hb Hc] Hv. rewrite bar1_track_remove_st.
  destruct (bar1_take vma (d_bar1 s)) as [[[[i kva] size]|] bar1'] eqn:Ht.
  - apply bar1_take_Some in Ht as (e & Hi & He & -> & -> & ->). split; simpl.
    { by apply Forall_insert. }
    pose proof (proj1 (Forall_lookup _ _) Hb i e Hi ltac:(congruence)) as (Hk & _).
    rewrite (proj2 (Z.eqb_neq (b_kernel_va e) NULL)) by (unfold NULL; lia). simpl.
    destruct (_ =? 0) eqn:Hz.
    + eapply Forall_impl; [exact Hc|]. intros x. apply entry_safe_mono. intros a n Hn _ _.
      apply (mapped_clear _ i e); [done..|]. unfold bar1_size. lia.
    + apply Forall_fmap. eapply Forall_impl; [exact Hc|]. intros x Hx.
      by eapply invalidate_safe.
  - apply bar1_take_None in Ht as [-> _]. by destruct s.
Qed.

Lemma enqueue_st_cases env e s :
  d_bar1 (run_st (nv_dbell_try_enqueue_resolve env e) s) = d_bar1 s ∧
  d_sysmem (run_st (nv_dbell_try_enqueue_resolve env e) s) = d_sysmem s ∧
  d_ctxs (run_st (nv_dbell_try_enqueue_resolve env e) s) = d_ctxs s ∧
  d_slots (run_st (nv_dbell_try_enqueue_resolve env e) s) = d_slots s ∧
  (d_cache (run_st (nv_dbell_try_enqueue_resolve env e) s) = d_cache s ∨
   d_cache (run_st (nv_dbell_try_enqueue_resolve env e) s) =
     alter (set_entry_state CFree) e (d_cache s)).
Proof.
  unfold nv_dbell_try_enqueue_resolve, enqueue_fail, cache_set_state, kfree,
    nv_kmem_cache_free_stack, nv_kmem_cache_alloc_stack_atomic.
  unfold run_st, mbind, prog_bind, tell, modify, skip, gets.
  destruct (nv_kthread_q_schedule_q_item (ee_kmalloc env) (d_q s)) as [rc q'] eqn:Hq.
  destruct (ee_altstack env); repeat (case_match; simplify_eq/=; auto 7).
Qed.

Lemma enqueue_ok env e s :
  dstate_ok s → dstate_ok (run_st (nv_dbell_try_enqueue_resolve env e) s).
Proof.
  intros Hs. destruct (enqueue_st_cases env e s) as (Hb & _ & _ & _ & Hc).
  eapply dstate_ok_cache; [exact Hs|done|]. destruct Hs as [_ Hs].
  destruct Hc as [->| ->]; [done|]. by apply set_state_safe.
Qed.

(** The state pre_resolve hands to the enqueue, when it reserves. *)
Lemma reserve_ok chid runlist nv s :
  dstate_ok s →
  dstate_ok (set_cache (nv_dbell_cache_reserve chid runlist nv (d_cache s)).2 s).
Proof. intros Hs. eapply dstate_ok_cache; [done..|]. apply reserve_safe, Hs. Qed.

Lemma pre_resolve_ok mask env chid runlist nv s :
  dstate_ok s → dstate_ok (run_st (nv_dbell_cache_pre_resolve mask env chid runlist nv) s).
Proof.
  intros Hs. unfold nv_dbell_cache_pre_resolve. destruct (nv =? NULL); [done|].
  autorewrite with run. destruct (nv_dbell_cache_find chid runlist (d_cache s)); [done|].
  pose proof (reserve_ok chid runlist nv s Hs) as Hr.
  destruct (nv_dbell_cache_reserve chid runlist nv (d_cache s)) as [[e|] c']; [|done].
  autorewrite with run. by apply enqueue_ok.
Qed.

Lemma resolve_fn_ok mask alt rm p2v work s :
  dstate_ok s → (∀ p, valid (p2v p)) → (∀ nv chid rl, ro_ok (rm nv chid rl)) →
  dstate_ok (run_st (nv_dbell_resolve_fn mask alt rm p2v work) s).
Proof.
  intros Hs Hp Hrm. destruct (d_works s !! work) as [w|] eqn:Hw.
  2: { unfold nv_dbell_resolve_fn. rewrite run_st_bind. cbn. by rewrite Hw. }
  destruct (d_cache s !! w_entry w) as [e|] eqn:He.
  2: { unfold nv_dbell_resolve_fn. rewrite run_st_bind. cbn. by rewrite Hw, He. }
  erewrite resolve_fn_st by done. eapply dstate_ok_cache; [done..|]. simpl.
  apply Forall_insert; [apply Hs|]. apply publish_safe; [done|apply Hs|done].
Qed.
End safety.

(** ** The three outcomes of an enqueue *)
Definition enq_sp (env : enq_env) : Z := if ee_altstack env then ee_stack env else NULL.

(** Both allocations succeed. *)
Definition enq_allocs (env : enq_env) : Prop :=
  ee_kmalloc env ≠ NULL ∧ (ee_altstack env = true → ee_stack env ≠ NULL).

#[global] Instance enq_allocs_dec env : Decision (enq_allocs env).
Proof. unfold enq_allocs. apply _. Defined.

(** The resources an enqueued work item owns. *)
Definition work_res (alt : bool) (work sp : Z) : list res :=
  (if negb (sp =? NULL) && alt then [RStack sp] else []) ++ [RMem work].

Lemma alloc_stack_ok env : enq_allocs env →
  nv_kmem_cache_alloc_stack_atomic env = (0, enq_sp env).
Proof.
  intros [_ Hs]. unfold nv_kmem_cache_alloc_stack_atomic, enq_sp.
  destruct (ee_altstack env); [|done]. by rewrite (proj2 (Z.eqb_neq _ _) (Hs eq_refl)).
Qed.

Lemma schedule_fresh x q :
  main_loop_should_exit q = false → x ∉ q_list q →
  nv_kthread_q_schedule_q_item x q =
  (1, Kq (q_list q ++ [x]) (q_sem q + 1) (main_loop_should_exit q) (q_kthread q)).
Proof.
  intros He Hx. unfold nv_kthread_q_schedule_q_item, _raw_q_schedule. rewrite He.
  by rewrite decide_False.
Qed.

Lemma enqueue_success env e s held :
  enq_allocs env → main_loop_should_exit (d_q s) = false → ee_kmalloc env ∉ q_list (d_q s) →
  let work := ee_kmalloc env in
  let q := d_q s in
  run_st (nv_dbell_try_enqueue_resolve env e) s =
    set_q (Kq (q_list q ++ [work]) (q_sem q + 1) (main_loop_should_exit q) (q_kthread q))
      (set_works (<[work := ResolveWork e (enq_sp env)]> (d_works s)) s) ∧
  run_res held (run_eff (nv_dbell_try_enqueue_resolve env e) s) =
    Some (work_res (ee_altstack env) work (enq_sp env) ++ held).
Proof.
  intros Ha He Hx work q. unfold nv_dbell_try_enqueue_resolve.
  rewrite (proj2 (Z.eqb_neq _ _) (proj1 Ha)), alloc_stack_ok by done.
  cbn [Z.eqb negb]. autorewrite with run. cbn [d_q set_works].
  rewrite schedule_fresh by done. cbn [Z.eqb]. split; [by autorewrite with run|].
  autorewrite with run. unfold enq_sp, work_res. destruct (ee_altstack env) eqn:Halt.
  - rewrite (proj2 (Z.eqb_neq _ _) (proj2 Ha Halt)). done.
  - rewrite andb_false_r. done.
Qed.

(** An allocation failure leaves nothing behind and frees the entry. *)
Lemma enqueue_nomem env e s held :
  ¬ enq_allocs env →
  run_st (nv_dbell_try_enqueue_resolve env e) s =
    set_cache (alter (set_entry_state CFree) e (d_cache s)) s ∧
  run_res held (run_eff (nv_dbell_try_enqueue_resolve env e) s) = Some held.
Proof.
  intros Ha. unfold nv_dbell_try_enqueue_resolve, enqueue_fail, cache_set_state.
  destruct (ee_kmalloc env =? NULL) eqn:Hk.
  { unfold kfree. rewrite Hk. done. }
  assert (ee_altstack env = true ∧ ee_stack env = NULL) as [Halt Hst].
  { unfold enq_allocs in Ha. apply Z.eqb_neq in Hk.
    destruct (ee_altstack env); [split; [done|]|by destruct Ha].
    destruct (decide (ee_stack env = NULL)); [done|]. by destruct Ha. }
  unfold nv_kmem_cache_alloc_stack_atomic. rewrite Halt, Hst.
  unfold kfree. rewrite Hk. split; autorewrite with run; [done|]. cbn.
  change (negb (- ENOMEM =? 0)) with true. cbv iota. autorewrite with run. cbn.
  by rewrite release_eq.
Qed.

(** The queue refuses the item: [work] is released twice. *)
Lemma enqueue_refused env e s held :
  enq_allocs env → main_loop_should_exit (d_q s) = true →
  ee_altstack env = false → RMem (ee_kmalloc env) ∉ held →
  run_res held (run_eff (nv_dbell_try_enqueue_resolve env e) s) = None.
Proof.
  intros Ha He Halt Hx. unfold nv_dbell_try_enqueue_resolve, nv_kmem_cache_free_stack, enqueue_fail,
    cache_set_state, kfree.
  rewrite (proj2 (Z.eqb_neq _ _) (proj1 Ha)), alloc_stack_ok by done.
  unfold enq_sp. rewrite Halt. cbn [Z.eqb negb]. autorewrite with run. cbn [d_q set_works].
  unfold nv_kthread_q_schedule_q_item. rewrite He. cbn [Z.eqb andb negb NULL].
  autorewrite with run. cbn. rewrite release_eq. cbn.
  assert (∀ (r : res) l, r ∉ l → release r l = None) as Hrel.
  { clear. intros r l. induction l as [|x l IH]; intros Hr; [done|].
    apply not_elem_of_cons in Hr as [? ?]. rewrite release_ne by done. by rewrite IH. }
  by rewrite Hrel.
Qed.

(** * Properties *)

(** Removing a BAR1 mapping clears its slot, returns to FREE every RESOLVED
    cache entry with a pointer into the unmapped kernel range, changes no other
    entry, and unmaps exactly that range once: no entry the trap handler would
    dereference points into it any more. *)
Theorem bar1_remove_invalidates mask vma s i e held
    (Hfind : list_find (λ e, b_vma e = vma) (d_bar1 s) = Some (i, e))
    (Hkva : 0 < b_kernel_va e) (Hsize : 0 < bar1_size e) :
  let lo := b_kernel_va e in
  let hi := b_kernel_va e + bar1_size e in
  let m := nv_dbell_bar1_track_remove mask vma in
  d_bar1 (run_st m s) = <[i := bar1_free]> (d_bar1 s) ∧
  (∀ j c, d_cache (run_st m s) !! j = Some c → c_state c = CResolved →
     d_cache s !! j = Some c ∧
     (c_userd_kva c ≠ NULL → ¬ (lo ≤ c_userd_kva c < hi)) ∧
     (c_gpfifo_kva c ≠ NULL → ¬ (lo ≤ c_gpfifo_kva c < hi))) ∧
  (∀ j c, d_cache s !! j = Some c →
     d_cache (run_st m s) !! j =
       Some (if cache_points_into lo hi c then cache_invalidated c else c)) ∧
  run_res (RIomap lo :: held) (run_eff m s) = Some held.
Proof.
  intros lo hi m. unfold m. rewrite bar1_track_remove_st, bar1_track_remove_res.
  unfold bar1_take. rewrite Hfind. cbn [fst]. fold (bar1_size e).
  rewrite (proj2 (Z.eqb_neq (b_kernel_va e) NULL)), (proj2 (Z.eqb_neq (bar1_size e) 0))
    by (unfold NULL; lia). cbn [orb d_bar1 set_cache set_bar1 d_cache].
  split_and!; [done| | |by rewrite release_eq].
  - intros j c. rewrite list_lookup_fmap. destruct (d_cache s !! j) as [c'|]; [|done].
    intros [= <-] Hst. unfold invalidate_entry in Hst |- *. fold hi in Hst |- *. fold lo in Hst |- *.
    destruct (cache_points_into lo hi c') eqn:Hp; [done|]. split; [done|].
    unfold cache_points_into, in_range, NULL in *.
    rewrite bool_decide_eq_true_2 in Hp by done. simpl in Hp. lia.
  - intros j c Hj. by rewrite list_lookup_fmap, Hj.
Qed.

Definition demo_bar1 : bar1_entry :=
  Bar1Entry 7 0x1fc022000000 0x1fc022200000 0x203c00000 0x203e00000 0xff0000.

Definition demo_resolved : cache_entry :=
  CacheEntry CResolved 5 2 (0xff0000 + 0x1000) (0xff0000 + 0x4000) 1024 9 0xFFFFFFFF 0.

Definition demo_dstate : dstate :=
  set_cache (demo_resolved :: replicate 79 cache_zero)
    (set_bar1 (demo_bar1 :: replicate 15 bar1_free) dstate0).

Lemma bar1_remove_invalidates_witness :
  let s' := run_st (nv_dbell_bar1_track_remove 0x1ff 7) demo_dstate in
  d_cache s' !! 0%nat = Some (cache_invalidated demo_resolved) ∧
  run_res [RIomap 0xff0000] (run_eff (nv_dbell_bar1_track_remove 0x1ff 7) demo_dstate) = Some [].
Proof.
  pose proof (bar1_remove_invalidates 0x1ff 7 demo_dstate 0 demo_bar1 []
                ltac:(vm_compute; reflexivity) ltac:(vm_compute; reflexivity)
                ltac:(vm_compute; reflexivity)) as (_ & _ & H & Hr).
  split; [exact (H 0%nat demo_resolved eq_refl)|exact Hr].
Defined.

(** running the resolver for a queued work item writes exactly one cache
    entry: RESOLVED with RM's or the tracker's USERD and ring addresses when a
    USERD address was found, FREE (to be retried) when RM knew the channel but
    no address could be derived, FAILED when RM refused; the work item is
    removed and its memory and stack are released. *)
Theorem resolver_outcome mask alt rm p2v work s w e held
    (Hw : d_works s !! work = Some w) (He : d_cache s !! w_entry w = Some e)
    (Hnz : work ≠ NULL) :
  let ro := rm (c_nv e) (c_chid e) (c_runlist e) in
  let u := resolve_userd p2v (d_bar1 s) ro in
  let g := resolve_gpfifo (d_bar1 s) ro in
  let m := nv_dbell_resolve_fn mask alt rm p2v work in
  (∃ e', run_st m s = set_works (delete work (d_works s))
                        (set_cache (<[w_entry w := e']> (d_cache s)) s) ∧
     c_chid e' = c_chid e ∧ c_runlist e' = c_runlist e ∧
     (c_state e' = CResolved ∧ u ≠ NULL ∧ c_userd_kva e' = u ∧ c_gpfifo_kva e' = g ∧
        c_gpfifo_entries e' = ro_gpfifo_entries ro ∨
      c_state e' = CFree ∧ u = NULL ∧ ro_status ro = NV_OK ∨
      c_state e' = CFailed ∧ u = NULL ∧ ro_status ro ≠ NV_OK)) ∧
  run_res (work_res alt work (w_sp w) ++ held) (run_eff m s) = Some held.
Proof.
  intros ro u g m. split.
  - exists (publish_entry ro u g e). split; [by apply resolve_fn_st|]. unfold publish_entry.
    destruct (u =? NULL) eqn:Hu; simpl; [apply Z.eqb_eq in Hu|apply Z.eqb_neq in Hu; tauto].
    destruct (ro_status ro =? NV_OK) eqn:Hs; simpl;
      [apply Z.eqb_eq in Hs|apply Z.eqb_neq in Hs]; tauto.
  - unfold work_res. rewrite <-app_assoc. by eapply resolve_fn_res.
Qed.

(** A state with one pending entry and its work item queued. *)
Definition demo_pending : dstate :=
  set_works {[ 0x5000 := ResolveWork 0 NULL ]}
    (set_cache (cache_reserved 5 2 9 :: replicate 79 cache_zero)
      (set_bar1 (demo_bar1 :: replicate 15 bar1_free) dstate0)).

Definition demo_rm (_ _ _ : Z) : resolve_out :=
  ResolveOut NV_OK NULL 0x1000 0x200 ADDR_FBMEM 0x203c04000 1024.

Lemma resolver_outcome_witness :
  let m := nv_dbell_resolve_fn 0x1ff false demo_rm id 0x5000 in
  d_cache (run_st m demo_pending) !! 0%nat = Some demo_resolved ∧
  run_res [RMem 0x5000] (run_eff m demo_pending) = Some [].
Proof.
  destruct (resolver_outcome 0x1ff false demo_rm id 0x5000 demo_pending (ResolveWork 0 NULL)
              (cache_reserved 5 2 9) [] ltac:(vm_compute; reflexivity) eq_refl
              ltac:(vm_compute; done)) as [_ Hr].
  split; [vm_compute; reflexivity|exact Hr].
Defined.

(** while the queue accepts work, an enqueue has two outcomes.  With both
    allocations the work item is appended to the queue, owns its memory and its
    stack, and the entry is left as it was; otherwise nothing is held or queued
    and the entry is FREE again. *)
Theorem enqueue_hands_over_or_rolls_back env e s held
    (Hrun : main_loop_should_exit (d_q s) = false)
    (Hfresh : ee_kmalloc env ∉ q_list (d_q s)) :
  let m := nv_dbell_try_enqueue_resolve env e in
  if decide (enq_allocs env) then
    q_list (d_q (run_st m s)) = q_list (d_q s) ++ [ee_kmalloc env] ∧
    d_works (run_st m s) = <[ee_kmalloc env := ResolveWork e (enq_sp env)]> (d_works s) ∧
    d_cache (run_st m s) = d_cache s ∧
    run_res held (run_eff m s) =
      Some (work_res (ee_altstack env) (ee_kmalloc env) (enq_sp env) ++ held)
  else
    run_st m s = set_cache (alter (set_entry_state CFree) e (d_cache s)) s ∧
    run_res held (run_eff m s) = Some held.
Proof.
  intros m. case_decide as Ha; [|by apply enqueue_nomem].
  destruct (enqueue_success env e s held Ha Hrun Hfresh) as [Hst Hres].
  unfold m. rewrite Hres, Hst. done.
Qed.

Lemma enqueue_hands_over_or_rolls_back_witness :
  let m := nv_dbell_try_enqueue_resolve (EnqEnv 0x6000 true 0x7000) 0 in
  run_res [] (run_eff m dstate0) = Some [RStack 0x7000; RMem 0x6000].
Proof.
  pose proof (enqueue_hands_over_or_rolls_back (EnqEnv 0x6000 true 0x7000) 0 dstate0 []
                eq_refl ltac:(vm_compute; intros H; inversion H)) as H.
  cbv zeta in H. rewrite decide_True in H by (vm_compute; done). apply H.
Defined.

(** On a queue that is shutting down the refused work item is released
    twice, by the [rc == 0] branch and again by the [fail:] label it jumps to. *)
Theorem enqueue_refused_double_free env e s held
    (Halloc : enq_allocs env) (Hstop : main_loop_should_exit (d_q s) = true)
    (Halt : ee_altstack env = false) (Hfresh : RMem (ee_kmalloc env) ∉ held) :
  run_res held (run_eff (nv_dbell_try_enqueue_resolve env e) s) = None.
Proof. by apply enqueue_refused. Qed.

Lemma enqueue_refused_double_free_witness :
  run_res [] (run_eff (nv_dbell_try_enqueue_resolve (EnqEnv 0x6000 false NULL) 0)
                (set_q (Kq [] 1 true false) dstate0)) = None.
Proof.
  apply (enqueue_refused_double_free (EnqEnv 0x6000 false NULL) 0
           (set_q (Kq [] 1 true false) dstate0) []);
    [split; done|reflexivity|reflexivity|intros H; inversion H].
Defined.

(** The lookup a resolver makes and the entry it publishes are separate
    steps; when the BAR1 mapping is torn down in between, the teardown skips the
    still PENDING entry and the resolver then publishes a RESOLVED entry whose
    ring no tracked mapping covers. *)
Theorem resolver_teardown_race :
  ∃ s vma i e ro,
    dstate_ok (λ _, False) s ∧ ro_ok (λ _, False) ro ∧
    d_cache s !! i = Some e ∧ c_state e = CPending ∧
    let u := resolve_userd id (d_bar1 s) ro in
    let g := resolve_gpfifo (d_bar1 s) ro in
    let s1 := run_st (nv_dbell_bar1_track_remove MC_TRACE_CAT_DEFAULT vma) s in
    let s2 := run_st (resolve_publish MC_TRACE_CAT_DEFAULT i ro u g) s1 in
    ∃ e', d_cache s2 !! i = Some e' ∧ c_state e' = CResolved ∧ c_gpfifo_kva e' ≠ NULL ∧
          0 < c_gpfifo_entries e' ∧
          ¬ mapped (d_bar1 s2) (c_gpfifo_kva e') (c_gpfifo_entries e' * 8).
Proof.
  exists demo_pending, 7, 0%nat, (cache_reserved 5 2 9), (demo_rm 9 5 2). split_and!.
  - split; [|repeat (constructor; [done|]); constructor].
    repeat (constructor; [intros ?; vm_compute; repeat split; done|]); constructor.
  - vm_compute. repeat split; done.
  - done.
  - done.
  - exists demo_resolved. split_and!; [vm_compute; reflexivity|done|done|done|].
    intros (e & He & Hv & _).
    replace (d_bar1 _) with (replicate 16 bar1_free) in He by (vm_compute; reflexivity).
    by apply elem_of_replicate in He as [-> _].
Qed.
