(* ===== verification/DbellHandler.v ===== *)
(** * DbellHandler: the #DB trap handler of nv-doorbell-watch.c

    The handler runs when user space stores to the shadow doorbell page: it
    reads the token, finds or reserves the channel's cache entry, dumps the
    submission the token announces, and forwards the token to the device. *)
From stdpp Require Import base numbers list strings gmap.
From S2P Require Import Prelude Kernel Trackers KthreadQ DbellCache.
#[local] Open Scope Z_scope.

(** ** The token: VECTOR in bits 11:0, RUNLIST_ID in bits 22:16 *)
Definition token_chid (token : Z) : Z := Z.land token 0xfff.
Definition token_runlist (token : Z) : Z := Z.land (Z.shiftr token 16) 0x7f.

(** ** The GPFIFO entry *)
Record gp_entry : Type := GpEntry { gp_pb_va : Z; gp_pb_bytes : Z }.

Definition gp_decode (e0 e1 : Z) : gp_entry :=
  let pb_va_lo := Z.land e0 0xFFFFFFFC in
  let pb_va_hi := Z.shiftl (Z.land e1 0xFF) 32 in
  let pb_dwords := Z.land (Z.shiftr e1 10) 0x1FFFFF in
  GpEntry (Z.lor pb_va_hi pb_va_lo) (u32 (pb_dwords * 4)).

(** [(gp_put - 1u) & (gpfifo_entries - 1u)] *)
Definition ring_index (gp_put entries : Z) : Z := Z.land (u32 (gp_put - 1)) (u32 (entries - 1)).

(** ** The hexadecimal dump *)
Definition hd : string := "0123456789abcdef".

Definition hex_char (n : Z) : Ascii.ascii :=
  default Ascii.zero (String.get (Z.to_nat n) hd).

(** One byte as its two digits; a chunk as the digits of its bytes. *)
Definition hex_byte (b : Z) : list Ascii.ascii :=
  [hex_char (Z.land (Z.shiftr b 4) 0xf); hex_char (Z.land b 0xf)].

Definition hex_bytes (bs : list Z) : list Ascii.ascii := bs ≫= hex_byte.

Definition mem_bytes (mem : Z → Z) (a n : Z) : list Z := mem <$> (Z.add a <$> seqZ 0 n).

Definition CHUNK : Z := 64.

Section handler.
Context (mask : Z) (env : enq_env) (mem : Z → Z).

(** [for (off = 0; off < pb_bytes; off += CHUNK)], from [off] on. *)
Fixpoint emit_chunks (fuel : nat) (seq chid idx chunks_total pb_kva pb_bytes ck off : Z)
    : prog keff dstate unit :=
  if off <? pb_bytes then
    match fuel with
    | O => skip
    | S fuel =>
        let this_len := if pb_bytes - off <? CHUNK then pb_bytes - off else CHUNK in
        tell ((λ k, KRead (pb_kva + (off + k)) 1) <$> seqZ 0 this_len);;
        let hex := String.string_of_list_ascii (hex_bytes (mem_bytes mem (pb_kva + off) this_len)) in
        MC_TRACE mask pb "bytes"
          [("seq", FDec seq); ("chid", FDec chid); ("idx", FDec idx); ("chunk", FDec ck);
           ("nchunks", FDec chunks_total); ("off", FDec off); ("hex", FStr hex)];;
        emit_chunks fuel seq chid idx chunks_total pb_kva pb_bytes (ck + 1) (u32 (off + CHUNK))
    end
  else skip.

Definition pb_chunks_total (pb_bytes : Z) : Z := u32 (pb_bytes + CHUNK - 1) / CHUNK.

(** The dump of a pushbuffer segment, at most 4 KiB, hence 64 chunks. *)
Definition emit_pb_bytes (seq chid idx pb_va pb_bytes : Z) : prog keff dstate unit :=
  if (0 <? pb_bytes) && (pb_bytes <=? 4096) then
    sysmem ← gets d_sysmem;
    let pb_kva := nv_dbell_sysmem_gpu_va_to_kva sysmem pb_va pb_bytes in
    if negb (pb_kva =? NULL) then
      emit_chunks 64 seq chid idx (pb_chunks_total pb_bytes) pb_kva pb_bytes 0 0
    else
      MC_TRACE mask pb "bytes_miss"
        [("seq", FDec seq); ("chid", FDec chid); ("idx", FDec idx); ("pb_va", FHex pb_va);
         ("pb_len", FDec pb_bytes)]
  else skip.

Definition set_last_pb (idx va : Z) (e : cache_entry) : cache_entry :=
  CacheEntry (c_state e) (c_chid e) (c_runlist e) (c_userd_kva e) (c_gpfifo_kva e)
    (c_gpfifo_entries e) (c_nv e) idx va.

(** Decode the ring entry the doorbell publishes and dump it unless it is the
    one dumped last. *)
Definition emit_submit (seq chid : Z) (i : nat) (e : cache_entry) (gp_put : Z)
    : prog keff dstate unit :=
  if negb (c_gpfifo_kva e =? NULL) && (0 <? c_gpfifo_entries e) then
    let idx := ring_index gp_put (c_gpfifo_entries e) in
    let a0 := c_gpfifo_kva e + 4 * u32 (idx * 2) in
    let a1 := c_gpfifo_kva e + 4 * u32 (u32 (idx * 2) + 1) in
    tell [KRead a0 4];;
    tell [KRead a1 4];;
    let e0 := read32 mem a0 in
    let e1 := read32 mem a1 in
    let '(GpEntry pb_va pb_bytes) := gp_decode e0 e1 in
    MC_TRACE mask pb "submit"
      [("seq", FDec seq); ("chid", FDec chid); ("idx", FDec idx); ("entry0", FHex e0);
       ("entry1", FHex e1); ("pb_va", FHex pb_va); ("pb_len", FDec pb_bytes)];;
    if negb (c_last_pb_bytes_idx e =? idx) || negb (c_last_pb_bytes_va e =? pb_va) then
      modify (λ s, set_cache (alter (set_last_pb idx pb_va) i (d_cache s)) s);;
      emit_pb_bytes seq chid idx pb_va pb_bytes
    else skip
  else skip.

Definition emit_resolved (seq chid runlist : Z) (i : nat) (e : cache_entry)
    : prog keff dstate unit :=
  if negb (c_userd_kva e =? NULL) then
    tell [KRead (c_userd_kva e + 0x8c) 4];;
    let gp_put := read32 mem (c_userd_kva e + 0x8c) in
    MC_TRACE mask dbell "gp_put"
      [("seq", FDec seq); ("chid", FDec chid); ("runlist", FDec runlist); ("gp_put", FDec gp_put)];;
    emit_submit seq chid i e gp_put
  else skip.

(** The channel-cache part of the handler. *)
Definition handle_channel (seq chid runlist nv : Z) : prog keff dstate unit :=
  cache ← gets d_cache;
  match nv_dbell_cache_find chid runlist cache with
  | None =>
      let '(hit, cache') := nv_dbell_cache_reserve chid runlist nv cache in
      match hit with
      | Some i =>
          modify (set_cache cache');;
          MC_TRACE mask dbell "cache"
            [("state", FStr "reserve"); ("seq", FDec seq); ("chid", FDec chid);
             ("runlist", FDec runlist)];;
          nv_dbell_try_enqueue_resolve env i
      | None => skip
      end;;
      MC_TRACE mask dbell "cache"
        [("state", FStr "pending_init"); ("seq", FDec seq); ("chid", FDec chid);
         ("runlist", FDec runlist)]
  | Some (i, e) =>
      match c_state e with
      | CResolved => emit_resolved seq chid runlist i e
      | CPending =>
          MC_TRACE mask dbell "cache"
            [("state", FStr "pending_in_flight"); ("seq", FDec seq); ("chid", FDec chid);
             ("runlist", FDec runlist)]
      | _ =>
          MC_TRACE mask dbell "cache"
            [("state", FStr "failed"); ("seq", FDec seq); ("chid", FDec chid);
             ("runlist", FDec runlist)]
      end
  end.

Definition ctx_count (c : dbell_ctx) : dbell_ctx :=
  DbellCtx (x_tag c) (x_slot_idx c) (x_bp_events c) (x_nv c) (x_shadow_page c) (x_shadow_kva c)
    (x_user_va c) (x_doorbell_iomap c) (x_owner c) (s32 (x_bp_count c + 1)).

(** [writel(token, ctx->doorbell_iomap)] *)
Definition forward (seq token : Z) (ctx : dbell_ctx) : prog keff dstate unit :=
  if negb (x_doorbell_iomap ctx =? NULL) then tell [KWritel token (x_doorbell_iomap ctx)]
  else MC_TRACE mask dbell "no_iomap" [("seq", FDec seq)].

(** [ctxp] is the breakpoint's [overflow_handler_context]. *)
Definition nv_dbell_db_handler (ctxp : Z) : prog keff dstate unit :=
  ctxs ← gets d_ctxs;
  if ctxp =? NULL then skip
  else
    match ctxs !! ctxp with
    | None => tell [KFault ctxp]
    | Some ctx =>
      if x_shadow_kva ctx =? NULL then skip
      else
        tell [KRead (x_shadow_kva ctx + NV_DBELL_OFFSET) 4];;
        let token := read32 mem (x_shadow_kva ctx + NV_DBELL_OFFSET) in
        let chid := token_chid token in
        let runlist := token_runlist token in
        modify (λ s, set_seq (u32 (d_seq s + 1)) s);;
        seq ← gets d_seq;
        modify (λ s, set_ctxs (alter ctx_count ctxp (d_ctxs s)) s);;
        MC_TRACE mask dbell "fire"
          [("seq", FDec seq); ("slot", FDec (x_slot_idx ctx)); ("token", FHex token);
           ("chid", FDec chid); ("runlist", FDec runlist)];;
        handle_channel seq chid runlist (x_nv ctx);;
        forward seq token ctx
    end.
End handler.

(** * Theorems *)

(** ** Which actions the parts of the handler perform *)

(** Φ holds of everything but the device store, the loads and the resources. *)
Definition quiet (Φ : keff → Prop) : Prop :=
  (∀ c ev fs, Φ (KTrace c ev fs)) ∧ (∀ w, Φ (KSchedule w)) ∧
  (∀ r, Φ (KAcq r)) ∧ (∀ r, Φ (KRel r)).

Lemma kfree_emits {S} Φ p : quiet Φ → emits (S:=S) Φ (kfree p).
Proof. intros (? & ? & ? & ?). unfold kfree. emits_solve. Qed.

Lemma free_stack_emits Φ alt sp : quiet Φ → emits Φ (nv_kmem_cache_free_stack alt sp).
Proof. intros (? & ? & ? & ?). unfold nv_kmem_cache_free_stack. emits_solve. Qed.

Lemma trace_emits {S} Φ mask c ev fs : quiet Φ → emits (S:=S) Φ (MC_TRACE mask c ev fs).
Proof. intros (? & _). by apply mc_trace_emits. Qed.

#[export] Hint Resolve kfree_emits free_stack_emits trace_emits : eff.

Lemma enqueue_emits Φ env e : quiet Φ → emits Φ (nv_dbell_try_enqueue_resolve env e).
Proof.
  intros Hq. pose proof Hq as (? & ? & ? & ?).
  unfold nv_dbell_try_enqueue_resolve, enqueue_fail, cache_set_state. emits_solve.
  destruct (z0 =? NULL); [constructor|]. apply Forall_singleton; auto.
Qed.
#[export] Hint Resolve enqueue_emits : eff.

Lemma quiet_not_writel : quiet not_writel.
Proof. done. Qed.

Lemma quiet_not_read : quiet not_read.
Proof. done. Qed.
#[export] Hint Resolve quiet_not_writel quiet_not_read : eff.

Lemma emit_chunks_not_writel mask mem fuel seq chid idx nt kva n ck off :
  emits not_writel (emit_chunks mask mem fuel seq chid idx nt kva n ck off).
Proof.
  revert ck off. induction fuel as [|fuel IH]; intros ck off; cbn [emit_chunks]; [emits_solve|].
  destruct (off <? n); [|emits_solve].
  apply emits_bind; [apply emits_tell; by apply Forall_fmap, Forall_true|intros _].
  apply emits_bind; [eauto with eff|intros _; apply IH].
Qed.
#[export] Hint Resolve emit_chunks_not_writel : eff.

Lemma handle_channel_not_writel mask env mem seq chid runlist nv :
  emits not_writel (handle_channel mask env mem seq chid runlist nv).
Proof.
  unfold handle_channel, emit_resolved, emit_submit, emit_pb_bytes. emits_solve.
Qed.

(** ** The handler runs: its state and its actions on a live context *)
Section run.
Context (mask : Z) (env : enq_env) (mem : Z → Z).

(** What the handler has done when it turns to the channel cache. *)
Definition handler_entered (ctxp : Z) (s : dstate) : dstate :=
  set_ctxs (alter ctx_count ctxp (d_ctxs s)) (set_seq (u32 (d_seq s + 1)) s).

Lemma handler_run ctxp ctx s :
  ctxp ≠ NULL → d_ctxs s !! ctxp = Some ctx → x_shadow_kva ctx ≠ NULL →
  let token := read32 mem (x_shadow_kva ctx + NV_DBELL_OFFSET) in
  let seq := u32 (d_seq s + 1) in
  let m := handle_channel mask env mem seq (token_chid token) (token_runlist token) (x_nv ctx) in
  let s1 := handler_entered ctxp s in
  let h := nv_dbell_db_handler mask env mem ctxp in
  run_st h s = run_st m s1 ∧
  ∃ tr, Forall is_trace tr ∧
    run_eff h s = KRead (x_shadow_kva ctx + NV_DBELL_OFFSET) 4 :: tr ++ run_eff m s1 ++
      (if negb (x_doorbell_iomap ctx =? NULL) then [KWritel token (x_doorbell_iomap ctx)]
       else run_eff (MC_TRACE mask dbell "no_iomap" [("seq", FDec seq)]) s1).
Proof.
  intros Hc Hx Hk token seq m s1 h. unfold h, nv_dbell_db_handler.
  autorewrite with run. rewrite (proj2 (Z.eqb_neq _ _) Hc), Hx, (proj2 (Z.eqb_neq _ _) Hk).
  autorewrite with run. fold token. cbn [d_seq set_seq]. fold seq.
  change (set_ctxs _ _) with s1. split.
  - rewrite run_st_bind. fold m. unfold forward. destruct (negb _); [done|]. by rewrite mc_trace_st.
  - set (fire := MC_TRACE mask dbell "fire" _). exists (run_eff fire s1).
    split; [by apply mc_trace_emits|].
    rewrite !run_eff_bind. unfold fire at 2 3. rewrite mc_trace_st. cbn [app]. do 3 f_equal. unfold forward. destruct (negb _); [done|].
    unfold run_eff, MC_TRACE. by destruct (_ =? 0).
Qed.
End run.

(** ** Where the handler reads *)
Definition smapped (sysmem : list sysmem_entry) (a n : Z) : Prop :=
  ∃ e, e ∈ sysmem ∧ y_vma e ≠ NULL ∧ y_kernel_va e ≤ a ∧
       a + n ≤ y_kernel_va e + y_num_pages e * PAGE_SIZE.

Definition sysmem_entry_ok (e : sysmem_entry) : Prop :=
  y_vma e ≠ NULL → 0 < y_kernel_va e ∧ 0 ≤ y_user_va_start e ∧
  y_user_va_end e - y_user_va_start e = y_num_pages e * PAGE_SIZE.

(** The memory the handler may touch: the doorbell dword of its shadow page, a
    USERD, a tracked BAR1 mapping, a tracked system-memory mapping. *)
Definition readable (valid : Z → Prop) (shadow : Z) (s : dstate) (a n : Z) : Prop :=
  (shadow ≤ a ∧ a + n ≤ shadow + PAGE_SIZE) ∨
  (∃ u, valid u ∧ u ≤ a ∧ a + n ≤ u + USERD_BYTES) ∨
  mapped (d_bar1 s) a n ∨ smapped (d_sysmem s) a n.

Definition reads_in (R : Z → Z → Prop) (e : keff) : Prop :=
  match e with KRead a n => R a n | _ => True end.

Lemma quiet_reads_in R : quiet (reads_in R).
Proof. done. Qed.
#[export] Hint Resolve quiet_reads_in : eff.

Lemma ring_index_bound gp_put entries :
  0 < entries → 0 ≤ ring_index gp_put entries ≤ entries - 1.
Proof.
  intros He. unfold ring_index.
  pose proof (land_le_r (u32 (gp_put - 1)) (u32 (entries - 1)) ltac:(apply u32_range)).
  pose proof (Z.mod_le (entries - 1) (2 ^ 32) ltac:(lia) ltac:(lia)). unfold u32 in *. lia.
Qed.

Lemma u32_le z : 0 ≤ z → 0 ≤ u32 z ≤ z.
Proof. intros. pose proof (Z.mod_le z (2 ^ 32)). pose proof (u32_range z). unfold u32, is_u32 in *. lia. Qed.

Lemma gp_decode_va_range e0 e1 : 0 ≤ gp_pb_va (gp_decode e0 e1) < 2 ^ 40.
Proof.
  unfold gp_decode. cbn [gp_pb_va].
  pose proof (land_le_r e0 0xFFFFFFFC ltac:(lia)). pose proof (land_le_r e1 0xFF ltac:(lia)).
  rewrite Z.lor_comm, lor_shift_add; lia.
Qed.

Section reads.
Context (mask : Z) (env : enq_env) (mem : Z → Z).

Lemma emit_chunks_reads fuel seq chid idx nt kva n ck off :
  0 ≤ off →
  emits (reads_in (λ a m, kva ≤ a ∧ a + m ≤ kva + n))
    (emit_chunks mask mem fuel seq chid idx nt kva n ck off).
Proof.
  revert ck off. induction fuel as [|fuel IH]; intros ck off Hoff; cbn [emit_chunks];
    (destruct (off <? n) eqn:Hn; [|emits_solve]); [emits_solve|].
  apply emits_bind.
  - apply emits_tell. apply Forall_fmap, Forall_forall. intros k Hk%elem_of_seqZ. simpl.
    unfold CHUNK in *. destruct (_ <? 64) eqn:?; lia.
  - intros _. apply emits_bind; [eauto with eff|]. intros _. apply IH. apply u32_range.
Qed.

Lemma sysmem_read_mapped sysmem va size :
  Forall sysmem_entry_ok sysmem → 0 ≤ va → 0 ≤ size → va + size < 2 ^ 64 →
  nv_dbell_sysmem_gpu_va_to_kva sysmem va size ≠ NULL →
  smapped sysmem (nv_dbell_sysmem_gpu_va_to_kva sysmem va size) size.
Proof.
  intros Hok Hva Hsz Hw Hnz. rewrite Forall_forall in Hok.
  destruct (vt_sound sysmem va size) as (m & Hm & Hcov & Heq); [lia|lia|lia| |done|].
  { apply Forall_forall. intros [[lo hi] base] Hin.
    apply va_maps_elem in Hin as (e & He & Hl & [= -> -> ->]).
    unfold va_live in Hl. rewrite Is_true_true in Hl.
    destruct (Hok e He) as (_ & ? & _); [lia|done]. }
  simpl in Heq. rewrite Heq.
  apply va_maps_elem in Hm as (e & He & Hl & ->). simpl in *.
  unfold va_live in Hl. rewrite Is_true_true in Hl.
  destruct (Hok e He) as (? & ? & Hlen); [lia|]. exists e. split_and!; [done|lia..].
Qed.

Lemma smapped_sub sysmem a n b m :
  smapped sysmem a n → a ≤ b → b + m ≤ a + n → smapped sysmem b m.
Proof. intros (e & ? & ? & ? & ?) ? ?. exists e. split_and!; [done|done|lia..]. Qed.

Lemma mapped_sub bar1 a n b m :
  mapped bar1 a n → a ≤ b → b + m ≤ a + n → mapped bar1 b m.
Proof. intros (e & ? & ? & ? & ?) ? ?. exists e. split_and!; [done|done|lia..]. Qed.

Lemma emit_pb_bytes_reads valid shadow seq chid idx va n s s0 :
  Forall sysmem_entry_ok (d_sysmem s) → 0 ≤ va < 2 ^ 40 → d_sysmem s = d_sysmem s0 →
  Forall (reads_in (readable valid shadow s0)) (run_eff (emit_pb_bytes mask mem seq chid idx va n) s).
Proof.
  intros Hs Hva Heq. unfold emit_pb_bytes.
  destruct (_ && _) eqn:Hn; [|constructor]. autorewrite with run.
  destruct (negb _) eqn:Hk; [|by apply mc_trace_emits].
  eapply Forall_impl; [apply emit_chunks_reads; lia|].
  intros ev; destruct ev as [a m| | | | | | | | | | | | | | | | |]; simpl; try done.
  intros [? ?]. right; right; right.
  rewrite <-Heq. apply (smapped_sub _ (nv_dbell_sysmem_gpu_va_to_kva (d_sysmem s) va n) n); [|lia|lia].
  apply sysmem_read_mapped; [done|lia|lia|lia|]. intros E. rewrite E in Hk. done.
Qed.

Lemma emit_submit_reads valid shadow seq chid i e gp_put s s0 :
  Forall sysmem_entry_ok (d_sysmem s) → d_bar1 s = d_bar1 s0 → d_sysmem s = d_sysmem s0 →
  (c_gpfifo_kva e ≠ NULL → 0 < c_gpfifo_entries e →
     mapped (d_bar1 s) (c_gpfifo_kva e) (c_gpfifo_entries e * 8)) →
  Forall (reads_in (readable valid shadow s0))
    (run_eff (emit_submit mask mem seq chid i e gp_put) s).
Proof.
  intros Hs Hb Hy Hg. unfold emit_submit. destruct (_ && _) eqn:Hg'; [|constructor].
  apply andb_true_iff in Hg' as [Hnz Hne]. apply negb_true_iff, Z.eqb_neq in Hnz.
  specialize (Hg Hnz ltac:(lia)). rewrite Hb in Hg. set (idx := ring_index _ _).
  assert (0 ≤ idx ≤ c_gpfifo_entries e - 1) as Hidx by (apply ring_index_bound; lia).
  pose proof (u32_le (idx * 2) ltac:(lia)). pose proof (u32_le (u32 (idx * 2) + 1) ltac:(lia)).
  autorewrite with run.
  apply Forall_app; split; [apply Forall_singleton; right; right; left; eapply mapped_sub; [exact Hg|lia..]|].
  apply Forall_app; split; [apply Forall_singleton; right; right; left; eapply mapped_sub; [exact Hg|lia..]|].
  pose proof (gp_decode_va_range (read32 mem (c_gpfifo_kva e + 4 * u32 (idx * 2)))
                (read32 mem (c_gpfifo_kva e + 4 * u32 (u32 (idx * 2) + 1)))) as Hva.
  destruct (gp_decode _ _) as [va n]. rewrite run_eff_bind.
  apply Forall_app. split; [by apply mc_trace_emits|]. rewrite mc_trace_st.
  destruct (_ || _); [|constructor]. autorewrite with run. by apply emit_pb_bytes_reads.
Qed.

(** The reservation of an entry reads nothing. *)
Lemma handle_miss_reads R seq chid runlist nv s :
  nv_dbell_cache_find chid runlist (d_cache s) = None →
  Forall (reads_in R) (run_eff (handle_channel mask env mem seq chid runlist nv) s).
Proof.
  intros Hf. unfold handle_channel. autorewrite with run. rewrite Hf.
  destruct (nv_dbell_cache_reserve _ _ _ _) as [hit c'].
  match goal with |- Forall _ (run_eff ?m s) => assert (emits (reads_in R) m) as H; [|apply H] end.
  emits_solve.
Qed.

(** Everything the channel part reads is readable in the state it starts from. *)
Lemma handle_channel_reads valid shadow seq chid runlist nv s s0 :
  dstate_ok valid s → Forall sysmem_entry_ok (d_sysmem s) →
  d_bar1 s = d_bar1 s0 → d_sysmem s = d_sysmem s0 →
  Forall (reads_in (readable valid shadow s0))
    (run_eff (handle_channel mask env mem seq chid runlist nv) s).
Proof.
  intros [_ Hc] Hs Hb Hy.
  destruct (nv_dbell_cache_find chid runlist (d_cache s)) as [[i e]|] eqn:Hf;
    [|by apply handle_miss_reads].
  unfold handle_channel. autorewrite with run. rewrite Hf.
  apply scan_lookup in Hf as [Hi _]. rewrite Forall_lookup in Hc. specialize (Hc i e Hi).
  destruct (c_state e) eqn:Hst; [by apply mc_trace_emits..| |by apply mc_trace_emits].
  destruct (Hc Hst) as [Hu Hg]. clear Hc. unfold emit_resolved.
  destruct (negb _) eqn:Hnu; [|constructor]. apply negb_true_iff, Z.eqb_neq in Hnu.
  autorewrite with run. apply Forall_app. split.
  { apply Forall_singleton. destruct (Hu Hnu) as [Hu'|Hu'].
    - right; left. eexists. split; [exact Hu'|]. unfold USERD_BYTES. lia.
    - right; right; left. rewrite <-Hb. eapply mapped_sub; [exact Hu'|lia|unfold USERD_BYTES; lia]. }
  rewrite run_eff_bind. apply Forall_app. split; [by apply mc_trace_emits|].
  rewrite mc_trace_st. by apply emit_submit_reads.
Qed.
End reads.

(** ** The dump, as a reader of the trace sees it *)
Definition hex_val (c : Ascii.ascii) : Z :=
  let n := Z.of_N (Ascii.N_of_ascii c) in if n <? 58 then n - 48 else n - 87.

Fixpoint unhex (cs : list Ascii.ascii) : list Z :=
  match cs with
  | c1 :: c2 :: cs => (16 * hex_val c1 + hex_val c2) :: unhex cs
  | _ => []
  end.

Record dump_rec : Type := DumpRec { dr_chunk : Z; dr_nchunks : Z; dr_off : Z; dr_hex : string }.

(** The [pb/bytes] records among the actions. *)
Definition dump_of (e : keff) : option dump_rec :=
  match e with
  | KTrace pb "bytes" [_; _; _; (_, FDec ck); (_, FDec nt); (_, FDec off); (_, FStr h)] =>
      Some (DumpRec ck nt off h)
  | _ => None
  end.

Definition dump_records (es : list keff) : list dump_rec := omap dump_of es.

Definition dump_bytes (rs : list dump_rec) : list Z :=
  rs ≫= λ r, unhex (String.list_ascii_of_string (dr_hex r)).

Lemma hex_val_char n : 0 ≤ n < 16 → hex_val (hex_char n) = n.
Proof.
  intros Hn. assert (Forall (λ n, hex_val (hex_char n) = n) (seqZ 0 16)) as H.
  { repeat (constructor; [vm_compute; reflexivity|]). constructor. }
  rewrite Forall_forall in H. apply H, elem_of_seqZ. lia.
Qed.

Lemma unhex_hex bs : Forall is_u8 bs → unhex (hex_bytes bs) = bs.
Proof.
  induction 1 as [|b bs Hb _ IH]; [done|].
  change (hex_bytes (b :: bs)) with (hex_byte b ++ hex_bytes bs).
  cbn [hex_byte app unhex]. rewrite IH. f_equal.
  change 15 with (2 ^ 4 - 1). rewrite !land_pow2_mask, Z.shiftr_div_pow2 by lia.
  unfold is_u8 in Hb. rewrite !hex_val_char by zify_divmod. zify_divmod.
Qed.

Lemma mem_bytes_app mem a n m : 0 ≤ n → 0 ≤ m →
  mem_bytes mem a (n + m) = mem_bytes mem a n ++ mem_bytes mem (a + n) m.
Proof.
  intros. unfold mem_bytes. rewrite seqZ_app, !fmap_app by lia. f_equal.
  assert (seqZ (0 + n) m = Z.add n <$> seqZ 0 m) as ->
    by (rewrite fmap_add_seqZ; f_equal; lia).
  rewrite <-!list_fmap_compose. apply list_fmap_ext. intros ? x _. simpl. f_equal. lia.
Qed.

Lemma mem_bytes_u8 mem a n : (∀ x, is_u8 (mem x)) → Forall is_u8 (mem_bytes mem a n).
Proof. intros Hm. apply Forall_fmap, Forall_true. intros. apply Hm. Qed.

Lemma dump_records_app es1 es2 : dump_records (es1 ++ es2) = dump_records es1 ++ dump_records es2.
Proof. apply omap_app. Qed.

Lemma dump_records_none es : Forall (λ e, dump_of e = None) es → dump_records es = [].
Proof. induction 1 as [|e es He _ IH]; [done|]. unfold dump_records in *. simpl. by rewrite He. Qed.

Lemma read_records kva off l : dump_records ((λ k, KRead (kva + (off + k)) 1) <$> l) = [].
Proof. apply dump_records_none, Forall_fmap, Forall_true. done. Qed.

Lemma mem_bytes_nil mem a n : n ≤ 0 → mem_bytes mem a n = [].
Proof. intros. unfold mem_bytes. by rewrite seqZ_nil by lia. Qed.

Lemma dump_records_hit e es r : dump_of e = Some r → dump_records (e :: es) = r :: dump_records es.
Proof. intros H. unfold dump_records. simpl. by rewrite H. Qed.

Lemma dump_bytes_cons r rs :
  dump_bytes (r :: rs) = unhex (String.list_ascii_of_string (dr_hex r)) ++ dump_bytes rs.
Proof. reflexivity. Qed.

Section dump.
Context (mask : Z) (env : enq_env) (mem : Z → Z).
Hypothesis Hmem : ∀ a, is_u8 (mem a).
Hypothesis Hpb : mc_enabled mask pb.

Lemma emit_chunks_records fuel seq chid idx nt kva n ck off s :
  0 ≤ off → n ≤ 4096 → n - off ≤ 64 * Z.of_nat fuel →
  let rs := dump_records
              (run_eff (emit_chunks mask mem fuel seq chid idx nt kva n ck off) s) in
  dump_bytes rs = mem_bytes mem (kva + off) (n - off) ∧
  dr_chunk <$> rs = seqZ ck ((n - off + 63) / 64) ∧
  Forall (λ r, dr_nchunks r = nt ∧ dr_off r = off + 64 * (dr_chunk r - ck)) rs.
Proof.
  revert ck off s. induction fuel as [|fuel IH]; intros ck off s Ho Hn Hf; cbn [emit_chunks];
    (destruct (off <? n) eqn:E; cycle 1;
      [cbn; split_and!; [by rewrite mem_bytes_nil by lia|rewrite seqZ_nil by zify_divmod; done|constructor]|]).
  { lia. }
  autorewrite with run. rewrite run_eff_bind, mc_trace_st, mc_trace_eff by done.
  rewrite dump_records_app, read_records. cbn [app].
  set (len := if n - off <? CHUNK then n - off else CHUNK).
  assert (0 ≤ len ≤ 64 ∧ (len = 64 ∧ off + 64 ≤ n ∨ off + len = n)) as Hlen.
  { unfold len, CHUNK. destruct (_ <? 64) eqn:?; lia. }
  destruct (IH (ck + 1) (u32 (off + CHUNK)) s) as (IH1 & IH2 & IH3); [apply u32_range|lia| |].
  { unfold CHUNK. rewrite u32_small by (unfold is_u32; lia). lia. }
  rewrite u32_small in IH1, IH2, IH3 |- * by (unfold is_u32, CHUNK; lia).
  erewrite dump_records_hit by reflexivity. split_and!.
  - rewrite dump_bytes_cons. cbn [dr_hex].
    rewrite String.list_ascii_of_string_of_list_ascii, unhex_hex by by apply mem_bytes_u8.
    rewrite IH1. replace (n - off) with (len + (n - off - len)) by lia.
    rewrite mem_bytes_app by lia. f_equal.
    destruct (decide (off + len = n)); [rewrite !mem_bytes_nil by (unfold CHUNK; lia); done|].
    unfold CHUNK. f_equal; lia.
  - rewrite fmap_cons, seqZ_cons, IH2 by zify_divmod. f_equal.
    f_equal. unfold CHUNK. zify_divmod.
  - constructor; [simpl; lia|]. eapply Forall_impl; [exact IH3|]. simpl. unfold CHUNK. lia.
Qed.

Lemma emit_pb_bytes_records seq chid idx va n s :
  let kva := nv_dbell_sysmem_gpu_va_to_kva (d_sysmem s) va n in
  let rs := dump_records (run_eff (emit_pb_bytes mask mem seq chid idx va n) s) in
  0 < n ≤ 4096 → kva ≠ NULL →
  dump_bytes rs = mem_bytes mem kva n ∧
  dr_chunk <$> rs = seqZ 0 ((n + 63) / 64) ∧
  Forall (λ r, dr_nchunks r = (n + 63) / 64 ∧ dr_off r = 64 * dr_chunk r) rs.
Proof.
  intros kva rs Hn Hk. unfold rs, emit_pb_bytes.
  rewrite (proj2 (Z.ltb_lt _ _)), (proj2 (Z.leb_le _ _)) by lia. cbn [andb].
  autorewrite with run. fold kva. rewrite (proj2 (Z.eqb_neq _ _) Hk). cbn [negb].
  destruct (emit_chunks_records 64 seq chid idx (pb_chunks_total n) kva n 0 0 s)
    as (-> & -> & H3); [lia..|].
  rewrite Z.add_0_r, Z.sub_0_r. split_and!; [done|done|]. eapply Forall_impl; [exact H3|].
  intros r [-> ->]. unfold pb_chunks_total, CHUNK. rewrite u32_small by (unfold is_u32; lia).
  split; [f_equal; lia|lia].
Qed.
End dump.

(** ** The state the handler leaves *)
Section state.
Context (mask : Z) (env : enq_env) (mem : Z → Z).

Lemma emit_chunks_st fuel seq chid idx nt kva n ck off s :
  run_st (emit_chunks mask mem fuel seq chid idx nt kva n ck off) s = s.
Proof.
  revert ck off. induction fuel as [|fuel IH]; intros ck off; cbn [emit_chunks];
    destruct (off <? n); try done. by autorewrite with run.
Qed.

Lemma emit_pb_bytes_st seq chid idx va n s :
  run_st (emit_pb_bytes mask mem seq chid idx va n) s = s.
Proof.
  unfold emit_pb_bytes. destruct (_ && _); [|done]. autorewrite with run.
  destruct (negb _); [apply emit_chunks_st|apply mc_trace_st].
Qed.

(** Of the state, the channel part of the handler changes the cache, the work
    items and the queue only. *)
Definition same_frame (s s' : dstate) : Prop :=
  d_bar1 s' = d_bar1 s ∧ d_sysmem s' = d_sysmem s ∧ d_ctxs s' = d_ctxs s ∧
  d_slots s' = d_slots s.

Lemma emit_submit_st seq chid i e gp_put s :
  run_st (emit_submit mask mem seq chid i e gp_put) s = s ∨
  ∃ idx va, run_st (emit_submit mask mem seq chid i e gp_put) s =
    set_cache (alter (set_last_pb idx va) i (d_cache s)) s.
Proof.
  unfold emit_submit. destruct (_ && _); [|by left]. autorewrite with run.
  destruct (gp_decode _ _) as [va n]. autorewrite with run.
  destruct (_ || _); [right|by left]. eexists _, va. autorewrite with run.
  by rewrite emit_pb_bytes_st.
Qed.

Lemma set_last_safe valid bar1 idx va i c :
  Forall (entry_safe valid bar1) c → Forall (entry_safe valid bar1) (alter (set_last_pb idx va) i c).
Proof. intros Hc. apply Forall_alter; [done|]. intros e _ He. exact He. Qed.

Lemma handle_channel_ok valid seq chid runlist nv s :
  dstate_ok valid s →
  dstate_ok valid (run_st (handle_channel mask env mem seq chid runlist nv) s) ∧
  same_frame s (run_st (handle_channel mask env mem seq chid runlist nv) s).
Proof.
  intros Hs. unfold handle_channel, same_frame. autorewrite with run.
  destruct (nv_dbell_cache_find chid runlist (d_cache s)) as [[i e]|].
  - destruct (c_state e); autorewrite with run; try done.
    unfold emit_resolved. destruct (negb _); [|done]. autorewrite with run.
    destruct (emit_submit_st seq chid i e (read32 mem (c_userd_kva e + 0x8c)) s)
      as [->|(idx & va & ->)]; [done|]. split; [|done].
    eapply dstate_ok_cache; [exact Hs|done|]. apply set_last_safe, Hs.
  - pose proof (reserve_ok valid chid runlist nv s Hs) as Hr.
    destruct (nv_dbell_cache_reserve chid runlist nv (d_cache s)) as [[i|] c'].
    + rewrite run_st_bind. autorewrite with run.
      split; [by apply enqueue_ok|].
      destruct (enqueue_st_cases env i (set_cache c' s)) as (-> & -> & -> & -> & _). done.
    + by autorewrite with run.
Qed.

Lemma handler_ok valid ctxp s :
  dstate_ok valid s → dstate_ok valid (run_st (nv_dbell_db_handler mask env mem ctxp) s).
Proof.
  intros Hs. destruct (decide (ctxp = NULL)) as [->|Hc]; [done|].
  destruct (d_ctxs s !! ctxp) as [ctx|] eqn:Hx.
  2: { unfold nv_dbell_db_handler. autorewrite with run.
       rewrite (proj2 (Z.eqb_neq _ _) Hc), Hx. done. }
  destruct (decide (x_shadow_kva ctx = NULL)) as [E|Hk].
  { unfold nv_dbell_db_handler. autorewrite with run.
    rewrite (proj2 (Z.eqb_neq _ _) Hc), Hx, E. done. }
  destruct (handler_run mask env mem ctxp ctx s Hc Hx Hk) as [-> _].
  apply handle_channel_ok. destruct Hs as [Hb Hca]. by split.
Qed.
End state.

(** ** The submission a doorbell announces *)
Section announced.
Context (mask : Z) (env : enq_env) (mem : Z → Z).

Definition announced_idx (e : cache_entry) : Z :=
  ring_index (read32 mem (c_userd_kva e + 0x8c)) (c_gpfifo_entries e).

(** Ring entry [idx] as its two dwords. *)
Definition announced (e : cache_entry) : gp_entry :=
  let idx := announced_idx e in
  gp_decode (read32 mem (c_gpfifo_kva e + 8 * idx)) (read32 mem (c_gpfifo_kva e + 8 * idx + 4)).

(** An entry through which the handler can see submissions. *)
Definition visible (e : cache_entry) : Prop :=
  c_state e = CResolved ∧ c_userd_kva e ≠ NULL ∧ c_gpfifo_kva e ≠ NULL ∧
  0 < c_gpfifo_entries e ≤ 2 ^ 31.

Definition already_dumped (e : cache_entry) : Prop :=
  c_last_pb_bytes_idx e = announced_idx e ∧ c_last_pb_bytes_va e = gp_pb_va (announced e).

Lemma trace_no_dump {S} c ev fs (s : S) :
  ev ≠ "bytes" → dump_records (run_eff (MC_TRACE mask c ev fs) s) = [].
Proof.
  intros Hev. apply dump_records_none. unfold MC_TRACE. destruct (_ =? 0); [constructor|].
  apply Forall_singleton. simpl. destruct c; try done.
  destruct (String.eqb_spec ev "bytes"); [done|].
  repeat (case_match; try done).
Qed.

(** The channel part on a visible entry: two or three loads and records, then
    the dump unless it repeats the last one. *)
Lemma handle_visible seq chid runlist nv s i e :
  nv_dbell_cache_find chid runlist (d_cache s) = Some (i, e) → visible e →
  let idx := announced_idx e in
  let '(GpEntry va n) := announced e in
  let m := handle_channel mask env mem seq chid runlist nv in
  let s' := set_cache (alter (set_last_pb idx va) i (d_cache s)) s in
  (¬ already_dumped e →
   run_st m s = s' ∧ dump_records (run_eff m s) =
     dump_records (run_eff (emit_pb_bytes mask mem seq chid idx va n) s')) ∧
  (already_dumped e → run_st m s = s ∧ dump_records (run_eff m s) = []).
Proof.
  intros Hf (Hst & Hu & Hg & He) idx. unfold already_dumped.
  assert (0 ≤ idx ≤ c_gpfifo_entries e - 1) as Hidx by (apply ring_index_bound; lia).
  destruct (announced e) as [va n] eqn:Ha. cbn [gp_pb_va]. unfold handle_channel.
  autorewrite with run. rewrite Hf, Hst. unfold emit_resolved.
  rewrite (proj2 (Z.eqb_neq _ _) Hu). cbn [negb]. autorewrite with run.
  rewrite dump_records_app, run_eff_bind, dump_records_app, trace_no_dump, mc_trace_st by done.
  cbn [dump_records omap list_omap dump_of app]. unfold emit_submit.
  rewrite (proj2 (Z.eqb_neq _ _) Hg), (proj2 (Z.ltb_lt _ _)) by lia. cbn [negb andb].
  fold (announced_idx e). fold idx.
  autorewrite with run. unfold announced in Ha. fold idx in Ha.
  rewrite !(u32_small (idx * 2)), !u32_small by (unfold is_u32; lia).
  replace (c_gpfifo_kva e + 4 * (idx * 2)) with (c_gpfifo_kva e + 8 * idx) by lia.
  replace (c_gpfifo_kva e + 4 * (idx * 2 + 1)) with (c_gpfifo_kva e + 8 * idx + 4) by lia.
  rewrite Ha. autorewrite with run. rewrite !dump_records_app, run_eff_bind, dump_records_app.
  rewrite trace_no_dump, mc_trace_st by done. cbn [dump_records omap list_omap dump_of app].
  destruct (_ || _) eqn:Hd; split; intros Hcond; try (exfalso; lia); autorewrite with run.
  - by rewrite emit_pb_bytes_st.
  - done.
Qed.
End announced.

(** Updating the dump cursor does not change which entry a lookup finds. *)
Lemma find_set_last chid runlist (c : list cache_entry) i e idx va :
  nv_dbell_cache_find chid runlist c = Some (i, e) →
  nv_dbell_cache_find chid runlist (alter (set_last_pb idx va) i c) =
  Some (i, set_last_pb idx va e).
Proof.
  unfold nv_dbell_cache_find. intros Hf. apply list_find_Some in Hf as (Hi & Hk & Hbefore).
  erewrite list_alter_insert by done.
  apply list_find_Some. split_and!.
  - apply list_lookup_insert_eq. by eapply lookup_lt_Some.
  - exact Hk.
  - intros j y Hj Hlt. rewrite list_lookup_insert_ne in Hj by lia. eauto.
Qed.

Lemma announced_set_last mem idx va e : announced mem (set_last_pb idx va e) = announced mem e.
Proof. reflexivity. Qed.

(** The whole handler dumps what its channel part dumps. *)
Lemma handler_dumps mask env mem ctxp ctx s :
  ctxp ≠ NULL → d_ctxs s !! ctxp = Some ctx → x_shadow_kva ctx ≠ NULL →
  let token := read32 mem (x_shadow_kva ctx + NV_DBELL_OFFSET) in
  let m := handle_channel mask env mem (u32 (d_seq s + 1)) (token_chid token)
             (token_runlist token) (x_nv ctx) in
  dump_records (run_eff (nv_dbell_db_handler mask env mem ctxp) s) =
  dump_records (run_eff m (handler_entered ctxp s)).
Proof.
  intros Hc Hx Hk token m. unfold nv_dbell_db_handler. autorewrite with run.
  rewrite (proj2 (Z.eqb_neq _ _) Hc), Hx, (proj2 (Z.eqb_neq _ _) Hk). autorewrite with run.
  cbn [d_seq set_seq]. rewrite !run_eff_bind, !dump_records_app, trace_no_dump, mc_trace_st by done.
  cbn [app]. unfold forward. destruct (negb _); [by rewrite app_nil_r|].
  rewrite trace_no_dump by done. by rewrite app_nil_r.
Qed.

(** ** Forwarding and bounds, for a live context *)
Lemma handler_forwards mask env mem ctxp ctx s :
  ctxp ≠ NULL → d_ctxs s !! ctxp = Some ctx → x_shadow_kva ctx ≠ NULL → x_doorbell_iomap ctx ≠ NULL →
  ∃ es, Forall not_writel es ∧
    run_eff (nv_dbell_db_handler mask env mem ctxp) s =
    es ++ [KWritel (read32 mem (x_shadow_kva ctx + NV_DBELL_OFFSET)) (x_doorbell_iomap ctx)].
Proof.
  intros Hctx Hlive Hshadow Hiomap.
  destruct (handler_run mask env mem ctxp ctx s Hctx Hlive Hshadow) as (_ & tr & Htr & ->).
  rewrite (proj2 (Z.eqb_neq _ _) Hiomap). cbn [negb].
  eexists (_ :: tr ++ _). split; [|cbn [app]; by rewrite <-app_assoc].
  constructor; [done|]. apply Forall_app. split; [|apply handle_channel_not_writel].
  eapply Forall_impl; [exact Htr|]. by intros [].
Qed.

Lemma handler_reads valid mask env mem ctxp ctx s :
  ctxp ≠ NULL → d_ctxs s !! ctxp = Some ctx → x_shadow_kva ctx ≠ NULL →
  dstate_ok valid s → Forall sysmem_entry_ok (d_sysmem s) →
  Forall (reads_in (readable valid (x_shadow_kva ctx) s))
    (run_eff (nv_dbell_db_handler mask env mem ctxp) s).
Proof.
  intros Hctx Hlive Hshadow Hok Hsys.
  destruct (handler_run mask env mem ctxp ctx s Hctx Hlive Hshadow) as (_ & tr & Htr & ->).
  constructor; [left; unfold NV_DBELL_OFFSET, PAGE_SIZE; lia|].
  rewrite !Forall_app. split_and!.
  - eapply Forall_impl; [exact Htr|]. by intros [].
  - apply handle_channel_reads; [by destruct Hok; split|done..].
  - destruct (negb _); [by apply Forall_singleton|by apply mc_trace_emits].
Qed.

(** * Properties *)

(** C3: every trap forwards its doorbell.  Whatever the channel cache, the
    trackers, the queue, the memory and the allocators are, the handler of an
    armed context stores the token user space wrote to the device exactly once,
    and this store is its last action. *)
Theorem doorbell_always_forwarded mask env mem ctxp ctx s
    (Hctx : ctxp ≠ NULL) (Hlive : d_ctxs s !! ctxp = Some ctx)
    (Hshadow : x_shadow_kva ctx ≠ NULL) (Hiomap : x_doorbell_iomap ctx ≠ NULL) :
  ∃ es, Forall not_writel es ∧
    run_eff (nv_dbell_db_handler mask env mem ctxp) s =
    es ++ [KWritel (read32 mem (x_shadow_kva ctx + NV_DBELL_OFFSET)) (x_doorbell_iomap ctx)].
Proof. by apply handler_forwards. Qed.

Definition demo_ctx : dbell_ctx :=
  DbellCtx NV_DBELL_VMA_TAG 0 [1] 9 0x33 0x800000 0x7f0000000000 0xbb0090 1 0.

(** The token 0x00020005 in the shadow page, GPPut = 1, and a ring whose entry 0
    describes 12 bytes at 0x204000010. *)
Definition demo_mem (a : Z) : Z :=
  if a =? 0x800090 then 5 else if a =? 0x800092 then 2 else
  if a =? 0xff108c then 1 else
  if a =? 0xff4000 then 0x10 else if a =? 0xff4003 then 0x04 else if a =? 0xff4004 then 2 else
  if a =? 0xff4005 then 0x0c else
  if (0x900010 <=? a) && (a <? 0x90001c) then a - 0x900000 else 0.

Definition demo_armed : dstate :=
  set_ctxs {[ 0x40 := demo_ctx ]}
    (set_sysmem (SysmemEntry 8 0x204000000 0x204004000 0x900000 4 :: replicate 7 sysmem_free)
       demo_dstate).

Lemma doorbell_always_forwarded_witness :
  ∃ es, Forall not_writel es ∧
    run_eff (nv_dbell_db_handler 0x1ff (EnqEnv NULL false NULL) demo_mem 0x40) demo_armed =
    es ++ [KWritel 0x00020005 0xbb0090].
Proof.
  exact (doorbell_always_forwarded 0x1ff (EnqEnv NULL false NULL) demo_mem 0x40 demo_ctx demo_armed
           ltac:(done) ltac:(vm_compute; reflexivity) ltac:(done) ltac:(done)).
Defined.

(** C5: every load of the handler stays inside memory that is mapped: the
    doorbell dword of the shadow page, a USERD up to GPPut, a tracked BAR1
    mapping or a tracked system-memory mapping, whatever the memory holds (ring
    indices, pushbuffer addresses and lengths are user data). *)
Theorem handler_reads_in_bounds valid mask env mem ctxp ctx s
    (Hctx : ctxp ≠ NULL) (Hlive : d_ctxs s !! ctxp = Some ctx)
    (Hshadow : x_shadow_kva ctx ≠ NULL)
    (Hok : dstate_ok valid s) (Hsys : Forall sysmem_entry_ok (d_sysmem s)) :
  Forall (reads_in (readable valid (x_shadow_kva ctx) s))
    (run_eff (nv_dbell_db_handler mask env mem ctxp) s).
Proof. by apply handler_reads. Qed.

Lemma demo_armed_ok : dstate_ok (λ _, False) demo_armed.
Proof.
  split.
  - constructor; [intros _; vm_compute; repeat split; done|]. apply Forall_replicate. done.
  - constructor; [|apply Forall_replicate; done]. intros _. split; intros; [right|].
    all: exists demo_bar1; split_and!; [left|done|vm_compute; done|vm_compute; done].
Defined.

Lemma handler_reads_in_bounds_witness :
  Forall (reads_in (readable (λ _, False) 0x800000 demo_armed))
    (run_eff (nv_dbell_db_handler 0x1ff (EnqEnv NULL false NULL) demo_mem 0x40) demo_armed) ∧
  KRead (0x900010 + 11) 1 ∈
    run_eff (nv_dbell_db_handler 0x1ff (EnqEnv NULL false NULL) demo_mem 0x40) demo_armed.
Proof.
  split.
  - apply (handler_reads_in_bounds (λ _, False) 0x1ff (EnqEnv NULL false NULL) demo_mem 0x40 demo_ctx
             demo_armed); [done|vm_compute; reflexivity|done|exact demo_armed_ok|].
    constructor; [intros _; vm_compute; repeat split; done|]. apply Forall_replicate. done.
  - apply (bool_decide_unpack _). vm_compute. exact I.
Defined.

(** C6: a new submission of at most 4 KiB is dumped completely and once.  When
    the ring entry the doorbell announces differs from the last one dumped and
    its pushbuffer is in a tracked mapping, the trace gets one record per
    64-byte chunk, numbered 0, 1, ... with the right count and offsets, whose
    hexadecimal texts decode to exactly the bytes in memory; a second doorbell
    that announces the same submission dumps nothing. *)
Theorem submission_dumped_once mask env mem ctxp ctx s i e
    (Hctx : ctxp ≠ NULL) (Hlive : d_ctxs s !! ctxp = Some ctx)
    (Hshadow : x_shadow_kva ctx ≠ NULL)
    (Hmem : ∀ a, is_u8 (mem a)) (Hpb : mc_enabled mask pb)
    (Hfind : nv_dbell_cache_find
               (token_chid (read32 mem (x_shadow_kva ctx + NV_DBELL_OFFSET)))
               (token_runlist (read32 mem (x_shadow_kva ctx + NV_DBELL_OFFSET)))
               (d_cache s) = Some (i, e))
    (Hvis : visible e) (Hnew : ¬ already_dumped mem e)
    (Hlen : 0 < gp_pb_bytes (announced mem e) ≤ 4096) :
  let '(GpEntry va n) := announced mem e in
  let kva := nv_dbell_sysmem_gpu_va_to_kva (d_sysmem s) va n in
  let h := nv_dbell_db_handler mask env mem ctxp in
  let rs := dump_records (run_eff h s) in
  (kva ≠ NULL →
     dump_bytes rs = mem_bytes mem kva n ∧
     dr_chunk <$> rs = seqZ 0 ((n + 63) / 64) ∧
     Forall (λ r, dr_nchunks r = (n + 63) / 64 ∧ dr_off r = 64 * dr_chunk r) rs) ∧
  dump_records (run_eff h (run_st h s)) = [].
Proof.
  destruct (handler_run mask env mem ctxp ctx s Hctx Hlive Hshadow) as [Hst _].
  set (token := read32 mem _) in *. cbv zeta in Hst.
  pose proof (handle_visible mask env mem (u32 (d_seq s + 1)) (token_chid token)
    (token_runlist token) (x_nv ctx) (handler_entered ctxp s) i e Hfind Hvis) as Hv.
  pose proof (handler_dumps mask env mem ctxp ctx s Hctx Hlive Hshadow) as Hd.
  destruct (announced mem e) as [va n] eqn:Ha. cbn [gp_pb_bytes] in Hlen.
  destruct Hv as [Hv _]. destruct (Hv Hnew) as [Hv1 Hv2]. clear Hv. cbv zeta in *. split.
  - intros Hk. rewrite Hd. fold token. rewrite Hv2.
    set (st := set_cache _ (handler_entered ctxp s)).
    exact (emit_pb_bytes_records mask mem Hmem Hpb (u32 (d_seq s + 1)) (token_chid token)
             (announced_idx mem e) va n st Hlen Hk).
  - rewrite Hst. fold token. rewrite Hv1.
    assert (d_ctxs (handler_entered ctxp s) !! ctxp = Some (ctx_count ctx)) as Hlive'.
    { simpl. by rewrite lookup_alter_eq, Hlive. }
    rewrite (handler_dumps mask env mem ctxp (ctx_count ctx)) by done.
    pose proof (handle_visible mask env mem (u32 (u32 (d_seq s + 1) + 1)) (token_chid token)
      (token_runlist token) (x_nv ctx) (handler_entered ctxp
        (set_cache (alter (set_last_pb (announced_idx mem e) va) i (d_cache s))
           (handler_entered ctxp s))) i (set_last_pb (announced_idx mem e) va e)
      ltac:(by apply find_set_last) Hvis) as Hv'.
    rewrite announced_set_last, Ha in Hv'. apply Hv'. split; [done|].
    by rewrite announced_set_last, Ha.
Qed.

Lemma submission_dumped_once_witness :
  let h := nv_dbell_db_handler 0x1ff (EnqEnv NULL false NULL) demo_mem 0x40 in
  dump_bytes (dump_records (run_eff h demo_armed)) = seqZ 0x10 12 ∧
  dump_records (run_eff h (run_st h demo_armed)) = [].
Proof.
  split; [vm_compute; reflexivity|].
  apply (submission_dumped_once 0x1ff (EnqEnv NULL false NULL) demo_mem 0x40 demo_ctx demo_armed 0
           demo_resolved).
  - done.
  - vm_compute; reflexivity.
  - done.
  - intros a. unfold demo_mem, is_u8. repeat case_match; lia.
  - vm_compute. done.
  - vm_compute; reflexivity.
  - vm_compute; repeat split; done.
  - intros [H _]. vm_compute in H. done.
  - vm_compute. repeat split; done.
Defined.
