(* ===== verification/DbellVma.v ===== *)
(** * DbellVma: watched mappings of nv-doorbell-watch.c and nvidia_dbell.c

    Interception of the mmap of the 64 KiB usermode window: slots, the shadow
    page, one hardware breakpoint per thread, and the release of all of them
    with the VMA. *)
From stdpp Require Import base numbers list strings gmap.
From S2P Require Import Prelude Kernel Trackers KthreadQ DbellCache.
#[local] Open Scope Z_scope.

(** ** Slots *)
Definition ctx_set_slot (i : Z) (c : dbell_ctx) : dbell_ctx :=
  DbellCtx (x_tag c) i (x_bp_events c) (x_nv c) (x_shadow_page c) (x_shadow_kva c)
    (x_user_va c) (x_doorbell_iomap c) (x_owner c) (x_bp_count c).
Definition ctx_set_bps (evs : list Z) (c : dbell_ctx) : dbell_ctx :=
  DbellCtx (x_tag c) (x_slot_idx c) evs (x_nv c) (x_shadow_page c) (x_shadow_kva c)
    (x_user_va c) (x_doorbell_iomap c) (x_owner c) (x_bp_count c).
Definition ctx_set_shadow (page kva : Z) (c : dbell_ctx) : dbell_ctx :=
  DbellCtx (x_tag c) (x_slot_idx c) (x_bp_events c) (x_nv c) page kva
    (x_user_va c) (x_doorbell_iomap c) (x_owner c) (x_bp_count c).
Definition ctx_set_iomap (io : Z) (c : dbell_ctx) : dbell_ctx :=
  DbellCtx (x_tag c) (x_slot_idx c) (x_bp_events c) (x_nv c) (x_shadow_page c) (x_shadow_kva c)
    (x_user_va c) io (x_owner c) (x_bp_count c).

Definition mod_ctx (f : dbell_ctx → dbell_ctx) (ctxp : Z) : prog keff dstate unit :=
  modify (λ s, set_ctxs (alter f ctxp (d_ctxs s)) s).

Definition nv_dbell_claim_slot (ctxp : Z) : prog keff dstate Z :=
  slots ← gets d_slots;
  match list_find (λ sl, sl_claimed sl = false) slots with
  | Some (i, _) =>
      modify (set_slots (<[i := DbellSlot true ctxp]> slots));;
      mod_ctx (ctx_set_slot (Z.of_nat i)) ctxp;;
      mret (Z.of_nat i)
  | None => mret (-1)
  end.

Definition nv_dbell_release_slot (ctx : dbell_ctx) : prog keff dstate unit :=
  let i := x_slot_idx ctx in
  if i <? Z.of_nat NV_DBELL_SLOTS then
    modify (λ s, set_slots (<[Z.to_nat i := DbellSlot false NULL]> (d_slots s)) s)
  else skip.

(** [kfree(ctx)]: the object is gone. *)
Definition free_ctx (ctxp : Z) : prog keff dstate unit :=
  modify (λ s, set_ctxs (delete ctxp (d_ctxs s)) s);; kfree ctxp.

(** ** The GPL shim: breakpoint registration *)
Definition IS_ERR (p : Z) : bool := 2 ^ 64 - 4095 <=? p.
Definition PTR_ERR (p : Z) : Z := p - 2 ^ 64.

Section shim.
(** [usable] is NV_DBELL_HW_BREAKPOINT_USABLE;
    [register_user_hw_breakpoint task va ctx] is the kernel's answer. *)
Context (usable : bool) (register_user_hw_breakpoint : Z → Z → Z → Z).

(** The return code and [*out_event], null when it is not written. *)
Definition nv_dbell_bp_register (task user_va cb ctxp out_event : Z) : prog keff dstate (Z * Z) :=
  if usable then
    if (task =? NULL) || (cb =? NULL) || (out_event =? NULL) then mret (- EINVAL, NULL)
    else
      let event := register_user_hw_breakpoint task user_va ctxp in
      if IS_ERR event then mret (PTR_ERR event, NULL)
      else
        tell (if event =? NULL then [] else [KAcq (RBp event)]);;
        mret (0, event)
  else mret (- ENOSYS, NULL).

Definition nv_dbell_bp_unregister (event : Z) : prog keff dstate unit :=
  if usable then
    if negb (event =? NULL) && negb (IS_ERR event) then tell [KRel (RBp event)] else skip
  else skip.

Definition nv_dbell_unregister_bps (ctxp : Z) (evs : list Z) : prog keff dstate unit :=
  for_each (λ ev, if negb (ev =? NULL) then nv_dbell_bp_unregister ev else skip) evs;;
  mod_ctx (ctx_set_bps []) ctxp.

(** ** Arming: one breakpoint per thread *)
Context (mask : Z) (pid_of : Z → Z).

(** Addresses of the handler and of the local variable [ev]. *)
Definition DB_HANDLER : Z := 0xdb.
Definition EV_SLOT : Z := 0xe7.

Fixpoint arm_loop (ctxp va : Z) (threads installed : list Z) : prog keff dstate (list Z) :=
  match threads with
  | [] => mret installed
  | t :: threads =>
      if (NV_DBELL_MAX_BP_PER_CTX <=? length installed)%nat then mret installed
      else
        tell [KAcq (RTask t)];;
        r ← nv_dbell_bp_register t va DB_HANDLER ctxp EV_SLOT;
        let '(ret, ev) := r in
        let ok := (ret =? 0) && negb (ev =? NULL) in
        when (negb ok) (MC_TRACE mask dbell "bp_register"
                          [("tid", FDec (pid_of t)); ("ret", FDec ret)]);;
        tell [KRel (RTask t)];;
        arm_loop ctxp va threads (if ok then installed ++ [ev] else installed)
  end.

Definition nv_dbell_arm_threads (ctxp : Z) (vma : vm_area) (threads : list Z)
    : prog keff dstate Z :=
  installed ← arm_loop ctxp (u64 (vm_start vma + NV_DBELL_OFFSET)) threads [];
  mod_ctx (ctx_set_bps installed) ctxp;;
  if (length installed =? 0)%nat then
    MC_TRACE mask dbell "no_breakpoints" [];;
    mret (- ENOMEM)
  else mret 0.

(** ** The mmap hook *)
(** [usermode_disable] is nv_dbell_disable_intercept; the others are the
    kernel's answers during the call and the calling process. *)
Record mmap_env : Type := MmapEnv {
  me_disable_intercept : Z;
  me_kzalloc : Z;
  me_alloc_page : Z;
  me_page_address : Z → Z;
  me_ioremap : Z → Z → Z;
  me_vm_insert_page : Z → Z → Z;
  me_current : Z;
  me_threads : list Z
}.
Context (env : mmap_env).

Definition VM_SHADOW_FLAGS : Z := Z.lor (Z.lor 0x10000000 0x00040000) 0x00020000.

(** [for (addr = vm_start; addr < vm_end; addr += PAGE_SIZE)]; the result is the
    first non-zero return code, 0 if none. *)
Fixpoint insert_pages (fuel : nat) (vm_end page addr : Z) : prog keff dstate Z :=
  if addr <? vm_end then
    match fuel with
    | O => mret 0
    | S fuel =>
        let ret := me_vm_insert_page env addr page in
        if negb (ret =? 0) then
          MC_TRACE mask dbell "vm_insert_fail" [("addr", FHex addr); ("ret", FDec ret)];;
          mret ret
        else
          tell [KInsertPage addr page];;
          insert_pages fuel vm_end page (u64 (addr + PAGE_SIZE))
    end
  else mret 0.

(** The [fail:] label. *)
Definition intercept_fail (ctxp ret : Z) : prog keff dstate Z :=
  ctxs ← gets d_ctxs;
  match ctxs !! ctxp with
  | None => tell [KFault ctxp];; mret ret
  | Some ctx =>
      nv_dbell_unregister_bps ctxp (x_bp_events ctx);;
      when (negb (x_doorbell_iomap ctx =? NULL)) (tell [KRel (RIomap (x_doorbell_iomap ctx))]);;
      nv_dbell_release_slot ctx;;
      when (negb (x_shadow_page ctx =? NULL)) (tell [KRel (RPage (x_shadow_page ctx))]);;
      free_ctx ctxp;;
      mret ret
  end.

(** kzalloc and the initialisation of the context. *)
Definition ctx_init (nv va owner : Z) : dbell_ctx :=
  DbellCtx NV_DBELL_VMA_TAG 0 [] nv NULL NULL va NULL owner 0.

(** From the page to the breakpoints; a non-zero result goes to [fail:]. *)
Definition intercept_install (ctxp bar_pa : Z) (vma : vm_area) : prog keff dstate Z :=
  let page := me_alloc_page env in
  if page =? NULL then mret (- ENOMEM)
  else
    tell [KAcq (RPage page)];;
    mod_ctx (ctx_set_shadow page (me_page_address env page)) ctxp;;
    let io := me_ioremap env (u64 (bar_pa + NV_DBELL_OFFSET)) 4 in
    if io =? NULL then
      MC_TRACE mask dbell "ioremap_fail" [("bar0_pa", FHex bar_pa)];;
      mret (- ENOMEM)
    else
      tell [KAcq (RIomap io)];;
      mod_ctx (ctx_set_iomap io) ctxp;;
      tell [KVmFlags (vma_ptr vma) VM_SHADOW_FLAGS];;
      ret ← insert_pages 16 (vm_end vma) page (vm_start vma);
      if negb (ret =? 0) then mret ret
      else nv_dbell_arm_threads ctxp vma (me_threads env).

(** [ranges] are the start addresses of [mmap_context->memArea.pRanges]. *)
Definition nv_dbell_intercept_mmap (nv : Z) (vma : vm_area) (ranges : list Z)
    : prog keff dstate Z :=
  if negb (me_disable_intercept env =? 0) then mret 0
  else
    match ranges with
    | [bar_pa] =>
      if negb (NV_VMA_SIZE vma =? NV_DBELL_REGION_SIZE) then mret 0
      else
        let ctxp := me_kzalloc env in
        if ctxp =? NULL then mret (- ENOMEM)
        else
          tell [KAcq (RMem ctxp)];;
          modify (λ s, set_ctxs (<[ctxp := ctx_init nv (vm_start vma) (me_current env)]>
                                   (d_ctxs s)) s);;
          slot ← nv_dbell_claim_slot ctxp;
          if slot <? 0 then
            MC_TRACE mask dbell "slots_full"
              [("pass_through", FDec 1); ("pid", FDec (pid_of (me_current env)));
               ("bar0_pa", FHex bar_pa)];;
            free_ctx ctxp;;
            mret 0
          else
            ret ← intercept_install ctxp bar_pa vma;
            if negb (ret =? 0) then intercept_fail ctxp ret
            else
              modify (λ s, set_priv (<[vma_ptr vma := ctxp]> (d_priv s)) s);;
              s ← get;
              MC_TRACE mask dbell "armed"
                [("slot", FDec slot); ("pid", FDec (pid_of (me_current env)));
                 ("bps", FDec (match d_ctxs s !! ctxp with
                               | Some c => Z.of_nat (length (x_bp_events c))
                               | None => 0 end));
                 ("user_va", FHex (vm_start vma)); ("bar0_pa", FHex bar_pa)];;
              mret 1
    | _ => mret 0
    end.

(** ** Release with the VMA *)

(** [first_word p] is the first word of a private-data object that is not a
    context: an [nv_alloc_t]. *)
Context (first_word : Z → Z).

Definition priv_of (vma : Z) (s : dstate) : Z := default NULL (d_priv s !! vma).

Definition tag_of (p : Z) (s : dstate) : Z :=
  match d_ctxs s !! p with Some c => x_tag c | None => first_word p end.

Definition nv_dbell_is_watched_vma (vma : Z) (s : dstate) : bool :=
  negb (priv_of vma s =? NULL) && (tag_of (priv_of vma s) s =? NV_DBELL_VMA_TAG).

(** The forensic dump of the shadow page: at most 32 non-zero dwords. *)
Fixpoint shadow_scan (mem : Z → Z) (slot base : Z) (fuel : nat) (off nonzero : Z)
    : prog keff dstate Z :=
  match fuel with
  | O => mret nonzero
  | S fuel =>
      tell [KRead (base + 4 * off) 4];;
      let v := read32 mem (base + 4 * off) in
      if negb (v =? 0) then
        MC_TRACE mask dbell "shadow"
          [("state", FStr "nonzero"); ("slot", FDec slot); ("off", FHex (off * 4)); ("val", FHex v)];;
        if 32 <=? nonzero + 1 then
          MC_TRACE mask dbell "shadow" [("state", FStr "nonzero_truncated")];;
          mret (nonzero + 1)
        else shadow_scan mem slot base fuel (off + 1) (nonzero + 1)
      else shadow_scan mem slot base fuel (off + 1) nonzero
  end.

Definition shadow_dump (mem : Z → Z) (ctx : dbell_ctx) : prog keff dstate unit :=
  if negb (x_shadow_kva ctx =? NULL) then
    nonzero ← shadow_scan mem (x_slot_idx ctx) (x_shadow_kva ctx) 1024 0 0;
    when (nonzero =? 0)
      (MC_TRACE mask dbell "shadow" [("state", FStr "all_zero"); ("slot", FDec (x_slot_idx ctx))])
  else skip.

Definition nv_dbell_vma_release (mem : Z → Z) (vma : Z) : prog keff dstate unit :=
  s ← get;
  let ctxp := priv_of vma s in
  if negb (nv_dbell_is_watched_vma vma s) then skip
  else
    match d_ctxs s !! ctxp with
    | None => tell [KFault ctxp]
    | Some ctx =>
        MC_TRACE mask dbell "release"
          [("slot", FDec (x_slot_idx ctx)); ("count", FDec (x_bp_count ctx))];;
        shadow_dump mem ctx;;
        nv_dbell_unregister_bps ctxp (x_bp_events ctx);;
        when (negb (x_doorbell_iomap ctx =? NULL))
          (tell [KRel (RIomap (x_doorbell_iomap ctx))];; mod_ctx (ctx_set_iomap NULL) ctxp);;
        nv_dbell_release_slot ctx;;
        when (negb (x_shadow_page ctx =? NULL))
          (tell [KRel (RPage (x_shadow_page ctx))];; mod_ctx (ctx_set_shadow NULL NULL) ctxp);;
        modify (λ s, set_priv (<[vma := NULL]> (d_priv s)) s);;
        free_ctx ctxp
    end.
End shim.

(** * Theorems *)
Lemma mod_ctx_st f ctxp s :
  run_st (mod_ctx f ctxp) s = set_ctxs (alter f ctxp (d_ctxs s)) s.
Proof. reflexivity. Qed.

Lemma mod_ctx_eff f ctxp s : run_eff (mod_ctx f ctxp) s = [].
Proof. reflexivity. Qed.

Lemma run_st_mod_ctx {B} f ctxp (k : unit → prog keff dstate B) s :
  run_st (mod_ctx f ctxp ≫= k) s = run_st (k tt) (set_ctxs (alter f ctxp (d_ctxs s)) s).
Proof. unfold mod_ctx. by rewrite run_st_modify. Qed.

Lemma run_eff_mod_ctx {B} f ctxp (k : unit → prog keff dstate B) s :
  run_eff (mod_ctx f ctxp ≫= k) s = run_eff (k tt) (set_ctxs (alter f ctxp (d_ctxs s)) s).
Proof. unfold mod_ctx. by rewrite run_eff_modify. Qed.

#[export] Hint Rewrite mod_ctx_st mod_ctx_eff @run_st_mod_ctx @run_eff_mod_ctx : run.

(** The resources a context owns, besides its own memory. *)
Definition opt_res (r : Z → res) (p : Z) : list res := if p =? NULL then [] else [r p].

Definition ctx_res (c : dbell_ctx) : list res :=
  (RBp <$> x_bp_events c) ++ opt_res RIomap (x_doorbell_iomap c) ++ opt_res RPage (x_shadow_page c).

Definition bp_good (usable : bool) (ev : Z) : Prop :=
  usable = true ∧ ev ≠ NULL ∧ IS_ERR ev = false.

Definition ctx_good (usable : bool) (c : dbell_ctx) : Prop := Forall (bp_good usable) (x_bp_events c).

Lemma opt_res_rel r p h {S} (s : S) :
  res_goes (opt_res r p ++ h) (run_eff (when (negb (p =? NULL)) (tell [KRel (r p)])) s) h.
Proof. unfold opt_res. destruct (p =? NULL); [by apply res_goes_of|apply res_goes_rel]. Qed.

Lemma for_each_st_id {A S} (f : A → prog keff S unit) l s :
  (∀ x s, run_st (f x) s = s) → run_st (for_each f l) s = s.
Proof.
  intros Hf. induction l as [|x l IH]; [done|]. cbn [for_each]. rewrite run_st_bind, Hf. done.
Qed.

Section shim.
Context (usable : bool) (reg : Z → Z → Z → Z) (mask : Z) (pid_of : Z → Z).

Lemma unregister_bps_st ctxp evs s :
  run_st (nv_dbell_unregister_bps usable ctxp evs) s =
  set_ctxs (alter (ctx_set_bps []) ctxp (d_ctxs s)) s.
Proof.
  unfold nv_dbell_unregister_bps. rewrite run_st_bind, for_each_st_id; [done|].
  intros ev s'. unfold nv_dbell_bp_unregister. by repeat case_match.
Qed.

Lemma unregister_bps_res ctxp evs h s :
  Forall (bp_good usable) evs →
  res_goes ((RBp <$> evs) ++ h) (run_eff (nv_dbell_unregister_bps usable ctxp evs) s) h.
Proof.
  intros Hevs. unfold nv_dbell_unregister_bps. eapply res_goes_bind; [|by apply res_goes_of].
  induction Hevs as [|ev evs (Hu & Hnz & Herr) _ IH]; cbn [for_each fmap list_fmap app];
    [by apply res_goes_of|].
  eapply (res_goes_bind _ _ _ _ ((RBp <$> evs) ++ h)).
  - unfold nv_dbell_bp_unregister. rewrite Hu, Herr, (proj2 (Z.eqb_neq _ _) Hnz). apply res_goes_rel.
  - replace (run_st _ s) with s; [exact IH|]. unfold nv_dbell_bp_unregister. by repeat case_match.
Qed.

(** Tearing a context down: shared by the failure path and the release. *)
Lemma teardown_slot_st ctx s :
  0 ≤ x_slot_idx ctx < 4 →
  run_st (nv_dbell_release_slot ctx) s =
  set_slots (<[Z.to_nat (x_slot_idx ctx) := DbellSlot false NULL]> (d_slots s)) s.
Proof.
  intros Hi. unfold nv_dbell_release_slot. rewrite (proj2 (Z.ltb_lt _ _)); [done|].
  unfold NV_DBELL_SLOTS. lia.
Qed.

Lemma release_slot_neutral ctx : emits res_neutral (nv_dbell_release_slot ctx).
Proof. unfold nv_dbell_release_slot. emits_solve. Qed.

Lemma free_ctx_res ctxp h s :
  ctxp ≠ NULL → res_goes (RMem ctxp :: h) (run_eff (free_ctx ctxp) s) h.
Proof.
  intros Hnz. unfold free_ctx. autorewrite with run. unfold kfree.
  rewrite (proj2 (Z.eqb_neq _ _) Hnz). apply res_goes_rel.
Qed.

Lemma free_ctx_st ctxp s :
  run_st (free_ctx ctxp) s = set_ctxs (delete ctxp (d_ctxs s)) s.
Proof. unfold free_ctx. autorewrite with run. unfold run_st. by rewrite kfree_run. Qed.

Lemma intercept_fail_spec ctxp ret ctx s h :
  ctxp ≠ NULL → d_ctxs s !! ctxp = Some ctx → ctx_good usable ctx → 0 ≤ x_slot_idx ctx < 4 →
  let m := intercept_fail usable ctxp ret in
  run_val m s = ret ∧
  run_st m s = set_ctxs (delete ctxp (d_ctxs s))
    (set_slots (<[Z.to_nat (x_slot_idx ctx) := DbellSlot false NULL]> (d_slots s)) s) ∧
  res_goes (ctx_res ctx ++ RMem ctxp :: h) (run_eff m s) h.
Proof.
  intros Hc Hx Hg Hi m. unfold m, intercept_fail. split_and!.
  - rewrite run_val_bind. cbn. rewrite Hx. by rewrite !run_val_bind.
  - autorewrite with run. rewrite Hx, run_st_bind, unregister_bps_st.
    rewrite run_st_bind. replace (run_st (when _ _) _) with
      (set_ctxs (alter (ctx_set_bps []) ctxp (d_ctxs s)) s) by (by destruct (negb _)).
    rewrite run_st_bind, teardown_slot_st by done. rewrite run_st_bind.
    match goal with |- context [run_st (when ?b ?t) ?st] =>
      replace (run_st (when b t) st) with st by (by destruct b) end.
    rewrite run_st_bind, free_ctx_st. cbn [d_ctxs set_slots set_ctxs]. by rewrite delete_alter_eq.
  - autorewrite with run. rewrite Hx. unfold ctx_res. rewrite <-!app_assoc.
    eapply res_goes_bind; [by apply unregister_bps_res|].
    eapply res_goes_bind; [apply opt_res_rel|].
    eapply res_goes_bind_neutral; [apply release_slot_neutral|].
    eapply res_goes_bind; [apply opt_res_rel|].
    eapply res_goes_bind; [by apply free_ctx_res|]. by apply res_goes_of.
Qed.

Lemma bp_register_spec t va ctxp h s :
  let m := nv_dbell_bp_register usable reg t va DB_HANDLER ctxp EV_SLOT in
  let '(ret, ev) := run_val m s in
  run_st m s = s ∧
  ((ret =? 0) && negb (ev =? NULL) = true → bp_good usable ev) ∧
  res_goes h (run_eff m s) ((if (ret =? 0) && negb (ev =? NULL) then [RBp ev] else []) ++ h).
Proof.
  unfold nv_dbell_bp_register, run_val, run_st, run_eff.
  destruct usable eqn:Hu; [|by split_and!; [..|apply res_goes_of]].
  destruct (_ || _); [by split_and!; [..|apply res_goes_of]|].
  set (ev := reg t va ctxp). destruct (IS_ERR ev) eqn:He.
  - simpl. rewrite andb_false_r. by split_and!; [..|apply res_goes_of].
  - unfold mbind, prog_bind, tell. simpl. split_and!; [done| |].
    + intros Hnz. unfold bp_good. by apply negb_true_iff, Z.eqb_neq in Hnz.
    + destruct (ev =? NULL); simpl; [by apply res_goes_of|apply res_goes_acq].
Qed.

Lemma arm_loop_spec ctxp va threads installed h s :
  Forall (bp_good usable) installed →
  let m := arm_loop usable reg mask pid_of ctxp va threads installed in
  run_st m s = s ∧ Forall (bp_good usable) (run_val m s) ∧
  installed `prefix_of` run_val m s ∧
  (length installed ≤ NV_DBELL_MAX_BP_PER_CTX → length (run_val m s) ≤ NV_DBELL_MAX_BP_PER_CTX)%nat ∧
  res_goes ((RBp <$> installed) ++ h) (run_eff m s) ((RBp <$> run_val m s) ++ h).
Proof.
  revert installed s. induction threads as [|t ts IH]; intros installed s Hi; cbn [arm_loop].
  { split_and!; [done|done|done|done|by apply res_goes_of]. }
  destruct (_ <=? _)%nat eqn:Hfull; [split_and!; [done|done|done|done|by apply res_goes_of]|].
  apply Nat.leb_gt in Hfull.
  pose proof (bp_register_spec t va ctxp (RTask t :: (RBp <$> installed) ++ h) s) as Hr. cbv zeta in Hr.
  set (r := nv_dbell_bp_register _ _ _ _ _ _ _) in *. destruct (run_val r s) as [ret ev] eqn:Hrv.
  destruct Hr as (Hst & Hgood & Hres). set (ok := (ret =? 0) && negb (ev =? NULL)) in *.
  specialize (IH (if ok then installed ++ [ev] else installed) s).
  set (rest := arm_loop _ _ _ _ _ _ ts _) in *.
  assert (∀ b ms, run_st (when (S:=dstate) b (MC_TRACE mask dbell "bp_register" ms)) s = s) as Htr.
  { intros [] ms; [apply mc_trace_st|done]. }
  destruct IH as (IH1 & IH2 & IH3 & IH4 & IH5).
  { destruct ok; [|done]. apply Forall_app. split; [done|]. apply Forall_singleton. auto. }
  cbv zeta. match goal with |- run_st ?p _ = _ ∧ _ => assert (run_val p s = run_val rest s ∧ run_st p s = s) as [Hv Hs] end.
  { autorewrite with run. rewrite !run_val_bind, !run_st_bind. cbn [run_val tell fst].
    change (run_st (tell _) s) with s. rewrite Hrv, Hst. cbv iota beta. fold ok.
    rewrite !run_val_bind, !run_st_bind, Htr. done. }
  rewrite Hv, Hs. split_and!; [done|done| | |].
  - etrans; [|exact IH3]. destruct ok; [by apply prefix_app_r|done].
  - intros _. apply IH4. destruct ok; rewrite ?length_app; simpl; lia.
  - eapply res_goes_bind; [apply res_goes_acq|]. change (run_st (tell _) s) with s.
    eapply res_goes_bind; [exact Hres|]. rewrite Hrv, Hst. cbv iota beta. fold ok.
    eapply res_goes_bind_neutral; [apply emits_when, mc_trace_res_neutral|]. rewrite Htr.
    eapply (res_goes_bind _ _ _ _ ((RBp <$> (if ok then installed ++ [ev] else installed)) ++ h)).
    + destruct ok; cbn [app]; [rewrite fmap_app|apply res_goes_rel].
      cbn [fmap list_fmap]. rewrite Permutation_swap, <-app_assoc, Permutation_middle. apply res_goes_rel.
    + exact IH5.
Qed.

Context (env : mmap_env).

Lemma insert_pages_spec fuel vend page addr :
  emits res_neutral (insert_pages mask env fuel vend page addr) ∧
  ∀ s, run_st (insert_pages mask env fuel vend page addr) s = s.
Proof.
  revert addr. induction fuel as [|fuel IH]; intros addr; cbn [insert_pages];
    (destruct (addr <? vend); [|by split; [apply emits_ret|]]); [by split; [apply emits_ret|]|].
  destruct (negb _).
  - split; [emits_solve|]. intros s. by autorewrite with run.
  - split; [apply emits_bind; [apply emits_tell; by constructor|intros _; apply IH]|].
    intros s. autorewrite with run. apply IH.
Qed.

Lemma insert_pages_val fuel vend page addr s :
  (∀ a p, me_vm_insert_page env a p ≤ 0) → run_val (insert_pages mask env fuel vend page addr) s ≤ 0.
Proof.
  intros Hins. revert addr s. induction fuel as [|fuel IH]; intros addr s; cbn [insert_pages];
    (destruct (addr <? vend); [|done]); [done|].
  destruct (negb _); rewrite run_val_bind; [apply Hins|apply IH].
Qed.

(** The fields of a context no later step of the hook changes. *)
Definition ctx_same_base (c c' : dbell_ctx) : Prop :=
  x_tag c' = x_tag c ∧ x_slot_idx c' = x_slot_idx c ∧ x_nv c' = x_nv c ∧
  x_user_va c' = x_user_va c ∧ x_owner c' = x_owner c ∧ x_bp_count c' = x_bp_count c.

(** A context with everything the handler needs. *)
Definition ctx_armed (c : dbell_ctx) : Prop :=
  x_shadow_page c ≠ NULL ∧ x_shadow_kva c = me_page_address env (x_shadow_page c) ∧
  x_doorbell_iomap c ≠ NULL ∧ x_bp_events c ≠ [] ∧
  (length (x_bp_events c) ≤ NV_DBELL_MAX_BP_PER_CTX)%nat.

(** A state with context [c] at [ctxp]. *)
Definition put_ctx (ctxp : Z) (c : dbell_ctx) (s : dstate) : dstate :=
  set_ctxs (<[ctxp := c]> (d_ctxs s)) s.

Lemma put_ctx_alter f ctxp c s :
  set_ctxs (alter f ctxp (d_ctxs (put_ctx ctxp c s))) (put_ctx ctxp c s) = put_ctx ctxp (f c) s.
Proof. unfold put_ctx. cbn [d_ctxs set_ctxs]. by rewrite alter_insert_eq. Qed.

Lemma put_ctx_lookup ctxp c s : d_ctxs (put_ctx ctxp c s) !! ctxp = Some c.
Proof. apply lookup_insert_eq. Qed.

Lemma arm_threads_spec ctxp vma c h s :
  let m := nv_dbell_arm_threads usable reg mask pid_of ctxp vma (me_threads env) in
  let s0 := put_ctx ctxp c s in
  ∃ evs, run_st m s0 = put_ctx ctxp (ctx_set_bps evs c) s ∧
    Forall (bp_good usable) evs ∧ (length evs ≤ NV_DBELL_MAX_BP_PER_CTX)%nat ∧
    (run_val m s0 = 0 ∧ evs ≠ [] ∨ run_val m s0 = - ENOMEM ∧ evs = []) ∧
    res_goes h (run_eff m s0) ((RBp <$> evs) ++ h).
Proof.
  intros m s0. unfold m, nv_dbell_arm_threads.
  destruct (arm_loop_spec ctxp (u64 (vm_start vma + NV_DBELL_OFFSET)) (me_threads env) [] h s0)
    as (H1 & H2 & _ & H4 & H5); [done|]. cbn [fmap list_fmap app] in H5.
  set (l := arm_loop _ _ _ _ _ _ _ _) in *. exists (run_val l s0).
  rewrite run_st_bind, run_val_bind, H1. autorewrite with run. rewrite run_val_bind, mod_ctx_st.
  assert (∀ f, set_ctxs (alter f ctxp (d_ctxs s0)) s0 = put_ctx ctxp (f c) s) as Hput
    by (intros; apply put_ctx_alter).
  rewrite Hput. split_and!; [|done| | |].
  - destruct (_ =? 0)%nat; by autorewrite with run.
  - apply H4. simpl. unfold NV_DBELL_MAX_BP_PER_CTX. lia.
  - destruct (run_val l s0) as [|ev evs] eqn:He; cbn [length Nat.eqb].
    + right. by rewrite run_val_bind.
    + by left.
  - eapply res_goes_bind; [exact H5|]. rewrite H1. autorewrite with run.
    destruct (_ =? 0)%nat; [|by apply res_goes_of].
    eapply res_goes_bind_neutral; [eauto with eff|by apply res_goes_of].
Qed.

Lemma wp_mod_ctx f ctxp c s h Q :
  Q tt (put_ctx ctxp (f c) s) h → wp (mod_ctx f ctxp) (put_ctx ctxp c s) h Q.
Proof. intros HQ. unfold mod_ctx. apply wp_modify. by rewrite put_ctx_alter. Qed.

Lemma install_spec ctxp bar_pa vma c h s :
  (∀ a p, me_vm_insert_page env a p ≤ 0) →
  x_bp_events c = [] → x_doorbell_iomap c = NULL → x_shadow_page c = NULL →
  wp (intercept_install usable reg mask pid_of env ctxp bar_pa vma) (put_ctx ctxp c s) h
    (λ ret s' h', ∃ c', s' = put_ctx ctxp c' s ∧ ctx_same_base c c' ∧ ctx_good usable c' ∧
       ret ≤ 0 ∧ (ret = 0 → ctx_armed c') ∧ h' ≡ₚ ctx_res c' ++ h).
Proof.
  intros Hins Hb Hio Hpg. unfold intercept_install. destruct (_ =? NULL) eqn:Hp.
  { wp_steps. exists c. unfold ctx_good, ctx_res. by rewrite Hb, Hio, Hpg. }
  wp_steps. apply wp_mod_ctx. destruct (me_ioremap _ _ _ =? NULL) eqn:Hi.
  { wp_steps. eexists. split_and!; [done|done|..].
    - unfold ctx_good. simpl. by rewrite Hb.
    - by unfold ENOMEM.
    - done.
    - unfold ctx_res, opt_res. simpl. by rewrite Hb, Hio, Hp. }
  wp_steps. apply wp_mod_ctx. apply wp_bind. eapply wp_pure; [by apply emits_tell; constructor|done|].
  destruct (insert_pages_spec 16 (vm_end vma) (me_alloc_page env) (vm_start vma)) as [Hin Hst].
  apply wp_bind. eexists. split; [apply res_goes_neutral, Hin|]. rewrite Hst.
  set (c2 := ctx_set_iomap _ _).
  assert (∀ evs, ctx_res (ctx_set_bps evs c2) =
            (RBp <$> evs) ++ [RIomap (x_doorbell_iomap c2); RPage (x_shadow_page c2)]) as Hres.
  { intros evs. unfold ctx_res, opt_res, c2. simpl. by rewrite Hp, Hi. }
  assert (c2 = ctx_set_bps [] c2) as E2 by (unfold c2, ctx_set_bps, ctx_set_iomap, ctx_set_shadow; simpl; by rewrite Hb).
  destruct (negb _) eqn:Hr.
  { wp_steps. exists c2. split_and!; [done|done|..].
    - unfold ctx_good. by rewrite E2.
    - by apply insert_pages_val.
    - intros E. by rewrite E in Hr.
    - rewrite E2, Hres. done. }
  destruct (arm_threads_spec ctxp vma c2 (RIomap (x_doorbell_iomap c2) :: RPage (x_shadow_page c2) :: h) s)
    as (evs & Hst' & Hg & Hlen & Hv & Hr').
  eexists. split; [exact Hr'|]. exists (ctx_set_bps evs c2). rewrite Hst'. split_and!; [done|done|done|..].
  - unfold ENOMEM in Hv. lia.
  - intros E. rewrite E in Hv. unfold ctx_armed. simpl. apply Z.eqb_neq in Hp, Hi.
    destruct Hv as [[_ ?]|[E' _]]; [done|by unfold ENOMEM in E'].
  - by rewrite Hres, <-app_assoc.
Qed.

(** The slot table: four slots, an unclaimed one holds no context. *)
Definition slots_wf (slots : list dbell_slot) : Prop :=
  length slots = NV_DBELL_SLOTS ∧ Forall (λ sl, sl_claimed sl = false → sl_ctx sl = NULL) slots.

(** What the hook leaves behind when it returns 1. *)
Definition intercepted (ctxp nv : Z) (vma : vm_area) (i : nat) (c : dbell_ctx) (s s' : dstate) : Prop :=
  (i < NV_DBELL_SLOTS)%nat ∧ d_slots s !! i = Some (DbellSlot false NULL) ∧
  s' = set_priv (<[vma_ptr vma := ctxp]> (d_priv s))
         (put_ctx ctxp c (set_slots (<[i := DbellSlot true ctxp]> (d_slots s)) s)) ∧
  ctx_same_base (ctx_set_slot (Z.of_nat i) (ctx_init nv (vm_start vma) (me_current env))) c ∧
  ctx_good usable c ∧ ctx_armed c.

Lemma put_delete ctxp c s :
  d_ctxs s !! ctxp = None → set_ctxs (delete ctxp (d_ctxs (put_ctx ctxp c s))) (put_ctx ctxp c s) = s.
Proof. intros Hx. unfold put_ctx. cbn [d_ctxs set_ctxs]. rewrite delete_insert_id by done. by destruct s. Qed.

Lemma wp_free_ctx ctxp c s h h' Q :
  ctxp ≠ NULL → d_ctxs s !! ctxp = None → h ≡ₚ RMem ctxp :: h' → Q tt s h' →
  wp (free_ctx ctxp) (put_ctx ctxp c s) h Q.
Proof.
  intros Hc Hx Hh HQ. exists h'. rewrite free_ctx_st, put_delete, Hh by done.
  split; [by apply free_ctx_res|]. by destruct (run_val _ _).
Qed.

Lemma claim_slot_spec ctxp c s h :
  slots_wf (d_slots s) →
  wp (nv_dbell_claim_slot ctxp) (put_ctx ctxp c s) h
    (λ v s' h', h' = h ∧
       (v = -1 ∧ s' = put_ctx ctxp c s ∨
        ∃ i, v = Z.of_nat i ∧ (i < NV_DBELL_SLOTS)%nat ∧
          d_slots s !! i = Some (DbellSlot false NULL) ∧
          s' = put_ctx ctxp (ctx_set_slot (Z.of_nat i) c)
                 (set_slots (<[i := DbellSlot true ctxp]> (d_slots s)) s))).
Proof.
  intros [Hlen Hwf]. unfold nv_dbell_claim_slot. wp_steps. cbn [d_slots put_ctx set_ctxs].
  destruct (list_find _ _) as [[i sl]|] eqn:Hf; wp_steps; [|by split; [|left]].
  apply scan_lookup in Hf as [Hi Hsl]. rewrite Forall_lookup in Hwf. specialize (Hwf i sl Hi Hsl).
  assert (i < length (d_slots s))%nat by (by eapply lookup_lt_Some).
  apply (wp_mod_ctx _ _ _ (set_slots (<[i := DbellSlot true ctxp]> (d_slots s)) s)). wp_steps.
  split; [done|]. right. exists i. destruct sl as [b x]. simpl in *. subst.
  split_and!; [done|lia|done|done].
Qed.

Lemma fail_restores ctxp c i s :
  d_ctxs s !! ctxp = None → d_slots s !! i = Some (DbellSlot false NULL) →
  let s1 := put_ctx ctxp c (set_slots (<[i := DbellSlot true ctxp]> (d_slots s)) s) in
  set_ctxs (delete ctxp (d_ctxs s1)) (set_slots (<[i := DbellSlot false NULL]> (d_slots s1)) s1) = s.
Proof.
  intros Hx Hi s1. unfold s1, put_ctx. cbn [d_ctxs d_slots set_ctxs set_slots].
  rewrite delete_insert_id, insert_restore by done. by destruct s.
Qed.

Lemma intercept_spec nv vma ranges s h :
  d_ctxs s !! me_kzalloc env = None → slots_wf (d_slots s) →
  (∀ a p, me_vm_insert_page env a p ≤ 0) →
  wp (nv_dbell_intercept_mmap usable reg mask pid_of env nv vma ranges) s h
    (λ ret s' h',
       (ret = 1 ∧ ∃ i c, intercepted (me_kzalloc env) nv vma i c s s' ∧
          h' ≡ₚ ctx_res c ++ RMem (me_kzalloc env) :: h) ∨
       (ret ≤ 0 ∧ s' = s ∧ h' ≡ₚ h)).
Proof.
  intros Hx Hwf Hins. unfold nv_dbell_intercept_mmap. destruct (negb _); [wp_steps; by right|].
  destruct ranges as [|bar_pa [|]]; [wp_steps; by right| |wp_steps; by right].
  destruct (negb _); [wp_steps; by right|]. set (ctxp := me_kzalloc env) in *.
  destruct (ctxp =? NULL) eqn:Hc; [wp_steps; right; by unfold ENOMEM|]. apply Z.eqb_neq in Hc.
  wp_steps. eapply wp_mono; [by apply (claim_slot_spec ctxp (ctx_init nv (vm_start vma) (me_current env)) s)|].
  cbv beta. intros v s' h' [-> [[-> ->]|(i & -> & Hi & Hsl & ->)]].
  { cbn [Z.ltb Z.compare]. wp_steps. apply (wp_free_ctx _ _ _ _ h); [done|done|done|].
    wp_steps. by right. }
  rewrite (proj2 (Z.ltb_ge _ _)) by lia. apply wp_bind.
  eapply wp_mono; [by apply install_spec|]. cbv beta.
  intros ret s' h' (c' & -> & Hbase & Hgood & Hret & Harm & Hh').
  destruct (negb (ret =? 0)) eqn:Hr.
  - destruct Hbase as (_ & Hidx & _). cbn [x_slot_idx ctx_set_slot] in Hidx.
    set (s1 := put_ctx _ _ _).
    destruct (intercept_fail_spec ctxp ret c' s1 h) as (Hv & Hst & Hres);
      [done|apply put_ctx_lookup|done|unfold NV_DBELL_SLOTS in Hi; lia|].
    exists h. rewrite Hv, Hst, Hh'. split; [exact Hres|]. right. split_and!; [lia| |done].
    rewrite Hidx, Nat2Z.id. by apply fail_restores.
  - apply negb_false_iff, Z.eqb_eq in Hr. wp_steps. left. split; [done|]. exists i, c'.
    split; [|done]. split_and!; [done..|]. auto.
Qed.

Context (first_word : Z → Z).

Lemma shadow_scan_pure mem slot base fuel off nz :
  emits res_neutral (shadow_scan mask mem slot base fuel off nz) ∧
  ∀ s, run_st (shadow_scan mask mem slot base fuel off nz) s = s.
Proof.
  revert off nz. induction fuel as [|fuel IH]; intros off nz; cbn [shadow_scan];
    [by split; [apply emits_ret|]|].
  split; [|intros s; autorewrite with run; repeat (case_match; autorewrite with run); auto; apply IH].
  apply emits_bind; [apply emits_tell; by constructor|intros _].
  repeat (case_match || apply IH || (apply emits_bind; [eauto with eff|intros _])); apply emits_ret.
Qed.

Lemma shadow_dump_pure mem c :
  emits res_neutral (shadow_dump mask mem c) ∧ ∀ s, run_st (shadow_dump mask mem c) s = s.
Proof.
  unfold shadow_dump. destruct (negb _); [|by split; [apply emits_skip|]].
  destruct (shadow_scan_pure mem (x_slot_idx c) (x_shadow_kva c) 1024 0 0) as [He Hs]. split.
  - apply emits_bind; [done|]. intros ?. apply emits_when. eauto with eff.
  - intros s. rewrite run_st_bind, Hs. destruct (_ =? 0); [apply mc_trace_st|done].
Qed.

Lemma put_ctx_id ctxp c s : d_ctxs s !! ctxp = Some c → put_ctx ctxp c s = s.
Proof. intros Hx. unfold put_ctx. rewrite insert_id by done. by destruct s. Qed.

(** Drop an optional resource and clear the field that held it. *)
Lemma wp_drop r p f ctxp c s h Q :
  (∀ c', (p = NULL → c' = c) → (p ≠ NULL → c' = f c) → Q tt (put_ctx ctxp c' s) h) →
  wp (when (negb (p =? NULL)) (tell [KRel (r p)];; mod_ctx f ctxp)) (put_ctx ctxp c s)
    (opt_res r p ++ h) Q.
Proof.
  intros HQ. unfold opt_res. destruct (p =? NULL) eqn:Hp.
  - apply Z.eqb_eq in Hp. apply wp_skip. by apply (HQ c).
  - apply Z.eqb_neq in Hp. apply wp_bind. apply (wp_rel _ _ _ h); [done|]. apply wp_mod_ctx.
    by apply (HQ (f c)).
Qed.

Lemma release_spec mem vma ctxp c s h :
  d_ctxs s !! ctxp = Some c → priv_of vma s = ctxp → ctxp ≠ NULL →
  x_tag c = NV_DBELL_VMA_TAG → ctx_good usable c → 0 ≤ x_slot_idx c < 4 →
  wp (nv_dbell_vma_release usable mask first_word mem vma) s (ctx_res c ++ RMem ctxp :: h)
    (λ _ s' h', h' ≡ₚ h ∧
       s' = set_priv (<[vma := NULL]> (d_priv s))
              (set_ctxs (delete ctxp (d_ctxs s))
                 (set_slots (<[Z.to_nat (x_slot_idx c) := DbellSlot false NULL]> (d_slots s)) s))).
Proof.
  intros Hx Hpriv Hnz Htag Hg Hi. unfold nv_dbell_vma_release. wp_steps.
  unfold nv_dbell_is_watched_vma, tag_of. rewrite Hpriv, Hx, Htag, (proj2 (Z.eqb_neq _ _) Hnz).
  cbn [negb andb Z.eqb]. rewrite Z.eqb_refl. cbn [negb]. wp_steps.
  destruct (shadow_dump_pure mem c) as [He Hs]. apply wp_pure; [done..|].
  wp_steps. unfold ctx_res. rewrite <-!app_assoc.
  eexists. split; [by apply unregister_bps_res|]. rewrite unregister_bps_st.
  rewrite <-(put_ctx_id ctxp c s Hx) at 1 2. rewrite put_ctx_alter.
  apply wp_bind, wp_drop. intros c1 _ _. apply wp_bind.
  eapply wp_neutral; [apply release_slot_neutral|by apply teardown_slot_st|].
  set (s1 := set_slots (<[Z.to_nat (x_slot_idx c) := DbellSlot false NULL]> (d_slots s)) s).
  change (set_slots _ _) with (put_ctx ctxp c1 s1).
  apply wp_bind, wp_drop. intros c2 _ _. wp_steps.
  eexists. split; [by apply free_ctx_res|]. split; [done|]. rewrite free_ctx_st.
  unfold put_ctx, s1. cbn [d_ctxs d_priv set_priv set_ctxs set_slots]. by rewrite delete_insert_eq.
Qed.
End shim.

(** With [room] breakpoints left, arming succeeds on the next [room] threads. *)
Lemma arm_loop_all reg mask pid_of ctxp va threads installed s :
  (∀ t, t ∈ threads → t ≠ NULL ∧ reg t va ctxp ≠ NULL ∧ IS_ERR (reg t va ctxp) = false) →
  run_val (arm_loop true reg mask pid_of ctxp va threads installed) s =
  installed ++ ((λ t, reg t va ctxp) <$> take (NV_DBELL_MAX_BP_PER_CTX - length installed) threads).
Proof.
  revert installed s. induction threads as [|t ts IH]; intros installed s Hreg; cbn [arm_loop].
  { by rewrite take_nil, app_nil_r. }
  destruct (_ <=? _)%nat eqn:Hfull.
  { apply Nat.leb_le in Hfull. replace (_ - _)%nat with 0%nat by lia. by rewrite app_nil_r. }
  apply Nat.leb_gt in Hfull. destruct (Hreg t) as (Ht & Hnz & Herr); [left|].
  replace (NV_DBELL_MAX_BP_PER_CTX - length installed)%nat with
    (S (NV_DBELL_MAX_BP_PER_CTX - S (length installed))) by lia.
  unfold nv_dbell_bp_register. rewrite (proj2 (Z.eqb_neq _ _) Ht). cbn [orb Z.eqb].
  change (DB_HANDLER =? NULL) with false. change (EV_SLOT =? NULL) with false. cbn [orb].
  rewrite Herr, (proj2 (Z.eqb_neq _ _) Hnz).
  rewrite !run_val_bind. cbn [run_val mret prog_ret fst Z.eqb]. rewrite (proj2 (Z.eqb_neq _ _) Hnz).
  cbn [negb andb]. rewrite !run_val_bind, IH by (intros; apply Hreg; by right).
  cbn [take fmap list_fmap]. rewrite length_app, <-app_assoc. simpl.
  replace (length installed + 1)%nat with (S (length installed)) by lia. done.
Qed.

(** * Properties *)

(** C8: the mmap hook is all or nothing.  Either it returns 1 and the VMA owns
    an armed context (shadow page, doorbell mapping and at least one breakpoint)
    in a slot that was free, and what is held grows by exactly that context's
    resources; or it returns 0 or an error and neither the state nor the held
    resources have changed. *)
Theorem intercept_all_or_nothing usable reg mask pid_of env nv vma ranges s held
    (Hfresh : d_ctxs s !! me_kzalloc env = None) (Hslots : slots_wf (d_slots s))
    (Herrno : ∀ a p, me_vm_insert_page env a p ≤ 0) :
  let m := nv_dbell_intercept_mmap usable reg mask pid_of env nv vma ranges in
  (run_val m s = 1 ∧ ∃ i c,
     intercepted usable env (me_kzalloc env) nv vma i c s (run_st m s) ∧
     res_goes held (run_eff m s) (ctx_res c ++ RMem (me_kzalloc env) :: held)) ∨
  (run_val m s ≤ 0 ∧ run_st m s = s ∧ res_goes held (run_eff m s) held).
Proof.
  destruct (intercept_spec usable reg mask pid_of env nv vma ranges s held Hfresh Hslots Herrno)
    as (h' & Hres & [(Hv & i & c & Hint & Hh')|(Hv & Hst & Hh')]); rewrite Hh' in Hres.
  - left. split; [done|]. by exists i, c.
  - by right.
Qed.

Definition demo_mmap_env : mmap_env :=
  MmapEnv 0 0x40 0x33 (λ _, 0x800000) (λ _ _, 0xbb0090) (λ _ _, 0) 0x11 [0x11; 0x12].
Definition demo_window : vm_area := VmArea 0x70 0x7f0000000000 0x7f0000010000.

Lemma intercept_all_or_nothing_witness :
  let m := nv_dbell_intercept_mmap true (λ t _ _, 0x1000 + t) 0x1ff id demo_mmap_env 9 demo_window
             [0x1fc020030000] in
  run_val m dstate0 = 1 ∧
  ∃ i c, intercepted true demo_mmap_env 0x40 9 demo_window i c dstate0 (run_st m dstate0).
Proof.
  destruct (intercept_all_or_nothing true (λ t _ _, 0x1000 + t) 0x1ff id demo_mmap_env 9 demo_window
              [0x1fc020030000] dstate0 [] ltac:(reflexivity) ltac:(split; [reflexivity|repeat constructor])
              ltac:(done)) as [(Hv & i & c & Hint & _)|(Hv & _)].
  - split; [exact Hv|]. exists i, c. exact Hint.
  - exfalso. revert Hv. vm_compute. intros H. by apply H.
Defined.

(** Releasing the VMA undoes an interception completely: the slot is free
    again, the context is gone, the VMA's private data is null, and every
    resource the interception acquired is released, whatever the shadow page
    holds. *)
Theorem intercept_release_roundtrip usable reg mask pid_of env first_word mem nv vma ranges s held
    (Hfresh : d_ctxs s !! me_kzalloc env = None) (Hslots : slots_wf (d_slots s))
    (Herrno : ∀ a p, me_vm_insert_page env a p ≤ 0) (Hctx : me_kzalloc env ≠ NULL)
    (Hone : run_val (nv_dbell_intercept_mmap usable reg mask pid_of env nv vma ranges) s = 1) :
  let m := nv_dbell_intercept_mmap usable reg mask pid_of env nv vma ranges in
  let r := nv_dbell_vma_release usable mask first_word mem (vma_ptr vma) in
  let s' := run_st r (run_st m s) in
  d_slots s' = d_slots s ∧ d_ctxs s' = d_ctxs s ∧ priv_of (vma_ptr vma) s' = NULL ∧
  res_goes held (run_eff m s ++ run_eff r (run_st m s)) held.
Proof.
  destruct (intercept_spec usable reg mask pid_of env nv vma ranges s held Hfresh Hslots Herrno)
    as (h' & Hres & [(Hv & i & c & Hint & Hh')|(Hv & _)]); [|lia]. rewrite Hh' in Hres.
  destruct Hint as (Hi & Hsl & Hst & Hbase & Hgood & Harm).
  destruct Hbase as (Htag & Hidx & _). cbn in Hidx, Htag. unfold NV_DBELL_SLOTS in Hi.
  intros m r s'. fold m in Hst, Hres.
  destruct (release_spec usable mask first_word mem (vma_ptr vma) (me_kzalloc env) c (run_st m s) held)
    as (h'' & Hres' & Hh'' & Hst').
  - rewrite Hst. apply put_ctx_lookup.
  - rewrite Hst. unfold priv_of. cbn. by rewrite lookup_insert_eq.
  - done.
  - done.
  - done.
  - lia.
  - rewrite Hh'' in Hres'. fold r in Hst', Hres'.
    pose proof (res_goes_app _ _ _ _ _ Hres Hres') as Hall.
    unfold s'. split_and!; [..|exact Hall]; rewrite Hst', Hst; unfold put_ctx, priv_of;
      cbn [d_slots d_ctxs d_priv set_priv set_ctxs set_slots].
    + rewrite Hidx, Nat2Z.id. by apply insert_restore.
    + by rewrite delete_insert_id.
    + by rewrite lookup_insert_eq.
Qed.

Lemma intercept_release_roundtrip_witness :
  let m := nv_dbell_intercept_mmap true (λ t _ _, 0x1000 + t) 0x1ff id demo_mmap_env 9 demo_window
             [0x1fc020030000] in
  let r := nv_dbell_vma_release true 0x1ff (λ _, 0) (λ _, 0) 0x70 in
  run_val m dstate0 = 1 ∧
  d_slots (run_st r (run_st m dstate0)) = d_slots dstate0 ∧
  res_goes [] (run_eff m dstate0 ++ run_eff r (run_st m dstate0)) [].
Proof.
  split; [vm_compute; reflexivity|].
  pose proof (intercept_release_roundtrip true (λ t _ _, 0x1000 + t) 0x1ff id demo_mmap_env (λ _, 0)
           (λ _, 0) 9 demo_window [0x1fc020030000] dstate0 [] ltac:(reflexivity)
           ltac:(split; [reflexivity|repeat constructor]) ltac:(done) ltac:(done)
           ltac:(vm_compute; reflexivity)) as (H1 & _ & _ & H4).
  split; [exact H1|exact H4].
Defined.

(** when the kernel accepts every registration, arming installs one
    breakpoint on the doorbell dword for each thread of the process, in order,
    up to the 64 a context can record. *)
Theorem arm_threads_covers_process reg mask pid_of ctxp vma threads c s
    (Hreg : ∀ t, t ∈ threads →
       t ≠ NULL ∧ reg t (u64 (vm_start vma + NV_DBELL_OFFSET)) ctxp ≠ NULL ∧
       IS_ERR (reg t (u64 (vm_start vma + NV_DBELL_OFFSET)) ctxp) = false) :
  let m := nv_dbell_arm_threads true reg mask pid_of ctxp vma threads in
  d_ctxs (run_st m (put_ctx ctxp c s)) !! ctxp =
    Some (ctx_set_bps ((λ t, reg t (u64 (vm_start vma + NV_DBELL_OFFSET)) ctxp) <$>
                       take NV_DBELL_MAX_BP_PER_CTX threads) c) ∧
  (run_val m (put_ctx ctxp c s) = 0 ↔ threads ≠ []).
Proof.
  intros m. unfold m, nv_dbell_arm_threads. set (l := arm_loop _ _ _ _ _ _ _ _).
  set (s0 := put_ctx ctxp c s).
  assert (run_st l s0 = s0) as Hst
    by (by apply (arm_loop_spec true reg mask pid_of ctxp _ threads [] [])).
  assert (run_val l s0 = (λ t, reg t (u64 (vm_start vma + NV_DBELL_OFFSET)) ctxp) <$>
            take NV_DBELL_MAX_BP_PER_CTX threads) as Hv by (by apply arm_loop_all).
  rewrite run_st_bind, run_val_bind, Hst, Hv. autorewrite with run. rewrite run_val_bind.
  rewrite length_fmap, length_take. split.
  - destruct (_ =? 0)%nat; autorewrite with run; unfold s0; rewrite put_ctx_alter; apply put_ctx_lookup.
  - destruct threads as [|t ts]; [|by split].
    rewrite Nat.min_0_r. cbn [Nat.eqb]. rewrite run_val_bind. split; [intros E; change (- ENOMEM = 0) in E; by unfold ENOMEM in E|done].
Qed.

Lemma arm_threads_covers_process_witness :
  let m := nv_dbell_arm_threads true (λ t _ _, 0x1000 + t) 0x1ff id 0x40 demo_window [0x11; 0x12] in
  run_val m (put_ctx 0x40 (ctx_init 9 0 0) dstate0) = 0.
Proof.
  apply (arm_threads_covers_process (λ t _ _, 0x1000 + t) 0x1ff id 0x40 demo_window [0x11; 0x12]
           (ctx_init 9 0 0) dstate0); [|done].
  intros t Ht. apply elem_of_cons in Ht as [->|Ht]; [done|]. apply list_elem_of_singleton in Ht as ->. done.
Defined.
