(* ===== verification/DbellSystem.v ===== *)
(** * DbellSystem: every interleaving of the doorbell watchpoint's entry points

    The entry points of nv-doorbell-watch.c (mmap hooks, VMA releases, traps,
    channel registration) and the work queue's thread as one step relation on
    the driver state, and the invariants of its reachable states. *)
From stdpp Require Import base numbers list strings gmap relations.
From S2P Require Import Prelude Kernel Trackers KthreadQ DbellCache DbellHandler DbellVma.
#[local] Open Scope Z_scope.

(** ** What the state owns *)
Section owned.
Context {K A : Type} `{Countable K}.

Definition owned_map (f : K → A → list res) (m : gmap K A) : list res :=
  map_to_list m ≫= λ '(k, a), f k a.

Definition owned_list (f : A → list res) (l : list A) : list res := l ≫= f.
End owned.

Definition bar1_res (e : bar1_entry) : list res :=
  if b_vma e =? NULL then [] else opt_res RIomap (b_kernel_va e).
Definition sysmem_res (e : sysmem_entry) : list res :=
  if y_vma e =? NULL then [] else opt_res RVmap (y_kernel_va e).
Definition ctx_owned (p : Z) (c : dbell_ctx) : list res := ctx_res c ++ [RMem p].
Definition work_owned (alt : bool) (p : Z) (w : resolve_work) : list res := work_res alt p (w_sp w).

(** Every resource some pointer of the state leads to. *)
Definition owned (alt : bool) (s : dstate) : list res :=
  owned_map ctx_owned (d_ctxs s) ++ owned_list bar1_res (d_bar1 s) ++
  owned_list sysmem_res (d_sysmem s) ++ owned_map (work_owned alt) (d_works s).

(** ** The steps *)
Section steps.
(** The kernel and RM: ioremap, vmap, the page structure, the breakpoint
    facility, RM's channel lookup, the direct map and the memory at each step. *)
Context (mask : Z) (alt usable : bool)
  (ioremap_wc ioremap : Z → Z → Z)
  (kmalloc_array : Z → Z) (vm_map : list Z → Z → Z) (page_struct : Z → Z)
  (reg : Z → Z → Z → Z) (pid_of first_word : Z → Z)
  (rm_resolve : Z → Z → Z → resolve_out) (phys_to_virt : Z → Z).

(** A fresh allocation, or none. *)
Definition fresh_work (env : enq_env) (s : dstate) : Prop :=
  ee_altstack env = alt ∧ d_works s !! ee_kmalloc env = None.

Inductive dbell_step (s : dstate) : list keff → dstate → Prop :=
| step_bar1_add vma ps sz :
    vma_ptr vma ≠ NULL → 0 ≤ vm_start vma → 0 ≤ ps → 0 ≤ sz → ps + sz < 2 ^ 64 →
    vm_end vma - vm_start vma = sz →
    let m := zoom d_bar1 set_bar1 (nv_dbell_bar1_track_add mask ioremap_wc ioremap vma ps sz) in
    dbell_step s (run_eff m s) (run_st m s)
| step_bar1_remove vma :
    vma ≠ NULL →
    let m := nv_dbell_bar1_track_remove mask vma in
    dbell_step s (run_eff m s) (run_st m s)
| step_sysmem_add vma pt idx n :
    0 ≤ vm_start vma → 0 ≤ n → vm_end vma - vm_start vma = n * PAGE_SIZE →
    let m := zoom d_sysmem set_sysmem
               (nv_dbell_sysmem_track_add mask kmalloc_array vm_map page_struct vma pt idx n) in
    dbell_step s (run_eff m s) (run_st m s)
| step_sysmem_remove vma :
    vma ≠ NULL →
    let m := zoom d_sysmem set_sysmem (nv_dbell_sysmem_track_remove mask vma) in
    dbell_step s (run_eff m s) (run_st m s)
| step_pre_resolve env chid runlist nv :
    fresh_work env s →
    let m := nv_dbell_cache_pre_resolve mask env chid runlist nv in
    dbell_step s (run_eff m s) (run_st m s)
| step_trap env mem ctxp :
    fresh_work env s → is_Some (d_ctxs s !! ctxp) →
    let m := nv_dbell_db_handler mask env mem ctxp in
    dbell_step s (run_eff m s) (run_st m s)
| step_kthread work q' :
    _main_loop_iter (d_q s) = (KqRun work, q') →
    let m := nv_dbell_resolve_fn mask alt rm_resolve phys_to_virt work in
    dbell_step s (run_eff m (set_q q' s)) (run_st m (set_q q' s))
| step_intercept env nv vma ranges :
    d_ctxs s !! me_kzalloc env = None → (∀ a p, me_vm_insert_page env a p ≤ 0) →
    (∀ p, p ≠ NULL → me_page_address env p ≠ NULL) →
    let m := nv_dbell_intercept_mmap usable reg mask pid_of env nv vma ranges in
    dbell_step s (run_eff m s) (run_st m s)
| step_release mem vma :
    is_Some (d_ctxs s !! priv_of vma s) →
    let m := nv_dbell_vma_release usable mask first_word mem vma in
    dbell_step s (run_eff m s) (run_st m s).

(** States and actions after a number of steps from the module's start. *)
Inductive dbell_reach : list keff → dstate → Prop :=
| reach_init : dbell_reach [] dstate0
| reach_step es s es' s' : dbell_reach es s → dbell_step s es' s' → dbell_reach (es ++ es') s'.
End steps.

(** [n] turns of the kernel thread with nothing else running. *)
Fixpoint kthread_run (mask : Z) (alt : bool) (rm : Z → Z → Z → resolve_out) (p2v : Z → Z)
    (n : nat) (s : dstate) : dstate :=
  match n with
  | O => s
  | S n =>
      match _main_loop_iter (d_q s) with
      | (KqRun work, q') =>
          kthread_run mask alt rm p2v n (run_st (nv_dbell_resolve_fn mask alt rm p2v work) (set_q q' s))
      | (_, q') => set_q q' s
      end
  end.

(** ** The invariants *)

(** A context is armed, in the slot it names. *)
Definition ctx_ok (usable : bool) (slots : list dbell_slot) (p : Z) (c : dbell_ctx) : Prop :=
  p ≠ NULL ∧ x_tag c = NV_DBELL_VMA_TAG ∧ ctx_good usable c ∧
  x_shadow_page c ≠ NULL ∧ x_shadow_kva c ≠ NULL ∧ x_doorbell_iomap c ≠ NULL ∧
  x_bp_events c ≠ [] ∧ 0 ≤ x_slot_idx c < 4 ∧ slots !! Z.to_nat (x_slot_idx c) = Some (DbellSlot true p).

Definition ctxs_inv (usable : bool) (s : dstate) : Prop :=
  slots_wf (d_slots s) ∧ map_Forall (ctx_ok usable (d_slots s)) (d_ctxs s).

Definition is_pending (e : cache_entry) : Prop := c_state e = CPending.

(** The key of an entry in use. *)
Definition entry_key (e : cache_entry) : option (Z * Z) :=
  match c_state e with CFree => None | _ => Some (c_chid e, c_runlist e) end.

Definition keys_unique (c : list cache_entry) : Prop :=
  ∀ i j e e' k, c !! i = Some e → c !! j = Some e' →
    entry_key e = Some k → entry_key e' = Some k → i = j.

(** Work items and PENDING entries correspond one to one, and the work items
    are the queue's contents. *)
Definition pending_at (c : list cache_entry) (i : nat) : Prop :=
  ∃ e, c !! i = Some e ∧ is_pending e.

Definition works_inv (works : gmap Z resolve_work) (c : list cache_entry) : Prop :=
  (∀ p w, works !! p = Some w → p ≠ NULL ∧ pending_at c (w_entry w)) ∧
  (∀ p p' w w', works !! p = Some w → works !! p' = Some w' → w_entry w = w_entry w' → p = p') ∧
  (∀ i, pending_at c i → ∃ p w, works !! p = Some w ∧ w_entry w = i).

Definition queue_inv (q : kq) (works : gmap Z resolve_work) : Prop :=
  main_loop_should_exit q = false ∧ kq_inv q ∧ ∀ p, p ∈ q_list q ↔ is_Some (works !! p).

Definition cache_inv (s : dstate) : Prop :=
  keys_unique (d_cache s) ∧ works_inv (d_works s) (d_cache s) ∧ queue_inv (d_q s) (d_works s).

Definition dbell_inv (valid : Z → Prop) (usable : bool) (s : dstate) : Prop :=
  dstate_ok valid s ∧ Forall sysmem_entry_ok (d_sysmem s) ∧ ctxs_inv usable s ∧ cache_inv s.

(** What the development relies on of the kernel and of RM: mappings have
    addresses, the direct map stays readable, and RM's answers describe rings and
    USERDs that do not wrap, the USERD reaching up to GPPut. *)
Definition dbell_env_ok (ioremap_wc ioremap : Z → Z → Z) (vm_map : list Z → Z → Z)
    (rm_resolve : Z → Z → Z → resolve_out) (phys_to_virt : Z → Z) (valid : Z → Prop) : Prop :=
  (∀ p n, 0 ≤ ioremap_wc p n) ∧ (∀ p n, 0 ≤ ioremap p n) ∧ (∀ l k, 0 ≤ vm_map l k) ∧
  (∀ p, valid (phys_to_virt p)) ∧ (∀ nv chid rl, ro_ok valid (rm_resolve nv chid rl)).

(** * Theorems *)

(** ** Ownership *)
Section owned_lemmas.
Context {K A : Type} `{Countable K}.
Implicit Types (f : K → A → list res) (m : gmap K A).

Lemma owned_map_insert f m k a :
  m !! k = None → owned_map f (<[k := a]> m) ≡ₚ f k a ++ owned_map f m.
Proof. intros Hk. unfold owned_map. by rewrite map_to_list_insert. Qed.

Lemma owned_map_delete f m k a :
  m !! k = Some a → owned_map f m ≡ₚ f k a ++ owned_map f (delete k m).
Proof. intros Hk. unfold owned_map. by rewrite <-(map_to_list_delete m k a). Qed.

Lemma owned_map_alter f m g k :
  (∀ a, f k (g a) = f k a) → owned_map f (alter g k m) ≡ₚ owned_map f m.
Proof.
  intros Hg. destruct (m !! k) as [a|] eqn:Hk.
  - rewrite (owned_map_delete f m k a Hk), (owned_map_delete f (alter g k m) k (g a))
      by (by rewrite lookup_alter_eq, Hk). by rewrite delete_alter_eq, Hg.
  - by rewrite alter_id by (intros; simplify_eq).
Qed.
End owned_lemmas.

Lemma owned_list_insert {A} (f : A → list res) l i x y :
  l !! i = Some x → f x ++ owned_list f (<[i := y]> l) ≡ₚ f y ++ owned_list f l.
Proof.
  revert i. induction l as [|z l IH]; intros [|i] Hi; simplify_eq/=.
  - solve_Permutation.
  - unfold owned_list in *. simpl. rewrite !(Permutation_app_swap_app _ (f z)). by rewrite IH.
Qed.

(** ** The cache, the work items and the queue *)
Lemma works_inv_same works c c' :
  (∀ i, pending_at c' i ↔ pending_at c i) → works_inv works c → works_inv works c'.
Proof.
  intros Hp (H1 & H2 & H3). split_and!; [|done|].
  - intros p w Hw. destruct (H1 p w Hw). split; [done|]. by apply Hp.
  - intros i Hi. by apply H3, Hp.
Qed.

Lemma pending_insert c i j e :
  (i < length c)%nat → pending_at (<[i := e]> c) j ↔ j = i ∧ is_pending e ∨ j ≠ i ∧ pending_at c j.
Proof.
  intros Hi. unfold pending_at. destruct (decide (j = i)) as [->|Hne].
  - rewrite list_lookup_insert_eq by done. naive_solver.
  - rewrite list_lookup_insert_ne by done. naive_solver.
Qed.

(** A change of every entry that keeps its key, or frees it when not pending. *)
Lemma keys_unique_fmap f c :
  (∀ e k, entry_key (f e) = Some k → entry_key e = Some k) → keys_unique c → keys_unique (f <$> c).
Proof.
  intros Hf Hu i j e e' k. rewrite !list_lookup_fmap.
  destruct (c !! i) as [x|] eqn:Hi, (c !! j) as [y|] eqn:Hj; intros; simplify_eq/=. eauto.
Qed.

Lemma keys_unique_insert c i e0 e :
  keys_unique c → c !! i = Some e0 →
  (∀ j y k, c !! j = Some y → entry_key e = Some k → entry_key y = Some k → j = i) →
  keys_unique (<[i := e]> c).
Proof.
  intros Hu Hi Hfresh j1 j2 e1 e2 k H1 H2 K1 K2.
  apply list_lookup_insert_Some in H1 as [(<- & <- & _)|[Hn1 H1]];
    apply list_lookup_insert_Some in H2 as [(<- & <- & _)|[Hn2 H2]]; [done|..].
  - by rewrite (Hfresh _ _ _ H2 K1 K2).
  - by rewrite (Hfresh _ _ _ H1 K2 K1).
  - eauto.
Qed.

Lemma invalidate_entry_key lo hi e k :
  entry_key (invalidate_entry lo hi e) = Some k → entry_key e = Some k.
Proof. unfold invalidate_entry. by destruct (cache_points_into lo hi e). Qed.

Lemma invalidate_pending lo hi c i : pending_at (invalidate_entry lo hi <$> c) i ↔ pending_at c i.
Proof.
  unfold pending_at. rewrite list_lookup_fmap. destruct (c !! i) as [e|]; [|naive_solver]. simpl.
  assert (is_pending (invalidate_entry lo hi e) ↔ is_pending e) as H; [|naive_solver].
  unfold invalidate_entry, cache_points_into, is_pending. case_bool_decide as He; [|done].
  rewrite He. by destruct (_ || _); simpl; rewrite ?He.
Qed.

Lemma cache_inv_remove mask vma s :
  cache_inv s → cache_inv (run_st (nv_dbell_bar1_track_remove mask vma) s).
Proof.
  intros (Hk & Hw & Hq). rewrite bar1_track_remove_st.
  destruct (bar1_take vma (d_bar1 s)) as [[[[i kva] size]|] bar1']; [|done].
  destruct (_ || _); [done|]. split_and!; [| |done]; simpl.
  - eapply keys_unique_fmap; [|done]. intros e k. apply invalidate_entry_key.
  - eapply works_inv_same; [|done]. intros j. apply invalidate_pending.
Qed.

Lemma set_last_inv idx va i s :
  cache_inv s → cache_inv (set_cache (alter (set_last_pb idx va) i (d_cache s)) s).
Proof.
  intros (Hk & Hw & Hq). destruct (d_cache s !! i) as [e|] eqn:Hi.
  - erewrite list_alter_insert by done. assert (i < length (d_cache s))%nat by (by eapply lookup_lt_Some).
    split_and!; [| |done]; simpl.
    + eapply keys_unique_insert; [done..|]. intros j y k Hj K1 K2. by eapply Hk.
    + eapply works_inv_same; [|done]. intros j. rewrite pending_insert by done.
      destruct (decide (j = i)) as [->|]; [|naive_solver]. unfold pending_at. naive_solver.
  - assert (alter (set_last_pb idx va) i (d_cache s) = d_cache s) as ->.
    { apply list_eq. intros j. rewrite list_lookup_alter. case_decide as E; [subst; by rewrite Hi|done]. }
    by destruct s.
Qed.

Lemma find_None_key chid runlist (c : list cache_entry) j y :
  nv_dbell_cache_find chid runlist c = None → c !! j = Some y → entry_key y ≠ Some (chid, runlist).
Proof.
  unfold nv_dbell_cache_find. rewrite list_find_None, Forall_lookup. intros Hf Hj Hk.
  apply (Hf j y Hj). unfold entry_key, cache_key_is in *. destruct (c_state y); by simplify_eq.
Qed.

(** A new work item for a freshly reserved entry. *)
Lemma works_inv_enqueue works c i p sp e e0 :
  works_inv works c → c !! i = Some e0 → c_state e0 = CFree → is_pending e →
  works !! p = None → p ≠ NULL →
  works_inv (<[p := ResolveWork i sp]> works) (<[i := e]> c).
Proof.
  intros (H1 & H2 & H3) Hi Hfree He Hp Hnz.
  assert (i < length c)%nat as Hlt by (by eapply lookup_lt_Some).
  assert (∀ p w, works !! p = Some w → w_entry w ≠ i) as Hother.
  { intros p' w Hw E. destruct (H1 p' w Hw) as (_ & e' & ? & Hpe). unfold is_pending in Hpe. congruence. }
  split_and!.
  - intros p' w [[<- <-]|[Hne Hw]]%lookup_insert_Some; [by rewrite pending_insert; auto|].
    destruct (H1 p' w Hw). split; [done|]. rewrite pending_insert by done. right. eauto.
  - intros p1 p2 w1 w2 [[<- <-]|[? Hw1]]%lookup_insert_Some [[<- <-]|[? Hw2]]%lookup_insert_Some E; simpl in *.
    + done.
    + exfalso. by eapply Hother.
    + exfalso. by eapply Hother.
    + eauto.
  - intros j. rewrite pending_insert by done. intros [[-> _]|[Hne Hj]].
    + exists p, (ResolveWork i sp). by rewrite lookup_insert_eq.
    + destruct (H3 j Hj) as (p' & w & Hw & <-). exists p', w. split; [|done].
      rewrite lookup_insert_ne; [done|]. congruence.
Qed.

Lemma queue_inv_enqueue q works p w :
  queue_inv q works → works !! p = None →
  queue_inv (Kq (q_list q ++ [p]) (q_sem q + 1) (main_loop_should_exit q) (q_kthread q))
    (<[p := w]> works).
Proof.
  intros (Hex & Hkq & Hq) Hp. assert (p ∉ q_list q) as Hnq by (rewrite Hq, Hp; by intros []).
  pose proof (schedule_inv p q Hkq) as Hs. rewrite schedule_fresh in Hs by done.
  split_and!; [done|done|]. intros x. simpl. rewrite elem_of_app, list_elem_of_singleton, Hq.
  destruct (decide (x = p)) as [->|]; [rewrite lookup_insert_eq; naive_solver|].
  rewrite lookup_insert_ne by done. naive_solver.
Qed.

(** Reserving an entry and enqueueing its resolution. *)
Lemma reserve_enqueue alt env chid runlist nv s i c' :
  cache_inv s → fresh_work alt env s → nv_dbell_cache_find chid runlist (d_cache s) = None →
  nv_dbell_cache_reserve chid runlist nv (d_cache s) = (Some i, c') →
  let m := nv_dbell_try_enqueue_resolve env i in
  cache_inv (run_st m (set_cache c' s)) ∧
  res_goes (owned_map (work_owned alt) (d_works s)) (run_eff m (set_cache c' s))
    (owned_map (work_owned alt) (d_works (run_st m (set_cache c' s)))).
Proof.
  intros (Hk & Hw & Hqi) [Halt Hfr] Hfind Hres m. pose proof Hqi as (Hex & Hkq & Hq).
  unfold nv_dbell_cache_reserve in Hres.
  destruct (list_find _ (d_cache s)) as [[i' e0]|] eqn:Hf; simplify_eq.
  apply scan_lookup in Hf as [Hi Hfree]. set (c' := <[i := _]> (d_cache s)).
  assert (i < length (d_cache s))%nat as Hlt by (by eapply lookup_lt_Some).
  assert (ee_kmalloc env ∉ q_list (d_q s)) as Hnq by (rewrite Hq, Hfr; by intros []).
  destruct (decide (enq_allocs env)) as [Ha|Ha].
  - destruct (enqueue_success env i (set_cache c' s) (owned_map (work_owned (ee_altstack env)) (d_works s)))
      as [Hst Hr]; [done..|]. unfold m. rewrite Hst. split.
    + split_and!; simpl.
      * eapply keys_unique_insert; [done..|]. intros j y k Hj K1 K2.
        destruct (find_None_key chid runlist (d_cache s) j y Hfind Hj). by rewrite K2, <-K1.
      * by apply (works_inv_enqueue _ _ _ _ _ _ e0); try apply Ha.
      * by apply queue_inv_enqueue.
    + simpl. rewrite owned_map_insert by done. by apply res_goes_of.
  - destruct (enqueue_nomem env i (set_cache c' s) (owned_map (work_owned (ee_altstack env)) (d_works s)))
      as [Hst Hr]; [done|]. unfold m. rewrite Hst. split; [|by apply res_goes_of].
    cbn [d_cache set_cache]. unfold c'.
    erewrite list_alter_insert, list_insert_insert_eq by (by apply list_lookup_insert_eq).
    split_and!; [| |done]; simpl.
    + eapply keys_unique_insert; [done..|]. by intros j y k Hj K1.
    + eapply works_inv_same; [|done]. intros j. rewrite pending_insert by done.
      destruct (decide (j = i)) as [->|]; [|naive_solver].
      split; [by intros [[_ ?]|[]]|]. intros (e & ? & Hp). unfold is_pending in Hp. congruence.
Qed.

Lemma pre_resolve_inv mask alt env chid runlist nv s :
  cache_inv s → fresh_work alt env s →
  let m := nv_dbell_cache_pre_resolve mask env chid runlist nv in
  cache_inv (run_st m s) ∧
  res_goes (owned_map (work_owned alt) (d_works s)) (run_eff m s)
    (owned_map (work_owned alt) (d_works (run_st m s))).
Proof.
  intros Hs Hfr m. unfold m, nv_dbell_cache_pre_resolve.
  destruct (nv =? NULL); [by split; [|apply res_goes_of]|]. autorewrite with run.
  destruct (nv_dbell_cache_find chid runlist (d_cache s)) eqn:Hf; [by split; [|apply res_goes_of]|].
  destruct (nv_dbell_cache_reserve chid runlist nv (d_cache s)) as [[i|] c'] eqn:Hr;
    [|by split; [|apply res_goes_of]].
  autorewrite with run. destruct (reserve_enqueue alt env chid runlist nv s i c') as [H1 H2]; [done..|].
  split; [done|]. eapply res_goes_bind_neutral; [eauto with eff|]. by rewrite mc_trace_st.
Qed.

(** The kernel thread takes the next item and resolves its entry. *)
Lemma resolve_inv mask alt rm p2v work q' s :
  cache_inv s → _main_loop_iter (d_q s) = (KqRun work, q') →
  let m := nv_dbell_resolve_fn mask alt rm p2v work in
  cache_inv (run_st m (set_q q' s)) ∧
  res_goes (owned_map (work_owned alt) (d_works s)) (run_eff m (set_q q' s))
    (owned_map (work_owned alt) (d_works (run_st m (set_q q' s)))).
Proof.
  intros (Hk & (H1 & H2 & H3) & (Hex & Hkq & Hq)) Hiter m.
  pose proof (main_loop_iter_inv (d_q s) Hkq Hex) as [Hkq' _]. rewrite Hiter in Hkq'.
  unfold _main_loop_iter in Hiter. destruct (_ <=? 0); [done|]. simpl in Hiter. rewrite Hex in Hiter.
  destruct (q_list (d_q s)) as [|x l] eqn:Hl; simplify_eq. destruct Hkq as [_ Hnd]. rewrite Hl in Hnd.
  apply NoDup_cons in Hnd as [Hnl Hnd].
  destruct (proj1 (Hq work)) as [w Hw]; [left|].
  destruct (H1 work w Hw) as (Hnz & e & He & Hpe).
  assert (w_entry w < length (d_cache s))%nat by (by eapply lookup_lt_Some).
  set (s0 := set_q _ s). unfold m. split.
  - rewrite (resolve_fn_st _ _ _ _ _ s0 w e) by done. set (e' := publish_entry _ _ _ e).
    assert (¬ is_pending e' ∧ (∀ k, entry_key e' = Some k → entry_key e = Some k)) as [Hne' Hke'].
    { unfold e', publish_entry, is_pending, entry_key in *. rewrite Hpe.
      repeat case_match; simpl; try done. }
    split_and!; simpl.
    + eapply keys_unique_insert; [done..|]. intros j y k Hj K1 K2. eapply Hk; eauto.
    + split_and!.
      * intros p w' [Hne Hw']%lookup_delete_Some. destruct (H1 p w' Hw'). split; [done|].
        rewrite pending_insert by done. right. split; [|done]. intros E. by apply Hne, (H2 work p w w' Hw Hw').
      * intros p p' w1 w2 [_ Hw1]%lookup_delete_Some [_ Hw2]%lookup_delete_Some. eauto.
      * intros j. rewrite pending_insert by done. intros [[_ Hx]|[Hj Hpj]]; [by destruct (Hne' Hx)|].
        destruct (H3 j Hpj) as (p & w' & Hw' & <-). exists p, w'. split; [|done].
        rewrite lookup_delete_ne; [done|]. intros ->. congruence.
    + split_and!; [done|done|]. intros p. simpl. specialize (Hq p). rewrite elem_of_cons in Hq.
      destruct (decide (p = work)) as [->|Hne]; [rewrite lookup_delete_eq; split; [done|by intros []]|].
      rewrite lookup_delete_ne by done. naive_solver.
  - rewrite (resolve_fn_st _ _ _ _ _ s0 w e) by done. simpl.
    rewrite (owned_map_delete _ _ _ _ Hw). apply res_goes_of. unfold work_owned, work_res.
    rewrite <-app_assoc. by eapply (resolve_fn_res _ _ _ _ _ s0).
Qed.

(** *** The trap *)
Lemma emit_chunks_neutral mask mem fuel seq chid idx nt kva n ck off :
  emits res_neutral (emit_chunks mask mem fuel seq chid idx nt kva n ck off).
Proof.
  revert ck off. induction fuel as [|fuel IH]; intros ck off; cbn [emit_chunks]; [emits_solve|].
  destruct (off <? n); [|emits_solve].
  apply emits_bind; [apply emits_tell; by apply Forall_fmap, Forall_true|intros _].
  apply emits_bind; [eauto with eff|intros _; apply IH].
Qed.
#[local] Hint Resolve emit_chunks_neutral : eff.

Lemma emit_resolved_neutral mask mem seq chid runlist i e :
  emits res_neutral (emit_resolved mask mem seq chid runlist i e).
Proof. unfold emit_resolved, emit_submit, emit_pb_bytes. emits_solve. Qed.

Lemma handle_channel_inv mask alt env mem seq chid runlist nv s :
  cache_inv s → fresh_work alt env s →
  let m := handle_channel mask env mem seq chid runlist nv in
  cache_inv (run_st m s) ∧
  res_goes (owned_map (work_owned alt) (d_works s)) (run_eff m s)
    (owned_map (work_owned alt) (d_works (run_st m s))).
Proof.
  intros Hs Hfr m. unfold m, handle_channel. autorewrite with run.
  destruct (nv_dbell_cache_find chid runlist (d_cache s)) as [[i e]|] eqn:Hf.
  - destruct (c_state e); autorewrite with run;
      try (split; [done|apply res_goes_neutral, mc_trace_res_neutral]).
    assert (run_st (emit_resolved mask mem seq chid runlist i e) s = s ∨ ∃ idx va,
      run_st (emit_resolved mask mem seq chid runlist i e) s =
      set_cache (alter (set_last_pb idx va) i (d_cache s)) s) as Hst.
    { unfold emit_resolved. destruct (negb _); [|by left]. autorewrite with run. apply emit_submit_st. }
    pose proof (emit_resolved_neutral mask mem seq chid runlist i e s).
    destruct Hst as [->|(idx & va & ->)].
    + split; [done|]. by apply res_goes_neutral.
    + split; [by apply set_last_inv|]. by apply res_goes_neutral.
  - destruct (nv_dbell_cache_reserve chid runlist nv (d_cache s)) as [[i|] c'] eqn:Hr.
    + destruct (reserve_enqueue alt env chid runlist nv s i c') as [H1 H2]; [done..|].
      rewrite run_st_bind. autorewrite with run. split; [done|].
      eapply res_goes_bind; [|apply res_goes_neutral, mc_trace_res_neutral].
      autorewrite with run. eapply res_goes_bind_neutral; [eauto with eff|]. by rewrite mc_trace_st.
    + autorewrite with run. split; [done|]. apply res_goes_neutral, mc_trace_res_neutral.
Qed.

Lemma trap_inv valid mask alt env mem ctxp c s :
  dstate_ok valid s → cache_inv s → fresh_work alt env s → ctxp ≠ NULL →
  d_ctxs s !! ctxp = Some c →
  let m := nv_dbell_db_handler mask env mem ctxp in
  cache_inv (run_st m s) ∧
  (d_ctxs (run_st m s) = alter ctx_count ctxp (d_ctxs s) ∨ d_ctxs (run_st m s) = d_ctxs s) ∧
  d_bar1 (run_st m s) = d_bar1 s ∧ d_sysmem (run_st m s) = d_sysmem s ∧
  d_slots (run_st m s) = d_slots s ∧
  res_goes (owned_map (work_owned alt) (d_works s)) (run_eff m s)
    (owned_map (work_owned alt) (d_works (run_st m s))).
Proof.
  intros Hok Hs Hfr Hnz Hx m. destruct (decide (x_shadow_kva c = NULL)) as [E|Hk].
  { assert (m s = (tt, s, [])) as Hm.
    { unfold m, nv_dbell_db_handler. rewrite run_gets, (proj2 (Z.eqb_neq _ _) Hnz), Hx, E. done. }
    unfold run_st, run_eff. rewrite Hm. simpl. split_and!; auto. by apply res_goes_of. }
  destruct (handler_run mask env mem ctxp c s Hnz Hx Hk) as (Hst & tr & Htr & He).
  cbv zeta in *. fold m in Hst, He. rewrite Hst, He. clear Hst He.
  set (token := read32 mem _). set (s1 := handler_entered ctxp s).
  destruct (handle_channel_inv mask alt env mem (u32 (d_seq s + 1)) (token_chid token)
              (token_runlist token) (x_nv c) s1) as [H1 H2]; [done|done|].
  destruct (handle_channel_ok mask env mem valid (u32 (d_seq s + 1)) (token_chid token)
              (token_runlist token) (x_nv c) s1) as (_ & Hb & Hy & Hc & Hl).
  { destruct Hok. by split. }
  set (hc := handle_channel _ _ _ _ _ _ _) in *. split_and!; [done|by left|done|done|done|].
  rewrite app_comm_cons.
  apply (res_goes_app _ (owned_map (work_owned alt) (d_works s))).
  { apply res_goes_neutral. constructor; [done|]. eapply Forall_impl; [exact Htr|]. by intros []. }
  eapply res_goes_app; [exact H2|]. apply res_goes_neutral.
  destruct (negb _); [by constructor|]. apply mc_trace_res_neutral.
Qed.

(** *** The trackers *)
Lemma bar1_add_goes mask iowc io vma ps sz s :
  vma_ptr vma ≠ NULL →
  let m := zoom d_bar1 set_bar1 (nv_dbell_bar1_track_add mask iowc io vma ps sz) in
  res_goes (owned_list bar1_res (d_bar1 s)) (run_eff m s)
    (owned_list bar1_res (d_bar1 (run_st m s))) ∧
  run_st m s = set_bar1 (d_bar1 (run_st m s)) s.
Proof.
  intros Hv m. unfold m, run_st, run_eff, zoom.
  pose proof (bar1_track_add_outcome mask iowc io vma ps sz (d_bar1 s)
                (owned_list bar1_res (d_bar1 s))) as Ho. cbv zeta in Ho.
  destruct (nv_dbell_bar1_track_add mask iowc io vma ps sz (d_bar1 s)) as [[v tbl] es]. simpl in *.
  split; [|done].
  destruct Ho as [(i & tbl' & [= -> ->] & Hk & Hins & Hr)|(_ & -> & Hr)]; [|by apply res_goes_of].
  apply bar1_insert_Some in Hins as (e & Hi & He & _ & ->).
  pose proof (owned_list_insert bar1_res (d_bar1 s) i e (bar1_new vma ps sz (bar1_kva iowc io ps sz)) Hi) as Hp.
  unfold bar1_res at 1 3, opt_res in Hp. rewrite He in Hp. cbn [Z.eqb NULL app bar1_new b_vma b_kernel_va] in Hp.
  rewrite (proj2 (Z.eqb_neq _ _) Hv), (proj2 (Z.eqb_neq _ _) Hk) in Hp. rewrite Hp. by apply res_goes_of.
Qed.

Lemma bar1_remove_goes mask vma s :
  Forall bar1_entry_ok (d_bar1 s) → vma ≠ NULL →
  let m := nv_dbell_bar1_track_remove mask vma in
  res_goes (owned_list bar1_res (d_bar1 s)) (run_eff m s)
    (owned_list bar1_res (d_bar1 (run_st m s))) ∧
  same_frame s (set_bar1 (d_bar1 s) (run_st m s)) ∧ d_works (run_st m s) = d_works s.
Proof.
  intros Hok Hv m. unfold m, same_frame. rewrite bar1_track_remove_st.
  pose proof (λ h, bar1_track_remove_res mask vma s h) as Hr.
  destruct (bar1_take vma (d_bar1 s)) as [[[[i kva] size]|] bar1'] eqn:Ht; simpl in Hr.
  - apply bar1_take_Some in Ht as (e & Hi & He & -> & -> & ->).
    pose proof (proj1 (Forall_lookup _ _) Hok i e Hi ltac:(congruence)) as (Hk & _).
    split; [|done]. cbn [d_bar1 set_cache set_bar1].
    pose proof (owned_list_insert bar1_res (d_bar1 s) i e bar1_free Hi) as Hp.
    unfold bar1_res at 1 3, opt_res in Hp. cbn [bar1_free b_vma Z.eqb NULL app] in Hp.
    rewrite He, (proj2 (Z.eqb_neq _ _) Hv) in Hp. unfold NULL in *.
    rewrite (proj2 (Z.eqb_neq (b_kernel_va e) 0)) in Hp, Hr by lia.
    rewrite <-Hp. apply res_goes_of. rewrite Hr. apply release_eq.
  - apply bar1_take_None in Ht as [-> _]. split; [|done]. by apply res_goes_of.
Qed.

Lemma sysmem_add_goes mask kma vmap ps vma pt idx n s :
  0 ≤ vm_start vma → 0 ≤ n → vm_end vma - vm_start vma = n * PAGE_SIZE →
  (∀ l k, 0 ≤ vmap l k) → Forall sysmem_entry_ok (d_sysmem s) →
  let m := zoom d_sysmem set_sysmem (nv_dbell_sysmem_track_add mask kma vmap ps vma pt idx n) in
  res_goes (owned_list sysmem_res (d_sysmem s)) (run_eff m s)
    (owned_list sysmem_res (d_sysmem (run_st m s))) ∧
  run_st m s = set_sysmem (d_sysmem (run_st m s)) s ∧
  Forall sysmem_entry_ok (d_sysmem (run_st m s)).
Proof.
  intros Hst Hn Hlen Hvm Hok m. unfold m, run_st, run_eff, zoom.
  pose proof (sysmem_track_add_outcome mask kma vmap ps vma pt idx n (d_sysmem s)
                (owned_list sysmem_res (d_sysmem s))) as Ho. cbv zeta in Ho.
  destruct (nv_dbell_sysmem_track_add _ _ _ _ _ _ _ _ _) as [[v tbl] es]. simpl in *.
  destruct Ho as [(i & kva & tbl' & [= -> ->] & Hk & Hins & Hv & Hmax & (l & k & ->) & Hr)|(_ & -> & Hr)];
    [|split_and!; [by apply res_goes_of|done|done]].
  apply sysmem_insert_Some in Hins as (e & Hi & He & _ & ->). specialize (Hvm l k).
  rewrite u32_small in * by (unfold is_u32; lia). split_and!; [|done|].
  - set (new := SysmemEntry _ _ _ _ _).
    pose proof (owned_list_insert sysmem_res (d_sysmem s) i e new Hi) as Hp.
    unfold sysmem_res at 1 3, opt_res in Hp. rewrite He in Hp.
    cbn [Z.eqb NULL app new y_vma y_kernel_va] in Hp.
    rewrite (proj2 (Z.eqb_neq _ _) Hv), (proj2 (Z.eqb_neq _ _) Hk) in Hp. rewrite Hp. by apply res_goes_of.
  - apply Forall_insert; [done|]. intros _. unfold NULL in *. simpl. lia.
Qed.

Lemma sysmem_remove_goes mask vma s :
  Forall sysmem_entry_ok (d_sysmem s) → vma ≠ NULL →
  let m := zoom d_sysmem set_sysmem (nv_dbell_sysmem_track_remove mask vma) in
  res_goes (owned_list sysmem_res (d_sysmem s)) (run_eff m s)
    (owned_list sysmem_res (d_sysmem (run_st m s))) ∧
  run_st m s = set_sysmem (d_sysmem (run_st m s)) s ∧
  Forall sysmem_entry_ok (d_sysmem (run_st m s)).
Proof.
  intros Hok Hv m. unfold m, run_st, run_eff, zoom, nv_dbell_sysmem_track_remove, sysmem_take.
  rewrite run_get. destruct (list_find _ _) as [[i e]|] eqn:Hf; cycle 1.
  { simpl. split_and!; [by apply res_goes_of|by destruct s|done]. }
  apply scan_lookup in Hf as [Hi He].
  pose proof (proj1 (Forall_lookup _ _) Hok i e Hi ltac:(congruence)) as (Hk & _).
  rewrite (proj2 (Z.eqb_neq (y_kernel_va e) NULL)) by (unfold NULL; lia).
  unfold mbind, prog_bind, put, tell. simpl. rewrite mc_trace_run. simpl.
  split_and!; [|done|by apply Forall_insert].
  pose proof (owned_list_insert sysmem_res (d_sysmem s) i e sysmem_free Hi) as Hp.
  unfold sysmem_res at 1 3, opt_res in Hp. cbn [sysmem_free y_vma Z.eqb NULL app] in Hp.
  rewrite He, (proj2 (Z.eqb_neq _ _) Hv), (proj2 (Z.eqb_neq (y_kernel_va e) NULL)) in Hp
    by (unfold NULL; lia).
  rewrite <-Hp. change (KRel ?r :: ?l) with ([KRel r] ++ l).
  eapply (res_goes_app _ (owned_list sysmem_res (<[i := sysmem_free]> (d_sysmem s)))).
  - apply res_goes_rel.
  - apply res_goes_neutral, mc_trace_res_neutral.
Qed.

(** *** Contexts and slots *)
Lemma slots_wf_insert slots i sl :
  slots_wf slots → (sl_claimed sl = false → sl_ctx sl = NULL) → slots_wf (<[i := sl]> slots).
Proof. intros [Hl Hf] Hsl. split; [by rewrite length_insert|]. by apply Forall_insert. Qed.

Lemma ctxs_inv_count usable ctxp s s' :
  ctxs_inv usable s → d_slots s' = d_slots s →
  (d_ctxs s' = alter ctx_count ctxp (d_ctxs s) ∨ d_ctxs s' = d_ctxs s) → ctxs_inv usable s'.
Proof.
  intros [Hwf Hc] Hsl Hx. unfold ctxs_inv. rewrite Hsl. split; [done|].
  destruct Hx as [-> | ->]; [|done]. intros p c Hp.
  apply lookup_alter_Some in Hp as [(<- & c0 & Hp & ->)|[_ Hp]]; [exact (Hc _ _ Hp)|exact (Hc _ _ Hp)].
Qed.

Lemma intercepted_inv usable env ctxp nv vma i c s s' :
  ctxs_inv usable s → d_ctxs s !! ctxp = None → ctxp ≠ NULL →
  (∀ p, p ≠ NULL → me_page_address env p ≠ NULL) →
  intercepted usable env ctxp nv vma i c s s' → ctxs_inv usable s'.
Proof.
  intros [Hwf Hc] Hx Hnz Hpa (Hi & Hsl & -> & (Htag & Hidx & _) & Hgood & (Hpg & Hkva & Hio & Hbp & _)).
  cbn in Htag, Hidx. unfold NV_DBELL_SLOTS in Hi. destruct Hwf as [Hlen Hf].
  unfold NV_DBELL_SLOTS in Hlen. split.
  - by apply slots_wf_insert.
  - unfold put_ctx. cbn [d_ctxs d_slots set_priv set_ctxs set_slots].
    apply map_Forall_insert; [done|]. split.
    + unfold ctx_ok. rewrite Hidx, Nat2Z.id, list_lookup_insert_eq by lia.
      rewrite Hkva. split_and!; try done; [auto|lia|lia].
    + intros p c' Hp. destruct (Hc p c' Hp) as (? & ? & ? & ? & ? & ? & ? & ? & Hps).
      split_and!; try done; try lia. rewrite list_lookup_insert_ne; [done|]. congruence.
Qed.

Lemma released_inv usable ctxp c vma s :
  ctxs_inv usable s → d_ctxs s !! ctxp = Some c →
  ctxs_inv usable (set_priv (<[vma := NULL]> (d_priv s))
    (set_ctxs (delete ctxp (d_ctxs s))
       (set_slots (<[Z.to_nat (x_slot_idx c) := DbellSlot false NULL]> (d_slots s)) s))).
Proof.
  intros [Hwf Hc] Hx. split; [by apply slots_wf_insert|]. simpl.
  intros p c' [Hne Hp]%lookup_delete_Some.
  destruct (Hc ctxp c Hx) as (_ & _ & _ & _ & _ & _ & _ & _ & Hps).
  destruct (Hc p c' Hp) as (? & ? & ? & ? & ? & ? & ? & ? & Hps'). split_and!; try done; try lia.
  rewrite list_lookup_insert_ne; [done|]. intros E. rewrite E in Hps. congruence.
Qed.

(** A component's account extends to the whole state's. *)
Lemma res_goes_part f X h es h' X' :
  res_goes h es h' → X ≡ₚ h ++ f → X' ≡ₚ h' ++ f → res_goes X es X'.
Proof. intros H -> ->. by apply res_goes_frame. Qed.

Section invariant.
Context (mask : Z) (alt usable : bool) (ioremap_wc ioremap : Z → Z → Z)
  (kmalloc_array : Z → Z) (vm_map : list Z → Z → Z) (page_struct : Z → Z)
  (reg : Z → Z → Z → Z) (pid_of first_word : Z → Z)
  (rm_resolve : Z → Z → Z → resolve_out) (phys_to_virt : Z → Z) (valid : Z → Prop).
Hypothesis Henv : dbell_env_ok ioremap_wc ioremap vm_map rm_resolve phys_to_virt valid.

#[local] Abbreviation step := (dbell_step mask alt usable ioremap_wc ioremap kmalloc_array vm_map page_struct
              reg pid_of first_word rm_resolve phys_to_virt).

(** The steps that only touch the cache, the work items and the queue. *)
Lemma cache_step s s' es :
  dbell_inv valid usable s → dstate_ok valid s' → cache_inv s' →
  same_frame s s' → res_goes (owned_map (work_owned alt) (d_works s)) es
                      (owned_map (work_owned alt) (d_works s')) →
  dbell_inv valid usable s' ∧ res_goes (owned alt s) es (owned alt s').
Proof.
  intros (_ & Hy & Hc & _) Hok Hca (Eb & Ey & Ec & El) Hr. split.
  - split_and!; [done|by rewrite Ey| |done]. unfold ctxs_inv. by rewrite Ec, El.
  - unfold owned. rewrite Eb, Ey, Ec.
    refine (res_goes_part (owned_map ctx_owned (d_ctxs s) ++ owned_list bar1_res (d_bar1 s) ++
      owned_list sysmem_res (d_sysmem s)) _ _ _ _ _ Hr _ _); solve_Permutation.
Qed.

Lemma bar1_step s s' es :
  dbell_inv valid usable s → dstate_ok valid s' → cache_inv s' →
  same_frame s (set_bar1 (d_bar1 s) s') → d_works s' = d_works s →
  res_goes (owned_list bar1_res (d_bar1 s)) es (owned_list bar1_res (d_bar1 s')) →
  dbell_inv valid usable s' ∧ res_goes (owned alt s) es (owned alt s').
Proof.
  intros (_ & Hy & Hc & _) Hok Hca (_ & Ey & Ec & El) Ew Hr. cbn in Ey, Ec, El. split.
  - split_and!; [done|by rewrite Ey| |done]. unfold ctxs_inv. by rewrite Ec, El.
  - unfold owned. rewrite Ey, Ec, Ew.
    refine (res_goes_part (owned_map ctx_owned (d_ctxs s) ++
      owned_list sysmem_res (d_sysmem s) ++ owned_map (work_owned alt) (d_works s)) _ _ _ _ _ Hr _ _);
      solve_Permutation.
Qed.

Lemma sysmem_step s s' es :
  dbell_inv valid usable s → s' = set_sysmem (d_sysmem s') s →
  Forall sysmem_entry_ok (d_sysmem s') →
  res_goes (owned_list sysmem_res (d_sysmem s)) es (owned_list sysmem_res (d_sysmem s')) →
  dbell_inv valid usable s' ∧ res_goes (owned alt s) es (owned alt s').
Proof.
  intros (Hok & _ & Hc & Hca) E Hy Hr. rewrite E in Hy, Hr |- *. cbn in Hy, Hr. split.
  - by split_and!.
  - unfold owned. cbn.
    refine (res_goes_part (owned_map ctx_owned (d_ctxs s) ++ owned_list bar1_res (d_bar1 s) ++
      owned_map (work_owned alt) (d_works s)) _ _ _ _ _ Hr _ _); solve_Permutation.
Qed.

(** The steps that change the contexts. *)
Lemma ctx_step s s' es h h' :
  dbell_inv valid usable s → ctxs_inv usable s' →
  d_bar1 s' = d_bar1 s → d_sysmem s' = d_sysmem s → d_cache s' = d_cache s →
  d_works s' = d_works s → d_q s' = d_q s →
  res_goes h es h' → owned_map ctx_owned (d_ctxs s) ≡ₚ h → owned_map ctx_owned (d_ctxs s') ≡ₚ h' →
  dbell_inv valid usable s' ∧ res_goes (owned alt s) es (owned alt s').
Proof.
  intros (Hok & Hy & _ & Hca) Hc Eb Ey Ek Ew Eq Hr E1 E2. split.
  - unfold dbell_inv, dstate_ok, cache_inv. by rewrite Eb, Ey, Ek, Ew, Eq.
  - unfold owned. rewrite Eb, Ey, Ew, E1, E2. by apply res_goes_frame.
Qed.

Lemma intercept_step s env nv vma ranges :
  dbell_inv valid usable s → d_ctxs s !! me_kzalloc env = None →
  (∀ a p, me_vm_insert_page env a p ≤ 0) → (∀ p, p ≠ NULL → me_page_address env p ≠ NULL) →
  let m := nv_dbell_intercept_mmap usable reg mask pid_of env nv vma ranges in
  dbell_inv valid usable (run_st m s) ∧ res_goes (owned alt s) (run_eff m s) (owned alt (run_st m s)).
Proof.
  intros Hinv Hfr Hins Hpa m. pose proof Hinv as (_ & _ & [Hwf Hc] & _).
  destruct (decide (me_kzalloc env = NULL)) as [E|Hnz].
  { assert (m s = (run_val m s, s, [])) as Hm.
    { unfold m, nv_dbell_intercept_mmap, run_val. rewrite E. by repeat case_match. }
    unfold run_st, run_eff. rewrite Hm. split; [done|by apply res_goes_of]. }
  destruct (intercept_spec usable reg mask pid_of env nv vma ranges s
              (owned_map ctx_owned (d_ctxs s)) Hfr Hwf Hins)
    as (h' & Hres & [(_ & i & c & Hint & Hh')|(_ & Hst & Hh')]); fold m in Hres; rewrite Hh' in Hres.
  - fold m in Hint. assert (ctxs_inv usable (run_st m s)) as Hc'.
    { eapply intercepted_inv; [|done..|done]. by split. }
    destruct Hint as (_ & _ & Hst & _). eapply ctx_step; [done|done| | | | | |exact Hres|done|];
      try (by rewrite Hst).
    rewrite Hst. unfold put_ctx. cbn [d_ctxs set_priv set_ctxs set_slots].
    rewrite owned_map_insert by done. unfold ctx_owned. by rewrite <-app_assoc.
  - fold m in Hst. rewrite Hst.
    eapply ctx_step; [done|by split|done..|exact Hres|done|done].
Qed.

Lemma release_step s mem vma :
  dbell_inv valid usable s → is_Some (d_ctxs s !! priv_of vma s) →
  let m := nv_dbell_vma_release usable mask first_word mem vma in
  dbell_inv valid usable (run_st m s) ∧ res_goes (owned alt s) (run_eff m s) (owned alt (run_st m s)).
Proof.
  intros Hinv [c Hx] m. pose proof Hinv as (_ & _ & Hci & _). pose proof Hci as [Hwf Hc].
  destruct (Hc _ _ Hx) as (Hnz & Htag & Hgood & _ & _ & _ & _ & Hidx & Hsl).
  destruct (release_spec usable mask first_word mem vma (priv_of vma s) c s
              (owned_map ctx_owned (delete (priv_of vma s) (d_ctxs s))))
    as (h' & Hres & Hh' & Hst); [done..|]. fold m in Hres, Hst. rewrite Hh' in Hres.
  eapply ctx_step; [done| |by rewrite Hst..|exact Hres| |by rewrite Hst].
  - rewrite Hst. by apply released_inv.
  - rewrite (owned_map_delete _ _ _ _ Hx). unfold ctx_owned. by rewrite <-app_assoc.
Qed.

Lemma trap_step s env mem ctxp :
  dbell_inv valid usable s → fresh_work alt env s → is_Some (d_ctxs s !! ctxp) →
  let m := nv_dbell_db_handler mask env mem ctxp in
  dbell_inv valid usable (run_st m s) ∧ res_goes (owned alt s) (run_eff m s) (owned alt (run_st m s)).
Proof.
  intros (Hok & Hy & Hci & Hca) Hfr [c Hx] m. pose proof Hci as [_ Hc].
  destruct (Hc _ _ Hx) as (Hnz & _).
  destruct (trap_inv valid mask alt env mem ctxp c s) as (Hca' & Hct & Eb & Ey & El & Hr); [done..|].
  fold m in Hca', Hct, Eb, Ey, El, Hr. split.
  - split_and!; [by apply handler_ok|by rewrite Ey|by eapply ctxs_inv_count|done].
  - unfold owned. rewrite Eb, Ey.
    assert (owned_map ctx_owned (d_ctxs (run_st m s)) ≡ₚ owned_map ctx_owned (d_ctxs s)) as ->.
    { destruct Hct as [-> | ->]; [|done]. by apply owned_map_alter. }
    refine (res_goes_part (owned_map ctx_owned (d_ctxs s) ++ owned_list bar1_res (d_bar1 s) ++
      owned_list sysmem_res (d_sysmem s)) _ _ _ _ _ Hr _ _); solve_Permutation.
Qed.

Lemma kthread_step s work q' :
  dbell_inv valid usable s → _main_loop_iter (d_q s) = (KqRun work, q') →
  let m := nv_dbell_resolve_fn mask alt rm_resolve phys_to_virt work in
  dbell_inv valid usable (run_st m (set_q q' s)) ∧
  res_goes (owned alt s) (run_eff m (set_q q' s)) (owned alt (run_st m (set_q q' s))).
Proof.
  destruct Henv as (_ & _ & _ & Hp2v & Hrm).
  intros Hinv Hiter m. pose proof Hinv as (Hok & _ & _ & Hca).
  destruct (resolve_inv mask alt rm_resolve phys_to_virt work q' s Hca Hiter) as [Hca' Hr].
  apply cache_step; [done| |done| |exact Hr].
  - by apply resolve_fn_ok.
  - unfold same_frame, m. destruct (d_works s !! work) as [w|] eqn:Hw.
    2: { unfold nv_dbell_resolve_fn. autorewrite with run. cbn [d_works set_q]. by rewrite Hw. }
    destruct (d_cache s !! w_entry w) as [e|] eqn:He.
    2: { unfold nv_dbell_resolve_fn. autorewrite with run. cbn [d_works d_cache set_q]. by rewrite Hw, He. }
    by rewrite (resolve_fn_st mask alt rm_resolve phys_to_virt work (set_q q' s) w e).
Qed.

Lemma dbell_step_inv s es s' :
  dbell_inv valid usable s → step s es s' →
  dbell_inv valid usable s' ∧ res_goes (owned alt s) es (owned alt s').
Proof.
  pose proof Henv as (Hwc & Hio & Hvm & _ & _).
  intros Hinv Hstep. pose proof Hinv as (Hok & Hy & _ & Hca). destruct Hstep.
  - destruct (bar1_add_goes mask ioremap_wc ioremap vma ps sz s) as [Hr E]; [done|]. fold m in Hr, E.
    assert (dstate_ok valid (run_st m s)) by (by apply track_add_ok).
    rewrite E. apply bar1_step; [done|by rewrite <-E|done|done|done|done].
  - destruct (bar1_remove_goes mask vma s) as (Hr & Hf & Hw); [apply Hok|done|]. fold m in Hr, Hf, Hw.
    apply bar1_step; [done|by apply track_remove_ok|by apply cache_inv_remove|done..].
  - destruct (sysmem_add_goes mask kmalloc_array vm_map page_struct vma pt idx n s) as (Hr & E & Hf);
      [done..|]. by apply sysmem_step.
  - destruct (sysmem_remove_goes mask vma s) as (Hr & E & Hf); [done..|]. by apply sysmem_step.
  - destruct (pre_resolve_inv mask alt env chid runlist nv s) as [Hca' Hr]; [done..|].
    apply cache_step; [done|by apply pre_resolve_ok|done| |done].
    unfold same_frame, m, nv_dbell_cache_pre_resolve. destruct (nv =? NULL); [done|]. autorewrite with run.
    destruct (nv_dbell_cache_find _ _ _); [done|].
    destruct (nv_dbell_cache_reserve _ _ _ _) as [[i|] c']; [|done]. autorewrite with run.
    destruct (enqueue_st_cases env i (set_cache c' s)) as (-> & -> & -> & -> & _). done.
  - by apply trap_step.
  - by apply kthread_step.
  - by apply intercept_step.
  - by apply release_step.
Qed.

Lemma dbell_inv0 : dbell_inv valid usable dstate0.
Proof.
  split_and!.
  - apply dstate_ok0.
  - by apply Forall_replicate.
  - split; [split; [done|by apply Forall_replicate]|]. apply map_Forall_empty.
  - split_and!.
    + intros i j e e' k Hi. apply lookup_replicate in Hi as [-> _]. done.
    + split_and!; [done|done|]. intros i (e & Hi & Hp). apply lookup_replicate in Hi as [-> _]. done.
    + split_and!; [done| |].
      * split; [done|constructor].
      * intros p. simpl. split; [by intros ?%elem_of_nil|by intros []].
Qed.

Lemma dbell_reach_inv es s :
  dbell_reach mask alt usable ioremap_wc ioremap kmalloc_array vm_map page_struct
    reg pid_of first_word rm_resolve phys_to_virt es s →
  dbell_inv valid usable s ∧ res_goes [] es (owned alt s).
Proof.
  induction 1 as [|es s es' s' _ [Hinv Hr] Hstep].
  - split; [apply dbell_inv0|]. by apply res_goes_of.
  - destruct (dbell_step_inv s es' s') as [? ?]; [done..|]. split; [done|]. by eapply res_goes_app.
Qed.
End invariant.

(** Running the thread once per queued item leaves no item and no pending entry. *)
Lemma kthread_drains mask alt rm p2v n s :
  cache_inv s → n = length (q_list (d_q s)) →
  ∀ i, ¬ pending_at (d_cache (kthread_run mask alt rm p2v n s)) i.
Proof.
  revert s. induction n as [|n IH]; intros s Hca Hn i; cbn [kthread_run].
  - destruct Hca as (_ & (_ & _ & H3) & (_ & _ & Hq)). intros Hp.
    destruct (H3 i Hp) as (p & w & Hw & _). destruct (proj2 (Hq p)) as [|]; [by eexists|..];
      destruct (q_list (d_q s)); simplify_eq/=.
  - destruct (_main_loop_iter (d_q s)) as [ev q'] eqn:Hit. pose proof Hca as (_ & _ & (Hex & Hkq & Hq)).
    assert (∃ work l, q_list (d_q s) = work :: l ∧ ev = KqRun work ∧ q_list q' = l) as (work & l & Hl & -> & Hl').
    { unfold _main_loop_iter in Hit. destruct Hkq as [Hs _].
      destruct (q_list (d_q s)) as [|x l] eqn:Hl; [done|]. simpl in *.
      rewrite (proj2 (Z.leb_gt _ _)), Hex in Hit by lia. simplify_eq. by eexists _, _. }
    apply IH; [by apply resolve_inv|].
    destruct (proj1 (Hq work)) as [w Hw]; [rewrite Hl; left|].
    destruct Hca as (_ & (H1 & _ & _) & _). destruct (H1 work w Hw) as (_ & e & He & _).
    rewrite (resolve_fn_st mask alt rm p2v work (set_q q' s) w e) by done. simpl.
    rewrite Hl', Hl in *. simpl in Hn. lia.
Qed.

(** Contexts sit in distinct slots, of which there are four. *)
Lemma at_most_four usable s : ctxs_inv usable s → (size (d_ctxs s) ≤ NV_DBELL_SLOTS)%nat.
Proof.
  intros [_ Hc].
  set (idx := λ pc : Z * dbell_ctx, Z.to_nat (x_slot_idx pc.2)).
  assert (NoDup (idx <$> map_to_list (d_ctxs s))) as Hnd.
  { apply NoDup_fmap_2_strong; [|apply NoDup_map_to_list].
    intros [p c] [p' c'] Hp%elem_of_map_to_list Hp'%elem_of_map_to_list E. unfold idx in E. simpl in E.
    destruct (Hc p c Hp) as (_ & _ & _ & _ & _ & _ & _ & _ & H1).
    destruct (Hc p' c' Hp') as (_ & _ & _ & _ & _ & _ & _ & _ & H2). rewrite E in H1. congruence. }
  rewrite <-length_map_to_list, <-(length_fmap idx).
  change NV_DBELL_SLOTS with (length (seq 0 4)). apply submseteq_length, NoDup_submseteq; [done|].
  intros i ([p c] & -> & Hp%elem_of_map_to_list)%list_elem_of_fmap.
  destruct (Hc p c Hp) as (_ & _ & _ & _ & _ & _ & _ & Hidx & _). apply elem_of_seq. unfold idx. simpl. lia.
Qed.

(** * Properties *)
Section properties.
Context (mask : Z) (alt usable : bool) (ioremap_wc ioremap : Z → Z → Z)
  (kmalloc_array : Z → Z) (vm_map : list Z → Z → Z) (page_struct : Z → Z)
  (reg : Z → Z → Z → Z) (pid_of first_word : Z → Z)
  (rm_resolve : Z → Z → Z → resolve_out) (phys_to_virt : Z → Z) (valid : Z → Prop).

#[local] Abbreviation reach := (dbell_reach mask alt usable ioremap_wc ioremap kmalloc_array vm_map
  page_struct reg pid_of first_word rm_resolve phys_to_virt).




(** at most four mappings are watched at a time: every reachable state has
    at most NV_DBELL_SLOTS live contexts, each armed and alone in the claimed
    slot it names. *)
Theorem dbell_at_most_four_watched es s
    (Henv : dbell_env_ok ioremap_wc ioremap vm_map rm_resolve phys_to_virt valid)
    (Hreach : reach es s) :
  (size (d_ctxs s) ≤ NV_DBELL_SLOTS)%nat ∧
  ∀ ctxp c, d_ctxs s !! ctxp = Some c →
    x_bp_events c ≠ [] ∧ x_doorbell_iomap c ≠ NULL ∧
    d_slots s !! Z.to_nat (x_slot_idx c) = Some (DbellSlot true ctxp).
Proof.
  eapply dbell_reach_inv in Hreach; [|exact Henv]. destruct Hreach as [(_ & _ & Hci & _) _].
  split; [by eapply at_most_four|]. destruct Hci as [_ Hc]. intros ctxp c Hx.
  by destruct (Hc ctxp c Hx) as (_ & _ & _ & _ & _ & ? & ? & _ & ?).
Qed.
End properties.

(** *** A concrete run: one BAR1 mapping, one watched window, one trap *)
Definition demo_reach : list keff → dstate → Prop :=
  dbell_reach 0x1ff false true (λ _ _, 0xff0000) (λ _ _, 0xbb0090) (λ _, 0x5000) (λ _ _, 0x900000) id
    (λ t _ _, 0x1000 + t) id (λ _, 0) demo_rm id.

Definition demo_op1 : prog keff dstate Z :=
  zoom d_bar1 set_bar1 (nv_dbell_bar1_track_add 0x1ff (λ _ _, 0xff0000) (λ _ _, 0xbb0090)
    (VmArea 7 0x203c00000 0x203e00000) 0x1fc022000000 0x200000).
Definition demo_op2 : prog keff dstate Z :=
  nv_dbell_intercept_mmap true (λ t _ _, 0x1000 + t) 0x1ff id demo_mmap_env 9 demo_window
    [0x1fc020030000].
Definition demo_op3 : prog keff dstate unit :=
  nv_dbell_db_handler 0x1ff (EnqEnv 0x6000 false NULL) demo_mem 0x40.

Definition demo_s1 : dstate := run_st demo_op1 dstate0.
Definition demo_s2 : dstate := run_st demo_op2 demo_s1.
Definition demo_s3 : dstate := run_st demo_op3 demo_s2.

Lemma demo_env_ok :
  dbell_env_ok (λ _ _, 0xff0000) (λ _ _, 0xbb0090) (λ _ _, 0x900000) demo_rm id (λ _, True).
Proof. split_and!; intros; [done|done|done|done|]. vm_compute. repeat split; done. Qed.

Lemma demo_reach2 : demo_reach (([] ++ run_eff demo_op1 dstate0) ++ run_eff demo_op2 demo_s1) demo_s2.
Proof.
  eapply reach_step; [eapply reach_step; [apply reach_init|]|].
  - apply step_bar1_add; [done|vm_compute; done..].
  - apply step_intercept; [vm_compute; reflexivity|done|done].
Qed.

Lemma demo_reach3 :
  demo_reach ((([] ++ run_eff demo_op1 dstate0) ++ run_eff demo_op2 demo_s1) ++ run_eff demo_op3 demo_s2) demo_s3.
Proof.
  eapply reach_step; [apply demo_reach2|]. apply step_trap; [split; vm_compute; reflexivity|].
  vm_compute. by eexists.
Qed.




Lemma dbell_at_most_four_watched_witness : (size (d_ctxs demo_s3) ≤ NV_DBELL_SLOTS)%nat.
Proof.
  apply (dbell_at_most_four_watched 0x1ff false true (λ _ _, 0xff0000) (λ _ _, 0xbb0090) (λ _, 0x5000)
           (λ _ _, 0x900000) id (λ t _ _, 0x1000 + t) id (λ _, 0) demo_rm id (λ _, True) _ demo_s3
           demo_env_ok demo_reach3).
Defined.
