(* ===== verification/Resolve.v ===== *)
(** * Resolve: RM's answer to the doorbell resolver

    nvGpuOpsDbellResolveChannel of nv_gpu_ops.c and its trampoline, the lookup
    of a channel in KernelFifo, the hooks of channel construction and
    destruction, and how the ring table and the channel cache fit together. *)
From stdpp Require Import base numbers list strings gmap.
From S2P Require Import Prelude Kernel Trackers KthreadQ DbellCache GpfifoTable.
#[local] Open Scope Z_scope.

Definition NV_ERR_INVALID_ARGUMENT : Z := 0x1F.
Definition NV_ERR_INVALID_CHANNEL : Z := 0x21.

(** ** RM objects, as far as the resolver reads them *)
Record MEMORY_DESCRIPTOR : Type := MemDesc {
  md_addressSpace : Z;
  md_subMemOffset : Z;
  md_Size : Z;
  md_physCpu : Z              (* memdescGetPhysAddrs(AT_CPU, 0) *)
}.

Record KernelChannel : Type := KChannel {
  kc_runlistId : Z;
  kc_ChID : Z;
  kc_userd : list (option MEMORY_DESCRIPTOR)      (* pUserdSubDeviceMemDesc *)
}.

Record CHID_MGR : Type := ChidMgr {
  cm_numChannels : Z;
  cm_getBlock : Z → option (option KernelChannel) (* eheapGetBlock and its pData *)
}.

(** PREALLOCATED_USERD_INFO *)
Record userd_info : Type := UserdInfo { ui_mapSize : Z; ui_cpuPtr : Z }.

Record KernelFifo : Type := KFifo {
  kf_perRunlistChram : bool;
  kf_numChidMgrs : Z;
  kf_ppChidMgr : option (list (option CHID_MGR));
  kf_chidMgrValid0 : bool;
  kf_liteMode : bool;
  kf_userdInfo : option userd_info
}.

Record OBJGPU : Type := ObjGpu {
  gpu_ptr : Z;
  gpu_kernelFifo : option KernelFifo;
  gpu_subDeviceInstance : nat;
  gpu_pOsGpuInfo : Z
}.

(** ** KernelFifo lookups *)
Definition kfifoGetChidMgr (kf : KernelFifo) (runlistId : Z) : option CHID_MGR :=
  if negb (kf_perRunlistChram kf) then
    if negb (kf_numChidMgrs kf =? 1) then None
    else
      match kf_ppChidMgr kf with
      | None => None
      | Some l => if negb (kf_chidMgrValid0 kf) then None else mjoin (l !! 0%nat)
      end
  else if kf_numChidMgrs kf <=? runlistId then None
  else
    match kf_ppChidMgr kf with
    | None => None
    | Some l => mjoin (l !! Z.to_nat runlistId)
    end.

Definition kfifoChidMgrGetKernelChannel (kf : KernelFifo) (cm : CHID_MGR) (ChID : Z)
    : option KernelChannel :=
  if kf_liteMode kf then None
  else if cm_numChannels cm <=? ChID then None
  else mjoin (cm_getBlock cm ChID).

(** ** The resolver *)
Section resolve.
Context {S : Type} (mask : Z) (getT : S → list dbellGpfifoSlot).

Definition _dbellResolveGpfifo (pGpu chid runlist : Z) : prog keff S (Z * Z) :=
  tbl ← gets getT;
  match _dbellGpfifoLookup tbl (pGpu, runlist, chid) with
  | Some (tbl_offset, tbl_entries) =>
      MC_TRACE mask dbell "gpfifo_lookup"
        [("result", FStr "table"); ("chid", FDec chid); ("gpu_va", FHex tbl_offset);
         ("entries", FDec tbl_entries)];;
      mret (tbl_offset, tbl_entries)
  | None =>
      MC_TRACE mask dbell "gpfifo_lookup"
        [("result", FStr "not_in_table"); ("chid", FDec chid); ("runlist", FDec runlist)];;
      mret (0, 0)
  end.

(** The outputs [(kva, phys, size, addrspace)]. *)
Definition _dbellResolveUserd (kf : KernelFifo) (md : MEMORY_DESCRIPTOR) (chid : Z)
    : prog keff S (Z * Z * Z * Z) :=
  let addrspace := md_addressSpace md in
  let subOff := md_subMemOffset md in
  let poolSize := match kf_userdInfo kf with Some ui => ui_mapSize ui | None => 0 end in
  let pool_kva := match kf_userdInfo kf with Some ui => ui_cpuPtr ui | None => NULL end in
  let size := md_Size md in
  if addrspace =? ADDR_FBMEM then
    if negb (pool_kva =? NULL) && (u64 (subOff + size) <=? poolSize) then
      MC_TRACE mask dbell "resolve"
        [("state", FStr "fbmem_pool"); ("chid", FDec chid); ("pool_kva", FHex pool_kva);
         ("suboff", FHex subOff); ("kva", FHex (pool_kva + subOff))];;
      mret (pool_kva + subOff, subOff, size, addrspace)
    else
      MC_TRACE mask dbell "resolve"
        [("state", FStr "fbmem_no_pool"); ("chid", FDec chid); ("suboff", FHex subOff)];;
      mret (NULL, subOff, size, addrspace)
  else if addrspace =? ADDR_SYSMEM then
    MC_TRACE mask dbell "resolve"
      [("state", FStr "sysmem"); ("chid", FDec chid); ("phys", FHex (md_physCpu md))];;
    mret (NULL, md_physCpu md, size, addrspace)
  else
    MC_TRACE mask dbell "resolve"
      [("state", FStr "unknown"); ("chid", FDec chid); ("addrspace", FDec addrspace);
       ("suboff", FHex subOff)];;
    mret (NULL, 0, size, addrspace).

(** An error status with all outputs zero. *)
Definition ro_err (status : Z) : resolve_out := ResolveOut status NULL 0 0 0 0 0.

Definition RM_LOCKS : res := RLock 1.
Definition THREAD_STATE : res := RLock 2.

(** The body between the locks: the statements up to the [out:] label. *)
Definition resolve_locked (pGpu : OBJGPU) (chid runlist : Z) : prog keff S resolve_out :=
  match gpu_kernelFifo pGpu with
  | None =>
      MC_TRACE mask dbell "resolve" [("state", FStr "no_fifo")];;
      mret (ro_err NV_ERR_INVALID_STATE)
  | Some kf =>
    match kfifoGetChidMgr kf runlist with
    | None =>
        MC_TRACE mask dbell "resolve" [("state", FStr "no_chid_mgr"); ("runlist", FDec runlist)];;
        mret (ro_err NV_ERR_INVALID_ARGUMENT)
    | Some cm =>
      match kfifoChidMgrGetKernelChannel kf cm chid with
      | None =>
          MC_TRACE mask dbell "resolve"
            [("state", FStr "no_channel"); ("chid", FDec chid); ("runlist", FDec runlist)];;
          mret (ro_err NV_ERR_INVALID_CHANNEL)
      | Some kc =>
        match mjoin (kc_userd kc !! gpu_subDeviceInstance pGpu) with
        | None =>
            MC_TRACE mask dbell "resolve"
              [("state", FStr "no_userd"); ("chid", FDec chid);
               ("sub", FDec (Z.of_nat (gpu_subDeviceInstance pGpu)))];;
            mret (ro_err NV_ERR_INVALID_STATE)
        | Some md =>
            ring ← _dbellResolveGpfifo (gpu_ptr pGpu) chid runlist;
            u ← _dbellResolveUserd kf md chid;
            let '(kva, phys, size, addrspace) := u in
            MC_TRACE mask dbell "resolve"
              [("state", FStr "done"); ("chid", FDec chid); ("phys", FHex phys); ("size", FHex size);
               ("addrspace", FDec addrspace)];;
            mret (ResolveOut NV_OK kva phys size addrspace ring.1 ring.2)
        end
      end
    end
  end.

(** [lock_status] is the result of _nvGpuOpsLocksAcquire; the out pointers are
    those of the only caller, never null. *)
Definition nvGpuOpsDbellResolveChannel (lock_status : Z) (pGpu : option OBJGPU) (chid runlist : Z)
    : prog keff S resolve_out :=
  MC_TRACE mask dbell "resolve"
    [("state", FStr "enter"); ("chid", FDec chid); ("runlist", FDec runlist);
     ("pgpu", FHex (match pGpu with Some g => gpu_ptr g | None => NULL end))];;
  match pGpu with
  | None => mret (ro_err NV_ERR_INVALID_ARGUMENT)
  | Some gpu =>
      tell [KAcq THREAD_STATE];;
      if negb (lock_status =? NV_OK) then
        tell [KRel THREAD_STATE];;
        mret (ro_err lock_status)
      else
        tell [KAcq RM_LOCKS];;
        r ← resolve_locked gpu chid runlist;
        tell [KRel RM_LOCKS];;
        tell [KRel THREAD_STATE];;
        mret r
  end.

(** [priv pNv] is NV_GET_NV_PRIV_PGPU; the caller initialised the outputs to 0. *)
Definition rm_gpu_ops_dbell_resolve_channel (lock_status : Z) (priv : Z → option OBJGPU)
    (pNv chid runlist : Z) : prog keff S resolve_out :=
  if pNv =? NULL then mret (ro_err NV_ERR_INVALID_ARGUMENT)
  else
    match priv pNv with
    | None =>
        MC_TRACE mask dbell "resolve" [("state", FStr "wrap_no_gpu"); ("nv", FHex pNv)];;
        mret (ro_err NV_ERR_INVALID_STATE)
    | Some gpu => nvGpuOpsDbellResolveChannel lock_status (Some gpu) chid runlist
    end.
End resolve.

(** ** Channel construction and destruction *)
Record rstate : Type := RState { r_dbell : dstate; r_gptab : list dbellGpfifoSlot }.

Definition set_gptab (t : list dbellGpfifoSlot) (s : rstate) : rstate := RState (r_dbell s) t.
Definition set_rdbell (d : dstate) (s : rstate) : rstate := RState d (r_gptab s).

Section hooks.
Context (mask : Z) (env : enq_env).

Definition pre_resolve_hook (chid runlist nv : Z) : prog keff rstate unit :=
  zoom r_dbell set_rdbell (nv_dbell_cache_pre_resolve mask env chid runlist nv).

(** The end of kchannelConstruct_IMPL: [params] is pChannelGpfifoParams, the
    ring's [gpFifoOffset] and [gpFifoEntries]. *)
Definition kchannelConstruct_register (pGpu : OBJGPU) (kc : KernelChannel) (status : Z)
    (bLockAcquired : bool) (params : option (Z * Z)) : prog keff rstate unit :=
  when (negb (status =? NV_OK))
    (MC_TRACE mask fifo "chan_construct" [("step", FStr "failed"); ("status", FHex status)]);;
  if bLockAcquired then
    match params with
    | Some (gpFifoOffset, gpFifoEntries) =>
        if (status =? NV_OK) && (0 <? gpFifoEntries) then
          nvGpuOpsDbellGpfifoRegister mask r_gptab set_gptab (λ _, gpu_pOsGpuInfo pGpu)
            pre_resolve_hook (gpu_ptr pGpu, kc_runlistId kc, kc_ChID kc) gpFifoOffset gpFifoEntries
        else skip
    | None => skip
    end
  else skip.

(** The start of kchannelDestruct_IMPL. *)
Definition kchannelDestruct_unregister (pGpu : OBJGPU) (kc : KernelChannel) : prog keff rstate unit :=
  modify (λ s, set_gptab (nvGpuOpsDbellGpfifoUnregister
                            (gpu_ptr pGpu, kc_runlistId kc, kc_ChID kc) (r_gptab s)) s).
End hooks.

(** * Theorems *)

(** The channel RM finds for [(runlist, chid)], with its USERD. *)
Definition channel_at (gpu : OBJGPU) (runlist chid : Z) (kf : KernelFifo) (md : MEMORY_DESCRIPTOR) : Prop :=
  gpu_kernelFifo gpu = Some kf ∧
  ∃ cm kc, kfifoGetChidMgr kf runlist = Some cm ∧ kfifoChidMgrGetKernelChannel kf cm chid = Some kc ∧
           mjoin (kc_userd kc !! gpu_subDeviceInstance gpu) = Some md.

(** RM's answer for a USERD: the pool's address, or none. *)
Definition userd_kva_of (kf : KernelFifo) (md : MEMORY_DESCRIPTOR) : Z :=
  match kf_userdInfo kf with
  | Some ui =>
      if (md_addressSpace md =? ADDR_FBMEM) && negb (ui_cpuPtr ui =? NULL) &&
         (u64 (md_subMemOffset md + md_Size md) <=? ui_mapSize ui)
      then ui_cpuPtr ui + md_subMemOffset md else NULL
  | None => NULL
  end.

Definition userd_phys_of (md : MEMORY_DESCRIPTOR) : Z :=
  if md_addressSpace md =? ADDR_FBMEM then md_subMemOffset md
  else if md_addressSpace md =? ADDR_SYSMEM then md_physCpu md else 0.

Section spec.
Context {S : Type} (mask : Z) (getT : S → list dbellGpfifoSlot).
Implicit Types (s : S).

Lemma resolve_gpfifo_wp pGpu chid runlist s h Q :
  Q (default (0, 0) (_dbellGpfifoLookup (getT s) (pGpu, runlist, chid))) s h →
  wp (_dbellResolveGpfifo mask getT pGpu chid runlist) s h Q.
Proof.
  intros HQ. unfold _dbellResolveGpfifo. wp_steps.
  destruct (_dbellGpfifoLookup _ _) as [[off n]|]; wp_steps; done.
Qed.

Lemma resolve_userd_wp kf md chid s h Q :
  Q (userd_kva_of kf md, userd_phys_of md, md_Size md, md_addressSpace md) s h →
  wp (_dbellResolveUserd mask kf md chid) s h Q.
Proof.
  intros HQ. unfold _dbellResolveUserd, userd_kva_of, userd_phys_of in *.
  destruct (md_addressSpace md =? ADDR_FBMEM) eqn:Hf.
  - destruct (kf_userdInfo kf) as [ui|]; simpl in *; [|wp_steps; done].
    destruct (_ && _); wp_steps; done.
  - replace (match kf_userdInfo kf with Some _ => NULL | None => NULL end) with NULL in HQ
      by (by destruct (kf_userdInfo kf)).
    destruct (md_addressSpace md =? ADDR_SYSMEM); wp_steps; simpl in HQ;
      destruct (kf_userdInfo kf); done.
Qed.

(** The statements between the locks. *)
Lemma resolve_locked_wp gpu chid runlist s h :
  wp (resolve_locked mask getT gpu chid runlist) s h (λ ro s' h',
    s' = s ∧ h' = h ∧
    ((∃ kf md, channel_at gpu runlist chid kf md ∧
        ro = ResolveOut NV_OK (userd_kva_of kf md) (userd_phys_of md) (md_Size md) (md_addressSpace md)
               (default (0, 0) (_dbellGpfifoLookup (getT s) (gpu_ptr gpu, runlist, chid))).1
               (default (0, 0) (_dbellGpfifoLookup (getT s) (gpu_ptr gpu, runlist, chid))).2) ∨
     (¬ ∃ kf md, channel_at gpu runlist chid kf md) ∧ ro = ro_err (ro_status ro) ∧
       ro_status ro ≠ NV_OK)).
Proof.
  unfold resolve_locked, channel_at.
  destruct (gpu_kernelFifo gpu) as [kf|]; [|wp_steps; split_and!; [done..|right; naive_solver]].
  destruct (kfifoGetChidMgr kf runlist) as [cm|] eqn:Hcm;
    [|wp_steps; split_and!; [done..|right; naive_solver]].
  destruct (kfifoChidMgrGetKernelChannel kf cm chid) as [kc|] eqn:Hkc;
    [|wp_steps; split_and!; [done..|right; naive_solver]].
  destruct (mjoin _) as [md|] eqn:Hmd;
    [|wp_steps; split_and!; [done..|right; naive_solver]].
  wp_steps. apply resolve_gpfifo_wp. wp_steps. apply resolve_userd_wp. wp_steps.
  split_and!; [done..|left]. exists kf, md. split; [|done]. split; [done|]. by exists cm, kc.
Qed.

Lemma resolve_channel_wp lock_status gpu chid runlist s h :
  wp (nvGpuOpsDbellResolveChannel mask getT lock_status (Some gpu) chid runlist) s h (λ ro s' h',
    s' = s ∧ h' ≡ₚ h ∧
    ((∃ kf md, lock_status = NV_OK ∧ channel_at gpu runlist chid kf md ∧
        ro = ResolveOut NV_OK (userd_kva_of kf md) (userd_phys_of md) (md_Size md) (md_addressSpace md)
               (default (0, 0) (_dbellGpfifoLookup (getT s) (gpu_ptr gpu, runlist, chid))).1
               (default (0, 0) (_dbellGpfifoLookup (getT s) (gpu_ptr gpu, runlist, chid))).2) ∨
     (lock_status ≠ NV_OK ∨ ¬ ∃ kf md, channel_at gpu runlist chid kf md) ∧
       ro = ro_err (ro_status ro) ∧ ro_status ro ≠ NV_OK)).
Proof.
  unfold nvGpuOpsDbellResolveChannel. wp_steps. destruct (negb _) eqn:Hl.
  - apply negb_true_iff, Z.eqb_neq in Hl. wp_steps.
    apply (wp_rel _ _ _ h); [done|]. wp_steps. split_and!; [done|done|]. right. auto.
  - apply negb_false_iff, Z.eqb_eq in Hl. wp_steps.
    eapply wp_mono; [apply resolve_locked_wp|]. cbv beta. intros ro s' h' (-> & -> & Hro). wp_steps.
    apply (wp_rel _ _ _ (THREAD_STATE :: h)); [done|]. wp_steps.
    apply (wp_rel _ _ _ h); [done|]. wp_steps. split_and!; [done|done|].
    destruct Hro as [(kf & md & Hc & ->)|(Hn & Hro)]; [left; by exists kf, md|right; auto].
Qed.
End spec.

(** ** Reuse of a channel id *)

(** A pre-resolve finds nothing to do when the cache has an entry for the key,
    in whatever state and for whatever GPU. *)
Lemma pre_resolve_hit mask env chid runlist nv s i e :
  nv_dbell_cache_find chid runlist (d_cache s) = Some (i, e) →
  nv_dbell_cache_pre_resolve mask env chid runlist nv s = (tt, s, []).
Proof.
  intros Hf. unfold nv_dbell_cache_pre_resolve. destruct (nv =? NULL); [done|].
  by rewrite run_gets, Hf.
Qed.

Lemma register_st mask env (gpu : OBJGPU) k off n s :
  let '(g, runlist, chid) := k in
  run_st (nvGpuOpsDbellGpfifoRegister mask r_gptab set_gptab (λ _, gpu_pOsGpuInfo gpu)
            (pre_resolve_hook mask env) k off n) s =
  if (g =? NULL) || (n =? 0) then s
  else match gp_register k (off, n) (r_gptab s) with
       | Some (new, tbl') =>
           run_st (when new (pre_resolve_hook mask env chid runlist (gpu_pOsGpuInfo gpu))) (set_gptab tbl' s)
       | None => s
       end.
Proof.
  destruct k as [[g runlist] chid]. unfold nvGpuOpsDbellGpfifoRegister.
  destruct (_ || _); [done|]. autorewrite with run.
  destruct (gp_register _ _ _) as [[new tbl']|]; by autorewrite with run.
Qed.

(** * Properties *)

(** resolving a channel takes and returns its locks on every path, changes
    no state, and answers NV_OK exactly when RM took the locks and has a channel
    with a USERD for (runlist, chid); then the ring is the one in the parameter
    table, or empty.  Every other answer has all outputs zero. *)
Theorem resolve_channel_correct {S : Type} mask (getT : S → list dbellGpfifoSlot)
    lock_status gpu chid runlist (s : S) held :
  let m := nvGpuOpsDbellResolveChannel mask getT lock_status (Some gpu) chid runlist in
  let ro := run_val m s in
  let ring := default (0, 0) (_dbellGpfifoLookup (getT s) (gpu_ptr gpu, runlist, chid)) in
  run_st m s = s ∧ res_goes held (run_eff m s) held ∧
  (ro_status ro = NV_OK ↔ lock_status = NV_OK ∧ ∃ kf md, channel_at gpu runlist chid kf md) ∧
  (ro_status ro = NV_OK → ro_gpfifo_gpu_va ro = ring.1 ∧ ro_gpfifo_entries ro = ring.2) ∧
  (ro_status ro ≠ NV_OK → ro = ro_err (ro_status ro)).
Proof.
  destruct (resolve_channel_wp mask getT lock_status gpu chid runlist s held)
    as (h' & Hres & Hst & Hh' & Ho). rewrite Hh' in Hres. intros m ro ring.
  fold m in Hst, Ho, Hres. fold ro in Ho. split_and!; [done|done|..].
  - destruct Ho as [(kf & md & Hl & Hc & ->)|(Hn & _ & Hs)]; [naive_solver|].
    split; [done|]. naive_solver.
  - destruct Ho as [(kf & md & _ & _ & ->)|(_ & _ & Hs)]; [done|]. intros E. by destruct (Hs E).
  - destruct Ho as [(kf & md & _ & _ & ->)|(_ & -> & _)]; done.
Qed.


Definition demo_md : MEMORY_DESCRIPTOR := MemDesc ADDR_FBMEM 0x1000 0x200 0.
Definition demo_kc : KernelChannel := KChannel 2 5 [Some demo_md].
Definition demo_kf : KernelFifo :=
  KFifo true 4 (Some [None; None; Some (ChidMgr 2048 (λ c, if c =? 5 then Some (Some demo_kc) else None))])
    true false None.
Definition demo_gpu : OBJGPU := ObjGpu 0x9000 (Some demo_kf) 0 9.

Lemma demo_channel_at : channel_at demo_gpu 2 5 demo_kf demo_md.
Proof. split; [done|]. eexists _, _. done. Qed.


(** RM's answers are what the doorbell cache relies on.  When USERD
    descriptors do not wrap, an FBMEM USERD reaches up to GPPut, RM keeps its
    USERD pool mapped and registered rings do not wrap, every answer of the
    trampoline satisfies the cache's interface condition. *)
Theorem resolve_answers_ok {S : Type} (valid : Z → Prop) mask (getT : S → list dbellGpfifoSlot)
    lock_status priv pNv chid runlist (s : S)
    (Hmd : ∀ gpu kf md, priv pNv = Some gpu → channel_at gpu runlist chid kf md →
       0 ≤ md_subMemOffset md ∧ 0 ≤ md_physCpu md ∧ 0 ≤ md_Size md ∧
       md_subMemOffset md + md_Size md < 2 ^ 64 ∧ md_physCpu md + md_Size md < 2 ^ 64 ∧
       (md_addressSpace md = ADDR_FBMEM → USERD_BYTES ≤ md_Size md))
    (Hpool : ∀ gpu kf md ui, priv pNv = Some gpu → channel_at gpu runlist chid kf md →
       kf_userdInfo kf = Some ui → md_subMemOffset md + md_Size md ≤ ui_mapSize ui →
       valid (ui_cpuPtr ui + md_subMemOffset md))
    (Hring : ∀ k off n, _dbellGpfifoLookup (getT s) k = Some (off, n) →
       0 ≤ off ∧ 0 ≤ n ∧ off + n * 8 < 2 ^ 64) :
  ro_ok valid (run_val (rm_gpu_ops_dbell_resolve_channel mask getT lock_status priv pNv chid runlist) s).
Proof.
  assert (∀ st, ro_ok valid (ro_err st)) as Herr by (intros st; by unfold ro_ok, ro_err, NULL).
  unfold rm_gpu_ops_dbell_resolve_channel. destruct (pNv =? NULL); [apply Herr|].
  destruct (priv pNv) as [gpu|]; [|rewrite run_val_bind; apply Herr].
  destruct (resolve_channel_wp mask getT lock_status gpu chid runlist s [])
    as (h' & _ & _ & _ & [(kf & md & _ & Hc & ->)|(_ & -> & _)]); [|apply Herr].
  destruct (Hmd gpu kf md eq_refl Hc) as (? & ? & ? & ? & ? & Hsz).
  unfold ro_ok. cbn [ro_gpfifo_gpu_va ro_gpfifo_entries ro_userd_phys ro_userd_size ro_addrspace ro_userd_kva].
  split_and!.
  1-3: destruct (_dbellGpfifoLookup _ _) as [[off n]|] eqn:Hl; [|done]; by destruct (Hring _ _ _ Hl) as (? & ? & ?).
  1-2: unfold userd_phys_of; repeat case_match; lia.
  - done.
  - unfold userd_kva_of. destruct (kf_userdInfo kf) as [ui|] eqn:Hui; [|done].
    destruct (_ && _) eqn:Hb; [|done]. intros _. rewrite !andb_true_iff in Hb.
    rewrite u64_small in Hb by (unfold is_u64; lia). eapply Hpool; [done..|]. lia.
Qed.

Lemma resolve_answers_ok_witness :
  ro_ok (λ _, False) (run_val (rm_gpu_ops_dbell_resolve_channel 0x1ff id NV_OK (λ _, Some demo_gpu) 9 5 2)
                        g_dbellGpfifoTable0).
Proof.
  apply (resolve_answers_ok (λ _, False) 0x1ff id NV_OK (λ _, Some demo_gpu) 9 5 2 g_dbellGpfifoTable0).
  - intros gpu kf md [= <-] ([= <-] & cm & kc & Hcm & Hkc & Hmd). injection Hcm as <-. injection Hkc as <-.
    injection Hmd as <-. vm_compute. repeat split; done.
  - intros gpu kf md ui [= <-] ([= <-] & _) Hui. discriminate Hui.
  - intros k off n. unfold id. rewrite (gp_lookup_refines _ _ k gp_rel_init), lookup_empty. discriminate.
Defined.

(** The channel cache outlives the channel.  When a channel is destroyed
    and its (runlist, chid) is used for a new channel with another ring, the
    ring table is updated but a cache entry of the old channel, RESOLVED or
    FAILED, stays as it is: the trap handler keeps decoding doorbells of the
    new channel with the old channel's USERD and ring. *)
Theorem chid_reuse_keeps_stale_entry mask env gpu kc off n s m i e
    (Hrel : gp_rel (r_gptab s) m) (Hgpu : gpu_ptr gpu ≠ NULL) (Hn : 0 < n)
    (Hlive : is_Some (m !! (gpu_ptr gpu, kc_runlistId kc, kc_ChID kc)))
    (Hfind : nv_dbell_cache_find (kc_ChID kc) (kc_runlistId kc) (d_cache (r_dbell s)) = Some (i, e)) :
  let s1 := run_st (kchannelDestruct_unregister gpu kc) s in
  let s2 := run_st (kchannelConstruct_register mask env gpu kc NV_OK true (Some (off, n))) s1 in
  _dbellGpfifoLookup (r_gptab s1) (gpu_ptr gpu, kc_runlistId kc, kc_ChID kc) = None ∧
  _dbellGpfifoLookup (r_gptab s2) (gpu_ptr gpu, kc_runlistId kc, kc_ChID kc) = Some (off, n) ∧
  r_dbell s2 = r_dbell s.
Proof.
  set (k := (gpu_ptr gpu, kc_runlistId kc, kc_ChID kc)) in *. intros s1 s2.
  assert (gp_rel (r_gptab s1) (delete k m)) as Hr1 by (by apply gp_unregister_refines).
  split; [rewrite (gp_lookup_refines _ _ _ Hr1); apply lookup_delete_eq|].
  pose proof (gp_register_refines (r_gptab s1) _ k (off, n) Hr1 Hgpu ltac:(simpl; lia)) as Hreg.
  unfold s2, kchannelConstruct_register. rewrite run_st_bind. cbn [Z.eqb NV_OK negb andb when].
  rewrite (proj2 (Z.ltb_lt _ _)) by done. change (run_st skip s1) with s1.
  pose proof (register_st mask env gpu k off n s1) as Hst. unfold k in Hst at 1. cbv iota zeta in Hst.
  fold k. rewrite Hst. rewrite (proj2 (Z.eqb_neq _ _) Hgpu), (proj2 (Z.eqb_neq n 0)) by lia.
  cbn [orb]. destruct (gp_register k (off, n) (r_gptab s1)) as [[new tbl']|].
  - destruct Hreg as (Hr2 & _).
    assert (run_st (when new (pre_resolve_hook mask env (kc_ChID kc) (kc_runlistId kc) (gpu_pOsGpuInfo gpu)))
              (set_gptab tbl' s1) = set_gptab tbl' s1) as ->.
    { destruct new; [|done]. unfold when, pre_resolve_hook, zoom, run_st. cbn [r_dbell set_gptab].
      by erewrite pre_resolve_hit. }
    split; [|done]. simpl. rewrite (gp_lookup_refines _ _ _ Hr2). apply lookup_insert_eq.
  - exfalso. destruct Hreg as [_ Hsz]. pose proof (gp_rel_bound _ _ Hrel) as Hb.
    destruct Hlive as [v Hv]. rewrite (map_size_delete_Some k m) in Hsz by eauto.
    assert (size m ≠ 0%nat) by (intros E%map_size_empty_iff; subst; done). lia.
Qed.

(** A constructed channel whose entry was resolved to its first ring. *)
Definition demo_rstate : rstate :=
  RState (set_cache (demo_resolved :: replicate 79 cache_zero) dstate0)
    (gp_run_op (OpRegister (0x9000, 2, 5) (0x203c04000, 1024)) g_dbellGpfifoTable0).

Lemma chid_reuse_keeps_stale_entry_witness :
  let s1 := run_st (kchannelDestruct_unregister demo_gpu demo_kc) demo_rstate in
  let s2 := run_st (kchannelConstruct_register 0x1ff (EnqEnv 0x6000 false NULL) demo_gpu demo_kc NV_OK true
                      (Some (0x7f1234560000, 512))) s1 in
  r_dbell s2 = r_dbell demo_rstate.
Proof.
  apply (chid_reuse_keeps_stale_entry 0x1ff (EnqEnv 0x6000 false NULL) demo_gpu demo_kc 0x7f1234560000 512
           demo_rstate {[ (0x9000, 2, 5) := (0x203c04000, 1024) ]} 0 demo_resolved).
  - exact (gp_ops_refine [OpRegister (0x9000, 2, 5) (0x203c04000, 1024)]).
  - done.
  - done.
  - exists (0x203c04000, 1024). vm_compute. reflexivity.
  - vm_compute. reflexivity.
Defined.
