(* ===== verification/Submit.v ===== *)
(** * Submit: what a submission looks like on the wire

    The GPFIFO entries and doorbell tokens the drivers write (nvidia-uvm host
    HAL, kernel_fifo_ga100.c), the method headers of uvm_push_macros.h, and the
    encoders and decoders of reverse/tools, against the decoders of the trap
    handler. *)
From stdpp Require Import base numbers list strings gmap.
From S2P Require Import Prelude Kernel Trackers KthreadQ DbellCache DbellHandler Resolve.
#[local] Open Scope Z_scope.

(** ** nvmisc.h bit fields [hi:lo] *)
Definition DRF_NUM (hi lo n : Z) : Z := Z.shiftl (Z.land (u32 n) (Z.ones (hi - lo + 1))) lo.
Definition DRF_DEF (lo c : Z) : Z := u32 (Z.shiftl c lo).
Definition FLD_SET_DRF_NUM (hi lo n v : Z) : Z :=
  Z.lor (Z.land (u32 v) (u32 (Z.lnot (Z.shiftl (Z.ones (hi - lo + 1)) lo)))) (DRF_NUM hi lo n).

Definition NvU64_LO32 (n : Z) : Z := Z.land n 0xffffffff.
Definition NvU64_HI32 (n : Z) : Z := Z.land (Z.shiftr n 32) 0xffffffff.

(** ** nvidia-uvm: GPFIFO entries *)
Inductive uvm_gpfifo_sync_t : Type := UVM_GPFIFO_SYNC_PROCEED | UVM_GPFIFO_SYNC_WAIT.

(** GP_ENTRY1_SYNC is bit 31: PROCEED is 0, WAIT is 1. *)
Definition sync_bit (f : uvm_gpfifo_sync_t) : Z :=
  match f with UVM_GPFIFO_SYNC_WAIT => 1 | UVM_GPFIFO_SYNC_PROCEED => 0 end.

Definition sync_value (f : uvm_gpfifo_sync_t) : Z := DRF_DEF 31 (sync_bit f).

Definition gpfifo_entry (pushbuffer_va pushbuffer_length : Z) (sync : uvm_gpfifo_sync_t) : Z :=
  Z.lor (DRF_NUM 31 2 (Z.shiftr (NvU64_LO32 pushbuffer_va) 2))
    (u64 (Z.shiftl (Z.lor (Z.lor (DRF_NUM 7 0 (NvU64_HI32 pushbuffer_va))
                                 (DRF_NUM 30 10 (Z.shiftr pushbuffer_length 2)))
                          (sync_value sync)) 32)).

Definition uvm_hal_turing_host_set_gpfifo_entry (va len : Z) (sync : uvm_gpfifo_sync_t) : Z :=
  gpfifo_entry va len sync.

Definition uvm_hal_hopper_host_set_gpfifo_entry (va len : Z) (sync : uvm_gpfifo_sync_t) : Z :=
  let pb_low_bits_mask := Z.shiftl 1 40 - 1 in
  gpfifo_entry (Z.land va pb_low_bits_mask) len sync.

Definition uvm_hal_hopper_host_set_gpfifo_pushbuffer_segment_base (va : Z) : Z :=
  Z.lor (DRF_NUM 24 8 (Z.shiftr va 40)) (u64 (Z.shiftl (DRF_DEF 0 4) 32)).

Definition uvm_hal_turing_host_set_gpfifo_noop : Z :=
  u64 (Z.shiftl (Z.lor (DRF_NUM 30 10 0) (DRF_DEF 0 0)) 32).

(** ** kernel_fifo_ga100.c: the work submit token *)
Definition GPU_GFID_PF : Z := 0.

Definition IS_GFID_VF (gfid : Z) : bool := negb (u32 gfid =? GPU_GFID_PF).

(** What the function reads of the channel. *)
Record token_channel : Type := TokenChannel {
  tc_ChID : Z;
  tc_has_group : bool;       (* pKernelChannelGroupApi and its group are set *)
  tc_runlist_set : bool;     (* kchannelIsRunlistSet *)
  tc_runlistId : Z           (* kchannelGetRunlistId *)
}.

(** [gfid] is vgpuGetCallingContextGfid's answer and [vchid] is
    kfifoGetVChIdForSChId_HAL; either fails with a status, which is returned.
    The result is the token or the status. *)
Definition kfifoGenerateWorkSubmitTokenHal_GA100 (gfid : Z + Z) (vchid : Z -> Z -> Z + Z)
    (pKernelChannel : option token_channel) (bUsedForHost : bool) : Z + Z :=
  match pKernelChannel with
  | None => inr NV_ERR_INVALID_CHANNEL
  | Some kc =>
      if negb (tc_has_group kc) then inr NV_ERR_INVALID_STATE
      else match gfid with
      | inr status => inr status
      | inl gfId =>
          match (if negb bUsedForHost && IS_GFID_VF gfId then vchid (tc_ChID kc) gfId
                 else inl (tc_ChID kc)) with
          | inr status => inr status
          | inl chId =>
              if negb (tc_runlist_set kc) then inr NV_ERR_INVALID_STATE
              else inl (FLD_SET_DRF_NUM 11 0 chId (FLD_SET_DRF_NUM 22 16 (tc_runlistId kc) 0))
          end
      end
  end.

(** ** uvm_push_macros.h: method headers *)
Definition UVM_METHOD_INC (subch address count : Z) : Z :=
  Z.lor (Z.lor (Z.lor (DRF_DEF 29 1) (DRF_NUM 11 0 (Z.shiftr address 2)))
               (DRF_NUM 15 13 subch)) (DRF_NUM 28 16 count).

Definition UVM_METHOD_NONINC (subch address count : Z) : Z :=
  Z.lor (Z.lor (Z.lor (DRF_DEF 29 3) (DRF_NUM 11 0 (Z.shiftr address 2)))
               (DRF_NUM 15 13 subch)) (DRF_NUM 28 16 count).

(** ** reverse/tools/decode.py *)
Definition METHOD_TYPE_INCR : Z := 1.
Definition METHOD_TYPE_ONE : Z := 3.
Definition METHOD_TYPE_IMMD : Z := 5.

Definition header_word (method_addr count type_ subchan : Z) : Z :=
  Z.lor (Z.lor (Z.lor (Z.shiftl type_ 29) (Z.shiftl count 16)) (Z.shiftl subchan 13))
    (Z.shiftr method_addr 2).

(** [None] is the AssertionError on an unaligned address. *)
Definition make_header (method_addr count type_ subchan : Z) : option Z :=
  if Z.land method_addr 3 =? 0 then Some (header_word method_addr count type_ subchan) else None.

Definition decode_header (word : Z) : Z * Z * Z * Z :=
  (Z.land (Z.shiftr word 29) 0x7, Z.land (Z.shiftr word 16) 0x1fff,
   Z.land (Z.shiftr word 13) 0x7, Z.shiftl (Z.land word 0x1fff) 2).

(** [entry0, entry1]; [None] is the AssertionError on an unaligned length. *)
Definition encode_gp_entry (pb_gpu_va length_bytes : Z) : option (Z * Z) :=
  if negb (length_bytes mod 4 =? 0) then None
  else
    let length_dwords := length_bytes / 4 in
    let base_hi := Z.land (Z.shiftr pb_gpu_va 32) 0xff in
    Some (Z.shiftr (Z.land pb_gpu_va 0xfffffffc) 2,
          Z.lor (Z.land base_hi 0xff) (Z.shiftl (Z.land length_dwords 0x1fffff) 10)).

(** [pb_va, length in bytes, sync]. *)
Definition decode_gp_entry (e0 e1 : Z) : Z * Z * Z :=
  (Z.lor (Z.shiftl (Z.land e1 0xff) 32) (Z.shiftl e0 2),
   Z.land (Z.shiftr e1 10) 0x1fffff * 4, Z.land (Z.shiftr e1 31) 1).

Definition NVC8B5_SET_SEMAPHORE_A : Z := 0x0240.
Definition NVC8B5_SET_SEMAPHORE_B : Z := 0x0244.
Definition NVC8B5_LAUNCH_DMA : Z := 0x0300.
Definition NVC8B5_OFFSET_IN_UPPER : Z := 0x0400.
Definition NVC8B5_OFFSET_IN_LOWER : Z := 0x0404.
Definition NVC8B5_OFFSET_OUT_UPPER : Z := 0x0408.
Definition NVC8B5_OFFSET_OUT_LOWER : Z := 0x040c.
Definition NVC8B5_LINE_LENGTH_IN : Z := 0x0418.

(** The inner [INCR] appends a header and its data; [None] once an assertion
    failed. *)
Definition INCR (method : Z) (values : list Z) (dwords : option (list Z)) : option (list Z) :=
  dwords ← dwords;
  h ← make_header method (Z.of_nat (length values)) METHOD_TYPE_INCR 0;
  Some (dwords ++ h :: values).

Definition va_pair (va : Z) : list Z := [Z.land (Z.shiftr va 32) 0x01ffffff; Z.land va 0xffffffff].

Definition launch_flags (sema : bool) : Z :=
  let f := Z.lor 2 (Z.shiftl 1 2) in
  let f := if sema then Z.lor f (Z.shiftl 1 3) else f in
  Z.lor (Z.lor f (Z.shiftl 1 7)) (Z.shiftl 1 8).

(** The dwords of the stream; [sema] is the semaphore's address and payload. *)
Definition encode_d2h_method_stream (src_va dst_va nbytes : Z) (sema : option (Z * Z))
    : option (list Z) :=
  let dwords := INCR NVC8B5_OFFSET_IN_UPPER (va_pair src_va) (Some []) in
  let dwords := INCR NVC8B5_OFFSET_OUT_UPPER (va_pair dst_va) dwords in
  let dwords := INCR NVC8B5_LINE_LENGTH_IN [Z.land nbytes 0xffffffff] dwords in
  let dwords :=
    match sema with
    | Some (sema_va, sema_payload) =>
        INCR NVC8B5_SET_SEMAPHORE_A (va_pair sema_va ++ [Z.land sema_payload 0xffffffff]) dwords
    | None => dwords
    end in
  INCR NVC8B5_LAUNCH_DMA [launch_flags (bool_decide (is_Some sema))] dwords.

(** ** reverse/tools/address_atlas.py *)
Inductive pb_type : Type := PbIncr | PbOne | PbImmd.

(** An entry of decode_pushbuffer's result, without the printable names; the
    value is [data] or [imm], and [pm_bound] is [bound_class_id]. *)
Record pb_method : Type := PbMethod {
  pm_addr : Z; pm_class : Z; pm_subchan : Z; pm_type : pb_type; pm_val : Z; pm_bound : option Z
}.

Definition _DEFAULT_CLASS : Z := 0xC86F.
Definition _SUBCH_DEFAULTS : gmap Z Z :=
  list_to_map [(0, 0xCB97); (1, 0xCBC0); (2, 0xA140); (3, 0xCBC0); (4, 0xC8B5); (5, 0xC8B5);
               (6, 0xC8B5); (7, 0xC8B5)].

(** The entries of one header's data dwords, from the [k]-th on, and the class
    bindings after them. *)
Fixpoint pb_entries (incr : bool) (subchan maddr k : Z) (dws : list Z) (subch : gmap Z Z)
    : list pb_method * gmap Z Z :=
  match dws with
  | [] => ([], subch)
  | dw :: dws =>
      let this_addr := maddr + (if incr then 4 * k else 0) in
      let this_class := default _DEFAULT_CLASS (subch !! subchan) in
      let ty := if incr then PbIncr else PbOne in
      let '(entry, subch) :=
        if this_addr =? 0 then
          let bound := Z.land dw 0xFFFF in
          (PbMethod this_addr _DEFAULT_CLASS subchan ty dw (Some bound), <[subchan := bound]> subch)
        else (PbMethod this_addr this_class subchan ty dw None, subch) in
      let '(rest, subch) := pb_entries incr subchan maddr (k + 1) dws subch in
      (entry :: rest, subch)
  end.

(** The loop over the words; every turn consumes at least one. *)
Fixpoint decode_pb_loop (fuel : nat) (subch : gmap Z Z) (ws : list Z) : list pb_method :=
  match fuel, ws with
  | S fuel, hdr :: ws =>
      if hdr =? 0 then []
      else
        let '(type_, count, subchan, maddr) := decode_header hdr in
        if type_ =? METHOD_TYPE_IMMD then
          PbMethod maddr (default _DEFAULT_CLASS (subch !! subchan)) subchan PbImmd
            (Z.land (Z.shiftr hdr 16) 0x1fff) None :: decode_pb_loop fuel subch ws
        else
          let '(es, subch) :=
            pb_entries (type_ =? METHOD_TYPE_INCR) subchan maddr 0 (take (Z.to_nat count) ws) subch in
          es ++ decode_pb_loop fuel subch (drop (Z.to_nat count) ws)
  | _, _ => []
  end.

Definition decode_pushbuffer (words : list Z) : list pb_method :=
  decode_pb_loop (length words) _SUBCH_DEFAULTS words.

(** ADDRESS_PAIR_METHODS *)
Definition address_pair (addr : Z) : option (Z * string) :=
  if addr =? NVC8B5_OFFSET_IN_UPPER then Some (NVC8B5_OFFSET_IN_LOWER, "CE_src")
  else if addr =? NVC8B5_OFFSET_OUT_UPPER then Some (NVC8B5_OFFSET_OUT_LOWER, "CE_dst")
  else if addr =? NVC8B5_SET_SEMAPHORE_A then Some (NVC8B5_SET_SEMAPHORE_B, "semaphore")
  else None.

(** A folded pair keeps the class and subchannel of its UPPER entry. *)
Inductive folded : Type :=
  | FoldPair (role : string) (va class_id subchan : Z)
  | FoldOther (m : pb_method).

(** [m.get("data", 0)]: an IMMD entry has no data. *)
Definition pm_data (m : pb_method) : Z := match pm_type m with PbImmd => 0 | _ => pm_val m end.

Fixpoint fold_address_pairs (methods : list pb_method) : list folded :=
  match methods with
  | [] => []
  | m :: rest =>
      match address_pair (pm_addr m), rest with
      | Some (lower_addr, role), m2 :: rest2 =>
          if pm_addr m2 =? lower_addr then
            FoldPair role (Z.lor (Z.shiftl (pm_data m) 32) (pm_data m2)) (pm_class m) (pm_subchan m)
              :: fold_address_pairs rest2
          else FoldOther m :: fold_address_pairs rest
      | _, _ => FoldOther m :: fold_address_pairs rest
      end
  end.

(** ** Fields as arithmetic *)
Lemma u32_mod_pow2 n k : 0 ≤ k ≤ 32 → u32 n mod 2 ^ k = n mod 2 ^ k.
Proof.
  intros. apply Z.mod_mod_divide. exists (2 ^ (32 - k)).
  rewrite <-Z.pow_add_r by lia. f_equal; lia.
Qed.

Lemma DRF_NUM_eq hi lo n : 0 ≤ lo ≤ hi → hi < 32 →
  DRF_NUM hi lo n = n mod 2 ^ (hi - lo + 1) * 2 ^ lo.
Proof.
  intros. unfold DRF_NUM.
  rewrite Z.shiftl_mul_pow2, land_ones_mod, u32_mod_pow2 by lia. done.
Qed.

(** ** GPFIFO entries *)
Lemma sync_value_eq sync :
  sync_value sync = sync_bit sync * 2 ^ 31.
Proof. by destruct sync. Qed.

Lemma gpfifo_entry_eq va len sync :
  gpfifo_entry va len sync =
    va / 4 mod 2 ^ 30 * 4 +
    (va / 2 ^ 32 mod 2 ^ 8 + len / 4 mod 2 ^ 21 * 2 ^ 10 + sync_bit sync * 2 ^ 31) * 2 ^ 32.
Proof.
  unfold gpfifo_entry, NvU64_LO32, NvU64_HI32. rewrite sync_value_eq.
  rewrite !DRF_NUM_eq by lia.
  change 0xffffffff with (2 ^ 32 - 1). rewrite !land_pow2_mask, !Z.shiftr_div_pow2 by lia.
  rewrite (lor_mul_add _ _ 10) by zify_divmod.
  rewrite (lor_mul_add _ _ 31) by zify_divmod.
  unfold u64. rewrite Z.shiftl_mul_pow2, (Z.mod_small (_ * _) (2 ^ 64)) by (destruct sync; simpl sync_bit; zify_divmod).
  rewrite lor_mul_add by zify_divmod. destruct sync; simpl sync_bit; zify_divmod.
Qed.

(** The two words of an entry, as the handler reads them from the ring. *)
Definition entry_words (e : Z) : Z * Z := (u32 e, u32 (Z.shiftr e 32)).

Lemma gp_decode_eq e0 e1 : 0 ≤ e0 < 2 ^ 32 →
  gp_decode e0 e1 = GpEntry (e0 / 4 * 4 + e1 mod 2 ^ 8 * 2 ^ 32) (e1 / 2 ^ 10 mod 2 ^ 21 * 4).
Proof.
  intros. unfold gp_decode. f_equal.
  - assert (Z.land e0 0xFFFFFFFC = e0 / 4 * 4) as ->.
    { change 0xFFFFFFFC with (Z.shiftl (Z.ones 30) 2).
      transitivity (Z.shiftl (Z.land (Z.shiftr e0 2) (Z.ones 30)) 2).
      - apply Z.bits_inj'. intros n Hn. rewrite Z.land_spec, !Z.shiftl_spec by lia.
        destruct (decide (n < 2)).
        + by rewrite !(Z.testbit_neg_r _ (n - 2)), andb_false_r by lia.
        + rewrite Z.land_spec, Z.shiftr_spec by lia. do 2 f_equal. lia.
      - rewrite land_ones_mod, Z.shiftl_mul_pow2, Z.shiftr_div_pow2 by lia. zify_divmod. }
    change 0xFF with (2 ^ 8 - 1). rewrite land_pow2_mask, Z.lor_comm by lia.
    rewrite lor_shift_add by zify_divmod. done.
  - change 0x1FFFFF with (2 ^ 21 - 1). rewrite land_pow2_mask, Z.shiftr_div_pow2 by lia.
    apply u32_small. unfold is_u32. zify_divmod.
Qed.

Lemma gpfifo_entry_decodes va len sync :
  va mod 4 = 0 → 0 ≤ len < 2 ^ 23 → len mod 4 = 0 →
  let '(e0, e1) := entry_words (gpfifo_entry va len sync) in
  gp_decode e0 e1 = GpEntry (va mod 2 ^ 40) len.
Proof.
  intros Hva Hlen Hl4. unfold entry_words. rewrite gpfifo_entry_eq, Z.shiftr_div_pow2 by lia.
  rewrite gp_decode_eq by (unfold u32; zify_divmod).
  f_equal; unfold u32; destruct sync; simpl sync_bit; zify_divmod.
Qed.

(** A GPFIFO entry written by nvidia-uvm is read back by the doorbell handler
    as the same submission. The length is exact, and so is the address on
    Turing for a 40-bit one. On Hopper the entry carries the low 40 bits and the
    segment base entry the other 17: the two give back the whole address. *)
Theorem uvm_entry_handler_decodes va len sync :
  0 ≤ va < 2 ^ 57 → va mod 4 = 0 → 0 ≤ len < 2 ^ 23 → len mod 4 = 0 →
  (let '(e0, e1) := entry_words (uvm_hal_hopper_host_set_gpfifo_entry va len sync) in
   gp_decode e0 e1 = GpEntry (va mod 2 ^ 40) len ∧
   bits 24 8 (uvm_hal_hopper_host_set_gpfifo_pushbuffer_segment_base va) * 2 ^ 40 +
     gp_pb_va (gp_decode e0 e1) = va) ∧
  (va < 2 ^ 40 →
   let '(e0, e1) := entry_words (uvm_hal_turing_host_set_gpfifo_entry va len sync) in
   gp_decode e0 e1 = GpEntry va len).
Proof.
  intros Hva Hva4 Hlen Hlen4. split.
  - unfold uvm_hal_hopper_host_set_gpfifo_entry. rewrite Z.shiftl_1_l, land_pow2_mask by lia.
    pose proof (gpfifo_entry_decodes (va mod 2 ^ 40) len sync) as Hd.
    destruct (entry_words _) as [e0 e1].
    rewrite Hd, Z.mod_mod by (try zify_divmod; done). split; [done|]. simpl gp_pb_va.
    unfold uvm_hal_hopper_host_set_gpfifo_pushbuffer_segment_base.
    rewrite DRF_NUM_eq, Z.shiftr_div_pow2 by lia.
    change (u64 _) with (4 * 2 ^ 32). rewrite lor_mul_add by zify_divmod.
    rewrite bits_div by lia. zify_divmod.
  - intros Hlow. unfold uvm_hal_turing_host_set_gpfifo_entry.
    pose proof (gpfifo_entry_decodes va len sync) as Hd. destruct (entry_words _) as [e0 e1].
    rewrite Hd, Z.mod_small by (done || lia). done.
Qed.

Lemma uvm_entry_handler_decodes_witness :
  let va := 0x7f1200000040 in
  let '(e0, e1) :=
    entry_words (uvm_hal_hopper_host_set_gpfifo_entry va 60 UVM_GPFIFO_SYNC_WAIT) in
  gp_decode e0 e1 = GpEntry (va mod 2 ^ 40) 60.
Proof.
  apply (uvm_entry_handler_decodes 0x7f1200000040 60 UVM_GPFIFO_SYNC_WAIT);
    [lia | reflexivity | lia | reflexivity].
Defined.

(** ** The token *)
Lemma submit_token_eq chId runlistId :
  FLD_SET_DRF_NUM 11 0 chId (FLD_SET_DRF_NUM 22 16 runlistId 0) =
    chId mod 2 ^ 12 + runlistId mod 2 ^ 7 * 2 ^ 16.
Proof.
  assert (FLD_SET_DRF_NUM 22 16 runlistId 0 = runlistId mod 2 ^ 7 * 2 ^ 16) as ->.
  { unfold FLD_SET_DRF_NUM. rewrite DRF_NUM_eq by lia. done. }
  unfold FLD_SET_DRF_NUM. rewrite DRF_NUM_eq by lia.
  set (r := runlistId mod _ * _). assert (0 ≤ r < 2 ^ 23 ∧ r mod 2 ^ 12 = 0) as [Hr Hr0].
  { subst r. split; zify_divmod. }
  rewrite (u32_small r) by (unfold is_u32; lia).
  assert (Z.land r (u32 (Z.lnot (Z.shiftl (Z.ones (11 - 0 + 1)) 0))) = r) as ->.
  { change (u32 _) with (Z.shiftl (Z.ones 20) 12).
    assert (r = Z.shiftl (r / 2 ^ 12) 12) as -> by (rewrite Z.shiftl_mul_pow2; zify_divmod).
    rewrite <-Z.shiftl_land, land_ones_mod, Z.mod_small by zify_divmod. done. }
  rewrite Z.lor_comm. change (2 ^ 0) with 1. rewrite Z.mul_1_r. subst r.
  rewrite lor_mul_add by zify_divmod. done.
Qed.

(** The channel id the token names: the guest's own one for a virtual function. *)
Definition token_target (gfId : Z) (vchid : Z -> Z -> Z + Z) (kc : token_channel) (host : bool)
    : Z + Z :=
  if negb host && IS_GFID_VF gfId then vchid (tc_ChID kc) gfId else inl (tc_ChID kc).

(** The work submit token the resource manager generates is the one the
    doorbell handler takes apart: for a 12-bit channel id and a 7-bit runlist the
    handler recovers both exactly, for a physical or a virtual function, so the
    cache key it forms names the submitting channel. *)
Theorem submit_token_roundtrip gfId vchid kc host chId :
  tc_has_group kc = true → tc_runlist_set kc = true →
  token_target gfId vchid kc host = inl chId →
  0 ≤ chId < 2 ^ 12 → 0 ≤ tc_runlistId kc < 2 ^ 7 →
  ∃ token, kfifoGenerateWorkSubmitTokenHal_GA100 (inl gfId) vchid (Some kc) host = inl token ∧
    token_chid token = chId ∧ token_runlist token = tc_runlistId kc.
Proof.
  unfold token_target, kfifoGenerateWorkSubmitTokenHal_GA100. intros Hg Hr Hch Hc Hrl.
  rewrite Hg, Hr. cbn [negb]. rewrite Hch. eexists. split; [done|]. rewrite submit_token_eq.
  unfold token_chid, token_runlist. change 0xfff with (2 ^ 12 - 1). change 0x7f with (2 ^ 7 - 1).
  rewrite !land_pow2_mask, Z.shiftr_div_pow2 by lia. split; zify_divmod.
Qed.

Lemma submit_token_roundtrip_witness :
  ∃ token, kfifoGenerateWorkSubmitTokenHal_GA100 (inl 3) (λ c _, inl (c - 16))
      (Some (TokenChannel 21 true true 9)) false = inl token ∧
    token_chid token = 5 ∧ token_runlist token = 9.
Proof.
  apply (submit_token_roundtrip 3 (λ c _, inl (c - 16)) (TokenChannel 21 true true 9) false 5);
    [reflexivity | reflexivity | reflexivity | lia | simpl; lia].
Defined.

(** ** Method streams *)
Lemma header_word_eq addr count type_ subch :
  0 ≤ addr < 2 ^ 15 → 0 ≤ count < 2 ^ 13 → 0 ≤ subch < 2 ^ 3 →
  header_word addr count type_ subch =
    addr / 4 + subch * 2 ^ 13 + count * 2 ^ 16 + type_ * 2 ^ 29.
Proof.
  intros. unfold header_word. rewrite !Z.shiftl_mul_pow2, Z.shiftr_div_pow2 by lia.
  rewrite (Z.lor_comm _ (addr / _)), (Z.lor_comm _ (subch * _)), (Z.lor_comm (type_ * _)).
  rewrite !Z.lor_assoc. rewrite (lor_mul_add _ _ 13) by zify_divmod.
  rewrite (lor_mul_add _ _ 16) by zify_divmod.
  rewrite (lor_mul_add _ _ 29) by zify_divmod. zify_divmod.
Qed.

Lemma decode_header_word addr count type_ subch :
  0 ≤ addr < 2 ^ 15 → addr mod 4 = 0 → 0 ≤ count < 2 ^ 13 → 0 ≤ subch < 2 ^ 3 →
  0 ≤ type_ < 2 ^ 3 →
  decode_header (header_word addr count type_ subch) = (type_, count, subch, addr).
Proof.
  intros. rewrite header_word_eq by done. unfold decode_header.
  change 0x7 with (2 ^ 3 - 1). change 0x1fff with (2 ^ 13 - 1).
  rewrite !land_pow2_mask, !Z.shiftr_div_pow2, Z.shiftl_mul_pow2 by lia.
  repeat f_equal; zify_divmod.
Qed.

(** The drivers' headers are decode.py's, for the 12-bit address field. *)
Lemma UVM_METHOD_header subch addr count op :
  0 ≤ addr < 2 ^ 14 → 0 ≤ count < 2 ^ 13 → 0 ≤ subch < 2 ^ 3 → 0 ≤ op < 2 ^ 3 →
  Z.lor (Z.lor (Z.lor (DRF_DEF 29 op) (DRF_NUM 11 0 (Z.shiftr addr 2))) (DRF_NUM 15 13 subch))
    (DRF_NUM 28 16 count) = header_word addr count op subch.
Proof.
  intros. rewrite header_word_eq by lia. rewrite !DRF_NUM_eq, Z.shiftr_div_pow2 by lia.
  unfold DRF_DEF. rewrite Z.shiftl_mul_pow2, u32_small by (unfold is_u32; lia).
  rewrite (Z.lor_comm (op * _)), <-!Z.lor_assoc, (Z.lor_comm (op * _)), <-Z.lor_assoc.
  rewrite !Z.lor_assoc. change (2 ^ 0) with 1. rewrite Z.mul_1_r.
  rewrite (lor_mul_add _ _ 13) by zify_divmod.
  rewrite (lor_mul_add _ _ 16) by zify_divmod.
  rewrite (lor_mul_add _ _ 29) by zify_divmod. zify_divmod.
Qed.

(** A method as a driver pushes it: UVM_METHOD_INC or UVM_METHOD_NONINC and its
    data dwords. *)
Record packet : Type := Packet {
  pk_incr : bool; pk_subch : Z; pk_addr : Z; pk_data : list Z
}.

Definition pk_ok (p : packet) : Prop :=
  0 ≤ pk_subch p < 2 ^ 3 ∧ 0 ≤ pk_addr p < 2 ^ 14 ∧ pk_addr p mod 4 = 0 ∧
  Z.of_nat (length (pk_data p)) < 2 ^ 13.

Definition pk_header (p : packet) : Z :=
  (if pk_incr p then UVM_METHOD_INC else UVM_METHOD_NONINC)
    (pk_subch p) (pk_addr p) (Z.of_nat (length (pk_data p))).

Definition pk_words (p : packet) : list Z := pk_header p :: pk_data p.

(** What the packets mean: each one's entries under the bindings before it. *)
Fixpoint pk_meaning (ps : list packet) (subch : gmap Z Z) : list pb_method :=
  match ps with
  | [] => []
  | p :: ps =>
      let '(es, subch) := pb_entries (pk_incr p) (pk_subch p) (pk_addr p) 0 (pk_data p) subch in
      es ++ pk_meaning ps subch
  end.

Definition pk_type (p : packet) : Z := if pk_incr p then METHOD_TYPE_INCR else METHOD_TYPE_ONE.

Lemma pk_header_word p : pk_ok p →
  pk_header p = header_word (pk_addr p) (Z.of_nat (length (pk_data p))) (pk_type p) (pk_subch p).
Proof.
  intros (?&?&?&?). unfold pk_header, pk_type.
  destruct (pk_incr p); apply UVM_METHOD_header; unfold METHOD_TYPE_INCR, METHOD_TYPE_ONE; lia.
Qed.

Lemma pk_header_nonzero p : pk_ok p → (pk_header p =? 0) = false.
Proof.
  intros Hp. rewrite pk_header_word by done. destruct Hp as (?&?&?&?).
  rewrite header_word_eq by lia. apply Z.eqb_neq.
  unfold pk_type, METHOD_TYPE_INCR, METHOD_TYPE_ONE. destruct (pk_incr p); zify_divmod.
Qed.

Lemma pk_header_decodes p : pk_ok p →
  decode_header (pk_header p) =
    (pk_type p, Z.of_nat (length (pk_data p)), pk_subch p, pk_addr p).
Proof.
  intros Hp. rewrite pk_header_word by done. destruct Hp as (?&?&?&?).
  apply decode_header_word; unfold pk_type, METHOD_TYPE_INCR, METHOD_TYPE_ONE;
    try destruct (pk_incr p); lia.
Qed.

Lemma decode_pb_loop_packets ps : Forall pk_ok ps → ∀ fuel subch tail,
  (length (concat (pk_words <$> ps) ++ tail) ≤ fuel)%nat →
  (tail = [] ∨ ∃ junk, tail = 0 :: junk) →
  decode_pb_loop fuel subch (concat (pk_words <$> ps) ++ tail) = pk_meaning ps subch.
Proof.
  induction 1 as [|p ps Hp _ IH]; intros fuel subch tail Hfuel Htail.
  { destruct fuel, Htail as [->|[junk ->]]; done. }
  destruct fuel as [|fuel]; [simpl in Hfuel; lia|].
  cbn [fmap list_fmap concat pk_words app] in *. cbn [decode_pb_loop pk_meaning length] in *.
  rewrite pk_header_nonzero, pk_header_decodes by done.
  assert ((pk_type p =? METHOD_TYPE_IMMD) = false) as ->.
  { unfold pk_type. by destruct (pk_incr p). }
  assert ((pk_type p =? METHOD_TYPE_INCR) = pk_incr p) as ->.
  { unfold pk_type. by destruct (pk_incr p). }
  rewrite <-app_assoc, Nat2Z.id, take_app_length, drop_app_length.
  destruct (pb_entries _ _ _ _ _ _) as [es subch']. f_equal. apply IH; [|done].
  rewrite !length_app in *. lia.
Qed.

(** A pushbuffer written with the drivers' method macros, and zero padding
    after it, is decoded completely by address_atlas.py: every data dword of every
    packet gives one entry, at the address, subchannel and class binding that
    hold at that point, and nothing else is reported. *)
Theorem decode_pushbuffer_reads_push ps tail :
  Forall pk_ok ps → (tail = [] ∨ ∃ junk, tail = 0 :: junk) →
  decode_pushbuffer (concat (pk_words <$> ps) ++ tail) = pk_meaning ps _SUBCH_DEFAULTS.
Proof. intros. by apply decode_pb_loop_packets. Qed.

Definition demo_push : list packet :=
  [Packet true 4 0 [0xC6B5]; Packet true 4 0x400 [0x7f; 0x1000]; Packet false 1 0x1b4 [7; 8]].

Lemma decode_pushbuffer_reads_push_witness :
  decode_pushbuffer (concat (pk_words <$> demo_push) ++ [0; 0xdeadbeef]) =
    [PbMethod 0 _DEFAULT_CLASS 4 PbIncr 0xC6B5 (Some 0xC6B5);
     PbMethod 0x400 0xC6B5 4 PbIncr 0x7f None; PbMethod 0x404 0xC6B5 4 PbIncr 0x1000 None;
     PbMethod 0x1b4 0xCBC0 1 PbOne 7 None; PbMethod 0x1b4 0xCBC0 1 PbOne 8 None].
Proof.
  rewrite (decode_pushbuffer_reads_push demo_push [0; 0xdeadbeef]).
  - vm_compute. reflexivity.
  - repeat constructor; simpl; lia.
  - right. by exists [0xdeadbeef].
Defined.

(** The stream as packets. *)
Definition d2h_packets (src_va dst_va nbytes : Z) (sema : option (Z * Z)) : list packet :=
  [Packet true 0 NVC8B5_OFFSET_IN_UPPER (va_pair src_va);
   Packet true 0 NVC8B5_OFFSET_OUT_UPPER (va_pair dst_va);
   Packet true 0 NVC8B5_LINE_LENGTH_IN [Z.land nbytes 0xffffffff]] ++
  match sema with
  | Some (va, v) => [Packet true 0 NVC8B5_SET_SEMAPHORE_A (va_pair va ++ [Z.land v 0xffffffff])]
  | None => []
  end ++
  [Packet true 0 NVC8B5_LAUNCH_DMA [launch_flags (bool_decide (is_Some sema))]].

Lemma INCR_packet method values dwords : pk_ok (Packet true 0 method values) →
  INCR method values (Some dwords) = Some (dwords ++ pk_words (Packet true 0 method values)).
Proof.
  intros Hp. unfold INCR, pk_words. cbn [mbind option_bind pk_data]. rewrite pk_header_word by done.
  destruct Hp as (_&_&Hal&_). unfold make_header. simpl in Hal.
  change 3 with (2 ^ 2 - 1). rewrite land_pow2_mask by lia. change (2 ^ 2) with 4. by rewrite Hal.
Qed.

Lemma d2h_packets_ok src dst n sema : Forall pk_ok (d2h_packets src dst n sema).
Proof.
  destruct sema as [[??]|]; repeat constructor; vm_compute; done.
Qed.

Lemma encode_d2h_packets src dst n sema :
  encode_d2h_method_stream src dst n sema =
    Some (concat (pk_words <$> d2h_packets src dst n sema)).
Proof.
  unfold encode_d2h_method_stream. pose proof (d2h_packets_ok src dst n sema) as Hok.
  destruct sema as [[??]|]; unfold d2h_packets in Hok; cbn [app] in Hok;
    repeat (apply Forall_cons in Hok as [? Hok]); rewrite !INCR_packet by done; done.
Qed.

Lemma va_pair_join va : 0 ≤ va < 2 ^ 57 →
  Z.lor (Z.shiftl (Z.land (Z.shiftr va 32) 0x01ffffff) 32) (Z.land va 0xffffffff) = va.
Proof.
  intros Hva. change 0x01ffffff with (2 ^ 25 - 1). change 0xffffffff with (2 ^ 32 - 1).
  rewrite !land_pow2_mask, Z.lor_comm, lor_shift_add, Z.shiftr_div_pow2 by zify_divmod.
  zify_divmod.
Qed.

Lemma land_u32 v : 0 ≤ v < 2 ^ 32 → Z.land v 0xffffffff = v.
Proof.
  intros. change 0xffffffff with (2 ^ 32 - 1). rewrite land_pow2_mask, Z.mod_small by lia. done.
Qed.

(** The copy stream decode.py encodes comes back from the atlas decoder and its
    address folding as the same copy: source, destination, length, the optional
    semaphore and the launch, with 57-bit addresses exact. It is encoded on
    subchannel 0, so every entry is attributed to the class bound there by
    default (HOPPER_A), not to the copy engine. *)
Theorem d2h_stream_roundtrip src dst n sema_va payload (with_sema : bool) :
  0 ≤ src < 2 ^ 57 → 0 ≤ dst < 2 ^ 57 → 0 ≤ n < 2 ^ 32 → 0 ≤ sema_va < 2 ^ 57 →
  0 ≤ payload < 2 ^ 32 →
  let sema := if with_sema then Some (sema_va, payload) else None in
  let other addr v := FoldOther (PbMethod addr 0xCB97 0 PbIncr v None) in
  (fold_address_pairs ∘ decode_pushbuffer) <$> encode_d2h_method_stream src dst n sema = Some (
    [FoldPair "CE_src" src 0xCB97 0; FoldPair "CE_dst" dst 0xCB97 0;
     other NVC8B5_LINE_LENGTH_IN n] ++
    (if with_sema then [FoldPair "semaphore" sema_va 0xCB97 0; other 0x248 payload] else []) ++
    [other NVC8B5_LAUNCH_DMA (launch_flags with_sema)]).
Proof.
  intros Hsrc Hdst Hn Hs Hp sema other. rewrite encode_d2h_packets.
  cbn [fmap option_fmap option_map compose]. f_equal.
  unfold decode_pushbuffer. rewrite <-(app_nil_r (concat _)).
  rewrite decode_pb_loop_packets by (auto using d2h_packets_ok).
  rewrite <-(va_pair_join src) at 2 by done. rewrite <-(va_pair_join dst) at 2 by done.
  rewrite <-(land_u32 n) at 2 by done. destruct with_sema; [|done]. subst sema.
  rewrite <-(va_pair_join sema_va) at 2 by done. by rewrite <-(land_u32 payload) at 2 by done.
Qed.

Lemma d2h_stream_roundtrip_witness :
  (fold_address_pairs ∘ decode_pushbuffer) <$>
    encode_d2h_method_stream 0x76ed0c000000 0x76ecfc000000 0x10000000 (Some (0x204a00010, 1)) =
  Some [FoldPair "CE_src" 0x76ed0c000000 0xCB97 0; FoldPair "CE_dst" 0x76ecfc000000 0xCB97 0;
        FoldOther (PbMethod NVC8B5_LINE_LENGTH_IN 0xCB97 0 PbIncr 0x10000000 None);
        FoldPair "semaphore" 0x204a00010 0xCB97 0;
        FoldOther (PbMethod 0x248 0xCB97 0 PbIncr 1 None);
        FoldOther (PbMethod NVC8B5_LAUNCH_DMA 0xCB97 0 PbIncr (launch_flags true) None)].
Proof.
  apply (d2h_stream_roundtrip 0x76ed0c000000 0x76ecfc000000 0x10000000 0x204a00010 1 true); lia.
Defined.

(** decode.py's GPFIFO entry codec inverts itself, but is not the drivers'
    format: it stores the address in ENTRY0 shifted right by two, where the hardware
    field 31:2 holds it in place, so the doorbell handler reads a quarter of the
    low word from an entry decode.py encodes. *)
Theorem decode_py_gp_entry_off_by_four va len :
  0 ≤ va < 2 ^ 40 → va mod 16 = 0 → 0 ≤ len < 2 ^ 23 → len mod 4 = 0 →
  ∃ e0 e1, encode_gp_entry va len = Some (e0, e1) ∧ decode_gp_entry e0 e1 = (va, len, 0) ∧
    gp_decode e0 e1 = GpEntry (va mod 2 ^ 32 / 4 + va / 2 ^ 32 * 2 ^ 32) len.
Proof.
  intros Hva Hal Hlen Hl4. unfold encode_gp_entry. rewrite Hl4. cbn [negb Z.eqb].
  eexists _, _. split; [reflexivity|].
  assert (Z.shiftr (Z.land va 0xfffffffc) 2 = va mod 2 ^ 32 / 4) as ->.
  { rewrite Z.shiftr_land. change (Z.shiftr 0xfffffffc 2) with (2 ^ 30 - 1).
    rewrite land_pow2_mask, Z.shiftr_div_pow2 by lia. zify_divmod. }
  assert (Z.lor (Z.land (Z.land (Z.shiftr va 32) 0xff) 0xff)
            (Z.shiftl (Z.land (len / 4) 0x1fffff) 10) = va / 2 ^ 32 + len / 4 * 2 ^ 10) as ->.
  { change 0xff with (2 ^ 8 - 1). change 0x1fffff with (2 ^ 21 - 1).
    rewrite !land_pow2_mask, lor_shift_add, Z.shiftr_div_pow2 by zify_divmod. zify_divmod. }
  split.
  - unfold decode_gp_entry. change 0xff with (2 ^ 8 - 1). change 0x1fffff with (2 ^ 21 - 1).
    rewrite !land_pow2_mask, !Z.shiftr_div_pow2, Z.lor_comm, (Z.shiftl_mul_pow2 _ 2), lor_shift_add
      by zify_divmod.
    f_equal; [f_equal; zify_divmod|]. change 1 with (2 ^ 1 - 1). rewrite land_pow2_mask by lia.
    zify_divmod.
  - rewrite gp_decode_eq by zify_divmod. f_equal; zify_divmod.
Qed.

Lemma decode_py_gp_entry_off_by_four_witness :
  ∃ e0 e1, encode_gp_entry 0x1200001000 64 = Some (e0, e1) ∧
    decode_gp_entry e0 e1 = (0x1200001000, 64, 0) ∧ gp_decode e0 e1 = GpEntry 0x1200000400 64.
Proof.
  apply (decode_py_gp_entry_off_by_four 0x1200001000 64); [lia | reflexivity | lia | reflexivity].
Defined.

(** An IMMD_DATA_METHOD header (SEC_OP 4) has no data dwords, but the decoder's
    IMMD is SEC_OP 5, so the next [v] dwords are taken for its data. *)
Lemma immd_data_method_swallows_dwords fuel subch v addr sc ws :
  0 ≤ addr < 2 ^ 15 → addr mod 4 = 0 → 0 ≤ v < 2 ^ 13 → 0 ≤ sc < 2 ^ 3 →
  decode_pb_loop (S fuel) subch (header_word addr v 4 sc :: ws) =
    let '(es, subch) := pb_entries false sc addr 0 (take (Z.to_nat v) ws) subch in
    es ++ decode_pb_loop fuel subch (drop (Z.to_nat v) ws).
Proof.
  intros. cbn [decode_pb_loop]. rewrite decode_header_word by lia.
  assert ((header_word addr v 4 sc =? 0) = false) as ->; [|done].
  apply Z.eqb_neq. rewrite header_word_eq by lia. zify_divmod.
Qed.
