(* ===== verification/NvMmap.v ===== *)
(** * NvMmap: the mmap file operation and the VMA callbacks of nv-mmap.c

    The device node maps BAR memory, the control node system memory or peer
    I/O; the doorbell hook and the two trackers are called from here. *)
From stdpp Require Import base numbers list strings gmap.
From S2P Require Import Prelude Kernel Trackers KthreadQ DbellCache DbellVma Resolve.
#[local] Open Scope Z_scope.

(** ** Linux vm_flags, for x86_64 *)
Definition VM_WRITE : Z := 0x2.
Definition VM_SHARED : Z := 0x8.
Definition VM_MAYWRITE : Z := 0x20.
Definition VM_PFNMAP : Z := 0x400.
Definition VM_IO : Z := 0x4000.
Definition VM_DONTEXPAND : Z := 0x40000.
Definition VM_DONTDUMP : Z := 0x4000000.
Definition VM_MIXEDMAP : Z := 0x10000000.

Definition VM_FAULT_SIGBUS : Z := 0x2.
Definition VM_FAULT_NOPAGE : Z := 0x100.

(** ** Data *)
Inductive nv_memory_type : Type :=
  NV_MEMORY_TYPE_SYSTEM | NV_MEMORY_TYPE_REGISTERS | NV_MEMORY_TYPE_FRAMEBUFFER |
  NV_MEMORY_TYPE_DEVICE_MMIO.

#[global] Instance nv_memory_type_eq_dec : EqDecision nv_memory_type.
Proof. solve_decision. Defined.

Definition NV_MEMORY_CACHED : Z := 0.
Definition NV_MEMORY_UNCACHED : Z := 1.
Definition NV_MEMORY_WRITECOMBINED : Z := 2.
Definition NV_MEMORY_DEFAULT : Z := 6.
Definition NV_MEMORY_UNCACHED_WEAK : Z := 7.
Definition NV_PROTECT_WRITEABLE : Z := 2.

(** [MemoryRange] and [MemoryArea] *)
Record MemoryRange : Type := MRange { mr_start : Z; mr_size : Z }.

Definition memareaSize (area : list MemoryRange) : Z :=
  foldl (λ size r, u64 (size + mr_size r)) 0 area.

(** The apertures of [nv_state_t]: base and size. *)
Record nv_state : Type := NvState {
  ns_ptr : Z;
  ns_ctl : bool;                 (* NV_FLAG_CONTROL *)
  ns_regs : MemoryRange;
  ns_fb : option MemoryRange;
  ns_ud : MemoryRange
}.

(** The common test of the three functions below. *)
Definition in_aperture (ap : MemoryRange) (offset length : Z) : bool :=
  let last := u64 (offset + u64 (length - 1)) in
  (mr_start ap <=? offset) && (offset <=? last) &&
  (last <=? u64 (mr_start ap + u64 (mr_size ap - 1))).

Definition IS_REG_OFFSET (nv : nv_state) (offset length : Z) : bool :=
  in_aperture (ns_regs nv) offset length.

Definition IS_FB_OFFSET (nv : nv_state) (offset length : Z) : bool :=
  match ns_fb nv with
  | Some fb => negb (mr_size fb =? 0) && in_aperture fb offset length
  | None => false
  end.

Definition IS_UD_OFFSET (nv : nv_state) (offset length : Z) : bool :=
  negb (mr_start (ns_ud nv) =? 0) && negb (mr_size (ns_ud nv) =? 0) &&
  in_aperture (ns_ud nv) offset length.

(** [nv_alloc_t], the fields this file uses; a page table entry is its physical
    and its kernel virtual address. *)
Record nv_alloc : Type := NvAlloc {
  at_usage_count : Z;
  at_contig : bool;
  at_peer_io : bool;
  at_unencrypted : bool;
  at_carveout : bool;
  at_cache_type : Z;
  at_num_pages : Z;
  at_page_table : option (Z → Z * Z);
  at_import_sgt : bool
}.

Definition at_set_usage (n : Z) (a : nv_alloc) : nv_alloc :=
  NvAlloc n (at_contig a) (at_peer_io a) (at_unencrypted a) (at_carveout a) (at_cache_type a)
    (at_num_pages a) (at_page_table a) (at_import_sgt a).

(** [nv_alloc_mapping_context_t]; [mc_page_array] is the array's address and
    [mc_pages] its contents. *)
Record mapping_context : Type := MappingContext {
  mc_alloc : Z;
  mc_page_index : Z;
  mc_page_array : Z;
  mc_pages : Z → Z;
  mc_num_pages : Z;
  mc_memArea : list MemoryRange;
  mc_access_start : Z;
  mc_access_size : Z;
  mc_prot : Z;
  mc_caching : Z
}.

(** The doorbell watch, the allocations by address, the file's free list and
    the device's mapping state. *)
Record mstate : Type := MState {
  m_dbell : dstate;
  m_allocs : gmap Z nv_alloc;
  m_free_list : list Z;
  m_safe_to_mmap : bool;
  m_all_mappings_revoked : bool;
  m_gpu_wakeup_callback_needed : bool
}.

Definition set_dbell (d : dstate) (s : mstate) : mstate :=
  MState d (m_allocs s) (m_free_list s) (m_safe_to_mmap s) (m_all_mappings_revoked s)
    (m_gpu_wakeup_callback_needed s).
Definition set_allocs (x : gmap Z nv_alloc) (s : mstate) : mstate :=
  MState (m_dbell s) x (m_free_list s) (m_safe_to_mmap s) (m_all_mappings_revoked s)
    (m_gpu_wakeup_callback_needed s).
Definition set_free_list (x : list Z) (s : mstate) : mstate :=
  MState (m_dbell s) (m_allocs s) x (m_safe_to_mmap s) (m_all_mappings_revoked s)
    (m_gpu_wakeup_callback_needed s).
Definition set_safe (b : bool) (s : mstate) : mstate :=
  MState (m_dbell s) (m_allocs s) (m_free_list s) b (m_all_mappings_revoked s)
    (m_gpu_wakeup_callback_needed s).
Definition set_revoked (b : bool) (s : mstate) : mstate :=
  MState (m_dbell s) (m_allocs s) (m_free_list s) (m_safe_to_mmap s) b
    (m_gpu_wakeup_callback_needed s).
Definition set_wakeup (b : bool) (s : mstate) : mstate :=
  MState (m_dbell s) (m_allocs s) (m_free_list s) (m_safe_to_mmap s) (m_all_mappings_revoked s) b.

Definition set_vma_private (vma p : Z) : prog keff mstate unit :=
  modify (λ s, set_dbell (set_priv (<[vma := p]> (d_priv (m_dbell s))) (m_dbell s)) s).

(** Locks: the file's VA lock, the device's mmap lock and the PM lock. *)
Definition FILE_VA : Z := 0x10.
Definition MMAP_LOCK : Z := 0x11.
Definition PM_LOCK : Z := 0x12.

Definition down {S} (l : Z) : prog keff S unit := tell [KAcq (RLock l)].
Definition up {S} (l : Z) : prog keff S unit := tell [KRel (RLock l)].

(** ** Caching attributes *)
Definition NV_ALLOW_WRITE_COMBINING (mt : nv_memory_type) : bool :=
  bool_decide (mt ≠ NV_MEMORY_TYPE_REGISTERS).
Definition NV_ALLOW_CACHING (mt : nv_memory_type) : bool :=
  bool_decide (mt = NV_MEMORY_TYPE_SYSTEM).

(** The return code and the change of [*prot], if any. *)
Definition nv_encode_caching (cache_type : Z) (mt : nv_memory_type) : Z * option pgprot_op :=
  if cache_type =? NV_MEMORY_UNCACHED_WEAK then (0, Some PgUncachedWeak)
  else if cache_type =? NV_MEMORY_UNCACHED then
    (0, Some (if decide (mt = NV_MEMORY_TYPE_SYSTEM) then PgUncached else PgUncachedDevice))
  else if (cache_type =? NV_MEMORY_DEFAULT) || (cache_type =? NV_MEMORY_WRITECOMBINED) then
    if NV_ALLOW_WRITE_COMBINING mt then (0, Some PgWriteCombined) else (1, None)
  else if cache_type =? NV_MEMORY_CACHED then
    if NV_ALLOW_CACHING mt then (0, None) else (1, None)
  else (1, None).

(** The call on [&vma->vm_page_prot]: true when it succeeded. *)
Definition encode_vma_caching (vma cache_type : Z) (mt : nv_memory_type) : prog keff mstate bool :=
  let '(ret, op) := nv_encode_caching cache_type mt in
  match op with Some op => tell [KPgprot vma op] | None => skip end;;
  mret (ret =? 0).

(** ** VMA callbacks *)
Section callbacks.
Context (mask : Z) (usable : bool) (first_word : Z → Z) (mem : Z → Z).

Definition mod_alloc (f : nv_alloc → nv_alloc) (at_ : Z) : prog keff mstate unit :=
  modify (λ s, set_allocs (alter f at_ (m_allocs s)) s).

Definition at_add (n : Z) (a : nv_alloc) : nv_alloc := at_set_usage (at_usage_count a + n) a.

Definition nvidia_vma_open (vma : Z) : prog keff mstate unit :=
  s ← get;
  if nv_dbell_is_watched_vma first_word vma (m_dbell s) then skip
  else
    let at_ := priv_of vma (m_dbell s) in
    if negb (at_ =? NULL) then mod_alloc (at_add 1) at_ else skip.

(** True when the allocation was moved to the free list. *)
Definition nv_alloc_release (at_ : Z) : prog keff mstate bool :=
  mod_alloc (at_add (-1)) at_;;
  s ← get;
  match m_allocs s !! at_ with
  | Some a =>
      if at_usage_count a =? 0 then
        mod_alloc (at_add 1) at_;;
        modify (λ s, set_free_list (at_ :: m_free_list s) s);;
        mret true
      else mret false
  | None => tell [KFault at_];; mret false
  end.

(** The unmap functions of the trackers; [nv_vm_unmap_pages] cannot fail. *)
Definition sysmem_track_remove (vma : Z) : prog keff mstate unit :=
  zoom (λ s, d_sysmem (m_dbell s)) (λ t s, set_dbell (set_sysmem t (m_dbell s)) s)
    (nv_dbell_sysmem_track_remove mask vma).

Definition nvidia_vma_release (vma : Z) : prog keff mstate unit :=
  s ← get;
  if nv_dbell_is_watched_vma first_word vma (m_dbell s) then
    zoom m_dbell set_dbell (nv_dbell_vma_release usable mask first_word mem vma)
  else
    zoom m_dbell set_dbell (nv_dbell_bar1_track_remove mask vma);;
    sysmem_track_remove vma;;
    s ← get;
    let at_ := priv_of vma (m_dbell s) in
    if negb (at_ =? NULL) then nv_alloc_release at_;; skip else skip.
End callbacks.

(** ** The walk over the ranges of a mapping
    The range and physical address of offset [offs], from [cur] on. *)
Fixpoint find_range (area : list MemoryRange) (cur offs : Z) : option Z :=
  match area with
  | [] => None
  | r :: area =>
      let next := u64 (mr_size r + cur) in
      if (cur <=? offs) && (offs <? next) then Some (u64 (offs - cur + mr_start r))
      else find_range area next offs
  end.

Section access.
(** [os_map_kernel_space pa]; [page_address page] is the page's kernel address. *)
Context (os_map_kernel_space page_address page_struct : Z → Z).

Definition page_mask (a : Z) : Z := a - a mod PAGE_SIZE.

(** From [done:] back: the return code for a mapping found. *)
Definition access_copy (kernel_mapping pageOffset length : Z) (write : bool)
    : prog keff mstate Z :=
  let length := Z.min length (PAGE_SIZE - pageOffset) in
  tell [KMemcpy kernel_mapping length write];;
  mret length.

Definition vma_access_body (nv : nv_state) (vma : vm_area) (ctx : option mapping_context)
    (addr length : Z) (write : bool) : prog keff mstate Z :=
  let offsInVma := u64 (addr - vm_start vma) in
  let pageIndex := u32 (Z.shiftr offsInVma PAGE_SHIFT) in
  let pageOffset := offsInVma mod PAGE_SIZE in
  match ctx with
  | None => mret (- EINVAL)
  | Some ctx =>
    if write && (Z.land (mc_prot ctx) NV_PROTECT_WRITEABLE =? 0) then mret (- EACCES)
    else if ns_ctl nv then
      s ← get;
      let at_ := priv_of (vma_ptr vma) (m_dbell s) in
      if at_ =? NULL then mret (- EINVAL)
      else match m_allocs s !! at_ with
      | None => tell [KFault at_];; mret (- EINVAL)
      | Some a =>
          if at_num_pages a <=? pageIndex then mret (- EINVAL)
          else match at_page_table a with
               | Some pt => access_copy ((pt pageIndex).2 + pageOffset) pageOffset length write
               | None => tell [KFault NULL];; mret (- EINVAL)
               end
      end
    else if negb (mc_num_pages ctx =? 0) then
      access_copy (page_address (page_struct (mc_pages ctx pageIndex)) + pageOffset)
        pageOffset length write
    else
      match find_range (mc_memArea ctx) 0 offsInVma with
      | None => mret (- EINVAL)
      | Some realAddr =>
          let km := os_map_kernel_space (page_mask realAddr) in
          if km =? NULL then mret (- ENOMEM)
          else
            tell [KAcq (RIomap km)];;
            ret ← access_copy (km + pageOffset) pageOffset length write;
            tell [KRel (RIomap km)];;
            mret ret
      end
  end.

Definition nvidia_vma_access (nv : nv_state) (vma : vm_area) (ctx : option mapping_context)
    (addr length : Z) (write : bool) : prog keff mstate Z :=
  if length <? 0 then mret (- EINVAL)
  else
    down FILE_VA;;
    ret ← vma_access_body nv vma ctx addr length write;
    up FILE_VA;;
    mret ret.
End access.

(** ** Page faults *)
Section fault.
(** [insert_pfn virt pfn] is nv_insert_pfn's answer, [wakeup] the status of
    rm_schedule_gpu_wakeup, [trylock] that of the PM lock. *)
Context (insert_pfn : Z → Z → Z) (wakeup : Z) (trylock : bool).

(** The pages of one range: the fault code, whether a page was inserted, and
    whether the loop goes on. *)
Fixpoint fault_pages (vma : Z) (n : nat) (virt pfn : Z) (ret : Z) (revoked : bool)
    : prog keff mstate (Z * bool * bool) :=
  match n with
  | O => mret (ret, revoked, true)
  | S n =>
      let ret := insert_pfn virt pfn in
      if negb (ret =? VM_FAULT_NOPAGE) then mret (ret, revoked, false)
      else
        tell [KInsertPfn vma virt pfn];;
        fault_pages vma n (u64 (virt + PAGE_SIZE)) (pfn + 1) ret false
  end.

Fixpoint fault_ranges (vma : vm_area) (area : list MemoryRange) (cur : Z) (ret : Z) (revoked : bool)
    : prog keff mstate (Z * bool) :=
  match area with
  | [] => mret (ret, revoked)
  | r :: area =>
      x ← fault_pages (vma_ptr vma) (Z.to_nat (Z.shiftr (mr_size r) PAGE_SHIFT))
            (u64 (cur + vm_start vma)) (Z.shiftr (mr_start r) PAGE_SHIFT) ret revoked;
      let '(ret, revoked, go) := x in
      if go : bool then fault_ranges vma area (u64 (cur + mr_size r)) ret revoked
      else mret (ret, revoked)
  end.

(** With both locks held. *)
Definition fault_locked (vma : vm_area) (ctx : mapping_context) : prog keff mstate Z :=
  s ← get;
  if negb (m_safe_to_mmap s) then
    if negb (m_gpu_wakeup_callback_needed s) then mret VM_FAULT_NOPAGE
    else if negb (wakeup =? NV_OK) then mret VM_FAULT_SIGBUS
    else tell [KWakeup];; modify (set_wakeup false);; mret VM_FAULT_NOPAGE
  else
    down FILE_VA;;
    x ← fault_ranges vma (mc_memArea ctx) 0 VM_FAULT_NOPAGE true;
    let '(ret, revoked) := x in
    up FILE_VA;;
    modify (λ s, set_revoked (m_all_mappings_revoked s && revoked) s);;
    mret ret.

Definition nvidia_fault (nv : nv_state) (vma : vm_area) (pgoff : Z) (ctx : mapping_context)
    : prog keff mstate Z :=
  if negb (pgoff =? 0) then mret VM_FAULT_SIGBUS
  else if ns_ctl nv then mret VM_FAULT_SIGBUS
  else if negb trylock then mret VM_FAULT_NOPAGE
  else
    down PM_LOCK;; down MMAP_LOCK;;
    ret ← fault_locked vma ctx;
    up MMAP_LOCK;; up PM_LOCK;;
    mret ret.
End fault.

(** ** Revocation *)
Definition nv_revoke_gpu_mappings_locked (nfiles : nat) : prog keff mstate unit :=
  for_each (λ _, tell [KZap]) (seq 0 nfiles);;
  modify (set_revoked true).

Definition NV_ERR_NOT_SUPPORTED : Z := 0x56.

Definition nv_revoke_gpu_mappings (nv : nv_state) (nfiles : nat) : prog keff mstate Z :=
  if ns_ctl nv then mret NV_ERR_NOT_SUPPORTED
  else
    down MMAP_LOCK;;
    nv_revoke_gpu_mappings_locked nfiles;;
    up MMAP_LOCK;;
    mret NV_OK.

Definition nv_set_safe_to_mmap_locked (safe : bool) : prog keff mstate unit :=
  modify (λ s, set_safe safe (if negb safe && m_safe_to_mmap s then set_wakeup true s else s)).

(** ** mmap *)

(** What the kernel and RM answer during the call. *)
Record mm_env : Type := MmEnv {
  mm_pid : Z;
  mm_comm : string;
  mm_gpu_state : Z;                       (* nv_check_gpu_state *)
  mm_disable_iomap_wc : bool;             (* rm_disable_iomap_wc *)
  mm_numa_online : bool;                  (* NV_NUMA_STATUS_ONLINE *)
  mm_pfn_to_page : Z → Z;
  mm_page_struct : Z → Z;                 (* NV_GET_PAGE_STRUCT *)
  mm_remap : Z → Z → Z → Z;               (* remap_pfn_range: virt, phys, size *)
  mm_insert_page : Z → Z → Z;             (* vm_insert_page: virt, page *)
  mm_ioremap_wc : Z → Z → Z;
  mm_ioremap : Z → Z → Z;
  mm_kmalloc_array : Z → Z;
  mm_vm_map_pages : list Z → Z → Z
}.

Section mmap.
Context (mask : Z) (env : mm_env).
(** The doorbell hook's own environment (DbellVma). *)
Context (usable : bool) (register_bp : Z → Z → Z → Z) (pid_of : Z → Z) (denv : mmap_env).

Definition nv_io_remap_page_range (vma phys size start : Z) : prog keff mstate Z :=
  let ret := mm_remap env start phys size in
  when (ret =? 0) (tell [KRemap vma start phys size]);;
  mret ret.

Definition insert_page (vma start phys : Z) : prog keff mstate Z :=
  let page := mm_page_struct env phys in
  let ret := mm_insert_page env start page in
  when (ret =? 0) (tell [KInsertPage start page]);;
  mret ret.

Definition nvidia_mmap_peer_io (vma : vm_area) (a : nv_alloc) (page_index pages : Z)
    : prog keff mstate Z :=
  when (negb (at_contig a)) (tell [KBug]);;
  match at_page_table a with
  | None => tell [KFault NULL];; mret (- EINVAL)
  | Some pt =>
      nv_io_remap_page_range (vma_ptr vma) (pt page_index).1 (u64 (pages * PAGE_SIZE)) (vm_start vma)
  end.

(** One page: [at->flags.guest] is only tested in a vGPU host build. *)
Definition mmap_sysmem_page (vma : vm_area) (a : nv_alloc) (pt : Z → Z * Z) (j start : Z)
    : prog keff mstate Z :=
  if at_carveout a || at_import_sgt a then
    nv_io_remap_page_range (vma_ptr vma) (pt j).1 PAGE_SIZE start
  else
    when (at_unencrypted a) (tell [KPgprot (vma_ptr vma) PgAdjust]);;
    insert_page (vma_ptr vma) start (pt j).1.

Fixpoint mmap_sysmem_loop (vma : vm_area) (a : nv_alloc) (pt : Z → Z * Z) (js : list Z) (start : Z)
    : prog keff mstate Z :=
  match js with
  | [] => mret 0
  | j :: js =>
      ret ← mmap_sysmem_page vma a pt j start;
      if negb (ret =? 0) then mret ret
      else mmap_sysmem_loop vma a pt js (u64 (start + PAGE_SIZE))
  end.

Definition nvidia_mmap_sysmem (vma : vm_area) (at_ : Z) (a : nv_alloc) (page_index pages : Z)
    : prog keff mstate Z :=
  mod_alloc (at_add 1) at_;;
  match at_page_table a with
  | None => tell [KFault NULL];; mret (- EINVAL)
  | Some pt =>
      ret ← mmap_sysmem_loop vma a pt
              (seqZ page_index (u64 (page_index + pages) - page_index)) (vm_start vma);
      if negb (ret =? 0) then mod_alloc (at_add (-1)) at_;; mret (- EAGAIN) else mret 0
  end.

(** The loop of nvidia_mmap_numa: its step reads [page_array[++i]] before the
    bound is tested. *)
Fixpoint mmap_numa_loop (vma : vm_area) (ctx : mapping_context) (fuel : nat) (pages i addr start : Z)
    : prog keff mstate Z :=
  if i <? pages then
    match fuel with
    | O => mret 0
    | S fuel =>
        ret ← insert_page (vma_ptr vma) start addr;
        if negb (ret =? 0) then mret (- EAGAIN)
        else
          tell [KRead (mc_page_array ctx + 8 * (i + 1)) 8];;
          mmap_numa_loop vma ctx fuel pages (i + 1) (mc_pages ctx (i + 1)) (u64 (start + PAGE_SIZE))
    end
  else mret 0.

Definition nvidia_mmap_numa (vma : vm_area) (ctx : mapping_context) : prog keff mstate Z :=
  let pages := Z.shiftr (NV_VMA_SIZE vma) PAGE_SHIFT in
  if mc_num_pages ctx <? pages then mret (- EINVAL)
  else
    tell [KVmFlags (vma_ptr vma) VM_MIXEDMAP];;
    tell [KRead (mc_page_array ctx) 8];;
    mmap_numa_loop vma ctx (Z.to_nat pages) pages 0 (mc_pages ctx 0) (vm_start vma).

Definition bar1_track_add (vma : vm_area) (phys size : Z) : prog keff mstate Z :=
  zoom (λ s, d_bar1 (m_dbell s)) (λ t s, set_dbell (set_bar1 t (m_dbell s)) s)
    (nv_dbell_bar1_track_add mask (mm_ioremap_wc env) (mm_ioremap env) vma phys size).

Definition sysmem_track_add (vma : vm_area) (page_table : option (Z → Z)) (page_index pages : Z)
    : prog keff mstate Z :=
  zoom (λ s, d_sysmem (m_dbell s)) (λ t s, set_dbell (set_sysmem t (m_dbell s)) s)
    (nv_dbell_sysmem_track_add mask (mm_kmalloc_array env) (mm_vm_map_pages env)
       (mm_page_struct env) vma page_table page_index pages).

Definition nv_dbell_note_ctl_peer (vma : vm_area) (a : nv_alloc) (page_index mmap_size pages : Z)
    : prog keff mstate unit :=
  let first_phys := match at_page_table a with Some pt => (pt page_index).1 | None => 0 end in
  MC_TRACE mask mmap_ "ctl_peer"
    [("pid", FDec (mm_pid env)); ("size", FHex mmap_size); ("pages", FDec pages);
     ("first_phys", FHex first_phys)];;
  if (0x1fc000000000 <=? first_phys) && (first_phys <? 0x1fe000000000) then
    bar1_track_add vma first_phys mmap_size;; skip
  else skip.

(** The device node's caching attributes: false is -ENXIO. *)
Definition mmap_dev_caching (nv : nv_state) (vma : vm_area) (ctx : mapping_context)
    : prog keff mstate bool :=
  let access_start := mc_access_start ctx in
  let access_len := mc_access_size ctx in
  if IS_REG_OFFSET nv access_start access_len then
    ok ← encode_vma_caching (vma_ptr vma) NV_MEMORY_UNCACHED NV_MEMORY_TYPE_REGISTERS;
    if ok : bool then
      MC_TRACE mask mmap_ "bar0"
        [("pid", FDec (mm_pid env)); ("comm", FStr (mm_comm env)); ("pa", FHex access_start);
         ("size", FHex (NV_VMA_SIZE vma)); ("nr", FDec (Z.of_nat (length (mc_memArea ctx))))];;
      mret true
    else mret false
  else if IS_FB_OFFSET nv access_start access_len then
    if IS_UD_OFFSET nv access_start access_len then
      encode_vma_caching (vma_ptr vma) NV_MEMORY_UNCACHED NV_MEMORY_TYPE_FRAMEBUFFER
    else
      ok ← encode_vma_caching (vma_ptr vma)
             (if mm_disable_iomap_wc env then NV_MEMORY_UNCACHED else mc_caching ctx)
             NV_MEMORY_TYPE_FRAMEBUFFER;
      if ok : bool then mret true
      else encode_vma_caching (vma_ptr vma) NV_MEMORY_UNCACHED_WEAK NV_MEMORY_TYPE_FRAMEBUFFER
  else mret true.

Fixpoint mmap_ranges (vma : vm_area) (area : list MemoryRange) (cur : Z) : prog keff mstate Z :=
  match area with
  | [] => mret 0
  | r :: area =>
      ret ← nv_io_remap_page_range (vma_ptr vma) (mr_start r) (mr_size r) (u64 (vm_start vma + cur));
      if negb (ret =? 0) then mret (- EAGAIN)
      else mmap_ranges vma area (u64 (cur + mr_size r))
  end.

(** The part under the mmap lock. *)
Definition mmap_dev_map (vma : vm_area) (ctx : mapping_context) : prog keff mstate Z :=
  s ← get;
  if m_safe_to_mmap s then
    modify (set_revoked false);;
    let first := mc_access_start ctx in
    let last := u64 (mc_access_start ctx + mc_access_size ctx - 1) in
    if mm_numa_online env &&
       negb (mm_pfn_to_page env (Z.shiftr first PAGE_SHIFT) =? NULL) &&
       negb (mm_pfn_to_page env (Z.shiftr last PAGE_SHIFT) =? NULL) &&
       negb (mc_num_pages ctx =? 0)
    then nvidia_mmap_numa vma ctx
    else mmap_ranges vma (mc_memArea ctx) 0
  else mret 0.

(** Where a branch of nvidia_mmap_helper goes next: [done:] with a return code,
    [success:], or the protection step before it. *)
Inductive mmap_next : Type := GoDone (ret : Z) | GoSuccess | GoProt.

Definition mmap_device (nv : nv_state) (vma : vm_area) (ctx : mapping_context)
    : prog keff mstate mmap_next :=
  if negb (NV_VMA_SIZE vma =? memareaSize (mc_memArea ctx)) then mret (GoDone (- ENXIO))
  else
    ok ← mmap_dev_caching nv vma ctx;
    if negb ok then mret (GoDone (- ENXIO))
    else
      dbell_ret ← zoom m_dbell set_dbell
        (nv_dbell_intercept_mmap usable register_bp mask pid_of denv (ns_ptr nv) vma
           (mr_start <$> mc_memArea ctx));
      if 0 <? dbell_ret then mret GoSuccess
      else if dbell_ret <? 0 then mret (GoDone dbell_ret)
      else
        down MMAP_LOCK;;
        ret ← mmap_dev_map vma ctx;
        up MMAP_LOCK;;
        if negb (ret =? 0) then mret (GoDone ret)
        else
          tell [KVmFlags (vma_ptr vma) (Z.lor (Z.lor VM_IO VM_PFNMAP) VM_DONTEXPAND)];;
          match mc_memArea ctx with
          | [r] =>
              if IS_FB_OFFSET nv (mc_access_start ctx) (mc_access_size ctx) &&
                 negb (IS_UD_OFFSET nv (mc_access_start ctx) (mc_access_size ctx))
              then bar1_track_add vma (mr_start r) (mr_size r);; mret GoProt
              else mret GoProt
          | _ => mret GoProt
          end.

Definition mmap_peer_io (vma : vm_area) (a : nv_alloc) (page_index mmap_size pages : Z)
    : prog keff mstate mmap_next :=
  ok ← encode_vma_caching (vma_ptr vma) (at_cache_type a) NV_MEMORY_TYPE_DEVICE_MMIO;
  if negb ok then mret (GoDone (- ENXIO))
  else
    nv_dbell_note_ctl_peer vma a page_index mmap_size pages;;
    set_vma_private (vma_ptr vma) NULL;;
    ret ← nvidia_mmap_peer_io vma a page_index pages;
    if negb (ret =? 0) then mret (GoDone ret)
    else
      tell [KVmFlags (vma_ptr vma) VM_IO];;
      tell [KVmFlags (vma_ptr vma) (Z.lor VM_DONTEXPAND VM_DONTDUMP)];;
      mret GoProt.

Definition mmap_sysmem (vma : vm_area) (at_ : Z) (a : nv_alloc) (page_index pages : Z)
    : prog keff mstate mmap_next :=
  ok ← encode_vma_caching (vma_ptr vma) (at_cache_type a) NV_MEMORY_TYPE_SYSTEM;
  if negb ok then mret (GoDone (- ENXIO))
  else
    set_vma_private (vma_ptr vma) at_;;
    ret ← nvidia_mmap_sysmem vma at_ a page_index pages;
    if negb (ret =? 0) then mret (GoDone ret)
    else
      when (256 <=? pages)
        (sysmem_track_add vma ((λ pt j, (pt j).1) <$> at_page_table a) page_index pages;; skip);;
      tell [KVmFlags (vma_ptr vma) VM_SHARED];;
      tell [KVmFlags (vma_ptr vma) (Z.lor VM_DONTEXPAND VM_DONTDUMP)];;
      mret GoProt.

Definition mmap_control (vma : vm_area) (ctx : mapping_context) (vm_priv : Z)
    : prog keff mstate mmap_next :=
  s ← get;
  match m_allocs s !! mc_alloc ctx with
  | None => tell [KFault (mc_alloc ctx)];; mret (GoDone (- EINVAL))
  | Some a =>
      let page_index := mc_page_index ctx in
      let mmap_size := NV_VMA_SIZE vma in
      let pages := Z.shiftr mmap_size PAGE_SHIFT in
      if at_num_pages a <? u64 (page_index + pages) then mret (GoDone (- ERANGE))
      else
        when (negb (vm_priv =? NULL)) (tell [KBug]);;
        if at_peer_io a then mmap_peer_io vma a page_index mmap_size pages
        else mmap_sysmem vma (mc_alloc ctx) a page_index pages
  end.

(** [success:] *)
Definition mmap_success (vma : vm_area) : prog keff mstate Z :=
  tell [KVmOps (vma_ptr vma)];; mret 0.

Definition mmap_protect (vma : vm_area) (prot : Z) : prog keff mstate unit :=
  if Z.land prot NV_PROTECT_WRITEABLE =? 0 then
    tell [KPgprot (vma_ptr vma) PgReadOnly; KVmClear (vma_ptr vma) VM_WRITE;
          KVmClear (vma_ptr vma) VM_MAYWRITE]
  else skip.

(** Between the acquisition and the release of the file's VA lock. *)
Definition mmap_locked (nv : nv_state) (vma : vm_area) (pgoff : Z) (vm_priv : Z)
    (mapping : option mapping_context) : prog keff mstate Z :=
  match mapping with
  | None => mret (- EINVAL)
  | Some ctx =>
    if negb (pgoff =? 0) then mret (- EINVAL)
    else
      MC_TRACE mask mmap_ "any"
        [("pid", FDec (mm_pid env)); ("comm", FStr (mm_comm env));
         ("ctl", FDec (if ns_ctl nv then 1 else 0)); ("size", FHex (NV_VMA_SIZE vma));
         ("access_start", FHex (mc_access_start ctx)); ("pgoff", FHex pgoff)];;
      if negb (mm_gpu_state env =? NV_OK) then mret (- EINVAL)
      else
        set_vma_private (vma_ptr vma) vm_priv;;
        next ← (if negb (ns_ctl nv) then mmap_device nv vma ctx else mmap_control vma ctx vm_priv);
        match next with
        | GoDone ret => mret ret
        | GoSuccess => mmap_success vma
        | GoProt => mmap_protect vma (mc_prot ctx);; mmap_success vma
        end
  end.

(** [file] is nvlfp: absent, or its mapping context, absent or present. *)
Definition nvidia_mmap_helper (nv : nv_state) (file : option (option mapping_context))
    (vma : vm_area) (pgoff vm_priv : Z) : prog keff mstate Z :=
  match file with
  | None => mret NV_ERR_INVALID_ARGUMENT
  | Some mapping =>
      down FILE_VA;;
      ret ← mmap_locked nv vma pgoff vm_priv mapping;
      up FILE_VA;;
      mret ret
  end.

(** [handles] is whether RM objects were exported into the file, [wait_open]
    the answer of nv_wait_open_complete_interruptible, [nvl] the device and
    [stack] the answer of nv_kmem_cache_alloc_stack. *)
Definition nvidia_mmap (handles control : bool) (wait_open : Z) (nvl : option nv_state)
    (stack : Z * Z) (mapping : option mapping_context) (vma : vm_area) (pgoff : Z)
    : prog keff mstate Z :=
  if handles then mret (- EINVAL)
  else if negb control && negb (wait_open =? 0) then mret wait_open
  else
    match nvl with
    | None => mret (- EIO)
    | Some nv =>
        let '(status, sp) := stack in
        if negb (status =? 0) then mret status
        else
          when (negb (sp =? NULL)) (tell [KAcq (RStack sp)]);;
          ret ← nvidia_mmap_helper nv (Some mapping) vma pgoff NULL;
          when (negb (sp =? NULL)) (tell [KRel (RStack sp)]);;
          mret ret
    end.
End mmap.

(** * Theorems *)

(** ** Three walks over the same ranges *)

(** The physical address behind offset [off] of a mapping, without wrapping. *)
Fixpoint area_phys (area : list MemoryRange) (off : Z) : option Z :=
  match area with
  | [] => None
  | r :: area => if off <? mr_size r then Some (mr_start r + off) else area_phys area (off - mr_size r)
  end.

Definition area_size (area : list MemoryRange) : Z := foldr (λ r n, mr_size r + n) 0 area.

Definition range_ok (r : MemoryRange) : Prop :=
  0 ≤ mr_start r ∧ 0 < mr_size r ∧ mr_start r + mr_size r < 2 ^ 64 ∧
  mr_start r mod PAGE_SIZE = 0 ∧ mr_size r mod PAGE_SIZE = 0.

(** What the mappings made by [es] show at [va]. *)
Definition remap_hit (va : Z) (e : keff) : option Z :=
  match e with
  | KRemap _ virt phys size => if (virt <=? va) && (va <? virt + size) then Some (phys + (va - virt)) else None
  | KInsertPfn _ virt pfn =>
      if (virt <=? va) && (va <? virt + PAGE_SIZE) then Some (pfn * PAGE_SIZE + (va - virt)) else None
  | _ => None
  end.

Fixpoint mapped_to (va : Z) (es : list keff) : option Z :=
  match es with
  | [] => None
  | e :: es => match remap_hit va e with Some p => Some p | None => mapped_to va es end
  end.

Lemma mapped_to_app va es es' :
  mapped_to va (es ++ es') = match mapped_to va es with Some p => Some p | None => mapped_to va es' end.
Proof. induction es as [|e es IH]; [done|]. simpl. by destruct (remap_hit va e). Qed.

Lemma area_size_nonneg area : Forall range_ok area → 0 ≤ area_size area.
Proof. induction 1 as [|r area (?&?&?) _ IH]; simpl; lia. Qed.

Lemma area_phys_total area off : Forall range_ok area → 0 ≤ off < area_size area →
  ∃ phys, area_phys area off = Some phys ∧ 0 ≤ phys < 2 ^ 64 ∧ phys mod PAGE_SIZE = off mod PAGE_SIZE.
Proof.
  intros H. revert off. induction H as [|r area Hr Ha IH]; intros off Hoff; simpl in *; [lia|].
  destruct Hr as (?&?&?&Hs&Hz). destruct (off <? mr_size r) eqn:?.
  - eexists. split; [done|]. split; [lia|]. unfold PAGE_SIZE in *. zify_divmod.
  - destruct (IH (off - mr_size r)) as (phys & ? & ? & Hm); [lia|].
    exists phys. split; [done|]. split; [done|]. rewrite Hm. unfold PAGE_SIZE in *. zify_divmod.
Qed.

Lemma find_range_phys area cur off : Forall range_ok area → 0 ≤ cur → cur + area_size area < 2 ^ 64 →
  0 ≤ off → find_range area cur (cur + off) = area_phys area off.
Proof.
  intros H. revert cur off. induction H as [|r area Hr Ha IH]; intros cur off Hc Hn Ho; [done|].
  simpl in *. destruct Hr as (?&?&?&_). pose proof (area_size_nonneg _ Ha).
  rewrite u64_small by (unfold is_u64; lia). destruct (off <? mr_size r) eqn:?.
  - replace ((cur <=? cur + off) && (cur + off <? mr_size r + cur)) with true by lia.
    f_equal. rewrite u64_small by (unfold is_u64; lia). lia.
  - replace ((cur <=? cur + off) && (cur + off <? mr_size r + cur)) with false by lia.
    rewrite <-(IH (mr_size r + cur)) by lia. f_equal. lia.
Qed.

(** The remappings of the ranges, in order. *)
Fixpoint remaps (vma : vm_area) (area : list MemoryRange) (cur : Z) : list keff :=
  match area with
  | [] => []
  | r :: area =>
      KRemap (vma_ptr vma) (u64 (vm_start vma + cur)) (mr_start r) (mr_size r)
      :: remaps vma area (u64 (cur + mr_size r))
  end.

Lemma mmap_ranges_run env vma area cur s : (∀ virt phys size, mm_remap env virt phys size = 0) →
  mmap_ranges env vma area cur s = (0, s, remaps vma area cur).
Proof.
  intros Hremap. revert cur. induction area as [|r area IH]; intros cur; [done|].
  cbn [mmap_ranges remaps]. eapply (run_bind_eq _ _ _ 0 s [_] _ _ _).
  - unfold nv_io_remap_page_range. rewrite Hremap. done.
  - apply IH.
Qed.

Lemma remaps_phys vma area cur off :
  Forall range_ok area → 0 ≤ vm_start vma → 0 ≤ cur → vm_start vma + cur + area_size area < 2 ^ 64 →
  0 ≤ off → mapped_to (vm_start vma + cur + off) (remaps vma area cur) = area_phys area off.
Proof.
  intros H Hv. revert cur off. induction H as [|r area Hr Ha IH]; intros cur off Hc Hn Ho; [done|].
  simpl area_size in Hn. destruct Hr as (?&?&?&_). pose proof (area_size_nonneg _ Ha).
  cbn [remaps mapped_to remap_hit area_phys].
  rewrite !u64_small by (unfold is_u64; lia). destruct (off <? mr_size r) eqn:?.
  - replace ((_ <=? _) && _) with true by lia. f_equal. lia.
  - replace ((vm_start vma + cur <=? _) && _) with false by lia.
    rewrite <-(IH (cur + mr_size r) (off - mr_size r)) by lia. f_equal. lia.
Qed.

(** The pages a fault inserts. *)
Fixpoint page_pfns (vma : Z) (n : nat) (virt pfn : Z) : list keff :=
  match n with
  | O => []
  | S n => KInsertPfn vma virt pfn :: page_pfns vma n (u64 (virt + PAGE_SIZE)) (pfn + 1)
  end.

Fixpoint range_pfns (vma : vm_area) (area : list MemoryRange) (cur : Z) : list keff :=
  match area with
  | [] => []
  | r :: area =>
      page_pfns (vma_ptr vma) (Z.to_nat (Z.shiftr (mr_size r) PAGE_SHIFT)) (u64 (cur + vm_start vma))
        (Z.shiftr (mr_start r) PAGE_SHIFT) ++ range_pfns vma area (u64 (cur + mr_size r))
  end.

Section pfns.
Context (insert_pfn : Z → Z → Z) (Hinsert : ∀ virt pfn, insert_pfn virt pfn = VM_FAULT_NOPAGE).

Lemma fault_pages_run vma n virt pfn rv s :
  fault_pages insert_pfn vma n virt pfn VM_FAULT_NOPAGE rv s =
    ((VM_FAULT_NOPAGE, rv && (n =? 0)%nat, true), s, page_pfns vma n virt pfn).
Proof.
  revert virt pfn rv. induction n as [|n IH]; intros virt pfn rv; [by rewrite andb_true_r|].
  cbn [fault_pages page_pfns]. rewrite Hinsert. change (negb _) with false. cbv iota.
  eapply (run_bind_eq _ _ _ tt s [_]); [done|]. rewrite IH. by rewrite andb_false_r.
Qed.

Lemma fault_ranges_run vma area cur rv s : ∃ rv',
  fault_ranges insert_pfn vma area cur VM_FAULT_NOPAGE rv s =
    ((VM_FAULT_NOPAGE, rv'), s, range_pfns vma area cur).
Proof.
  revert cur rv. induction area as [|r area IH]; intros cur rv; [by exists rv|].
  cbn [fault_ranges range_pfns].
  destruct (IH (u64 (cur + mr_size r))
    (rv && (Z.to_nat (Z.shiftr (mr_size r) PAGE_SHIFT) =? 0)%nat)) as [rv' Hrv].
  exists rv'. eapply run_bind_eq; [apply fault_pages_run|]. exact Hrv.
Qed.
End pfns.

Lemma page_pfns_phys vma n virt pfn off :
  0 ≤ virt → virt + Z.of_nat n * PAGE_SIZE < 2 ^ 64 → 0 ≤ off →
  mapped_to (virt + off) (page_pfns vma n virt pfn) =
    if off <? Z.of_nat n * PAGE_SIZE then Some (pfn * PAGE_SIZE + off) else None.
Proof.
  revert virt pfn off. induction n as [|n IH]; intros virt pfn off Hv Hn Ho.
  { cbn [page_pfns mapped_to]. by rewrite (proj2 (Z.ltb_ge off _)) by lia. }
  cbn [page_pfns mapped_to remap_hit]. unfold PAGE_SIZE in *.
  rewrite u64_small by (unfold is_u64; lia). destruct (decide (off < 4096)).
  - replace ((virt <=? _) && _) with true by lia. rewrite (proj2 (Z.ltb_lt off _)) by lia.
    f_equal. lia.
  - replace ((virt <=? _) && _) with false by lia.
    replace (virt + off) with (virt + 4096 + (off - 4096)) by lia. rewrite IH by lia.
    destruct (Z.ltb_spec (off - 4096) (Z.of_nat n * 4096)), (Z.ltb_spec off (Z.of_nat (S n) * 4096));
      try lia; [f_equal; lia|done].
Qed.

Lemma range_pfns_phys vma area cur off :
  Forall range_ok area → 0 ≤ vm_start vma → 0 ≤ cur → vm_start vma + cur + area_size area < 2 ^ 64 →
  0 ≤ off → mapped_to (vm_start vma + cur + off) (range_pfns vma area cur) = area_phys area off.
Proof.
  intros H Hv. revert cur off. induction H as [|r area Hr Ha IH]; intros cur off Hc Hn Ho; [done|].
  simpl area_size in Hn. destruct Hr as (?&?&?&Hs&Hz). pose proof (area_size_nonneg _ Ha).
  cbn [range_pfns area_phys]. rewrite mapped_to_app, !u64_small by (unfold is_u64; lia).
  rewrite !Z.shiftr_div_pow2 by done. change (2 ^ PAGE_SHIFT) with 4096. unfold PAGE_SIZE in *.
  rewrite (Z.add_comm cur), page_pfns_phys by (unfold PAGE_SIZE; zify_divmod).
  rewrite Z2Nat.id by zify_divmod. unfold PAGE_SIZE.
  replace (mr_size r / 4096 * 4096) with (mr_size r) by zify_divmod.
  replace (mr_start r / 4096 * 4096) with (mr_start r) by zify_divmod.
  destruct (off <? mr_size r) eqn:?; [done|].
  rewrite <-(IH (cur + mr_size r) (off - mr_size r)) by lia. f_equal. lia.
Qed.

Lemma mmap_dev_map_run env vma ctx s :
  (∀ virt phys size, mm_remap env virt phys size = 0) → mc_num_pages ctx = 0 →
  m_safe_to_mmap s = true →
  mmap_dev_map env vma ctx s = (0, set_revoked false s, remaps vma (mc_memArea ctx) 0).
Proof.
  intros Hr Hn Hs. unfold mmap_dev_map. rewrite run_get, Hs, run_modify, Hn.
  rewrite andb_false_r. by apply mmap_ranges_run.
Qed.

Lemma nvidia_fault_eff insert_pfn wakeup nv vma ctx s :
  (∀ virt pfn, insert_pfn virt pfn = VM_FAULT_NOPAGE) → ns_ctl nv = false →
  m_safe_to_mmap s = true →
  run_val (nvidia_fault insert_pfn wakeup true nv vma 0 ctx) s = VM_FAULT_NOPAGE ∧
  m_dbell (run_st (nvidia_fault insert_pfn wakeup true nv vma 0 ctx) s) = m_dbell s ∧
  run_eff (nvidia_fault insert_pfn wakeup true nv vma 0 ctx) s =
    [KAcq (RLock PM_LOCK); KAcq (RLock MMAP_LOCK); KAcq (RLock FILE_VA)] ++
    range_pfns vma (mc_memArea ctx) 0 ++
    [KRel (RLock FILE_VA); KRel (RLock MMAP_LOCK); KRel (RLock PM_LOCK)].
Proof.
  intros Hi Hc Hs. unfold nvidia_fault. rewrite Hc. cbn [negb Z.eqb]. unfold fault_locked.
  destruct (fault_ranges_run insert_pfn Hi vma (mc_memArea ctx) 0 true s) as [rv Hrv].
  unfold run_val, run_st, run_eff, down, up, mbind, prog_bind, tell, get, modify. rewrite Hs.
  cbn [negb]. rewrite Hrv. cbn. rewrite <-!app_assoc. done.
Qed.

Lemma access_range_eff omk pa ps nv vma ctx addr len write s phys :
  ns_ctl nv = false → mc_num_pages ctx = 0 →
  (write = true → Z.land (mc_prot ctx) NV_PROTECT_WRITEABLE ≠ 0) →
  find_range (mc_memArea ctx) 0 (u64 (addr - vm_start vma)) = Some phys →
  omk (page_mask phys) ≠ NULL →
  let off := u64 (addr - vm_start vma) mod PAGE_SIZE in
  vma_access_body omk pa ps nv vma (Some ctx) addr len write s =
    (Z.min len (PAGE_SIZE - off), s,
     [KAcq (RIomap (omk (page_mask phys)));
      KMemcpy (omk (page_mask phys) + off) (Z.min len (PAGE_SIZE - off)) write;
      KRel (RIomap (omk (page_mask phys)))]).
Proof.
  intros Hc Hn Hw Hf Hk off. unfold vma_access_body. rewrite Hc, Hn, Hf.
  rewrite (proj2 (Z.eqb_neq _ _) Hk).
  assert (write && (Z.land (mc_prot ctx) NV_PROTECT_WRITEABLE =? 0) = false) as ->.
  { destruct write; [|done]. apply Z.eqb_neq. auto. }
  done.
Qed.

(** C35: The three ways of reaching the memory behind a device mapping agree. For
    page-aligned ranges, the address that mmap maps at each offset of the VMA, the
    page a later fault inserts there after a revocation, and the page a debugger's
    access maps and copies from, all show the same physical byte. *)
Theorem mmap_fault_access_agree env insert_pfn wakeup omk pa ps nv vma ctx off len s
    (Hremap : ∀ virt phys size, mm_remap env virt phys size = 0)
    (Hinsert : ∀ virt pfn, insert_pfn virt pfn = VM_FAULT_NOPAGE)
    (Hmap : ∀ a, omk a ≠ NULL)
    (Hnv : ns_ctl nv = false) (Hpages : mc_num_pages ctx = 0) (Hsafe : m_safe_to_mmap s = true)
    (Harea : Forall range_ok (mc_memArea ctx)) (Hvma : 0 ≤ vm_start vma)
    (Hfit : vm_start vma + area_size (mc_memArea ctx) < 2 ^ 64)
    (Hoff : 0 ≤ off < area_size (mc_memArea ctx)) :
  ∃ phys,
    area_phys (mc_memArea ctx) off = Some phys ∧
    mapped_to (vm_start vma + off) (run_eff (mmap_dev_map env vma ctx) s) = Some phys ∧
    mapped_to (vm_start vma + off)
      (run_eff (nvidia_fault insert_pfn wakeup true nv vma 0 ctx) s) = Some phys ∧
    KMemcpy (omk (page_mask phys) + phys mod PAGE_SIZE)
      (Z.min len (PAGE_SIZE - phys mod PAGE_SIZE)) false
      ∈ run_eff (vma_access_body omk pa ps nv vma (Some ctx) (vm_start vma + off) len false) s.
Proof.
  destruct (area_phys_total _ _ Harea Hoff) as (phys & Hphys & Hb & Hmod).
  exists phys. split; [done|]. split; [|split].
  - unfold run_eff. rewrite mmap_dev_map_run by done. cbn [snd].
    rewrite <-Hphys, <-(remaps_phys vma _ 0) by lia || done. f_equal. lia.
  - destruct (nvidia_fault_eff insert_pfn wakeup nv vma ctx s) as (_ & _ & ->); [done..|].
    cbn [app mapped_to remap_hit]. rewrite mapped_to_app.
    pose proof (range_pfns_phys vma (mc_memArea ctx) 0 off) as Hr. rewrite Z.add_0_r in Hr.
    rewrite Hr, Hphys by (done || lia). done.
  - unfold run_eff. pose proof (area_size_nonneg _ Harea).
    assert (u64 (vm_start vma + off - vm_start vma) = off) as Ho.
    { rewrite u64_small; [lia|]. unfold is_u64. lia. }
    rewrite (access_range_eff omk pa ps nv vma ctx _ len false s phys); try done.
    + rewrite Ho, Hmod. cbn [snd]. set_solver.
    + rewrite Ho, <-Hphys. rewrite <-(find_range_phys _ 0) by (done || lia). done.
Qed.

(** ** Programs that neither change the state nor hold anything *)
Definition pure_prog {A} (m : prog keff mstate A) : Prop :=
  emits res_neutral m ∧ ∀ s, run_st m s = s.

Create HintDb pure.

Lemma pure_ret {A} (a : A) : pure_prog (mret a).
Proof. split; [eauto with eff|done]. Qed.

Lemma pure_skip : pure_prog skip.
Proof. split; [eauto with eff|done]. Qed.

Lemma pure_get : pure_prog get.
Proof. split; [eauto with eff|done]. Qed.

Lemma pure_tell es : Forall res_neutral es → pure_prog (tell es).
Proof. split; [by apply emits_tell|done]. Qed.

Lemma pure_trace mask c ev fs : pure_prog (MC_TRACE mask c ev fs).
Proof. split; [eauto with eff|intros; apply mc_trace_st]. Qed.

Lemma pure_bind {A B} (m : prog keff mstate A) (k : A → prog keff mstate B) :
  pure_prog m → (∀ a, pure_prog (k a)) → pure_prog (m ≫= k).
Proof.
  intros [Hm Hs] Hk. split; [apply emits_bind; [done|intros a; apply Hk]|].
  intros s. rewrite run_st_bind, Hs. apply Hk.
Qed.

Lemma pure_when b m : pure_prog m → pure_prog (when b m).
Proof. destruct b; [done|intros; apply pure_skip]. Qed.

Lemma wp_pure_prog {A} (m : prog keff mstate A) s h Q :
  pure_prog m → (∀ a, Q a s h) → wp m s h Q.
Proof. intros [Hm Hs] HQ. exists h. rewrite Hs. split; [apply res_goes_neutral, Hm|done]. Qed.

#[export] Hint Resolve pure_ret pure_skip pure_get pure_trace pure_when : pure.
#[export] Hint Extern 1 (pure_prog (tell _)) => apply pure_tell; repeat constructor : pure.

Ltac pure_solve :=
  repeat (case_match || apply pure_bind || (intros ?) || (progress (eauto with pure))).

Lemma encode_vma_caching_pure vma ct mt : pure_prog (encode_vma_caching vma ct mt).
Proof. unfold encode_vma_caching. pure_solve. Qed.
#[export] Hint Resolve encode_vma_caching_pure : pure.

Section pure.
Context (mask : Z) (env : mm_env).

Lemma remap_pure vma phys size start : pure_prog (nv_io_remap_page_range env vma phys size start).
Proof. unfold nv_io_remap_page_range. pure_solve. Qed.

Lemma insert_page_pure vma start phys : pure_prog (insert_page env vma start phys).
Proof. unfold insert_page. pure_solve. Qed.
Hint Resolve remap_pure insert_page_pure : pure.

Lemma mmap_ranges_pure vma area cur : pure_prog (mmap_ranges env vma area cur).
Proof. revert cur. induction area as [|r area IH]; intros cur; cbn [mmap_ranges]; pure_solve. Qed.

Lemma mmap_numa_pure vma ctx : pure_prog (nvidia_mmap_numa env vma ctx).
Proof.
  assert (∀ fuel pages i a st, pure_prog (mmap_numa_loop env vma ctx fuel pages i a st)) as Hl.
  { induction fuel as [|fuel IH]; intros; cbn [mmap_numa_loop]; pure_solve. }
  unfold nvidia_mmap_numa. pure_solve.
Qed.

Lemma mmap_sysmem_loop_pure vma a pt js st : pure_prog (mmap_sysmem_loop env vma a pt js st).
Proof.
  revert st. induction js as [|j js IH]; intros st; cbn [mmap_sysmem_loop]; [pure_solve|].
  unfold mmap_sysmem_page. pure_solve.
Qed.

Lemma mmap_dev_caching_pure nv vma ctx : pure_prog (mmap_dev_caching mask env nv vma ctx).
Proof. unfold mmap_dev_caching. pure_solve. Qed.

Lemma mmap_protect_pure vma prot : pure_prog (mmap_protect vma prot).
Proof. unfold mmap_protect. pure_solve. Qed.

Lemma mmap_peer_io_pure vma a idx pages : pure_prog (nvidia_mmap_peer_io env vma a idx pages).
Proof. unfold nvidia_mmap_peer_io. pure_solve. Qed.
End pure.
#[export] Hint Resolve remap_pure insert_page_pure mmap_ranges_pure mmap_numa_pure
  mmap_sysmem_loop_pure mmap_dev_caching_pure mmap_protect_pure mmap_peer_io_pure : pure.

(** ** What a failed mmap leaves behind *)

(** The doorbell state without the private data of the VMAs. *)
Definition d_core (d : dstate) : dstate := set_priv ∅ d.

Definition keeps (s s' : mstate) : Prop :=
  m_allocs s' = m_allocs s ∧ m_free_list s' = m_free_list s ∧
  d_core (m_dbell s') = d_core (m_dbell s).

#[global] Instance keeps_preorder : PreOrder keeps.
Proof.
  split; [done|]. intros s1 s2 s3 (?&?&?) (?&?&?). split_and!; congruence.
Qed.

Lemma wp_zoom {S T A} (g : S → T) (u : T → S → S) (m : prog keff T A) s h Q :
  wp m (g s) h (λ a t h', Q a (u t s) h') → wp (zoom g u m) s h Q.
Proof.
  intros (h' & Hr & HQ). exists h'. unfold zoom, run_eff, run_val, run_st in *.
  by destruct (m (g s)) as [[a t] es].
Qed.

Lemma wp_put {S} (t s : S) h Q : Q tt t h → wp (put t) s h Q.
Proof. intros HQ. exists h. split; [by apply res_goes_of|done]. Qed.

Lemma set_dbell_id s : set_dbell (m_dbell s) s = s.
Proof. by destruct s. Qed.

Lemma set_bar1_id d : set_bar1 (d_bar1 d) d = d.
Proof. by destruct d. Qed.

Lemma set_sysmem_id d : set_sysmem (d_sysmem d) d = d.
Proof. by destruct d. Qed.

Section failure.
Context (mask : Z) (env : mm_env).

Lemma bar1_add_spec vma ps sz s h :
  wp (bar1_track_add mask env vma ps sz) s h
    (λ _ s' h',
       (∃ i tbl kva, kva ≠ NULL ∧ bar1_insert vma ps sz kva (d_bar1 (m_dbell s)) = Some (i, tbl) ∧
          s' = set_dbell (set_bar1 tbl (m_dbell s)) s ∧ h' ≡ₚ RIomap kva :: h) ∨
       (s' = s ∧ h' ≡ₚ h)).
Proof.
  apply wp_zoom.
  pose proof (bar1_track_add_outcome mask (mm_ioremap_wc env) (mm_ioremap env) vma ps sz
                (d_bar1 (m_dbell s)) h) as [(i & tbl & Hr & Hk & Hins & Hres)|(_ & Ht & Hres)];
    cbv zeta in *; eexists; (split; [by apply res_goes_of|]); unfold run_st, run_val.
  - left. exists i, tbl, (bar1_kva (mm_ioremap_wc env) (mm_ioremap env) ps sz). by rewrite Hr.
  - right. by rewrite Ht, set_bar1_id, set_dbell_id.
Qed.

Lemma sysmem_add_spec vma pt idx n s h :
  wp (sysmem_track_add mask env vma pt idx n) s h
    (λ _ s' h',
       (∃ i tbl kva, kva ≠ NULL ∧ sysmem_insert vma kva n (d_sysmem (m_dbell s)) = Some (i, tbl) ∧
          s' = set_dbell (set_sysmem tbl (m_dbell s)) s ∧ h' ≡ₚ RVmap kva :: h) ∨
       (s' = s ∧ h' ≡ₚ h)).
Proof.
  apply wp_zoom.
  pose proof (sysmem_track_add_outcome mask (mm_kmalloc_array env) (mm_vm_map_pages env)
                (mm_page_struct env) vma pt idx n (d_sysmem (m_dbell s)) h)
    as [(i & kva & tbl & Hr & Hk & Hins & _ & _ & _ & Hres)|(_ & Ht & Hres)];
    cbv zeta in *; eexists; (split; [by apply res_goes_of|]); unfold run_st, run_val.
  - left. exists i, tbl, kva. by rewrite Hr.
  - right. by rewrite Ht, set_sysmem_id, set_dbell_id.
Qed.

Lemma set_private_spec vma p s h Q :
  (∀ s', s' = set_dbell (set_priv (<[vma := p]> (d_priv (m_dbell s))) (m_dbell s)) s → keeps s s' →
     Q tt s' h) → wp (set_vma_private vma p) s h Q.
Proof. intros HQ. apply wp_modify. by apply HQ. Qed.

Lemma alter_add_sub at_ (m : gmap Z nv_alloc) :
  alter (at_add (-1)) at_ (alter (at_add 1) at_ m) = m.
Proof.
  apply map_eq. intros i. destruct (decide (i = at_)) as [->|]; [|by rewrite !lookup_alter_ne].
  rewrite !lookup_alter_eq. destruct (m !! at_) as [a|]; [|done]. simpl. f_equal.
  destruct a. unfold at_add, at_set_usage. simpl. f_equal. lia.
Qed.

(** The system-memory mapping: on success one reference is held, on failure none. *)
Lemma mmap_sysmem_spec vma at_ a idx pages s h :
  is_Some (at_page_table a) →
  wp (nvidia_mmap_sysmem env vma at_ a idx pages) s h
    (λ ret s' h', h' ≡ₚ h ∧
       (ret = 0 ∧ s' = set_allocs (alter (at_add 1) at_ (m_allocs s)) s ∨ ret ≠ 0 ∧ s' = s)).
Proof.
  intros [pt Hpt]. unfold nvidia_mmap_sysmem, mod_alloc. wp_steps. rewrite Hpt.
  apply wp_bind, wp_pure_prog; [apply mmap_sysmem_loop_pure|]. intros ret.
  destruct (negb _); wp_steps; (split; [done|]); [right|by left].
  split; [done|]. cbn [m_allocs set_allocs]. rewrite alter_add_sub. by destruct s.
Qed.
End failure.

Section helper.
Context (mask : Z) (env : mm_env) (usable : bool) (reg : Z → Z → Z → Z) (pid_of : Z → Z).
Context (denv : mmap_env).
#[local] Abbreviation device := (mmap_device mask env usable reg pid_of denv).
#[local] Abbreviation locked := (mmap_locked mask env usable reg pid_of denv).
#[local] Abbreviation helper := (nvidia_mmap_helper mask env usable reg pid_of denv).

(** A branch that stops at [done:] with an error has undone what it did. *)
Definition done_clean (s : mstate) (h : list res) (next : mmap_next) (s' : mstate) (h' : list res) : Prop :=
  match next with GoDone ret => ret ≠ 0 ∧ keeps s s' ∧ h' ≡ₚ h | _ => True end.

Lemma mmap_dev_map_spec vma ctx s h :
  wp (mmap_dev_map env vma ctx) s h (λ _ s' h', keeps s s' ∧ h' = h).
Proof.
  unfold mmap_dev_map. wp_steps. destruct (m_safe_to_mmap s); wp_steps; [|done].
  destruct (_ && _); (apply wp_pure_prog; [eauto with pure|done]).
Qed.

#[local] Ltac wp_clean := wp_steps; unfold done_clean; split_and?; (done || lia || (vm_compute; discriminate)).

Lemma mmap_device_spec nv vma ctx s h :
  d_ctxs (m_dbell s) !! me_kzalloc denv = None → slots_wf (d_slots (m_dbell s)) →
  (∀ a p, me_vm_insert_page denv a p ≤ 0) →
  wp (device nv vma ctx) s h (done_clean s h).
Proof.
  intros Hx Hwf Hins. unfold mmap_device. destruct (negb _); [wp_clean|].
  apply wp_bind, wp_pure_prog; [eauto with pure|]. intros ok. destruct (negb ok); [wp_clean|].
  apply wp_bind, wp_zoom. eapply wp_mono; [by apply intercept_spec|].
  intros ret d' h1 [(-> & _)|(Hle & -> & Hh1)]; [by apply wp_ret|]. rewrite set_dbell_id.
  replace (0 <? ret) with false by lia. destruct (ret <? 0) eqn:?; [wp_clean|].
  unfold down, up. wp_steps. eapply wp_mono; [apply mmap_dev_map_spec|].
  intros ret' s1 h2 [Hk ->]. wp_steps. apply (wp_rel _ _ _ h1); [done|].
  destruct (negb (ret' =? 0)) eqn:?; [wp_clean|].
  apply wp_bind, wp_pure_prog; [eauto with pure|]. intros _.
  destruct (mc_memArea ctx) as [|r [|]]; [wp_clean| |wp_clean].
  destruct (_ && _); [|wp_clean]. apply wp_bind. eapply wp_mono; [apply bar1_add_spec|].
  intros; wp_clean.
Qed.

Lemma mmap_sysmem_path_spec vma at_ a idx pages s h :
  is_Some (at_page_table a) →
  wp (mmap_sysmem mask env vma at_ a idx pages) s h (done_clean s h).
Proof.
  intros Hpt. unfold mmap_sysmem. apply wp_bind, wp_pure_prog; [eauto with pure|]. intros ok.
  destruct (negb ok); [wp_clean|]. apply wp_bind, set_private_spec. intros s1 _ Hk.
  apply wp_bind. eapply wp_mono; [by apply mmap_sysmem_spec|]. intros ret s2 h2 [Hh Hs].
  destruct (negb (ret =? 0)) eqn:?.
  { wp_steps. destruct Hs as [[? _]|[? ->]]; [lia|]. by split_and!. }
  apply wp_bind. apply wp_when; intros _.
  - apply wp_bind. eapply wp_mono; [apply sysmem_add_spec|]. intros. wp_steps.
    apply wp_pure_prog; [eauto with pure|]. intros _. wp_steps.
    apply wp_pure_prog; [eauto with pure|]. intros _. wp_clean.
  - wp_steps. apply wp_pure_prog; [eauto with pure|]. intros _. wp_steps.
    apply wp_pure_prog; [eauto with pure|]. intros _. wp_clean.
Qed.

(** Not a peer I/O mapping of the control node, whose allocation has its pages. *)
Definition not_peer_io (nv : nv_state) (ctx : mapping_context) (s : mstate) : Prop :=
  ns_ctl nv = true → ∀ a, m_allocs s !! mc_alloc ctx = Some a →
    at_peer_io a = false ∧ is_Some (at_page_table a).

Lemma mmap_control_spec nv vma ctx p s h : ns_ctl nv = true → not_peer_io nv ctx s →
  wp (mmap_control mask env vma ctx p) s h (done_clean s h).
Proof.
  intros Hc Hp. unfold mmap_control. wp_steps. destruct (m_allocs s !! mc_alloc ctx) as [a|] eqn:Ha.
  - destruct (Hp Hc a Ha) as [Hio Hpt]. destruct (_ <? _); [wp_clean|]. rewrite Hio.
    apply wp_bind, wp_pure_prog; [eauto with pure|]. intros _. by apply mmap_sysmem_path_spec.
  - wp_steps. apply wp_pure_prog; [eauto with pure|]. intros _. wp_clean.
Qed.

Lemma mmap_locked_spec nv vma pgoff p mapping s h :
  d_ctxs (m_dbell s) !! me_kzalloc denv = None → slots_wf (d_slots (m_dbell s)) →
  (∀ a p, me_vm_insert_page denv a p ≤ 0) →
  (∀ ctx, mapping = Some ctx → not_peer_io nv ctx s) →
  wp (locked nv vma pgoff p mapping) s h (λ ret s' h', ret ≠ 0 → keeps s s' ∧ h' ≡ₚ h).
Proof.
  intros Hx Hwf Hins Hp. unfold mmap_locked. destruct mapping as [ctx|]; [|wp_clean].
  destruct (negb _); [wp_clean|]. wp_steps. destruct (negb _); [wp_clean|].
  wp_steps. apply set_private_spec. intros s1 Hs1 Hk. apply wp_bind.
  assert (wp (if negb (ns_ctl nv) then device nv vma ctx else mmap_control mask env vma ctx p) s1 h
            (done_clean s1 h)) as Hbody.
  { destruct (ns_ctl nv) eqn:Hc; cbn [negb]; [|by apply mmap_device_spec; subst s1].
    apply (mmap_control_spec nv); [done|]. intros _ a Ha. apply (Hp ctx); [done..|]. by subst s1. }
  eapply wp_mono; [exact Hbody|]. intros next s2 h2 Hd. destruct next as [ret| |]; wp_steps.
  - destruct Hd as (_ & Hk' & Hh). intros _. split; [by etrans|done].
  - unfold mmap_success. wp_steps. apply wp_pure_prog; [eauto with pure|]. intros _. wp_clean.
  - apply wp_pure_prog; [eauto with pure|]. intros _. unfold mmap_success. wp_steps.
    apply wp_pure_prog; [eauto with pure|]. intros _. wp_clean.
Qed.
End helper.

(** C39: An mmap that fails leaves nothing behind. Whatever step refuses, the
    trackers, the watched contexts and their slots, the channel cache and the usage
    counts are as before the call, and every lock and resource taken is returned.
    The one exception is a peer I/O mapping of the control node (see below). *)
Theorem failed_mmap_restores mask env usable reg pid_of denv nv file vma pgoff p s held
    (Hfresh : d_ctxs (m_dbell s) !! me_kzalloc denv = None)
    (Hslots : slots_wf (d_slots (m_dbell s)))
    (Herrno : ∀ a p, me_vm_insert_page denv a p ≤ 0)
    (Hpeer : ∀ ctx, file = Some (Some ctx) → not_peer_io nv ctx s)
    (Hfail : run_val (nvidia_mmap_helper mask env usable reg pid_of denv nv file vma pgoff p) s ≠ 0) :
  let m := nvidia_mmap_helper mask env usable reg pid_of denv nv file vma pgoff p in
  keeps s (run_st m s) ∧ res_goes held (run_eff m s) held.
Proof.
  intros m. destruct file as [mapping|]; [|by split; [|apply res_goes_of]].
  assert (∀ ctx, mapping = Some ctx → not_peer_io nv ctx s) as Hp by (intros ctx ->; by apply Hpeer).
  destruct (mmap_locked_spec mask env usable reg pid_of denv nv vma pgoff p mapping s
              (RLock FILE_VA :: held) Hfresh Hslots Herrno Hp) as (h' & Hr & HQ).
  unfold m in *. unfold nvidia_mmap_helper, down, up in *. rewrite !run_val_bind in Hfail.
  rewrite !run_st_bind, !run_eff_bind. destruct (HQ Hfail) as [Hk Hh]. split; [exact Hk|].
  eapply res_goes_app; [apply res_goes_acq|]. eapply res_goes_app; [exact Hr|]. rewrite Hh.
  eapply res_goes_app; [apply res_goes_rel|by apply res_goes_of].
Qed.

(** ** Peer I/O *)
Definition not_ops (e : keff) : Prop := match e with KVmOps _ => False | _ => True end.

Lemma trace_not_ops {S} mask c ev fs : emits not_ops (MC_TRACE (S:=S) mask c ev fs).
Proof. by apply mc_trace_emits. Qed.
#[local] Hint Resolve trace_not_ops : eff.

Lemma bar1_add_not_ops mask env vma ps sz : emits not_ops (bar1_track_add mask env vma ps sz).
Proof. apply emits_zoom. unfold nv_dbell_bar1_track_add. emits_solve. Qed.
#[local] Hint Resolve bar1_add_not_ops : eff.

Lemma encode_not_ops vma ct mt : emits not_ops (encode_vma_caching vma ct mt).
Proof. unfold encode_vma_caching. emits_solve. Qed.
#[local] Hint Resolve encode_not_ops : eff.

Lemma mmap_peer_io_not_ops mask env vma a idx sz pages :
  emits not_ops (mmap_peer_io mask env vma a idx sz pages).
Proof.
  unfold mmap_peer_io, nv_dbell_note_ctl_peer, nvidia_mmap_peer_io, nv_io_remap_page_range,
    set_vma_private. emits_solve.
Qed.

Lemma bar1_add_ok mask env vma ps sz s h i tbl :
  let kva := bar1_kva (mm_ioremap_wc env) (mm_ioremap env) ps sz in
  kva ≠ NULL → bar1_insert vma ps sz kva (d_bar1 (m_dbell s)) = Some (i, tbl) →
  wp (bar1_track_add mask env vma ps sz) s h
    (λ _ s' h', s' = set_dbell (set_bar1 tbl (m_dbell s)) s ∧ h' ≡ₚ RIomap kva :: h).
Proof.
  intros kva Hk Hins. apply wp_zoom.
  pose proof (bar1_track_add_outcome mask (mm_ioremap_wc env) (mm_ioremap env) vma ps sz
                (d_bar1 (m_dbell s)) h) as [(i' & tbl' & Hr & _ & Hins' & Hres)|(Hbad & _)].
  - fold kva in Hins', Hres. rewrite Hins in Hins'. simplify_eq.
    eexists. split; [by apply res_goes_of|]. unfold run_st. cbv zeta in Hr. by rewrite Hr.
  - exfalso. destruct Hbad as [[_ ?]|[_ Hfull]]; [done|].
    unfold bar1_insert in Hins. destruct (list_find _ _) as [[j e]|] eqn:Hf; [|done].
    apply scan_lookup in Hf as [Hj He]. rewrite Forall_lookup in Hfull. by apply (Hfull j e).
Qed.

Section peer.
Context (mask : Z) (env : mm_env) (usable : bool) (reg : Z → Z → Z → Z) (pid_of : Z → Z).
Context (denv : mmap_env) (nv : nv_state) (vma : vm_area) (ctx : mapping_context).
Context (a : nv_alloc) (pt : Z → Z * Z) (s : mstate) (held : list res) (i : nat)
        (tbl : list bar1_entry).
#[local] Abbreviation phys := ((pt (mc_page_index ctx)).1).
#[local] Abbreviation size := (NV_VMA_SIZE vma).
#[local] Abbreviation kva := (bar1_kva (mm_ioremap_wc env) (mm_ioremap env) phys size).

(** The hypotheses of the scenario: a peer I/O allocation in the BAR1 window,
    a free tracker slot, and a kernel that refuses the mapping. *)
Definition peer_refused : Prop :=
  ns_ctl nv = true ∧ mm_gpu_state env = NV_OK ∧
  m_allocs s !! mc_alloc ctx = Some a ∧ at_peer_io a = true ∧ at_page_table a = Some pt ∧
  u64 (mc_page_index ctx + Z.shiftr size PAGE_SHIFT) ≤ at_num_pages a ∧
  (nv_encode_caching (at_cache_type a) NV_MEMORY_TYPE_DEVICE_MMIO).1 = 0 ∧
  0x1fc000000000 ≤ phys < 0x1fe000000000 ∧ kva ≠ NULL ∧
  bar1_insert vma phys size kva (d_bar1 (m_dbell s)) = Some (i, tbl) ∧
  mm_remap env (vm_start vma) phys (u64 (Z.shiftr size PAGE_SHIFT * PAGE_SIZE)) ≠ 0.

Lemma encode_ok_wp v ct mt h s' Q :
  (nv_encode_caching ct mt).1 = 0 → Q true s' h → wp (encode_vma_caching v ct mt) s' h Q.
Proof.
  intros Hok HQ. unfold encode_vma_caching. destruct (nv_encode_caching ct mt) as [ret op].
  simpl in Hok. subst ret. apply wp_bind, wp_pure_prog; [destruct op; eauto with pure|].
  intros _. by wp_steps.
Qed.

Lemma mmap_peer_io_refused h s' : peer_refused →
  d_bar1 (m_dbell s') = d_bar1 (m_dbell s) →
  wp (mmap_peer_io mask env vma a (mc_page_index ctx) size (Z.shiftr size PAGE_SHIFT)) s' h
    (λ next s'' h', (∃ ret, next = GoDone ret ∧ ret ≠ 0) ∧ d_bar1 (m_dbell s'') = tbl ∧
       h' ≡ₚ RIomap kva :: h).
Proof.
  intros (_ & _ & _ & _ & Hpt & _ & Henc & Hwin & Hk & Hins & Href) Heq. unfold mmap_peer_io.
  apply wp_bind, encode_ok_wp; [done|]. cbn [negb]. apply wp_bind.
  unfold nv_dbell_note_ctl_peer. rewrite Hpt. wp_steps.
  replace ((_ <=? _) && _) with true by lia. apply wp_bind.
  eapply wp_mono; [apply (bar1_add_ok _ _ _ _ _ _ _ i tbl); [done|by rewrite Heq]|].
  intros _ s1 h1 [-> Hh1]. wp_steps. apply set_private_spec. intros s2 -> _. apply wp_bind.
  unfold nvidia_mmap_peer_io. apply wp_bind, wp_pure_prog; [eauto with pure|]. intros _. rewrite Hpt.
  unfold nv_io_remap_page_range. rewrite (proj2 (Z.eqb_neq _ _) Href). wp_steps. apply wp_skip. wp_steps.
  rewrite (proj2 (Z.eqb_neq _ _) Href). cbn [negb]. wp_steps. split; [|done]. eauto.
Qed.

Lemma mmap_control_refused h s' : peer_refused →
  d_bar1 (m_dbell s') = d_bar1 (m_dbell s) → m_allocs s' = m_allocs s →
  wp (mmap_control mask env vma ctx NULL) s' h
    (λ next s'' h', (∃ ret, next = GoDone ret ∧ ret ≠ 0) ∧ d_bar1 (m_dbell s'') = tbl ∧
       h' ≡ₚ RIomap kva :: h) ∧
  Forall not_ops (run_eff (mmap_control mask env vma ctx NULL) s').
Proof.
  intros Hcase Hb Hal. pose proof Hcase as (_ & _ & Ha & Hio & _ & Hfit & _).
  unfold mmap_control. rewrite run_eff_get, Hal, Ha, Hio, (proj2 (Z.ltb_ge _ _) Hfit). split.
  - wp_steps. rewrite Hal, Ha, Hio, (proj2 (Z.ltb_ge _ _) Hfit). apply wp_bind, wp_skip.
    by apply mmap_peer_io_refused.
  - apply emits_bind; [apply emits_skip|]. intros _. apply mmap_peer_io_not_ops.
Qed.
End peer.

(** A refused peer I/O mapping leaks its tracker entry. The mapping is
    registered with the BAR1 tracker before the kernel maps it; when the kernel
    refuses, mmap returns the error, but the entry stays in the table with its
    ioremap, and since the VMA never gets its operations no release will drop it. *)
Theorem peer_io_failure_leaks_tracker mask env usable reg pid_of denv nv vma ctx a pt s held i tbl
    (Hcase : peer_refused env nv vma ctx a pt s i tbl) :
  let m := nvidia_mmap_helper mask env usable reg pid_of denv nv (Some (Some ctx)) vma 0 NULL in
  let phys := (pt (mc_page_index ctx)).1 in
  let kva := bar1_kva (mm_ioremap_wc env) (mm_ioremap env) phys (NV_VMA_SIZE vma) in
  run_val m s ≠ 0 ∧ d_bar1 (m_dbell (run_st m s)) = tbl ∧
  tbl !! i = Some (bar1_new vma phys (NV_VMA_SIZE vma) kva) ∧
  res_goes held (run_eff m s) (RIomap kva :: held) ∧ Forall not_ops (run_eff m s).
Proof.
  intros m phys kva.
  pose proof Hcase as (Hctl & Hgpu & _ & _ & _ & _ & _ & _ & _ & Hins & _).
  assert (tbl !! i = Some (bar1_new vma phys (NV_VMA_SIZE vma) kva)) as Hi.
  { apply bar1_insert_Some in Hins as (e & He & _ & _ & ->). apply list_lookup_insert_eq.
    by eapply lookup_lt_Some. }
  assert (wp m s held (λ ret s' h', ret ≠ 0 ∧ d_bar1 (m_dbell s') = tbl ∧ h' ≡ₚ RIomap kva :: held))
    as (h' & Hr & Hv & Hb & Hh).
  { unfold m, nvidia_mmap_helper, down, up, mmap_locked. wp_steps. cbn [negb Z.eqb]. wp_steps.
    rewrite Hgpu. cbn [negb Z.eqb NV_OK]. wp_steps. apply set_private_spec. intros s1 -> _.
    rewrite Hctl. cbn [negb]. wp_steps. eapply wp_mono; [by eapply mmap_control_refused|].
    intros next s2 h2 ((ret & -> & Hne) & Hb & Hh). wp_steps.
    apply (wp_rel _ _ _ (RIomap kva :: held)); [rewrite Hh; solve_Permutation|]. wp_steps. done. }
  rewrite Hh in Hr. split_and!; [done..|].
  unfold m, nvidia_mmap_helper, mmap_locked, down, up. cbn [negb Z.eqb].
  rewrite Hgpu, Hctl. cbn [negb Z.eqb NV_OK]. rewrite !run_eff_bind, !mc_trace_st.
  change (run_st (tell _) s) with s. set (s1 := run_st (set_vma_private _ _) s).
  destruct (mmap_control_refused mask env nv vma ctx a pt s i tbl held s1 Hcase) as [Hw Hno]; [done..|].
  destruct Hw as (h2 & _ & (ret & Hret & _) & _). rewrite Hret.
  repeat (apply Forall_app; split); try by repeat constructor. apply trace_not_ops.
Qed.

(** ** System memory: mmap and release *)
Section sysmem.
Context (mask : Z) (env : mm_env) (usable : bool) (reg : Z → Z → Z → Z) (pid_of : Z → Z).
Context (denv : mmap_env) (first_word mem : Z → Z) (nv : nv_state) (vma : vm_area).

(** What a successful mapping of [at_] has changed. *)
Definition sys_mapped (at_ n : Z) (s : mstate) (h : list res) (s' : mstate) (h' : list res) : Prop :=
  m_allocs s' = alter (at_add 1) at_ (m_allocs s) ∧ m_free_list s' = m_free_list s ∧
  priv_of (vma_ptr vma) (m_dbell s') = at_ ∧ d_ctxs (m_dbell s') = d_ctxs (m_dbell s) ∧
  d_bar1 (m_dbell s') = d_bar1 (m_dbell s) ∧
  ((∃ i kva, kva ≠ NULL ∧
      sysmem_insert vma kva n (d_sysmem (m_dbell s)) = Some (i, d_sysmem (m_dbell s')) ∧
      h' ≡ₚ RVmap kva :: h) ∨
   (d_sysmem (m_dbell s') = d_sysmem (m_dbell s) ∧ h' ≡ₚ h)).

Lemma mmap_sysmem_success at_ a idx pages s h :
  is_Some (at_page_table a) →
  wp (mmap_sysmem mask env vma at_ a idx pages) s h
    (λ next s' h', match next with GoDone ret => ret ≠ 0 | _ => sys_mapped at_ pages s h s' h' end).
Proof.
  intros Hpt. unfold mmap_sysmem. apply wp_bind, wp_pure_prog; [eauto with pure|]. intros ok.
  destruct (negb ok); [wp_steps; by vm_compute|]. apply wp_bind, set_private_spec. intros s1 -> _.
  apply wp_bind. eapply wp_mono; [by apply mmap_sysmem_spec|]. intros ret s2 h2 [Hh Hs].
  destruct (negb (ret =? 0)) eqn:?; [wp_steps; lia|].
  destruct Hs as [[_ ->]|[? _]]; [|lia].
  assert (∀ s3 h3, sys_mapped at_ pages s h s3 h3 →
    wp (tell [KVmFlags (vma_ptr vma) VM_SHARED];;
        tell [KVmFlags (vma_ptr vma) (Z.lor VM_DONTEXPAND VM_DONTDUMP)];; mret GoProt) s3 h3
      (λ next s' h', match next with GoDone ret => ret ≠ 0 | _ => sys_mapped at_ pages s h s' h' end))
    as Htail.
  { intros s3 h3 Hm. apply wp_bind, wp_pure_prog; [eauto with pure|]. intros _.
    apply wp_bind, wp_pure_prog; [eauto with pure|]. intros _. by wp_steps. }
  set (s2 := set_allocs _ _).
  assert (priv_of (vma_ptr vma) (m_dbell s2) = at_) as Hpr
    by (unfold priv_of; cbn; by rewrite lookup_insert_eq).
  apply wp_bind. apply wp_when; intros _.
  - apply wp_bind. eapply wp_mono; [apply sysmem_add_spec|].
    intros _ s3 h3 [(i & tbl & kva & Hk & Hins & -> & Hh3)|[-> Hh3]]; rewrite Hh in Hh3;
      apply wp_skip, Htail; split_and!; try done; [left; by exists i, kva|by right].
  - apply Htail. split_and!; try done. by right.
Qed.

(** Releasing it takes everything back. *)
Lemma sys_release at_ n a s s' h h' :
  sys_mapped at_ n s h s' h' → m_allocs s !! at_ = Some a → 1 ≤ at_usage_count a →
  at_ ≠ NULL → d_ctxs (m_dbell s) !! at_ = None → first_word at_ ≠ NV_DBELL_VMA_TAG →
  sysmem_wf (d_sysmem (m_dbell s)) →
  Forall (λ e, y_vma e ≠ vma_ptr vma) (d_sysmem (m_dbell s)) →
  Forall (λ e, b_vma e ≠ vma_ptr vma) (d_bar1 (m_dbell s)) →
  wp (nvidia_vma_release mask usable first_word mem (vma_ptr vma)) s' h'
    (λ _ s'' h'', m_allocs s'' = m_allocs s ∧ m_free_list s'' = m_free_list s ∧
       d_sysmem (m_dbell s'') = d_sysmem (m_dbell s) ∧ d_bar1 (m_dbell s'') = d_bar1 (m_dbell s) ∧
       h'' ≡ₚ h).
Proof.
  intros (Hal & Hfl & Hpriv & Hcx & Hb & Hsys) Ha Hu Hnz Hnc Htag Hwf Hfs Hfb.
  unfold nvidia_vma_release. wp_steps.
  unfold nv_dbell_is_watched_vma at 1, tag_of. rewrite Hpriv, Hcx, Hnc.
  rewrite (proj2 (Z.eqb_neq _ _) Htag), andb_false_r. apply wp_bind, wp_zoom.
  rewrite <-Hb in Hfb. destruct (bar1_take (vma_ptr vma) (d_bar1 (m_dbell s'))) as [hit b'] eqn:Ht.
  assert (hit = None ∧ b' = d_bar1 (m_dbell s')) as [-> ->].
  { unfold bar1_take in Ht. rewrite (proj2 (list_find_None _ _) Hfb) in Ht. by simplify_eq. }
  exists h'. split.
  { apply res_goes_of. rewrite bar1_track_remove_res, Ht. done. }
  rewrite bar1_track_remove_st, Ht, set_bar1_id, set_dbell_id. apply wp_bind, wp_zoom.
  assert (∀ tbl h2, tbl = d_sysmem (m_dbell s) → h2 ≡ₚ h →
    wp (s ← get; let at_ := priv_of (vma_ptr vma) (m_dbell s) in
        if negb (at_ =? NULL) then nv_alloc_release at_;; skip else skip)
      (set_dbell (set_sysmem tbl (m_dbell s')) s') h2
      (λ _ s'' h'', m_allocs s'' = m_allocs s ∧ m_free_list s'' = m_free_list s ∧
         d_sysmem (m_dbell s'') = d_sysmem (m_dbell s) ∧ d_bar1 (m_dbell s'') = d_bar1 (m_dbell s) ∧
         h'' ≡ₚ h)) as Htail.
  { intros tbl h2 -> Hh2. wp_steps. cbv zeta.
    change (priv_of _ (m_dbell (set_dbell (set_sysmem _ (m_dbell s')) s'))) with
      (priv_of (vma_ptr vma) (m_dbell s')).
    rewrite Hpriv, (proj2 (Z.eqb_neq at_ NULL) Hnz). cbn [negb]. unfold nv_alloc_release, mod_alloc. wp_steps.
    cbn [m_allocs set_allocs set_dbell]. rewrite Hal, alter_add_sub, Ha.
    rewrite (proj2 (Z.eqb_neq _ _)) by lia. wp_steps. cbn. by split_and!. }
  unfold nv_dbell_sysmem_track_remove. wp_steps.
  destruct Hsys as [(i & kva & Hk & Hins & Hh)|[Hsame Hh]].
  - rewrite (sysmem_take_insert vma kva n _ i _ Hwf Hfs Hins). apply wp_bind, wp_put.
    rewrite (proj2 (Z.eqb_neq _ _) Hk). apply wp_bind, (wp_rel _ _ _ h); [done|]. apply wp_trace.
    by apply Htail.
  - unfold sysmem_take. rewrite Hsame, (proj2 (list_find_None _ _) Hfs). apply wp_bind, wp_put.
    apply wp_skip. by apply Htail.
Qed.

(** The mapping under the file's VA lock. *)
Lemma mmap_locked_sysmem ctx a s h :
  ns_ctl nv = true → m_allocs s !! mc_alloc ctx = Some a → at_peer_io a = false →
  is_Some (at_page_table a) →
  wp (mmap_locked mask env usable reg pid_of denv nv vma 0 NULL (Some ctx)) s h
    (λ ret s' h', ret = 0 →
       sys_mapped (mc_alloc ctx) (Z.shiftr (NV_VMA_SIZE vma) PAGE_SHIFT) s h s' h').
Proof.
  intros Hctl Ha Hio Hpt. unfold mmap_locked. cbn [negb Z.eqb]. wp_steps.
  destruct (negb _); [by wp_steps|]. wp_steps. apply set_private_spec. intros s1 Hs1 _.
  rewrite Hctl. cbn [negb]. apply wp_bind. unfold mmap_control. wp_steps.
  assert (m_allocs s1 = m_allocs s) as Hal by (by subst s1). rewrite Hal, Ha, Hio.
  destruct (_ <? _); [by wp_steps|]. apply wp_bind, wp_skip.
  eapply wp_mono; [by apply mmap_sysmem_success|]. intros next s2 h2 Hm.
  destruct next as [ret| |]; [by wp_steps|..]; unfold mmap_success;
    (destruct Hm as (?&?&?&?&?&?); subst s1); wp_steps.
  - apply wp_pure_prog; [eauto with pure|]. intros _. wp_steps. intros _. by split_and!.
  - apply wp_pure_prog; [eauto with pure|]. intros _. wp_steps.
    apply wp_pure_prog; [eauto with pure|]. intros _. wp_steps. intros _. by split_and!.
Qed.

Lemma sys_mapped_frame at_ n r s h s' h' :
  sys_mapped at_ n s (r :: h) s' h' → ∃ h'', h' ≡ₚ r :: h'' ∧ sys_mapped at_ n s h s' h''.
Proof.
  intros (?&?&?&?&?&[(i & kva & ? & ? & Hh)|[? Hh]]).
  - exists (RVmap kva :: h). split; [rewrite Hh; constructor|]. split_and!; try done. left. by exists i, kva.
  - exists h. split; [done|]. split_and!; try done. by right.
Qed.
End sysmem.

(** Unmapping undoes the mapping of system memory through the control node.
    After a successful mmap and the release of its VMA, the allocation has the same
    usage count and is not on the free list, both trackers are as before, and the
    vmap the tracker may have made for the trap handler is gone. *)
Theorem sysmem_mmap_release_roundtrip mask env usable reg pid_of denv first_word mem nv vma ctx a s held
    (Hctl : ns_ctl nv = true) (Ha : m_allocs s !! mc_alloc ctx = Some a)
    (Hio : at_peer_io a = false) (Hpt : is_Some (at_page_table a)) (Hu : 1 ≤ at_usage_count a)
    (Hat : mc_alloc ctx ≠ NULL) (Hnc : d_ctxs (m_dbell s) !! mc_alloc ctx = None)
    (Htag : first_word (mc_alloc ctx) ≠ NV_DBELL_VMA_TAG)
    (Hwf : sysmem_wf (d_sysmem (m_dbell s)))
    (Hfs : Forall (λ e, y_vma e ≠ vma_ptr vma) (d_sysmem (m_dbell s)))
    (Hfb : Forall (λ e, b_vma e ≠ vma_ptr vma) (d_bar1 (m_dbell s)))
    (Hok : run_val (nvidia_mmap_helper mask env usable reg pid_of denv nv (Some (Some ctx)) vma 0 NULL) s = 0) :
  let m := nvidia_mmap_helper mask env usable reg pid_of denv nv (Some (Some ctx)) vma 0 NULL in
  let r := nvidia_vma_release mask usable first_word mem (vma_ptr vma) in
  let s' := run_st r (run_st m s) in
  m_allocs s' = m_allocs s ∧ m_free_list s' = m_free_list s ∧
  d_sysmem (m_dbell s') = d_sysmem (m_dbell s) ∧ d_bar1 (m_dbell s') = d_bar1 (m_dbell s) ∧
  res_goes held (run_eff m s ++ run_eff r (run_st m s)) held.
Proof.
  intros m r s'.
  destruct (mmap_locked_sysmem mask env usable reg pid_of denv nv vma ctx a s (RLock FILE_VA :: held)
              Hctl Ha Hio Hpt) as (h1 & Hr & HQ).
  unfold m, nvidia_mmap_helper, down, up in *. rewrite !run_val_bind in Hok.
  unfold s' in *. rewrite !run_st_bind, !run_eff_bind.
  destruct (sys_mapped_frame _ _ _ _ _ _ _ _ (HQ Hok)) as (h1' & Hh1 & Hm).
  destruct (sys_release mask usable first_word mem vma (mc_alloc ctx) _ a s _ held h1' Hm Ha Hu Hat
              Hnc Htag Hwf Hfs Hfb) as (h2 & Hr2 & H1 & H2 & H3 & H4 & Hh2).
  split_and!; [done..|]. rewrite Hh1 in Hr. rewrite Hh2 in Hr2. simplify_list_eq.
  eapply (res_goes_app _ (RLock FILE_VA :: held) _ [_]); [apply res_goes_acq|].
  eapply res_goes_app; [exact Hr|]. eapply (res_goes_app _ h1' _ [_]); [apply res_goes_rel|exact Hr2].
Qed.

(** ** Revocation and the doorbell watch *)
Lemma revoke_eff nv nfiles s : ns_ctl nv = false →
  run_eff (nv_revoke_gpu_mappings nv nfiles) s =
    [KAcq (RLock MMAP_LOCK)] ++ replicate nfiles KZap ++ [KRel (RLock MMAP_LOCK)] ∧
  run_st (nv_revoke_gpu_mappings nv nfiles) s = set_revoked true s.
Proof.
  intros Hc.
  assert (for_each (λ _ : nat, tell (S:=mstate) [KZap]) (seq 0 nfiles) s = (tt, s, replicate nfiles KZap)) as Hz.
  { generalize 0%nat. induction nfiles as [|n IH]; intros k; [done|]. cbn [seq for_each].
    by eapply (run_bind_eq _ _ _ tt s [KZap]). }
  assert (nv_revoke_gpu_mappings nv nfiles s = (NV_OK, set_revoked true s,
    [KAcq (RLock MMAP_LOCK)] ++ (replicate nfiles KZap ++ []) ++ [KRel (RLock MMAP_LOCK)] ++ [])) as Hm.
  { unfold nv_revoke_gpu_mappings. rewrite Hc. eapply (run_bind_eq _ _ _ tt s [_]); [done|].
    eapply (run_bind_eq _ _ _ tt (set_revoked true s)); [|by eapply (run_bind_eq _ _ _ tt _ [_])].
    eapply run_bind_eq; [apply Hz|done]. }
  unfold run_eff, run_st. rewrite Hm, app_nil_r. done.
Qed.

(** A revocation silently ends a watch. When the driver revokes its mappings
    and the application touches its doorbell window again, the fault handler
    inserts the device's own pages: the doorbell dword of the watched VMA shows the
    real register, no longer the shadow page, although the VMA still counts as
    watched and keeps its context, its slot and its breakpoints. *)
Theorem revocation_ends_watch insert_pfn wakeup first_word nv vma ctx r nfiles s
    (Hinsert : ∀ virt pfn, insert_pfn virt pfn = VM_FAULT_NOPAGE)
    (Hnv : ns_ctl nv = false) (Hsafe : m_safe_to_mmap s = true)
    (Hwatched : nv_dbell_is_watched_vma first_word (vma_ptr vma) (m_dbell s) = true)
    (Harea : mc_memArea ctx = [r]) (Hr : range_ok r) (Hsize : mr_size r = NV_DBELL_REGION_SIZE)
    (Hvma : 0 ≤ vm_start vma) (Hfit : vm_start vma + NV_DBELL_REGION_SIZE < 2 ^ 64) :
  let m := nv_revoke_gpu_mappings nv nfiles in
  let f := nvidia_fault insert_pfn wakeup true nv vma 0 ctx in
  let s1 := run_st m s in
  run_val f s1 = VM_FAULT_NOPAGE ∧ m_dbell (run_st f s1) = m_dbell s ∧
  nv_dbell_is_watched_vma first_word (vma_ptr vma) (m_dbell (run_st f s1)) = true ∧
  mapped_to (vm_start vma + NV_DBELL_OFFSET) (run_eff m s ++ run_eff f s1) =
    Some (mr_start r + NV_DBELL_OFFSET).
Proof.
  intros m f s1. destruct (revoke_eff nv nfiles s Hnv) as [He Hs1]. fold m in He, Hs1.
  unfold s1. rewrite Hs1, He.
  destruct (nvidia_fault_eff insert_pfn wakeup nv vma ctx (set_revoked true s) Hinsert Hnv Hsafe)
    as (Hv & Hd & Hf). fold f in Hv, Hd, Hf. rewrite Hd. split_and!; [done..|]. rewrite Hf, Harea.
  rewrite mapped_to_app. assert (∀ n es, mapped_to (vm_start vma + NV_DBELL_OFFSET)
    (replicate n KZap ++ es) = mapped_to (vm_start vma + NV_DBELL_OFFSET) es) as Hz.
  { intros n es. by induction n. }
  cbn [app mapped_to remap_hit]. rewrite Hz. cbn [mapped_to remap_hit]. rewrite mapped_to_app.
  pose proof (range_pfns_phys vma [r] 0 NV_DBELL_OFFSET) as Hp. rewrite Z.add_0_r in Hp.
  simpl area_size in Hp. rewrite Hp; [|by apply Forall_singleton|done|done|unfold NV_DBELL_REGION_SIZE in *; lia|done].
  simpl. rewrite Hsize. done.
Qed.

(** ** The NUMA loop reads one element past its array *)
Lemma numa_reads_past_end env vma ctx s :
  (∀ virt page, mm_insert_page env virt page = 0) →
  mc_num_pages ctx = Z.shiftr (NV_VMA_SIZE vma) PAGE_SHIFT → 0 < mc_num_pages ctx →
  run_val (nvidia_mmap_numa env vma ctx) s = 0 ∧
  KRead (mc_page_array ctx + 8 * mc_num_pages ctx) 8 ∈ run_eff (nvidia_mmap_numa env vma ctx) s.
Proof.
  intros Hins Hn Hpos. unfold nvidia_mmap_numa. rewrite <-Hn, Z.ltb_irrefl.
  assert (∀ fuel i a st, Z.of_nat fuel = mc_num_pages ctx - i → 0 ≤ i ≤ mc_num_pages ctx → ∃ es,
    mmap_numa_loop env vma ctx fuel (mc_num_pages ctx) i a st s = (0, s, es) ∧
    (i < mc_num_pages ctx → KRead (mc_page_array ctx + 8 * mc_num_pages ctx) 8 ∈ es)) as Hl.
  { induction fuel as [|fuel IH]; intros i a st Hf Hi; cbn [mmap_numa_loop].
    { rewrite (proj2 (Z.ltb_ge _ _)) by lia. exists []. split; [done|lia]. }
    rewrite (proj2 (Z.ltb_lt _ _)) by lia.
    destruct (IH (i + 1) (mc_pages ctx (i + 1)) (u64 (st + PAGE_SIZE))) as (es & Hes & Hin); [lia..|].
    eexists. split.
    - eapply (run_bind_eq _ _ _ 0 s [_]); [unfold insert_page; by rewrite Hins|].
      eapply (run_bind_eq _ _ _ tt s [_]); [done|exact Hes].
    - intros _. destruct (decide (i + 1 = mc_num_pages ctx)) as [->|]; [set_solver|].
      rewrite !elem_of_app. right. right. apply Hin. lia. }
  destruct (Hl (Z.to_nat (mc_num_pages ctx)) 0 (mc_pages ctx 0) (vm_start vma)) as (es & Hes & Hin); [lia..|].
  unfold run_val, run_eff, mbind, prog_bind, tell. rewrite Hes. cbn. split; [done|].
  do 2 right. apply Hin. lia.
Qed.

(** ** Concrete mappings *)
Definition demo_mm_env (remap : Z) : mm_env :=
  MmEnv 100 "app" NV_OK false false (λ pfn, pfn) id (λ _ _ _, remap) (λ _ _, 0) (λ _ _, 0xc0000000)
    (λ _ _, 0) (λ _, 0x5000) (λ _ _, 0x900000).

Definition demo_mstate : mstate := MState dstate0 ∅ [] true false false.

Definition demo_gpu_node : nv_state :=
  NvState 9 false (MRange 0xe0000000 0x1000000) (Some (MRange 0x1fc000000000 0x2000000000)) (MRange 0 0).
Definition demo_ctl_node : nv_state := NvState 1 true (MRange 0 0) None (MRange 0 0).

(** Two ranges of one and two pages. *)
Definition demo_area : list MemoryRange := [MRange 0x1fc022000000 0x1000; MRange 0x1fc024000000 0x2000].
Definition demo_dev_ctx (area : list MemoryRange) : mapping_context :=
  MappingContext 0 0 0 id 0 area 0x1fc022000000 0x1000 3 NV_MEMORY_UNCACHED.
Definition demo_vma : vm_area := VmArea 7 0x7f0000000000 0x7f0000003000.

Lemma mmap_fault_access_agree_witness :
  ∃ phys,
    area_phys demo_area 0x1ab0 = Some phys ∧
    mapped_to 0x7f0000001ab0 (run_eff (mmap_dev_map (demo_mm_env 0) demo_vma (demo_dev_ctx demo_area)) demo_mstate)
      = Some phys.
Proof.
  destruct (mmap_fault_access_agree (demo_mm_env 0) (λ _ _, VM_FAULT_NOPAGE) 0 (λ _, 0xd0000000) id id
              demo_gpu_node demo_vma (demo_dev_ctx demo_area) 0x1ab0 8 demo_mstate)
    as (phys & H1 & H2 & _); [done..|repeat constructor; done|done|vm_compute; done|vm_compute; done|].
  exists phys. split; [exact H1|exact H2].
Defined.

Lemma failed_mmap_restores_witness :
  let m := nvidia_mmap_helper 0x3ff (demo_mm_env (-12)) true (λ t _ _, 0x1000 + t) id demo_mmap_env
             demo_gpu_node (Some (Some (demo_dev_ctx demo_area))) demo_vma 0 NULL in
  run_val m demo_mstate = - EAGAIN ∧ keeps demo_mstate (run_st m demo_mstate).
Proof.
  split; [vm_compute; reflexivity|].
  apply (failed_mmap_restores 0x3ff (demo_mm_env (-12)) true (λ t _ _, 0x1000 + t) id demo_mmap_env
           demo_gpu_node (Some (Some (demo_dev_ctx demo_area))) demo_vma 0 NULL demo_mstate []).
  - reflexivity.
  - split; [reflexivity|repeat constructor].
  - done.
  - intros ctx _ Hctl. discriminate Hctl.
  - vm_compute. discriminate.
Defined.

(** An allocation of 256 pages at address 0x77, peer I/O or system memory. *)
Definition demo_alloc (peer : bool) : nv_alloc :=
  NvAlloc 1 true peer false false (if peer then NV_MEMORY_UNCACHED else NV_MEMORY_CACHED) 256
    (Some (λ j, (0x1fc022000000 + j * 4096, 0))) false.
Definition demo_alloc_state (peer : bool) : mstate :=
  MState dstate0 {[0x77 := demo_alloc peer]} [] true false false.
Definition demo_ctl_ctx : mapping_context :=
  MappingContext 0x77 0 0 id 0 [] 0 0 3 NV_MEMORY_CACHED.
Definition demo_big_vma : vm_area := VmArea 8 0x7f0000000000 0x7f0000100000.

Lemma peer_io_failure_leaks_tracker_witness :
  let m := nvidia_mmap_helper 0x3ff (demo_mm_env (-12)) true (λ t _ _, 0x1000 + t) id demo_mmap_env
             demo_ctl_node (Some (Some demo_ctl_ctx)) demo_big_vma 0 NULL in
  let s := demo_alloc_state true in
  run_val m s ≠ 0 ∧
  (∃ e, d_bar1 (m_dbell (run_st m s)) !! 0%nat = Some e ∧ b_vma e = 8) ∧ Forall not_ops (run_eff m s).
Proof.
  destruct (peer_io_failure_leaks_tracker 0x3ff (demo_mm_env (-12)) true (λ t _ _, 0x1000 + t) id
              demo_mmap_env demo_ctl_node demo_big_vma demo_ctl_ctx (demo_alloc true)
              (λ j, (0x1fc022000000 + j * 4096, 0)) (demo_alloc_state true) [] 0%nat
              (<[0%nat := bar1_new demo_big_vma 0x1fc022000000 0x100000 0xc0000000]> g_bar1_tracked0))
    as (Hv & Hb & Hi & _ & Hno).
  - split_and!; try reflexivity; vm_compute; discriminate.
  - split; [exact Hv|]. split; [|exact Hno]. rewrite Hb. eexists. split; [exact Hi|reflexivity].
Defined.

Lemma sysmem_mmap_release_roundtrip_witness :
  let m := nvidia_mmap_helper 0x3ff (demo_mm_env 0) true (λ t _ _, 0x1000 + t) id demo_mmap_env
             demo_ctl_node (Some (Some demo_ctl_ctx)) demo_big_vma 0 NULL in
  let s := demo_alloc_state false in
  run_val m s = 0 ∧ d_sysmem (m_dbell (run_st m s)) ≠ d_sysmem (m_dbell s) ∧
  m_allocs (run_st (nvidia_vma_release 0x3ff true (λ _, 0) (λ _, 0) 8) (run_st m s)) = m_allocs s.
Proof.
  assert (run_val (nvidia_mmap_helper 0x3ff (demo_mm_env 0) true (λ t _ _, 0x1000 + t) id demo_mmap_env
            demo_ctl_node (Some (Some demo_ctl_ctx)) demo_big_vma 0 NULL) (demo_alloc_state false) = 0)
    as Hok by (vm_compute; reflexivity).
  split; [exact Hok|]. split; [vm_compute; discriminate|].
  apply (sysmem_mmap_release_roundtrip 0x3ff (demo_mm_env 0) true (λ t _ _, 0x1000 + t) id demo_mmap_env
           (λ _, 0) (λ _, 0) demo_ctl_node demo_big_vma demo_ctl_ctx (demo_alloc false)
           (demo_alloc_state false) []); try done; try (repeat constructor; done); by vm_compute.
Defined.

(** The state after the doorbell window was intercepted. *)
Definition demo_watched : mstate :=
  set_dbell (run_st (nv_dbell_intercept_mmap true (λ t _ _, 0x1000 + t) 0x1ff id demo_mmap_env 9 demo_window
                       [0x1fc020030000]) dstate0) demo_mstate.

Lemma revocation_ends_watch_witness :
  let ctx := demo_dev_ctx [MRange 0x1fc020030000 0x10000] in
  let f := nvidia_fault (λ _ _, VM_FAULT_NOPAGE) 0 true demo_gpu_node demo_window 0 ctx in
  let m := nv_revoke_gpu_mappings demo_gpu_node 1 in
  mapped_to 0x7f0000000090 (run_eff m demo_watched ++ run_eff f (run_st m demo_watched))
    = Some 0x1fc020030090.
Proof.
  apply (revocation_ends_watch (λ _ _, VM_FAULT_NOPAGE) 0 (λ _, 0) demo_gpu_node demo_window
           (demo_dev_ctx [MRange 0x1fc020030000 0x10000]) (MRange 0x1fc020030000 0x10000) 1 demo_watched).
  all: try done; vm_compute; done.
Defined.
