(* ===== verification/Pbcap.v ===== *)
(** * Pbcap: the user-space capture shim

    [src/reverse/tools/pbcap.c] is preloaded into a CUDA program. It tracks the
    descriptors and mappings of [/dev/nvidia*], write-protects the pages that
    hold a doorbell, and logs each store to one of them: the store faults, the
    SIGSEGV handler opens the page and sets the trap flag, the store is replayed,
    and the SIGTRAP handler logs it, snapshots the nvidia mappings listed in
    [/proc/self/maps] and protects the page again.

    - [fd_*], [map_*], [dbell_find_mapping]: the two tables;
    - [parse_maps_line_sigsafe], [u32_to_fixed], [uptr_to_hex],
      [snapshot_all_sigsafe]: the signal-safe snapshot;
    - [sig_segv], [sig_trap], [dbell_arm_mapping], [dbell_scan_and_arm]: the
      watchpoint;
    - [hook_open] ... [hook_munmap]: the interposed calls.

    A text is the list of its byte values, without the terminating NUL. What
    mprotect answers, what [/proc/self/maps] reads and what a load of the
    doorbell returns come from an environment record. *)
From stdpp Require Import base numbers list strings.
From S2P Require Import Prelude.
#[local] Open Scope Z_scope.

Definition MAX_FDS : nat := 128.
Definition MAX_MAPPINGS : nat := 256.
Definition HOPPER_USERMODE_BAR0_LEN : Z := 65536.
Definition HOPPER_VF_DOORBELL_OFF : Z := 0x90.
Definition PROT_READ : Z := 1.
Definition PROT_WRITE : Z := 2.
Definition MAP_FAILED : Z := 2 ^ 64 - 1.
Definition EFL_TF : Z := 0x100.

Inductive map_kind := MAP_KIND_OTHER | MAP_KIND_USERMODE_BAR0.

#[global] Instance map_kind_eq_dec : EqDecision map_kind.
Proof. solve_decision. Defined.

Record fd_info := FdInfo { fi_fd : Z; fi_name : text }.

Record map_info := MapInfo {
  mi_addr : Z; mi_length : Z; mi_fd : Z; mi_fdname : text;
  mi_offset : Z; mi_prot : Z; mi_kind : map_kind }.

(** The globals of the shim, the trap flag register of the thread that stores,
    the protection of each address and whether SIGSEGV is back to its default. *)
Record pstate := PState {
  g_fds : list fd_info; g_maps : list map_info;
  g_dbell_seq : Z; g_dbell_pending : Z;
  p_efl : Z; p_prot : Z → Z; p_segv_dfl : bool }.

(** The configuration [do_init] reads from the environment. *)
Record pconf := PConf {
  g_outdir : text; g_max_bytes : Z; g_dbell_arm : bool;
  g_dbell_sample : Z; g_dbell_sync : bool; g_dbell_pipe_w : Z }.

(** What the kernel and the device answer. *)
Record penv := PEnv {
  mprotect_ok : Z → Z → Z → bool;
  maps_text : Z → text;
  dbell_read : Z → Z }.

Inductive pval := PNum (z : Z) | PStr (t : text).

(** What the shim and the program it watches do. *)
Inductive peff :=
| PEvent (kind : string) (fields : list (string * pval))
| PMprotect (addr len prot : Z) (ok : bool)
| PFile (path : text) (data len : Z)
| PSmash (path : text)
| PPipe (seq : Z)
| PStore (addr v : Z)
| PKilled (addr : Z)
| PClose (fd : Z)
| PUnmap (addr len : Z).

#[local] Abbreviation M := (prog peff pstate).

Definition set_fds (l : list fd_info) (s : pstate) : pstate :=
  PState l (g_maps s) (g_dbell_seq s) (g_dbell_pending s) (p_efl s) (p_prot s) (p_segv_dfl s).
Definition set_maps (l : list map_info) (s : pstate) : pstate :=
  PState (g_fds s) l (g_dbell_seq s) (g_dbell_pending s) (p_efl s) (p_prot s) (p_segv_dfl s).
Definition set_dbell_seq (q : Z) (s : pstate) : pstate :=
  PState (g_fds s) (g_maps s) q (g_dbell_pending s) (p_efl s) (p_prot s) (p_segv_dfl s).
Definition set_pending (b : Z) (s : pstate) : pstate :=
  PState (g_fds s) (g_maps s) (g_dbell_seq s) b (p_efl s) (p_prot s) (p_segv_dfl s).
Definition set_efl (x : Z) (s : pstate) : pstate :=
  PState (g_fds s) (g_maps s) (g_dbell_seq s) (g_dbell_pending s) x (p_prot s) (p_segv_dfl s).
Definition set_prot (f : Z → Z) (s : pstate) : pstate :=
  PState (g_fds s) (g_maps s) (g_dbell_seq s) (g_dbell_pending s) (p_efl s) f (p_segv_dfl s).
Definition set_segv_dfl (s : pstate) : pstate :=
  PState (g_fds s) (g_maps s) (g_dbell_seq s) (g_dbell_pending s) (p_efl s) (p_prot s) true.

(** The tables as [do_init] leaves them. *)
Definition init_fds : list fd_info := replicate MAX_FDS (FdInfo (-1) []).
Definition init_maps : list map_info :=
  replicate MAX_MAPPINGS (MapInfo NULL 0 0 [] 0 0 MAP_KIND_OTHER).

(** ** C strings *)

(** The suffix at the first occurrence of a nonempty needle. *)
Fixpoint strstr (needle t : text) : option text :=
  match t with
  | [] => None
  | _ :: t' => if starts_with needle t then Some t else strstr needle t'
  end.

(** The C string at the start of a buffer. *)
Definition cstr (buf : text) : text := take_while (λ c, negb (c =? 0)) buf.

(** [snprintf(dst, 64, "%s", src)]. *)
Definition name64 (t : text) : text := take 63 t.

(** ** The descriptor table *)

Definition fd_is_nvidia (path : text) : bool := starts_with (codes "/dev/nvidia") path.

Definition fd_record (fd : Z) (path : text) (l : list fd_info) : list fd_info :=
  if fd <? 0 then l
  else match list_find (λ e, fi_fd e = -1) l with
       | Some (i, _) => <[i := FdInfo fd (name64 path)]> l
       | None => l
       end.

Definition fd_forget (fd : Z) (l : list fd_info) : list fd_info :=
  if fd <? 0 then l
  else match list_find (λ e, fi_fd e = fd) l with
       | Some (i, _) => <[i := FdInfo (-1) []]> l
       | None => l
       end.

Definition fd_lookup (fd : Z) (l : list fd_info) : option text :=
  match list_find (λ e, fi_fd e = fd) l with
  | Some (_, e) => Some (fi_name e)
  | None => None
  end.

(** ** The mapping table *)

Definition classify_map (fdname : text) (len prot : Z) : map_kind :=
  if (len =? HOPPER_USERMODE_BAR0_LEN) && negb (Z.land prot PROT_WRITE =? 0)
     && bool_decide (is_Some (strstr (codes "/dev/nvidia0") fdname))
  then MAP_KIND_USERMODE_BAR0 else MAP_KIND_OTHER.

(** Write an entry in the first free slot, if there is one. *)
Definition map_insert (m : map_info) (l : list map_info) : list map_info :=
  match list_find (λ e, mi_addr e = NULL) l with
  | Some (i, _) => <[i := m]> l
  | None => l
  end.

Definition map_forget (addr len : Z) (l : list map_info) : list map_info :=
  match list_find (λ e, mi_addr e = addr ∧ mi_length e = len) l with
  | Some (i, e) =>
      <[i := MapInfo NULL (mi_length e) (mi_fd e) (mi_fdname e) (mi_offset e)
               (mi_prot e) (mi_kind e)]> l
  | None => l
  end.

Definition map_holds (f : Z) (e : map_info) : bool :=
  negb (mi_addr e =? NULL) && bool_decide (mi_kind e = MAP_KIND_USERMODE_BAR0)
  && (mi_addr e <=? f) && (f <? u64 (mi_addr e + mi_length e)).

Definition dbell_find_mapping (fault : Z) (l : list map_info) : option map_info :=
  match list_find (λ e, map_holds fault e = true) l with
  | Some (_, e) => Some e
  | None => None
  end.

(** ** The signal-safe formatters and the maps parser *)

(** The value of a hexadecimal digit, negative for any other byte. *)
Definition nibble_value (c : Z) : Z :=
  if (48 <=? c) && (c <=? 57) then c - 48
  else if (97 <=? c) && (c <=? 102) then c - 97 + 10
  else if (65 <=? c) && (c <=? 70) then c - 65 + 10
  else -1.

(** The hexadecimal number before the byte [stop], and the text after it. *)
Fixpoint parse_hex (stop : Z) (p : text) (v : Z) : option (Z * text) :=
  match p with
  | [] => None
  | c :: p =>
      if c =? stop then Some (v, p)
      else if nibble_value c <? 0 then None
      else parse_hex stop p (u64 (Z.lor (Z.shiftl v 4) (nibble_value c)))
  end.

(** Skip one token: [while ( *p == ' ') p++; while ( *p && *p != ' ' && *p != '\n') p++;] *)
Definition skip_token (p : text) : text :=
  drop_while (λ c, negb (c =? 32) && negb (c =? 10)) (drop_while (λ c, c =? 32) p).

Record maps_line := MapsLine { ml_start : Z; ml_end : Z; ml_perms : text; ml_path : text }.

Definition parse_maps_line_sigsafe (line : text) : option maps_line :=
  '(start, p) ← parse_hex 45 line 0;
  '(end_, p) ← parse_hex 32 p 0;
  match p with
  | p0 :: p1 :: p2 :: p3 :: p =>
      let p := skip_token (skip_token (skip_token p)) in
      let p := drop_while (λ c, c =? 32) p in
      Some (MapsLine start end_ [p0; p1; p2; p3] (take_while (λ c, negb (c =? 10)) p))
  | _ => None
  end.

(** The digits a [while (v > 0 && n < size)] loop stores, least first. *)
Fixpoint dec_digits (size : nat) (v : Z) : text :=
  match size with
  | O => []
  | S n => if 0 <? v then 48 + v mod 10 :: dec_digits n (v / 10) else []
  end.

Fixpoint hex_digits (size : nat) (v : Z) : text :=
  match size with
  | O => []
  | S n =>
      if 0 <? v
      then nth (Z.to_nat (Z.land v 0xf)) (codes "0123456789abcdef") 0
             :: hex_digits n (Z.shiftr v 4)
      else []
  end.

Definition u32_to_fixed (v : Z) (width : nat) : text :=
  let tmp := if v =? 0 then [48] else dec_digits 16 v in
  reverse (tmp ++ replicate (width - length tmp) 48).

Definition uptr_to_hex (v : Z) : text :=
  reverse (if v =? 0 then [48] else hex_digits 20 v).

(** How the body of the walk over the lines ends: it falls through to the next
    line, takes the [continue], or has written past the 512 bytes of [outpath]. *)
Inductive walk := WalkNext | WalkContinue | WalkSmashed.

(** ** Snapshots and the watchpoint *)
Section shim.
Context (cf : pconf) (env : penv).

(** mprotect changes the protection of whole pages. *)
Definition in_pages (addr len a : Z) : bool :=
  (addr <=? a) && (a <? addr + (len + 4095) / 4096 * 4096).

Definition mprotect (addr len prot : Z) : M bool :=
  let ok := mprotect_ok env addr len prot in
  tell [PMprotect addr len prot ok];;
  when ok (modify (λ s, set_prot (λ a, if in_pages addr len a then prot else p_prot s a) s));;
  mret ok.

Definition emit_event (kind : string) (fields : list (string * pval)) : M unit :=
  tell [PEvent kind fields].

(** The bytes a 256 KiB buffer holds after reading the whole file. *)
Definition proc_maps_read_sigsafe (content : text) : text := take (256 * 1024 - 1) content.

(** The name of the snapshot file of a mapping. *)
Definition snap_outpath (idx : Z) (match_ : text) (start len : Z) : text :=
  let tag := take 32 (take_while (λ c, negb (c =? 32) && negb (c =? 10)) (drop 5 match_)) in
  g_outdir cf ++ codes "/snap-" ++ u32_to_fixed idx 5 ++ codes "-dbell-" ++ tag
    ++ codes "-0x" ++ uptr_to_hex start ++ codes "-len" ++ uptr_to_hex len ++ codes ".bin".


(** The write of one mapping, opened first when the permissions ask for it. *)
Definition snap_write (outpath : text) (start len : Z) (perms : text) : M walk :=
  if (nth 1 perms 0 =? 45) && negb (nth 0 perms 0 =? 114) then
    ok ← mprotect start len (Z.lor PROT_READ PROT_WRITE);
    if ok : bool then
      tell [PFile outpath start len];;
      mprotect start len PROT_WRITE;;
      mret WalkNext
    else mret WalkContinue
  else tell [PFile outpath start len];; mret WalkNext.

(** The body of the walk, on the line that starts the buffer. *)
Definition snap_line (idx : Z) (line : text) : M walk :=
  match parse_maps_line_sigsafe line with
  | None => mret WalkNext
  | Some ml =>
      match strstr (codes "/dev/nvidia") (ml_path ml) with
      | None => mret WalkNext
      | Some match_ =>
          let len := u64 (ml_end ml - ml_start ml) in
          if (0 <? len) && (len <=? g_max_bytes cf) then
            let outpath := snap_outpath idx match_ (ml_start ml) len in
            if 512 <=? Z.of_nat (length outpath) then
              tell [PSmash outpath];; mret WalkSmashed
            else snap_write outpath (ml_start ml) len (ml_perms ml)
          else mret WalkNext
      end
  end.

(** The walk over the lines. [rest] is the buffer from [line] on; the newline
    that ends the line is overwritten in place. Each turn overwrites one, so
    the length of the buffer is enough fuel. *)
Fixpoint snap_walk (fuel : nat) (idx : Z) (rest : text) : M unit :=
  match fuel with
  | O => skip
  | S fuel =>
      match rest with
      | [] => skip
      | c :: _ =>
          if c =? 0 then skip
          else match list_find (λ c, c = 10) rest with
               | None => skip
               | Some (nl, _) =>
                   let rest := <[nl := 0]> rest in
                   w ← snap_line idx (cstr rest);
                   match w with
                   | WalkNext => snap_walk fuel idx (drop (nl + 1) rest)
                   | WalkContinue => snap_walk fuel idx rest
                   | WalkSmashed => skip
                   end
               end
      end
  end.

Definition snapshot_all_sigsafe (idx : Z) : M unit :=
  let maps_buf := proc_maps_read_sigsafe (maps_text env idx) in
  snap_walk (S (length maps_buf)) idx maps_buf.

Definition sig_segv (fault : Z) : M unit :=
  s ← get;
  match dbell_find_mapping fault (g_maps s) with
  | None => modify set_segv_dfl
  | Some m =>
      mprotect (mi_addr m) (mi_length m) (Z.lor PROT_READ PROT_WRITE);;
      modify (set_pending (mi_addr m));;
      modify (λ s, set_efl (Z.lor (p_efl s) EFL_TF) s)
  end.

(** The event and the snapshot of the SIGTRAP handler, with the sequence number
    of the doorbell. *)
Definition trap_log (base seq : Z) : M unit :=
  emit_event "doorbell"
    [("seq", PNum seq); ("bar0", PNum base);
     ("token", PNum (dbell_read env (base + HOPPER_VF_DOORBELL_OFF)))]%string;;
  when (seq mod g_dbell_sample cf =? 0)
    (if g_dbell_sync cf then snapshot_all_sigsafe seq
     else when (0 <=? g_dbell_pipe_w cf) (tell [PPipe seq])).

Definition sig_trap : M unit :=
  modify (λ s, set_efl (Z.land (p_efl s) (Z.lnot EFL_TF)) s);;
  base ← gets g_dbell_pending;
  modify (set_pending NULL);;
  if base =? NULL then skip
  else
    seq ← gets g_dbell_seq;
    modify (set_dbell_seq (u32 (seq + 1)));;
    trap_log base seq;;
    s ← get;
    match dbell_find_mapping base (g_maps s) with
    | Some m => mprotect (mi_addr m) (mi_length m) PROT_READ;; skip
    | None => skip
    end.

Definition dbell_arm_mapping (addr len : Z) : M unit :=
  ok ← mprotect addr len PROT_READ;
  when ok (emit_event "doorbell.arm" [("bar0", PNum addr); ("length", PNum len)]%string).

Definition map_record (addr len fd offset prot : Z) : M unit :=
  s ← get;
  match fd_lookup fd (g_fds s) with
  | None => skip
  | Some name =>
      let kind := classify_map name len prot in
      modify (set_maps (map_insert (MapInfo addr len fd (name64 name) offset prot kind) (g_maps s)));;
      when (bool_decide (kind = MAP_KIND_USERMODE_BAR0) && g_dbell_arm cf)
        (dbell_arm_mapping addr len)
  end.

(** One line of [/proc/self/maps] as [sscanf] splits it: [None] when fewer than
    six fields matched. *)
Definition scan_one (line : option maps_line) : M unit :=
  match line with
  | None => skip
  | Some ml =>
      let len := u64 (ml_end ml - ml_start ml) in
      if bool_decide (is_Some (strstr (codes "/dev/nvidia0") (ml_path ml)))
         && (len =? HOPPER_USERMODE_BAR0_LEN) && (nth 1 (ml_perms ml) 0 =? 119)
      then
        s ← get;
        match list_find (λ e, mi_addr e = ml_start ml ∧ mi_kind e = MAP_KIND_USERMODE_BAR0)
                (g_maps s) with
        | Some _ => skip
        | None =>
            modify (set_maps (map_insert
              (MapInfo (ml_start ml) len (-1) (codes "/dev/nvidia0") 0
                 (Z.lor PROT_READ PROT_WRITE) MAP_KIND_USERMODE_BAR0) (g_maps s)));;
            dbell_arm_mapping (ml_start ml) len
        end
      else skip
  end.

Definition dbell_scan_and_arm (lines : list (option maps_line)) : M unit :=
  when (g_dbell_arm cf) (for_each scan_one lines).

(** ** The interposed calls

    [r] is what the real call returns. *)

Definition hook_open_as (kind : string) (path : text) (flags r : Z) : M Z :=
  when ((0 <=? r) && fd_is_nvidia path)
    (modify (λ s, set_fds (fd_record r path (g_fds s)) s);;
     emit_event kind [("fd", PNum r); ("path", PStr path); ("flags", PNum flags)]%string);;
  mret r.

Definition hook_open (path : text) (flags r : Z) : M Z := hook_open_as "open" path flags r.

Definition hook_openat (path : text) (flags r : Z) : M Z := hook_open_as "openat" path flags r.

Definition hook_close (fd r : Z) : M Z :=
  s ← get;
  match fd_lookup fd (g_fds s) with
  | Some name => emit_event "close" [("fd", PNum fd); ("path", PStr name)]%string
  | None => skip
  end;;
  modify (λ s, set_fds (fd_forget fd (g_fds s)) s);;
  tell [PClose fd];;
  mret r.

Definition hook_mmap (len prot flags fd offset r : Z) : M Z :=
  s ← get;
  match fd_lookup fd (g_fds s) with
  | Some name =>
      when (negb (r =? MAP_FAILED) && (0 <=? fd))
        (map_record r len fd offset prot;;
         emit_event "mmap"
           [("fd", PNum fd); ("path", PStr name); ("addr", PNum r); ("length", PNum len);
            ("prot", PNum prot); ("flags", PNum flags); ("offset", PNum offset)]%string)
  | None => skip
  end;;
  mret r.

Definition hook_munmap (addr len r : Z) : M Z :=
  emit_event "munmap" [("addr", PNum addr); ("length", PNum len)]%string;;
  modify (λ s, set_maps (map_forget addr len (g_maps s)) s);;
  tell [PUnmap addr len];;
  mret r.

(** ** The thread that stores

    A store to a page without write permission raises SIGSEGV and is executed
    again when the handler returns, or kills the process if the handler is back
    to its default; a store that retires with the trap flag set raises SIGTRAP.
    [fuel] bounds the number of executions of the instruction. *)
Fixpoint cpu_store (fuel : nat) (a v : Z) : M bool :=
  match fuel with
  | O => mret false
  | S fuel =>
      s ← get;
      if Z.testbit (p_prot s a) 1 then
        tell [PStore a v];; when (Z.testbit (p_efl s) 8) sig_trap;; mret true
      else if p_segv_dfl s then tell [PKilled a];; mret false
      else sig_segv a;; cpu_store fuel a v
  end.

(** Stores one after the other; two executions each. *)
Fixpoint cpu_stores (l : list (Z * Z)) : M bool :=
  match l with
  | [] => mret true
  | (a, v) :: l => ok ← cpu_store 2 a v; if ok : bool then cpu_stores l else mret false
  end.
End shim.

(** ** Specifications *)

(** A line of [/proc/self/maps] as the kernel prints it. The two addresses may
    have leading zeros; a path follows the inode after some padding. *)
Record maps_entry := MapsEntry {
  me_zs : nat; me_start : Z; me_ze : nat; me_end : Z; me_perms : text;
  me_off : text; me_dev : text; me_ino : text; me_pad : nat; me_path : text }.

Definition render (e : maps_entry) : text :=
  replicate (me_zs e) 48 ++ uptr_to_hex (me_start e) ++ [45]
  ++ replicate (me_ze e) 48 ++ uptr_to_hex (me_end e) ++ [32] ++ me_perms e
  ++ [32] ++ me_off e ++ [32] ++ me_dev e ++ [32] ++ me_ino e
  ++ replicate (me_pad e) 32 ++ me_path e.

Definition printable (c : Z) : Prop := c ≠ 0 ∧ c ≠ 10.
Definition is_token (t : text) : Prop := t ≠ [] ∧ Forall (λ c, printable c ∧ c ≠ 32) t.

Record entry_wf (e : maps_entry) : Prop := {
  ew_start : is_u64 (me_start e);
  ew_end : is_u64 (me_end e);
  ew_perms : length (me_perms e) = 4%nat ∧ Forall printable (me_perms e);
  ew_off : is_token (me_off e);
  ew_dev : is_token (me_dev e);
  ew_ino : is_token (me_ino e);
  ew_path : Forall printable (me_path e) ∧ head (me_path e) ≠ Some 32;
  ew_pad : me_path e = [] ∨ (0 < me_pad e)%nat }.

Definition render_all (l : list maps_entry) : text := l ≫= λ e, render e ++ [10].

Section spec.
Context (cf : pconf) (env : penv).

(** What one line contributes to a snapshot. *)
Definition snap_step (idx : Z) (e : maps_entry) : walk * list peff :=
  let len := u64 (me_end e - me_start e) in
  match strstr (codes "/dev/nvidia") (me_path e) with
  | None => (WalkNext, [])
  | Some mt =>
      let file := PFile (snap_outpath cf idx mt (me_start e) len) (me_start e) len in
      if (0 <? len) && (len <=? g_max_bytes cf) then
        if (nth 1 (me_perms e) 0 =? 45) && negb (nth 0 (me_perms e) 0 =? 114) then
          let ok := mprotect_ok env (me_start e) len 3 in
          let opened := PMprotect (me_start e) len 3 ok in
          if ok then
            (WalkNext, [opened; file;
               PMprotect (me_start e) len PROT_WRITE (mprotect_ok env (me_start e) len PROT_WRITE)])
          else (WalkContinue, [opened])
        else (WalkNext, [file])
      else (WalkNext, [])
  end.

(** The lines in order, up to the first whose mapping could not be opened: that
    one is tried again for every line left and nothing after it is written. *)
Fixpoint snap_spec (idx : Z) (l : list maps_entry) : list peff :=
  match l with
  | [] => []
  | e :: l =>
      match snap_step idx e with
      | (WalkNext, es) => es ++ snap_spec idx l
      | (_, es) => mjoin (replicate (S (length l)) es)
      end
  end.

(** The mapping [m] is the one the handlers find for each of its addresses. *)
Definition watched (m : map_info) (s : pstate) : Prop :=
  ∀ a, mi_addr m ≤ a < mi_addr m + mi_length m →
    dbell_find_mapping a (g_maps s) = Some m.

Definition armed (m : map_info) (s : pstate) : Prop :=
  ∀ a, mi_addr m ≤ a < mi_addr m + mi_length m → p_prot s a = PROT_READ.

Definition stores_of (es : list peff) : list (Z * Z) :=
  omap (λ e, match e with PStore a v => Some (a, v) | _ => None end) es.

Definition events_of (es : list peff) : list (string * list (string * pval)) :=
  omap (λ e, match e with PEvent k f => Some (k, f) | _ => None end) es.

Definition doorbell_event (base seq : Z) : string * list (string * pval) :=
  ("doorbell", [("seq", PNum seq); ("bar0", PNum base);
     ("token", PNum (dbell_read env (base + HOPPER_VF_DOORBELL_OFF)))])%string.

(** Neither undefined behaviour nor a crash. *)
Definition harmless (e : peff) : Prop :=
  match e with PSmash _ | PKilled _ => False | _ => True end.

(** What a snapshot does besides: it writes files and changes protections. *)
Definition snap_quiet (e : peff) : Prop :=
  match e with PMprotect _ _ _ _ | PFile _ _ _ | PPipe _ => True | _ => False end.
End spec.

(** The two states differ at most in the protections. *)
Definition prot_only (s s' : pstate) : Prop := ∃ f, s' = set_prot f s.

(** * Text lemmas *)

(** Parsing what the hexadecimal formatter printed. *)
Lemma hex_digit_val d : 0 ≤ d < 16 →
  let c := nth (Z.to_nat d) (codes "0123456789abcdef") 0 in
  nibble_value c = d ∧ 48 ≤ c.
Proof.
  intros Hd. cut (Forall (λ d, let c := nth (Z.to_nat d) (codes "0123456789abcdef") 0 in
                    nibble_value c = d ∧ 48 ≤ c) (seqZ 0 16)).
  { intros HF. rewrite Forall_forall in HF. apply HF, elem_of_seqZ. lia. }
  vm_compute. repeat constructor; discriminate.
Qed.

Lemma parse_hex_digits stop n v q : stop < 48 → 0 ≤ v < 16 ^ Z.of_nat n → v < 2 ^ 64 →
  parse_hex stop (reverse (hex_digits n v) ++ q) 0 = parse_hex stop q v.
Proof.
  intros Hs. revert v q. induction n as [|n IH]; intros v q Hv H64.
  { simpl in *. replace v with 0 by lia. done. }
  cbn [hex_digits]. destruct (Z.ltb_spec 0 v); [|by replace v with 0 by lia].
  rewrite reverse_cons, <-(assoc_L (++)).
  assert (0 ≤ Z.land v 15 < 16) as Hd by (pose proof (land_le_r v 15); lia).
  rewrite IH.
  - destruct (hex_digit_val _ Hd) as [Hh Hc]. cbn [app parse_hex].
    destruct (Z.eqb_spec (nth (Z.to_nat (Z.land v 15)) (codes "0123456789abcdef") 0) stop);
      [lia|]. rewrite Hh, (proj2 (Z.ltb_ge _ _)) by lia. f_equal.
    rewrite Z.lor_comm, lor_shift_add by lia.
    change 15 with (Z.ones 4). rewrite Z.land_ones, Z.shiftr_div_pow2 by lia.
    rewrite u64_small; [|unfold is_u64]; zify_divmod.
  - rewrite Z.shiftr_div_pow2 by lia.
    rewrite Nat2Z.inj_succ, Z.pow_succ_r in Hv by lia. zify_divmod.
  - rewrite Z.shiftr_div_pow2 by lia. zify_divmod.
Qed.

Lemma parse_hex_zeros stop k q : stop < 48 →
  parse_hex stop (replicate k 48 ++ q) 0 = parse_hex stop q 0.
Proof.
  intros Hs. induction k as [|k IH]; [done|]. cbn [replicate app parse_hex].
  rewrite (proj2 (Z.eqb_neq 48 stop)) by lia. exact IH.
Qed.

Lemma parse_hex_uptr stop k v q : stop < 48 → is_u64 v →
  parse_hex stop (replicate k 48 ++ uptr_to_hex v ++ [stop] ++ q) 0 = Some (v, q).
Proof.
  intros Hs Hv. rewrite parse_hex_zeros by done. unfold uptr_to_hex.
  assert (parse_hex stop ([stop] ++ q) v = Some (v, q)) as Hstop.
  { simpl. by rewrite Z.eqb_refl. }
  destruct (Z.eqb_spec v 0) as [->|].
  - apply (parse_hex_zeros stop 1 ([stop] ++ q)) in Hs as Hz. simpl in Hz.
    change (reverse [48]) with [48]. simpl. rewrite Hz. exact Hstop.
  - rewrite parse_hex_digits; [exact Hstop|done|unfold is_u64 in Hv; lia..].
Qed.

Lemma skip_token_app t q : is_token t → (∀ c, head q = Some c → c = 32) →
  skip_token (32 :: t ++ q) = q.
Proof.
  intros [Hne Ht] Hq. unfold skip_token. cbn [app drop_while]. rewrite Z.eqb_refl.
  rewrite (drop_while_stop _ (t ++ q)).
  - rewrite drop_while_all.
    + apply drop_while_stop. intros c ->%Hq. done.
    + eapply Forall_impl; [exact Ht|]. unfold printable. simpl. intros c [[? ?] ?].
      by rewrite (proj2 (Z.eqb_neq c 32)), (proj2 (Z.eqb_neq c 10)).
  - destruct t as [|c t]; [done|]. simpl. intros ? [= <-].
    apply Forall_cons in Ht as [[_ ?] _]. by apply Z.eqb_neq.
Qed.

(** The parser inverts the kernel's printer. *)
Lemma parse_render e : entry_wf e →
  parse_maps_line_sigsafe (render e) =
    Some (MapsLine (me_start e) (me_end e) (me_perms e) (me_path e)).
Proof.
  intros [Hs He [Hp _] Ho Hd Hi [Hpath Hh] Hpad].
  unfold parse_maps_line_sigsafe, render.
  rewrite parse_hex_uptr by done. cbn [mbind option_bind]. rewrite parse_hex_uptr by done.
  cbn [mbind option_bind].
  destruct (me_perms e) as [|p0 [|p1 [|p2 [|p3 [|]]]]]; try done. cbn [app].
  rewrite (skip_token_app (me_off e)), (skip_token_app (me_dev e)), (skip_token_app (me_ino e));
    try done; try (intros c [= <-]; done).
  - rewrite drop_while_all by (apply Forall_replicate; done).
    rewrite drop_while_stop.
    + do 2 f_equal. rewrite <-(app_nil_r (me_path e)) at 1. rewrite take_while_all.
      * by rewrite app_nil_r.
      * eapply Forall_impl; [exact Hpath|]. intros c [_ ?]. simpl.
        by rewrite (proj2 (Z.eqb_neq c 10)).
    + intros c Hc. apply Z.eqb_neq. congruence.
  - intros c. destruct (me_pad e); [|by intros [= <-]].
    destruct Hpad as [->|]; [done|lia].
Qed.

Lemma uptr_to_hex_digits v : Forall (λ c, 48 ≤ c) (uptr_to_hex v).
Proof.
  assert (∀ n w, Forall (λ c, 48 ≤ c) (hex_digits n w)) as Hd.
  { induction n as [|n IH]; intros w; [constructor|]. cbn [hex_digits].
    destruct (0 <? w); constructor; [|apply IH]. apply hex_digit_val.
    pose proof (land_le_r w 15). lia. }
  unfold uptr_to_hex. apply Forall_reverse. destruct (v =? 0); [by repeat constructor|apply Hd].
Qed.

Lemma render_printable e : entry_wf e → Forall printable (render e) ∧ render e ≠ [].
Proof.
  intros [_ _ [_ Hp] [_ Ho] [_ Hd] [_ Hi] [Hpath _] _]. unfold render. split.
  - assert (∀ v, Forall printable (uptr_to_hex v)) as Hx.
    { intros v. eapply Forall_impl; [apply uptr_to_hex_digits|]. unfold printable. simpl. lia. }
    assert (∀ t, Forall (λ c, printable c ∧ c ≠ 32) t → Forall printable t) as Ht.
    { intros t H. eapply Forall_impl; [exact H|]. by intros c [? _]. }
    rewrite !Forall_app. repeat split; auto; try by repeat constructor.
    all: by apply Forall_replicate.
  - intros H%(f_equal length). rewrite !length_app in H. simpl in H. lia.
Qed.

(** * The walk over the lines *)

Definition nls (t : text) : nat := length (filter (λ c, c = 10) t).

(** A terminated line at the start of a buffer. *)
Lemma cstr_line r q : Forall printable r → cstr (r ++ 0 :: q) = r.
Proof.
  intros Hr. unfold cstr. rewrite take_while_all; [simpl; by rewrite app_nil_r|].
  eapply Forall_impl; [exact Hr|]. intros c [? _]. simpl. by rewrite (proj2 (Z.eqb_neq c 0)).
Qed.

Lemma find_nl_app r q : Forall printable r →
  list_find (λ c, c = 10) (r ++ q) =
    prod_map (λ n, n + length r)%nat id <$> list_find (λ c, c = 10) q.
Proof.
  intros Hr. rewrite list_find_app_r; [done|].
  apply list_find_None. eapply Forall_impl; [exact Hr|]. by intros c [_ ?].
Qed.

Lemma nls_insert q j c : list_find (λ c, c = 10) q = Some (j, c) →
  nls q = S (nls (<[j := 0]> q)).
Proof.
  revert j. induction q as [|d q IH]; intros j; [done|]. cbn [list_find].
  unfold nls. destruct (decide (d = 10)) as [->|Hd].
  - intros [= <- <-]. change (<[0%nat := 0]> (10 :: q)) with (0 :: q).
    by rewrite filter_cons_True, filter_cons_False.
  - intros Hf. destruct (list_find _ q) as [[i x]|]; simplify_eq/=.
    rewrite !filter_cons_False by done. by apply IH.
Qed.

Lemma nls_none q : Forall (λ c, c ≠ 10) q → nls q = 0%nat.
Proof. induction 1 as [|c q Hc _ IH]; [done|]. unfold nls. by rewrite filter_cons_False. Qed.

Lemma nls_render_all l : Forall entry_wf l → nls (render_all l) = length l.
Proof.
  induction 1 as [|e l He _ IH]; [done|]. unfold render_all in *. cbn [mbind list_bind].
  assert (nls (render e) = 0%nat) as Hn.
  { apply nls_none. eapply Forall_impl; [apply (render_printable e He)|]. by intros c [_ ?]. }
  unfold nls in *. rewrite !filter_app, !length_app, IH, Hn. done.
Qed.

Section walk.
Context (cf : pconf) (env : penv).

(** A mapping that cannot be opened is tried again for each newline left. *)
Lemma snap_walk_stuck fuel idx r q es s :
  Forall printable r → r ≠ [] → (nls q < fuel)%nat →
  (∀ s, snap_line cf env idx r s = (WalkContinue, s, es)) →
  run_eff (snap_walk cf env fuel idx (r ++ 0 :: q)) s = mjoin (replicate (nls q) es).
Proof.
  intros Hr Hne Hf Hline. revert q s Hf. induction fuel as [|fuel IH]; intros q s Hf; [lia|].
  assert (∃ c r', r = c :: r' ∧ c ≠ 0) as (c & r' & -> & Hc).
  { destruct r as [|c r']; [done|]. apply Forall_cons in Hr as [[? _] _]. eauto. }
  cbn [snap_walk app]. rewrite (proj2 (Z.eqb_neq c 0)) by done.
  change (c :: r' ++ 0 :: q) with ((c :: r') ++ 0 :: q).
  rewrite find_nl_app by done. cbn [list_find]. rewrite decide_False by done.
  destruct (list_find _ q) as [[j x]|] eqn:Hq; cbn [fmap option_fmap option_map prod_map fst snd].
  - rewrite insert_app_r_alt by lia.
    replace (S j + length (c :: r') - length (c :: r'))%nat with (S j) by lia.
    change (<[S j := 0]> (0 :: q)) with (0 :: <[j := 0]> q).
    rewrite cstr_line by done. rewrite (nls_insert q j x Hq).
    unfold run_eff at 1. rewrite run_bind. unfold run_val, run_st, run_eff at 1.
    rewrite Hline. cbn [fst snd replicate mjoin list_join]. f_equal. apply IH.
    rewrite (nls_insert q j x Hq) in Hf. lia.
  - apply list_find_None in Hq. by rewrite nls_none.
Qed.

Lemma dec_digits_length n v : (length (dec_digits n v) ≤ n)%nat.
Proof.
  revert v. induction n as [|n IH]; intros v; [done|]. cbn [dec_digits].
  destruct (0 <? v); simpl; [specialize (IH (v / 10))|]; lia.
Qed.

Lemma hex_digits_length n v : (length (hex_digits n v) ≤ n)%nat.
Proof.
  revert v. induction n as [|n IH]; intros v; [done|]. cbn [hex_digits].
  destruct (0 <? v); simpl; [specialize (IH (Z.shiftr v 4))|]; lia.
Qed.

(** A directory name of at most 399 bytes leaves room for the file name. *)
Lemma outpath_fits idx mt start len : (length (g_outdir cf) ≤ 399)%nat →
  (512 <=? Z.of_nat (length (snap_outpath cf idx mt start len))) = false.
Proof.
  intros Ho. apply Z.leb_gt. unfold snap_outpath. rewrite !length_app, length_take.
  assert (∀ v, length (uptr_to_hex v) ≤ 20)%nat as Hx.
  { intros v. unfold uptr_to_hex. rewrite length_reverse.
    destruct (v =? 0); [simpl; lia|apply hex_digits_length]. }
  assert (length (u32_to_fixed idx 5) ≤ 16)%nat.
  { unfold u32_to_fixed. rewrite length_reverse, length_app, length_replicate.
    pose proof (dec_digits_length 16 idx). destruct (idx =? 0); simpl in *; lia. }
  pose proof (Hx start). pose proof (Hx len). cbn [codes length]. lia.
Qed.

Lemma mprotect_run a len prot s :
  mprotect env a len prot s =
    (mprotect_ok env a len prot,
     if mprotect_ok env a len prot
     then set_prot (λ x, if in_pages a len x then prot else p_prot s x) s else s,
     [PMprotect a len prot (mprotect_ok env a len prot)]).
Proof. unfold mprotect. by destruct (mprotect_ok env a len prot). Qed.

Lemma snap_line_step idx e s : entry_wf e → (length (g_outdir cf) ≤ 399)%nat →
  ∃ s', snap_line cf env idx (render e) s
        = ((snap_step cf env idx e).1, s', (snap_step cf env idx e).2) ∧
    (snap_step cf env idx e).1 ≠ WalkSmashed ∧
    ((snap_step cf env idx e).1 = WalkContinue → s' = s).
Proof.
  intros He Ho. unfold snap_line, snap_step. rewrite parse_render by done.
  cbn [ml_path ml_start ml_end ml_perms].
  destruct (strstr _ _) as [mt|]; [|by (eexists; split; [reflexivity|])].
  destruct (_ && _); [|by (eexists; split; [reflexivity|])]. rewrite outpath_fits by done.
  unfold snap_write. destruct (_ && _); [|by (eexists; split; [reflexivity|])].
  change (Z.lor PROT_READ PROT_WRITE) with 3.
  unfold mbind, prog_bind. rewrite mprotect_run.
  destruct (mprotect_ok env (me_start e) _ 3); cbn;
    [rewrite mprotect_run|]; by (eexists; split; [reflexivity|]).
Qed.

(** The walk over a whole text of well-formed lines. *)
Lemma snap_walk_lines fuel idx l s : Forall entry_wf l → (length (g_outdir cf) ≤ 399)%nat →
  (length (render_all l) < fuel)%nat →
  run_eff (snap_walk cf env fuel idx (render_all l)) s = snap_spec cf env idx l.
Proof.
  intros Hl Ho. revert fuel s. induction Hl as [|e l He Hl IH]; intros fuel s Hf.
  { by destruct fuel. }
  destruct (render_printable e He) as [Hr Hne].
  change (render_all (e :: l)) with ((render e ++ [10]) ++ render_all l) in *.
  rewrite <-(assoc_L (++)) in *. cbn [app] in *. rewrite length_app in Hf. simpl in Hf.
  destruct fuel as [|fuel]; [lia|].
  assert (∃ c r, render e = c :: r ∧ c ≠ 0) as (c & r & Hcr & Hc).
  { destruct (render e) as [|c r]; [done|]. apply Forall_cons in Hr as [[? _] _]. eauto. }
  assert (∀ (x : M unit), match render e ++ 10 :: render_all l with
     | [] => skip | c :: _ => if c =? 0 then skip else x end = x) as Hhead.
  { intros x. rewrite Hcr. simpl. by rewrite (proj2 (Z.eqb_neq c 0)). }
  cbn [snap_walk]. rewrite Hhead, find_nl_app by done. cbn [list_find].
  rewrite decide_True by done. cbn [fmap option_fmap option_map prod_map fst snd].
  rewrite insert_app_r_alt by lia. replace (0 + length (render e) - length (render e))%nat
    with 0%nat by lia. change (<[0%nat := 0]> (10 :: render_all l)) with (0 :: render_all l).
  rewrite cstr_line by done.
  destruct (snap_line_step idx e s He Ho) as (s' & Hrun & Hns & Hsame).
  unfold run_eff at 1. rewrite run_bind. unfold run_val, run_st, run_eff at 1. rewrite Hrun.
  cbn [fst snd snap_spec].
  destruct (snap_step cf env idx e) as [w es] eqn:Hstep. cbn [fst snd] in *.
  destruct w; [| |done].
  - f_equal. replace (drop _ _) with (render_all l); [apply IH; lia|].
    symmetry. rewrite drop_app_ge by lia.
    by replace (0 + length (render e) + 1 - length (render e))%nat with 1%nat by lia.
  - rewrite <-(nls_render_all l) by done. cbn [replicate mjoin list_join]. f_equal.
    apply snap_walk_stuck; try done.
    + rewrite nls_render_all by done.
      assert (∀ k, length k ≤ length (render_all k))%nat as Hk; [|specialize (Hk l); lia].
      intros k. induction k as [|x k IHk]; [done|]. unfold render_all in *.
      cbn [mbind list_bind]. rewrite !length_app. simpl. lia.
    + intros s1. destruct (snap_line_step idx e s1 He Ho) as (s2 & Hrun2 & _ & Hsame2).
      rewrite Hstep in Hrun2, Hsame2. by rewrite Hrun2, Hsame2.
Qed.
End walk.

(** * The watchpoint *)

#[global] Instance prot_only_preorder : PreOrder prot_only.
Proof.
  split.
  - intros []. by exists p_prot0.
  - intros s ? ? [f ->] [g ->]. by exists g.
Qed.

Section watchpoint.
Context (cf : pconf) (env : penv).

Lemma mprotect_steps a len prot : steps prot_only (mprotect env a len prot).
Proof.
  intros s. unfold run_st. rewrite mprotect_run. cbn [fst snd].
  destruct (mprotect_ok _ _ _ _); [by eexists|done].
Qed.

Lemma mprotect_quiet a len prot : emits snap_quiet (mprotect env a len prot).
Proof. intros s. unfold run_eff. rewrite mprotect_run. by repeat constructor. Qed.

Lemma snap_line_steps idx line : steps prot_only (snap_line cf env idx line).
Proof.
  unfold snap_line, snap_write. repeat case_match; steps_solve; apply mprotect_steps.
Qed.

Lemma snap_line_quiet idx line : (length (g_outdir cf) ≤ 399)%nat →
  emits snap_quiet (snap_line cf env idx line).
Proof.
  intros Ho. unfold snap_line, snap_write.
  destruct (parse_maps_line_sigsafe line) as [ml|]; [|apply emits_ret].
  destruct (strstr _ _); [|apply emits_ret]. destruct (_ && _); [|apply emits_ret].
  rewrite outpath_fits by done.
  repeat first [emits_step | apply mprotect_quiet]; by repeat constructor.
Qed.

Lemma snap_walk_frame fuel idx rest : (length (g_outdir cf) ≤ 399)%nat →
  steps prot_only (snap_walk cf env fuel idx rest) ∧
  emits snap_quiet (snap_walk cf env fuel idx rest).
Proof.
  intros Ho. assert (steps prot_only (skip : M unit) ∧ emits snap_quiet (skip : M unit)) as Hskip.
  { split; [by intros s|apply emits_skip]. }
  revert rest. induction fuel as [|fuel IH]; intros rest; [done|]. cbn [snap_walk].
  destruct rest as [|c rest]; [done|]. destruct (c =? 0); [done|].
  destruct (list_find _ _) as [[nl x]|]; [|done]. cbv zeta. split.
  - apply (steps_bind prot_only); [apply snap_line_steps|]. intros []; apply IH || apply Hskip.
  - apply emits_bind; [by apply snap_line_quiet|]. intros []; apply IH || apply Hskip.
Qed.

(** Between the event and the re-arm the SIGTRAP handler only snapshots. *)
Lemma trap_log_run base seq s : (length (g_outdir cf) ≤ 399)%nat →
  ∃ f es, trap_log cf env base seq s
    = (tt, set_prot f s, PEvent (doorbell_event env base seq).1 (doorbell_event env base seq).2 :: es)
    ∧ Forall snap_quiet es.
Proof.
  intros Ho. unfold trap_log.
  set (m := when (seq mod _ =? 0) _).
  assert (steps prot_only m ∧ emits snap_quiet m) as [Hs He].
  { unfold m. destruct (_ =? 0); [|split; [by intros ?|apply emits_skip]]. cbn [when].
    destruct (g_dbell_sync cf); [by apply snap_walk_frame|].
    destruct (0 <=? _); split; try by intros ?. all: by repeat constructor. }
  clearbody m. destruct (Hs s) as [f Hf]. exists f, (run_eff m s). split; [|apply He].
  unfold mbind, prog_bind. cbn [emit_event tell].
  unfold run_st, run_eff in *. destruct (m s) as [[[] s'] es]. cbn in *. by rewrite Hf.
Qed.

(** A watched page ready for the next store. *)
Record ready (m : map_info) (s : pstate) : Prop := {
  rd_watched : watched m s;
  rd_armed : armed m s;
  rd_dfl : p_segv_dfl s = false;
  rd_tf : Z.testbit (p_efl s) 8 = false }.

Lemma in_pages_range a len x : a ≤ x < a + len → in_pages a len x = true.
Proof.
  intros Hx. unfold in_pages. apply andb_true_intro. split; [apply Z.leb_le; lia|].
  apply Z.ltb_lt. zify_divmod.
Qed.

Lemma efl_set x : Z.testbit (Z.lor x EFL_TF) 8 = true.
Proof. rewrite Z.lor_spec. apply orb_true_r. Qed.

Lemma efl_restored x : Z.testbit x 8 = false →
  Z.land (Z.lor x EFL_TF) (Z.lnot EFL_TF) = x.
Proof.
  intros Hx. apply Z.bits_inj'. intros i Hi. unfold EFL_TF. change 256 with (2 ^ 8).
  rewrite Z.land_spec, Z.lor_spec, Z.lnot_spec, Z.pow2_bits_eqb by lia.
  destruct (Z.eqb_spec 8 i) as [<-|]; [by rewrite Hx|]. by rewrite orb_false_r, andb_true_r.
Qed.

Lemma watched_nonnull m s : 0 < mi_length m → watched m s → mi_addr m ≠ NULL.
Proof.
  intros Hl Hw. specialize (Hw (mi_addr m) ltac:(lia)). unfold dbell_find_mapping in Hw.
  destruct (list_find _ _) as [[i e]|] eqn:Hf; simplify_eq. apply scan_lookup in Hf as [_ Hh].
  unfold map_holds in Hh. intros Hn. by rewrite (proj2 (Z.eqb_eq _ _) Hn) in Hh.
Qed.

(** The handler of the fault opens the page and asks for a trap. *)
Lemma sig_segv_watched m s a : watched m s → mi_addr m ≤ a < mi_addr m + mi_length m →
  mprotect_ok env (mi_addr m) (mi_length m) 3 = true →
  ∃ f, (∀ x, mi_addr m ≤ x < mi_addr m + mi_length m → f x = 3) ∧
    sig_segv env a s =
      (tt, set_efl (Z.lor (p_efl s) EFL_TF) (set_pending (mi_addr m) (set_prot f s)),
       [PMprotect (mi_addr m) (mi_length m) 3 true]).
Proof.
  intros Hw Ha Hok. eexists. split; [|unfold sig_segv; rewrite run_get, (Hw a) by done;
    change (Z.lor PROT_READ PROT_WRITE) with 3; unfold mbind, prog_bind;
    rewrite mprotect_run, Hok; reflexivity].
  intros x Hx. simpl. by rewrite in_pages_range.
Qed.

(** The handler of the trap logs the doorbell and arms the page again. *)
Lemma sig_trap_watched m s : watched m s → 0 < mi_length m → g_dbell_pending s = mi_addr m →
  (length (g_outdir cf) ≤ 399)%nat →
  mprotect_ok env (mi_addr m) (mi_length m) PROT_READ = true →
  ∃ f es, (∀ x, mi_addr m ≤ x < mi_addr m + mi_length m → f x = PROT_READ) ∧ Forall snap_quiet es ∧
    sig_trap cf env s =
      (tt, set_prot f (set_dbell_seq (u32 (g_dbell_seq s + 1)) (set_pending NULL
             (set_efl (Z.land (p_efl s) (Z.lnot EFL_TF)) s))),
       PEvent (doorbell_event env (mi_addr m) (g_dbell_seq s)).1
              (doorbell_event env (mi_addr m) (g_dbell_seq s)).2 :: es).
Proof.
  intros Hw Hl Hp Ho Hok. pose proof (watched_nonnull m s Hl Hw) as Hnn.
  unfold sig_trap. rewrite run_modify, run_gets, run_modify. cbn [set_efl g_dbell_pending].
  rewrite Hp, (proj2 (Z.eqb_neq _ _) Hnn), run_gets, run_modify.
  cbn [set_pending set_dbell_seq set_efl g_dbell_seq g_fds g_maps g_dbell_pending p_efl p_prot p_segv_dfl].
  destruct (trap_log_run (mi_addr m) (g_dbell_seq s)
    (set_dbell_seq (u32 (g_dbell_seq s + 1)) (set_pending NULL
       (set_efl (Z.land (p_efl s) (Z.lnot EFL_TF)) s))) Ho) as (g & es & Hlog & Hq).
  eexists _, (es ++ [PMprotect (mi_addr m) (mi_length m) PROT_READ true]). split; [|split].
  3: { rewrite app_comm_cons. eapply run_bind_eq; [exact Hlog|]. rewrite run_get.
       cbn [g_maps set_prot set_dbell_seq set_pending set_efl].
       rewrite (Hw (mi_addr m)) by lia. unfold mbind, prog_bind.
       rewrite mprotect_run, Hok. reflexivity. }
  - intros x Hx. simpl. by rewrite in_pages_range.
  - apply Forall_app. split; [done|]. by repeat constructor.
Qed.

Section one_mapping.
Context (m : map_info).
Context (Hlen : 0 < mi_length m) (Ho : (length (g_outdir cf) ≤ 399)%nat).
Context (Hrw : mprotect_ok env (mi_addr m) (mi_length m) 3 = true).
Context (Hr : mprotect_ok env (mi_addr m) (mi_length m) PROT_READ = true).

(** One store: fault, replay, trap. *)
Lemma cpu_store_watched s a v : ready m s → mi_addr m ≤ a < mi_addr m + mi_length m →
  ∃ s' es, cpu_store cf env 2 a v s = (true, s',
      [PMprotect (mi_addr m) (mi_length m) 3 true; PStore a v;
       PEvent (doorbell_event env (mi_addr m) (g_dbell_seq s)).1
              (doorbell_event env (mi_addr m) (g_dbell_seq s)).2] ++ es) ∧
    Forall snap_quiet es ∧ ready m s' ∧ g_dbell_seq s' = u32 (g_dbell_seq s + 1).
Proof.
  intros [Hw Harm Hdfl Htf] Ha. cbn [cpu_store]. rewrite run_get, (Harm a) by done.
  change (Z.testbit PROT_READ 1) with false. cbv iota. rewrite Hdfl.
  destruct (sig_segv_watched m s a Hw Ha Hrw) as (f & Hf & Hsegv).
  set (s1 := set_efl _ _) in Hsegv.
  assert (watched m s1) as Hw1 by exact Hw.
  destruct (sig_trap_watched m s1 Hw1 Hlen eq_refl Ho Hr) as (g & es & Hg & Hq & Htrap).
  eexists _, es. split; [|split; [done|split]].
  - eapply (run_bind_eq _ _ _ _ _ [_]); [exact Hsegv|]. rewrite run_get.
    replace (Z.testbit (p_prot s1 a) 1) with true by (simpl; by rewrite Hf).
    replace (Z.testbit (p_efl s1) 8) with true by (symmetry; apply efl_set).
    cbn [when]. eapply (run_bind_eq _ _ _ _ _ [_]); [reflexivity|].
    rewrite <-(app_nil_r (_ :: es)). eapply run_bind_eq; [exact Htrap|reflexivity].
  - split; [exact Hw|exact Hg|exact Hdfl|]. simpl. by rewrite efl_restored.
  - done.
Qed.

Lemma quiet_silent es : Forall snap_quiet es →
  stores_of es = [] ∧ events_of es = [] ∧ Forall harmless es.
Proof.
  induction 1 as [|e es He _ (IH1 & IH2 & IH3)]; [done|].
  destruct e; try done; by repeat split; [..|constructor].
Qed.

Lemma cpu_stores_watched l s : ready m s → is_u32 (g_dbell_seq s) →
  Forall (λ av, mi_addr m ≤ av.1 < mi_addr m + mi_length m) l →
  let r := cpu_stores cf env l s in
  r.1.1 = true ∧ stores_of r.2 = l ∧
  events_of r.2 = imap (λ i _, doorbell_event env (mi_addr m) (u32 (g_dbell_seq s + Z.of_nat i))) l ∧
  Forall harmless r.2 ∧ ready m r.1.2.
Proof.
  intros Hrd Hseq Hl. revert s Hrd Hseq. induction Hl as [|[a v] l Ha Hl IH]; intros s Hrd Hseq.
  { by repeat split; try constructor; apply Hrd. }
  destruct (cpu_store_watched s a v Hrd Ha) as (s1 & es & Hrun & Hq & Hrd1 & Hs1).
  destruct (IH s1 Hrd1) as (Hv & Hst & Hev & Hh & Hrd2); [rewrite Hs1; apply u32_range|].
  destruct (quiet_silent es Hq) as (Hes1 & Hes2 & Hes3).
  cbn [cpu_stores]. unfold mbind, prog_bind. rewrite Hrun.
  destruct (cpu_stores cf env l s1) as [[b s2] es2]. cbn [fst snd] in *.
  unfold stores_of, events_of in *. rewrite !omap_app, Hst, Hev, Hes1, Hes2.
  split; [done|]. split; [done|]. split; [|split; [|done]].
  - cbn [imap]. cbn. f_equal; [by rewrite Z.add_0_r, u32_small|].
    apply imap_ext. intros i x _. unfold doorbell_event. simpl. rewrite Hs1.
    unfold u32. rewrite Zplus_mod_idemp_l. do 5 f_equal. lia.
  - rewrite !Forall_app. repeat split; try done. by repeat constructor.
Qed.
End one_mapping.
End watchpoint.

(** * Properties *)


(** The user-space doorbell watch, for a tracked mapping whose pages are
    armed and whose protection the kernel agrees to change: any sequence of
    stores into the mapping completes, each store is performed exactly once and
    in order, each gives exactly one [doorbell] event with consecutive sequence
    numbers (wrapping at 32 bits), nothing crashes or writes out of bounds, and
    the page is armed and the trap flag clear again at the end, whatever the
    snapshots in between did. *)
Theorem doorbell_stores_logged cf env m l s :
  0 < mi_length m →
  (length (g_outdir cf) ≤ 399)%nat →
  mprotect_ok env (mi_addr m) (mi_length m) (Z.lor PROT_READ PROT_WRITE) = true →
  mprotect_ok env (mi_addr m) (mi_length m) PROT_READ = true →
  ready m s → is_u32 (g_dbell_seq s) →
  Forall (λ av, mi_addr m ≤ av.1 < mi_addr m + mi_length m) l →
  let r := cpu_stores cf env l s in
  r.1.1 = true ∧ stores_of r.2 = l ∧
  events_of r.2 = imap (λ i _, doorbell_event env (mi_addr m) (u32 (g_dbell_seq s + Z.of_nat i))) l ∧
  Forall harmless r.2 ∧ ready m r.1.2.
Proof. intros. by apply cpu_stores_watched. Qed.

(** A listing of three lines: an nvidia mapping without any permission, an
    anonymous one and the control device. *)
Definition sample_maps : list maps_entry :=
  [MapsEntry 0 0x7f0000000000 0 0x7f0000001000 (codes "---s") (codes "00000000")
     (codes "00:05") (codes "614") 20 (codes "/dev/nvidia0");
   MapsEntry 4 0x1000 4 0x3000 (codes "rw-p") (codes "00000000") (codes "00:00") (codes "0") 1 [];
   MapsEntry 0 0x7f0000002000 0 0x7f0000006000 (codes "rw-s") (codes "4000")
     (codes "00:05") (codes "612") 20 (codes "/dev/nvidiactl")].

Definition sample_conf : pconf := PConf (codes "/tmp/pbcap") (16 * 1024 * 1024) true 1 true (-1).

Definition sample_bar0 : map_info :=
  MapInfo 0x7f0000100000 65536 (-1) (codes "/dev/nvidia0") 0 3 MAP_KIND_USERMODE_BAR0.

(** An environment whose mprotect answers [ok]. *)
Definition sample_env (ok : bool) : penv :=
  PEnv (λ _ _ _, ok) (λ _, render_all sample_maps) (λ _, 0).

Definition sample_state : pstate :=
  PState init_fds (<[0%nat := sample_bar0]> init_maps) 0xffffffff NULL 0x202 (λ _, PROT_READ) false.

Lemma sample_maps_wf : Forall entry_wf sample_maps.
Proof.
  repeat (apply Forall_cons; split; [split; unfold is_u64, is_token, printable; simpl|]);
    [..|constructor].
  all: first [lia|by left|right; lia|by apply (bool_decide_unpack _); vm_compute].
Qed.


Lemma sample_ready : ready sample_bar0 sample_state.
Proof.
  split; [|done..]. intros a Ha. unfold dbell_find_mapping.
  change (g_maps sample_state) with (sample_bar0 :: drop 1 init_maps). cbn [list_find].
  rewrite decide_True; [done|]. unfold map_holds. simpl in Ha.
  replace (mi_addr sample_bar0 <=? a) with true by (symmetry; apply Z.leb_le; simpl; lia).
  change (u64 _) with 0x7f0000110000.
  by replace (a <? 0x7f0000110000) with true by (symmetry; apply Z.ltb_lt; lia).
Qed.

Lemma doorbell_stores_logged_witness :
  events_of (cpu_stores sample_conf (sample_env true)
    [(0x7f0000100090, 5); (0x7f0000100090, 6)] sample_state).2 =
  [doorbell_event (sample_env true) 0x7f0000100000 0xffffffff;
   doorbell_event (sample_env true) 0x7f0000100000 0].
Proof.
  apply (doorbell_stores_logged sample_conf (sample_env true) sample_bar0
    [(0x7f0000100090, 5); (0x7f0000100090, 6)] sample_state); try done.
  - simpl; lia.
  - apply sample_ready.
  - repeat constructor; simpl; lia.
Defined.

(** ** What the shim does beyond its comments *)

(** A write-only mapping, which the snapshot means to make readable first, is
    never opened; a mapping without any access is opened, and left write-only. *)
Lemma write_only_never_opened env path start len (p2 p3 : Z) s :
  run_eff (snap_write env path start len [45; 119; p2; p3]) s = [PFile path start len] ∧
  (mprotect_ok env start len 3 = true →
   run_eff (snap_write env path start len [45; 45; p2; p3]) s =
     [PMprotect start len 3 true; PFile path start len;
      PMprotect start len PROT_WRITE (mprotect_ok env start len PROT_WRITE)]).
Proof.
  split; [done|]. intros Hok. unfold snap_write. cbn [nth]. unfold run_eff, mbind, prog_bind.
  cbv beta iota delta [andb negb Z.eqb Pos.eqb]. change (Z.lor PROT_READ PROT_WRITE) with 3.
  rewrite mprotect_run, Hok. cbn. by rewrite mprotect_run.
Qed.

(** With the mapping table full, a doorbell page found by the scan is armed but
    not recorded, and the next store to it kills the process. *)
Lemma full_table_store_kills :
  let full := replicate MAX_MAPPINGS (MapInfo 0x1000 0x1000 3 [] 0 3 MAP_KIND_OTHER) in
  let line := MapsLine 0x7f0000100000 0x7f0000110000 (codes "rw-s") (codes "/dev/nvidia0") in
  let s := PState init_fds full 0 NULL 0x202 (λ _, 3) false in
  run_eff (dbell_scan_and_arm sample_conf (sample_env true) [Some line];;
           cpu_store sample_conf (sample_env true) 2 0x7f0000100090 5) s =
  [PMprotect 0x7f0000100000 65536 PROT_READ true;
   PEvent "doorbell.arm" [("bar0", PNum 0x7f0000100000); ("length", PNum 65536)]%string;
   PKilled 0x7f0000100090].
Proof. by vm_compute. Qed.

(** Closing descriptor -1 logs the close of a device: it matches a free slot. *)
Lemma close_invalid_logged s :
  g_fds s = init_fds →
  run_eff (hook_close (-1) (-1)) s =
    [PEvent "close" [("fd", PNum (-1)); ("path", PStr [])]%string; PClose (-1)].
Proof. intros Hf. unfold hook_close. rewrite run_eff_get, Hf. done. Qed.

(** The formatter writes more than its width for a larger number. *)
Lemma u32_to_fixed_exceeds_width : u32_to_fixed 123456 5 = codes "123456".
Proof. by vm_compute. Qed.
