(* ===== verification/Rings.v ===== *)
(** * Rings: index arithmetic of ring buffers

    The GPFIFO of a UVM channel and the message queue of the GSP keep their
    elements between two indices of an array that go round modulo its size, one
    slot of which stays empty. The queue such a ring holds, and what adding an
    element at the one end and removing one at the other does to it. *)
From stdpp Require Import base numbers list list_numbers.
From S2P Require Import Prelude.
#[local] Open Scope Z_scope.

(** The slots [get], [get + 1], ... of [n] elements. *)
Definition ring_slots (num get n : Z) : list Z := (λ k, (get + k) mod num) <$> seqZ 0 n.

(** Their contents. *)
Definition ring_read {A} (l : list A) (slots : list Z) : list A :=
  omap (λ s, l !! Z.to_nat s) slots.

(** How many elements lie between the indices. *)
Definition ring_count (num put get : Z) : Z := (put - get) mod num.

Section ring.
Context (num : Z) (Hnum : 0 < num).

Lemma ring_count_cases put get :
  0 ≤ put < num → 0 ≤ get < num →
  ring_count num put get = if get <=? put then put - get else num - get + put.
Proof.
  intros Hp Hg. unfold ring_count. destruct (Z.leb_spec get put).
  - apply Z.mod_small. lia.
  - replace (put - get) with (num - get + put + (-1) * num) by lia. rewrite Z.mod_add by lia.
    apply Z.mod_small. lia.
Qed.

Lemma ring_count_range put get : 0 ≤ ring_count num put get < num.
Proof. by apply Z.mod_pos_bound. Qed.

Lemma ring_count_zero put get :
  0 ≤ put < num → 0 ≤ get < num → ring_count num put get = 0 ↔ put = get.
Proof. intros Hp Hg. rewrite ring_count_cases by done. case_match; lia. Qed.

Lemma ring_put get put : 0 ≤ put < num → (get + ring_count num put get) mod num = put.
Proof.
  intros Hp. unfold ring_count. rewrite Z.add_mod_idemp_r by lia.
  replace (get + (put - get)) with put by lia. by apply Z.mod_small.
Qed.

Lemma ring_count_push put get :
  ring_count num put get < num - 1 → ring_count num ((put + 1) mod num) get = ring_count num put get + 1.
Proof.
  intros Hlt. pose proof (ring_count_range put get). unfold ring_count in *.
  rewrite <-Zminus_mod_idemp_l, Z.mod_mod, Zminus_mod_idemp_l by lia.
  replace (put + 1 - get) with (put - get + 1) by lia. rewrite <-Z.add_mod_idemp_l by lia.
  apply Z.mod_small. lia.
Qed.

Lemma ring_count_pop put get :
  0 < ring_count num put get → ring_count num put ((get + 1) mod num) = ring_count num put get - 1.
Proof.
  intros Hlt. pose proof (ring_count_range put get). unfold ring_count in *.
  rewrite Zminus_mod_idemp_r. replace (put - (get + 1)) with (put - get - 1) by lia.
  rewrite <-Zminus_mod_idemp_l. apply Z.mod_small. lia.
Qed.

Lemma ring_slots_snoc get n :
  0 ≤ n → ring_slots num get (n + 1) = ring_slots num get n ++ [(get + n) mod num].
Proof.
  intros Hn. unfold ring_slots. rewrite seqZ_app, fmap_app by lia. simpl. done.
Qed.

Lemma ring_slots_cons get n :
  0 < n → 0 ≤ get < num → ring_slots num get n = get :: ring_slots num ((get + 1) mod num) (n - 1).
Proof.
  intros Hn Hg. unfold ring_slots. rewrite seqZ_cons by lia. simpl. rewrite Z.add_0_r, Z.mod_small by lia.
  f_equal. replace (Z.succ 0) with (0 + 1) by lia. rewrite <-(fmap_add_seqZ 1 0), <-list_fmap_compose.
  rewrite Z.sub_1_r. apply list_fmap_ext. intros i k _. simpl. rewrite Z.add_mod_idemp_l by lia. f_equal. lia.
Qed.

(** Any of the slots that follow. *)
Lemma ring_slots_free get c n : 0 ≤ c ≤ n → n < num → (get + n) mod num ∉ ring_slots num get c.
Proof.
  intros Hc Hn. unfold ring_slots. rewrite list_elem_of_fmap. intros (k & Heq & [Hk1 Hk2]%elem_of_seqZ).
  pose proof (Zminus_mod (get + n) (get + k) num) as Hm. rewrite Heq, Z.sub_diag, Z.mod_0_l in Hm by lia.
  rewrite Z.mod_small in Hm; lia.
Qed.

Lemma ring_slots_fresh get n : 0 ≤ n < num → (get + n) mod num ∉ ring_slots num get n.
Proof. intros Hn. apply ring_slots_free; lia. Qed.

Lemma ring_slots_app get a b :
  0 ≤ a → 0 ≤ b → ring_slots num get (a + b) = ring_slots num get a ++ ring_slots num ((get + a) mod num) b.
Proof.
  intros Ha Hb. unfold ring_slots. rewrite seqZ_app, fmap_app by lia. f_equal.
  replace (0 + a) with (a + 0) by lia. rewrite <-(fmap_add_seqZ a 0), <-list_fmap_compose.
  apply list_fmap_ext. intros i k _. simpl. rewrite Z.add_mod_idemp_l by lia. f_equal. lia.
Qed.

Lemma ring_count_add put get n :
  0 ≤ n → ring_count num put get + n < num → ring_count num ((put + n) mod num) get = ring_count num put get + n.
Proof.
  intros Hn Hlt. pose proof (ring_count_range put get). unfold ring_count in *.
  rewrite Zminus_mod_idemp_l. replace (put + n - get) with (put - get + n) by lia.
  rewrite <-Z.add_mod_idemp_l by lia. apply Z.mod_small. lia.
Qed.

Lemma ring_count_sub put get n :
  0 ≤ n ≤ ring_count num put get → ring_count num put ((get + n) mod num) = ring_count num put get - n.
Proof.
  intros Hlt. pose proof (ring_count_range put get). unfold ring_count in *.
  rewrite Zminus_mod_idemp_r. replace (put - (get + n)) with (put - get - n) by lia.
  rewrite <-Zminus_mod_idemp_l. apply Z.mod_small. lia.
Qed.

Lemma ring_slots_range get n s : s ∈ ring_slots num get n → 0 ≤ s < num.
Proof. unfold ring_slots. rewrite list_elem_of_fmap. intros (k & -> & _). by apply Z.mod_pos_bound. Qed.

Context {A : Type}.
Implicit Types (l : list A).

(** Writing a slot that is not read. *)
Lemma ring_read_insert l slots s x :
  0 ≤ s → (∀ s', s' ∈ slots → 0 ≤ s') → (s ∉ slots) →
  ring_read (<[Z.to_nat s := x]> l) slots = ring_read l slots.
Proof.
  intros Hs Hpos Hn. unfold ring_read. induction slots as [|s' slots IH]; [done|]. csimpl.
  apply not_elem_of_cons in Hn as [Hne Hn].
  assert (0 ≤ s') by (apply Hpos; left). rewrite list_lookup_insert_ne by lia.
  rewrite IH by (try done; intros ? ?; apply Hpos; by right). done.
Qed.

(** Adding an element. *)
Lemma ring_read_push l get put x :
  Z.of_nat (length l) = num → 0 ≤ put < num → ring_count num put get < num - 1 →
  ring_read (<[Z.to_nat put := x]> l) (ring_slots num get (ring_count num ((put + 1) mod num) get)) =
  ring_read l (ring_slots num get (ring_count num put get)) ++ [x].
Proof.
  intros Hlen Hp Hlt. pose proof (ring_count_range put get).
  rewrite ring_count_push, ring_slots_snoc, ring_put by (done || lia).
  unfold ring_read at 1. rewrite omap_app. fold (@ring_read A). simpl.
  rewrite list_lookup_insert_eq by lia. f_equal. apply ring_read_insert; [lia| |].
  - intros s' Hs'%ring_slots_range. lia.
  - rewrite <-(ring_put get put Hp) at 1. apply ring_slots_fresh. lia.
Qed.

(** Removing one. *)
Lemma ring_read_pop l get put x :
  Z.of_nat (length l) = num → 0 ≤ put < num → 0 ≤ get < num → put ≠ get → l !! Z.to_nat get = Some x →
  ring_read l (ring_slots num get (ring_count num put get)) =
  x :: ring_read l (ring_slots num ((get + 1) mod num) (ring_count num put ((get + 1) mod num))).
Proof.
  intros Hlen Hp Hg Hne Hx. pose proof (ring_count_range put get).
  pose proof (ring_count_zero put get Hp Hg). assert (0 < ring_count num put get) by lia.
  rewrite ring_count_pop, ring_slots_cons by done. unfold ring_read. simpl. by rewrite Hx.
Qed.

Lemma ring_read_length l get n :
  Z.of_nat (length l) = num → 0 ≤ n → Z.of_nat (length (ring_read l (ring_slots num get n))) = n.
Proof.
  intros Hlen Hn. assert (∀ slots, (∀ s, s ∈ slots → 0 ≤ s < num) → length (ring_read l slots) = length slots) as Hl.
  { induction slots as [|s slots IH]; [done|]. intros Hs. unfold ring_read. simpl.
    destruct (lookup_lt_is_Some_2 l (Z.to_nat s)) as [x ->].
    - assert (0 ≤ s < num) by (apply Hs; left). lia.
    - simpl. f_equal. apply IH. intros s' Hs'. apply Hs. by right. }
  rewrite Hl by (intros s; apply ring_slots_range). unfold ring_slots. rewrite length_fmap, length_seqZ. lia.
Qed.

Lemma ring_read_app l xs ys : ring_read l (xs ++ ys) = ring_read l xs ++ ring_read l ys.
Proof. apply omap_app. Qed.

(** The [k]-th element. *)
Lemma ring_read_lookup l get n k :
  Z.of_nat (length l) = num → 0 ≤ k < n →
  ring_read l (ring_slots num get n) !! Z.to_nat k = l !! Z.to_nat ((get + k) mod num).
Proof.
  intros Hlen Hk. replace n with (k + (1 + (n - k - 1))) by lia. rewrite !ring_slots_app, !ring_read_app by lia.
  assert (length (ring_read l (ring_slots num get k)) = Z.to_nat k) as Hl.
  { pose proof (ring_read_length l get k Hlen). lia. }
  rewrite lookup_app_r, Hl, Nat.sub_diag by lia. pose proof (Z.mod_pos_bound (get + k) num Hnum).
  destruct (lookup_lt_is_Some_2 l (Z.to_nat ((get + k) mod num))) as [x Hx]; [lia|].
  unfold ring_slots at 1. change (seqZ 0 1) with [0]. unfold ring_read. csimpl.
  rewrite Z.add_0_r, Z.mod_mod, Hx by lia. done.
Qed.
End ring.
