(* ===== verification/UvmPushbuffer.v ===== *)
(** * UvmPushbuffer: the pushbuffer allocator of nvidia-uvm

    [src/kernel-open/nvidia-uvm/uvm_pushbuffer.c] hands out the memory GPU
    methods are written to. The pushbuffer is cut into 16 chunks; a chunk serves
    one push at a time, and keeps the list of the pushes the GPU has not
    completed yet, which may complete in any order. A new push gets
    [UVM_MAX_PUSH_SIZE] bytes after the last pending push or before the first.

    The model is the state the pushbuffer lock protects. An operation between
    lock and unlock is one function. Pushes and GPFIFO entries are named by
    their addresses. WLC channels, which exist under confidential computing
    only, do not use chunks and are left out. *)
From stdpp Require Import base numbers list list_numbers relations sorting.
From S2P Require Import Prelude.
#[local] Open Scope Z_scope.

Definition UVM_MAX_PUSH_SIZE : Z := 128 * 1024.
Definition UVM_PUSHBUFFER_CHUNK_SIZE : Z := 8 * UVM_MAX_PUSH_SIZE.
Definition UVM_PUSHBUFFER_CHUNKS : nat := 16.
Definition UVM_PUSHBUFFER_SIZE : Z := UVM_PUSHBUFFER_CHUNK_SIZE * 16.


(** The part of a [uvm_gpfifo_entry_t] the pushbuffer reads. *)
Record pb_entry := PbEntry {
  pe_ptr : Z;
  pushbuffer_offset : Z;
  pushbuffer_size : Z }.

Record uvm_pushbuffer_chunk_t := Chunk {
  next_push_start : Z;
  pending_gpfifos : list pb_entry;
  current_push : Z }.

(** The bitmaps are integers. *)
Record uvm_pushbuffer_t := Pushbuffer {
  chunks : list uvm_pushbuffer_chunk_t;
  available_chunks : Z;
  idle_chunks : Z;
  concurrent_pushes_sema : Z }.

Definition set_chunks f (pb : uvm_pushbuffer_t) : uvm_pushbuffer_t :=
  Pushbuffer (f (chunks pb)) (available_chunks pb) (idle_chunks pb) (concurrent_pushes_sema pb).
Definition set_available f (pb : uvm_pushbuffer_t) : uvm_pushbuffer_t :=
  Pushbuffer (chunks pb) (f (available_chunks pb)) (idle_chunks pb) (concurrent_pushes_sema pb).
Definition set_idle f (pb : uvm_pushbuffer_t) : uvm_pushbuffer_t :=
  Pushbuffer (chunks pb) (available_chunks pb) (f (idle_chunks pb)) (concurrent_pushes_sema pb).
Definition set_sema f (pb : uvm_pushbuffer_t) : uvm_pushbuffer_t :=
  Pushbuffer (chunks pb) (available_chunks pb) (idle_chunks pb) (f (concurrent_pushes_sema pb)).

Definition set_next_push_start (n : Z) (c : uvm_pushbuffer_chunk_t) : uvm_pushbuffer_chunk_t :=
  Chunk n (pending_gpfifos c) (current_push c).
Definition set_pending_gpfifos (l : list pb_entry) (c : uvm_pushbuffer_chunk_t) : uvm_pushbuffer_chunk_t :=
  Chunk (next_push_start c) l (current_push c).
Definition set_current_push (p : Z) (c : uvm_pushbuffer_chunk_t) : uvm_pushbuffer_chunk_t :=
  Chunk (next_push_start c) (pending_gpfifos c) p.

(** [uvm_pushbuffer_create] zeroes the chunks and fills both bitmaps. *)
Definition uvm_pushbuffer_create : uvm_pushbuffer_t :=
  Pushbuffer (replicate UVM_PUSHBUFFER_CHUNKS (Chunk 0 [] NULL))
    (Z.ones 16) (Z.ones 16) 16.

(** [find_first_bit] answers the size when no bit is set: [None] here. *)
Definition get_chunk_in_mask (mask : Z) : option nat :=
  fst <$> list_find (λ i : nat, Z.testbit mask (Z.of_nat i) = true) (seq 0 UVM_PUSHBUFFER_CHUNKS).

Definition get_available_chunk (pb : uvm_pushbuffer_t) : option nat :=
  get_chunk_in_mask (available_chunks pb).

Definition get_idle_chunk (pb : uvm_pushbuffer_t) : option nat :=
  get_chunk_in_mask (idle_chunks pb).

Definition chunk_get_offset (i : nat) : Z := u32 (Z.of_nat i * UVM_PUSHBUFFER_CHUNK_SIZE).

Definition set_chunk (i : nat) (mask : Z) : Z := Z.setbit mask (Z.of_nat i).
Definition clear_chunk (i : nat) (mask : Z) : Z := Z.clearbit mask (Z.of_nat i).

Definition pick_chunk (pb : uvm_pushbuffer_t) : option nat :=
  match get_idle_chunk pb with
  | Some i => Some i
  | None => get_available_chunk pb
  end.

Definition try_claim_chunk (push : Z) (pb : uvm_pushbuffer_t) : option nat * uvm_pushbuffer_t :=
  match pick_chunk pb with
  | None => (None, pb)
  | Some i =>
      (Some i,
       set_available (clear_chunk i)
         (set_idle (clear_chunk i)
            (set_chunks (alter (set_current_push push) i) pb)))
  end.

Definition chunk_get_first_gpfifo (c : uvm_pushbuffer_chunk_t) : option pb_entry :=
  head (pending_gpfifos c).

Definition chunk_get_last_gpfifo (c : uvm_pushbuffer_chunk_t) : option pb_entry :=
  last (pending_gpfifos c).

Definition chunk_get_cpu_put (i : nat) (c : uvm_pushbuffer_chunk_t) : Z :=
  match chunk_get_last_gpfifo c with
  | Some g => u32 (pushbuffer_offset g + pushbuffer_size g - chunk_get_offset i)
  | None => 0
  end.

Definition chunk_get_gpu_get (i : nat) (c : uvm_pushbuffer_chunk_t) : Z :=
  match chunk_get_first_gpfifo c with
  | Some g => u32 (pushbuffer_offset g - chunk_get_offset i)
  | None => 0
  end.

Definition update_chunk (i : nat) (pb : uvm_pushbuffer_t) : uvm_pushbuffer_t :=
  match chunks pb !! i with
  | None => pb
  | Some c =>
      let gpu_get := chunk_get_gpu_get i c in
      let cpu_put := chunk_get_cpu_put i c in
      let room_at start pb :=
        set_chunks (alter (set_next_push_start start) i) (set_available (set_chunk i) pb) in
      if gpu_get =? cpu_put then
        match pending_gpfifos c with
        | _ :: _ => pb
        | [] => room_at 0 (set_idle (set_chunk i) pb)
        end
      else if cpu_put <? gpu_get then
        if UVM_MAX_PUSH_SIZE <=? u32 (gpu_get - cpu_put) then room_at cpu_put pb else pb
      else if u32 (cpu_put + UVM_MAX_PUSH_SIZE) <=? UVM_PUSHBUFFER_CHUNK_SIZE then
        room_at cpu_put pb
      else if UVM_MAX_PUSH_SIZE <=? gpu_get then room_at 0 pb
      else pb
  end.

Definition offset_to_chunk (offset : Z) : nat := Z.to_nat (offset / UVM_PUSHBUFFER_CHUNK_SIZE).

Definition gpfifo_to_chunk (g : pb_entry) : nat := offset_to_chunk (pushbuffer_offset g).

(** The part of [uvm_pushbuffer_mark_completed] under the lock. *)
Definition uvm_pushbuffer_mark_completed (g : pb_entry) (pb : uvm_pushbuffer_t)
    : uvm_pushbuffer_t :=
  let i := gpfifo_to_chunk g in
  match chunks pb !! i with
  | None => pb
  | Some c =>
      let is_entry e := bool_decide (pe_ptr <$> e = Some (pe_ptr g)) in
      let need_to_update_chunk :=
        is_entry (chunk_get_first_gpfifo c) || is_entry (chunk_get_last_gpfifo c) in
      let l := filter (λ e, pe_ptr e ≠ pe_ptr g) (pending_gpfifos c) in
      let pb := set_chunks (alter (set_pending_gpfifos l) i) pb in
      if need_to_update_chunk && (current_push c =? NULL) then update_chunk i pb else pb
  end.

Definition uvm_pushbuffer_end_push (g : pb_entry) (pb : uvm_pushbuffer_t) : uvm_pushbuffer_t :=
  let i := gpfifo_to_chunk g in
  let pb := set_chunks (alter (λ c, set_pending_gpfifos (pending_gpfifos c ++ [g]) c) i) pb in
  let pb := update_chunk i pb in
  let pb := set_chunks (alter (set_current_push NULL) i) pb in
  set_sema (Z.add 1) pb.

Definition uvm_pushbuffer_has_space (pb : uvm_pushbuffer_t) : bool :=
  bool_decide (is_Some (pick_chunk pb)).

(** [claim_chunk] spins: [progress k] is what uvm_channel_manager_update_progress
    and the other threads do to the pushbuffer in round [k], [errors k] what
    uvm_channel_manager_check_errors answers there. [fuel] bounds the rounds;
    [None] is a loop that has not ended yet. *)
Section claim.
Context (progress : nat → uvm_pushbuffer_t → uvm_pushbuffer_t) (errors : nat → Z).

Fixpoint claim_loop (fuel k : nat) (status push : Z) (pb : uvm_pushbuffer_t)
    : option (Z * option nat * uvm_pushbuffer_t) :=
  match fuel with
  | O => None
  | S fuel =>
      let '(c, pb) := try_claim_chunk push pb in
      if bool_decide (c = None) && (status =? NV_OK)
      then claim_loop fuel (S k) (errors k) push (progress k pb)
      else Some (status, c, pb)
  end.

Definition claim_chunk (fuel : nat) (push : Z) (pb : uvm_pushbuffer_t)
    : option (Z * option nat * uvm_pushbuffer_t) :=
  let '(c, pb) := try_claim_chunk push pb in
  match c with
  | Some _ => Some (NV_OK, c, pb)
  | None => claim_loop fuel 1 NV_OK push (progress 0%nat pb)
  end.

(** Returns the status and [push->begin] as an offset from the base of the
    pushbuffer. The down of the semaphore blocks at 0; [None] again. *)
Definition uvm_pushbuffer_begin_push (fuel : nat) (push : Z) (pb : uvm_pushbuffer_t)
    : option (Z * Z * uvm_pushbuffer_t) :=
  if concurrent_pushes_sema pb <=? 0 then None
  else
    '(status, c, pb) ← claim_chunk fuel push (set_sema (Z.add (-1)) pb);
    if negb (status =? NV_OK) then Some (status, 0, set_sema (Z.add 1) pb)
    else
      i ← c;
      ch ← chunks pb !! i;
      Some (NV_OK, chunk_get_offset i + next_push_start ch, pb).
End claim.

(** ** Specification *)

(** A stretch of memory, from its first byte to the byte after its last. *)
#[local] Abbreviation span := (Z * Z)%type.

Definition before (x y : span) : Prop := x.2 ≤ y.1.
Definition disjoint_spans (x y : span) : Prop := before x y ∨ before y x.

(** The pushes of a chunk in the order they were begun: addresses go up, start
    again from below at most once, and never overlap. *)
Definition ring (l : list span) : Prop :=
  ∃ A B, l = A ++ B ∧ StronglySorted before A ∧ StronglySorted before B ∧
    ∀ a b, a ∈ A → b ∈ B → before b a.

(** Where a chunk with the pushes [l] has room for another. *)
Definition room (l : list span) : option Z :=
  match head l, last l with
  | Some (get, _), Some (_, put) =>
      if get =? put then None
      else if put <? get then if UVM_MAX_PUSH_SIZE <=? get - put then Some put else None
      else if put + UVM_MAX_PUSH_SIZE <=? UVM_PUSHBUFFER_CHUNK_SIZE then Some put
      else if UVM_MAX_PUSH_SIZE <=? get then Some 0
      else None
  | _, _ => Some 0
  end.

Definition chunk_base (i : nat) : Z := Z.of_nat i * UVM_PUSHBUFFER_CHUNK_SIZE.

(** A pending push relative to its chunk. *)
Definition entry_span (i : nat) (e : pb_entry) : span :=
  (pushbuffer_offset e - chunk_base i, pushbuffer_offset e + pushbuffer_size e - chunk_base i).

Definition chunk_spans (i : nat) (c : uvm_pushbuffer_chunk_t) : list span :=
  entry_span i <$> pending_gpfifos c.

(** The space of an ongoing push. *)
Definition push_span (c : uvm_pushbuffer_chunk_t) : span :=
  (next_push_start c, next_push_start c + UVM_MAX_PUSH_SIZE).

Definition in_chunk (x : span) : Prop := 0 ≤ x.1 ∧ x.1 < x.2 ∧ x.2 ≤ UVM_PUSHBUFFER_CHUNK_SIZE.

(** The push at [next_push_start] fits beside the pending ones. *)
Definition push_fits (i : nat) (c : uvm_pushbuffer_chunk_t) : Prop :=
  in_chunk (push_span c) ∧ ring (chunk_spans i c ++ [push_span c]).

Record chunk_inv (i : nat) (available idle : bool) (c : uvm_pushbuffer_chunk_t) : Prop := {
  ci_bounds : Forall in_chunk (chunk_spans i c);
  ci_ring : ring (chunk_spans i c);
  ci_busy : current_push c ≠ NULL → available = false ∧ idle = false ∧ push_fits i c;
  ci_free : current_push c = NULL →
    (available = true ↔ is_Some (room (chunk_spans i c))) ∧
    (idle = true ↔ pending_gpfifos c = []) ∧
    (available = true → push_fits i c) }.

Definition busy (c : uvm_pushbuffer_chunk_t) : bool := negb (current_push c =? NULL).

(** The pushbuffer, with the number of threads between the down of the semaphore
    and their claim of a chunk, and the number of chunks claimed by threads that
    returned an error. *)
Record pb_inv (waiting leaked : Z) (pb : uvm_pushbuffer_t) : Prop := {
  pi_length : length (chunks pb) = UVM_PUSHBUFFER_CHUNKS;
  pi_chunks : ∀ i c, chunks pb !! i = Some c →
    chunk_inv i (Z.testbit (available_chunks pb) (Z.of_nat i))
      (Z.testbit (idle_chunks pb) (Z.of_nat i)) c;
  pi_sema : concurrent_pushes_sema pb + waiting
    + Z.of_nat (length (filter (λ c, busy c = true) (chunks pb))) = 16 + leaked;
  pi_waiting : 0 ≤ waiting ∧ 0 ≤ concurrent_pushes_sema pb }.

(** Any interleaving of threads that take the semaphore, claim a chunk, give up
    or end their push, and of completions in any order. [claim_chunk] may return
    an error although its last attempt claimed a chunk: [pb_claim_error]. *)
Inductive pb_step : Z * Z * uvm_pushbuffer_t → Z * Z * uvm_pushbuffer_t → Prop :=
| pb_down w lk pb :
    0 < concurrent_pushes_sema pb →
    pb_step (w, lk, pb) (w + 1, lk, set_sema (Z.add (-1)) pb)
| pb_claim w lk push i pb pb' :
    0 < w → push ≠ NULL → try_claim_chunk push pb = (Some i, pb') →
    pb_step (w, lk, pb) (w - 1, lk, pb')
| pb_give_up w lk pb :
    0 < w → pb_step (w, lk, pb) (w - 1, lk, set_sema (Z.add 1) pb)
| pb_claim_error w lk push i pb pb' :
    0 < w → push ≠ NULL → try_claim_chunk push pb = (Some i, pb') →
    pb_step (w, lk, pb) (w - 1, lk + 1, set_sema (Z.add 1) pb')
| pb_end w lk i c g pb :
    chunks pb !! i = Some c → current_push c ≠ NULL →
    pushbuffer_offset g = chunk_get_offset i + next_push_start c →
    0 < pushbuffer_size g ≤ UVM_MAX_PUSH_SIZE →
    pb_step (w, lk, pb) (w, lk, uvm_pushbuffer_end_push g pb)
| pb_complete w lk c g pb :
    chunks pb !! gpfifo_to_chunk g = Some c → g ∈ pending_gpfifos c →
    pb_step (w, lk, pb) (w, lk, uvm_pushbuffer_mark_completed g pb).

Definition pb_init : Z * Z * uvm_pushbuffer_t := (0, 0, uvm_pushbuffer_create).

(** Everything the GPU may still read or a thread may still write, as offsets
    from the base of the pushbuffer. *)
Definition chunk_regions (i : nat) (c : uvm_pushbuffer_chunk_t) : list span :=
  (λ x, (chunk_base i + x.1, chunk_base i + x.2)) <$>
    (chunk_spans i c ++ if busy c then [push_span c] else []).

Definition live_regions (pb : uvm_pushbuffer_t) : list span :=
  mjoin (imap chunk_regions (chunks pb)).

(** * Rings *)

Lemma ring_sublist l k : l `sublist_of` k → ring k → ring l.
Proof.
  intros Hs (A & B & -> & HA & HB & Hba). apply sublist_app_r in Hs as (A' & B' & -> & HsA & HsB).
  exists A', B'. split; [done|]. split; [by eapply sorted_sublist|].
  split; [by eapply sorted_sublist|]. intros a b Ha Hb.
  apply Hba; by eapply elem_of_sublist.
Qed.

Lemma ring_sorted l : StronglySorted before l → ring l.
Proof.
  intros Hl. exists l, []. rewrite app_nil_r. repeat split; [done|constructor|].
  intros a b _ Hb. by apply not_elem_of_nil in Hb.
Qed.

(** The last element of a ring is in its upper or in its lower part. *)
Lemma ring_snoc l x : ring (l ++ [x]) ↔
  StronglySorted before (l ++ [x]) ∨
  ∃ A B, l = A ++ B ∧ StronglySorted before A ∧ StronglySorted before (B ++ [x]) ∧
    ∀ a b, a ∈ A → b ∈ B ++ [x] → before b a.
Proof.
  split.
  - intros (A & B & Heq & HA & HB & Hba). destruct B as [|y B _] using rev_ind.
    { left. rewrite app_nil_r in Heq. by rewrite Heq. }
    rewrite (assoc_L (++)) in Heq. apply app_inj_tail in Heq as [-> ->]. right. eauto 10.
  - intros [Hs|(A & B & -> & HA & HB & Hba)]; [by apply ring_sorted|].
    exists A, (B ++ [x]). by rewrite (assoc_L (++)).
Qed.

Lemma ring_shrink_last l s e e' : e' ≤ e → ring (l ++ [(s, e)]) → ring (l ++ [(s, e')]).
Proof.
  intros He. rewrite !ring_snoc. unfold before. rewrite StronglySorted_app.
  intros [(Hl & Hs & _)|(A & B & -> & HA & HB & Hba)]; [left|right; exists A, B].
  - apply StronglySorted_app. split; [|split; [done|repeat constructor]].
    intros x y Hx ->%list_elem_of_singleton. apply (Hl x (s, e)); [done|by apply list_elem_of_singleton].
  - apply StronglySorted_app in HB as (HB1 & HB2 & _). split; [done|]. split; [done|]. split.
    + apply StronglySorted_app. split; [|split; [done|repeat constructor]].
      intros x y Hx ->%list_elem_of_singleton. apply (HB1 x (s, e)); [done|by apply list_elem_of_singleton].
    + intros a b Ha [Hb| ->%list_elem_of_singleton]%elem_of_app.
      * apply Hba; [done|]. apply elem_of_app. by left.
      * simpl. specialize (Hba a (s, e) Ha). rewrite elem_of_app, list_elem_of_singleton in Hba.
        specialize (Hba (or_intror eq_refl)). simpl in Hba. lia.
Qed.

(** In a sorted list the first span starts and the last span ends it. *)
Lemma sorted_head l f x : StronglySorted before l → Forall in_chunk l →
  head l = Some f → x ∈ l → f.1 ≤ x.1.
Proof.
  destruct l as [|y l]; [done|]. intros [_ Hy]%StronglySorted_inv [Hin _]%Forall_cons.
  intros [= ->] [->|Hx]%elem_of_cons; [lia|]. rewrite Forall_forall in Hy.
  specialize (Hy x Hx). unfold before, in_chunk in *. lia.
Qed.

Lemma sorted_last l g x : StronglySorted before l → Forall in_chunk l →
  last l = Some g → x ∈ l → x.2 ≤ g.2.
Proof.
  intros Hs Hin (l' & ->)%last_Some. rewrite elem_of_app, list_elem_of_singleton.
  intros [Hx| ->]; [|done]. apply StronglySorted_app in Hs as (Hb & _).
  specialize (Hb x g Hx). rewrite list_elem_of_singleton in Hb. specialize (Hb eq_refl).
  apply Forall_app in Hin as [_ [Hg _]%Forall_cons]. unfold before, in_chunk in *. lia.
Qed.

Lemma sorted_head_last l f g : StronglySorted before l → Forall in_chunk l →
  head l = Some f → last l = Some g → f.1 < g.2.
Proof.
  intros Hs Hin Hf Hg. assert (f ∈ l) as Hfl by (destruct l; simplify_eq/=; left).
  pose proof (sorted_last l g f Hs Hin Hg Hfl). rewrite Forall_forall in Hin.
  specialize (Hin f Hfl). unfold in_chunk in Hin. lia.
Qed.

(** A ring is sorted, or its last span lies below its first. *)
Lemma ring_cases l f g : ring l → Forall in_chunk l → head l = Some f → last l = Some g →
  (StronglySorted before l ∧ f.1 < g.2) ∨
  (g.2 ≤ f.1 ∧ ∃ A B, l = A ++ B ∧ StronglySorted before A ∧ StronglySorted before B ∧
     (∀ a b, a ∈ A → b ∈ B → before b a) ∧ head A = Some f ∧ last B = Some g).
Proof.
  intros (A & B & -> & HA & HB & Hba) Hin Hf Hg.
  destruct A as [|a A]; [left; split; [done|by apply (sorted_head_last B)]|].
  destruct B as [|b B _] using rev_ind.
  { left. rewrite app_nil_r in *. split; [done|by apply (sorted_head_last (a :: A))]. }
  right. simpl in Hf. rewrite (assoc_L (++)), last_snoc in Hg. simplify_eq.
  split; [|exists (f :: A), (B ++ [g]); rewrite last_snoc; done].
  apply Hba; [left|]. apply elem_of_app. right. by apply list_elem_of_singleton.
Qed.

(** The room that is found lies inside the chunk and beside every push. *)
Lemma room_sound l start : ring l → Forall in_chunk l → room l = Some start →
  in_chunk (start, start + UVM_MAX_PUSH_SIZE) ∧ ring (l ++ [(start, start + UVM_MAX_PUSH_SIZE)]).
Proof.
  intros Hr Hin. unfold room.
  destruct (head l) as [[get fe]|] eqn:Hf;
    [|destruct l; [intros [= <-]; split; [done|]; apply ring_sorted; repeat constructor|done]].
  destruct (last l) as [[gs put]|] eqn:Hg; [|by apply last_None in Hg; subst].
  assert (0 ≤ get ∧ put ≤ UVM_PUSHBUFFER_CHUNK_SIZE ∧ 0 ≤ put) as (Hget & Hput & Hput0).
  { rewrite Forall_forall in Hin. pose proof (Hin _ (last_Some_elem_of _ _ Hg)) as Hg'.
    assert ((get, fe) ∈ l) as Hf' by (destruct l; simplify_eq/=; left).
    specialize (Hin _ Hf'). unfold in_chunk in *. simpl in *. lia. }
  destruct (ring_cases l _ _ Hr Hin Hf Hg) as [[Hs Hlt]|(Hle & A & B & -> & HA & HB & Hba & HfA & HgB)];
    cbn [fst snd] in *.
  - destruct (Z.eqb_spec get put); [lia|]. destruct (Z.ltb_spec put get); [lia|].
    destruct (Z.leb_spec (put + UVM_MAX_PUSH_SIZE) UVM_PUSHBUFFER_CHUNK_SIZE);
      [intros [= <-]|destruct (Z.leb_spec UVM_MAX_PUSH_SIZE get); [intros [= <-]|done]].
    + split; [unfold in_chunk, UVM_MAX_PUSH_SIZE in *; simpl; lia|].
      apply ring_sorted, sorted_snoc. split; [done|]. apply Forall_forall. intros x Hx.
      apply (sorted_last l (gs, put) x Hs Hin Hg Hx).
    + split; [unfold in_chunk, UVM_MAX_PUSH_SIZE, UVM_PUSHBUFFER_CHUNK_SIZE in *; simpl; lia|].
      exists l, [(0, 0 + UVM_MAX_PUSH_SIZE)]. repeat split; [done|repeat constructor|].
      intros a b Ha ->%list_elem_of_singleton. unfold before. simpl.
      pose proof (sorted_head l (get, fe) a Hs Hin Hf Ha). simpl in *. lia.
  - apply Forall_app in Hin as [HinA HinB].
    destruct (Z.eqb_spec get put); [done|]. destruct (Z.ltb_spec put get); [|lia].
    destruct (Z.leb_spec UVM_MAX_PUSH_SIZE (get - put)); [intros [= <-]|done].
    split; [unfold in_chunk, UVM_MAX_PUSH_SIZE in *; simpl|].
    { assert ((get, fe) ∈ A) as Hf' by (destruct A; simplify_eq/=; left).
      rewrite Forall_forall in HinA. specialize (HinA _ Hf'). unfold in_chunk in HinA. simpl in *. lia. }
    apply ring_snoc. right. exists A, B. split; [done|]. split; [done|]. split.
    + apply sorted_snoc. split; [done|]. apply Forall_forall. intros x Hx.
      apply (sorted_last B (gs, put) x HB HinB HgB Hx).
    + intros a b Ha [Hb| ->%list_elem_of_singleton]%elem_of_app; [by apply Hba|].
      pose proof (sorted_head A (get, fe) a HA HinA HfA Ha). unfold before. simpl in *. lia.
Qed.

(** If a push of the maximal size fits anywhere beside the others, room is
    found. *)
Lemma room_complete l s : Forall in_chunk l → in_chunk (s, s + UVM_MAX_PUSH_SIZE) →
  ring (l ++ [(s, s + UVM_MAX_PUSH_SIZE)]) → is_Some (room l).
Proof.
  intros Hin Hs Hr. unfold room. destruct (head l) as [[get fe]|] eqn:Hf; [|by eexists].
  destruct (last l) as [[gs put]|] eqn:Hg; [|by eexists].
  assert ((get, fe) ∈ l) as Hf' by (destruct l; simplify_eq/=; left).
  pose proof (last_Some_elem_of _ _ Hg) as Hg'.
  assert (get < put ∧ (put + UVM_MAX_PUSH_SIZE ≤ UVM_PUSHBUFFER_CHUNK_SIZE ∨ UVM_MAX_PUSH_SIZE ≤ get)
    ∨ put + UVM_MAX_PUSH_SIZE ≤ get) as Hroom; last first.
  { unfold UVM_MAX_PUSH_SIZE in *. repeat (case_match; try by eexists). all: lia. }
  unfold in_chunk in Hs. simpl in Hs.
  apply ring_snoc in Hr as [[Hl Hb]%sorted_snoc|(A & B & -> & HA & [HB Hb]%sorted_snoc & Hba)].
  - left. split; [apply (sorted_head_last l _ _ Hl Hin Hf Hg)|]. left.
    rewrite Forall_forall in Hb. specialize (Hb _ Hg'). unfold before in Hb. simpl in Hb. lia.
  - apply Forall_app in Hin as [HinA HinB]. rewrite Forall_forall in Hb.
    destruct B as [|b B _] using rev_ind.
    + rewrite app_nil_r in *. left. split; [apply (sorted_head_last A _ _ HA HinA Hf Hg)|]. right.
      specialize (Hba (get, fe) (s, s + UVM_MAX_PUSH_SIZE) Hf'). cbn [app] in Hba.
      rewrite list_elem_of_singleton in Hba. specialize (Hba eq_refl). unfold before in Hba. simpl in Hba. lia.
    + rewrite (assoc_L (++)), last_snoc in Hg. simplify_eq.
      assert (put ≤ s) as Hput by (apply (Hb (gs, put)), elem_of_app; right; by apply list_elem_of_singleton).
      destruct A as [|a A]; simplify_eq/=.
      * left. split; [|left; lia]. apply (sorted_head_last _ (get, fe) (gs, put) HB HinB Hf). apply last_snoc.
      * right. specialize (Hba (get, fe) (s, s + UVM_MAX_PUSH_SIZE)).
        rewrite !elem_of_app, !list_elem_of_singleton in Hba. unfold before in Hba. simpl in Hba.
        specialize (Hba ltac:(left) ltac:(by right)). lia.
Qed.

Lemma ring_disjoint l i j x y : ring l → l !! i = Some x → l !! j = Some y → i ≠ j →
  disjoint_spans x y.
Proof.
  assert (∀ k i j x y, StronglySorted before k → k !! i = Some x → k !! j = Some y →
    (i < j)%nat → before x y) as Hsorted.
  { clear. intros k i j x y Hk Hi Hj Hlt. rewrite <-(take_drop_middle k i x Hi) in Hk.
    apply StronglySorted_app_1_r, StronglySorted_inv in Hk as [_ Hx].
    rewrite Forall_forall in Hx. apply Hx, list_elem_of_lookup. exists (j - S i)%nat.
    rewrite lookup_drop. by replace (S i + (j - S i))%nat with j by lia. }
  intros (A & B & -> & HA & HB & Hba) Hi Hj Hne. unfold disjoint_spans.
  apply lookup_app_Some in Hi as [Hi|[Hli Hi]]; apply lookup_app_Some in Hj as [Hj|[Hlj Hj]].
  - destruct (decide (i < j)%nat); [left|right]; eapply (Hsorted A); eauto; lia.
  - right. apply Hba; by eapply list_elem_of_lookup_2.
  - left. apply Hba; by eapply list_elem_of_lookup_2.
  - destruct (decide (i < j)%nat); [left|right]; eapply (Hsorted B); eauto; lia.
Qed.

(** * Chunks *)

Lemma chunk_get_offset_base i : (i < UVM_PUSHBUFFER_CHUNKS)%nat → chunk_get_offset i = chunk_base i.
Proof.
  intros Hi. unfold chunk_get_offset, chunk_base. apply u32_small.
  unfold is_u32, UVM_PUSHBUFFER_CHUNK_SIZE, UVM_MAX_PUSH_SIZE, UVM_PUSHBUFFER_CHUNKS in *. lia.
Qed.

(** [update_chunk] marks the chunk available exactly when it has room, and
    idle when nothing is pending. *)
Lemma update_chunk_room i pb c :
  (i < UVM_PUSHBUFFER_CHUNKS)%nat → chunks pb !! i = Some c → Forall in_chunk (chunk_spans i c) →
  update_chunk i pb =
    match room (chunk_spans i c) with
    | None => pb
    | Some start =>
        set_chunks (alter (set_next_push_start start) i) (set_available (set_chunk i)
          (match pending_gpfifos c with [] => set_idle (set_chunk i) pb | _ :: _ => pb end))
    end.
Proof.
  intros Hi Hc Hin. unfold update_chunk. rewrite Hc. unfold chunk_get_gpu_get, chunk_get_cpu_put,
    chunk_get_first_gpfifo, chunk_get_last_gpfifo, chunk_spans, room in *.
  rewrite chunk_get_offset_base, fmap_last by done.
  destruct (pending_gpfifos c) as [|e l]; [done|].
  destruct (last (e :: l)) as [g|] eqn:Hg; [|by apply last_None in Hg].
  assert (in_chunk (entry_span i e) ∧ in_chunk (entry_span i g)) as [He Hgs].
  { rewrite Forall_fmap, Forall_forall in Hin. split; apply Hin; [left|by apply last_Some_elem_of]. }
  unfold in_chunk, entry_span in *.
  cbn [head fmap option_fmap option_map list_fmap fst snd] in *.
  rewrite !(u32_small (_ - chunk_base i)) by
    (unfold is_u32, UVM_PUSHBUFFER_CHUNK_SIZE, UVM_MAX_PUSH_SIZE in *; lia).
  destruct (Z.eqb_spec (pushbuffer_offset e - chunk_base i)
    (pushbuffer_offset g + pushbuffer_size g - chunk_base i)); [done|].
  destruct (Z.ltb_spec (pushbuffer_offset g + pushbuffer_size g - chunk_base i)
    (pushbuffer_offset e - chunk_base i)).
  - rewrite u32_small by (unfold is_u32, UVM_PUSHBUFFER_CHUNK_SIZE, UVM_MAX_PUSH_SIZE in *; lia).
    by destruct (_ <=? _).
  - rewrite u32_small by (unfold is_u32, UVM_PUSHBUFFER_CHUNK_SIZE, UVM_MAX_PUSH_SIZE in *; lia).
    destruct (_ <=? UVM_PUSHBUFFER_CHUNK_SIZE); [done|]. by destruct (_ <=? _).
Qed.

(** The state of a chunk after [update_chunk], as the invariant sees it. *)
Lemma update_chunk_spec i pb c :
  (i < UVM_PUSHBUFFER_CHUNKS)%nat → chunks pb !! i = Some c → Forall in_chunk (chunk_spans i c) →
  ∃ c', chunks (update_chunk i pb) = <[i := c']> (chunks pb) ∧
    pending_gpfifos c' = pending_gpfifos c ∧ current_push c' = current_push c ∧
    concurrent_pushes_sema (update_chunk i pb) = concurrent_pushes_sema pb ∧
    (∀ j : nat, Z.testbit (available_chunks (update_chunk i pb)) (Z.of_nat j) =
       Z.testbit (available_chunks pb) (Z.of_nat j) ||
       bool_decide (i = j ∧ is_Some (room (chunk_spans i c)))) ∧
    (∀ j : nat, Z.testbit (idle_chunks (update_chunk i pb)) (Z.of_nat j) =
       Z.testbit (idle_chunks pb) (Z.of_nat j) || bool_decide (i = j ∧ pending_gpfifos c = [])) ∧
    match room (chunk_spans i c) with
    | Some start => next_push_start c' = start
    | None => next_push_start c' = next_push_start c
    end.
Proof.
  intros Hi Hc Hin. rewrite (update_chunk_room i pb c) by done.
  assert (∀ (m : Z) (j : nat), Z.testbit (set_chunk i m) (Z.of_nat j)
    = Z.testbit m (Z.of_nat j) || bool_decide (i = j)) as Hset.
  { intros m j. unfold set_chunk. rewrite Z.setbit_eqb by lia. rewrite orb_comm. f_equal.
    destruct (Z.eqb_spec (Z.of_nat i) (Z.of_nat j)); case_bool_decide; try done; lia. }
  destruct (room (chunk_spans i c)) as [start|] eqn:Hroom.
  - exists (set_next_push_start start c).
    assert (∀ pb', chunks pb' = chunks pb →
      chunks (set_chunks (alter (set_next_push_start start) i) pb') =
        <[i := set_next_push_start start c]> (chunks pb)) as Hch.
    { intros pb' Heq. simpl. rewrite Heq. by apply list_alter_insert. }
    destruct (pending_gpfifos c) eqn:Hp; (split; [by rewrite Hch|]); repeat split; try done.
    all: intros j; simpl; rewrite ?Hset; try (f_equal; apply bool_decide_ext; naive_solver).
    rewrite bool_decide_eq_false_2, orb_false_r by naive_solver. done.
  - exists c. split; [by rewrite list_insert_id|].
    assert (pending_gpfifos c ≠ []) as Hne.
    { intros Hp. unfold chunk_spans in Hroom. by rewrite Hp in Hroom. }
    repeat split; try done; intros j; rewrite bool_decide_eq_false_2; try by rewrite orb_false_r.
    + intros [_ [? ?]]. done.
    + intros [_ ?]. done.
Qed.

Lemma get_chunk_in_mask_Some mask i :
  get_chunk_in_mask mask = Some i →
  (i < UVM_PUSHBUFFER_CHUNKS)%nat ∧ Z.testbit mask (Z.of_nat i) = true.
Proof.
  unfold get_chunk_in_mask. rewrite fmap_Some. intros ([k x] & Hf & ->).
  apply list_find_Some in Hf as (Hk & Hx & _). apply lookup_seq in Hk as [-> Hk].
  cbn [fst Nat.add] in *. split; [lia|done].
Qed.

Lemma get_chunk_in_mask_None mask i :
  get_chunk_in_mask mask = None → (i < UVM_PUSHBUFFER_CHUNKS)%nat →
  Z.testbit mask (Z.of_nat i) = false.
Proof.
  unfold get_chunk_in_mask. rewrite fmap_None, list_find_None, Forall_forall.
  intros H Hi. apply not_true_is_false, H, elem_of_seq. lia.
Qed.

Lemma clear_chunk_testbit i j mask :
  Z.testbit (clear_chunk i mask) (Z.of_nat j) =
    Z.testbit mask (Z.of_nat j) && bool_decide (i ≠ j).
Proof.
  unfold clear_chunk. rewrite Z.clearbit_eqb. f_equal.
  destruct (Z.eqb_spec (Z.of_nat i) (Z.of_nat j)); case_bool_decide; try done; lia.
Qed.

Lemma filter_busy_insert (l : list uvm_pushbuffer_chunk_t) i c c' :
  l !! i = Some c →
  Z.of_nat (length (filter (λ c, busy c = true) (<[i := c']> l))) + Z.b2z (busy c) =
  Z.of_nat (length (filter (λ c, busy c = true) l)) + Z.b2z (busy c').
Proof.
  revert i. induction l as [|x l IH]; intros [|i] Hi; simplify_eq/=;
    rewrite !filter_cons; [|specialize (IH i Hi)].
  - destruct (busy c), (busy c'); simpl; lia.
  - change (list_insert i c' l) with (<[i := c']> l). destruct (decide (busy x = true)); simpl; lia.
Qed.

(** * The invariant *)

(** A step that touches one chunk. *)
Lemma pb_inv_update w lk w' lk' pb pb' i c c' :
  pb_inv w lk pb → chunks pb !! i = Some c → chunks pb' = <[i := c']> (chunks pb) →
  (∀ j : nat, i ≠ j → Z.testbit (available_chunks pb') (Z.of_nat j) =
     Z.testbit (available_chunks pb) (Z.of_nat j)) →
  (∀ j : nat, i ≠ j → Z.testbit (idle_chunks pb') (Z.of_nat j) =
     Z.testbit (idle_chunks pb) (Z.of_nat j)) →
  chunk_inv i (Z.testbit (available_chunks pb') (Z.of_nat i))
    (Z.testbit (idle_chunks pb') (Z.of_nat i)) c' →
  concurrent_pushes_sema pb' + w' + Z.b2z (busy c') - lk' =
    concurrent_pushes_sema pb + w + Z.b2z (busy c) - lk →
  0 ≤ w' → 0 ≤ concurrent_pushes_sema pb' →
  pb_inv w' lk' pb'.
Proof.
  intros [Hlen Hch Hsema Hw] Hc Hcs Ha Hd Hinv Hs Hw' Hs'. constructor; [|..|done].
  - by rewrite Hcs, length_insert.
  - intros j cj. rewrite Hcs, list_lookup_insert_Some.
    intros [(<- & <- & _)|[Hne Hj]]; [done|]. rewrite Ha, Hd by done. by apply Hch.
  - rewrite Hcs. pose proof (filter_busy_insert (chunks pb) i c c' Hc). lia.
Qed.

Lemma chunk_inv_free i a d c :
  Forall in_chunk (chunk_spans i c) → ring (chunk_spans i c) → current_push c = NULL →
  a = bool_decide (is_Some (room (chunk_spans i c))) →
  d = bool_decide (pending_gpfifos c = []) →
  (∀ start, room (chunk_spans i c) = Some start → next_push_start c = start) →
  chunk_inv i a d c.
Proof.
  intros Hin Hr Hcur -> -> Hnext. constructor; [done|done|done|]. intros _.
  rewrite !bool_decide_eq_true. split_and!; [done|done|].
  intros [start Hs]. unfold push_fits, push_span. rewrite (Hnext start Hs). by apply room_sound.
Qed.

(** What the bits of a chunk say of it. *)
Lemma chunk_inv_available i d c : chunk_inv i true d c → current_push c = NULL ∧ push_fits i c.
Proof.
  intros [_ _ Hb Hf]. destruct (decide (current_push c = NULL)) as [He|Hne].
  - split; [done|]. by apply (Hf He).
  - by destruct (Hb Hne).
Qed.

Lemma chunk_inv_idle i a c : chunk_inv i a true c → a = true ∧ pending_gpfifos c = [].
Proof.
  intros [_ _ Hb Hf]. destruct (decide (current_push c = NULL)) as [He|Hne];
    [|by destruct (Hb Hne) as (_ & ? & _)].
  destruct (Hf He) as (Ha & Hd & _). pose proof (proj1 Hd eq_refl) as Hp. split; [|done].
  apply Ha. unfold chunk_spans. rewrite Hp. by eexists.
Qed.

Lemma pick_chunk_Some w lk pb i :
  pb_inv w lk pb → pick_chunk pb = Some i →
  ∃ c, chunks pb !! i = Some c ∧ Z.testbit (available_chunks pb) (Z.of_nat i) = true ∧
    current_push c = NULL ∧ push_fits i c.
Proof.
  intros Hinv Hp. assert ((i < UVM_PUSHBUFFER_CHUNKS)%nat ∧
    (Z.testbit (idle_chunks pb) (Z.of_nat i) = true ∨
     Z.testbit (available_chunks pb) (Z.of_nat i) = true)) as [Hi Hbit].
  { unfold pick_chunk in Hp. destruct (get_idle_chunk pb) eqn:Hid; simplify_eq;
      apply get_chunk_in_mask_Some in Hp || apply get_chunk_in_mask_Some in Hid; naive_solver. }
  destruct (lookup_lt_is_Some_2 (chunks pb) i) as [c Hc]; [by rewrite (pi_length _ _ _ Hinv)|].
  pose proof (pi_chunks _ _ _ Hinv i c Hc) as Hci. exists c. split; [done|].
  assert (Z.testbit (available_chunks pb) (Z.of_nat i) = true) as Ha.
  { destruct Hbit as [Hd|Ha]; [|done]. rewrite Hd in Hci. by apply chunk_inv_idle in Hci as [? _]. }
  split; [done|]. rewrite Ha in Hci. by apply chunk_inv_available in Hci.
Qed.

Lemma busy_NULL c : current_push c = NULL → busy c = false.
Proof. intros H. unfold busy. by rewrite H. Qed.

Lemma busy_push c : current_push c ≠ NULL → busy c = true.
Proof. intros H. unfold busy. by rewrite (proj2 (Z.eqb_neq _ _) H). Qed.

Lemma pb_inv_lt w lk pb i c :
  pb_inv w lk pb → chunks pb !! i = Some c → (i < UVM_PUSHBUFFER_CHUNKS)%nat.
Proof. intros Hinv Hc. rewrite <-(pi_length _ _ _ Hinv). by eapply lookup_lt_Some. Qed.

Lemma claim_inv w lk push i pb pb' :
  pb_inv w lk pb → 0 < w → push ≠ NULL → try_claim_chunk push pb = (Some i, pb') → pb_inv (w - 1) lk pb'.
Proof.
  intros Hinv Hw Hpush. unfold try_claim_chunk. destruct (pick_chunk pb) as [i'|] eqn:Hp; [|done].
  intros [= <- <-]. destruct (pick_chunk_Some w lk pb i' Hinv Hp) as (c & Hc & _ & Hcur & Hfit).
  destruct (pi_chunks _ _ _ Hinv _ _ Hc) as [Hin Hr _ _].
  apply (pb_inv_update w lk _ _ pb _ i' c (set_current_push push c) Hinv Hc); simpl.
  - by apply list_alter_insert.
  - intros j Hj. rewrite clear_chunk_testbit, bool_decide_eq_true_2, andb_true_r; done.
  - intros j Hj. rewrite clear_chunk_testbit, bool_decide_eq_true_2, andb_true_r; done.
  - rewrite !clear_chunk_testbit, !(bool_decide_eq_false_2 (i' ≠ i')), !andb_false_r by naive_solver.
    by constructor.
  - rewrite (busy_NULL c Hcur), (busy_push (set_current_push push c) Hpush). simpl. lia.
  - lia.
  - by apply (pi_waiting _ _ _ Hinv).
Qed.

Lemma end_chunk_spans i c g :
  (i < UVM_PUSHBUFFER_CHUNKS)%nat → pushbuffer_offset g = chunk_get_offset i + next_push_start c →
  chunk_spans i (set_pending_gpfifos (pending_gpfifos c ++ [g]) c) =
    chunk_spans i c ++ [(next_push_start c, next_push_start c + pushbuffer_size g)].
Proof.
  intros Hi Hoff. unfold chunk_spans. simpl. rewrite fmap_app. simpl. do 2 f_equal.
  unfold entry_span. rewrite Hoff, chunk_get_offset_base by done. f_equal; lia.
Qed.

Lemma end_gpfifo_chunk i c g :
  (i < UVM_PUSHBUFFER_CHUNKS)%nat → push_fits i c →
  pushbuffer_offset g = chunk_get_offset i + next_push_start c → gpfifo_to_chunk g = i.
Proof.
  intros Hi [Hin _] Hoff. unfold gpfifo_to_chunk, offset_to_chunk.
  rewrite Hoff, chunk_get_offset_base by done. unfold chunk_base, in_chunk, push_span in *.
  rewrite Z.add_comm, Z.div_add, Z.div_small by
    (unfold UVM_PUSHBUFFER_CHUNK_SIZE, UVM_MAX_PUSH_SIZE in *; simpl in *; lia). lia.
Qed.

(** [update_chunk] after the pending pushes of a chunk changed to those of [c1]:
    the chunk is consistent once it is not claimed. *)
Lemma update_chunk_inv w lk pb pb1 i c c1 :
  pb_inv w lk pb → chunks pb !! i = Some c →
  chunks pb1 = <[i := c1]> (chunks pb) → available_chunks pb1 = available_chunks pb →
  idle_chunks pb1 = idle_chunks pb →
  Forall in_chunk (chunk_spans i c1) → ring (chunk_spans i c1) →
  (Z.testbit (available_chunks pb) (Z.of_nat i) = true → is_Some (room (chunk_spans i c1))) →
  (Z.testbit (idle_chunks pb) (Z.of_nat i) = true → pending_gpfifos c1 = []) →
  let pb2 := update_chunk i pb1 in
  ∃ c2, chunks pb2 = <[i := c2]> (chunks pb) ∧ current_push c2 = current_push c1 ∧
    concurrent_pushes_sema pb2 = concurrent_pushes_sema pb1 ∧
    (∀ j : nat, i ≠ j → Z.testbit (available_chunks pb2) (Z.of_nat j) =
       Z.testbit (available_chunks pb) (Z.of_nat j)) ∧
    (∀ j : nat, i ≠ j → Z.testbit (idle_chunks pb2) (Z.of_nat j) =
       Z.testbit (idle_chunks pb) (Z.of_nat j)) ∧
    chunk_inv i (Z.testbit (available_chunks pb2) (Z.of_nat i))
      (Z.testbit (idle_chunks pb2) (Z.of_nat i)) (set_current_push NULL c2).
Proof.
  intros Hinv Hc Hch1 Hav1 Hid1 Hin Hr Ha Hd pb2. pose proof (pb_inv_lt _ _ _ _ _ Hinv Hc) as Hi.
  assert (chunks pb1 !! i = Some c1) as Hc1.
  { rewrite Hch1. apply list_lookup_insert_eq. by eapply lookup_lt_Some. }
  destruct (update_chunk_spec i pb1 c1 Hi Hc1 Hin) as (c2 & Hch & Hpend & Hcur & Hsem & Hav & Hid & Hnext).
  fold pb2 in Hch, Hsem, Hav, Hid. rewrite Hav1 in Hav. rewrite Hid1 in Hid.
  exists c2. rewrite Hch, Hch1, list_insert_insert_eq. split_and!; [done|done|done|..].
  - intros j Hj. rewrite Hav, bool_decide_eq_false_2, orb_false_r; naive_solver.
  - intros j Hj. rewrite Hid, bool_decide_eq_false_2, orb_false_r; naive_solver.
  - assert (chunk_spans i (set_current_push NULL c2) = chunk_spans i c1) as Hsp.
    { unfold chunk_spans. simpl. by rewrite Hpend. }
    apply chunk_inv_free; rewrite ?Hsp; [done|done|done| | |].
    + rewrite Hav. destruct (Z.testbit (available_chunks pb) _); simpl; [symmetry; by apply bool_decide_eq_true, Ha|].
      apply bool_decide_ext. naive_solver.
    + rewrite Hid. simpl. rewrite Hpend. destruct (Z.testbit (idle_chunks pb) _); simpl;
        [symmetry; by apply bool_decide_eq_true, Hd|]. apply bool_decide_ext. naive_solver.
    + intros start Hs. by rewrite Hs in Hnext.
Qed.

Lemma end_inv w lk i c g pb :
  pb_inv w lk pb → chunks pb !! i = Some c → current_push c ≠ NULL →
  pushbuffer_offset g = chunk_get_offset i + next_push_start c →
  0 < pushbuffer_size g ≤ UVM_MAX_PUSH_SIZE → pb_inv w lk (uvm_pushbuffer_end_push g pb).
Proof.
  intros Hinv Hc Hcur Hoff Hsize. pose proof (pb_inv_lt _ _ _ _ _ Hinv Hc) as Hi.
  destruct (pi_chunks _ _ _ Hinv _ _ Hc) as [Hin Hr Hb _]. destruct (Hb Hcur) as (Ha & Hd & Hfit).
  pose proof Hfit as [Hpin Hpr]. unfold uvm_pushbuffer_end_push.
  rewrite (end_gpfifo_chunk i c g Hi Hfit Hoff). set (pb1 := set_chunks _ pb).
  destruct (update_chunk_inv w lk pb pb1 i c (set_pending_gpfifos (pending_gpfifos c ++ [g]) c))
    as (c2 & Hch & _ & Hsem & Hav & Hid & Hci); [done|done| |done|done|..];
    rewrite ?(end_chunk_spans i c g Hi Hoff).
  - simpl. by rewrite (list_alter_insert _ _ _ c).
  - apply Forall_app. split; [done|]. apply Forall_singleton.
    unfold in_chunk, push_span in *. simpl in *. lia.
  - eapply ring_shrink_last; [|exact Hpr]. simpl. lia.
  - by rewrite Ha.
  - by rewrite Hd.
  - apply (pb_inv_update w lk _ _ pb _ i c (set_current_push NULL c2) Hinv Hc); cbn [set_sema set_chunks
      chunks available_chunks idle_chunks concurrent_pushes_sema]; [|done..| | |].
    + rewrite Hch, (list_alter_insert _ _ _ c2), list_insert_insert_eq; [done|].
      apply list_lookup_insert_eq. by eapply lookup_lt_Some.
    + rewrite Hsem, (busy_push c Hcur), (busy_NULL (set_current_push NULL c2) eq_refl). simpl. lia.
    + by apply (pi_waiting _ _ _ Hinv).
    + rewrite Hsem. pose proof (pi_waiting _ _ _ Hinv). simpl. lia.
Qed.

Lemma filter_head_last {A} (P : A → Prop) `{∀ x, Decision (P x)} (l : list A) :
  (∀ x, head l = Some x → P x) → (∀ x, last l = Some x → P x) →
  head (filter P l) = head l ∧ last (filter P l) = last l.
Proof.
  intros Hh Hl. split.
  - destruct l as [|x l]; [done|]. by rewrite filter_cons_True by by apply Hh.
  - destruct l as [|x l _] using rev_ind; [done|]. rewrite last_snoc in Hl.
    rewrite filter_app, filter_cons_True by by apply Hl. by rewrite filter_nil, !last_snoc.
Qed.

Lemma Forall_sublist_of {A} (P : A → Prop) l k : l `sublist_of` k → Forall P k → Forall P l.
Proof. rewrite !Forall_forall. intros Hs Hk x Hx. by eapply Hk, elem_of_sublist. Qed.

Lemma push_fits_sublist i c l :
  l `sublist_of` pending_gpfifos c → push_fits i c → push_fits i (set_pending_gpfifos l c).
Proof.
  intros Hs [Hin Hr]. split; [done|]. eapply ring_sublist, Hr.
  apply sublist_app; [|done]. by apply (fmap_sublist (entry_span i)).
Qed.

(** Taking pushes out of a chunk that keeps its first and its last one, or that
    is claimed, needs no update of the bitmaps. *)
Lemma chunk_inv_no_update i a d c l :
  l `sublist_of` pending_gpfifos c → pending_gpfifos c ≠ [] → chunk_inv i a d c →
  (current_push c = NULL → head l = head (pending_gpfifos c) ∧ last l = last (pending_gpfifos c)) →
  chunk_inv i a d (set_pending_gpfifos l c).
Proof.
  intros Hs Hne [Hin Hr Hb Hf] Hkeep.
  assert (chunk_spans i (set_pending_gpfifos l c) `sublist_of` chunk_spans i c) as Hss
    by (by apply (fmap_sublist (entry_span i))).
  constructor; [by eapply Forall_sublist_of|by eapply ring_sublist|..]; simpl.
  - intros Hcur. destruct (Hb Hcur) as (? & ? & ?). split_and!; [done|done|by apply push_fits_sublist].
  - intros Hcur. destruct (Hf Hcur) as (Ha & Hd & Hfit), (Hkeep Hcur) as [Hh Hl].
    replace (room (chunk_spans i (set_pending_gpfifos l c))) with (room (chunk_spans i c)).
    + split_and!; [done| |intros; apply push_fits_sublist; by auto]. rewrite Hd.
      split; [done|]. intros ->. simpl in Hh. by destruct (pending_gpfifos c).
    + unfold room, chunk_spans. simpl. rewrite !fmap_last, Hl.
      destruct l, (pending_gpfifos c); by simplify_eq/=.
Qed.

Lemma complete_inv w lk c g pb :
  pb_inv w lk pb → chunks pb !! gpfifo_to_chunk g = Some c → g ∈ pending_gpfifos c →
  pb_inv w lk (uvm_pushbuffer_mark_completed g pb).
Proof.
  intros Hinv Hc Hg. pose proof (pb_inv_lt _ _ _ _ _ Hinv Hc) as Hi.
  unfold uvm_pushbuffer_mark_completed. rewrite Hc.
  set (i := gpfifo_to_chunk g) in *. set (l := filter _ _).
  pose proof (sublist_filter (λ e, pe_ptr e ≠ pe_ptr g) (pending_gpfifos c)) as Hs. fold l in Hs.
  pose proof (pi_chunks _ _ _ Hinv _ _ Hc) as Hci.
  assert (pending_gpfifos c ≠ []) as Hne by (intros He; rewrite He in Hg; by apply not_elem_of_nil in Hg).
  set (c1 := set_pending_gpfifos l c). set (pb1 := set_chunks _ pb).
  assert (chunks pb1 = <[i := c1]> (chunks pb)) as Hch1 by (simpl; by rewrite (list_alter_insert _ _ _ c)).
  destruct (_ && _) eqn:Hneed; [apply andb_true_iff in Hneed as [_ Hcur%Z.eqb_eq]|]; last first.
  { apply (pb_inv_update w lk _ _ pb _ i c c1 Hinv Hc Hch1); [done|done| |done|apply (pi_waiting _ _ _ Hinv)..].
    apply chunk_inv_no_update; [done|done|done|]. intros Hcur. rewrite Hcur, andb_true_r in Hneed.
    apply orb_false_iff in Hneed as [Hf%bool_decide_eq_false Hl%bool_decide_eq_false].
    apply filter_head_last; intros x Hx Heq; [apply Hf|apply Hl];
      unfold chunk_get_first_gpfifo, chunk_get_last_gpfifo; rewrite Hx; simpl; by rewrite Heq. }
  destruct Hci as [Hin Hr _ Hfree]. destruct (Hfree Hcur) as (_ & Hd & Hfit).
  assert (chunk_spans i c1 `sublist_of` chunk_spans i c) as Hss by (by apply (fmap_sublist (entry_span i))).
  assert (Forall in_chunk (chunk_spans i c1)) as Hin1 by by eapply Forall_sublist_of.
  destruct (update_chunk_inv w lk pb pb1 i c c1) as (c2 & Hch & Hcur2 & Hsem & Hav & Hid & Hci);
    [done|done|done|done|done|done|by eapply ring_sublist| | |].
  - intros Hbit. destruct (push_fits_sublist i c l Hs (Hfit Hbit)). by eapply room_complete.
  - by intros ?%Hd.
  - replace (set_current_push NULL c2) with c2 in Hci
      by (destruct c2; simpl in *; by rewrite <-Hcur, <-Hcur2).
    apply (pb_inv_update w lk _ _ pb _ i c c2 Hinv Hc Hch Hav Hid Hci); rewrite ?Hsem;
      [|apply (pi_waiting _ _ _ Hinv)..].
    rewrite (busy_NULL c2), (busy_NULL c); [done|done|by rewrite Hcur2].
Qed.

Lemma sema_inv w lk w' lk' n pb :
  pb_inv w lk pb → 0 ≤ w' → 0 ≤ n + concurrent_pushes_sema pb → n + w' - lk' = w - lk →
  pb_inv w' lk' (set_sema (Z.add n) pb).
Proof. intros [Hlen Hch Hsema Hw] ? ? ?. constructor; simpl in *; [done|done|lia|lia]. Qed.

Lemma pb_step_inv w lk pb w' lk' pb' :
  pb_inv w lk pb → pb_step (w, lk, pb) (w', lk', pb') → pb_inv w' lk' pb'.
Proof.
  intros Hinv Hstep. pose proof (pi_waiting _ _ _ Hinv). inversion Hstep; subst.
  - apply (sema_inv w lk'); [done|lia..].
  - by eapply claim_inv.
  - apply (sema_inv w lk'); [done|lia..].
  - match goal with H : try_claim_chunk _ _ = _ |- _ =>
      pose proof (claim_inv w lk _ _ _ _ Hinv ltac:(done) ltac:(done) H) as Hinv' end.
    pose proof (pi_waiting _ _ _ Hinv'). apply (sema_inv (w - 1) lk); [done|lia..].
  - by eapply end_inv.
  - by eapply complete_inv.
Qed.

Lemma pb_init_inv : pb_inv 0 0 uvm_pushbuffer_create.
Proof.
  constructor; [done| |done|done]. intros i c [-> Hi]%lookup_replicate.
  apply chunk_inv_free; [apply Forall_nil_2|apply ring_sorted, SSorted_nil|done|..];
    [| |by intros start [= <-]].
  all: unfold UVM_PUSHBUFFER_CHUNKS in Hi; cbn [uvm_pushbuffer_create available_chunks idle_chunks];
    rewrite Z.ones_spec_low by lia; done.
Qed.

Lemma pb_reachable_inv w lk pb : rtc pb_step pb_init (w, lk, pb) → pb_inv w lk pb.
Proof.
  cut (∀ x y, rtc pb_step x y → pb_inv x.1.1 x.1.2 x.2 → pb_inv y.1.1 y.1.2 y.2).
  { intros H Hr. apply (H pb_init (w, lk, pb) Hr). apply pb_init_inv. }
  induction 1 as [|[[w0 lk0] pb0] [[w1 lk1] pb1] z Hs _ IH]; [done|].
  intros Hinv. apply IH. by eapply pb_step_inv.
Qed.

Lemma chunk_regions_bounds i c a d x :
  chunk_inv i a d c → x ∈ chunk_regions i c →
  chunk_base i ≤ x.1 ∧ x.1 < x.2 ∧ x.2 ≤ chunk_base i + UVM_PUSHBUFFER_CHUNK_SIZE.
Proof.
  intros [Hin Hr Hb _]. unfold chunk_regions. rewrite list_elem_of_fmap.
  intros (y & -> & Hy). assert (in_chunk y) as Hyin; [|unfold in_chunk in Hyin; simpl; lia].
  rewrite Forall_forall in Hin. apply elem_of_app in Hy as [Hy|Hy]; [by apply Hin|].
  unfold busy in Hy. destruct (Z.eqb_spec (current_push c) NULL) as [|Hne]; [by apply not_elem_of_nil in Hy|].
  apply list_elem_of_singleton in Hy as ->. by destruct (Hb Hne) as (_ & _ & [? _]).
Qed.

Lemma chunk_regions_ring i c a d :
  chunk_inv i a d c → ring (chunk_spans i c ++ if busy c then [push_span c] else []).
Proof.
  intros [Hin Hr Hb _]. unfold busy. destruct (Z.eqb_spec (current_push c) NULL) as [|Hne].
  - simpl. by rewrite app_nil_r.
  - by destruct (Hb Hne) as (_ & _ & [_ ?]).
Qed.

Lemma live_regions_lookup pb k x :
  live_regions pb !! k = Some x →
  ∃ i c j, chunks pb !! i = Some c ∧ chunk_regions i c !! j = Some x ∧
    k = (sum_list (length <$> take i (imap chunk_regions (chunks pb))) + j)%nat.
Proof.
  unfold live_regions. intros (i & l & j & Hl & Hj & ->)%join_lookup_Some.
  apply list_lookup_imap_Some in Hl as (c & Hc & ->). eauto 10.
Qed.

(** Examples: two claims, of which the first has ended, and a pushbuffer with
    fifteen claimed chunks and a full one. *)
Definition ex_claim (push : Z) (pb : uvm_pushbuffer_t) : uvm_pushbuffer_t :=
  (try_claim_chunk push (set_sema (Z.add (-1)) pb)).2.

Definition ex_entry (k : Z) : pb_entry := PbEntry (100 + k) (k * UVM_MAX_PUSH_SIZE) UVM_MAX_PUSH_SIZE.

Definition ex_two : uvm_pushbuffer_t :=
  ex_claim 2 (uvm_pushbuffer_end_push (ex_entry 0) (ex_claim 1 uvm_pushbuffer_create)).

Definition ex_full : uvm_pushbuffer_t :=
  foldl (λ pb k, uvm_pushbuffer_end_push (ex_entry k) (ex_claim 1 pb))
    (uvm_pushbuffer_end_push (ex_entry 0) (Nat.iter 16 (ex_claim 1) uvm_pushbuffer_create))
    [1; 2; 3; 4; 5; 6; 7].

Lemma ex_two_reachable : rtc pb_step pb_init (0, 0, ex_two).
Proof.
  eapply rtc_l; [apply pb_down; done|].
  eapply rtc_l; [eapply (pb_claim _ _ 1); [done..|vm_compute; reflexivity]|].
  eapply rtc_l; [eapply (pb_end _ _ 0%nat _ (ex_entry 0)); [vm_compute; reflexivity|done..]|].
  eapply rtc_l; [apply pb_down; done|].
  eapply rtc_l; [eapply (pb_claim _ _ 2); [done..|vm_compute; reflexivity]|].
  match goal with |- rtc _ ?x ?y => replace x with y by (vm_compute; reflexivity) end. apply rtc_refl.
Qed.

(** What is live fits in the pushbuffer and does not overlap. *)
Lemma live_regions_disjoint w lk pb (Hinv : pb_inv w lk pb) :
  (∀ k x, live_regions pb !! k = Some x → 0 ≤ x.1 ∧ x.1 < x.2 ∧ x.2 ≤ UVM_PUSHBUFFER_SIZE) ∧
  (∀ k k' x y, live_regions pb !! k = Some x → live_regions pb !! k' = Some y → k ≠ k' →
     disjoint_spans x y).
Proof.
  split.
  - intros k x (i & c & j & Hc & Hj & _)%live_regions_lookup.
    pose proof (pb_inv_lt _ _ _ _ _ Hinv Hc) as Hi.
    pose proof (chunk_regions_bounds _ _ _ _ x (pi_chunks _ _ _ Hinv i c Hc)
      (list_elem_of_lookup_2 _ _ _ Hj)) as (? & ? & ?).
    unfold chunk_base, UVM_PUSHBUFFER_SIZE, UVM_PUSHBUFFER_CHUNKS, UVM_PUSHBUFFER_CHUNK_SIZE,
      UVM_MAX_PUSH_SIZE in *. lia.
  - intros k k' x y (i & c & j & Hc & Hj & ->)%live_regions_lookup
      (i' & c' & j' & Hc' & Hj' & ->)%live_regions_lookup Hne.
    pose proof (pi_chunks _ _ _ Hinv i c Hc) as Hci. destruct (decide (i = i')) as [<-|Hii].
    + simplify_eq. apply list_lookup_fmap_Some in Hj as (x' & -> & Hj).
      apply list_lookup_fmap_Some in Hj' as (y' & -> & Hj').
      assert (disjoint_spans x' y') as Hd.
      { eapply ring_disjoint; [by eapply chunk_regions_ring|exact Hj|exact Hj'|]. intros ->. done. }
      unfold disjoint_spans, before in *. simpl. lia.
    + apply list_elem_of_lookup_2 in Hj, Hj'.
      pose proof (chunk_regions_bounds _ _ _ _ x Hci Hj).
      pose proof (chunk_regions_bounds _ _ _ _ y (pi_chunks _ _ _ Hinv i' c' Hc') Hj').
      unfold disjoint_spans, before, chunk_base, UVM_PUSHBUFFER_CHUNK_SIZE, UVM_MAX_PUSH_SIZE in *. lia.
Qed.

(** C20: whatever the order in which threads claim chunks and end their pushes and
    in which the GPU completes them, no two regions of the pushbuffer that are
    in use overlap, and each lies inside the pushbuffer. *)
Theorem pushbuffer_regions_disjoint w lk pb (Hreach : rtc pb_step pb_init (w, lk, pb)) :
  (∀ k x, live_regions pb !! k = Some x → 0 ≤ x.1 ∧ x.1 < x.2 ∧ x.2 ≤ UVM_PUSHBUFFER_SIZE) ∧
  (∀ k k' x y, live_regions pb !! k = Some x → live_regions pb !! k' = Some y → k ≠ k' →
     disjoint_spans x y).
Proof.
  by apply (live_regions_disjoint w lk), pb_reachable_inv.
Qed.

Lemma pushbuffer_regions_disjoint_witness : disjoint_spans (0, UVM_MAX_PUSH_SIZE)
  (UVM_PUSHBUFFER_CHUNK_SIZE, UVM_PUSHBUFFER_CHUNK_SIZE + UVM_MAX_PUSH_SIZE).
Proof.
  apply (proj2 (pushbuffer_regions_disjoint 0 0 ex_two ex_two_reachable) 0%nat 1%nat);
    [vm_compute; reflexivity|vm_compute; reflexivity|done].
Defined.

(** Availability in terms of the memory: a chunk nobody claimed in which a push
    of the maximal size fits somewhere. *)
Definition space_at (pb : uvm_pushbuffer_t) (i : nat) : Prop :=
  ∃ c start, chunks pb !! i = Some c ∧ current_push c = NULL ∧
    push_fits i (set_next_push_start start c).

Lemma space_at_available w lk pb i :
  pb_inv w lk pb → Z.testbit (available_chunks pb) (Z.of_nat i) = true ∧
    (i < UVM_PUSHBUFFER_CHUNKS)%nat ↔ space_at pb i.
Proof.
  intros Hinv. split.
  - intros [Hbit Hi]. destruct (lookup_lt_is_Some_2 (chunks pb) i) as [c Hc];
      [by rewrite (pi_length _ _ _ Hinv)|].
    pose proof (pi_chunks _ _ _ Hinv i c Hc) as Hci. rewrite Hbit in Hci.
    apply chunk_inv_available in Hci as [Hcur Hfit]. exists c, (next_push_start c).
    split_and!; [done|done|]. by destruct c.
  - intros (c & start & Hc & Hcur & [Hin Hr]). split; [|by eapply pb_inv_lt].
    destruct (pi_chunks _ _ _ Hinv i c Hc) as [Hb _ _ Hfree]. destruct (Hfree Hcur) as [Ha _].
    apply Ha. by apply (room_complete _ start).
Qed.

(** The bitmaps are exact: in every reachable state a claim succeeds exactly
    when some chunk that is not claimed still has a gap for a push of the
    maximal size. *)
Theorem pushbuffer_has_space_exact w lk pb (Hreach : rtc pb_step pb_init (w, lk, pb)) :
  uvm_pushbuffer_has_space pb = true ↔ ∃ i, space_at pb i.
Proof.
  apply pb_reachable_inv in Hreach as Hinv. unfold uvm_pushbuffer_has_space.
  rewrite bool_decide_eq_true. split.
  - intros [i Hp]. exists i. apply (space_at_available w lk); [done|].
    destruct (pick_chunk_Some w lk pb i Hinv Hp) as (c & Hc & Hbit & _).
    split; [done|by eapply pb_inv_lt].
  - intros [i [Hbit Hi]%(space_at_available w lk)]; [|done]. unfold pick_chunk.
    destruct (get_idle_chunk pb); [by eexists|].
    destruct (get_available_chunk pb) eqn:Ha; [by eexists|].
    by rewrite (get_chunk_in_mask_None _ _ Ha Hi) in Hbit.
Qed.

Lemma pushbuffer_has_space_exact_witness : ∃ i, space_at ex_two i.
Proof.
  apply (pushbuffer_has_space_exact 0 0 ex_two ex_two_reachable). vm_compute. reflexivity.
Defined.

(** ** Claims end *)

(** What is left to do before the pushbuffer is empty: an ongoing push has to end
    and to complete, a pending one to complete. *)
Definition chunk_work (c : uvm_pushbuffer_chunk_t) : nat :=
  (length (pending_gpfifos c) + if busy c then 2 else 0)%nat.

Definition work (pb : uvm_pushbuffer_t) : nat := sum_list (chunk_work <$> chunks pb).

Lemma filter_busy_all (l : list uvm_pushbuffer_chunk_t) :
  length (filter (λ c, busy c = true) l) = length l ∨ ∃ i c, l !! i = Some c ∧ busy c = false.
Proof.
  induction l as [|c l IH]; [by left|]. destruct (busy c) eqn:Hb; [|right; by exists 0%nat, c].
  rewrite filter_cons_True by done. destruct IH as [IH|(i & c' & Hi & Hb')].
  - left. simpl. by rewrite IH.
  - right. by exists (S i), c'.
Qed.

(** A thread that holds the semaphore finds a chunk nobody claimed. If it cannot
    have it, pushes are pending there. *)
Lemma no_space_pending w pb :
  pb_inv w 0 pb → 0 < w → pick_chunk pb = None →
  ∃ i c, chunks pb !! i = Some c ∧ current_push c = NULL ∧ pending_gpfifos c ≠ [].
Proof.
  intros Hinv Hw Hp. pose proof Hinv as [Hlen Hch Hsema Hwait].
  destruct (filter_busy_all (chunks pb)) as [Hall|(i & c & Hc & Hb)].
  { rewrite Hall, Hlen in Hsema. unfold UVM_PUSHBUFFER_CHUNKS in Hsema. lia. }
  apply negb_false_iff, Z.eqb_eq in Hb. exists i, c. split_and!; [done|done|]. intros Hnil.
  destruct (Hch i c Hc) as [_ _ _ Hfree]. destruct (Hfree Hb) as (_ & Hd & _).
  unfold pick_chunk in Hp. destruct (get_idle_chunk pb) eqn:Hid; [done|].
  pose proof (get_chunk_in_mask_None _ i Hid (pb_inv_lt _ _ _ _ _ Hinv Hc)) as Hbit.
  by rewrite (proj2 Hd Hnil) in Hbit.
Qed.

Lemma work_pending pb i c : chunks pb !! i = Some c → pending_gpfifos c ≠ [] → (0 < work pb)%nat.
Proof.
  intros Hc Hne. pose proof (sum_list_le chunk_work (chunks pb) i c Hc) as H. unfold work.
  unfold chunk_work in H at 1. destruct (pending_gpfifos c); [done|]. simpl in H. lia.
Qed.

Lemma try_claim_None push pb : pick_chunk pb = None → try_claim_chunk push pb = (None, pb).
Proof. intros H. unfold try_claim_chunk. by rewrite H. Qed.

Section claim_ends.
Context (progress : nat → uvm_pushbuffer_t → uvm_pushbuffer_t) (errors : nat → Z) (push : Z).
Context (Herrors : ∀ k, errors k = NV_OK).

(** In a round without space other threads only end pushes, and at least one
    push ends or completes. *)
Context (Hprogress : ∀ k w pb, rtc pb_step pb_init (w, 0, pb) → 0 < w → pick_chunk pb = None →
  ∃ w', 0 < w' ∧ rtc pb_step (w, 0, pb) (w', 0, progress k pb) ∧ (work (progress k pb) < work pb)%nat).

(** The outcome of a claim: a chunk claimed in a reachable state. *)
Definition claimed (r : option (Z * option nat * uvm_pushbuffer_t)) : Prop :=
  ∃ w i pb pb', r = Some (NV_OK, Some i, pb') ∧ 0 < w ∧ rtc pb_step pb_init (w, 0, pb) ∧
    try_claim_chunk push pb = (Some i, pb').

Lemma claim_loop_ends fuel k w pb :
  rtc pb_step pb_init (w, 0, pb) → 0 < w → (work pb < fuel)%nat →
  claimed (claim_loop progress errors fuel k NV_OK push pb).
Proof.
  revert k w pb. induction fuel as [|fuel IH]; intros k w pb Hreach Hw Hfuel; [lia|]. simpl.
  destruct (pick_chunk pb) as [i|] eqn:Hp.
  - unfold claimed. destruct (try_claim_chunk push pb) as [c pb'] eqn:Hc.
    assert (c = Some i) as -> by (unfold try_claim_chunk in Hc; rewrite Hp in Hc; by simplify_eq).
    simpl. naive_solver.
  - rewrite try_claim_None by done. simpl. rewrite Herrors.
    destruct (Hprogress k w pb Hreach Hw Hp) as (w' & Hw' & Hsteps & Hless).
    apply (IH _ w'); [by etrans|done|lia].
Qed.

Lemma claim_chunk_ends fuel w pb :
  rtc pb_step pb_init (w, 0, pb) → 0 < w → (work pb < fuel)%nat →
  claimed (claim_chunk progress errors fuel push pb).
Proof.
  intros Hreach Hw Hfuel. unfold claim_chunk. destruct (pick_chunk pb) as [i|] eqn:Hp.
  - unfold claimed. destruct (try_claim_chunk push pb) as [c pb'] eqn:Hc.
    assert (c = Some i) as -> by (unfold try_claim_chunk in Hc; rewrite Hp in Hc; by simplify_eq).
    naive_solver.
  - rewrite try_claim_None by done.
    destruct (Hprogress 0 w pb Hreach Hw Hp) as (w' & Hw' & Hsteps & Hless).
    apply (claim_loop_ends _ _ w'); [by etrans|done|lia].
Qed.
End claim_ends.


(** ** A GPU that completes one push per round *)

Lemma entry_chunk i c g a d :
  chunk_inv i a d c → g ∈ pending_gpfifos c → gpfifo_to_chunk g = i.
Proof.
  intros [Hin _ _ _] Hg. rewrite Forall_forall in Hin.
  specialize (Hin (entry_span i g)). unfold chunk_spans in Hin.
  specialize (Hin (list_elem_of_fmap_2 _ _ _ Hg)).
  unfold gpfifo_to_chunk, offset_to_chunk, in_chunk, entry_span, chunk_base in *. simpl in Hin.
  replace (pushbuffer_offset g) with
    (pushbuffer_offset g - Z.of_nat i * UVM_PUSHBUFFER_CHUNK_SIZE + Z.of_nat i * UVM_PUSHBUFFER_CHUNK_SIZE) by lia.
  rewrite Z.div_add, Z.div_small by (unfold UVM_PUSHBUFFER_CHUNK_SIZE, UVM_MAX_PUSH_SIZE in *; lia). lia.
Qed.

Lemma mark_completed_chunks w lk g c pb :
  pb_inv w lk pb → chunks pb !! gpfifo_to_chunk g = Some c →
  ∃ c', chunks (uvm_pushbuffer_mark_completed g pb) = <[gpfifo_to_chunk g := c']> (chunks pb) ∧
    pending_gpfifos c' = filter (λ e, pe_ptr e ≠ pe_ptr g) (pending_gpfifos c) ∧
    current_push c' = current_push c.
Proof.
  intros Hinv Hc. pose proof (pb_inv_lt _ _ _ _ _ Hinv Hc) as Hi.
  destruct (pi_chunks _ _ _ Hinv _ _ Hc) as [Hin _ _ _].
  unfold uvm_pushbuffer_mark_completed. rewrite Hc. set (i := gpfifo_to_chunk g) in *.
  set (l := filter _ _). set (pb1 := set_chunks _ pb).
  assert (chunks pb1 = <[i := set_pending_gpfifos l c]> (chunks pb)) as Hch1
    by (simpl; by rewrite (list_alter_insert _ _ _ c)).
  destruct (_ && _); [|by exists (set_pending_gpfifos l c)].
  destruct (update_chunk_spec i pb1 (set_pending_gpfifos l c)) as (c' & Hch & Hp & Hcur & _); [done|..].
  - rewrite Hch1. apply list_lookup_insert_eq. by eapply lookup_lt_Some.
  - eapply Forall_sublist_of, Hin. apply (fmap_sublist (entry_span i)). apply sublist_filter.
  - exists c'. by rewrite Hch, Hch1, list_insert_insert_eq.
Qed.

Lemma work_insert pb pb' i c c' :
  chunks pb !! i = Some c → chunks pb' = <[i := c']> (chunks pb) →
  (work pb' + chunk_work c = work pb + chunk_work c')%nat.
Proof.
  unfold work. intros Hc ->. by apply sum_list_insert.
Qed.

(** A completion reduces the work. *)
Lemma mark_completed_work w lk g c pb :
  pb_inv w lk pb → chunks pb !! gpfifo_to_chunk g = Some c → g ∈ pending_gpfifos c →
  (work (uvm_pushbuffer_mark_completed g pb) < work pb)%nat.
Proof.
  intros Hinv Hc Hg. destruct (mark_completed_chunks w lk g c pb Hinv Hc) as (c' & Hch & Hp & Hcur).
  pose proof (work_insert _ _ _ _ _ Hc Hch) as Hw.
  assert (chunk_work c' < chunk_work c)%nat; [|lia]. unfold chunk_work, busy. rewrite Hp, Hcur.
  apply Nat.add_lt_mono_r. apply (length_filter_lt _ _ g); [done|]. naive_solver.
Qed.

Definition complete_one (pb : uvm_pushbuffer_t) : uvm_pushbuffer_t :=
  match mjoin (pending_gpfifos <$> chunks pb) with
  | g :: _ => uvm_pushbuffer_mark_completed g pb
  | [] => pb
  end.

Lemma complete_one_progress w pb :
  rtc pb_step pb_init (w, 0, pb) → 0 < w → pick_chunk pb = None →
  ∃ w', 0 < w' ∧ rtc pb_step (w, 0, pb) (w', 0, complete_one pb) ∧ (work (complete_one pb) < work pb)%nat.
Proof.
  intros Hreach Hw Hp. apply pb_reachable_inv in Hreach as Hinv.
  destruct (no_space_pending w pb Hinv Hw Hp) as (i & c & Hc & _ & Hne). unfold complete_one.
  destruct (mjoin _) as [|g l] eqn:Hj.
  { destruct (pending_gpfifos c) as [|g l] eqn:Hpc; [done|].
    assert (g ∈ mjoin (pending_gpfifos <$> chunks pb)) as Hg; [|rewrite Hj in Hg; by apply not_elem_of_nil in Hg].
    apply list_elem_of_join. exists (g :: l). split; [left|]. rewrite <-Hpc.
    apply list_elem_of_fmap_2. by eapply list_elem_of_lookup_2. }
  assert (g ∈ mjoin (pending_gpfifos <$> chunks pb)) as Hg by (rewrite Hj; left).
  apply list_elem_of_join in Hg as (k & Hg & Hk). apply list_elem_of_fmap in Hk as (c1 & -> & Hc1).
  apply list_elem_of_lookup in Hc1 as [j Hc1].
  assert (chunks pb !! gpfifo_to_chunk g = Some c1) as Hgc.
  { by rewrite (entry_chunk _ _ _ _ _ (pi_chunks _ _ _ Hinv _ _ Hc1) Hg). }
  exists w. split_and!; [done| |by eapply mark_completed_work].
  apply rtc_once. by econstructor.
Qed.


(** An error can cost a chunk. When [claim_chunk] has read an error and the
    next attempt succeeds, it returns the error with the chunk claimed; the
    caller gives the semaphore back and nobody ever ends that push. *)
Theorem pushbuffer_claim_error_leaks progress errors push fuel i pb
    (pb1 := set_sema (Z.add (-1)) pb) (pb2 := progress 1%nat (progress 0%nat pb1))
    (Hsema : 0 < concurrent_pushes_sema pb) (Hfull : pick_chunk pb = None)
    (Hfull1 : pick_chunk (progress 0%nat pb1) = None) (Herror : errors 1%nat ≠ NV_OK)
    (Hspace : pick_chunk pb2 = Some i) :
  uvm_pushbuffer_begin_push progress errors (2 + fuel) push pb =
    Some (errors 1%nat, 0, set_sema (Z.add 1) (try_claim_chunk push pb2).2) ∧
  chunks (try_claim_chunk push pb2).2 !! i = set_current_push push <$> chunks pb2 !! i.
Proof.
  unfold uvm_pushbuffer_begin_push, claim_chunk. rewrite (proj2 (Z.leb_gt _ _) Hsema).
  fold pb1. rewrite (try_claim_None push pb1) by done. simpl.
  rewrite (try_claim_None push) by done. simpl. fold pb2. unfold try_claim_chunk.
  rewrite Hspace. simpl. rewrite (proj2 (Z.eqb_neq _ _) Herror). simpl.
  split; [done|]. apply list_lookup_alter_eq.
Qed.

Lemma pushbuffer_claim_error_leaks_witness :
  let pb2 := uvm_pushbuffer_mark_completed (ex_entry 0) (set_sema (Z.add (-1)) ex_full) in
  uvm_pushbuffer_begin_push
    (λ k, if (k =? 1)%nat then uvm_pushbuffer_mark_completed (ex_entry 0) else id) (λ _, 1) 2 9 ex_full =
    Some (1, 0, set_sema (Z.add 1) (try_claim_chunk 9 pb2).2) ∧
  chunks (try_claim_chunk 9 pb2).2 !! 0%nat = set_current_push 9 <$> chunks pb2 !! 0%nat.
Proof.
  apply (pushbuffer_claim_error_leaks
    (λ k, if (k =? 1)%nat then uvm_pushbuffer_mark_completed (ex_entry 0) else id) (λ _, 1) 9 0 0 ex_full);
    vm_compute; (reflexivity || discriminate).
Defined.
