(* ===== verification/UvmSemaphore.v ===== *)
(** * UvmSemaphore: GPU semaphores of nvidia-uvm

    [src/kernel-open/nvidia-uvm/uvm_gpu_semaphore.c]. A semaphore is four bytes
    the GPU writes when it reaches a point of a channel. Three parts:
    - the pool that hands semaphores out of pages and takes them back;
    - the tracking semaphore, which extends the 32-bit payload to 64 bits;
    - the payload of a secure semaphore under confidential computing, which the
      GPU encrypts, versions with a notifier, and the CPU reads without a lock.

    The CPU's accesses to memory the GPU writes are reads at successive times of
    a memory that changes by steps of the GPU. *)
From stdpp Require Import base numbers list list_numbers relations gmap.
From S2P Require Import Prelude.
#[local] Open Scope Z_scope.

Definition UVM_SEMAPHORE_COUNT_PER_PAGE : nat := 1024.
Definition UVM_SEMAPHORE_CANARY_BASE : Z := 0x0badc0de.
Definition UVM_SEMAPHORE_CANARY_MASK : Z := 0xf0000000.
Definition UVM_CONF_COMPUTING_AUTH_TAG_SIZE : nat := 16.

Definition make_canary (payload : Z) : Z :=
  let prev_quadrant := u32 (payload - Z.shiftl 1 30) in
  Z.lor (Z.land prev_quadrant UVM_SEMAPHORE_CANARY_MASK) UVM_SEMAPHORE_CANARY_BASE.

Definition is_canary (val : Z) : bool :=
  Z.land val (u32 (Z.lnot UVM_SEMAPHORE_CANARY_MASK)) =? UVM_SEMAPHORE_CANARY_BASE.

(** ** The pool *)

(** A page with the memory behind it. [sp_notifiers] is the notifier field of the
    encrypted payloads, used in a secure pool only. *)
Record sem_page := SemPage {
  sp_ptr : Z;
  sp_payloads : list Z;
  sp_notifiers : list Z;
  free_semaphores : list bool }.

Record uvm_gpu_semaphore_pool_t := SemPool {
  pages : list sem_page;
  free_semaphores_count : Z }.

Record uvm_gpu_semaphore_t := Semaphore {
  sem_page_ptr : Z;
  sem_index : nat;
  cached_payload : Z;
  last_pushed_notifier : Z;
  last_observed_notifier : Z }.

Definition sem_zero : uvm_gpu_semaphore_t := Semaphore NULL 0 0 0 0.

Definition set_payloads f (p : sem_page) : sem_page :=
  SemPage (sp_ptr p) (f (sp_payloads p)) (sp_notifiers p) (free_semaphores p).
Definition set_notifiers f (p : sem_page) : sem_page :=
  SemPage (sp_ptr p) (sp_payloads p) (f (sp_notifiers p)) (free_semaphores p).
Definition set_free f (p : sem_page) : sem_page :=
  SemPage (sp_ptr p) (sp_payloads p) (sp_notifiers p) (f (free_semaphores p)).

(** The page a pointer points to. *)
Definition upd_page (ptr : Z) (f : sem_page → sem_page) (pool : uvm_gpu_semaphore_pool_t)
    : uvm_gpu_semaphore_pool_t :=
  SemPool ((λ p, if sp_ptr p =? ptr then f p else p) <$> pages pool) (free_semaphores_count pool).

Definition find_page (ptr : Z) (pool : uvm_gpu_semaphore_pool_t) : option sem_page :=
  snd <$> list_find (λ p, sp_ptr p = ptr) (pages pool).

(** What the allocators answer: the page descriptor, the statuses of the RM
    allocations, and what the new memory holds. *)
Record page_env := PageEnv {
  pe_kvmalloc : Z;
  pe_map_all : Z;
  pe_rm_mem : Z;
  pe_rm_encrypted : Z;
  pe_contents : list Z;
  pe_notifiers : list Z }.

(** [secure] is gpu_semaphore_pool_is_secure, [debug] UVM_IS_DEBUG. *)
Section pool.
Context (secure debug : bool).

Definition semaphore_uses_canary : bool := negb secure && debug.

(** The status, and which of the two allocations the page holds. *)
Definition pool_page_alloc_buffers (env : page_env) : Z * bool * bool :=
  if negb secure then (pe_map_all env, pe_map_all env =? NV_OK, false)
  else if negb (pe_rm_mem env =? NV_OK) then (pe_rm_mem env, false, false)
  else if negb (pe_rm_encrypted env =? NV_OK) then (pe_rm_encrypted env, false, false)
  else (NV_OK, true, true).

Definition pool_alloc_page (env : page_env) (pool : uvm_gpu_semaphore_pool_t)
    : Z * uvm_gpu_semaphore_pool_t :=
  if pe_kvmalloc env =? NULL then (NV_ERR_NO_MEMORY, pool)
  else
    let '(status, _, _) := pool_page_alloc_buffers env in
    if negb (status =? NV_OK) then (status, pool)
    else
      let payloads := if semaphore_uses_canary
        then replicate UVM_SEMAPHORE_COUNT_PER_PAGE (make_canary 0) else pe_contents env in
      let page := SemPage (pe_kvmalloc env) payloads (pe_notifiers env)
        (replicate UVM_SEMAPHORE_COUNT_PER_PAGE true) in
      (NV_OK, SemPool (page :: pages pool)
        (u32 (free_semaphores_count pool + Z.of_nat UVM_SEMAPHORE_COUNT_PER_PAGE))).

Definition uvm_gpu_semaphore_get_payload (sem : uvm_gpu_semaphore_t)
    (pool : uvm_gpu_semaphore_pool_t) : Z :=
  if secure then cached_payload sem
  else default 0 (p ← find_page (sem_page_ptr sem) pool; sp_payloads p !! sem_index sem).

Definition uvm_gpu_semaphore_set_payload (payload : Z) (sem : uvm_gpu_semaphore_t)
    (pool : uvm_gpu_semaphore_pool_t) : uvm_gpu_semaphore_t * uvm_gpu_semaphore_pool_t :=
  if secure then
    (Semaphore (sem_page_ptr sem) (sem_index sem) payload
       (last_pushed_notifier sem) (last_observed_notifier sem), pool)
  else (sem, upd_page (sem_page_ptr sem) (set_payloads <[sem_index sem := payload]>) pool).

(** find_first_bit. *)
Definition first_free (p : sem_page) : option nat :=
  fst <$> list_find (λ b, b = true) (free_semaphores p).

Definition pool_find_free (pool : uvm_gpu_semaphore_pool_t) : option (sem_page * nat) :=
  '(_, p) ← list_find (λ p, is_Some (first_free p)) (pages pool);
  i ← first_free p;
  Some (p, i).

(** The loop of uvm_gpu_semaphore_alloc over the pages. *)
Definition pool_take (pool : uvm_gpu_semaphore_pool_t)
    : Z * uvm_gpu_semaphore_t * uvm_gpu_semaphore_pool_t :=
  match pool_find_free pool with
  | None => (NV_ERR_GENERIC, sem_zero, pool)
  | Some (p, i) =>
      let sem := Semaphore (sp_ptr p) i 0 0 0 in
      let pool := if secure
        then upd_page (sp_ptr p) (set_notifiers <[i := last_observed_notifier sem]>) pool else pool in
      let '(sem, pool) := uvm_gpu_semaphore_set_payload 0 sem pool in
      let pool := upd_page (sp_ptr p) (set_free <[i := false]>) pool in
      (NV_OK, sem, SemPool (pages pool) (u32 (free_semaphores_count pool - 1)))
  end.

Definition uvm_gpu_semaphore_alloc (env : page_env) (pool : uvm_gpu_semaphore_pool_t)
    : Z * uvm_gpu_semaphore_t * uvm_gpu_semaphore_pool_t :=
  let '(status, pool) :=
    if free_semaphores_count pool =? 0 then pool_alloc_page env pool else (NV_OK, pool) in
  if negb (status =? NV_OK) then (status, sem_zero, pool) else pool_take pool.

Definition uvm_gpu_semaphore_free (sem : uvm_gpu_semaphore_t) (pool : uvm_gpu_semaphore_pool_t)
    : uvm_gpu_semaphore_t * uvm_gpu_semaphore_pool_t :=
  let page := sem_page_ptr sem in
  if page =? NULL then (sem, pool)
  else
    let '(sem, pool) := if semaphore_uses_canary
      then uvm_gpu_semaphore_set_payload (make_canary (uvm_gpu_semaphore_get_payload sem pool)) sem pool
      else (sem, pool) in
    let i := sem_index sem in
    (Semaphore NULL i (cached_payload sem) (last_pushed_notifier sem) (last_observed_notifier sem),
     let pool := upd_page page (set_free <[i := true]>) pool in
     SemPool (pages pool) (u32 (free_semaphores_count pool + 1))).
End pool.

Definition uvm_gpu_semaphore_pool_create : uvm_gpu_semaphore_pool_t := SemPool [] 0.

(** pool_free_page for every page. *)
Definition uvm_gpu_semaphore_pool_destroy (pool : uvm_gpu_semaphore_pool_t)
    : uvm_gpu_semaphore_pool_t :=
  foldl (λ pool p, SemPool (filter (λ q, sp_ptr q ≠ sp_ptr p) (pages pool))
      (u32 (free_semaphores_count pool - Z.of_nat UVM_SEMAPHORE_COUNT_PER_PAGE)))
    pool (pages pool).

(** ** The tracking semaphore *)

Record uvm_gpu_tracking_semaphore_t := TrackingSem {
  completed_value : Z;
  queued_value : Z }.

(** [new_sem_value] is the payload the CPU reads. *)
Definition update_completed_value_locked (new_sem_value : Z) (t : uvm_gpu_tracking_semaphore_t)
    : Z * uvm_gpu_tracking_semaphore_t :=
  let old_value := completed_value t in
  let old_sem_value := u32 old_value in
  if old_sem_value =? new_sem_value then (old_value, t)
  else
    let new_value := Z.lor (Z.land old_value 0xFFFFFFFF00000000) new_sem_value in
    let new_value := if new_sem_value <? old_sem_value
      then u64 (new_value + Z.shiftl 1 32) else new_value in
    (new_value, TrackingSem new_value (queued_value t)).

Definition uvm_gpu_tracking_semaphore_is_value_completed (new_sem_value value : Z)
    (t : uvm_gpu_tracking_semaphore_t) : bool * uvm_gpu_tracking_semaphore_t :=
  if value <=? completed_value t then (true, t)
  else
    let '(completed, t) := update_completed_value_locked new_sem_value t in
    (value <=? completed, t).

Definition uvm_gpu_tracking_semaphore_is_completed (new_sem_value : Z)
    (t : uvm_gpu_tracking_semaphore_t) : bool * uvm_gpu_tracking_semaphore_t :=
  uvm_gpu_tracking_semaphore_is_value_completed new_sem_value (queued_value t) t.

Definition uvm_gpu_tracking_semaphore_alloc (secure debug : bool) (env : page_env)
    (pool : uvm_gpu_semaphore_pool_t)
    : Z * uvm_gpu_semaphore_t * uvm_gpu_tracking_semaphore_t * uvm_gpu_semaphore_pool_t :=
  let '(status, sem, pool) := uvm_gpu_semaphore_alloc secure debug env pool in
  (status, sem, TrackingSem 0 0, pool).

(** ** The encrypted payload *)

Record enc_payload := EncPayload {
  encrypted_payload : Z;
  notifier : Z;
  auth_tag : list Z }.

(** [IV] is the initialization vector CSL logs for an encryption. *)
Section encrypted.
Context {IV : Type}.

Inductive ce_op :=
| CeMemset (v : Z)
| CeEncrypt (iv : IV) (payload : Z).

(** The side of the channel: the notifier and the vectors of its semaphore, and
    the operations of its pushes the GPU has yet to execute. *)
Record enc_channel := EncChannel {
  ec_last_pushed : Z;
  ec_ivs : list IV;
  ec_ops : list ce_op }.

Definition channel_semaphore_gpu_encrypt_payload (num_gpfifo_entries : Z) (iv : IV) (payload : Z)
    (c : enc_channel) : enc_channel :=
  let n := ec_last_pushed c in
  let iv_index := (u32 (n + 2) / 2) mod num_gpfifo_entries in
  EncChannel (u32 (n + 2)) (<[Z.to_nat iv_index := iv]> (ec_ivs c))
    (ec_ops c ++ [CeMemset (u32 (n + 1)); CeEncrypt iv payload; CeMemset (u32 (n + 2))]).

(** What the loop that takes a snapshot ends with. *)
Inductive enc_read :=
| ReadSame
| ReadOut
| ReadPair (gpu_notifier payload : Z) (tag : list Z).

(** Outcome of an update: nothing new, the new payload with its notifier, or a
    fatal error. *)
Inductive enc_update :=
| EncSame
| EncValue (payload gpu_notifier : Z)
| EncFatal (status : Z).

(** [mem t] is the memory at the CPU's access number [t]; [decrypt] is
    uvm_conf_computing_cpu_decrypt, a payload or the status of the failure. The
    loop has no bound while the notifier is odd, hence the fuel. *)
Section reader.
Context (mem : nat → enc_payload) (last_observed : Z).

Fixpoint encrypted_payload_read (fuel t : nat) (tries_left : Z) : option enc_read :=
  match fuel with
  | O => None
  | S fuel =>
      let gpu_notifier := notifier (mem t) in
      if gpu_notifier mod 2 =? 1 then
        if 0 <? tries_left then encrypted_payload_read fuel (t + 1) tries_left else Some ReadOut
      else if gpu_notifier =? last_observed then Some ReadSame
      else
        let local_auth_tag := (λ i : nat, nth i (auth_tag (mem (t + 1 + i)%nat)) 0) <$>
          seq 0 UVM_CONF_COMPUTING_AUTH_TAG_SIZE in
        let local_payload := encrypted_payload (mem (t + 17)%nat) in
        let new_gpu_notifier := notifier (mem (t + 18)%nat) in
        let tries_left := u32 (tries_left - 1) in
        if (0 <? tries_left) && negb (gpu_notifier =? new_gpu_notifier)
        then encrypted_payload_read fuel (t + 19) tries_left
        else if tries_left =? 0 then Some ReadOut
        else Some (ReadPair gpu_notifier local_payload local_auth_tag)
  end.
End reader.

Definition gpu_semaphore_encrypted_payload_update (mem : nat → enc_payload)
    (decrypt : IV → Z → list Z → Z + Z) (num_gpfifo_entries : Z) (ivs : list IV)
    (fuel : nat) (last_observed : Z) : option enc_update :=
  r ← encrypted_payload_read mem last_observed fuel 0 num_gpfifo_entries;
  match r with
  | ReadSame => Some EncSame
  | ReadOut => Some (EncFatal NV_ERR_INVALID_STATE)
  | ReadPair n payload tag =>
      let iv_index := (n / 2) mod num_gpfifo_entries in
      iv ← ivs !! Z.to_nat iv_index;
      match decrypt iv payload tag with
      | inl v => Some (EncValue v n)
      | inr status => Some (EncFatal status)
      end
  end.

(** The system: the pushes so far, the channel and the memory. The GPU executes
    the operations in order; an encryption writes the payload and the tag piece
    by piece. There are fewer than 2^31 pushes, the notifier does not wrap. *)
Record enc_sys := EncSys {
  es_hist : list (IV * Z);
  es_chan : enc_channel;
  es_mem : enc_payload }.

Inductive ce_step (num : Z) (encrypt : IV → Z → Z * list Z) : enc_sys → enc_sys → Prop :=
| ce_push iv v h c m :
    ec_last_pushed c + 2 < 2 ^ 32 →
    ce_step num encrypt (EncSys h c m)
      (EncSys (h ++ [(iv, v)]) (channel_semaphore_gpu_encrypt_payload num iv v c) m)
| ce_memset v ops lp ivs h m :
    ce_step num encrypt (EncSys h (EncChannel lp ivs (CeMemset v :: ops)) m)
      (EncSys h (EncChannel lp ivs ops) (EncPayload (encrypted_payload m) v (auth_tag m)))
| ce_partial iv v p tag ops lp ivs h m :
    ce_step num encrypt (EncSys h (EncChannel lp ivs (CeEncrypt iv v :: ops)) m)
      (EncSys h (EncChannel lp ivs (CeEncrypt iv v :: ops)) (EncPayload p (notifier m) tag))
| ce_encrypt iv v ops lp ivs h m :
    ce_step num encrypt (EncSys h (EncChannel lp ivs (CeEncrypt iv v :: ops)) m)
      (EncSys h (EncChannel lp ivs ops)
        (EncPayload (encrypt iv v).1 (notifier m) (encrypt iv v).2)).
End encrypted.

(** * Canaries *)

Lemma make_canary_eq p :
  make_canary p = UVM_SEMAPHORE_CANARY_BASE + u32 (p - 2 ^ 30) / 2 ^ 28 * 2 ^ 28.
Proof.
  unfold make_canary. change (Z.shiftl 1 30) with (2 ^ 30).
  change UVM_SEMAPHORE_CANARY_MASK with (Z.shiftl (Z.ones 4) 28).
  rewrite land_high_mask by (try lia; apply u32_range).
  rewrite Z.lor_comm. by rewrite lor_mul_add by (unfold UVM_SEMAPHORE_CANARY_BASE; lia).
Qed.

Lemma is_canary_make_canary p : is_canary (make_canary p) = true.
Proof.
  unfold is_canary. rewrite make_canary_eq. apply Z.eqb_eq.
  change (u32 (Z.lnot UVM_SEMAPHORE_CANARY_MASK)) with (2 ^ 28 - 1).
  rewrite land_pow2_mask, Z.mod_add by lia. by apply Z.mod_small.
Qed.

(** A GEQ acquire compares on the 32-bit wheel. *)
Definition acquire_geq (payload value : Z) : bool := 0 <=? s32 (payload - value).

(** Freeing a semaphore stalls every acquire for a value up to three eighths of
    the wheel away from the payload. *)
Lemma canary_stalls p d :
  is_u32 p → - (3 * 2 ^ 28) ≤ d ≤ 3 * 2 ^ 28 → acquire_geq (make_canary p) (p + d) = false.
Proof.
  intros Hp Hd. unfold acquire_geq. apply Z.leb_gt. rewrite make_canary_eq.
  unfold s32, u32, UVM_SEMAPHORE_CANARY_BASE, is_u32 in *. zify_divmod.
Qed.

(** * The tracking semaphore *)

(** A 64-bit count and the payload that is its low half: the update recovers the
    count if it advanced by less than 2^32. *)
Lemma update_completed_exact N t :
  is_u64 (completed_value t) → is_u64 N → completed_value t ≤ N < completed_value t + 2 ^ 32 →
  update_completed_value_locked (u32 N) t = (N, TrackingSem N (queued_value t)).
Proof.
  intros Hc HN Hw. unfold update_completed_value_locked.
  destruct (Z.eqb_spec (u32 (completed_value t)) (u32 N)) as [Heq|Hne].
  { replace (completed_value t) with N; [destruct t; simpl in *; f_equal; f_equal|];
    unfold u32 in *; zify_divmod. }
  change 0xFFFFFFFF00000000 with (Z.shiftl (Z.ones 32) 32).
  rewrite land_high_mask by (try lia; apply Hc).
  rewrite Z.lor_comm, lor_mul_add by (try lia; apply u32_range).
  change (Z.shiftl 1 32) with (2 ^ 32).
  assert ((if u32 N <? u32 (completed_value t)
    then u64 (u32 N + completed_value t / 2 ^ 32 * 2 ^ 32 + 2 ^ 32)
    else u32 N + completed_value t / 2 ^ 32 * 2 ^ 32) = N) as ->; [|done].
  destruct (Z.ltb_spec (u32 N) (u32 (completed_value t))).
  - rewrite u64_small; unfold u32, is_u64 in *; zify_divmod.
  - unfold u32, is_u64 in *; zify_divmod.
Qed.

(** The GPU has released [N]; the CPU looks at the payload at least once every
    2^32 releases. *)
Inductive ts_step : Z * uvm_gpu_tracking_semaphore_t → Z * uvm_gpu_tracking_semaphore_t → Prop :=
| ts_release N k t :
    0 ≤ k → N + k < completed_value t + 2 ^ 32 → is_u64 (N + k) → ts_step (N, t) (N + k, t)
| ts_update N t :
    ts_step (N, t) (N, (update_completed_value_locked (u32 N) t).2)
| ts_query N v t :
    ts_step (N, t) (N, (uvm_gpu_tracking_semaphore_is_value_completed (u32 N) v t).2).

Definition ts_inv (x : Z * uvm_gpu_tracking_semaphore_t) : Prop :=
  is_u64 (completed_value x.2) ∧ is_u64 x.1 ∧ completed_value x.2 ≤ x.1 < completed_value x.2 + 2 ^ 32.

Lemma ts_reachable_inv q x : rtc ts_step (0, TrackingSem 0 q) x → ts_inv x.
Proof.
  intros Hr. assert (ts_inv (0, TrackingSem 0 q)) as H0 by (unfold ts_inv, is_u64; simpl; lia).
  revert H0. induction Hr as [|? ? ? Hs _ IH]; [done|]. intros (Hc & HN & Hw). apply IH.
  unfold ts_inv. inversion Hs; subst; simpl in *.
  - unfold is_u64 in *. lia.
  - rewrite update_completed_exact by done. simpl. repeat split; unfold is_u64 in *; lia.
  - unfold uvm_gpu_tracking_semaphore_is_value_completed. case_match; [done|].
    rewrite update_completed_exact by done. simpl. repeat split; unfold is_u64 in *; lia.
Qed.



(** * The pool *)

Definition free_count (p : sem_page) : nat := sum_list (Nat.b2n <$> free_semaphores p).

Record page_ok (p : sem_page) : Prop := {
  po_free : length (free_semaphores p) = UVM_SEMAPHORE_COUNT_PER_PAGE;
  po_payloads : length (sp_payloads p) = UVM_SEMAPHORE_COUNT_PER_PAGE;
  po_notifiers : length (sp_notifiers p) = UVM_SEMAPHORE_COUNT_PER_PAGE }.

Record pool_inv (pool : uvm_gpu_semaphore_pool_t) : Prop := {
  pv_nodup : NoDup (sp_ptr <$> pages pool);
  pv_null : NULL ∉ (sp_ptr <$> pages pool);
  pv_pages : Forall page_ok (pages pool);
  pv_count : free_semaphores_count pool = Z.of_nat (sum_list (free_count <$> pages pool));
  pv_size : Z.of_nat (length (pages pool)) < 2 ^ 22 }.

(** The semaphores of a pool that are handed out. *)
Definition in_use (pool : uvm_gpu_semaphore_pool_t) (x : Z * nat) : Prop :=
  (p ← find_page x.1 pool; free_semaphores p !! x.2) = Some false.

(** The payload of a semaphore that is not secure. *)
Definition payload_at (pool : uvm_gpu_semaphore_pool_t) (x : Z * nat) : option Z :=
  p ← find_page x.1 pool; sp_payloads p !! x.2.

(** The allocators return fresh memory of the size they were asked for, and fewer
    than 2^22 pages of 4 KiB. *)
Definition env_ok (pool : uvm_gpu_semaphore_pool_t) (env : page_env) : Prop :=
  (pe_kvmalloc env ∉ (sp_ptr <$> pages pool)) ∧
  length (pe_contents env) = UVM_SEMAPHORE_COUNT_PER_PAGE ∧
  length (pe_notifiers env) = UVM_SEMAPHORE_COUNT_PER_PAGE ∧
  Z.of_nat (length (pages pool)) < 2 ^ 22 - 1.

Lemma upd_page_at pool k p f :
  NoDup (sp_ptr <$> pages pool) → pages pool !! k = Some p →
  upd_page (sp_ptr p) f pool = SemPool (<[k := f p]> (pages pool)) (free_semaphores_count pool).
Proof.
  destruct pool as [ps n]. unfold upd_page. simpl. intros Hnd Hk. f_equal.
  revert k Hk Hnd. induction ps as [|q ps IH]; intros [|k] Hk; simplify_eq/=; intros [Hq Hnd]%NoDup_cons.
  - rewrite Z.eqb_refl. f_equal. rewrite <-(list_fmap_id ps) at 2. apply list_fmap_ext.
    intros j r Hr. destruct (Z.eqb_spec (sp_ptr r) (sp_ptr p)) as [He|]; [|done].
    destruct Hq. rewrite <-He. apply list_elem_of_fmap_2. by eapply list_elem_of_lookup_2.
  - destruct (Z.eqb_spec (sp_ptr q) (sp_ptr p)) as [He|Hne].
    + destruct Hq. rewrite He. apply list_elem_of_fmap_2. by eapply list_elem_of_lookup_2.
    + change (list_insert k (f p) ps) with (<[k := f p]> ps). f_equal. by apply IH.
Qed.

Lemma upd_page_upd ptr f g pool :
  (∀ p, sp_ptr (g p) = sp_ptr p) → upd_page ptr f (upd_page ptr g pool) = upd_page ptr (λ p, f (g p)) pool.
Proof.
  intros Hg. unfold upd_page. simpl. f_equal. rewrite <-list_fmap_compose. apply list_fmap_ext.
  intros _ p _. simpl. destruct (sp_ptr p =? ptr) eqn:He; [|by rewrite He]. by rewrite Hg, He.
Qed.

Lemma find_page_at pool k p :
  NoDup (sp_ptr <$> pages pool) → pages pool !! k = Some p → find_page (sp_ptr p) pool = Some p.
Proof.
  intros Hnd Hk. unfold find_page.
  destruct (scan_complete (λ q, sp_ptr q = sp_ptr p) _ _ _ Hk eq_refl) as (j & q & Hf).
  rewrite Hf. simpl. apply scan_lookup in Hf as [Hj Heq]. f_equal.
  assert (j = k) as ->; [|congruence]. eapply NoDup_lookup; [exact Hnd|..];
    rewrite list_lookup_fmap_Some; eauto.
Qed.

Lemma free_count_insert p i b b' :
  free_semaphores p !! i = Some b →
  (free_count (set_free <[i := b']> p) + Nat.b2n b = free_count p + Nat.b2n b')%nat.
Proof. intros Hi. by apply (sum_list_insert Nat.b2n). Qed.

Lemma pool_inv_page_ok pool k p : pool_inv pool → pages pool !! k = Some p → page_ok p.
Proof. intros Hinv Hk. by eapply Forall_lookup_1; [apply (pv_pages _ Hinv)|]. Qed.

(** The total fits the counter. *)
Lemma free_count_bound p : page_ok p → (free_count p ≤ 1024)%nat.
Proof.
  intros [Hlen _ _]. unfold free_count. change 1024%nat with UVM_SEMAPHORE_COUNT_PER_PAGE.
  rewrite <-Hlen. clear. induction (free_semaphores p) as [|b l IH]; csimpl; [lia|]. destruct b; simpl; lia.
Qed.

Lemma total_bound ps : Forall page_ok ps →
  Z.of_nat (length ps) < 2 ^ 22 → is_u32 (Z.of_nat (sum_list (free_count <$> ps))).
Proof.
  intros Hps Hlen. assert (sum_list (free_count <$> ps) ≤ length ps * 1024)%nat.
  { clear Hlen. induction Hps as [|p ps Hp _ IH]; csimpl; [lia|]. pose proof (free_count_bound p Hp). lia. }
  unfold is_u32. lia.
Qed.

(** Handing out or taking back the semaphore [i] of the page at [k]. *)
Lemma pool_inv_flip pool k p p' i b n :
  pool_inv pool → pages pool !! k = Some p → free_semaphores p !! i = Some (negb b) →
  sp_ptr p' = sp_ptr p → page_ok p' → free_semaphores p' = <[i := b]> (free_semaphores p) →
  n = free_semaphores_count pool + (if b then 1 else -1) →
  pool_inv (SemPool (<[k := p']> (pages pool)) (u32 n)).
Proof.
  intros Hinv Hk Hi Hptr Hok Hfree ->. pose proof Hinv as [Hnd Hnull Hps Hcount Hsize].
  assert (sp_ptr <$> <[k := p']> (pages pool) = sp_ptr <$> pages pool) as Hptrs.
  { rewrite list_fmap_insert, Hptr. apply list_insert_id. rewrite list_lookup_fmap, Hk. done. }
  assert (Forall page_ok (<[k := p']> (pages pool))) as Hps' by (by apply Forall_insert).
  assert (free_semaphores_count pool + (if b then 1 else -1) =
    Z.of_nat (sum_list (free_count <$> <[k := p']> (pages pool)))) as Hn.
  { pose proof (sum_list_insert free_count _ _ _ p' Hk) as Hsum.
    pose proof (free_count_insert p i _ b Hi) as Hfc.
    unfold free_count at 1 in Hfc. simpl in Hfc. rewrite <-Hfree in Hfc.
    change (sum_list (Nat.b2n <$> free_semaphores p')) with (free_count p') in Hfc.
    rewrite Hcount. destruct b; simpl in *; lia. }
  rewrite Hn, u32_small by (apply total_bound; [done|by rewrite length_insert]).
  constructor; simpl; rewrite ?Hptrs, ?length_insert; done.
Qed.

Lemma find_page_Some pool ptr p :
  find_page ptr pool = Some p → ∃ k, pages pool !! k = Some p ∧ sp_ptr p = ptr.
Proof.
  unfold find_page. rewrite fmap_Some. intros ([k q] & Hf & ->). apply scan_lookup in Hf. eauto.
Qed.

Lemma find_page_insert pool k p p' n ptr :
  NoDup (sp_ptr <$> pages pool) → pages pool !! k = Some p → sp_ptr p' = sp_ptr p →
  find_page ptr (SemPool (<[k := p']> (pages pool)) n) =
    if bool_decide (ptr = sp_ptr p) then Some p' else find_page ptr pool.
Proof.
  intros Hnd Hk Hptr.
  assert (NoDup (sp_ptr <$> pages (SemPool (<[k := p']> (pages pool)) n))) as Hnd'.
  { simpl. rewrite list_fmap_insert, Hptr, list_insert_id; [done|]. by rewrite list_lookup_fmap, Hk. }
  case_bool_decide as Hp; [subst; rewrite <-Hptr|].
  - apply (find_page_at _ k); [done|]. apply list_lookup_insert_eq. by eapply lookup_lt_Some.
  - destruct (find_page ptr pool) as [q|] eqn:Hq.
    + apply find_page_Some in Hq as (j & Hj & <-). apply (find_page_at _ j); [done|].
      simpl. rewrite list_lookup_insert_ne; [done|]. intros ->. congruence.
    + destruct (find_page ptr (SemPool _ _)) as [q|] eqn:Hq'; [|done].
      apply find_page_Some in Hq' as (j & Hj & <-).
      apply list_lookup_insert_Some in Hj as [(<- & <- & _)|[Hne Hj]]; [done|].
      by rewrite (find_page_at pool j q) in Hq.
Qed.

Lemma in_use_flip pool k p p' i b n x :
  pool_inv pool → pages pool !! k = Some p → (i < length (free_semaphores p))%nat →
  sp_ptr p' = sp_ptr p → free_semaphores p' = <[i := b]> (free_semaphores p) →
  in_use (SemPool (<[k := p']> (pages pool)) n) x ↔
    if bool_decide (x = (sp_ptr p, i)) then b = false else in_use pool x.
Proof.
  intros Hinv Hk Hi Hptr Hfree. pose proof (pv_nodup _ Hinv) as Hnd. unfold in_use.
  rewrite (find_page_insert pool k p) by done. destruct x as [ptr m]. simpl.
  case_bool_decide as Hp; [subst ptr; rewrite (find_page_at pool k) by done|].
  - simpl. rewrite Hfree. case_bool_decide as Hx.
    + injection Hx as ->. rewrite list_lookup_insert_eq by done. naive_solver.
    + by rewrite list_lookup_insert_ne by congruence.
  - by rewrite bool_decide_eq_false_2 by congruence.
Qed.

Lemma first_free_Some p i : first_free p = Some i → free_semaphores p !! i = Some true.
Proof.
  unfold first_free. rewrite fmap_Some. intros ([j b] & [Hj ->]%scan_lookup & ->). done.
Qed.

Lemma first_free_complete p : (0 < free_count p)%nat → is_Some (first_free p).
Proof.
  intros Hpos. unfold first_free. rewrite fmap_is_Some.
  destruct (list_find _ _) eqn:Hf; [by eexists|]. exfalso. apply list_find_None in Hf.
  unfold free_count in Hpos. induction Hf as [|b l Hb _ IH]; csimpl in Hpos; [lia|].
  destruct b; [done|]. apply IH. simpl in Hpos. lia.
Qed.

Lemma pool_find_free_Some pool p i :
  pool_find_free pool = Some (p, i) → ∃ k, pages pool !! k = Some p ∧ free_semaphores p !! i = Some true.
Proof.
  unfold pool_find_free. rewrite bind_Some. intros ([k q] & [Hk _]%scan_lookup & Hi).
  destruct (first_free q) as [j|] eqn:Hj; simplify_eq/=. exists k. split; [done|]. by apply first_free_Some.
Qed.

(** While the counter is positive some page has a free semaphore. *)
Lemma pool_find_free_complete pool :
  pool_inv pool → 0 < free_semaphores_count pool → is_Some (pool_find_free pool).
Proof.
  intros Hinv Hpos. rewrite (pv_count _ Hinv) in Hpos. unfold pool_find_free.
  destruct (list_find _ (pages pool)) as [[k p]|] eqn:Hf; simpl.
  - apply scan_lookup in Hf as [_ [i Hi]]. rewrite Hi. by eexists.
  - exfalso. apply list_find_None in Hf. induction Hf as [|p l Hp _ IH]; csimpl in Hpos; [lia|].
    apply IH. destruct (decide (0 < free_count p)%nat) as [H|]; [by apply first_free_complete in H|lia].
Qed.

Lemma find_page_cons p ps n ptr :
  find_page ptr (SemPool (p :: ps) n) =
    if bool_decide (sp_ptr p = ptr) then Some p else find_page ptr (SemPool ps n).
Proof.
  unfold find_page. cbn [pages list_find]. case_decide; [by rewrite bool_decide_eq_true_2|].
  rewrite bool_decide_eq_false_2 by done. simpl. by destruct (list_find _ ps) as [[??]|].
Qed.

Lemma find_page_fresh pool ptr : (ptr ∉ (sp_ptr <$> pages pool)) → find_page ptr pool = None.
Proof.
  intros Hf. destruct (find_page ptr pool) as [p|] eqn:Hp; [|done].
  apply find_page_Some in Hp as (k & Hk & <-). destruct Hf.
  apply list_elem_of_fmap_2. by eapply list_elem_of_lookup_2.
Qed.

Definition env_statuses (env : page_env) : list Z :=
  [NV_ERR_NO_MEMORY; pe_map_all env; pe_rm_mem env; pe_rm_encrypted env].

Section pool_laws.
Context (secure debug : bool).

(** A failed page allocation changes nothing; a new page adds free semaphores
    only. *)
Lemma pool_alloc_page_spec env pool :
  pool_inv pool → env_ok pool env →
  let '(status, pool') := pool_alloc_page secure debug env pool in
  (status ≠ NV_OK ∧ pool' = pool ∧ status ∈ env_statuses env) ∨
  (status = NV_OK ∧ pool_inv pool' ∧ 0 < free_semaphores_count pool' ∧
   (∀ x, in_use pool' x ↔ in_use pool x) ∧
   (∀ x, in_use pool x → payload_at pool' x = payload_at pool x)).
Proof.
  intros [Hnd Hnull Hps Hcount Hsize] (Hfresh & Hlenc & Hlenn & Hpages). unfold pool_alloc_page.
  destruct (Z.eqb_spec (pe_kvmalloc env) NULL) as [|Hnn]; [left; split_and!; [done|done|left]|].
  destruct (pool_page_alloc_buffers secure env) as [[status m1] m2] eqn:Hb.
  destruct (Z.eqb_spec status NV_OK) as [->|Hst]; cbn [negb]; last first.
  { left. split_and!; [done|done|]. unfold pool_page_alloc_buffers, env_statuses in *.
    repeat case_match; simplify_eq; set_solver. }
  right. split; [done|]. set (page := SemPage _ _ _ _).
  assert (page_ok page) as Hok.
  { constructor; unfold page; cbn [free_semaphores sp_payloads sp_notifiers]; [by rewrite length_replicate| |done].
    case_match; [by rewrite length_replicate|done]. }
  assert (free_count page = UVM_SEMAPHORE_COUNT_PER_PAGE) as Hfc by (vm_compute; reflexivity).
  assert (sp_ptr page = pe_kvmalloc env) as Hptr by done.
  assert (free_semaphores page = replicate UVM_SEMAPHORE_COUNT_PER_PAGE true) as Hbits by done.
  clearbody page. rewrite <-Hptr in Hfresh, Hnn.
  assert (free_semaphores_count pool + Z.of_nat UVM_SEMAPHORE_COUNT_PER_PAGE =
    Z.of_nat (sum_list (free_count <$> page :: pages pool))) as Hn.
  { rewrite Hcount, fmap_cons. cbn [sum_list_with id]. rewrite Hfc. lia. }
  assert (Forall page_ok (page :: pages pool)) as Hps' by by constructor.
  rewrite Hn, u32_small by (apply total_bound; [done|simpl; lia]). split_and!.
  - constructor; cbn [pages free_semaphores_count length]; rewrite ?fmap_cons;
      [by constructor|set_solver|done|done|lia].
  - cbn [free_semaphores_count]. rewrite fmap_cons. cbn [sum_list_with id]. rewrite Hfc.
    unfold UVM_SEMAPHORE_COUNT_PER_PAGE. lia.
  - intros [ptr i]. unfold in_use. rewrite find_page_cons. cbn [fst snd]. case_bool_decide as Hp; [|done].
    rewrite <-Hp, find_page_fresh by done. cbn [mbind option_bind]. split; [|done].
    rewrite Hbits. intros [Hb' _]%lookup_replicate. done.
  - intros [ptr i]. unfold in_use, payload_at. rewrite find_page_cons. cbn [fst snd].
    case_bool_decide as Hp; [|done]. by rewrite <-Hp, find_page_fresh.
Qed.

(** Handing out a semaphore of a pool that has one. *)
Lemma pool_take_spec pool :
  pool_inv pool → 0 < free_semaphores_count pool →
  ∃ sem pool', pool_take secure pool = (NV_OK, sem, pool') ∧
    pool_inv pool' ∧ sem_page_ptr sem ≠ NULL ∧
    ¬ in_use pool (sem_page_ptr sem, sem_index sem) ∧
    (∀ y, in_use pool' y ↔ y = (sem_page_ptr sem, sem_index sem) ∨ in_use pool y) ∧
    uvm_gpu_semaphore_get_payload secure sem pool' = 0 ∧
    (∀ y, in_use pool y → payload_at pool' y = payload_at pool y).
Proof.
  intros Hinv Hpos. pose proof Hinv as [Hnd Hnull Hps Hcount Hsize].
  destruct (pool_find_free_complete pool Hinv Hpos) as [[p i] Hf]. unfold pool_take. rewrite Hf.
  apply pool_find_free_Some in Hf as (k & Hk & Hi). pose proof (pool_inv_page_ok _ _ _ Hinv Hk) as [Ho1 Ho2 Ho3].
  assert (i < length (free_semaphores p))%nat as Hlt by by eapply lookup_lt_Some.
  set (p' := set_free <[i := false]> (if secure then set_notifiers <[i := 0]> p
    else set_payloads <[i := 0]> p)).
  assert (sp_ptr p' = sp_ptr p ∧ free_semaphores p' = <[i := false]> (free_semaphores p) ∧ page_ok p')
    as (Hp1 & Hp2 & Hp3).
  { unfold p'. destruct secure; (split_and!; [done|done|]); constructor; simpl; by rewrite ?length_insert. }
  exists (Semaphore (sp_ptr p) i 0 0 0),
    (SemPool (<[k := p']> (pages pool)) (u32 (free_semaphores_count pool - 1))).
  assert (¬ in_use pool (sp_ptr p, i)) as Hnew.
  { unfold in_use. cbn [fst snd]. rewrite (find_page_at pool k) by done. cbn [mbind option_bind]. congruence. }
  split_and!; cbn [sem_page_ptr sem_index].
  - unfold p', uvm_gpu_semaphore_set_payload.
    destruct secure; cbn [sem_page_ptr sem_index last_observed_notifier];
      rewrite upd_page_upd, (upd_page_at _ k p) by done; done.
  - apply (pool_inv_flip pool k p p' i false); [done..|lia].
  - intros Hnul. apply Hnull. rewrite <-Hnul. apply list_elem_of_fmap_2. by eapply list_elem_of_lookup_2.
  - done.
  - intros y. rewrite (in_use_flip pool k p p' i false) by done. case_bool_decide; naive_solver.
  - unfold uvm_gpu_semaphore_get_payload. destruct secure; [done|]. cbn [sem_page_ptr sem_index].
    rewrite (find_page_insert pool k p), bool_decide_eq_true_2 by done. unfold p'. simpl.
    rewrite list_lookup_insert_eq by lia. done.
  - intros [ptr j] Huse. unfold payload_at. cbn [fst snd]. rewrite (find_page_insert pool k p) by done.
    case_bool_decide as Hp; [|done]. subst. rewrite (find_page_at pool k) by done. cbn [mbind option_bind].
    unfold p'. destruct secure; simpl; [done|]. rewrite list_lookup_insert_ne; [done|]. intros ->. done.
Qed.

Lemma alloc_spec env pool :
  pool_inv pool → env_ok pool env →
  let '(status, sem, pool') := uvm_gpu_semaphore_alloc secure debug env pool in
  (status ≠ NV_OK ∧ sem = sem_zero ∧ pool' = pool ∧ status ∈ env_statuses env) ∨
  (status = NV_OK ∧ pool_inv pool' ∧ sem_page_ptr sem ≠ NULL ∧
   ¬ in_use pool (sem_page_ptr sem, sem_index sem) ∧
   (∀ y, in_use pool' y ↔ y = (sem_page_ptr sem, sem_index sem) ∨ in_use pool y) ∧
   uvm_gpu_semaphore_get_payload secure sem pool' = 0 ∧
   (∀ y, in_use pool y → payload_at pool' y = payload_at pool y)).
Proof.
  intros Hinv Henv. unfold uvm_gpu_semaphore_alloc.
  destruct (Z.eqb_spec (free_semaphores_count pool) 0) as [Hz|Hnz].
  - pose proof (pool_alloc_page_spec env pool Hinv Henv) as Hpage.
    destruct (pool_alloc_page secure debug env pool) as [status pool1].
    destruct Hpage as [(Hst & -> & Hin)|(-> & Hinv1 & Hpos & Huse & Hpay)].
    + rewrite (proj2 (Z.eqb_neq _ _) Hst). simpl. by left.
    + simpl. destruct (pool_take_spec pool1 Hinv1 Hpos)
        as (sem & pool' & -> & Hinv' & Hnn & Hnew & Huse' & Hp & Hkeep).
      right. split_and!; [done|done|done|by rewrite <-Huse|..|done|].
      * intros y. by rewrite Huse', Huse.
      * intros y Hy. rewrite Hkeep, Hpay; [done|done|by apply Huse].
  - simpl. destruct (pool_take_spec pool Hinv) as (sem & pool' & -> & H); [|by right].
    rewrite (pv_count _ Hinv) in *. lia.
Qed.

(** The page after the semaphore [i] is taken back. *)
Definition freed_page (sem : uvm_gpu_semaphore_t) (pool : uvm_gpu_semaphore_pool_t) (p : sem_page)
    : sem_page :=
  let i := sem_index sem in
  set_free <[i := true]> (if semaphore_uses_canary secure debug
    then set_payloads <[i := make_canary (uvm_gpu_semaphore_get_payload secure sem pool)]> p else p).

Lemma free_run sem pool k p :
  NoDup (sp_ptr <$> pages pool) → pages pool !! k = Some p → sp_ptr p = sem_page_ptr sem →
  sem_page_ptr sem ≠ NULL →
  uvm_gpu_semaphore_free secure debug sem pool =
    (Semaphore NULL (sem_index sem) (cached_payload sem) (last_pushed_notifier sem) (last_observed_notifier sem),
     SemPool (<[k := freed_page sem pool p]> (pages pool)) (u32 (free_semaphores_count pool + 1))).
Proof.
  intros Hnd Hk Hptr Hnn. unfold uvm_gpu_semaphore_free. rewrite (proj2 (Z.eqb_neq _ _) Hnn).
  unfold freed_page, uvm_gpu_semaphore_set_payload, semaphore_uses_canary.
  destruct secure, debug; cbn [negb andb]; rewrite <-Hptr, ?upd_page_upd by done;
    by rewrite (upd_page_at _ k p).
Qed.

(** Taking back a semaphore that is in use. *)
Lemma free_spec sem pool :
  pool_inv pool → in_use pool (sem_page_ptr sem, sem_index sem) →
  let '(sem', pool') := uvm_gpu_semaphore_free secure debug sem pool in
  pool_inv pool' ∧ sem_page_ptr sem' = NULL ∧
  (∀ y, in_use pool' y ↔ y ≠ (sem_page_ptr sem, sem_index sem) ∧ in_use pool y) ∧
  (∀ y, y ≠ (sem_page_ptr sem, sem_index sem) → payload_at pool' y = payload_at pool y) ∧
  (semaphore_uses_canary secure debug = true →
     (is_canary <$> payload_at pool' (sem_page_ptr sem, sem_index sem)) = Some true).
Proof.
  intros Hinv Huse. pose proof Hinv as [Hnd Hnull Hps Hcount Hsize].
  pose proof Huse as Hu. unfold in_use in Hu. cbn [fst snd] in Hu.
  destruct (find_page (sem_page_ptr sem) pool) as [p|] eqn:Hf; [|done]. cbn [mbind option_bind] in Hu.
  apply find_page_Some in Hf as (k & Hk & Hptr).
  assert (sem_page_ptr sem ≠ NULL) as Hnn.
  { rewrite <-Hptr. intros Hnul. apply Hnull. rewrite <-Hnul. apply list_elem_of_fmap_2. by eapply list_elem_of_lookup_2. }
  rewrite (free_run sem pool k p) by done. set (p' := freed_page sem pool p). rewrite <-Hptr in *.
  pose proof (pool_inv_page_ok _ _ _ Hinv Hk) as [Ho1 Ho2 Ho3].
  pose proof (lookup_lt_Some _ _ _ Hu) as Hlt.
  assert (sp_ptr p' = sp_ptr p ∧ free_semaphores p' = <[sem_index sem := true]> (free_semaphores p) ∧ page_ok p')
    as (Hp1 & Hp2 & Hp3).
  { unfold p', freed_page. destruct (semaphore_uses_canary secure debug); (split_and!; [done|done|]);
      constructor; simpl; by rewrite ?length_insert. }
  split_and!.
  - by apply (pool_inv_flip pool k p p' (sem_index sem) true).
  - done.
  - intros y. rewrite (in_use_flip pool k p p' (sem_index sem) true) by done. case_bool_decide; naive_solver.
  - intros [ptr j] Hne. unfold payload_at. cbn [fst snd]. rewrite (find_page_insert pool k p) by done.
    case_bool_decide as Hp; [|done]. subst. rewrite (find_page_at pool k) by done. cbn [mbind option_bind].
    unfold p', freed_page. destruct (semaphore_uses_canary secure debug); simpl; [|done].
    rewrite list_lookup_insert_ne; [done|]. intros <-. done.
  - intros Hc. unfold payload_at. cbn [fst snd]. rewrite (find_page_insert pool k p), bool_decide_eq_true_2 by done.
    cbn [mbind option_bind]. unfold p', freed_page. rewrite Hc. simpl.
    rewrite list_lookup_insert_eq by lia. simpl. by rewrite is_canary_make_canary.
Qed.
End pool_laws.

(** The pool as a set: [live] is what its users hold. *)
Inductive sp_step (secure debug : bool)
    : uvm_gpu_semaphore_pool_t * gset (Z * nat) → uvm_gpu_semaphore_pool_t * gset (Z * nat) → Prop :=
| sp_alloc env pool live status sem pool' :
    env_ok pool env → uvm_gpu_semaphore_alloc secure debug env pool = (status, sem, pool') →
    sp_step secure debug (pool, live)
      (pool', if status =? NV_OK then {[(sem_page_ptr sem, sem_index sem)]} ∪ live else live)
| sp_free sem pool live sem' pool' :
    (sem_page_ptr sem, sem_index sem) ∈ live →
    uvm_gpu_semaphore_free secure debug sem pool = (sem', pool') →
    sp_step secure debug (pool, live) (pool', live ∖ {[(sem_page_ptr sem, sem_index sem)]}).

Definition sp_inv (x : uvm_gpu_semaphore_pool_t * gset (Z * nat)) : Prop :=
  pool_inv x.1 ∧ ∀ y, in_use x.1 y ↔ y ∈ x.2.

Lemma sp_step_inv secure debug x y : sp_step secure debug x y → sp_inv x → sp_inv y.
Proof.
  intros Hs [Hinv Huse]. inversion Hs as [env pool live status sem pool' Henv Ha|sem pool live sem' pool' Hin Hf]; subst.
  - pose proof (alloc_spec secure debug env pool Hinv Henv) as H. rewrite Ha in H.
    destruct H as [(Hst & -> & -> & _)|(-> & Hinv' & _ & _ & Huse' & _)]; simpl.
    + by rewrite (proj2 (Z.eqb_neq _ _) Hst).
    + split; [done|]. intros y. simpl in *. rewrite Huse', Huse. set_solver.
  - apply Huse in Hin. pose proof (free_spec secure debug sem pool Hinv Hin) as H. rewrite Hf in H.
    destruct H as (Hinv' & _ & Huse' & _). split; [done|]. intros y. simpl in *. rewrite Huse', Huse. set_solver.
Qed.

Lemma sp_reachable_inv secure debug x :
  rtc (sp_step secure debug) (uvm_gpu_semaphore_pool_create, ∅) x → sp_inv x.
Proof.
  intros Hr. assert (sp_inv (uvm_gpu_semaphore_pool_create, ∅)) as H0.
  { split; [constructor; simpl; (done || constructor || set_solver)|]. intros y. split; [done|set_solver]. }
  revert H0. induction Hr; eauto using sp_step_inv.
Qed.

(** C24: the pool hands out semaphores like a set. In every reachable state the
    semaphores marked in use are those its users hold; an allocation that
    succeeds returns one nobody holds, with payload 0, and leaves the payloads
    of the others alone; one that fails returns an allocator's status and
    leaves the pool as it was. *)
Theorem semaphore_pool_refines_set secure debug pool live env
    (Hreach : rtc (sp_step secure debug) (uvm_gpu_semaphore_pool_create, ∅) (pool, live))
    (Henv : env_ok pool env) :
  let '(status, sem, pool') := uvm_gpu_semaphore_alloc secure debug env pool in
  (∀ x, in_use pool x ↔ x ∈ live) ∧
  (status = NV_OK →
     ((sem_page_ptr sem, sem_index sem) ∉ live) ∧
     uvm_gpu_semaphore_get_payload secure sem pool' = 0 ∧
     ∀ y, y ∈ live → payload_at pool' y = payload_at pool y) ∧
  (status ≠ NV_OK → pool' = pool ∧ sem = sem_zero ∧ status ∈ env_statuses env).
Proof.
  destruct (sp_reachable_inv _ _ _ Hreach) as [Hinv Huse]. simpl in *.
  pose proof (alloc_spec secure debug env pool Hinv Henv) as H.
  destruct (uvm_gpu_semaphore_alloc secure debug env pool) as [[status sem] pool'].
  split; [done|]. destruct H as [(Hst & -> & -> & ?)|(-> & _ & _ & Hnew & _ & Hp & Hkeep)].
  - split; [done|]. by intros _.
  - split; [|done]. intros _. rewrite <-Huse. split_and!; [done|done|].
    intros y Hy. by apply Hkeep, Huse.
Qed.

Definition ex_page_env : page_env :=
  PageEnv 4096 NV_OK NV_OK NV_OK (replicate UVM_SEMAPHORE_COUNT_PER_PAGE 7)
    (replicate UVM_SEMAPHORE_COUNT_PER_PAGE 0).

Lemma semaphore_pool_refines_set_witness :
  let '(status, sem, pool') := uvm_gpu_semaphore_alloc false true ex_page_env uvm_gpu_semaphore_pool_create in
  (∀ x, in_use uvm_gpu_semaphore_pool_create x ↔ x ∈ (∅ : gset (Z * nat))) ∧
  (status = NV_OK →
     ((sem_page_ptr sem, sem_index sem) ∉ (∅ : gset (Z * nat))) ∧
     uvm_gpu_semaphore_get_payload false sem pool' = 0 ∧
     ∀ y, y ∈ (∅ : gset (Z * nat)) → payload_at pool' y = payload_at uvm_gpu_semaphore_pool_create y) ∧
  (status ≠ NV_OK → pool' = uvm_gpu_semaphore_pool_create ∧ sem = sem_zero ∧ status ∈ env_statuses ex_page_env).
Proof.
  apply (semaphore_pool_refines_set false true uvm_gpu_semaphore_pool_create ∅ ex_page_env); [apply rtc_refl|].
  split_and!; [set_solver|vm_compute; reflexivity..].
Defined.

(** Destroying a pool whose semaphores are all free releases every page and
    leaves the counter at 0. *)
Lemma semaphore_pool_destroy_empty pool :
  pool_inv pool → (∀ x, ¬ in_use pool x) → uvm_gpu_semaphore_pool_destroy pool = SemPool [] 0.
Proof.
  intros Hinv Hnone. pose proof Hinv as [Hnd _ Hps Hcount Hsize].
  assert (free_semaphores_count pool = 1024 * Z.of_nat (length (pages pool))) as Hn.
  { rewrite Hcount. assert (Forall (λ p, free_count p = 1024%nat) (pages pool)) as Hall.
    - apply Forall_lookup_2. intros k p Hk. destruct (pool_inv_page_ok _ _ _ Hinv Hk) as [Hlen _ _].
      unfold free_count. change 1024%nat with UVM_SEMAPHORE_COUNT_PER_PAGE. rewrite <-Hlen.
      assert (Forall (λ b, b = true) (free_semaphores p)) as Hb.
      { apply Forall_lookup_2. intros i [] Hi; [done|]. destruct (Hnone (sp_ptr p, i)).
        unfold in_use. cbn [fst snd]. by rewrite (find_page_at pool k). }
      clear -Hb. induction Hb as [|b l -> _ IH]; [done|]. csimpl. by rewrite IH.
    - clear -Hall. induction Hall as [|p l Hp _ IH]; [done|]. csimpl. rewrite Hp. lia. }
  destruct pool as [ps n]. unfold uvm_gpu_semaphore_pool_destroy.
  cbn [pages free_semaphores_count] in *. rewrite Hn. clear Hinv Hnone Hps Hcount Hn n.
  induction ps as [|p ps IH]; [done|].
  cbn [foldl pages length free_semaphores_count] in *.
  apply NoDup_cons in Hnd as [Hp Hnd]. rewrite filter_cons_False by naive_solver.
  replace (filter (λ q, sp_ptr q ≠ sp_ptr p) ps) with ps.
  - rewrite u32_small by (unfold is_u32, UVM_SEMAPHORE_COUNT_PER_PAGE; lia).
    rewrite <-IH; [|done|lia]. f_equal. f_equal. unfold UVM_SEMAPHORE_COUNT_PER_PAGE. lia.
  - clear -Hp. induction ps as [|q ps IH]; [done|]. csimpl in Hp. rewrite not_elem_of_cons in Hp.
    rewrite filter_cons_True by naive_solver. f_equal. apply IH; by destruct Hp.
Qed.

(** * The encrypted payload *)

Section encrypted_laws.
Context {IV : Type} (num : Z) (encrypt : IV → Z → Z * list Z).
Implicit Types (h : list (IV * Z)) (x y : enc_sys (IV := IV)).

(** The operations of the pushes [h] after the notifier [n]. *)
Fixpoint all_ops (n : Z) h : list ce_op :=
  match h with
  | [] => []
  | (iv, v) :: h => CeMemset (n + 1) :: CeEncrypt iv v :: CeMemset (n + 2) :: all_ops (n + 2) h
  end.

Lemma all_ops_snoc n h iv v :
  all_ops n (h ++ [(iv, v)]) = all_ops n h ++
    let k := n + 2 * Z.of_nat (length h) in [CeMemset (k + 1); CeEncrypt iv v; CeMemset (k + 2)].
Proof.
  revert n. induction h as [|[iv' v'] h IH]; intros n; cbn [all_ops app length]; [by rewrite Z.add_0_r|].
  rewrite IH. replace (n + 2 * Z.of_nat (S (length h))) with (n + 2 + 2 * Z.of_nat (length h)) by lia. done.
Qed.

(** The pair in memory is the one of the last completed push. *)
Definition pair_of (m : enc_payload) (x : IV * Z) : Prop :=
  encrypted_payload m = (encrypt x.1 x.2).1 ∧ auth_tag m = (encrypt x.1 x.2).2.

(** How far the GPU is: between two pushes, or inside one, before or after its
    encryption. [d] are the completed pushes, [t] those to come. *)
Inductive enc_phase h (ops : list ce_op) (m : enc_payload) : Prop :=
| ph_idle d t :
    h = d ++ t → notifier m = 2 * Z.of_nat (length d) → ops = all_ops (notifier m) t →
    (∀ z, last d = Some z → pair_of m z) → enc_phase h ops m
| ph_open d z t :
    h = d ++ z :: t → notifier m = 2 * Z.of_nat (length d) + 1 →
    ops = CeEncrypt z.1 z.2 :: CeMemset (notifier m + 1) :: all_ops (notifier m + 1) t → enc_phase h ops m
| ph_closing d z t :
    h = d ++ z :: t → notifier m = 2 * Z.of_nat (length d) + 1 →
    ops = CeMemset (notifier m + 1) :: all_ops (notifier m + 1) t → pair_of m z → enc_phase h ops m.

(** The slot of each of the last [num] pushes holds its vector. *)
Record enc_inv (x : enc_sys) : Prop := {
  ei_phase : enc_phase (es_hist x) (ec_ops (es_chan x)) (es_mem x);
  ei_pushed : ec_last_pushed (es_chan x) = 2 * Z.of_nat (length (es_hist x));
  ei_wrap : 2 * Z.of_nat (length (es_hist x)) < 2 ^ 32;
  ei_len : Z.of_nat (length (ec_ivs (es_chan x))) = num;
  ei_ivs : ∀ k iv v, es_hist x !! k = Some (iv, v) → Z.of_nat (length (es_hist x)) - Z.of_nat k ≤ num →
    ec_ivs (es_chan x) !! Z.to_nat ((Z.of_nat k + 1) mod num) = Some iv }.

Lemma enc_phase_push h ops m iv v :
  enc_phase h ops m →
  enc_phase (h ++ [(iv, v)])
    (ops ++ [CeMemset (2 * Z.of_nat (length h) + 1); CeEncrypt iv v; CeMemset (2 * Z.of_nat (length h) + 2)]) m.
Proof.
  assert (∀ n t k, k = n + 2 * Z.of_nat (length t) →
    all_ops n (t ++ [(iv, v)]) = all_ops n t ++ [CeMemset (k + 1); CeEncrypt iv v; CeMemset (k + 2)]) as Hsnoc
    by (intros n t k ->; apply all_ops_snoc).
  intros [d t Hh Hn Hops Hp|d z t Hh Hn Hops|d z t Hh Hn Hops Hp].
  - eapply (ph_idle _ _ _ d (t ++ [(iv, v)])); [by rewrite Hh, (assoc_L (++))|done| |done].
    rewrite (Hsnoc _ _ (2 * Z.of_nat (length h))) by (rewrite Hh, length_app; lia). by rewrite Hops.
  - eapply (ph_open _ _ _ d z (t ++ [(iv, v)])); [by rewrite Hh, <-(assoc_L (++))|done|].
    rewrite (Hsnoc _ _ (2 * Z.of_nat (length h))) by (rewrite Hh, length_app; simpl; lia). by rewrite Hops.
  - eapply (ph_closing _ _ _ d z (t ++ [(iv, v)])); [by rewrite Hh, <-(assoc_L (++))|done| |done].
    rewrite (Hsnoc _ _ (2 * Z.of_nat (length h))) by (rewrite Hh, length_app; simpl; lia). by rewrite Hops.
Qed.

Lemma slot_distinct (k n : Z) : 0 < num → k < n → n - k < num → (k + 1) mod num ≠ (n + 1) mod num.
Proof.
  intros Hnum Hk Hd He. pose proof (Zminus_mod (n + 1) (k + 1) num) as Hm.
  rewrite He, Z.sub_diag, Z.mod_0_l in Hm by lia. rewrite Z.mod_small in Hm; lia.
Qed.

Lemma enc_inv_push iv v h c m :
  0 < num → ec_last_pushed c + 2 < 2 ^ 32 → enc_inv (EncSys h c m) →
  enc_inv (EncSys (h ++ [(iv, v)]) (channel_semaphore_gpu_encrypt_payload num iv v c) m).
Proof.
  intros Hnum Hlp [Hph Hpushed Hwrap Hlen Hivs]. cbn [es_hist es_chan es_mem] in *.
  unfold channel_semaphore_gpu_encrypt_payload. rewrite !Hpushed.
  rewrite !u32_small by (unfold is_u32; lia).
  replace ((2 * Z.of_nat (length h) + 2) / 2) with (Z.of_nat (length h) + 1) by zify_divmod.
  constructor; cbn [es_hist es_chan es_mem ec_ops ec_last_pushed ec_ivs];
    rewrite ?length_app, ?length_insert; cbn [length]; [by apply enc_phase_push|lia|lia|done|].
  intros k iv' v' [Hk|[-> Hk]]%lookup_snoc_Some Hd; [|injection Hk as -> ->].
  - destruct Hk as [Hlt Hk]. rewrite list_lookup_insert_ne; [eapply Hivs; [done|lia]|].
    intros He%Z2Nat.inj; [|apply Z.mod_pos_bound; lia..]. symmetry in He.
    apply slot_distinct in He; [done|done|lia|lia].
  - apply list_lookup_insert_eq. pose proof (Z.mod_pos_bound (Z.of_nat (length h) + 1) num Hnum). lia.
Qed.

(** The notifier only grows; while it keeps an even value the memory does not
    change. *)
Lemma ce_step_inv x y :
  0 < num → ce_step num encrypt x y → enc_inv x →
  enc_inv y ∧ notifier (es_mem x) ≤ notifier (es_mem y) ∧
  (notifier (es_mem x) mod 2 = 0 → notifier (es_mem y) = notifier (es_mem x) → es_mem y = es_mem x).
Proof.
  intros Hnum Hs Hinv. destruct Hs.
  - split; [by apply enc_inv_push|]. done.
  - destruct Hinv as [Hph Hpushed Hwrap Hlen Hivs]. cbn [es_hist es_chan es_mem ec_ops ec_last_pushed ec_ivs] in *.
    assert (enc_phase h ops (EncPayload (encrypted_payload m) v (auth_tag m)) ∧ v = notifier m + 1) as [Hph' ->].
    { destruct Hph as [d [|[iv' v'] t] Hh Hn Hops Hp|d z t Hh Hn Hops|d z t Hh Hn Hops Hp]; simplify_eq/=.
      - split; [|done]. apply (ph_open _ _ _ d (iv', v') t); cbn [notifier]; [done|lia|].
        by rewrite <-Z.add_assoc.
      - split; [|done]. apply (ph_idle _ _ _ (d ++ [z]) t); cbn [notifier];
          [by rewrite <-(assoc_L (++))|rewrite length_app; simpl; lia|done|].
        intros z' Hz. rewrite last_snoc in Hz. by simplify_eq. }
    cbn [notifier]. split_and!; [by constructor|lia|lia].
  - destruct Hinv as [Hph Hpushed Hwrap Hlen Hivs]. cbn [es_hist es_chan es_mem ec_ops ec_last_pushed ec_ivs] in *.
    destruct Hph as [d [|[iv' v'] t] Hh Hn Hops Hp|d z t Hh Hn Hops|d z t Hh Hn Hops Hp]; simplify_eq/=.
    split_and!; [|lia|rewrite Hn; zify_divmod]. constructor; [|done..]. by apply (ph_open _ _ _ d z t).
  - destruct Hinv as [Hph Hpushed Hwrap Hlen Hivs]. cbn [es_hist es_chan es_mem ec_ops ec_last_pushed ec_ivs] in *.
    destruct Hph as [d [|[iv' v'] t] Hh Hn Hops Hp|d z t Hh Hn Hops|d z t Hh Hn Hops Hp]; simplify_eq/=.
    split_and!; [|lia|rewrite Hn; zify_divmod]. constructor; [|done..]. by apply (ph_closing _ _ _ d z t).
Qed.

Lemma ce_steps_inv x y :
  0 < num → rtc (ce_step num encrypt) x y → enc_inv x →
  enc_inv y ∧ notifier (es_mem x) ≤ notifier (es_mem y) ∧
  (notifier (es_mem x) mod 2 = 0 → notifier (es_mem y) = notifier (es_mem x) → es_mem y = es_mem x).
Proof.
  intros Hnum. induction 1 as [|x z y Hs _ IH]; [done|]. intros Hinv.
  destruct (ce_step_inv x z Hnum Hs Hinv) as (Hz & Hle & Heq).
  destruct (IH Hz) as (Hy & Hle' & Heq'). split_and!; [done|lia|]. intros Hev Hn.
  assert (notifier (es_mem z) = notifier (es_mem x)) as Hnz by lia.
  rewrite Heq'; [by apply Heq|by rewrite Hnz|lia].
Qed.

(** An even notifier names the push whose pair is in memory. *)
Lemma enc_inv_pair x :
  enc_inv x → notifier (es_mem x) mod 2 = 0 → 0 < notifier (es_mem x) →
  ∃ k z, notifier (es_mem x) = 2 * (Z.of_nat k + 1) ∧ es_hist x !! k = Some z ∧ pair_of (es_mem x) z.
Proof.
  intros [Hph _ _ _ _] Hev Hpos.
  destruct Hph as [d t Hh Hn Hops Hp|d z t Hh Hn Hops|d z t Hh Hn Hops Hp];
    [|rewrite Hn in Hev; zify_divmod..].
  destruct d as [|z d _] using rev_ind; [simpl in Hn; lia|].
  rewrite length_app in Hn. simpl in Hn. exists (length d), z. split_and!; [lia| |].
  - rewrite Hh, lookup_app_l by (rewrite length_app; simpl; lia).
    by rewrite lookup_app_r, Nat.sub_diag by lia.
  - apply Hp. apply last_snoc.
Qed.

Lemma ce_steps_hist x y : rtc (ce_step num encrypt) x y → es_hist x `prefix_of` es_hist y.
Proof.
  induction 1 as [|x z y Hs _ IH]; [done|]. etrans; [|exact IH].
  destruct Hs; try done. simpl. by apply prefix_app_r.
Qed.

Lemma enc_init_inv ivs m :
  Z.of_nat (length ivs) = num → notifier m = 0 → enc_inv (EncSys [] (EncChannel 0 ivs []) m).
Proof.
  intros Hlen Hm. constructor; simpl; [|done|done|done|by intros]. by apply (ph_idle _ _ _ [] []).
Qed.

Section reads.
Context (sys : nat → enc_sys (IV := IV)) (Hnum : 0 < num) (Hinit : enc_inv (sys 0%nat)).
Context (Hrun : ∀ t, rtc (ce_step num encrypt) (sys t) (sys (S t))).
Context (Htag : ∀ iv v, length (encrypt iv v).2 = UVM_CONF_COMPUTING_AUTH_TAG_SIZE).

#[local] Abbreviation mem t := (es_mem (sys t)).

Lemma sys_steps t t' : (t ≤ t')%nat → rtc (ce_step num encrypt) (sys t) (sys t').
Proof. induction 1; [done|]. etrans; [done|apply Hrun]. Qed.

Lemma sys_inv t : enc_inv (sys t).
Proof. eapply ce_steps_inv, Hinit; [done|]. apply sys_steps. lia. Qed.

Lemma sys_mono t t' : (t ≤ t')%nat → notifier (mem t) ≤ notifier (mem t').
Proof. intros Ht. by eapply ce_steps_inv; [|apply sys_steps, Ht|apply sys_inv]. Qed.

(** Two reads of the same even notifier enclose one state of the memory. *)
Lemma sys_stable t t' j :
  (t ≤ j ≤ t')%nat → notifier (mem t) mod 2 = 0 → notifier (mem t') = notifier (mem t) → mem j = mem t.
Proof.
  intros Hj Hev Heq. pose proof (sys_mono t j ltac:(lia)). pose proof (sys_mono j t' ltac:(lia)).
  eapply ce_steps_inv; [done|apply (sys_steps t j); lia|apply sys_inv|done|lia].
Qed.

Lemma nth_seq_id (l : list Z) n : length l = n → (λ i, nth i l 0) <$> seq 0 n = l.
Proof.
  intros <-. apply list_eq. intros i. rewrite list_lookup_fmap.
  destruct (decide (i < length l)%nat) as [Hi|Hi].
  - rewrite lookup_seq_lt by done. simpl. rewrite nth_lookup.
    destruct (lookup_lt_is_Some_2 l i Hi) as [v ->]. done.
  - rewrite lookup_seq_ge by lia. simpl. symmetry. apply lookup_ge_None_2. lia.
Qed.

(** What the loop accepted is what the memory held at one time. *)
Definition read_good (last_observed : Z) (T : nat) (r : enc_read) : Prop :=
  match r with
  | ReadPair n payload tag => ∃ t, (t ≤ T)%nat ∧ n = notifier (mem t) ∧ n mod 2 = 0 ∧ last_observed < n ∧
      payload = encrypted_payload (mem t) ∧ tag = auth_tag (mem t)
  | _ => True
  end.

Lemma read_pair_good last_observed t :
  0 ≤ last_observed ≤ notifier (mem t) → notifier (mem t) mod 2 = 0 →
  notifier (mem t) ≠ last_observed → notifier (mem (t + 18)) = notifier (mem t) →
  read_good last_observed t (ReadPair (notifier (mem t)) (encrypted_payload (mem (t + 17)))
    ((λ i : nat, nth i (auth_tag (mem (t + 1 + i))) 0) <$> seq 0 UVM_CONF_COMPUTING_AUTH_TAG_SIZE)).
Proof.
  intros Hlo Hev Hne Heq. exists t. split_and!; [done|done|done|lia| |].
  - by rewrite (sys_stable t (t + 18) (t + 17)) by lia.
  - assert (length (auth_tag (mem t)) = UVM_CONF_COMPUTING_AUTH_TAG_SIZE) as Hlen.
    { destruct (enc_inv_pair (sys t) (sys_inv t) Hev) as (k & z & _ & _ & [_ ->]); [lia|apply Htag]. }
    rewrite <-(nth_seq_id (auth_tag (mem t)) UVM_CONF_COMPUTING_AUTH_TAG_SIZE Hlen) at 1.
    apply list_fmap_ext. intros j i Hi. apply lookup_seq in Hi as [-> Hi].
    unfold UVM_CONF_COMPUTING_AUTH_TAG_SIZE in Hi.
    by rewrite (sys_stable t (t + 18) (t + 1 + (0 + j))) by lia.
Qed.

(** The loop ends: a try is used up at every even notifier, and the notifier is
    never odd for more than [K] reads. *)
Lemma encrypted_payload_read_ends (K : nat) last_observed fuel t (tries d : nat) :
  0 ≤ last_observed ≤ notifier (mem t) → (1 ≤ tries)%nat → is_u32 (Z.of_nat tries) →
  (∀ t, ∃ d, (d ≤ K)%nat ∧ notifier (mem (t + d)) mod 2 = 0) →
  notifier (mem (t + d)) mod 2 = 0 → (d ≤ K)%nat → ((tries - 1) * (K + 1) + d + 1 ≤ fuel)%nat →
  ∃ r, encrypted_payload_read (λ t, mem t) last_observed fuel t (Z.of_nat tries) = Some r ∧
    read_good last_observed (t + 19 * fuel) r.
Proof.
  intros Hlo Htries H32 Hodd Hd HdK. revert t tries d Hlo Htries H32 Hd HdK.
  induction fuel as [|fuel IH]; intros t tries d Hlo Htries H32 Hd HdK Hfuel; [nia|].
  cbn [encrypted_payload_read]. pose proof (sys_mono t (t + 1) ltac:(lia)).
  pose proof (sys_mono t (t + 19) ltac:(lia)). rewrite (proj2 (Z.ltb_lt 0 (Z.of_nat tries))) by lia.
  destruct (Z.eqb_spec (notifier (mem t) mod 2) 1) as [Ho|He].
  - destruct d as [|d]; [rewrite Nat.add_0_r in Hd; lia|].
    destruct (IH (t + 1)%nat tries d) as (r & -> & Hr); [lia|done|done| |lia|lia|].
    { by replace (t + 1 + d)%nat with (t + S d)%nat by lia. }
    exists r. split; [done|]. destruct r; try done. destruct Hr as (t' & ? & ?). exists t'. split; [lia|done].
  - assert (notifier (mem t) mod 2 = 0) as Hev by zify_divmod.
    destruct (Z.eqb_spec (notifier (mem t)) last_observed) as [|Hne]; [by exists ReadSame|].
    rewrite u32_small by (unfold is_u32 in *; lia).
    destruct (Z.eqb_spec (notifier (mem t)) (notifier (mem (t + 18)))) as [Heq|Hchg].
    + rewrite andb_false_r. destruct (Z.eqb_spec (Z.of_nat tries - 1) 0); [by exists ReadOut|].
      eexists. split; [done|].
      destruct (read_pair_good last_observed t) as (t' & ? & ?); [done..|]. exists t'. split; [lia|done].
    + rewrite andb_true_r. destruct (Z.ltb_spec 0 (Z.of_nat tries - 1));
        [|destruct (Z.eqb_spec (Z.of_nat tries - 1) 0); [by exists ReadOut|lia]].
      replace (Z.of_nat tries - 1) with (Z.of_nat (tries - 1)) by lia.
      destruct (Hodd (t + 19)%nat) as (d' & Hd' & Hev').
      destruct (IH (t + 19)%nat (tries - 1)%nat d') as (r & -> & Hr);
        [lia|lia|unfold is_u32 in *; lia|done|done|nia|].
      exists r. split; [done|]. destruct r; try done. destruct Hr as (t' & ? & ?). exists t'. split; [lia|done].
Qed.
End reads.
End encrypted_laws.

(** The lock-free read of an encrypted payload ends, and never accepts a torn
    or stale pair. With a GPU that executes its operations in order and is
    inside an update for at most [K] reads of the CPU, and fewer pushes since
    the last observed notifier than there are GPFIFO entries, the update finds
    nothing new, runs out of tries, or decrypts with the right vector the
    payload of the push its notifier names. *)
Theorem encrypted_payload_update_sound {IV} num (encrypt : IV → Z → Z * list Z) decrypt ivs0 m0
    (sys : nat → enc_sys) (K fuel T : nat) last_observed
    (Hnum : 0 < Z.of_nat num < 2 ^ 32) (Hivs : length ivs0 = num) (Hm0 : notifier m0 = 0)
    (Hreach : rtc (ce_step (Z.of_nat num) encrypt) (EncSys [] (EncChannel 0 ivs0 []) m0) (sys 0%nat))
    (Hrun : ∀ t, rtc (ce_step (Z.of_nat num) encrypt) (sys t) (sys (S t)))
    (Hcrypt : ∀ iv v, decrypt iv (encrypt iv v).1 (encrypt iv v).2 = inl v)
    (Htag : ∀ iv v, length (encrypt iv v).2 = UVM_CONF_COMPUTING_AUTH_TAG_SIZE)
    (Hodd : ∀ t, ∃ d, (d ≤ K)%nat ∧ notifier (es_mem (sys (t + d)%nat)) mod 2 = 0)
    (Hlast : 0 ≤ last_observed ≤ notifier (es_mem (sys 0%nat)))
    (Hfuel : fuel = (num * (K + 1))%nat) (HT : (19 * fuel ≤ T)%nat)
    (Hflow : Z.of_nat (length (es_hist (sys T))) - last_observed / 2 ≤ Z.of_nat num) :
  ∃ r, gpu_semaphore_encrypted_payload_update (λ t, es_mem (sys t)) decrypt (Z.of_nat num)
         (ec_ivs (es_chan (sys T))) fuel last_observed = Some r ∧
    match r with
    | EncSame => True
    | EncValue v n => ∃ k iv, n = 2 * (Z.of_nat k + 1) ∧ last_observed < n ∧
        es_hist (sys T) !! k = Some (iv, v)
    | EncFatal status => status = NV_ERR_INVALID_STATE
    end.
Proof.
  assert (0 < Z.of_nat num) as Hnum0 by lia.
  assert (enc_inv (Z.of_nat num) encrypt (sys 0%nat)) as Hinit.
  { eapply ce_steps_inv; [done|exact Hreach|]. apply enc_init_inv; [by rewrite Hivs|done]. }
  destruct (Hodd 0%nat) as (d & HdK & Hd).
  destruct (encrypted_payload_read_ends (Z.of_nat num) encrypt sys Hnum0 Hinit Hrun Htag K last_observed
    fuel 0 num d) as (r & Hr & Hgood); [done|lia|unfold is_u32; lia|done|done|done|nia|].
  unfold gpu_semaphore_encrypted_payload_update. rewrite Hr. cbn [mbind option_bind].
  destruct r as [| |n payload tag]; [by exists EncSame|by eexists|].
  destruct Hgood as (t & Ht & -> & Hev & Hlt & -> & ->).
  pose proof (sys_inv (Z.of_nat num) encrypt sys Hnum0 Hinit Hrun) as Hinv.
  destruct (enc_inv_pair _ _ _ (Hinv t) Hev) as (k & [iv v] & Hn & Hk & [Hp1 Hp2]); [lia|].
  assert (es_hist (sys T) !! k = Some (iv, v)) as HkT.
  { eapply prefix_lookup_Some; [exact Hk|]. eapply ce_steps_hist, sys_steps; [done|lia]. }
  rewrite Hn. replace (2 * (Z.of_nat k + 1) / 2) with (Z.of_nat k + 1) by zify_divmod.
  rewrite (ei_ivs _ _ _ (Hinv T) k iv v HkT) by zify_divmod. cbn [mbind option_bind].
  rewrite Hp1, Hp2. simpl. rewrite Hcrypt. eexists. split; [done|]. exists k, iv. split_and!; [done|lia|done].
Qed.

Definition ex_encrypt (iv : Z) (v : Z) : Z * list Z := (v + iv, replicate 16 iv).

Definition ex_enc_sys : enc_sys (IV := Z) :=
  EncSys [(7, 5)] (EncChannel 2 [0; 7; 0; 0] []) (EncPayload 12 2 (replicate 16 7)).

Lemma encrypted_payload_update_sound_witness :
  ∃ r, gpu_semaphore_encrypted_payload_update (λ _, es_mem ex_enc_sys) (λ iv p _, inl (p - iv)) 4
         (ec_ivs (es_chan ex_enc_sys)) 4 0 = Some r ∧
    match r with
    | EncSame => True
    | EncValue v n => ∃ k iv, n = 2 * (Z.of_nat k + 1) ∧ 0 < n ∧ es_hist ex_enc_sys !! k = Some (iv, v)
    | EncFatal status => status = NV_ERR_INVALID_STATE
    end.
Proof.
  apply (encrypted_payload_update_sound 4 ex_encrypt (λ iv p _, inl (p - iv)) [0; 0; 0; 0]
    (EncPayload 0 0 []) (λ _, ex_enc_sys) 0 4 76 0); try done.
  - eapply rtc_l; [apply (ce_push _ _ 7 5); done|].
    eapply rtc_l; [apply ce_memset|]. eapply rtc_l; [apply ce_encrypt|]. eapply rtc_l; [apply ce_memset|].
    apply rtc_refl.
  - intros iv v. unfold ex_encrypt. simpl. f_equal. lia.
  - intros t. by exists 0%nat.
Defined.

(** A notifier that stays odd keeps the loop going: an odd value is retried
    without using up a try. *)
Lemma encrypted_read_odd_spins mem last_observed fuel t tries :
  0 < tries → (∀ t, notifier (mem t) mod 2 = 1) →
  encrypted_payload_read mem last_observed fuel t tries = None.
Proof.
  intros Htries Hodd. revert t. induction fuel as [|fuel IH]; intros t; [done|].
  cbn [encrypted_payload_read]. by rewrite Hodd, Z.eqb_refl, (proj2 (Z.ltb_lt _ _) Htries), IH.
Qed.

(** A good snapshot taken with the last try is thrown away. *)
Lemma encrypted_read_last_try mem last_observed fuel t :
  notifier (mem t) mod 2 = 0 → notifier (mem t) ≠ last_observed →
  notifier (mem (t + 18)%nat) = notifier (mem t) →
  encrypted_payload_read mem last_observed (S fuel) t 1 = Some ReadOut.
Proof.
  intros Hev Hne Heq. cbn [encrypted_payload_read].
  by rewrite Hev, Heq, (proj2 (Z.eqb_neq _ _) Hne), Z.eqb_refl.
Qed.
