(* ===== verification/UvmChannel.v ===== *)
(** * UvmChannel: the GPFIFO of a UVM channel

    [src/kernel-open/nvidia-uvm/uvm_channel.c] without confidential computing. A
    channel is a ring of GPFIFO entries. A thread first reserves entries, then
    begins a push, writes its methods, and ends the push, which fills the entry
    at [cpu_put]; the GPU executes entries in order and releases the channel's
    tracking semaphore after each push; [uvm_channel_update_progress] retires
    the entries at [gpu_get] whose semaphore value has been reached.

    The calls into the pushbuffer (UvmPushbuffer) and the writes the GPU sees
    are actions; the tracking semaphore is that of UvmSemaphore. A section under
    the lock of the channel's pool is one step. *)
From stdpp Require Import base numbers list list_numbers relations sorting.
From S2P Require Import Prelude Rings UvmPushbuffer UvmSemaphore.
#[local] Open Scope Z_scope.

Definition NV_ERR_ECC_ERROR : Z := 0x0B.
Definition NV_ERR_RC_ERROR : Z := 0x60.

Inductive uvm_gpfifo_entry_type_t :=
| UVM_GPFIFO_ENTRY_TYPE_NORMAL (pushbuffer_offset pushbuffer_size : Z) (push_info : nat)
| UVM_GPFIFO_ENTRY_TYPE_CONTROL (control_value : Z).

Record uvm_gpfifo_entry_t := GpEntry {
  tracking_semaphore_value : Z;
  entry_type : uvm_gpfifo_entry_type_t }.

(** The address of the channel's entries is counted in entries. *)
Record uvm_channel_t := Channel {
  num_gpfifo_entries : Z;
  gpfifo_entries_addr : Z;
  gpfifo_entries : list uvm_gpfifo_entry_t;
  cpu_put : Z;
  gpu_get : Z;
  current_gpfifo_count : Z;
  available_push_infos : list nat;
  tracking_sem : uvm_gpu_tracking_semaphore_t;
  suspended_p2p : bool }.

(** [SetEntry] and [SetControl] are the writes of a slot of the hardware GPFIFO,
    [GpuPut] that of GP_PUT, [SetFatal] is uvm_global_set_fatal_error. *)
Inductive ch_action :=
| PbMark (g : pb_entry)
| PbEnd (g : pb_entry)
| SetEntry (slot pushbuffer_offset size : Z)
| SetControl (slot value : Z)
| GpuPut (put : Z)
| SetFatal (status : Z).

Inductive uvm_channel_reserve_type_t := UVM_CHANNEL_RESERVE_WITH_P2P | UVM_CHANNEL_RESERVE_NO_P2P.
Inductive uvm_channel_update_mode_t := UVM_CHANNEL_UPDATE_MODE_COMPLETED | UVM_CHANNEL_UPDATE_MODE_FORCE_ALL.

Definition set_entries f (c : uvm_channel_t) : uvm_channel_t :=
  Channel (num_gpfifo_entries c) (gpfifo_entries_addr c) (f (gpfifo_entries c)) (cpu_put c) (gpu_get c)
    (current_gpfifo_count c) (available_push_infos c) (tracking_sem c) (suspended_p2p c).
Definition set_cpu_put v (c : uvm_channel_t) : uvm_channel_t :=
  Channel (num_gpfifo_entries c) (gpfifo_entries_addr c) (gpfifo_entries c) v (gpu_get c)
    (current_gpfifo_count c) (available_push_infos c) (tracking_sem c) (suspended_p2p c).
Definition set_gpu_get v (c : uvm_channel_t) : uvm_channel_t :=
  Channel (num_gpfifo_entries c) (gpfifo_entries_addr c) (gpfifo_entries c) (cpu_put c) v
    (current_gpfifo_count c) (available_push_infos c) (tracking_sem c) (suspended_p2p c).
Definition set_count f (c : uvm_channel_t) : uvm_channel_t :=
  Channel (num_gpfifo_entries c) (gpfifo_entries_addr c) (gpfifo_entries c) (cpu_put c) (gpu_get c)
    (f (current_gpfifo_count c)) (available_push_infos c) (tracking_sem c) (suspended_p2p c).
Definition set_infos f (c : uvm_channel_t) : uvm_channel_t :=
  Channel (num_gpfifo_entries c) (gpfifo_entries_addr c) (gpfifo_entries c) (cpu_put c) (gpu_get c)
    (current_gpfifo_count c) (f (available_push_infos c)) (tracking_sem c) (suspended_p2p c).
Definition set_tracking v (c : uvm_channel_t) : uvm_channel_t :=
  Channel (num_gpfifo_entries c) (gpfifo_entries_addr c) (gpfifo_entries c) (cpu_put c) (gpu_get c)
    (current_gpfifo_count c) (available_push_infos c) v (suspended_p2p c).
Definition set_suspended v (c : uvm_channel_t) : uvm_channel_t :=
  Channel (num_gpfifo_entries c) (gpfifo_entries_addr c) (gpfifo_entries c) (cpu_put c) (gpu_get c)
    (current_gpfifo_count c) (available_push_infos c) (tracking_sem c) v.

(** The state [channel_create] leaves. *)
Definition channel_create (num : nat) (addr : Z) : uvm_channel_t :=
  Channel (Z.of_nat num) addr (replicate num (GpEntry 0 (UVM_GPFIFO_ENTRY_TYPE_NORMAL 0 0 0)))
    0 0 0 (seq 0 num) (TrackingSem 0 0) false.

(** The entry as the pushbuffer sees it: its address is that of its slot. *)
Definition entry_pb (c : uvm_channel_t) (slot offset size : Z) : pb_entry :=
  PbEntry (gpfifo_entries_addr c + slot) offset size.

#[local] Abbreviation M := (prog ch_action uvm_channel_t).

Definition uvm_channel_update_completed_value (payload : Z) : M Z := λ c,
  let '(v, t) := update_completed_value_locked payload (tracking_sem c) in (v, set_tracking t c, []).

Definition uvm_channel_is_value_completed (payload value : Z) : M bool := λ c,
  let '(b, t) := uvm_gpu_tracking_semaphore_is_value_completed payload value (tracking_sem c) in
  (b, set_tracking t c, []).

(** The loop of uvm_channel_update_progress_with_max; [n] is [max_to_complete]
    minus [completed_count]. Each round advances [gpu_get]. *)
Fixpoint complete_entries (mode : uvm_channel_update_mode_t) (completed_value : Z) (n : nat) : M unit :=
  match n with
  | O => skip
  | S n =>
      c ← get;
      if gpu_get c =? cpu_put c then skip
      else
        match gpfifo_entries c !! Z.to_nat (gpu_get c) with
        | None => skip
        | Some entry =>
            if (match mode with UVM_CHANNEL_UPDATE_MODE_COMPLETED => true | _ => false end) &&
               (completed_value <? tracking_semaphore_value entry)
            then skip
            else
              (match entry_type entry with
               | UVM_GPFIFO_ENTRY_TYPE_NORMAL offset size info =>
                   tell [PbMark (entry_pb c (gpu_get c) offset size)];;
                   modify (set_infos (λ l, l ++ [info]))
               | UVM_GPFIFO_ENTRY_TYPE_CONTROL _ => skip
               end);;
              modify (set_gpu_get ((gpu_get c + 1) mod num_gpfifo_entries c));;
              complete_entries mode completed_value n
        end
  end.

Definition pending_count (c : uvm_channel_t) : Z :=
  if gpu_get c <=? cpu_put c then cpu_put c - gpu_get c
  else num_gpfifo_entries c - gpu_get c + cpu_put c.

(** The part under the lock. [completed_value] was read before. *)
Definition update_progress_locked (completed_value : Z) (max_to_complete : nat)
    (mode : uvm_channel_update_mode_t) : M Z :=
  complete_entries mode completed_value max_to_complete;;
  gets pending_count.

Definition uvm_channel_update_progress_with_max (payload : Z) (max_to_complete : nat)
    (mode : uvm_channel_update_mode_t) : M Z :=
  completed_value ← uvm_channel_update_completed_value payload;
  update_progress_locked completed_value max_to_complete mode.

Definition uvm_channel_update_progress (payload : Z) : M Z :=
  uvm_channel_update_progress_with_max payload 8 UVM_CHANNEL_UPDATE_MODE_COMPLETED.

Definition channel_update_progress_all (payload : Z) (mode : uvm_channel_update_mode_t) : M Z :=
  num ← gets num_gpfifo_entries;
  uvm_channel_update_progress_with_max payload (Z.to_nat num) mode.

Definition channel_get_available_gpfifo_entries (c : uvm_channel_t) : Z :=
  let available := num_gpfifo_entries c in
  let available := u32 (available - 1) in
  let available := u32 (available - current_gpfifo_count c) in
  if gpu_get c <=? cpu_put c then u32 (available - (cpu_put c - gpu_get c))
  else u32 (available - u32 (cpu_put c + num_gpfifo_entries c - gpu_get c)).

Definition try_claim_channel (n : Z) (reserve_type : uvm_channel_reserve_type_t) : M bool :=
  c ← get;
  if (match reserve_type with UVM_CHANNEL_RESERVE_WITH_P2P => true | _ => false end) && suspended_p2p c
  then mret false
  else if n <=? channel_get_available_gpfifo_entries c then
    modify (set_count (λ k, u32 (k + n)));; mret true
  else mret false.

(** [None] is the empty list, which the code takes never to happen. *)
Definition channel_get_available_push_info_index : M (option nat) :=
  l ← gets available_push_infos;
  match l with
  | [] => mret None
  | i :: l => modify (set_infos (λ _, l));; mret (Some i)
  end.

(** The push is at [offset] of the pushbuffer and has [size] bytes. *)
Definition internal_channel_submit_work (offset size new_gpu_put : Z) : M unit :=
  put ← gets cpu_put;
  tell [SetEntry put offset size; GpuPut new_gpu_put].

Definition uvm_channel_end_push (offset size : Z) (push_info_index : nat) : M Z :=
  c ← get;
  let new_tracking_value := u64 (queued_value (tracking_sem c) + 1) in
  modify (set_tracking (TrackingSem (completed_value (tracking_sem c)) new_tracking_value));;
  let put := cpu_put c in
  let new_cpu_put := (put + 1) mod num_gpfifo_entries c in
  let entry := GpEntry new_tracking_value (UVM_GPFIFO_ENTRY_TYPE_NORMAL offset size push_info_index) in
  modify (set_entries <[Z.to_nat put := entry]>);;
  modify (set_count (λ k, u32 (k - 1)));;
  internal_channel_submit_work offset size new_cpu_put;;
  modify (set_cpu_put new_cpu_put);;
  tell [PbEnd (entry_pb c put offset size)];;
  mret new_tracking_value.

Definition submit_ctrl_gpfifo (control_value new_cpu_put : Z) : M unit :=
  put ← gets cpu_put;
  tell [SetControl put control_value; GpuPut new_cpu_put].

Definition write_ctrl_gpfifo (ctrl_fifo_entry_value : Z) : M unit :=
  c ← get;
  let put := cpu_put c in
  let new_cpu_put := (put + 1) mod num_gpfifo_entries c in
  let entry := GpEntry (u64 (queued_value (tracking_sem c) + 1))
    (UVM_GPFIFO_ENTRY_TYPE_CONTROL ctrl_fifo_entry_value) in
  modify (set_entries <[Z.to_nat put := entry]>);;
  modify (set_count (λ k, u32 (k - 1)));;
  submit_ctrl_gpfifo ctrl_fifo_entry_value new_cpu_put;;
  modify (set_cpu_put new_cpu_put).

Definition uvm_channel_release (n : Z) : M unit := modify (set_count (λ k, u32 (k - n))).

Definition uvm_channel_get_first_pending_entry (payload : Z) : M (option uvm_gpfifo_entry_t) :=
  pending ← channel_update_progress_all payload UVM_CHANNEL_UPDATE_MODE_COMPLETED;
  if pending =? 0 then mret None
  else
    c ← get;
    mret (if gpu_get c =? cpu_put c then None else gpfifo_entries c !! Z.to_nat (gpu_get c)).

(** The error notifier of the channel, and the ECC state of the GPU. *)
Record err_env := ErrEnv {
  ee_status : Z;
  ee_ecc_enabled : bool;
  ee_ecc_error : bool }.

Definition uvm_channel_get_status (e : err_env) : Z :=
  if ee_status e =? 0 then NV_OK
  else if ee_ecc_enabled e && ee_ecc_error e then NV_ERR_ECC_ERROR
  else NV_ERR_RC_ERROR.

Definition uvm_channel_check_errors (e : err_env) (payload : Z) : M Z :=
  let status := uvm_channel_get_status e in
  if status =? NV_OK then mret status
  else
    uvm_channel_get_first_pending_entry payload;;
    tell [SetFatal status];;
    mret status.

Definition uvm_channel_begin_push (pb_status : Z) : M (Z * option nat) :=
  if negb (pb_status =? NV_OK) then mret (pb_status, None)
  else
    i ← channel_get_available_push_info_index;
    mret (NV_OK, i).

(** What a spinning thread meets in a round: the payload of the tracking
    semaphore, the error state, and what the other threads did since. *)
Record round := Round {
  rd_payload : Z;
  rd_err : err_env;
  rd_global : Z;
  rd_others : uvm_channel_t → uvm_channel_t }.

Section spin.
Context (rounds : nat → round).

(** [None]: the loop has not ended after [fuel] rounds. *)
Fixpoint reserve_loop (fuel k : nat) (n status : Z) : M (option Z) :=
  match fuel with
  | O => mret None
  | S fuel =>
      modify (rd_others (rounds k));;
      claimed ← try_claim_channel n UVM_CHANNEL_RESERVE_NO_P2P;
      if negb claimed && (status =? NV_OK) then
        status ← uvm_channel_check_errors (rd_err (rounds k)) (rd_payload (rounds k));
        uvm_channel_update_progress (rd_payload (rounds k));;
        reserve_loop fuel (S k) n status
      else mret (Some status)
  end.

Definition uvm_channel_reserve (fuel : nat) (n : Z) : M (option Z) :=
  claimed ← try_claim_channel n UVM_CHANNEL_RESERVE_NO_P2P;
  if (claimed : bool) then mret (Some NV_OK)
  else
    uvm_channel_update_progress (rd_payload (rounds 0%nat));;
    reserve_loop fuel 1 n NV_OK.

Definition uvm_channel_write_ctrl_gpfifo (fuel : nat) (value : Z) (pb_status offset size : Z) : M (option Z) :=
  r ← uvm_channel_reserve fuel 2;
  match r with
  | None => mret None
  | Some status =>
      if negb (status =? NV_OK) then mret (Some status)
      else
        write_ctrl_gpfifo value;;
        '(status, i) ← uvm_channel_begin_push pb_status;
        if negb (status =? NV_OK) then
          uvm_channel_release 1;;
          mret (Some status)
        else
          match i with
          | None => mret None
          | Some i => uvm_channel_end_push offset size i;; mret (Some NV_OK)
          end
  end.

Definition channel_suspend_p2p (fuel : nat) : M (option Z) :=
  num ← gets num_gpfifo_entries;
  r ← uvm_channel_reserve fuel (num - 1);
  match r with
  | None => mret None
  | Some status =>
      when (status =? NV_OK) (modify (set_suspended true));;
      uvm_channel_release (num - 1);;
      mret (Some status)
  end.

Definition channel_resume_p2p : M unit := modify (set_suspended false).

Fixpoint wait_loop (fuel k : nat) (status : Z) : M (option Z) :=
  match fuel with
  | O => mret None
  | S fuel =>
      modify (rd_others (rounds k));;
      pending ← uvm_channel_update_progress (rd_payload (rounds k));
      if (0 <? pending) && (status =? NV_OK) then
        let status := rd_global (rounds k) in
        status ← (if status =? NV_OK
                  then uvm_channel_check_errors (rd_err (rounds k)) (rd_payload (rounds k))
                  else mret status);
        wait_loop fuel (S k) status
      else mret (Some status)
  end.

Definition uvm_channel_wait (fuel : nat) : M (option Z) :=
  let status := rd_global (rounds 0%nat) in
  pending ← uvm_channel_update_progress (rd_payload (rounds 0%nat));
  if (pending =? 0) && (status =? NV_OK) then
    status ← uvm_channel_check_errors (rd_err (rounds 0%nat)) (rd_payload (rounds 0%nat));
    mret (Some status)
  else wait_loop fuel 1 status.
End spin.

(** ** Pools *)

#[local] Abbreviation P := (prog ch_action (list uvm_channel_t)).

(** Run an operation on the channel [i] of the pool. *)
Definition on_channel {A} (i : nat) (m : M A) : P (option A) := λ pool,
  match pool !! i with
  | None => (None, pool, [])
  | Some c => let '(a, c, es) := m c in (Some a, <[i := c]> pool, es)
  end.

(** The first loop of channel_reserve_in_pool, over the channels [ids]. *)
Fixpoint claim_first (reserve_type : uvm_channel_reserve_type_t) (ids : list nat) : P (option nat) :=
  match ids with
  | [] => mret None
  | i :: ids =>
      claimed ← on_channel i (try_claim_channel 1 reserve_type);
      if bool_decide (claimed = Some true) then mret (Some i) else claim_first reserve_type ids
  end.

(** Its second loop: round [k] looks at channel [k mod length]. The status and the
    channel, or [None] after [fuel] rounds. *)
Fixpoint pool_loop (rounds : nat → round) (reserve_type : uvm_channel_reserve_type_t) (fuel k : nat)
    : P (option (Z * option nat)) :=
  match fuel with
  | O => mret None
  | S fuel =>
      pool ← get;
      let i := (k mod length pool)%nat in
      let r := rounds k in
      on_channel i (modify (rd_others r));;
      on_channel i (uvm_channel_update_progress (rd_payload r));;
      claimed ← on_channel i (try_claim_channel 1 reserve_type);
      if bool_decide (claimed = Some true) then mret (Some (NV_OK, Some i))
      else
        status ← on_channel i (uvm_channel_check_errors (rd_err r) (rd_payload r));
        if negb (default NV_OK status =? NV_OK) then mret (Some (default NV_OK status, None))
        else
          suspended ← on_channel i (gets suspended_p2p);
          if (match reserve_type with UVM_CHANNEL_RESERVE_WITH_P2P => true | _ => false end) &&
             bool_decide (suspended = Some true)
          then mret (Some (NV_ERR_BUSY_RETRY, None))
          else pool_loop rounds reserve_type fuel (S k)
  end.

Definition channel_reserve_in_pool (rounds : nat → round) (reserve_type : uvm_channel_reserve_type_t)
    (fuel : nat) : P (option (Z * option nat)) :=
  pool ← get;
  first ← claim_first reserve_type (seq 0 (length pool));
  match first with
  | Some i => mret (Some (NV_OK, Some i))
  | None => pool_loop rounds reserve_type fuel 0
  end.

(** The loop of channel_pool_suspend_p2p: the status and the index it stopped
    at. [rounds i] is what the spin on channel [i] meets. *)
Fixpoint suspend_channels (rounds : nat → nat → round) (fuel : nat) (ids : list nat) (n : nat)
    : P (option (Z * nat)) :=
  match ids with
  | [] => mret (Some (NV_OK, n))
  | i :: ids =>
      r ← on_channel i (channel_suspend_p2p (rounds i) fuel);
      match mjoin r with
      | None => mret None
      | Some status =>
          if negb (status =? NV_OK) then mret (Some (status, i))
          else suspend_channels rounds fuel ids n
      end
  end.

Definition channel_pool_suspend_p2p (rounds : nat → nat → round) (fuel : nat) : P (option Z) :=
  pool ← get;
  r ← suspend_channels rounds fuel (seq 0 (length pool)) (length pool);
  match r with
  | None => mret None
  | Some (status, i) =>
      when (negb (status =? NV_OK))
        (for_each (λ j, on_channel j channel_resume_p2p;; skip) (reverse (seq 0 i)));;
      mret (Some status)
  end.

Definition channel_pool_resume_p2p : P unit :=
  pool ← get;
  for_each (λ j, on_channel j channel_resume_p2p;; skip) (seq 0 (length pool)).

(** ** Specification *)

(** The entries the GPU has not been seen to complete, oldest first, with their
    slots. *)
Definition pend_slots (c : uvm_channel_t) : list Z :=
  ring_slots (num_gpfifo_entries c) (gpu_get c) (ring_count (num_gpfifo_entries c) (cpu_put c) (gpu_get c)).

Definition pend (c : uvm_channel_t) : list (Z * uvm_gpfifo_entry_t) :=
  zip (pend_slots c) (ring_read (gpfifo_entries c) (pend_slots c)).

(** A pending push: its semaphore value, its entry in the pushbuffer, its push
    info. *)
Record npush := NPush { np_value : Z; np_pb : pb_entry; np_info : nat }.

Definition normal_of (addr : Z) (x : Z * uvm_gpfifo_entry_t) : option npush :=
  match entry_type x.2 with
  | UVM_GPFIFO_ENTRY_TYPE_NORMAL offset size info =>
      Some (NPush (tracking_semaphore_value x.2) (PbEntry (addr + x.1) offset size) info)
  | UVM_GPFIFO_ENTRY_TYPE_CONTROL _ => None
  end.

Definition normals (c : uvm_channel_t) : list npush := omap (normal_of (gpfifo_entries_addr c)) (pend c).

(** An entry before another has a value that is not larger, and smaller if it
    is a push: a control entry carries the value of the push after it. *)
Definition value_before (x y : Z * uvm_gpfifo_entry_t) : Prop :=
  tracking_semaphore_value x.2 ≤ tracking_semaphore_value y.2 ∧
  (is_Some (normal_of 0 x) → tracking_semaphore_value x.2 < tracking_semaphore_value y.2).

(** [N] is the last value the GPU released; [ongoing] the push infos of the
    pushes that have begun and not ended. *)
Record ch_inv (c : uvm_channel_t) (N : Z) (ongoing : list nat) : Prop := {
  ci_num : 2 ≤ num_gpfifo_entries c ≤ 1024 * 1024;
  ci_len : Z.of_nat (length (gpfifo_entries c)) = num_gpfifo_entries c;
  ci_put : 0 ≤ cpu_put c < num_gpfifo_entries c;
  ci_get : 0 ≤ gpu_get c < num_gpfifo_entries c;
  ci_room : 0 ≤ current_gpfifo_count c ∧
    Z.of_nat (length (pend c)) + current_gpfifo_count c ≤ num_gpfifo_entries c - 1;
  ci_ongoing : Z.of_nat (length ongoing) ≤ current_gpfifo_count c;
  ci_vals : np_value <$> normals c =
    seqZ (queued_value (tracking_sem c) - Z.of_nat (length (normals c)) + 1) (Z.of_nat (length (normals c)));
  ci_sorted : StronglySorted value_before (pend c);
  ci_ctrl : Forall (λ x, tracking_semaphore_value x.2 ≤
    queued_value (tracking_sem c) + (if bool_decide (is_Some (normal_of 0 x)) then 0 else 1)) (pend c);
  ci_window : queued_value (tracking_sem c) - Z.of_nat (length (normals c)) ≤
      completed_value (tracking_sem c) ≤ N ∧
    N ≤ queued_value (tracking_sem c) ∧ 0 ≤ completed_value (tracking_sem c) ∧
    queued_value (tracking_sem c) < 2 ^ 64;
  ci_infos : available_push_infos c ++ ongoing ++ (np_info <$> normals c)
    ≡ₚ seq 0 (Z.to_nat (num_gpfifo_entries c)) }.

(** What a run of the channel did to the pushbuffer. *)
Definition ends (es : list ch_action) : list pb_entry :=
  omap (λ e, match e with PbEnd g => Some g | _ => None end) es.
Definition marks (es : list ch_action) : list pb_entry :=
  omap (λ e, match e with PbMark g => Some g | _ => None end) es.

Record ch_state := ChState {
  cs_chan : uvm_channel_t;
  cs_N : Z;
  cs_ongoing : list nat;
  cs_ended : list pb_entry;
  cs_marked : list pb_entry }.

Definition cs_run {A} (m : M A) (ongoing : list nat) (s : ch_state) : ch_state :=
  let es := run_eff m (cs_chan s) in
  ChState (run_st m (cs_chan s)) (cs_N s) ongoing (cs_ended s ++ ends es) (cs_marked s ++ marks es).

(** Threads reserve, begin, end and release as the API asks: a push begins and a
    control entry is written on an entry that is reserved and not in use; the
    GPU releases the values of the pushes in order; any thread may look at the
    semaphore, and complete entries up to a value it saw. *)
Inductive ch_step : ch_state → ch_state → Prop :=
| ch_claim n rt s :
    0 < n → ch_step s (cs_run (try_claim_channel n rt) (cs_ongoing s) s)
| ch_begin i s :
    Z.of_nat (length (cs_ongoing s)) < current_gpfifo_count (cs_chan s) →
    run_val channel_get_available_push_info_index (cs_chan s) = Some i →
    ch_step s (cs_run channel_get_available_push_info_index (i :: cs_ongoing s) s)
| ch_end offset size i ongoing s :
    cs_ongoing s ≡ₚ i :: ongoing → queued_value (tracking_sem (cs_chan s)) + 1 < 2 ^ 64 →
    ch_step s (cs_run (uvm_channel_end_push offset size i) ongoing s)
| ch_ctrl v s :
    Z.of_nat (length (cs_ongoing s)) < current_gpfifo_count (cs_chan s) →
    queued_value (tracking_sem (cs_chan s)) + 1 < 2 ^ 64 →
    ch_step s (cs_run (write_ctrl_gpfifo v) (cs_ongoing s) s)
| ch_release n s :
    0 ≤ n → Z.of_nat (length (cs_ongoing s)) + n ≤ current_gpfifo_count (cs_chan s) →
    ch_step s (cs_run (uvm_channel_release n) (cs_ongoing s) s)
| ch_gpu s :
    cs_N s < queued_value (tracking_sem (cs_chan s)) →
    ch_step s (ChState (cs_chan s) (cs_N s + 1) (cs_ongoing s) (cs_ended s) (cs_marked s))
| ch_observe s :
    ch_step s (cs_run (uvm_channel_update_completed_value (u32 (cs_N s))) (cs_ongoing s) s)
| ch_query v s :
    ch_step s (cs_run (uvm_channel_is_value_completed (u32 (cs_N s)) v) (cs_ongoing s) s)
| ch_progress v n s :
    v ≤ completed_value (tracking_sem (cs_chan s)) →
    ch_step s (cs_run (update_progress_locked v n UVM_CHANNEL_UPDATE_MODE_COMPLETED) (cs_ongoing s) s)
| ch_suspend b s :
    ch_step s (cs_run (modify (set_suspended b) : M unit) (cs_ongoing s) s).

Definition ch_init (num : nat) (addr : Z) : ch_state := ChState (channel_create num addr) 0 [] [] [].

Definition cs_inv (s : ch_state) : Prop :=
  ch_inv (cs_chan s) (cs_N s) (cs_ongoing s) ∧
  cs_ended s = cs_marked s ++ (np_pb <$> normals (cs_chan s)) ∧
  Z.of_nat (length (cs_ended s)) = queued_value (tracking_sem (cs_chan s)).

(** The queue after up to [n] entries with a value up to [v] are retired. *)
Fixpoint retire (v : Z) (n : nat) (l : list (Z * uvm_gpfifo_entry_t)) : list (Z * uvm_gpfifo_entry_t) :=
  match n, l with
  | S n, x :: l' => if tracking_semaphore_value x.2 <=? v then retire v n l' else l
  | _, _ => l
  end.

(** * The queue of a channel *)

Lemma pend_push c c' e :
  0 < num_gpfifo_entries c → Z.of_nat (length (gpfifo_entries c)) = num_gpfifo_entries c →
  0 ≤ cpu_put c < num_gpfifo_entries c →
  ring_count (num_gpfifo_entries c) (cpu_put c) (gpu_get c) < num_gpfifo_entries c - 1 →
  num_gpfifo_entries c' = num_gpfifo_entries c → gpu_get c' = gpu_get c →
  cpu_put c' = (cpu_put c + 1) mod num_gpfifo_entries c →
  gpfifo_entries c' = <[Z.to_nat (cpu_put c) := e]> (gpfifo_entries c) →
  pend c' = pend c ++ [(cpu_put c, e)].
Proof.
  intros Hnum Hlen Hput Hcnt En Eg Ep Ee. unfold pend, pend_slots. rewrite En, Eg, Ep, Ee.
  rewrite ring_read_push by done.
  pose proof (ring_count_range (num_gpfifo_entries c) Hnum (cpu_put c) (gpu_get c)).
  rewrite ring_count_push, ring_slots_snoc, ring_put by (done || lia).
  rewrite zip_with_app; [done|]. apply Nat2Z.inj. rewrite ring_read_length by (done || lia).
  unfold ring_slots. rewrite length_fmap, length_seqZ. lia.
Qed.

Lemma pend_pop c c' e :
  0 < num_gpfifo_entries c → Z.of_nat (length (gpfifo_entries c)) = num_gpfifo_entries c →
  0 ≤ cpu_put c < num_gpfifo_entries c → 0 ≤ gpu_get c < num_gpfifo_entries c → cpu_put c ≠ gpu_get c →
  gpfifo_entries c !! Z.to_nat (gpu_get c) = Some e →
  num_gpfifo_entries c' = num_gpfifo_entries c → cpu_put c' = cpu_put c →
  gpu_get c' = (gpu_get c + 1) mod num_gpfifo_entries c → gpfifo_entries c' = gpfifo_entries c →
  pend c = (gpu_get c, e) :: pend c'.
Proof.
  intros Hnum Hlen Hput Hget Hne He En Ep Eg Ee. unfold pend, pend_slots. rewrite En, Eg, Ep, Ee.
  rewrite (ring_read_pop _ Hnum _ _ _ e) by done.
  pose proof (ring_count_range (num_gpfifo_entries c) Hnum (cpu_put c) (gpu_get c)).
  pose proof (ring_count_zero (num_gpfifo_entries c) Hnum (cpu_put c) (gpu_get c) Hput Hget).
  rewrite (ring_slots_cons _ Hnum (gpu_get c)) by lia. simpl. f_equal.
  rewrite ring_count_pop by lia. done.
Qed.

Lemma pend_length c :
  0 < num_gpfifo_entries c → Z.of_nat (length (gpfifo_entries c)) = num_gpfifo_entries c →
  Z.of_nat (length (pend c)) = ring_count (num_gpfifo_entries c) (cpu_put c) (gpu_get c).
Proof.
  intros Hnum Hlen. unfold pend, pend_slots.
  pose proof (ring_count_range (num_gpfifo_entries c) Hnum (cpu_put c) (gpu_get c)).
  rewrite length_zip_with_l_eq.
  - unfold ring_slots. rewrite length_fmap, length_seqZ. lia.
  - apply Nat2Z.inj. rewrite ring_read_length by (done || lia).
    unfold ring_slots. rewrite length_fmap, length_seqZ. lia.
Qed.

Lemma ch_inv_pend_length c N ongoing :
  ch_inv c N ongoing → Z.of_nat (length (pend c)) = ring_count (num_gpfifo_entries c) (cpu_put c) (gpu_get c).
Proof. intros Hinv. pose proof (ci_num _ _ _ Hinv). apply pend_length; [lia|apply (ci_len _ _ _ Hinv)]. Qed.

(** The room a reservation sees. *)
Lemma available_exact c N ongoing :
  ch_inv c N ongoing →
  channel_get_available_gpfifo_entries c =
    num_gpfifo_entries c - 1 - current_gpfifo_count c - Z.of_nat (length (pend c)).
Proof.
  intros Hinv. pose proof Hinv as [Hnum Hlen Hput Hget Hroom _ _ _ _ _ _].
  rewrite (ch_inv_pend_length _ _ _ Hinv) in *.
  rewrite ring_count_cases in * by lia. unfold channel_get_available_gpfifo_entries.
  rewrite !(u32_small (num_gpfifo_entries c - 1)) by (unfold is_u32; lia).
  rewrite !(u32_small (num_gpfifo_entries c - 1 - current_gpfifo_count c)) by
    (unfold is_u32; case_match; lia).
  destruct (Z.leb_spec (gpu_get c) (cpu_put c)); [rewrite u32_small by (unfold is_u32; lia); lia|].
  rewrite (u32_small (cpu_put c + _ - _)) by (unfold is_u32; lia).
  rewrite u32_small by (unfold is_u32; lia). lia.
Qed.

Lemma claim_ch_inv n rt c N ongoing :
  ch_inv c N ongoing → 0 < n → ch_inv (run_st (try_claim_channel n rt) c) N ongoing.
Proof.
  intros Hinv Hn. unfold try_claim_channel. autorewrite with run.
  destruct (_ && _); [done|].
  destruct (Z.leb_spec n (channel_get_available_gpfifo_entries c)) as [Hle|]; [|done].
  rewrite (available_exact _ _ _ Hinv) in Hle. autorewrite with run. cbn [run_st].
  pose proof Hinv as [Hnum Hlen Hput Hget Hroom Hong Hvals Hsort Hctrl Hwin Hinfos].
  change (run_st (mret true) ?c) with c.
  constructor; cbn [set_count num_gpfifo_entries gpfifo_entries cpu_put gpu_get current_gpfifo_count];
    rewrite ?u32_small by (unfold is_u32; lia); try done; change (pend (set_count _ c)) with (pend c) in *; lia.
Qed.

Lemma claim_no_marks n rt c : run_eff (try_claim_channel n rt) c = [].
Proof.
  unfold try_claim_channel. autorewrite with run. destruct (_ && _); [done|]. by destruct (_ <=? _).
Qed.

Lemma release_ch_inv n c N ongoing :
  ch_inv c N ongoing → 0 ≤ n → Z.of_nat (length ongoing) + n ≤ current_gpfifo_count c →
  ch_inv (set_count (λ k, u32 (k - n)) c) N ongoing.
Proof.
  intros [Hnum Hlen Hput Hget Hroom Hong Hvals Hsort Hctrl Hwin Hinfos] Hn Hle.
  constructor; cbn [set_count num_gpfifo_entries gpfifo_entries cpu_put gpu_get current_gpfifo_count];
    rewrite ?u32_small by (unfold is_u32; lia); try done; change (pend (set_count _ c)) with (pend c) in *; lia.
Qed.

(** There is always a push info for an entry that is reserved. *)
Lemma push_info_available c N ongoing :
  ch_inv c N ongoing → Z.of_nat (length ongoing) < current_gpfifo_count c →
  available_push_infos c ≠ [].
Proof.
  intros [Hnum Hlen Hput Hget Hroom Hong Hvals Hsort Hctrl Hwin Hinfos] Hlt Hnil.
  apply Permutation_length in Hinfos. rewrite Hnil, !length_app, length_fmap, length_seq in Hinfos. simpl in Hinfos.
  assert (length (normals c) ≤ length (pend c))%nat by apply omap_length_le. lia.
Qed.

Lemma begin_ch_inv c i l N ongoing :
  ch_inv c N ongoing → Z.of_nat (length ongoing) < current_gpfifo_count c →
  available_push_infos c = i :: l → ch_inv (set_infos (λ _, l) c) N (i :: ongoing).
Proof.
  intros [Hnum Hlen Hput Hget Hroom Hong Hvals Hsort Hctrl Hwin Hinfos] Hlt Hl.
  constructor; cbn [set_infos num_gpfifo_entries gpfifo_entries cpu_put gpu_get current_gpfifo_count
    available_push_infos tracking_sem]; try done.
  - simpl. lia.
  - rewrite Hl in Hinfos. change (normals (set_infos _ c)) with (normals c). rewrite <-Hinfos.
    simpl. by rewrite <-Permutation_middle.
Qed.

(** A channel after an entry is added at [cpu_put]. *)
Definition pushed (c : uvm_channel_t) (e : uvm_gpfifo_entry_t) (t : uvm_gpu_tracking_semaphore_t)
    : uvm_channel_t :=
  Channel (num_gpfifo_entries c) (gpfifo_entries_addr c) (<[Z.to_nat (cpu_put c) := e]> (gpfifo_entries c))
    ((cpu_put c + 1) mod num_gpfifo_entries c) (gpu_get c) (u32 (current_gpfifo_count c - 1))
    (available_push_infos c) t (suspended_p2p c).

Lemma end_push_run offset size i c :
  let v := u64 (queued_value (tracking_sem c) + 1) in
  let put := (cpu_put c + 1) mod num_gpfifo_entries c in
  uvm_channel_end_push offset size i c =
    (v, pushed c (GpEntry v (UVM_GPFIFO_ENTRY_TYPE_NORMAL offset size i))
          (TrackingSem (completed_value (tracking_sem c)) v),
     [SetEntry (cpu_put c) offset size; GpuPut put; PbEnd (entry_pb c (cpu_put c) offset size)]).
Proof. reflexivity. Qed.

Lemma write_ctrl_run v c :
  let put := (cpu_put c + 1) mod num_gpfifo_entries c in
  write_ctrl_gpfifo v c =
    (tt, pushed c (GpEntry (u64 (queued_value (tracking_sem c) + 1)) (UVM_GPFIFO_ENTRY_TYPE_CONTROL v))
           (tracking_sem c),
     [SetControl (cpu_put c) v; GpuPut put]).
Proof. reflexivity. Qed.

Lemma pend_pushed c e t N ongoing :
  ch_inv c N ongoing → 0 < current_gpfifo_count c → pend (pushed c e t) = pend c ++ [(cpu_put c, e)].
Proof.
  intros Hinv Hc. pose proof (ch_inv_pend_length _ _ _ Hinv) as Hl.
  destruct Hinv as [Hnum Hlen Hput Hget Hroom _ _ _ _ _ _].
  apply pend_push; try done; lia.
Qed.

Lemma pend_values_bound c N ongoing x :
  ch_inv c N ongoing → x ∈ pend c →
  tracking_semaphore_value x.2 ≤ queued_value (tracking_sem c) + 1 ∧
  (is_Some (normal_of 0 x) → tracking_semaphore_value x.2 ≤ queued_value (tracking_sem c)).
Proof.
  intros Hinv Hx. pose proof (ci_ctrl _ _ _ Hinv) as Hc. rewrite Forall_forall in Hc. specialize (Hc x Hx).
  simpl in Hc. case_bool_decide; split; intros; try done; lia.
Qed.

(** The parts of the invariant that are the same for both kinds of entries. *)
Lemma pushed_inv c e t N ongoing ongoing' :
  ch_inv c N ongoing → 0 < current_gpfifo_count c →
  queued_value (tracking_sem c) ≤ queued_value t ≤ queued_value (tracking_sem c) + 1 →
  tracking_semaphore_value e = queued_value (tracking_sem c) + 1 →
  (is_Some (normal_of 0 (0, e)) → queued_value t = queued_value (tracking_sem c) + 1) →
  Z.of_nat (length ongoing') ≤ current_gpfifo_count c - 1 →
  np_value <$> normals (pushed c e t) = seqZ (queued_value t - Z.of_nat (length (normals (pushed c e t))) + 1)
    (Z.of_nat (length (normals (pushed c e t)))) →
  queued_value t - Z.of_nat (length (normals (pushed c e t))) ≤ completed_value t ≤ N ∧
    N ≤ queued_value t ∧ 0 ≤ completed_value t ∧ queued_value t < 2 ^ 64 →
  available_push_infos c ++ ongoing' ++ (np_info <$> normals (pushed c e t))
    ≡ₚ seq 0 (Z.to_nat (num_gpfifo_entries c)) →
  ch_inv (pushed c e t) N ongoing'.
Proof.
  intros Hinv Hcnt Ht He Hnorm Hong Hvals Hwin Hinfos.
  pose proof (pend_pushed c e t N ongoing Hinv Hcnt) as Hp.
  pose proof (λ x, pend_values_bound c N ongoing x Hinv) as Hb.
  pose proof Hinv as [Hnum Hlen Hput Hget Hroom _ _ Hsort Hctrl _ _].
  constructor; try done; rewrite ?Hp;
    cbn [pushed num_gpfifo_entries gpfifo_entries cpu_put gpu_get current_gpfifo_count tracking_sem] in *;
    rewrite ?u32_small by (unfold is_u32; lia).
  - by rewrite length_insert.
  - apply Z.mod_pos_bound. lia.
  - rewrite length_app. simpl. lia.
  - done.
  - apply sorted_snoc. split; [done|]. apply Forall_forall. intros x Hx. destruct (Hb x Hx) as [H1 H2].
    unfold value_before. simpl. rewrite He. split; [lia|]. intros Hn. specialize (H2 Hn). lia.
  - apply Forall_app. split.
    + eapply Forall_impl; [exact Hctrl|]. simpl. intros x Hx. case_bool_decide; lia.
    + apply Forall_singleton. simpl. rewrite He. case_bool_decide as Hn; [|lia].
      rewrite Hnorm; [lia|]. unfold normal_of in *. simpl in *. by destruct (entry_type e).
Qed.

Lemma normals_pushed c e t N ongoing :
  ch_inv c N ongoing → 0 < current_gpfifo_count c →
  normals (pushed c e t) = normals c ++ option_list (normal_of (gpfifo_entries_addr c) (cpu_put c, e)).
Proof.
  intros Hinv Hc. unfold normals. rewrite (pend_pushed c e t N ongoing Hinv Hc), omap_app.
  by f_equal.
Qed.

Lemma end_ch_inv offset size i c N ongoing ongoing' :
  ch_inv c N ongoing → ongoing ≡ₚ i :: ongoing' → queued_value (tracking_sem c) + 1 < 2 ^ 64 →
  ch_inv (run_st (uvm_channel_end_push offset size i) c) N ongoing' ∧
  normals (run_st (uvm_channel_end_push offset size i) c) =
    normals c ++ [NPush (queued_value (tracking_sem c) + 1) (entry_pb c (cpu_put c) offset size) i] ∧
  queued_value (tracking_sem (run_st (uvm_channel_end_push offset size i) c)) =
    queued_value (tracking_sem c) + 1.
Proof.
  intros Hinv Hong Hq. pose proof Hinv as [Hnum _ _ _ _ Hon Hvals _ _ Hwin Hinfos].
  assert (Z.of_nat (length ongoing) = Z.of_nat (length ongoing') + 1) as Hl by (rewrite Hong; simpl; lia).
  unfold run_st. rewrite end_push_run. cbn [fst snd].
  rewrite u64_small by (unfold is_u64; lia). set (q := queued_value (tracking_sem c)) in *.
  set (e := GpEntry _ _). set (t := TrackingSem _ _).
  assert (0 < current_gpfifo_count c) as Hcnt by lia.
  pose proof (normals_pushed c e t N ongoing Hinv Hcnt) as Hn. cbn in Hn.
  split_and!; [|done|done].
  apply (pushed_inv c e t N ongoing); try done; try (subst t e q; simpl; lia); rewrite Hn.
  - rewrite fmap_app, Hvals, length_app. subst t. simpl.
    replace (Z.of_nat (length (normals c) + 1)) with (Z.of_nat (length (normals c)) + 1) by lia.
    rewrite seqZ_app by lia. replace (q + 1 - (Z.of_nat (length (normals c)) + 1) + 1)
      with (q - Z.of_nat (length (normals c)) + 1) by lia.
    f_equal. replace (q - _ + 1 + _) with (q + 1) by lia. done.
  - rewrite length_app. subst t. simpl. lia.
  - rewrite fmap_app. simpl. rewrite <-Hinfos, Hong. simpl.
    apply Permutation_app_head. rewrite <-Permutation_cons_append. symmetry. apply Permutation_middle.
Qed.

Lemma ctrl_ch_inv v c N ongoing :
  ch_inv c N ongoing → Z.of_nat (length ongoing) < current_gpfifo_count c →
  queued_value (tracking_sem c) + 1 < 2 ^ 64 →
  ch_inv (run_st (write_ctrl_gpfifo v) c) N ongoing ∧
  normals (run_st (write_ctrl_gpfifo v) c) = normals c.
Proof.
  intros Hinv Hong Hq. pose proof Hinv as [Hnum _ _ _ _ Hon Hvals _ _ Hwin Hinfos].
  unfold run_st. rewrite write_ctrl_run. cbn [fst snd]. rewrite u64_small by (unfold is_u64; lia).
  set (e := GpEntry _ _). assert (0 < current_gpfifo_count c) as Hcnt by lia.
  pose proof (normals_pushed c e (tracking_sem c) N ongoing Hinv Hcnt) as Hn. cbn in Hn. rewrite app_nil_r in Hn.
  split; [|done]. apply (pushed_inv c e (tracking_sem c) N ongoing); rewrite ?Hn; try done; try lia.
  intros [? ?]. done.
Qed.

(** The tracking semaphore never lags by a whole ring. *)
Lemma ch_window c N ongoing :
  ch_inv c N ongoing →
  is_u64 (completed_value (tracking_sem c)) ∧ is_u64 N ∧
  completed_value (tracking_sem c) ≤ N < completed_value (tracking_sem c) + num_gpfifo_entries c.
Proof.
  intros [Hnum _ _ _ Hroom _ _ _ _ Hwin _]. unfold is_u64.
  assert (length (normals c) ≤ length (pend c))%nat by apply omap_length_le. lia.
Qed.

Lemma observe_ch_inv c N ongoing :
  ch_inv c N ongoing →
  update_completed_value_locked (u32 N) (tracking_sem c) = (N, TrackingSem N (queued_value (tracking_sem c))) ∧
  ch_inv (set_tracking (TrackingSem N (queued_value (tracking_sem c))) c) N ongoing.
Proof.
  intros Hinv. destruct (ch_window c N ongoing Hinv) as (H1 & H2 & H3).
  pose proof Hinv as [Hnum Hlen Hput Hget Hroom Hong Hvals Hsort Hctrl Hwin Hinfos]. split.
  - apply update_completed_exact; [done|done|lia].
  - constructor; try done. change (normals (set_tracking _ c)) with (normals c). simpl. lia.
Qed.

(** A channel after its oldest entry is retired. *)
Definition popped (c : uvm_channel_t) (e : uvm_gpfifo_entry_t) : uvm_channel_t :=
  set_gpu_get ((gpu_get c + 1) mod num_gpfifo_entries c)
    (match entry_type e with
     | UVM_GPFIFO_ENTRY_TYPE_NORMAL _ _ info => set_infos (λ l, l ++ [info]) c
     | UVM_GPFIFO_ENTRY_TYPE_CONTROL _ => c
     end).

Lemma popped_inv c e N ongoing :
  ch_inv c N ongoing → cpu_put c ≠ gpu_get c → gpfifo_entries c !! Z.to_nat (gpu_get c) = Some e →
  tracking_semaphore_value e ≤ completed_value (tracking_sem c) →
  ch_inv (popped c e) N ongoing ∧ pend c = (gpu_get c, e) :: pend (popped c e).
Proof.
  intros [Hnum Hlen Hput Hget Hroom Hong Hvals Hsort Hctrl Hwin Hinfos] Hne He Hv.
  assert (pend c = (gpu_get c, e) :: pend (popped c e)) as Hp.
  { apply pend_pop; try done; [lia|..]; unfold popped; by destruct (entry_type e). }
  split; [|done].
  assert (normals c = option_list (normal_of (gpfifo_entries_addr c) (gpu_get c, e)) ++ normals (popped c e)) as Hn.
  { unfold normals. rewrite Hp. simpl. unfold popped. destruct (normal_of _ _); by destruct (entry_type e). }
  assert (num_gpfifo_entries (popped c e) = num_gpfifo_entries c ∧ tracking_sem (popped c e) = tracking_sem c ∧
    current_gpfifo_count (popped c e) = current_gpfifo_count c ∧ cpu_put (popped c e) = cpu_put c ∧
    gpfifo_entries (popped c e) = gpfifo_entries c ∧
    gpu_get (popped c e) = (gpu_get c + 1) mod num_gpfifo_entries c) as (E1 & E2 & E3 & E4 & E5 & E6)
    by (unfold popped; by destruct (entry_type e)).
  rewrite Hp in Hroom, Hsort, Hctrl. apply StronglySorted_inv in Hsort as [Hsort _].
  apply Forall_cons in Hctrl as [_ Hctrl]. simpl in Hroom.
  constructor; rewrite ?E1, ?E2, ?E3, ?E4, ?E5, ?E6; try done; try lia; [by apply Z.mod_pos_bound; lia|..];
    rewrite Hn in Hvals, Hwin, Hinfos; unfold normal_of, popped in *; cbn [fst snd] in *;
    destruct (entry_type e) as [offset size info|ctl] eqn:Hty; unfold option_list in *; cbn [option_rect app] in *.
  - rewrite fmap_cons in Hvals. cbn [length] in Hvals. rewrite seqZ_cons in Hvals by lia.
    injection Hvals as _ Hvals. rewrite Hvals. f_equal; lia.
  - done.
  - rewrite fmap_cons in Hvals. cbn [length] in Hvals, Hwin. rewrite seqZ_cons in Hvals by lia.
    injection Hvals as Hval _. simpl in Hval. lia.
  - done.
  - rewrite <-Hinfos. simpl. rewrite <-(assoc_L (++)). apply Permutation_app_head. simpl. apply Permutation_middle.
  - done.
Qed.

Lemma pend_nil c N ongoing : ch_inv c N ongoing → gpu_get c = cpu_put c ↔ pend c = [].
Proof.
  intros Hinv. pose proof (ch_inv_pend_length _ _ _ Hinv) as Hl.
  destruct Hinv as [Hnum _ Hput Hget _ _ _ _ _ _ _].
  pose proof (ring_count_zero (num_gpfifo_entries c) ltac:(lia) (cpu_put c) (gpu_get c) Hput Hget) as Hz.
  split; intros H; [apply nil_length_inv; lia|]. rewrite H in Hl. simpl in Hl. lia.
Qed.

Definition mark_of (c : uvm_channel_t) (e : uvm_gpfifo_entry_t) : list ch_action :=
  match entry_type e with
  | UVM_GPFIFO_ENTRY_TYPE_NORMAL offset size _ => [PbMark (entry_pb c (gpu_get c) offset size)]
  | UVM_GPFIFO_ENTRY_TYPE_CONTROL _ => []
  end.

(** One round that retires an entry. *)
Lemma complete_entries_round mode v n c e :
  gpu_get c ≠ cpu_put c → gpfifo_entries c !! Z.to_nat (gpu_get c) = Some e →
  tracking_semaphore_value e ≤ v →
  let m := complete_entries mode v n in
  run_st (complete_entries mode v (S n)) c = run_st m (popped c e) ∧
  run_eff (complete_entries mode v (S n)) c = mark_of c e ++ run_eff m (popped c e).
Proof.
  intros Hne He Hv m. cbn [complete_entries]. rewrite run_st_get, run_eff_get.
  rewrite (proj2 (Z.eqb_neq _ _) Hne), He, (proj2 (Z.ltb_ge _ _) Hv), andb_false_r.
  unfold popped, mark_of. destruct (entry_type e);
    rewrite !run_st_bind, !run_eff_bind; done.
Qed.

(** What a pass of the loop over the channel does: the entries at the head that
    have a value up to [v] leave the queue, at most [n] of them, and their
    pushes are marked completed in order. *)
Lemma complete_entries_spec v n c N ongoing :
  ch_inv c N ongoing → v ≤ completed_value (tracking_sem c) →
  let m := complete_entries UVM_CHANNEL_UPDATE_MODE_COMPLETED v n in
  ch_inv (run_st m c) N ongoing ∧
  pend (run_st m c) = retire v n (pend c) ∧
  np_pb <$> normals c = marks (run_eff m c) ++ (np_pb <$> normals (run_st m c)) ∧
  ends (run_eff m c) = [] ∧
  tracking_sem (run_st m c) = tracking_sem c ∧ current_gpfifo_count (run_st m c) = current_gpfifo_count c ∧
  cpu_put (run_st m c) = cpu_put c ∧ num_gpfifo_entries (run_st m c) = num_gpfifo_entries c.
Proof.
  revert c. induction n as [|n IH]; intros c Hinv Hv; [done|]. cbn zeta in *.
  destruct (Z.eq_dec (gpu_get c) (cpu_put c)) as [Heq|Hne].
  { cbn [complete_entries]. rewrite run_st_get, run_eff_get, (proj2 (Z.eqb_eq _ _) Heq).
    apply (pend_nil c N ongoing Hinv) in Heq. change (run_st skip c) with c. by rewrite Heq. }
  destruct (lookup_lt_is_Some_2 (gpfifo_entries c) (Z.to_nat (gpu_get c))) as [e He].
  { pose proof (ci_get _ _ _ Hinv). pose proof (ci_len _ _ _ Hinv). lia. }
  pose proof (ci_num _ _ _ Hinv) as Hnum.
  assert (pend c = (gpu_get c, e) :: pend (popped c e)) as Hp.
  { apply pend_pop; try done; try apply Hinv; [lia|..]; unfold popped; by destruct (entry_type e). }
  destruct (Z.le_gt_cases (tracking_semaphore_value e) v) as [Hle|Hlt]; last first.
  { cbn [complete_entries]. rewrite run_st_get, run_eff_get, (proj2 (Z.eqb_neq _ _) Hne), He. cbn [andb].
    rewrite (proj2 (Z.ltb_lt _ _) Hlt). change (run_st skip c) with c. rewrite Hp. simpl.
    by rewrite (proj2 (Z.leb_gt _ _) Hlt). }
  destruct (complete_entries_round UVM_CHANNEL_UPDATE_MODE_COMPLETED v n c e Hne He Hle) as [-> ->].
  destruct (popped_inv c e N ongoing Hinv) as [Hinv' _]; [done|done|lia|].
  assert (tracking_sem (popped c e) = tracking_sem c ∧ current_gpfifo_count (popped c e) = current_gpfifo_count c ∧
    cpu_put (popped c e) = cpu_put c ∧ num_gpfifo_entries (popped c e) = num_gpfifo_entries c ∧
    gpfifo_entries_addr (popped c e) = gpfifo_entries_addr c) as (E1 & E2 & E3 & E4 & E5)
    by (unfold popped; by destruct (entry_type e)).
  destruct (IH (popped c e) Hinv') as (H1 & H2 & H3 & H4 & H5 & H6 & H7 & H8); [by rewrite E1|].
  split_and!; try congruence.
  - rewrite H2, Hp. simpl. by rewrite (proj2 (Z.leb_le _ _) Hle).
  - unfold marks. rewrite omap_app. fold (marks (run_eff (complete_entries UVM_CHANNEL_UPDATE_MODE_COMPLETED v n) (popped c e))).
    rewrite <-(assoc_L (++)), <-H3. unfold normals. rewrite Hp, E5. csimpl. unfold normal_of, mark_of.
    cbn [fst snd]. destruct (entry_type e); csimpl; done.
  - unfold ends in *. rewrite omap_app, H4. unfold mark_of. by destruct (entry_type e).
Qed.

Lemma begin_run c i l :
  available_push_infos c = i :: l →
  channel_get_available_push_info_index c = (Some i, set_infos (λ _, l) c, []).
Proof.
  intros Hl. unfold channel_get_available_push_info_index. rewrite run_gets, Hl. reflexivity.
Qed.

Lemma ends_app es es' : ends (es ++ es') = ends es ++ ends es'.
Proof. apply omap_app. Qed.

Lemma marks_app es es' : marks (es ++ es') = marks es ++ marks es'.
Proof. apply omap_app. Qed.

(** A step that leaves the queue and the pushbuffer alone. *)
Lemma cs_inv_quiet {A} (m : M A) ongoing s :
  cs_inv s → run_eff m (cs_chan s) = [] →
  normals (run_st m (cs_chan s)) = normals (cs_chan s) →
  queued_value (tracking_sem (run_st m (cs_chan s))) = queued_value (tracking_sem (cs_chan s)) →
  ch_inv (run_st m (cs_chan s)) (cs_N s) ongoing →
  cs_inv (cs_run m ongoing s).
Proof.
  intros (_ & Hfifo & Hlen) Heff Hn Hq Hinv. unfold cs_run. rewrite Heff.
  split_and!; simpl; [done|..]; rewrite !app_nil_r, ?Hn, ?Hq; done.
Qed.

Lemma ch_step_inv s s' : ch_step s s' → cs_inv s → cs_inv s'.
Proof.
  intros Hs Hinv. pose proof Hinv as (Hc & Hfifo & Hlen).
  destruct Hs as [n rt s Hn|i s Ho Hi|offset size i ongoing s Ho Hq|v s Ho Hq|n s Hn Ho|s HN|s|v s|v n s Hv|b s].
  - apply cs_inv_quiet; [done|apply claim_no_marks| | |by apply claim_ch_inv];
      unfold try_claim_channel; rewrite run_st_get; destruct (_ && _); try done; by destruct (_ <=? _).
  - destruct (available_push_infos (cs_chan s)) as [|j l] eqn:Hl.
    { by eapply push_info_available in Hl. }
    pose proof (begin_run _ _ _ Hl) as Hrun. unfold run_val in Hi. rewrite Hrun in Hi. simplify_eq/=.
    apply cs_inv_quiet; unfold run_eff, run_st; rewrite ?Hrun; try done. by apply begin_ch_inv.
  - destruct (end_ch_inv offset size i (cs_chan s) (cs_N s) _ ongoing Hc Ho Hq) as (Hinv' & Hn & Hqv).
    unfold cs_run, cs_inv. cbn [cs_chan cs_N cs_ongoing cs_ended cs_marked].
    unfold run_eff. rewrite end_push_run, Hn, Hqv. split_and!; [done| |].
    + cbn. rewrite Hfifo, app_nil_r, fmap_app. by rewrite <-(assoc_L (++)).
    + cbn. rewrite length_app. simpl. lia.
  - destruct (ctrl_ch_inv v (cs_chan s) (cs_N s) _ Hc Ho Hq) as [Hinv' Hn].
    unfold cs_run, cs_inv. cbn [cs_chan cs_N cs_ongoing cs_ended cs_marked].
    unfold run_eff. rewrite write_ctrl_run, Hn. cbn. rewrite !app_nil_r. done.
  - apply cs_inv_quiet; [done..|]. by apply release_ch_inv.
  - split_and!; [|done|done]. destruct Hc. constructor; simpl; try done; lia.
  - destruct (observe_ch_inv _ _ _ Hc) as [Hu Hinv'].
    apply cs_inv_quiet; unfold run_eff, run_st, uvm_channel_update_completed_value; rewrite ?Hu; done.
  - destruct (observe_ch_inv _ _ _ Hc) as [Hu Hinv'].
    apply cs_inv_quiet; [done|..]; unfold run_eff, run_st, uvm_channel_is_value_completed,
      uvm_gpu_tracking_semaphore_is_value_completed; rewrite ?Hu;
      destruct (v <=? completed_value (tracking_sem (cs_chan s))); try done.
    by destruct (cs_chan s).
  - destruct (complete_entries_spec v n _ _ _ Hc Hv) as (H1 & _ & H3 & H4 & H5 & _).
    unfold cs_run, cs_inv, update_progress_locked. cbn [cs_chan cs_N cs_ongoing cs_ended cs_marked].
    rewrite run_st_bind, run_eff_bind. change (run_st (gets pending_count) ?c) with c.
    change (run_eff (gets pending_count) ?c) with (@nil ch_action).
    rewrite app_nil_r, H4, app_nil_r, H5. split_and!; [done| |done].
    by rewrite Hfifo, H3, (assoc_L (++)).
  - apply cs_inv_quiet; [done..|]. destruct Hc. by constructor.
Qed.

Lemma ch_init_inv num addr : 2 ≤ Z.of_nat num ≤ 1024 * 1024 → cs_inv (ch_init num addr).
Proof.
  intros Hnum. unfold cs_inv, ch_init. cbn [cs_chan cs_N cs_ongoing cs_ended cs_marked].
  assert (pend (channel_create num addr) = []) as Hp.
  { unfold pend, pend_slots, ring_count. cbn [channel_create num_gpfifo_entries cpu_put gpu_get].
    rewrite Z.sub_diag, Z.mod_0_l by lia. done. }
  assert (normals (channel_create num addr) = []) as Hn by (unfold normals; by rewrite Hp).
  rewrite Hn. split_and!; [|done|done].
  constructor; rewrite ?Hp, ?Hn; cbn [channel_create num_gpfifo_entries gpfifo_entries cpu_put gpu_get
    current_gpfifo_count tracking_sem available_push_infos completed_value queued_value length];
    rewrite ?length_replicate, ?app_nil_r, ?Nat2Z.id; try done; try lia; constructor.
Qed.

Lemma ch_reachable_inv num addr s :
  2 ≤ Z.of_nat num ≤ 1024 * 1024 → rtc ch_step (ch_init num addr) s → cs_inv s.
Proof.
  intros Hnum Hr. pose proof (ch_init_inv num addr Hnum) as H0. revert H0.
  induction Hr; eauto using ch_step_inv.
Qed.

(** A run: two entries reserved, a push begun and ended, and completed by the
    GPU. *)
Definition ex_channel : ch_state :=
  let s := ch_init 32 4096 in
  let s := cs_run (try_claim_channel 2 UVM_CHANNEL_RESERVE_NO_P2P) [] s in
  let s := cs_run channel_get_available_push_info_index [0%nat] s in
  let s := cs_run (uvm_channel_end_push 0 64 0) [] s in
  ChState (cs_chan s) 1 [] (cs_ended s) (cs_marked s).

Lemma ex_channel_reachable : rtc ch_step (ch_init 32 4096) ex_channel.
Proof.
  eapply rtc_l; [apply (ch_claim 2 UVM_CHANNEL_RESERVE_NO_P2P); lia|].
  eapply rtc_l; [apply (ch_begin 0); vm_compute; done|].
  eapply rtc_l; [apply (ch_end 0 64 0 []); vm_compute; done|].
  eapply rtc_l; [apply ch_gpu; vm_compute; done|].
  apply rtc_refl.
Qed.

(** C10: a channel is a queue. However reservations, pushes, control entries,
    completions and the GPU interleave, the pushes marked completed followed by
    those pending are the pushes that ended, in order: each is marked once, only
    after the GPU released its value. Pending and reserved entries never fill
    the ring. *)
Theorem channel_fifo num addr s (Hnum : 2 ≤ Z.of_nat num ≤ 1024 * 1024)
    (Hreach : rtc ch_step (ch_init num addr) s) :
  cs_ended s = cs_marked s ++ (np_pb <$> normals (cs_chan s)) ∧
  Z.of_nat (length (cs_marked s)) ≤ cs_N s ≤ Z.of_nat (length (cs_ended s)) ∧
  Z.of_nat (length (pend (cs_chan s))) + current_gpfifo_count (cs_chan s) ≤
    num_gpfifo_entries (cs_chan s) - 1.
Proof.
  destruct (ch_reachable_inv num addr s Hnum Hreach) as (Hc & Hfifo & Hlen).
  destruct Hc as [_ _ _ _ Hroom _ _ _ _ Hwin _]. split_and!; [done| |lia|lia].
  pose proof (f_equal length Hfifo) as Hl. rewrite length_app, length_fmap in Hl. lia.
Qed.

Lemma channel_fifo_witness :
  cs_ended ex_channel = cs_marked ex_channel ++ (np_pb <$> normals (cs_chan ex_channel)) ∧
  Z.of_nat (length (cs_marked ex_channel)) ≤ cs_N ex_channel ≤ Z.of_nat (length (cs_ended ex_channel)) ∧
  Z.of_nat (length (pend (cs_chan ex_channel))) + current_gpfifo_count (cs_chan ex_channel) ≤
    num_gpfifo_entries (cs_chan ex_channel) - 1.
Proof. apply (channel_fifo 32 4096 ex_channel); [lia|apply ex_channel_reachable]. Defined.

Definition UVM_CHANNEL_NUM_GPFIFO_ENTRIES_MAX : Z := 1024 * 1024.
Definition UVM_GPU_SEMAPHORE_MAX_JUMP : Z := 2 * UVM_CHANNEL_NUM_GPFIFO_ENTRIES_MAX.

(** C26: what the code asserts of a channel holds in every reachable state: the
    semaphore advances by at most UVM_GPU_SEMAPHORE_MAX_JUMP between two looks
    and never past the queued value, a look recovers the exact 64-bit value,
    the available count is that of the empty slots, and a thread with a
    reservation finds a push info. *)
Theorem channel_assertions_hold num addr s (Hnum : 2 ≤ Z.of_nat num ≤ 1024 * 1024)
    (Hreach : rtc ch_step (ch_init num addr) s) :
  let c := cs_chan s in
  let v := (update_completed_value_locked (u32 (cs_N s)) (tracking_sem c)).1 in
  v = cs_N s ∧ 0 ≤ v - completed_value (tracking_sem c) ≤ UVM_GPU_SEMAPHORE_MAX_JUMP ∧
  v ≤ queued_value (tracking_sem c) ∧
  channel_get_available_gpfifo_entries c =
    num_gpfifo_entries c - 1 - current_gpfifo_count c - Z.of_nat (length (pend c)) ∧
  channel_get_available_gpfifo_entries c < num_gpfifo_entries c ∧
  (Z.of_nat (length (cs_ongoing s)) < current_gpfifo_count c → available_push_infos c ≠ []).
Proof.
  destruct (ch_reachable_inv num addr s Hnum Hreach) as (Hc & _ & _). cbn zeta.
  destruct (observe_ch_inv _ _ _ Hc) as [-> _]. cbn [fst].
  pose proof (ch_window _ _ _ Hc) as (_ & _ & Hw). pose proof (ci_num _ _ _ Hc).
  pose proof (ci_window _ _ _ Hc). pose proof (ci_room _ _ _ Hc). rewrite (available_exact _ _ _ Hc).
  unfold UVM_GPU_SEMAPHORE_MAX_JUMP, UVM_CHANNEL_NUM_GPFIFO_ENTRIES_MAX.
  split_and!; [done|lia|lia|lia|done|lia|by eapply push_info_available].
Qed.

Lemma channel_assertions_hold_witness :
  let c := cs_chan ex_channel in
  let v := (update_completed_value_locked (u32 (cs_N ex_channel)) (tracking_sem c)).1 in
  v = cs_N ex_channel ∧ 0 ≤ v - completed_value (tracking_sem c) ≤ UVM_GPU_SEMAPHORE_MAX_JUMP ∧
  v ≤ queued_value (tracking_sem c) ∧
  channel_get_available_gpfifo_entries c =
    num_gpfifo_entries c - 1 - current_gpfifo_count c - Z.of_nat (length (pend c)) ∧
  channel_get_available_gpfifo_entries c < num_gpfifo_entries c ∧
  (Z.of_nat (length (cs_ongoing ex_channel)) < current_gpfifo_count c → available_push_infos c ≠ []).
Proof. apply (channel_assertions_hold 32 4096 ex_channel); [lia|apply ex_channel_reachable]. Defined.

(** ** Progress *)

Lemma update_progress_spec n c N ongoing :
  ch_inv c N ongoing →
  let m := uvm_channel_update_progress_with_max (u32 N) n UVM_CHANNEL_UPDATE_MODE_COMPLETED in
  ch_inv (run_st m c) N ongoing ∧
  pend (run_st m c) = retire N n (pend c) ∧
  run_val m c = Z.of_nat (length (pend (run_st m c))) ∧
  np_pb <$> normals c = marks (run_eff m c) ++ (np_pb <$> normals (run_st m c)) ∧
  completed_value (tracking_sem (run_st m c)) = N ∧
  queued_value (tracking_sem (run_st m c)) = queued_value (tracking_sem c) ∧
  current_gpfifo_count (run_st m c) = current_gpfifo_count c ∧
  num_gpfifo_entries (run_st m c) = num_gpfifo_entries c.
Proof.
  intros Hinv. cbn zeta. destruct (observe_ch_inv _ _ _ Hinv) as [Hu Hinv'].
  set (c1 := set_tracking _ c) in Hinv'. set (k := complete_entries UVM_CHANNEL_UPDATE_MODE_COMPLETED N n).
  assert (uvm_channel_update_progress_with_max (u32 N) n UVM_CHANNEL_UPDATE_MODE_COMPLETED c =
    (pending_count (run_st k c1), run_st k c1, run_eff k c1)) as Hrun.
  { rewrite <-(app_nil_l (run_eff k c1)).
    eapply run_bind_eq; [unfold uvm_channel_update_completed_value; by rewrite Hu|].
    unfold update_progress_locked. rewrite run_bind. simpl. by rewrite app_nil_r. }
  destruct (complete_entries_spec N n c1 N ongoing Hinv') as (H1 & H2 & H3 & H4 & H5 & H6 & H7 & H8); [done|].
  unfold run_st at 1 2 3 4 5 6 7 8, run_val, run_eff at 1. rewrite Hrun. cbn [fst snd]. fold k in H1, H2, H3, H5, H6, H8.
  split_and!; [done|done| |done|by rewrite H5|by rewrite H5|by rewrite H6|by rewrite H8].
  rewrite (ch_inv_pend_length _ _ _ H1), ring_count_cases; [done|..]; destruct H1; lia.
Qed.

(** No entry the GPU has completed is left by a pass without limit. *)
Lemma retire_all v n l : (length l ≤ n)%nat →
  match head (retire v n l) with
  | Some x => v < tracking_semaphore_value x.2
  | None => True
  end.
Proof.
  revert l. induction n as [|n IH]; intros [|x l] Hl; simpl in *; try done; [lia|].
  destruct (Z.leb_spec (tracking_semaphore_value x.2) v); [apply IH; lia|done].
Qed.

Lemma retire_suffix v n l : ∃ k, (k ≤ n)%nat ∧ l = take k l ++ retire v n l ∧
  Forall (λ x, tracking_semaphore_value x.2 ≤ v) (take k l).
Proof.
  revert l. induction n as [|n IH]; intros l; [by exists 0%nat|]. destruct l as [|x l]; [by exists 0%nat; split; [lia|]|].
  simpl. destruct (Z.leb_spec (tracking_semaphore_value x.2) v) as [Hle|]; [|by exists 0%nat; split; [lia|]].
  destruct (IH l) as (k & Hk & Hl & Hall). exists (S k). split; [lia|]. simpl. split; [by f_equal|by constructor].
Qed.

(** A pass of uvm_channel_update_progress retires, oldest first, exactly the
    entries at the head of the queue whose value the GPU has released, up to
    its limit, marks their pushes completed in that order and returns how many
    entries are left; the pass over the whole ring leaves no entry that the GPU
    has completed at the head. *)
Theorem channel_progress_exact num addr s n (Hnum : 2 ≤ Z.of_nat num ≤ 1024 * 1024)
    (Hreach : rtc ch_step (ch_init num addr) s) :
  let c := cs_chan s in
  let m := uvm_channel_update_progress_with_max (u32 (cs_N s)) n UVM_CHANNEL_UPDATE_MODE_COMPLETED in
  let c' := run_st m c in
  pend c' = retire (cs_N s) n (pend c) ∧
  run_val m c = Z.of_nat (length (pend c')) ∧
  np_pb <$> normals c = marks (run_eff m c) ++ (np_pb <$> normals c') ∧
  (num_gpfifo_entries c ≤ Z.of_nat n →
     match head (pend c') with Some x => cs_N s < tracking_semaphore_value x.2 | None => True end).
Proof.
  destruct (ch_reachable_inv num addr s Hnum Hreach) as (Hc & _ & _). cbn zeta.
  destruct (update_progress_spec n _ _ _ Hc) as (_ & H2 & H3 & H4 & _).
  split_and!; [done|done|done|]. intros Hn. rewrite H2. apply retire_all.
  pose proof (ci_room _ _ _ Hc). lia.
Qed.

Lemma channel_progress_exact_witness :
  let c := cs_chan ex_channel in
  let m := uvm_channel_update_progress_with_max 1 8 UVM_CHANNEL_UPDATE_MODE_COMPLETED in
  let c' := run_st m c in
  pend c' = retire 1 8 (pend c) ∧
  run_val m c = Z.of_nat (length (pend c')) ∧
  np_pb <$> normals c = marks (run_eff m c) ++ (np_pb <$> normals c') ∧
  (num_gpfifo_entries c ≤ 8 →
     match head (pend c') with Some x => 1 < tracking_semaphore_value x.2 | None => True end).
Proof. apply (channel_progress_exact 32 4096 ex_channel 8); [lia|apply ex_channel_reachable]. Defined.

(** ** Reservations end *)

Lemma claim_run n c :
  try_claim_channel n UVM_CHANNEL_RESERVE_NO_P2P c =
    if n <=? channel_get_available_gpfifo_entries c
    then (true, set_count (λ k, u32 (k + n)) c, []) else (false, c, []).
Proof. unfold try_claim_channel. rewrite run_get. simpl. by destruct (_ <=? _). Qed.

Lemma check_errors_ok e payload c :
  ee_status e = 0 → uvm_channel_check_errors e payload c = (NV_OK, c, []).
Proof. intros He. unfold uvm_channel_check_errors, uvm_channel_get_status. by rewrite He. Qed.

Lemma retire_length v n l : (length (retire v n l) ≤ length l)%nat.
Proof.
  destruct (retire_suffix v n l) as (k & _ & Hl & _). rewrite Hl at 2. rewrite length_app. lia.
Qed.

Lemma retire_head v n x l :
  tracking_semaphore_value x.2 ≤ v → (length (retire v (S n) (x :: l)) ≤ length l)%nat.
Proof. intros Hv. simpl. rewrite (proj2 (Z.leb_le _ _) Hv). apply retire_length. Qed.

(** The GPU may release more values meanwhile. *)
Lemma ch_inv_N c N N' ongoing :
  ch_inv c N ongoing → N ≤ N' ≤ queued_value (tracking_sem c) → ch_inv c N' ongoing.
Proof. intros [] HN. constructor; try done; lia. Qed.

Section reserve.
Context (rounds : nat → round) (Ns : nat → Z) (K : nat) (q n : Z) (ongoing : list nat).
Context (Hothers : ∀ k c, rd_others (rounds k) c = c) (Herr : ∀ k, ee_status (rd_err (rounds k)) = 0).
Context (Hpayload : ∀ k, rd_payload (rounds k) = u32 (Ns k)).
Context (Hmono : ∀ k, Ns k ≤ Ns (S k)) (Hbound : ∀ k, Ns k ≤ q) (Hdone : ∀ k, (K ≤ k)%nat → Ns k = q).
Context (Hn : 0 < n).

(** A channel on which no control entry waits for a push to follow. *)
Record waiting (c : uvm_channel_t) (N : Z) : Prop := {
  wt_inv : ch_inv c N ongoing;
  wt_queued : queued_value (tracking_sem c) = q;
  wt_vals : Forall (λ x, tracking_semaphore_value x.2 ≤ q) (pend c);
  wt_room : current_gpfifo_count c + n ≤ num_gpfifo_entries c - 1 }.

(** A round of progress. *)
Lemma waiting_progress c N k :
  waiting c N → N ≤ Ns k → pend c ≠ [] →
  let c' := run_st (uvm_channel_update_progress (rd_payload (rounds k))) c in
  waiting c' (Ns k) ∧ current_gpfifo_count c' = current_gpfifo_count c ∧
  (length (pend c') ≤ length (pend c))%nat ∧
  ((K ≤ k)%nat → (length (pend c') < length (pend c))%nat).
Proof.
  intros [Hinv Hq Hvals Hroom] HN Hne. cbn zeta. rewrite Hpayload.
  assert (ch_inv c (Ns k) ongoing) as Hinv' by (eapply ch_inv_N; [done|rewrite Hq; split; [done|apply Hbound]]).
  destruct (update_progress_spec 8 c (Ns k) ongoing Hinv') as (H1 & H2 & _ & _ & _ & H6 & H7 & H8).
  unfold uvm_channel_update_progress. destruct (retire_suffix (Ns k) 8 (pend c)) as (j & _ & Hl & _).
  split_and!; [|done|rewrite H2; apply retire_length|].
  - constructor; [done|by rewrite H6| |by rewrite H7, H8]. rewrite H2.
    rewrite Hl in Hvals. by apply Forall_app in Hvals as [_ ?].
  - intros HK. rewrite H2, (Hdone k HK). destruct (pend c) as [|x l]; [done|].
    apply Forall_cons in Hvals as [Hx _]. pose proof (retire_head q 7 x l Hx). simpl in *. lia.
Qed.

Lemma reserve_loop_ends fuel k c N :
  waiting c N → N ≤ Ns k → (K - k + length (pend c) < fuel)%nat →
  run_val (reserve_loop rounds fuel k n NV_OK) c = Some NV_OK ∧
  current_gpfifo_count (run_st (reserve_loop rounds fuel k n NV_OK) c) = current_gpfifo_count c + n.
Proof.
  revert k c N. induction fuel as [|fuel IH]; intros k c N Hw HN Hfuel; [lia|].
  pose proof Hw as [Hinv Hq Hvals Hroom]. pose proof (ci_room _ _ _ Hinv). pose proof (ci_num _ _ _ Hinv).
  unfold run_val, run_st. cbn [reserve_loop]. rewrite !run_modify, !Hothers.
  pose proof (claim_run n c) as Hclaim. rewrite (available_exact _ _ _ Hinv) in Hclaim.
  destruct (Z.leb_spec n (num_gpfifo_entries c - 1 - current_gpfifo_count c - Z.of_nat (length (pend c)))) as [Hle|Hlt].
  { erewrite !run_bind_eq; [|exact Hclaim|reflexivity]. simpl. rewrite u32_small by (unfold is_u32; lia). done. }
  assert (pend c ≠ []) as Hne by (intros Hnil; rewrite Hnil in Hlt; simpl in Hlt; lia).
  destruct (waiting_progress c N k Hw HN Hne) as (Hw' & Hcnt & Hlen & Hdec).
  set (c' := run_st _ c) in *.
  destruct (IH (S k) c' (Ns k) Hw' (Hmono k)) as [Hv Hst].
  { destruct (decide (K ≤ k)%nat) as [HK|]; [specialize (Hdec HK)|]; lia. }
  destruct (reserve_loop rounds fuel (S k) n NV_OK c') as [[v c2] es2] eqn:Hloop.
  unfold run_val, run_st in Hv, Hst. rewrite Hloop in Hv, Hst. simpl in Hv, Hst.
  erewrite !run_bind_eq; [|exact Hclaim|]; [|cbn [negb andb]; rewrite Z.eqb_refl;
    eapply run_bind_eq; [by apply check_errors_ok|]; eapply run_bind_eq; [apply run_eta|exact Hloop]].
  simpl. rewrite <-Hcnt. done.
Qed.
End reserve.

(** A reservation ends. If nobody else uses the channel meanwhile, no error
    is reported, the GPU eventually releases everything queued and no control
    entry lacks its push, a request for entries that fit beside the reserved
    ones is granted within the rounds the GPU needs plus one per pending
    entry. *)
Theorem channel_reserve_terminates num addr s n rounds Ns K fuel
    (Hnum : 2 ≤ Z.of_nat num ≤ 1024 * 1024) (Hreach : rtc ch_step (ch_init num addr) s)
    (c := cs_chan s) (q := queued_value (tracking_sem c))
    (Hn : 0 < n ∧ current_gpfifo_count c + n ≤ num_gpfifo_entries c - 1)
    (Hvals : Forall (λ x, tracking_semaphore_value x.2 ≤ q) (pend c))
    (Hothers : ∀ k c, rd_others (rounds k) c = c) (Herr : ∀ k, ee_status (rd_err (rounds k)) = 0)
    (Hpayload : ∀ k, rd_payload (rounds k) = u32 (Ns k))
    (HNs : cs_N s ≤ Ns 0%nat ∧ (∀ k, Ns k ≤ Ns (S k)) ∧ (∀ k, Ns k ≤ q) ∧ (∀ k, (K ≤ k)%nat → Ns k = q))
    (Hfuel : (K + length (pend c) < fuel)%nat) :
  run_val (uvm_channel_reserve rounds fuel n) c = Some NV_OK ∧
  current_gpfifo_count (run_st (uvm_channel_reserve rounds fuel n) c) = current_gpfifo_count c + n.
Proof.
  destruct (ch_reachable_inv num addr s Hnum Hreach) as (Hinv & _ & _). fold c in Hinv.
  destruct HNs as (HN0 & Hmono & Hbound & Hdone). destruct Hn as [Hn Hroom].
  pose proof (ci_room _ _ _ Hinv). pose proof (ci_num _ _ _ Hinv).
  assert (waiting q n (cs_ongoing s) c (cs_N s)) as Hw by by constructor.
  unfold run_val, run_st, uvm_channel_reserve. pose proof (claim_run n c) as Hclaim.
  rewrite (available_exact _ _ _ Hinv) in Hclaim.
  destruct (Z.leb_spec n (num_gpfifo_entries c - 1 - current_gpfifo_count c - Z.of_nat (length (pend c)))) as [Hle|Hlt].
  { erewrite !run_bind_eq; [|exact Hclaim|reflexivity]. simpl. rewrite u32_small by (unfold is_u32; lia). done. }
  assert (pend c ≠ []) as Hne by (intros Hnil; rewrite Hnil in Hlt; simpl in Hlt; lia).
  destruct (waiting_progress rounds Ns K q n (cs_ongoing s) Hpayload Hbound Hdone c (cs_N s) 0 Hw HN0 Hne)
    as (Hw' & Hcnt & Hlen & Hdec). set (c' := run_st _ c) in *.
  destruct (reserve_loop_ends rounds Ns K q n (cs_ongoing s) Hothers Herr Hpayload Hmono Hbound Hdone
    Hn fuel 1 c' (Ns 0%nat) Hw' (Hmono 0%nat)) as [Hv Hst].
  { lia. }
  destruct (reserve_loop rounds fuel 1 n NV_OK c') as [[v c2] es2] eqn:Hloop.
  unfold run_val, run_st in Hv, Hst. rewrite Hloop in Hv, Hst. simpl in Hv, Hst.
  erewrite !run_bind_eq; [|exact Hclaim|]; [|eapply run_bind_eq; [apply run_eta|exact Hloop]].
  simpl. by rewrite <-Hcnt.
Qed.

(** A reservation of all but one of the entries of a channel with a pending push
    that the GPU has not completed at first. *)
Definition ex_rounds (k : nat) : round := Round (if (k =? 0)%nat then 0 else 1) (ErrEnv 0 false false) NV_OK id.

Definition ex_pending : ch_state :=
  cs_run (uvm_channel_release 1) []
    (let s := ex_channel in ChState (cs_chan s) 0 [] (cs_ended s) (cs_marked s)).

Lemma ex_pending_reachable : rtc ch_step (ch_init 32 4096) ex_pending.
Proof.
  eapply rtc_l; [apply (ch_claim 2 UVM_CHANNEL_RESERVE_NO_P2P); lia|].
  eapply rtc_l; [apply (ch_begin 0); vm_compute; done|].
  eapply rtc_l; [apply (ch_end 0 64 0 []); vm_compute; done|].
  eapply rtc_l; [apply (ch_release 1); vm_compute; done|].
  apply rtc_refl.
Qed.

Lemma channel_reserve_terminates_witness :
  run_val (uvm_channel_reserve ex_rounds 3 31) (cs_chan ex_pending) = Some NV_OK ∧
  current_gpfifo_count (run_st (uvm_channel_reserve ex_rounds 3 31) (cs_chan ex_pending)) = 31.
Proof.
  apply (channel_reserve_terminates 32 4096 ex_pending 31 ex_rounds
    (λ k, if (k =? 0)%nat then 0 else 1) 1 3); try done.
  - apply ex_pending_reachable.
  - vm_compute. by repeat constructor.
  - intros k. by destruct k.
  - split_and!; [done| | |]; intros k; destruct k; vm_compute; try done; lia.
  - vm_compute. lia.
Defined.

(** ** Suspending peer traffic *)

(** Suspending a channel on which an error is reported releases entries it
    never reserved: the reserved count wraps below zero, and the channel then
    offers a ring's worth of entries more than it has. *)
Theorem channel_suspend_error_underflows rounds fuel c N ongoing e c1 es
    (Hres : uvm_channel_reserve rounds fuel (num_gpfifo_entries c - 1) c = (Some e, c1, es))
    (He : e ≠ NV_OK) (Hinv : ch_inv c1 N ongoing) (Hcnt : current_gpfifo_count c1 = 0)
    (Hnum : num_gpfifo_entries c1 = num_gpfifo_entries c) :
  let c' := run_st (channel_suspend_p2p rounds fuel) c in
  current_gpfifo_count c' = 2 ^ 32 - (num_gpfifo_entries c - 1) ∧
  channel_get_available_gpfifo_entries c' =
    2 * (num_gpfifo_entries c - 1) - Z.of_nat (length (pend c1)).
Proof.
  pose proof Hinv as [Hn Hlen Hput Hget Hroom _ _ _ _ _ _]. cbn zeta.
  assert (run_st (channel_suspend_p2p rounds fuel) c = set_count (λ k, u32 (k - (num_gpfifo_entries c - 1))) c1) as ->.
  { unfold run_st, channel_suspend_p2p. rewrite run_gets. erewrite run_bind_eq; [|exact Hres|].
    2:{ cbn beta iota. rewrite (proj2 (Z.eqb_neq _ _) He). reflexivity. } done. }
  assert (u32 (current_gpfifo_count c1 - (num_gpfifo_entries c - 1)) = 2 ^ 32 - (num_gpfifo_entries c - 1)) as Hu.
  { rewrite Hcnt. unfold u32. zify_divmod. }
  simpl. rewrite Hu. split; [done|]. unfold channel_get_available_gpfifo_entries. simpl. rewrite Hu.
  rewrite (ch_inv_pend_length _ _ _ Hinv), ring_count_cases in * by lia. rewrite Hnum in *.
  destruct (Z.leb_spec (gpu_get c1) (cpu_put c1)); unfold u32; zify_divmod.
Qed.

Definition ex_error_rounds (k : nat) : round := Round 0 (ErrEnv 1 false false) NV_OK id.

Lemma channel_suspend_error_underflows_witness :
  let c := cs_chan ex_pending in
  let c' := run_st (channel_suspend_p2p ex_error_rounds 3) c in
  current_gpfifo_count c' = 2 ^ 32 - (num_gpfifo_entries c - 1) ∧
  channel_get_available_gpfifo_entries c' = 2 * (num_gpfifo_entries c - 1) - Z.of_nat (length (pend c)).
Proof.
  apply (channel_suspend_error_underflows ex_error_rounds 3 (cs_chan ex_pending) 0 [] NV_ERR_RC_ERROR
    (cs_chan ex_pending) [SetFatal NV_ERR_RC_ERROR]);
    [vm_compute; reflexivity|done| |vm_compute; reflexivity|reflexivity].
  apply (ch_reachable_inv 32 4096 ex_pending); [lia|apply ex_pending_reachable].
Defined.

Definition keeps_suspended : relation uvm_channel_t := λ c c', suspended_p2p c' = suspended_p2p c.

#[local] Instance keeps_suspended_preorder : PreOrder keeps_suspended.
Proof. split; [by intros c|]. intros a b c H1 H2. unfold keeps_suspended in *. congruence. Qed.

Lemma complete_entries_keeps mode v n : steps keeps_suspended (complete_entries mode v n).
Proof. induction n as [|n IH]; simpl; steps_solve; done. Qed.

Lemma update_progress_keeps payload n mode :
  steps keeps_suspended (uvm_channel_update_progress_with_max payload n mode).
Proof.
  unfold uvm_channel_update_progress_with_max, update_progress_locked. steps_solve.
  - intros c. unfold uvm_channel_update_completed_value, run_st. by destruct (update_completed_value_locked _ _).
  - apply complete_entries_keeps.
Qed.

Lemma check_errors_keeps e payload : steps keeps_suspended (uvm_channel_check_errors e payload).
Proof.
  unfold uvm_channel_check_errors, uvm_channel_get_first_pending_entry, channel_update_progress_all.
  steps_solve; apply update_progress_keeps.
Qed.

Lemma reserve_keeps rounds fuel n :
  (∀ k c, suspended_p2p (rd_others (rounds k) c) = suspended_p2p c) →
  steps keeps_suspended (uvm_channel_reserve rounds fuel n).
Proof.
  intros Ho. assert (∀ fuel k status, steps keeps_suspended (reserve_loop rounds fuel k n status)) as Hloop.
  { intros f. induction f as [|f IH]; intros k status; simpl; unfold try_claim_channel, uvm_channel_update_progress;
      steps_solve; try done; try apply IH; try apply Ho; try apply check_errors_keeps; apply update_progress_keeps. }
  unfold uvm_channel_reserve, try_claim_channel, uvm_channel_update_progress.
  steps_solve; try done. apply update_progress_keeps.
Qed.

Lemma suspend_flag rounds fuel c status :
  (∀ k c, suspended_p2p (rd_others (rounds k) c) = suspended_p2p c) →
  run_val (channel_suspend_p2p rounds fuel) c = Some status →
  suspended_p2p (run_st (channel_suspend_p2p rounds fuel) c) =
    if status =? NV_OK then true else suspended_p2p c.
Proof.
  intros Ho. pose proof (reserve_keeps rounds fuel (num_gpfifo_entries c - 1) Ho c) as Hk.
  unfold keeps_suspended in Hk. unfold run_val, run_st, channel_suspend_p2p. rewrite run_gets.
  rewrite run_bind. cbn [fst snd]. destruct (run_val _ c) as [st|]; [|done]. cbn [fst snd].
  set (c1 := run_st _ c) in *. destruct (st =? NV_OK) eqn:He; cbn; intros [= ->]; by rewrite He.
Qed.

(** Which channels of a pool are suspended. *)
Definition flags (pool : list uvm_channel_t) : list bool := suspended_p2p <$> pool.

Lemma flags_on_channel {A} i (m : M A) pool c :
  pool !! i = Some c →
  flags (run_st (on_channel i m) pool) = <[i := suspended_p2p (run_st m c)]> (flags pool) ∧
  run_val (on_channel i m) pool = Some (run_val m c).
Proof.
  intros Hc. unfold run_st, run_val, on_channel, flags. rewrite Hc.
  destruct (m c) as [[a c'] es]. simpl. by rewrite list_fmap_insert.
Qed.

Lemma replicate_insert_mid (i m : nat) (x y : bool) :
  <[i := x]> (replicate i x ++ replicate (S m) y) = replicate (S i) x ++ replicate m y.
Proof.
  rewrite insert_app_r_alt by (rewrite length_replicate; lia). rewrite length_replicate, Nat.sub_diag.
  rewrite (replicate_S_end i x), <-(assoc_L (++)). done.
Qed.

Section suspend_pool.
Context (rounds : nat → nat → round) (fuel : nat).
Context (Ho : ∀ i k c, suspended_p2p (rd_others (rounds i k) c) = suspended_p2p c).

Lemma flags_lookup pool i m b :
  flags pool = replicate i true ++ replicate (S m) b → ∃ c, pool !! i = Some c ∧ suspended_p2p c = b.
Proof.
  intros Hf. assert (flags pool !! i = Some b) as Hi.
  { rewrite Hf, lookup_app_r by (rewrite length_replicate; lia). by rewrite length_replicate, Nat.sub_diag. }
  unfold flags in Hi. rewrite list_lookup_fmap_Some in Hi. naive_solver.
Qed.

(** The loop suspends the channels one after the other and stops at the first
    that fails, which it leaves as it was. *)
Lemma suspend_channels_flags m i n pool status j :
  flags pool = replicate i true ++ replicate m false → n = (i + m)%nat →
  run_val (suspend_channels rounds fuel (seq i m) n) pool = Some (status, j) →
  (j ≤ n)%nat ∧ (status = NV_OK → j = n) ∧
  flags (run_st (suspend_channels rounds fuel (seq i m) n) pool) =
    replicate j true ++ replicate (n - j) false.
Proof.
  revert i pool. induction m as [|m IH]; intros i pool Hf -> Hr.
  { simpl in *. unfold run_val in Hr. simpl in Hr. simplify_eq. change (run_st (mret _) pool) with pool.
    rewrite Nat.add_0_r, Nat.sub_diag. split_and!; [lia|done|done]. }
  destruct (flags_lookup pool i m false Hf) as (c & Hc & Hs). cbn [seq suspend_channels] in *.
  destruct (flags_on_channel i (channel_suspend_p2p (rounds i) fuel) pool c Hc) as [Hfl Hval].
  rewrite run_val_bind, Hval in Hr. rewrite run_st_bind, Hval. cbn [mjoin option_join] in *.
  destruct (run_val (channel_suspend_p2p (rounds i) fuel) c) as [st|] eqn:Hst; [|done].
  pose proof (suspend_flag _ _ _ _ (Ho i) Hst) as Hflag. rewrite Hs in Hflag.
  destruct (st =? NV_OK) eqn:He; cbn [negb] in *.
  - rewrite Hflag, Hf, replicate_insert_mid in Hfl.
    destruct (IH (S i) _ Hfl ltac:(lia) Hr) as (H1 & H2 & H3). split_and!; [lia|intros; by apply H2|done].
  - unfold run_val in Hr. simpl in Hr. simplify_eq. change (run_st (mret ?x) ?p) with p.
    split_and!; [lia|by intros ->|]. rewrite Hfl, Hflag, Hf.
    replace (j + S m - j)%nat with (S m) by lia. apply list_insert_id.
    rewrite lookup_app_r by (rewrite length_replicate; lia). by rewrite length_replicate, Nat.sub_diag.
Qed.

(** Resuming the channels below [j]. *)
Lemma resume_flags j m pool :
  flags pool = replicate j true ++ replicate m false →
  flags (run_st (for_each (λ i, on_channel i channel_resume_p2p;; skip) (reverse (seq 0 j))) pool) =
    replicate (j + m) false.
Proof.
  revert m pool. induction j as [|j IH]; intros m pool Hf; [done|].
  rewrite seq_S, reverse_snoc. simpl (0 + j)%nat. cbn [for_each].
  assert (flags pool !! j = Some true) as Hj.
  { rewrite Hf, lookup_app_l by (rewrite length_replicate; lia). apply lookup_replicate. lia. }
  unfold flags in Hj. apply list_lookup_fmap_Some in Hj as (c & _ & Hc).
  rewrite run_st_bind, run_st_bind. change (run_st skip ?p) with p.
  destruct (flags_on_channel j channel_resume_p2p pool c Hc) as [Hfl _].
  change (suspended_p2p (run_st channel_resume_p2p c)) with false in Hfl.
  replace (S j + m)%nat with (j + S m)%nat by lia. apply IH. rewrite Hfl, Hf.
  rewrite replicate_S_end, <-(assoc_L (++)). rewrite insert_app_r_alt by (rewrite length_replicate; lia).
  by rewrite length_replicate, Nat.sub_diag.
Qed.

(** Suspending a pool leaves all of its channels suspended or, on an error, none. *)
Lemma pool_suspend_all_or_nothing pool status :
  Forall (λ c, suspended_p2p c = false) pool →
  run_val (channel_pool_suspend_p2p rounds fuel) pool = Some status →
  flags (run_st (channel_pool_suspend_p2p rounds fuel) pool) =
    replicate (length pool) (bool_decide (status = NV_OK)).
Proof.
  intros Hnone Hr. assert (flags pool = replicate 0 true ++ replicate (length pool) false) as Hf.
  { unfold flags. simpl. clear -Hnone. induction Hnone as [|c l Hc _ IH]; [done|]. csimpl. by rewrite Hc, IH. }
  unfold channel_pool_suspend_p2p in *. rewrite run_st_get. unfold run_val in Hr. rewrite run_get in Hr.
  change (?m pool).1.1 with (run_val m pool) in Hr.
  rewrite run_val_bind in Hr. rewrite run_st_bind.
  destruct (run_val (suspend_channels _ _ _ _) pool) as [[st j]|] eqn:Hs; [|done].
  destruct (suspend_channels_flags (length pool) 0 (length pool) pool st j Hf eq_refl Hs) as (Hj & Hok & Hfl).
  rewrite run_val_bind in Hr. unfold run_val in Hr at 1. simpl in Hr. simplify_eq.
  rewrite run_st_bind. change (run_st (mret ?x) ?p) with p.
  destruct (Z.eqb_spec status NV_OK) as [->|Hne]; cbn [negb when].
  - rewrite bool_decide_eq_true_2 by done. change (run_st skip ?p) with p. rewrite Hfl, (Hok eq_refl), Nat.sub_diag.
    by rewrite app_nil_r.
  - rewrite bool_decide_eq_false_2 by done. rewrite (resume_flags j (length pool - j)) by done. f_equal. lia.
Qed.
End suspend_pool.

(** ** Waiting for a channel, and choosing one *)

Section wait.
Context (rounds : nat → round) (Ns : nat → Z) (K : nat) (q : Z) (ongoing : list nat).
Context (Hothers : ∀ k c, rd_others (rounds k) c = c) (Herr : ∀ k, ee_status (rd_err (rounds k)) = 0).
Context (Hglobal : ∀ k, rd_global (rounds k) = NV_OK).
Context (Hpayload : ∀ k, rd_payload (rounds k) = u32 (Ns k)).
Context (Hmono : ∀ k, Ns k ≤ Ns (S k)) (Hbound : ∀ k, Ns k ≤ q) (Hdone : ∀ k, (K ≤ k)%nat → Ns k = q).

(** The wait ends when the GPU has completed everything queued, with an empty
    queue and no error. *)
Lemma wait_loop_ends fuel k c N :
  ch_inv c N ongoing → queued_value (tracking_sem c) = q →
  Forall (λ x, tracking_semaphore_value x.2 ≤ q) (pend c) → N ≤ Ns k →
  (K - k + length (pend c) < fuel)%nat →
  run_val (wait_loop rounds fuel k NV_OK) c = Some NV_OK ∧
  pend (run_st (wait_loop rounds fuel k NV_OK) c) = [].
Proof.
  revert k c N. induction fuel as [|fuel IH]; intros k c N Hinv Hq Hvals HN Hfuel; [lia|].
  assert (ch_inv c (Ns k) ongoing) as Hinv' by (eapply ch_inv_N; [done|rewrite Hq; split; [done|apply Hbound]]).
  destruct (update_progress_spec 8 c (Ns k) ongoing Hinv') as (H1 & H2 & H3 & _ & _ & H6 & _).
  destruct (retire_suffix (Ns k) 8 (pend c)) as (j & _ & Hl & _).
  unfold run_val, run_st. cbn [wait_loop]. rewrite !run_modify, !Hothers.
  pose proof (run_eta (uvm_channel_update_progress (rd_payload (rounds k))) c) as Hrun.
  rewrite Hpayload in *. unfold uvm_channel_update_progress in Hrun at 2 3 4. rewrite H3 in Hrun.
  set (c' := run_st _ c) in *. destruct (pend c') as [|x l] eqn:Hp.
  { erewrite !run_bind_eq; [|exact Hrun|reflexivity]. done. }
  destruct (IH (S k) c' (Ns k) H1) as [Hv Hst]; [by rewrite H6| |done| |].
  { rewrite Hp, H2. rewrite Hl in Hvals. by apply Forall_app in Hvals as [_ ?]. }
  { rewrite Hp, H2. pose proof (retire_length (Ns k) 8 (pend c)).
    destruct (decide (K ≤ k)%nat) as [HK|]; [|lia]. rewrite (Hdone k HK) in *.
    destruct (pend c) as [|y l']; [done|]. apply Forall_cons in Hvals as [Hy _].
    pose proof (retire_head q 7 y l' Hy). cbn [length] in *. lia. }
  destruct (wait_loop rounds fuel (S k) NV_OK c') as [[v c2] es2] eqn:Hloop.
  unfold run_val, run_st in Hv, Hst. rewrite Hloop in Hv, Hst. simpl in Hv, Hst.
  erewrite !run_bind_eq; [|exact Hrun|]; [|cbn [length]; rewrite Hglobal; cbn;
    eapply run_bind_eq; [by apply check_errors_ok|exact Hloop]]. done.
Qed.
End wait.

(** The channel a reservation in a pool takes is the first with room; the others
    are not touched, and without room nothing is. *)
Lemma claim_first_spec ids pool :
  match run_val (claim_first UVM_CHANNEL_RESERVE_NO_P2P ids) pool with
  | Some i => ∃ k c, ids !! k = Some i ∧ pool !! i = Some c ∧
      1 ≤ channel_get_available_gpfifo_entries c ∧
      run_st (claim_first UVM_CHANNEL_RESERVE_NO_P2P ids) pool = <[i := set_count (λ n, u32 (n + 1)) c]> pool ∧
      ∀ j ch, j ∈ take k ids → pool !! j = Some ch → channel_get_available_gpfifo_entries ch < 1
  | None => run_st (claim_first UVM_CHANNEL_RESERVE_NO_P2P ids) pool = pool ∧
      ∀ j ch, j ∈ ids → pool !! j = Some ch → channel_get_available_gpfifo_entries ch < 1
  end.
Proof.
  induction ids as [|i ids IH].
  { split; [done|]. intros j ch Hj. by apply not_elem_of_nil in Hj. }
  cbn [claim_first]. rewrite run_val_bind, run_st_bind.
  assert (run_val (on_channel i (try_claim_channel 1 UVM_CHANNEL_RESERVE_NO_P2P)) pool =
      (λ c, 1 <=? channel_get_available_gpfifo_entries c) <$> pool !! i ∧
    (∀ c, pool !! i = Some c → run_st (on_channel i (try_claim_channel 1 UVM_CHANNEL_RESERVE_NO_P2P)) pool =
      if 1 <=? channel_get_available_gpfifo_entries c then <[i := set_count (λ n, u32 (n + 1)) c]> pool else pool) ∧
    (pool !! i = None → run_st (on_channel i (try_claim_channel 1 UVM_CHANNEL_RESERVE_NO_P2P)) pool = pool))
    as (Hv & Hst & Hst').
  { unfold run_val, run_st, on_channel. destruct (pool !! i) as [c|] eqn:Hc; [|done]. rewrite claim_run. simpl.
    destruct (1 <=? _) eqn:Hle; simpl; (split_and!; [done| |done]); intros c' [= <-]; rewrite Hle; [done|].
    by apply list_insert_id. }
  rewrite Hv. destruct (pool !! i) as [c|] eqn:Hc; cbn [fmap option_fmap option_map].
  - rewrite (Hst c eq_refl). destruct (Z.leb_spec 1 (channel_get_available_gpfifo_entries c)) as [Hle|Hlt].
    + rewrite bool_decide_eq_true_2 by done. exists 0%nat, c. split_and!; try done.
      intros j ch Hj. by apply not_elem_of_nil in Hj.
    + rewrite bool_decide_eq_false_2 by done. destruct (run_val (claim_first _ ids) pool) as [i'|].
      * destruct IH as (k & c' & Hk & Hc' & Ha & Hs & Hbefore). exists (S k), c'. split_and!; try done.
        simpl. intros j ch [->|Hj]%elem_of_cons Hch; [by simplify_eq|by eapply Hbefore].
      * destruct IH as [Hs Hall]. split; [done|]. intros j ch [->|Hj]%elem_of_cons Hch; [by simplify_eq|by eapply Hall].
  - rewrite (Hst' eq_refl), bool_decide_eq_false_2 by done. destruct (run_val (claim_first _ ids) pool) as [i'|].
    + destruct IH as (k & c' & Hk & Hc' & Ha & Hs & Hbefore). exists (S k), c'. split_and!; try done.
      simpl. intros j ch [->|Hj]%elem_of_cons Hch; [congruence|by eapply Hbefore].
    + destruct IH as [Hs Hall]. split; [done|]. intros j ch [->|Hj]%elem_of_cons Hch; [congruence|by eapply Hall].
Qed.
