(* ===== verification/UvmSystem.v ===== *)
(** * UvmSystem: channels that share a pushbuffer

    [UvmPushbuffer] is verified for any completions in any order, [UvmChannel]
    for any use of the pushbuffer. Here the channels of a channel manager and its
    pushbuffer run together: what uvm_channel_end_push and
    uvm_channel_update_progress_with_max hand to uvm_pushbuffer_end_push and
    uvm_pushbuffer_mark_completed, under the lock of the channel pool, is what
    happens to the pushbuffer, and nothing else completes a push. *)
From stdpp Require Import base numbers list list_numbers relations.
From S2P Require Import Prelude Rings UvmPushbuffer UvmSemaphore UvmChannel.
#[local] Open Scope Z_scope.

(** The pushbuffer with the counters of [pb_step], and the channels. *)
Record us_state := Us {
  us_waiting : Z;
  us_leaked : Z;
  us_pb : uvm_pushbuffer_t;
  us_chans : list ch_state }.

(** The push that ends holds a chunk, and its entry lies at the start of the space
    it was given. *)
Inductive pb_ends : uvm_pushbuffer_t → list pb_entry → uvm_pushbuffer_t → Prop :=
| pb_ends_nil pb : pb_ends pb [] pb
| pb_ends_cons i c g es pb pb' :
    chunks pb !! i = Some c → current_push c ≠ NULL →
    pushbuffer_offset g = chunk_get_offset i + next_push_start c →
    0 < pushbuffer_size g ≤ UVM_MAX_PUSH_SIZE →
    pb_ends (uvm_pushbuffer_end_push g pb) es pb' → pb_ends pb (g :: es) pb'.

Definition pb_marks (pb : uvm_pushbuffer_t) (ms : list pb_entry) : uvm_pushbuffer_t :=
  foldl (λ pb g, uvm_pushbuffer_mark_completed g pb) pb ms.

(** Threads come and go at the pushbuffer; a step of a channel carries out what
    it asks of the pushbuffer. *)
Inductive us_step : us_state → us_state → Prop :=
| us_down w lk pb chans :
    0 < concurrent_pushes_sema pb →
    us_step (Us w lk pb chans) (Us (w + 1) lk (set_sema (Z.add (-1)) pb) chans)
| us_claim w lk push i pb pb' chans :
    0 < w → push ≠ NULL → try_claim_chunk push pb = (Some i, pb') →
    us_step (Us w lk pb chans) (Us (w - 1) lk pb' chans)
| us_give_up w lk pb chans :
    0 < w → us_step (Us w lk pb chans) (Us (w - 1) lk (set_sema (Z.add 1) pb) chans)
| us_claim_error w lk push i pb pb' chans :
    0 < w → push ≠ NULL → try_claim_chunk push pb = (Some i, pb') →
    us_step (Us w lk pb chans) (Us (w - 1) (lk + 1) (set_sema (Z.add 1) pb') chans)
| us_chan w lk pb pb' chans j s s' es ms :
    chans !! j = Some s → ch_step s s' →
    cs_ended s' = cs_ended s ++ es → cs_marked s' = cs_marked s ++ ms →
    pb_ends pb es pb' →
    us_step (Us w lk pb chans) (Us w lk (pb_marks pb' ms) (<[j := s']> chans)).

(** Each channel has the number of its entries and their address. *)
Definition us_init (layout : list (nat * Z)) : us_state :=
  Us 0 0 uvm_pushbuffer_create ((λ x, ch_init x.1 x.2) <$> layout).

(** Channels of a legal size, whose entries do not overlap. *)
Record layout_ok (layout : list (nat * Z)) : Prop := {
  lo_num j x : layout !! j = Some x → 2 ≤ Z.of_nat x.1 ≤ 1024 * 1024;
  lo_disjoint j k x y : layout !! j = Some x → layout !! k = Some y → j ≠ k →
    x.2 + Z.of_nat x.1 ≤ y.2 ∨ y.2 + Z.of_nat y.1 ≤ x.2 }.

(** ** Specification *)

Definition pendings (pb : uvm_pushbuffer_t) : list pb_entry := mjoin (pending_gpfifos <$> chunks pb).

Definition region (g : pb_entry) : Z * Z := (pushbuffer_offset g, pushbuffer_offset g + pushbuffer_size g).

(** What the threads that have begun a push may write. *)
Definition ongoing_regions (pb : uvm_pushbuffer_t) : list (Z * Z) :=
  mjoin (imap (λ i c, if busy c then
    [(chunk_base i + next_push_start c, chunk_base i + next_push_start c + UVM_MAX_PUSH_SIZE)] else [])
    (chunks pb)).

(** The pushes the GPU was given and has not finished: it releases the values of
    the pushes in order, so they are those after the first [cs_N]. *)
Definition outstanding (s : ch_state) : list pb_entry := drop (Z.to_nat (cs_N s)) (cs_ended s).

Definition pairwise {A} (R : A → A → Prop) (l : list A) : Prop :=
  ∀ i j x y, l !! i = Some x → l !! j = Some y → i ≠ j → R x y.

Record us_inv (layout : list (nat * Z)) (u : us_state) : Prop := {
  ui_pb : pb_inv (us_waiting u) (us_leaked u) (us_pb u);
  ui_chans : Forall cs_inv (us_chans u);
  ui_layout : (λ s, (num_gpfifo_entries (cs_chan s), gpfifo_entries_addr (cs_chan s))) <$> us_chans u =
    (λ x, (Z.of_nat x.1, x.2)) <$> layout;
  ui_pend : pendings (us_pb u) ≡ₚ mjoin ((λ s, np_pb <$> normals (cs_chan s)) <$> us_chans u);
  ui_ptrs : NoDup (pe_ptr <$> pendings (us_pb u)) }.

(** * Lists *)

Lemma pairwise_perm {A} (R : A → A → Prop) l k : l ≡ₚ k → pairwise R k → pairwise R l.
Proof.
  intros (_ & f & Hinj & Hf)%Permutation_inj Hk i j x y Hi Hj Hne.
  rewrite Hf in Hi, Hj. eapply Hk; [done|done|]. by intros ?%Hinj.
Qed.

Lemma pairwise_app_l {A} (R : A → A → Prop) l k : pairwise R (l ++ k) → pairwise R l.
Proof. intros H i j x y Hi Hj. apply H; by apply lookup_app_l_Some. Qed.

Lemma pairwise_submseteq {A} (R : A → A → Prop) l k : l ⊆+ k → pairwise R k → pairwise R l.
Proof.
  intros [k' Hk]%submseteq_Permutation Hp. apply (pairwise_app_l R l k'). by eapply pairwise_perm.
Qed.

(** One list of a join. *)
Lemma join_delete {A} (L : list (list A)) j x : L !! j = Some x → mjoin L ≡ₚ x ++ mjoin (delete j L).
Proof.
  revert j. induction L as [|y L IH]; intros [|j] Hj; simplify_eq/=; [done|].
  rewrite (IH j Hj), !app_assoc. by rewrite (Permutation_app_comm y x).
Qed.

Lemma join_insert {A} (L : list (list A)) j x : (j < length L)%nat → mjoin (<[j := x]> L) ≡ₚ x ++ mjoin (delete j L).
Proof.
  revert j. induction L as [|y L IH]; intros [|j] Hj; simpl in *; [lia|lia|done|].
  rewrite (IH j) by lia. rewrite !app_assoc. by rewrite (Permutation_app_comm y x).
Qed.

Lemma join_imap_app {A B} (f g : nat → A → list B) (l : list A) :
  mjoin (imap (λ i x, f i x ++ g i x) l) ≡ₚ mjoin (imap f l) ++ mjoin (imap g l).
Proof.
  revert f g. induction l as [|x l IH]; intros f g; [done|]. rewrite !imap_cons. simpl.
  rewrite <-!app_assoc. apply Permutation_app_head. rewrite (IH (f ∘ S) (g ∘ S)).
  rewrite !app_assoc. apply Permutation_app_tail, Permutation_app_comm.
Qed.

Lemma join_sublist {A B} (f g : A → list B) (l : list A) :
  Forall (λ x, f x `sublist_of` g x) l → mjoin (f <$> l) `sublist_of` mjoin (g <$> l).
Proof. induction 1; simpl; [done|]. by apply sublist_app. Qed.

(** * The pending pushes of the pushbuffer *)

Lemma pendings_insert pb pb' i c c' :
  chunks pb !! i = Some c → chunks pb' = <[i := c']> (chunks pb) →
  ∃ others, pendings pb ≡ₚ pending_gpfifos c ++ others ∧ pendings pb' ≡ₚ pending_gpfifos c' ++ others.
Proof.
  intros Hc Hch. exists (mjoin (delete i (pending_gpfifos <$> chunks pb))). unfold pendings. split.
  - apply join_delete. by rewrite list_lookup_fmap, Hc.
  - rewrite Hch, list_fmap_insert. apply join_insert. rewrite length_fmap. by eapply lookup_lt_Some.
Qed.

Lemma pendings_elem pb g : g ∈ pendings pb → ∃ i c, chunks pb !! i = Some c ∧ g ∈ pending_gpfifos c.
Proof.
  unfold pendings. intros (l & Hg & Hl)%list_elem_of_join. apply list_elem_of_fmap in Hl as (c & -> & Hc).
  apply list_elem_of_lookup in Hc as [i Hc]. eauto.
Qed.

Lemma claim_pendings push pb c pb' : try_claim_chunk push pb = (Some c, pb') → pendings pb' = pendings pb.
Proof.
  unfold try_claim_chunk. destruct (pick_chunk pb) as [i|]; [|done]. intros [= <- <-].
  unfold pendings. f_equal. simpl. apply list_eq. intros j. rewrite !list_lookup_fmap.
  destruct (decide (i = j)) as [<-|Hne].
  - rewrite list_lookup_alter_eq. by destruct (chunks pb !! i).
  - by rewrite list_lookup_alter_ne.
Qed.

(** Ending a push adds its entry. *)
Lemma end_pendings w lk i c g pb :
  pb_inv w lk pb → chunks pb !! i = Some c → current_push c ≠ NULL →
  pushbuffer_offset g = chunk_get_offset i + next_push_start c →
  0 < pushbuffer_size g ≤ UVM_MAX_PUSH_SIZE →
  pendings (uvm_pushbuffer_end_push g pb) ≡ₚ g :: pendings pb.
Proof.
  intros Hinv Hc Hcur Hoff Hsize. pose proof (pb_inv_lt _ _ _ _ _ Hinv Hc) as Hi.
  destruct (pi_chunks _ _ _ Hinv _ _ Hc) as [Hin Hr Hb _]. destruct (Hb Hcur) as (_ & _ & Hfit).
  set (c1 := set_pending_gpfifos (pending_gpfifos c ++ [g]) c).
  set (pb1 := set_chunks (alter (λ c, set_pending_gpfifos (pending_gpfifos c ++ [g]) c) i) pb).
  assert (chunks pb1 = <[i := c1]> (chunks pb)) as Hch1 by (simpl; by rewrite (list_alter_insert _ _ _ c)).
  destruct (update_chunk_spec i pb1 c1 Hi) as (c2 & Hch2 & Hp & _).
  { rewrite Hch1. apply list_lookup_insert_eq. by eapply lookup_lt_Some. }
  { unfold c1. rewrite (end_chunk_spans i c g Hi Hoff). apply Forall_app. split; [done|].
    apply Forall_singleton. destruct Hfit as [Hpin _]. unfold in_chunk, push_span in *. simpl in *. lia. }
  destruct (pendings_insert pb (uvm_pushbuffer_end_push g pb) i c (set_current_push NULL c2) Hc) as (o & -> & ->).
  - unfold uvm_pushbuffer_end_push. rewrite (end_gpfifo_chunk i c g Hi Hfit Hoff). fold pb1.
    cbn [set_sema set_chunks chunks]. rewrite Hch2, Hch1, list_insert_insert_eq.
    rewrite (list_alter_insert _ _ _ c2), list_insert_insert_eq; [done|].
    apply list_lookup_insert_eq. by eapply lookup_lt_Some.
  - cbn [set_current_push pending_gpfifos]. rewrite Hp. cbn [c1 set_pending_gpfifos pending_gpfifos].
    rewrite <-app_assoc. simpl. symmetry. apply Permutation_middle.
Qed.

Lemma filter_ptr_ne (g : pb_entry) (l : list pb_entry) :
  pe_ptr g ∉ pe_ptr <$> l → filter (λ e, pe_ptr e ≠ pe_ptr g) l = l.
Proof.
  induction l as [|e l IH]; [done|]. csimpl. intros [Hne Hl]%not_elem_of_cons.
  rewrite filter_cons_True by congruence. by rewrite IH.
Qed.

(** A completion removes its entry, and no other has the same address. *)
Lemma mark_pendings w lk g rest pb :
  pb_inv w lk pb → pendings pb ≡ₚ g :: rest → NoDup (pe_ptr <$> pendings pb) →
  pb_inv w lk (uvm_pushbuffer_mark_completed g pb) ∧ pendings (uvm_pushbuffer_mark_completed g pb) ≡ₚ rest.
Proof.
  intros Hinv Hp Hnd. assert (g ∈ pendings pb) as Hg by (rewrite Hp; left).
  destruct (pendings_elem pb g Hg) as (i & c & Hc & Hgc).
  pose proof (entry_chunk i c g _ _ (pi_chunks _ _ _ Hinv i c Hc) Hgc) as <-.
  split; [by eapply complete_inv|].
  destruct (mark_completed_chunks w lk g c pb Hinv Hc) as (c' & Hch & Hpc & _).
  destruct (pendings_insert pb _ _ c c' Hc Hch) as (o & Ho & ->). rewrite Hpc.
  assert (pe_ptr g ∉ pe_ptr <$> rest) as Hrest.
  { rewrite Hp in Hnd. by apply NoDup_cons in Hnd as [? _]. }
  assert (pe_ptr g ∉ pe_ptr <$> o) as Hothers.
  { rewrite Ho, fmap_app in Hnd. apply NoDup_app in Hnd as (_ & Hd & _). apply Hd. by apply list_elem_of_fmap_2. }
  transitivity (filter (λ e, pe_ptr e ≠ pe_ptr g) (pendings pb)).
  - rewrite Ho, filter_app, (filter_ptr_ne g o) by done. done.
  - rewrite Hp, filter_cons_False, filter_ptr_ne by naive_solver. done.
Qed.

Lemma pb_ends_pendings w lk es pb pb' :
  pb_ends pb es pb' → pb_inv w lk pb → pb_inv w lk pb' ∧ pendings pb' ≡ₚ pendings pb ++ es.
Proof.
  induction 1 as [pb|i c g es pb pb' Hc Hcur Hoff Hsize _ IH]; intros Hinv; [by rewrite app_nil_r|].
  destruct IH as [Hinv' ->]; [by eapply end_inv|]. split; [done|].
  rewrite (end_pendings w lk i c g pb) by done. simpl. apply Permutation_middle.
Qed.

Lemma pb_marks_pendings w lk ms rest pb :
  pb_inv w lk pb → pendings pb ≡ₚ ms ++ rest → NoDup (pe_ptr <$> pendings pb) →
  pb_inv w lk (pb_marks pb ms) ∧ pendings (pb_marks pb ms) ≡ₚ rest.
Proof.
  revert pb. induction ms as [|g ms IH]; intros pb Hinv Hp Hnd; [done|].
  destruct (mark_pendings w lk g (ms ++ rest) pb Hinv Hp Hnd) as [Hinv' Hp'].
  apply IH; [done|done|]. rewrite Hp'. rewrite Hp in Hnd. by apply NoDup_cons in Hnd as [_ ?].
Qed.

(** What is live in the pushbuffer are the pending and the ongoing pushes. *)
Lemma live_regions_split pb :
  live_regions pb ≡ₚ (region <$> pendings pb) ++ ongoing_regions pb.
Proof.
  unfold live_regions, ongoing_regions, pendings.
  transitivity (mjoin (imap (λ i c, (region <$> pending_gpfifos c) ++ if busy c then
    [(chunk_base i + next_push_start c, chunk_base i + next_push_start c + UVM_MAX_PUSH_SIZE)] else []) (chunks pb))).
  - apply reflexive_eq. f_equal. apply imap_ext. intros i c _. unfold chunk_regions. rewrite fmap_app. f_equal.
    + unfold chunk_spans. rewrite <-list_fmap_compose. apply list_fmap_ext. intros k e _.
      unfold region, entry_span. simpl. f_equal; lia.
    + unfold push_span. destruct (busy c); [|done]. simpl. do 2 f_equal. lia.
  - rewrite join_imap_app. apply Permutation_app_tail, reflexive_eq.
    generalize (chunks pb). intros l. induction l as [|c l IH]; [done|]. rewrite imap_cons. csimpl.
    rewrite fmap_app, <-IH. done.
Qed.

(** * The entries of the channels *)

Lemma ring_slots_NoDup num get n : 0 < num → 0 ≤ n ≤ num → NoDup (ring_slots num get n).
Proof.
  intros Hnum [Hn Hle]. revert n Hn Hle. refine (natlike_ind _ _ _); [intros _; apply NoDup_nil_2|].
  intros n Hn IH Hle. rewrite <-Z.add_1_r, ring_slots_snoc by lia.
  apply NoDup_app. split_and!; [apply IH; lia| |apply NoDup_singleton].
  intros x Hx ->%list_elem_of_singleton. revert Hx. apply ring_slots_fresh; lia.
Qed.

(** The entries of a channel have addresses of their own, in its array. *)
Lemma normals_ptrs addr (l : list (Z * uvm_gpfifo_entry_t)) :
  (pe_ptr <$> (np_pb <$> omap (normal_of addr) l)) `sublist_of` ((λ x, addr + x) <$> l.*1).
Proof.
  induction l as [|[slot e] l IH]; [done|]. csimpl. unfold normal_of at 1. simpl.
  destruct (entry_type e); csimpl; [by apply sublist_skip|by apply sublist_cons].
Qed.

Lemma ch_inv_ptrs c N ongoing :
  ch_inv c N ongoing →
  NoDup (pe_ptr <$> (np_pb <$> normals c)) ∧
  ∀ g, g ∈ np_pb <$> normals c →
    gpfifo_entries_addr c ≤ pe_ptr g < gpfifo_entries_addr c + num_gpfifo_entries c.
Proof.
  intros Hinv. pose proof (ci_num _ _ _ Hinv) as Hnum. pose proof (ci_len _ _ _ Hinv) as Hlen.
  pose proof (normals_ptrs (gpfifo_entries_addr c) (pend c)) as Hs. fold (normals c) in Hs.
  pose proof (ring_count_range (num_gpfifo_entries c) ltac:(lia) (cpu_put c) (gpu_get c)) as Hcount.
  assert ((pend c).*1 = pend_slots c) as Hslots.
  { unfold pend. apply fst_zip. apply Nat2Z.inj_le. unfold pend_slots. rewrite ring_read_length by lia.
    unfold ring_slots. rewrite length_fmap, length_seqZ. lia. }
  rewrite Hslots in Hs. split.
  - eapply sublist_NoDup, Hs. apply NoDup_fmap_2; [intros x y ?; lia|]. apply ring_slots_NoDup; lia.
  - intros g Hg%(list_elem_of_fmap_2 pe_ptr). apply (sublist_subseteq _ _ Hs) in Hg.
    apply list_elem_of_fmap in Hg as (slot & -> & Hslot). apply ring_slots_range in Hslot; lia.
Qed.

(** A channel keeps its array. *)
Definition same_array : relation uvm_channel_t := λ c c',
  num_gpfifo_entries c' = num_gpfifo_entries c ∧ gpfifo_entries_addr c' = gpfifo_entries_addr c.

#[local] Instance same_array_preorder : PreOrder same_array.
Proof. split; [by intros c|]. intros a b c [H1 H2] [H3 H4]. split; congruence. Qed.

Lemma complete_entries_array mode v n : steps same_array (complete_entries mode v n).
Proof. induction n as [|n IH]; simpl; steps_solve; done. Qed.

Lemma observe_array payload : steps same_array (uvm_channel_update_completed_value payload).
Proof. intros c. unfold uvm_channel_update_completed_value, run_st. by destruct (update_completed_value_locked _ _). Qed.

Definition no_end (e : ch_action) : Prop := match e with PbEnd _ => False | _ => True end.

Lemma ends_none es : Forall no_end es → ends es = [].
Proof. induction 1 as [|e es He _ IH]; [done|]. unfold ends in *. csimpl. by destruct e. Qed.

Lemma complete_entries_no_end mode v n : emits no_end (complete_entries mode v n).
Proof. induction n as [|n IH]; simpl; emits_solve. Qed.

Lemma update_progress_no_end v n mode : emits no_end (update_progress_locked v n mode).
Proof. unfold update_progress_locked. emits_step; [apply complete_entries_no_end|emits_solve]. Qed.

(** What a step of a channel records, and that it never both ends and completes. *)
Lemma ch_step_shape s s' :
  ch_step s s' → same_array (cs_chan s) (cs_chan s') ∧
  ∃ es ms, cs_ended s' = cs_ended s ++ es ∧ cs_marked s' = cs_marked s ++ ms ∧ (es = [] ∨ ms = []).
Proof.
  assert (∀ {A} (m : prog ch_action uvm_channel_t A) ongoing s, steps same_array m →
    (ends (run_eff m (cs_chan s)) = [] ∨ marks (run_eff m (cs_chan s)) = []) →
    same_array (cs_chan s) (cs_chan (cs_run m ongoing s)) ∧
    ∃ es ms, cs_ended (cs_run m ongoing s) = cs_ended s ++ es ∧
      cs_marked (cs_run m ongoing s) = cs_marked s ++ ms ∧ (es = [] ∨ ms = [])) as Hrun.
  { intros A m ongoing s0 Hm Hem. split; [apply Hm|]. by repeat eexists. }
  destruct 1 as [n rt s Hn|i s Ho Hi|offset size i ongoing s Ho Hq|v s Ho Hq|n s Hn Ho|s HN|s|v s|v n s Hv|b s].
  - apply Hrun; [unfold try_claim_channel; steps_solve|left; by rewrite claim_no_marks].
  - apply Hrun; [unfold channel_get_available_push_info_index; steps_solve|left].
    unfold channel_get_available_push_info_index. rewrite run_eff_gets. by destruct (available_push_infos _).
  - apply Hrun; [by intros c|by right].
  - apply Hrun; [by intros c|by right].
  - apply Hrun; [by intros c|by right].
  - split; [done|]. exists [], []. rewrite !app_nil_r. auto.
  - apply Hrun; [apply observe_array|left]. unfold uvm_channel_update_completed_value, run_eff.
    by destruct (update_completed_value_locked _ _).
  - apply Hrun; [|left]; [intros c|]; unfold uvm_channel_is_value_completed, run_st, run_eff;
      by destruct (uvm_gpu_tracking_semaphore_is_value_completed _ _ _).
  - apply Hrun; [unfold update_progress_locked; steps_solve; apply complete_entries_array|left].
    apply ends_none, update_progress_no_end.
  - apply Hrun; [by intros c|by left].
Qed.

(** * The invariant *)

Section system.
Context (layout : list (nat * Z)) (Hlayout : layout_ok layout).

Lemma us_layout u j s :
  us_inv layout u → us_chans u !! j = Some s →
  ∃ x, layout !! j = Some x ∧ num_gpfifo_entries (cs_chan s) = Z.of_nat x.1 ∧ gpfifo_entries_addr (cs_chan s) = x.2.
Proof.
  intros Hu Hj. pose proof (f_equal (lookup j) (ui_layout _ _ Hu)) as He.
  rewrite !list_lookup_fmap, Hj in He. simpl in He. destruct (layout !! j) as [x|]; simplify_eq/=.
  exists x. naive_solver.
Qed.

(** An entry of one channel does not have the address of one of another. *)
Lemma ptrs_apart u j k s t g h :
  us_inv layout u → us_chans u !! j = Some s → us_chans u !! k = Some t → j ≠ k →
  gpfifo_entries_addr (cs_chan s) ≤ pe_ptr g < gpfifo_entries_addr (cs_chan s) + num_gpfifo_entries (cs_chan s) →
  h ∈ np_pb <$> normals (cs_chan t) → pe_ptr g ≠ pe_ptr h.
Proof.
  intros Hu Hj Hk Hne Hg Hh. destruct (us_layout u j s Hu Hj) as (x & Hx & Hn & Ha).
  destruct (us_layout u k t Hu Hk) as (y & Hy & Hn' & Ha').
  pose proof (lo_disjoint _ Hlayout j k x y Hx Hy Hne) as Hd.
  pose proof (proj1 (Forall_lookup _ _) (ui_chans _ _ Hu) k t Hk) as (Hinv & _).
  pose proof (proj2 (ch_inv_ptrs _ _ _ Hinv) h Hh). lia.
Qed.

(** The step of a channel: what is marked was pending, what ends is new. *)
Lemma chan_step_normals s s' es ms :
  cs_inv s → cs_inv s' → cs_ended s' = cs_ended s ++ es → cs_marked s' = cs_marked s ++ ms →
  (np_pb <$> normals (cs_chan s)) ++ es = ms ++ (np_pb <$> normals (cs_chan s')).
Proof.
  intros (_ & Hs & _) (_ & Hs' & _) He Hm. rewrite He, Hm, Hs, <-!app_assoc in Hs'.
  by apply app_inv_head in Hs'.
Qed.

Lemma us_chan_ptrs u j s s' es ms :
  us_inv layout u → us_chans u !! j = Some s → ch_step s s' →
  cs_ended s' = cs_ended s ++ es → cs_marked s' = cs_marked s ++ ms →
  NoDup (pe_ptr <$> (pendings (us_pb u) ++ es)).
Proof.
  intros Hu Hj Hs He Hm. destruct (ch_step_shape s s' Hs) as ([Hn Ha] & es' & ms' & He' & Hm' & Hor).
  rewrite He in He'. rewrite Hm in Hm'. apply app_inv_head in He' as <-. apply app_inv_head in Hm' as <-.
  destruct Hor as [->| ->]; [rewrite app_nil_r; apply Hu|].
  pose proof (proj1 (Forall_lookup _ _) (ui_chans _ _ Hu) j s Hj) as Hcs.
  pose proof (ch_step_inv s s' Hs Hcs) as Hcs'.
  pose proof (chan_step_normals s s' es [] Hcs Hcs' He Hm) as Heq. simpl in Heq.
  destruct (ch_inv_ptrs _ _ _ (proj1 Hcs')) as [Hnd' Hrange']. rewrite <-Heq in Hnd', Hrange'.
  rewrite Hn, Ha in Hrange'. rewrite fmap_app in Hnd'. apply NoDup_app in Hnd' as (_ & Hd & Hes).
  rewrite fmap_app. apply NoDup_app. split_and!; [apply Hu| |done].
  intros p Hp. apply list_elem_of_fmap in Hp as (h & -> & Hh). rewrite (ui_pend _ _ Hu) in Hh.
  apply list_elem_of_join in Hh as (l & Hh & Hl). apply list_elem_of_fmap in Hl as (t & -> & Ht).
  apply list_elem_of_lookup in Ht as [k Hk]. destruct (decide (j = k)) as [<-|Hne].
  - simplify_eq. apply Hd. by apply list_elem_of_fmap_2.
  - intros Hin. apply list_elem_of_fmap in Hin as (g & Hgp & Hg).
    apply (ptrs_apart u j k s t g h Hu Hj Hk Hne); [|done|done]. apply Hrange'. apply elem_of_app. by right.
Qed.

Lemma us_step_inv u u' : us_step u u' → us_inv layout u → us_inv layout u'.
Proof.
  intros Hs Hu. pose proof Hu as [Hpb Hch Hlay Hpend Hptrs]. pose proof (pi_waiting _ _ _ Hpb) as Hw.
  destruct Hs as [w lk pb chans Hsem|w lk push i pb pb' chans Hw0 Hpush Hcl|w lk pb chans Hw0|
    w lk push i pb pb' chans Hw0 Hpush Hcl|w lk pb pb' chans j s s' es ms Hj Hs He Hm Hends];
    cbn [us_waiting us_leaked us_pb us_chans] in *.
  - constructor; try done. simpl. apply (sema_inv w lk); [done|lia..].
  - constructor; cbn; rewrite ?(claim_pendings _ _ _ _ Hcl); try done. by eapply claim_inv.
  - constructor; try done. simpl. apply (sema_inv w lk); [done|lia..].
  - constructor; cbn [us_waiting us_leaked us_pb us_chans]; try done.
    + pose proof (claim_inv w lk _ _ _ _ Hpb Hw0 Hpush Hcl) as Hpb'. pose proof (pi_waiting _ _ _ Hpb').
      apply (sema_inv (w - 1) lk); [done|lia..].
    + change (pendings (set_sema (Z.add 1) pb')) with (pendings pb'). by rewrite (claim_pendings _ _ _ _ Hcl).
    + change (pendings (set_sema (Z.add 1) pb')) with (pendings pb'). by rewrite (claim_pendings _ _ _ _ Hcl).
  - pose proof (us_chan_ptrs _ j s s' es ms Hu Hj Hs He Hm) as Hnd. cbn [us_pb] in Hnd.
    pose proof (proj1 (Forall_lookup _ _) Hch j s Hj) as Hcs. pose proof (ch_step_inv s s' Hs Hcs) as Hcs'.
    destruct (pb_ends_pendings w lk es pb pb' Hends Hpb) as [Hpb' Hp'].
    set (others := mjoin (delete j ((λ s, np_pb <$> normals (cs_chan s)) <$> chans))).
    assert (pendings pb' ≡ₚ ms ++ (np_pb <$> normals (cs_chan s')) ++ others) as Hp.
    { rewrite Hp', Hpend, (join_delete _ j (np_pb <$> normals (cs_chan s))) by (by rewrite list_lookup_fmap, Hj).
      fold others. rewrite app_assoc, <-(chan_step_normals s s' es ms Hcs Hcs' He Hm), <-!app_assoc.
      apply Permutation_app_head, Permutation_app_comm. }
    destruct (pb_marks_pendings w lk ms _ pb' Hpb' Hp) as [Hpb'' Hp''].
    { by rewrite Hp'. }
    constructor; cbn [us_waiting us_leaked us_pb us_chans].
    + done.
    + by apply Forall_insert.
    + rewrite list_fmap_insert. destruct (ch_step_shape s s' Hs) as ([-> ->] & _). rewrite <-Hlay.
      apply list_insert_id. by rewrite list_lookup_fmap, Hj.
    + rewrite Hp'', list_fmap_insert, join_insert; [done|]. rewrite length_fmap. by eapply lookup_lt_Some.
    + rewrite Hp''. rewrite <-Hp', Hp, fmap_app in Hnd. by apply NoDup_app in Hnd as (_ & _ & ?).
Qed.

Lemma us_init_inv : us_inv layout (us_init layout).
Proof.
  constructor; cbn [us_init us_waiting us_leaked us_pb us_chans].
  - apply pb_init_inv.
  - apply Forall_fmap, Forall_lookup. intros j x Hx. apply ch_init_inv, (lo_num _ Hlayout j x Hx).
  - rewrite <-list_fmap_compose. done.
  - assert (Forall (λ s, np_pb <$> normals (cs_chan s) = []) ((λ x, ch_init x.1 x.2) <$> layout)) as Hnil.
    { apply Forall_fmap, Forall_lookup. intros j x Hx.
      destruct (ch_init_inv x.1 x.2 (lo_num _ Hlayout j x Hx)) as (_ & He & _). simpl in *. by symmetry. }
    apply reflexive_eq. transitivity (@nil pb_entry); [reflexivity|].
    induction Hnil as [|s l Hs _ IH]; [done|]. csimpl. by rewrite Hs.
  - apply NoDup_nil_2.
Qed.

Lemma us_reachable_inv u : rtc us_step (us_init layout) u → us_inv layout u.
Proof.
  intros Hr. pose proof us_init_inv as H0. revert H0. induction Hr; eauto using us_step_inv.
Qed.

(** What the GPU has not finished is pending. *)
Lemma outstanding_pending s : cs_inv s → outstanding s `sublist_of` (np_pb <$> normals (cs_chan s)).
Proof.
  intros (Hc & Hf & Hlen). pose proof (ci_window _ _ _ Hc) as Hwin. unfold outstanding.
  pose proof (f_equal length Hf) as Hl. rewrite length_app, !length_fmap in Hl.
  rewrite Hf, drop_app_ge by lia. apply sublist_drop.
Qed.
End system.

(** C9: The GPU never reads what a thread is writing. However the threads, the
    channels and the GPU interleave, the pushes that some channel has handed to
    the GPU and the GPU has not finished, and the space of the pushes that
    threads have begun and not ended, all lie inside the pushbuffer and do not
    overlap; in particular every push is still in the pushbuffer until the GPU
    has released its value. *)
Theorem gpu_reads_intact layout u (Hlayout : layout_ok layout) (Hreach : rtc us_step (us_init layout) u) :
  let regions := (region <$> mjoin (outstanding <$> us_chans u)) ++ ongoing_regions (us_pb u) in
  pairwise disjoint_spans regions ∧ Forall (λ x, 0 ≤ x.1 ∧ x.1 < x.2 ∧ x.2 ≤ UVM_PUSHBUFFER_SIZE) regions.
Proof.
  intros regions. destruct (us_reachable_inv layout Hlayout u Hreach) as [Hpb Hch _ Hpend _].
  assert (regions ⊆+ live_regions (us_pb u)) as Hsub.
  { rewrite live_regions_split, Hpend. apply sublist_submseteq, sublist_app; [|done].
    apply fmap_sublist, join_sublist. eapply Forall_impl; [exact Hch|]. apply outstanding_pending. }
  destruct (live_regions_disjoint _ _ _ Hpb) as [Hin Hdis]. split.
  - eapply pairwise_submseteq; [exact Hsub|]. intros i j x y Hi Hj. by apply Hdis.
  - apply Forall_forall. intros x Hx. apply (elem_of_submseteq _ _ x Hx) in Hsub.
    apply list_elem_of_lookup in Hsub as [k Hk]. by eapply Hin.
Qed.

(** Two channels. The first has a push that the GPU was given; a thread has begun
    another one. *)
Definition ex_layout : list (nat * Z) := [(32%nat, 4096); (32%nat, 8192)].
Definition ex_pushing : us_state :=
  let pb := ex_claim 1 uvm_pushbuffer_create in
  let s := cs_run channel_get_available_push_info_index [0%nat]
    (cs_run (try_claim_channel 2 UVM_CHANNEL_RESERVE_NO_P2P) [] (ch_init 32 4096)) in
  Us 0 0 (ex_claim 2 (uvm_pushbuffer_end_push (PbEntry 4096 0 64) pb))
    [cs_run (uvm_channel_end_push 0 64 0) [] s; ch_init 32 8192].

Lemma ex_layout_ok : layout_ok ex_layout.
Proof.
  constructor.
  - intros [|[|j]] x Hx; simplify_eq/=; lia.
  - intros [|[|j]] [|[|k]] x y Hx Hy Hne; simplify_eq/=; lia.
Qed.

Lemma ex_pushing_reachable : rtc us_step (us_init ex_layout) ex_pushing.
Proof.
  eapply rtc_l; [apply us_down; vm_compute; done|].
  eapply rtc_l; [apply (us_claim _ _ 1 0%nat); [lia|done|vm_compute; reflexivity]|].
  eapply rtc_l; [eapply (us_chan _ _ _ _ _ 0 _ _ [] []);
    [reflexivity|apply (ch_claim 2 UVM_CHANNEL_RESERVE_NO_P2P); lia|reflexivity|reflexivity|constructor]|].
  eapply rtc_l; [eapply (us_chan _ _ _ _ _ 0 _ _ [] []);
    [reflexivity|apply (ch_begin 0); vm_compute; done|reflexivity|reflexivity|constructor]|].
  eapply rtc_l; [eapply (us_chan _ _ _ _ _ 0 _ _ [PbEntry 4096 0 64] []);
    [reflexivity|apply (ch_end 0 64 0 []); vm_compute; done|reflexivity|reflexivity|]|].
  { eapply (pb_ends_cons 0); [reflexivity|vm_compute; done|reflexivity|vm_compute; done|constructor]. }
  eapply rtc_l; [apply us_down; vm_compute; done|].
  eapply rtc_l; [apply (us_claim _ _ 2 1%nat); [lia|done|vm_compute; reflexivity]|].
  apply reflexive_eq. vm_compute. reflexivity.
Qed.

Lemma gpu_reads_intact_witness :
  outstanding <$> us_chans ex_pushing = [[PbEntry 4096 0 64]; []] ∧
  ongoing_regions (us_pb ex_pushing) = [(UVM_PUSHBUFFER_CHUNK_SIZE, UVM_PUSHBUFFER_CHUNK_SIZE + UVM_MAX_PUSH_SIZE)] ∧
  disjoint_spans (0, 64) (UVM_PUSHBUFFER_CHUNK_SIZE, UVM_PUSHBUFFER_CHUNK_SIZE + UVM_MAX_PUSH_SIZE).
Proof.
  split; [vm_compute; reflexivity|]. split; [vm_compute; reflexivity|].
  exact (proj1 (gpu_reads_intact ex_layout ex_pushing ex_layout_ok ex_pushing_reachable) 0%nat 1%nat _ _
    ltac:(vm_compute; reflexivity) ltac:(vm_compute; reflexivity) ltac:(done)).
Defined.
