(* ===== verification/UvmTracker.v ===== *)
(** * Trackers of GPU work: kernel-open/nvidia-uvm/uvm_tracker.c

    A tracker is a list of (channel, value) pairs: the work a piece of memory
    waits for. The operations ask the channels whether a value is completed and
    whether an error is pending; what they rely on is the class [channel_laws],
    and the channels of UvmChannel.v are an instance. The storage is one entry
    inside the tracker, or an array from uvm_kvmalloc; the contents of a new
    array and the failures of the allocator are the parameter [kv]. *)

From stdpp Require Import base numbers list gmap sorting.
From S2P Require Import Prelude.
#[local] Open Scope Z_scope.

Definition NV_WARN_MORE_PROCESSING_REQUIRED : Z := 0x10005.

(** ** Data *)

Record uvm_tracker_entry_t := TrackerEntry {
  te_channel : option nat;
  te_value : Z }.

#[global] Instance tracker_entry_eq_dec : EqDecision uvm_tracker_entry_t.
Proof. solve_decision. Defined.

(** [tr_store] is [static_entries] when [tr_max_size] is 1, and else the array
    [dynamic_entries] points to; a zeroed tracker has no array. *)
Record uvm_tracker_t := Tracker {
  tr_store : list uvm_tracker_entry_t;
  tr_size : Z;
  tr_max_size : Z }.

Definition null_entry : uvm_tracker_entry_t := TrackerEntry None 0.

(** What for_each_tracker_entry visits. *)
Definition tr_entries (t : uvm_tracker_t) : list uvm_tracker_entry_t :=
  take (Z.to_nat (tr_size t)) (tr_store t).

Definition set_size (n : Z) (t : uvm_tracker_t) : uvm_tracker_t := Tracker (tr_store t) n (tr_max_size t).
Definition set_entry (i : nat) (e : uvm_tracker_entry_t) (t : uvm_tracker_t) : uvm_tracker_t :=
  Tracker (<[i := e]> (tr_store t)) (tr_size t) (tr_max_size t).

Definition tracker_is_using_static_entries (t : uvm_tracker_t) : bool := tr_max_size t =? 1.
Definition uvm_tracker_init : uvm_tracker_t := Tracker [null_entry] 0 1.
Definition uvm_tracker_clear (t : uvm_tracker_t) : uvm_tracker_t := set_size 0 t.
Definition uvm_tracker_is_empty (t : uvm_tracker_t) : bool := tr_size t =? 0.

Definition dynamic_entries (t : uvm_tracker_t) : option (list uvm_tracker_entry_t) :=
  if tr_max_size t =? 0 then None else Some (tr_store t).

(** The kernel's roundup_pow_of_two of a positive number. *)
Definition roundup_pow_of_two (n : Z) : Z := 2 ^ Z.log2_up n.

(** A wait returns, dereferences a NULL channel, or is still spinning. *)
Inductive outcome (A : Type) :=
| Done (a : A)
| Faulted
| Spinning.
Arguments Done {A} a.
Arguments Faulted {A}.
Arguments Spinning {A}.

(** ** What the channels offer *)

Class channel_ops (E W : Type) := {
  op_is_value_completed : nat → Z → prog E W bool;
  op_check_errors : nat → prog E W Z;
  op_global_status : prog E W Z;
  op_channel_gpu : nat → Z }.

(** The channels, the number of calls of the allocator and of its live blocks. *)
Record tsys (W : Type) := TSys {
  ts_world : W;
  ts_calls : nat;
  ts_live : Z }.
Arguments TSys {W}.
Arguments ts_world {W}.
Arguments ts_calls {W}.
Arguments ts_live {W}.

Section tracker.
Context {E W : Type} `{!channel_ops E W} (kv : nat → Z → option (list uvm_tracker_entry_t)).
#[local] Abbreviation M := (prog E (tsys W)).

Definition world {A} (m : prog E W A) : M A :=
  zoom ts_world (λ w s, TSys w (ts_calls s) (ts_live s)) m.

(** ** Memory *)

(** A block of [n] entries. *)
Definition uvm_kvmalloc (n : Z) : M (option (list uvm_tracker_entry_t)) := λ s,
  let p := kv (ts_calls s) n in
  (p, TSys (ts_world s) (S (ts_calls s)) (ts_live s + Z.b2z (bool_decide (is_Some p))), []).

(** The block keeps its contents up to the smaller size; a failure leaves it. *)
Definition uvm_kvrealloc (old : option (list uvm_tracker_entry_t)) (n : Z)
    : M (option (list uvm_tracker_entry_t)) :=
  match old with
  | None => uvm_kvmalloc n
  | Some l => λ s,
      let p := (λ junk, take (Z.to_nat n) l ++ drop (length l) junk) <$> kv (ts_calls s) n in
      (p, TSys (ts_world s) (S (ts_calls s)) (ts_live s), [])
  end.

Definition uvm_kvfree (p : option (list uvm_tracker_entry_t)) : M unit :=
  match p with
  | None => skip
  | Some _ => modify (λ s, TSys (ts_world s) (ts_calls s) (ts_live s - 1))
  end.

Definition free_entries (t : uvm_tracker_t) : M unit :=
  if tracker_is_using_static_entries t then skip else uvm_kvfree (dynamic_entries t).

Definition uvm_tracker_deinit (t : uvm_tracker_t) : M uvm_tracker_t :=
  free_entries t;;
  mret (Tracker [] 0 0).

Definition uvm_tracker_reserve (t : uvm_tracker_t) (min_free_entries : Z) : M (Z * uvm_tracker_t) :=
  if tr_max_size t <? u32 (tr_size t + min_free_entries) then
    let new_max_size := Z.max 8 (u32 (roundup_pow_of_two (u32 (tr_size t + min_free_entries)))) in
    new_entries ←
      (if tracker_is_using_static_entries t then
         p ← uvm_kvmalloc new_max_size;
         mret ((λ junk, tr_entries t ++ drop (length (tr_entries t)) junk) <$> p)
       else uvm_kvrealloc (dynamic_entries t) new_max_size);
    mret (match new_entries with
          | None => (NV_ERR_NO_MEMORY, t)
          | Some l => (NV_OK, Tracker l (tr_size t) new_max_size)
          end)
  else mret (NV_OK, t).

(** The index of the entry and the tracker that counts it. *)
Definition get_new_entry (t : uvm_tracker_t) : M (option nat * uvm_tracker_t) :=
  '(status, t) ← uvm_tracker_reserve t 1;
  mret (if negb (status =? NV_OK) then (None, t)
        else (Some (Z.to_nat (tr_size t)), set_size (tr_size t + 1) t)).

(** ** Entries *)

Definition uvm_tracker_add_entry (t : uvm_tracker_t) (new_entry : uvm_tracker_entry_t)
    : M (Z * uvm_tracker_t) :=
  match list_find (λ e, te_channel e = te_channel new_entry) (tr_entries t) with
  | Some (i, e) =>
      mret (NV_OK, set_entry i (TrackerEntry (te_channel e) (te_value e `max` te_value new_entry)) t)
  | None =>
      '(p, t) ← get_new_entry t;
      mret (match p with
            | None => (NV_ERR_NO_MEMORY, t)
            | Some i => (NV_OK, set_entry i new_entry t)
            end)
  end.

Definition uvm_tracker_overwrite_with_entry (t : uvm_tracker_t) (e : uvm_tracker_entry_t)
    : M (Z * uvm_tracker_t) :=
  uvm_tracker_add_entry (uvm_tracker_clear t) e.

Definition uvm_tracker_overwrite (dst src : uvm_tracker_t) : M (Z * uvm_tracker_t) :=
  '(status, dst) ← uvm_tracker_reserve (uvm_tracker_clear dst) (tr_size src);
  mret (if negb (status =? NV_OK) then (status, dst)
        else
          let n := Z.to_nat (tr_size src) in
          (NV_OK, Tracker (take n (tr_store src) ++ drop n (tr_store dst)) (tr_size src) (tr_max_size dst))).

Definition uvm_tracker_init_from (src : uvm_tracker_t) : M (Z * uvm_tracker_t) :=
  '(status, dst) ← uvm_tracker_overwrite uvm_tracker_init src;
  if negb (status =? NV_OK) then
    uvm_tracker_deinit dst;;
    mret (status, uvm_tracker_init)
  else mret (status, dst).

(** ** Completion *)

Definition uvm_tracker_is_entry_completed (e : uvm_tracker_entry_t) : M bool :=
  match te_channel e with
  | None => mret true
  | Some c => world (op_is_value_completed c (te_value e))
  end.

(** [n] bounds the entries left to look at, which each round lowers. *)
Fixpoint remove_loop (n i : nat) (t : uvm_tracker_t) : M uvm_tracker_t :=
  match n with
  | O => mret t
  | S n =>
      if Z.of_nat i <? tr_size t then
        completed ← uvm_tracker_is_entry_completed (nth i (tr_store t) null_entry);
        if (completed : bool) then
          let t := set_size (tr_size t - 1) t in
          remove_loop n i
            (if Z.of_nat i =? tr_size t then t
             else set_entry i (nth (Z.to_nat (tr_size t)) (tr_store t) null_entry) t)
        else remove_loop n (S i) t
      else mret t
  end.

Definition uvm_tracker_remove_completed (t : uvm_tracker_t) : M uvm_tracker_t :=
  remove_loop (Z.to_nat (tr_size t)) 0 t.

Definition uvm_tracker_is_completed (t : uvm_tracker_t) : M (bool * uvm_tracker_t) :=
  t ← uvm_tracker_remove_completed t;
  mret (tr_size t =? 0, t).

(** [None] is the dereference of a NULL channel. *)
Definition entry_check_errors (e : uvm_tracker_entry_t) : M (option Z) :=
  match te_channel e with
  | None => mret None
  | Some c => status ← world (op_check_errors c); mret (Some status)
  end.

Fixpoint check_errors_loop (l : list uvm_tracker_entry_t) : M (outcome Z) :=
  match l with
  | [] => mret (Done NV_OK)
  | e :: l =>
      status ← entry_check_errors e;
      match status with
      | None => mret Faulted
      | Some status => if negb (status =? NV_OK) then mret (Done status) else check_errors_loop l
      end
  end.

Definition uvm_tracker_check_errors (t : uvm_tracker_t) : M (outcome Z) :=
  status ← world op_global_status;
  if negb (status =? NV_OK) then mret (Done status) else check_errors_loop (tr_entries t).

Definition uvm_tracker_query (t : uvm_tracker_t) : M (outcome Z * uvm_tracker_t) :=
  '(completed, t) ← uvm_tracker_is_completed t;
  o ← uvm_tracker_check_errors t;
  mret (match o with
        | Done status =>
            if negb (status =? NV_OK) then Done status
            else Done (if (completed : bool) then NV_OK else NV_WARN_MORE_PROCESSING_REQUIRED)
        | o => o
        end, t).

(** ** Waiting *)

Fixpoint entry_wait_loop (fuel : nat) (e : uvm_tracker_entry_t) (status : Z) : M (outcome Z) :=
  match fuel with
  | O => mret Spinning
  | S fuel =>
      completed ← uvm_tracker_is_entry_completed e;
      if negb completed && (status =? NV_OK) then
        status ← entry_check_errors e;
        match status with
        | None => mret Faulted
        | Some status =>
            status ← (if status =? NV_OK then world op_global_status else mret status);
            entry_wait_loop fuel e status
        end
      else mret (Done status)
  end.

Definition wait_for_entry_with_spin (fuel : nat) (e : uvm_tracker_entry_t)
    : M (outcome Z * uvm_tracker_entry_t) :=
  o ← entry_wait_loop fuel e NV_OK;
  mret (o, match o with
           | Done status => if negb (status =? NV_OK) then null_entry else e
           | _ => e
           end).

Definition uvm_tracker_wait_for_entry := wait_for_entry_with_spin.

Fixpoint tracker_wait_loop (fuel : nat) (t : uvm_tracker_t) (status : Z) : M (outcome Z * uvm_tracker_t) :=
  match fuel with
  | O => mret (Spinning, t)
  | S fuel =>
      '(completed, t) ← uvm_tracker_is_completed t;
      if negb completed && (status =? NV_OK) then
        o ← uvm_tracker_check_errors t;
        match o with
        | Done status => tracker_wait_loop fuel t status
        | o => mret (o, t)
        end
      else mret (Done status, t)
  end.

Definition clear_on_error (o : outcome Z) (t : uvm_tracker_t) : uvm_tracker_t :=
  match o with
  | Done status => if negb (status =? NV_OK) then uvm_tracker_clear t else t
  | _ => t
  end.

Definition uvm_tracker_wait (fuel : nat) (t : uvm_tracker_t) : M (outcome Z * uvm_tracker_t) :=
  '(o, t) ← tracker_wait_loop fuel t NV_OK;
  mret (o, clear_on_error o t).

Definition uvm_tracker_wait_deinit (fuel : nat) (t : uvm_tracker_t) : M (outcome Z * uvm_tracker_t) :=
  '(o, t) ← uvm_tracker_wait fuel t;
  t ← uvm_tracker_deinit t;
  mret (o, t).

Definition uvm_tracker_entry_gpu (e : uvm_tracker_entry_t) : option Z := op_channel_gpu <$> te_channel e.

(** The loop over the entries from [i] on, [n] of them. *)
Fixpoint other_gpus_loop (fuel n i : nat) (gpu : Z) (t : uvm_tracker_t) : M (outcome Z * uvm_tracker_t) :=
  match n with
  | O => mret (Done NV_OK, t)
  | S n =>
      let e := nth i (tr_store t) null_entry in
      match uvm_tracker_entry_gpu e with
      | None => mret (Faulted, t)
      | Some g =>
          if g =? gpu then other_gpus_loop fuel n (S i) gpu t
          else
            '(o, e) ← wait_for_entry_with_spin fuel e;
            let t := set_entry i e t in
            match o with
            | Done status =>
                if negb (status =? NV_OK) then mret (Done status, t)
                else other_gpus_loop fuel n (S i) gpu t
            | o => mret (o, t)
            end
      end
  end.

Definition uvm_tracker_wait_for_other_gpus (fuel : nat) (t : uvm_tracker_t) (gpu : Z)
    : M (outcome Z * uvm_tracker_t) :=
  '(o, t) ← other_gpus_loop fuel (Z.to_nat (tr_size t)) 0 gpu t;
  match o with
  | Done status =>
      if status =? NV_OK then
        t ← uvm_tracker_remove_completed t;
        mret (Done status, t)
      else mret (Done status, uvm_tracker_clear t)
  | o => mret (o, t)
  end.

(** ** Adding a tracker *)

(** The entries of [src] for channels that [dst] does not track. *)
Definition needed_free_entries (dst src : uvm_tracker_t) : Z :=
  Z.of_nat (length (filter (λ e, te_channel e ∉ (te_channel <$> tr_entries dst)) (tr_entries src))).

Definition reserve_for_entries_from_tracker (dst src : uvm_tracker_t) : M (Z * uvm_tracker_t) :=
  uvm_tracker_reserve dst (needed_free_entries dst src).

(** The status of each addition is only asserted. *)
Fixpoint add_entries (dst : uvm_tracker_t) (l : list uvm_tracker_entry_t) : M uvm_tracker_t :=
  match l with
  | [] => mret dst
  | e :: l =>
      '(_, dst) ← uvm_tracker_add_entry dst e;
      add_entries dst l
  end.

(** The second argument of uvm_tracker_add_tracker: NULL, the first one itself,
    or another tracker. *)
Inductive src_tracker :=
| SrcNull
| SrcSame
| Src (t : uvm_tracker_t).

Definition uvm_tracker_add_tracker (dst : uvm_tracker_t) (src : src_tracker)
    : M (Z * uvm_tracker_t * src_tracker) :=
  match src with
  | SrcNull | SrcSame => mret (NV_OK, dst, src)
  | Src src =>
      if uvm_tracker_is_empty src then mret (NV_OK, dst, Src src)
      else
        '(status, dst) ← uvm_tracker_reserve dst (tr_size src);
        '(status, dst, src) ←
          (if status =? NV_ERR_NO_MEMORY then
             dst ← uvm_tracker_remove_completed dst;
             src ← uvm_tracker_remove_completed src;
             '(status, dst) ← reserve_for_entries_from_tracker dst src;
             mret (status, dst, src)
           else mret (status, dst, src));
        if negb (status =? NV_OK) then mret (status, dst, Src src)
        else
          dst ← add_entries dst (tr_entries src);
          mret (NV_OK, dst, Src src)
  end.

(** ** The safe variants *)

Definition uvm_tracker_overwrite_safe (fuel : nat) (dst src : uvm_tracker_t)
    : M (outcome Z * uvm_tracker_t * uvm_tracker_t) :=
  '(status, dst) ← uvm_tracker_overwrite dst src;
  if status =? NV_ERR_NO_MEMORY then
    '(o, src) ← uvm_tracker_wait fuel src;
    mret (o, dst, src)
  else mret (Done status, dst, src).

Definition uvm_tracker_add_entry_safe (fuel : nat) (t : uvm_tracker_t) (e : uvm_tracker_entry_t)
    : M (outcome Z * uvm_tracker_t * uvm_tracker_entry_t) :=
  '(status, t) ← uvm_tracker_add_entry t e;
  if status =? NV_ERR_NO_MEMORY then
    '(o, e) ← uvm_tracker_wait_for_entry fuel e;
    mret (o, t, e)
  else mret (Done status, t, e).

(** The wait of uvm_tracker_add_tracker_safe is for [src]; with no memory needed
    for NULL and for [dst] itself, it is another tracker. *)
Definition uvm_tracker_add_tracker_safe (fuel : nat) (dst : uvm_tracker_t) (src : src_tracker)
    : M (outcome Z * uvm_tracker_t * src_tracker) :=
  '(status, dst, src) ← uvm_tracker_add_tracker dst src;
  if status =? NV_ERR_NO_MEMORY then
    match src with
    | Src src => '(o, src) ← uvm_tracker_wait fuel src; mret (o, dst, Src src)
    | SrcSame => '(o, dst) ← uvm_tracker_wait fuel dst; mret (o, dst, SrcSame)
    | SrcNull => mret (Faulted, dst, SrcNull)
    end
  else mret (Done status, dst, src).

(** ** A tracker in use

    What a holder of a tracker calls on it. *)
Inductive trk_op :=
| OpAddEntry (e : uvm_tracker_entry_t)
| OpAddTracker (src : src_tracker)
| OpOverwrite (src : uvm_tracker_t)
| OpOverwriteEntry (e : uvm_tracker_entry_t)
| OpReserve (n : Z)
| OpRemove
| OpWait
| OpWaitOthers (gpu : Z)
| OpClear.

Definition run_op (fuel : nat) (op : trk_op) (t : uvm_tracker_t) : M (outcome Z * uvm_tracker_t) :=
  match op with
  | OpAddEntry e => '(o, t, _) ← uvm_tracker_add_entry_safe fuel t e; mret (o, t)
  | OpAddTracker src => '(o, t, _) ← uvm_tracker_add_tracker_safe fuel t src; mret (o, t)
  | OpOverwrite src => '(o, t, _) ← uvm_tracker_overwrite_safe fuel t src; mret (o, t)
  | OpOverwriteEntry e => '(status, t) ← uvm_tracker_overwrite_with_entry t e; mret (Done status, t)
  | OpReserve n => '(status, t) ← uvm_tracker_reserve t n; mret (Done status, t)
  | OpRemove => t ← uvm_tracker_remove_completed t; mret (Done NV_OK, t)
  | OpWait => uvm_tracker_wait fuel t
  | OpWaitOthers gpu => uvm_tracker_wait_for_other_gpus fuel t gpu
  | OpClear => mret (Done NV_OK, uvm_tracker_clear t)
  end.

(** The work the holder relies on after a call that returned [status]. *)
Definition op_deps (op : trk_op) (status : Z) (deps : list uvm_tracker_entry_t) : list uvm_tracker_entry_t :=
  match op with
  | OpAddEntry e => if status =? NV_OK then e :: deps else deps
  | OpAddTracker (Src src) => if status =? NV_OK then tr_entries src ++ deps else deps
  | OpOverwrite src => if status =? NV_OK then tr_entries src else []
  | OpOverwriteEntry e => [e]
  | OpWait | OpWaitOthers _ => if status =? NV_OK then deps else []
  | OpClear => []
  | _ => deps
  end.

Fixpoint run_ops (fuel : nat) (ops : list trk_op) (t : uvm_tracker_t) (deps : list uvm_tracker_entry_t)
    : M (outcome (uvm_tracker_t * list uvm_tracker_entry_t)) :=
  match ops with
  | [] => mret (Done (t, deps))
  | op :: ops =>
      '(o, t) ← run_op fuel op t;
      match o with
      | Done status => run_ops fuel ops t (op_deps op status deps)
      | Faulted => mret Faulted
      | Spinning => mret Spinning
      end
  end.

(** From the initialisation to uvm_tracker_wait_deinit. *)
Definition tracker_session (fuel : nat) (ops : list trk_op) : M (outcome (Z * list uvm_tracker_entry_t)) :=
  o ← run_ops fuel ops uvm_tracker_init [];
  match o with
  | Done (t, deps) =>
      '(o, _) ← uvm_tracker_wait_deinit fuel t;
      mret (match o with
            | Done status => Done (status, deps)
            | Faulted => Faulted
            | Spinning => Spinning
            end)
  | Faulted => mret Faulted
  | Spinning => mret Spinning
  end.
End tracker.

(** ** What the operations rely on

    Time [ch_now] advances with every query. At time [k] the GPU has released the
    values up to [ch_released k c] of channel [c], and [ch_fatal k] is the fatal
    error other threads have set, which the global status shows. A query is right
    about some moment of the call. *)
Class channel_laws (E W : Type) `{!channel_ops E W} := {
  ch_ok : W → Prop;
  ch_now : W → nat;
  ch_count : nat;
  ch_released : nat → nat → Z;
  ch_fatal : nat → Z;
  ch_count_bound : Z.of_nat ch_count < 2 ^ 30;
  ch_released_mono k k' c : (k ≤ k')%nat → ch_released k c ≤ ch_released k' c;
  ch_completed_law c v w : ch_ok w → (c < ch_count)%nat →
    runs_to (op_is_value_completed c v)
      (λ b w', ch_ok w' ∧ (ch_now w < ch_now w')%nat ∧
        (b = true → v ≤ ch_released (ch_now w') c) ∧
        (v ≤ ch_released (ch_now w) c → b = true)) w;
  ch_errors_law c w : ch_ok w → (c < ch_count)%nat →
    runs_to (op_check_errors c) (λ _ w', ch_ok w' ∧ (ch_now w ≤ ch_now w')%nat) w;
  ch_status_law w : ch_ok w →
    runs_to op_global_status
      (λ st w', ch_ok w' ∧ (ch_now w ≤ ch_now w')%nat ∧ (st = NV_OK → ch_fatal (ch_now w) = NV_OK)) w }.

(** * Lists of entries *)

(** The list after its last element replaces element [i]. *)
Definition swap_remove (i : nat) (l : list uvm_tracker_entry_t) : list uvm_tracker_entry_t :=
  take (length l - 1) (<[i := nth (length l - 1) l null_entry]> l).

Lemma swap_remove_length i l : length (swap_remove i l) = (length l - 1)%nat.
Proof. unfold swap_remove. rewrite length_take, length_insert. lia. Qed.

Lemma swap_remove_perm i l : (i < length l)%nat → l ≡ₚ nth i l null_entry :: swap_remove i l.
Proof.
  intros Hi. destruct l as [|x l _] using rev_ind; [simpl in Hi; lia|].
  unfold swap_remove. rewrite length_app in *. simpl in *.
  replace (length l + 1 - 1)%nat with (length l) by lia.
  assert (nth (length l) (l ++ [x]) null_entry = x) as -> by by rewrite app_nth2, Nat.sub_diag by lia.
  destruct (decide (i = length l)) as [->|Hne].
  - rewrite app_nth2, Nat.sub_diag by lia. simpl.
    rewrite insert_app_r_alt, Nat.sub_diag by lia. simpl. rewrite take_app_length.
    by rewrite Permutation_app_comm.
  - rewrite app_nth1, insert_app_l, take_app_le, take_ge by (rewrite ?length_insert; lia).
    assert (i < length l)%nat as Hi' by lia.
    destruct (lookup_lt_is_Some_2 l i Hi') as [y Hy].
    rewrite (nth_lookup_Some l i null_entry y Hy), insert_take_drop by done.
    rewrite <-(take_drop_middle l i y Hy) at 1. by solve_Permutation.
Qed.

Lemma swap_remove_take i l : (i < length l)%nat → take i (swap_remove i l) = take i l.
Proof.
  intros Hi. unfold swap_remove. rewrite take_take, take_insert_ge by lia.
  f_equal. lia.
Qed.

(** ** The map of a list of entries *)

Definition entry_map (l : list uvm_tracker_entry_t) : gmap (option nat) Z :=
  list_to_map ((λ e, (te_channel e, te_value e)) <$> l).

(** Track one more value of a channel. *)
Definition bump (e : uvm_tracker_entry_t) (m : gmap (option nat) Z) : gmap (option nat) Z :=
  partial_alter (λ o, Some (from_option (λ v, v `max` te_value e) (te_value e) o)) (te_channel e) m.

Definition map_max : gmap (option nat) Z → gmap (option nat) Z → gmap (option nat) Z :=
  union_with (λ v v', Some (v `max` v')).

Fixpoint merge_entry (l : list uvm_tracker_entry_t) (e : uvm_tracker_entry_t) : list uvm_tracker_entry_t :=
  match l with
  | [] => [e]
  | x :: l =>
      if decide (te_channel x = te_channel e)
      then TrackerEntry (te_channel x) (te_value x `max` te_value e) :: l
      else x :: merge_entry l e
  end.

Lemma merge_entry_find l e :
  merge_entry l e =
    match list_find (λ x, te_channel x = te_channel e) l with
    | Some (i, x) => <[i := TrackerEntry (te_channel x) (te_value x `max` te_value e)]> l
    | None => l ++ [e]
    end.
Proof.
  induction l as [|x l IH]; [done|]. simpl. case_decide; [done|]. rewrite IH.
  by destruct (list_find _ l) as [[i y]|].
Qed.

Lemma entry_map_cons e l : entry_map (e :: l) = <[te_channel e := te_value e]> (entry_map l).
Proof. done. Qed.

Lemma merge_entry_map l e : entry_map (merge_entry l e) = bump e (entry_map l).
Proof.
  unfold bump. induction l as [|x l IH]; cbn [merge_entry].
  - rewrite entry_map_cons. change (entry_map []) with (∅ : gmap (option nat) Z).
    apply map_eq. intros c. destruct (decide (c = te_channel e)) as [->|Hc].
    + by rewrite lookup_partial_alter_eq, lookup_insert_eq, lookup_empty.
    + by rewrite lookup_partial_alter_ne, lookup_insert_ne, lookup_empty.
  - case_decide as Hx; rewrite !entry_map_cons; cbn [te_channel te_value].
    + rewrite <-Hx. apply map_eq. intros c. destruct (decide (c = te_channel x)) as [->|Hc].
      * by rewrite lookup_partial_alter_eq, !lookup_insert_eq.
      * by rewrite lookup_partial_alter_ne, !lookup_insert_ne.
    + rewrite IH. apply map_eq. intros c. destruct (decide (c = te_channel e)) as [->|Hc].
      * by rewrite lookup_partial_alter_eq, !lookup_insert_ne, lookup_partial_alter_eq.
      * rewrite lookup_partial_alter_ne by done. destruct (decide (c = te_channel x)) as [->|Hc'].
        -- by rewrite !lookup_insert_eq.
        -- by rewrite !lookup_insert_ne, lookup_partial_alter_ne.
Qed.

Lemma merge_entry_channels l e c :
  c ∈ te_channel <$> merge_entry l e ↔ c = te_channel e ∨ c ∈ te_channel <$> l.
Proof.
  induction l as [|x l IH]; simpl; [set_solver|]. case_decide; simpl; set_solver.
Qed.

Lemma merge_entry_NoDup l e : NoDup (te_channel <$> l) → NoDup (te_channel <$> merge_entry l e).
Proof.
  induction l as [|x l IH]; simpl; [intros _; apply NoDup_singleton|].
  intros [Hx Hl]%NoDup_cons. case_decide; simpl; apply NoDup_cons; split; try done; [|by apply IH].
  by intros [|]%merge_entry_channels.
Qed.

Lemma merge_entry_length l e :
  length (merge_entry l e) =
    (length l + if decide (te_channel e ∈ te_channel <$> l) then 0 else 1)%nat.
Proof.
  induction l as [|x l IH]; [done|]. cbn [merge_entry].
  destruct (decide (te_channel x = te_channel e)) as [H1|H1]; simpl.
  - rewrite decide_True by (rewrite H1; left). lia.
  - rewrite IH. case_decide as H2; case_decide as H3; try lia; set_solver.
Qed.

Lemma merge_entries_map l l' : NoDup (te_channel <$> l') →
  entry_map (foldl merge_entry l l') = map_max (entry_map l) (entry_map l').
Proof.
  revert l. induction l' as [|e l' IH]; intros l; simpl.
  { intros _. apply map_eq. intros c. unfold map_max, entry_map. simpl.
    rewrite lookup_union_with, lookup_empty. by destruct (_ !! c). }
  intros [He Hl]%NoDup_cons. rewrite IH, merge_entry_map by done.
  apply map_eq. intros c. unfold map_max, bump. rewrite !lookup_union_with.
  rewrite entry_map_cons.
  destruct (decide (c = te_channel e)) as [->|Hc].
  - rewrite lookup_partial_alter_eq, lookup_insert_eq.
    assert (entry_map l' !! te_channel e = None) as ->; [|by destruct (entry_map l !! _)].
    apply not_elem_of_list_to_map. by rewrite <-list_fmap_compose.
  - by rewrite lookup_partial_alter_ne, lookup_insert_ne.
Qed.

Lemma filter_length_mono {A} (P Q : A → Prop) `{!∀ x, Decision (P x), !∀ x, Decision (Q x)} (l : list A) :
  (∀ x, P x → Q x) → (length (filter P l) ≤ length (filter Q l))%nat.
Proof.
  intros HPQ. induction l as [|x l IH]; [done|]. rewrite !filter_cons.
  case_decide as HP; case_decide as HQ; simpl; try lia. by destruct HQ; apply HPQ.
Qed.

(** Room for the channels that are not yet tracked is room for all entries. *)
Lemma merge_entries_length l l' :
  (length l ≤ length (foldl merge_entry l l') ≤
   length l + length (filter (λ e, te_channel e ∉ (te_channel <$> l)) l'))%nat.
Proof.
  revert l. induction l' as [|e l' IH]; intros l; simpl; [lia|].
  specialize (IH (merge_entry l e)). rewrite merge_entry_length in IH. rewrite filter_cons.
  assert (length (filter (λ x, te_channel x ∉ (te_channel <$> merge_entry l e)) l') ≤
    length (filter (λ x, te_channel x ∉ (te_channel <$> l)) l'))%nat as Hm.
  { apply filter_length_mono. intros x Hx Hin. apply Hx, merge_entry_channels. by right. }
  case_decide; case_decide; simpl; try lia; done.
Qed.

Lemma merge_entry_cover l y e : e ∈ l ∨ e = y →
  ∃ x, x ∈ merge_entry l y ∧ te_channel x = te_channel e ∧ te_value e ≤ te_value x.
Proof.
  induction l as [|z l IH]; simpl.
  { intros [?%elem_of_nil| ->]; [done|]. exists y. split_and!; [left|done|lia]. }
  case_decide as Hz.
  - intros [[->|Hl]%elem_of_cons| ->].
    + eexists. split_and!; [left|done|simpl; lia].
    + exists e. split_and!; [by right|done|lia].
    + eexists. split_and!; [left|done|simpl; lia].
  - intros [[->|Hl]%elem_of_cons|He].
    + exists z. split_and!; [left|done|lia].
    + destruct IH as (x & ? & ?); [by left|]. exists x. split; [by right|done].
    + destruct IH as (x & ? & ?); [by right|]. exists x. split; [by right|done].
Qed.

Lemma merge_entry_from l y x : x ∈ merge_entry l y → x ∈ l ∨ x = y.
Proof.
  induction l as [|z l IH]; simpl; [intros ->%list_elem_of_singleton; by right|].
  case_decide as Hz; intros [->|H]%elem_of_cons; [|set_solver..].
  destruct (Z.max_spec (te_value z) (te_value y)) as [[_ ->]|[_ ->]].
  - right. rewrite Hz. by destruct y.
  - left. destruct z. left.
Qed.

(** Merging loses no dependency and makes none up. *)
Lemma merge_entries_cover l l' e : e ∈ l ∨ e ∈ l' →
  ∃ x, x ∈ foldl merge_entry l l' ∧ te_channel x = te_channel e ∧ te_value e ≤ te_value x.
Proof.
  assert (∀ l' l x e, x ∈ l → te_channel x = te_channel e → te_value e ≤ te_value x →
    ∃ z, z ∈ foldl merge_entry l l' ∧ te_channel z = te_channel e ∧ te_value e ≤ te_value z) as Hkeep.
  { clear. induction l' as [|y l' IH]; intros l x e Hx Hc Hv; simpl; [by exists x|].
    destruct (merge_entry_cover l y x (or_introl Hx)) as (z & Hz & Hzc & Hzv).
    eapply IH; [done|congruence|lia]. }
  intros [He|He]; [by eapply Hkeep|]. revert l. induction l' as [|y l' IH]; intros l; [by apply elem_of_nil in He|].
  simpl. apply elem_of_cons in He as [->|He]; [|by apply IH].
  destruct (merge_entry_cover l y y (or_intror eq_refl)) as (z & Hz & Hzc & Hzv). by eapply Hkeep.
Qed.

Lemma merge_entries_from l l' x : x ∈ foldl merge_entry l l' → x ∈ l ∨ x ∈ l'.
Proof.
  revert l. induction l' as [|y l' IH]; intros l; simpl; [by left|].
  intros [[|]%merge_entry_from|]%IH; set_solver.
Qed.

Section specs.
Context {E W : Type} `{!channel_ops E W, !channel_laws E W}.
Implicit Types (t dst src : uvm_tracker_t) (e : uvm_tracker_entry_t) (s : tsys W).

(** ** Invariants *)

Definition valid_entry e : Prop := ∀ c, te_channel e = Some c → (c < ch_count)%nat.

(** The work of the entry is done at time [k]. *)
Definition entry_done (k : nat) e : Prop := ∀ c, te_channel e = Some c → te_value e ≤ ch_released k c.

Record tr_shape t : Prop := {
  tr_len : length (tr_store t) = Z.to_nat (tr_max_size t);
  tr_fits : 0 ≤ tr_size t ≤ tr_max_size t;
  tr_room : tr_max_size t = 1 ∨ 8 ≤ tr_max_size t ≤ 2 ^ 31 }.

Record tr_inv t : Prop := {
  tr_inv_shape : tr_shape t;
  tr_nodup : NoDup (te_channel <$> tr_entries t);
  tr_valid c : Some c ∈ te_channel <$> tr_entries t → (c < ch_count)%nat }.

(** The blocks a tracker owns. *)
Definition own t : Z := if (tr_max_size t =? 1) || (tr_max_size t =? 0) then 0 else 1.

(** What a call that does not allocate does to the system. *)
Record passes s s' : Prop := {
  pass_ok : ch_ok (ts_world s');
  pass_now : (ch_now (ts_world s) ≤ ch_now (ts_world s'))%nat;
  pass_live : ts_live s' = ts_live s }.

#[local] Abbreviation now s := (ch_now (ts_world s)).

Lemma passes_refl s : ch_ok (ts_world s) → passes s s.
Proof. by split. Qed.

Lemma passes_trans s s' s'' : passes s s' → passes s' s'' → passes s s''.
Proof. intros [] []. split; [done|lia|congruence]. Qed.

Lemma entry_done_mono k k' e : (k ≤ k')%nat → entry_done k e → entry_done k' e.
Proof. intros Hk H c Hc. etrans; [by apply H|by apply ch_released_mono]. Qed.

Lemma done_passes s s' e : passes s s' → entry_done (now s) e → entry_done (now s') e.
Proof. intros []. by apply entry_done_mono. Qed.

Lemma tr_entries_length t : tr_shape t → length (tr_entries t) = Z.to_nat (tr_size t).
Proof. intros [Hl Hf _]. unfold tr_entries. rewrite length_take. lia. Qed.

Lemma tr_size_entries t : tr_shape t → tr_size t = Z.of_nat (length (tr_entries t)).
Proof. intros H. rewrite tr_entries_length by done. destruct H. lia. Qed.

Lemma tr_nth t i : (i < Z.to_nat (tr_size t))%nat →
  nth i (tr_store t) null_entry = nth i (tr_entries t) null_entry.
Proof.
  intros Hi. unfold tr_entries. rewrite <-(take_drop (Z.to_nat (tr_size t)) (tr_store t)) at 1.
  destruct (decide (i < length (take (Z.to_nat (tr_size t)) (tr_store t)))%nat).
  - by apply app_nth1.
  - rewrite length_take in *. rewrite !nth_overflow; [done|..]; rewrite ?length_app, ?length_take, ?length_drop; lia.
Qed.

(** Distinct channels bound the size. *)
Lemma tr_size_bound t : tr_inv t → tr_size t ≤ 2 ^ 30.
Proof.
  intros [Hs Hn Hv]. rewrite tr_size_entries, <-(length_fmap te_channel) by done.
  assert (te_channel <$> tr_entries t ⊆+ None :: (Some <$> seq 0 ch_count)) as Hsub.
  { apply NoDup_submseteq; [done|]. intros [c|] Hc; [right|left].
    apply list_elem_of_fmap. exists c. split; [done|]. apply elem_of_seq. specialize (Hv c Hc). lia. }
  apply submseteq_length in Hsub. simpl in Hsub. rewrite (length_fmap Some), length_seq in Hsub.
  pose proof ch_count_bound. lia.
Qed.

Lemma tr_init_inv : tr_inv uvm_tracker_init.
Proof. split; [split; simpl; lia|constructor|set_solver]. Qed.

Lemma tr_clear_inv t : tr_shape t → tr_inv (uvm_tracker_clear t).
Proof. intros []. split; [split; simpl; lia|constructor|set_solver]. Qed.

Lemma tr_clear_entries t : tr_entries (uvm_tracker_clear t) = [].
Proof. done. Qed.

Lemma world_runs {A} (m : prog E W A) (Q : A → tsys W → Prop) s :
  runs_to m (λ a w, Q a (TSys w (ts_calls s) (ts_live s))) (ts_world s) → runs_to (world m) Q s.
Proof. unfold runs_to, world, zoom, run_val, run_st. by destruct (m (ts_world s)) as [[??]?]. Qed.

(** ** Removing what is done *)

Lemma tr_entries_set t i e : (i < Z.to_nat (tr_size t))%nat →
  tr_entries (set_entry i e t) = <[i := e]> (tr_entries t).
Proof. intros Hi. unfold tr_entries. simpl. by rewrite take_insert_lt. Qed.

Lemma is_entry_completed_spec e s : ch_ok (ts_world s) → valid_entry e →
  runs_to (uvm_tracker_is_entry_completed e)
    (λ b s', passes s s' ∧ (b = true → entry_done (now s') e) ∧
      (entry_done (now s) e → b = true) ∧ (b = false → now s < now s')%nat) s.
Proof.
  intros Hok He. unfold uvm_tracker_is_entry_completed. destruct (te_channel e) as [c|] eqn:Hc.
  - apply world_runs. eapply runs_to_mono; [apply ch_completed_law; [done|by apply He]|].
    intros b w (H1 & H2 & H3 & H4). split; [split; [done|simpl; lia|done]|].
    split_and!.
    + intros Hb c' Hc'. simplify_eq/=. by apply H3.
    + intros Hd. by apply H4, Hd.
    + done.
  - apply runs_to_ret. split; [by apply passes_refl|]. split_and!; [|done|done]. intros _ c Hc'. congruence.
Qed.

(** Entries go, only done ones. *)
Definition pruned (k : nat) (l l' : list uvm_tracker_entry_t) : Prop :=
  ∃ removed, l ≡ₚ l' ++ removed ∧ Forall (entry_done k) removed.

(** And the storage stays. *)
Record prunes t s t' s' : Prop := {
  prune_passes : passes s s';
  prune_shape : tr_shape t';
  prune_max : tr_max_size t' = tr_max_size t;
  prune_perm : pruned (now s') (tr_entries t) (tr_entries t') }.

Lemma tr_take t k : (k ≤ Z.to_nat (tr_size t))%nat → take k (tr_entries t) = take k (tr_store t).
Proof. intros Hk. unfold tr_entries. rewrite take_take. f_equal. lia. Qed.

Lemma tr_entries_swap_remove t i : tr_shape t → (i < length (tr_entries t))%nat →
  let t0 := set_size (tr_size t - 1) t in
  let t' := if Z.of_nat i =? tr_size t0 then t0
            else set_entry i (nth (Z.to_nat (tr_size t0)) (tr_store t0) null_entry) t0 in
  tr_shape t' ∧ tr_max_size t' = tr_max_size t ∧ tr_entries t' = swap_remove i (tr_entries t).
Proof.
  intros Hs Hi t0 t'. pose proof (tr_entries_length t Hs) as Hlen. destruct Hs as [Hl Hf Hr].
  assert (tr_size t0 = tr_size t - 1) as Hsz by done.
  assert (Z.to_nat (tr_size t0) = length (tr_entries t) - 1)%nat as Hn by lia.
  assert (tr_entries t0 = take (length (tr_entries t) - 1) (tr_entries t)) as H0.
  { rewrite tr_take by lia. unfold tr_entries at 1. by rewrite Hn. }
  unfold t', swap_remove. destruct (Z.eqb_spec (Z.of_nat i) (tr_size t0)) as [Heq|Hne].
  - split_and!; [split; simpl; lia|done|]. rewrite take_insert_ge by lia. done.
  - split_and!; [split; simpl; rewrite ?length_insert; lia|done|].
    rewrite tr_entries_set by lia. rewrite H0, take_insert_lt by lia. f_equal.
    change (tr_store t0) with (tr_store t). rewrite Hn. apply tr_nth. lia.
Qed.

Lemma remove_loop_spec n i t s : ch_ok (ts_world s) → tr_shape t →
  (∀ e, e ∈ tr_entries t → valid_entry e) → length (tr_entries t) = (i + n)%nat →
  runs_to (remove_loop n i t)
    (λ t' s', prunes t s t' s' ∧ (i ≤ length (tr_entries t'))%nat ∧
      take i (tr_entries t') = take i (tr_entries t) ∧
      ((i < length (tr_entries t')) → now s < now s')%nat ∧
      Forall (λ e, ¬ entry_done (now s) e) (drop i (tr_entries t'))) s.
Proof.
  revert i t s. induction n as [|n IH]; intros i t s Hok Hs Hv Hn.
  { apply runs_to_ret. split_and!; [|lia|done|lia|by rewrite drop_ge by lia].
    split; [by apply passes_refl|done|done|]. exists []. by rewrite app_nil_r. }
  cbn [remove_loop]. rewrite (proj2 (Z.ltb_lt (Z.of_nat i) (tr_size t))) by (rewrite tr_size_entries by done; lia).
  rewrite (tr_nth t i) by (rewrite <-tr_entries_length by done; lia). set (e := nth i (tr_entries t) null_entry).
  assert (tr_entries t !! i = Some e) as Hie by (destruct (nth_lookup_or_length (tr_entries t) i null_entry); [done|lia]).
  eapply runs_to_seq; [apply is_entry_completed_spec; [done|]|].
  { eapply Hv, list_elem_of_lookup_2, Hie. }
  intros [] s1 (Hp & Hdone & Hnd & Hlt).
  - destruct (tr_entries_swap_remove t i Hs) as (Hs' & Hm' & Heq); [lia|]. cbv zeta in *.
    pose proof (swap_remove_perm i (tr_entries t) ltac:(lia)) as Hperm. fold e in Hperm. rewrite <-Heq in Hperm.
    eapply runs_to_mono; [apply IH; [apply Hp|done| |]|].
    + intros x Hx. apply Hv. rewrite Hperm. by right.
    + rewrite Heq, swap_remove_length. lia.
    + intros t' s' ([Hp' Hs2 Hm2 (rem & Hperm' & Hrem)] & Hi' & Htake & Hadv & Hall).
      split_and!; [|done|by rewrite Htake, Heq, swap_remove_take by lia|intros ?%Hadv; destruct Hp; lia|].
      * split; [by eapply passes_trans|done|congruence|]. exists (e :: rem). split.
        -- rewrite Hperm at 1. rewrite Hperm'. by rewrite Permutation_middle.
        -- constructor; [|done]. eapply done_passes; [done|by apply Hdone].
      * eapply Forall_impl; [done|]. intros x Hx Hd. apply Hx. by eapply done_passes.
  - assert (¬ entry_done (now s) e) as Hne by (intros H%Hnd; done).
    eapply runs_to_mono; [apply IH; [apply Hp|done|done|lia]|].
    intros t' s' ([Hp' Hs2 Hm2 (rem & Hperm' & Hrem)] & Hi' & Htake & Hadv & Hall).
    assert (tr_entries t' !! i = Some e) as Hie'.
    { rewrite <-Hie, <-(lookup_take_lt _ (S i)), Htake, lookup_take_lt by lia. done. }
    split_and!; [|lia| |specialize (Hlt eq_refl); destruct Hp'; lia|].
    + split; [by eapply passes_trans|done..|]. by exists rem.
    + assert (take i (take (S i) (tr_entries t')) = take i (take (S i) (tr_entries t))) as Ht by by rewrite Htake.
      rewrite !take_take, !Nat.min_l in Ht by lia. done.
    + rewrite (drop_S _ e) by done. constructor; [done|].
      eapply Forall_impl; [done|]. intros x Hx Hd. apply Hx. by eapply done_passes.
Qed.

Lemma tr_valid_entry t e : tr_inv t → e ∈ tr_entries t → valid_entry e.
Proof. intros Ht He c Hc. apply (tr_valid _ Ht), list_elem_of_fmap. by exists e. Qed.

Lemma prunes_elem t s t' s' e : prunes t s t' s' → e ∈ tr_entries t → e ∈ tr_entries t' ∨ entry_done (now s') e.
Proof.
  intros [_ _ _ (rem & Hp & Hr)]. rewrite Hp, elem_of_app. intros [?|?]; [by left|right].
  rewrite Forall_forall in Hr. by apply Hr.
Qed.

Lemma prunes_sub t s t' s' e : prunes t s t' s' → e ∈ tr_entries t' → e ∈ tr_entries t.
Proof. intros [_ _ _ (rem & Hp & Hr)] He. rewrite Hp, elem_of_app. by left. Qed.

Lemma prunes_inv t s t' s' : prunes t s t' s' → tr_inv t → tr_inv t'.
Proof.
  intros Hpr [_ Hn Hv]. pose proof Hpr as [_ Hs _ (rem & Hp & _)]. split; [done|..].
  - rewrite Hp, fmap_app in Hn. by apply NoDup_app in Hn as [? _].
  - intros c (e & Hc & He)%list_elem_of_fmap. apply Hv, list_elem_of_fmap. exists e. split; [done|].
    by eapply prunes_sub.
Qed.

Lemma prunes_refl t s : ch_ok (ts_world s) → tr_shape t → prunes t s t s.
Proof. intros. split; [by apply passes_refl|done|done|]. exists []. by rewrite app_nil_r. Qed.

Lemma prunes_trans t s t1 s1 s2 t' s' :
  prunes t s t1 s1 → passes s1 s2 → prunes t1 s2 t' s' → prunes t s t' s'.
Proof.
  intros [Hp1 _ Hm1 (r1 & Hr1 & Hd1)] Hp [Hp2 Hs2 Hm2 (r2 & Hr2 & Hd2)].
  split; [by eapply passes_trans, passes_trans|done|congruence|].
  exists (r2 ++ r1). rewrite Hr1, Hr2, (assoc_L (++)). split; [done|]. apply Forall_app. split; [done|].
  eapply Forall_impl; [done|]. intros e He. by eapply done_passes, done_passes.
Qed.

Lemma remove_completed_spec t s : ch_ok (ts_world s) → tr_inv t →
  runs_to (uvm_tracker_remove_completed t)
    (λ t' s', prunes t s t' s' ∧ tr_inv t' ∧ (tr_entries t' ≠ [] → now s < now s')%nat ∧
      Forall (λ e, ¬ entry_done (now s) e) (tr_entries t')) s.
Proof.
  intros Hok Ht. eapply runs_to_mono; [apply remove_loop_spec; [done|apply Ht|..]|].
  - intros e. by apply tr_valid_entry.
  - rewrite tr_entries_length by apply Ht. lia.
  - intros t' s' (Hp & _ & _ & Hadv & Hall). split_and!; [done|by eapply prunes_inv| |done].
    intros Hne. apply Hadv. destruct (tr_entries t'); simpl; [done|lia].
Qed.

(** ** Waiting *)

(** From time [K] on the work is done, or the driver is in a fatal state. *)
Definition settles (K : nat) (l : list uvm_tracker_entry_t) : Prop :=
  (∀ e, e ∈ l → entry_done K e) ∨ (∀ k, (K ≤ k)%nat → ch_fatal k ≠ NV_OK).

(** Rounds enough to see it. *)
Definition enough (K fuel : nat) (status : Z) s : Prop :=
  if status =? NV_OK then (2 ≤ fuel ∧ K + 2 ≤ now s + fuel)%nat else (1 ≤ fuel)%nat.

(** A round that neither finds the work done nor sees a fatal state is before
    [K]. *)
Lemma enough_step K fuel status s s' l e : (now s < now s')%nat → settles K l →
  e ∈ l → ¬ entry_done (now s) e →
  (status = NV_OK → ∃ k, (now s ≤ k)%nat ∧ ch_fatal k = NV_OK) →
  enough K (S fuel) NV_OK s → enough K fuel status s'.
Proof.
  intros Hs HK He Hne Hst [H1 H2]. unfold enough. destruct (Z.eqb_spec status NV_OK) as [Heq|]; [|lia].
  assert (now s < K)%nat; [|lia]. destruct HK as [Hd|Hd].
  - destruct (decide (now s < K)%nat) as [|Hge]; [done|]. destruct Hne. eapply entry_done_mono; [|by apply Hd]. lia.
  - destruct (Hst Heq) as (k & Hk & Hf). destruct (decide (now s < K)%nat); [done|]. destruct (Hd k); [lia|done].
Qed.

Lemma entry_check_errors_spec e s : ch_ok (ts_world s) → valid_entry e → te_channel e ≠ None →
  runs_to (entry_check_errors e) (λ o s', passes s s' ∧ is_Some o) s.
Proof.
  intros Hok He Hc. unfold entry_check_errors. destruct (te_channel e) as [c|] eqn:Hce; [|done].
  apply runs_to_bind. apply world_runs. eapply runs_to_mono; [apply ch_errors_law; [done|by apply He]|].
  intros st w [H1 H2]. split; [split; [done|done|done]|by eexists].
Qed.

Lemma global_status_spec s : ch_ok (ts_world s) →
  runs_to (world op_global_status) (λ st s', passes s s' ∧ (st = NV_OK → ch_fatal (now s) = NV_OK)) s.
Proof.
  intros Hok. apply world_runs. eapply runs_to_mono; [by apply ch_status_law|].
  intros st w (H1 & H2 & H3). split; [by split|done].
Qed.

(** Nothing is dereferenced through NULL, and success means the global status
    was read as fine. *)
Lemma check_errors_spec t s : ch_ok (ts_world s) → tr_inv t → (None ∉ te_channel <$> tr_entries t) →
  runs_to (uvm_tracker_check_errors t)
    (λ o s', passes s s' ∧ ∃ st, o = Done st ∧ (st = NV_OK → ch_fatal (now s) = NV_OK)) s.
Proof.
  intros Hok Ht Hnn. unfold uvm_tracker_check_errors.
  eapply runs_to_seq; [by apply global_status_spec|]. intros st s1 [Hp Hf].
  destruct (Z.eqb_spec st NV_OK) as [->|Hne]; simpl.
  2: { apply runs_to_ret. split; [done|]. exists st. split; [done|]. by intros ->. }
  specialize (Hf eq_refl).
  assert (∀ e, e ∈ tr_entries t → valid_entry e ∧ te_channel e ≠ None) as Hl.
  { intros e He. split; [by eapply tr_valid_entry|]. intros Hn. apply Hnn, list_elem_of_fmap. by exists e. }
  clear Hnn Ht. pose proof (pass_ok _ _ Hp) as Hok1.
  assert (runs_to (check_errors_loop (tr_entries t)) (λ o s', passes s1 s' ∧ ∃ st, o = Done st) s1) as HL.
  { clear Hp. revert s1 Hok1. induction (tr_entries t) as [|e l IH]; intros s1 Hok1.
    { apply runs_to_ret. split; [by apply passes_refl|by eexists]. }
    cbn [check_errors_loop]. destruct (Hl e) as [He1 He2]; [left|].
    eapply runs_to_seq; [by apply entry_check_errors_spec|]. intros ? s2 [Hp2 [st ->]].
    destruct (negb _); [apply runs_to_ret; split; [done|by eexists]|].
    eapply runs_to_mono; [apply IH; [set_solver|apply Hp2]|].
    intros o s3 [Hp3 Ho]. split; [by eapply passes_trans|done]. }
  eapply runs_to_mono; [exact HL|]. intros o s' [Hp' [st ->]]. split; [by eapply passes_trans|]. by eexists.
Qed.

Lemma entry_wait_loop_spec fuel e status s : ch_ok (ts_world s) → valid_entry e →
  runs_to (entry_wait_loop fuel e status)
    (λ o s', passes s s' ∧
      match o with
      | Done st => st = NV_OK → status = NV_OK ∧ entry_done (now s') e
      | Faulted => False
      | Spinning => ∀ K, settles K [e] → ¬ enough K fuel status s
      end) s.
Proof.
  revert status s. induction fuel as [|fuel IH]; intros status s Hok He.
  { apply runs_to_ret. split; [by apply passes_refl|]. intros K _. unfold enough. case_match; lia. }
  cbn [entry_wait_loop]. eapply runs_to_seq; [by apply is_entry_completed_spec|].
  intros b s1 (Hp & Hdone & Hnd & Hlt). destruct b; simpl.
  { apply runs_to_ret. split; [done|]. intros ->. split; [done|by apply Hdone]. }
  destruct (Z.eqb_spec status NV_OK) as [->|Hne]; [|by apply runs_to_ret].
  assert (¬ entry_done (now s) e) as Hnot by (intros ?%Hnd; done).
  assert (te_channel e ≠ None) as Hc by (intros Hc; apply Hnot; intros c ?; congruence).
  eapply runs_to_seq; [apply entry_check_errors_spec; [apply Hp|done|done]|].
  intros ? s2 [Hp2 [st ->]].
  eapply (runs_to_seq _ _ (λ st' s3, passes s2 s3 ∧ (st' = NV_OK → ch_fatal (now s2) = NV_OK))).
  { destruct (Z.eqb_spec st NV_OK).
    - apply global_status_spec, Hp2.
    - apply runs_to_ret. split; [apply passes_refl, Hp2|done]. }
  intros st' s3 [Hp3 Hst]. assert (passes s s3) as Hp03 by (eapply passes_trans; [|eapply passes_trans]; done).
  eapply runs_to_mono; [apply IH; [apply Hp3|done]|].
  intros o s4 [Hp4 Ho]. split; [by eapply passes_trans|]. destruct o; [naive_solver|done|].
  intros K HK Hen. apply (Ho K HK). eapply enough_step; [|done|by left|done| |done].
  - specialize (Hlt eq_refl). destruct Hp2, Hp3. lia.
  - intros ->. exists (now s2). split; [|by apply Hst]. destruct Hp, Hp2. lia.
Qed.

Lemma tracker_wait_loop_spec fuel t status s : ch_ok (ts_world s) → tr_inv t →
  runs_to (tracker_wait_loop fuel t status)
    (λ '(o, t') s', prunes t s t' s' ∧
      match o with
      | Done st => st = NV_OK → status = NV_OK ∧ tr_entries t' = []
      | Faulted => False
      | Spinning => ∀ K, settles K (tr_entries t) → ¬ enough K fuel status s
      end) s.
Proof.
  revert t status s. induction fuel as [|fuel IH]; intros t status s Hok Ht.
  { apply runs_to_ret. split; [apply prunes_refl; [done|apply Ht]|]. intros K _. unfold enough. case_match; lia. }
  cbn [tracker_wait_loop]. unfold uvm_tracker_is_completed. apply runs_to_bind, runs_to_bind.
  eapply runs_to_mono; [by apply remove_completed_spec|]. intros t1 s1 (Hp & Ht1 & Hadv & Hall).
  apply runs_to_ret. pose proof (tr_size_entries t1 (tr_inv_shape _ Ht1)) as Hsz.
  destruct (Z.eqb_spec (tr_size t1) 0) as [H0|H0]; simpl.
  { apply runs_to_ret. split; [done|]. intros ->. split; [done|]. apply nil_length_inv. lia. }
  destruct (Z.eqb_spec status NV_OK) as [->|Hne]; [|by apply runs_to_ret].
  assert (∃ e, e ∈ tr_entries t1) as [e He].
  { destruct (tr_entries t1) as [|e l]; [simpl in *; lia|]. exists e. left. }
  rewrite Forall_forall in Hall.
  eapply runs_to_seq; [apply check_errors_spec; [apply Hp|done|]|].
  { intros (x & Hx & Hin)%list_elem_of_fmap. apply (Hall x Hin). intros c ?. congruence. }
  intros ? s2 (Hp2 & st & -> & Hst).
  eapply runs_to_mono; [apply IH; [apply Hp2|done]|].
  intros [o t'] s3 [Hp3 Ho]. split; [by eapply prunes_trans|]. destruct o; [naive_solver|done|].
  intros K HK Hen. apply (Ho K).
  { destruct HK as [HK|HK]; [left|by right]. intros x Hx. apply HK. by eapply prunes_sub. }
  eapply enough_step; [|done|by eapply prunes_sub|by apply Hall| |done].
  - assert (now s < now s1)%nat by (apply Hadv; intros Heq; rewrite Heq in He; by apply elem_of_nil in He).
    destruct Hp2. lia.
  - intros ->. exists (now s1). split; [|by apply Hst]. destruct Hp as [[]]. lia.
Qed.

(** What a wait on the tracker guarantees, [left] being what may stay in it. *)
Definition waited fuel t s (left : uvm_tracker_entry_t → Prop) (o : outcome Z) t' s' : Prop :=
  passes s s' ∧ tr_inv t' ∧ tr_max_size t' = tr_max_size t ∧
  match o with
  | Done st =>
      if st =? NV_OK then prunes t s t' s' ∧ (∀ e, e ∈ tr_entries t' → left e) else tr_entries t' = []
  | Faulted => False
  | Spinning => ∀ K, settles K (tr_entries t) → ¬ enough K fuel NV_OK s
  end.

Lemma wait_spec fuel t s : ch_ok (ts_world s) → tr_inv t →
  runs_to (uvm_tracker_wait fuel t) (λ '(o, t') s', waited fuel t s (λ _, False) o t' s') s.
Proof.
  intros Hok Ht. unfold uvm_tracker_wait. eapply runs_to_seq; [by apply tracker_wait_loop_spec|].
  intros [o t'] s' [Hp Ho]. apply runs_to_ret. pose proof (prunes_inv _ _ _ _ Hp Ht) as Ht'.
  unfold waited. destruct o as [st| |]; simpl; [|done|split_and!; [apply Hp|done|apply Hp|done]].
  destruct (Z.eqb_spec st NV_OK) as [->|Hne]; simpl.
  - split_and!; [apply Hp|done|apply Hp|done|]. destruct (Ho eq_refl) as [_ ->]. by intros e ?%elem_of_nil.
  - split_and!; [apply Hp|apply tr_clear_inv, Ht'|apply Hp|done].
Qed.

Lemma set_entry_same t i e : tr_entries t !! i = Some e → set_entry i e t = t.
Proof.
  intros Hi. unfold tr_entries in Hi. apply lookup_take_Some in Hi as [Hi _].
  unfold set_entry. rewrite list_insert_id by done. by destruct t.
Qed.

Lemma other_gpus_loop_spec fuel gpu n i t s : ch_ok (ts_world s) → tr_inv t →
  (None ∉ te_channel <$> tr_entries t) → length (tr_entries t) = (i + n)%nat →
  (∀ e j, tr_entries t !! j = Some e → (j < i)%nat → uvm_tracker_entry_gpu e = Some gpu ∨ entry_done (now s) e) →
  runs_to (other_gpus_loop fuel n i gpu t)
    (λ '(o, t') s', passes s s' ∧ tr_shape t' ∧ tr_max_size t' = tr_max_size t ∧
      match o with
      | Done st => st = NV_OK → t' = t ∧
          ∀ e, e ∈ tr_entries t → uvm_tracker_entry_gpu e = Some gpu ∨ entry_done (now s') e
      | Faulted => False
      | Spinning => t' = t ∧ ∀ K, settles K (tr_entries t) → ¬ enough K fuel NV_OK s
      end) s.
Proof.
  revert i s. induction n as [|n IH]; intros i s Hok Ht Hnn Hlen Hbefore.
  { apply runs_to_ret. split_and!; [by apply passes_refl|apply Ht|done|]. intros _. split; [done|].
    intros e [j Hj]%list_elem_of_lookup. eapply Hbefore; [done|]. apply lookup_lt_Some in Hj. lia. }
  cbn [other_gpus_loop]. rewrite tr_nth by (rewrite <-tr_entries_length by apply Ht; lia).
  set (e := nth i (tr_entries t) null_entry).
  assert (tr_entries t !! i = Some e) as Hie by (destruct (nth_lookup_or_length (tr_entries t) i null_entry); [done|lia]).
  assert (e ∈ tr_entries t) as Hin by by eapply list_elem_of_lookup_2.
  destruct (uvm_tracker_entry_gpu e) as [g|] eqn:Hg.
  2: { unfold uvm_tracker_entry_gpu in Hg. apply fmap_None in Hg. destruct Hnn. apply list_elem_of_fmap. by exists e. }
  destruct (Z.eqb_spec g gpu) as [->|Hne].
  { apply IH; [done..|lia|]. intros x j Hj Hlt. destruct (decide (j = i)) as [->|]; [left; congruence|].
    eapply Hbefore; [done|lia]. }
  unfold wait_for_entry_with_spin. apply runs_to_bind. eapply runs_to_seq; [apply entry_wait_loop_spec; [done|by eapply tr_valid_entry]|].
  intros o s1 [Hp Ho]. apply runs_to_ret. destruct o as [st| |]; [|done|].
  2: { rewrite set_entry_same by done. apply runs_to_ret. split_and!; [done|apply Ht|done|done|].
       intros K HK. apply Ho. destruct HK as [HK|]; [left|by right]. intros x ->%list_elem_of_singleton. by apply HK. }
  destruct (Z.eqb_spec st NV_OK) as [->|Hst]; simpl.
  2: { apply runs_to_ret. split_and!; [done| |done|done]. destruct (tr_inv_shape _ Ht). split; simpl; by rewrite ?length_insert. }
  rewrite set_entry_same by done. destruct (Ho eq_refl) as [_ Hd].
  eapply runs_to_mono; [apply IH; [apply Hp|done|done|lia|]|].
  - intros x j Hj Hlt. destruct (decide (j = i)) as [->|]; [right; by replace x with e by congruence|].
    destruct (Hbefore x j Hj) as [|]; [lia|by left|right]. by eapply done_passes.
  - intros [o t'] s' (Hp' & Hs' & Hm' & Ho'). split_and!; [by eapply passes_trans|done|done|].
    destruct o; [done|done|]. destruct Ho' as [-> HK]. split; [done|]. intros K H1 [H2 H3].
    apply (HK K H1). split; [done|]. destruct Hp. lia.
Qed.

Lemma wait_for_other_gpus_spec fuel t gpu s : ch_ok (ts_world s) → tr_inv t → (None ∉ te_channel <$> tr_entries t) →
  runs_to (uvm_tracker_wait_for_other_gpus fuel t gpu)
    (λ '(o, t') s', waited fuel t s (λ e, uvm_tracker_entry_gpu e = Some gpu) o t' s') s.
Proof.
  intros Hok Ht Hnn. unfold uvm_tracker_wait_for_other_gpus.
  eapply runs_to_seq; [apply other_gpus_loop_spec; [done..| |]|].
  { rewrite tr_entries_length by apply Ht. lia. }
  { intros e j _ Hj. lia. }
  intros [o t1] s1 (Hp & Hs1 & Hm1 & Ho). unfold waited. destruct o as [st| |]; [|done|].
  2: { destruct Ho as [-> Ho]. by apply runs_to_ret. }
  destruct (Z.eqb_spec st NV_OK) as [->|Hne].
  - destruct (Ho eq_refl) as [-> Hall]. eapply runs_to_seq; [apply remove_completed_spec; [apply Hp|done]|].
    intros t' s' (Hpr & Ht' & _ & Hnd). apply runs_to_ret. rewrite Forall_forall in Hnd.
    assert (prunes t s t' s') as Hpr' by (eapply prunes_trans; [by apply prunes_refl; [|apply Ht]|done|done]).
    simpl. split_and!; [apply Hpr'|done|apply Hpr'|done|]. intros e He.
    destruct (Hall e) as [|Hd]; [by eapply prunes_sub|done|]. by destruct (Hnd e He).
  - apply runs_to_ret. simpl. rewrite (proj2 (Z.eqb_neq st NV_OK)) by done.
    split_and!; [done|by apply tr_clear_inv|done|done].
Qed.

(** ** Memory and entries *)

Context (kv : nat → Z → option (list uvm_tracker_entry_t)).
Context (kv_length : ∀ k n l, kv k n = Some l → length l = Z.to_nat n).

Lemma roundup_pow_of_two_spec n : 1 < n ≤ 2 ^ 31 → n ≤ roundup_pow_of_two n ≤ 2 ^ 31.
Proof.
  intros Hn. unfold roundup_pow_of_two. split; [apply Z.log2_up_spec; lia|].
  apply Z.pow_le_mono_r; [lia|]. by apply Z.log2_up_le_pow2; lia.
Qed.

(** What growing the storage does: the entries stay, and only the ownership of
    a block can change. *)
Definition grows t s t' s' : Prop :=
  ts_world s' = ts_world s ∧ tr_shape t' ∧ tr_entries t' = tr_entries t ∧ tr_size t' = tr_size t ∧
  tr_max_size t ≤ tr_max_size t' ∧ ts_live s' - own t' = ts_live s - own t.

Lemma take_app_drop {A} n (l l' : list A) : (n ≤ length l)%nat → (length l ≤ length l')%nat →
  take n (l ++ drop (length l) l') = take n l ∧ length (l ++ drop (length l) l') = length l'.
Proof. intros. rewrite take_app_le, length_app, length_drop by done. split; [done|lia]. Qed.

(** The allocator fails some call. *)
Definition mem_fails : Prop := ∃ k n, kv k n = None.

Lemma own_eq t : tr_max_size t = 1 ∨ 8 ≤ tr_max_size t ≤ 2 ^ 31 →
  own t = if tracker_is_using_static_entries t then 0 else 1.
Proof.
  intros Hr. unfold own, tracker_is_using_static_entries.
  rewrite (proj2 (Z.eqb_neq (tr_max_size t) 0)) by lia. by rewrite orb_false_r.
Qed.

Lemma reserve_spec t n s : tr_shape t → 0 ≤ n → tr_size t + n ≤ 2 ^ 31 →
  runs_to (E := E) (uvm_tracker_reserve kv t n)
    (λ '(status, t') s', grows t s t' s' ∧
      ((status = NV_OK ∧ tr_size t + n ≤ tr_max_size t') ∨
       (status = NV_ERR_NO_MEMORY ∧ t' = t ∧ tr_max_size t < tr_size t + n ∧ mem_fails))) s.
Proof.
  intros [Hl Hf Hr] Hn Hb. unfold uvm_tracker_reserve. rewrite u32_small by (unfold is_u32; lia).
  destruct (Z.ltb_spec (tr_max_size t) (tr_size t + n)) as [Hlt|Hge].
  2: { apply runs_to_ret. split; [|by left]. by split_and!. }
  pose proof (roundup_pow_of_two_spec (tr_size t + n) ltac:(lia)) as Hp.
  rewrite u32_small by (unfold is_u32; lia).
  set (m := Z.max 8 _). assert (8 ≤ m ≤ 2 ^ 31 ∧ tr_size t + n ≤ m) as [Hm Hm'] by lia. clearbody m.
  pose proof (own_eq t Hr) as Ho.
  apply runs_to_seq with (λ p s', match p with
    | None => s' = TSys (ts_world s) (S (ts_calls s)) (ts_live s) ∧ mem_fails
    | Some l => s' = TSys (ts_world s) (S (ts_calls s)) (ts_live s + 1 - own t) ∧
        length l = Z.to_nat m ∧ take (Z.to_nat (tr_size t)) l = tr_entries t
    end).
  - unfold tracker_is_using_static_entries in *. destruct (Z.eqb_spec (tr_max_size t) 1) as [H1|H1].
    + unfold runs_to, run_val, run_st, uvm_kvmalloc. simpl. rewrite Ho.
      destruct (kv (ts_calls s) m) as [l|] eqn:Hk; simpl; [|split; [f_equal; lia|by do 2 eexists]].
      apply kv_length in Hk. assert (length (tr_entries t) = Z.to_nat (tr_size t)) as He by by apply tr_entries_length.
      destruct (take_app_drop (Z.to_nat (tr_size t)) (tr_entries t) l) as [H2 H3]; [lia..|].
      split_and!; [f_equal; lia|by rewrite H3|]. rewrite H2, <-He. by rewrite take_ge.
    + unfold dynamic_entries. rewrite (proj2 (Z.eqb_neq (tr_max_size t) 0)) by lia.
      unfold runs_to, run_val, run_st, uvm_kvrealloc. simpl. rewrite Ho.
      destruct (kv (ts_calls s) m) as [l|] eqn:Hk; simpl; [|split; [done|by do 2 eexists]].
      apply kv_length in Hk. rewrite (take_ge (tr_store t)) by lia.
      destruct (take_app_drop (Z.to_nat (tr_size t)) (tr_store t) l) as [H2 H3]; [lia..|].
      split_and!; [f_equal; lia|by rewrite H3|done].
  - intros [l|] s'; [intros (-> & H1 & H2)|intros [-> H1]]; apply runs_to_ret.
    + split; [|by left]. split_and!; [done|split; simpl; lia|done|done|simpl; lia|].
      rewrite (own_eq (Tracker l _ m)) by (simpl; lia). cbn [tr_max_size ts_live].
      unfold tracker_is_using_static_entries. cbn [tr_max_size]. rewrite (proj2 (Z.eqb_neq m 1)) by lia. lia.
    + split; [|by right]. by split_and!.
Qed.
Lemma tr_entries_push t e : tr_shape t → tr_size t < tr_max_size t →
  tr_entries (set_entry (Z.to_nat (tr_size t)) e (set_size (tr_size t + 1) t)) = tr_entries t ++ [e].
Proof.
  intros [Hl Hf _] Hlt. unfold tr_entries. simpl.
  replace (Z.to_nat (tr_size t + 1)) with (S (Z.to_nat (tr_size t))) by lia.
  rewrite (take_S_r _ _ e) by (apply list_lookup_insert_eq; lia). by rewrite take_insert_ge by lia.
Qed.

Lemma tr_inv_merge t t' e : tr_inv t → valid_entry e → tr_shape t' →
  tr_entries t' = merge_entry (tr_entries t) e → tr_inv t'.
Proof.
  intros [_ Hn Hv] He Hs Heq. split; [done|rewrite Heq; by apply merge_entry_NoDup|].
  intros c. rewrite Heq, merge_entry_channels. intros [Hc|Hc]; [by apply He|by apply Hv].
Qed.

Lemma add_entry_spec t e s : tr_inv t → valid_entry e →
  runs_to (E := E) (uvm_tracker_add_entry kv t e)
    (λ '(status, t') s', ts_world s' = ts_world s ∧ tr_inv t' ∧
      tr_max_size t ≤ tr_max_size t' ∧ ts_live s' - own t' = ts_live s - own t ∧
      ((status = NV_OK ∧ tr_entries t' = merge_entry (tr_entries t) e) ∨
       (status = NV_ERR_NO_MEMORY ∧ t' = t ∧ tr_size t = tr_max_size t ∧
        te_channel e ∉ te_channel <$> tr_entries t))) s.
Proof.
  intros Ht He. pose proof (tr_inv_shape _ Ht) as Hs. pose proof (merge_entry_find (tr_entries t) e) as Hm.
  unfold uvm_tracker_add_entry. destruct (list_find _ _) as [[i x]|] eqn:Hf.
  - apply runs_to_ret. apply list_find_Some in Hf as (Hi%lookup_lt_Some & _).
    rewrite tr_entries_length in Hi by done. set (e' := TrackerEntry _ _) in *.
    assert (tr_entries (set_entry i e' t) = merge_entry (tr_entries t) e) as Heq
      by (by rewrite Hm, tr_entries_set).
    split_and!; [done| |done|done|by left].
    eapply tr_inv_merge; [done|done| |done]. destruct Hs. split; simpl; by rewrite ?length_insert.
  - pose proof (tr_size_bound t Ht). apply runs_to_bind. unfold get_new_entry. apply runs_to_bind.
    eapply runs_to_mono; [apply (reserve_spec t 1); [done|lia..]|].
    intros [status t'] s' ((H1 & H2 & H3 & H4 & H5 & H6) & [[-> H7]|(-> & -> & H7 & Hmf)]); apply runs_to_ret.
    + apply runs_to_ret. simpl.
      assert (tr_entries (set_entry (Z.to_nat (tr_size t')) e (set_size (tr_size t' + 1) t')) =
        merge_entry (tr_entries t) e) as Heq by (rewrite tr_entries_push, H3, Hm by (done || lia); done).
      split_and!; [done| |done|done|by left].
      eapply tr_inv_merge; [done|done| |done]. destruct H2. split; simpl; rewrite ?length_insert; lia.
    + apply runs_to_ret. split_and!; [done..|]. right. split_and!; [done|done|destruct Hs; lia|].
      intros (x & Hx & Hin)%list_elem_of_fmap. apply list_find_None in Hf.
      rewrite Forall_forall in Hf. by apply (Hf x).
Qed.

(** No addition fails when the room for the result is there. *)
Lemma add_entries_spec t l s : tr_inv t → (∀ e, e ∈ l → valid_entry e) →
  Z.of_nat (length (foldl merge_entry (tr_entries t) l)) ≤ tr_max_size t →
  runs_to (E := E) (add_entries kv t l)
    (λ t' s', ts_world s' = ts_world s ∧ tr_inv t' ∧ ts_live s' - own t' = ts_live s - own t ∧
      tr_entries t' = foldl merge_entry (tr_entries t) l) s.
Proof.
  revert t s. induction l as [|e l IH]; intros t s Ht Hl Hroom; [by apply runs_to_ret|].
  cbn [add_entries foldl] in *. eapply runs_to_seq; [apply add_entry_spec; [done|apply Hl; left]|].
  intros [status t'] s' (H1 & H2 & H3 & H4 & [[-> H5]|(-> & -> & H5 & H6)]).
  - rewrite <-H5 in *. eapply runs_to_mono; [apply IH; [done|set_solver|lia]|].
    intros t'' s'' (? & ? & ? & ?). split_and!; [congruence|done|lia|done].
  - pose proof (merge_entries_length (merge_entry (tr_entries t) e) l) as [Hge _].
    rewrite merge_entry_length, decide_False in Hge by done.
    rewrite <-H5, (tr_size_entries t) in Hroom by apply Ht. lia.
Qed.

Lemma deinit_spec t s : tr_shape t →
  runs_to (E := E) (uvm_tracker_deinit t)
    (λ t' s', ts_world s' = ts_world s ∧ ts_live s' = ts_live s - own t ∧ t' = Tracker [] 0 0) s.
Proof.
  intros Hs. pose proof (own_eq t (tr_room _ Hs)) as Ho. unfold uvm_tracker_deinit, free_entries. rewrite Ho.
  unfold tracker_is_using_static_entries, dynamic_entries.
  destruct (Z.eqb_spec (tr_max_size t) 1); [split_and!; [done|by rewrite Z.sub_0_r|done]|].
  rewrite (proj2 (Z.eqb_neq (tr_max_size t) 0)) by (destruct Hs; lia). by split_and!.
Qed.

Lemma overwrite_spec dst src s : tr_shape dst → tr_inv src →
  runs_to (E := E) (uvm_tracker_overwrite kv dst src)
    (λ '(status, t') s', ts_world s' = ts_world s ∧ tr_inv t' ∧ ts_live s' - own t' = ts_live s - own dst ∧
      ((status = NV_OK ∧ tr_entries t' = tr_entries src) ∨
       (status = NV_ERR_NO_MEMORY ∧ t' = uvm_tracker_clear dst))) s.
Proof.
  intros Hd Hs. pose proof (tr_size_bound src Hs). pose proof (tr_inv_shape _ Hs) as Hs'.
  pose proof (tr_clear_inv dst Hd) as Hc.
  unfold uvm_tracker_overwrite. eapply runs_to_seq; [apply reserve_spec; [apply Hc|destruct Hs'; lia|simpl; lia]|].
  intros [status t'] s' ((H1 & H2 & H3 & H4 & H5 & H6) & [[-> H7]|(-> & -> & H7 & Hmf)]); apply runs_to_ret.
  2: { split_and!; [done|done|done|by right]. }
  simpl in H7. set (t'' := Tracker _ _ _).
  assert (tr_entries t'' = tr_entries src) as Heq.
  { unfold tr_entries at 1, t''. simpl. rewrite take_app_le, take_take by (rewrite length_take; destruct Hs'; lia).
    by rewrite Nat.min_id. }
  assert (tr_shape t'') as Hsh.
  { destruct H2, Hs'. split; simpl; [|lia|done]. rewrite length_app, length_take, length_drop. lia. }
  split_and!; [done| |done|by left]. destruct Hs as [_ Hn Hv]. split; [done|by rewrite Heq|]. intros c. rewrite Heq. apply Hv.
Qed.

(** ** Adding a tracker *)

(** [dst] may have come to own a block. *)
Record moves dst s dst' s' : Prop := {
  move_ok : ch_ok (ts_world s');
  move_now : (now s ≤ now s')%nat;
  move_live : ts_live s' - own dst' = ts_live s - own dst;
  move_inv : tr_inv dst' }.

Lemma pruned_refl k l : pruned k l l.
Proof. exists []. by rewrite app_nil_r. Qed.

Lemma pruned_mono k k' l l' : (k ≤ k')%nat → pruned k l l' → pruned k' l l'.
Proof.
  intros Hk (r & Hp & Hr). exists r. split; [done|]. eapply Forall_impl; [done|].
  intros e. by apply entry_done_mono.
Qed.

Lemma merged_room (l l' : list uvm_tracker_entry_t) :
  (length (foldl merge_entry l l') ≤ length l + length l')%nat.
Proof.
  pose proof (merge_entries_length l l') as [_ H].
  pose proof (length_filter (λ e, te_channel e ∉ (te_channel <$> l)) l'). lia.
Qed.

Lemma add_tracker_ready dst src s s0 D dst1 :
  ch_ok (ts_world s) → (now s0 ≤ now s)%nat → ts_live s - own dst1 = ts_live s0 - own dst → tr_inv dst1 →
  tr_inv src → tr_entries dst1 = D → Z.of_nat (length (foldl merge_entry D (tr_entries src))) ≤ tr_max_size dst1 →
  runs_to (E := E) (dst ← add_entries kv dst1 (tr_entries src); mret (NV_OK, dst, Src src))
    (λ '(status, dst', src') s', moves dst s0 dst' s' ∧ now s' = now s ∧ status = NV_OK ∧ src' = Src src ∧
      tr_entries dst' = foldl merge_entry D (tr_entries src)) s.
Proof.
  intros Hok Hnow Hlive Hd Hs <- Hroom.
  eapply runs_to_seq; [apply add_entries_spec; [done| |done]|].
  { intros e. by apply tr_valid_entry. }
  intros dst' s' (Hw & Hd' & Hl' & He). apply runs_to_ret.
  split_and!; [split; [by rewrite Hw|by rewrite Hw|lia|done]|by rewrite Hw|done..].
Qed.

(** Out of memory: what is done goes, and only new channels need room. *)
Lemma add_tracker_pressed dst src s : ch_ok (ts_world s) → tr_inv dst → tr_inv src →
  runs_to (dst ← uvm_tracker_remove_completed dst;
           src ← uvm_tracker_remove_completed src;
           '(status, dst) ← reserve_for_entries_from_tracker kv dst src;
           mret (status, dst, src))
    (λ '(status, dst', src') s', moves dst s dst' s' ∧ tr_inv src' ∧ tr_max_size src' = tr_max_size src ∧
      pruned (now s') (tr_entries dst) (tr_entries dst') ∧ pruned (now s') (tr_entries src) (tr_entries src') ∧
      ((status = NV_OK ∧
        Z.of_nat (length (foldl merge_entry (tr_entries dst') (tr_entries src'))) ≤ tr_max_size dst') ∨
       (status = NV_ERR_NO_MEMORY ∧ mem_fails))) s.
Proof.
  intros Hok Hd Hs. eapply runs_to_seq; [by apply remove_completed_spec|].
  intros dst1 s1 (Hpd & Hd1 & _). eapply runs_to_seq; [apply remove_completed_spec; [apply Hpd|done]|].
  intros src1 s2 (Hps & Hs1 & _). unfold reserve_for_entries_from_tracker, needed_free_entries.
  set (l := filter _ _). assert (length l ≤ length (tr_entries src1))%nat as Hl by apply length_filter.
  pose proof (tr_size_bound dst1 Hd1). pose proof (tr_size_bound src1 Hs1).
  pose proof (tr_size_entries dst1 (tr_inv_shape _ Hd1)). pose proof (tr_size_entries src1 (tr_inv_shape _ Hs1)).
  eapply runs_to_seq; [apply reserve_spec; [apply Hd1|lia|lia]|].
  intros [st dst2] s3 ((Hw & Hsh & He & Hsz & Hmx & Hlv) & Hst). apply runs_to_ret.
  assert (now s2 = now s3) as Hn by by rewrite Hw.
  assert (now s1 ≤ now s2)%nat as Hn2 by apply Hps. assert (now s ≤ now s1)%nat as Hn1 by apply Hpd.
  assert (own dst1 = own dst) as Ho1 by (unfold own; by rewrite (prune_max _ _ _ _ Hpd)).
  assert (ts_live s2 = ts_live s) as Hlv2 by (etrans; [apply Hps|apply Hpd]).
  split_and!; [split; [rewrite Hw; apply Hps|lia|lia|]|done|apply Hps| | |].
  - destruct Hd1. split; [done|by rewrite He..].
  - rewrite He. eapply pruned_mono; [|apply Hpd]. lia.
  - eapply pruned_mono; [|apply Hps]. lia.
  - pose proof (merge_entries_length (tr_entries dst1) (tr_entries src1)) as [_ Hm]. fold l in Hm.
    destruct Hst as [[-> ?]|(-> & -> & _ & Hmf)]; [left|by right]. split; [done|]. rewrite He. lia.
Qed.

Lemma add_tracker_spec dst src s : ch_ok (ts_world s) → tr_inv dst → tr_inv src →
  runs_to (uvm_tracker_add_tracker kv dst (Src src))
    (λ '(status, dst', src') s', moves dst s dst' s' ∧
      ∃ src1, src' = Src src1 ∧ tr_inv src1 ∧ tr_max_size src1 = tr_max_size src ∧
        pruned (now s') (tr_entries src) (tr_entries src1) ∧
        ((status = NV_OK ∧ ∃ D, pruned (now s') (tr_entries dst) D ∧
            tr_entries dst' = foldl merge_entry D (tr_entries src1) ∧
            (¬ mem_fails → D = tr_entries dst ∧ src1 = src)) ∨
         (status = NV_ERR_NO_MEMORY ∧ mem_fails ∧ pruned (now s') (tr_entries dst) (tr_entries dst')))) s.
Proof.
  intros Hok Hd Hs. pose proof (tr_size_bound dst Hd) as Hbd. pose proof (tr_size_bound src Hs) as Hbs.
  pose proof (tr_size_entries dst (tr_inv_shape _ Hd)) as Hzd.
  pose proof (tr_size_entries src (tr_inv_shape _ Hs)) as Hzs.
  unfold uvm_tracker_add_tracker, uvm_tracker_is_empty. destruct (Z.eqb_spec (tr_size src) 0) as [H0|H0].
  { apply runs_to_ret. split; [by split|]. exists src. split_and!; [done..|apply pruned_refl|left].
    split; [done|]. exists (tr_entries dst). split_and!; [apply pruned_refl| |done].
    by rewrite (nil_length_inv (tr_entries src)) by lia. }
  eapply runs_to_seq; [apply reserve_spec; [apply Hd|lia|lia]|].
  intros [st dst1] s1 ((Hw & Hsh & He & Hsz & Hmx & Hlv) & [[-> Hroom]|(-> & -> & _ & Hmf)]); simpl.
  - assert (tr_inv dst1) as Hd1 by (destruct Hd; split; [done|by rewrite He..]).
    pose proof (merged_room (tr_entries dst) (tr_entries src)) as Hmr.
    apply runs_to_bind, runs_to_ret. simpl.
    eapply runs_to_mono; [apply (add_tracker_ready dst src s1 s (tr_entries dst)); rewrite ?Hw; try done; lia|].
    intros [[st dst'] src'] s' (Hm & Hn' & -> & -> & He'). split; [done|]. exists src.
    split_and!; [done..|apply pruned_refl|left; split; [done|]]. exists (tr_entries dst).
    split_and!; [apply pruned_refl|done|done].
  - rewrite <-Hw in Hok. eapply runs_to_seq; [by apply add_tracker_pressed|].
    intros [[st dst2] src2] s2 ([Hok2 Hn2 Hlv2 Hd2] & Hs2 & Hmx2 & Hpd & Hps & [[-> Hroom]|[-> _]]); simpl.
    + eapply runs_to_mono.
      { apply (add_tracker_ready dst src2 s2 s (tr_entries dst2)); try done; [by rewrite <-Hw|lia]. }
      intros [[st dst'] src'] s' (Hm & Hn' & -> & -> & He'). split; [done|]. exists src2. rewrite Hn'.
      split_and!; [done..|left; split; [done|]]. by exists (tr_entries dst2).
    + apply runs_to_ret. split; [split; [done|by rewrite <-Hw|lia|done]|]. exists src2.
      split_and!; [done..|]. by right.
Qed.

(** ** Dependencies *)

(** The tracker still waits for the work of [e], or the work is done. *)
Definition covered (k : nat) (l : list uvm_tracker_entry_t) e : Prop :=
  entry_done k e ∨ ∃ x, x ∈ l ∧ te_channel x = te_channel e ∧ te_value e ≤ te_value x.

Lemma covered_mono k k' l e : (k ≤ k')%nat → covered k l e → covered k' l e.
Proof. intros Hk [H|H]; [left|by right]. by eapply entry_done_mono. Qed.

Lemma covered_pruned k k' l l' e : (k ≤ k')%nat → pruned k' l l' → covered k l e → covered k' l' e.
Proof.
  intros Hk (r & Hp & Hr) [H|(x & Hx & Hc & Hv)]; [left; by eapply entry_done_mono|].
  rewrite Hp, elem_of_app in Hx. destruct Hx as [Hx|Hx]; [right; by exists x|left].
  rewrite Forall_forall in Hr. intros c Hce. specialize (Hr x Hx c ltac:(congruence)). lia.
Qed.

Lemma covered_elem k l e : e ∈ l → covered k l e.
Proof. intros He. right. by exists e. Qed.

Lemma covered_merge k l l' e : covered k l e ∨ covered k l' e → covered k (foldl merge_entry l l') e.
Proof.
  intros [[H|(x & Hx & Hc & Hv)]|[H|(x & Hx & Hc & Hv)]]; [by left| |by left|].
  all: destruct (merge_entries_cover l l' x) as (z & Hz & Hzc & Hzv); [by auto|].
  all: right; exists z; split_and!; [done|congruence|lia].
Qed.

(** What a tracker in use keeps: the entries name channels, and every dependency
    is covered. *)
Record holds t (deps : list uvm_tracker_entry_t) s : Prop := {
  hold_inv : tr_inv t;
  hold_chan : None ∉ te_channel <$> tr_entries t;
  hold_deps e : e ∈ deps → covered (now s) (tr_entries t) e }.

Definition named_entry e : Prop := valid_entry e ∧ te_channel e ≠ None.

Definition op_ok (op : trk_op) : Prop :=
  match op with
  | OpAddEntry e | OpOverwriteEntry e => named_entry e
  | OpAddTracker (Src src) | OpOverwrite src => tr_inv src ∧ (None ∉ te_channel <$> tr_entries src)
  | OpReserve n => 0 ≤ n ≤ 2 ^ 30
  | _ => True
  end.

Lemma pruned_sub k l l' : pruned k l l' → l' ⊆ l.
Proof. intros (r & Hp & _) e He. rewrite Hp, elem_of_app. by left. Qed.

Lemma chan_sub (l l' : list uvm_tracker_entry_t) : l' ⊆ l → None ∉ te_channel <$> l → None ∉ te_channel <$> l'.
Proof. intros Hs Hn (e & He & Hin)%list_elem_of_fmap. apply Hn, list_elem_of_fmap. exists e. split; [done|by apply Hs]. Qed.

Lemma wait_for_entry_spec fuel e s : ch_ok (ts_world s) → valid_entry e →
  runs_to (uvm_tracker_wait_for_entry fuel e)
    (λ '(o, e') s', passes s s' ∧
      match o with
      | Done st => if st =? NV_OK then e' = e ∧ entry_done (now s') e else e' = null_entry
      | Faulted => False
      | Spinning => ∀ K, settles K [e] → ¬ enough K fuel NV_OK s
      end) s.
Proof.
  intros Hok He. unfold uvm_tracker_wait_for_entry, wait_for_entry_with_spin.
  eapply runs_to_seq; [by apply entry_wait_loop_spec|]. intros o s' [Hp Ho]. apply runs_to_ret. split; [done|].
  destruct o as [st| |]; [|done|done]. destruct (Z.eqb_spec st NV_OK) as [->|]; [|done]. split; [done|by apply Ho].
Qed.

(** What every operation guarantees. *)
Definition op_post t s (deps : Z → list uvm_tracker_entry_t) (o : outcome Z) t' s' : Prop :=
  moves t s t' s' ∧
  match o with
  | Done st => holds t' (deps st) s'
  | Faulted => False
  | Spinning => True
  end.

Lemma prunes_moves t s t' s' : prunes t s t' s' → tr_inv t → moves t s t' s'.
Proof.
  intros Hp Ht. split; [apply Hp|apply Hp| |by eapply prunes_inv].
  unfold own. rewrite (prune_max _ _ _ _ Hp), (pass_live _ _ (prune_passes _ _ _ _ Hp)). done.
Qed.

Lemma prunes_holds t s t' s' deps : prunes t s t' s' → holds t deps s → holds t' deps s'.
Proof.
  intros Hp [Ht Hn Hd]. split; [by eapply prunes_inv|eapply chan_sub; [|done]; intros e; by eapply prunes_sub|].
  intros e He. eapply covered_pruned; [apply Hp|apply Hp|by apply Hd].
Qed.

Lemma moves_passes t s t1 s1 s' : moves t s t1 s1 → passes s1 s' → moves t s t1 s'.
Proof. intros [] []. split; [done|lia|lia|done]. Qed.

Lemma holds_later t deps s s' : holds t deps s → (now s ≤ now s')%nat → holds t deps s'.
Proof. intros [] Hn. split; [done..|]. intros e He. eapply covered_mono; [done|by auto]. Qed.

Lemma empty_holds t s : tr_inv t → tr_entries t = [] → holds t [] s.
Proof. intros Ht He. split; [done|by rewrite He; apply not_elem_of_nil|by intros e ?%elem_of_nil]. Qed.

Lemma waited_post fuel t s left o t' s' deps : waited fuel t s left o t' s' → holds t deps s →
  op_post t s (λ st, if st =? NV_OK then deps else []) o t' s'.
Proof.
  intros (Hp & Ht' & Hm & Ho) Hh. split.
  - split; [apply Hp|apply Hp| |done]. unfold own. rewrite Hm, (pass_live _ _ Hp). done.
  - destruct o as [st| |]; [|done..]. destruct (st =? NV_OK); [|by apply empty_holds].
    destruct Ho as [Hpr _]. by eapply prunes_holds.
Qed.

Lemma add_entry_post fuel t e s deps : ch_ok (ts_world s) → holds t deps s → named_entry e →
  runs_to (run_op kv fuel (OpAddEntry e) t)
    (λ '(o, t') s', op_post t s (λ st, op_deps (OpAddEntry e) st deps) o t' s') s.
Proof.
  intros Hok Hh [He Hc]. cbn [run_op op_deps]. unfold uvm_tracker_add_entry_safe. apply runs_to_bind.
  eapply runs_to_seq; [apply add_entry_spec; [apply Hh|done]|].
  intros [st t'] s1 (Hw & Ht' & _ & Hlv & Hst). rewrite <-Hw in Hok.
  assert (moves t s t' s1) as Hm by (split; [done|by rewrite Hw|done|done]).
  destruct Hst as [[-> Heq]|(-> & -> & _)]; simpl.
  - apply runs_to_ret, runs_to_ret. split; [done|]. simpl. split; [done|..].
    + rewrite Heq, merge_entry_channels. intros [|]; [congruence|by apply (hold_chan _ _ _ Hh)].
    + rewrite Heq, Hw. intros x Hx. apply (covered_merge _ _ [e]).
      apply elem_of_cons in Hx as [->|Hx]; [right; apply covered_elem; left|left; by apply Hh].
  - apply runs_to_bind. eapply runs_to_mono; [by apply wait_for_entry_spec|].
    intros [o e'] s2 [Hp Ho]. apply runs_to_ret, runs_to_ret. split; [by eapply moves_passes|].
    assert (holds t deps s2) as Hh2 by (eapply holds_later; [done|]; destruct Hp; rewrite Hw in *; done).
    destruct o as [st| |]; [|done..]. destruct (st =? NV_OK); [|done]. destruct Hh2, Ho as [_ Hd].
    split; [done..|]. intros x [->|Hx]%elem_of_cons; [by left|by auto].
Qed.

Lemma add_tracker_post fuel t (src : src_tracker) s deps : ch_ok (ts_world s) → holds t deps s → op_ok (OpAddTracker src) →
  runs_to (run_op kv fuel (OpAddTracker src) t)
    (λ '(o, t') s', op_post t s (λ st, op_deps (OpAddTracker src) st deps) o t' s') s.
Proof.
  intros Hok Hh Hsrc. cbn [run_op]. unfold uvm_tracker_add_tracker_safe. apply runs_to_bind.
  destruct src as [| |src].
  1, 2: apply runs_to_bind, runs_to_ret; simpl; apply runs_to_ret, runs_to_ret;
    split; [split; [done..|apply Hh]|done].
  destruct Hsrc as [Hs Hsn]. eapply runs_to_seq; [apply add_tracker_spec; [done|apply Hh|done]|].
  intros [[st t'] src'] s1 (Hm & src1 & -> & Hs1 & Hsm & Hps & Hst). pose proof (move_now _ _ _ _ Hm) as Hn.
  destruct Hst as [(-> & D & HD & Heq & _)|(-> & _ & Hpd)]; simpl.
  - apply runs_to_ret, runs_to_ret. split; [done|]. simpl. destruct Hh as [Ht Htn Hd]. split; [apply Hm|..].
    + rewrite Heq. eapply (chan_sub (D ++ tr_entries src1)).
      { intros x Hx%merge_entries_from. by apply elem_of_app. }
      rewrite fmap_app, elem_of_app. intros [H|H].
      * revert H. change (None ∉ te_channel <$> D). eapply chan_sub; [by eapply pruned_sub|done].
      * revert H. change (None ∉ te_channel <$> tr_entries src1). eapply chan_sub; [by eapply pruned_sub|done].
    + rewrite Heq. intros e He. apply covered_merge. apply elem_of_app in He as [He|He]; [right|left].
      * eapply covered_pruned; [done|done|by apply covered_elem].
      * eapply covered_pruned; [done|done|by apply Hd].
  - assert (holds t' deps s1) as Hh1.
    { destruct Hh as [Ht Htn Hd]. split; [apply Hm|eapply chan_sub; [by eapply pruned_sub|done]|].
      intros e He. eapply covered_pruned; [done|done|by apply Hd]. }
    apply runs_to_bind. eapply runs_to_mono; [apply wait_spec; [apply Hm|done]|].
    intros [o src2] s2 (Hp & _ & _ & Ho). apply runs_to_ret, runs_to_ret. split; [by eapply moves_passes|].
    assert (holds t' deps s2) as Hh2 by (eapply holds_later; [done|apply Hp]).
    destruct o as [st| |]; [|done..]. simpl. destruct (st =? NV_OK); [|done]. destruct Ho as [Hpr Hnil], Hh2.
    split; [done..|]. intros e [He|He]%elem_of_app; [left|by auto].
    destruct (covered_pruned (now s) (now s1) _ _ e Hn Hps (covered_elem _ _ _ He)) as [Hd|(x & Hx & Hxc & Hxv)].
    + eapply entry_done_mono; [apply Hp|done].
    + destruct (prunes_elem _ _ _ _ _ Hpr Hx) as [?%Hnil|Hd]; [done|].
      intros c Hc. specialize (Hd c ltac:(congruence)). lia.
Qed.

Lemma overwrite_post fuel t src s deps : ch_ok (ts_world s) → holds t deps s → op_ok (OpOverwrite src) →
  runs_to (run_op kv fuel (OpOverwrite src) t)
    (λ '(o, t') s', op_post t s (λ st, op_deps (OpOverwrite src) st deps) o t' s') s.
Proof.
  intros Hok Hh [Hs Hsn]. cbn [run_op op_deps]. unfold uvm_tracker_overwrite_safe. apply runs_to_bind.
  eapply runs_to_seq; [apply overwrite_spec; [apply tr_inv_shape, Hh|done]|].
  intros [st t'] s1 (Hw & Ht' & Hlv & Hst). rewrite <-Hw in Hok.
  assert (moves t s t' s1) as Hm by (split; [done|by rewrite Hw|done|done]).
  destruct Hst as [[-> Heq]|[-> ->]]; simpl.
  - apply runs_to_ret, runs_to_ret. split; [done|]. split; [done|by rewrite Heq|].
    intros e He. rewrite Heq. by apply covered_elem.
  - apply runs_to_bind. eapply runs_to_mono; [by apply wait_spec|].
    intros [o src2] s2 (Hp & _ & _ & Ho). apply runs_to_ret, runs_to_ret. split; [by eapply moves_passes|].
    destruct o as [st| |]; [|done..]. destruct (st =? NV_OK); [|by apply empty_holds].
    destruct Ho as [Hpr Hnil]. split; [done|by apply not_elem_of_nil|].
    intros e He. left. by destruct (prunes_elem _ _ _ _ _ Hpr He) as [?%Hnil|].
Qed.

(** An empty tracker has room for one entry. *)
Lemma overwrite_with_entry_spec t e s : tr_inv t → valid_entry e →
  runs_to (E := E) (uvm_tracker_overwrite_with_entry kv t e)
    (λ '(status, t') s', status = NV_OK ∧ ts_world s' = ts_world s ∧ tr_inv t' ∧
      ts_live s' - own t' = ts_live s - own t ∧ tr_entries t' = [e]) s.
Proof.
  intros Ht He. unfold uvm_tracker_overwrite_with_entry.
  eapply runs_to_mono; [apply add_entry_spec; [apply tr_clear_inv, Ht|done]|].
  intros [st t'] s' (Hw & Ht' & _ & Hlv & [[-> Heq]|(_ & _ & Hfull & _)]); [done|].
  destruct Ht as [[_ _ Hr] _ _]. simpl in Hfull. lia.
Qed.

Lemma run_op_spec fuel op t s deps : ch_ok (ts_world s) → holds t deps s → op_ok op →
  runs_to (run_op kv fuel op t) (λ '(o, t') s', op_post t s (λ st, op_deps op st deps) o t' s') s.
Proof.
  intros Hok Hh Hop. pose proof (hold_inv _ _ _ Hh) as Ht.
  destruct op as [e|src|src|e|n| | |gpu|].
  - by apply add_entry_post.
  - by apply add_tracker_post.
  - by apply overwrite_post.
  - destruct Hop as [He Hc]. eapply runs_to_seq; [by apply overwrite_with_entry_spec|].
    intros [st t'] s' (-> & Hw & Ht' & Hlv & Heq). apply runs_to_ret. split.
    + split; [by rewrite Hw|by rewrite Hw|done|done].
    + split; [done| |]; rewrite Heq; [by intros [|?%elem_of_nil]%elem_of_cons|]. intros x. apply covered_elem.
  - cbn [op_ok] in Hop. pose proof (tr_size_bound t Ht).
    eapply runs_to_seq; [apply reserve_spec; [apply Ht|lia|lia]|]. intros [st t'] s' ((Hw & Hsh & He & _ & _ & Hlv) & _). apply runs_to_ret.
    assert (tr_inv t') as Ht' by (destruct Ht; split; [done|by rewrite He..]).
    split; [split; [by rewrite Hw|by rewrite Hw|done|done]|]. destruct Hh as [_ Hn Hd].
    split; [done|by rewrite He|]. rewrite He, Hw. done.
  - eapply runs_to_seq; [by apply remove_completed_spec|]. intros t' s' (Hp & _). apply runs_to_ret.
    split; [by apply prunes_moves|by eapply prunes_holds].
  - eapply runs_to_mono; [by apply wait_spec|]. intros [o t'] s' Hwt. by eapply waited_post.
  - eapply runs_to_mono; [apply wait_for_other_gpus_spec; [done|done|apply (hold_chan _ _ _ Hh)]|].
    intros [o t'] s' Hwt. by eapply waited_post.
  - apply runs_to_ret. split; [split; [done..|apply tr_clear_inv, Ht]|]. by apply empty_holds, tr_clear_entries; apply tr_clear_inv, Ht.
Qed.

Lemma run_ops_spec fuel ops t s deps : ch_ok (ts_world s) → holds t deps s → Forall op_ok ops →
  runs_to (run_ops kv fuel ops t deps)
    (λ o s', match o with
      | Done (t', deps') => moves t s t' s' ∧ holds t' deps' s'
      | Faulted => False
      | Spinning => True
      end) s.
Proof.
  intros Hok Hh Hops. revert t deps s Hok Hh. induction Hops as [|op ops Hop _ IH]; intros t deps s Hok Hh.
  { apply runs_to_ret. split; [split; [done..|apply Hh]|done]. }
  cbn [run_ops]. eapply runs_to_seq; [by apply run_op_spec|].
  intros [[st| |] t1] s1 [Hm Ho]; [|done..].
  eapply runs_to_mono; [apply IH; [apply Hm|done]|].
  intros [[t' deps']| |] s' H; [|done..]. destruct H as [[] Hh']. destruct Hm. split; [|done]. split; [done|lia|lia|done].
Qed.

Lemma wait_deinit_spec fuel t s : ch_ok (ts_world s) → tr_inv t →
  runs_to (uvm_tracker_wait_deinit fuel t)
    (λ '(o, t') s', (now s ≤ now s')%nat ∧ ts_live s' = ts_live s - own t ∧ t' = Tracker [] 0 0 ∧
      match o with
      | Done st => st = NV_OK → ∀ e, e ∈ tr_entries t → entry_done (now s') e
      | Faulted => False
      | Spinning => True
      end) s.
Proof.
  intros Hok Ht. unfold uvm_tracker_wait_deinit. eapply runs_to_seq; [by apply wait_spec|].
  intros [o t1] s1 (Hp & Ht1 & Hm & Ho). eapply runs_to_seq; [apply deinit_spec, Ht1|].
  intros t2 s2 (Hw & Hlv & ->). apply runs_to_ret. rewrite Hw.
  assert (own t1 = own t) as Hown by (unfold own; by rewrite Hm).
  split_and!; [apply Hp|rewrite Hlv, Hown, (pass_live _ _ Hp); done|done|].
  destruct o as [st| |]; [|done..]. intros ->. destruct Ho as [Hpr Hnil]. intros e He.
  by destruct (prunes_elem _ _ _ _ _ Hpr He) as [?%Hnil|].
Qed.

Lemma session_spec fuel ops s : ch_ok (ts_world s) → Forall op_ok ops →
  runs_to (tracker_session kv fuel ops)
    (λ o s', match o with
      | Done (st, deps) => ts_live s' = ts_live s ∧ (st = NV_OK → ∀ e, e ∈ deps → entry_done (now s') e)
      | Faulted => False
      | Spinning => True
      end) s.
Proof.
  intros Hok Hops. unfold tracker_session.
  eapply runs_to_seq; [apply run_ops_spec; [done|by apply empty_holds; [apply tr_init_inv|]|done]|].
  intros [[t deps]| |] s1 H; [|by apply runs_to_ret..]. destruct H as [Hm Hh].
  eapply runs_to_seq; [apply wait_deinit_spec; [apply Hm|apply Hh]|].
  intros [o t2] s2 (Hn & Hlv & _ & Ho). apply runs_to_ret. destruct o as [st| |]; [|done..].
  split; [rewrite Hlv; destruct Hm as [_ _ Hl _]; change (own uvm_tracker_init) with 0 in Hl; lia|].
  intros -> e He. destruct (hold_deps _ _ _ Hh e He) as [Hd|(x & Hx & Hc & Hv)]; [by eapply entry_done_mono|].
  intros c Hce. specialize (Ho eq_refl x Hx c ltac:(congruence)). lia.
Qed.
End specs.
