(* ===== verification/UvmPush.v ===== *)
(** * Pushes: kernel-open/nvidia-uvm/uvm_push.c, uvm_push.h and the host HAL

    The channels of UvmChannel.v as the channels of UvmTracker.v, the methods a
    push is made of, the inline data of a push, and the acquires that make a
    push wait for a tracker. *)

From stdpp Require Import base numbers list gmap relations sorting.
From S2P Require Import Prelude Kernel Submit Rings UvmPushbuffer UvmSemaphore UvmChannel UvmTracker.
#[local] Open Scope Z_scope.

(** ** The channels

    [cw_channels] are the channels by number, [cw_error] the fatal error this
    thread has set, and [cw_now] counts what the thread has read. *)
Record chan_world := ChanWorld {
  cw_now : nat;
  cw_channels : list uvm_channel_t;
  cw_error : Z }.

Section channels.
(** The GPU of a channel, the values the GPU has released by each reading, the
    error notifiers, and the fatal error other threads have set. *)
Context (gpu_of : nat → Z) (sched : nat → nat → Z) (errs : nat → nat → err_env) (fatal : nat → Z).
#[local] Abbreviation W := (prog ch_action chan_world).

Definition tracking_payload (w : chan_world) (c : nat) : Z := u32 (sched (cw_now w) c).

Definition uvm_global_get_status (w : chan_world) : Z :=
  if cw_error w =? NV_OK then fatal (cw_now w) else cw_error w.

(** The first error stays. *)
Definition uvm_global_set_fatal_error_impl (error : Z) (w : chan_world) : Z :=
  if uvm_global_get_status w =? NV_OK then error else cw_error w.

Definition channel_completed (c : nat) (v : Z) : W bool := λ w,
  let '(b, cs, es) := on_channel c (uvm_channel_is_value_completed (tracking_payload w c) v) (cw_channels w) in
  (default true b, ChanWorld (S (cw_now w)) cs (cw_error w), es).

Definition channel_errors (c : nat) : W Z := λ w,
  let '(st, cs, es) :=
    on_channel c (uvm_channel_check_errors (errs (cw_now w) c) (tracking_payload w c)) (cw_channels w) in
  let status := default NV_OK st in
  (status, ChanWorld (S (cw_now w)) cs
     (if status =? NV_OK then cw_error w else uvm_global_set_fatal_error_impl status w), es).

Definition global_status : W Z := λ w,
  (uvm_global_get_status w, ChanWorld (S (cw_now w)) (cw_channels w) (cw_error w), []).

#[global] Instance uvm_channel_ops : channel_ops ch_action chan_world := {|
  op_is_value_completed := channel_completed;
  op_check_errors := channel_errors;
  op_global_status := global_status;
  op_channel_gpu := gpu_of |}.

(** ** The channels keep what the trackers rely on

    The GPU releases values in order and only queued ones, and every channel
    satisfies its invariant. *)
Record world_ok (n : nat) (w : chan_world) : Prop := {
  wo_count : length (cw_channels w) = n;
  wo_inv c ch : cw_channels w !! c = Some ch → ∃ ongoing, ch_inv ch (sched (cw_now w) c) ongoing;
  wo_queued c ch k : cw_channels w !! c = Some ch → sched k c ≤ queued_value (tracking_sem ch) }.

Context (n : nat) (Hn : Z.of_nat n < 2 ^ 30) (Hmono : ∀ k c, sched k c ≤ sched (S k) c).

Lemma sched_mono k k' c : (k ≤ k')%nat → sched k c ≤ sched k' c.
Proof. induction 1 as [|k' _ IH]; [done|]. pose proof (Hmono k' c). lia. Qed.

(** A channel changes and time passes. *)
Lemma world_ok_step w c ch ch' e ongoing :
  world_ok n w → cw_channels w !! c = Some ch → ch_inv ch' (sched (cw_now w) c) ongoing →
  queued_value (tracking_sem ch') = queued_value (tracking_sem ch) →
  world_ok n (ChanWorld (S (cw_now w)) (<[c := ch']> (cw_channels w)) e).
Proof.
  intros [Hl Hi Hq] Hc Hi' Hq'. split; simpl.
  - by rewrite length_insert.
  - intros c1 ch1 [(<- & <- & _)|[Hne H1]]%list_lookup_insert_Some.
    + exists ongoing. eapply ch_inv_N; [done|]. split; [apply Hmono|rewrite Hq'; by apply Hq].
    + destruct (Hi c1 ch1 H1) as [og Ho]. exists og. eapply ch_inv_N; [done|]. split; [apply Hmono|by apply Hq].
  - intros c1 ch1 k [(<- & <- & _)|[Hne H1]]%list_lookup_insert_Some; [rewrite Hq'; by apply Hq|by apply Hq].
Qed.

Lemma world_ok_tick w e : world_ok n w → world_ok n (ChanWorld (S (cw_now w)) (cw_channels w) e).
Proof.
  intros [Hl Hi Hq]. split; simpl; [done| |done].
  intros c ch Hc. destruct (Hi c ch Hc) as [og Ho]. exists og. eapply ch_inv_N; [done|].
  split; [apply Hmono|by apply Hq].
Qed.

Lemma is_value_completed_run ch N ongoing v : ch_inv ch N ongoing →
  ∃ ch', uvm_channel_is_value_completed (u32 N) v ch = (v <=? N, ch', []) ∧ ch_inv ch' N ongoing ∧
    queued_value (tracking_sem ch') = queued_value (tracking_sem ch).
Proof.
  intros Hi. destruct (observe_ch_inv _ _ _ Hi) as [Hu Hi']. destruct (ch_window _ _ _ Hi) as (_ & _ & Hw).
  unfold uvm_channel_is_value_completed, uvm_gpu_tracking_semaphore_is_value_completed. rewrite Hu.
  destruct (Z.leb_spec v (completed_value (tracking_sem ch))).
  - rewrite (proj2 (Z.leb_le v N)) by lia. eexists. split; [done|]. by destruct ch.
  - by eexists.
Qed.

Lemma check_errors_run ch N ongoing e : ch_inv ch N ongoing →
  let m := uvm_channel_check_errors e (u32 N) in
  ch_inv (run_st m ch) N ongoing ∧ queued_value (tracking_sem (run_st m ch)) = queued_value (tracking_sem ch).
Proof.
  intros Hi. cbn zeta. unfold uvm_channel_check_errors. destruct (_ =? NV_OK); [done|].
  rewrite run_st_bind, run_st_tell. unfold uvm_channel_get_first_pending_entry, channel_update_progress_all.
  rewrite run_st_bind, run_st_gets.
  destruct (update_progress_spec (Z.to_nat (num_gpfifo_entries ch)) ch N ongoing Hi) as (H1 & _ & _ & _ & _ & H2 & _).
  cbn zeta in *. set (c' := run_st (uvm_channel_update_progress_with_max _ _ _) ch) in *.
  by destruct (_ =? 0).
Qed.

Lemma on_channel_run {A} c ch (m : prog ch_action uvm_channel_t A) (cs : list uvm_channel_t) :
  cs !! c = Some ch → on_channel c m cs = (Some (run_val m ch), <[c := run_st m ch]> cs, run_eff m ch).
Proof. intros Hc. unfold on_channel, run_val, run_st, run_eff. rewrite Hc. by destruct (m ch) as [[??]?]. Qed.

#[global] Instance uvm_channel_laws : channel_laws ch_action chan_world.
Proof.
  refine {| ch_ok := world_ok n; ch_now := cw_now; ch_count := n; ch_released := sched; ch_fatal := fatal;
            ch_count_bound := Hn; ch_released_mono := sched_mono |}.
  - intros c v w Hok Hc. destruct (lookup_lt_is_Some_2 (cw_channels w) c) as [ch Hch].
    { by rewrite (wo_count _ _ Hok). }
    destruct (wo_inv _ _ Hok c ch Hch) as [og Hi].
    destruct (is_value_completed_run ch _ og v Hi) as (ch' & Hr & Hi' & Hq).
    cbn [op_is_value_completed uvm_channel_ops]. unfold runs_to, run_val, run_st, channel_completed.
    unfold tracking_payload, on_channel. rewrite Hch, Hr. cbn [fst snd default].
    split; [by eapply world_ok_step|]. split_and!; [simpl; lia| |].
    + intros Hb%Z.leb_le. etrans; [done|]. apply Hmono.
    + intros Hle. by apply Z.leb_le.
  - intros c w Hok Hc. destruct (lookup_lt_is_Some_2 (cw_channels w) c) as [ch Hch].
    { by rewrite (wo_count _ _ Hok). }
    destruct (wo_inv _ _ Hok c ch Hch) as [og Hi].
    destruct (check_errors_run ch _ og (errs (cw_now w) c) Hi) as [Hi' Hq].
    cbn [op_check_errors uvm_channel_ops]. unfold runs_to, run_val, run_st, channel_errors.
    rewrite (on_channel_run c ch) by done. cbn [fst snd].
    split; [by eapply world_ok_step|simpl; lia].
  - intros w Hok. cbn [op_global_status uvm_channel_ops]. unfold runs_to, run_val, run_st, global_status.
    cbn [fst snd cw_now]. split; [by apply world_ok_tick|]. split; [lia|]. unfold uvm_global_get_status.
    destruct (Z.eqb_spec (cw_error w) NV_OK); done.
Defined.
End channels.

(** ** A push

    [p_mem] are the words of the pushbuffer from [begin] on, and [p_next] is the
    distance of [next] from [begin], in words. *)
Record uvm_push_t := Push {
  p_begin : Z;
  p_mem : list Z;
  p_next : nat;
  p_gpu : Z;
  p_channel : option nat;
  p_tracking_value : Z;
  p_info_index : option nat;
  p_flags : Z }.

Inductive uvm_membar_t := UVM_MEMBAR_NONE | UVM_MEMBAR_GPU | UVM_MEMBAR_SYS.

(** Flags by their bit. *)
Definition UVM_PUSH_FLAG_CE_NEXT_PIPELINED : Z := 0.
Definition UVM_PUSH_FLAG_NEXT_MEMBAR_NONE : Z := 1.
Definition UVM_PUSH_FLAG_NEXT_MEMBAR_GPU : Z := 2.
Definition UVM_PUSH_FLAG_COUNT : Z := 3.

Definition UVM_METHOD_SIZE : Z := 4.
Definition UVM_METHOD_COUNT_MAX : Z := 0x1fff.
Definition UVM_SUBCHANNEL_HOST : Z := 0.
Definition UVM_PUSH_INLINE_DATA_MAX_SIZE : Z := UVM_METHOD_COUNT_MAX * UVM_METHOD_SIZE.

Definition set_words (mem : list Z) (next : nat) (p : uvm_push_t) : uvm_push_t :=
  Push (p_begin p) mem next (p_gpu p) (p_channel p) (p_tracking_value p) (p_info_index p) (p_flags p).
Definition set_flags (f : Z) (p : uvm_push_t) : uvm_push_t :=
  Push (p_begin p) (p_mem p) (p_next p) (p_gpu p) (p_channel p) (p_tracking_value p) (p_info_index p) f.

Definition uvm_push_set_flag (flag : Z) (p : uvm_push_t) : uvm_push_t := set_flags (Z.setbit (p_flags p) flag) p.
Definition uvm_push_test_flag (flag : Z) (p : uvm_push_t) : bool := Z.testbit (p_flags p) flag.
Definition uvm_push_get_and_reset_flag (flag : Z) (p : uvm_push_t) : bool * uvm_push_t :=
  (Z.testbit (p_flags p) flag, set_flags (Z.clearbit (p_flags p) flag) p).

Definition uvm_push_get_and_reset_membar_flag (p : uvm_push_t) : uvm_membar_t * uvm_push_t :=
  let '(none, p) := uvm_push_get_and_reset_flag UVM_PUSH_FLAG_NEXT_MEMBAR_NONE p in
  if none then (UVM_MEMBAR_NONE, p)
  else
    let '(gpu, p) := uvm_push_get_and_reset_flag UVM_PUSH_FLAG_NEXT_MEMBAR_GPU p in
    if gpu then (UVM_MEMBAR_GPU, p) else (UVM_MEMBAR_SYS, p).

Definition uvm_push_set_membar (membar : uvm_membar_t) (p : uvm_push_t) : uvm_push_t :=
  match membar with
  | UVM_MEMBAR_NONE => uvm_push_set_flag UVM_PUSH_FLAG_NEXT_MEMBAR_NONE p
  | UVM_MEMBAR_GPU => uvm_push_set_flag UVM_PUSH_FLAG_NEXT_MEMBAR_GPU p
  | UVM_MEMBAR_SYS => p
  end.

Definition uvm_push_get_size (p : uvm_push_t) : Z := u32 (Z.of_nat (p_next p) * 4).
Definition uvm_push_has_space (free_space : Z) (p : uvm_push_t) : bool :=
  free_space <=? u32 (UVM_MAX_PUSH_SIZE - uvm_push_get_size p).

(** ** Methods *)

(** [push->next[0] = w; ++push->next]. *)
Definition push_word (p : uvm_push_t) (w : Z) : uvm_push_t :=
  set_words (<[p_next p := w]> (p_mem p)) (S (p_next p)) p.

(** The NV_PUSH_nU macros: a header and [n] data words. *)
Definition NV_PUSH_U (subch address : Z) (data : list Z) (p : uvm_push_t) : uvm_push_t :=
  foldl push_word (push_word p (UVM_METHOD_INC subch address (Z.of_nat (length data)))) data.

(** The data after the header is left as it is. *)
Definition NV_PUSH_NU_NONINC (subch address : Z) (count : nat) (p : uvm_push_t) : uvm_push_t :=
  set_words (<[p_next p := UVM_METHOD_NONINC subch address (Z.of_nat count)]> (p_mem p))
    (p_next p + (count + 1)) p.

(** ** The host HAL *)

Definition NVC46F_NOP : Z := 0x8.
Definition NVC46F_MEM_OP_A : Z := 0x28.
Definition NVC46F_SEM_ADDR_LO : Z := 0x5c.
Definition NVC46F_SEM_EXECUTE : Z := 0x6c.
Definition NVC46F_WFI : Z := 0x78.

Definition uvm_hal_turing_host_wait_for_idle : uvm_push_t → uvm_push_t :=
  NV_PUSH_U UVM_SUBCHANNEL_HOST NVC46F_WFI [0].

Definition uvm_hal_turing_host_membar_sys : uvm_push_t → uvm_push_t :=
  NV_PUSH_U UVM_SUBCHANNEL_HOST NVC46F_MEM_OP_A [0; 0; DRF_DEF 0 0; DRF_DEF 27 5].

Definition uvm_hal_turing_host_membar_gpu : uvm_push_t → uvm_push_t :=
  NV_PUSH_U UVM_SUBCHANNEL_HOST NVC46F_MEM_OP_A [0; 0; DRF_DEF 0 1; DRF_DEF 27 5].

Definition uvm_hal_membar (membar : uvm_membar_t) (p : uvm_push_t) : uvm_push_t :=
  match membar with
  | UVM_MEMBAR_SYS => uvm_hal_turing_host_membar_sys p
  | UVM_MEMBAR_GPU => uvm_hal_turing_host_membar_gpu p
  | UVM_MEMBAR_NONE => p
  end.

Definition uvm_hal_wfi_membar (membar : uvm_membar_t) (p : uvm_push_t) : uvm_push_t :=
  uvm_hal_membar membar (uvm_hal_turing_host_wait_for_idle p).

(** The loop of the noop: [size] in words, and each round takes at least one. *)
Fixpoint noop_loop (fuel size : nat) (p : uvm_push_t) : uvm_push_t :=
  match fuel with
  | O => p
  | S fuel =>
      if (0 <? size)%nat then
        let noop_this_time := Nat.min (Z.to_nat UVM_METHOD_COUNT_MAX + 1) size in
        noop_loop fuel (size - noop_this_time)
          (NV_PUSH_NU_NONINC UVM_SUBCHANNEL_HOST NVC46F_NOP (noop_this_time - 1) p)
      else p
  end.

Definition uvm_hal_turing_host_noop (size : Z) (p : uvm_push_t) : uvm_push_t :=
  if u32 size =? 0 then p
  else let words := Z.to_nat (u32 size / 4) in noop_loop words words p.

(** The five semaphore methods; [hi] is the top bit of SEM_ADDR_HI_OFFSET. *)
Definition sem_methods (hi gpu_va payload execute : Z) (p : uvm_push_t) : uvm_push_t :=
  let sem_lo := Z.land (Z.shiftr (u32 gpu_va) 2) (Z.ones 30) in
  NV_PUSH_U UVM_SUBCHANNEL_HOST NVC46F_SEM_ADDR_LO
    [DRF_NUM 31 2 sem_lo; DRF_NUM hi 0 (u32 (Z.shiftr gpu_va 32)); u32 payload; 0; execute] p.

Definition SEM_EXECUTE_ACQUIRE : Z := Z.lor (Z.lor (DRF_DEF 0 3) (DRF_DEF 24 0)) (DRF_DEF 12 1).
Definition SEM_EXECUTE_RELEASE : Z :=
  Z.lor (Z.lor (Z.lor (DRF_DEF 0 1) (DRF_DEF 24 0)) (DRF_DEF 25 0)) (DRF_DEF 20 0).
Definition SEM_EXECUTE_TIMESTAMP : Z :=
  Z.lor (Z.lor (Z.lor (DRF_DEF 0 1) (DRF_DEF 24 0)) (DRF_DEF 25 1)) (DRF_DEF 20 0).

Definition uvm_hal_turing_host_semaphore_acquire (gpu_va payload : Z) (p : uvm_push_t) : uvm_push_t :=
  sem_methods 7 gpu_va payload SEM_EXECUTE_ACQUIRE p.

Definition uvm_hal_hopper_host_semaphore_acquire (gpu_va payload : Z) (p : uvm_push_t) : uvm_push_t :=
  sem_methods 24 gpu_va payload SEM_EXECUTE_ACQUIRE p.

Definition uvm_hal_turing_host_semaphore_release (gpu_va payload : Z) (p : uvm_push_t) : uvm_push_t :=
  let '(membar, p) := uvm_push_get_and_reset_membar_flag p in
  sem_methods 7 gpu_va payload SEM_EXECUTE_RELEASE (uvm_hal_wfi_membar membar p).

Definition uvm_hal_hopper_host_semaphore_release (gpu_va payload : Z) (p : uvm_push_t) : uvm_push_t :=
  let '(membar, p) := uvm_push_get_and_reset_membar_flag p in
  sem_methods 24 gpu_va payload SEM_EXECUTE_RELEASE (uvm_hal_wfi_membar membar p).

Definition uvm_hal_turing_host_semaphore_timestamp (gpu_va : Z) (p : uvm_push_t) : uvm_push_t :=
  let '(membar, p) := uvm_push_get_and_reset_membar_flag p in
  sem_methods 7 gpu_va 0xdeadbeef SEM_EXECUTE_TIMESTAMP (uvm_hal_wfi_membar membar p).

Definition uvm_hal_hopper_host_semaphore_timestamp (gpu_va : Z) (p : uvm_push_t) : uvm_push_t :=
  let '(membar, p) := uvm_push_get_and_reset_membar_flag p in
  sem_methods 24 gpu_va 0xdeadbeef SEM_EXECUTE_TIMESTAMP (uvm_hal_wfi_membar membar p).

(** ** Inline data *)

(** The address of [push->next + 1]. *)
Definition inline_start (p : uvm_push_t) : Z := p_begin p + 4 * (Z.of_nat (p_next p) + 1).

(** An inline data fragment of a push is the address of its next byte. *)
Definition uvm_push_inline_data_begin (p : uvm_push_t) : Z := inline_start p.
Definition uvm_push_inline_data_size (p : uvm_push_t) (next_data : Z) : Z := next_data - inline_start p.

(** The buffer, and the fragment after it. *)
Definition uvm_push_inline_data_get (next_data size : Z) : Z * Z := (next_data, next_data + size).

Definition uvm_push_inline_data_get_aligned (next_data size alignment : Z) : Z * Z :=
  let offset := UVM_ALIGN_UP next_data alignment - next_data in
  let '(buffer, next_data) := uvm_push_inline_data_get next_data (size + offset) in
  (buffer + offset, next_data).

(** The kernel's roundup. *)
Definition roundup (x y : Z) : Z := (x + (y - 1)) / y * y.

(** [gpu_va] is uvm_pushbuffer_get_gpu_va_for_push. *)
Definition uvm_push_inline_data_end (gpu_va next_data : Z) (p : uvm_push_t) : Z * uvm_push_t :=
  let noop_size := roundup (uvm_push_inline_data_size p next_data) UVM_METHOD_SIZE in
  let inline_data_address :=
    match p_channel p with
    | None => inline_start p
    | Some _ => u64 (u64 ((Z.of_nat (p_next p) + 1) * UVM_METHOD_SIZE) + gpu_va)
    end in
  (inline_data_address, uvm_hal_turing_host_noop (noop_size + UVM_METHOD_SIZE) p).

(** The buffer, its GPU address and the push. *)
Definition uvm_push_get_single_inline_buffer (gpu_va size alignment : Z) (p : uvm_push_t)
    : Z * Z * uvm_push_t :=
  let next_data := uvm_push_inline_data_begin p in
  let '(buffer, next_data) := uvm_push_inline_data_get_aligned next_data size alignment in
  let '(gpu_address, p) := uvm_push_inline_data_end gpu_va next_data p in
  (buffer, UVM_ALIGN_UP gpu_address alignment, p).

(** The base addresses of the pushbuffer, as the CPU and as the GPU maps it. *)
Definition uvm_pushbuffer_get_offset_for_push (base_cpu_va : Z) (is_wlc : bool) (p : uvm_push_t) : Z :=
  if is_wlc then 0 else u32 (p_begin p - base_cpu_va).

Definition uvm_pushbuffer_get_gpu_va_for_push (base_cpu_va base_gpu_va : Z) (p : uvm_push_t) : Z :=
  u64 (base_gpu_va + uvm_pushbuffer_get_offset_for_push base_cpu_va false p).

(** ** Acquires *)

Definition UVM_PUSH_ACQUIRE_INFO_MAX_ENTRIES : Z := 16.

(** What is recorded of an acquired value; [av_id] is the pool index of a proxy
    channel, else the runlist and the channel id. *)
Record acquire_value := AcquireValue {
  av_value : Z;
  av_gpu : Z;
  av_is_proxy : bool;
  av_id : Z + Z * Z }.

Record uvm_push_acquire_info_t := AcquireInfo {
  ai_values : list acquire_value;
  ai_num_values : Z }.

Section acquire.
Context {E W : Type} `{!channel_ops E W}.
(** The address of the tracking semaphore of a channel in another channel, and
    the acquire of the HAL. *)
Context (sema_va : nat → nat → Z) (semaphore_acquire : Z → Z → uvm_push_t → uvm_push_t).
Context (is_proxy : nat → bool) (index_in_pool runlist_id channel_id : nat → Z).
#[local] Abbreviation M := (prog E (tsys W)).

(** [channel] is [push->channel]. *)
Definition record_acquire (channel entry_channel : nat) (value : Z) (info : uvm_push_acquire_info_t)
    : uvm_push_acquire_info_t :=
  AcquireInfo
    (if ai_num_values info <? UVM_PUSH_ACQUIRE_INFO_MAX_ENTRIES
     then ai_values info ++
       [AcquireValue value (op_channel_gpu entry_channel) (is_proxy channel)
          (if is_proxy channel then inl (index_in_pool channel)
           else inr (runlist_id entry_channel, channel_id entry_channel))]
     else ai_values info)
    (u32 (ai_num_values info + 1)).

Definition push_acquire_tracker_entry (channel : nat) (e : uvm_tracker_entry_t)
    (x : uvm_push_t * option uvm_push_acquire_info_t) : uvm_push_t * option uvm_push_acquire_info_t :=
  match te_channel e with
  | None => x
  | Some entry_channel =>
      if (channel =? entry_channel)%nat then x
      else (semaphore_acquire (sema_va entry_channel channel) (u32 (te_value e)) x.1,
            record_acquire channel entry_channel (te_value e) <$> x.2)
  end.

Definition uvm_push_acquire_tracker (channel : nat) (t : option uvm_tracker_t)
    (x : uvm_push_t * option uvm_push_acquire_info_t)
    : M (option uvm_tracker_t * (uvm_push_t * option uvm_push_acquire_info_t)) :=
  match t with
  | None => mret (None, x)
  | Some t =>
      t ← uvm_tracker_remove_completed t;
      mret (Some t, foldl (λ x e, push_acquire_tracker_entry channel e x) x (tr_entries t))
  end.

Definition uvm_push_allow_dependencies_across_gpus (conf_computing_enabled : bool) : bool :=
  negb conf_computing_enabled.

Definition wait_for_other_gpus_if_needed (conf_computing_enabled : bool) (fuel : nat)
    (t : option uvm_tracker_t) (gpu : Z) : M (outcome Z * option uvm_tracker_t) :=
  match t with
  | None => mret (Done NV_OK, None)
  | Some t =>
      if uvm_push_allow_dependencies_across_gpus conf_computing_enabled then mret (Done NV_OK, Some t)
      else '(o, t) ← uvm_tracker_wait_for_other_gpus fuel t gpu; mret (o, Some t)
  end.
End acquire.

(** * The words of a push *)

Definition p_words (p : uvm_push_t) : list Z := take (p_next p) (p_mem p).

(** [p'] is [p] with the words [ws] added. *)
Definition pushed_words (p : uvm_push_t) (ws : list Z) (p' : uvm_push_t) : Prop :=
  p_words p' = p_words p ++ ws ∧ p_next p' = (p_next p + length ws)%nat ∧
  length (p_mem p') = length (p_mem p) ∧ p_begin p' = p_begin p ∧ p_channel p' = p_channel p.

Lemma pushed_nil p : pushed_words p [] p.
Proof. unfold pushed_words. rewrite app_nil_r. split_and!; [done|simpl; lia|done..]. Qed.

Lemma pushed_app p ws p1 ws' p2 : pushed_words p ws p1 → pushed_words p1 ws' p2 → pushed_words p (ws ++ ws') p2.
Proof.
  intros (H1 & H2 & H3 & H4 & H5) (K1 & K2 & K3 & K4 & K5). unfold pushed_words.
  rewrite K1, H1, K2, H2, K3, K4, K5, length_app, (assoc_L (++)). split_and!; [done|lia|done..].
Qed.

Lemma push_word_pushed p w : (p_next p < length (p_mem p))%nat → pushed_words p [w] (push_word p w).
Proof.
  intros Hl. unfold pushed_words, p_words, push_word. simpl.
  rewrite (take_S_r _ _ w) by (by apply list_lookup_insert_eq). rewrite take_insert_ge, length_insert by lia.
  split_and!; [done|lia|done..].
Qed.

Lemma push_words_pushed ws p : (p_next p + length ws ≤ length (p_mem p))%nat →
  pushed_words p ws (foldl push_word p ws).
Proof.
  revert p. induction ws as [|w ws IH]; intros p Hl; [apply pushed_nil|]. simpl in *.
  pose proof (push_word_pushed p w ltac:(lia)) as Hw. eapply (pushed_app p [w]); [done|].
  apply IH. destruct Hw as (_ & -> & -> & _). simpl. lia.
Qed.

Lemma NV_PUSH_U_pushed subch address data p : (p_next p + S (length data) ≤ length (p_mem p))%nat →
  pushed_words p (pk_words (Packet true subch address data)) (NV_PUSH_U subch address data p).
Proof. intros Hl. apply (push_words_pushed (_ :: data)). simpl. lia. Qed.

(** ** What the semaphore methods mean *)

(** The semaphore registers of the host: address and payload. *)
Record host_regs := HostRegs { hr_lo : Z; hr_hi : Z; hr_payload : Z }.

(** The acquires a list of methods makes: the address and the value of each. *)
Fixpoint host_acquires (r : host_regs) (ms : list pb_method) : list (Z * Z) :=
  match ms with
  | [] => []
  | m :: ms =>
      let v := pm_val m in
      if pm_addr m =? 0x5c then host_acquires (HostRegs v (hr_hi r) (hr_payload r)) ms
      else if pm_addr m =? 0x60 then host_acquires (HostRegs (hr_lo r) v (hr_payload r)) ms
      else if pm_addr m =? 0x64 then host_acquires (HostRegs (hr_lo r) (hr_hi r) v) ms
      else if (pm_addr m =? 0x6c) && (Z.land v 7 =? 3)
      then (hr_lo r + hr_hi r * 2 ^ 32, hr_payload r) :: host_acquires r ms
      else host_acquires r ms
  end.

Definition sem_packet (hi gpu_va payload execute : Z) : packet :=
  Packet true UVM_SUBCHANNEL_HOST NVC46F_SEM_ADDR_LO
    [DRF_NUM 31 2 (Z.land (Z.shiftr (u32 gpu_va) 2) (Z.ones 30));
     DRF_NUM hi 0 (u32 (Z.shiftr gpu_va 32)); u32 payload; 0; execute].

Lemma sem_packet_ok hi va payload execute : pk_ok (sem_packet hi va payload execute).
Proof. by repeat split. Qed.

Lemma sem_address hi va : 0 ≤ hi < 32 → 0 ≤ va < 2 ^ (33 + hi) → va mod 4 = 0 →
  DRF_NUM 31 2 (Z.land (Z.shiftr (u32 va) 2) (Z.ones 30)) + DRF_NUM hi 0 (u32 (Z.shiftr va 32)) * 2 ^ 32 = va.
Proof.
  intros Hhi Hva Hal. rewrite !DRF_NUM_eq by lia. rewrite Z.land_ones, !Z.shiftr_div_pow2 by lia.
  replace (33 + hi) with (32 + (hi + 1)) in Hva by lia. rewrite Z.pow_add_r in Hva by lia.
  assert (0 ≤ va / 2 ^ 32 < 2 ^ (hi + 1)) as Hh by (split; [apply Z.div_pos|apply Z.div_lt_upper_bound]; lia).
  assert (2 ^ (hi + 1) ≤ 2 ^ 32) by (apply Z.pow_le_mono_r; lia).
  rewrite (u32_small (va / 2 ^ 32)) by (unfold is_u32; lia).
  replace (hi - 0 + 1) with (hi + 1) by lia. rewrite (Z.mod_small (va / 2 ^ 32)) by done.
  replace (31 - 2 + 1) with 30 by lia. change (2 ^ 0) with 1.
  unfold u32. clear -Hal. zify_divmod.
Qed.

Lemma host_acquires_sem hi va payload r subch ms : 0 ≤ hi < 32 → 0 ≤ va < 2 ^ (33 + hi) → va mod 4 = 0 →
  let p := sem_packet hi va payload SEM_EXECUTE_ACQUIRE in
  ∃ r', host_acquires r ((pb_entries (pk_incr p) (pk_subch p) (pk_addr p) 0 (pk_data p) subch).1 ++ ms) =
    (va, u32 payload) :: host_acquires r' ms.
Proof.
  intros Hhi Hva Hal p. pose proof (sem_address hi va Hhi Hva Hal) as Hsum.
  unfold p, sem_packet. cbn [pk_data pk_incr pk_subch pk_addr].
  set (lo := DRF_NUM 31 2 _) in *. set (h := DRF_NUM hi 0 _) in *. set (v := u32 payload).
  exists (HostRegs lo h v). rewrite <-Hsum at 1. reflexivity.
Qed.

(** The methods of a list of acquires make exactly these acquires, as decode_pushbuffer
    reads them. *)
Lemma host_acquires_packets hi l r subch : 0 ≤ hi < 32 →
  Forall (λ x, 0 ≤ x.1 < 2 ^ (33 + hi) ∧ x.1 mod 4 = 0) l →
  host_acquires r (pk_meaning ((λ x, sem_packet hi x.1 x.2 SEM_EXECUTE_ACQUIRE) <$> l) subch) =
    (λ x, (x.1, u32 x.2)) <$> l.
Proof.
  intros Hhi Hl. revert r subch. induction Hl as [|[va v] l [Hva Hal] _ IH]; intros r subch; [done|].
  cbn [fmap list_fmap fst snd pk_meaning].
  pose proof (λ ms, host_acquires_sem hi va v r subch ms Hhi Hva Hal) as Hs. cbn zeta in Hs.
  destruct (pb_entries _ _ _ _ _ subch) as [es subch'].
  destruct (Hs (pk_meaning ((λ x, sem_packet hi x.1 x.2 SEM_EXECUTE_ACQUIRE) <$> l) subch')) as [r' Hr'].
  cbn [fst] in Hr'. etrans; [exact Hr'|]. f_equal. apply IH.
Qed.

(** A circular comparison is an ordinary one for values less than half the wheel
    ahead. *)
Lemma acquire_geq_sound N v : v - N < 2 ^ 31 → acquire_geq (u32 N) (u32 v) = true → v ≤ N.
Proof. unfold acquire_geq, s32, u32. intros Hw Ha%Z.leb_le. zify_divmod. Qed.

Section acquired.
Context {E W : Type} `{!channel_ops E W} (sema_va : nat → nat → Z) (hi : Z).
Context (is_proxy : nat → bool) (index_in_pool runlist_id channel_id : nat → Z).

(** The acquires for the entries of other channels. *)
Definition acquires_of (channel : nat) (l : list uvm_tracker_entry_t) : list (Z * Z) :=
  omap (λ e, c ← te_channel e; if (channel =? c)%nat then None else Some (sema_va c channel, te_value e)) l.

Definition acquire_words (l : list (Z * Z)) : list Z :=
  concat (pk_words <$> ((λ x, sem_packet hi x.1 x.2 SEM_EXECUTE_ACQUIRE) <$> l)).

Lemma u32_u32 z : u32 (u32 z) = u32 z.
Proof. apply u32_small, u32_range. Qed.

Lemma acquire_entries_pushed channel l x :
  (p_next x.1 + 6 * length l ≤ length (p_mem x.1))%nat →
  pushed_words x.1 (acquire_words (acquires_of channel l))
    (foldl (λ x e, push_acquire_tracker_entry (E := E) (W := W) sema_va (λ va v, sem_methods hi va v SEM_EXECUTE_ACQUIRE)
       is_proxy index_in_pool runlist_id channel_id channel e x) x l).1.
Proof.
  revert x. induction l as [|e l IH]; intros x Hl; [apply pushed_nil|]. cbn [foldl].
  unfold acquires_of. cbn [omap list_omap]. fold (acquires_of channel l).
  set (x' := push_acquire_tracker_entry _ _ _ _ _ _ channel e x).
  destruct (te_channel e) as [c|] eqn:Hc; cbn [mbind option_bind]; last first.
  { assert (x' = x) as -> by (unfold x', push_acquire_tracker_entry; by rewrite Hc).
    apply IH. simpl in Hl. lia. }
  destruct (Nat.eqb_spec channel c) as [->|Hne].
  { assert (x' = x) as -> by (unfold x', push_acquire_tracker_entry; by rewrite Hc, Nat.eqb_refl).
    apply IH. simpl in Hl. lia. }
  assert (pushed_words x.1 (pk_words (sem_packet hi (sema_va c channel) (te_value e) SEM_EXECUTE_ACQUIRE)) x'.1) as Hp.
  { unfold x', push_acquire_tracker_entry. rewrite Hc, (proj2 (Nat.eqb_neq _ _) Hne). cbn [fst].
    unfold sem_methods, sem_packet. rewrite u32_u32. apply NV_PUSH_U_pushed. simpl in *. lia. }
  eapply pushed_app; [done|]. apply IH. destruct Hp as (_ & -> & -> & _). simpl in *. lia.
Qed.
End acquired.

(** The acquire of a GPU's HAL, and the top bit of its SEM_ADDR_HI_OFFSET. *)
Definition hal_semaphore_acquire (hopper : bool) : Z → Z → uvm_push_t → uvm_push_t :=
  if hopper then uvm_hal_hopper_host_semaphore_acquire else uvm_hal_turing_host_semaphore_acquire.
Definition sem_addr_hi (hopper : bool) : Z := if hopper then 24 else 7.

(** The trackers of [n] channels that satisfy their invariant. *)
Definition uvm_tr_inv (gpu_of : nat → Z) sched errs fatal n Hn Hmono (t : uvm_tracker_t) : Prop :=
  tr_inv (channel_ops0 := uvm_channel_ops gpu_of sched errs fatal)
    (channel_laws0 := uvm_channel_laws gpu_of sched errs fatal n Hn Hmono) t.

Section dependencies.
Context (gpu_of : nat → Z) (sched : nat → nat → Z) (errs : nat → nat → err_env) (fatal : nat → Z).
Context (n : nat) (Hn : Z.of_nat n < 2 ^ 30) (Hmono : ∀ k c, sched k c ≤ sched (S k) c).
#[local] Instance push_ops : channel_ops ch_action chan_world := uvm_channel_ops gpu_of sched errs fatal.
#[local] Instance push_laws : channel_laws ch_action chan_world :=
  uvm_channel_laws gpu_of sched errs fatal n Hn Hmono.
Context (sema_va : nat → nat → Z) (is_proxy : nat → bool) (index_in_pool runlist_id channel_id : nat → Z).

(** The entry is for a push that was queued on its channel. *)
Definition entry_queued (w : chan_world) (e : uvm_tracker_entry_t) : Prop :=
  ∀ c ch, te_channel e = Some c → cw_channels w !! c = Some ch → te_value e ≤ queued_value (tracking_sem ch).

(** A queued value is never half a wheel ahead of the payload. *)
Lemma queued_window w e c N : world_ok sched n w → entry_queued w e → te_channel e = Some c → (c < n)%nat →
  sched (cw_now w) c ≤ N → te_value e - N < 2 ^ 31.
Proof.
  intros Hok Hq Hc Hlt HN. destruct (lookup_lt_is_Some_2 (cw_channels w) c) as [ch Hch].
  { by rewrite (wo_count _ _ _ Hok). }
  destruct (wo_inv _ _ _ Hok c ch Hch) as [og Hi]. specialize (Hq c ch Hc Hch).
  destruct (ci_window _ _ _ Hi) as [? _]. pose proof (ci_num _ _ _ Hi). pose proof (ci_room _ _ _ Hi).
  assert (length (normals ch) ≤ length (pend ch))%nat by apply omap_length_le. lia.
Qed.

Lemma elem_of_acquires channel l e c : e ∈ l → te_channel e = Some c → c ≠ channel →
  (sema_va c channel, te_value e) ∈ acquires_of sema_va channel l.
Proof.
  intros He Hc Hne. apply list_elem_of_omap. exists e. split; [done|]. rewrite Hc. cbn.
  by rewrite (proj2 (Nat.eqb_neq channel c)) by done.
Qed.

Lemma acquires_valid hi channel l :
  (∀ c, (c < n)%nat → 0 ≤ sema_va c channel < 2 ^ (33 + hi) ∧ sema_va c channel mod 4 = 0) →
  (∀ c, Some c ∈ te_channel <$> l → (c < n)%nat) →
  Forall (λ x : Z * Z, 0 ≤ x.1 < 2 ^ (33 + hi) ∧ x.1 mod 4 = 0) (acquires_of sema_va channel l).
Proof.
  intros Hva Hl. apply Forall_forall. intros x (e & He & Hx)%list_elem_of_omap.
  destruct (te_channel e) as [c|] eqn:Hc; [|done]. cbn in Hx. destruct (channel =? c)%nat; [done|].
  simplify_eq/=. apply Hva, Hl, list_elem_of_fmap. by exists e.
Qed.

Lemma acquire_words_decode hi l r : 0 ≤ hi < 32 →
  Forall (λ x : Z * Z, 0 ≤ x.1 < 2 ^ (33 + hi) ∧ x.1 mod 4 = 0) l →
  host_acquires r (decode_pushbuffer (acquire_words hi l)) = (λ x, (x.1, u32 x.2)) <$> l.
Proof.
  intros Hhi Hl. unfold acquire_words. rewrite <-(app_nil_r (concat _)).
  unfold decode_pushbuffer. rewrite decode_pb_loop_packets; [by apply host_acquires_packets| |done|by left].
  apply Forall_fmap, Forall_forall. intros x _. apply sem_packet_ok.
Qed.

(** C12: the work of a push waits for every dependency of its tracker. The words
    uvm_push_acquire_tracker adds to the push are, as the pushbuffer decoder reads
    them, semaphore acquires; once the GPU is past all of them, with each
    tracking semaphore holding the low half of the count of released values,
    every value the tracker named on another channel has been released, even
    though an acquire compares 32 bits on a wheel, and entries found completed on
    the way were dropped. *)
Theorem push_waits_for_tracker (hopper : bool) channel t p info s
    (Hok : world_ok sched n (ts_world s)) (Ht : uvm_tr_inv gpu_of sched errs fatal n Hn Hmono t)
    (Hq : ∀ e, e ∈ tr_entries t → entry_queued (ts_world s) e)
    (Hva : ∀ c, (c < n)%nat → 0 ≤ sema_va c channel < 2 ^ (33 + sem_addr_hi hopper) ∧ sema_va c channel mod 4 = 0)
    (Hroom : (p_next p + 6 * length (tr_entries t) ≤ length (p_mem p))%nat) :
  runs_to
    (uvm_push_acquire_tracker sema_va (hal_semaphore_acquire hopper) is_proxy index_in_pool runlist_id channel_id
       channel (Some t) (p, info))
    (λ '(_, (p', _)) s', ∃ ws, pushed_words p ws p' ∧
      ∀ (N : nat → Z) (mem : Z → Z) (r : host_regs),
        (∀ c, sched (cw_now (ts_world s')) c ≤ N c) → (∀ c, (c < n)%nat → mem (sema_va c channel) = u32 (N c)) →
        (∀ va v, (va, v) ∈ host_acquires r (decode_pushbuffer ws) → acquire_geq (mem va) v = true) →
        ∀ e c, e ∈ tr_entries t → te_channel e = Some c → c ≠ channel → te_value e ≤ N c) s.
Proof.
  set (hi := sem_addr_hi hopper) in *.
  assert (0 ≤ hi < 32) as Hhi by (by destruct hopper).
  assert (hal_semaphore_acquire hopper = (λ va v, sem_methods hi va v SEM_EXECUTE_ACQUIRE)) as -> by (by destruct hopper).
  eapply runs_to_seq; [apply remove_completed_spec; [exact Hok|exact Ht]|].
  intros t' s' (Hpr & Ht' & _ & _). apply runs_to_ret.
  assert (length (tr_entries t') ≤ length (tr_entries t))%nat as Hlen.
  { destruct (prune_perm _ _ _ _ Hpr) as (rem & Hperm & _). apply Permutation_length in Hperm. rewrite length_app in Hperm. lia. }
  pose proof (acquire_entries_pushed (E := ch_action) (W := chan_world) sema_va hi is_proxy index_in_pool runlist_id
    channel_id channel (tr_entries t') (p, info)) as Hp. cbn [fst] in Hp.
  destruct (foldl _ (p, info) _) as [p' info']. cbn [fst] in Hp.
  exists (acquire_words hi (acquires_of sema_va channel (tr_entries t'))). split; [apply Hp; lia|].
  intros N mem r HN Hmem Hacq e c He Hc Hne.
  pose proof (tr_valid_entry _ _ Ht He c Hc) as Hcn. pose proof (pass_now _ _ (prune_passes _ _ _ _ Hpr)) as Hnow.
  destruct (prunes_elem _ _ _ _ _ Hpr He) as [He'|Hd]; [|etrans; [by apply Hd|apply HN]].
  apply acquire_geq_sound.
  - eapply (queued_window (ts_world s)); [done|by apply Hq|done|done|]. etrans; [|apply HN]. by apply sched_mono.
  - rewrite <-Hmem by done. apply Hacq.
    rewrite acquire_words_decode by (done || by apply acquires_valid; [done|apply Ht']).
    apply list_elem_of_fmap. exists (sema_va c channel, te_value e). split; [done|]. by apply elem_of_acquires.
Qed.

(** What the channels promise the trackers. *)
Definition uvm_op_ok : trk_op → Prop := op_ok (channel_laws0 := push_laws).


(** Waiting for a tracker ends. If from some reading on the GPU has released
    every value the tracker names, or another thread has set a fatal error, the
    wait returns after at most that many rounds and two; the tracker is empty
    and keeps its storage, and success means that every value has been
    released. *)
Theorem tracker_wait_returns fuel t s K
    (Hok : world_ok sched n (ts_world s)) (Ht : uvm_tr_inv gpu_of sched errs fatal n Hn Hmono t)
    (Hsettles : (∀ e c, e ∈ tr_entries t → te_channel e = Some c → te_value e ≤ sched K c) ∨
      (∀ k, (K ≤ k)%nat → fatal k ≠ NV_OK))
    (Hfuel : (K + 2 ≤ fuel)%nat) :
  runs_to (uvm_tracker_wait fuel t)
    (λ '(o, t') s', ∃ st, o = Done st ∧ tr_entries t' = [] ∧ tr_max_size t' = tr_max_size t ∧
      (st = NV_OK → ∀ e c, e ∈ tr_entries t → te_channel e = Some c →
        te_value e ≤ sched (cw_now (ts_world s')) c)) s.
Proof.
  eapply runs_to_mono; [apply wait_spec; [exact Hok|exact Ht]|].
  intros [o t'] s' (Hp & Ht' & Hm & Ho). destruct o as [st| |]; [|done|].
  - exists st. split; [done|]. destruct (Z.eqb_spec st NV_OK) as [->|Hne]; [|by split_and!].
    destruct Ho as [Hpr Hnil]. split_and!; [|done|].
    + destruct (tr_entries t') as [|e l]; [done|]. destruct (Hnil e). left.
    + intros _ e c He Hc. destruct (prunes_elem _ _ _ _ _ Hpr He) as [?%Hnil|Hd]; [done|]. by apply Hd.
  - destruct (Ho K); [|split; simpl; lia]. destruct Hsettles as [Hs|Hs]; [left|by right].
    intros e He c Hc. by eapply Hs.
Qed.

(** Adding a tracker merges the two. When no allocation fails, the
    destination tracks for every channel the larger of the two values, and the
    source is unchanged. In every case a channel of the result has a value one of
    the two had, what the two tracked is tracked or released, and on
    NV_ERR_NO_MEMORY no entry was added. *)
Theorem add_tracker_merges kv dst src s
    (Hkv : ∀ k m l, kv k m = Some l → length l = Z.to_nat m)
    (Hok : world_ok sched n (ts_world s)) (Hd : uvm_tr_inv gpu_of sched errs fatal n Hn Hmono dst)
    (Hs : uvm_tr_inv gpu_of sched errs fatal n Hn Hmono src) :
  runs_to (uvm_tracker_add_tracker kv dst (Src src))
    (λ '(status, dst', src') s',
      (status = NV_OK ∨ status = NV_ERR_NO_MEMORY) ∧
      ((∀ k m, kv k m ≠ None) → status = NV_OK ∧ src' = Src src ∧
        entry_map (tr_entries dst') = map_max (entry_map (tr_entries dst)) (entry_map (tr_entries src))) ∧
      (∀ e, e ∈ tr_entries dst' → e ∈ tr_entries dst ∨ (status = NV_OK ∧ e ∈ tr_entries src)) ∧
      (∀ e c, e ∈ tr_entries dst ∨ (status = NV_OK ∧ e ∈ tr_entries src) → te_channel e = Some c →
        te_value e ≤ sched (cw_now (ts_world s')) c ∨
        ∃ x, x ∈ tr_entries dst' ∧ te_channel x = Some c ∧ te_value e ≤ te_value x)) s.
Proof.
  eapply runs_to_mono; [by apply add_tracker_spec|].
  intros [[st dst'] src'] s' (Hm & src1 & -> & Hs1 & Hsm & Hps & Hst).
  assert (∀ e l, (covered (cw_now (ts_world s')) l e : Prop) → ∀ c, te_channel e = Some c →
    te_value e ≤ sched (cw_now (ts_world s')) c ∨ ∃ x, x ∈ l ∧ te_channel x = Some c ∧ te_value e ≤ te_value x) as Hcov.
  { intros e l [H|(x & Hx & Hxc & Hxv)] c Hc; [left; by apply H|right]. exists x. split_and!; [done|congruence|done]. }
  assert (∀ e l l', e ∈ l → pruned (cw_now (ts_world s')) l l' → covered (cw_now (ts_world s')) l' e) as Hpc.
  { intros e l l' He Hp. eapply covered_pruned; [done|done|by apply covered_elem]. }
  destruct Hst as [(-> & D & HD & Heq & Hmf)|(-> & (k & m & Hf) & Hpd)].
  - split_and!; [by left| | |].
    + intros Hnf. destruct Hmf as [-> ->]; [by intros (k & m & Hf); destruct (Hnf k m)|].
      split_and!; [done|done|]. rewrite Heq. apply merge_entries_map, Hs.
    + rewrite Heq. intros e [He|He]%merge_entries_from; [left|right]; [|split; [done|]]; by eapply pruned_sub.
    + intros e c He. apply Hcov. rewrite Heq. apply covered_merge.
      destruct He as [He|[_ He]]; [left|right]; by eapply Hpc.
  - split_and!; [by right|intros Hnf; by destruct (Hnf k m)| |].
    + intros e He. left. by eapply pruned_sub.
    + intros e c [He|[[=] _]]. apply Hcov. by eapply Hpc.
Qed.
End dependencies.

(** * Inline data *)

(** Rounding up commutes with a shift by a multiple of the alignment. *)
Lemma align_up_shift x y a : 0 < a → (y - x) mod a = 0 →
  (y + a - 1) / a * a - y = (x + a - 1) / a * a - x.
Proof.
  intros Ha Hd. assert (y = x + (y - x) / a * a) as Hy by (pose proof (Z.div_mod (y - x) a); lia).
  set (q := (y - x) / a) in Hy. rewrite Hy. replace (x + q * a + a - 1) with (x + a - 1 + q * a) by lia.
  rewrite Z.div_add by lia. lia.
Qed.

(** The padding of a word-aligned address. *)
Lemma align_pad x b : 0 < b → x mod 4 = 0 →
  let X := (x + 4 * b - 1) / (4 * b) * (4 * b) in 0 ≤ X - x ≤ 4 * b - 4 ∧ X mod (4 * b) = 0.
Proof.
  intros Hb Hx X. split; [|apply Z.mod_mul; lia].
  pose proof (Z.div_mod (x + 4 * b - 1) (4 * b) ltac:(lia)) as Hd.
  pose proof (Z.mod_pos_bound (x + 4 * b - 1) (4 * b) ltac:(lia)) as Hm.
  set (q := (x + 4 * b - 1) / (4 * b)) in *. unfold X.
  assert (X mod 4 = 0) by (unfold X; rewrite (Z.mul_comm 4), Z.mul_assoc; apply Z.mod_mul; lia).
  unfold X in *. zify_divmod.
Qed.

Lemma noop_one words p : (1 ≤ words ≤ Z.to_nat UVM_METHOD_COUNT_MAX + 1)%nat →
  uvm_hal_turing_host_noop (4 * Z.of_nat words) p =
    NV_PUSH_NU_NONINC UVM_SUBCHANNEL_HOST NVC46F_NOP (words - 1) p.
Proof.
  intros Hw. assert (Z.of_nat words ≤ 8192) by (unfold UVM_METHOD_COUNT_MAX in Hw; lia).
  unfold uvm_hal_turing_host_noop. rewrite u32_small by (unfold is_u32; lia).
  rewrite (proj2 (Z.eqb_neq _ 0)) by lia. rewrite Z.mul_comm, Z.div_mul, Nat2Z.id by lia. cbn zeta.
  destruct words as [|w]; [lia|]. cbn [noop_loop]. change (0 <? S w)%nat with true. cbv iota.
  rewrite Nat.min_r by lia.
  rewrite Nat.sub_diag. by destruct w.
Qed.

(** The GPU address of the inline data. *)
Lemma inline_gpu_address base_cpu_va base_gpu_va p :
  base_cpu_va ≤ p_begin p < base_cpu_va + 2 ^ 32 → 0 ≤ base_cpu_va < 2 ^ 63 → 0 ≤ base_gpu_va < 2 ^ 63 →
  Z.of_nat (p_next p) < 2 ^ 15 →
  u64 (u64 ((Z.of_nat (p_next p) + 1) * UVM_METHOD_SIZE) +
    uvm_pushbuffer_get_gpu_va_for_push base_cpu_va base_gpu_va p) = inline_start p + (base_gpu_va - base_cpu_va).
Proof.
  intros. unfold uvm_pushbuffer_get_gpu_va_for_push, uvm_pushbuffer_get_offset_for_push, UVM_METHOD_SIZE, inline_start.
  rewrite (u32_small (p_begin p - base_cpu_va)) by (unfold is_u32; lia).
  rewrite (u64_small (base_gpu_va + _)), (u64_small (_ * 4)) by (unfold is_u64; lia).
  rewrite u64_small by (unfold is_u64; lia). lia.
Qed.

(** The buffer uvm_push_get_single_inline_buffer returns to the CPU and the
    address it returns for the GPU are the same place of the pushbuffer, when the
    CPU and GPU mappings of the pushbuffer agree modulo the alignment, as
    mappings aligned to 4 KiB do: both addresses are aligned, the buffer lies in
    the words one NOP method skips, and of the pushbuffer only the header of
    that NOP is written. *)
Theorem inline_buffer_same_place base_cpu_va base_gpu_va size k p buffer gpu_address p' c
    (Hk : 2 ≤ k ≤ 12) (Hmaps : (base_gpu_va - base_cpu_va) mod 2 ^ k = 0)
    (Hchan : p_channel p = Some c) (Hbegin : base_cpu_va ≤ p_begin p < base_cpu_va + 2 ^ 32)
    (Hcpu : 0 ≤ base_cpu_va < 2 ^ 63) (Hgpu : 0 ≤ base_gpu_va < 2 ^ 63)
    (Hword : p_begin p mod 4 = 0) (Hnext : Z.of_nat (p_next p) < 2 ^ 15) (Hsize : 0 ≤ size)
    (Hmax : size + (2 ^ k - 4) ≤ UVM_PUSH_INLINE_DATA_MAX_SIZE)
    (Hrun : uvm_push_get_single_inline_buffer
      (uvm_pushbuffer_get_gpu_va_for_push base_cpu_va base_gpu_va p) size (2 ^ k) p = (buffer, gpu_address, p')) :
  buffer - base_cpu_va = gpu_address - base_gpu_va ∧
  buffer mod 2 ^ k = 0 ∧ gpu_address mod 2 ^ k = 0 ∧
  p_begin p + 4 * (Z.of_nat (p_next p) + 1) ≤ buffer ∧ buffer + size ≤ p_begin p' + 4 * Z.of_nat (p_next p') ∧
  ∃ count, p' = NV_PUSH_NU_NONINC UVM_SUBCHANNEL_HOST NVC46F_NOP count p ∧ Z.of_nat count ≤ UVM_METHOD_COUNT_MAX.
Proof.
  assert (2 ^ k = 4 * 2 ^ (k - 2)) as Ha4 by (change 4 with (2 ^ 2); rewrite <-Z.pow_add_r by lia; f_equal; lia).
  assert (2 ^ k ≤ 2 ^ 12) as Hk2 by (apply Z.pow_le_mono_r; lia).
  assert (0 < 2 ^ (k - 2)) as Hk1 by (apply Z.pow_pos_nonneg; lia).
  set (x := inline_start p). assert (x = p_begin p + 4 * (Z.of_nat (p_next p) + 1)) as Hx by done.
  set (X := (x + 2 ^ k - 1) / 2 ^ k * 2 ^ k).
  assert (UVM_ALIGN_UP x (2 ^ k) = X) as HX by (apply UVM_ALIGN_UP_eq; lia).
  destruct (align_pad x (2 ^ (k - 2)) Hk1) as [Hpad HXm].
  { rewrite Hx. replace (p_begin p + _) with (p_begin p + (Z.of_nat (p_next p) + 1) * 4) by lia.
    by rewrite Z.mod_add by lia. }
  rewrite <-Ha4 in Hpad, HXm. fold X in Hpad, HXm.
  set (y := x + (base_gpu_va - base_cpu_va)).
  pose proof (inline_gpu_address base_cpu_va base_gpu_va p Hbegin Hcpu Hgpu Hnext) as Hy. fold x y in Hy.
  assert (UVM_ALIGN_UP y (2 ^ k) = X + (base_gpu_va - base_cpu_va)) as HY.
  { rewrite UVM_ALIGN_UP_eq by (unfold y; lia).
    pose proof (align_up_shift x y (2 ^ k) ltac:(lia)) as Hs. unfold y at 1 in Hs.
    replace (x + (base_gpu_va - base_cpu_va) - x) with (base_gpu_va - base_cpu_va) in Hs by lia.
    specialize (Hs Hmaps). fold X in Hs. unfold y at 2 in Hs. lia. }
  unfold uvm_push_get_single_inline_buffer, uvm_push_inline_data_get_aligned, uvm_push_inline_data_get,
    uvm_push_inline_data_begin, uvm_push_inline_data_end in Hrun. rewrite Hchan, Hy, HY in Hrun.
  fold x in Hrun. rewrite HX in Hrun.
  unfold uvm_push_inline_data_size in Hrun. fold x in Hrun.
  replace (x + (size + (X - x)) - x) with (size + (X - x)) in Hrun by lia.
  unfold UVM_PUSH_INLINE_DATA_MAX_SIZE, UVM_METHOD_COUNT_MAX, UVM_METHOD_SIZE in *.
  unfold roundup in Hrun. set (w := (size + (X - x) + (4 - 1)) / 4) in Hrun.
  assert (4 * w - 3 ≤ size + (X - x) ≤ 4 * w) as Hw by (unfold w; zify_divmod).
  replace (w * 4 + 4) with (4 * Z.of_nat (Z.to_nat (w + 1))) in Hrun by lia.
  rewrite noop_one in Hrun by (unfold UVM_METHOD_COUNT_MAX; lia).
  apply pair_equal_spec in Hrun as [[<- <-]%pair_equal_spec <-].
  split_and!.
  - lia.
  - by replace (x + (X - x)) with X by lia.
  - rewrite Z.add_mod, HXm, Hmaps by lia. apply Z.mod_0_l. lia.
  - lia.
  - unfold NV_PUSH_NU_NONINC. simpl. lia.
  - eexists. split; [done|]. lia.
Qed.

Definition ex_push : uvm_push_t := Push 0x10008 (replicate 64 0) 3 0 (Some 0%nat) 0 (Some 0%nat) 0.

Lemma inline_buffer_same_place_witness :
  0x10020 - 0x10000 = 0x5000020 - 0x5000000 ∧ 0x10020 mod 2 ^ 4 = 0 ∧ 0x5000020 mod 2 ^ 4 = 0 ∧
  0x10008 + 4 * (3 + 1) ≤ 0x10020 ∧ 0x10020 + 16 ≤ 0x10008 + 4 * 10 ∧
  ∃ count, NV_PUSH_NU_NONINC UVM_SUBCHANNEL_HOST NVC46F_NOP 6 ex_push =
      NV_PUSH_NU_NONINC UVM_SUBCHANNEL_HOST NVC46F_NOP count ex_push ∧
    Z.of_nat count ≤ UVM_METHOD_COUNT_MAX.
Proof.
  apply (inline_buffer_same_place 0x10000 0x5000000 16 4 ex_push 0x10020 0x5000020
    (NV_PUSH_NU_NONINC UVM_SUBCHANNEL_HOST NVC46F_NOP 6 ex_push) 0%nat);
    try done; vm_compute; try done; split; done.
Defined.

(** An alignment that is a multiple of the method size and not a power of two is
    not met. *)
Lemma inline_alignment_not_pow2 :
  (uvm_push_get_single_inline_buffer (uvm_pushbuffer_get_gpu_va_for_push 0x10000 0x5000000 ex_push) 16 20
     ex_push).1.1 mod 20 ≠ 0.
Proof. vm_compute. done. Qed.

(** * Beginning, ending and tracking pushes *)

Definition uvm_push_get_tracker_entry (p : uvm_push_t) : uvm_tracker_entry_t :=
  TrackerEntry (p_channel p) (p_tracking_value p).

Section tracking.
Context {E W : Type} `{!channel_ops E W} (kv : nat → Z → option (list uvm_tracker_entry_t)).
#[local] Abbreviation M := (prog E (tsys W)).

Definition uvm_tracker_add_push (t : uvm_tracker_t) (p : uvm_push_t) : M (Z * uvm_tracker_t) :=
  uvm_tracker_add_entry kv t (uvm_push_get_tracker_entry p).

Definition uvm_tracker_overwrite_with_push (t : uvm_tracker_t) (p : uvm_push_t) : M (Z * uvm_tracker_t) :=
  uvm_tracker_overwrite_with_entry kv t (uvm_push_get_tracker_entry p).

Definition uvm_push_wait (fuel : nat) (p : uvm_push_t) : M (outcome Z) :=
  '(o, _) ← uvm_tracker_wait_for_entry fuel (uvm_push_get_tracker_entry p);
  mret o.

Definition uvm_tracker_add_push_safe (fuel : nat) (t : uvm_tracker_t) (p : uvm_push_t)
    : M (outcome Z * uvm_tracker_t) :=
  '(status, t) ← uvm_tracker_add_push t p;
  if status =? NV_ERR_NO_MEMORY then
    o ← uvm_push_wait fuel p;
    mret (o, t)
  else mret (Done status, t).
End tracking.

Section begin.
Context (gpu_of : nat → Z) (sched : nat → nat → Z) (errs : nat → nat → err_env) (fatal : nat → Z).
#[local] Instance begin_ops : channel_ops ch_action chan_world := uvm_channel_ops gpu_of sched errs fatal.
#[local] Abbreviation W := (prog ch_action chan_world).
#[local] Abbreviation M := (prog ch_action (tsys chan_world)).

(** What a thread that spins on the channel meets. *)
Definition world_round (w : chan_world) (c k : nat) : round :=
  Round (u32 (sched (cw_now w + k) c)) (errs (cw_now w + k)%nat c) (fatal (cw_now w + k)%nat) id.

(** Run an operation of the channel [c], in [ticks] readings. *)
Definition in_channel {A} (ticks c : nat) (m : chan_world → prog ch_action uvm_channel_t A) : W (option A) := λ w,
  let '(a, cs, es) := on_channel c (m w) (cw_channels w) in
  (a, ChanWorld (cw_now w + ticks) cs (cw_error w), es).

Definition channel_reserve (fuel c : nat) : W (outcome Z) :=
  r ← in_channel (S fuel) c (λ w, uvm_channel_reserve (world_round w c) fuel 1);
  mret (match r with
        | None => Faulted
        | Some None => Spinning
        | Some (Some status) => Done status
        end).

Section acquire_on.
Context (sema_va : nat → nat → Z) (semaphore_acquire : Z → Z → uvm_push_t → uvm_push_t).
Context (is_proxy : nat → bool) (index_in_pool runlist_id channel_id : nat → Z) (uvm_debug_enable_push_acquire_info : bool).

(** [pb] is what uvm_pushbuffer_begin_push did: its status, the address of the
    push and the words there. *)
Definition push_begin_acquire_with_info (pb : Z * Z * list Z) (c : nat) (t : option uvm_tracker_t)
    : M (Z * uvm_push_t * option uvm_tracker_t) :=
  let '(pb_status, begin, mem) := pb in
  let p := Push 0 [] 0 (gpu_of c) None 0 None 0 in
  r ← world (in_channel 0 c (λ _, uvm_channel_begin_push pb_status));
  let '(status, info_index) := default (NV_OK, None) r in
  if negb (status =? NV_OK)
  then mret (status, Push 0 [] 0 (gpu_of c) (Some c) 0 None 0, t)
  else
    let p := Push begin mem 0 (gpu_of c) (Some c) 0 info_index 0 in
    let info := if uvm_debug_enable_push_acquire_info then Some (AcquireInfo [] 0) else None in
    '(t, (p, _)) ← uvm_push_acquire_tracker
       sema_va semaphore_acquire is_proxy index_in_pool runlist_id channel_id c t (p, info);
    mret (NV_OK, p, t).

Definition uvm_push_begin_acquire_on_channel (conf_computing_enabled : bool) (fuel : nat) (pb : Z * Z * list Z)
    (c : nat) (t : option uvm_tracker_t) : M (outcome Z * option uvm_push_t * option uvm_tracker_t) :=
  '(o, t) ← wait_for_other_gpus_if_needed conf_computing_enabled fuel t (gpu_of c);
  match o with
  | Done status =>
      if negb (status =? NV_OK) then mret (Done status, None, t)
      else
        r ← world (channel_reserve fuel c);
        match r with
        | Done status =>
            if negb (status =? NV_OK) then mret (Done status, None, t)
            else
              '(status, p, t) ← push_begin_acquire_with_info pb c t;
              if negb (status =? NV_OK) then
                world (in_channel 0 c (λ _, uvm_channel_release 1));;
                mret (Done status, Some p, t)
              else mret (Done status, Some p, t)
        | o => mret (o, None, t)
        end
  | o => mret (o, None, t)
  end.

Definition uvm_push_begin_on_reserved_channel (pb : Z * Z * list Z) (c : nat)
    : M (Z * uvm_push_t) :=
  '(status, p, _) ← push_begin_acquire_with_info pb c None;
  mret (status, p).
End acquire_on.

(** [offset] is where the push is in the pushbuffer. The tracking value of the
    push is the one the channel gave it. *)
Definition uvm_push_end (offset : Z) (p : uvm_push_t) : W uvm_push_t :=
  match p_channel p with
  | None => mret p
  | Some c =>
      v ← in_channel 0 c (λ _, uvm_channel_end_push offset (uvm_push_get_size p) (default 0%nat (p_info_index p)));
      mret (Push (p_begin p) (p_mem p) (p_next p) (p_gpu p) (p_channel p) (default 0 v) (p_info_index p) (p_flags p))
  end.

Definition uvm_push_end_and_wait (offset : Z) (fuel : nat) (p : uvm_push_t) : M (outcome Z) :=
  p ← world (uvm_push_end offset p);
  uvm_push_wait fuel p.
End begin.

(** ** A push that fails to begin *)

Definition keeps_count : relation uvm_channel_t := λ c c', current_gpfifo_count c' = current_gpfifo_count c.

#[local] Instance keeps_count_preorder : PreOrder keeps_count.
Proof. split; [by intros c|]. intros a b c H1 H2. unfold keeps_count in *. congruence. Qed.

Lemma update_progress_count payload n mode :
  steps keeps_count (uvm_channel_update_progress_with_max payload n mode).
Proof.
  unfold uvm_channel_update_progress_with_max, update_progress_locked. steps_solve.
  - intros c. unfold uvm_channel_update_completed_value, run_st. by destruct (update_completed_value_locked _ _).
  - induction n as [|n IH]; simpl; steps_solve; done.
Qed.

Lemma check_errors_count e payload : steps keeps_count (uvm_channel_check_errors e payload).
Proof.
  unfold uvm_channel_check_errors, uvm_channel_get_first_pending_entry, channel_update_progress_all.
  steps_solve; apply update_progress_count.
Qed.

(** A reservation that succeeds took its entries. *)
Lemma reserve_count rounds fuel n c : (∀ k, rd_others (rounds k) = id) →
  runs_to (uvm_channel_reserve rounds fuel n)
    (λ r c', r = Some NV_OK → current_gpfifo_count c' = u32 (current_gpfifo_count c + n)) c.
Proof.
  intros Hid. assert (∀ fuel k status c, runs_to (reserve_loop rounds fuel k n status)
    (λ r c', r = Some NV_OK → current_gpfifo_count c' = u32 (current_gpfifo_count c + n)) c) as Hloop.
  { clear fuel c. intros fuel. induction fuel as [|fuel IH]; intros k status c; [by apply runs_to_ret|].
    cbn [reserve_loop]. apply runs_to_modify. rewrite Hid. unfold id. apply runs_to_bind.
    unfold runs_to at 1, run_val, run_st. rewrite claim_run.
    destruct (n <=? _); cbn [fst snd negb andb]; [by apply runs_to_ret|].
    destruct (Z.eqb_spec status NV_OK) as [->|Hne]; [|apply runs_to_ret; congruence].
    apply runs_to_bind. unfold runs_to at 1. pose proof (check_errors_count (rd_err (rounds k)) (rd_payload (rounds k)) c) as H1.
    set (c1 := run_st _ c) in *. apply runs_to_bind. unfold runs_to at 1.
    pose proof (update_progress_count (rd_payload (rounds k)) 8 UVM_CHANNEL_UPDATE_MODE_COMPLETED c1) as H2.
    unfold uvm_channel_update_progress. set (c2 := run_st _ c1) in *.
    eapply runs_to_mono; [apply IH|]. intros r c' Hr ->. rewrite Hr by done. unfold keeps_count in *. congruence. }
  unfold uvm_channel_reserve. apply runs_to_bind. unfold runs_to at 1, run_val, run_st. rewrite claim_run.
  destruct (n <=? _); cbn [fst snd]; [by apply runs_to_ret|]. apply runs_to_bind. unfold runs_to at 1.
  pose proof (update_progress_count (rd_payload (rounds 0%nat)) 8 UVM_CHANNEL_UPDATE_MODE_COMPLETED c) as H2.
  unfold uvm_channel_update_progress. set (c2 := run_st _ c) in *.
  eapply runs_to_mono; [apply Hloop|]. intros r c' Hr ->. rewrite Hr by done. unfold keeps_count in *. congruence.
Qed.

Lemma in_channel_runs {A} ticks c m (Q : option A → chan_world → Prop) w ch :
  cw_channels w !! c = Some ch →
  runs_to (m w) (λ a ch', Q (Some a) (ChanWorld (cw_now w + ticks) (<[c := ch']> (cw_channels w)) (cw_error w))) ch →
  runs_to (in_channel ticks c m) Q w.
Proof.
  intros Hc HQ. unfold runs_to, run_val, run_st, in_channel in *. rewrite (on_channel_run c ch) by done.
  exact HQ.
Qed.

(** C27: a push that cannot begin gives its entry back. When the entry was reserved
    and the pushbuffer then fails, uvm_push_begin_acquire_on_channel returns that
    status, the channel has as many entries reserved as before, and the tracker
    is the one it was given. *)
Theorem push_begin_error_releases gpu_of sched errs fatal sema_va acquire is_proxy index_in_pool runlist_id channel_id
    debug fuel pb_status begin mem c t s ch
    (Herr : pb_status ≠ NV_OK) (Hch : cw_channels (ts_world s) !! c = Some ch)
    (Hcount : is_u32 (current_gpfifo_count ch)) :
  runs_to (uvm_push_begin_acquire_on_channel gpu_of sched errs fatal sema_va acquire is_proxy index_in_pool
      runlist_id channel_id debug false fuel (pb_status, begin, mem) c t)
    (λ '(o, p, t') s', t' = t ∧
      (is_Some p → o = Done pb_status ∧
        ∃ ch', cw_channels (ts_world s') !! c = Some ch' ∧ current_gpfifo_count ch' = current_gpfifo_count ch)) s.
Proof.
  unfold uvm_push_begin_acquire_on_channel. apply runs_to_bind.
  assert (∀ (Q : _ → _ → Prop), Q (Done NV_OK, t) s → runs_to (wait_for_other_gpus_if_needed
    (channel_ops0 := uvm_channel_ops gpu_of sched errs fatal) false fuel t (gpu_of c)) Q s) as Hwait.
  { intros Q HQ. by destruct t. }
  apply Hwait. clear Hwait. cbn [negb]. change (NV_OK =? NV_OK) with true. cbn [negb].
  assert (c < length (cw_channels (ts_world s)))%nat as Hlt by by eapply lookup_lt_Some.
  apply runs_to_bind, world_runs. apply runs_to_bind. eapply in_channel_runs; [done|].
  eapply runs_to_mono; [apply reserve_count; done|]. intros r ch1 Hr. apply runs_to_ret.
  destruct r as [st|]; [|apply runs_to_ret; by split; [|intros []]].
  destruct (Z.eqb_spec st NV_OK) as [->|Hne]; cbn [negb]; [|apply runs_to_ret; by split; [|intros []]].
  specialize (Hr eq_refl). set (w1 := ChanWorld _ _ _).
  assert (cw_channels w1 !! c = Some ch1) as Hch1 by by apply list_lookup_insert_eq.
  unfold push_begin_acquire_with_info. apply runs_to_bind, runs_to_bind, world_runs. cbn [ts_world].
  eapply in_channel_runs; [done|]. unfold uvm_channel_begin_push.
  rewrite (proj2 (Z.eqb_neq pb_status NV_OK) Herr). cbn [negb]. apply runs_to_ret. cbn [from_option]. unfold id.
  rewrite (proj2 (Z.eqb_neq pb_status NV_OK) Herr). cbn [negb]. apply runs_to_ret.
  rewrite (proj2 (Z.eqb_neq pb_status NV_OK) Herr). cbn [negb]. apply runs_to_bind, world_runs. cbn [ts_world cw_channels].
  eapply in_channel_runs; [apply (list_lookup_insert_eq (cw_channels w1)); simpl; by rewrite length_insert|].
  unfold uvm_channel_release. unfold runs_to at 1. cbn. split; [done|]. intros _. split; [done|].
  eexists. split; [apply list_lookup_insert_eq; by rewrite !length_insert|].
  simpl. rewrite Hr. unfold u32, is_u32 in *. zify_divmod.
Qed.

(** * Examples

    Two channels; on the second a push is queued, which the GPU completes after
    the third reading. *)
Definition ex_sched (k c : nat) : Z := if (c =? 1)%nat && (2 <? k)%nat then 1 else 0.
Definition ex_errs (k c : nat) : err_env := ErrEnv 0 false false.
Definition ex_fatal (k : nat) : Z := NV_OK.
Definition ex_gpu_of (c : nat) : Z := Z.of_nat c.
Definition ex_channels : list uvm_channel_t := [channel_create 32 4096; cs_chan ex_pending].
Definition ex_world : chan_world := ChanWorld 0 ex_channels NV_OK.
Definition ex_sys : tsys chan_world := TSys ex_world 0 0.

Lemma ex_n_bound : Z.of_nat 2 < 2 ^ 30.
Proof. done. Qed.

Lemma ex_sched_mono k c : ex_sched k c ≤ ex_sched (S k) c.
Proof.
  unfold ex_sched. destruct (c =? 1)%nat; [|done]. cbn [andb].
  destruct (Nat.ltb_spec 2 k), (Nat.ltb_spec 2 (S k)); lia.
Qed.

Lemma ex_world_ok : world_ok ex_sched 2 ex_world.
Proof.
  split; [done| |].
  - intros [|[|c]] ch [= <-].
    + exists []. apply (ch_init_inv 32 4096). lia.
    + exists (cs_ongoing ex_pending). apply (ch_reachable_inv 32 4096 ex_pending); [lia|apply ex_pending_reachable].
  - intros [|[|c]] ch k [= <-]; [done|]. unfold ex_sched. cbn [Nat.eqb andb].
    destruct (2 <? k)%nat; vm_compute; done.
Qed.

Definition ex_dep : uvm_tracker_entry_t := TrackerEntry (Some 1%nat) 1.
Definition ex_tracker : uvm_tracker_t := Tracker [ex_dep] 1 1.

(** The second call of the allocator fails. *)
Definition ex_kv (k : nat) (m : Z) : option (list uvm_tracker_entry_t) :=
  if (k =? 1)%nat then None else Some (replicate (Z.to_nat m) null_entry).

Lemma ex_kv_length k m l : ex_kv k m = Some l → length l = Z.to_nat m.
Proof. unfold ex_kv. destruct (k =? 1)%nat; [done|]. intros [= <-]. apply length_replicate. Qed.

Lemma ex_tracker_inv : uvm_tr_inv ex_gpu_of ex_sched ex_errs ex_fatal 2 ex_n_bound ex_sched_mono ex_tracker.
Proof.
  split; [split; simpl; lia|repeat constructor; set_solver|].
  intros c Hc. cbn in Hc. apply list_elem_of_singleton in Hc as [= ->]. simpl. lia.
Qed.

#[local] Instance ex_ops : channel_ops ch_action chan_world := uvm_channel_ops ex_gpu_of ex_sched ex_errs ex_fatal.

Lemma push_waits_for_tracker_witness :
  runs_to
    (uvm_push_acquire_tracker (λ c _, 0x200000 + 16 * Z.of_nat c) (hal_semaphore_acquire true) (λ _, false) (λ _, 0)
       (λ _, 0) (λ _, 0) 0 (Some ex_tracker) (ex_push, None))
    (λ '(_, (p', _)) s', ∃ ws, pushed_words ex_push ws p' ∧
      ∀ (N : nat → Z) (mem : Z → Z) (r : host_regs),
        (∀ c, ex_sched (cw_now (ts_world s')) c ≤ N c) →
        (∀ c, (c < 2)%nat → mem (0x200000 + 16 * Z.of_nat c) = u32 (N c)) →
        (∀ va v, (va, v) ∈ host_acquires r (decode_pushbuffer ws) → acquire_geq (mem va) v = true) →
        ∀ e c, e ∈ tr_entries ex_tracker → te_channel e = Some c → c ≠ 0%nat → te_value e ≤ N c) ex_sys.
Proof.
  apply (push_waits_for_tracker ex_gpu_of ex_sched ex_errs ex_fatal 2 ex_n_bound ex_sched_mono
    (λ c _, 0x200000 + 16 * Z.of_nat c) (λ _, false) (λ _, 0) (λ _, 0) (λ _, 0) true 0 ex_tracker ex_push None ex_sys).
  - apply ex_world_ok.
  - apply ex_tracker_inv.
  - intros e ->%list_elem_of_singleton c ch [= <-] [= <-]. vm_compute. done.
  - intros [|[|c]] Hc; [done|done|lia].
  - vm_compute. lia.
Defined.


Lemma tracker_wait_returns_witness :
  runs_to (uvm_tracker_wait 9 ex_tracker)
    (λ '(o, t') s', ∃ st, o = Done st ∧ tr_entries t' = [] ∧ tr_max_size t' = tr_max_size ex_tracker ∧
      (st = NV_OK → ∀ e c, e ∈ tr_entries ex_tracker → te_channel e = Some c →
        te_value e ≤ ex_sched (cw_now (ts_world s')) c)) ex_sys.
Proof.
  apply (tracker_wait_returns ex_gpu_of ex_sched ex_errs ex_fatal 2 ex_n_bound ex_sched_mono 9 ex_tracker ex_sys 3).
  - apply ex_world_ok.
  - apply ex_tracker_inv.
  - left. intros e c ->%list_elem_of_singleton [= <-]. vm_compute. done.
  - lia.
Defined.

Lemma add_tracker_merges_witness :
  runs_to (uvm_tracker_add_tracker ex_kv uvm_tracker_init (Src ex_tracker))
    (λ '(status, dst', src') s',
      (status = NV_OK ∨ status = NV_ERR_NO_MEMORY) ∧
      ((∀ k m, ex_kv k m ≠ None) → status = NV_OK ∧ src' = Src ex_tracker ∧
        entry_map (tr_entries dst') =
          map_max (entry_map (tr_entries uvm_tracker_init)) (entry_map (tr_entries ex_tracker))) ∧
      (∀ e, e ∈ tr_entries dst' → e ∈ tr_entries uvm_tracker_init ∨ (status = NV_OK ∧ e ∈ tr_entries ex_tracker)) ∧
      (∀ e c, e ∈ tr_entries uvm_tracker_init ∨ (status = NV_OK ∧ e ∈ tr_entries ex_tracker) →
        te_channel e = Some c →
        te_value e ≤ ex_sched (cw_now (ts_world s')) c ∨
        ∃ x, x ∈ tr_entries dst' ∧ te_channel x = Some c ∧ te_value e ≤ te_value x)) ex_sys.
Proof.
  apply (add_tracker_merges ex_gpu_of ex_sched ex_errs ex_fatal 2 ex_n_bound ex_sched_mono ex_kv uvm_tracker_init
    ex_tracker ex_sys).
  - apply ex_kv_length.
  - apply ex_world_ok.
  - apply tr_init_inv.
  - apply ex_tracker_inv.
Defined.

Lemma push_begin_error_releases_witness :
  runs_to (uvm_push_begin_acquire_on_channel ex_gpu_of ex_sched ex_errs ex_fatal (λ _ _, 0)
      (hal_semaphore_acquire true) (λ _, false) (λ _, 0) (λ _, 0) (λ _, 0) false false 9 (0x51, 0, []) 1
      (Some ex_tracker))
    (λ '(o, p, t') s', t' = Some ex_tracker ∧
      (is_Some p → o = Done 0x51 ∧
        ∃ ch', cw_channels (ts_world s') !! 1%nat = Some ch' ∧
          current_gpfifo_count ch' = current_gpfifo_count (cs_chan ex_pending))) ex_sys.
Proof.
  apply (push_begin_error_releases ex_gpu_of ex_sched ex_errs ex_fatal (λ _ _, 0) (hal_semaphore_acquire true)
    (λ _, false) (λ _, 0) (λ _, 0) (λ _, 0) false 9 0x51 0 [] 1 (Some ex_tracker) ex_sys (cs_chan ex_pending)).
  - done.
  - done.
  - vm_compute. done.
Defined.

(** ** What the code does not do *)

(** An entry without a channel counts as completed, and is dereferenced by the
    wait for other GPUs. *)
Lemma other_gpus_null_faults fuel gpu e :
  te_channel e = None →
  run_val (uvm_tracker_wait_for_other_gpus fuel (Tracker [e] 1 1) gpu) ex_sys = (Faulted, Tracker [e] 1 1).
Proof. by destruct e as [[c|] v]. Qed.

(** Of an acquire for another channel, the channel that acquires is recorded as
    the proxy. *)
Lemma acquire_records_own_index is_proxy index_in_pool runlist_id channel_id channel entry_channel v :
  is_proxy channel = true →
  ai_values (record_acquire is_proxy index_in_pool runlist_id channel_id channel entry_channel v (AcquireInfo [] 0)) =
    [AcquireValue v (ex_gpu_of entry_channel) true (inl (index_in_pool channel))].
Proof. intros Hp. unfold record_acquire. simpl. by rewrite Hp. Qed.
