(* ===== verification/Msgq.v ===== *)
(** * Msgq: the message queue between the resource manager and the GSP

    [src/src/nvidia/src/libraries/msgq/msgq.c]. A queue is a block of shared
    memory: a header the sender writes, a read pointer the receiver writes, and
    a ring of messages of a fixed size. Each side keeps its own metadata and
    caches the other side's pointer. The two sides run concurrently and share
    nothing but the block.

    Memory is a function from addresses to 32-bit words; the messages are an
    array of slots beside it. Whether an access through the backend callback
    succeeds is an argument of the operation; a queue without the callback
    accesses memory directly, which is a success. Cache, barrier and
    notification callbacks are actions, as is the write of a pointer. *)
From stdpp Require Import base numbers list list_numbers functions relations.
From S2P Require Import Prelude Rings.
#[local] Open Scope Z_scope.

Definition MSGQ_VERSION : Z := 0.
Definition MSGQ_MSG_SIZE_MIN : Z := 16.
Definition MSGQ_META_MIN_ALIGN : Z := 3.
Definition MSGQ_META_MAX_ALIGN : Z := 12.
Definition MSGQ_FLAGS_SWAP_RX : Z := 1.
Definition sizeof_msgqTxHeader : Z := 32.
Definition sizeof_msgqRxHeader : Z := 4.

Definition NV_ALIGN_UP (v gran : Z) : Z := Z.land (u32 (v + (gran - 1))) (u32 (Z.lnot (gran - 1))).

Record msgqTxHeader := TxHeader {
  version : Z;
  size : Z;
  msgSize : Z;
  msgCount : Z;
  writePtr : Z;
  flags : Z;
  rxHdrOff : Z;
  entryOff : Z }.

(** [hasFlush] and the like: the callback is set. *)
Record msgqMetadata := Meta {
  pOurTxHdr : Z;
  pTheirTxHdr : Z;
  pOurRxHdr : Z;
  pTheirRxHdr : Z;
  pOurEntries : Z;
  pTheirEntries : Z;
  pReadIncoming : Z;
  pWriteIncoming : Z;
  pReadOutgoing : Z;
  pWriteOutgoing : Z;
  tx : msgqTxHeader;
  txReadPtr : Z;
  txFree : Z;
  txLinked : bool;
  rx : msgqTxHeader;
  rxReadPtr : Z;
  rxAvail : Z;
  rxLinked : bool;
  rxSwapped : bool;
  hasNotify : bool;
  hasInvalidate : bool;
  hasFlush : bool;
  hasZero : bool;
  hasBarrier : bool }.

Inductive msgq_action :=
| Publish (addr value : Z)
| Flush (addr len : Z)
| Invalidate (addr len : Z)
| Zero (addr len : Z)
| Barrier
| Notify (isRead : Z).

Definition zeroHeader : msgqTxHeader := TxHeader 0 0 0 0 0 0 0 0.

Definition msgqInit (notify invalidate flush zero barrier : bool) : msgqMetadata :=
  Meta 0 0 0 0 0 0 0 0 0 0 zeroHeader 0 0 false zeroHeader 0 0 false false
    notify invalidate flush zero barrier.

(** Reading and writing a header: eight words. *)
Definition header_words (h : msgqTxHeader) : list Z :=
  [version h; size h; msgSize h; msgCount h; writePtr h; flags h; rxHdrOff h; entryOff h].

Definition read_header (mem : Z → Z) (p : Z) : msgqTxHeader :=
  TxHeader (mem p) (mem (p + 4)) (mem (p + 8)) (mem (p + 12)) (mem (p + 16)) (mem (p + 20))
    (mem (p + 24)) (mem (p + 28)).

Definition write_header (h : msgqTxHeader) (p : Z) (mem : Z → Z) : Z → Z :=
  <[p := version h]> (<[p + 4 := size h]> (<[p + 8 := msgSize h]> (<[p + 12 := msgCount h]>
    (<[p + 16 := writePtr h]> (<[p + 20 := flags h]> (<[p + 24 := rxHdrOff h]>
      (<[p + 28 := entryOff h]> mem))))))).

Definition set_tx h (q : msgqMetadata) : msgqMetadata :=
  Meta (pOurTxHdr q) (pTheirTxHdr q) (pOurRxHdr q) (pTheirRxHdr q) (pOurEntries q) (pTheirEntries q)
    (pReadIncoming q) (pWriteIncoming q) (pReadOutgoing q) (pWriteOutgoing q) h (txReadPtr q) (txFree q)
    (txLinked q) (rx q) (rxReadPtr q) (rxAvail q) (rxLinked q) (rxSwapped q) (hasNotify q)
    (hasInvalidate q) (hasFlush q) (hasZero q) (hasBarrier q).
Definition set_rx h (q : msgqMetadata) : msgqMetadata :=
  Meta (pOurTxHdr q) (pTheirTxHdr q) (pOurRxHdr q) (pTheirRxHdr q) (pOurEntries q) (pTheirEntries q)
    (pReadIncoming q) (pWriteIncoming q) (pReadOutgoing q) (pWriteOutgoing q) (tx q) (txReadPtr q) (txFree q)
    (txLinked q) h (rxReadPtr q) (rxAvail q) (rxLinked q) (rxSwapped q) (hasNotify q)
    (hasInvalidate q) (hasFlush q) (hasZero q) (hasBarrier q).
Definition set_theirTxHdr p (q : msgqMetadata) : msgqMetadata :=
  Meta (pOurTxHdr q) p (pOurRxHdr q) (pTheirRxHdr q) (pOurEntries q) (pTheirEntries q)
    (pReadIncoming q) (pWriteIncoming q) (pReadOutgoing q) (pWriteOutgoing q) (tx q) (txReadPtr q) (txFree q)
    (txLinked q) (rx q) (rxReadPtr q) (rxAvail q) (rxLinked q) (rxSwapped q) (hasNotify q)
    (hasInvalidate q) (hasFlush q) (hasZero q) (hasBarrier q).
Definition set_txcache rp free (q : msgqMetadata) : msgqMetadata :=
  Meta (pOurTxHdr q) (pTheirTxHdr q) (pOurRxHdr q) (pTheirRxHdr q) (pOurEntries q) (pTheirEntries q)
    (pReadIncoming q) (pWriteIncoming q) (pReadOutgoing q) (pWriteOutgoing q) (tx q) rp free
    (txLinked q) (rx q) (rxReadPtr q) (rxAvail q) (rxLinked q) (rxSwapped q) (hasNotify q)
    (hasInvalidate q) (hasFlush q) (hasZero q) (hasBarrier q).
Definition set_rxcache rp avail (q : msgqMetadata) : msgqMetadata :=
  Meta (pOurTxHdr q) (pTheirTxHdr q) (pOurRxHdr q) (pTheirRxHdr q) (pOurEntries q) (pTheirEntries q)
    (pReadIncoming q) (pWriteIncoming q) (pReadOutgoing q) (pWriteOutgoing q) (tx q) (txReadPtr q) (txFree q)
    (txLinked q) (rx q) rp avail (rxLinked q) (rxSwapped q) (hasNotify q)
    (hasInvalidate q) (hasFlush q) (hasZero q) (hasBarrier q).

Definition set_writePtr (v : Z) (h : msgqTxHeader) : msgqTxHeader :=
  TxHeader (version h) (size h) (msgSize h) (msgCount h) v (flags h) (rxHdrOff h) (entryOff h).

(** The state an operation works on: the shared words and its own metadata. *)
Record msgq_st := MsgqSt { st_mem : Z → Z; st_q : msgqMetadata }.

#[local] Abbreviation M := (prog msgq_action msgq_st).

Definition q_ : M msgqMetadata := gets st_q.
Definition upd_q f : M unit := modify (λ s, MsgqSt (st_mem s) (f (st_q s))).
Definition act (b : bool) (a : msgq_action) : M unit := when b (tell [a]).

Definition _backendRead32 (ok : bool) (addr : Z) : M (option Z) :=
  if ok then gets (λ s, Some (st_mem s addr)) else mret None.

Definition _backendWrite32 (ok : bool) (addr value : Z) : M Z :=
  if ok then
    modify (λ s, MsgqSt (<[addr := value]> (st_mem s)) (st_q s));;
    tell [Publish addr value];;
    mret 0
  else mret (-1).

Definition swapped (a b : msgqTxHeader) : bool :=
  negb (Z.land (flags a) MSGQ_FLAGS_SWAP_RX =? 0) && negb (Z.land (flags b) MSGQ_FLAGS_SWAP_RX =? 0).

(** The arguments of msgqTxCreate that it refuses at once. *)
Definition create_refused (q : msgqMetadata) (base sz msz hdrAlign entryAlign : Z) : bool :=
  txLinked q || (msz <? MSGQ_MSG_SIZE_MIN) || (sz <? msz) ||
  (hdrAlign <? MSGQ_META_MIN_ALIGN) || (MSGQ_META_MAX_ALIGN <? hdrAlign) ||
  (entryAlign <? MSGQ_META_MIN_ALIGN) || (MSGQ_META_MAX_ALIGN <? entryAlign) ||
  (base =? NULL) || negb (Z.land base (hdrAlign - 1) =? 0).

Definition msgqTxCreate (wr_ok : bool) (base sz msz hdrAlign entryAlign flgs : Z) : M Z :=
  q ← q_;
  if create_refused q base sz msz hdrAlign entryAlign then mret (-1)
  else
    let rxOff := NV_ALIGN_UP sizeof_msgqTxHeader (Z.shiftl 1 hdrAlign) in
    let entOff := NV_ALIGN_UP (rxOff + sizeof_msgqRxHeader) (Z.shiftl 1 entryAlign) in
    if sz <? u32 (entOff + msz) then
      upd_q (set_tx (TxHeader (version (tx q)) (size (tx q)) (msgSize (tx q)) (msgCount (tx q))
        (writePtr (tx q)) (flags (tx q)) rxOff entOff));;
      mret (-1)
    else
      let h := TxHeader MSGQ_VERSION sz msz (u32 (sz - entOff) / msz) 0 flgs rxOff entOff in
      let sw := swapped h (rx q) in
      upd_q (λ q, Meta base (pTheirTxHdr q) (base + rxOff) (pTheirRxHdr q) (base + entOff) (pTheirEntries q)
        (if sw then pTheirRxHdr q else base + rxOff) (pWriteIncoming q)
        (if sw then base + rxOff else if rxLinked q then pTheirRxHdr q else pReadOutgoing q) (base + 16)
        h (txReadPtr q) (u32 (msgCount h - 1)) true (rx q) (rxReadPtr q) 0 (rxLinked q) sw
        (hasNotify q) (hasInvalidate q) (hasFlush q) (hasZero q) (hasBarrier q));;
      act (hasZero q) (Zero base sizeof_msgqTxHeader);;
      if negb wr_ok then mret (-1)
      else
        modify (λ s, MsgqSt (write_header h base (st_mem s)) (st_q s));;
        act (hasFlush q) (Flush base sizeof_msgqTxHeader);;
        act (hasBarrier q) Barrier;;
        act (hasNotify q) (Notify 0);;
        mret 0.

(** The checks of msgqRxLink on the header it read, with its error codes. *)
Definition link_check (q : msgqMetadata) (h : msgqTxHeader) (sz msz : Z) : Z :=
  if sz <? u32 (entryOff h + msz) then -6
  else if negb (size h =? sz) then -7
  else if negb (msgSize h =? msz) then -8
  else if negb (version h =? MSGQ_VERSION) then -9
  else if (rxHdrOff h <? sizeof_msgqTxHeader) ||
          (entryOff h <? rxHdrOff (tx q) + sizeof_msgqRxHeader) ||
          negb (msgCount h =? u32 (sz - entryOff h) / msz) then -10
  else 0.

Definition msgqRxLink (rd_ok wr_ok : bool) (base sz msz : Z) : M Z :=
  q ← q_;
  if rxLinked q then mret (-1)
  else if msz <? MSGQ_MSG_SIZE_MIN then mret (-2)
  else if sz <? msz then mret (-3)
  else if base =? NULL then mret (-5)
  else
    upd_q (set_theirTxHdr base);;
    act (hasInvalidate q) (Invalidate base sizeof_msgqTxHeader);;
    if negb rd_ok then mret (-11)
    else
      h ← gets (λ s, read_header (st_mem s) base);
      upd_q (set_rx h);;
      let e := link_check q h sz msz in
      if negb (e =? 0) then mret e
      else
        let sw := swapped (tx q) h in
        let out := if sw then pOurRxHdr q else base + rxHdrOff h in
        upd_q (λ q, Meta (pOurTxHdr q) base (pOurRxHdr q) (base + rxHdrOff h) (pOurEntries q) (base + entryOff h)
          (if sw then base + rxHdrOff h else if txLinked q then pOurRxHdr q else pReadIncoming q)
          (base + 16) out (pWriteOutgoing q) (tx q) (txReadPtr q) (txFree q) (txLinked q) h 0 (rxAvail q) true sw
          (hasNotify q) (hasInvalidate q) (hasFlush q) (hasZero q) (hasBarrier q));;
        act (hasZero q) (Zero out 4);;
        status ← _backendWrite32 wr_ok out 0;
        if negb (status =? 0) then mret (-12)
        else
          act (hasFlush q) (Flush out 4);;
          act (hasBarrier q) Barrier;;
          act (hasNotify q) (Notify 1);;
          mret 0.

(** ** Sending *)

(** Returns the free space. The cache keeps its value when the read fails or the
    other side's pointer is out of range. *)
Definition msgqTxGetFreeSpace (rd_ok : bool) : M Z :=
  q ← q_;
  if negb (txLinked q) then mret 0
  else
    r ← _backendRead32 rd_ok (pReadIncoming q);
    match r with
    | None => mret 0
    | Some rp =>
        let count := msgCount (tx q) in
        if count <=? rp then upd_q (set_txcache rp (txFree q));; mret 0
        else
          let free := u32 (rp + count - writePtr (tx q) - 1) in
          let free := if count <=? free then u32 (free - count) else free in
          upd_q (set_txcache rp free);;
          mret free
    end.

(** [n] slots are beyond [free]: the test of a call that needs them, which looks
    at the cache first. *)
Definition tx_lacks (cmp : Z → Z → bool) (rd_ok : bool) (n : Z) : M bool :=
  q ← q_;
  if cmp (txFree q) n then
    free ← msgqTxGetFreeSpace rd_ok;
    mret (cmp free n)
  else mret false.

Definition msgqTxGetWriteBuffer (rd_ok : bool) (n : Z) : M Z :=
  q ← q_;
  if negb (txLinked q) then mret NULL
  else
    lacks ← tx_lacks Z.leb rd_ok n;
    if (lacks : bool) then mret NULL
    else
      let wp := u32 (writePtr (tx q) + n) in
      let wp := if msgCount (tx q) <=? wp then u32 (wp - msgCount (tx q)) else wp in
      mret (pOurEntries q + u32 (wp * msgSize (tx q))).

Definition msgqTxSubmitBuffers (rd_ok wr_ok : bool) (n : Z) : M Z :=
  q ← q_;
  if negb (txLinked q) then mret (-1)
  else
    lacks ← tx_lacks Z.ltb rd_ok n;
    if (lacks : bool) then mret (-1)
    else
      let count := msgCount (tx q) in
      act (hasFlush q) (Flush (pOurEntries q) (u32 (count * msgSize (tx q))));;
      let wp := u32 (writePtr (tx q) + n) in
      let wp := if count <=? wp then u32 (wp - count) else wp in
      upd_q (λ q, set_tx (set_writePtr wp (tx q)) q);;
      status ← _backendWrite32 wr_ok (pWriteOutgoing q) wp;
      if negb (status =? 0) then
        let wp := if wp <? n then u32 (wp + count) else wp in
        upd_q (λ q, set_tx (set_writePtr (u32 (wp - n)) (tx q)) q);;
        mret (-2)
      else
        upd_q (λ q, set_txcache (txReadPtr q) (u32 (txFree q - n)) q);;
        act (hasFlush q) (Flush (pWriteOutgoing q) 4);;
        act (hasBarrier q) Barrier;;
        act (hasNotify q) (Notify 0);;
        mret 0.

Definition msgqTxSync (rd_ok : bool) : M Z :=
  q ← q_;
  if negb (txLinked q) then mret (-1)
  else
    act (hasInvalidate q) (Invalidate (pReadIncoming q) 4);;
    msgqTxGetFreeSpace rd_ok.

Definition msgqTxGetPending (rd_ok : bool) : M Z :=
  q ← q_;
  if negb (txLinked q) then mret 0
  else
    free ← msgqTxSync rd_ok;
    mret (u32 (msgCount (tx q) - free - 1)).

(** ** Receiving *)

Definition msgqRxGetReadAvailable (rd_ok : bool) : M Z :=
  q ← q_;
  if negb (rxLinked q) then mret 0
  else
    r ← _backendRead32 rd_ok (pWriteIncoming q);
    match r with
    | None => mret 0
    | Some wp =>
        let count := msgCount (rx q) in
        upd_q (λ q, set_rx (set_writePtr wp (rx q)) q);;
        if count <=? wp then mret 0
        else
          let avail := u32 (wp + count - rxReadPtr q) in
          let avail := if count <=? avail then u32 (avail - count) else avail in
          upd_q (λ q, set_rxcache (rxReadPtr q) avail q);;
          mret avail
    end.

Definition rx_lacks (cmp : Z → Z → bool) (rd_ok : bool) (n : Z) : M bool :=
  q ← q_;
  if cmp (rxAvail q) n then
    avail ← msgqRxGetReadAvailable rd_ok;
    mret (cmp avail n)
  else mret false.

Definition msgqRxGetReadBuffer (rd_ok : bool) (n : Z) : M Z :=
  q ← q_;
  if negb (rxLinked q) then mret NULL
  else
    lacks ← rx_lacks Z.leb rd_ok n;
    if (lacks : bool) then mret NULL
    else
      let rp := u32 (rxReadPtr q + n) in
      let rp := if msgCount (rx q) <=? rp then u32 (rp - msgCount (rx q)) else rp in
      mret (pTheirEntries q + u32 (rp * msgSize (rx q))).

Definition msgqRxMarkConsumed (rd_ok wr_ok : bool) (n : Z) : M Z :=
  q ← q_;
  if negb (rxLinked q) then mret (-1)
  else
    lacks ← rx_lacks Z.ltb rd_ok n;
    if (lacks : bool) then mret (-1)
    else
      let count := msgCount (rx q) in
      let rp := u32 (rxReadPtr q + n) in
      let rp := if count <=? rp then u32 (rp - count) else rp in
      upd_q (λ q, set_rxcache rp (rxAvail q) q);;
      status ← _backendWrite32 wr_ok (pReadOutgoing q) rp;
      if negb (status =? 0) then
        let rp := if rp <? n then u32 (rp + count) else rp in
        upd_q (λ q, set_rxcache (u32 (rp - n)) (rxAvail q) q);;
        mret (-2)
      else
        upd_q (λ q, set_rxcache (rxReadPtr q) (u32 (rxAvail q - n)) q);;
        act (hasFlush q) (Flush (pReadOutgoing q) 4);;
        act (hasBarrier q) Barrier;;
        act (hasNotify q) (Notify 1);;
        mret 0.

Definition msgqRxSync (rd_ok : bool) : M Z :=
  q ← q_;
  if negb (rxLinked q) then mret (-1)
  else
    act (hasInvalidate q) (Invalidate (pTheirEntries q) (u32 (msgCount (rx q) * msgSize (rx q))));;
    act (hasInvalidate q) (Invalidate (pWriteIncoming q) 4);;
    msgqRxGetReadAvailable rd_ok.

(** ** Specification *)

(** A sender [a] and a receiver [b] of the same block, with the addresses of its
    two pointers. *)
Record linked (a b : msgqMetadata) : Prop := {
  lk_tx : txLinked a = true;
  lk_rx : rxLinked b = true;
  lk_wp : pWriteIncoming b = pWriteOutgoing a;
  lk_rp : pReadIncoming a = pReadOutgoing b;
  lk_ne : pWriteOutgoing a ≠ pReadOutgoing b;
  lk_entries : pTheirEntries b = pOurEntries a;
  lk_count : msgCount (rx b) = msgCount (tx a);
  lk_size : msgSize (rx b) = msgSize (tx a);
  lk_pos : 0 < msgCount (tx a) ∧ MSGQ_MSG_SIZE_MIN ≤ msgSize (tx a) ∧ msgCount (tx a) * msgSize (tx a) < 2 ^ 32 }.

Section spec.
Context {Msg : Type}.

(** The two sides, the shared memory with its slots, and the messages sent and
    consumed so far. *)
Record mq_sys := MqSys {
  ms_mem : Z → Z;
  ms_a : msgqMetadata;
  ms_b : msgqMetadata;
  ms_slots : list Msg;
  ms_sent : list Msg;
  ms_recv : list Msg }.

(** The messages in the ring, oldest first. *)
Definition in_flight (s : mq_sys) : list Msg :=
  ring_read (ms_slots s) (ring_slots (msgCount (tx (ms_a s))) (rxReadPtr (ms_b s))
    (ring_count (msgCount (tx (ms_a s))) (writePtr (tx (ms_a s))) (rxReadPtr (ms_b s)))).

Record mq_inv (s : mq_sys) : Prop := {
  mi_linked : linked (ms_a s) (ms_b s);
  mi_len : Z.of_nat (length (ms_slots s)) = msgCount (tx (ms_a s));
  mi_put : 0 ≤ writePtr (tx (ms_a s)) < msgCount (tx (ms_a s));
  mi_get : 0 ≤ rxReadPtr (ms_b s) < msgCount (tx (ms_a s));
  mi_mem_put : ms_mem s (pWriteOutgoing (ms_a s)) = writePtr (tx (ms_a s));
  mi_mem_get : ms_mem s (pReadOutgoing (ms_b s)) = rxReadPtr (ms_b s);
  mi_free : 0 ≤ txFree (ms_a s) ≤ msgCount (tx (ms_a s)) - 1 -
    ring_count (msgCount (tx (ms_a s))) (writePtr (tx (ms_a s))) (rxReadPtr (ms_b s));
  mi_avail : 0 ≤ rxAvail (ms_b s) ≤
    ring_count (msgCount (tx (ms_a s))) (writePtr (tx (ms_a s))) (rxReadPtr (ms_b s));
  mi_fifo : ms_sent s = ms_recv s ++ in_flight s }.

(** The sender's and the receiver's operations. *)
Definition run_a {A} (m : M A) (s : mq_sys) : mq_sys :=
  let s' := run_st m (MsgqSt (ms_mem s) (ms_a s)) in
  MqSys (st_mem s') (st_q s') (ms_b s) (ms_slots s) (ms_sent s) (ms_recv s).
Definition val_a {A} (m : M A) (s : mq_sys) : A := run_val m (MsgqSt (ms_mem s) (ms_a s)).
Definition run_b {A} (m : M A) (s : mq_sys) : mq_sys :=
  let s' := run_st m (MsgqSt (ms_mem s) (ms_b s)) in
  MqSys (st_mem s') (ms_a s) (st_q s') (ms_slots s) (ms_sent s) (ms_recv s).
Definition val_b {A} (m : M A) (s : mq_sys) : A := run_val m (MsgqSt (ms_mem s) (ms_b s)).

(** Any interleaving of the two sides. The sender writes a message through a
    pointer it got, and submits what lies in the next [n] slots. *)
Inductive mq_step : mq_sys → mq_sys → Prop :=
| mq_write rd k (i : nat) m s :
    0 ≤ k < 2 ^ 32 → val_a (msgqTxGetWriteBuffer rd k) s ≠ NULL →
    (i < length (ms_slots s))%nat →
    val_a (msgqTxGetWriteBuffer rd k) s = pOurEntries (ms_a s) + Z.of_nat i * msgSize (tx (ms_a s)) →
    mq_step s
      (let s' := run_a (msgqTxGetWriteBuffer rd k) s in
       MqSys (ms_mem s') (ms_a s') (ms_b s') (<[i := m]> (ms_slots s')) (ms_sent s') (ms_recv s'))
| mq_submit rd wr n s :
    0 ≤ n < 2 ^ 32 →
    mq_step s
      (let s' := run_a (msgqTxSubmitBuffers rd wr n) s in
       MqSys (ms_mem s') (ms_a s') (ms_b s') (ms_slots s')
         (ms_sent s' ++ if val_a (msgqTxSubmitBuffers rd wr n) s =? 0
           then ring_read (ms_slots s) (ring_slots (msgCount (tx (ms_a s))) (writePtr (tx (ms_a s))) n) else [])
         (ms_recv s'))
| mq_tx_sync rd s : mq_step s (run_a (msgqTxSync rd) s)
| mq_read rd k s : 0 ≤ k < 2 ^ 32 → mq_step s (run_b (msgqRxGetReadBuffer rd k) s)
| mq_consume rd wr n s :
    0 ≤ n < 2 ^ 32 →
    mq_step s
      (let s' := run_b (msgqRxMarkConsumed rd wr n) s in
       MqSys (ms_mem s') (ms_a s') (ms_b s') (ms_slots s') (ms_sent s')
         (ms_recv s' ++ if val_b (msgqRxMarkConsumed rd wr n) s =? 0
           then take (Z.to_nat n) (in_flight s) else []))
| mq_rx_sync rd s : mq_step s (run_b (msgqRxSync rd) s).
End spec.

(** * The pointers of one side *)

Lemma free_eq count put get :
  0 < count < 2 ^ 31 → 0 ≤ put < count → 0 ≤ get < count →
  (let f := u32 (get + count - put - 1) in if count <=? f then u32 (f - count) else f) =
    count - 1 - ring_count count put get.
Proof.
  intros Hc Hp Hg. cbn zeta. rewrite ring_count_cases by lia.
  rewrite (u32_small (get + _ - _ - 1)) by (unfold is_u32; lia).
  destruct (Z.leb_spec count (get + count - put - 1)), (Z.leb_spec get put);
    rewrite ?u32_small by (unfold is_u32; lia); lia.
Qed.

Lemma avail_eq count put get :
  0 < count < 2 ^ 31 → 0 ≤ put < count → 0 ≤ get < count →
  (let f := u32 (put + count - get) in if count <=? f then u32 (f - count) else f) = ring_count count put get.
Proof.
  intros Hc Hp Hg. cbn zeta. rewrite ring_count_cases by lia.
  rewrite (u32_small (put + _ - _)) by (unfold is_u32; lia).
  destruct (Z.leb_spec count (put + count - get)), (Z.leb_spec get put);
    rewrite ?u32_small by (unfold is_u32; lia); lia.
Qed.

Lemma advance_eq count p n :
  0 < count < 2 ^ 31 → 0 ≤ p < count → 0 ≤ n < count →
  (let w := u32 (p + n) in if count <=? w then u32 (w - count) else w) = (p + n) mod count.
Proof.
  intros Hc Hp Hn. cbn zeta. rewrite (u32_small (p + n)) by (unfold is_u32; lia).
  destruct (Z.leb_spec count (p + n)).
  - rewrite u32_small by (unfold is_u32; lia). replace (p + n) with (p + n - count + 1 * count) at 2 by lia.
    rewrite Z.mod_add, Z.mod_small by lia. done.
  - by rewrite Z.mod_small by lia.
Qed.

(** Undoing an advance. *)
Lemma retreat_eq count p n :
  0 < count < 2 ^ 31 → 0 ≤ p < count → 0 ≤ n < count →
  (let w := (p + n) mod count in
   let w := if w <? n then u32 (w + count) else w in u32 (w - n)) = p.
Proof.
  intros Hc Hp Hn. cbn zeta. destruct (Z.leb_spec count (p + n)).
  - replace (p + n) with (p + n - count + 1 * count) by lia. rewrite Z.mod_add, Z.mod_small by lia.
    rewrite (proj2 (Z.ltb_lt _ _)) by lia. rewrite (u32_small (_ + count)) by (unfold is_u32; lia).
    rewrite u32_small by (unfold is_u32; lia). lia.
  - rewrite Z.mod_small by lia. rewrite (proj2 (Z.ltb_ge _ _)) by lia.
    rewrite u32_small by (unfold is_u32; lia). lia.
Qed.

Lemma q_run {A} (k : msgqMetadata → M A) s : (q_ ≫= k) s = k (st_q s) s.
Proof. apply run_gets. Qed.

Lemma upd_q_run {A} f (k : unit → M A) s : (upd_q f ≫= k) s = k tt (MsgqSt (st_mem s) (f (st_q s))).
Proof. exact (run_modify (λ s, MsgqSt (st_mem s) (f (st_q s))) k s). Qed.

Lemma act_run {A} b a (k : unit → M A) s :
  (act b a ≫= k) s = let '(x, s', es) := k tt s in (x, s', (if b then [a] else []) ++ es).
Proof. unfold mbind, prog_bind, act, when. destruct b; simpl; by destruct (k tt s) as [[??]?]. Qed.

Section sender.
Context (mem : Z → Z) (q : msgqMetadata) (put get count : Z).
Context (Hlinked : txLinked q = true) (Hcount : msgCount (tx q) = count) (Hc : 0 < count < 2 ^ 31).
Context (Hput : writePtr (tx q) = put) (Hp : 0 ≤ put < count).
Context (Hget : mem (pReadIncoming q) = get) (Hg : 0 ≤ get < count).

#[local] Abbreviation F := (count - 1 - ring_count count put get).
#[local] Abbreviation s := (MsgqSt mem q).

Lemma tx_free_run rd :
  msgqTxGetFreeSpace rd s =
    if (rd : bool) then (F, MsgqSt mem (set_txcache get F q), []) else (0, s, []).
Proof.
  unfold msgqTxGetFreeSpace. rewrite q_run. cbn [st_q]. rewrite Hlinked. cbn [negb].
  destruct rd; [|reflexivity]. unfold _backendRead32. rewrite run_gets. cbn [st_mem]. rewrite Hget, Hcount.
  rewrite (proj2 (Z.leb_gt _ _)) by lia. rewrite Hput, upd_q_run. cbn [st_mem st_q].
  pose proof (free_eq count put get Hc Hp Hg) as He. cbn zeta in He. rewrite He. reflexivity.
Qed.

(** The check against the cached free space: the cache may be refreshed, and stays
    a lower bound. *)
Lemma tx_lacks_run cmp rd n :
  0 ≤ txFree q ≤ F → (∀ f f', 0 ≤ f' ≤ f → cmp f n = true → cmp f' n = true) →
  ∃ (l : bool) rp f, tx_lacks cmp rd n s = (l, MsgqSt mem (set_txcache rp f q), []) ∧ 0 ≤ f ≤ F ∧
    (l = false → cmp f n = false) ∧ (l = true → rd = true → cmp F n = true).
Proof.
  intros Hf Hcmp. assert (set_txcache (txReadPtr q) (txFree q) q = q) as Hid by by destruct q.
  unfold tx_lacks. rewrite q_run. cbn [st_q]. destruct (cmp (txFree q) n) eqn:Hlt.
  - destruct rd.
    + exists (cmp F n), get, F. split; [eapply (run_bind_eq _ _ _ _ _ [] _ _ []); [apply (tx_free_run true)|done]|].
      split_and!; [lia|lia|done|done].
    + exists true, (txReadPtr q), (txFree q). rewrite Hid. split_and!; [|lia|lia|done|done].
      eapply (run_bind_eq _ _ _ _ _ [] _ _ []); [apply (tx_free_run false)|].
      by rewrite (Hcmp (txFree q) 0) by (done || lia).
  - exists false, (txReadPtr q), (txFree q). rewrite Hid. split_and!; [done|lia|lia|done|done].
Qed.

Lemma leb_mono n f f' : 0 ≤ f' ≤ f → (f <=? n) = true → (f' <=? n) = true.
Proof. rewrite !Z.leb_le. lia. Qed.

Lemma ltb_mono n f f' : 0 ≤ f' ≤ f → (f <? n) = true → (f' <? n) = true.
Proof. rewrite !Z.ltb_lt. lia. Qed.

(** A write buffer is a slot outside the messages in flight. *)
Lemma write_buffer_run rd n :
  0 ≤ txFree q ≤ F → 0 ≤ n → msgSize (tx q) * count < 2 ^ 32 → 0 < msgSize (tx q) →
  ∃ rp f, 0 ≤ f ≤ F ∧
    ((msgqTxGetWriteBuffer rd n s = (NULL, MsgqSt mem (set_txcache rp f q), []) ∧ (rd = true → F ≤ n)) ∨
     (msgqTxGetWriteBuffer rd n s =
        (pOurEntries q + (put + n) mod count * msgSize (tx q), MsgqSt mem (set_txcache rp f q), []) ∧ n < F)).
Proof.
  intros Hf Hn Hsz Hm. destruct (tx_lacks_run Z.leb rd n Hf (leb_mono n)) as (l & rp & f & Hrun & Hfr & Hl & Hl').
  exists rp, f. split; [done|]. unfold msgqTxGetWriteBuffer. rewrite q_run. cbn [st_q]. rewrite Hlinked. cbn [negb].
  destruct l; [left|right].
  - split; [by eapply (run_bind_eq _ _ _ _ _ [] _ _ [])|]. intros Hrd. apply Z.leb_le. by apply Hl'.
  - specialize (Hl eq_refl). apply Z.leb_gt in Hl. pose proof (ring_count_range count ltac:(lia) put get).
    split; [|lia]. eapply (run_bind_eq _ _ _ _ _ [] _ _ []); [exact Hrun|].
    rewrite Hcount, Hput. pose proof (advance_eq count put n Hc Hp ltac:(lia)) as He. cbn zeta in He. rewrite He.
    rewrite u32_small; [done|]. pose proof (Z.mod_pos_bound (put + n) count ltac:(lia)). unfold is_u32. nia.
Qed.

(** What a submission does, in order: the messages are flushed, the pointer is
    written and flushed, and after a barrier the other side is notified. *)
Definition submit_actions (w : Z) : list msgq_action :=
  (if hasFlush q then [Flush (pOurEntries q) (u32 (count * msgSize (tx q)))] else []) ++
  [Publish (pWriteOutgoing q) w] ++
  (if hasFlush q then [Flush (pWriteOutgoing q) 4] else []) ++
  (if hasBarrier q then [Barrier] else []) ++ (if hasNotify q then [Notify 0] else []).

Lemma submit_run rd wr n :
  0 ≤ txFree q ≤ F → 0 ≤ n →
  let w := (put + n) mod count in
  ∃ rp f, 0 ≤ f ≤ F ∧
    ((msgqTxSubmitBuffers rd wr n s = (-1, MsgqSt mem (set_txcache rp f q), []) ∧ (rd = true → F < n)) ∨
     (wr = true ∧ n ≤ f ∧ msgqTxSubmitBuffers rd wr n s =
        (0, MsgqSt (<[pWriteOutgoing q := w]> mem) (set_txcache rp (f - n) (set_tx (set_writePtr w (tx q)) q)),
         submit_actions w)) ∨
     (wr = false ∧ n ≤ f ∧ ∃ es, msgqTxSubmitBuffers rd wr n s = (-2, MsgqSt mem (set_txcache rp f q), es))).
Proof.
  intros Hf Hn w. destruct (tx_lacks_run Z.ltb rd n Hf (ltb_mono n)) as (l & rp & f & Hrun & Hfr & Hl & Hl').
  exists rp, f. split; [done|]. unfold msgqTxSubmitBuffers. rewrite q_run. cbn [st_q]. rewrite Hlinked. cbn [negb].
  destruct l.
  { left. split; [by eapply (run_bind_eq _ _ _ _ _ [] _ _ [])|]. intros Hrd. apply Z.ltb_lt. by apply Hl'. }
  specialize (Hl eq_refl). apply Z.ltb_ge in Hl. pose proof (ring_count_range count ltac:(lia) put get).
  pose proof (advance_eq count put n Hc Hp ltac:(lia)) as Ha. cbn zeta in Ha.
  pose proof (retreat_eq count put n Hc Hp ltac:(lia)) as Hr. cbn zeta in Hr.
  right. destruct wr; [left|right]; (split_and!; [done|done|]).
  - rewrite <-(app_nil_l (submit_actions w)). eapply run_bind_eq; [exact Hrun|]. rewrite Hcount, Hput, Ha.
    fold w. unfold submit_actions. rewrite <-(u32_small (f - n)) by (unfold is_u32; lia).
    unfold act, when, mbind, prog_bind, _backendWrite32.
    destruct (hasFlush q), (hasBarrier q), (hasNotify q); reflexivity.
  - eexists. eapply (run_bind_eq _ _ _ _ _ []); [exact Hrun|]. rewrite Hcount, Hput, Ha. cbn [app].
    rewrite act_run. unfold _backendWrite32. rewrite upd_q_run. cbn [st_mem st_q].
    unfold mbind, prog_bind. cbn. rewrite Hr. fold w. do 2 f_equal.
    rewrite <-Hput. f_equal. destruct q as [? ? ? ? ? ? ? ? ? ? []]. reflexivity.
Qed.
End sender.

Section receiver.
Context (mem : Z → Z) (q : msgqMetadata) (put get count : Z).
Context (Hlinked : rxLinked q = true) (Hcount : msgCount (rx q) = count) (Hc : 0 < count < 2 ^ 31).
Context (Hget : rxReadPtr q = get) (Hg : 0 ≤ get < count).
Context (Hput : mem (pWriteIncoming q) = put) (Hp : 0 ≤ put < count).

#[local] Abbreviation A := (ring_count count put get).
#[local] Abbreviation s := (MsgqSt mem q).

(** The metadata with a refreshed cache. *)
Definition rx_refreshed (wp f : Z) : msgqMetadata :=
  set_rxcache get f (set_rx (set_writePtr wp (rx q)) q).

Lemma rx_refreshed_id : rx_refreshed (writePtr (rx q)) (rxAvail q) = q.
Proof.
  unfold rx_refreshed. rewrite <-Hget. unfold set_rxcache, set_rx, set_writePtr.
  destruct q as [? ? ? ? ? ? ? ? ? ? ? ? ? ? []]. reflexivity.
Qed.

Lemma rx_avail_run rd :
  msgqRxGetReadAvailable rd s =
    if (rd : bool) then (A, MsgqSt mem (rx_refreshed put A), []) else (0, s, []).
Proof.
  unfold msgqRxGetReadAvailable. rewrite q_run. cbn [st_q]. rewrite Hlinked. cbn [negb].
  destruct rd; [|reflexivity]. unfold _backendRead32. rewrite run_gets. cbn [st_mem]. rewrite Hput, Hcount.
  rewrite upd_q_run. rewrite (proj2 (Z.leb_gt _ _)) by lia. rewrite Hget, upd_q_run. cbn [st_mem st_q].
  pose proof (avail_eq count put get Hc Hp Hg) as He. cbn zeta in He. rewrite He.
  unfold rx_refreshed. cbn. rewrite Hget. reflexivity.
Qed.

Lemma rx_lacks_run cmp rd n :
  0 ≤ rxAvail q ≤ A → (∀ f f', 0 ≤ f' ≤ f → cmp f n = true → cmp f' n = true) →
  ∃ (l : bool) wp f, rx_lacks cmp rd n s = (l, MsgqSt mem (rx_refreshed wp f), []) ∧ 0 ≤ f ≤ A ∧
    (l = false → cmp f n = false) ∧ (l = true → rd = true → cmp A n = true).
Proof.
  intros Hf Hcmp. pose proof rx_refreshed_id as Hid.
  unfold rx_lacks. rewrite q_run. cbn [st_q]. destruct (cmp (rxAvail q) n) eqn:Hlt.
  - destruct rd.
    + exists (cmp A n), put, A. split; [eapply (run_bind_eq _ _ _ _ _ [] _ _ []); [apply (rx_avail_run true)|done]|].
      split_and!; [lia|lia|done|done].
    + exists true, (writePtr (rx q)), (rxAvail q). rewrite Hid. split_and!; [|lia|lia|done|done].
      eapply (run_bind_eq _ _ _ _ _ [] _ _ []); [apply (rx_avail_run false)|].
      by rewrite (Hcmp (rxAvail q) 0) by (done || lia).
  - exists false, (writePtr (rx q)), (rxAvail q). rewrite Hid. split_and!; [done|lia|lia|done|done].
Qed.

(** A read buffer is the slot of a message in flight. *)
Lemma read_buffer_run rd n :
  0 ≤ rxAvail q ≤ A → 0 ≤ n → msgSize (rx q) * count < 2 ^ 32 → 0 < msgSize (rx q) →
  ∃ wp f, 0 ≤ f ≤ A ∧
    ((msgqRxGetReadBuffer rd n s = (NULL, MsgqSt mem (rx_refreshed wp f), []) ∧ (rd = true → A ≤ n)) ∨
     (msgqRxGetReadBuffer rd n s =
        (pTheirEntries q + (get + n) mod count * msgSize (rx q), MsgqSt mem (rx_refreshed wp f), []) ∧ n < A)).
Proof.
  intros Hf Hn Hsz Hm. destruct (rx_lacks_run Z.leb rd n Hf (leb_mono n)) as (l & wp & f & Hrun & Hfr & Hl & Hl').
  exists wp, f. split; [done|]. unfold msgqRxGetReadBuffer. rewrite q_run. cbn [st_q]. rewrite Hlinked. cbn [negb].
  destruct l; [left|right].
  - split; [by eapply (run_bind_eq _ _ _ _ _ [] _ _ [])|]. intros Hrd. apply Z.leb_le. by apply Hl'.
  - specialize (Hl eq_refl). apply Z.leb_gt in Hl. pose proof (ring_count_range count ltac:(lia) put get).
    split; [|lia]. eapply (run_bind_eq _ _ _ _ _ [] _ _ []); [exact Hrun|].
    rewrite Hcount, Hget. pose proof (advance_eq count get n Hc Hg ltac:(lia)) as He. cbn zeta in He. rewrite He.
    rewrite u32_small; [done|]. pose proof (Z.mod_pos_bound (get + n) count ltac:(lia)). unfold is_u32. nia.
Qed.

(** The pointer is written and flushed before the other side is notified. *)
Definition consume_actions (r : Z) : list msgq_action :=
  [Publish (pReadOutgoing q) r] ++
  (if hasFlush q then [Flush (pReadOutgoing q) 4] else []) ++
  (if hasBarrier q then [Barrier] else []) ++ (if hasNotify q then [Notify 1] else []).

Lemma consume_run rd wr n :
  0 ≤ rxAvail q ≤ A → 0 ≤ n →
  let r := (get + n) mod count in
  ∃ wp f, 0 ≤ f ≤ A ∧
    ((msgqRxMarkConsumed rd wr n s = (-1, MsgqSt mem (rx_refreshed wp f), []) ∧ (rd = true → A < n)) ∨
     (wr = true ∧ n ≤ f ∧ msgqRxMarkConsumed rd wr n s =
        (0, MsgqSt (<[pReadOutgoing q := r]> mem) (set_rxcache r (f - n) (rx_refreshed wp f)),
         consume_actions r)) ∨
     (wr = false ∧ n ≤ f ∧ msgqRxMarkConsumed rd wr n s = (-2, MsgqSt mem (rx_refreshed wp f), []))).
Proof.
  intros Hf Hn r. destruct (rx_lacks_run Z.ltb rd n Hf (ltb_mono n)) as (l & wp & f & Hrun & Hfr & Hl & Hl').
  exists wp, f. split; [done|]. unfold msgqRxMarkConsumed. rewrite q_run. cbn [st_q]. rewrite Hlinked. cbn [negb].
  destruct l.
  { left. split; [by eapply (run_bind_eq _ _ _ _ _ [] _ _ [])|]. intros Hrd. apply Z.ltb_lt. by apply Hl'. }
  specialize (Hl eq_refl). apply Z.ltb_ge in Hl. pose proof (ring_count_range count ltac:(lia) put get).
  pose proof (advance_eq count get n Hc Hg ltac:(lia)) as Ha. cbn zeta in Ha.
  pose proof (retreat_eq count get n Hc Hg ltac:(lia)) as Hr. cbn zeta in Hr.
  right. destruct wr; [left|right]; (split_and!; [done|done|]).
  - rewrite <-(app_nil_l (consume_actions r)). eapply run_bind_eq; [exact Hrun|]. rewrite Hcount, Hget, Ha.
    fold r. unfold consume_actions. rewrite <-(u32_small (f - n)) by (unfold is_u32; lia).
    unfold act, when, mbind, prog_bind, _backendWrite32.
    destruct (hasFlush q), (hasBarrier q), (hasNotify q); reflexivity.
  - eapply (run_bind_eq _ _ _ _ _ [] _ _ []); [exact Hrun|]. rewrite Hcount, Hget, Ha.
    unfold _backendWrite32. rewrite upd_q_run. cbn [st_mem st_q].
    unfold mbind, prog_bind. cbn. rewrite Hr. reflexivity.
Qed.
End receiver.

(** * Both sides *)

Section system.
Context {Msg : Type}.
Implicit Types (s : @mq_sys Msg).

#[local] Abbreviation num s := (msgCount (tx (ms_a s))).
#[local] Abbreviation put s := (writePtr (tx (ms_a s))).
#[local] Abbreviation get s := (rxReadPtr (ms_b s)).
#[local] Abbreviation used s := (ring_count (num s) (put s) (get s)).

Definition with_a mem q s : mq_sys := MqSys mem q (ms_b s) (ms_slots s) (ms_sent s) (ms_recv s).
Definition with_b mem q s : mq_sys := MqSys mem (ms_a s) q (ms_slots s) (ms_sent s) (ms_recv s).

Lemma run_a_eq {A} (m : M A) s x mem q es :
  m (MsgqSt (ms_mem s) (ms_a s)) = (x, MsgqSt mem q, es) → run_a m s = with_a mem q s ∧ val_a m s = x.
Proof. intros Hm. unfold run_a, val_a, run_st, run_val. by rewrite Hm. Qed.

Lemma run_b_eq {A} (m : M A) s x mem q es :
  m (MsgqSt (ms_mem s) (ms_b s)) = (x, MsgqSt mem q, es) → run_b m s = with_b mem q s ∧ val_b m s = x.
Proof. intros Hm. unfold run_b, val_b, run_st, run_val. by rewrite Hm. Qed.

Lemma linked_count_small (a b : msgqMetadata) : linked a b → 0 < msgCount (tx a) < 2 ^ 31.
Proof. intros Hl. destruct (lk_pos _ _ Hl) as (? & ? & ?). unfold MSGQ_MSG_SIZE_MIN in *. nia. Qed.

Lemma mq_inv_tx_cache s rp f :
  mq_inv s → 0 ≤ f ≤ num s - 1 - used s → mq_inv (with_a (ms_mem s) (set_txcache rp f (ms_a s)) s).
Proof. intros [[] ? ? ? ? ? ? ? ?] Hf. by constructor. Qed.

Lemma mq_inv_rx_cache s wp f :
  mq_inv s → 0 ≤ f ≤ used s → mq_inv (with_b (ms_mem s) (rx_refreshed (ms_b s) (get s) wp f) s).
Proof. intros [[] ? ? ? ? ? ? ? ?] Hf. by constructor. Qed.

(** The run lemmas of the two sides, at a state of the invariant. *)
Lemma sender_at s :
  mq_inv s →
  txLinked (ms_a s) = true ∧ 0 < num s < 2 ^ 31 ∧ ms_mem s (pReadIncoming (ms_a s)) = get s ∧
  msgSize (tx (ms_a s)) * num s < 2 ^ 32 ∧ 0 < msgSize (tx (ms_a s)).
Proof.
  intros Hi. pose proof (mi_linked _ Hi) as Hl. pose proof (linked_count_small _ _ Hl).
  destruct (lk_pos _ _ Hl) as (? & ? & ?). unfold MSGQ_MSG_SIZE_MIN in *.
  split_and!; [apply Hl|lia|lia| |lia|lia]. rewrite (lk_rp _ _ Hl). apply Hi.
Qed.

Lemma receiver_at s :
  mq_inv s →
  rxLinked (ms_b s) = true ∧ msgCount (rx (ms_b s)) = num s ∧ ms_mem s (pWriteIncoming (ms_b s)) = put s ∧
  msgSize (rx (ms_b s)) * num s < 2 ^ 32 ∧ 0 < msgSize (rx (ms_b s)).
Proof.
  intros Hi. pose proof (mi_linked _ Hi) as Hl. destruct (lk_pos _ _ Hl) as (? & ? & ?).
  unfold MSGQ_MSG_SIZE_MIN in *. rewrite (lk_size _ _ Hl), (lk_count _ _ Hl), (lk_wp _ _ Hl).
  split_and!; [apply Hl|done|apply Hi|lia|lia].
Qed.

(** Submitting appends the next [n] slots to the messages in flight. *)
Lemma in_flight_submit s n :
  mq_inv s → 0 ≤ n ≤ num s - 1 - used s →
  ring_read (ms_slots s) (ring_slots (num s) (get s) (ring_count (num s) ((put s + n) mod num s) (get s))) =
  in_flight s ++ ring_read (ms_slots s) (ring_slots (num s) (put s) n).
Proof.
  intros Hi Hn. destruct (sender_at s Hi) as (_ & Hc & _). pose proof (ring_count_range (num s) ltac:(lia) (put s) (get s)).
  rewrite ring_count_add, ring_slots_app, ring_read_app by lia. unfold in_flight.
  by rewrite ring_put by (try apply Hi; lia).
Qed.

(** Consuming [n] messages takes them off the front. *)
Lemma in_flight_consume s n :
  mq_inv s → 0 ≤ n ≤ used s →
  take (Z.to_nat n) (in_flight s) ++
    ring_read (ms_slots s) (ring_slots (num s) ((get s + n) mod num s)
      (ring_count (num s) (put s) ((get s + n) mod num s))) = in_flight s.
Proof.
  intros Hi Hn. destruct (sender_at s Hi) as (_ & Hc & _). rewrite ring_count_sub by lia.
  unfold in_flight at 1 2. replace (used s) with (n + (used s - n)) at 1 3 by lia.
  rewrite ring_slots_app, ring_read_app by lia. rewrite take_app_length'; [done|].
  pose proof (ring_read_length (num s) ltac:(lia) (ms_slots s) (get s) n (mi_len _ Hi)). lia.
Qed.

(** ** The operations at a state of the invariant *)

Lemma write_at s rd k :
  mq_inv s → 0 ≤ k →
  ∃ rp f, 0 ≤ f ≤ num s - 1 - used s ∧
    run_a (msgqTxGetWriteBuffer rd k) s = with_a (ms_mem s) (set_txcache rp f (ms_a s)) s ∧
    ((val_a (msgqTxGetWriteBuffer rd k) s = NULL ∧ (rd = true → num s - 1 - used s ≤ k)) ∨
     (k < num s - 1 - used s ∧ val_a (msgqTxGetWriteBuffer rd k) s =
        pOurEntries (ms_a s) + (put s + k) mod num s * msgSize (tx (ms_a s)))).
Proof.
  intros Hi Hk. destruct (sender_at s Hi) as (Hl & Hc & Hg & Hsz & Hm).
  destruct (write_buffer_run (ms_mem s) (ms_a s) (put s) (get s) (num s) Hl eq_refl Hc eq_refl (mi_put _ Hi) Hg
    (mi_get _ Hi) rd k (mi_free _ Hi) Hk Hsz Hm) as (rp & f & Hf & [[Hrun ?]|[Hrun ?]]);
    apply run_a_eq in Hrun as [-> ->]; exists rp, f; eauto.
Qed.

Lemma submit_at s rd wr n :
  mq_inv s → 0 ≤ n →
  ∃ rp f, 0 ≤ f ≤ num s - 1 - used s ∧
    ((val_a (msgqTxSubmitBuffers rd wr n) s = -1 ∧ (rd = true → num s - 1 - used s < n) ∧
      run_a (msgqTxSubmitBuffers rd wr n) s = with_a (ms_mem s) (set_txcache rp f (ms_a s)) s) ∨
     (val_a (msgqTxSubmitBuffers rd wr n) s = 0 ∧ wr = true ∧ n ≤ f ∧
      run_a (msgqTxSubmitBuffers rd wr n) s =
        with_a (<[pWriteOutgoing (ms_a s) := (put s + n) mod num s]> (ms_mem s))
          (set_txcache rp (f - n) (set_tx (set_writePtr ((put s + n) mod num s) (tx (ms_a s))) (ms_a s))) s ∧
      run_eff (msgqTxSubmitBuffers rd wr n) (MsgqSt (ms_mem s) (ms_a s)) =
        submit_actions (ms_a s) (num s) ((put s + n) mod num s)) ∨
     (val_a (msgqTxSubmitBuffers rd wr n) s = -2 ∧ wr = false ∧ n ≤ f ∧
      run_a (msgqTxSubmitBuffers rd wr n) s = with_a (ms_mem s) (set_txcache rp f (ms_a s)) s)).
Proof.
  intros Hi Hn. destruct (sender_at s Hi) as (Hl & Hc & Hg & Hsz & Hm).
  destruct (submit_run (ms_mem s) (ms_a s) (put s) (get s) (num s) Hl eq_refl Hc eq_refl (mi_put _ Hi) Hg
    (mi_get _ Hi) rd wr n (mi_free _ Hi) Hn) as (rp & f & Hf & [[Hrun ?]|[(? & ? & Hrun)|(? & ? & es & Hrun)]]);
    pose proof Hrun as [-> ->]%run_a_eq; exists rp, f; (split; [done|]); [by left|right; left|by right; right].
  unfold run_eff. by rewrite Hrun.
Qed.

Lemma tx_sync_at s rd :
  mq_inv s → ∃ rp f, 0 ≤ f ≤ num s - 1 - used s ∧
    run_a (msgqTxSync rd) s = with_a (ms_mem s) (set_txcache rp f (ms_a s)) s.
Proof.
  intros Hi. destruct (sender_at s Hi) as (Hl & Hc & Hg & _). pose proof (mi_free _ Hi) as Hf.
  unfold run_a, run_st, msgqTxSync. rewrite q_run. cbn [st_q]. rewrite Hl. cbn [negb]. rewrite act_run.
  rewrite (tx_free_run (ms_mem s) (ms_a s) (put s) (get s) (num s)) by (done || apply Hi).
  destruct rd; [exists (get s), (num s - 1 - used s)|exists (txReadPtr (ms_a s)), (txFree (ms_a s))];
    (split; [lia|]); [done|]. by destruct s as [? [] ? ? ? ?].
Qed.

Lemma consume_at s rd wr n :
  mq_inv s → 0 ≤ n →
  ∃ wp f, 0 ≤ f ≤ used s ∧
    ((val_b (msgqRxMarkConsumed rd wr n) s = -1 ∧ (rd = true → used s < n) ∧
      run_b (msgqRxMarkConsumed rd wr n) s = with_b (ms_mem s) (rx_refreshed (ms_b s) (get s) wp f) s) ∨
     (val_b (msgqRxMarkConsumed rd wr n) s = 0 ∧ wr = true ∧ n ≤ f ∧
      run_b (msgqRxMarkConsumed rd wr n) s =
        with_b (<[pReadOutgoing (ms_b s) := (get s + n) mod num s]> (ms_mem s))
          (set_rxcache ((get s + n) mod num s) (f - n) (rx_refreshed (ms_b s) (get s) wp f)) s) ∨
     (val_b (msgqRxMarkConsumed rd wr n) s = -2 ∧ wr = false ∧ n ≤ f ∧
      run_b (msgqRxMarkConsumed rd wr n) s = with_b (ms_mem s) (rx_refreshed (ms_b s) (get s) wp f) s)).
Proof.
  intros Hi Hn. destruct (sender_at s Hi) as (_ & Hc & _). destruct (receiver_at s Hi) as (Hl & Hcn & Hw & Hsz & Hm).
  destruct (consume_run (ms_mem s) (ms_b s) (put s) (get s) (num s) Hl Hcn Hc eq_refl (mi_get _ Hi) Hw
    (mi_put _ Hi) rd wr n (mi_avail _ Hi) Hn) as (wp & f & Hf & [[Hrun ?]|[(? & ? & Hrun)|(? & ? & Hrun)]]);
    apply run_b_eq in Hrun as [-> ->]; exists wp, f; (split; [done|]); [by left|by right; left|by right; right].
Qed.

Lemma rx_sync_at s rd :
  mq_inv s → ∃ wp f, 0 ≤ f ≤ used s ∧
    run_b (msgqRxSync rd) s = with_b (ms_mem s) (rx_refreshed (ms_b s) (get s) wp f) s.
Proof.
  intros Hi. destruct (sender_at s Hi) as (_ & Hc & _). destruct (receiver_at s Hi) as (Hl & Hcn & Hw & _).
  pose proof (mi_avail _ Hi) as Hf.
  unfold run_b, run_st, msgqRxSync. rewrite q_run. cbn [st_q]. rewrite Hl. cbn [negb]. rewrite !act_run.
  rewrite (rx_avail_run (ms_mem s) (ms_b s) (put s) (get s) (num s)) by (done || apply Hi).
  destruct rd; [exists (put s), (used s)|exists (writePtr (rx (ms_b s))), (rxAvail (ms_b s))]; (split; [lia|]); [done|].
  rewrite (rx_refreshed_id (ms_mem s) (ms_b s) (put s) (get s) (num s)) by (done || apply Hi). by destruct s.
Qed.

(** A pointer the sender got is a slot outside the messages in flight. *)
Lemma write_slot s rd k (i : nat) :
  mq_inv s → 0 ≤ k → val_a (msgqTxGetWriteBuffer rd k) s ≠ NULL →
  val_a (msgqTxGetWriteBuffer rd k) s = pOurEntries (ms_a s) + Z.of_nat i * msgSize (tx (ms_a s)) →
  Z.of_nat i = (put s + k) mod num s ∧ k < num s - 1 - used s.
Proof.
  intros Hi Hk Hne Hv. destruct (sender_at s Hi) as (_ & _ & _ & _ & Hm).
  destruct (write_at s rd k Hi Hk) as (rp & f & Hf & _ & [[? _]|[Hlt Hrun]]); [done|].
  rewrite Hrun in Hv. split; [nia|done].
Qed.

Lemma mq_inv_write s rd k i m :
  mq_inv s → 0 ≤ k → (i < length (ms_slots s))%nat → val_a (msgqTxGetWriteBuffer rd k) s ≠ NULL →
  val_a (msgqTxGetWriteBuffer rd k) s = pOurEntries (ms_a s) + Z.of_nat i * msgSize (tx (ms_a s)) →
  let s' := run_a (msgqTxGetWriteBuffer rd k) s in
  mq_inv (MqSys (ms_mem s') (ms_a s') (ms_b s') (<[i := m]> (ms_slots s')) (ms_sent s') (ms_recv s')).
Proof.
  intros Hi Hk Hlen Hne Hv s'. destruct (write_slot s rd k i Hi Hk Hne Hv) as [Hslot Hlt].
  destruct (sender_at s Hi) as (_ & Hc & _). unfold s'.
  destruct (write_at s rd k Hi Hk) as (rp & f & Hf & -> & _).
  destruct (mq_inv_tx_cache s rp f Hi Hf) as [? ? ? ? ? ? ? ? Hfifo]. constructor; try done.
  - cbn [ms_slots with_a ms_a]. by rewrite length_insert.
  - cbn [ms_sent ms_recv]. rewrite Hfifo. f_equal. unfold in_flight. cbn [ms_slots ms_a ms_b with_a].
    replace i with (Z.to_nat (Z.of_nat i)) by lia. symmetry. apply ring_read_insert; [lia| |].
    + intros x Hx%ring_slots_range; [lia|]. cbn. lia.
    + rewrite Hslot. rewrite <-(ring_put (num s) ltac:(lia) (get s) (put s)) at 1 by apply Hi.
      rewrite Z.add_mod_idemp_l, <-Z.add_assoc by lia.
      pose proof (ring_count_range (num s) ltac:(lia) (put s) (get s)). apply ring_slots_free; cbn; lia.
Qed.

Lemma mq_inv_submit s rd wr n :
  mq_inv s → 0 ≤ n →
  let s' := run_a (msgqTxSubmitBuffers rd wr n) s in
  mq_inv (MqSys (ms_mem s') (ms_a s') (ms_b s') (ms_slots s')
    (ms_sent s' ++ if val_a (msgqTxSubmitBuffers rd wr n) s =? 0
      then ring_read (ms_slots s) (ring_slots (num s) (put s) n) else []) (ms_recv s')).
Proof.
  intros Hi Hn s'. destruct (sender_at s Hi) as (_ & Hc & _). unfold s'.
  destruct (submit_at s rd wr n Hi Hn) as (rp & f & Hf & [(-> & _ & ->)|[(-> & _ & Hle & -> & _)|(-> & _ & _ & ->)]]).
  1,3: rewrite app_nil_r; by apply (mq_inv_tx_cache s rp f).
  pose proof (in_flight_submit s n Hi ltac:(lia)) as Hfl.
  pose proof (ring_count_add (num s) ltac:(lia) (put s) (get s) n Hn ltac:(lia)) as Hcnt.
  destruct Hi as [[] ? ? ? ? ? ? ? Hfifo]. constructor; cbn; try done.
  - apply Z.mod_pos_bound. lia.
  - by rewrite fn_lookup_insert.
  - by rewrite fn_lookup_insert_ne.
  - lia.
  - lia.
  - rewrite Hfifo, <-app_assoc. f_equal. by symmetry.
Qed.

Lemma mq_inv_consume s rd wr n :
  mq_inv s → 0 ≤ n →
  let s' := run_b (msgqRxMarkConsumed rd wr n) s in
  mq_inv (MqSys (ms_mem s') (ms_a s') (ms_b s') (ms_slots s') (ms_sent s')
    (ms_recv s' ++ if val_b (msgqRxMarkConsumed rd wr n) s =? 0
      then take (Z.to_nat n) (in_flight s) else [])).
Proof.
  intros Hi Hn s'. destruct (sender_at s Hi) as (_ & Hc & _). unfold s'.
  destruct (consume_at s rd wr n Hi Hn) as (wp & f & Hf & [(-> & _ & ->)|[(-> & _ & Hle & ->)|(-> & _ & _ & ->)]]).
  1,3: rewrite app_nil_r; by apply (mq_inv_rx_cache s wp f).
  pose proof (in_flight_consume s n Hi ltac:(lia)) as Hfl.
  pose proof (ring_count_sub (num s) ltac:(lia) (put s) (get s) n ltac:(lia)) as Hcnt.
  destruct Hi as [[] ? ? ? ? ? ? ? Hfifo]. constructor; cbn; try done.
  - apply Z.mod_pos_bound. lia.
  - by rewrite fn_lookup_insert_ne.
  - by rewrite fn_lookup_insert.
  - lia.
  - lia.
  - rewrite Hfifo, <-app_assoc. f_equal. by symmetry.
Qed.

(** What the receiver reads. *)
Lemma read_slot s rd k :
  mq_inv s → 0 ≤ k →
  ∃ wp f, 0 ≤ f ≤ used s ∧
    run_b (msgqRxGetReadBuffer rd k) s = with_b (ms_mem s) (rx_refreshed (ms_b s) (get s) wp f) s ∧
    ((val_b (msgqRxGetReadBuffer rd k) s = NULL ∧ (rd = true → used s ≤ k)) ∨
     (k < used s ∧ ∃ i : nat, (i < length (ms_slots s))%nat ∧ ms_slots s !! i = in_flight s !! Z.to_nat k ∧
      val_b (msgqRxGetReadBuffer rd k) s = pTheirEntries (ms_b s) + Z.of_nat i * msgSize (rx (ms_b s)))).
Proof.
  intros Hi Hk. destruct (sender_at s Hi) as (_ & Hc & _). destruct (receiver_at s Hi) as (Hl & Hcn & Hw & Hsz & Hm).
  destruct (read_buffer_run (ms_mem s) (ms_b s) (put s) (get s) (num s) Hl Hcn Hc eq_refl (mi_get _ Hi) Hw
    (mi_put _ Hi) rd k (mi_avail _ Hi) Hk Hsz Hm) as (wp & f & Hf & [[Hrun Hnull]|[Hrun Hlt]]);
    apply run_b_eq in Hrun as [-> ->]; exists wp, f; (split; [done|]); (split; [done|]); [by left|right].
  split; [done|]. pose proof (Z.mod_pos_bound (get s + k) (num s) ltac:(lia)). pose proof (mi_len _ Hi).
  exists (Z.to_nat ((get s + k) mod num s)). split_and!; [lia| |by rewrite Z2Nat.id by lia].
  unfold in_flight. rewrite ring_read_lookup by lia. done.
Qed.

Lemma mq_step_inv s s' : mq_inv s → mq_step s s' → mq_inv s'.
Proof.
  intros Hi Hs. destruct Hs as [rd k i m s ? ? ? ?|rd wr n s ?|rd s|rd k s ?|rd wr n s ?|rd s].
  - apply mq_inv_write; lia || done.
  - apply mq_inv_submit; lia || done.
  - destruct (tx_sync_at s rd Hi) as (rp & f & Hf & ->). by apply mq_inv_tx_cache.
  - destruct (read_slot s rd k Hi ltac:(lia)) as (wp & f & Hf & -> & _). by apply mq_inv_rx_cache.
  - apply mq_inv_consume; lia || done.
  - destruct (rx_sync_at s rd Hi) as (wp & f & Hf & ->). by apply mq_inv_rx_cache.
Qed.

Lemma mq_reach_inv s s' : mq_inv s → rtc mq_step s s' → mq_inv s'.
Proof. intros Hi Hr. induction Hr; eauto using mq_step_inv. Qed.

(** ** What an operation of one direction leaves alone *)

Definition rx_side (q : msgqMetadata) :=
  (pTheirEntries q, pWriteIncoming q, pReadOutgoing q, rx q, rxReadPtr q, rxAvail q, rxLinked q).
Definition tx_side (q : msgqMetadata) :=
  (pOurEntries q, pReadIncoming q, pWriteOutgoing q, tx q, txFree q, txLinked q).

Record frame s s' : Prop := {
  fr_a : rx_side (ms_a s') = rx_side (ms_a s);
  fr_b : tx_side (ms_b s') = tx_side (ms_b s);
  fr_wp : pWriteOutgoing (ms_a s') = pWriteOutgoing (ms_a s);
  fr_rp : pReadOutgoing (ms_b s') = pReadOutgoing (ms_b s);
  fr_mem x : x ≠ pWriteOutgoing (ms_a s) → x ≠ pReadOutgoing (ms_b s) → ms_mem s' x = ms_mem s x }.

Lemma frame_tx_cache s rp f : frame s (with_a (ms_mem s) (set_txcache rp f (ms_a s)) s).
Proof. by constructor. Qed.

Lemma frame_rx_cache s wp f : frame s (with_b (ms_mem s) (rx_refreshed (ms_b s) (get s) wp f) s).
Proof. by constructor. Qed.

Lemma frame_ghost s s' slots sent recv :
  frame s s' → frame s (MqSys (ms_mem s') (ms_a s') (ms_b s') slots sent recv).
Proof. by intros []. Qed.

Lemma mq_step_frame s s' : mq_inv s → mq_step s s' → frame s s'.
Proof.
  intros Hi Hs. destruct Hs as [rd k i m s Hk ? ? ?|rd wr n s Hk|rd s|rd k s ?|rd wr n s Hk|rd s].
  - destruct (write_at s rd k Hi ltac:(lia)) as (rp & f & _ & -> & _). apply frame_ghost, frame_tx_cache.
  - destruct (submit_at s rd wr n Hi ltac:(lia))
      as (rp & f & _ & [(_ & _ & ->)|[(_ & _ & _ & -> & _)|(_ & _ & _ & ->)]]);
      apply frame_ghost; try apply frame_tx_cache.
    constructor; try done. intros x Hx _. by apply fn_lookup_insert_ne.
  - destruct (tx_sync_at s rd Hi) as (rp & f & _ & ->). apply frame_tx_cache.
  - destruct (read_slot s rd k Hi ltac:(lia)) as (wp & f & _ & -> & _). apply frame_rx_cache.
  - destruct (consume_at s rd wr n Hi ltac:(lia))
      as (wp & f & _ & [(_ & _ & ->)|[(_ & _ & _ & ->)|(_ & _ & _ & ->)]]);
      apply frame_ghost; try apply frame_rx_cache.
    constructor; try done. intros x _ Hx. by apply fn_lookup_insert_ne.
  - destruct (rx_sync_at s rd Hi) as (wp & f & _ & ->). apply frame_rx_cache.
Qed.

(** The invariant of a direction survives a step of the other one. *)
Lemma mq_inv_frame s mem a b :
  mq_inv s → tx_side a = tx_side (ms_a s) → rx_side b = rx_side (ms_b s) →
  mem (pWriteOutgoing (ms_a s)) = ms_mem s (pWriteOutgoing (ms_a s)) →
  mem (pReadOutgoing (ms_b s)) = ms_mem s (pReadOutgoing (ms_b s)) →
  mq_inv (MqSys mem a b (ms_slots s) (ms_sent s) (ms_recv s)).
Proof.
  unfold tx_side, rx_side. intros Hi Ha Hb Hw Hr. destruct Hi as [[] ? ? ? ? ? ? ? Hfifo].
  simplify_eq. constructor; cbn; try congruence.
  - constructor; congruence.
  - unfold in_flight in *. cbn. congruence.
Qed.
End system.

(** * Two queues, one in each direction *)

Section duplex.
Context {Msg : Type}.

Record chan := Chan { c_slots : list Msg; c_sent : list Msg; c_recv : list Msg }.

Record duplex := Duplex {
  dx_mem : Z → Z;
  dx_a : msgqMetadata;
  dx_b : msgqMetadata;
  dx_ab : chan;
  dx_ba : chan }.

Definition view_ab (d : duplex) : mq_sys :=
  MqSys (dx_mem d) (dx_a d) (dx_b d) (c_slots (dx_ab d)) (c_sent (dx_ab d)) (c_recv (dx_ab d)).
Definition view_ba (d : duplex) : mq_sys :=
  MqSys (dx_mem d) (dx_b d) (dx_a d) (c_slots (dx_ba d)) (c_sent (dx_ba d)) (c_recv (dx_ba d)).

(** A step is one of either direction; it works on the memory and the metadata
    that both directions share. *)
Inductive dx_step (d d' : duplex) : Prop :=
| dx_step_ab : mq_step (view_ab d) (view_ab d') → dx_ba d' = dx_ba d → dx_step d d'
| dx_step_ba : mq_step (view_ba d) (view_ba d') → dx_ab d' = dx_ab d → dx_step d d'.

(** The write pointers and the read pointers lie at different addresses. *)
Record dx_inv (d : duplex) : Prop := {
  di_ab : mq_inv (view_ab d);
  di_ba : mq_inv (view_ba d);
  di_ww : pWriteOutgoing (dx_a d) ≠ pWriteOutgoing (dx_b d);
  di_rr : pReadOutgoing (dx_a d) ≠ pReadOutgoing (dx_b d);
  di_wa : pWriteOutgoing (dx_a d) ≠ pReadOutgoing (dx_a d);
  di_wb : pWriteOutgoing (dx_b d) ≠ pReadOutgoing (dx_b d) }.

Definition flip (d : duplex) : duplex := Duplex (dx_mem d) (dx_b d) (dx_a d) (dx_ba d) (dx_ab d).

Lemma dx_inv_flip d : dx_inv d → dx_inv (flip d).
Proof. intros []. by constructor. Qed.

Lemma dx_inv_ab d d' :
  dx_inv d → mq_step (view_ab d) (view_ab d') → dx_ba d' = dx_ba d → dx_inv d'.
Proof.
  intros Hi Hs Hc. destruct (mq_step_frame _ _ (di_ab _ Hi) Hs) as [Ha Hb Hwp Hrp Hmem].
  pose proof (mq_step_inv _ _ (di_ab _ Hi) Hs) as Hab. destruct Hi as [_ Hba ? ? ? ?].
  cbn [view_ab ms_a ms_b ms_mem] in *.
  assert (mq_inv (view_ba d')) as Hba'.
  { unfold view_ba. rewrite Hc.
    apply (mq_inv_frame _ (dx_mem d') (dx_b d') (dx_a d') Hba Hb Ha); cbn; by apply Hmem. }
  unfold tx_side, rx_side in *. simplify_eq. constructor; congruence.
Qed.

Lemma dx_step_inv d d' : dx_inv d → dx_step d d' → dx_inv d'.
Proof.
  intros Hi [Hs Hc|Hs Hc]; [by eapply dx_inv_ab|].
  destruct d' as [mem a b ab ba].
  apply (dx_inv_flip (Duplex mem b a ba ab)), (dx_inv_ab (flip d)); [by apply dx_inv_flip|done|done].
Qed.

Lemma dx_reach_inv d d' : dx_inv d → rtc dx_step d d' → dx_inv d'.
Proof. intros Hi Hr. induction Hr; eauto using dx_step_inv. Qed.
End duplex.
Arguments chan : clear implicits.
Arguments duplex : clear implicits.

(** ** Setting a connection up *)

(** A block of shared memory and the parameters of its queue. *)
Record block := Block {
  blk_base : Z;
  blk_size : Z;
  blk_msgSize : Z;
  blk_hdrAlign : Z;
  blk_entryAlign : Z;
  blk_flags : Z }.

Definition blk_rxOff (k : block) : Z := NV_ALIGN_UP sizeof_msgqTxHeader (Z.shiftl 1 (blk_hdrAlign k)).
Definition blk_entOff (k : block) : Z :=
  NV_ALIGN_UP (blk_rxOff k + sizeof_msgqRxHeader) (Z.shiftl 1 (blk_entryAlign k)).
Definition blk_header (k : block) : msgqTxHeader :=
  TxHeader MSGQ_VERSION (blk_size k) (blk_msgSize k) ((blk_size k - blk_entOff k) / blk_msgSize k) 0
    (blk_flags k) (blk_rxOff k) (blk_entOff k).

Definition init : msgqMetadata := msgqInit false false false false false.

(** Parameters that are accepted, with room for a message after the headers. *)
Definition valid_block (k : block) : bool :=
  negb (create_refused init (blk_base k) (blk_size k) (blk_msgSize k) (blk_hdrAlign k) (blk_entryAlign k)) &&
  (blk_size k <? 2 ^ 32) && (blk_entOff k + blk_msgSize k <=? blk_size k).

Definition disjoint_blocks (k l : block) : bool :=
  (blk_base k + blk_size k <=? blk_base l) || (blk_base l + blk_size l <=? blk_base k).

Definition create (k : block) : M Z :=
  msgqTxCreate true (blk_base k) (blk_size k) (blk_msgSize k) (blk_hdrAlign k) (blk_entryAlign k) (blk_flags k).
Definition link (k : block) : M Z := msgqRxLink true true (blk_base k) (blk_size k) (blk_msgSize k).

(** Each side creates its own queue, then links to the other's. *)
Definition connect (ka kb : block) (mem : Z → Z) (a b : msgqMetadata) : list Z * msgq_st * msgq_st :=
  let '(r1, s1, _) := create ka (MsgqSt mem a) in
  let '(r2, s2, _) := create kb (MsgqSt (st_mem s1) b) in
  let '(r3, s3, _) := link ka s2 in
  let '(r4, s4, _) := link kb (MsgqSt (st_mem s3) (st_q s1)) in
  ([r1; r2; r3; r4], s4, s3).

Lemma block_offsets k :
  valid_block k = true →
  0 < blk_msgSize k ∧ MSGQ_MSG_SIZE_MIN ≤ blk_msgSize k ∧ blk_base k ≠ NULL ∧ blk_size k < 2 ^ 32 ∧
  blk_entOff k + blk_msgSize k ≤ blk_size k ∧ 32 ≤ blk_rxOff k ∧ blk_rxOff k + 4 ≤ blk_entOff k.
Proof.
  unfold valid_block, create_refused. intros [[Href Hs]%andb_prop He]%andb_prop.
  apply negb_true_iff in Href. repeat (apply orb_false_iff in Href as [Href ?]).
  rewrite ?Z.ltb_ge, ?Z.ltb_lt, ?Z.leb_le, ?Z.eqb_neq in *. unfold MSGQ_MSG_SIZE_MIN, MSGQ_META_MIN_ALIGN, MSGQ_META_MAX_ALIGN in *.
  assert (Forall (λ h, Forall (λ e, 32 ≤ NV_ALIGN_UP 32 (Z.shiftl 1 h) ∧
    NV_ALIGN_UP 32 (Z.shiftl 1 h) + 4 ≤ NV_ALIGN_UP (NV_ALIGN_UP 32 (Z.shiftl 1 h) + 4) (Z.shiftl 1 e))
    (seqZ 3 10)) (seqZ 3 10)) as Hall by by apply (bool_decide_unpack _); vm_compute.
  rewrite Forall_forall in Hall. specialize (Hall (blk_hdrAlign k)). rewrite elem_of_seqZ, Forall_forall in Hall.
  specialize (Hall ltac:(lia) (blk_entryAlign k)). rewrite elem_of_seqZ in Hall. specialize (Hall ltac:(lia)).
  split_and!; try lia; apply Hall.
Qed.

Lemma valid_block_accepted k q :
  valid_block k = true → txLinked q = false →
  create_refused q (blk_base k) (blk_size k) (blk_msgSize k) (blk_hdrAlign k) (blk_entryAlign k) = false.
Proof.
  unfold valid_block. intros [[Href _]%andb_prop _]%andb_prop Hq. apply negb_true_iff in Href.
  unfold create_refused in *. by rewrite Hq.
Qed.

(** What creating a queue leaves behind at a side that is not linked yet. *)
Definition created (k : block) (q : msgqMetadata) : msgqMetadata :=
  Meta (blk_base k) (pTheirTxHdr q) (blk_base k + blk_rxOff k) (pTheirRxHdr q) (blk_base k + blk_entOff k)
    (pTheirEntries q) (blk_base k + blk_rxOff k) (pWriteIncoming q) (pReadOutgoing q) (blk_base k + 16)
    (blk_header k) (txReadPtr q) (msgCount (blk_header k) - 1) true (rx q) (rxReadPtr q) 0 (rxLinked q) false
    (hasNotify q) (hasInvalidate q) (hasFlush q) (hasZero q) (hasBarrier q).

Lemma block_count k :
  valid_block k = true →
  0 < msgCount (blk_header k) ∧ msgCount (blk_header k) * blk_msgSize k ≤ blk_size k - blk_entOff k.
Proof.
  intros (? & ? & ? & ? & ? & ? & ?)%block_offsets. cbn [msgCount blk_header]. split.
  - apply Z.div_str_pos. lia.
  - rewrite Z.mul_comm. apply Z.mul_div_le. lia.
Qed.

Lemma create_run k mem q :
  valid_block k = true → txLinked q = false → rxLinked q = false → flags (rx q) = 0 →
  ∃ es, create k (MsgqSt mem q) =
    (0, MsgqSt (write_header (blk_header k) (blk_base k) mem) (created k q), es).
Proof.
  intros Hv Hq Hr Hfl. pose proof (block_offsets k Hv) as (? & ? & ? & ? & ? & ? & ?).
  destruct (block_count k Hv) as [Hn Hle].
  unfold create, msgqTxCreate. rewrite q_run. cbn [st_q]. rewrite (valid_block_accepted k q Hv Hq).
  fold (blk_rxOff k). fold (blk_entOff k).
  rewrite (u32_small (blk_entOff k + _)) by (unfold is_u32; lia). rewrite (proj2 (Z.ltb_ge _ _)) by lia.
  rewrite (u32_small (blk_size k - _)) by (unfold is_u32; lia). fold (blk_header k).
  rewrite (u32_small (msgCount _ - 1)) by (unfold is_u32; nia).
  assert (swapped (blk_header k) (rx q) = false) as ->.
  { unfold swapped. rewrite Hfl. apply andb_false_r. }
  cbn zeta. rewrite upd_q_run. cbn [st_mem st_q negb].
  unfold mbind, prog_bind, act, when, created. rewrite Hr.
  destruct (hasZero q), (hasFlush q), (hasBarrier q), (hasNotify q); eexists; reflexivity.
Qed.

(** What linking to a header at [base] leaves behind. *)
Definition link_addr (base : Z) (h : msgqTxHeader) (q : msgqMetadata) : Z :=
  if swapped (tx q) h then pOurRxHdr q else base + rxHdrOff h.

Definition linked_with (base : Z) (h : msgqTxHeader) (q : msgqMetadata) : msgqMetadata :=
  let sw := swapped (tx q) h in
  Meta (pOurTxHdr q) base (pOurRxHdr q) (base + rxHdrOff h) (pOurEntries q) (base + entryOff h)
    (if sw then base + rxHdrOff h else if txLinked q then pOurRxHdr q else pReadIncoming q)
    (base + 16) (link_addr base h q) (pWriteOutgoing q) (tx q) (txReadPtr q) (txFree q) (txLinked q)
    h 0 (rxAvail q) true sw
    (hasNotify q) (hasInvalidate q) (hasFlush q) (hasZero q) (hasBarrier q).

Lemma link_any base sz msz mem q h :
  MSGQ_MSG_SIZE_MIN ≤ msz ≤ sz → base ≠ NULL → rxLinked q = false → read_header mem base = h →
  link_check q h sz msz = 0 →
  ∃ es, msgqRxLink true true base sz msz (MsgqSt mem q) =
    (0, MsgqSt (<[link_addr base h q := 0]> mem) (linked_with base h q), es).
Proof.
  intros Hsz Hb Hr Hh Hc. unfold msgqRxLink. rewrite q_run. cbn [st_q]. rewrite Hr.
  rewrite (proj2 (Z.ltb_ge msz _)), (proj2 (Z.ltb_ge sz _)), (proj2 (Z.eqb_neq _ _)) by lia.
  rewrite upd_q_run, act_run. cbn [st_mem st_q negb]. rewrite run_gets. cbn [st_mem]. rewrite Hh, upd_q_run, Hc.
  cbn [negb Z.eqb st_mem st_q]. rewrite upd_q_run. cbn [st_mem st_q]. unfold linked_with. cbn zeta.
  fold (link_addr base h q). unfold mbind, prog_bind, act, when, _backendWrite32. cbn.
  destruct (hasZero q), (hasFlush q), (hasBarrier q), (hasNotify q); eexists; reflexivity.
Qed.

Definition link_out (k : block) : msgqMetadata → Z := link_addr (blk_base k) (blk_header k).
Definition linked_to (k : block) : msgqMetadata → msgqMetadata := linked_with (blk_base k) (blk_header k).

(** The checks on a header that differs from the one created in [k] at most in the
    offset of the read pointer. *)
Lemma link_check_ok k q r :
  valid_block k = true → rxHdrOff (tx q) + 4 ≤ blk_entOff k → 32 ≤ r →
  let h := blk_header k in
  link_check q (TxHeader (version h) (size h) (msgSize h) (msgCount h) (writePtr h) (flags h) r (entryOff h))
    (blk_size k) (blk_msgSize k) = 0.
Proof.
  intros Hv Hoff Hr. pose proof (block_offsets k Hv) as (? & Hmin & ? & ? & ? & ? & ?).
  unfold link_check. cbn [entryOff size msgSize version rxHdrOff msgCount blk_header].
  rewrite !u32_small, !Z.eqb_refl by (unfold is_u32; lia). cbn [negb].
  unfold sizeof_msgqTxHeader, sizeof_msgqRxHeader. by rewrite !(proj2 (Z.ltb_ge _ _)) by lia.
Qed.

Lemma link_run k mem q :
  valid_block k = true → rxLinked q = false → rxHdrOff (tx q) + 4 ≤ blk_entOff k →
  read_header mem (blk_base k) = blk_header k →
  ∃ es, link k (MsgqSt mem q) = (0, MsgqSt (<[link_out k q := 0]> mem) (linked_to k q), es).
Proof.
  intros Hv Hr Hoff Hh. pose proof (block_offsets k Hv) as (? & Hmin & ? & ? & ? & ? & ?).
  apply link_any; [lia|done|done|done|]. by apply (link_check_ok k q (blk_rxOff k)).
Qed.

Lemma read_write_header h p mem : read_header (write_header h p mem) p = h.
Proof.
  unfold read_header, write_header.
  repeat (rewrite fn_lookup_insert || rewrite fn_lookup_insert_ne by lia). by destruct h.
Qed.

Lemma write_header_ne h p mem x : x < p ∨ p + 28 < x → write_header h p mem x = mem x.
Proof. intros Hx. unfold write_header. by repeat rewrite fn_lookup_insert_ne by lia. Qed.

(** A header survives writes beside it. *)
Lemma read_header_ext mem mem' p : (∀ x, p ≤ x ≤ p + 28 → mem' x = mem x) → read_header mem' p = read_header mem p.
Proof. intros Hx. unfold read_header. by rewrite !Hx by lia. Qed.

(** A side as msgqInit and the callback setters leave it. *)
Definition fresh (q : msgqMetadata) : Prop := ∃ n i f z b, q = msgqInit n i f z b.

Section connection.
Context (ka kb : block) (Ha : valid_block ka = true) (Hb : valid_block kb = true).
Context (Hdisj : disjoint_blocks ka kb = true) (Halign : blk_hdrAlign ka = blk_hdrAlign kb).
Context (mem : Z → Z) (a b : msgqMetadata) (Hfa : fresh a) (Hfb : fresh b).

#[local] Abbreviation a' := (linked_to kb (created ka a)).
#[local] Abbreviation b' := (linked_to ka (created kb b)).
#[local] Abbreviation hdrs :=
  (write_header (blk_header kb) (blk_base kb) (write_header (blk_header ka) (blk_base ka) mem)).

Lemma swapped_comm h h' : swapped h h' = swapped h' h.
Proof. apply andb_comm. Qed.

(** The addresses in play: two headers and two read pointers, all apart. *)
Lemma connection_layout :
  32 ≤ blk_rxOff ka ∧ blk_rxOff ka + 4 ≤ blk_entOff ka ∧ blk_entOff ka < blk_size ka ∧
  32 ≤ blk_rxOff kb ∧ blk_rxOff kb + 4 ≤ blk_entOff kb ∧ blk_entOff kb < blk_size kb ∧
  (blk_base ka + blk_size ka ≤ blk_base kb ∨ blk_base kb + blk_size kb ≤ blk_base ka).
Proof.
  pose proof (block_offsets ka Ha) as (? & ? & ? & ? & ? & ? & ?).
  pose proof (block_offsets kb Hb) as (? & ? & ? & ? & ? & ? & ?).
  unfold disjoint_blocks in Hdisj. rewrite orb_true_iff, !Z.leb_le in Hdisj. lia.
Qed.

Lemma headers_written : read_header hdrs (blk_base ka) = blk_header ka ∧ read_header hdrs (blk_base kb) = blk_header kb.
Proof.
  destruct connection_layout as (? & ? & ? & ? & ? & ? & ?). split; [|apply read_write_header].
  rewrite <-(read_write_header (blk_header ka) (blk_base ka) mem) at 2.
  apply read_header_ext. intros x Hx. apply write_header_ne. lia.
Qed.

Lemma link_outs_apart :
  link_out ka (created kb b) ≠ link_out kb (created ka a) ∧
  ∀ x, blk_base ka ≤ x ≤ blk_base ka + 28 ∨ blk_base kb ≤ x ≤ blk_base kb + 28 →
    link_out ka (created kb b) ≠ x ∧ link_out kb (created ka a) ≠ x.
Proof.
  destruct connection_layout as (? & ? & ? & ? & ? & ? & ?).
  unfold link_out, link_addr. cbn [rxHdrOff blk_header tx created pOurRxHdr]. rewrite (swapped_comm (blk_header kb)).
  destruct (swapped _ _); split; [lia| |lia|]; intros x Hx; lia.
Qed.

(** All four calls succeed. *)
Lemma connect_run :
  connect ka kb mem a b =
    ([0; 0; 0; 0],
     MsgqSt (<[link_out kb (created ka a) := 0]> (<[link_out ka (created kb b) := 0]> hdrs)) a',
     MsgqSt (<[link_out ka (created kb b) := 0]> hdrs) b').
Proof.
  destruct connection_layout as (? & ? & ? & ? & ? & ? & _), headers_written as [Hha Hhb], link_outs_apart as [_ Hout].
  assert (blk_rxOff ka = blk_rxOff kb) by (unfold blk_rxOff; by rewrite Halign).
  destruct Hfa as (? & ? & ? & ? & ? & Hea), Hfb as (? & ? & ? & ? & ? & Heb). unfold connect.
  destruct (create_run ka mem a) as [e1 ->]; [done|by rewrite Hea..|]. cbn [st_mem st_q].
  destruct (create_run kb (write_header (blk_header ka) (blk_base ka) mem) b) as [e2 ->]; [done|by rewrite Heb..|].
  destruct (link_run ka hdrs (created kb b)) as [e3 ->]; [done|by rewrite Heb|cbn; lia|done|]. cbn [st_mem st_q].
  destruct (link_run kb (<[link_out ka (created kb b) := 0]> hdrs) (created ka a)) as [e4 ->];
    [done|by rewrite Hea|cbn; lia| |done].
  etrans; [|exact Hhb]. apply read_header_ext. intros y Hy. apply fn_lookup_insert_ne, Hout. by right.
Qed.

(** The sender's and the receiver's view of block [ka] agree. *)
Lemma linked_ab : linked a' b'.
Proof.
  destruct link_outs_apart as [_ Hout], (block_count ka Ha). pose proof (block_offsets ka Ha) as (? & ? & ? & ? & ? & ? & ?).
  constructor; cbn [txLinked rxLinked pWriteIncoming pReadIncoming pWriteOutgoing pReadOutgoing pTheirEntries pOurEntries
    tx rx linked_to linked_with created pOurRxHdr]; try done.
  - unfold link_out, link_addr. cbn [rxHdrOff blk_header tx created pOurRxHdr]. rewrite (swapped_comm (blk_header kb)). by destruct (swapped _ _).
  - apply not_eq_sym, Hout. left. lia.
  - cbn [msgSize blk_header]. lia.
Qed.

Lemma connected_ab {Msg} (slots : list Msg) :
  Z.of_nat (length slots) = msgCount (blk_header ka) →
  mq_inv (MqSys (<[link_out kb (created ka a) := 0]> (<[link_out ka (created kb b) := 0]> hdrs)) a' b' slots [] []).
Proof.
  intros Hlen. destruct connection_layout as (? & ? & ? & ? & ? & ? & ?), link_outs_apart as [Hne Hout], (block_count ka Ha).
  pose proof (Hout (blk_base ka + 16) ltac:(lia)) as [? ?].
  assert (rxAvail b' = 0 ∧ txFree a' = msgCount (blk_header ka) - 1) as [Hav Hfr] by done.
  constructor; [apply linked_ab|done|cbn; cbn in *; lia|cbn; cbn in *; lia|..];
    cbn [ms_mem ms_a ms_b pWriteOutgoing pReadOutgoing linked_to linked_with created tx writePtr blk_header rxReadPtr].
  - rewrite !fn_lookup_insert_ne by done. rewrite write_header_ne by lia. unfold write_header.
    by repeat (rewrite fn_lookup_insert || rewrite fn_lookup_insert_ne by lia).
  - rewrite fn_lookup_insert_ne by done. apply fn_lookup_insert.
  - rewrite Hfr. unfold ring_count. cbn. cbn in *. rewrite Zmod_0_l. lia.
  - rewrite Hav. unfold ring_count. cbn. rewrite Zmod_0_l. lia.
  - done.
Qed.
End connection.

Lemma disjoint_blocks_comm ka kb : disjoint_blocks ka kb = disjoint_blocks kb ka.
Proof. apply orb_comm. Qed.

(** The state two fresh sides reach by connecting, with nothing sent. *)
Definition connected {Msg} (ka kb : block) (mem : Z → Z) (a b : msgqMetadata) (sab sba : list Msg) : duplex Msg :=
  let '(_, sa, sb) := connect ka kb mem a b in
  Duplex (st_mem sa) (st_q sa) (st_q sb) (Chan sab [] []) (Chan sba [] []).

(** Two valid blocks that do not overlap, with as many slots as they hold. *)
Record connectable {Msg} (ka kb : block) (a b : msgqMetadata) (sab sba : list Msg) : Prop := {
  co_a : valid_block ka = true;
  co_b : valid_block kb = true;
  co_disjoint : disjoint_blocks ka kb = true;
  co_align : blk_hdrAlign ka = blk_hdrAlign kb;
  co_fa : fresh a;
  co_fb : fresh b;
  co_sab : Z.of_nat (length sab) = msgCount (blk_header ka);
  co_sba : Z.of_nat (length sba) = msgCount (blk_header kb) }.

Lemma connected_inv {Msg} ka kb mem a b (sab sba : list Msg) :
  connectable ka kb a b sab sba → dx_inv (connected ka kb mem a b sab sba).
Proof.
  intros [Ha Hb Hd Hal Hfa Hfb Hsa Hsb]. pose proof Hd as Hd'. rewrite disjoint_blocks_comm in Hd'.
  unfold connected. rewrite connect_run by done. cbn [st_mem st_q].
  pose proof (connected_ab ka kb Ha Hb Hd mem a b sab Hsa) as Hab.
  pose proof (connected_ab kb ka Hb Ha Hd' mem b a sba Hsb) as Hba.
  destruct (connection_layout ka kb Ha Hb Hd) as (? & ? & ? & ? & ? & ? & Hlay).
  destruct (link_outs_apart ka kb Ha Hb Hd a b) as [Hne Hout].
  pose proof (Hout (blk_base kb + 16) ltac:(lia)) as [? ?]. pose proof (Hout (blk_base ka + 16) ltac:(lia)) as [? ?].
  constructor; cbn [dx_a dx_b linked_to linked_with created pWriteOutgoing pReadOutgoing];
    fold (link_out kb) (link_out ka); try congruence; [done| |lia].
  apply (mq_inv_frame _ _ _ _ Hba); [done|done|..];
    cbn [dx_mem ms_mem ms_a ms_b linked_to linked_with created pWriteOutgoing pReadOutgoing];
    fold (link_out kb) (link_out ka).
  - rewrite !fn_lookup_insert_ne by done. rewrite (write_header_ne (blk_header ka)) by lia.
    unfold write_header. by repeat (rewrite fn_lookup_insert || rewrite fn_lookup_insert_ne by lia).
  - rewrite fn_lookup_insert, fn_lookup_insert_ne by done. by rewrite fn_lookup_insert.
Qed.

(** What a queue promises its receiver: every message once, in the order sent, at
    the slot the pointer names. *)
Definition delivers {Msg} (s : @mq_sys Msg) : Prop :=
  ms_sent s = ms_recv s ++ in_flight s ∧
  ∀ rd k, 0 ≤ k < 2 ^ 32 →
    let p := val_b (msgqRxGetReadBuffer rd k) s in
    (p = NULL ∧ (rd = true → Z.of_nat (length (in_flight s)) ≤ k)) ∨
    ∃ (i : nat) m, p = pTheirEntries (ms_b s) + Z.of_nat i * msgSize (rx (ms_b s)) ∧
      ms_slots s !! i = Some m ∧ in_flight s !! Z.to_nat k = Some m.

Lemma in_flight_length {Msg} (s : @mq_sys Msg) :
  mq_inv s → Z.of_nat (length (in_flight s)) =
    ring_count (msgCount (tx (ms_a s))) (writePtr (tx (ms_a s))) (rxReadPtr (ms_b s)).
Proof.
  intros Hi. destruct (sender_at s Hi) as (_ & Hc & _). unfold in_flight.
  apply ring_read_length; [lia|apply Hi|apply ring_count_range; lia].
Qed.

Lemma mq_inv_delivers {Msg} (s : @mq_sys Msg) : mq_inv s → delivers s.
Proof.
  intros Hi. split; [apply Hi|]. intros rd k Hk p. rewrite in_flight_length by done.
  destruct (read_slot s rd k Hi ltac:(lia)) as (wp & f & _ & _ & [?|(Hlt & i & Hil & Hs & Hp)]); [by left|right].
  destruct (lookup_lt_is_Some_2 _ _ Hil) as [m Hm]. exists i, m. split_and!; [done|done|congruence].
Qed.

(** * Claims *)


(** In every state of such a connection the indices are in the ring, the shared
    words hold them, and what a side has cached of the other's pointer errs on the
    safe side: never more free slots, never more messages than there are, so no
    unsigned subtraction wraps. *)
Theorem msgq_well_formed {Msg} ka kb mem a b (sab sba : list Msg) d :
  connectable ka kb a b sab sba →
  rtc dx_step (connected ka kb mem a b sab sba) d →
  ∀ s, s = view_ab d ∨ s = view_ba d →
    let count := msgCount (tx (ms_a s)) in
    let n := Z.of_nat (length (in_flight s)) in
    0 ≤ writePtr (tx (ms_a s)) < count ∧ 0 ≤ rxReadPtr (ms_b s) < count ∧
    ms_mem s (pWriteIncoming (ms_b s)) = writePtr (tx (ms_a s)) ∧
    ms_mem s (pReadIncoming (ms_a s)) = rxReadPtr (ms_b s) ∧
    n < count ∧ 0 ≤ txFree (ms_a s) ≤ count - 1 - n ∧ 0 ≤ rxAvail (ms_b s) ≤ n.
Proof.
  intros Hc Hr s Hs count n.
  assert (mq_inv s) as Hi.
  { pose proof (dx_reach_inv _ _ (connected_inv ka kb mem a b sab sba Hc) Hr) as [Hab Hba _ _ _ _].
    by destruct Hs as [->| ->]. }
  destruct (sender_at s Hi) as (_ & Hcn & Hg & _), (receiver_at s Hi) as (_ & _ & Hw & _).
  unfold n. rewrite in_flight_length by done.
  split_and!; try apply Hi; try done. apply ring_count_range. lia.
Qed.

(** MsgqTxSubmitBuffers sends all the messages or none. When it returns 0 the
    entries were flushed before the write pointer was published, and the other
    side is notified last, after the flush of the pointer and the barrier. In
    every other case, a lack of space (-1) or a failed write of the pointer (-2),
    the shared words and the write pointer are as before. *)
Theorem msgq_submit_all_or_nothing {Msg} ka kb mem a b (sab sba : list Msg) d rd wr n :
  connectable ka kb a b sab sba →
  rtc dx_step (connected ka kb mem a b sab sba) d →
  0 ≤ n < 2 ^ 32 →
  let s := view_ab d in
  let s' := run_a (msgqTxSubmitBuffers rd wr n) s in
  let r := val_a (msgqTxSubmitBuffers rd wr n) s in
  let count := msgCount (tx (ms_a s)) in
  let free := count - 1 - Z.of_nat (length (in_flight s)) in
  let w := (writePtr (tx (ms_a s)) + n) mod count in
  (r = 0 ∧ wr = true ∧ n ≤ free ∧ writePtr (tx (ms_a s')) = w ∧
   ms_mem s' = <[pWriteOutgoing (ms_a s) := w]> (ms_mem s) ∧
   run_eff (msgqTxSubmitBuffers rd wr n) (MsgqSt (ms_mem s) (ms_a s)) = submit_actions (ms_a s) count w) ∨
  ((r = -1 ∧ (rd = true → free < n) ∨ r = -2 ∧ wr = false) ∧ tx (ms_a s') = tx (ms_a s) ∧ ms_mem s' = ms_mem s).
Proof.
  intros Hc Hr Hn s s' r count free w.
  pose proof (dx_reach_inv _ _ (connected_inv ka kb mem a b sab sba Hc) Hr) as [Hi _ _ _ _ _]. fold s in Hi.
  unfold free. rewrite in_flight_length by done. unfold s', r.
  destruct (submit_at s rd wr n Hi ltac:(lia))
    as (rp & f & Hf & [(-> & Hlt & ->)|[(-> & Hwr & Hle & -> & Heff)|(-> & Hwr & _ & ->)]]).
  - right. split; [left|]; done.
  - left. split_and!; try done. unfold count. lia.
  - right. split; [right|]; done.
Qed.

(** MsgqRxLink takes the offset of the read pointer from the header the other
    side wrote and bounds it only from below. Whatever offset [r] of 32 or more
    the header holds, the link succeeds and the receiver's read pointer lies at
    [base + r], where zero is written at once: with [r] at or beyond the size of
    the block, outside the block. *)
Theorem msgq_link_escapes k r mem q :
  valid_block k = true → fresh q → 32 ≤ r < 2 ^ 32 →
  let h := blk_header k in
  read_header mem (blk_base k) =
    TxHeader (version h) (size h) (msgSize h) (msgCount h) (writePtr h) (flags h) r (entryOff h) →
  let m := msgqRxLink true true (blk_base k) (blk_size k) (blk_msgSize k) in
  run_val m (MsgqSt mem q) = 0 ∧
  pReadOutgoing (st_q (run_st m (MsgqSt mem q))) = blk_base k + r ∧
  st_mem (run_st m (MsgqSt mem q)) = <[blk_base k + r := 0]> mem.
Proof.
  intros Hv (? & ? & ? & ? & ? & Hq) Hr h Hh m. pose proof (block_offsets k Hv) as (? & ? & ? & ? & ? & ? & ?).
  destruct (link_any (blk_base k) (blk_size k) (blk_msgSize k) mem q _ ltac:(lia) ltac:(done)
    ltac:(by rewrite Hq) Hh) as [es Hrun].
  { apply link_check_ok; [done| |lia]. rewrite Hq. cbn. lia. }
  unfold run_val, run_st, m. rewrite Hrun. cbn [fst snd st_q st_mem linked_with pReadOutgoing].
  assert (∀ h', link_addr (blk_base k) h' q = blk_base k + rxHdrOff h') as Haddr by (intros; by rewrite Hq).
  by rewrite Haddr.
Qed.

(** * Examples *)

Definition ex_a : block := Block 4096 256 64 3 3 MSGQ_FLAGS_SWAP_RX.
Definition ex_b : block := Block 8192 512 64 3 4 MSGQ_FLAGS_SWAP_RX.
Definition ex_start : duplex Z :=
  connected ex_a ex_b (λ _, 77) init init [0; 0; 0] [0; 0; 0; 0; 0; 0; 0].

Lemma ex_connectable : connectable ex_a ex_b init init [0; 0; 0] [0; 0; 0; 0; 0; 0; 0].
Proof. by constructor; (vm_compute; reflexivity) || (repeat eexists). Qed.

(** One message of each direction: [a] has written and submitted 5, [b] has
    submitted what its first slot holds. *)
Definition ab_after (d : duplex Z) (s : @mq_sys Z) : duplex Z :=
  Duplex (ms_mem s) (ms_a s) (ms_b s) (Chan (ms_slots s) (ms_sent s) (ms_recv s)) (dx_ba d).
Definition ex_written : duplex Z :=
  ab_after ex_start (let s := view_ab ex_start in let s' := run_a (msgqTxGetWriteBuffer true 0) s in
    MqSys (ms_mem s') (ms_a s') (ms_b s') (<[0%nat := 5]> (ms_slots s')) (ms_sent s') (ms_recv s')).
Definition ex_sent : duplex Z :=
  ab_after ex_written (let s := view_ab ex_written in let s' := run_a (msgqTxSubmitBuffers true true 1) s in
    MqSys (ms_mem s') (ms_a s') (ms_b s') (ms_slots s')
      (ms_sent s' ++ if val_a (msgqTxSubmitBuffers true true 1) s =? 0
        then ring_read (ms_slots s) (ring_slots (msgCount (tx (ms_a s))) (writePtr (tx (ms_a s))) 1) else [])
      (ms_recv s')).

Lemma step_ab_after d s : mq_step (view_ab d) s → dx_step d (ab_after d s).
Proof. intros Hs. apply dx_step_ab; [by destruct s|done]. Qed.

Lemma ex_reach : rtc dx_step ex_start ex_sent.
Proof.
  eapply (rtc_l _ _ ex_written); [|apply rtc_once].
  - refine (step_ab_after ex_start _ (mq_write true 0 0 5 (view_ab ex_start) _ _ _ _));
      [lia|by vm_compute|vm_compute; lia|vm_compute; reflexivity].
  - refine (step_ab_after ex_written _ (mq_submit true true 1 (view_ab ex_written) _)). lia.
Qed.


Lemma msgq_well_formed_witness :
  msgCount (tx (dx_a ex_sent)) = 3 ∧ txFree (dx_a ex_sent) = 1 ∧ rxAvail (dx_b ex_sent) = 0 ∧
  0 ≤ writePtr (tx (ms_a (view_ab ex_sent))) < msgCount (tx (ms_a (view_ab ex_sent))).
Proof.
  do 3 (split; [vm_compute; reflexivity|]).
  exact (proj1 (msgq_well_formed ex_a ex_b (λ _, 77) init init [0; 0; 0] [0; 0; 0; 0; 0; 0; 0] ex_sent
    ex_connectable ex_reach (view_ab ex_sent) (or_introl eq_refl))).
Defined.

Lemma msgq_submit_all_or_nothing_witness :
  val_a (msgqTxSubmitBuffers true true 1) (view_ab ex_written) = 0 ∧
  val_a (msgqTxSubmitBuffers true true 3) (view_ab ex_sent) = -1 ∧
  val_a (msgqTxSubmitBuffers true false 1) (view_ab ex_sent) = -2 ∧
  tx (ms_a (run_a (msgqTxSubmitBuffers true false 1) (view_ab ex_sent))) = tx (ms_a (view_ab ex_sent)).
Proof.
  do 3 (split; [vm_compute; reflexivity|]).
  destruct (msgq_submit_all_or_nothing ex_a ex_b (λ _, 77) init init [0; 0; 0] [0; 0; 0; 0; 0; 0; 0] ex_sent
    true false 1 ex_connectable ex_reach ltac:(lia)) as [(_ & Hwr & _)|[_ [Htx _]]]; [|exact Htx].
  by destruct (diff_false_true Hwr).
Defined.

(** The header of [ex_a], except that the read pointer is said to lie a gigabyte
    further on. *)
Definition ex_forged : Z → Z := <[4096 + 24 := 2 ^ 30]> (write_header (blk_header ex_a) 4096 (λ _, 77)).

Lemma msgq_link_escapes_witness :
  let m := msgqRxLink true true 4096 256 64 in
  run_val m (MsgqSt ex_forged init) = 0 ∧ st_mem (run_st m (MsgqSt ex_forged init)) (4096 + 2 ^ 30) = 0.
Proof.
  destruct (msgq_link_escapes ex_a (2 ^ 30) ex_forged init) as (Hv & _ & Hm);
    [reflexivity|by repeat eexists|lia|reflexivity|].
  split; [exact Hv|]. etrans; [exact (f_equal (λ f, f (4096 + 2 ^ 30)) Hm)|]. apply fn_lookup_insert.
Defined.

(** A side whose own headers are aligned more coarsely refuses a sound queue: the
    offset of the read pointer is compared with that of its own queue. *)
Lemma link_refuses_finer_alignment :
  let kb := Block 8192 8192 64 12 3 0 in
  fst (fst (connect ex_a kb (λ _, 0) init init)) = [0; 0; -10; 0].
Proof. reflexivity. Qed.

(** The sum that checks the size of a new queue is 32 bits wide: the queue is
    created without room for a single message, and has 2^32 - 1 free ones. *)
Lemma create_size_wraps :
  let m := msgqTxCreate true 4096 (2 ^ 32 - 1) (2 ^ 32 - 1) 3 3 0 in
  let q := st_q (run_st m (MsgqSt (λ _, 0) init)) in
  run_val m (MsgqSt (λ _, 0) init) = 0 ∧ msgCount (tx q) = 0 ∧ txFree q = 2 ^ 32 - 1.
Proof. split_and!; reflexivity. Qed.

(** Only some bits of the base are checked: an odd address passes. *)
Lemma create_accepts_odd_base :
  run_val (msgqTxCreate true 4097 256 64 3 3 0) (MsgqSt (λ _, 0) init) = 0.
Proof. reflexivity. Qed.
