(* ===== verification/GspQueue.v ===== *)
(** * GspQueue: remote procedure calls over the message queue

    [src/src/nvidia/src/kernel/gpu/gsp/message_queue_cpu.c]. The resource manager
    sends its GSP records of up to 64 KiB, built in a staging area, over the
    message queue of [Msgq], whose elements are pages. A record has a header with
    transport fields, a checksum and a sequence number, and takes as many elements
    as its length asks for.

    The staging area and the elements of the queue are lists of bytes; the
    elements are found by their address. Neither callbacks nor a backend are set
    on this queue, so its accesses succeed. The confidential-computing mode, which
    encrypts the elements, is left out. *)
From Stdlib Require Import Btauto.
From stdpp Require Import base numbers list list_numbers functions relations.
From S2P Require Import Prelude Rings Msgq.
#[local] Open Scope Z_scope.

Definition NV_ERR_INVALID_DATA : Z := 0x25.
Definition NV_ERR_INVALID_PARAM_STRUCT : Z := 0x3A.
Definition NV_ERR_NOT_READY : Z := 0x55.
Definition NV_WARN_NOTHING_TO_DO : Z := 0x10006.
Definition NV_ERR_RESET_REQUIRED : Z := 0x62.

Definition RM_PAGE_SHIFT : Z := 12.
Definition RM_PAGE_SIZE : Z := 4096.

(** [NV_OFFSETOF(GSP_MSG_QUEUE_ELEMENT, payload)] and the constants of
    [_getMsgQueueParams]. *)
Definition queueElementHdrSize : Z := 16.
Definition queueElementSizeMin : Z := RM_PAGE_SIZE.
Definition queueElementSizeMax : Z := RM_PAGE_SIZE * 16.
Definition queueHeaderAlign : Z := 4.
Definition queueElementAlign : Z := RM_PAGE_SHIFT.

Definition RM_PAGE_ALIGN_UP (v : Z) : Z := Z.land (v + (RM_PAGE_SIZE - 1)) (Z.lnot (RM_PAGE_SIZE - 1)).
Definition page_bytes : nat := Z.to_nat queueElementSizeMin.

Definition NV_CEIL (a b : Z) : Z := (a + b - 1) / b.

(** ** Bytes *)

Definition ld32 (l : list Z) (o : nat) : Z := little_endian_to_Z 8 (take 4 (drop o l)).
Definition ld64 (l : list Z) (o : nat) : Z := little_endian_to_Z 8 (take 8 (drop o l)).
Definition st32 (o : nat) (v : Z) (l : list Z) : list Z := list_inserts o (Z_to_little_endian 4 8 v) l.

(** Offsets in a GSP_MSG_QUEUE_ELEMENT; the length is the third word of the
    rpc_message_header_v at its payload. *)
Definition off_mctpHeader : nat := 0.
Definition off_nvdmHeader : nat := 4.
Definition off_checkSum : nat := 8.
Definition off_seqNum : nat := 12.
Definition off_length : nat := 24.

Definition gspMsgQueueGetRpcMessageLength (elem : list Z) : Z := ld32 elem off_length.

Definition gspMsgQueueBytesToElements (bytes : Z) : Z := u32 (NV_CEIL (u32 bytes) queueElementSizeMin).

Definition _checkSum32 (data : list Z) (uLen : Z) : Z :=
  let checkSum := foldl (λ c k, Z.lxor c (ld64 data (8 * k))) 0 (seq 0 (Z.to_nat (NV_CEIL uLen 8))) in
  Z.lxor (Z.shiftr checkSum 32) (u32 checkSum).

(** [REF_NUM] of the field [hi:lo]. *)
Definition REF_NUM (hi lo n : Z) : Z := Z.shiftl (Z.land n (Z.ones (hi - lo + 1))) lo.

Definition mctpCreateTransportHeader (som eom seid deid sq : Z) : Z :=
  Z.lor (Z.lor (Z.lor (Z.lor (Z.lor (REF_NUM 3 0 1) (REF_NUM 23 16 seid)) (REF_NUM 15 8 deid))
    (REF_NUM 29 28 sq)) (REF_NUM 30 30 eom)) (REF_NUM 31 31 som).

Definition MCTP_MSG_HEADER_VENDOR_ID_NV : Z := 0x10de.
Definition NVDM_TYPE_RM_RPC : Z := 0x25.

Definition mctpCreateNvdmHeader (nvdmType : Z) : Z :=
  Z.lor (Z.lor (Z.lor (REF_NUM 6 0 0x7e) (REF_NUM 7 7 0)) (REF_NUM 23 8 MCTP_MSG_HEADER_VENDOR_ID_NV))
    (REF_NUM 31 24 nvdmType).

(** ** The queues of a GPU *)

Record queue_params := QueueParams {
  commandQueueSize : Z;
  statusQueueSize : Z;
  pageTableSize : Z;
  pageTableEntryCount : Z }.

(** [reg] is the registry override of the status queue's size, in KiB. *)
Definition _getMsgQueueParams (silicon : bool) (reg : option Z) : queue_params :=
  let defaultCommandQueueSize := 0x40000 in
  let defaultStatusQueueSize := 0x40000 in
  let command := if silicon then defaultCommandQueueSize else defaultCommandQueueSize * 6 in
  let status :=
    match reg with
    | Some r =>
        let r := u32 (r * 1024) in
        let r := u32 (Z.max queueElementSizeMax r) in
        NV_ALIGN_UP r (Z.shiftl 1 RM_PAGE_SHIFT)
    | None => defaultStatusQueueSize
    end in
  let queueSize := command + status in
  let numPtes := u32 (Z.shiftr queueSize RM_PAGE_SHIFT) in
  let numPtes := u32 (numPtes + NV_CEIL (numPtes * 8) RM_PAGE_SIZE) in
  QueueParams command status (RM_PAGE_ALIGN_UP (numPtes * 8)) numPtes.

(** The fields the calls below use. [hq] is what [hQueue] points at and
    [pCmdQueueElement] the bytes of the staging area. *)
Record MESSAGE_QUEUE_INFO := MQInfo {
  mqi_params : queue_params;
  pCommandQueue : Z;
  pStatusQueue : Z;
  pWorkArea : Z;
  hQueue : Z;
  hq : msgqMetadata;
  pCmdQueueElement : list Z;
  txSeqNum : Z;
  rxSeqNum : Z;
  txBufferFull : Z;
  bErrorInjectionEnabled : bool }.

Definition set_hq v (m : MESSAGE_QUEUE_INFO) : MESSAGE_QUEUE_INFO :=
  MQInfo (mqi_params m) (pCommandQueue m) (pStatusQueue m) (pWorkArea m) (hQueue m) v (pCmdQueueElement m)
    (txSeqNum m) (rxSeqNum m) (txBufferFull m) (bErrorInjectionEnabled m).
Definition set_work w h (m : MESSAGE_QUEUE_INFO) : MESSAGE_QUEUE_INFO :=
  MQInfo (mqi_params m) (pCommandQueue m) (pStatusQueue m) w h (hq m) (pCmdQueueElement m)
    (txSeqNum m) (rxSeqNum m) (txBufferFull m) (bErrorInjectionEnabled m).
Definition set_stage f (m : MESSAGE_QUEUE_INFO) : MESSAGE_QUEUE_INFO :=
  MQInfo (mqi_params m) (pCommandQueue m) (pStatusQueue m) (pWorkArea m) (hQueue m) (hq m) (f (pCmdQueueElement m))
    (txSeqNum m) (rxSeqNum m) (txBufferFull m) (bErrorInjectionEnabled m).
Definition set_seqs tx_ rx_ (m : MESSAGE_QUEUE_INFO) : MESSAGE_QUEUE_INFO :=
  MQInfo (mqi_params m) (pCommandQueue m) (pStatusQueue m) (pWorkArea m) (hQueue m) (hq m) (pCmdQueueElement m)
    tx_ rx_ (txBufferFull m) (bErrorInjectionEnabled m).
Definition set_txBufferFull v (m : MESSAGE_QUEUE_INFO) : MESSAGE_QUEUE_INFO :=
  MQInfo (mqi_params m) (pCommandQueue m) (pStatusQueue m) (pWorkArea m) (hQueue m) (hq m) (pCmdQueueElement m)
    (txSeqNum m) (rxSeqNum m) v (bErrorInjectionEnabled m).

(** The shared memory: its words, and the elements by their address. *)
Record gq_st := GqSt {
  g_words : Z → Z;
  g_elems : Z → list Z;
  g_mqi : MESSAGE_QUEUE_INFO }.

(** What setting the queues up acquires: memory, the descriptor of the shared
    memory, its pages and their mapping. *)
Inductive gq_res :=
| RWork (p : Z)
| RCollection (p : Z)
| RMemdesc
| RShared
| RMapping (va : Z).

(** A copy into the staging area has the offset it goes to. *)
Inductive gq_action :=
| OnQueue (a : msgq_action)
| StageCopy (off : Z)
| FenceStore
| Take (r : gq_res)
| Drop (r : gq_res).

#[local] Abbreviation G := (prog gq_action gq_st).

Definition mqi_ : G MESSAGE_QUEUE_INFO := gets g_mqi.
Definition upd_mqi f : G unit := modify (λ s, GqSt (g_words s) (g_elems s) (f (g_mqi s))).

(** A call of the queue library. *)
Definition on_queue {A} (m : prog msgq_action msgq_st A) : G A := λ s,
  let '(a, t, es) := m (MsgqSt (g_words s) (hq (g_mqi s))) in
  (a, GqSt (st_mem t) (g_elems s) (set_hq (st_q t) (g_mqi s)), OnQueue <$> es).

(** *** Setting up *)

Definition _gspMsgQueueCleanup : G unit :=
  m ← mqi_;
  when (negb (pWorkArea m =? NULL)) (tell [Drop (RWork (pWorkArea m))]);;
  upd_mqi (set_stage (λ _, []));;
  upd_mqi (set_work NULL (hQueue m)).

(** [work] is what the allocator returns; the staging area is the first page
    boundary in it, the queue's metadata follows. *)
Definition _gspMsgQueueInit (work : Z) : G Z :=
  upd_mqi (λ m, set_work work (hQueue m) m);;
  if work =? NULL then mret NV_ERR_NO_MEMORY
  else
    tell [Take (RWork work)];;
    upd_mqi (set_stage (λ _, replicate (Z.to_nat queueElementSizeMax) 0));;
    upd_mqi (set_work work (RM_PAGE_ALIGN_UP work + queueElementSizeMax));;
    upd_mqi (set_hq (msgqInit false false false false false));;
    m ← mqi_;
    nRet ← on_queue (msgqTxCreate true (pCommandQueue m) (commandQueueSize (mqi_params m)) queueElementSizeMin
      queueHeaderAlign queueElementAlign MSGQ_FLAGS_SWAP_RX);
    if nRet <? 0 then
      _gspMsgQueueCleanup;;
      mret NV_ERR_GENERIC
    else mret NV_OK.

(** A round of waiting for the GSP: what gpuCheckTimeout and the health check
    answer, and what the GSP does to the shared memory before the next attempt. *)
Record link_round := LinkRound {
  lr_timeout : Z;
  lr_healthy : bool;
  lr_gsp : gq_st → gq_st }.

(** [None]: neither linked nor given up after the rounds. *)
Fixpoint status_link (rounds : list link_round) : G (option Z) :=
  m ← mqi_;
  nRet ← on_queue (msgqRxLink true true (pStatusQueue m) (statusQueueSize (mqi_params m)) queueElementSizeMin);
  if nRet =? 0 then mret (Some NV_OK)
  else
    match rounds with
    | [] => mret None
    | r :: rounds =>
        if negb (lr_timeout r =? NV_OK) then _gspMsgQueueCleanup;; mret (Some (lr_timeout r))
        else if negb (lr_healthy r) then _gspMsgQueueCleanup;; mret (Some NV_ERR_RESET_REQUIRED)
        else modify (lr_gsp r);; status_link rounds
    end.

Definition GspStatusQueueInit : list link_round → G (option Z) := status_link.

(** *** Sending *)

(** Waiting for room for element [i]; [others] is what happens between the
    attempts, until the timeout. *)
Fixpoint wait_space (others : list (gq_st → gq_st)) (i : Z) : G Z :=
  p ← on_queue (msgqTxGetWriteBuffer true i);
  if negb (p =? NULL) then mret p
  else
    match others with
    | [] => mret NULL
    | f :: others => modify f;; wait_space others i
    end.

(** The elements [ids] of the staging area, in turn. *)
Fixpoint send_elements (waits : nat → list (gq_st → gq_st)) (ids : list nat) : G Z :=
  match ids with
  | [] => mret NV_OK
  | i :: ids =>
      p ← wait_space (waits i) (Z.of_nat i);
      if p =? NULL then
        upd_mqi (λ m, set_txBufferFull (u32 (txBufferFull m + 1)) m);;
        mret NV_ERR_BUSY_RETRY
      else
        upd_mqi (set_txBufferFull 0);;
        modify (λ s, GqSt (g_words s)
          (<[p := take page_bytes (drop (i * page_bytes) (pCmdQueueElement (g_mqi s)))]> (g_elems s)) (g_mqi s));;
        send_elements waits ids
  end.

Definition zero_pad (msgLen : Z) (stage : list Z) : list Z :=
  if negb (Z.land msgLen 7 =? 0)
  then list_inserts (Z.to_nat msgLen) (replicate (Z.to_nat (8 - Z.land msgLen 7)) 0) stage else stage.

(** The record as it is sent: padded with zeros for the checksum, with its header. *)
Definition seal (seqNum msgLen : Z) (stage : list Z) : list Z :=
  let stage := zero_pad msgLen stage in
  let stage := st32 off_mctpHeader (mctpCreateTransportHeader 1 1 0 0 0) stage in
  let stage := st32 off_nvdmHeader (mctpCreateNvdmHeader NVDM_TYPE_RM_RPC) stage in
  let stage := st32 off_seqNum seqNum stage in
  let stage := st32 off_checkSum 0 stage in
  st32 off_checkSum (_checkSum32 stage msgLen) stage.

Definition GspMsgQueueSendCommand (waits : nat → list (gq_st → gq_st)) : G Z :=
  m ← mqi_;
  let msgLen := u32 (queueElementHdrSize + gspMsgQueueGetRpcMessageLength (pCmdQueueElement m)) in
  if (msgLen <? queueElementHdrSize) || (queueElementSizeMax <? msgLen) then mret NV_ERR_INVALID_PARAM_STRUCT
  else
    let nElements := gspMsgQueueBytesToElements msgLen in
    upd_mqi (set_stage (seal (txSeqNum m) msgLen));;
    (if bErrorInjectionEnabled m then upd_mqi (set_stage (st32 0 0xFFFFFFFF)) else skip);;
    status ← send_elements waits (seq 0 (Z.to_nat nElements));
    if negb (status =? NV_OK) then mret status
    else
      tell [FenceStore];;
      nRet ← on_queue (msgqTxSubmitBuffers true true nElements);
      if negb (nRet =? 0) then mret NV_ERR_INVALID_STATE
      else
        upd_mqi (λ m, set_seqs (u32 (txSeqNum m + 1)) (rxSeqNum m) m);;
        mret NV_OK.

(** *** Receiving *)

(** Copy the element at [p] to the staging area, as its [i]-th. *)
Definition stage_element (p : Z) (i : nat) : G unit :=
  tell [StageCopy (Z.of_nat i * queueElementSizeMin)];;
  modify (λ s, GqSt (g_words s) (g_elems s)
    (set_stage (list_inserts (i * page_bytes) (g_elems s p)) (g_mqi s))).

(** The elements after the first. *)
Fixpoint read_elements (ids : list nat) : G Z :=
  match ids with
  | [] => mret NV_OK
  | i :: ids =>
      p ← on_queue (msgqRxGetReadBuffer true (Z.of_nat i));
      if p =? NULL then mret NV_ERR_NOT_READY
      else stage_element p i;; read_elements ids
  end.

(** Read a record: its status and its number of elements, [None] if there is no
    data. *)
Definition read_record : G (option (Z * Z)) :=
  p ← on_queue (msgqRxGetReadBuffer true 0);
  if p =? NULL then mret None
  else
    stage_element p 0;;
    m ← mqi_;
    let nElements := gspMsgQueueBytesToElements
      (queueElementHdrSize + gspMsgQueueGetRpcMessageLength (pCmdQueueElement m)) in
    status ← read_elements (seq 1 (Z.to_nat nElements - 1));
    mret (Some (status, nElements)).

(** The checks on the staging area before the sequence number. *)
Definition record_intact (stage : list Z) : bool :=
  (_checkSum32 stage (u32 (queueElementHdrSize + gspMsgQueueGetRpcMessageLength stage)) =? 0) &&
  (bits 3 0 (ld32 stage off_mctpHeader) =? 1) &&
  (bits 23 8 (ld32 stage off_nvdmHeader) =? MCTP_MSG_HEADER_VENDOR_ID_NV).

Inductive rx_end :=
| RxNothing
| RxDone (status nRetries nElements : Z).

(** The retry loop. [None] is a loop that has not ended after [fuel] rounds;
    [status] and [nElements] are those of the last round. *)
Fixpoint rx_loop (fuel : nat) (nRetries nMaxRetries seqMismatchDiff status nElements : Z) : G (option rx_end) :=
  match fuel with
  | O => mret None
  | S fuel =>
      if nMaxRetries <=? nRetries then mret (Some (RxDone status nRetries nElements))
      else
        r ← read_record;
        match r with
        | None => mret (Some RxNothing)
        | Some (status, nElements) =>
            if negb (status =? NV_OK) then
              rx_loop fuel (u32 (nRetries + 1)) nMaxRetries seqMismatchDiff status nElements
            else
              m ← mqi_;
              let stage := pCmdQueueElement m in
              let seqNum := ld32 stage off_seqNum in
              if negb (record_intact stage) then
                rx_loop fuel (u32 (nRetries + 1)) nMaxRetries seqMismatchDiff NV_ERR_INVALID_DATA nElements
              else if seqNum =? rxSeqNum m then mret (Some (RxDone NV_OK nRetries nElements))
              else if (seqNum <? rxSeqNum m) && (u32 (rxSeqNum m - seqNum) <? seqMismatchDiff) then
                on_queue (msgqRxMarkConsumed true true nElements);;
                rx_loop fuel (u32 (nRetries + 1)) (u32 (nMaxRetries + 1)) (u32 (rxSeqNum m - seqNum))
                  NV_ERR_INVALID_DATA nElements
              else
                rx_loop fuel (u32 (nRetries + 1)) nMaxRetries seqMismatchDiff NV_ERR_INVALID_DATA nElements
        end
  end.

Definition GspMsgQueueReceiveStatus (fuel : nat) : G (option Z) :=
  r ← rx_loop fuel 0 3 0xFFFFFFFF NV_OK 1;
  match r with
  | None => mret None
  | Some RxNothing => mret (Some NV_WARN_NOTHING_TO_DO)
  | Some (RxDone status nRetries nElements) =>
      m ← mqi_;
      let msgLen := u32 (queueElementHdrSize + gspMsgQueueGetRpcMessageLength (pCmdQueueElement m)) in
      let status :=
        if (0 <? nRetries) && negb (status =? NV_OK) then status
        else if (msgLen <? queueElementHdrSize) || (queueElementSizeMax <? msgLen)
        then NV_ERR_INVALID_PARAM_STRUCT else status in
      upd_mqi (λ m, set_seqs (txSeqNum m) (u32 (rxSeqNum m + 1)) m);;
      nRet ← on_queue (msgqRxMarkConsumed true true nElements);
      mret (Some (if nRet <? 0 then NV_ERR_GENERIC else status))
  end.

(** * Bytes *)

Definition bytes_ok (l : list Z) : Prop := Forall (λ b, 0 ≤ b < 2 ^ 8) l.

Lemma inserts_split {A} (i : nat) (k l : list A) :
  (i + length k ≤ length l)%nat → list_inserts i k l = take i l ++ k ++ drop (i + length k) l.
Proof.
  intros Hlen. apply list_eq. intros j. destruct (decide (j < i)%nat) as [Hj|Hj].
  { rewrite list_lookup_inserts_lt, lookup_app_l, lookup_take_lt by (rewrite ?length_take; lia). done. }
  rewrite lookup_app_r by (rewrite length_take; lia). rewrite length_take, Nat.min_l by lia.
  destruct (decide (j < i + length k)%nat) as [Hk|Hk].
  - rewrite list_lookup_inserts, lookup_app_l by lia. done.
  - rewrite list_lookup_inserts_ge, lookup_app_r, lookup_drop by lia. f_equal. lia.
Qed.

Lemma length_st32 o v l : length (st32 o v l) = length l.
Proof. apply length_inserts. Qed.

Lemma length_le32 v : length (Z_to_little_endian 4 8 v) = 4%nat.
Proof. pose proof (length_Z_to_little_endian 4 8 v). lia. Qed.

Lemma drop_inserts_ge {A} (i j : nat) (k l : list A) :
  (i + length k ≤ j)%nat → drop j (list_inserts i k l) = drop j l.
Proof.
  intros Hj. apply list_eq. intros m. rewrite !lookup_drop. apply list_lookup_inserts_ge. lia.
Qed.

Lemma take_inserts_le {A} (i j : nat) (k l : list A) : (j ≤ i)%nat → take j (list_inserts i k l) = take j l.
Proof.
  intros Hj. apply list_eq. intros m. destruct (decide (m < j)%nat).
  - rewrite !lookup_take_lt, list_lookup_inserts_lt by lia. done.
  - by rewrite !lookup_take_ge by lia.
Qed.

(** A stretch beside the written one. *)
Lemma slice_inserts_ne {A} (i o n : nat) (k l : list A) :
  (i + length k ≤ o ∨ o + n ≤ i)%nat → take n (drop o (list_inserts i k l)) = take n (drop o l).
Proof.
  intros [Ho|Ho]; [by rewrite drop_inserts_ge|].
  rewrite !take_drop_commute, take_inserts_le by lia. done.
Qed.

Lemma slice_inserts_eq {A} (i : nat) (k l : list A) :
  (i + length k ≤ length l)%nat → take (length k) (drop i (list_inserts i k l)) = k.
Proof.
  intros Hlen. rewrite inserts_split by done. rewrite drop_app_length' by (rewrite length_take; lia).
  by rewrite take_app_length.
Qed.

Lemma ld32_st32_eq o v l : (o + 4 ≤ length l)%nat → ld32 (st32 o v l) o = u32 v.
Proof.
  intros Hlen. unfold ld32, st32. pose proof (slice_inserts_eq o (Z_to_little_endian 4 8 v) l) as Hs.
  rewrite length_le32 in Hs. rewrite Hs by lia. rewrite little_endian_to_Z_to_little_endian by lia. done.
Qed.

Lemma ld32_st32_ne o o' v l : (o + 4 ≤ o' ∨ o' + 4 ≤ o)%nat → ld32 (st32 o v l) o' = ld32 l o'.
Proof. intros Ho. unfold ld32, st32. rewrite slice_inserts_ne by (rewrite length_le32; lia). done. Qed.

Lemma bytes_ok_inserts i k l : bytes_ok k → bytes_ok l → bytes_ok (list_inserts i k l).
Proof.
  unfold bytes_ok. intros Hk Hl. revert i. induction Hk as [|b k Hb _ IH]; intros i; simpl; [done|].
  by apply Forall_insert.
Qed.

Lemma bytes_ok_st32 o v l : bytes_ok l → bytes_ok (st32 o v l).
Proof. intros Hl. apply bytes_ok_inserts; [|done]. apply Z_to_little_endian_bound; lia. Qed.

Lemma ld32_range l o : bytes_ok l → 0 ≤ ld32 l o < 2 ^ 32.
Proof.
  intros Hl. unfold ld32. pose proof (little_endian_to_Z_bound 8 (take 4 (drop o l))) as Hb.
  assert (length (take 4 (drop o l)) ≤ 4)%nat as Hlen by (rewrite length_take; lia).
  destruct Hb as [Hb1 Hb2]; [lia|by apply Forall_take, Forall_drop|]. split; [done|].
  eapply Z.lt_le_trans; [exact Hb2|]. apply Z.pow_le_mono_r; lia.
Qed.

Lemma le_app bs cs :
  little_endian_to_Z 8 (bs ++ cs) =
    Z.lor (little_endian_to_Z 8 bs) (Z.shiftl (little_endian_to_Z 8 cs) (8 * Z.of_nat (length bs))).
Proof.
  induction bs as [|b bs IH]; simpl.
  - by rewrite Z.shiftl_0_r.
  - rewrite IH, Z.shiftl_lor, Z.shiftl_shiftl by lia. rewrite Z.lor_assoc. do 2 f_equal. lia.
Qed.

Lemma ld64_split l o : ld64 l o = Z.lor (ld32 l o) (Z.shiftl (ld32 l (o + 4)) 32).
Proof.
  unfold ld64, ld32. rewrite <-(drop_drop l 4 o). set (k := drop o l).
  change 8%nat with (4 + 4)%nat at 1. rewrite <-(take_take_drop k 4 4), le_app.
  destruct (decide (4 ≤ length k)%nat) as [Hk|Hk].
  - rewrite length_take, Nat.min_l by lia. done.
  - rewrite drop_ge by lia. simpl. by rewrite !Z.shiftl_0_l.
Qed.

(** * The checksum *)

Definition xors : list Z → Z := foldr Z.lxor 0.

(** The 32-bit words of the first [n] 64-bit ones. *)
Definition words (l : list Z) (n : nat) : list Z := (λ k, ld32 l (4 * k)) <$> seq 0 (2 * n).

Lemma xors_app l k : xors (l ++ k) = Z.lxor (xors l) (xors k).
Proof. induction l as [|x l IH]; simpl; [by rewrite Z.lxor_0_l|]. by rewrite IH, Z.lxor_assoc. Qed.

Lemma xors_range l : Forall (λ w, 0 ≤ w < 2 ^ 32) l → 0 ≤ xors l < 2 ^ 32.
Proof.
  induction 1 as [|w l Hw _ IH]; simpl; [lia|].
  assert (0 ≤ Z.lxor w (xors l)) as Hpos by (apply Z.lxor_nonneg; lia). split; [done|].
  rewrite <-(Z.mod_small w (2 ^ 32)), <-(Z.mod_small (xors l) (2 ^ 32)), <-!Z.land_ones by lia.
  replace (Z.lxor _ _) with (Z.land (Z.lxor w (xors l)) (Z.ones 32)).
  - rewrite Z.land_ones by lia. apply Z.mod_pos_bound. lia.
  - apply Z.bits_inj_iff'. intros n Hn. rewrite !Z.lxor_spec, !Z.land_spec, !Z.lxor_spec. btauto.
Qed.

(** Changing one word changes the checksum by what changed. *)
Lemma xors_insert l (j : nat) w w' :
  l !! j = Some w → xors (<[j := w']> l) = Z.lxor (xors l) (Z.lxor w w').
Proof.
  revert j. induction l as [|x l IH]; intros [|j] Hj; simplify_eq/=.
  - rewrite !Z.lxor_assoc, (Z.lxor_comm (xors l)), <-!Z.lxor_assoc, Z.lxor_nilpotent. by rewrite Z.lxor_0_l.
  - change (list_insert j w' l) with (<[j := w']> l). by rewrite (IH j), Z.lxor_assoc.
Qed.

Lemma u32_lxor x y : u32 (Z.lxor x y) = Z.lxor (u32 x) (u32 y).
Proof.
  unfold u32. rewrite <-!Z.land_ones by lia. apply Z.bits_inj_iff'. intros n Hn.
  rewrite !Z.lxor_spec, !Z.land_spec, !Z.lxor_spec. btauto.
Qed.

Lemma ld64_halves l o :
  bytes_ok l → Z.shiftr (ld64 l o) 32 = ld32 l (o + 4) ∧ u32 (ld64 l o) = ld32 l o.
Proof.
  intros Hl. pose proof (ld32_range l o Hl). pose proof (ld32_range l (o + 4) Hl).
  rewrite ld64_split, Z.shiftl_mul_pow2, lor_mul_add by lia. rewrite Z.shiftr_div_pow2 by lia.
  split; [|unfold u32]; zify_divmod.
Qed.

Lemma checkSum_words data uLen :
  bytes_ok data → _checkSum32 data uLen = xors (words data (Z.to_nat (NV_CEIL uLen 8))).
Proof.
  intros Hb. unfold _checkSum32. generalize (Z.to_nat (NV_CEIL uLen 8)). intros n.
  induction n as [|n IH]; [done|]. unfold words in *.
  replace (2 * S n)%nat with (2 * n + 2)%nat by lia. rewrite (seq_app (2 * n) 2 0), fmap_app, xors_app, <-IH.
  rewrite seq_S, foldl_snoc. set (c := foldl _ _ _). rewrite Z.shiftr_lxor, u32_lxor.
  destruct (ld64_halves data (8 * (0 + n)) Hb) as [-> ->].
  change (xors ((λ k, ld32 data (4 * k)) <$> seq (0 + 2 * n) 2)) with
    (Z.lxor (ld32 data (4 * (2 * n))) (Z.lxor (ld32 data (4 * S (2 * n))) 0)). rewrite Z.lxor_0_r.
  replace (4 * (2 * n))%nat with (8 * (0 + n))%nat by lia. replace (4 * S (2 * n))%nat with (8 * (0 + n) + 4)%nat by lia.
  apply Z.bits_inj_iff'. intros k Hk. rewrite !Z.lxor_spec. btauto.
Qed.

Lemma words_lookup l n j : (j < 2 * n)%nat → words l n !! j = Some (ld32 l (4 * j)).
Proof. intros Hj. unfold words. by rewrite list_lookup_fmap, lookup_seq_lt by lia. Qed.

Lemma words_st32 l n j v :
  (j < 2 * n)%nat → (8 * n ≤ length l)%nat → words (st32 (4 * j) v l) n = <[j := u32 v]> (words l n).
Proof.
  intros Hj Hn. apply list_eq. intros k. destruct (decide (k < 2 * n)%nat) as [Hk|Hk]; last first.
  { rewrite !lookup_ge_None_2; [done|..]; rewrite ?length_insert; unfold words; rewrite length_fmap, length_seq; lia. }
  rewrite words_lookup by done. destruct (decide (j = k)) as [<-|Hne].
  - rewrite list_lookup_insert_eq by (unfold words; rewrite length_fmap, length_seq; lia).
    by rewrite ld32_st32_eq by lia.
  - rewrite list_lookup_insert_ne, words_lookup by done. rewrite ld32_st32_ne by lia. done.
Qed.

Lemma words_range l n : bytes_ok l → Forall (λ w, 0 ≤ w < 2 ^ 32) (words l n).
Proof. intros Hl. unfold words. apply Forall_fmap, Forall_forall. intros k _. by apply ld32_range. Qed.

(** The checksum of data that holds its own checksum is zero. *)
Lemma checkSum_sealed l uLen :
  bytes_ok l → 9 ≤ uLen → (8 * Z.to_nat (NV_CEIL uLen 8) ≤ length l)%nat → ld32 l off_checkSum = 0 →
  _checkSum32 (st32 off_checkSum (_checkSum32 l uLen) l) uLen = 0.
Proof.
  intros Hb Hlen Hn Hz. rewrite !checkSum_words by (done || by apply bytes_ok_st32).
  set (n := Z.to_nat (NV_CEIL uLen 8)) in *.
  assert (2 ≤ n)%nat as Hn2 by (unfold n, NV_CEIL; zify_divmod).
  change off_checkSum with (4 * 2)%nat in *. rewrite words_st32 by lia.
  rewrite (xors_insert _ 2 0) by (rewrite words_lookup by lia; by rewrite Hz).
  rewrite Z.lxor_0_l, u32_small by (apply xors_range, words_range, Hb). apply Z.lxor_nilpotent.
Qed.

(** * A sealed record *)

Definition stage_ok (l : list Z) : Prop := Z.of_nat (length l) = queueElementSizeMax ∧ bytes_ok l.

Definition record_len (l : list Z) : Z := u32 (queueElementHdrSize + gspMsgQueueGetRpcMessageLength l).

(** The message of a record: what follows the element's header. *)
Definition rpc_message (l : list Z) : list Z :=
  take (Z.to_nat (gspMsgQueueGetRpcMessageLength l)) (drop (Z.to_nat queueElementHdrSize) l).

Lemma length_zero_pad m l : length (zero_pad m l) = length l.
Proof. unfold zero_pad. case_match; [|done]. apply length_inserts. Qed.

Lemma bytes_ok_zero_pad m l : bytes_ok l → bytes_ok (zero_pad m l).
Proof.
  intros Hl. unfold zero_pad. case_match; [|done]. apply bytes_ok_inserts; [|done].
  apply Forall_replicate. lia.
Qed.

Lemma slice_zero_pad m l (o n : nat) :
  (o + n ≤ Z.to_nat m)%nat → take n (drop o (zero_pad m l)) = take n (drop o l).
Proof. intros Ho. unfold zero_pad. case_match; [|done]. apply slice_inserts_ne. lia. Qed.

Lemma land7 m : Z.land m 7 = m mod 8.
Proof. change 7 with (Z.ones 3). apply Z.land_ones. lia. Qed.

Lemma ld32_bytes l o :
  bytes_ok l → (o + 4 ≤ length l)%nat → take 4 (drop o l) = Z_to_little_endian 4 8 (ld32 l o).
Proof.
  intros Hl Hlen. symmetry. apply Z_to_little_endian_to_Z; [|lia|].
  - rewrite length_take, length_drop, Nat.min_l by lia. done.
  - by apply Forall_take, Forall_drop.
Qed.

(** The padding goes into the length's own bytes when the record ends there; they
    are zero then. *)
Lemma zero_pad_length l :
  stage_ok l → gspMsgQueueGetRpcMessageLength (zero_pad (record_len l) l) = gspMsgQueueGetRpcMessageLength l.
Proof.
  intros [Hlen Hb]. unfold gspMsgQueueGetRpcMessageLength, record_len. pose proof (ld32_range l off_length Hb) as Hr.
  unfold gspMsgQueueGetRpcMessageLength, queueElementHdrSize, queueElementSizeMax, RM_PAGE_SIZE in *.
  pose proof (ld32_bytes l off_length Hb ltac:(unfold off_length; lia)) as Hw.
  set (v := ld32 l off_length) in *. unfold zero_pad. destruct (negb _) eqn:Hpad; [|done].
  rewrite land7 in *. destruct (decide (9 ≤ v ≤ 11)) as [Hv|Hv].
  - rewrite u32_small by (unfold is_u32; lia). unfold v at 3, ld32. f_equal. apply list_eq. intros k.
    destruct (decide (k < 4)%nat) as [Hk|]; [|by rewrite !lookup_take_ge by lia].
    destruct (decide (off_length + k < Z.to_nat (16 + v))%nat) as [Hlt|Hge].
    { rewrite !lookup_take_lt, !lookup_drop, list_lookup_inserts_lt by lia. done. }
    rewrite Hw, lookup_take_lt, lookup_drop by lia.
    rewrite list_lookup_inserts by (rewrite ?length_replicate; unfold off_length in *; zify_divmod).
    rewrite lookup_replicate_2 by (unfold off_length in *; zify_divmod). unfold off_length in Hge.
    assert (v = 9 ∨ v = 10 ∨ v = 11) as [E|[E|E]] by lia; rewrite E in *;
      destruct k as [|[|[|[|k]]]]; try lia; reflexivity.
  - apply negb_true_iff, Z.eqb_neq in Hpad. set (m := u32 (16 + v)) in *.
    assert (0 ≤ m ∧ (m + (8 - m mod 8) ≤ 24 ∨ 28 ≤ m)) as [Hm Hcase].
    { unfold m, u32 in *. zify_divmod. }
    unfold v at 1, ld32. f_equal. apply slice_inserts_ne. rewrite length_replicate. unfold off_length.
    pose proof (Z.mod_pos_bound m 8 ltac:(lia)). lia.
Qed.

Lemma seal_stage_ok seqNum m l : stage_ok l → stage_ok (seal seqNum m l).
Proof.
  intros [Hlen Hb]. unfold seal. split.
  - by rewrite !length_st32, length_zero_pad.
  - by repeat apply bytes_ok_st32; apply bytes_ok_zero_pad.
Qed.

(** Beside the header, a sealed record is the padded one. *)
Lemma seal_slice seqNum m l (o n : nat) :
  (16 ≤ o)%nat → take n (drop o (seal seqNum m l)) = take n (drop o (zero_pad m l)).
Proof.
  intros Ho. unfold seal, st32. rewrite !slice_inserts_ne; first done.
  all: rewrite length_le32; unfold off_mctpHeader, off_nvdmHeader, off_checkSum, off_seqNum; lia.
Qed.

Lemma seal_length seqNum l :
  stage_ok l →
  gspMsgQueueGetRpcMessageLength (seal seqNum (record_len l) l) = gspMsgQueueGetRpcMessageLength l.
Proof.
  intros Hl. rewrite <-(zero_pad_length l Hl). unfold gspMsgQueueGetRpcMessageLength, ld32.
  rewrite seal_slice by (unfold off_length; lia). done.
Qed.

Lemma seal_message seqNum l :
  stage_ok l → queueElementHdrSize ≤ record_len l →
  rpc_message (seal seqNum (record_len l) l) = rpc_message l.
Proof.
  intros Hl Hlen. unfold rpc_message. rewrite seal_length by done.
  pose proof (ld32_range l off_length (proj2 Hl)) as Hr.
  unfold record_len, gspMsgQueueGetRpcMessageLength, queueElementHdrSize in *.
  rewrite seal_slice, slice_zero_pad; [done| |lia]. unfold u32 in *. zify_divmod.
Qed.

Lemma seal_header seqNum m l :
  stage_ok l →
  let r := seal seqNum m l in
  ld32 r off_mctpHeader = mctpCreateTransportHeader 1 1 0 0 0 ∧
  ld32 r off_nvdmHeader = mctpCreateNvdmHeader NVDM_TYPE_RM_RPC ∧
  ld32 r off_seqNum = u32 seqNum.
Proof.
  intros [Hlen _] r. unfold r, seal. unfold queueElementSizeMax, RM_PAGE_SIZE in Hlen.
  unfold off_mctpHeader, off_nvdmHeader, off_checkSum, off_seqNum in *.
  split_and!; repeat (rewrite ld32_st32_ne by lia); rewrite ld32_st32_eq; try done;
    rewrite ?length_st32, ?length_zero_pad; lia.
Qed.

Lemma seal_checkSum seqNum m l :
  stage_ok l → queueElementHdrSize ≤ m ≤ queueElementSizeMax → _checkSum32 (seal seqNum m l) m = 0.
Proof.
  intros [Hlen Hb] Hm. unfold queueElementHdrSize, queueElementSizeMax, RM_PAGE_SIZE in *.
  unfold seal. apply checkSum_sealed.
  - repeat apply bytes_ok_st32. by apply bytes_ok_zero_pad.
  - lia.
  - rewrite !length_st32, length_zero_pad. unfold NV_CEIL. zify_divmod.
  - rewrite ld32_st32_eq; [done|]. rewrite !length_st32, length_zero_pad. unfold off_checkSum. lia.
Qed.

Lemma seal_intact seqNum l :
  stage_ok l → queueElementHdrSize ≤ record_len l ≤ queueElementSizeMax →
  record_intact (seal seqNum (record_len l) l) = true.
Proof.
  intros Hl Hm. destruct (seal_header seqNum (record_len l) l Hl) as (H1 & H2 & _).
  unfold record_intact. rewrite seal_length, H1, H2 by done.
  change (u32 _) with (record_len l). by rewrite seal_checkSum.
Qed.

(** * The pages of a record *)

Lemma page_bytes_Z : Z.of_nat page_bytes = RM_PAGE_SIZE.
Proof. done. Qed.
#[local] Opaque page_bytes.

Definition page (l : list Z) (i : nat) : list Z := take page_bytes (drop (i * page_bytes) l).

Definition record_pages (l : list Z) : nat := Z.to_nat (gspMsgQueueBytesToElements (record_len l)).

Lemma slice_agree {A} (m o n : nat) (l l' : list A) :
  take m l = take m l' → (o + n ≤ m)%nat → take n (drop o l) = take n (drop o l').
Proof.
  intros Heq Hle. rewrite !take_drop_commute. f_equal.
  rewrite <-(Nat.min_l (o + n) m) by done. by rewrite <-!take_take, Heq.
Qed.

Lemma checkSum_agree m l l' uLen :
  take m l = take m l' → (8 * Z.to_nat (NV_CEIL uLen 8) ≤ m)%nat → _checkSum32 l uLen = _checkSum32 l' uLen.
Proof.
  intros Heq Hle. unfold _checkSum32. do 2 f_equal.
  all: match goal with |- foldl _ _ ?s = _ => assert (Forall (λ k, 8 * k + 8 ≤ m)%nat s) as Hs end.
  all: try (apply Forall_forall; intros k Hk%elem_of_seq; lia).
  all: generalize 0; induction Hs as [|k s Hk _ IH]; intros c; simpl; [done|].
  all: unfold ld64 at 2 4; rewrite (slice_agree m _ _ l l') by done; apply IH.
Qed.

(** * One direction *)

(** The ring of a sender's block, as a queue system of the pages in it. *)
Definition slots_at (elems : Z → list Z) (a : msgqMetadata) : list (list Z) :=
  (λ i, elems (pOurEntries a + Z.of_nat i * msgSize (tx a))) <$> seq 0 (Z.to_nat (msgCount (tx a))).

Definition flight (elems : Z → list Z) (a b : msgqMetadata) : list (list Z) :=
  in_flight (MqSys (λ _, 0) a b (slots_at elems a) [] []).

Definition ring_view (words : Z → Z) (elems : Z → list Z) (a b : msgqMetadata) : mq_sys :=
  MqSys words a b (slots_at elems a) (flight elems a b) [].

Lemma ring_view_intro words elems a b sent recv :
  mq_inv (MqSys words a b (slots_at elems a) sent recv) → mq_inv (ring_view words elems a b).
Proof. intros []. by constructor. Qed.

Lemma flight_recv words elems a b sent recv fl :
  mq_inv (MqSys words a b (slots_at elems a) sent recv) → sent = recv ++ fl → flight elems a b = fl.
Proof. intros [? ? ? ? ? ? ? ? Hf] Hs. cbn in Hf. rewrite Hs in Hf. by apply app_inv_head in Hf. Qed.

Lemma slots_at_lookup elems a (i : nat) :
  (i < Z.to_nat (msgCount (tx a)))%nat →
  slots_at elems a !! i = Some (elems (pOurEntries a + Z.of_nat i * msgSize (tx a))).
Proof. intros Hi. unfold slots_at. by rewrite list_lookup_fmap, lookup_seq_lt. Qed.

Lemma length_slots_at elems a : length (slots_at elems a) = Z.to_nat (msgCount (tx a)).
Proof. unfold slots_at. by rewrite length_fmap, length_seq. Qed.

(** A call of the queue library by the receiver or the sender of the ring. *)
Lemma on_queue_b {A} (m : prog msgq_action msgq_st A) words elems a mi words' q' Q :
  run_b m (ring_view words elems a (hq mi)) = with_b words' q' (ring_view words elems a (hq mi)) →
  Q (val_b m (ring_view words elems a (hq mi))) (GqSt words' elems (set_hq q' mi)) →
  runs_to (on_queue m) Q (GqSt words elems mi).
Proof.
  unfold run_b, val_b, runs_to, run_st, run_val, on_queue. cbn.
  destruct (m (MsgqSt words (hq mi))) as [[y [w q]] es]. cbn. by intros [= -> ->].
Qed.

Lemma on_queue_a {A} (m : prog msgq_action msgq_st A) words elems b mi words' q' Q :
  run_a m (ring_view words elems (hq mi) b) = with_a words' q' (ring_view words elems (hq mi) b) →
  Q (val_a m (ring_view words elems (hq mi) b)) (GqSt words' elems (set_hq q' mi)) →
  runs_to (on_queue m) Q (GqSt words elems mi).
Proof.
  unfold run_a, val_a, runs_to, run_st, run_val, on_queue. cbn.
  destruct (m (MsgqSt words (hq mi))) as [[y [w q]] es]. cbn. by intros [= -> ->].
Qed.

(** The receiving end [b] after reads: its caches may differ. *)
Record same_rx (b b' : msgqMetadata) : Prop := {
  sr_tx : tx_side b' = tx_side b;
  sr_rp : pReadOutgoing b' = pReadOutgoing b }.

Record rx_keeps (words : Z → Z) (elems : Z → list Z) (a b b' : msgqMetadata) : Prop := {
  rk_inv : mq_inv (ring_view words elems a b');
  rk_flight : flight elems a b' = flight elems a b;
  rk_same : same_rx b b' }.

#[global] Instance same_rx_preorder : PreOrder same_rx.
Proof. split; [by split|]. intros x y z [H1 H2] [H3 H4]. split; congruence. Qed.

Lemma rx_keeps_trans words elems a b b' b'' :
  rx_keeps words elems a b b' → rx_keeps words elems a b' b'' → rx_keeps words elems a b b''.
Proof. intros [] []. split; [done|congruence|by etrans]. Qed.

Lemma read_at words elems a mi (k : nat) :
  mq_inv (ring_view words elems a (hq mi)) → 0 < pOurEntries a →
  runs_to (on_queue (msgqRxGetReadBuffer true (Z.of_nat k)))
    (λ p s', ∃ q', s' = GqSt words elems (set_hq q' mi) ∧ rx_keeps words elems a (hq mi) q' ∧
      (p = NULL ∧ flight elems a (hq mi) !! k = None ∨ p ≠ NULL ∧ flight elems a (hq mi) !! k = Some (elems p)))
    (GqSt words elems mi).
Proof.
  intros Hi Hpos. set (v := ring_view words elems a (hq mi)) in *.
  destruct (read_slot v true (Z.of_nat k) Hi ltac:(lia)) as (wp & f & Hf & Hrun & Hp).
  pose proof (mq_inv_rx_cache v wp f Hi Hf) as Hi'. apply (on_queue_b _ _ _ _ _ _ _ _ Hrun).
  eexists. split; [done|]. split.
  { split; [by apply ring_view_intro in Hi'|done|by split]. }
  destruct Hp as [[Hnull Hlen]|(Hlt & i & Hil & Hs & Hp)]; fold v; [left|right].
  - split; [done|]. apply lookup_ge_None_2. pose proof (in_flight_length v Hi) as Hl.
    specialize (Hlen eq_refl). change (flight elems a (hq mi)) with (in_flight v). lia.
  - destruct (mi_linked _ Hi) as [_ _ _ _ _ Hen _ Hsz (Hc & Hm & _)]. cbn in Hen, Hsz, Hc, Hm. unfold MSGQ_MSG_SIZE_MIN in Hm.
    rewrite Hp. cbn [ms_b v ring_view]. rewrite Hen, Hsz. split; [unfold NULL; nia|].
    change (flight elems a (hq mi)) with (in_flight v). rewrite Nat2Z.id in Hs. rewrite <-Hs.
    cbn in Hil. rewrite length_slots_at in Hil. by apply slots_at_lookup.
Qed.

(** ** Receiving *)

(** The receiver with other caches and another staging area. *)
Definition rx_at (words : Z → Z) (elems : Z → list Z) (mi : MESSAGE_QUEUE_INFO) q st : gq_st :=
  GqSt words elems (set_stage (λ _, st) (set_hq q mi)).

Lemma take_staged (i : nat) (p w st : list Z) :
  length p = page_bytes → ((i + 1) * page_bytes ≤ length st)%nat →
  take (i * page_bytes) st = take (i * page_bytes) w → p = page w i →
  take ((i + 1) * page_bytes) (list_inserts (i * page_bytes) p st) = take ((i + 1) * page_bytes) w.
Proof.
  intros Hp Hlen Ht Hw. rewrite inserts_split by lia. rewrite app_assoc, take_app_length'.
  - rewrite Ht, Hw. unfold page. rewrite take_take_drop. f_equal. lia.
  - rewrite length_app, length_take. lia.
Qed.

Lemma stage_element_at words elems mi q st p i (Q : unit → gq_st → Prop) :
  Q tt (rx_at words elems mi q (list_inserts (i * page_bytes) (elems p) st)) →
  runs_to (stage_element p i) Q (rx_at words elems mi q st).
Proof. done. Qed.

Lemma read_elements_at words elems a mi q w (n i : nat) st :
  mq_inv (ring_view words elems a q) → 0 < pOurEntries a →
  Z.of_nat (length st) = queueElementSizeMax → ((i + n) * page_bytes ≤ length st)%nat →
  (∀ j, (i ≤ j < i + n)%nat → flight elems a q !! j = Some (page w j) ∧ length (page w j) = page_bytes) →
  take (i * page_bytes) st = take (i * page_bytes) w →
  runs_to (read_elements (seq i n))
    (λ r s', r = NV_OK ∧ ∃ q' st', s' = rx_at words elems mi q' st' ∧ rx_keeps words elems a q q' ∧
      length st' = length st ∧ take ((i + n) * page_bytes) st' = take ((i + n) * page_bytes) w)
    (rx_at words elems mi q st).
Proof.
  revert i q st. induction n as [|n IH]; intros i q st Hi Hpos Hlen Hfit Hfl Ht; cbn [seq read_elements].
  { split; [done|]. exists q, st. rewrite Nat.add_0_r. split_and!; try done. }
  eapply runs_to_seq; [by apply (read_at words elems a (set_stage (λ _, st) (set_hq q mi)) i)|]. cbn [hq set_hq set_stage].
  intros p s' (q' & -> & Hk & [[_ Hnone]|[Hne Hp]]); destruct (Hfl i ltac:(lia)) as [Hpg Hpl]; [congruence|].
  rewrite (proj2 (Z.eqb_neq p NULL) Hne). rewrite Hpg in Hp. injection Hp as Hp.
  apply runs_to_bind. apply (stage_element_at words elems mi q' st p i). rewrite <-Hp.
  eapply runs_to_mono; [apply (IH (S i) q' (list_inserts (i * page_bytes) (page w i) st))|].
  - by destruct Hk.
  - done.
  - by rewrite length_inserts.
  - rewrite length_inserts. lia.
  - intros j Hj. rewrite (rk_flight _ _ _ _ _ Hk). apply Hfl. lia.
  - replace (S i) with (i + 1)%nat by lia. apply take_staged; try done. nia.
  - intros r s' [-> (q'' & st' & -> & Hk' & Hl' & Ht')]. split; [done|]. exists q'', st'.
    rewrite length_inserts in Hl'. replace (i + S n)%nat with (S i + n)%nat by lia.
    split_and!; [done|by eapply rx_keeps_trans|done|done].
Qed.

(** A record whose length the sender accepts. *)
Record well_sized (w : list Z) : Prop := {
  ws_len : queueElementHdrSize ≤ record_len w ≤ queueElementSizeMax;
  ws_bytes : (record_pages w * page_bytes ≤ length w)%nat }.

Definition record_elements (w : list Z) : list (list Z) := page w <$> seq 0 (record_pages w).

Lemma record_pages_bounds w :
  queueElementHdrSize ≤ record_len w ≤ queueElementSizeMax →
  gspMsgQueueBytesToElements (record_len w) = Z.of_nat (record_pages w) ∧ (1 ≤ record_pages w ≤ 16)%nat ∧
  (Z.to_nat (record_len w) ≤ record_pages w * page_bytes)%nat ∧
  (8 * Z.to_nat (NV_CEIL (record_len w) 8) ≤ record_pages w * page_bytes)%nat.
Proof.
  unfold record_pages, gspMsgQueueBytesToElements, queueElementHdrSize, queueElementSizeMax, queueElementSizeMin,
    RM_PAGE_SIZE, NV_CEIL. pose proof page_bytes_Z. unfold RM_PAGE_SIZE in *.
  intros Hr. rewrite (u32_small (record_len w)) by (unfold is_u32; lia).
  assert (1 ≤ (record_len w + 4096 - 1) / 4096 ≤ 16 ∧ record_len w ≤ (record_len w + 4096 - 1) / 4096 * 4096 ∧
    8 * ((record_len w + 8 - 1) / 8) ≤ (record_len w + 4096 - 1) / 4096 * 4096) as (? & ? & ?) by zify_divmod.
  rewrite u32_small by (unfold is_u32; lia). split_and!; nia.
Qed.

(** What the checks look at lies in the pages of the record. *)
Lemma record_len_agree w st : take page_bytes w = take page_bytes st → record_len st = record_len w.
Proof.
  intros Ht. unfold record_len, gspMsgQueueGetRpcMessageLength, ld32. pose proof page_bytes_Z. unfold RM_PAGE_SIZE in *.
  by rewrite (slice_agree page_bytes off_length 4 w st Ht) by (unfold off_length; lia).
Qed.

Lemma record_agree w st :
  queueElementHdrSize ≤ record_len w ≤ queueElementSizeMax →
  take (record_pages w * page_bytes) st = take (record_pages w * page_bytes) w →
  record_len st = record_len w ∧ record_intact st = record_intact w ∧
  ld32 st off_seqNum = ld32 w off_seqNum ∧ (bytes_ok w → rpc_message st = rpc_message w).
Proof.
  intros Hr Ht. symmetry in Ht. destruct (record_pages_bounds w Hr) as (_ & [Hn _] & Hlen & Hck).
  pose proof page_bytes_Z as Hpb. unfold RM_PAGE_SIZE in Hpb.
  assert (∀ o, (o + 4 ≤ page_bytes)%nat → ld32 st o = ld32 w o) as Hld.
  { intros o Ho. unfold ld32. by rewrite (slice_agree _ o 4 w st Ht) by nia. }
  assert (gspMsgQueueGetRpcMessageLength st = gspMsgQueueGetRpcMessageLength w) as Hml.
  { apply Hld. unfold off_length. lia. }
  split_and!.
  - unfold record_len. by rewrite Hml.
  - unfold record_intact. rewrite Hml, !Hld by (unfold off_mctpHeader, off_nvdmHeader; lia).
    change (u32 (queueElementHdrSize + _)) with (record_len w). by rewrite (checkSum_agree _ w st _ Ht Hck).
  - apply Hld. unfold off_seqNum. lia.
  - intros Hb. unfold rpc_message. rewrite Hml. symmetry. apply (slice_agree _ _ _ w st Ht).
    pose proof (ld32_range w off_length Hb) as Hl.
    unfold record_len, gspMsgQueueGetRpcMessageLength, queueElementHdrSize in *. unfold u32 in *. zify_divmod.
Qed.

Lemma length_page w i : ((i + 1) * page_bytes ≤ length w)%nat → length (page w i) = page_bytes.
Proof. intros Hi. unfold page. rewrite length_take, length_drop. lia. Qed.

Lemma record_elements_lookup w i :
  (i < record_pages w)%nat → record_elements w !! i = Some (page w i).
Proof. intros Hi. unfold record_elements. by rewrite list_lookup_fmap, lookup_seq_lt. Qed.

Lemma length_record_elements w : length (record_elements w) = record_pages w.
Proof. unfold record_elements. by rewrite length_fmap, length_seq. Qed.

Lemma read_record_at words elems a mi q st w rest :
  mq_inv (ring_view words elems a q) → 0 < pOurEntries a → Z.of_nat (length st) = queueElementSizeMax →
  well_sized w → flight elems a q = record_elements w ++ rest →
  runs_to read_record
    (λ r s', r = Some (NV_OK, Z.of_nat (record_pages w)) ∧
      ∃ q' st', s' = rx_at words elems mi q' st' ∧ rx_keeps words elems a q q' ∧ length st' = length st ∧
        take (record_pages w * page_bytes) st' = take (record_pages w * page_bytes) w)
    (rx_at words elems mi q st).
Proof.
  intros Hi Hpos Hlen [Hr Hw] Hfl. destruct (record_pages_bounds w Hr) as (Hn & Hn1 & _).
  pose proof page_bytes_Z as Hpb. unfold queueElementSizeMax, RM_PAGE_SIZE in *.
  assert (∀ j, (j < record_pages w)%nat → flight elems a q !! j = Some (page w j) ∧ length (page w j) = page_bytes) as Hpages.
  { intros j Hj. rewrite Hfl, lookup_app_l, record_elements_lookup, length_page by (rewrite ?length_record_elements; nia). done. }
  destruct (Hpages 0%nat ltac:(lia)) as [Hp0 Hl0]. unfold read_record.
  eapply runs_to_seq; [by apply (read_at words elems a (set_stage (λ _, st) (set_hq q mi)) 0)|]. cbn [hq set_hq set_stage].
  intros p s' (q' & -> & Hk & [[_ Hnone]|[Hne Hp]]); [congruence|].
  rewrite (proj2 (Z.eqb_neq p NULL) Hne). rewrite Hp0 in Hp. injection Hp as Hp.
  apply runs_to_bind. apply (stage_element_at words elems mi q' st p 0). rewrite <-Hp.
  set (st' := list_inserts (0 * page_bytes) (page w 0) st).
  assert (take (1 * page_bytes) st' = take (1 * page_bytes) w) as Ht
    by (apply (take_staged 0); done || nia).
  rewrite Nat.mul_1_l in Ht. apply runs_to_gets. cbn [g_mqi rx_at set_stage set_hq pCmdQueueElement].
  assert (gspMsgQueueBytesToElements (queueElementHdrSize + gspMsgQueueGetRpcMessageLength st') =
    Z.of_nat (record_pages w)) as ->.
  { rewrite <-Hn, <-(record_len_agree w st') by done. unfold gspMsgQueueBytesToElements, record_len.
    unfold u32. by rewrite Zmod_mod. }
  rewrite Nat2Z.id. eapply runs_to_seq; [apply (read_elements_at words elems a mi q' w (record_pages w - 1) 1 st')|].
  - by destruct Hk.
  - done.
  - unfold st'. by rewrite length_inserts.
  - unfold st'. rewrite length_inserts. nia.
  - intros j Hj. rewrite (rk_flight _ _ _ _ _ Hk). apply Hpages. lia.
  - by rewrite Nat.mul_1_l.
  - intros r s' [-> (q'' & st'' & -> & Hk' & Hl' & Ht')]. split; [done|]. exists q'', st''.
    unfold st' in Hl'. rewrite length_inserts in Hl'. replace (1 + (record_pages w - 1))%nat with (record_pages w) in Ht' by lia.
    split_and!; [done|by eapply rx_keeps_trans|done|done].
Qed.

Lemma read_record_none words elems a mi q st :
  mq_inv (ring_view words elems a q) → 0 < pOurEntries a → flight elems a q = [] →
  runs_to read_record (λ r s', r = None ∧ ∃ q', s' = rx_at words elems mi q' st ∧ rx_keeps words elems a q q')
    (rx_at words elems mi q st).
Proof.
  intros Hi Hpos Hfl. unfold read_record.
  eapply runs_to_seq; [by apply (read_at words elems a (set_stage (λ _, st) (set_hq q mi)) 0)|]. cbn [hq set_hq set_stage].
  intros p s' (q' & -> & Hk & [[-> _]|[_ Hp]]); [|by rewrite Hfl in Hp]. split; [done|]. by exists q'.
Qed.

(** What a record in the queue is to its receiver: a message, or broken. *)
Record arrives (seqNum : Z) (o : option (list Z)) (w : list Z) : Prop := {
  ar_sized : well_sized w;
  ar_bytes : bytes_ok w;
  ar_what :
    match o with
    | Some m => record_intact w = true ∧ ld32 w off_seqNum = seqNum ∧ rpc_message w = m
    | None => record_intact w = false
    end }.

Section receive.
Context (words : Z → Z) (elems : Z → list Z) (a : msgqMetadata) (mi : MESSAGE_QUEUE_INFO).
Context (w : list Z) (rest : list (list Z)) (o : option (list Z)).
Context (Hpos : 0 < pOurEntries a) (Hw : arrives (rxSeqNum mi) o w).

(** The receiver before and after reading the record. *)
Record rx_ready (q : msgqMetadata) (st : list Z) : Prop := {
  rr_inv : mq_inv (ring_view words elems a q);
  rr_stage : Z.of_nat (length st) = queueElementSizeMax;
  rr_flight : flight elems a q = record_elements w ++ rest }.

Record rx_read (q q' : msgqMetadata) (st' : list Z) : Prop := {
  rd_ready : rx_ready q' st';
  rd_same : same_rx q q';
  rd_take : take (record_pages w * page_bytes) st' = take (record_pages w * page_bytes) w }.

Lemma rx_round fuel nRetries diff status n (Q : option rx_end → gq_st → Prop) q st :
  rx_ready q st → nRetries < 3 →
  (∀ q' st', rx_read q q' st' →
    (o ≠ None → Q (Some (RxDone NV_OK nRetries (Z.of_nat (record_pages w)))) (rx_at words elems mi q' st')) ∧
    (o = None → runs_to (rx_loop fuel (u32 (nRetries + 1)) 3 diff NV_ERR_INVALID_DATA (Z.of_nat (record_pages w))) Q
      (rx_at words elems mi q' st'))) →
  runs_to (rx_loop (S fuel) nRetries 3 diff status n) Q (rx_at words elems mi q st).
Proof.
  intros [Hi Hst Hfl] Hlt HQ. destruct Hw as [Hs _ Hwhat]. cbn [rx_loop].
  rewrite (proj2 (Z.leb_gt 3 nRetries)) by done.
  eapply runs_to_seq; [by apply (read_record_at words elems a mi q st w rest)|].
  intros r s' [-> (q' & st' & -> & [Hi' Hfl' Hsame] & Hlen & Ht)].
  cbn [negb Z.eqb NV_OK]. apply runs_to_gets. cbn [g_mqi rx_at set_stage set_hq pCmdQueueElement rxSeqNum].
  destruct (record_agree w st' (ws_len _ Hs) Ht) as (_ & -> & -> & _).
  assert (rx_read q q' st') as Hrd by (constructor; [constructor|..]; congruence).
  destruct (HQ q' st' Hrd) as [HSome HNone]. destruct o as [m|].
  - destruct Hwhat as (-> & -> & _). cbn [negb]. rewrite Z.eqb_refl. by apply HSome.
  - rewrite Hwhat. by apply HNone.
Qed.

Definition rx_outcome : Z := match o with Some _ => NV_OK | None => NV_ERR_INVALID_DATA end.

Lemma rx_loop_at fuel q st :
  rx_ready q st → (4 ≤ fuel)%nat →
  runs_to (rx_loop fuel 0 3 0xFFFFFFFF NV_OK 1)
    (λ r s', (∃ n, r = Some (RxDone rx_outcome n (Z.of_nat (record_pages w))) ∧ (o = None → 0 < n)) ∧
      ∃ q' st', s' = rx_at words elems mi q' st' ∧ rx_read q q' st')
    (rx_at words elems mi q st).
Proof.
  intros Hr Hf. destruct fuel as [|[|[|[|fuel]]]]; try lia.
  assert (o ≠ None → rx_outcome = NV_OK) as Hok by (unfold rx_outcome; by destruct o).
  apply rx_round; [done|lia|]. intros q1 st1 H1.
  split; intros Ho; [rewrite (Hok Ho); split; [by exists 0|by eauto]|].
  apply rx_round; [apply H1|done|]. intros q2 st2 H2. split; [done|intros _].
  apply rx_round; [apply H2|done|]. intros q3 st3 H3. split; [done|intros _].
  split; [exists 3; unfold rx_outcome; by rewrite Ho|]. exists q3, st3. split; [done|].
  destruct H1 as [_ H1 _], H2 as [_ H2 _], H3 as [? H3 ?].
  constructor; [done|by rewrite H1, H2|done].
Qed.
(** Marking the record consumed. *)
Lemma consume_record q st m' :
  rx_ready q st → hq m' = q →
  runs_to (on_queue (msgqRxMarkConsumed true true (Z.of_nat (record_pages w))))
    (λ r s', r = 0 ∧ ∃ words' q', s' = GqSt words' elems (set_hq q' m') ∧
      mq_inv (ring_view words' elems a q') ∧ flight elems a q' = rest ∧ same_rx q q' ∧
      ∀ x, x ≠ pReadOutgoing q → words' x = words x)
    (GqSt words elems m').
Proof.
  intros [Hi _ Hfl] Hq. subst q. set (v := ring_view words elems a (hq m')) in *.
  pose proof (in_flight_length v Hi) as Hlen. change (in_flight v) with (flight elems a (hq m')) in Hlen.
  rewrite Hfl, length_app, length_record_elements in Hlen.
  pose proof (mq_inv_consume v true true (Z.of_nat (record_pages w)) Hi ltac:(lia)) as Hi'.
  destruct (consume_at v true true (Z.of_nat (record_pages w)) Hi ltac:(lia)) as
    (wp & f & Hf & [(_ & Hless & _)|[(Hv & _ & Hle & Hrun)|(_ & ? & _)]]); [specialize (Hless eq_refl); lia| |done].
  cbn zeta in Hi'. rewrite Hv, Hrun in Hi'. cbn [with_b ms_mem ms_a ms_b ms_slots ms_sent ms_recv Z.eqb] in Hi'.
  apply (on_queue_b _ _ _ _ _ _ _ _ Hrun). fold v. split; [done|]. eexists _, _. split; [done|].
  split_and!; [by apply ring_view_intro in Hi'| |by split|intros x Hx; by apply fn_lookup_insert_ne].
  apply (flight_recv _ _ _ _ _ _ _ Hi'). cbn [v ring_view]. change (in_flight v) with (flight elems a (hq m')).
  rewrite Hfl, Nat2Z.id, take_app_length' by by rewrite length_record_elements. done.
Qed.

(** Receiving the record. *)
Lemma receive_at fuel q st :
  rx_ready q st → (4 ≤ fuel)%nat →
  runs_to (GspMsgQueueReceiveStatus fuel)
    (λ r s', r = Some rx_outcome ∧ ∃ words' q' st',
      s' = GqSt words' elems (set_seqs (txSeqNum mi) (u32 (rxSeqNum mi + 1)) (set_stage (λ _, st') (set_hq q' mi))) ∧
      mq_inv (ring_view words' elems a q') ∧ flight elems a q' = rest ∧ same_rx q q' ∧
      (∀ x, x ≠ pReadOutgoing q → words' x = words x) ∧ Z.of_nat (length st') = queueElementSizeMax ∧
      (∀ m, o = Some m → rpc_message st' = m))
    (rx_at words elems mi q st).
Proof.
  intros Hr Hf. unfold GspMsgQueueReceiveStatus. eapply runs_to_seq; [by apply rx_loop_at|].
  intros r s' [(n & -> & Hn) (q' & st' & -> & [Hrd Hsame Ht])]. destruct Hw as [[Hlen _] Hb Hwhat].
  destruct (record_agree w st' Hlen Ht) as (Hrl & _ & _ & Hmsg). specialize (Hmsg Hb).
  apply runs_to_gets. cbn [g_mqi rx_at set_stage set_hq pCmdQueueElement]. change (u32 (queueElementHdrSize + _)) with (record_len st').
  rewrite Hrl, (proj2 (Z.ltb_ge (record_len w) _)), (proj2 (Z.ltb_ge _ (record_len w))) by lia. cbn [orb].
  match goal with |- context [if ?b && ?c then ?x else ?y] => replace (if b && c then x else y) with rx_outcome
    by (by destruct (b && c)) end.
  apply runs_to_modify. eapply runs_to_seq; [by apply (consume_record q' st')|].
  intros nRet s' [-> (words' & q'' & -> & Hi' & Hfl & Hsame' & Hwords)]. split; [done|].
  exists words', q'', st'. split; [done|]. split_and!; try done.
  - by etrans.
  - intros x Hx. apply Hwords. by rewrite (sr_rp _ _ Hsame).
  - apply Hrd.
  - intros m Ho. rewrite Hmsg. rewrite Ho in Hwhat. apply Hwhat.
Qed.
End receive.

(** ** Sending *)

(** Free elements of the ring. *)
Definition free_pages (elems : Z → list Z) (a b : msgqMetadata) : Z :=
  msgCount (tx a) - 1 - Z.of_nat (length (flight elems a b)).

(** The address is not that of an element. *)
Definition beyond (a : msgqMetadata) (x : Z) : Prop :=
  x < pOurEntries a ∨ pOurEntries a + msgCount (tx a) * msgSize (tx a) ≤ x.

(** The sending end [a] after calls that submit nothing: its cache may differ. *)
Record same_tx (a a' : msgqMetadata) : Prop := {
  st_rx : rx_side a' = rx_side a;
  st_tx : tx a' = tx a;
  st_wp : pWriteOutgoing a' = pWriteOutgoing a;
  st_entries : pOurEntries a' = pOurEntries a }.

#[global] Instance same_tx_preorder : PreOrder same_tx.
Proof. split; [by split|]. intros x y z [] []. split; congruence. Qed.

Lemma slots_at_insert elems a a' (i : nat) x :
  0 < msgSize (tx a) → (i < Z.to_nat (msgCount (tx a)))%nat → pOurEntries a' = pOurEntries a → tx a' = tx a →
  slots_at (<[pOurEntries a + Z.of_nat i * msgSize (tx a) := x]> elems) a' = <[i := x]> (slots_at elems a).
Proof.
  intros Hs Hi He Ht. apply list_eq. intros j.
  destruct (decide (j < Z.to_nat (msgCount (tx a)))%nat) as [Hj|Hj]; last first.
  { rewrite !lookup_ge_None_2; rewrite ?length_insert, ?length_slots_at, ?Ht; lia || done. }
  rewrite slots_at_lookup by by rewrite Ht. rewrite Ht, He. destruct (decide (i = j)) as [<-|Hne].
  - rewrite fn_lookup_insert, list_lookup_insert_eq by by rewrite length_slots_at. done.
  - rewrite fn_lookup_insert_ne by nia. by rewrite list_lookup_insert_ne, slots_at_lookup by done.
Qed.

Lemma ring_used words elems a b :
  mq_inv (ring_view words elems a b) →
  Z.of_nat (length (flight elems a b)) = ring_count (msgCount (tx a)) (writePtr (tx a)) (rxReadPtr b).
Proof. exact (in_flight_length (ring_view words elems a b)). Qed.

Section send.
Context (words : Z → Z) (elems0 : Z → list Z) (a0 b : msgqMetadata) (l : list Z).
Context (Hpos : 0 < pOurEntries a0).

(** The first [i] pages of [l] lie behind the write pointer. *)
Record tx_written (elems : Z → list Z) (a : msgqMetadata) (i : nat) : Prop := {
  tw_inv : mq_inv (ring_view words elems a b);
  tw_flight : flight elems a b = flight elems0 a0 b;
  tw_same : same_tx a0 a;
  tw_pages : ring_read (slots_at elems a) (ring_slots (msgCount (tx a)) (writePtr (tx a)) (Z.of_nat i)) =
    page l <$> seq 0 i;
  tw_room : Z.of_nat i ≤ free_pages elems a b;
  tw_beyond x : beyond a0 x → elems x = elems0 x }.

Lemma write_page elems mi i :
  tx_written elems (hq mi) i →
  runs_to (on_queue (msgqTxGetWriteBuffer true (Z.of_nat i)))
    (λ p s', ∃ q', s' = GqSt words elems (set_hq q' mi) ∧
      (p = NULL ∧ free_pages elems (hq mi) b ≤ Z.of_nat i ∧ tx_written elems q' i ∨
       p ≠ NULL ∧ Z.of_nat i < free_pages elems (hq mi) b ∧ tx_written (<[p := page l i]> elems) q' (S i)))
    (GqSt words elems mi).
Proof.
  intros [Hi Hfl Hsame Hpages Hroom Hbeyond]. set (v := ring_view words elems (hq mi) b) in *.
  destruct (sender_at v Hi) as (_ & Hc & _ & _ & Hm). cbn [ms_a v ring_view] in Hc, Hm.
  pose proof (ring_used _ _ _ _ Hi) as Hused. pose proof (mi_len _ Hi) as Hlen. cbn in Hlen.
  destruct (write_at v true (Z.of_nat i) Hi ltac:(lia)) as (rp & f & Hf & Hrun & Hp).
  apply (on_queue_a _ _ _ _ _ _ _ _ Hrun). eexists. split; [done|].
  pose proof Hroom as Hroom'. unfold free_pages in Hroom |- *. rewrite Hused in Hroom |- *.
  destruct Hp as [[Hnull Hle]|[Hlt Hp]]; [left|right]; fold v.
  - split_and!; [done|by apply Hle|]. constructor; try done; [|by etrans; [exact Hsame|split]].
    apply (ring_view_intro _ _ _ _ _ _ (mq_inv_tx_cache v rp f Hi Hf)).
  - cbn [ms_a ms_b v ring_view] in Hp, Hlt. set (idx := (writePtr (tx (hq mi)) + Z.of_nat i) mod msgCount (tx (hq mi))) in *.
    assert (0 ≤ idx < msgCount (tx (hq mi))) as Hidx by (apply Z.mod_pos_bound; lia).
    assert (pOurEntries (hq mi) = pOurEntries a0) as Hent by apply Hsame.
    assert (val_a (msgqTxGetWriteBuffer true (Z.of_nat i)) v ≠ NULL) as Hne by (rewrite Hp; unfold NULL; nia).
    split_and!; [done|done|]. rewrite Hp. replace idx with (Z.of_nat (Z.to_nat idx)) in Hp |- * by lia.
    pose proof (mq_inv_write v true (Z.of_nat i) (Z.to_nat idx) (page l i) Hi ltac:(lia) ltac:(cbn; lia) Hne Hp) as Hi'.
    cbn zeta in Hi'. rewrite Hrun in Hi'. cbn [with_a ms_mem ms_a ms_b ms_slots ms_sent ms_recv v ring_view] in Hi'.
    rewrite <-(slots_at_insert elems (hq mi) (set_txcache rp f (hq mi))) in Hi' by (done || lia).
    set (elems' := <[_ := _]> elems) in *.
    pose proof (flight_recv _ _ _ _ _ _ _ Hi' eq_refl) as Hfl'.
    constructor.
    + by apply ring_view_intro in Hi'.
    + etrans; [exact Hfl'|exact Hfl].
    + by etrans; [exact Hsame|split].
    + unfold elems'. rewrite (slots_at_insert elems (hq mi)) by (done || lia). cbn [tx set_txcache ms_a v ring_view].
      replace (Z.of_nat (S i)) with (Z.of_nat i + 1) by lia. rewrite ring_slots_snoc, ring_read_app by lia. fold idx.
      rewrite ring_read_insert, Hpages, seq_S, fmap_app.
      * f_equal. unfold ring_read. cbn [omap list_omap].
        rewrite list_lookup_insert_eq by (rewrite length_slots_at; lia). done.
      * lia.
      * intros x Hx%ring_slots_range; lia.
      * apply ring_slots_fresh; lia.
    + change (Z.of_nat (S i) ≤ msgCount (tx (hq mi)) - 1 - Z.of_nat (length (flight elems' (set_txcache rp f (hq mi)) b))).
      rewrite Hfl', Hused. lia.
    + intros x Hx. unfold elems'. rewrite fn_lookup_insert_ne; [by apply Hbeyond|].
      unfold beyond in Hx. rewrite Hent, (st_tx _ _ Hsame) in *. nia.
Qed.
(** The sender with another cache and count of failures. *)
Definition tx_at elems (mi : MESSAGE_QUEUE_INFO) q full : gq_st :=
  GqSt words elems (set_txBufferFull full (set_hq q mi)).

Lemma send_elements_at mi n i elems q full :
  pCmdQueueElement mi = l → tx_written elems q i →
  runs_to (send_elements (λ _, []) (seq i n))
    (λ r s', ∃ elems' q' full', s' = tx_at elems' mi q' full' ∧
      (r = NV_OK ∧ tx_written elems' q' (i + n) ∨
       r = NV_ERR_BUSY_RETRY ∧ free_pages elems q b < Z.of_nat (i + n) ∧ ∃ k, tx_written elems' q' k))
    (tx_at elems mi q full).
Proof.
  intros Hl. revert i elems q full. induction n as [|n IH]; intros i elems q full Ht; cbn [seq send_elements].
  { exists elems, q, full. split; [done|]. left. by rewrite Nat.add_0_r. }
  cbn [wait_space]. apply runs_to_bind.
  eapply runs_to_seq; [by apply (write_page elems (set_txBufferFull full (set_hq q mi)) i)|]. cbn [hq set_txBufferFull set_hq].
  intros p s' (q' & -> & [(-> & Hle & Ht')|(Hne & Hlt & Ht')]).
  - apply runs_to_ret. cbn [Z.eqb NULL]. apply runs_to_modify, runs_to_ret.
    exists elems, q', (u32 (full + 1)). split; [done|]. right. split; [done|]. split; [lia|by exists i].
  - rewrite (proj2 (Z.eqb_neq p NULL) Hne). cbn [negb]. apply runs_to_ret.
    rewrite (proj2 (Z.eqb_neq p NULL) Hne). apply runs_to_modify, runs_to_modify.
    cbn [g_words g_elems g_mqi set_txBufferFull set_hq pCmdQueueElement]. rewrite Hl. fold (page l i).
    eapply runs_to_mono; [exact (IH (S i) _ _ 0 Ht')|]. intros r s' (elems' & q'' & full' & -> & Hr).
    exists elems', q'', full'. split; [done|]. replace (i + S n)%nat with (S i + n)%nat by lia.
    destruct Hr as [Hr|(? & Hr & ?)]; [by left|right]. split; [done|]. split; [|done].
    assert (free_pages elems q b = free_pages (<[p := page l i]> elems) q' b) as ->; [|done].
    unfold free_pages. rewrite (tw_flight _ _ _ Ht), (tw_flight _ _ _ Ht'), (st_tx _ _ (tw_same _ _ _ Ht)).
    by rewrite (st_tx _ _ (tw_same _ _ _ Ht')).
Qed.
(** Submitting the pages makes them messages. *)
Lemma submit_pages elems mi n :
  tx_written elems (hq mi) n →
  runs_to (on_queue (msgqTxSubmitBuffers true true (Z.of_nat n)))
    (λ r s', r = 0 ∧ ∃ words' q', s' = GqSt words' elems (set_hq q' mi) ∧
      mq_inv (ring_view words' elems q' b) ∧ flight elems q' b = flight elems0 a0 b ++ (page l <$> seq 0 n) ∧
      rx_side q' = rx_side a0 ∧ pWriteOutgoing q' = pWriteOutgoing a0 ∧ pOurEntries q' = pOurEntries a0 ∧
      msgSize (tx q') = msgSize (tx a0) ∧ msgCount (tx q') = msgCount (tx a0) ∧
      ∀ x, x ≠ pWriteOutgoing a0 → words' x = words x)
    (GqSt words elems mi).
Proof.
  intros [Hi Hfl [Hs1 Hs2 Hs3 Hs4] Hpages Hroom _]. set (v := ring_view words elems (hq mi) b) in *.
  pose proof (ring_used _ _ _ _ Hi) as Hused. unfold free_pages in Hroom. rewrite Hused in Hroom.
  pose proof (mq_inv_submit v true true (Z.of_nat n) Hi ltac:(lia)) as Hi'.
  destruct (submit_at v true true (Z.of_nat n) Hi ltac:(lia)) as
    (rp & f & Hf & [(_ & Hless & _)|[(Hv & _ & Hle & Hrun & _)|(_ & ? & _)]]); [specialize (Hless eq_refl); cbn in Hless; lia| |done].
  cbn zeta in Hi'. rewrite Hv, Hrun in Hi'. cbn [with_a ms_mem ms_a ms_b ms_slots ms_sent ms_recv Z.eqb v ring_view] in Hi'.
  rewrite Hpages in Hi'. apply (on_queue_a _ _ _ _ _ _ _ _ Hrun). fold v. split; [done|].
  eexists _, _. split; [done|]. split_and!.
  - eapply ring_view_intro. exact Hi'.
  - rewrite <-Hfl. eapply flight_recv; [exact Hi'|done].
  - exact Hs1.
  - exact Hs3.
  - exact Hs4.
  - cbn. by rewrite Hs2.
  - cbn. by rewrite Hs2.
  - intros x Hx. apply fn_lookup_insert_ne. cbn. by rewrite Hs3.
Qed.
End send.

(** The record on its way, and what it is to the receiver. *)
Definition wire (mi : MESSAGE_QUEUE_INFO) : list Z :=
  let r := seal (txSeqNum mi) (record_len (pCmdQueueElement mi)) (pCmdQueueElement mi) in
  if bErrorInjectionEnabled mi then st32 0 0xFFFFFFFF r else r.

Definition wire_outcome (mi : MESSAGE_QUEUE_INFO) : option (list Z) :=
  if bErrorInjectionEnabled mi then None else Some (rpc_message (pCmdQueueElement mi)).

Lemma wire_stage_ok mi : stage_ok (pCmdQueueElement mi) → stage_ok (wire mi).
Proof.
  intros Hl. pose proof (seal_stage_ok (txSeqNum mi) (record_len (pCmdQueueElement mi)) _ Hl) as [H1 H2].
  unfold wire. case_match; [|done]. split; [by rewrite length_st32|by apply bytes_ok_st32].
Qed.

Lemma wire_len mi : stage_ok (pCmdQueueElement mi) → record_len (wire mi) = record_len (pCmdQueueElement mi).
Proof.
  intros Hl. unfold record_len. rewrite <-(seal_length (txSeqNum mi) _ Hl). do 2 f_equal.
  unfold wire. case_match; [|done]. apply ld32_st32_ne. unfold off_length. lia.
Qed.

Lemma wire_arrives mi :
  stage_ok (pCmdQueueElement mi) → is_u32 (txSeqNum mi) →
  queueElementHdrSize ≤ record_len (pCmdQueueElement mi) ≤ queueElementSizeMax →
  arrives (txSeqNum mi) (wire_outcome mi) (wire mi).
Proof.
  intros Hl Hseq Hlen. destruct (wire_stage_ok mi Hl) as [Hw Hb]. constructor; [|done|].
  - constructor; rewrite ?wire_len by done; [done|].
    destruct (record_pages_bounds (wire mi)) as (_ & Hn & _); [by rewrite wire_len|].
    pose proof page_bytes_Z. unfold queueElementSizeMax, RM_PAGE_SIZE in *. nia.
  - unfold wire, wire_outcome. destruct (bErrorInjectionEnabled mi).
    + unfold record_intact. rewrite (ld32_st32_eq 0); [apply andb_false_intro1, andb_false_r|].
      pose proof (seal_stage_ok (txSeqNum mi) (record_len (pCmdQueueElement mi)) _ Hl) as [H1 _].
      unfold queueElementSizeMax, RM_PAGE_SIZE in *. lia.
    + split_and!; [by apply seal_intact| |apply seal_message; [done|lia]].
      destruct (seal_header (txSeqNum mi) (record_len (pCmdQueueElement mi)) _ Hl) as (_ & _ & ->).
      by apply u32_small.
Qed.

(** What a send leaves at the sender: its pages written, or submitted. *)
Record tx_done (words0 : Z → Z) (elems0 : Z → list Z) (m0 : MESSAGE_QUEUE_INFO) (b : msgqMetadata) (new : list (list Z))
    (words : Z → Z) (elems : Z → list Z) (m : MESSAGE_QUEUE_INFO) : Prop := {
  td_inv : mq_inv (ring_view words elems (hq m) b);
  td_flight : flight elems (hq m) b = flight elems0 (hq m0) b ++ new;
  td_rx : rx_side (hq m) = rx_side (hq m0);
  td_wp : pWriteOutgoing (hq m) = pWriteOutgoing (hq m0);
  td_entries : pOurEntries (hq m) = pOurEntries (hq m0);
  td_size : msgSize (tx (hq m)) = msgSize (tx (hq m0));
  td_count : msgCount (tx (hq m)) = msgCount (tx (hq m0));
  td_words x : x ≠ pWriteOutgoing (hq m0) → words x = words0 x;
  td_elems x : beyond (hq m0) x → elems x = elems0 x;
  td_stage : stage_ok (pCmdQueueElement m);
  td_rxseq : rxSeqNum m = rxSeqNum m0;
  td_inject : bErrorInjectionEnabled m = bErrorInjectionEnabled m0 }.

Lemma tx_done_written words elems0 m0 b l elems m k :
  tx_written words elems0 (hq m0) b l elems (hq m) k → stage_ok (pCmdQueueElement m) →
  rxSeqNum m = rxSeqNum m0 → bErrorInjectionEnabled m = bErrorInjectionEnabled m0 →
  tx_done words elems0 m0 b [] words elems m.
Proof.
  intros [Hi Hfl [H1 H2 H3 H4] _ _ Hb] Hst Hrx Hin. constructor; try done; [by rewrite app_nil_r|by rewrite H2..].
Qed.

Definition length_bad (l : list Z) : bool :=
  (record_len l <? queueElementHdrSize) || (queueElementSizeMax <? record_len l).

Lemma send_at words elems mi b :
  mq_inv (ring_view words elems (hq mi) b) → 0 < pOurEntries (hq mi) → stage_ok (pCmdQueueElement mi) →
  let n := Z.of_nat (record_pages (pCmdQueueElement mi)) in
  runs_to (GspMsgQueueSendCommand (λ _, []))
    (λ r s', if length_bad (pCmdQueueElement mi) then r = NV_ERR_INVALID_PARAM_STRUCT ∧ s' = GqSt words elems mi
      else if free_pages elems (hq mi) b <? n then r = NV_ERR_BUSY_RETRY ∧
        tx_done words elems mi b [] (g_words s') (g_elems s') (g_mqi s') ∧ txSeqNum (g_mqi s') = txSeqNum mi
      else r = NV_OK ∧ tx_done words elems mi b (record_elements (wire mi)) (g_words s') (g_elems s') (g_mqi s') ∧
        txSeqNum (g_mqi s') = u32 (txSeqNum mi + 1))
    (GqSt words elems mi).
Proof.
  intros Hi Hpos Hl n. unfold GspMsgQueueSendCommand. apply runs_to_gets. cbn [g_mqi].
  change (u32 (queueElementHdrSize + _)) with (record_len (pCmdQueueElement mi)). fold (length_bad (pCmdQueueElement mi)).
  destruct (length_bad _) eqn:Hbad; [by apply runs_to_ret|].
  apply orb_false_iff in Hbad as [Hlo%Z.ltb_ge Hhi%Z.ltb_ge].
  destruct (record_pages_bounds (pCmdQueueElement mi) (conj Hlo Hhi)) as (Hn & Hn1 & _). rewrite Hn, Nat2Z.id. fold n.
  apply runs_to_modify. cbn [g_words g_elems g_mqi]. set (k := record_pages (pCmdQueueElement mi)).
  set (m1 := set_stage (seal (txSeqNum mi) (record_len (pCmdQueueElement mi))) mi).
  set (m2 := set_stage (λ _, wire mi) mi).
  assert (∀ Q : unit → gq_st → Prop, Q tt (GqSt words elems m2) →
    runs_to (if bErrorInjectionEnabled mi then upd_mqi (set_stage (st32 0 0xFFFFFFFF)) else skip) Q
      (GqSt words elems m1)) as Hinj.
  { intros Q HQ. unfold m2, wire in HQ. by destruct (bErrorInjectionEnabled mi). }
  apply runs_to_bind, Hinj. clear Hinj m1.
  pose proof (wire_stage_ok mi Hl) as Hw.
  assert (tx_written words elems (hq mi) b (wire mi) elems (hq mi) 0) as Ht0.
  { constructor; try done. unfold free_pages. rewrite (ring_used _ _ _ _ Hi).
    destruct (sender_at _ Hi) as (_ & Hc & _). pose proof (mi_free _ Hi). cbn in *. lia. }
  replace (GqSt words elems m2) with (tx_at words elems m2 (hq mi) (txBufferFull mi)) by (unfold m2; by destruct mi).
  eapply runs_to_seq; [by apply (send_elements_at words elems (hq mi) b (wire mi) Hpos m2 k 0)|]. cbn zeta.
  intros r s' (elems' & q' & full & -> & [[-> Ht]|(-> & Hroom & k' & Ht)]).
  - cbn [negb Z.eqb NV_OK]. apply runs_to_tell.
    pose proof (tw_room _ _ _ _ _ _ _ _ Ht) as Hroom. unfold free_pages in Hroom.
    rewrite (tw_flight _ _ _ _ _ _ _ _ Ht), (st_tx _ _ (tw_same _ _ _ _ _ _ _ _ Ht)) in Hroom. fold (free_pages elems (hq mi) b) in Hroom.
    rewrite (proj2 (Z.ltb_ge (free_pages elems (hq mi) b) n)) by (unfold n, k in *; lia).
    eapply runs_to_seq; [by apply (submit_pages words elems (hq mi) b (wire mi) elems' (set_txBufferFull full (set_hq q' m2)) k)|].
    intros nRet s' [-> (words' & q'' & -> & Hi' & Hfl' & H1 & H2 & H3 & H4 & H5 & H6)]. cbn [negb Z.eqb].
    apply runs_to_modify, runs_to_ret. split; [done|]. split; [|done].
    assert (record_elements (wire mi) = page (wire mi) <$> seq 0 k) as ->.
    { unfold record_elements, k, record_pages. by rewrite wire_len. }
    by constructor; try apply (tw_beyond _ _ _ _ _ _ _ _ Ht).
  - cbn [negb Z.eqb NV_ERR_BUSY_RETRY NV_OK]. apply runs_to_ret. cbn [Nat.add] in Hroom.
    rewrite (proj2 (Z.ltb_lt (free_pages elems (hq mi) b) n)) by done. split; [done|]. split; [|done].
    by eapply tx_done_written.
Qed.
