(* ===== verification/GspSetup.v ===== *)
(** * GspSetup: creating and linking the queues of the GSP

    GspMsgQueuesInit and GspMsgQueuesCleanup of
    [src/src/nvidia/src/kernel/gpu/gsp/message_queue_cpu.c]: the layout of the
    shared memory, what is released when a step fails, and the state from which
    [GspRpc] starts. *)
From stdpp Require Import base numbers list list_numbers functions.
From S2P Require Import Prelude Rings Msgq GspQueue.
#[local] Open Scope Z_scope.
#[local] Opaque page_bytes.

(** ** The collection of queues

    [mc_memdesc] and [mc_pages]: there is a descriptor of the shared memory, and
    it has pages; [mc_va] is its kernel mapping. *)
Record MESSAGE_QUEUE_COLLECTION := Collection {
  mc_ptr : Z;
  mc_memdesc : bool;
  mc_pages : bool;
  mc_va : Z;
  mc_pageTbl : list Z;
  mc_sharedMemPA : Z;
  mc_rm : MESSAGE_QUEUE_INFO }.

Record qs_state := Qs {
  q_words : Z → Z;
  q_elems : Z → list Z;
  ppMQCollection : option MESSAGE_QUEUE_COLLECTION }.

#[local] Abbreviation C := (prog gq_action qs_state).

(** A call on the queue of a collection. *)
Definition on_rm {A} (c : MESSAGE_QUEUE_COLLECTION) (m : prog gq_action gq_st A) : C (A * MESSAGE_QUEUE_COLLECTION) := λ s,
  let '(a, g, es) := m (GqSt (q_words s) (q_elems s) (mc_rm c)) in
  ((a, Collection (mc_ptr c) (mc_memdesc c) (mc_pages c) (mc_va c) (mc_pageTbl c) (mc_sharedMemPA c) (g_mqi g)),
   Qs (g_words g) (g_elems g) (ppMQCollection s), es).

(** The part of GspMsgQueuesCleanup for a collection. A descriptor without pages
    has nothing to free. *)
Definition cleanup_collection (c : MESSAGE_QUEUE_COLLECTION) : C unit :=
  _ ← on_rm c _gspMsgQueueCleanup;
  when (mc_memdesc c)
    (when (negb (mc_va c =? NULL)) (tell [Drop (RMapping (mc_va c))]);;
     when (mc_pages c) (tell [Drop RShared]);;
     tell [Drop RMemdesc]);;
  tell [Drop (RCollection (mc_ptr c))].

Definition GspMsgQueuesCleanup : C unit :=
  c ← gets ppMQCollection;
  match c with
  | None => skip
  | Some c =>
      cleanup_collection c;;
      modify (λ s, Qs (q_words s) (q_elems s) None)
  end.

(** What the calls of GspMsgQueuesInit return: the allocation of the collection,
    memdescCreate, the two attempts at pages, memdescMap with its address, the
    physical address of each page, and the allocation of the work area. *)
Record init_env := InitEnv {
  ie_silicon : bool;
  ie_reg : option Z;
  ie_collection : Z;
  ie_create : Z;
  ie_alloc : Z;
  ie_alloc_retry : Z;
  ie_map : Z;
  ie_va : Z;
  ie_phys : nat → Z;
  ie_work : Z }.

(** The zeroed queue information with its parameters. *)
Definition zero_mqi (p : queue_params) : MESSAGE_QUEUE_INFO :=
  MQInfo p NULL NULL NULL NULL (msgqInit false false false false false) [] 0 0 0 false.

Definition shared_size (p : queue_params) : Z := pageTableSize p + commandQueueSize p + statusQueueSize p.

Definition zero_range {A} (zero : A) (va n : Z) (f : Z → A) : Z → A :=
  λ x, if (va <=? x) && (x <? va + n) then zero else f x.

(** From the mapping on: clear the memory, fill in the page table, place the
    queues and create the command queue. *)
Definition init_queue (env : init_env) (c : MESSAGE_QUEUE_COLLECTION) : C Z :=
  let p := mqi_params (mc_rm c) in
  modify (λ s, Qs (zero_range 0 (ie_va env) (shared_size p) (q_words s))
    (zero_range (replicate page_bytes 0) (ie_va env) (shared_size p) (q_elems s)) (ppMQCollection s));;
  let pPageTbl := ie_phys env <$> seq 0 (Z.to_nat (pageTableEntryCount p)) in
  let command := ie_va env + pageTableSize p in
  let status := command + commandQueueSize p in
  let m := MQInfo p command status NULL NULL (hq (mc_rm c)) [] 0 0 0 false in
  r ← on_rm (Collection (mc_ptr c) (mc_memdesc c) (mc_pages c) (mc_va c) pPageTbl 0 m) (_gspMsgQueueInit (ie_work env));
  let c := snd r in
  if negb (fst r =? NV_OK) then cleanup_collection c;; mret (fst r)
  else
    modify (λ s, Qs (q_words s) (q_elems s)
      (Some (Collection (mc_ptr c) (mc_memdesc c) (mc_pages c) (mc_va c) (mc_pageTbl c)
        (default 0 (mc_pageTbl c !! 0%nat)) (mc_rm c))));;
    mret NV_OK.

(** The second attempt at the pages is made with another page size. *)
Definition alloc_pages (env : init_env) : Z :=
  if ie_alloc env =? NV_ERR_NO_MEMORY then ie_alloc_retry env else ie_alloc env.

Definition GspMsgQueuesInit (env : init_env) : C Z :=
  st ← gets ppMQCollection;
  match st with
  | Some _ => mret NV_ERR_INVALID_STATE
  | None =>
      if ie_collection env =? NULL then mret NV_ERR_NO_MEMORY
      else
        tell [Take (RCollection (ie_collection env))];;
        let p := _getMsgQueueParams (ie_silicon env) (ie_reg env) in
        let c memdesc pages va := Collection (ie_collection env) memdesc pages va [] 0 (zero_mqi p) in
        if negb (ie_create env =? NV_OK) then mret (ie_create env)
        else
          tell [Take RMemdesc];;
          if negb (alloc_pages env =? NV_OK) then cleanup_collection (c true false NULL);; mret (alloc_pages env)
          else
            tell [Take RShared];;
            if negb (ie_map env =? NV_OK) then cleanup_collection (c true true NULL);; mret (ie_map env)
            else if ie_va env =? NULL then cleanup_collection (c true true NULL);; mret NV_ERR_NO_MEMORY
            else
              tell [Take (RMapping (ie_va env))];;
              init_queue env (c true true (ie_va env))
  end.

(** ** Accounting *)

#[global] Instance gq_res_eq_dec : EqDecision gq_res.
Proof. solve_decision. Defined.

(** What is held after the actions; [None] if something not held was released. *)
Fixpoint account (held : list gq_res) (es : list gq_action) : option (list gq_res) :=
  match es with
  | [] => Some held
  | Take r :: es => account (r :: held) es
  | Drop r :: es => release r held ≫= λ h, account h es
  | _ :: es => account held es
  end.

Lemma account_app held es1 es2 : account held (es1 ++ es2) = account held es1 ≫= λ h, account h es2.
Proof.
  revert held. induction es1 as [|e es1 IH]; intros held; [done|]. destruct e; cbn; try apply IH.
  by destruct (release _ _); cbn.
Qed.

Lemma account_queue held es : account held (OnQueue <$> es) = Some held.
Proof. by induction es. Qed.

(** The work area and its release. *)
Definition area_res (m : MESSAGE_QUEUE_INFO) : list gq_res :=
  if pWorkArea m =? NULL then [] else [RWork (pWorkArea m)].

Lemma queue_cleanup_account m held words elems :
  account (area_res m ++ held) (run_eff _gspMsgQueueCleanup (GqSt words elems m)) = Some held.
Proof.
  unfold _gspMsgQueueCleanup, mqi_, upd_mqi, when, area_res. rewrite run_eff_gets. cbn [g_mqi].
  destruct (pWorkArea m =? NULL); [done|]. cbn [negb]. rewrite run_eff_tell. cbn [account app]. by rewrite release_eq.
Qed.

Lemma cleanup_work {A} (x : A) s :
  pWorkArea (g_mqi (run_st (_gspMsgQueueCleanup;; mret x) s)) = NULL ∧
  run_eff (_gspMsgQueueCleanup;; mret x) s = run_eff _gspMsgQueueCleanup s.
Proof. rewrite run_st_bind, run_eff_bind. split; [|apply app_nil_r]. unfold _gspMsgQueueCleanup, mqi_. by rewrite run_st_gets, run_st_bind. Qed.

Lemma on_queue_run {A B} (q : prog msgq_action msgq_st A) (k : A → prog gq_action gq_st B) s n t es :
  q (MsgqSt (g_words s) (hq (g_mqi s))) = (n, t, es) →
  let s' := GqSt (st_mem t) (g_elems s) (set_hq (st_q t) (g_mqi s)) in
  run_st (on_queue q ≫= k) s = run_st (k n) s' ∧
  run_eff (on_queue q ≫= k) s = (OnQueue <$> es) ++ run_eff (k n) s'.
Proof. intros Hq. rewrite run_st_bind, run_eff_bind. unfold on_queue, run_val, run_st, run_eff. by rewrite Hq. Qed.

Lemma queue_init_account work held words elems m :
  let s' := run_st (_gspMsgQueueInit work) (GqSt words elems m) in
  account held (run_eff (_gspMsgQueueInit work) (GqSt words elems m)) = Some (area_res (g_mqi s') ++ held).
Proof.
  cbn zeta. unfold _gspMsgQueueInit, upd_mqi. rewrite run_st_modify, run_eff_modify. unfold area_res.
  destruct (work =? NULL) eqn:Hw; [cbn; by rewrite Hw|]. rewrite run_st_tell, run_eff_tell.
  rewrite !run_st_modify, !run_eff_modify. unfold mqi_. rewrite run_st_gets, run_eff_gets. cbn [g_mqi g_words g_elems].
  match goal with |- context [run_st (on_queue ?q ≫= ?k) ?s] =>
    destruct (q (MsgqSt (g_words s) (hq (g_mqi s)))) as [[n t] es] eqn:Hq;
    destruct (on_queue_run q k s n t es Hq) as [-> ->] end.
  cbn [app account]. rewrite account_app, account_queue. cbn [mbind option_bind g_words g_elems g_mqi].
  destruct (n <? 0); [|cbn; by rewrite Hw].
  match goal with |- context [run_st _ ?s] => destruct (cleanup_work NV_ERR_GENERIC s) as [-> ->] end.
  match goal with |- context [GqSt ?ws ?els ?mi] => pose proof (queue_cleanup_account mi held ws els) as Hc end.
  unfold area_res in Hc. cbn [pWorkArea set_hq set_work] in Hc. by rewrite Hw in Hc.
Qed.

(** What a collection holds, in the order it is released. *)
Definition coll_res (c : MESSAGE_QUEUE_COLLECTION) : list gq_res :=
  area_res (mc_rm c) ++
  (if mc_memdesc c then
     (if mc_va c =? NULL then [] else [RMapping (mc_va c)]) ++ (if mc_pages c then [RShared] else []) ++ [RMemdesc]
   else []) ++
  [RCollection (mc_ptr c)].

Lemma on_rm_run {A B} c (m : prog gq_action gq_st A) (k : A * MESSAGE_QUEUE_COLLECTION → C B) s :
  let g := GqSt (q_words s) (q_elems s) (mc_rm c) in
  let c' := Collection (mc_ptr c) (mc_memdesc c) (mc_pages c) (mc_va c) (mc_pageTbl c) (mc_sharedMemPA c) (g_mqi (run_st m g)) in
  let s' := Qs (g_words (run_st m g)) (g_elems (run_st m g)) (ppMQCollection s) in
  run_val (on_rm c m ≫= k) s = run_val (k (run_val m g, c')) s' ∧
  run_st (on_rm c m ≫= k) s = run_st (k (run_val m g, c')) s' ∧
  run_eff (on_rm c m ≫= k) s = run_eff m g ++ run_eff (k (run_val m g, c')) s'.
Proof.
  cbn zeta. rewrite run_val_bind, run_st_bind, run_eff_bind. unfold on_rm, run_val, run_st, run_eff.
  by destruct (m _) as [[??]?].
Qed.

Lemma collection_cleanup_account c held s :
  account (coll_res c ++ held) (run_eff (cleanup_collection c) s) = Some held.
Proof.
  unfold cleanup_collection. destruct (on_rm_run c _gspMsgQueueCleanup (λ _,
    when (mc_memdesc c) (when (negb (mc_va c =? NULL)) (tell [Drop (RMapping (mc_va c))]);;
      when (mc_pages c) (tell [Drop RShared]);; tell [Drop RMemdesc]);;
    tell [Drop (RCollection (mc_ptr c))]) s) as (_ & _ & ->).
  unfold coll_res. rewrite <-app_assoc, account_app, queue_cleanup_account. cbn [mbind option_bind].
  destruct (mc_memdesc c), (mc_va c =? NULL), (mc_pages c);
    unfold when; cbn [negb]; rewrite !run_eff_bind; cbn [app account run_eff run_st run_val tell skip snd fst mbind option_bind];
    rewrite ?release_eq; cbn [mbind option_bind account]; rewrite ?release_eq; cbn [mbind option_bind account];
    rewrite ?release_eq; cbn [mbind option_bind account]; by rewrite ?release_eq.
Qed.

Lemma collection_cleanup_keeps c s : ppMQCollection (run_st (cleanup_collection c) s) = ppMQCollection s.
Proof.
  unfold cleanup_collection. destruct (on_rm_run c _gspMsgQueueCleanup (λ _,
    when (mc_memdesc c) (when (negb (mc_va c =? NULL)) (tell [Drop (RMapping (mc_va c))]);;
      when (mc_pages c) (tell [Drop RShared]);; tell [Drop RMemdesc]);;
    tell [Drop (RCollection (mc_ptr c))]) s) as (_ & -> & _).
  unfold when. by destruct (mc_memdesc c), (mc_va c =? NULL), (mc_pages c).
Qed.

(** The error path: release the collection, return a status. *)
Lemma cleanup_return c (x : Z) s :
  run_val (cleanup_collection c;; mret x) s = x ∧
  ppMQCollection (run_st (cleanup_collection c;; mret x) s) = ppMQCollection s ∧
  account (coll_res c) (run_eff (cleanup_collection c;; mret x) s) = Some [].
Proof.
  rewrite run_val_bind, run_st_bind, run_eff_bind. split_and!; [done|apply collection_cleanup_keeps|].
  pose proof (collection_cleanup_account c [] s) as Hc. rewrite app_nil_r in Hc. by rewrite account_app, Hc.
Qed.

(** The descriptor could not be created: the source jumps over the cleanup. *)
Definition init_leaks (env : init_env) : bool := negb (ie_collection env =? NULL) && negb (ie_create env =? NV_OK).

Definition result_res (env : init_env) (s : qs_state) : list gq_res :=
  match ppMQCollection s with
  | Some c => coll_res c
  | None => if init_leaks env then [RCollection (ie_collection env)] else []
  end.

(** The last part: it publishes the collection or releases all of it. *)
Lemma init_queue_account env p s :
  ppMQCollection s = None → ie_va env ≠ NULL →
  let c := Collection (ie_collection env) true true (ie_va env) [] 0 (zero_mqi p) in
  let r := run_val (init_queue env c) s in
  let s' := run_st (init_queue env c) s in
  (r = NV_OK ↔ ppMQCollection s' ≠ None) ∧
  account [RMapping (ie_va env); RShared; RMemdesc; RCollection (ie_collection env)] (run_eff (init_queue env c) s) =
    Some (match ppMQCollection s' with Some c => coll_res c | None => [] end).
Proof.
  intros Hnone Hva c. cbn zeta. unfold init_queue. rewrite run_st_modify, run_eff_modify.
  rewrite run_val_bind. cbn [run_val run_st modify fst snd].
  match goal with |- context [run_st (on_rm ?c ?m ≫= ?k) ?s] => destruct (on_rm_run c m k s) as (-> & -> & ->) end.
  cbn [fst snd mc_rm q_words q_elems mqi_params zero_mqi c].
  rewrite account_app, queue_init_account. cbn [mbind option_bind].
  set (g := GqSt _ _ _). set (m := _gspMsgQueueInit (ie_work env)). 
  destruct (run_val m g =? NV_OK) eqn:Hr; cbn [negb].
  - apply Z.eqb_eq in Hr. rewrite run_st_modify, run_eff_modify, run_val_bind. split; [by split|].
    cbn. unfold coll_res. cbn [mc_rm mc_memdesc mc_va mc_pages mc_ptr]. by rewrite (proj2 (Z.eqb_neq _ _) Hva).
  - apply Z.eqb_neq in Hr. match goal with |- context [run_st (cleanup_collection ?c ≫= _) ?s] =>
      destruct (cleanup_return c (run_val m g) s) as (-> & -> & Hc) end.
    cbn [ppMQCollection]. rewrite Hnone. split; [by split|]. etrans; [|exact Hc].
    unfold coll_res. cbn [c mc_rm mc_memdesc mc_va mc_pages mc_ptr]. rewrite (proj2 (Z.eqb_neq _ _) Hva).
    cbn [app ppMQCollection]. by rewrite Hnone.
Qed.

(** All the exits of GspMsgQueuesInit. *)
Lemma init_account env s :
  ppMQCollection s = None →
  let s' := run_st (GspMsgQueuesInit env) s in
  (run_val (GspMsgQueuesInit env) s = NV_OK ↔ ppMQCollection s' ≠ None) ∧
  (ppMQCollection s' ≠ None → init_leaks env = false) ∧
  account [] (run_eff (GspMsgQueuesInit env) s) = Some (result_res env s').
Proof.
  intros Hnone. cbn zeta. unfold GspMsgQueuesInit, result_res, init_leaks. rewrite run_st_gets, run_eff_gets, run_val_bind.
  cbn [run_val run_st gets fst snd]. rewrite Hnone.
  destruct (ie_collection env =? NULL); [cbn; by rewrite Hnone|]. rewrite run_st_tell, run_eff_tell, run_val_bind. cbn [run_val run_st tell fst snd].
  destruct (Z.eqb_spec (ie_create env) NV_OK) as [_|Hcr]; cbn [negb andb]; [|cbn; rewrite Hnone; by split_and!].
  rewrite run_st_tell, run_eff_tell, run_val_bind. cbn [run_val run_st tell fst snd].
  destruct (Z.eqb_spec (alloc_pages env) NV_OK) as [_|Ha]; cbn [negb].
  2: { match goal with |- context [cleanup_collection ?c] => destruct (cleanup_return c (alloc_pages env) s) as (-> & -> & Hc) end.
       rewrite Hnone. split_and!; [by split|done|exact Hc]. }
  rewrite run_st_tell, run_eff_tell, run_val_bind. cbn [run_val run_st tell fst snd].
  destruct (Z.eqb_spec (ie_map env) NV_OK) as [_|Hm]; cbn [negb].
  2: { match goal with |- context [cleanup_collection ?c] => destruct (cleanup_return c (ie_map env) s) as (-> & -> & Hc) end.
       rewrite Hnone. split_and!; [by split|done|exact Hc]. }
  destruct (Z.eqb_spec (ie_va env) NULL) as [_|Hva].
  { match goal with |- context [cleanup_collection ?c] => destruct (cleanup_return c NV_ERR_NO_MEMORY s) as (-> & -> & Hc) end.
    rewrite Hnone. split_and!; [by split|done|exact Hc]. }
  rewrite run_st_tell, run_eff_tell, run_val_bind. cbn [run_val run_st tell fst snd].
  destruct (init_queue_account env (_getMsgQueueParams (ie_silicon env) (ie_reg env)) s Hnone Hva) as [Hval Hacc].
  split_and!; [exact Hval|done|exact Hacc].
Qed.

(** ** The sizes *)

Lemma land_lnot_page x : Z.land x (Z.lnot 4095) = x / 4096 * 4096.
Proof.
  change 4095 with (Z.ones 12). rewrite <-Z.ldiff_land, Z.ldiff_ones_r by lia.
  by rewrite Z.shiftl_mul_pow2, Z.shiftr_div_pow2 by lia.
Qed.

Lemma align_up_page v : NV_ALIGN_UP v 4096 = u32 (v + 4095) / 4096 * 4096.
Proof.
  unfold NV_ALIGN_UP. change (4096 - 1) with 4095. rewrite <-land_lnot_page.
  assert (u32 (Z.lnot 4095) = Z.land (Z.lnot 4095) (Z.ones 32)) as -> by done.
  assert (Z.land (u32 (v + 4095)) (Z.ones 32) = u32 (v + 4095)) as Hu.
  { rewrite Z.land_ones by lia. apply Z.mod_small, u32_range. }
  by rewrite (Z.land_comm (Z.lnot _)), Z.land_assoc, Hu.
Qed.

(** The status queue's size did not wrap to zero. *)
Definition sizes_ok (silicon : bool) (reg : option Z) : Prop :=
  statusQueueSize (_getMsgQueueParams silicon reg) ≠ 0.

Lemma params_sizes silicon reg (p := _getMsgQueueParams silicon reg) :
  0 < commandQueueSize p ≤ 0x180000 ∧ (4096 | commandQueueSize p) ∧ 0x10000 ≤ commandQueueSize p ∧
  (4096 | statusQueueSize p) ∧
  (sizes_ok silicon reg → 0x10000 ≤ statusQueueSize p ≤ 2 ^ 32 - 4096) ∧ 0 ≤ statusQueueSize p < 2 ^ 32.
Proof.
  unfold sizes_ok. fold p. unfold p, _getMsgQueueParams. cbn [commandQueueSize statusQueueSize].
  assert ((4096 | (if silicon then 262144 else 262144 * 6))) as Hc by (destruct silicon; [by exists 64|by exists 384]).
  destruct reg as [r|].
  - change (Z.shiftl 1 RM_PAGE_SHIFT) with 4096. rewrite !align_up_page.
    set (v := u32 (Z.max _ _)). assert (0x10000 ≤ v < 2 ^ 32) as Hv.
    { unfold v, queueElementSizeMax, RM_PAGE_SIZE. pose proof (u32_range (r * 1024)). unfold is_u32 in *.
      rewrite u32_small; unfold is_u32; lia. }
    split; [by destruct silicon|]. split; [done|]. split; [by destruct silicon|]. split; [by eexists|].
    unfold u32. split; [intros Hne|]; zify_divmod.
  - split; [by destruct silicon|]. split; [done|]. split; [by destruct silicon|]. split; [by exists 64|]. lia.
Qed.

(** The page table has an entry for each page of the queues, and for as many pages
    as the entries of these take. *)
Lemma params_page_table silicon reg (p := _getMsgQueueParams silicon reg) :
  let q := (commandQueueSize p + statusQueueSize p) / 4096 in
  pageTableEntryCount p = q + (q + 511) / 512 ∧ pageTableSize p = (pageTableEntryCount p + 511) / 512 * 4096 ∧
  commandQueueSize p + statusQueueSize p = q * 4096.
Proof.
  destruct (params_sizes silicon reg) as (Hc & [x Hx] & _ & [y Hy] & _ & Hs). fold p in Hc, Hx, Hy, Hs. cbn zeta.
  rewrite Hx, Hy in *. replace (x * 4096 + y * 4096) with ((x + y) * 4096) by lia. rewrite Z.div_mul by lia.
  unfold p, _getMsgQueueParams in *. cbn [commandQueueSize statusQueueSize pageTableEntryCount pageTableSize] in *.
  rewrite Hx, Hy. replace (x * 4096 + y * 4096) with ((x + y) * 4096) by lia.
  unfold RM_PAGE_SHIFT. rewrite Z.shiftr_div_pow2 by lia. change (2 ^ 12) with 4096. rewrite Z.div_mul by lia.
  rewrite (u32_small (x + y)) by (unfold is_u32; lia). unfold NV_CEIL, RM_PAGE_SIZE, RM_PAGE_ALIGN_UP, RM_PAGE_SIZE.
  change (4096 - 1) with 4095. rewrite land_lnot_page.
  assert (((x + y) * 8 + 4096 - 1) / 4096 = (x + y + 511) / 512) as -> by zify_divmod.
  rewrite u32_small by (unfold is_u32; zify_divmod). split_and!; [done|zify_divmod|done].
Qed.

(** * Claims *)

(** GspMsgQueuesInit publishes a collection exactly when it returns NV_OK. Along
    its calls nothing is released that is not held, and at its end the published
    collection owns everything that was acquired; if it fails, all is released,
    except that the collection leaks when the memory descriptor cannot be created.
    GspMsgQueuesCleanup then releases whatever the collection owns. *)
Theorem queues_init_releases env s (Hnone : ppMQCollection s = None) :
  let s' := run_st (GspMsgQueuesInit env) s in
  let leaked := if init_leaks env then [RCollection (ie_collection env)] else [] in
  (run_val (GspMsgQueuesInit env) s = NV_OK ↔ ppMQCollection s' ≠ None) ∧
  account [] (run_eff (GspMsgQueuesInit env) s) = Some (default leaked (coll_res <$> ppMQCollection s')) ∧
  account [] (run_eff (GspMsgQueuesInit env;; GspMsgQueuesCleanup) s) = Some leaked.
Proof.
  intros s' leaked. destruct (init_account env s Hnone) as (Hval & Hnl & Hacc). split; [done|].
  rewrite run_eff_bind, account_app, Hacc. fold s' in Hval, Hnl, Hacc |- *. unfold result_res. cbn [mbind option_bind].
  unfold GspMsgQueuesCleanup. rewrite run_eff_gets. destruct (ppMQCollection s') as [c|] eqn:Hc; [|done].
  split; [done|]. unfold leaked. rewrite Hnl by done. rewrite run_eff_bind, account_app.
  pose proof (collection_cleanup_account c [] s') as Hcl. rewrite app_nil_r in Hcl. by rewrite Hcl.
Qed.

(** The page table that the GSP maps the shared memory with has an entry for
    every page while the queues take less than 2 MiB; beyond that the pages of the
    table are counted before they are added, and up to five pages at the end of
    the status queue have no entry, the last one already with a status queue of
    1792 KiB. *)
Theorem page_table_sizing silicon reg (p := _getMsgQueueParams silicon reg) :
  let missing := shared_size p / 4096 - pageTableEntryCount p in
  (4096 | shared_size p) ∧ 0 ≤ missing ≤ 5 ∧
  (commandQueueSize p + statusQueueSize p < 2 * 1024 * 1024 → missing = 0) ∧
  (let p := _getMsgQueueParams true (Some 1792) in shared_size p / 4096 - pageTableEntryCount p = 1).
Proof.
  destruct (params_page_table silicon reg) as (Hn & Ht & Hq). fold p in Hn, Ht, Hq.
  destruct (params_sizes silicon reg) as (Hc & _ & _ & _ & _ & Hs). fold p in Hc, Hs.
  cbn zeta. unfold shared_size. set (q := (commandQueueSize p + statusQueueSize p) / 4096) in *.
  replace (pageTableSize p + commandQueueSize p + statusQueueSize p) with ((q + (pageTableEntryCount p + 511) / 512) * 4096) by lia.
  rewrite Z.div_mul by lia. rewrite Hn. split_and!; [by eexists|..|by vm_compute]; [zify_divmod..|].
  intros Hlt. assert (q < 512) by lia. zify_divmod.
Qed.

Lemma queues_init_releases_witness :
  let env := InitEnv true None 4096 NV_OK NV_OK NV_OK NV_ERR_GENERIC 0 (λ _, 0) 8192 in
  let s := Qs (λ _, 0) (λ _, []) None in
  ppMQCollection s = None ∧
  account [] (run_eff (GspMsgQueuesInit env;; GspMsgQueuesCleanup) s) = Some [].
Proof.
  split; [done|]. apply (queues_init_releases
    (InitEnv true None 4096 NV_OK NV_OK NV_OK NV_ERR_GENERIC 0 (λ _, 0) 8192) (Qs (λ _, 0) (λ _, []) None) eq_refl).
Defined.
