(* ===== verification/GspRpc.v ===== *)
(** * GspRpc: the resource manager and the GSP exchanging records

    Two ends that run the code of [GspQueue] over the queues they set up, each
    sending to the other. *)
From stdpp Require Import base numbers list list_numbers functions relations.
From S2P Require Import Prelude Rings Msgq GspQueue GspSetup.
#[local] Open Scope Z_scope.
#[local] Opaque page_bytes.

(** ** The records of a direction *)

(** [sent] and [recv] are what was sent and received so far, the rest is in the
    ring, record after record, with consecutive sequence numbers. *)
Record dir_inv (words : Z → Z) (elems : Z → list Z) (ma mb : MESSAGE_QUEUE_INFO) (sent recv : list (option (list Z))) : Prop := {
  dr_mq : mq_inv (ring_view words elems (hq ma) (hq mb));
  dr_base : 0 < pOurEntries (hq ma);
  dr_seq : is_u32 (rxSeqNum mb);
  dr_pending : ∃ pend : list (option (list Z) * list Z),
    sent = recv ++ pend.*1 ∧
    flight elems (hq ma) (hq mb) = concat (record_elements <$> pend.*2) ∧
    (∀ j o w, pend !! j = Some (o, w) → arrives (u32 (rxSeqNum mb + Z.of_nat j)) o w) ∧
    txSeqNum ma = u32 (rxSeqNum mb + Z.of_nat (length pend)) }.

(** What a side returns when it receives with [l] not received yet. *)
Definition receive_result (l : list (option (list Z))) : Z :=
  match l with
  | [] => NV_WARN_NOTHING_TO_DO
  | Some _ :: _ => NV_OK
  | None :: _ => NV_ERR_INVALID_DATA
  end.

Lemma dir_send words elems ma mb sent recv :
  dir_inv words elems ma mb sent recv → stage_ok (pCmdQueueElement ma) →
  runs_to (GspMsgQueueSendCommand (λ _, []))
    (λ r s',
      let l := pCmdQueueElement ma in
      r = (if length_bad l then NV_ERR_INVALID_PARAM_STRUCT
           else if free_pages elems (hq ma) (hq mb) <? Z.of_nat (record_pages l) then NV_ERR_BUSY_RETRY else NV_OK) ∧
      dir_inv (g_words s') (g_elems s') (g_mqi s') mb (sent ++ if r =? NV_OK then [wire_outcome ma] else []) recv ∧
      ∃ new, tx_done words elems ma (hq mb) new (g_words s') (g_elems s') (g_mqi s'))
    (GqSt words elems ma).
Proof.
  intros [Hi Hb Hseq (pend & Hs & Hfl & Har & Htx)] Hl. eapply runs_to_mono; [by apply (send_at words elems ma (hq mb))|].
  cbn zeta. intros r s' Hr. destruct (length_bad _) eqn:Hbad.
  { destruct Hr as [-> ->]. split; [done|]. cbn [g_words g_elems g_mqi]. split.
    - rewrite app_nil_r. constructor; try done. by exists pend.
    - exists []. constructor; try done. by rewrite app_nil_r. }
  destruct (_ <? _).
  - destruct Hr as (-> & Htd & Hts). split; [done|]. split; [|by eexists]. rewrite app_nil_r.
    constructor; [apply Htd|by rewrite (td_entries _ _ _ _ _ _ _ _ Htd)|done|]. exists pend.
    rewrite (td_flight _ _ _ _ _ _ _ _ Htd), app_nil_r, Hts. done.
  - destruct Hr as (-> & Htd & Hts). split; [done|]. split; [|by eexists]. cbn [Z.eqb NV_OK].
    constructor; [apply Htd|by rewrite (td_entries _ _ _ _ _ _ _ _ Htd)|done|].
    exists (pend ++ [(wire_outcome ma, wire ma)]). split_and!.
    + by rewrite Hs, fmap_app, app_assoc.
    + rewrite (td_flight _ _ _ _ _ _ _ _ Htd), Hfl, !fmap_app, concat_app. cbn. by rewrite app_nil_r.
    + intros j o w [Hj|[Hj Heq]]%lookup_app_Some; [by apply Har|].
      apply list_lookup_singleton_Some in Heq as [Hj0 [= <- <-]].
      replace (Z.of_nat j) with (Z.of_nat (length pend)) by lia. rewrite <-Htx.
      apply orb_false_iff in Hbad as [?%Z.ltb_ge ?%Z.ltb_ge].
      apply wire_arrives; [done| |done]. rewrite Htx. apply u32_range.
    + rewrite Hts, Htx, length_app. cbn [length]. unfold u32. rewrite Zplus_mod_idemp_l. f_equal. lia.
Qed.

Lemma u32_succ x n : u32 (u32 (x + 1) + n) = u32 (x + (n + 1)).
Proof. unfold u32. rewrite Zplus_mod_idemp_l. f_equal. lia. Qed.

Lemma dir_recv words elems ma mb sent recv fuel :
  dir_inv words elems ma mb sent recv → Z.of_nat (length (pCmdQueueElement mb)) = queueElementSizeMax → (4 ≤ fuel)%nat →
  runs_to (GspMsgQueueReceiveStatus fuel)
    (λ r s',
      r = Some (receive_result (drop (length recv) sent)) ∧ g_elems s' = elems ∧
      dir_inv (g_words s') elems ma (g_mqi s') sent
        (recv ++ match drop (length recv) sent with
                 | [] => []
                 | Some _ :: _ => [Some (rpc_message (pCmdQueueElement (g_mqi s')))]
                 | None :: _ => [None]
                 end) ∧
      same_rx (hq mb) (hq (g_mqi s')) ∧ (∀ x, x ≠ pReadOutgoing (hq mb) → g_words s' x = words x) ∧
      Z.of_nat (length (pCmdQueueElement (g_mqi s'))) = queueElementSizeMax ∧ txSeqNum (g_mqi s') = txSeqNum mb)
    (GqSt words elems mb).
Proof.
  intros [Hi Hb Hseq (pend & Hs & Hfl & Har & Htx)] Hst Hf.
  replace (GqSt words elems mb) with (rx_at words elems mb (hq mb) (pCmdQueueElement mb)) by by destruct mb.
  rewrite Hs, drop_app_length. destruct pend as [|[o w] pend].
  - cbn [fmap list_fmap]. destruct fuel as [|fuel]; [lia|]. unfold GspMsgQueueReceiveStatus. cbn [rx_loop Z.leb Z.compare].
    apply runs_to_bind. eapply runs_to_seq; [by apply (read_record_none words elems (hq ma) mb (hq mb))|].
    intros r s' [-> (q' & -> & [Hi' Hfl' Hsame])]. apply runs_to_ret, runs_to_ret. cbn [g_words g_elems g_mqi rx_at].
    split_and!; try done. rewrite !app_nil_r. constructor; try done. exists [].
    rewrite app_nil_r. cbn [hq set_hq set_stage rxSeqNum]. by rewrite Hfl', Hfl.
  - cbn [fmap list_fmap fst snd concat] in *.
    assert (arrives (rxSeqNum mb) o w) as Hw.
    { specialize (Har 0%nat o w eq_refl). by rewrite Z.add_0_r, u32_small in Har. }
    eapply runs_to_mono; [apply (receive_at words elems (hq ma) mb w (concat (record_elements <$> pend.*2)) o Hb Hw); [|done]|].
    { by constructor. }
    intros r s' [-> (words' & q' & st' & -> & Hi' & Hfl' & Hsame & Hwords & Hlen & Hmsg)]. cbn [g_words g_elems g_mqi].
    split; [by destruct o|]. split; [done|]. split; [|done]. constructor; try done.
    { apply u32_range. }
    exists pend. split_and!.
    + rewrite <-app_assoc. f_equal. cbn [pCmdQueueElement set_seqs set_stage]. destruct o as [m|]; [|done].
      by rewrite (Hmsg m eq_refl).
    + done.
    + intros j o' w' Hj. cbn [rxSeqNum set_seqs]. rewrite u32_succ. specialize (Har (S j) o' w' Hj).
      by replace (Z.of_nat j + 1) with (Z.of_nat (S j)) by lia.
    + rewrite Htx. cbn [rxSeqNum set_seqs length]. rewrite u32_succ. f_equal. lia.
Qed.

(** The other direction's calls leave a direction alone. *)
Lemma dir_inv_frame words elems ma mb sent recv words' elems' ma' mb' :
  dir_inv words elems ma mb sent recv →
  tx_side (hq ma') = tx_side (hq ma) → rx_side (hq mb') = rx_side (hq mb) →
  words' (pWriteOutgoing (hq ma)) = words (pWriteOutgoing (hq ma)) →
  words' (pReadOutgoing (hq mb)) = words (pReadOutgoing (hq mb)) →
  (∀ x, ¬ beyond (hq ma) x → elems' x = elems x) →
  txSeqNum ma' = txSeqNum ma → rxSeqNum mb' = rxSeqNum mb →
  dir_inv words' elems' ma' mb' sent recv.
Proof.
  intros [Hi Hb Hseq Hpend] Ha Hbb Hw Hr He Hts Hrs. pose proof Ha as [= H1 H2 H3 H4 H5 H6].
  pose proof Hbb as [= G1 G2 G3 G4 G5 G6 G7].
  assert (slots_at elems' (hq ma') = slots_at elems (hq ma)) as Hslots.
  { unfold slots_at. rewrite H1, H4. apply list_fmap_ext. intros i x [-> Hx]%lookup_seq. apply He.
    destruct (sender_at _ Hi) as (_ & Hc & _ & _ & Hm). cbn in Hc, Hm. unfold beyond. nia. }
  assert (flight elems' (hq ma') (hq mb') = flight elems (hq ma) (hq mb)) as Hfl.
  { unfold flight, in_flight. cbn [ms_slots ms_a ms_b]. by rewrite Hslots, H4, G5. }
  constructor.
  - eapply ring_view_intro. rewrite Hslots. apply (mq_inv_frame _ _ _ _ Hi Ha Hbb Hw Hr).
  - by rewrite H1.
  - by rewrite Hrs.
  - destruct Hpend as (pend & ? & ? & ? & ?). exists pend. by rewrite Hfl, Hts, Hrs.
Qed.

(** A changed word of an intact record, other than its length, breaks it. *)
Lemma corrupt_breaks w n (j : nat) v :
  well_sized w → bytes_ok w → record_intact w = true → n = Z.to_nat (NV_CEIL (record_len w) 8) →
  (j < 2 * n)%nat → (4 * j ≠ off_length)%nat → is_u32 v → v ≠ ld32 w (4 * j) →
  record_len (st32 (4 * j) v w) = record_len w ∧ record_intact (st32 (4 * j) v w) = false.
Proof.
  intros [Hlen Hbytes] Hb Hin -> Hj Hoff Hv Hne. destruct (record_pages_bounds w Hlen) as (_ & _ & _ & Hck).
  assert (gspMsgQueueGetRpcMessageLength (st32 (4 * j) v w) = gspMsgQueueGetRpcMessageLength w) as Hml.
  { apply ld32_st32_ne. unfold off_length in *. lia. }
  split; [unfold record_len; by rewrite Hml|]. unfold record_intact in *. rewrite Hml.
  change (u32 (queueElementHdrSize + _)) with (record_len w) in *.
  apply andb_true_iff in Hin as [Hin _]. apply andb_true_iff in Hin as [Hck0%Z.eqb_eq _].
  apply andb_false_intro1, andb_false_intro1, Z.eqb_neq.
  rewrite checkSum_words in Hck0 |- * by (done || by apply bytes_ok_st32).
  rewrite words_st32 by lia. rewrite (xors_insert _ j (ld32 w (4 * j))) by (by apply words_lookup).
  rewrite Hck0, Z.lxor_0_l, u32_small by done. intros ?%Z.lxor_eq. congruence.
Qed.

(** The page with the word. *)
Lemma page_st32 w (j k : nat) v :
  (record_pages w * page_bytes ≤ length w)%nat → (4 * j < record_pages w * page_bytes)%nat →
  (k < record_pages w)%nat →
  page (st32 (4 * j) v w) k =
    if decide (k = 4 * j / page_bytes)%nat then st32 (4 * j mod page_bytes) v (page w k) else page w k.
Proof.
  intros Hlen Hj Hk. pose proof page_bytes_Z as Hpb. unfold RM_PAGE_SIZE in Hpb.
  assert (4 * j = page_bytes * (4 * j / page_bytes) + 4 * j mod page_bytes)%nat as Hdm by (apply Nat.div_mod; lia).
  assert (4 * j mod page_bytes + 4 ≤ page_bytes)%nat as Hin.
  { replace page_bytes with (4 * 1024)%nat in * by lia. rewrite Nat.Div0.mul_mod_distr_l in *.
    pose proof (Nat.mod_upper_bound j 1024 ltac:(lia)). lia. }
  set (d := (4 * j / page_bytes)%nat) in *. set (r := (4 * j mod page_bytes)%nat) in *.
  unfold page. case_decide as Hkd.
  - subst k. rewrite Hdm. unfold st32. apply list_eq. intros i.
    destruct (decide (i < page_bytes)%nat) as [Hi|Hi]; last first.
    { rewrite !lookup_ge_None_2; rewrite ?length_inserts, ?length_take; lia || done. }
    rewrite lookup_take_lt, lookup_drop by lia.
    destruct (decide (r ≤ i < r + 4)%nat) as [Hr|Hr].
    + rewrite !list_lookup_inserts by (rewrite ?length_le32, ?length_take, ?length_drop; nia). f_equal. lia.
    + assert (i < r ∨ r + 4 ≤ i)%nat as [Hlt|Hge] by lia.
      * rewrite !list_lookup_inserts_lt by lia. by rewrite lookup_take_lt, lookup_drop by lia.
      * rewrite !list_lookup_inserts_ge by (rewrite length_le32; lia). by rewrite lookup_take_lt, lookup_drop by lia.
  - apply slice_inserts_ne. rewrite length_le32.
    assert (k < d ∨ d < k)%nat as [?|?] by lia; [right|left]; nia.
Qed.

(** The address of the [k]-th page in the ring. *)
Definition flight_addr (b : msgqMetadata) (k : nat) : Z :=
  pTheirEntries b + (rxReadPtr b + Z.of_nat k) mod msgCount (rx b) * msgSize (rx b).

Lemma flight_insert words elems a b (k : nat) p :
  mq_inv (ring_view words elems a b) → (k < length (flight elems a b))%nat →
  mq_inv (ring_view words (<[flight_addr b k := p]> elems) a b) ∧
  flight (<[flight_addr b k := p]> elems) a b = <[k := p]> (flight elems a b).
Proof.
  intros Hi Hk. pose proof (ring_used _ _ _ _ Hi) as Hused. destruct (sender_at _ Hi) as (_ & Hc & _ & _ & Hm).
  cbn in Hc, Hm. pose proof (mi_linked _ Hi) as [_ _ _ _ _ Hen Hcn Hsz _]. cbn in Hen, Hcn, Hsz.
  unfold flight_addr. rewrite Hen, Hcn, Hsz.
  set (idx := (rxReadPtr b + Z.of_nat k) mod msgCount (tx a)).
  assert (0 ≤ idx < msgCount (tx a)) as Hidx by (apply Z.mod_pos_bound; lia).
  replace idx with (Z.of_nat (Z.to_nat idx)) by lia.
  pose proof (slots_at_insert elems a a (Z.to_nat idx) p Hm ltac:(lia) eq_refl eq_refl) as Hslots.
  set (elems' := <[_ := p]> elems) in *. split.
  - destruct Hi as [? Hl ? ? ? ? ? ? _]. constructor; try done. cbn in *. by rewrite Hslots, length_insert.
  - unfold flight, in_flight. cbn [ms_slots ms_a ms_b]. rewrite Hslots. rewrite <-Hused.
    pose proof (mi_len _ Hi) as Hlen. cbn in Hlen. set (g := rxReadPtr b) in *.
    set (n := length (flight elems a b)) in *.
    assert (Z.of_nat n ≤ msgCount (tx a)) as Hn.
    { rewrite Hused. pose proof (ring_count_range (msgCount (tx a)) ltac:(lia) (writePtr (tx a)) g). lia. }
    apply list_eq. intros j. destruct (decide (j < n)%nat) as [Hj|Hj]; last first.
    { rewrite !lookup_ge_None_2; rewrite ?length_insert; [done|..]; apply Nat2Z.inj_le;
        rewrite ring_read_length by (rewrite ?length_insert; lia); lia. }
    rewrite <-(Nat2Z.id j) at 1. rewrite ring_read_lookup by (rewrite ?length_insert; lia).
    destruct (decide (j = k)) as [->|Hne].
    + fold idx. rewrite list_lookup_insert_eq by (rewrite length_slots_at; lia).
      rewrite list_lookup_insert_eq; [done|]. apply Nat2Z.inj_lt. rewrite ring_read_length by lia. lia.
    + rewrite (list_lookup_insert_ne _ k j) by done.
      rewrite <-(Nat2Z.id j) at 2. rewrite ring_read_lookup by lia. apply list_lookup_insert_ne.
      intros Heq. apply Hne. unfold idx in Heq. apply Z2Nat.inj in Heq; [|apply Z.mod_pos_bound; lia..].
      assert ((Z.of_nat k - Z.of_nat j) mod msgCount (tx a) = 0) as H0.
      { rewrite <-(Z.mod_0_l (msgCount (tx a))) by lia.
        replace (Z.of_nat k - Z.of_nat j) with ((g + Z.of_nat k) - (g + Z.of_nat j)) by lia.
        rewrite Zminus_mod, Heq, Z.sub_diag. done. }
      apply Z.mod_divide in H0 as [z Hz]; [|lia]. assert (z = 0) by nia. lia.
Qed.

Lemma flight_lookup words elems a b (k : nat) :
  mq_inv (ring_view words elems a b) → (k < length (flight elems a b))%nat →
  flight elems a b !! k = Some (elems (flight_addr b k)).
Proof.
  intros Hi Hk. pose proof (ring_used _ _ _ _ Hi) as Hused. destruct (sender_at _ Hi) as (_ & Hc & _ & _ & Hm).
  cbn in Hc, Hm. pose proof (mi_linked _ Hi) as [_ _ _ _ _ Hen Hcn Hsz _]. cbn in Hen, Hcn, Hsz.
  unfold flight_addr. rewrite Hen, Hcn, Hsz. unfold flight, in_flight. cbn [ms_slots ms_a ms_b].
  pose proof (mi_len _ Hi) as Hlen. cbn in Hlen.
  pose proof (Z.mod_pos_bound (rxReadPtr b + Z.of_nat k) (msgCount (tx a)) ltac:(lia)).
  rewrite <-(Nat2Z.id k) at 1. rewrite ring_read_lookup, slots_at_lookup by lia. by rewrite Z2Nat.id by lia.
Qed.

Lemma record_len_message w :
  well_sized w → bytes_ok w → record_len w = queueElementHdrSize + Z.of_nat (length (rpc_message w)).
Proof.
  intros [Hlen Hbytes] Hb. destruct (record_pages_bounds w Hlen) as (_ & _ & Hle & _).
  unfold rpc_message. rewrite length_take, length_drop. pose proof (ld32_range w off_length Hb) as Hr.
  unfold record_len, gspMsgQueueGetRpcMessageLength, queueElementHdrSize in *. unfold u32 in *. zify_divmod.
Qed.

Lemma ld32_page w (k o : nat) : (o + 4 ≤ page_bytes)%nat → ld32 (page w k) o = ld32 w (k * page_bytes + o).
Proof.
  intros Ho. unfold ld32, page. f_equal. rewrite (slice_agree page_bytes o 4 _ (drop (k * page_bytes) w)); [|by rewrite take_take, Nat.min_id|done].
  by rewrite drop_drop.
Qed.

(** Where a word of the record lies. *)
Lemma word_page w (j : nat) :
  queueElementHdrSize ≤ record_len w ≤ queueElementSizeMax → Z.of_nat (4 * j) < 8 * NV_CEIL (record_len w) 8 →
  (j < 2 * Z.to_nat (NV_CEIL (record_len w) 8))%nat ∧ (4 * j < record_pages w * page_bytes)%nat ∧
  (4 * j / page_bytes < record_pages w)%nat ∧
  (4 * j mod page_bytes + 4 ≤ page_bytes)%nat ∧ (4 * j / page_bytes * page_bytes + 4 * j mod page_bytes = 4 * j)%nat.
Proof.
  intros Hlen Hj. destruct (record_pages_bounds w Hlen) as (_ & _ & _ & Hck).
  pose proof page_bytes_Z as Hpb. unfold RM_PAGE_SIZE in Hpb.
  assert (0 ≤ NV_CEIL (record_len w) 8) by (unfold NV_CEIL, queueElementHdrSize in *; zify_divmod).
  pose proof (Nat.div_mod (4 * j) page_bytes ltac:(lia)) as Hdm.
  assert (4 * j mod page_bytes + 4 ≤ page_bytes)%nat as Hin.
  { replace page_bytes with (4 * 1024)%nat in * by lia. rewrite Nat.Div0.mul_mod_distr_l in *.
    pose proof (Nat.mod_upper_bound j 1024 ltac:(lia)). lia. }
  split_and!; [lia|lia|apply Nat.Div0.div_lt_upper_bound; lia|done|lia].
Qed.

Lemma record_elements_st32 w (j : nat) v :
  well_sized w → (4 * j < record_pages w * page_bytes)%nat → record_len (st32 (4 * j) v w) = record_len w →
  record_elements (st32 (4 * j) v w) =
    <[(4 * j / page_bytes)%nat := st32 (4 * j mod page_bytes) v (page w (4 * j / page_bytes))]> (record_elements w).
Proof.
  intros [_ Hbytes] Hj Hl. assert (record_pages (st32 (4 * j) v w) = record_pages w) as Hp by (unfold record_pages; by rewrite Hl).
  apply list_eq. intros k. destruct (decide (k < record_pages w)%nat) as [Hk|Hk]; last first.
  { rewrite !lookup_ge_None_2; rewrite ?length_insert, ?length_record_elements; lia || done. }
  rewrite record_elements_lookup, page_st32 by lia. case_decide as Hkd.
  - subst k. by rewrite list_lookup_insert_eq by (rewrite length_record_elements; lia).
  - by rewrite list_lookup_insert_ne, record_elements_lookup by lia.
Qed.

Lemma dir_corrupt words elems ma mb recv msg rest (j : nat) v :
  dir_inv words elems ma mb (recv ++ Some msg :: rest) recv →
  Z.of_nat (4 * j) < 8 * NV_CEIL (queueElementHdrSize + Z.of_nat (length msg)) 8 → (4 * j ≠ off_length)%nat → is_u32 v →
  let x := flight_addr (hq mb) (4 * j / page_bytes) in
  v ≠ ld32 (elems x) (4 * j mod page_bytes) →
  dir_inv words (<[x := st32 (4 * j mod page_bytes) v (elems x)]> elems) ma mb (recv ++ None :: rest) recv.
Proof.
  intros [Hi Hb Hseq (pend & Hs & Hfl & Har & Htx)] Hj Hoff Hv x Hne.
  apply app_inv_head in Hs. destruct pend as [|[o w] pend]; [done|]. injection Hs as <- Hrest.
  pose proof (Har 0%nat (Some msg) w eq_refl) as [Hsz Hbw (Hin & Hsn & Hmsg)].
  rewrite <-Hmsg, <-record_len_message in Hj by done.
  destruct (word_page w j (ws_len _ Hsz) Hj) as (Hj1 & Hj2 & Hk & Hin4 & Hdm).
  cbn [fmap list_fmap fst snd concat] in Hfl.
  assert (4 * j / page_bytes < length (flight elems (hq ma) (hq mb)))%nat as Hkf.
  { rewrite Hfl, length_app, length_record_elements. lia. }
  pose proof (flight_lookup _ _ _ _ _ Hi Hkf) as Hx. fold x in Hx.
  rewrite Hfl, lookup_app_l, record_elements_lookup in Hx by (rewrite ?length_record_elements; lia).
  apply (inj Some) in Hx. rewrite <-Hx in *. rewrite ld32_page, Hdm in Hne by done.
  destruct (corrupt_breaks w _ j v Hsz Hbw Hin eq_refl Hj1 Hoff Hv Hne) as [Hlen' Hin'].
  destruct (flight_insert words elems _ _ _ (st32 (4 * j mod page_bytes) v (page w (4 * j / page_bytes))) Hi Hkf) as [Hi' Hfl'].
  constructor; try done. exists ((None, st32 (4 * j) v w) :: pend). split_and!.
  - by rewrite Hrest.
  - etrans; [exact Hfl'|]. rewrite Hfl, insert_app_l by by rewrite length_record_elements.
    cbn [fmap list_fmap fst snd concat]. f_equal. by rewrite record_elements_st32.
  - intros [|i] o' w' Hi''; [|exact (Har (S i) o' w' Hi'')]. 
    assert (o' = None ∧ w' = st32 (4 * j) v w) as [-> ->] by by injection Hi'' as <- <-.
    constructor; [|by apply bytes_ok_st32|done].
    destruct Hsz. constructor; [by rewrite Hlen'|]. unfold record_pages in *. by rewrite Hlen', length_st32.
  - done.
Qed.

(** * The system *)

(** The shared memory, the two ends, and for each direction what was sent and
    received: a message, or [None] for a record that arrives broken. *)
Record rpc_sys := Rpc {
  r_words : Z → Z;
  r_elems : Z → list Z;
  r_a : MESSAGE_QUEUE_INFO;
  r_b : MESSAGE_QUEUE_INFO;
  r_sent : list (option (list Z));
  r_recv : list (option (list Z));
  r_sent' : list (option (list Z));
  r_recv' : list (option (list Z)) }.

(** The system seen from the other end. *)
Definition turn (s : rpc_sys) : rpc_sys :=
  Rpc (r_words s) (r_elems s) (r_b s) (r_a s) (r_sent' s) (r_recv' s) (r_sent s) (r_recv s).

(** The sender builds a record in its staging area, possibly with error
    injection turned on, and sends it. *)
Definition to_send (inject : bool) (l : list Z) (m : MESSAGE_QUEUE_INFO) : MESSAGE_QUEUE_INFO :=
  MQInfo (mqi_params m) (pCommandQueue m) (pStatusQueue m) (pWorkArea m) (hQueue m) (hq m) l
    (txSeqNum m) (rxSeqNum m) (txBufferFull m) inject.

Definition send_status (inject : bool) (l : list Z) (s : rpc_sys) : Z :=
  run_val (GspMsgQueueSendCommand (λ _, [])) (GqSt (r_words s) (r_elems s) (to_send inject l (r_a s))).

Definition after_send (inject : bool) (l : list Z) (s : rpc_sys) : rpc_sys :=
  let m := to_send inject l (r_a s) in
  let g := run_st (GspMsgQueueSendCommand (λ _, [])) (GqSt (r_words s) (r_elems s) m) in
  Rpc (g_words g) (g_elems g) (g_mqi g) (r_b s)
    (r_sent s ++ if send_status inject l s =? NV_OK then [wire_outcome m] else []) (r_recv s) (r_sent' s) (r_recv' s).

Definition receive_status (fuel : nat) (s : rpc_sys) : option Z :=
  run_val (GspMsgQueueReceiveStatus fuel) (GqSt (r_words s) (r_elems s) (r_b s)).

(** A receiver that gets NV_OK has the message in its staging area. *)
Definition after_receive (fuel : nat) (s : rpc_sys) : rpc_sys :=
  let g := run_st (GspMsgQueueReceiveStatus fuel) (GqSt (r_words s) (r_elems s) (r_b s)) in
  Rpc (g_words g) (g_elems g) (r_a s) (g_mqi g) (r_sent s)
    (r_recv s ++
      match receive_status fuel s with
      | Some st =>
          if st =? NV_OK then [Some (rpc_message (pCmdQueueElement (g_mqi g)))]
          else if st =? NV_ERR_INVALID_DATA then [None] else []
      | None => []
      end) (r_sent' s) (r_recv' s).

(** Either end sends and receives, at any time; and a 32-bit word of the oldest
    record, other than the word with its length, changes in memory. *)
Inductive rpc_move : rpc_sys → rpc_sys → Prop :=
| move_send inject l s : stage_ok l → rpc_move s (after_send inject l s)
| move_receive fuel s : (4 ≤ fuel)%nat → rpc_move s (after_receive fuel s)
| move_corrupt (j : nat) v msg rest s :
    r_sent s = r_recv s ++ Some msg :: rest →
    Z.of_nat (4 * j) < 8 * NV_CEIL (queueElementHdrSize + Z.of_nat (length msg)) 8 →
    (4 * j ≠ off_length)%nat → is_u32 v →
    let x := flight_addr (hq (r_b s)) (4 * j / page_bytes) in
    v ≠ ld32 (r_elems s x) (4 * j mod page_bytes) →
    rpc_move s (Rpc (r_words s) (<[x := st32 (4 * j mod page_bytes) v (r_elems s x)]> (r_elems s)) (r_a s) (r_b s)
      (r_recv s ++ None :: rest) (r_recv s) (r_sent' s) (r_recv' s)).

Inductive rpc_step (s s' : rpc_sys) : Prop :=
| step_ab : rpc_move s s' → rpc_step s s'
| step_ba : rpc_move (turn s) (turn s') → rpc_step s s'.

Definition stage_sized (m : MESSAGE_QUEUE_INFO) : Prop :=
  Z.of_nat (length (pCmdQueueElement m)) = queueElementSizeMax.

Record rpc_inv (s : rpc_sys) : Prop := {
  ri_ab : dir_inv (r_words s) (r_elems s) (r_a s) (r_b s) (r_sent s) (r_recv s);
  ri_ba : dir_inv (r_words s) (r_elems s) (r_b s) (r_a s) (r_sent' s) (r_recv' s);
  ri_ww : pWriteOutgoing (hq (r_a s)) ≠ pWriteOutgoing (hq (r_b s));
  ri_rr : pReadOutgoing (hq (r_a s)) ≠ pReadOutgoing (hq (r_b s));
  ri_wa : pWriteOutgoing (hq (r_a s)) ≠ pReadOutgoing (hq (r_a s));
  ri_wb : pWriteOutgoing (hq (r_b s)) ≠ pReadOutgoing (hq (r_b s));
  ri_apart x : beyond (hq (r_a s)) x ∨ beyond (hq (r_b s)) x;
  ri_stage_a : stage_sized (r_a s);
  ri_stage_b : stage_sized (r_b s) }.

Lemma rpc_inv_turn s : rpc_inv s → rpc_inv (turn s).
Proof. intros [? ? ? ? ? ? Hx ? ?]. constructor; try done. intros x. destruct (Hx x); auto. Qed.

Lemma beyond_same a a' x :
  pOurEntries a' = pOurEntries a → msgCount (tx a') = msgCount (tx a) → msgSize (tx a') = msgSize (tx a) →
  beyond a' x ↔ beyond a x.
Proof. intros He Hc Hs. unfold beyond. by rewrite He, Hc, Hs. Qed.

Lemma rpc_inv_send inject l s : rpc_inv s → stage_ok l → rpc_inv (after_send inject l s).
Proof.
  intros [Hab Hba Hww Hrr Hwa Hwb Hx Hsa Hsb] Hl. set (m := to_send inject l (r_a s)).
  assert (dir_inv (r_words s) (r_elems s) m (r_b s) (r_sent s) (r_recv s)) as Hab'.
  { destruct Hab as [? ? ? Hp]. by constructor. }
  pose proof (dir_send _ _ _ _ _ _ Hab' Hl) as (_ & Hd & new & Htd). unfold after_send, send_status. fold m.
  set (g := run_st _ _) in *. destruct Htd as [_ _ Hrx Hwp He Hsz Hc Hw Hel Hst Hrs _].
  pose proof Hrx as [= E1 E2 E3 E4 E5 E6 E7]. constructor;
    cbn [r_words r_elems r_a r_b r_sent r_recv r_sent' r_recv']; try done.
  - apply (dir_inv_frame _ _ _ _ _ _ _ _ _ _ Hba); try done.
    + apply Hw. exact (not_eq_sym Hww).
    + apply Hw. exact (not_eq_sym Hwa).
    + intros x Hnb. apply Hel. destruct (Hx x) as [?|?]; [done|contradiction].
  - by rewrite Hwp.
  - by rewrite E3.
  - by rewrite Hwp, E3.
  - intros x. destruct (Hx x) as [H|H]; [left|by right]. by apply (beyond_same _ _ x He Hc Hsz).
  - apply Hst.
Qed.

Lemma rpc_inv_receive fuel s : rpc_inv s → (4 ≤ fuel)%nat → rpc_inv (after_receive fuel s).
Proof.
  intros [Hab Hba Hww Hrr Hwa Hwb Hx Hsa Hsb] Hf.
  pose proof (dir_recv _ _ _ _ _ _ fuel Hab Hsb Hf) as (Hr & He & Hd & [Htx Hrp] & Hw & Hst & Hts).
  unfold after_receive, receive_status. rewrite Hr. set (g := run_st _ _) in *. rewrite He.
  pose proof Htx as [= E1 E2 E3 E4 E5 E6]. constructor;
    cbn [r_words r_elems r_a r_b r_sent r_recv r_sent' r_recv']; try done.
  - by destruct (drop _ _) as [|[m|] rest].
  - apply (dir_inv_frame _ _ _ _ _ _ _ _ _ _ Hba); try done.
    + apply Hw. exact Hwb.
    + apply Hw. exact Hrr.
  - by rewrite E3.
  - by rewrite Hrp.
  - by rewrite E3, Hrp.
  - intros x. destruct (Hx x) as [H|H]; [by left|right].
    apply (beyond_same (hq (r_b s))); [done|by rewrite E4..|done].
Qed.

Lemma flight_addr_inside words elems ma mb sent recv k :
  dir_inv words elems ma mb sent recv → ¬ beyond (hq ma) (flight_addr (hq mb) k).
Proof.
  intros [Hi _ _ _]. destruct (sender_at _ Hi) as (_ & Hc & _ & _ & Hm). cbn in Hc, Hm.
  pose proof (mi_linked _ Hi) as [_ _ _ _ _ Hen Hcn Hsz _]. cbn in Hen, Hcn, Hsz.
  unfold beyond, flight_addr. rewrite Hen, Hcn, Hsz.
  pose proof (Z.mod_pos_bound (rxReadPtr (hq mb) + Z.of_nat k) (msgCount (tx (hq ma))) ltac:(lia)). nia.
Qed.

Lemma rpc_move_inv s s' : rpc_inv s → rpc_move s s' → rpc_inv s'.
Proof.
  intros Hs Hm. destruct Hm as [inject l s Hl|fuel s Hf|j v msg rest s Hsent Hj Hoff Hv x Hne].
  - by apply rpc_inv_send.
  - by apply rpc_inv_receive.
  - destruct Hs as [Hab Hba Hww Hrr Hwa Hwb Hx Hsa Hsb]. rewrite Hsent in Hab.
    pose proof (flight_addr_inside _ _ _ _ _ _ (4 * j / page_bytes) Hab) as Hin. fold x in Hin.
    constructor; try done; cbn [r_words r_elems r_a r_b r_sent r_recv r_sent' r_recv'].
    + by apply (dir_corrupt _ _ _ _ _ msg).
    + apply (dir_inv_frame _ _ _ _ _ _ _ _ _ _ Hba); try done.
      intros y Hy. apply fn_lookup_insert_ne. intros <-. by destruct (Hx x).
Qed.

Lemma rpc_step_inv s s' : rpc_inv s → rpc_step s s' → rpc_inv s'.
Proof.
  intros Hs [Hm|Hm]; [by eapply rpc_move_inv|].
  apply rpc_inv_turn in Hs. pose proof (rpc_inv_turn _ (rpc_move_inv _ _ Hs Hm)) as Ht. by destruct s'.
Qed.

Lemma rpc_reach_inv s s' : rpc_inv s → rtc rpc_step s s' → rpc_inv s'.
Proof. intros Hs Hr. induction Hr; eauto using rpc_step_inv. Qed.

(** * Setting up *)

(** The blocks of an end's two queues. *)
Definition command_block (m : MESSAGE_QUEUE_INFO) : block :=
  Block (pCommandQueue m) (commandQueueSize (mqi_params m)) queueElementSizeMin queueHeaderAlign queueElementAlign MSGQ_FLAGS_SWAP_RX.
Definition status_block (m : MESSAGE_QUEUE_INFO) : block :=
  Block (pStatusQueue m) (statusQueueSize (mqi_params m)) queueElementSizeMin queueHeaderAlign queueElementAlign MSGQ_FLAGS_SWAP_RX.

(** The other end: its commands are this end's statuses. *)
Definition peer (m : MESSAGE_QUEUE_INFO) : MESSAGE_QUEUE_INFO :=
  let p := mqi_params m in
  MQInfo (QueueParams (statusQueueSize p) (commandQueueSize p) (pageTableSize p) (pageTableEntryCount p))
    (pStatusQueue m) (pCommandQueue m) NULL NULL (msgqInit false false false false false) [] 0 0 0 false.

(** [_gspMsgQueueInit] has created this end's queue; the other end creates its own
    and links to this one's, then this end links. *)
Definition rpc_link (work : Z) (rounds rounds' : list link_round) (words : Z → Z) (elems : Z → list Z)
    (m : MESSAGE_QUEUE_INFO) : list (option Z) * rpc_sys :=
  let '(r1, g1, _) := _gspMsgQueueInit work (GqSt words elems (peer m)) in
  let '(r2, g2, _) := GspStatusQueueInit rounds' g1 in
  let '(r3, g3, _) := GspStatusQueueInit rounds (GqSt (g_words g2) (g_elems g2) m) in
  ([Some r1; r2; r3], Rpc (g_words g3) (g_elems g3) (g_mqi g3) (g_mqi g2) [] [] [] []).

(** The end that [_gspMsgQueueInit] leaves. *)
Record created_end (words : Z → Z) (m : MESSAGE_QUEUE_INFO) (mem : Z → Z) : Prop := {
  ce_valid : valid_block (command_block m) = true;
  ce_status : valid_block (status_block m) = true;
  ce_disjoint : disjoint_blocks (command_block m) (status_block m) = true;
  ce_hq : hq m = created (command_block m) init;
  ce_words : words = write_header (blk_header (command_block m)) (blk_base (command_block m)) mem;
  ce_seqs : txSeqNum m = 0 ∧ rxSeqNum m = 0;
  ce_stage : stage_sized m;
  ce_pos : 0 < pCommandQueue m ∧ 0 < pStatusQueue m }.

Lemma queue_init_at work words elems m :
  work ≠ NULL → valid_block (command_block m) = true →
  runs_to (_gspMsgQueueInit work)
    (λ r s', r = NV_OK ∧ ∃ m', s' = GqSt (write_header (blk_header (command_block m)) (blk_base (command_block m)) words) elems m' ∧
      hq m' = created (command_block m) init ∧ command_block m' = command_block m ∧ status_block m' = status_block m ∧
      pCommandQueue m' = pCommandQueue m ∧ pStatusQueue m' = pStatusQueue m ∧
      txSeqNum m' = txSeqNum m ∧ rxSeqNum m' = rxSeqNum m ∧ stage_sized m')
    (GqSt words elems m).
Proof.
  intros Hw Hv. unfold _gspMsgQueueInit. apply runs_to_modify. rewrite (proj2 (Z.eqb_neq work NULL) Hw).
  apply runs_to_tell, runs_to_modify, runs_to_modify, runs_to_modify, runs_to_gets. cbn [g_words g_elems g_mqi].
  set (m1 := set_hq _ _).
  destruct (create_run (command_block m) words init Hv eq_refl eq_refl eq_refl) as [es Hc].
  assert (∀ Q, Q 0 (GqSt (write_header (blk_header (command_block m)) (blk_base (command_block m)) words) elems
      (set_hq (created (command_block m) init) m1)) →
    runs_to (on_queue (create (command_block m))) Q (GqSt words elems m1)) as Hq.
  { intros Q HQ. unfold runs_to, run_val, run_st, on_queue. cbn [g_words g_elems g_mqi].
    change (hq m1) with init. by rewrite Hc. }
  apply runs_to_bind, Hq. cbn [Z.ltb Z.compare]. apply runs_to_ret. split; [done|]. eexists. split; [done|].
  split_and!; [done..|]. unfold stage_sized. cbn [pCmdQueueElement set_hq m1 set_work set_stage].
  rewrite length_replicate. unfold queueElementSizeMax, RM_PAGE_SIZE. lia.
Qed.

Lemma status_link_at rounds words elems m k :
  status_block m = k → valid_block k = true → rxLinked (hq m) = false → rxHdrOff (tx (hq m)) + 4 ≤ blk_entOff k →
  read_header words (blk_base k) = blk_header k →
  runs_to (GspStatusQueueInit rounds)
    (λ r s', r = Some NV_OK ∧ s' = GqSt (<[link_out k (hq m) := 0]> words) elems (set_hq (linked_to k (hq m)) m))
    (GqSt words elems m).
Proof.
  intros <- Hv Hr Hoff Hh. set (k := status_block m) in *. destruct (link_run k words (hq m) Hv Hr Hoff Hh) as [es Hl].
  assert (∀ Q, Q 0 (GqSt (<[link_out k (hq m) := 0]> words) elems (set_hq (linked_to k (hq m)) m)) →
    runs_to (on_queue (link k)) Q (GqSt words elems m)) as Hq.
  { intros Q HQ. unfold runs_to, run_val, run_st, on_queue. cbn [g_words g_elems g_mqi]. by rewrite Hl. }
  unfold GspStatusQueueInit. destruct rounds; cbn [status_link]; apply runs_to_gets, runs_to_bind, Hq; by split.
Qed.

Lemma rpc_link_run work rounds rounds' words elems m mem :
  created_end words m mem → work ≠ NULL →
  let ka := command_block m in
  let kb := status_block m in
  let '(rs, s) := rpc_link work rounds rounds' words elems m in
  rs = [Some NV_OK; Some NV_OK; Some NV_OK] ∧
  r_words s = st_mem (snd (fst (connect ka kb mem init init))) ∧ r_elems s = elems ∧
  hq (r_a s) = st_q (snd (fst (connect ka kb mem init init))) ∧ hq (r_b s) = st_q (snd (connect ka kb mem init init)) ∧
  txSeqNum (r_a s) = 0 ∧ rxSeqNum (r_a s) = 0 ∧ txSeqNum (r_b s) = 0 ∧ rxSeqNum (r_b s) = 0 ∧
  stage_sized (r_a s) ∧ stage_sized (r_b s) ∧
  r_sent s = [] ∧ r_recv s = [] ∧ r_sent' s = [] ∧ r_recv' s = [].
Proof.
  intros [Ha Hb Hd Hq -> [Hs1 Hs2] Hst _] Hw ka kb. fold ka kb in Ha, Hb, Hd, Hq |- *.
  assert (fresh init) as Hfr by by exists false, false, false, false, false.
  rewrite (connect_run ka kb Ha Hb Hd eq_refl mem init init Hfr Hfr). cbn [fst snd st_mem st_q].
  destruct (headers_written ka kb Ha Hb Hd mem) as [Hha Hhb].
  destruct (link_outs_apart ka kb Ha Hb Hd init init) as [_ Hout].
  destruct (connection_layout ka kb Ha Hb Hd) as (? & ? & ? & ? & ? & ? & _).
  assert (blk_rxOff ka = blk_rxOff kb) as Hoff by done. unfold rpc_link.
  pose proof (queue_init_at work (write_header (blk_header ka) (blk_base ka) mem) elems (peer m) Hw Hb) as HE1. unfold runs_to in HE1.
  rewrite (run_eta (_gspMsgQueueInit work)). destruct HE1 as [-> (mb & -> & Hqb & _ & Hsb & _ & _ & Ht1 & Hr1 & Hst1)].
  change (command_block (peer m)) with kb in *. change (status_block (peer m)) with ka in *.
  set (w1 := write_header (blk_header kb) _ _) in *.
  pose proof (status_link_at rounds' w1 elems mb ka Hsb Ha ltac:(by rewrite Hqb) ltac:(rewrite Hqb; cbn; lia) Hha) as HE2. unfold runs_to in HE2.
  rewrite (run_eta (GspStatusQueueInit rounds')). destruct HE2 as [-> ->]. cbn [g_words g_elems g_mqi]. rewrite Hqb.
  assert (read_header (<[link_out ka (created kb init) := 0]> w1) (blk_base kb) = blk_header kb) as Hh3.
  { etrans; [|exact Hhb]. apply read_header_ext. intros y Hy. apply fn_lookup_insert_ne, Hout. by right. }
  pose proof (status_link_at rounds (<[link_out ka (created kb init) := 0]> w1) elems m kb eq_refl Hb
    ltac:(by rewrite Hq) ltac:(rewrite Hq; cbn; lia) Hh3) as HE3. unfold runs_to in HE3.
  rewrite (run_eta (GspStatusQueueInit rounds)). destruct HE3 as [-> ->]. rewrite Hq. by split_and!.
Qed.

Lemma dir_inv_start words elems ma mb :
  mq_inv (MqSys words (hq ma) (hq mb) (slots_at elems (hq ma)) [] []) → 0 < pOurEntries (hq ma) →
  txSeqNum ma = 0 → rxSeqNum mb = 0 → dir_inv words elems ma mb [] [].
Proof.
  intros Hi Hpos Ht Hr. constructor; [by eapply ring_view_intro|done|by rewrite Hr|].
  exists []. rewrite Hr, Ht. split_and!; [done| |done|done]. by apply (flight_recv _ _ _ _ _ _ _ Hi).
Qed.

(** The elements of a queue lie in its block. *)
Lemma beyond_block k k' q x :
  valid_block k = true → x < blk_base k ∨ blk_base k + blk_size k ≤ x → beyond (linked_to k' (created k q)) x.
Proof.
  intros Hv Hx. pose proof (block_offsets k Hv) as (? & ? & ? & ? & ? & ? & ?). destruct (block_count k Hv).
  unfold beyond. cbn [pOurEntries tx linked_to linked_with created msgSize]. cbn [msgSize blk_header] in *. lia.
Qed.

Lemma rpc_link_inv work rounds rounds' words elems m mem :
  created_end words m mem → work ≠ NULL → rpc_inv (snd (rpc_link work rounds rounds' words elems m)).
Proof.
  intros Hce Hw. pose proof (rpc_link_run work rounds rounds' words elems m mem Hce Hw) as Hrun.
  destruct (rpc_link work rounds rounds' words elems m) as [rs s]. cbn [snd].
  destruct Hce as [Ha Hb Hd _ _ _ _ [Hp1 Hp2]]. set (ka := command_block m) in *. set (kb := status_block m) in *. cbn zeta in Hrun.
  assert (fresh init) as Hfr by by exists false, false, false, false, false.
  rewrite (connect_run ka kb Ha Hb Hd eq_refl mem init init Hfr Hfr) in Hrun. cbn [fst snd st_mem st_q] in Hrun.
  destruct Hrun as (_ & Hwords & Hel & Hqa & Hqb & Hta & Hra & Htb & Hrb & Hsa & Hsb & Hs1 & Hs2 & Hs3 & Hs4).
  assert (connectable ka kb init init (slots_at elems (linked_to kb (created ka init)))
    (slots_at elems (linked_to ka (created kb init)))) as Hco.
  { destruct (block_count ka Ha), (block_count kb Hb). constructor; try done; rewrite length_slots_at; cbn [tx linked_to linked_with created]; lia. }
  pose proof (connected_inv ka kb mem init init _ _ Hco) as Hdx. unfold connected in Hdx.
  rewrite (connect_run ka kb Ha Hb Hd eq_refl mem init init Hfr Hfr) in Hdx. cbn [st_mem st_q] in Hdx.
  destruct Hdx as [Hab Hba Hww Hrr Hwa Hwb].
  pose proof (block_offsets ka Ha) as (? & ? & ? & ? & ? & ? & ?). pose proof (block_offsets kb Hb) as (? & ? & ? & ? & ? & ? & ?).
  constructor; rewrite ?Hwords, ?Hel, ?Hqa, ?Hqb, ?Hs1, ?Hs2, ?Hs3, ?Hs4; try done.
  - apply dir_inv_start; [by rewrite Hqa, Hqb| |done|done]. rewrite Hqa. cbn. unfold ka in *. cbn in *. lia.
  - apply dir_inv_start; [by rewrite Hqa, Hqb| |done|done]. rewrite Hqb. cbn. unfold kb in *. cbn in *. lia.
  - intros x. unfold disjoint_blocks in Hd. rewrite orb_true_iff, !Z.leb_le in Hd.
    destruct (decide (x < blk_base ka ∨ blk_base ka + blk_size ka ≤ x)); [left|right]; apply beyond_block; done || lia.
Qed.

(** Everything GspMsgQueuesInit asks for succeeds, with a page-aligned mapping. *)
Record init_env_ok (env : init_env) : Prop := {
  eo_sizes : sizes_ok (ie_silicon env) (ie_reg env);
  eo_collection : ie_collection env ≠ NULL;
  eo_create : ie_create env = NV_OK;
  eo_alloc : alloc_pages env = NV_OK;
  eo_map : ie_map env = NV_OK;
  eo_va : 0 < ie_va env ∧ (4096 | ie_va env);
  eo_work : ie_work env ≠ NULL }.

Lemma queue_block_valid base sz :
  0 < base → (4096 | base) → 0x10000 ≤ sz < 2 ^ 32 →
  valid_block (Block base sz queueElementSizeMin queueHeaderAlign queueElementAlign MSGQ_FLAGS_SWAP_RX) = true.
Proof.
  intros Hb [x ->] Hsz. unfold valid_block, create_refused. cbn [blk_base blk_size blk_msgSize blk_hdrAlign blk_entryAlign].
  unfold queueHeaderAlign, queueElementAlign, queueElementSizeMin, RM_PAGE_SHIFT, RM_PAGE_SIZE, NULL.
  assert (Z.land (x * 4096) (4 - 1) = 0) as ->.
  { change (4 - 1) with (Z.ones 2). rewrite Z.land_ones by lia. change (2 ^ 2) with 4. zify_divmod. }
  rewrite (proj2 (Z.eqb_neq _ _)) by lia. cbn [txLinked init msgqInit]. unfold blk_entOff, blk_rxOff.
  cbn [blk_hdrAlign blk_entryAlign].
  rewrite (proj2 (Z.ltb_ge sz _)), (proj2 (Z.ltb_lt sz _)) by lia.
  change (NV_ALIGN_UP _ (Z.shiftl 1 12)) with 4096. rewrite (proj2 (Z.leb_le _ sz)) by lia. done.
Qed.

Lemma runs_to_on_rm {A B} c (m : prog gq_action gq_st A) (k : A * MESSAGE_QUEUE_COLLECTION → prog gq_action qs_state B) Q s :
  runs_to m (λ a g, runs_to (k (a, Collection (mc_ptr c) (mc_memdesc c) (mc_pages c) (mc_va c) (mc_pageTbl c) (mc_sharedMemPA c) (g_mqi g))) Q
    (Qs (g_words g) (g_elems g) (ppMQCollection s))) (GqSt (q_words s) (q_elems s) (mc_rm c)) →
  runs_to (on_rm c m ≫= k) Q s.
Proof. unfold runs_to. destruct (on_rm_run c m k s) as (-> & -> & _). done. Qed.

Lemma init_created env q :
  init_env_ok env → ppMQCollection q = None →
  runs_to (GspMsgQueuesInit env)
    (λ r q', r = NV_OK ∧ ∃ c mem, ppMQCollection q' = Some c ∧ created_end (q_words q') (mc_rm c) mem) q.
Proof.
  intros [Hsz Hcol Hcr Hal Hmap [Hva1 Hva2] Hwork] Hnone.
  unfold GspMsgQueuesInit. apply runs_to_gets. rewrite Hnone, (proj2 (Z.eqb_neq _ _) Hcol). apply runs_to_tell.
  rewrite Hcr, Hal, Hmap. cbn [negb Z.eqb NV_OK]. apply runs_to_tell, runs_to_tell.
  rewrite (proj2 (Z.eqb_neq (ie_va env) NULL)) by (unfold NULL; lia). apply runs_to_tell.
  set (p := _getMsgQueueParams (ie_silicon env) (ie_reg env)).
  destruct (params_sizes (ie_silicon env) (ie_reg env)) as (Hc1 & [x Hx] & Hc2 & [y Hy] & Hst & _).
  specialize (Hst Hsz). fold p in Hc1, Hx, Hc2, Hy, Hst.
  destruct (params_page_table (ie_silicon env) (ie_reg env)) as (Hn & Hpt & _). fold p in Hn, Hpt.
  assert (0 ≤ pageTableSize p ∧ (4096 | pageTableSize p)) as [Hpt0 Hpt4].
  { rewrite Hpt, Hn. split; [zify_divmod|by eexists]. }
  unfold init_queue. apply runs_to_modify, runs_to_on_rm. cbn [q_words q_elems mc_rm mqi_params zero_mqi].
  set (mem := zero_range 0 _ _ _). set (m := MQInfo p _ _ _ _ _ _ _ _ _ _).
  assert (valid_block (command_block m) = true) as Hva.
  { apply (queue_block_valid (ie_va env + pageTableSize p) (commandQueueSize p)); [lia|by apply Z.divide_add_r|lia]. }
  assert (valid_block (status_block m) = true) as Hvb.
  { apply (queue_block_valid (ie_va env + pageTableSize p + commandQueueSize p) (statusQueueSize p)); [lia| |lia].
    apply Z.divide_add_r; [by apply Z.divide_add_r|by rewrite Hx; eexists]. }
  eapply runs_to_mono; [by apply (queue_init_at (ie_work env) mem _ m)|].
  intros r g (-> & m' & -> & Hq & Hcb & Hsb & Hp1 & Hp2 & Ht & Hr & Hs). cbn [fst snd negb Z.eqb NV_OK].
  apply runs_to_modify, runs_to_ret. split; [done|]. eexists _, mem. split; [done|]. cbn [q_words mc_rm g_mqi g_words].
  constructor; rewrite ?Hcb, ?Hsb, ?Hp1, ?Hp2, ?Ht, ?Hr; try done.
  - unfold disjoint_blocks. cbn [blk_base blk_size command_block status_block pCommandQueue pStatusQueue mqi_params m].
    apply orb_true_iff. left. apply Z.leb_le. lia.
  - cbn [pCommandQueue pStatusQueue m]. lia.
Qed.

(** * Claims *)

(** What the ends see of a direction: the records received are a prefix of those
    sent, receiving returns what the next one deserves, and sending is refused only
    for a length out of range or lack of room. *)
Definition direction_ok (s : rpc_sys) : Prop :=
  r_recv s `prefix_of` r_sent s ∧
  (∀ fuel, (4 ≤ fuel)%nat → receive_status fuel s = Some (receive_result (drop (length (r_recv s)) (r_sent s)))) ∧
  (∀ inject l, stage_ok l →
    send_status inject l s =
      if length_bad l then NV_ERR_INVALID_PARAM_STRUCT
      else if free_pages (r_elems s) (hq (r_a s)) (hq (r_b s)) <? Z.of_nat (record_pages l) then NV_ERR_BUSY_RETRY else NV_OK).

Lemma rpc_inv_direction s : rpc_inv s → direction_ok s.
Proof.
  intros [Hab _ _ _ _ _ _ Hsa Hsb]. split_and!.
  - destruct Hab as [_ _ _ (pend & -> & _)]. by eexists.
  - intros fuel Hf. by destruct (dir_recv _ _ _ _ _ _ fuel Hab Hsb Hf) as (? & _).
  - intros inject l Hl. assert (dir_inv (r_words s) (r_elems s) (to_send inject l (r_a s)) (r_b s) (r_sent s) (r_recv s)) as Hab'.
    { destruct Hab as [? ? ? Hp]. by constructor. }
    by destruct (dir_send _ _ _ _ _ _ Hab' Hl) as (? & _).
Qed.


(** The retry loop ends: each round uses up a retry, or brings the sequence number
    nearer. *)
Lemma rx_loop_terminates fuel nRetries nMaxRetries diff status n s :
  is_u32 nRetries → is_u32 nMaxRetries → is_u32 diff →
  Z.max 0 (nMaxRetries - nRetries) + diff < Z.of_nat fuel →
  run_val (rx_loop fuel nRetries nMaxRetries diff status n) s ≠ None.
Proof.
  revert nRetries nMaxRetries diff status n s. induction fuel as [|fuel IH]; intros r N d st n s Hr HN Hd Hf; [unfold is_u32 in *; lia|].
  cbn [rx_loop]. destruct (Z.leb_spec N r) as [|Hlt]; [done|].
  assert (∀ st n s, run_val (rx_loop fuel (u32 (r + 1)) N d st n) s ≠ None) as Hretry.
  { intros. rewrite u32_small by (unfold is_u32 in *; lia). apply IH; unfold is_u32 in *; lia. }
  rewrite run_val_bind. destruct (run_val read_record s) as [[st' n']|]; [|done].
  destruct (negb (st' =? NV_OK)); [apply Hretry|]. rewrite run_val_bind. cbn [run_val run_st mqi_ gets fst snd].
  destruct (negb (record_intact _)); [apply Hretry|]. destruct (_ =? _); [done|].
  destruct (_ && _) eqn:Hold; [|apply Hretry]. apply andb_true_iff in Hold as [_ Hd'%Z.ltb_lt].
  rewrite run_val_bind. rewrite (u32_small (r + 1)) by (unfold is_u32 in *; lia).
  pose proof (u32_range (rxSeqNum (g_mqi (run_st read_record s)) - ld32 (pCmdQueueElement (g_mqi (run_st read_record s))) off_seqNum)) as Hdr.
  pose proof (u32_range (N + 1)) as HN1. apply IH; [unfold is_u32 in *; lia|done|done|].
  unfold is_u32 in *. unfold u32 in HN1, Hdr, Hd' |- *. zify_divmod.
Qed.


(** ** Records longer than the staging area *)

Lemma run_read words elems a mi q st (k : nat) :
  mq_inv (ring_view words elems a q) → 0 < pOurEntries a → (k < length (flight elems a q))%nat →
  let m := on_queue (msgqRxGetReadBuffer true (Z.of_nat k)) in
  let s := rx_at words elems mi q st in
  run_val m s ≠ NULL ∧ flight elems a q !! k = Some (elems (run_val m s)) ∧
  ∃ q', run_st m s = rx_at words elems mi q' st ∧ rx_keeps words elems a q q'.
Proof.
  intros Hi Hpos Hk. cbn zeta.
  destruct (read_at words elems a (set_stage (λ _, st) (set_hq q mi)) k Hi Hpos) as (q' & Hs & Hkeep & [[_ Hnone]|[Hne Hp]]).
  - apply lookup_ge_None in Hnone. cbn [hq set_stage set_hq] in Hnone. lia.
  - split; [done|]. split; [done|]. by exists q'.
Qed.

(** Each page that is in the ring and that the record claims is copied. *)
Lemma read_elements_copies words elems a mi (n i k : nat) q st :
  mq_inv (ring_view words elems a q) → 0 < pOurEntries a → (i ≤ k < i + n)%nat → (k < length (flight elems a q))%nat →
  StageCopy (Z.of_nat k * queueElementSizeMin) ∈ run_eff (read_elements (seq i n)) (rx_at words elems mi q st).
Proof.
  revert i q st. induction n as [|n IH]; intros i q st Hi Hpos Hk Hlen; [lia|]. cbn [seq read_elements].
  destruct (run_read words elems a mi q st i Hi Hpos ltac:(lia)) as (Hne & _ & q' & Hst & Hkeep).
  rewrite run_eff_bind, Hst, (proj2 (Z.eqb_neq _ NULL) Hne). apply elem_of_app. right.
  rewrite run_eff_bind. destruct (decide (i = k)) as [->|Hik].
  - apply elem_of_app. left. unfold stage_element. rewrite run_eff_tell. by left.
  - apply elem_of_app. right.
    apply (IH (S i) q'); [by destruct Hkeep|done|lia|by rewrite (rk_flight _ _ _ _ _ Hkeep)].
Qed.

(** GspMsgQueueReceiveStatus computes the number of pages of a record from the
    length word of its first page and checks that length only after it has copied
    the pages. When the word says more than 64 KiB and the ring holds the pages,
    it copies a page to the end of the 64 KiB staging area, over the metadata of
    the queue that follows it. *)
Theorem receive_overruns_staging words elems mb a first rest (len := ld32 first off_length)
    (Hinv : mq_inv (ring_view words elems a (hq mb))) (Hpos : 0 < pOurEntries a)
    (Hflight : flight elems a (hq mb) = first :: rest) (Hfirst : length first = page_bytes)
    (Hstage : stage_sized mb) (Hrest : 16 ≤ Z.of_nat (length rest))
    (Hlen : queueElementSizeMax < queueElementHdrSize + len < 2 ^ 32) fuel :
  StageCopy queueElementSizeMax ∈ run_eff (GspMsgQueueReceiveStatus (S fuel)) (GqSt words elems mb).
Proof.
  replace (GqSt words elems mb) with (rx_at words elems mb (hq mb) (pCmdQueueElement mb)) by by destruct mb.
  set (st := pCmdQueueElement mb) in *. unfold GspMsgQueueReceiveStatus. cbn [rx_loop Z.leb Z.compare]. rewrite !run_eff_bind.
  apply elem_of_app. left. apply elem_of_app. left. unfold read_record. rewrite run_eff_bind.
  destruct (run_read words elems a mb (hq mb) st 0 Hinv Hpos) as (Hne & Hp & q' & Hst & Hkeep); [rewrite Hflight; cbn; lia|].
  rewrite Hflight in Hp. apply (inj Some) in Hp. change (Z.of_nat 0) with 0 in Hne, Hp, Hst. rewrite Hst.
  rewrite (proj2 (Z.eqb_neq _ NULL) Hne). apply elem_of_app. right.
  set (p := run_val _ _) in *. rewrite run_eff_bind. apply elem_of_app. right.
  change (run_st (stage_element p 0) _) with (rx_at words elems mb q' (list_inserts (0 * page_bytes) (elems p) st)).
  unfold mqi_. rewrite run_eff_gets. cbn [g_mqi rx_at set_stage pCmdQueueElement]. rewrite <-Hp.
  assert (gspMsgQueueGetRpcMessageLength (list_inserts (0 * page_bytes) first st) = len) as ->.
  { unfold gspMsgQueueGetRpcMessageLength, len, ld32. f_equal. pose proof page_bytes_Z as Hpb.
    unfold stage_sized, queueElementSizeMax, RM_PAGE_SIZE in *. fold st in Hstage. rewrite inserts_split by lia.
    rewrite Nat.mul_0_l, take_0, app_nil_l, drop_app_le by (unfold off_length; lia).
    by rewrite take_app_le by (rewrite length_drop; unfold off_length; lia). }
  assert (17 ≤ gspMsgQueueBytesToElements (queueElementHdrSize + len)) as Hn.
  { unfold gspMsgQueueBytesToElements, queueElementSizeMax, queueElementHdrSize, queueElementSizeMin, RM_PAGE_SIZE, NV_CEIL in *.
    rewrite (u32_small (16 + len)) by (unfold is_u32; lia). rewrite u32_small by (unfold is_u32; zify_divmod). zify_divmod. }
  rewrite run_eff_bind. apply elem_of_app. left. change queueElementSizeMax with (Z.of_nat 16 * queueElementSizeMin).
  apply (read_elements_copies words elems a); [by destruct Hkeep|done|lia|].
  rewrite (rk_flight _ _ _ _ _ Hkeep), Hflight. cbn [length]. lia.
Qed.

(** The queue of a fresh GPU. *)
Definition ex_env : init_env := InitEnv true None 4096 NV_OK NV_OK NV_OK NV_OK 0x100000 (λ i, Z.of_nat i * 4096) 8192.
Definition ex_qs : qs_state := Qs (λ _, 0) (λ _, []) None.



(** A ring of 20 pages, 18 of them in use, each with a length of 64 KiB. *)
Definition ex_header : msgqTxHeader := TxHeader 0 86016 4096 20 18 1 32 4096.
Definition ex_sender : msgqMetadata :=
  Meta 0x1000 0 0x1020 0 0x2000 0 0x1020 0 0 0x1010 ex_header 0 1 true zeroHeader 0 0 false false false false false false false.
Definition ex_receiver : msgqMetadata :=
  Meta 0 0x1000 0 0x1020 0 0x2000 0 0x1010 0x1020 0 zeroHeader 0 0 false ex_header 0 0 true false false false false false false.
Definition ex_words (x : Z) : Z := if x =? 0x1010 then 18 else 0.
Definition ex_page : list Z := st32 off_length 0x10000 (replicate page_bytes 0).
Definition ex_mqi : MESSAGE_QUEUE_INFO :=
  MQInfo (_getMsgQueueParams true None) NULL NULL NULL NULL ex_receiver (replicate (Z.to_nat queueElementSizeMax) 0) 0 0 0 false.

Lemma ex_ring elems : mq_inv (ring_view ex_words elems ex_sender ex_receiver).
Proof. by constructor. Qed.

Lemma receive_overruns_staging_witness :
  StageCopy queueElementSizeMax ∈ run_eff (GspMsgQueueReceiveStatus 4) (GqSt ex_words (λ _, ex_page) ex_mqi).
Proof.
  assert (∀ X, flight (λ _, X) ex_sender ex_receiver = X :: replicate 17 X) as Hfl by reflexivity.
  pose proof page_bytes_Z as Hpb. unfold RM_PAGE_SIZE in Hpb.
  apply (receive_overruns_staging ex_words (λ _, ex_page) ex_mqi ex_sender ex_page (replicate 17 ex_page)).
  - apply ex_ring.
  - done.
  - apply Hfl.
  - unfold ex_page. by rewrite length_st32, length_replicate.
  - unfold stage_sized. cbn [pCmdQueueElement ex_mqi]. rewrite length_replicate, Z2Nat.id; [done|by unfold queueElementSizeMax, RM_PAGE_SIZE].
  - rewrite length_replicate. lia.
  - unfold ex_page. rewrite ld32_st32_eq by (rewrite length_replicate; unfold off_length; lia).
    by vm_compute.
Defined.
