(* ===== verification/RbTree.v ===== *)
(** * Search trees with a list: kernel-open/nvidia-uvm/uvm_rb_tree.c

    A tree of nodes and the list of the same nodes in order, as uvm_rb_tree.c and
    uvm_range_tree.c keep them. A node is a number. The rebalancing is the
    kernel's (linux/rbtree.h): [RbOps] are its functions, and [RbLaws] is what
    they are documented to keep, the order of the nodes. *)

From stdpp Require Import base numbers list gmap sorting.
From S2P Require Import Prelude.
#[local] Open Scope Z_scope.

Definition NV_ERR_IN_USE : Z := 0x17.

Inductive rbtree :=
| RbLeaf
| RbNode (l : rbtree) (x : nat) (r : rbtree).

Fixpoint inorder (t : rbtree) : list nat :=
  match t with
  | RbLeaf => []
  | RbNode l x r => inorder l ++ x :: inorder r
  end.

Class RbOps := {
  rb_insert_color : nat → rbtree → rbtree;
  rb_erase : nat → rbtree → rbtree }.

Class RbLaws `{!RbOps} : Prop := {
  insert_color_inorder x t : inorder (rb_insert_color x t) = inorder t;
  erase_inorder x t : NoDup (inorder t) → inorder (rb_erase x t) = filter (λ y, y ≠ x) (inorder t) }.

(** The tree and the list. *)
Record ltree := LTree {
  lt_root : rbtree;
  lt_head : list nat }.

Definition ltree_init : ltree := LTree RbLeaf [].

(** ** The kernel's list operations *)

Fixpoint list_next (x : nat) (l : list nat) : option nat :=
  match l with
  | [] => None
  | y :: l => if decide (x = y) then head l else list_next x l
  end.

Fixpoint list_prev_from (p : option nat) (x : nat) (l : list nat) : option nat :=
  match l with
  | [] => None
  | y :: l => if decide (x = y) then p else list_prev_from (Some y) x l
  end.

Definition list_prev : nat → list nat → option nat := list_prev_from None.

(** list_add_tail and list_add at an element. *)
Fixpoint list_add_before (p x : nat) (l : list nat) : list nat :=
  match l with
  | [] => []
  | y :: l => if decide (p = y) then x :: y :: l else y :: list_add_before p x l
  end.

Fixpoint list_add_after (p x : nat) (l : list nat) : list nat :=
  match l with
  | [] => []
  | y :: l => if decide (p = y) then y :: x :: l else y :: list_add_after p x l
  end.

(** ** Walking down

    [side x] is [Lt] to go left at [x], [Gt] to go right and [Eq] to stop. The
    result is the node found, and the last node passed. *)
Fixpoint tree_walk (side : nat → comparison) (t : rbtree) (parent : option nat) : option nat * option nat :=
  match t with
  | RbLeaf => (None, parent)
  | RbNode l x r =>
      match side x with
      | Lt => tree_walk side l (Some x)
      | Gt => tree_walk side r (Some x)
      | Eq => (Some x, parent)
      end
  end.

(** rb_link_node at the left or right link of [p], which it overwrites. *)
Fixpoint rb_link_at (p : nat) (left : bool) (x : nat) (t : rbtree) : rbtree :=
  match t with
  | RbLeaf => RbLeaf
  | RbNode l y r =>
      if decide (p = y) then
        if left then RbNode (RbNode RbLeaf x RbLeaf) y r else RbNode l y (RbNode RbLeaf x RbLeaf)
      else RbNode (rb_link_at p left x l) y (rb_link_at p left x r)
  end.

Section ops.
Context `{!RbOps}.

(** A node of an empty tree. *)
Definition ltree_add_root (x : nat) (T : ltree) : ltree :=
  LTree (rb_insert_color x (RbNode RbLeaf x RbLeaf)) (x :: lt_head T).

(** A node under [p]. *)
Definition ltree_add_at (p : nat) (left : bool) (x : nat) (T : ltree) : ltree :=
  LTree (rb_insert_color x (rb_link_at p left x (lt_root T)))
    (if left then list_add_before p x (lt_head T) else list_add_after p x (lt_head T)).

Definition ltree_remove (x : nat) (T : ltree) : ltree :=
  LTree (rb_erase x (lt_root T)) (filter (λ y, y ≠ x) (lt_head T)).
End ops.

(** Where [addr] is of the range of a node: left of it, right of it or in it. *)
Definition range_side (rng : nat → Z * Z) (addr : Z) (x : nat) : comparison :=
  if addr <? (rng x).1 then Lt else if addr >? (rng x).2 then Gt else Eq.

(** ** uvm_rb_tree

    A node's key is a field of it: [nodes] maps the nodes to their keys. *)
Definition uvm_rb_tree_node_t : Type := gmap nat Z.

Definition node_key (nodes : uvm_rb_tree_node_t) (x : nat) : Z := default 0 (nodes !! x).

Definition key_side (nodes : uvm_rb_tree_node_t) (key : Z) : nat → comparison :=
  range_side (λ x, (node_key nodes x, node_key nodes x)) key.

Definition uvm_rb_tree_init : ltree := ltree_init.

Definition uvm_rb_tree_first (T : ltree) : option nat := head (lt_head T).
Definition uvm_rb_tree_prev (T : ltree) (x : nat) : option nat := list_prev x (lt_head T).
Definition uvm_rb_tree_next (T : ltree) (x : nat) : option nat := list_next x (lt_head T).
Definition uvm_rb_tree_empty (T : ltree) : bool := bool_decide (lt_head T = []).

Record find_result := FindResult {
  fr_node : option nat;
  fr_parent : option nat;
  fr_next : option nat }.

Definition uvm_rb_tree_find_node (nodes : uvm_rb_tree_node_t) (T : ltree) (key : Z) : find_result :=
  let '(node, parent) := tree_walk (key_side nodes key) (lt_root T) None in
  let next :=
    match node, parent with
    | Some x, _ => uvm_rb_tree_next T x
    | None, Some p => if node_key nodes p >? key then Some p else uvm_rb_tree_next T p
    | None, None => None
    end in
  FindResult node parent next.

Definition uvm_rb_tree_find (nodes : uvm_rb_tree_node_t) (T : ltree) (key : Z) : option nat :=
  fr_node (uvm_rb_tree_find_node nodes T key).

Section rb_ops.
Context `{!RbOps}.

Definition uvm_rb_tree_insert (nodes : uvm_rb_tree_node_t) (T : ltree) (x : nat) : Z * ltree :=
  let key := node_key nodes x in
  let f := uvm_rb_tree_find_node nodes T key in
  match fr_node f with
  | Some _ => (NV_ERR_IN_USE, T)
  | None =>
      match fr_parent f with
      | None => (NV_OK, ltree_add_root x T)
      | Some p => (NV_OK, ltree_add_at p (key <? node_key nodes p) x T)
      end
  end.

Definition uvm_rb_tree_remove (x : nat) (T : ltree) : ltree := ltree_remove x T.
End rb_ops.

(** * Lemmas *)

Lemma rb_link_at_notin p left x t : p ∉ inorder t → rb_link_at p left x t = t.
Proof.
  induction t as [|l IHl y r IHr]; simpl; [done|]. intros Hp.
  rewrite decide_False by set_solver. rewrite IHl, IHr by set_solver. done.
Qed.

Lemma app_split {A} (P : A → Prop) (l r a b : list A) y : l ++ y :: r = a ++ b → Forall P a → ¬ P y →
  ∃ k, l = a ++ k ∧ b = k ++ y :: r.
Proof.
  intros Heq Ha Hy. apply app_eq_inv in Heq as [(k & -> & ->)|(k & -> & Hk)]; [by exists k|].
  destruct k as [|z k]; [exists []; by rewrite !app_nil_r|]. simplify_eq/=.
  apply Forall_app in Ha as [_ Ha%Forall_cons]. by destruct Ha.
Qed.

Lemma app_split_r {A} (P : A → Prop) (l r a b : list A) y : l ++ y :: r = a ++ b → Forall P b → ¬ P y →
  ∃ k, r = k ++ b ∧ a = l ++ y :: k.
Proof.
  intros Heq Hb Hy. apply app_eq_inv in Heq as [(k & -> & ->)|(k & -> & Hk)].
  - apply Forall_app in Hb as [_ Hb%Forall_cons]. by destruct Hb.
  - destruct k as [|z k]; simplify_eq/=; [|by exists k]. apply Forall_cons in Hb. by destruct Hb.
Qed.

(** What a walk finds: [a] is left of the target, [m] at it and [b] right of it. *)
Record sided (side : nat → comparison) (l a m b : list nat) : Prop := {
  sd_eq : l = a ++ m ++ b;
  sd_left : Forall (λ x, side x = Gt) a;
  sd_at : Forall (λ x, side x = Eq) m;
  sd_right : Forall (λ x, side x = Lt) b }.

Lemma sided_left side l y r a m b : sided side (l ++ y :: r) a m b → side y = Lt →
  ∃ k, b = k ++ y :: r ∧ sided side l a m k.
Proof.
  intros [Heq Ha Hm Hb] Hy. rewrite (assoc_L (++)) in Heq.
  apply (app_split (λ z, side z ≠ Lt)) in Heq as (k & Hl & ->); [| |intros H; by apply H].
  - exists k. split; [done|]. apply Forall_app in Hb as [Hb _]. by split; [rewrite Hl, <-(assoc_L (++))|..].
  - apply Forall_app. split; (eapply Forall_impl; [done|]); simpl; congruence.
Qed.

Lemma sided_right side l y r a m b : sided side (l ++ y :: r) a m b → side y = Gt →
  ∃ k, a = l ++ y :: k ∧ sided side r k m b.
Proof.
  intros [Heq Ha Hm Hb] Hy.
  apply (app_split_r (λ z, side z ≠ Gt)) in Heq as (k & Hr & ->); [| |intros H; by apply H].
  - exists k. split; [done|]. apply Forall_app in Ha as [_ Ha]. by split; [|inversion Ha|..].
  - apply Forall_app. split; (eapply Forall_impl; [done|]); simpl; congruence.
Qed.

Lemma sided_at side l y r a m b : sided side (l ++ y :: r) a m b → side y = Eq → y ∈ m.
Proof.
  intros [Heq Ha Hm Hb] Hy. rewrite Forall_forall in Ha, Hb.
  assert (y ∈ a ++ m ++ b) as Hin by (rewrite <-Heq; set_solver).
  apply elem_of_app in Hin as [Hin%Ha|[Hin|Hin%Hb]%elem_of_app]; [congruence|done|congruence].
Qed.

Lemma tree_walk_found side t par a x b : sided side (inorder t) a [x] b → (tree_walk side t par).1 = Some x.
Proof.
  revert par a b. induction t as [|l IHl y r IHr]; intros par a b Hs; simpl in *.
  { destruct Hs as [Heq _ _ _]. by destruct a. }
  destruct (side y) eqn:Hy.
  - apply sided_at in Hs; [|done]. apply list_elem_of_singleton in Hs. by subst.
  - apply sided_left in Hs as (k & -> & Hs); [|done]. by eapply IHl.
  - apply sided_right in Hs as (k & -> & Hs); [|done]. by eapply IHr.
Qed.

(** [p] is the neighbour a new node between [a] and [b] is linked to. *)
Definition hangs (a b : list nat) (p : nat) (left : bool) : Prop :=
  if left then head b = Some p else last a = Some p.

Lemma tree_walk_parent side t par a b : NoDup (inorder t) → sided side (inorder t) a [] b →
  (tree_walk side t par).1 = None ∧
  ((t = RbLeaf ∧ (tree_walk side t par).2 = par) ∨
   ∃ p left, (tree_walk side t par).2 = Some p ∧ p ∈ inorder t ∧ hangs a b p left ∧
     ∀ x, inorder (rb_link_at p left x t) = a ++ x :: b).
Proof.
  revert par a b. induction t as [|l IHl y r IHr]; intros par a b Hnd Hs; simpl in *; [by auto|].
  apply NoDup_app in Hnd as (Hndl & Hdisj & Hndr). apply NoDup_cons in Hndr as [Hyr Hndr].
  assert (y ∉ inorder l) as Hyl by (intros H; apply (Hdisj _ H); set_solver).
  destruct (side y) eqn:Hy.
  - apply sided_at in Hs; [|done]. by apply elem_of_nil in Hs.
  - apply sided_left in Hs as (k & -> & Hs); [|done].
    destruct (IHl (Some y) a k Hndl Hs) as [-> Hp]. split; [done|]. right.
    destruct Hp as [[-> ->]|(p & left & -> & Hp & Hh & Hl)].
    + exists y, true. destruct Hs as [Heq _ _ _]. destruct a, k; simplify_eq/=.
      split_and!; [done|set_solver|done|]. intros x. by rewrite decide_True.
    + exists p, left. split_and!; [done|set_solver| |].
      * destruct left; [|done]. simpl in *. by destruct k.
      * intros x. rewrite decide_False by (intros ->; done). simpl.
        rewrite Hl, (rb_link_at_notin _ _ _ r), <-(assoc_L (++)); [done|].
        intros H. apply (Hdisj _ Hp). set_solver.
  - apply sided_right in Hs as (k & -> & Hs); [|done].
    destruct (IHr (Some y) k b Hndr Hs) as [-> Hp]. split; [done|]. right.
    destruct Hp as [[-> ->]|(p & left & -> & Hp & Hh & Hl)].
    + exists y, false. destruct Hs as [Heq _ _ _]. destruct k, b; simplify_eq/=.
      split_and!; [done|set_solver|by apply last_snoc|]. intros x. rewrite decide_True by done. simpl.
      by rewrite <-(assoc_L (++)).
    + exists p, left. split_and!; [done|set_solver| |].
      * destruct left; [done|]. simpl in *. by rewrite last_app, last_cons, Hh.
      * intros x. rewrite decide_False by (intros ->; done). simpl.
        rewrite Hl, (rb_link_at_notin _ _ _ l), <-(assoc_L (++)); [done|].
        intros H. apply (Hdisj _ H). set_solver.
Qed.

Lemma list_add_before_app p x a b : p ∉ a → list_add_before p x (a ++ p :: b) = a ++ x :: p :: b.
Proof.
  induction a as [|y a IH]; intros Hp; simpl; [by rewrite decide_True|].
  rewrite decide_False, IH by set_solver. done.
Qed.

Lemma list_add_after_app p x a b : p ∉ a → list_add_after p x (a ++ p :: b) = a ++ p :: x :: b.
Proof.
  induction a as [|y a IH]; intros Hp; simpl; [by rewrite decide_True|].
  rewrite decide_False, IH by set_solver. done.
Qed.

Lemma list_next_app p a b : p ∉ a → list_next p (a ++ p :: b) = head b.
Proof.
  induction a as [|y a IH]; intros Hp; simpl; [by rewrite decide_True|].
  rewrite decide_False, IH by set_solver. done.
Qed.

Lemma list_prev_from_app q p a b : p ∉ a →
  list_prev_from q p (a ++ p :: b) = match last a with Some y => Some y | None => q end.
Proof.
  revert q. induction a as [|y a IH]; intros q Hp; simpl; [by rewrite decide_True|].
  rewrite decide_False, IH by set_solver. rewrite last_cons. by destruct (last a).
Qed.

Lemma list_prev_app p a b : p ∉ a → list_prev p (a ++ p :: b) = last a.
Proof. intros Hp. unfold list_prev. rewrite list_prev_from_app by done. by destruct (last a). Qed.

Lemma filter_neq_notin (x : nat) (l : list nat) : x ∉ l → filter (λ y, y ≠ x) l = l.
Proof.
  induction l as [|y l IH]; intros Hx; [done|].
  rewrite filter_cons_True by set_solver. by rewrite IH by set_solver.
Qed.

Lemma filter_neq_mid (x : nat) (a b : list nat) : NoDup (a ++ x :: b) → filter (λ y, y ≠ x) (a ++ x :: b) = a ++ b.
Proof.
  intros Hnd. rewrite filter_app, filter_cons_False by auto.
  apply NoDup_app in Hnd as (_ & Hd & Hnd). apply NoDup_cons in Hnd as [Hxb _].
  rewrite !filter_neq_notin; [done|done|]. intros Hx. apply (Hd x Hx). set_solver.
Qed.

(** ** The tree and its list *)

Record lt_ok (T : ltree) : Prop := {
  lt_same : inorder (lt_root T) = lt_head T;
  lt_nodup : NoDup (lt_head T) }.

Lemma lt_ok_init : lt_ok ltree_init.
Proof. split; [done|constructor]. Qed.

Section laws.
Context `{!RbOps, !RbLaws}.

Lemma ltree_add_root_ok T x : lt_head T = [] →
  lt_head (ltree_add_root x T) = [x] ∧ lt_ok (ltree_add_root x T).
Proof.
  intros HT. unfold ltree_add_root. rewrite HT. split; [done|]. split; simpl.
  - by rewrite insert_color_inorder.
  - apply NoDup_singleton.
Qed.

Lemma ltree_add_at_ok T x p left a b : lt_ok T → lt_head T = a ++ b → x ∉ lt_head T → hangs a b p left →
  inorder (rb_link_at p left x (lt_root T)) = a ++ x :: b →
  lt_head (ltree_add_at p left x T) = a ++ x :: b ∧ lt_ok (ltree_add_at p left x T).
Proof.
  intros [Hsame Hnd] Hab Hx Hh Hl. rewrite Hab in *.
  assert (lt_head (ltree_add_at p left x T) = a ++ x :: b) as Hhd.
  { simpl. rewrite Hab. destruct left; simpl in Hh.
    - destruct b as [|p' b]; simplify_eq/=. rewrite list_add_before_app; [done|].
      apply NoDup_app in Hnd as (_ & Hd & _). intros Hp. apply (Hd p Hp). set_solver.
    - apply last_Some in Hh as [a' ->]. rewrite <-!(assoc_L (++)). simpl.
      rewrite list_add_after_app; [done|].
      rewrite <-(assoc_L (++)) in Hnd. apply NoDup_app in Hnd as (_ & Hd & _).
      intros Hp. apply (Hd p Hp). set_solver. }
  split; [done|]. split; rewrite Hhd; [simpl; by rewrite insert_color_inorder|].
  rewrite <-Permutation_middle. by apply NoDup_cons.
Qed.

Lemma ltree_remove_ok T x : lt_ok T →
  lt_head (ltree_remove x T) = filter (λ y, y ≠ x) (lt_head T) ∧ lt_ok (ltree_remove x T).
Proof.
  intros [Hsame Hnd]. split; [done|]. split; simpl.
  - rewrite erase_inorder by (by rewrite Hsame). by rewrite Hsame.
  - by apply NoDup_filter.
Qed.

End laws.

(** ** Ranges in order *)

Definition rng_before (rng : nat → Z * Z) (x y : nat) : Prop := (rng x).2 < (rng y).1.

Record in_order (rng : nat → Z * Z) (l : list nat) : Prop := {
  io_sorted : StronglySorted (rng_before rng) l;
  io_range : Forall (λ x, (rng x).1 ≤ (rng x).2) l }.

Section order.
Context (rng : nat → Z * Z).

Lemma range_side_Lt addr x : range_side rng addr x = Lt ↔ addr < (rng x).1.
Proof. unfold range_side. destruct (Z.ltb_spec addr (rng x).1), (Z.gtb_spec addr (rng x).2); split; (done || lia). Qed.

Lemma range_side_Gt addr x : (rng x).1 ≤ (rng x).2 → range_side rng addr x = Gt ↔ (rng x).2 < addr.
Proof. unfold range_side. destruct (Z.ltb_spec addr (rng x).1), (Z.gtb_spec addr (rng x).2); split; (done || lia). Qed.

Lemma range_side_Eq addr x : range_side rng addr x = Eq ↔ (rng x).1 ≤ addr ≤ (rng x).2.
Proof. unfold range_side. destruct (Z.ltb_spec addr (rng x).1), (Z.gtb_spec addr (rng x).2); split; (done || lia). Qed.

Lemma in_order_cons x l : in_order rng (x :: l) ↔
  (rng x).1 ≤ (rng x).2 ∧ Forall (rng_before rng x) l ∧ in_order rng l.
Proof.
  split.
  - intros [Hs Hr]. inversion Hs; subst. inversion Hr; subst. by repeat split.
  - intros (H1 & H2 & [H3 H4]). by split; constructor.
Qed.

Lemma in_order_app a b : in_order rng (a ++ b) ↔
  in_order rng a ∧ in_order rng b ∧ ∀ x y, x ∈ a → y ∈ b → rng_before rng x y.
Proof.
  split.
  - intros [Hs Hr]. apply StronglySorted_app in Hs as (? & ? & ?). apply Forall_app in Hr as [??]. by repeat split.
  - intros ([??] & [??] & ?). split; [by apply StronglySorted_app|by apply Forall_app].
Qed.

(** An address splits the ranges in order. *)
Lemma sided_exists addr l : in_order rng l → ∃ a m b, sided (range_side rng addr) l a m b ∧ (m = [] ∨ ∃ x, m = [x]).
Proof.
  induction l as [|x l IH]; intros Hl.
  { exists [], [], []. split; [by split|auto]. }
  apply in_order_cons in Hl as (Hx & Hlt & Hl). destruct (range_side rng addr x) eqn:Hside.
  - exists [], [x], l. split; [|eauto]. split; [done|done|by apply Forall_singleton|].
    apply range_side_Eq in Hside. eapply Forall_impl; [done|]. intros y Hy. apply range_side_Lt. unfold rng_before in Hy. lia.
  - exists [], [], (x :: l). split; [|eauto]. split; [done|done|done|]. constructor; [done|].
    apply range_side_Lt in Hside. eapply Forall_impl; [done|]. intros y Hy. apply range_side_Lt. unfold rng_before in Hy. lia.
  - destruct (IH Hl) as (a & m & b & [-> Ha Hm Hb] & Hm'). exists (x :: a), m, b. split; [|done].
    split; [done|by constructor|done|done].
Qed.

(** The parts of a split, by the ranges. *)
Record splits (addr : Z) (l a m b : list nat) : Prop := {
  sp_eq : l = a ++ m ++ b;
  sp_left x : x ∈ a → (rng x).2 < addr;
  sp_at x : x ∈ m → (rng x).1 ≤ addr ≤ (rng x).2;
  sp_right x : x ∈ b → addr < (rng x).1 }.

Lemma sided_splits addr l a m b : in_order rng l → sided (range_side rng addr) l a m b → splits addr l a m b.
Proof.
  intros [_ Hr] [-> Ha Hm Hb]. rewrite Forall_forall in *. split; [done|..]; intros x Hx.
  - apply range_side_Gt; [apply Hr; set_solver|by apply Ha].
  - by apply range_side_Eq, Hm.
  - by apply range_side_Lt, Hb.
Qed.

Lemma walk_none T addr : lt_ok T → in_order rng (lt_head T) →
  (∀ x, x ∈ lt_head T → ¬ ((rng x).1 ≤ addr ≤ (rng x).2)) →
  ∃ a b, splits addr (lt_head T) a [] b ∧
    ((lt_head T = [] ∧ tree_walk (range_side rng addr) (lt_root T) None = (None, None)) ∨
     ∃ p left, tree_walk (range_side rng addr) (lt_root T) None = (None, Some p) ∧ hangs a b p left ∧
       ∀ x, inorder (rb_link_at p left x (lt_root T)) = a ++ x :: b).
Proof.
  intros [Hsame Hnd] Hio Hno. destruct (sided_exists addr _ Hio) as (a & m & b & Hs & Hm).
  pose proof (sided_splits _ _ _ _ _ Hio Hs) as Hsp.
  destruct Hm as [->|[x ->]].
  2: { exfalso. apply (Hno x); [rewrite (sp_eq _ _ _ _ _ Hsp)|apply (sp_at _ _ _ _ _ Hsp)]; set_solver. }
  exists a, b. split; [done|]. rewrite <-Hsame in Hs, Hnd.
  destruct (tree_walk_parent _ _ None _ _ Hnd Hs) as [Hw [[Ht Hp]|(p & left & Hp & _ & Hh & Hl)]].
  - left. split; [by rewrite <-Hsame, Ht|]. rewrite (surjective_pairing (tree_walk _ _ _)). congruence.
  - right. exists p, left. split; [|done]. rewrite (surjective_pairing (tree_walk _ _ _)). congruence.
Qed.

Lemma walk_some T addr : lt_ok T → in_order rng (lt_head T) →
  ∀ x, x ∈ lt_head T → (rng x).1 ≤ addr ≤ (rng x).2 →
  (tree_walk (range_side rng addr) (lt_root T) None).1 = Some x.
Proof.
  intros [Hsame Hnd] Hio x Hx Hin. destruct (sided_exists addr _ Hio) as (a & m & b & Hs & Hm).
  pose proof (sided_splits _ _ _ _ _ Hio Hs) as [Heq Ha Hat Hb].
  assert (x ∈ m) as Hxm.
  { rewrite Heq in Hx. apply elem_of_app in Hx as [Hx%Ha|[Hx|Hx%Hb]%elem_of_app]; [lia|done|lia]. }
  destruct Hm as [->|[y ->]]; [by apply elem_of_nil in Hxm|]. apply list_elem_of_singleton in Hxm as ->.
  rewrite <-Hsame in Hs. by eapply tree_walk_found.
Qed.

(** The node a walk finds is the one whose range has the address. *)
Lemma walk_iff T addr x : lt_ok T → in_order rng (lt_head T) →
  (tree_walk (range_side rng addr) (lt_root T) None).1 = Some x ↔
  x ∈ lt_head T ∧ (rng x).1 ≤ addr ≤ (rng x).2.
Proof.
  intros Hok Hio. split; [|intros []; by eapply walk_some].
  intros Hw. destruct (sided_exists addr _ Hio) as (a & m & b & Hs & Hm).
  pose proof (sided_splits _ _ _ _ _ Hio Hs) as [Heq Ha Hat Hb].
  pose proof Hok as [Hsame Hnd]. rewrite <-Hsame in Hs, Hnd. destruct Hm as [->|[y ->]].
  - destruct (tree_walk_parent _ _ None _ _ Hnd Hs) as [Hw' _]. congruence.
  - rewrite (tree_walk_found _ _ _ _ _ _ Hs) in Hw. simplify_eq. rewrite Heq. split; [set_solver|]. apply Hat. set_solver.
Qed.
End order.

(** ** uvm_rb_tree is a map from keys to nodes *)

(** What a client does: insert a node, take out the node of a key, look a key up. *)
Inductive rb_op :=
| RbInsert (x : nat)
| RbErase (key : Z)
| RbFind (key : Z).

Inductive rb_res :=
| RbStatus (status : Z)
| RbNodeOf (x : option nat).

Section session.
Context `{!RbOps}.
Context (nodes : uvm_rb_tree_node_t).

Definition rb_step (T : ltree) (op : rb_op) : rb_res * ltree :=
  match op with
  | RbInsert x => let '(st, T') := uvm_rb_tree_insert nodes T x in (RbStatus st, T')
  | RbErase key =>
      let n := uvm_rb_tree_find nodes T key in
      (RbNodeOf n, match n with Some x => uvm_rb_tree_remove x T | None => T end)
  | RbFind key => (RbNodeOf (uvm_rb_tree_find nodes T key), T)
  end.

Fixpoint rb_session (T : ltree) (ops : list rb_op) : list rb_res * ltree :=
  match ops with
  | [] => ([], T)
  | op :: ops =>
      let '(r, T) := rb_step T op in
      let '(rs, T) := rb_session T ops in (r :: rs, T)
  end.

Definition map_step (M : gmap Z nat) (op : rb_op) : rb_res * gmap Z nat :=
  match op with
  | RbInsert x =>
      match M !! node_key nodes x with
      | Some _ => (RbStatus NV_ERR_IN_USE, M)
      | None => (RbStatus NV_OK, <[node_key nodes x := x]> M)
      end
  | RbErase key => (RbNodeOf (M !! key), delete key M)
  | RbFind key => (RbNodeOf (M !! key), M)
  end.

Fixpoint map_session (M : gmap Z nat) (ops : list rb_op) : list rb_res * gmap Z nat :=
  match ops with
  | [] => ([], M)
  | op :: ops =>
      let '(r, M) := map_step M op in
      let '(rs, M) := map_session M ops in (r :: rs, M)
  end.
End session.

Definition key_rng (nodes : uvm_rb_tree_node_t) (x : nat) : Z * Z := (node_key nodes x, node_key nodes x).

Record rb_inv (nodes : uvm_rb_tree_node_t) (T : ltree) : Prop := {
  rbi_ok : lt_ok T;
  rbi_order : in_order (key_rng nodes) (lt_head T) }.

(** The tree holds the map. *)
Record rb_abs (nodes : uvm_rb_tree_node_t) (T : ltree) (M : gmap Z nat) : Prop := {
  rba_inv : rb_inv nodes T;
  rba_map k x : M !! k = Some x ↔ x ∈ lt_head T ∧ node_key nodes x = k }.

Lemma rb_find_iff nodes T key x : rb_inv nodes T →
  uvm_rb_tree_find nodes T key = Some x ↔ x ∈ lt_head T ∧ node_key nodes x = key.
Proof.
  intros [Hok Hio]. pose proof (walk_iff (key_rng nodes) T key x Hok Hio) as Hw.
  unfold uvm_rb_tree_find, uvm_rb_tree_find_node, key_side.
  fold (key_rng nodes). change (λ x, (node_key nodes x, node_key nodes x)) with (key_rng nodes).
  destruct (tree_walk _ _ _) as [n p]. simpl in *. rewrite Hw. split; intros [? ?]; split; (done || lia).
Qed.

Lemma rb_find_abs nodes T M key : rb_abs nodes T M → uvm_rb_tree_find nodes T key = M !! key.
Proof. intros [Hinv Hm]. apply option_eq. intros x. by rewrite rb_find_iff, Hm. Qed.

Section rb_laws.
Context `{!RbOps, !RbLaws}.
Context (nodes : uvm_rb_tree_node_t).
Implicit Types (T : ltree) (M : gmap Z nat).

Lemma in_order_insert (rng : nat → Z * Z) a b x : in_order rng (a ++ b) → (rng x).1 ≤ (rng x).2 →
  (∀ y, y ∈ a → rng_before rng y x) → (∀ y, y ∈ b → rng_before rng x y) → in_order rng (a ++ x :: b).
Proof.
  intros (Ha & Hb & Hab)%in_order_app Hx Hax Hxb. apply in_order_app. split_and!; [done| |].
  - apply in_order_cons. split_and!; [done|by apply Forall_forall|done].
  - intros y z Hy [->|Hz]%elem_of_cons; auto.
Qed.

(** A key that is not in use: the node is put between the smaller and the larger. *)
Lemma rb_insert_free T x : rb_inv nodes T → (∀ y, y ∈ lt_head T → node_key nodes y ≠ node_key nodes x) →
  ∃ a b, lt_head T = a ++ b ∧ (uvm_rb_tree_insert nodes T x).1 = NV_OK ∧
    lt_head (uvm_rb_tree_insert nodes T x).2 = a ++ x :: b ∧ rb_inv nodes (uvm_rb_tree_insert nodes T x).2.
Proof.
  intros [Hok Hio] Hfree. set (key := node_key nodes x).
  assert (x ∉ lt_head T) as Hx by (intros Hx; by apply (Hfree x Hx)).
  destruct (walk_none (key_rng nodes) T key Hok Hio) as (a & b & Hsp & Hw).
  { intros y Hy. simpl. specialize (Hfree y Hy). subst key. lia. }
  pose proof Hsp as [Heq Ha _ Hb]. simpl in Heq, Ha, Hb. exists a, b.
  unfold uvm_rb_tree_insert, uvm_rb_tree_find_node, key_side. fold key.
  change (λ x, (node_key nodes x, node_key nodes x)) with (key_rng nodes).
  assert (in_order (key_rng nodes) (a ++ x :: b)) as Hio'.
  { apply in_order_insert; [by rewrite <-Heq|simpl; lia|done|done]. }
  destruct Hw as [[Hnil ->]|(p & left & -> & Hh & Hl)]; simpl.
  - rewrite Hnil in Heq. symmetry in Heq. apply app_eq_nil in Heq as [-> ->].
    destruct (ltree_add_root_ok T x Hnil) as [Hhd Hok']. split_and!; [done|done|done|]. split; [done|by rewrite Hhd].
  - assert ((key <? node_key nodes p) = left) as ->.
    { destruct left; simpl in Hh.
      - assert (p ∈ b) as Hp%Hb by (destruct b; simplify_eq/=; set_solver). by apply Z.ltb_lt.
      - apply last_Some in Hh as [a' ->]. apply Z.ltb_ge. assert (p ∈ a' ++ [p]) as Hp%Ha by set_solver. lia. }
    destruct (ltree_add_at_ok T x p left a b Hok Heq Hx Hh (Hl x)) as [Hhd Hok'].
    split_and!; [done|done|done|]. split; [done|by rewrite Hhd].
Qed.

Lemma rb_insert_used T x y : rb_inv nodes T → y ∈ lt_head T → node_key nodes y = node_key nodes x →
  uvm_rb_tree_insert nodes T x = (NV_ERR_IN_USE, T).
Proof.
  intros Hinv Hy Hk. unfold uvm_rb_tree_insert.
  assert (uvm_rb_tree_find nodes T (node_key nodes x) = Some y) as Hf by by apply rb_find_iff.
  unfold uvm_rb_tree_find in Hf. by rewrite Hf.
Qed.

Lemma in_order_remove (rng : nat → Z * Z) a x b : in_order rng (a ++ x :: b) → in_order rng (a ++ b).
Proof.
  intros (Ha & (_ & _ & Hb)%in_order_cons & Hab)%in_order_app. apply in_order_app.
  split_and!; [done|done|]. intros y z Hy Hz. apply Hab; set_solver.
Qed.

Lemma rb_remove_inv T x : rb_inv nodes T → x ∈ lt_head T → rb_inv nodes (uvm_rb_tree_remove x T).
Proof.
  intros [Hok Hio] Hx. destruct (ltree_remove_ok T x Hok) as [Hhd Hok'].
  split; [done|]. unfold uvm_rb_tree_remove. rewrite Hhd.
  apply list_elem_of_split in Hx as (a & b & Hab). pose proof (lt_nodup _ Hok) as Hnd. rewrite Hab in *.
  rewrite filter_neq_mid by done. by eapply in_order_remove.
Qed.

Lemma rb_step_abs T M op : rb_abs nodes T M →
  (rb_step nodes T op).1 = (map_step nodes M op).1 ∧ rb_abs nodes (rb_step nodes T op).2 (map_step nodes M op).2.
Proof.
  intros Habs. pose proof Habs as [Hinv Hm]. destruct op as [x|key|key]; simpl.
  - destruct (M !! node_key nodes x) as [y|] eqn:Hk.
    + apply Hm in Hk as [Hy Hk]. by rewrite (rb_insert_used T x y) by done.
    + destruct (rb_insert_free T x Hinv) as (a & b & Hab & Hst & Hhd & Hinv').
      { intros y Hy Hky. apply (not_elem_of_dom M (node_key nodes x)) in Hk. apply Hk, elem_of_dom. exists y. by apply Hm. }
      destruct (uvm_rb_tree_insert nodes T x) as [st T']. simpl in *. subst st. split; [done|].
      split; [done|]. intros k y. rewrite lookup_insert_Some, Hm, Hhd, Hab. set_unfold. split.
      * intros [[<- <-]|[Hne [Hy <-]]]; tauto.
      * intros [[Hy|[->|Hy]] <-]; [right; split; [|tauto]|by left|right; split; [|tauto]];
          intros Hne; assert (M !! node_key nodes y = Some y) by (apply Hm; rewrite Hab; set_solver); congruence.
  - rewrite (rb_find_abs _ _ M) by done. split; [done|]. destruct (M !! key) as [x|] eqn:Hk.
    2: { by rewrite delete_id. }
    pose proof Hk as [Hx Hkx]%Hm. split; [by apply rb_remove_inv|]. intros k y.
    rewrite lookup_delete_Some, Hm. simpl. rewrite list_elem_of_filter. split.
    + intros (Hne & Hy & Hky). split_and!; [|done|done]. intros ->. congruence.
    + intros ((Hne & Hy) & Hky). split_and!; [|done|done]. intros ->.
      apply Hne. assert (M !! k = Some y) by (by apply Hm). congruence.
  - by rewrite (rb_find_abs _ _ M) by done.
Qed.

Lemma rb_session_abs T M ops : rb_abs nodes T M →
  (rb_session nodes T ops).1 = (map_session nodes M ops).1 ∧
  rb_abs nodes (rb_session nodes T ops).2 (map_session nodes M ops).2.
Proof.
  revert T M. induction ops as [|op ops IH]; intros T M Habs; [done|]. simpl.
  destruct (rb_step_abs T M op Habs) as [Hr Habs'].
  destruct (rb_step nodes T op) as [r T'], (map_step nodes M op) as [r' M']. simpl in *. subst r'.
  specialize (IH T' M' Habs') as [Hrs Habs''].
  destruct (rb_session nodes T' ops), (map_session nodes M' ops). simpl in *. by rewrite Hrs.
Qed.
End rb_laws.

(** C32: Whatever nodes are inserted, looked up and taken out of a tree, it answers as a map from
    keys to nodes does, the insertion of a node whose key is in use changing nothing; and its list
    has exactly the nodes of the map, by increasing key. *)
Theorem rb_tree_refines_map `{!RbOps} (HL : RbLaws) (nodes : uvm_rb_tree_node_t) (ops : list rb_op) :
  let '(rs, T) := rb_session nodes uvm_rb_tree_init ops in
  let '(rs', M) := map_session nodes ∅ ops in
  rs = rs' ∧
  StronglySorted (λ x y, node_key nodes x < node_key nodes y) (lt_head T) ∧
  (∀ k x, M !! k = Some x ↔ x ∈ lt_head T ∧ node_key nodes x = k).
Proof.
  destruct (rb_session_abs nodes uvm_rb_tree_init ∅ ops) as [Hr [[_ [Hs _]] Hm]].
  { split; [split; [apply lt_ok_init|by split; constructor]|]. intros k x. rewrite lookup_empty. set_solver. }
  destruct (rb_session _ _ _), (map_session _ _ _). by split_and!.
Qed.

(** ** Functions that keep the laws *)

Fixpoint spine (l : list nat) : rbtree :=
  match l with
  | [] => RbLeaf
  | x :: l => RbNode RbLeaf x (spine l)
  end.

Lemma inorder_spine l : inorder (spine l) = l.
Proof. induction l as [|x l IH]; simpl; congruence. Qed.

#[export] Instance plain_ops : RbOps := {
  rb_insert_color x t := t;
  rb_erase x t := spine (filter (λ y, y ≠ x) (inorder t)) }.

#[export] Instance plain_laws : RbLaws.
Proof. split; [done|]. intros x t _. simpl. apply inorder_spine. Qed.

Definition rb_example_nodes : uvm_rb_tree_node_t :=
  list_to_map [(0%nat, 50); (1%nat, 20); (2%nat, 70); (3%nat, 20)].

Definition rb_example_ops : list rb_op :=
  [RbInsert 0; RbInsert 1; RbInsert 2; RbInsert 3; RbErase 50; RbFind 70; RbFind 50].

Lemma rb_tree_refines_map_witness :
  (rb_session rb_example_nodes uvm_rb_tree_init rb_example_ops).1 =
    [RbStatus NV_OK; RbStatus NV_OK; RbStatus NV_OK; RbStatus NV_ERR_IN_USE;
     RbNodeOf (Some 0%nat); RbNodeOf (Some 2%nat); RbNodeOf None] ∧
  lt_head (rb_session rb_example_nodes uvm_rb_tree_init rb_example_ops).2 = [1%nat; 2%nat] ∧
  let '(rs, T) := rb_session rb_example_nodes uvm_rb_tree_init rb_example_ops in
  let '(rs', M) := map_session rb_example_nodes ∅ rb_example_ops in
  rs = rs' ∧
  StronglySorted (λ x y, node_key rb_example_nodes x < node_key rb_example_nodes y) (lt_head T) ∧
  (∀ k x, M !! k = Some x ↔ x ∈ lt_head T ∧ node_key rb_example_nodes x = k).
Proof.
  split; [vm_compute; reflexivity|]. split; [vm_compute; reflexivity|].
  exact (rb_tree_refines_map plain_laws rb_example_nodes rb_example_ops).
Defined.
