(* ===== verification/RangeTree.v ===== *)
(** * Range trees: kernel-open/nvidia-uvm/uvm_range_tree.c and .h

    A tree of nodes with disjoint address ranges and the list of them in address
    order. The ranges are fields of the nodes, which the operations change in
    place: [rt_nodes] is the store of the nodes. An address is 64-bit and the end
    of a range is in it. The assertions, which do not stop the driver, are not part
    of the operations; [range_reach] has the ones on the arguments as conditions,
    and the lemmas show that the others hold. *)

From stdpp Require Import base numbers list gmap sorting relations.
From S2P Require Import Prelude RbTree.
#[local] Open Scope Z_scope.

Definition NV_ERR_UVM_ADDRESS_IN_USE : Z := 0x68.
Definition ULLONG_MAX : Z := 2 ^ 64 - 1.

Record uvm_range_tree_node_t := RangeNode {
  rn_start : Z;
  rn_end : Z }.

#[export] Instance range_node_eq_dec : EqDecision uvm_range_tree_node_t.
Proof. solve_decision. Defined.

Record uvm_range_tree_t := RangeTree {
  rt_tree : ltree;
  rt_nodes : gmap nat uvm_range_tree_node_t }.

Definition rt_node (S : uvm_range_tree_t) (x : nat) : uvm_range_tree_node_t :=
  default (RangeNode 0 0) (rt_nodes S !! x).

Definition rt_head (S : uvm_range_tree_t) : list nat := lt_head (rt_tree S).

Definition rt_set (x : nat) (n : uvm_range_tree_node_t) (S : uvm_range_tree_t) : uvm_range_tree_t :=
  RangeTree (rt_tree S) (<[x := n]> (rt_nodes S)).

Definition rng (S : uvm_range_tree_t) (x : nat) : Z * Z := (rn_start (rt_node S x), rn_end (rt_node S x)).

Definition uvm_ranges_overlap (a_start a_end b_start b_end : Z) : bool :=
  (a_end >=? b_start) && (b_end >=? a_start).

Definition range_nodes_overlap (a b : uvm_range_tree_node_t) : bool :=
  uvm_ranges_overlap (rn_start a) (rn_end a) (rn_start b) (rn_end b).

Definition uvm_range_tree_prev (S : uvm_range_tree_t) (x : nat) : option nat := list_prev x (rt_head S).
Definition uvm_range_tree_next (S : uvm_range_tree_t) (x : nat) : option nat := list_next x (rt_head S).
Definition uvm_range_tree_last (S : uvm_range_tree_t) : option nat := last (rt_head S).
Definition uvm_range_tree_empty (S : uvm_range_tree_t) : bool := bool_decide (rt_head S = []).

Definition uvm_range_tree_node_size (n : uvm_range_tree_node_t) : Z := u64 (rn_end n - rn_start n + 1).

Definition range_node_find (S : uvm_range_tree_t) (addr : Z) : find_result :=
  let '(node, parent) := tree_walk (range_side (rng S) addr) (lt_root (rt_tree S)) None in
  let next :=
    match node, parent with
    | Some x, _ => uvm_range_tree_next S x
    | None, Some p => if rn_start (rt_node S p) >? addr then Some p else uvm_range_tree_next S p
    | None, None => None
    end in
  FindResult node parent next.

Definition uvm_range_tree_init (nodes : gmap nat uvm_range_tree_node_t) : uvm_range_tree_t :=
  RangeTree ltree_init nodes.

Definition uvm_range_tree_find (S : uvm_range_tree_t) (addr : Z) : option nat := fr_node (range_node_find S addr).

Definition uvm_range_tree_iter_first (S : uvm_range_tree_t) (start end_ : Z) : option nat :=
  let f := range_node_find S start in
  match fr_node f with
  | Some x => Some x
  | None =>
      match fr_next f with
      | Some y => if rn_start (rt_node S y) <=? end_ then Some y else None
      | None => None
      end
  end.

Definition uvm_range_tree_iter_next (S : uvm_range_tree_t) (x : nat) (end_ : Z) : option nat :=
  match uvm_range_tree_next S x with
  | Some y => if rn_start (rt_node S y) <=? end_ then Some y else None
  | None => None
  end.

Definition uvm_range_tree_iter_prev (S : uvm_range_tree_t) (x : nat) (start : Z) : option nat :=
  match uvm_range_tree_prev S x with
  | Some y => if rn_start (rt_node S y) >=? start then Some y else None
  | None => None
  end.

(** The nodes a loop over [start, end] visits, the loop body leaving the tree as it is. *)
Fixpoint for_each_from (fuel : nat) (S : uvm_range_tree_t) (end_ : Z) (node : option nat) : list nat :=
  match fuel, node with
  | Datatypes.S fuel, Some x => x :: for_each_from fuel S end_ (uvm_range_tree_iter_next S x end_)
  | _, _ => []
  end.

Definition uvm_range_tree_for_each_in (fuel : nat) (S : uvm_range_tree_t) (start end_ : Z) : list nat :=
  for_each_from fuel S end_ (uvm_range_tree_iter_first S start end_).

(** The hole at an address: its start and end, or the error. *)
Definition uvm_range_tree_find_hole (S : uvm_range_tree_t) (addr : Z) : Z + Z * Z :=
  let start_of (node : option nat) :=
    match node with
    | Some y => u64 (rn_end (rt_node S y) + 1)
    | None => 0
    end in
  match uvm_range_tree_iter_first S addr ULLONG_MAX with
  | Some x =>
      if rn_start (rt_node S x) <=? addr then inl NV_ERR_UVM_ADDRESS_IN_USE
      else inr (start_of (uvm_range_tree_prev S x), u64 (rn_start (rt_node S x) - 1))
  | None => inr (start_of (uvm_range_tree_last S), ULLONG_MAX)
  end.

(** The status, and what is left in [*start] and [*end]. *)
Definition uvm_range_tree_find_hole_in (S : uvm_range_tree_t) (addr start end_ : Z) : Z * (Z * Z) :=
  match uvm_range_tree_find_hole S addr with
  | inl status => (status, (start, end_))
  | inr (temp_start, temp_end) => (NV_OK, (Z.max temp_start start, Z.min temp_end end_))
  end.

Definition uvm_range_tree_shrink_node (x : nat) (new_start new_end : Z) (S : uvm_range_tree_t) : uvm_range_tree_t :=
  rt_set x (RangeNode new_start new_end) S.

Section range_ops.
Context `{!RbOps}.

Definition uvm_range_tree_add (x : nat) (S : uvm_range_tree_t) : Z * uvm_range_tree_t :=
  let n := rt_node S x in
  let f := range_node_find S (rn_start n) in
  match fr_node f with
  | Some _ => (NV_ERR_UVM_ADDRESS_IN_USE, S)
  | None =>
      match fr_parent f with
      | None => (NV_OK, RangeTree (ltree_add_root x (rt_tree S)) (rt_nodes S))
      | Some p =>
          if range_nodes_overlap n (rt_node S p) then (NV_ERR_UVM_ADDRESS_IN_USE, S)
          else if rn_start n <? rn_start (rt_node S p) then
            (NV_OK, RangeTree (ltree_add_at p true x (rt_tree S)) (rt_nodes S))
          else
            let hit :=
              match uvm_range_tree_next S p with
              | Some y => range_nodes_overlap n (rt_node S y)
              | None => false
              end in
            if hit then (NV_ERR_UVM_ADDRESS_IN_USE, S)
            else (NV_OK, RangeTree (ltree_add_at p false x (rt_tree S)) (rt_nodes S))
      end
  end.

Definition uvm_range_tree_remove (x : nat) (S : uvm_range_tree_t) : uvm_range_tree_t :=
  RangeTree (ltree_remove x (rt_tree S)) (rt_nodes S).

(** The status is the one the code asserts to be NV_OK. *)
Definition uvm_range_tree_split (existing new : nat) (S : uvm_range_tree_t) : Z * uvm_range_tree_t :=
  let e := rt_node S existing in
  let n := rt_node S new in
  let S := rt_set new (RangeNode (rn_start n) (rn_end e)) S in
  let S := rt_set existing (RangeNode (rn_start e) (u64 (rn_start n - 1))) S in
  uvm_range_tree_add new S.

Definition uvm_range_tree_merge_prev (x : nat) (S : uvm_range_tree_t) : option nat * uvm_range_tree_t :=
  match uvm_range_tree_prev S x with
  | None => (None, S)
  | Some p =>
      if negb (rn_end (rt_node S p) =? u64 (rn_start (rt_node S x) - 1)) then (None, S)
      else
        let S := uvm_range_tree_remove p S in
        (Some p, rt_set x (RangeNode (rn_start (rt_node S p)) (rn_end (rt_node S x))) S)
  end.

Definition uvm_range_tree_merge_next (x : nat) (S : uvm_range_tree_t) : option nat * uvm_range_tree_t :=
  match uvm_range_tree_next S x with
  | None => (None, S)
  | Some q =>
      if negb (rn_start (rt_node S q) =? u64 (rn_end (rt_node S x) + 1)) then (None, S)
      else
        let S := uvm_range_tree_remove q S in
        (Some q, rt_set x (RangeNode (rn_start (rt_node S x)) (rn_end (rt_node S q))) S)
  end.
End range_ops.

(** * Invariant *)

Record rt_inv (S : uvm_range_tree_t) : Prop := {
  rti_ok : lt_ok (rt_tree S);
  rti_order : in_order (rng S) (rt_head S);
  rti_bounds x : x ∈ rt_head S → 0 ≤ (rng S x).1 ∧ (rng S x).2 < 2 ^ 64;
  rti_stored x : x ∈ rt_head S → is_Some (rt_nodes S !! x) }.

Lemma rt_node_set_eq S x n : rt_node (rt_set x n S) x = n.
Proof. unfold rt_node. simpl. by rewrite lookup_insert_eq. Qed.

Lemma rt_node_set_ne S x y n : x ≠ y → rt_node (rt_set x n S) y = rt_node S y.
Proof. intros Hne. unfold rt_node. simpl. by rewrite lookup_insert_ne. Qed.

Lemma rng_set_eq S x n : rng (rt_set x n S) x = (rn_start n, rn_end n).
Proof. unfold rng. by rewrite rt_node_set_eq. Qed.

Lemma rng_set_ne S x y n : x ≠ y → rng (rt_set x n S) y = rng S y.
Proof. intros Hne. unfold rng. by rewrite rt_node_set_ne. Qed.

Lemma overlap_true (a b c d : Z) : uvm_ranges_overlap a b c d = true ↔ a ≤ d ∧ c ≤ b.
Proof. unfold uvm_ranges_overlap. rewrite andb_true_iff, !Z.geb_le. lia. Qed.

Lemma overlap_false (a b c d : Z) : uvm_ranges_overlap a b c d = false ↔ d < a ∨ b < c.
Proof. rewrite <-not_true_iff_false, overlap_true. lia. Qed.

(** Ranges that shrink stay in order. *)
Lemma in_order_sub (r r' : nat → Z * Z) l : in_order r l →
  (∀ x, x ∈ l → (r x).1 ≤ (r' x).1 ∧ (r' x).1 ≤ (r' x).2 ∧ (r' x).2 ≤ (r x).2) → in_order r' l.
Proof.
  induction l as [|x l IH]; intros Hio Hsub; [by split; constructor|].
  apply in_order_cons in Hio as (Hx & Hlt & Hio). apply in_order_cons. split_and!.
  - apply Hsub. set_solver.
  - rewrite Forall_forall in *. intros y Hy. specialize (Hlt y Hy). unfold rng_before in *.
    pose proof (Hsub x ltac:(set_solver)). pose proof (Hsub y ltac:(set_solver)). lia.
  - apply IH; [done|]. intros y Hy. apply Hsub. set_solver.
Qed.

Lemma in_order_ext (r r' : nat → Z * Z) l : in_order r l → (∀ x, x ∈ l → r' x = r x) → in_order r' l.
Proof.
  intros Hio Hext. eapply in_order_sub; [done|]. intros x Hx. rewrite Hext by done.
  pose proof (io_range _ _ Hio) as Hr. rewrite Forall_forall in Hr. specialize (Hr x Hx). simpl in Hr. lia.
Qed.

Lemma rti_le S x : rt_inv S → x ∈ rt_head S → (rng S x).1 ≤ (rng S x).2.
Proof. intros Hinv Hx. pose proof (io_range _ _ (rti_order _ Hinv)) as Hr. rewrite Forall_forall in Hr. by apply Hr. Qed.

Lemma rt_notin_before S a c x : rt_inv S → rt_head S = a ++ x :: c → x ∉ a.
Proof.
  intros Hinv Heq. pose proof (lt_nodup _ (rti_ok _ Hinv)) as Hnd. unfold rt_head in Heq. rewrite Heq in Hnd.
  apply NoDup_app in Hnd as (_ & Hd & _). intros Hx. apply (Hd x Hx). set_solver.
Qed.

(** ** Finding *)

Lemma range_find_iff S addr x : rt_inv S →
  uvm_range_tree_find S addr = Some x ↔ x ∈ rt_head S ∧ (rng S x).1 ≤ addr ≤ (rng S x).2.
Proof.
  intros Hinv. pose proof (walk_iff (rng S) (rt_tree S) addr x (rti_ok _ Hinv) (rti_order _ Hinv)) as Hw.
  unfold uvm_range_tree_find, range_node_find. by destruct (tree_walk _ _ _).
Qed.

Lemma range_find_none S addr : rt_inv S →
  uvm_range_tree_find S addr = None ↔ ∀ x, x ∈ rt_head S → ¬ ((rng S x).1 ≤ addr ≤ (rng S x).2).
Proof.
  intros Hinv. split.
  - intros Hf x Hx Hin. assert (uvm_range_tree_find S addr = Some x) by by apply range_find_iff. congruence.
  - intros Hno. destruct (uvm_range_tree_find S addr) as [x|] eqn:Hf; [|done].
    apply range_find_iff in Hf as [Hx Hin]; [|done]. by destruct (Hno x Hx).
Qed.

Lemma find_hit S addr x a b : rt_inv S → rt_head S = a ++ x :: b → (rng S x).1 ≤ addr ≤ (rng S x).2 →
  fr_node (range_node_find S addr) = Some x ∧ fr_next (range_node_find S addr) = head b.
Proof.
  intros Hinv Hab Hin. pose proof (rt_notin_before _ _ _ _ Hinv Hab) as Hxa.
  pose proof (walk_some (rng S) (rt_tree S) addr (rti_ok _ Hinv) (rti_order _ Hinv) x) as Hw.
  unfold range_node_find. destruct (tree_walk _ _ _) as [n p]. simpl in *. rewrite Hw; [|unfold rt_head in Hab; rewrite Hab; set_solver|done].
  split; [done|]. unfold uvm_range_tree_next. by rewrite Hab, list_next_app.
Qed.

Lemma hangs_app_last (a b : list nat) p : hangs a b p false → ∃ a', a = a' ++ [p].
Proof. apply last_Some. Qed.

Lemma hangs_head (a b : list nat) p : hangs a b p true → ∃ b', b = p :: b'.
Proof. simpl. destruct b; intros; simplify_eq/=; eauto. Qed.

Lemma find_miss S addr : rt_inv S → (∀ x, x ∈ rt_head S → ¬ ((rng S x).1 ≤ addr ≤ (rng S x).2)) →
  ∃ a b, splits (rng S) addr (rt_head S) a [] b ∧
    fr_node (range_node_find S addr) = None ∧ fr_next (range_node_find S addr) = head b ∧
    ((rt_head S = [] ∧ fr_parent (range_node_find S addr) = None) ∨
     ∃ p left, fr_parent (range_node_find S addr) = Some p ∧ hangs a b p left ∧
       ∀ x, inorder (rb_link_at p left x (lt_root (rt_tree S))) = a ++ x :: b).
Proof.
  intros Hinv Hno. destruct (walk_none (rng S) (rt_tree S) addr (rti_ok _ Hinv) (rti_order _ Hinv) Hno)
    as (a & b & Hsp & Hw). exists a, b. split; [done|]. pose proof Hsp as [Heq Ha _ Hb]. simpl in Heq.
  unfold range_node_find. destruct Hw as [[Hnil ->]|(p & left & -> & Hh & Hl)]; simpl.
  - split_and!; [done| |by left]. rewrite Hnil in Heq. symmetry in Heq. by apply app_eq_nil in Heq as [-> ->].
  - split_and!; [done| |by eauto 10]. destruct left.
    + apply hangs_head in Hh as [b' ->]. specialize (Hb p ltac:(set_solver)). simpl in Hb.
      rewrite (proj2 (Z.gtb_lt _ _)) by done. done.
    + apply hangs_app_last in Hh as [a' ->]. specialize (Ha p ltac:(set_solver)).
      assert (p ∈ rt_head S) as Hp by (unfold rt_head; rewrite Heq; set_solver).
      pose proof (rti_le _ _ Hinv Hp) as Hle. simpl in *.
      destruct (Z.gtb_spec (rn_start (rt_node S p)) addr); [lia|].
      unfold uvm_range_tree_next. unfold rt_head. rewrite Heq, <-(assoc_L (++)). simpl. apply list_next_app.
      eapply rt_notin_before; [done|]. unfold rt_head. by rewrite Heq, <-(assoc_L (++)).
Qed.

(** Every address splits the list, and the search gives the first node not before it. *)
Lemma find_splits S addr : rt_inv S →
  ∃ a c, rt_head S = a ++ c ∧ (∀ x, x ∈ a → (rng S x).2 < addr) ∧ (∀ x, x ∈ c → addr ≤ (rng S x).2) ∧
    (match fr_node (range_node_find S addr) with Some x => Some x | None => fr_next (range_node_find S addr) end = head c) ∧
    (∀ x, fr_node (range_node_find S addr) = Some x → head c = Some x ∧ (rng S x).1 ≤ addr) ∧
    (fr_node (range_node_find S addr) = None → ∀ x, x ∈ c → addr < (rng S x).1).
Proof.
  intros Hinv. destruct (sided_exists (rng S) addr _ (rti_order _ Hinv)) as (a & m & b & Hs & Hm).
  pose proof (sided_splits _ _ _ _ _ _ (rti_order _ Hinv) Hs) as [Heq Ha Hat Hb].
  destruct Hm as [->|[x ->]].
  - simpl in Heq. destruct (find_miss S addr Hinv) as (a' & b' & [Heq' Ha' _ Hb'] & -> & -> & _).
    { intros x Hx Hin. rewrite Heq in Hx. apply elem_of_app in Hx as [Hx%Ha|Hx%Hb]; lia. }
    exists a', b'. simpl in Heq'. split_and!; [done|done| |done|done|by auto].
    intros x Hx. assert (x ∈ rt_head S) as Hx' by (rewrite Heq'; set_solver).
    pose proof (rti_le _ _ Hinv Hx'). specialize (Hb' x Hx). lia.
  - destruct (find_hit S addr x a b Hinv Heq (Hat x ltac:(set_solver))) as [-> Hn].
    exists a, (x :: b). split_and!; [done|done| |done| |done].
    + intros y [->|Hy]%elem_of_cons; [apply Hat; set_solver|].
      assert (y ∈ rt_head S) as Hy' by (rewrite Heq; set_solver).
      pose proof (rti_le _ _ Hinv Hy'). specialize (Hb y Hy). lia.
    + intros y [= <-]. split; [done|]. apply Hat. set_solver.
Qed.

(** ** Iterating *)

Lemma iter_first_spec S start end_ : rt_inv S → start ≤ end_ →
  ∃ a c, rt_head S = a ++ c ∧ (∀ x, x ∈ a → (rng S x).2 < start) ∧ (∀ x, x ∈ c → start ≤ (rng S x).2) ∧
    uvm_range_tree_iter_first S start end_ =
      match head c with Some y => if rn_start (rt_node S y) <=? end_ then Some y else None | None => None end.
Proof.
  intros Hinv Hle. destruct (find_splits S start Hinv) as (a & c & Heq & Ha & Hc & Hn & Hat & _).
  exists a, c. split_and!; [done|done|done|]. unfold uvm_range_tree_iter_first.
  destruct (fr_node _) as [x|]; [|by rewrite <-Hn]. destruct (Hat x eq_refl) as [-> Hx]. simpl in Hx.
  by rewrite (proj2 (Z.leb_le _ _)) by lia.
Qed.

Lemma in_order_from (r : nat → Z * Z) x l y : in_order r (x :: l) → y ∈ l → (r x).1 < (r y).1.
Proof.
  intros (Hx & Hlt & _)%in_order_cons Hy. rewrite Forall_forall in Hlt. specialize (Hlt y Hy).
  unfold rng_before in Hlt. lia.
Qed.

Lemma for_each_from_spec S end_ fuel a c : rt_inv S → rt_head S = a ++ c → (length c ≤ fuel)%nat →
  for_each_from fuel S end_
    match head c with Some y => if rn_start (rt_node S y) <=? end_ then Some y else None | None => None end =
  filter (λ x, (rng S x).1 ≤ end_) c.
Proof.
  intros Hinv. revert fuel a. induction c as [|x c IH]; intros fuel a Heq Hf; simpl in *; [by destruct fuel|].
  destruct fuel as [|fuel]; [lia|].
  pose proof (rti_order _ Hinv) as Hio. rewrite Heq in Hio. apply in_order_app in Hio as (_ & Hio & _).
  destruct (Z.leb_spec (rn_start (rt_node S x)) end_) as [Hle|Hgt].
  - rewrite filter_cons_True by done. simpl. f_equal.
    rewrite <-(IH fuel (a ++ [x])) by (try lia; by rewrite <-(assoc_L (++))). f_equal.
    unfold uvm_range_tree_iter_next, uvm_range_tree_next. rewrite Heq, list_next_app; [done|]. by eapply rt_notin_before.
  - simpl. symmetry. apply list_nil_subseteq. intros y [Hy1 Hy]%list_elem_of_filter.
    apply elem_of_cons in Hy as [->|Hy]; simpl in Hy1; [lia|].
    pose proof (in_order_from _ _ _ _ Hio Hy) as Hlt. simpl in Hlt. lia.
Qed.

(** The loop over a range visits the nodes that overlap it, in order, and the
    length of the list is enough fuel. *)
Lemma for_each_in_exact S start end_ fuel : rt_inv S → start ≤ end_ → (length (rt_head S) ≤ fuel)%nat →
  uvm_range_tree_for_each_in fuel S start end_ =
  filter (λ x, start ≤ (rng S x).2 ∧ (rng S x).1 ≤ end_) (rt_head S).
Proof.
  intros Hinv Hle Hf. destruct (iter_first_spec S start end_ Hinv Hle) as (a & c & Heq & Ha & Hc & Hi).
  unfold uvm_range_tree_for_each_in. rewrite Hi.
  rewrite (for_each_from_spec S end_ fuel a c) by (try done; rewrite Heq, length_app in Hf; lia).
  rewrite Heq, filter_app. rewrite (list_nil_subseteq (filter _ a)).
  2: { intros y [[Hy _] Hya]%list_elem_of_filter. specialize (Ha y Hya). lia. }
  simpl. clear - Hc. induction c as [|x c IH]; [done|]. rewrite !filter_cons.
  rewrite IH by (intros; apply Hc; set_solver).
  assert (start ≤ (rng S x).2) by (apply Hc; set_solver).
  repeat case_decide; (done || tauto).
Qed.

(** ** Holes *)

(** [lo, hi] has [addr] and no address of a node, and every such range is inside it. *)
Record is_hole (S : uvm_range_tree_t) (addr lo hi : Z) : Prop := {
  hole_in : 0 ≤ lo ≤ addr ∧ addr ≤ hi < 2 ^ 64;
  hole_free k : lo ≤ k ≤ hi → uvm_range_tree_find S k = None;
  hole_max lo' hi' : 0 ≤ lo' ≤ addr → addr ≤ hi' < 2 ^ 64 →
    (∀ k, lo' ≤ k ≤ hi' → uvm_range_tree_find S k = None) → lo ≤ lo' ∧ hi' ≤ hi }.

Definition hole_start (S : uvm_range_tree_t) (a : list nat) : Z :=
  match last a with Some y => (rng S y).2 + 1 | None => 0 end.
Definition hole_end (S : uvm_range_tree_t) (c : list nat) : Z :=
  match head c with Some y => (rng S y).1 - 1 | None => ULLONG_MAX end.

Lemma last_le S a c x y : rt_inv S → rt_head S = (a ++ [y]) ++ c → x ∈ a → (rng S x).2 < (rng S y).2.
Proof.
  intros Hinv Heq Hx. pose proof (rti_order _ Hinv) as Hio. rewrite Heq in Hio.
  apply in_order_app in Hio as ((_ & (Hy & _)%in_order_cons & Hb)%in_order_app & _ & _).
  specialize (Hb x y Hx ltac:(set_solver)). unfold rng_before in Hb. lia.
Qed.

Lemma hole_between S addr a c : rt_inv S → 0 ≤ addr < 2 ^ 64 → rt_head S = a ++ c →
  (∀ x, x ∈ a → (rng S x).2 < addr) → (∀ x, x ∈ c → addr < (rng S x).1) →
  is_hole S addr (hole_start S a) (hole_end S c).
Proof.
  intros Hinv Haddr Heq Ha Hc.
  assert (∀ x, x ∈ a ∨ x ∈ c ↔ x ∈ rt_head S) as Hin by (intros x; rewrite Heq; set_solver).
  assert (0 ≤ hole_start S a ≤ addr ∧ ∀ x, x ∈ a → (rng S x).2 < hole_start S a) as [Hlo Hlo'].
  { unfold hole_start. destruct (last a) as [y|] eqn:Hy.
    - apply last_Some in Hy as [a' ->]. specialize (Ha y ltac:(set_solver)) as Hya.
      assert (y ∈ rt_head S) as Hyh by (apply Hin; set_solver).
      pose proof (rti_le _ _ Hinv Hyh). pose proof (rti_bounds _ Hinv y Hyh). split; [lia|].
      intros x [Hx|Hx%list_elem_of_singleton]%elem_of_app; [|subst; lia].
      pose proof (last_le _ _ _ _ _ Hinv Heq Hx). lia.
    - apply last_None in Hy as ->. split; [lia|]. intros x Hx. by apply elem_of_nil in Hx. }
  assert (addr ≤ hole_end S c < 2 ^ 64 ∧ ∀ x, x ∈ c → hole_end S c < (rng S x).1) as [Hhi Hhi'].
  { unfold hole_end, ULLONG_MAX. destruct c as [|y c]; simpl; [split; [lia|]; intros x Hx; by apply elem_of_nil in Hx|].
    specialize (Hc y ltac:(set_solver)) as Hyc. assert (y ∈ rt_head S) as Hyh by (apply Hin; set_solver).
    pose proof (rti_le _ _ Hinv Hyh). pose proof (rti_bounds _ Hinv y Hyh). simpl in *. split; [lia|].
    intros x [->|Hx]%elem_of_cons; [lia|]. pose proof (rti_order _ Hinv) as Hio. rewrite Heq in Hio.
    apply in_order_app in Hio as (_ & Hio & _). pose proof (in_order_from _ _ _ _ Hio Hx). simpl in *. lia. }
  split; [lia| |].
  - intros k Hk. apply range_find_none; [done|]. intros x [Hx|Hx]%Hin; [specialize (Hlo' x Hx)|specialize (Hhi' x Hx)]; lia.
  - intros lo' hi' Hlo1 Hhi1 Hno. split.
    + unfold hole_start. destruct (last a) as [y|] eqn:Hy; [|lia]. apply last_Some in Hy as [a' ->].
      specialize (Ha y ltac:(set_solver)) as Hya. assert (y ∈ rt_head S) as Hyh by (apply Hin; set_solver).
      destruct (Z.le_gt_cases ((rng S y).2 + 1) lo') as [|Hgt]; [done|].
      specialize (Hno (rng S y).2 ltac:(lia)). rewrite range_find_none in Hno by done.
      destruct (Hno y Hyh). pose proof (rti_le _ _ Hinv Hyh). lia.
    + unfold hole_end, ULLONG_MAX. destruct c as [|y c]; simpl; [lia|].
      specialize (Hc y ltac:(set_solver)) as Hyc. assert (y ∈ rt_head S) as Hyh by (apply Hin; set_solver). simpl in *.
      destruct (Z.le_gt_cases hi' (rn_start (rt_node S y) - 1)) as [|Hgt]; [done|].
      specialize (Hno (rng S y).1 ltac:(simpl; lia)). rewrite range_find_none in Hno by done.
      destruct (Hno y Hyh). pose proof (rti_le _ _ Hinv Hyh). simpl in *. lia.
Qed.

Lemma find_hole_spec S addr : rt_inv S → 0 ≤ addr < 2 ^ 64 →
  match uvm_range_tree_find_hole S addr with
  | inl st => st = NV_ERR_UVM_ADDRESS_IN_USE ∧ is_Some (uvm_range_tree_find S addr)
  | inr (lo, hi) => is_hole S addr lo hi
  end.
Proof.
  intros Hinv Haddr. destruct (find_splits S addr Hinv) as (a & c & Heq & Ha & Hc & Hn & Hat & Hmiss).
  unfold uvm_range_tree_find_hole, uvm_range_tree_iter_first, uvm_range_tree_find.
  assert (match last a with Some y => u64 (rn_end (rt_node S y) + 1) | None => 0 end = hole_start S a) as Hst.
  { unfold hole_start. destruct (last a) as [y|] eqn:Hy; [|done]. apply last_Some in Hy as [a' ->].
    specialize (Ha y ltac:(set_solver)). assert (y ∈ rt_head S) as Hyh by (rewrite Heq; set_solver).
    pose proof (rti_bounds _ Hinv y Hyh). pose proof (rti_le _ _ Hinv Hyh). simpl in *. apply u64_small. unfold is_u64. lia. }
  destruct (fr_node (range_node_find S addr)) as [x|].
  { destruct (Hat x eq_refl) as [_ Hx]. simpl in Hx. by rewrite (proj2 (Z.leb_le _ _)) by lia. }
  specialize (Hmiss eq_refl). pose proof (hole_between S addr a c Hinv Haddr Heq Ha Hmiss) as Hh.
  rewrite Hn. destruct c as [|y c]; simpl in *.
  - unfold uvm_range_tree_last. rewrite Heq, app_nil_r, Hst. done.
  - specialize (Hmiss y ltac:(set_solver)). assert (y ∈ rt_head S) as Hyh by (rewrite Heq; set_solver).
    pose proof (rti_bounds _ Hinv y Hyh). pose proof (rti_le _ _ Hinv Hyh). simpl in *.
    rewrite (proj2 (Z.leb_le _ _)) by (unfold ULLONG_MAX; lia). destruct (Z.leb_spec (rn_start (rt_node S y)) addr); [lia|].
    unfold uvm_range_tree_prev. rewrite Heq, list_prev_app, Hst by (by eapply rt_notin_before).
    rewrite u64_small by (unfold is_u64; lia). done.
Qed.

(** ** Changing the tree *)

Section range_laws.
Context `{!RbOps, !RbLaws}.
Implicit Types (S : uvm_range_tree_t).

(** What a node must be to be added. *)
Record addable (S : uvm_range_tree_t) (x : nat) : Prop := {
  ad_out : x ∉ rt_head S;
  ad_stored : is_Some (rt_nodes S !! x);
  ad_range : 0 ≤ (rng S x).1 ∧ (rng S x).1 ≤ (rng S x).2 ∧ (rng S x).2 < 2 ^ 64 }.

Definition overlaps S x y : Prop := (rng S x).1 ≤ (rng S y).2 ∧ (rng S y).1 ≤ (rng S x).2.

Lemma overlap_iff S x y : range_nodes_overlap (rt_node S x) (rt_node S y) = true ↔ overlaps S x y.
Proof. apply overlap_true. Qed.

Lemma overlap_niff S x y : range_nodes_overlap (rt_node S x) (rt_node S y) = false ↔ ¬ overlaps S x y.
Proof. by rewrite <-overlap_iff, not_true_iff_false. Qed.

Lemma add_inv S x a b T : rt_inv S → addable S x → splits (rng S) (rng S x).1 (rt_head S) a [] b →
  (∀ y, y ∈ b → ¬ overlaps S x y) → lt_ok T → lt_head T = a ++ x :: b → rt_inv (RangeTree T (rt_nodes S)).
Proof.
  intros Hinv [Hout Hst Hrng] [Heq Ha _ Hb] Hno Hok Hhd. simpl in Heq.
  assert (∀ y, y ∈ a ++ x :: b ↔ y = x ∨ y ∈ rt_head S) as Hin by (intros y; rewrite Heq; set_solver).
  split; [done| | |]; change (rt_head (RangeTree T (rt_nodes S))) with (lt_head T);
    change (rng (RangeTree T (rt_nodes S))) with (rng S); rewrite Hhd.
  - apply in_order_insert.
    + rewrite <-Heq. apply Hinv.
    + lia.
    + done.
    + intros y Hy. specialize (Hb y Hy). specialize (Hno y Hy). unfold overlaps in Hno. unfold rng_before.
      assert (y ∈ rt_head S) as Hyh by (rewrite Heq; set_solver). pose proof (rti_le _ _ Hinv Hyh). lia.
  - intros y [->|Hy]%Hin; [lia|]. by apply Hinv.
  - intros y [->|Hy]%Hin; [done|]. by apply Hinv.
Qed.

(** No overlap: the node is put in order. *)
Lemma add_free S x : rt_inv S → addable S x → (∀ y, y ∈ rt_head S → ¬ overlaps S x y) →
  ∃ a b T, rt_head S = a ++ b ∧ uvm_range_tree_add x S = (NV_OK, RangeTree T (rt_nodes S)) ∧
    lt_head T = a ++ x :: b ∧ rt_inv (RangeTree T (rt_nodes S)).
Proof.
  intros Hinv Had Hno. pose proof Had as [Hout _ Hrng].
  destruct (find_miss S (rng S x).1 Hinv) as (a & b & Hsp & Hf1 & _ & Hp).
  { intros y Hy Hin. apply (Hno y Hy). unfold overlaps. lia. }
  pose proof Hsp as [Heq Ha _ Hb]. simpl in Heq.
  assert (∀ y, y ∈ b → ¬ overlaps S x y) as Hnob by (intros y Hy; apply Hno; rewrite Heq; set_solver).
  unfold uvm_range_tree_add. change (rn_start (rt_node S x)) with (rng S x).1. rewrite Hf1.
  destruct Hp as [[Hnil ->]|(p & left & -> & Hh & Hl)].
  - destruct (ltree_add_root_ok (rt_tree S) x Hnil) as [Hhd Hok]. rewrite Hnil in Heq.
    symmetry in Heq. apply app_eq_nil in Heq as [-> ->].
    exists [], [], (ltree_add_root x (rt_tree S)). split_and!; [done|done|done|]. by eapply add_inv.
  - destruct (ltree_add_at_ok (rt_tree S) x p left a b (rti_ok _ Hinv) Heq Hout Hh (Hl x)) as [Hhd Hok].
    exists a, b, (ltree_add_at p left x (rt_tree S)). split_and!; [done| |done|by eapply add_inv].
    destruct left.
    + apply hangs_head in Hh as [b' ->]. specialize (Hb p ltac:(set_solver)). simpl in Hb.
      rewrite (proj2 (overlap_niff S x p)) by (apply Hnob; set_solver). by rewrite (proj2 (Z.ltb_lt _ _)) by done.
    + apply hangs_app_last in Hh as [a' ->]. assert (p ∈ rt_head S) as Hp by (rewrite Heq; set_solver).
      specialize (Ha p ltac:(set_solver)). pose proof (rti_le _ _ Hinv Hp). simpl in *.
      rewrite (proj2 (overlap_niff S x p)) by (by apply Hno). rewrite (proj2 (Z.ltb_ge _ _)) by lia.
      unfold uvm_range_tree_next. rewrite Heq, <-(assoc_L (++)). simpl.
      rewrite list_next_app by (eapply rt_notin_before; [done|]; by rewrite Heq, <-(assoc_L (++))).
      destruct b as [|y b]; simpl; [done|]. by rewrite (proj2 (overlap_niff S x y)) by (apply Hnob; set_solver).
Qed.

(** An overlap: nothing changes. *)
Lemma add_used S x y : rt_inv S → addable S x → y ∈ rt_head S → overlaps S x y →
  uvm_range_tree_add x S = (NV_ERR_UVM_ADDRESS_IN_USE, S).
Proof.
  intros Hinv Had Hy Hov. unfold uvm_range_tree_add. change (rn_start (rt_node S x)) with (rng S x).1.
  destruct (fr_node (range_node_find S (rng S x).1)) as [z|] eqn:Hf; [done|].
  pose proof Hf as Hno. fold (uvm_range_tree_find S (rng S x).1) in Hno. rewrite range_find_none in Hno by done.
  destruct (find_miss S (rng S x).1 Hinv Hno) as (a & b & [Heq Ha _ Hb] & _ & _ & Hp). simpl in Heq.
  assert (y ∈ b) as Hyb.
  { rewrite Heq in Hy. apply elem_of_app in Hy as [Hy%Ha|Hy]; [|done]. unfold overlaps in Hov. lia. }
  destruct b as [|z b]; [by apply elem_of_nil in Hyb|].
  assert (overlaps S x z) as Hz%overlap_iff.
  { apply elem_of_cons in Hyb as [->|Hyb]; [done|]. pose proof (rti_order _ Hinv) as Hio. rewrite Heq in Hio.
    apply in_order_app in Hio as (_ & Hio & _). pose proof (in_order_from _ _ _ _ Hio Hyb).
    assert (z ∈ rt_head S) as Hzh by (rewrite Heq; set_solver). pose proof (rti_le _ _ Hinv Hzh).
    specialize (Hb z ltac:(set_solver)). unfold overlaps in *. lia. }
  destruct Hp as [[Hnil _]|(p & left & -> & Hh & _)]; [rewrite Hnil in Heq; by destruct a|].
  destruct left; simpl in Hh; [by simplify_eq; rewrite Hz|].
  apply last_Some in Hh as [a' ->]. assert (p ∈ rt_head S) as Hp by (rewrite Heq; set_solver).
  specialize (Ha p ltac:(set_solver)). pose proof (rti_le _ _ Hinv Hp). simpl in *.
  rewrite (proj2 (overlap_niff S x p)) by (unfold overlaps; simpl; lia). rewrite (proj2 (Z.ltb_ge _ _)) by lia.
  unfold uvm_range_tree_next. rewrite Heq, <-(assoc_L (++)). simpl.
  rewrite list_next_app by (eapply rt_notin_before; [done|]; by rewrite Heq, <-(assoc_L (++))). simpl. by rewrite Hz.
Qed.

Lemma remove_inv S x : rt_inv S → x ∈ rt_head S →
  rt_inv (uvm_range_tree_remove x S) ∧ (∀ y, y ∈ rt_head (uvm_range_tree_remove x S) ↔ y ∈ rt_head S ∧ y ≠ x).
Proof.
  intros Hinv Hx. pose proof (rti_ok _ Hinv) as Hok. destruct (ltree_remove_ok (rt_tree S) x Hok) as [Hhd Hok'].
  assert (∀ y, y ∈ rt_head (uvm_range_tree_remove x S) ↔ y ∈ rt_head S ∧ y ≠ x) as Hin.
  { intros y. unfold rt_head. simpl. rewrite list_elem_of_filter. tauto. }
  split; [|done]. split; [done| | |].
  - change (rng (uvm_range_tree_remove x S)) with (rng S). unfold rt_head. simpl.
    pose proof (lt_nodup _ Hok) as Hnd. pose proof (rti_order _ Hinv) as Hio. unfold rt_head in Hx, Hio.
    apply list_elem_of_split in Hx as (a & b & Hab). rewrite Hab in *. rewrite filter_neq_mid by done.
    by eapply in_order_remove.
  - intros y [Hy _]%Hin. by apply Hinv.
  - intros y [Hy _]%Hin. by apply Hinv.
Qed.

(** The fields of a node change within its range. *)
Lemma shrink_inv S x s e : rt_inv S → x ∈ rt_head S → (rng S x).1 ≤ s ∧ s ≤ e ∧ e ≤ (rng S x).2 →
  rt_inv (rt_set x (RangeNode s e) S).
Proof.
  intros Hinv Hx Hse. pose proof (rti_bounds _ Hinv x Hx) as Hbx.
  assert (∀ y, y ∈ rt_head S → (rng S y).1 ≤ (rng (rt_set x (RangeNode s e) S) y).1 ∧
    (rng (rt_set x (RangeNode s e) S) y).1 ≤ (rng (rt_set x (RangeNode s e) S) y).2 ∧
    (rng (rt_set x (RangeNode s e) S) y).2 ≤ (rng S y).2) as Hsub.
  { intros y Hy. destruct (decide (x = y)) as [<-|Hne]; [by rewrite rng_set_eq|].
    rewrite rng_set_ne by done. pose proof (rti_le _ _ Hinv Hy). lia. }
  split.
  - apply Hinv.
  - eapply in_order_sub; [apply Hinv|done].
  - intros y Hy. pose proof (rti_bounds _ Hinv y Hy). specialize (Hsub y Hy). lia.
  - intros y Hy. simpl. destruct (decide (x = y)) as [<-|Hne]; [by rewrite lookup_insert_eq|].
    rewrite lookup_insert_ne by done. by apply Hinv.
Qed.

(** A node outside the tree. *)
Lemma set_out_inv S x n : rt_inv S → x ∉ rt_head S → rt_inv (rt_set x n S).
Proof.
  intros Hinv Hx. assert (∀ y, y ∈ rt_head S → x ≠ y) as Hne by (intros y Hy ->; done). split.
  - apply Hinv.
  - eapply in_order_ext; [apply Hinv|]. intros y Hy. by rewrite rng_set_ne by auto.
  - intros y Hy. rewrite rng_set_ne by auto. by apply Hinv.
  - intros y Hy. simpl. rewrite lookup_insert_ne by auto. by apply Hinv.
Qed.

(** Two neighbours become one of the two. *)
Lemma fuse_inv S T a u v b w : rt_inv S → rt_head S = a ++ u :: v :: b → w = u ∨ w = v →
  lt_ok T → lt_head T = a ++ w :: b → rt_inv (rt_set w (RangeNode (rng S u).1 (rng S v).2) (RangeTree T (rt_nodes S))).
Proof.
  intros Hinv Heq Hw Hok Hhd. set (S' := rt_set w _ _).
  assert (∀ y, y ∈ a ++ b → y ∈ rt_head S ∧ y ≠ w) as Hab.
  { intros y Hy. split; [rewrite Heq; set_solver|]. intros ->. pose proof (lt_nodup _ (rti_ok _ Hinv)) as Hnd.
    unfold rt_head in Heq. rewrite Heq in Hnd. apply NoDup_app in Hnd as (_ & Hd & Hnd).
    apply NoDup_cons in Hnd as [Hu Hnd]. apply NoDup_cons in Hnd as [Hv _].
    apply elem_of_app in Hy as [Hy|Hy]; [apply (Hd w Hy)|]; set_solver. }
  assert (∀ y, y ∈ a ++ b → rng S' y = rng S y) as Hr.
  { intros y Hy. apply Hab in Hy as [_ Hy]. by apply (rng_set_ne (RangeTree T (rt_nodes S))). }
  assert (rng S' w = ((rng S u).1, (rng S v).2)) as Hrw by apply (rng_set_eq (RangeTree T (rt_nodes S))).
  assert (u ∈ rt_head S) as Hu by (rewrite Heq; set_solver).
  assert (v ∈ rt_head S) as Hv by (rewrite Heq; set_solver).
  pose proof (rti_le _ _ Hinv Hu) as Hleu. pose proof (rti_le _ _ Hinv Hv) as Hlev.
  pose proof (rti_order _ Hinv) as Hio. rewrite Heq in Hio. pose proof Hio as Hio'.
  apply in_order_app in Hio' as (_ & Hub & Hau). pose proof (in_order_from _ u _ v Hub ltac:(set_solver)) as Huv.
  apply in_order_remove, in_order_remove in Hio.
  assert (∀ y, y ∈ a ++ w :: b ↔ y = w ∨ y ∈ a ++ b) as Hin by set_solver.
  split; [done| | |]; change (rt_head S') with (lt_head T); rewrite Hhd.
  - apply in_order_insert; [by eapply in_order_ext|rewrite Hrw; simpl in *; lia| |];
      intros y Hy; unfold rng_before; rewrite Hrw, Hr by set_solver; simpl.
    + apply (Hau y u); set_solver.
    + apply in_order_cons in Hub as (_ & _ & Hvb). apply in_order_cons in Hvb as (_ & Hvb & _).
      rewrite Forall_forall in Hvb. by apply Hvb.
  - pose proof (rti_bounds _ Hinv u Hu). pose proof (rti_bounds _ Hinv v Hv).
    intros y [->|Hy]%Hin; [rewrite Hrw; simpl in *; lia|]. rewrite Hr by done. by apply Hinv, Hab.
  - intros y [->|Hy]%Hin; simpl; [by rewrite lookup_insert_eq|].
    apply Hab in Hy as [Hy Hne]. rewrite lookup_insert_ne by done. by apply Hinv.
Qed.
(** [w] has taken over the range of its neighbour [o]. *)
Record fused (S S' : uvm_range_tree_t) (w o : nat) (s e : Z) : Prop := {
  fu_inv : rt_inv S';
  fu_other : o ∈ rt_head S ∧ o ≠ w;
  fu_head y : y ∈ rt_head S' ↔ y ∈ rt_head S ∧ y ≠ o;
  fu_range : rng S' w = (s, e);
  fu_rest y : y ≠ w → rng S' y = rng S y;
  fu_nodes y : y ≠ w → rt_nodes S' !! y = rt_nodes S !! y }.

Lemma fused_intro S a u v b w o : rt_inv S → rt_head S = a ++ u :: v :: b → (w = u ∧ o = v) ∨ (w = v ∧ o = u) →
  fused S (rt_set w (RangeNode (rng S u).1 (rng S v).2) (uvm_range_tree_remove o S)) w o (rng S u).1 (rng S v).2.
Proof.
  intros Hinv Heq Hw.
  assert (o ∈ rt_head S) as Ho by (rewrite Heq; destruct Hw as [[-> ->]|[-> ->]]; set_solver).
  destruct (remove_inv S o Hinv Ho) as [Hinv' Hin].
  destruct (ltree_remove_ok (rt_tree S) o (rti_ok _ Hinv)) as [Hhd Hok].
  pose proof (lt_nodup _ (rti_ok _ Hinv)) as Hnd. unfold rt_head in Heq. rewrite Heq in Hnd, Hhd.
  assert (u ≠ v) as Huv.
  { apply NoDup_app in Hnd as (_ & _ & Hnd). apply NoDup_cons in Hnd as [Hnd _]. set_solver. }
  split; [|split; [done|destruct Hw as [[-> ->]|[-> ->]]; done]|done|..].
  - apply (fuse_inv S _ a u v b); [done|done|tauto|done|]. rewrite Hhd.
    destruct Hw as [[-> ->]|[-> ->]]; [|by rewrite filter_neq_mid].
    replace (a ++ u :: v :: b) with ((a ++ [u]) ++ v :: b) in * by (by rewrite <-(assoc_L (++))).
    rewrite filter_neq_mid by done. by rewrite <-(assoc_L (++)).
  - apply rng_set_eq.
  - intros y Hy. by rewrite rng_set_ne.
  - intros y Hy. simpl. by rewrite lookup_insert_ne.
Qed.

Lemma merge_prev_spec S x : rt_inv S → x ∈ rt_head S →
  match uvm_range_tree_merge_prev x S with
  | (None, S') => S' = S ∧ ∀ p, p ∈ rt_head S → (rng S p).2 ≠ (rng S x).1 - 1
  | (Some p, S') => (rng S p).2 = (rng S x).1 - 1 ∧ fused S S' x p (rng S p).1 (rng S x).2
  end.
Proof.
  intros Hinv Hx. apply list_elem_of_split in Hx as (a & b & Heq).
  assert (∀ y, y ∈ x :: b → (rng S x).1 ≤ (rng S y).2) as Hafter.
  { intros y Hy. assert (y ∈ rt_head S) as Hyh by (rewrite Heq; set_solver). pose proof (rti_le _ _ Hinv Hyh).
    apply elem_of_cons in Hy as [->|Hy]; [done|]. pose proof (rti_order _ Hinv) as Hio. rewrite Heq in Hio.
    apply in_order_app in Hio as (_ & Hio & _). pose proof (in_order_from _ _ _ _ Hio Hy). lia. }
  unfold uvm_range_tree_merge_prev, uvm_range_tree_prev. rewrite Heq, list_prev_app by (by eapply rt_notin_before).
  destruct (last a) as [p|] eqn:Hp.
  2: { apply last_None in Hp as ->. split; [done|]. intros p Hp. specialize (Hafter p Hp). lia. }
  apply last_Some in Hp as [a' ->]. assert (p ∈ rt_head S) as Hp by (rewrite Heq; set_solver).
  assert (x ∈ rt_head S) as Hx by (rewrite Heq; set_solver).
  pose proof (rti_le _ _ Hinv Hp). pose proof (rti_bounds _ Hinv p Hp). pose proof (rti_bounds _ Hinv x Hx).
  pose proof (rti_le _ _ Hinv Hx). pose proof (rti_order _ Hinv) as Hio. rewrite Heq in Hio.
  apply in_order_app in Hio as (_ & _ & Hpx). specialize (Hpx p x ltac:(set_solver) ltac:(set_solver)).
  unfold rng_before in Hpx. simpl in Hpx. rewrite u64_small by (unfold is_u64; simpl in *; lia).
  destruct (Z.eqb_spec (rn_end (rt_node S p)) (rn_start (rt_node S x) - 1)) as [He|He]; simpl.
  - split; [done|]. apply (fused_intro S a' p x b); [done|by rewrite Heq, <-(assoc_L (++))|by right].
  - split; [done|]. intros y [[Hy|Hy%list_elem_of_singleton]%elem_of_app|Hy]%elem_of_app.
    + pose proof (last_le _ _ _ _ _ Hinv Heq Hy). simpl in *. lia.
    + by subst.
    + specialize (Hafter y Hy). simpl in *. lia.
Qed.

Lemma merge_next_spec S x : rt_inv S → x ∈ rt_head S →
  match uvm_range_tree_merge_next x S with
  | (None, S') => S' = S ∧ ∀ q, q ∈ rt_head S → (rng S q).1 ≠ (rng S x).2 + 1
  | (Some q, S') => (rng S q).1 = (rng S x).2 + 1 ∧ fused S S' x q (rng S x).1 (rng S q).2
  end.
Proof.
  intros Hinv Hx. pose proof (rti_le _ _ Hinv Hx). apply list_elem_of_split in Hx as (a & b & Heq).
  assert (∀ y, y ∈ a → (rng S y).1 < (rng S x).1) as Hbefore.
  { intros y Hy. assert (y ∈ rt_head S) as Hyh by (rewrite Heq; set_solver). pose proof (rti_le _ _ Hinv Hyh).
    pose proof (rti_order _ Hinv) as Hio. rewrite Heq in Hio. apply in_order_app in Hio as (_ & _ & Hyx).
    specialize (Hyx y x Hy ltac:(set_solver)). unfold rng_before in Hyx. lia. }
  unfold uvm_range_tree_merge_next, uvm_range_tree_next. rewrite Heq, list_next_app by (by eapply rt_notin_before).
  destruct b as [|q b]; simpl.
  { split; [done|]. intros q [Hq%Hbefore|Hq%list_elem_of_singleton]%elem_of_app; subst; simpl in *; lia. }
  assert (q ∈ rt_head S) as Hq by (rewrite Heq; set_solver). assert (x ∈ rt_head S) as Hx by (rewrite Heq; set_solver).
  pose proof (rti_le _ _ Hinv Hq). pose proof (rti_bounds _ Hinv q Hq). pose proof (rti_bounds _ Hinv x Hx).
  pose proof (rti_order _ Hinv) as Hio. rewrite Heq in Hio. apply in_order_app in Hio as (_ & Hio & _).
  pose proof Hio as (_ & Hxq & Hio')%in_order_cons. rewrite Forall_forall in Hxq.
  specialize (Hxq q ltac:(set_solver)). unfold rng_before in Hxq. simpl in *.
  rewrite u64_small by (unfold is_u64; lia).
  destruct (Z.eqb_spec (rn_start (rt_node S q)) (rn_end (rt_node S x) + 1)) as [He|He]; simpl.
  - split; [done|]. by apply (fused_intro S a x q b); [..|left].
  - split; [done|]. intros y [Hy%Hbefore|[->|[->|Hy]%elem_of_cons]%elem_of_cons]%elem_of_app; simpl in *; [lia|lia|done|].
    pose proof (in_order_from _ _ _ _ Hio' Hy). simpl in *. lia.
Qed.

Lemma split_spec S x new : rt_inv S → x ∈ rt_head S → new ∉ rt_head S →
  (rng S x).1 < (rng S new).1 ≤ (rng S x).2 →
  ∃ S', uvm_range_tree_split x new S = (NV_OK, S') ∧ rt_inv S' ∧
    (∀ y, y ∈ rt_head S' ↔ y = new ∨ y ∈ rt_head S) ∧
    rng S' new = ((rng S new).1, (rng S x).2) ∧ rng S' x = ((rng S x).1, (rng S new).1 - 1) ∧
    (∀ y, y ≠ x → y ≠ new → rng S' y = rng S y).
Proof.
  intros Hinv Hx Hnew Hs. assert (new ≠ x) as Hne by (intros ->; done).
  pose proof (rti_bounds _ Hinv x Hx) as Hb. unfold uvm_range_tree_split.
  rewrite u64_small by (unfold is_u64; simpl in *; lia).
  set (S1 := rt_set new _ S). set (S2 := rt_set x _ S1).
  assert (rt_inv S1) as Hinv1 by by apply set_out_inv.
  assert (rng S1 x = rng S x) as Hx1 by by apply rng_set_ne.
  assert (rt_inv S2) as Hinv2 by (apply shrink_inv; [done|done|]; rewrite Hx1; simpl in *; lia).
  assert (rng S2 x = ((rng S x).1, (rng S new).1 - 1)) as Hx2 by apply rng_set_eq.
  assert (rng S2 new = ((rng S new).1, (rng S x).2)) as Hn2.
  { unfold S2. rewrite rng_set_ne by done. apply rng_set_eq. }
  assert (∀ y, y ≠ x → y ≠ new → rng S2 y = rng S y) as Hrest.
  { intros y Hy Hy'. unfold S2, S1. by rewrite !rng_set_ne. }
  destruct (add_free S2 new Hinv2) as (a & b & T & Heq & Hadd & Hhd & Hinv').
  - split; [done| |rewrite Hn2; simpl in *; lia].
    simpl. rewrite lookup_insert_ne by done. by rewrite lookup_insert_eq.
  - intros y Hy. unfold overlaps. rewrite Hn2. destruct (decide (y = x)) as [->|Hyx]; [rewrite Hx2; simpl; lia|].
    rewrite Hrest by (try done; intros ->; done). intros Hov. simpl in Hov.
    assert (uvm_range_tree_find S (Z.max (rng S new).1 (rng S y).1) = Some x) as Hf1.
    { apply range_find_iff; [done|]. split; [done|]. pose proof (rti_le S y Hinv Hy). simpl in *. lia. }
    assert (uvm_range_tree_find S (Z.max (rng S new).1 (rng S y).1) = Some y) as Hf2; [|congruence].
    apply range_find_iff; [done|]. split; [done|]. pose proof (rti_le S y Hinv Hy). simpl in *. lia.
  - exists (RangeTree T (rt_nodes S2)). split_and!; [done|done| |done|done|done].
    intros y. unfold rt_head at 1. simpl. rewrite Hhd. change (rt_head S) with (rt_head S2). rewrite Heq. set_solver.
Qed.
End range_laws.

(** * The tree as a function from addresses to nodes *)

Inductive range_op :=
| RSetNode (x : nat) (n : uvm_range_tree_node_t)
| RAdd (x : nat)
| RRemove (x : nat)
| RShrink (x : nat) (new_start new_end : Z)
| RSplit (existing new : nat)
| RMergePrev (x : nat)
| RMergeNext (x : nat).

Definition node_has (S : uvm_range_tree_t) (x : nat) (k : Z) : Prop := (rng S x).1 ≤ k ≤ (rng S x).2.

#[export] Instance node_has_dec S x k : Decision (node_has S x k).
Proof. unfold node_has. apply _. Defined.

(** What the header and the assertions ask of the caller; the fields of a node
    in the tree are not its to set. *)
Definition range_pre (op : range_op) (S : uvm_range_tree_t) : Prop :=
  match op with
  | RSetNode x n => x ∉ rt_head S
  | RAdd x => addable S x
  | RRemove x | RMergePrev x | RMergeNext x => x ∈ rt_head S
  | RShrink x s e => x ∈ rt_head S ∧ s ≤ e ∧ (rng S x).1 ≤ s ∧ e ≤ (rng S x).2
  | RSplit x new => x ∈ rt_head S ∧ (new ∉ rt_head S) ∧ (rng S x).1 < (rng S new).1 ≤ (rng S x).2
  end.

Section owners.
Context `{!RbOps}.

Definition range_run (op : range_op) (S : uvm_range_tree_t) : uvm_range_tree_t :=
  match op with
  | RSetNode x n => rt_set x n S
  | RAdd x => (uvm_range_tree_add x S).2
  | RRemove x => uvm_range_tree_remove x S
  | RShrink x s e => uvm_range_tree_shrink_node x s e S
  | RSplit x new => (uvm_range_tree_split x new S).2
  | RMergePrev x => (uvm_range_tree_merge_prev x S).2
  | RMergeNext x => (uvm_range_tree_merge_next x S).2
  end.

(** The states a client can reach. *)
Inductive range_reach : uvm_range_tree_t → Prop :=
| range_reach_init nodes : range_reach (uvm_range_tree_init nodes)
| range_reach_step op S : range_reach S → range_pre op S → range_reach (range_run op S).

(** What each operation does to the owner of every address. *)
Definition owner_spec (op : range_op) (S : uvm_range_tree_t) : Prop :=
  let find := uvm_range_tree_find in
  let S' := range_run op S in
  match op with
  | RSetNode x n => ∀ k, find S' k = find S k
  | RAdd x =>
      let '(status, _) := uvm_range_tree_add x S in
      (status = NV_OK ∧ (∀ k, node_has S x k → find S k = None) ∧
       ∀ k, find S' k = if decide (node_has S x k) then Some x else find S k) ∨
      (status = NV_ERR_UVM_ADDRESS_IN_USE ∧ S' = S ∧ ∃ k, node_has S x k ∧ is_Some (find S k))
  | RRemove x => ∀ k, find S' k = if decide (find S k = Some x) then None else find S k
  | RShrink x s e => ∀ k, find S' k = if decide (find S k = Some x ∧ ¬ (s ≤ k ≤ e)) then None else find S k
  | RSplit x new =>
      (uvm_range_tree_split x new S).1 = NV_OK ∧
      ∀ k, find S' k = if decide (find S k = Some x ∧ (rng S new).1 ≤ k) then Some new else find S k
  | RMergePrev x =>
      match uvm_range_tree_merge_prev x S with
      | (None, _) => S' = S ∧ find S ((rng S x).1 - 1) = None
      | (Some p, _) =>
          p ≠ x ∧ find S ((rng S x).1 - 1) = Some p ∧
          ∀ k, find S' k = if decide (find S k = Some p) then Some x else find S k
      end
  | RMergeNext x =>
      match uvm_range_tree_merge_next x S with
      | (None, _) => S' = S ∧ find S ((rng S x).2 + 1) = None
      | (Some q, _) =>
          q ≠ x ∧ find S ((rng S x).2 + 1) = Some q ∧
          ∀ k, find S' k = if decide (find S k = Some q) then Some x else find S k
      end
  end.

(** ** Proofs *)

Lemma rt_inv_init nodes : rt_inv (uvm_range_tree_init nodes).
Proof. split; [apply lt_ok_init|by split; constructor|..]; intros x Hx; by apply elem_of_nil in Hx. Qed.

Lemma find_eq S k o : rt_inv S → (∀ y, o = Some y ↔ y ∈ rt_head S ∧ node_has S y k) → uvm_range_tree_find S k = o.
Proof. intros Hinv Ho. apply option_eq. intros y. by rewrite range_find_iff, Ho. Qed.

Lemma find_in S k y : rt_inv S → y ∈ rt_head S → node_has S y k → uvm_range_tree_find S k = Some y.
Proof. intros. by apply range_find_iff. Qed.

Context `{!RbLaws}.

Lemma owner_add S x : rt_inv S → addable S x → rt_inv (range_run (RAdd x) S) ∧ owner_spec (RAdd x) S.
Proof.
  intros Hinv Had. simpl.
  destruct (decide (Exists (λ y, overlaps S x y) (rt_head S))) as [[y [Hy Hov]]%Exists_exists|Hno].
  - rewrite (add_used S x y) by done. split; [done|]. right. split_and!; [done|done|].
    exists (Z.max (rng S x).1 (rng S y).1). pose proof (rti_le _ _ Hinv Hy). destruct Had as [_ _ Hx].
    unfold overlaps in Hov. split; [unfold node_has; lia|]. exists y. apply find_in; [done..|unfold node_has; lia].
  - destruct (add_free S x Hinv Had) as (a & b & T & Heq & -> & Hhd & Hinv').
    { intros y Hy Hov. apply Hno, Exists_exists. eauto. }
    simpl. split; [done|]. left. split; [done|].
    assert (∀ k, node_has S x k → uvm_range_tree_find S k = None) as Hfree.
    { intros k Hk. apply range_find_none; [done|]. intros y Hy Hin. apply Hno, Exists_exists. exists y.
      split; [done|]. unfold overlaps, node_has in *. lia. }
    split; [done|]. intros k. apply find_eq; [done|]. intros y.
    change (node_has (RangeTree T (rt_nodes S))) with (node_has S). unfold rt_head at 1. simpl. rewrite Hhd.
    assert (y ∈ a ++ x :: b ↔ y = x ∨ y ∈ rt_head S) as -> by (rewrite Heq; set_solver).
    case_decide as Hk.
    + specialize (Hfree k Hk). rewrite range_find_none in Hfree by done. split; [intros [= <-]; by auto|].
      intros [[->|Hy] Hin]; [done|]. by destruct (Hfree y Hy).
    + rewrite range_find_iff by done. fold (node_has S y k). split; [tauto|]. intros [[->|Hy] Hin]; [done|by auto].
Qed.

Lemma owner_fused S S' w o s e k : rt_inv S → w ∈ rt_head S → fused S S' w o s e →
  (∀ i, s ≤ i ≤ e ↔ node_has S w i ∨ node_has S o i) →
  uvm_range_tree_find S' k = if decide (uvm_range_tree_find S k = Some o) then Some w else uvm_range_tree_find S k.
Proof.
  intros Hinv Hw [Hinv' [Ho Hne] Hhd Hrw Hrest _] Hse.
  assert (∀ i, node_has S' w i ↔ node_has S w i ∨ node_has S o i) as Hw'.
  { intros i. rewrite <-Hse. unfold node_has. by rewrite Hrw. }
  assert (∀ y i, y ≠ w → node_has S' y i ↔ node_has S y i) as Hr'.
  { intros y i Hy. unfold node_has. by rewrite Hrest. }
  case_decide as Hf.
  - apply find_in; [done|apply Hhd; by auto|]. apply Hw'. right. by apply range_find_iff in Hf as [_ Hf].
  - apply find_eq; [done|]. intros y. rewrite range_find_iff, Hhd by done. fold (node_has S y k).
    destruct (decide (y = w)) as [->|Hyw].
    + rewrite Hw'. split; [intros [_ Hin]; by auto|]. intros [_ [Hin|Hin]]; [by auto|]. destruct Hf. by apply find_in.
    + rewrite Hr' by done. split; [|tauto]. intros [Hy Hin]. split; [split; [done|]|done].
      intros ->. destruct Hf. by apply find_in.
Qed.

Lemma owner_merge_prev S x : rt_inv S → x ∈ rt_head S → rt_inv (range_run (RMergePrev x) S) ∧ owner_spec (RMergePrev x) S.
Proof.
  intros Hinv Hx. simpl. pose proof (merge_prev_spec S x Hinv Hx) as Hm.
  destruct (uvm_range_tree_merge_prev x S) as [[p|] S']; simpl.
  - destruct Hm as [He Hfu]. pose proof Hfu as [Hinv' [Hp Hne] _ _ _ _]. pose proof (rti_le _ _ Hinv Hp).
    pose proof (rti_le _ _ Hinv Hx). split; [done|]. split_and!; [done|apply find_in; [done..|unfold node_has; simpl in *; lia]|].
    intros k. eapply owner_fused; [done|done|done|]. unfold node_has. simpl in *. lia.
  - destruct Hm as [-> Hno]. split; [done|]. split; [done|]. apply range_find_none; [done|]. intros y Hy Hin.
    pose proof (rti_le _ _ Hinv Hx). specialize (Hno y Hy).
    assert (uvm_range_tree_find S (rng S x).1 = Some y) as Hf by (apply find_in; [done|done|unfold node_has; simpl in *; lia]).
    rewrite (find_in S _ x) in Hf by (unfold node_has; done || lia). simplify_eq. simpl in *. lia.
Qed.

Lemma owner_merge_next S x : rt_inv S → x ∈ rt_head S → rt_inv (range_run (RMergeNext x) S) ∧ owner_spec (RMergeNext x) S.
Proof.
  intros Hinv Hx. simpl. pose proof (merge_next_spec S x Hinv Hx) as Hm.
  destruct (uvm_range_tree_merge_next x S) as [[q|] S']; simpl.
  - destruct Hm as [He Hfu]. pose proof Hfu as [Hinv' [Hq Hne] _ _ _ _]. pose proof (rti_le _ _ Hinv Hq).
    pose proof (rti_le _ _ Hinv Hx). split; [done|]. split_and!; [done|apply find_in; [done..|unfold node_has; simpl in *; lia]|].
    intros k. eapply owner_fused; [done|done|done|]. unfold node_has. simpl in *. lia.
  - destruct Hm as [-> Hno]. split; [done|]. split; [done|]. apply range_find_none; [done|]. intros y Hy Hin.
    pose proof (rti_le _ _ Hinv Hx). specialize (Hno y Hy).
    assert (uvm_range_tree_find S (rng S x).2 = Some y) as Hf by (apply find_in; [done|done|unfold node_has; simpl in *; lia]).
    rewrite (find_in S _ x) in Hf by (unfold node_has; done || lia). simplify_eq. simpl in *. lia.
Qed.

Lemma owner_split S x new : rt_inv S → range_pre (RSplit x new) S →
  rt_inv (range_run (RSplit x new) S) ∧ owner_spec (RSplit x new) S.
Proof.
  intros Hinv (Hx & Hnew & Hs). simpl. destruct (split_spec S x new Hinv Hx Hnew Hs) as (S' & -> & Hinv' & Hhd & Hn & Hx' & Hrest).
  simpl. split; [done|]. split; [done|]. intros k. apply find_eq; [done|]. intros y. rewrite Hhd.
  assert (new ≠ x) as Hne by (intros ->; done).
  assert (node_has S' y k ↔ if decide (y = new) then (rng S new).1 ≤ k ∧ node_has S x k
    else if decide (y = x) then k < (rng S new).1 ∧ node_has S x k else node_has S y k) as ->.
  { unfold node_has. repeat case_decide; subst; [rewrite Hn|rewrite Hx'|by rewrite Hrest]; simpl in *; lia. }
  case_decide as Hc.
  - destruct Hc as [[_ Hf]%range_find_iff Hk]; [|done]. split; [intros [= <-]; by rewrite decide_True; auto|].
    case_decide as Hy; [by intros; subst|]. intros [[->|Hyh] Hin]; [done|].
    case_decide as Hyx; [simpl in *; lia|]. destruct Hyx.
    assert (uvm_range_tree_find S k = Some y) as Hfy by by apply find_in. rewrite (find_in S k x) in Hfy by done. congruence.
  - rewrite range_find_iff by done. fold (node_has S y k). repeat case_decide; subst.
    + split; [by intros []|]. intros [_ [Hk Hin]]. destruct Hc. split; [by apply find_in|done].
    + split; [|by intros [_ [_ ?]]]. intros [_ Hin]. split; [by auto|]. split; [|done].
      destruct (Z.le_gt_cases (rng S new).1 k); [|done]. destruct Hc. split; [by apply find_in|done].
    + split; [by intros []; auto|]. by intros [[|] ?].
Qed.

Lemma owner_step op S : rt_inv S → range_pre op S → rt_inv (range_run op S) ∧ owner_spec op S.
Proof.
  intros Hinv Hpre. destruct op as [x n|x|x|x s e|x new|x|x].
  - simpl in *. assert (rt_inv (rt_set x n S)) as Hinv' by by apply set_out_inv. split; [done|]. intros k.
    apply find_eq; [done|]. intros y. rewrite range_find_iff by done. unfold node_has.
    destruct (decide (x = y)) as [<-|Hne]; [|by rewrite rng_set_ne]. by split; intros [Hx ?]; destruct Hpre.
  - by apply owner_add.
  - simpl in *. destruct (remove_inv S x Hinv Hpre) as [Hinv' Hhd]. split; [done|]. intros k. apply find_eq; [done|].
    intros y. rewrite Hhd. change (node_has (uvm_range_tree_remove x S)) with (node_has S). case_decide as Hf.
    + split; [done|]. intros [[Hy Hne] Hin]. assert (uvm_range_tree_find S k = Some y) by by apply find_in. congruence.
    + rewrite range_find_iff by done. fold (node_has S y k). split; [|tauto]. intros [Hy Hin]. split; [split; [done|]|done].
      intros ->. destruct Hf. by apply find_in.
  - destruct Hpre as (Hx & Hse & Hs & He). assert (rt_inv (uvm_range_tree_shrink_node x s e S)) as Hinv' by (by apply shrink_inv).
    split; [done|]. intros k. apply find_eq; [done|]. intros y. change (rt_head (range_run (RShrink x s e) S)) with (rt_head S).
    assert (node_has (range_run (RShrink x s e) S) y k ↔ if decide (y = x) then s ≤ k ≤ e else node_has S y k) as ->.
    { unfold node_has, range_run, uvm_range_tree_shrink_node. case_decide; subst; [by rewrite rng_set_eq|by rewrite rng_set_ne]. }
    case_decide as Hc.
    + destruct Hc as [[_ Hf]%range_find_iff Hk]; [|done]. split; [done|]. case_decide as Hy; [tauto|]. intros [Hyh Hin].
      assert (uvm_range_tree_find S k = Some y) as Hfy by by apply find_in. rewrite (find_in S k x) in Hfy by done. congruence.
    + rewrite range_find_iff by done. fold (node_has S y k). case_decide as Hy; [subst|done]. split.
      * intros [_ Hin]. split; [done|]. destruct (decide (s ≤ k ≤ e)); [done|]. destruct Hc. split; [by apply find_in|done].
      * intros [_ Hk]. split; [done|]. unfold node_has. lia.
  - by apply owner_split.
  - by apply owner_merge_prev.
  - by apply owner_merge_next.
Qed.

Lemma range_reach_inv S : range_reach S → rt_inv S.
Proof. induction 1 as [nodes|op S _ IH Hpre]; [apply rt_inv_init|]. by apply owner_step. Qed.
End owners.

(** Clamped to a range that has the address, a hole is the part of the hole in the range. *)
Lemma find_hole_in_spec S addr start end_ : rt_inv S → 0 ≤ start ≤ addr → addr ≤ end_ < 2 ^ 64 →
  match uvm_range_tree_find_hole_in S addr start end_ with
  | (status, (lo, hi)) =>
      (status = NV_ERR_UVM_ADDRESS_IN_USE ∧ is_Some (uvm_range_tree_find S addr) ∧ lo = start ∧ hi = end_) ∨
      (status = NV_OK ∧ start ≤ lo ≤ addr ∧ addr ≤ hi ≤ end_ ∧
       (∀ k, lo ≤ k ≤ hi → uvm_range_tree_find S k = None) ∧
       (start < lo → is_Some (uvm_range_tree_find S (lo - 1))) ∧
       (hi < end_ → is_Some (uvm_range_tree_find S (hi + 1))))
  end.
Proof.
  intros Hinv Hs He. pose proof (find_hole_spec S addr Hinv ltac:(lia)) as Hh.
  unfold uvm_range_tree_find_hole_in. destruct (uvm_range_tree_find_hole S addr) as [st|[lo hi]].
  { destruct Hh as [-> Hf]. by left. }
  right. destruct Hh as [Hin Hfree Hmax]. split_and!; [done|lia..| | |].
  - intros k Hk. apply Hfree. lia.
  - intros Hlt. destruct (uvm_range_tree_find S (Z.max lo start - 1)) eqn:Hf; [done|]. exfalso.
    destruct (Hmax (lo - 1) hi) as [? _]; [lia..| |lia]. intros k Hk.
    destruct (decide (k = lo - 1)) as [->|]; [by replace (lo - 1) with (Z.max lo start - 1) by lia|apply Hfree; lia].
  - intros Hlt. destruct (uvm_range_tree_find S (Z.min hi end_ + 1)) eqn:Hf; [done|]. exfalso.
    destruct (Hmax lo (hi + 1)) as [_ ?]; [lia..| |lia]. intros k Hk.
    destruct (decide (k = hi + 1)) as [->|]; [by replace (hi + 1) with (Z.min hi end_ + 1) by lia|apply Hfree; lia].
Qed.

(** * Properties *)

(** C28: In every state a client can reach, each operation of a range tree does to the owner of
    every address exactly what it says: an added node owns its range when no address of it had
    an owner, and is refused with nothing changed when one had; a removed node owns nothing; a
    shrunk node keeps the new range; a split gives the upper part to the new node and never
    fails; a merge gives the neighbour's range to the node when the neighbour is adjacent, and
    does nothing otherwise. *)
Theorem range_tree_owners_exact `{!RbOps} (HL : RbLaws) (op : range_op) (S : uvm_range_tree_t) :
  range_reach S → range_pre op S → owner_spec op S.
Proof. intros Hr Hpre. by apply owner_step; [apply range_reach_inv|]. Qed.

(** In every reachable state the hole found at an address is the largest range of 64-bit
    addresses with it and without an owned address, and the search is refused just when the
    address has an owner. *)
Theorem find_hole_largest `{!RbOps} (HL : RbLaws) (S : uvm_range_tree_t) (addr : Z) :
  range_reach S → 0 ≤ addr < 2 ^ 64 →
  match uvm_range_tree_find_hole S addr with
  | inl status => status = NV_ERR_UVM_ADDRESS_IN_USE ∧ is_Some (uvm_range_tree_find S addr)
  | inr (lo, hi) => is_hole S addr lo hi
  end.
Proof. intros Hr. by apply find_hole_spec, range_reach_inv. Qed.

(** In every reachable state a loop over a range ends within as many turns as the tree has
    nodes, and visits exactly the nodes with an address in the range, by increasing address. *)
Theorem range_loop_exact `{!RbOps} (HL : RbLaws) (S : uvm_range_tree_t) (start end_ : Z) (fuel : nat) :
  range_reach S → start ≤ end_ → (length (rt_head S) ≤ fuel)%nat →
  uvm_range_tree_for_each_in fuel S start end_ =
    filter (λ x, start ≤ (rng S x).2 ∧ (rng S x).1 ≤ end_) (rt_head S) ∧
  StronglySorted (rng_before (rng S)) (rt_head S).
Proof. intros Hr%range_reach_inv. split; [by apply for_each_in_exact|]. apply (rti_order _ Hr). Qed.

(** ** Witnesses *)

Definition range_example_nodes : gmap nat uvm_range_tree_node_t :=
  list_to_map [(0%nat, RangeNode 0x1000 0x1fff); (1%nat, RangeNode 0x1800 0); (2%nat, RangeNode 0x4000 0x4fff)].

Definition range_example : uvm_range_tree_t :=
  range_run (RAdd 0) (range_run (RAdd 2) (uvm_range_tree_init range_example_nodes)).

Lemma range_example_reach : range_reach range_example.
Proof.
  apply range_reach_step; [apply range_reach_step; [apply range_reach_init|]|].
  - split; [set_solver|by eexists|]. vm_compute. repeat split; discriminate.
  - split; [vm_compute; intros H; inversion H as [|? ? ? H']; by apply elem_of_nil in H'|by eexists|].
    vm_compute. repeat split; discriminate.
Qed.

Lemma range_example_split : range_pre (RSplit 0 1) range_example.
Proof.
  split_and!; [apply (bool_decide_unpack (0%nat ∈ rt_head range_example)); vm_compute; exact I| |vm_compute; reflexivity|vm_compute; discriminate].
  apply (bool_decide_unpack (1%nat ∉ rt_head range_example)). vm_compute. exact I.
Qed.

Lemma range_tree_owners_exact_witness :
  (map (uvm_range_tree_find (range_run (RSplit 0 1) range_example)) [0xfff; 0x1000; 0x17ff; 0x1800; 0x1fff; 0x2000; 0x4000] =
    [None; Some 0%nat; Some 0%nat; Some 1%nat; Some 1%nat; None; Some 2%nat]) ∧
  owner_spec (RSplit 0 1) range_example.
Proof.
  split; [vm_compute; reflexivity|].
  exact (range_tree_owners_exact plain_laws (RSplit 0 1) range_example range_example_reach range_example_split).
Defined.

Lemma find_hole_largest_witness :
  uvm_range_tree_find_hole range_example 0x3000 = inr (0x2000, 0x3fff) ∧ is_hole range_example 0x3000 0x2000 0x3fff.
Proof.
  split; [vm_compute; reflexivity|].
  assert (0 ≤ 0x3000 < 2 ^ 64) as Hb by lia.
  exact (find_hole_largest plain_laws range_example 0x3000 range_example_reach Hb).
Defined.

Lemma range_loop_exact_witness :
  uvm_range_tree_for_each_in 2 range_example 0x1f00 0x4000 = [0%nat; 2%nat] ∧
  uvm_range_tree_for_each_in 2 range_example 0x1f00 0x4000 =
    filter (λ x, 0x1f00 ≤ (rng range_example x).2 ∧ (rng range_example x).1 ≤ 0x4000) (rt_head range_example).
Proof.
  split; [vm_compute; reflexivity|].
  apply (range_loop_exact plain_laws range_example 0x1f00 0x4000 2 range_example_reach); [lia|].
  vm_compute. lia.
Defined.
