(* ===== verification/RangeAllocator.v ===== *)
(** * Range allocator: kernel-open/nvidia-uvm/uvm_range_allocator.c and .h

    The free ranges of [0, size) are the nodes of a range tree. An allocation
    carries the node that will give its range back. Memory comes from
    uvm_kvmalloc: [ra_memory] says of each coming call whether it succeeds (when the
    list is empty, it does), and a node is a number not given out before. An
    operation is the part of the code between taking and releasing the lock. *)

From stdpp Require Import base numbers list gmap sorting.
From S2P Require Import Prelude RbTree RangeTree.
#[local] Open Scope Z_scope.

Record uvm_range_allocator_t := RangeAllocator {
  ra_size : Z;
  ra_tree : uvm_range_tree_t;
  ra_next : nat;
  ra_memory : list bool }.

Record uvm_range_allocation_t := RangeAllocation {
  al_aligned_start : Z;
  al_node : option nat }.

Definition ra_set_tree (S : uvm_range_tree_t) (A : uvm_range_allocator_t) : uvm_range_allocator_t :=
  RangeAllocator (ra_size A) S (ra_next A) (ra_memory A).

(** uvm_kvmalloc of a node; its fields are not set. *)
Definition node_alloc (A : uvm_range_allocator_t) : option nat * uvm_range_allocator_t :=
  if default true (head (ra_memory A)) then
    (Some (ra_next A),
     RangeAllocator (ra_size A) (rt_set (ra_next A) (RangeNode 0 0) (ra_tree A)) (S (ra_next A)) (tail (ra_memory A)))
  else (None, RangeAllocator (ra_size A) (ra_tree A) (ra_next A) (tail (ra_memory A))).

(** uvm_kvfree of a node. *)
Definition node_free (x : nat) (A : uvm_range_allocator_t) : uvm_range_allocator_t :=
  ra_set_tree (RangeTree (rt_tree (ra_tree A)) (delete x (rt_nodes (ra_tree A)))) A.

(** An alignment of 0 is one of 1. *)
Definition alloc_alignment (alignment : Z) : Z := if alignment =? 0 then 1 else alignment.

(** The place in a free range, and whether it fits. *)
Definition aligned_start (n : uvm_range_tree_node_t) (alignment : Z) : Z := UVM_ALIGN_UP (rn_start n) alignment.

Definition aligned_end (n : uvm_range_tree_node_t) (size alignment : Z) : Z :=
  u64 (aligned_start n alignment + size - 1).

Definition alloc_fits (n : uvm_range_tree_node_t) (size alignment : Z) : bool :=
  if (aligned_start n alignment <? rn_start n) || (aligned_end n size alignment <? aligned_start n alignment) then false
  else if aligned_end n size alignment >? rn_end n then false
  else true.

(** The loop over the free ranges: the first that fits. *)
Fixpoint alloc_scan (fuel : nat) (S : uvm_range_tree_t) (end_ size alignment : Z) (node : option nat) : option nat :=
  match fuel, node with
  | Datatypes.S fuel, Some x =>
      if alloc_fits (rt_node S x) size alignment then Some x
      else alloc_scan fuel S end_ size alignment (uvm_range_tree_iter_next S x end_)
  | _, _ => None
  end.

Section allocator.
Context `{!RbOps}.

Definition uvm_range_allocator_init (size : Z) (memory : list bool) : Z * uvm_range_allocator_t :=
  let A := RangeAllocator 0 (uvm_range_tree_init ∅) 0 memory in
  let '(node, A) := node_alloc A in
  match node with
  | None => (NV_ERR_NO_MEMORY, A)
  | Some x =>
      let R := rt_set x (RangeNode 0 (u64 (size - 1))) (ra_tree A) in
      let '(_, R) := uvm_range_tree_add x R in
      (NV_OK, RangeAllocator size R (ra_next A) (ra_memory A))
  end.

(** [None] is a fault: the removal of a null node. *)
Definition uvm_range_allocator_deinit (A : uvm_range_allocator_t) : option uvm_range_allocator_t :=
  match uvm_range_tree_iter_first (ra_tree A) 0 (u64 (ra_size A - 1)) with
  | None => None
  | Some x => Some (node_free x (ra_set_tree (uvm_range_tree_remove x (ra_tree A)) A))
  end.

(** Taking the range of [size] bytes out of the free range [x], for the node [n]. *)
Definition alloc_take (x n : nat) (size alignment : Z) (A : uvm_range_allocator_t) : uvm_range_allocator_t :=
  let R := ra_tree A in
  let node := rt_node R x in
  let e := aligned_end node size alignment in
  let R := rt_set n (RangeNode (rn_start node) e) R in
  if e <? rn_end node then
    ra_set_tree (uvm_range_tree_shrink_node x (u64 (e + 1)) (rn_end node) R) A
  else node_free x (ra_set_tree (uvm_range_tree_remove x R) A).

Definition uvm_range_allocator_alloc (size alignment : Z) (range_alloc : uvm_range_allocation_t)
    (A : uvm_range_allocator_t) : Z * uvm_range_allocation_t * uvm_range_allocator_t :=
  let alignment := alloc_alignment alignment in
  if size >? ra_size A then (NV_ERR_UVM_ADDRESS_IN_USE, range_alloc, A)
  else
    let '(node, A) := node_alloc A in
    match node with
    | None => (NV_ERR_NO_MEMORY, RangeAllocation (al_aligned_start range_alloc) None, A)
    | Some n =>
        let R := ra_tree A in
        let end_ := u64 (ra_size A - size) in
        match alloc_scan (length (rt_head R)) R end_ size alignment (uvm_range_tree_iter_first R 0 end_) with
        | Some x =>
            (NV_OK, RangeAllocation (aligned_start (rt_node R x) alignment) (Some n), alloc_take x n size alignment A)
        | None =>
            (NV_ERR_UVM_ADDRESS_IN_USE, RangeAllocation (al_aligned_start range_alloc) None, node_free n A)
        end
    end.

Definition free_adjacent (adjacent_node : option nat) (A : uvm_range_allocator_t) : uvm_range_allocator_t :=
  match adjacent_node with
  | Some y => node_free y A
  | None => A
  end.

(** [None] is a fault: the addition of a null node. *)
Definition uvm_range_allocator_free (range_alloc : option uvm_range_allocation_t) (A : uvm_range_allocator_t) :
    option (option uvm_range_allocation_t * uvm_range_allocator_t) :=
  match range_alloc with
  | None => Some (None, A)
  | Some al =>
      match al_node al with
      | None => None
      | Some n =>
          let '(_, R) := uvm_range_tree_add n (ra_tree A) in
          let '(prev, R) := uvm_range_tree_merge_prev n R in
          let A := free_adjacent prev (ra_set_tree R A) in
          let '(next, R) := uvm_range_tree_merge_next n (ra_tree A) in
          let A := free_adjacent next (ra_set_tree R A) in
          Some (Some (RangeAllocation (al_aligned_start al) None), A)
      end
  end.
End allocator.

(** * The first free range that fits *)

Record pow2 (k a : Z) : Prop := { pw_exp : 0 ≤ k ≤ 63; pw_eq : a = 2 ^ k }.

(** The place is the lowest aligned one, when there is one. *)
Lemma aligned_start_least n k a : pow2 k a → 0 ≤ rn_start n < 2 ^ 64 →
  (rn_start n ≤ aligned_start n a ∧ aligned_start n a mod a = 0 ∧ aligned_start n a < 2 ^ 64 ∧
   ∀ s, rn_start n ≤ s → s mod a = 0 → aligned_start n a ≤ s) ∨
  (aligned_start n a < rn_start n ∧ ∀ s, rn_start n ≤ s → s mod a = 0 → 2 ^ 64 ≤ s).
Proof.
  intros [Hk ->] Hn. assert (0 < 2 ^ k) by (apply Z.pow_pos_nonneg; lia).
  assert (2 ^ 64 = 2 ^ (64 - k) * 2 ^ k) as H64 by (rewrite <-Z.pow_add_r by lia; f_equal; lia).
  unfold aligned_start. destruct (Z.lt_ge_cases (rn_start n + 2 ^ k - 1) (2 ^ 64)) as [Hlt|Hge].
  - left. rewrite UVM_ALIGN_UP_eq by lia. set (q := (rn_start n + 2 ^ k - 1) / 2 ^ k).
    assert (rn_start n ≤ q * 2 ^ k ≤ rn_start n + 2 ^ k - 1) as Hq.
    { unfold q. pose proof (Z.div_mod (rn_start n + 2 ^ k - 1) (2 ^ k) ltac:(lia)).
      pose proof (Z.mod_pos_bound (rn_start n + 2 ^ k - 1) (2 ^ k) ltac:(lia)). lia. }
    split_and!; [apply Hq|apply Z.mod_mul; lia|lia|]. intros s Hs Hm.
    apply Z.mod_divide in Hm as [d ->]; [|lia]. apply Z.mul_le_mono_nonneg_r; [lia|].
    apply Z.lt_succ_r, (Z.mul_lt_mono_pos_r (2 ^ k)); lia.
  - right. rewrite UVM_ALIGN_UP_wrap by (unfold is_u64; lia).
    assert (2 ^ k ≤ 2 ^ 63) by (apply Z.pow_le_mono_r; lia). split; [lia|]. intros s Hs Hm.
    apply Z.mod_divide in Hm as [d ->]; [|lia]. rewrite H64 in *. apply Z.mul_le_mono_nonneg_r; [lia|].
    apply Z.lt_succ_r, (Z.mul_lt_mono_pos_r (2 ^ k)); lia.
Qed.

Lemma fits_true n k a size : pow2 k a → 0 ≤ rn_start n ∧ rn_end n < 2 ^ 64 → rn_start n ≤ rn_end n → 1 ≤ size < 2 ^ 64 →
  alloc_fits n size a = true →
  rn_start n ≤ aligned_start n a ∧ aligned_start n a mod a = 0 ∧
  aligned_end n size a = aligned_start n a + size - 1 ∧ aligned_end n size a ≤ rn_end n.
Proof.
  intros Ha Hn Hle Hs. destruct (aligned_start_least n k a Ha ltac:(lia)) as [(Hge & Hm & Hlt & _)|[Hlt _]]; unfold alloc_fits.
  2: { by rewrite (proj2 (Z.ltb_lt _ _)) by done. }
  rewrite (proj2 (Z.ltb_ge _ _)) by done. simpl.
  destruct (Z.ltb_spec (aligned_end n size a) (aligned_start n a)) as [|Hae]; [done|].
  destruct (Z.gtb_spec (aligned_end n size a) (rn_end n)) as [|Hend]; [done|]. intros _.
  assert (aligned_end n size a = aligned_start n a + size - 1); [|done].
  unfold aligned_end, u64 in *. destruct (Z.lt_ge_cases (aligned_start n a + size - 1) (2 ^ 64)) as [Hs'|Hs'].
  { apply Z.mod_small. lia. }
  rewrite <-(Z.mod_unique _ (2 ^ 64) 1 (aligned_start n a + size - 1 - 2 ^ 64)) in Hae by lia. lia.
Qed.

Lemma fits_false n k a size : pow2 k a → 0 ≤ rn_start n ∧ rn_end n < 2 ^ 64 → rn_start n ≤ rn_end n → 1 ≤ size < 2 ^ 64 →
  alloc_fits n size a = false → ∀ s, s mod a = 0 → rn_start n ≤ s → rn_end n < s + size - 1.
Proof.
  intros Ha Hn Hle Hs Hf s Hm Hss. destruct (Z.lt_ge_cases (rn_end n) (s + size - 1)) as [|Hge']; [done|]. exfalso.
  destruct (aligned_start_least n k a Ha ltac:(lia)) as [(Hge & _ & _ & Hmin)|[_ Hmin]].
  2: { specialize (Hmin s Hss Hm). lia. }
  specialize (Hmin s Hss Hm). revert Hf. unfold alloc_fits. rewrite (proj2 (Z.ltb_ge _ _)) by done. simpl.
  unfold aligned_end. rewrite u64_small by (unfold is_u64; lia).
  rewrite (proj2 (Z.ltb_ge _ _)) by lia. by destruct (Z.gtb_spec (aligned_start n a + size - 1) (rn_end n)); [lia|].
Qed.

Lemma alloc_scan_first fuel S end_ size a node :
  alloc_scan fuel S end_ size a node =
  head (filter (λ x, alloc_fits (rt_node S x) size a = true) (for_each_from fuel S end_ node)).
Proof.
  revert node. induction fuel as [|fuel IH]; intros node; [done|]. destruct node as [x|]; simpl; [|done].
  destruct (alloc_fits (rt_node S x) size a) eqn:Hf; [by rewrite filter_cons_True|].
  rewrite filter_cons_False by congruence. apply IH.
Qed.

(** The scan over the free ranges finds one, or none fits. *)
Lemma alloc_scan_spec S total size k a : rt_inv S → pow2 k a → 1 ≤ size ≤ total → total < 2 ^ 64 →
  (∀ x, x ∈ rt_head S → (rng S x).2 < total) →
  match alloc_scan (length (rt_head S)) S (u64 (total - size)) size a (uvm_range_tree_iter_first S 0 (u64 (total - size))) with
  | Some x => x ∈ rt_head S ∧ alloc_fits (rt_node S x) size a = true
  | None => ∀ x s, x ∈ rt_head S → s mod a = 0 → (rng S x).1 ≤ s → (rng S x).2 < s + size - 1
  end.
Proof.
  intros Hinv Ha Hs Ht Hend. rewrite u64_small by (unfold is_u64; lia). rewrite alloc_scan_first.
  fold (uvm_range_tree_for_each_in (length (rt_head S)) S 0 (total - size)).
  rewrite for_each_in_exact by (done || lia). destruct (head _) as [x|] eqn:Hh.
  - apply head_Some_elem_of, list_elem_of_filter in Hh as [Hf [_ Hx]%list_elem_of_filter]. done.
  - intros x s Hx Hm Hxs. destruct (Z.lt_ge_cases (rng S x).2 (s + size - 1)) as [|Hge]; [done|].
    pose proof (rti_bounds _ Hinv x Hx) as Hb. pose proof (rti_le _ _ Hinv Hx) as Hle. specialize (Hend x Hx).
    destruct (alloc_fits (rt_node S x) size a) eqn:Hf; [|by eapply fits_false; [..|done]; simpl in *; try done; lia].
    exfalso. apply head_None in Hh. eapply elem_of_nil. rewrite <-Hh. apply list_elem_of_filter. split; [done|].
    apply list_elem_of_filter. split; [|done]. simpl in *. lia.
Qed.

(** * Invariant *)

#[local] Notation "'own'" := uvm_range_tree_find.

(** Where two free ranges touch. *)
Definition touch_at (S : uvm_range_tree_t) (P : Z → Prop) : Prop :=
  ∀ k x y, own S k = Some x → own S (k + 1) = Some y → x ≠ y → P k.

(** [ids] are the nodes of the allocations that are out. *)
Record ra_inv (A : uvm_range_allocator_t) (ids : list nat) : Prop := {
  rai_tree : rt_inv (ra_tree A);
  rai_size : 1 ≤ ra_size A < 2 ^ 64;
  rai_nodup : NoDup ids;
  rai_stored x : is_Some (rt_nodes (ra_tree A) !! x) ↔ x ∈ rt_head (ra_tree A) ∨ x ∈ ids;
  rai_out x : x ∈ ids → x ∉ rt_head (ra_tree A);
  rai_fresh x : is_Some (rt_nodes (ra_tree A) !! x) → (x < ra_next A)%nat;
  rai_le x : x ∈ ids → (rng (ra_tree A) x).1 ≤ (rng (ra_tree A) x).2;
  rai_cover k : 0 ≤ k < ra_size A ↔ is_Some (own (ra_tree A) k) ∨ ∃ x, x ∈ ids ∧ node_has (ra_tree A) x k;
  rai_taken x k : x ∈ ids → node_has (ra_tree A) x k → own (ra_tree A) k = None;
  rai_disj x y k : x ∈ ids → y ∈ ids → node_has (ra_tree A) x k → node_has (ra_tree A) y k → x = y;
  rai_touch : touch_at (ra_tree A) (λ _, False) }.

(** Dropping a node that is not in the tree. *)
Definition rt_drop (o : option nat) (S : uvm_range_tree_t) : uvm_range_tree_t :=
  match o with
  | Some y => RangeTree (rt_tree S) (delete y (rt_nodes S))
  | None => S
  end.

Lemma rng_drop y S x : x ≠ y → rng (rt_drop (Some y) S) x = rng S x.
Proof. intros Hne. unfold rng, rt_node. simpl. by rewrite lookup_delete_ne. Qed.

Lemma drop_inv y S : rt_inv S → y ∉ rt_head S → rt_inv (rt_drop (Some y) S) ∧ ∀ k, own (rt_drop (Some y) S) k = own S k.
Proof.
  intros Hinv Hy. assert (∀ x, x ∈ rt_head S → rng (rt_drop (Some y) S) x = rng S x) as Hr.
  { intros x Hx. apply rng_drop. by intros ->. }
  assert (rt_inv (rt_drop (Some y) S)) as Hinv'.
  { split; [apply Hinv|eapply in_order_ext; [apply Hinv|done]|..].
    - intros x Hx. rewrite Hr by done. by apply Hinv.
    - intros x Hx. simpl. rewrite lookup_delete_ne by (by intros ->). by apply Hinv. }
  split; [done|]. intros k. apply find_eq; [done|]. intros x. rewrite range_find_iff by done.
  change (rt_head (rt_drop (Some y) S)) with (rt_head S). unfold node_has. split; intros [Hx Hin]; (split; [done|]);
    by rewrite Hr in *.
Qed.

Lemma set_out_own S x n k : rt_inv S → x ∉ rt_head S → own (rt_set x n S) k = own S k.
Proof.
  intros Hinv Hx. apply find_eq; [by apply set_out_inv|]. intros y. rewrite range_find_iff by done. unfold node_has.
  change (rt_head (rt_set x n S)) with (rt_head S). split; intros [Hy Hin]; (split; [done|]);
    rewrite rng_set_ne in * by (intros ->; done); done.
Qed.

Lemma own_in_head S k x : rt_inv S → own S k = Some x → x ∈ rt_head S ∧ node_has S x k.
Proof. intros Hinv. by apply range_find_iff. Qed.

Lemma head_own S x : rt_inv S → x ∈ rt_head S → own S (rng S x).1 = Some x ∧ own S (rng S x).2 = Some x.
Proof. intros Hinv Hx. pose proof (rti_le _ _ Hinv Hx). split; apply find_in; unfold node_has; done || lia. Qed.

(** Free ranges are inside the allocator's. *)
Lemma rai_head_end A ids x : ra_inv A ids → x ∈ rt_head (ra_tree A) → (rng (ra_tree A) x).2 < ra_size A.
Proof.
  intros Hinv Hx. pose proof (rai_tree _ _ Hinv) as Ht. destruct (head_own _ _ Ht Hx) as [_ He].
  apply (rai_cover _ _ Hinv). left. by eexists.
Qed.

Section alloc_proofs.
Context `{!RbOps, !RbLaws}.

(** ** Allocation *)

(** The tree after a range [s, e] at the start of the free range [x] was given to the node [n]. *)
Record taken (S S' : uvm_range_tree_t) (x n : nat) (s e : Z) : Prop := {
  tk_inv : rt_inv S';
  tk_own k : own S' k = if decide (s ≤ k ≤ e) then None else own S k;
  tk_out : n ∉ rt_head S';
  tk_head y : y ∈ rt_head S' → y ∈ rt_head S;
  tk_stored y : is_Some (rt_nodes S' !! y) ↔ (is_Some (rt_nodes S !! y) ∧ (y ∈ rt_head S → y ∈ rt_head S')) ∨ y = n;
  tk_range : rng S' n = (s, e);
  tk_rest y : y ≠ n → y ∉ rt_head S → rng S' y = rng S y }.

Lemma take_rest S n x s e : rt_inv S → n ∉ rt_head S → x ∈ rt_head S → s = (rng S x).1 → s ≤ e < (rng S x).2 →
  taken S (uvm_range_tree_shrink_node x (u64 (e + 1)) (rng S x).2 (rt_set n (RangeNode s e) S)) x n s e.
Proof.
  intros Hinv Hn Hx -> Hse. pose proof (rti_bounds _ Hinv x Hx) as Hb. rewrite u64_small by (unfold is_u64; lia).
  assert (n ≠ x) as Hne by (intros ->; done).
  set (S1 := rt_set n _ S). assert (rt_inv S1) as Hinv1 by by apply set_out_inv.
  assert (rng S1 x = rng S x) as Hx1 by by apply rng_set_ne.
  destruct (owner_step (RShrink x (e + 1) (rng S x).2) S1 Hinv1) as [Hinv2 Hown].
  { simpl. split; [done|]. unfold rng in Hx1. inversion Hx1 as [[Hx2 Hx3]]. rewrite Hx2, Hx3. simpl in *. lia. }
  split; [done| |done|done| |..].
  - intros k. change (range_run _ S1) with (uvm_range_tree_shrink_node x (e + 1) (rng S x).2 S1) in Hown.
    change (∀ k, own (uvm_range_tree_shrink_node x (e + 1) (rng S x).2 S1) k =
      if decide (own S1 k = Some x ∧ ¬ (e + 1 ≤ k ≤ (rng S x).2)) then None else own S1 k) in Hown.
    rewrite Hown. unfold S1. rewrite set_out_own by done.
    destruct (decide (own S k = Some x)) as [Hf|Hf].
    + pose proof (own_in_head _ _ _ Hinv Hf) as [_ Hin]. unfold node_has in Hin. simpl in *.
      destruct (decide (rn_start (rt_node S x) ≤ k ≤ e)); [by rewrite decide_True by (split; [done|lia])|].
      rewrite decide_False; [done|]. intros [_ Hc]. apply Hc. lia.
    + rewrite decide_False by (intros []; done). destruct (decide _) as [Hk|]; [|done]. destruct Hf.
      apply find_in; [done|done|]. unfold node_has. simpl in *. lia.
  - intros y. simpl. destruct (decide (y = x)) as [->|Hyx].
    { rewrite lookup_insert_eq. split; [|by eauto]. intros _. left. split; [by apply Hinv|done]. }
    rewrite lookup_insert_ne by done. destruct (decide (y = n)) as [->|Hyn]; [rewrite lookup_insert_eq; naive_solver|].
    rewrite lookup_insert_ne by done. split; [|intros [[? _]|?]; done]. intros ?. left. by split.
  - unfold uvm_range_tree_shrink_node. rewrite rng_set_ne by done. apply rng_set_eq.
  - intros y Hyn Hyh. unfold uvm_range_tree_shrink_node, S1. by rewrite !rng_set_ne by (try done; intros ->; done).
Qed.

Lemma take_all S n x s e : rt_inv S → n ∉ rt_head S → x ∈ rt_head S → s = (rng S x).1 → e = (rng S x).2 →
  taken S (rt_drop (Some x) (uvm_range_tree_remove x (rt_set n (RangeNode s e) S))) x n s e.
Proof.
  intros Hinv Hn Hx -> ->. assert (n ≠ x) as Hne by (intros ->; done).
  set (S1 := rt_set n _ S). assert (rt_inv S1) as Hinv1 by by apply set_out_inv.
  destruct (owner_step (RRemove x) S1 Hinv1 Hx) as [Hinv2 Hown].
  destruct (remove_inv S1 x Hinv1 Hx) as [_ Hhd]. set (S2 := uvm_range_tree_remove x S1) in *.
  assert (x ∉ rt_head S2) as Hx2 by (intros [_ ?]%Hhd; done).
  destruct (drop_inv x S2 Hinv2 Hx2) as [Hinv3 Hown3]. change (range_run (RRemove x) S1) with S2 in *.
  assert (∀ y, y ∈ rt_head (rt_drop (Some x) S2) ↔ y ∈ rt_head S ∧ y ≠ x) as Hhd' by apply Hhd.
  split; [done| |by rewrite Hhd'; intros []|by intros y [? _]%Hhd'| |..].
  - intros k. rewrite Hown3. change (owner_spec (RRemove x) S1) with (∀ k, own S2 k =
      if decide (own S1 k = Some x) then None else own S1 k) in Hown. rewrite Hown. unfold S1. rewrite set_out_own by done.
    destruct (decide (own S k = Some x)) as [Hf|Hf].
    + apply own_in_head in Hf as [_ Hf]; [|done]. by rewrite decide_True.
    + destruct (decide _) as [Hk|]; [|done]. destruct Hf. by apply find_in.
  - intros y. rewrite Hhd'. simpl. destruct (decide (y = x)) as [->|Hyx].
    { rewrite lookup_delete_eq. split; [by intros []|]. intros [[_ Hc]|Hc]; [by destruct (Hc Hx)|done]. }
    rewrite lookup_delete_ne by done. destruct (decide (y = n)) as [->|Hyn]; [rewrite lookup_insert_eq; naive_solver|].
    rewrite lookup_insert_ne by done. split; [|intros [[? _]|?]; done]. intros ?. left. by split.
  - rewrite rng_drop by done. apply (rng_set_eq S).
  - intros y Hyn Hyh. rewrite rng_drop by (intros ->; done). by apply (rng_set_ne S).
Qed.

Lemma rt_set_set n a b S : rt_set n b (rt_set n a S) = rt_set n b S.
Proof. unfold rt_set. simpl. by rewrite insert_insert_eq. Qed.

Lemma ra_inv_more A ids next memory : ra_inv A ids → (ra_next A ≤ next)%nat →
  ra_inv (RangeAllocator (ra_size A) (ra_tree A) next memory) ids.
Proof. intros [] Hle. split; simpl; try done. intros x Hx. eapply Nat.lt_le_trans; [|done]. auto. Qed.

Lemma taken_inv A ids x n s e S' memory : ra_inv A ids → n = ra_next A → x ∈ rt_head (ra_tree A) →
  s = (rng (ra_tree A) x).1 → s ≤ e ≤ (rng (ra_tree A) x).2 → taken (ra_tree A) S' x n s e →
  ra_inv (RangeAllocator (ra_size A) S' (S (ra_next A)) memory) (n :: ids).
Proof.
  intros Hinv Hn Hx Hs He [Hinv' Hown Hout Hhead Hstored Hrange Hrest].
  pose proof Hinv as [Ht Hsize Hnd Hst Hids Hfresh Hle Hcover Htaken Hdisj Htouch].
  assert ((n ∉ ids) ∧ (n ∉ rt_head (ra_tree A))) as [Hnid Hnhd].
  { split; intros Hin; specialize (Hfresh n); rewrite Hst in Hfresh; specialize (Hfresh ltac:(auto)); lia. }
  assert (∀ y, y ∈ ids → rng S' y = rng (ra_tree A) y) as Hr.
  { intros y Hy. apply Hrest; [by intros ->|by apply Hids]. }
  assert (∀ k, node_has S' n k ↔ s ≤ k ≤ e) as Hrn by (intros k; unfold node_has; by rewrite Hrange).
  assert (∀ y k, y ∈ ids → node_has S' y k ↔ node_has (ra_tree A) y k) as Hry.
  { intros y k Hy. unfold node_has. by rewrite Hr. }
  assert (∀ k, s ≤ k ≤ e → own (ra_tree A) k = Some x) as Hsx.
  { intros k Hk. apply find_in; [done|done|]. unfold node_has. lia. }
  split; cbn [ra_size ra_tree ra_next]; try done.
  - by constructor.
  - intros y. rewrite Hstored, Hst. split.
    + intros [[[Hy|Hy] Hy']| ->]; [by left; auto|by right; right|by right; left].
    + intros [Hy|[->|Hy]%elem_of_cons]; [left; split; [left; by apply Hhead|done]|by right|].
      left. split; [by right|]. intros Hy'. by destruct (Hids y Hy).
  - intros y [->|Hy]%elem_of_cons; [done|]. intros Hy'%Hhead. by destruct (Hids y Hy).
  - intros y [[Hy _]| ->]%Hstored; [specialize (Hfresh y Hy)|]; lia.
  - intros y [->|Hy]%elem_of_cons; [rewrite Hrange; simpl; lia|]. rewrite Hr by done. by apply Hle.
  - intros k. rewrite Hcover, Hown. split.
    + intros [Hk|(y & Hy & Hk)]; [|right; exists y; split; [by right|by apply Hry]].
      destruct (decide (s ≤ k ≤ e)); [right; exists n; split; [by left|by apply Hrn]|by left].
    + intros [Hk|(y & [->|Hy]%elem_of_cons & Hk)].
      * destruct (decide _); [by destruct Hk|by left].
      * left. rewrite Hsx by (by apply Hrn). done.
      * right. exists y. split; [done|by apply Hry].
  - intros y k [->|Hy]%elem_of_cons Hk; rewrite Hown; [by rewrite decide_True by (by apply Hrn)|].
    rewrite (Htaken y k Hy) by (by apply Hry). by destruct (decide _).
  - assert (∀ y k, y ∈ ids → node_has S' n k → node_has S' y k → False) as Hno.
    { intros y k Hy Hk%Hrn Hk'. apply Hry in Hk'; [|done]. specialize (Htaken y k Hy Hk'). rewrite Hsx in Htaken by done. done. }
    intros y z k [->|Hy]%elem_of_cons [->|Hz]%elem_of_cons Hk Hk'; [done|by destruct (Hno z k)|by destruct (Hno y k)|].
    apply (Hdisj y z k); [done|done|by apply Hry|by apply Hry].
  - intros k y z. rewrite !Hown. repeat case_decide; try done. apply Htouch.
Qed.

(** A run of free addresses is in one free range. *)
Lemma own_run S lo hi : touch_at S (λ _, False) → lo ≤ hi → (∀ k, lo ≤ k ≤ hi → is_Some (own S k)) →
  own S hi = own S lo.
Proof.
  intros Htouch Hle. replace hi with (lo + Z.of_nat (Z.to_nat (hi - lo))) by lia.
  generalize (Z.to_nat (hi - lo)) as n. clear hi Hle. induction n as [|n IH]; intros Hall; [f_equal; lia|].
  rewrite <-IH by (intros k Hk; apply Hall; lia).
  destruct (Hall (lo + Z.of_nat n) ltac:(lia)) as [x Hx]. destruct (Hall (lo + Z.of_nat n + 1) ltac:(lia)) as [y Hy].
  replace (lo + Z.of_nat (Datatypes.S n)) with (lo + Z.of_nat n + 1) by lia. rewrite Hx, Hy. f_equal.
  destruct (decide (x = y)) as [|Hne]; [done|]. by destruct (Htouch _ _ _ Hx Hy Hne).
Qed.
(** What an allocation that succeeds gives. *)
Record given (A A' : uvm_range_allocator_t) (ids : list nat) (size a : Z) (al : uvm_range_allocation_t) (n : nat) : Prop := {
  gv_inv : ra_inv A' (n :: ids);
  gv_node : al_node al = Some n;
  gv_aligned : al_aligned_start al mod a = 0;
  gv_start : (rng (ra_tree A') n).1 ≤ al_aligned_start al;
  gv_end : (rng (ra_tree A') n).2 = al_aligned_start al + size - 1;
  gv_rest y : y ∈ ids → rng (ra_tree A') y = rng (ra_tree A) y }.

Lemma alloc_take_given A ids x k a size memory : ra_inv A ids → pow2 k a → 1 ≤ size < 2 ^ 64 →
  x ∈ rt_head (ra_tree A) → alloc_fits (rt_node (ra_tree A) x) size a = true →
  let n := ra_next A in
  let A1 := RangeAllocator (ra_size A) (rt_set n (RangeNode 0 0) (ra_tree A)) (S n) memory in
  given A (alloc_take x n size a A1) ids size a
    (RangeAllocation (aligned_start (rt_node (ra_tree A1) x) a) (Some n)) n.
Proof.
  intros Hinv Ha Hsize Hx Hf n A1. pose proof (rai_tree _ _ Hinv) as Ht.
  pose proof (rti_bounds _ Ht x Hx) as Hb. pose proof (rti_le _ _ Ht Hx) as Hle.
  destruct (fits_true _ _ _ _ Ha Hb Hle Hsize Hf) as (Hs & Hm & He & Hend).
  assert (n ∉ rt_head (ra_tree A)) as Hn.
  { intros Hn. assert (ra_next A < ra_next A)%nat; [|lia]. apply (rai_fresh _ _ Hinv), (rai_stored _ _ Hinv). by left. }
  assert (n ∉ ids) as Hni.
  { intros Hi. assert (ra_next A < ra_next A)%nat; [|lia]. apply (rai_fresh _ _ Hinv), (rai_stored _ _ Hinv). by right. }
  assert (rt_node (ra_tree A1) x = rt_node (ra_tree A) x) as Hnode by (apply rt_node_set_ne; by intros ->).
  set (s := (rng (ra_tree A) x).1). set (e := aligned_end (rt_node (ra_tree A) x) size a) in *.
  assert (∃ S', alloc_take x n size a A1 = RangeAllocator (ra_size A) S' (Datatypes.S n) memory ∧ taken (ra_tree A) S' x n s e)
    as (S' & -> & Htk).
  { unfold alloc_take. rewrite Hnode. fold e. simpl. rewrite rt_set_set.
    destruct (Z.ltb_spec e (rn_end (rt_node (ra_tree A) x))) as [Hlt|Hge]; eexists; (split; [done|]).
    - apply take_rest; try done. unfold s. simpl in *. lia.
    - apply take_all; try done. simpl in *. lia. }
  rewrite Hnode. split.
  - apply (taken_inv A ids x n s e S' memory); try done. unfold s. simpl in *. lia.
  - done.
  - done.
  - cbn [ra_tree]. rewrite (tk_range _ _ _ _ _ _ Htk). done.
  - cbn [ra_tree]. rewrite (tk_range _ _ _ _ _ _ Htk). simpl. lia.
  - intros y Hy. apply (tk_rest _ _ _ _ _ _ Htk); [by intros ->|by apply (rai_out _ _ Hinv)].
Qed.

Lemma node_free_fresh A n m mem : rt_nodes (ra_tree A) !! n = None →
  node_free n (RangeAllocator (ra_size A) (rt_set n (RangeNode 0 0) (ra_tree A)) m mem) =
  RangeAllocator (ra_size A) (ra_tree A) m mem.
Proof.
  intros Hn. unfold node_free, ra_set_tree. simpl. rewrite delete_insert_id by done. by destruct (ra_tree A).
Qed.

(** No free run of addresses has an aligned place of [size] bytes. *)
Definition nothing_fits (S : uvm_range_tree_t) (size a : Z) : Prop :=
  ∀ s, s mod a = 0 → ∃ k, s ≤ k ≤ s + size - 1 ∧ own S k = None.

Lemma nothing_fits_intro A ids size a : ra_inv A ids → 1 ≤ size →
  (∀ x s, x ∈ rt_head (ra_tree A) → s mod a = 0 → (rng (ra_tree A) x).1 ≤ s → (rng (ra_tree A) x).2 < s + size - 1) →
  nothing_fits (ra_tree A) size a.
Proof.
  intros Hinv Hs Hno s Hm. pose proof (rai_tree _ _ Hinv) as Ht.
  destruct (decide (Forall (λ i, is_Some (own (ra_tree A) (s + Z.of_nat i))) (seq 0 (Z.to_nat size)))) as [Hall|Hex].
  - assert (∀ k, s ≤ k ≤ s + size - 1 → is_Some (own (ra_tree A) k)) as Hall'.
    { intros k Hk. rewrite Forall_forall in Hall. specialize (Hall (Z.to_nat (k - s))).
      replace (s + Z.of_nat (Z.to_nat (k - s))) with k in Hall by lia. apply Hall, elem_of_seq. lia. }
    pose proof (own_run _ s (s + size - 1) (rai_touch _ _ Hinv) ltac:(lia) Hall') as Hrun.
    destruct (Hall' s ltac:(lia)) as [x Hx]. rewrite Hx in Hrun.
    apply own_in_head in Hx as [Hx Hin]; [|done]. apply own_in_head in Hrun as [_ Hin']; [|done].
    unfold node_has in *. specialize (Hno x s Hx Hm ltac:(lia)). lia.
  - apply not_Forall_Exists, Exists_exists in Hex as (i & Hi & Hn); [|apply _]. apply elem_of_seq in Hi.
    exists (s + Z.of_nat i). split; [lia|]. by apply eq_None_not_Some.
Qed.

Lemma range_alloc_spec A ids size alignment k al : ra_inv A ids → pow2 k (alloc_alignment alignment) → 1 ≤ size < 2 ^ 64 →
  let '(status, al', A') := uvm_range_allocator_alloc size alignment al A in
  (status = NV_OK ∧ ∃ n, given A A' ids size (alloc_alignment alignment) al' n) ∨
  (status = NV_ERR_NO_MEMORY ∧ head (ra_memory A) = Some false ∧ al_node al' = None ∧
   ra_tree A' = ra_tree A ∧ ra_inv A' ids) ∨
  (status = NV_ERR_UVM_ADDRESS_IN_USE ∧ nothing_fits (ra_tree A) size (alloc_alignment alignment) ∧
   ra_tree A' = ra_tree A ∧ ra_inv A' ids).
Proof.
  intros Hinv Ha Hsize. pose proof (rai_tree _ _ Hinv) as Ht. unfold uvm_range_allocator_alloc.
  set (a := alloc_alignment alignment) in *. pose proof (rai_head_end A ids) as Hend.
  destruct (Z.gtb_spec size (ra_size A)) as [Hgt|Hle].
  { right. right. split_and!; [done| |done|done]. eapply nothing_fits_intro; [done|lia|]. intros x s Hx _ Hxs.
    specialize (Hend x Hinv Hx). pose proof (rti_bounds _ Ht x Hx). lia. }
  unfold node_alloc. destruct (default true (head (ra_memory A))) eqn:Hmem.
  2: { right. left. split_and!; [done| |done|done|by apply ra_inv_more]. by destruct (head (ra_memory A)) as [[]|]. }
  cbn [ra_tree ra_size]. set (n := ra_next A). set (S1 := rt_set n (RangeNode 0 0) (ra_tree A)).
  assert (rt_nodes (ra_tree A) !! n = None) as Hn.
  { apply eq_None_not_Some. intros Hn%(rai_fresh _ _ Hinv). unfold n in Hn. lia. }
  assert (n ∉ rt_head (ra_tree A)) as Hnh.
  { intros Hx%(rti_stored _ Ht). rewrite Hn in Hx. by destruct Hx. }
  assert (rt_inv S1) as Ht1 by (by apply set_out_inv).
  assert (∀ x, x ∈ rt_head (ra_tree A) → rng S1 x = rng (ra_tree A) x) as Hr.
  { intros x Hx. apply rng_set_ne. by intros ->. }
  pose proof (alloc_scan_spec S1 (ra_size A) size k a Ht1 Ha ltac:(lia) ltac:(apply (rai_size _ _ Hinv))) as Hscan.
  assert (∀ x, x ∈ rt_head S1 → (rng S1 x).2 < ra_size A) as Hend1 by (intros x Hx; rewrite Hr by done; by apply Hend).
  specialize (Hscan Hend1). destruct (alloc_scan _ _ _ _ _ _) as [x|].
  - left. split; [done|]. destruct Hscan as [Hx Hf]. exists n. unfold S1 in Hf.
    rewrite rt_node_set_ne in Hf by (intros ->; done). by apply (alloc_take_given A ids x k a size).
  - right. right. rewrite node_free_fresh by done. split_and!; [done| |done|apply ra_inv_more; [done|unfold n; lia]].
    eapply nothing_fits_intro; [done|lia|]. intros x s Hx Hm Hxs. rewrite <-Hr by done. apply Hscan; [done|done|by rewrite Hr].
Qed.

(** ** Freeing *)

(** [n] may have taken over a neighbour, which is then dropped; no free ranges touch at [g] now. *)
Record merged (R R' : uvm_range_tree_t) (n : nat) (g : Z) : Prop := {
  mg_inv : rt_inv R';
  mg_in : n ∈ rt_head R';
  mg_head x : x ∈ rt_head R' → x ∈ rt_head R;
  mg_stored x : is_Some (rt_nodes R' !! x) ↔ is_Some (rt_nodes R !! x) ∧ (x ∈ rt_head R → x ∈ rt_head R');
  mg_rng x : x ∉ rt_head R → rng R' x = rng R x;
  mg_own k : is_Some (own R' k) ↔ is_Some (own R k);
  mg_touch P : touch_at R P → touch_at R' (λ k, P k ∧ k ≠ g) }.

Lemma merged_none R n g : rt_inv R → n ∈ rt_head R → (own R g = None ∨ own R (g + 1) = None) → merged R R n g.
Proof.
  intros Hinv Hn Hg. split; try done; [by intros x; split; [|intros []]|].
  intros P HP k x y Hx Hy Hne. split; [by eapply HP|]. intros ->. destruct Hg; congruence.
Qed.

Lemma merged_fused R R1 n o s e g : rt_inv R → n ∈ rt_head R → fused R R1 n o s e →
  (∀ k, own R1 k = if decide (own R k = Some o) then Some n else own R k) →
  (own R g = Some o ∧ own R (g + 1) = Some n) ∨ (own R g = Some n ∧ own R (g + 1) = Some o) →
  merged R (rt_drop (Some o) R1) n g.
Proof.
  intros Hinv Hn [Hinv1 [Ho Hne] Hhd Hrn Hrest Hnodes] Hown Hg.
  assert (o ∉ rt_head R1) as Ho1 by (intros [_ ?]%Hhd; done).
  destruct (drop_inv o R1 Hinv1 Ho1) as [Hinv' Hown'].
  assert (∀ x, x ∈ rt_head (rt_drop (Some o) R1) ↔ x ∈ rt_head R ∧ x ≠ o) as Hhd' by apply Hhd.
  split; [done|by apply Hhd'; auto|by intros x [? _]%Hhd'| | | |].
  - intros x. rewrite Hhd'. simpl. destruct (decide (x = o)) as [->|Hxo].
    { rewrite lookup_delete_eq. split; [by intros []|]. intros [_ Hc]. by destruct (Hc Ho). }
    rewrite lookup_delete_ne by done. destruct (decide (x = n)) as [->|Hxn]; [|rewrite Hnodes by done; naive_solver].
    split; intros _; [split; [by apply Hinv|done]|]. apply (rti_stored _ Hinv1), Hhd. by auto.
  - intros x Hx. rewrite rng_drop by (by intros ->). apply Hrest. by intros ->.
  - intros k. rewrite Hown', Hown. case_decide as Hk; [|done]. rewrite Hk. done.
  - intros P HP k x y. rewrite !Hown', !Hown. intros Hx Hy Hxy.
    assert (P k ∧ ¬ (own R k = Some o ∧ own R (k + 1) = Some n) ∧ ¬ (own R k = Some n ∧ own R (k + 1) = Some o)) as (? & ? & ?).
    { repeat case_decide; simplify_eq; split_and!; try (by eapply HP; eauto; congruence); intros []; congruence. }
    split; [done|]. intros ->. tauto.
Qed.

Lemma merge_prev_merged R n : rt_inv R → n ∈ rt_head R →
  let '(o, R1) := uvm_range_tree_merge_prev n R in
  merged R (rt_drop o R1) n ((rng R n).1 - 1) ∧ (rng (rt_drop o R1) n).2 = (rng R n).2.
Proof.
  intros Hinv Hn. pose proof (merge_prev_spec R n Hinv Hn) as Hm.
  destruct (owner_merge_prev R n Hinv Hn) as [_ Hown]. unfold owner_spec, range_run in Hown.
  destruct (uvm_range_tree_merge_prev n R) as [[o|] R1]; simpl snd in Hown.
  - destruct Hown as (Hne & Hg & Hown). destruct Hm as [_ Hfu]. split.
    + eapply merged_fused; [done|done|done|done|]. left. split; [done|].
      replace ((rng R n).1 - 1 + 1) with (rng R n).1 by lia. by apply head_own.
    + rewrite rng_drop by done. by rewrite (fu_range _ _ _ _ _ _ Hfu).
  - destruct Hm as [-> _]. destruct Hown as [_ Hg]. split; [|done]. apply merged_none; [done|done|by left].
Qed.

Lemma merge_next_merged R n : rt_inv R → n ∈ rt_head R →
  let '(o, R1) := uvm_range_tree_merge_next n R in merged R (rt_drop o R1) n (rng R n).2.
Proof.
  intros Hinv Hn. pose proof (merge_next_spec R n Hinv Hn) as Hm.
  destruct (owner_merge_next R n Hinv Hn) as [_ Hown]. unfold owner_spec, range_run in Hown.
  destruct (uvm_range_tree_merge_next n R) as [[o|] R1]; simpl snd in Hown.
  - destruct Hown as (Hne & Hg & Hown). destruct Hm as [_ Hfu].
    eapply merged_fused; [done|done|done|done|]. right. split; [by apply head_own|done].
  - destruct Hm as [-> _]. destruct Hown as [_ Hg]. apply merged_none; [done|done|by right].
Qed.

(** The tree with the node of an allocation back in it. *)
Record returned (R R' : uvm_range_tree_t) (n : nat) : Prop := {
  rb_inv' : rt_inv R';
  rb_head x : x ∈ rt_head R' → x = n ∨ x ∈ rt_head R;
  rb_stored x : is_Some (rt_nodes R' !! x) ↔ is_Some (rt_nodes R !! x) ∧ (x = n ∨ x ∈ rt_head R → x ∈ rt_head R');
  rb_rng x : x ≠ n → x ∉ rt_head R → rng R' x = rng R x;
  rb_own k : is_Some (own R' k) ↔ node_has R n k ∨ is_Some (own R k);
  rb_touch : touch_at R' (λ _, False) }.

Lemma add_returned A ids n : ra_inv A ids → n ∈ ids →
  ∃ T, uvm_range_tree_add n (ra_tree A) = (NV_OK, RangeTree T (rt_nodes (ra_tree A))) ∧
    rt_inv (RangeTree T (rt_nodes (ra_tree A))) ∧
    (∀ x, x ∈ lt_head T ↔ x = n ∨ x ∈ rt_head (ra_tree A)) ∧
    (∀ k, own (RangeTree T (rt_nodes (ra_tree A))) k =
      if decide (node_has (ra_tree A) n k) then Some n else own (ra_tree A) k).
Proof.
  intros Hinv Hn. pose proof (rai_tree _ _ Hinv) as Ht. pose proof (rai_le _ _ Hinv n Hn) as Hle.
  assert (∀ k, node_has (ra_tree A) n k → 0 ≤ k < ra_size A) as Hin.
  { intros k Hk. apply (rai_cover _ _ Hinv). right. eauto. }
  assert (addable (ra_tree A) n) as Had.
  { split; [by apply (rai_out _ _ Hinv)|apply (rai_stored _ _ Hinv); by right|].
    pose proof (Hin (rng (ra_tree A) n).1 ltac:(unfold node_has; lia)).
    pose proof (Hin (rng (ra_tree A) n).2 ltac:(unfold node_has; lia)). pose proof (rai_size _ _ Hinv). lia. }
  destruct (owner_add _ _ Ht Had) as [_ Hown].
  destruct (add_free (ra_tree A) n Ht Had) as (a & b & T & Heq & Hadd & Hhd & Hinv').
  { intros y Hy [Hov1 Hov2]. pose proof (rti_le _ _ Ht Hy).
    set (k := Z.max (rng (ra_tree A) n).1 (rng (ra_tree A) y).1).
    assert (own (ra_tree A) k = None) as Hk by (apply (rai_taken _ _ Hinv n); [done|unfold node_has; lia]).
    rewrite (find_in _ _ y) in Hk by (try done; unfold node_has; lia). done. }
  exists T. split_and!; [done|done|intros x; rewrite Hhd, Heq; set_solver|].
  unfold owner_spec, range_run in Hown. rewrite Hadd in Hown. destruct Hown as [(_ & _ & Hown)|(Hst & _)]; [done|]. by vm_compute in Hst.
Qed.

Lemma free_returned A ids n : ra_inv A ids → n ∈ ids → ∀ al, al_node al = Some n →
  ∃ R', uvm_range_allocator_free (Some al) A =
    Some (Some (RangeAllocation (al_aligned_start al) None), ra_set_tree R' A) ∧ returned (ra_tree A) R' n.
Proof.
  intros Hinv Hn al Hal. destruct (add_returned A ids n Hinv Hn) as (T & Hadd & Hinv1 & Hhd1 & Hown1).
  set (R1 := RangeTree T (rt_nodes (ra_tree A))) in *.
  assert (n ∈ rt_head R1) as Hn1 by (apply Hhd1; by left).
  assert (touch_at R1 (λ k, k = (rng R1 n).1 - 1 ∨ k = (rng R1 n).2)) as Ht1.
  { intros k x y. rewrite !Hown1. change (node_has (ra_tree A)) with (node_has R1).
    repeat case_decide; unfold node_has in *; intros Hx Hy Hne; [congruence|lia|lia|].
    by destruct (rai_touch _ _ Hinv k x y). }
  unfold uvm_range_allocator_free. rewrite Hal, Hadd. pose proof (merge_prev_merged R1 n Hinv1 Hn1) as Hm1.
  destruct (uvm_range_tree_merge_prev n R1) as [o1 R2']. destruct Hm1 as [Hm1 Hend].
  assert (free_adjacent o1 (ra_set_tree R2' A) = ra_set_tree (rt_drop o1 R2') A) as -> by by destruct o1.
  set (R2 := rt_drop o1 R2') in *. cbn [ra_tree ra_set_tree].
  pose proof (merge_next_merged R2 n (mg_inv _ _ _ _ Hm1) (mg_in _ _ _ _ Hm1)) as Hm2.
  destruct (uvm_range_tree_merge_next n R2) as [o2 R3'].
  exists (rt_drop o2 R3'). split; [by destruct o2|]. set (R3 := rt_drop o2 R3') in *.
  destruct Hm1 as [_ Hin1 Hh1 Hs1 Hr1 Ho1 Htouch1], Hm2 as [Hinv3 Hin2 Hh2 Hs2 Hr2 Ho2 Htouch2].
  split; [done|by intros x Hx%Hh2%Hh1%Hhd1| | | |].
  - intros x. rewrite Hs2, Hs1. setoid_rewrite <-Hhd1. change (lt_head T) with (rt_head R1).
    change (rt_nodes R1) with (rt_nodes (ra_tree A)). naive_solver.
  - intros x Hxn Hxh. assert (x ∉ rt_head R1) as Hx1 by (intros [?|?]%Hhd1; done).
    rewrite Hr2 by (by intros Hx2%Hh1). by rewrite Hr1.
  - intros k. rewrite Ho2, Ho1, Hown1. case_decide; naive_solver.
  - intros k x y Hx Hy Hne. specialize (Htouch2 _ (Htouch1 _ Ht1) k x y Hx Hy Hne). simpl in Htouch2. simpl in Hend. lia.
Qed.

Lemma returned_inv A a n b R' : ra_inv A (a ++ n :: b) → returned (ra_tree A) R' n →
  ra_inv (ra_set_tree R' A) (a ++ b) ∧ ∀ x, x ∈ a ++ b → rng R' x = rng (ra_tree A) x.
Proof.
  intros [Ht Hsize Hnd Hst Hids Hfresh Hle Hcover Htaken Hdisj Htouch] [Hinv' Hhead Hstored Hrng Hown Htouch'].
  assert (n ∉ a ++ b) as Hn by (rewrite <-Permutation_middle in Hnd; by apply NoDup_cons in Hnd as [? _]).
  assert (∀ x, x ∈ a ++ n :: b ↔ x = n ∨ x ∈ a ++ b) as Hin by set_solver.
  assert (∀ x, x ∈ a ++ b → rng R' x = rng (ra_tree A) x) as Hr.
  { intros x Hx. apply Hrng; [by intros ->|]. apply Hids, Hin. by right. }
  assert (∀ x k, x ∈ a ++ b → node_has R' x k ↔ node_has (ra_tree A) x k) as Hir.
  { intros x k Hx. unfold node_has. by rewrite Hr. }
  assert (∀ x, x ∈ a ++ b → x ∉ rt_head R') as Hout.
  { intros x Hx [->|Hx']%Hhead; [done|]. by destruct (Hids x (proj2 (Hin x) (or_intror Hx))). }
  split; [|done]. split; cbn [ra_tree ra_size ra_next ra_set_tree]; try done.
  - rewrite <-Permutation_middle in Hnd. by apply NoDup_cons in Hnd as [_ ?].
  - intros x. rewrite Hstored, Hst, Hin. split.
    + intros [[Hx|[->|Hx]] Hx']; [left; apply Hx'; by right|left; apply Hx'; by left|by right].
    + intros [Hx|Hx]; [split; [|done]; destruct (Hhead x Hx); by auto|]. split; [by auto|].
      intros [->|Hx']; [done|]. by destruct (Hids x (proj2 (Hin x) (or_intror Hx))).
  - intros x [Hx _]%Hstored. by apply Hfresh.
  - intros x Hx. rewrite Hr by done. apply Hle, Hin. by right.
  - intros k. rewrite Hcover, Hown. setoid_rewrite Hin. split.
    + intros [Hk|(x & [->|Hx] & Hk)]; [by left; right|by left; left|right; exists x; by rewrite Hir].
    + intros [[Hk|Hk]|(x & Hx & Hk)]; [right; exists n; by auto|by left|right; exists x; rewrite <-Hir by done; by auto].
  - intros x k Hx Hk%Hir; [|done]. apply eq_None_not_Some. rewrite Hown. intros [Hk'|Hk'].
    + destruct Hn. by rewrite <-(Hdisj x n k (proj2 (Hin x) (or_intror Hx)) (proj2 (Hin n) (or_introl eq_refl)) Hk Hk').
    + rewrite (Htaken x k (proj2 (Hin x) (or_intror Hx)) Hk) in Hk'. by destruct Hk'.
  - intros x y k Hx Hy Hk%Hir Hk'%Hir; [|done..]. apply (Hdisj x y k); try done; apply Hin; by right.
Qed.

(** ** The ends of an allocator's life *)

Lemma init_inv size memory : 1 ≤ size < 2 ^ 64 →
  let '(status, A) := uvm_range_allocator_init size memory in
  (status = NV_OK ∧ ra_size A = size ∧ ra_inv A []) ∨
  (status = NV_ERR_NO_MEMORY ∧ head memory = Some false ∧ rt_nodes (ra_tree A) = ∅).
Proof.
  intros Hs. unfold uvm_range_allocator_init, node_alloc. simpl ra_memory.
  destruct (default true (head memory)) eqn:Hmem; [|right; split_and!; [done|by destruct (head memory) as [[]|]|done]].
  cbn [ra_next ra_tree ra_memory]. rewrite rt_set_set, u64_small by (unfold is_u64; lia). set (S0 := rt_set 0 _ _).
  assert (rng S0 0 = (0, size - 1)) as Hr0 by apply rng_set_eq.
  assert (rt_inv S0) as Hinv0 by (apply set_out_inv; [apply rt_inv_init|set_solver]).
  assert (addable S0 0) as Had.
  { split; [unfold S0; simpl; set_solver|by eexists|]. rewrite Hr0. simpl. lia. }
  destruct (add_free S0 0 Hinv0 Had) as (a & b & T & Heq & Hadd & Hhd & Hinv); [set_solver|].
  destruct (owner_add S0 0%nat Hinv0 Had) as [_ Hown]. unfold owner_spec, range_run in Hown. rewrite Hadd in *.
  destruct Hown as [(_ & _ & Hown)|[Hst _]]; [|by vm_compute in Hst].
  symmetry in Heq. apply app_eq_nil in Heq as [-> ->]. simpl in Hhd. left. split_and!; [done|done|].
  assert (∀ k, own (RangeTree T (rt_nodes S0)) k = if decide (0 ≤ k < size) then Some 0%nat else None) as Hown'.
  { intros k. simpl snd in Hown. rewrite Hown. replace (own S0 k) with (@None nat).
    - repeat case_decide; unfold node_has in *; rewrite Hr0 in *; simpl in *; (done || lia).
    - symmetry. apply range_find_none; [done|]. set_solver. }
  split; cbn [ra_size ra_tree ra_next]; try done; try set_solver.
  - constructor.
  - intros x. unfold rt_head. simpl. rewrite Hhd. destruct (decide (x = 0%nat)) as [->|Hx].
    + rewrite lookup_insert_eq. set_solver.
    + rewrite lookup_insert_ne by done. rewrite lookup_empty. split; [by intros []|]. set_solver.
  - intros x. simpl. destruct (decide (x = 0%nat)) as [->|Hx]; [intros _; lia|].
    rewrite lookup_insert_ne by done. rewrite lookup_empty. by intros [].
  - intros k. rewrite Hown'. case_decide; set_solver.
  - intros k x y. rewrite !Hown'. repeat case_decide; congruence.
Qed.

(** With every allocation returned, the one free range is all of it, and it is let go. *)
Lemma range_deinit_spec A : ra_inv A [] →
  ∃ x A', rt_head (ra_tree A) = [x] ∧ rt_node (ra_tree A) x = RangeNode 0 (ra_size A - 1) ∧
    uvm_range_allocator_deinit A = Some A' ∧ rt_head (ra_tree A') = [] ∧ rt_nodes (ra_tree A') = ∅.
Proof.
  intros Hinv. pose proof Hinv as [Ht Hsize _ Hst _ _ _ Hcover _ _ Htouch].
  assert (∀ k, 0 ≤ k < ra_size A ↔ is_Some (own (ra_tree A) k)) as Hc.
  { intros k. rewrite Hcover. split; [|by auto]. intros [?|(x & Hx & _)]; [done|by apply elem_of_nil in Hx]. }
  destruct (proj1 (Hc 0) ltac:(lia)) as [x Hx].
  assert (∀ k, 0 ≤ k < ra_size A → own (ra_tree A) k = Some x) as Hall.
  { intros k Hk. rewrite <-Hx. apply own_run; [done|lia|]. intros i Hi. apply Hc. lia. }
  pose proof (own_in_head _ _ _ Ht Hx) as [Hxh Hin]. pose proof (rti_bounds _ Ht x Hxh) as Hb.
  pose proof (own_in_head _ _ _ Ht (Hall (ra_size A - 1) ltac:(lia))) as [_ Hin'].
  pose proof (rai_head_end _ _ _ Hinv Hxh) as He. unfold node_has in *.
  assert (rt_node (ra_tree A) x = RangeNode 0 (ra_size A - 1)) as Hnode.
  { destruct (rt_node (ra_tree A) x) as [s e] eqn:Hn. unfold rng in *. rewrite Hn in *. simpl in *. f_equal; lia. }
  assert (∀ y, y ∈ rt_head (ra_tree A) → y = x) as Hone.
  { intros y Hy. destruct (head_own _ _ Ht Hy) as [Hy1 _]. rewrite Hall in Hy1 by (apply Hc; by eexists). congruence. }
  assert (rt_head (ra_tree A) = [x]) as Hhead.
  { pose proof (lt_nodup _ (rti_ok _ Ht)) as Hnd. unfold rt_head in *. destruct (lt_head _) as [|y [|z l]]; [by apply elem_of_nil in Hxh| |].
    - f_equal. apply Hone. set_solver.
    - apply NoDup_cons in Hnd as [Hyz _]. destruct Hyz. rewrite (Hone y), (Hone z) by set_solver. set_solver. }
  exists x. eexists. split_and!; [done|done|..].
  - unfold uvm_range_allocator_deinit, uvm_range_tree_iter_first. rewrite (Hx : fr_node _ = _). done.
  - unfold rt_head. simpl. unfold rt_head in Hhead. rewrite Hhead. rewrite filter_cons_False by auto. done.
  - simpl. apply map_eq. intros y. rewrite lookup_empty. destruct (decide (y = x)) as [->|Hne]; [apply lookup_delete_eq|].
    rewrite lookup_delete_ne by done. apply eq_None_not_Some. rewrite Hst. intros [Hy|Hy]; [by apply Hone in Hy|by apply elem_of_nil in Hy].
Qed.
End alloc_proofs.

(** * A client's session *)

(** An allocation that is out, with what was asked for. *)
Record held := Held {
  h_size : Z;
  h_alignment : Z;
  h_alloc : uvm_range_allocation_t }.

Inductive ra_op :=
| RaAlloc (size alignment : Z)
| RaFree (i : nat).

(** Sizes are positive and alignments powers of two, or 0. *)
Definition ra_op_ok (op : ra_op) : Prop :=
  match op with
  | RaAlloc size alignment => 1 ≤ size < 2 ^ 64 ∧ ∃ k, pow2 k (alloc_alignment alignment)
  | RaFree _ => True
  end.

Section ra_session.
Context `{!RbOps}.

(** [None] is a fault in the allocator. *)
Definition ra_step (op : ra_op) (st : uvm_range_allocator_t * list held) : option (uvm_range_allocator_t * list held) :=
  let '(A, L) := st in
  match op with
  | RaAlloc size alignment =>
      let '(status, al, A) := uvm_range_allocator_alloc size alignment (RangeAllocation 0 None) A in
      Some (A, if status =? NV_OK then Held size (alloc_alignment alignment) al :: L else L)
  | RaFree i =>
      match L !! i with
      | None => Some (A, L)
      | Some h =>
          match uvm_range_allocator_free (Some (h_alloc h)) A with
          | None => None
          | Some (_, A) => Some (A, delete i L)
          end
      end
  end.

Fixpoint ra_session (ops : list ra_op) (st : uvm_range_allocator_t * list held) :
    option (uvm_range_allocator_t * list held) :=
  match ops with
  | [] => Some st
  | op :: ops =>
      match ra_step op st with
      | None => None
      | Some st => ra_session ops st
      end
  end.

Definition held_node (h : held) : nat := default 0%nat (al_node (h_alloc h)).

(** The node of an allocation has its range. *)
Record held_ok (A : uvm_range_allocator_t) (h : held) : Prop := {
  ho_node : al_node (h_alloc h) = Some (held_node h);
  ho_size : 1 ≤ h_size h;
  ho_aligned : al_aligned_start (h_alloc h) mod h_alignment h = 0;
  ho_start : (rng (ra_tree A) (held_node h)).1 ≤ al_aligned_start (h_alloc h);
  ho_end : (rng (ra_tree A) (held_node h)).2 = al_aligned_start (h_alloc h) + h_size h - 1 }.

Record session_inv (st : uvm_range_allocator_t * list held) : Prop := {
  si_inv : ra_inv st.1 (held_node <$> st.2);
  si_held h : h ∈ st.2 → held_ok st.1 h }.

Context `{!RbLaws}.

Lemma held_ok_rng A A' h : held_ok A h → rng (ra_tree A') (held_node h) = rng (ra_tree A) (held_node h) → held_ok A' h.
Proof. intros [? ? ? ? ?] Hr. split; try done; by rewrite Hr. Qed.

Lemma step_inv op st : ra_op_ok op → session_inv st →
  ∃ st', ra_step op st = Some st' ∧ session_inv st' ∧ ra_size st'.1 = ra_size st.1.
Proof.
  destruct st as [A L]. intros Hop [Hinv Hheld]. cbn [fst snd] in *. destruct op as [size alignment|i]; unfold ra_step.
  - destruct Hop as [Hs [k Hk]]. pose proof (range_alloc_spec A _ size alignment k (RangeAllocation 0 None) Hinv Hk Hs) as Ha.
    assert (ra_size (uvm_range_allocator_alloc size alignment (RangeAllocation 0 None) A).2 = ra_size A) as Hsz.
    { unfold uvm_range_allocator_alloc, node_alloc, alloc_take, node_free, ra_set_tree.
      repeat case_match; simplify_eq/=; done. }
    destruct (uvm_range_allocator_alloc _ _ _ _) as [[status al] A']. eexists. split; [done|]. split; [|done].
    destruct Ha as [(-> & n & Hg)|[(-> & _ & _ & Htree & Hinv')|(-> & _ & Htree & Hinv')]]; simpl.
    + destruct Hg as [Hinv' Hnode Hal Hst Hend Hrest].
      assert (held_node (Held size (alloc_alignment alignment) al) = n) as Hn by (unfold held_node; simpl; by rewrite Hnode).
      split; cbn [fst snd]; [by rewrite fmap_cons, Hn|]. intros h [->|Hh]%elem_of_cons.
      * split; rewrite ?Hn; done || (simpl; lia).
      * eapply held_ok_rng; [by apply Hheld|]. apply Hrest. apply list_elem_of_fmap. eauto.
    + split; cbn [fst snd]; [done|]. intros h Hh. eapply held_ok_rng; [by apply Hheld|]. by rewrite Htree.
    + split; cbn [fst snd]; [done|]. intros h Hh. eapply held_ok_rng; [by apply Hheld|]. by rewrite Htree.
  - destruct (L !! i) as [h|] eqn:Hi; [|by eexists]. pose proof (take_drop_middle _ _ _ Hi) as HL.
    assert (h ∈ L) as Hh by (by eapply list_elem_of_lookup_2). pose proof (Hheld h Hh) as Hok.
    rewrite <-HL in Hinv. rewrite fmap_app, fmap_cons in Hinv.
    destruct (free_returned A _ (held_node h) Hinv ltac:(set_solver) (h_alloc h) (ho_node _ _ Hok)) as (R' & -> & Hret).
    destruct (returned_inv A _ _ _ R' Hinv Hret) as [Hinv' Hr]. eexists. split; [done|]. split; [|done].
    rewrite delete_take_drop. split; cbn [fst snd]; [by rewrite fmap_app|]. intros h' Hh'.
    eapply held_ok_rng; [apply Hheld; rewrite <-HL; set_solver|]. apply Hr. rewrite <-fmap_app. apply list_elem_of_fmap. eauto.
Qed.

Lemma ra_session_inv ops st : Forall ra_op_ok ops → session_inv st →
  ∃ st', ra_session ops st = Some st' ∧ session_inv st' ∧ ra_size st'.1 = ra_size st.1.
Proof.
  revert st. induction ops as [|op ops IH]; intros st Hops Hinv; [by eexists|].
  apply Forall_cons in Hops as [Hop Hops]. destruct (step_inv op st Hop Hinv) as (st1 & Hst & Hinv1 & Hs1).
  simpl. rewrite Hst. destruct (IH st1 Hops Hinv1) as (st2 & Hst2 & Hinv2 & Hs2). exists st2. by rewrite Hs2.
Qed.

Lemma init_session size memory A : 1 ≤ size < 2 ^ 64 → uvm_range_allocator_init size memory = (NV_OK, A) →
  session_inv (A, []) ∧ ra_size A = size.
Proof.
  intros Hs Hi. pose proof (init_inv size memory Hs) as Hinv. rewrite Hi in Hinv.
  destruct Hinv as [(_ & <- & Hinv)|[Hst _]]; [|by vm_compute in Hst]. split; [|done]. split; [done|set_solver].
Qed.

(** The addresses an allocation may use. *)
Definition held_has (h : held) (k : Z) : Prop :=
  al_aligned_start (h_alloc h) ≤ k < al_aligned_start (h_alloc h) + h_size h.

Lemma held_has_in A h k : held_ok A h → held_has h k → node_has (ra_tree A) (held_node h) k.
Proof. intros [_ _ _ Hs He] Hk. unfold held_has, node_has in *. lia. Qed.

Lemma held_disjoint st i j h h' k : session_inv st → st.2 !! i = Some h → st.2 !! j = Some h' →
  held_has h k → held_has h' k → i = j.
Proof.
  intros [Hinv Hheld] Hi Hj Hk Hk'.
  assert (held_ok st.1 h) as Hok by (apply Hheld; by eapply list_elem_of_lookup_2).
  assert (held_ok st.1 h') as Hok' by (apply Hheld; by eapply list_elem_of_lookup_2).
  assert ((held_node <$> st.2) !! i = Some (held_node h)) as Hin by (by rewrite list_lookup_fmap, Hi).
  assert ((held_node <$> st.2) !! j = Some (held_node h')) as Hin' by (by rewrite list_lookup_fmap, Hj).
  assert (held_node h = held_node h') as Heq.
  { apply (rai_disj _ _ Hinv _ _ k); [by eapply list_elem_of_lookup_2..|by apply held_has_in|by apply held_has_in]. }
  rewrite Heq in Hin. by eapply NoDup_lookup; [apply (rai_nodup _ _ Hinv)|..].
Qed.

Lemma held_inside st h : session_inv st → h ∈ st.2 →
  0 ≤ al_aligned_start (h_alloc h) ∧ al_aligned_start (h_alloc h) + h_size h ≤ ra_size st.1.
Proof.
  intros [Hinv Hheld] Hh. pose proof (Hheld h Hh) as Hok. pose proof (ho_size _ _ Hok).
  assert (∀ k, held_has h k → 0 ≤ k < ra_size st.1) as Hin.
  { intros k Hk. apply (rai_cover _ _ Hinv). right. exists (held_node h). split; [apply list_elem_of_fmap; eauto|by apply held_has_in]. }
  pose proof (Hin (al_aligned_start (h_alloc h)) ltac:(unfold held_has; lia)).
  pose proof (Hin (al_aligned_start (h_alloc h) + h_size h - 1) ltac:(unfold held_has; lia)). lia.
Qed.
End ra_session.

(** * Properties *)

(** C29: Whatever a client allocates and frees, in any order and whatever memory allocations
    fail, no operation faults, and the allocations that are out are aligned as asked, inside
    the allocator's range and pairwise disjoint. *)
Theorem range_allocations_disjoint `{!RbOps} (HL : RbLaws) (size : Z) (memory : list bool) (A : uvm_range_allocator_t)
    (ops : list ra_op) :
  1 ≤ size < 2 ^ 64 → uvm_range_allocator_init size memory = (NV_OK, A) → Forall ra_op_ok ops →
  ∃ A' L, ra_session ops (A, []) = Some (A', L) ∧
    (∀ h, h ∈ L → al_aligned_start (h_alloc h) mod h_alignment h = 0 ∧
      0 ≤ al_aligned_start (h_alloc h) ∧ al_aligned_start (h_alloc h) + h_size h ≤ size) ∧
    (∀ i j h h' k, L !! i = Some h → L !! j = Some h' → held_has h k → held_has h' k → i = j).
Proof.
  intros Hs Hi Hops. destruct (init_session size memory A Hs Hi) as [Hinv Hsz].
  destruct (ra_session_inv ops _ Hops Hinv) as ([A' L] & Hrun & Hinv' & Hsz'). exists A', L. split; [done|]. split.
  - intros h Hh. destruct (held_inside _ _ Hinv' Hh). simpl in *. split; [by apply (si_held _ Hinv')|lia].
  - intros i j h h' k. by apply (held_disjoint _ i j h h' k Hinv').
Qed.

(** C30: After any session, an allocation is refused for lack of room only when no aligned place
    of the size is free: at every aligned address one of the bytes is outside the allocator's
    range or held for an allocation that is out. Otherwise it succeeds, or there was no memory
    for its node. *)
Theorem range_alloc_complete `{!RbOps} (HL : RbLaws) (size : Z) (memory : list bool) (A : uvm_range_allocator_t)
    (ops : list ra_op) (req alignment k : Z) (al : uvm_range_allocation_t) :
  1 ≤ size < 2 ^ 64 → uvm_range_allocator_init size memory = (NV_OK, A) → Forall ra_op_ok ops →
  1 ≤ req < 2 ^ 64 → pow2 k (alloc_alignment alignment) →
  ∃ A' L, ra_session ops (A, []) = Some (A', L) ∧
    let '(status, _, _) := uvm_range_allocator_alloc req alignment al A' in
    status = NV_OK ∨ (status = NV_ERR_NO_MEMORY ∧ head (ra_memory A') = Some false) ∨
    (status = NV_ERR_UVM_ADDRESS_IN_USE ∧
     ∀ s, s mod alloc_alignment alignment = 0 → ∃ b, s ≤ b ≤ s + req - 1 ∧
       (¬ (0 ≤ b < size) ∨ ∃ h, h ∈ L ∧ node_has (ra_tree A') (held_node h) b)).
Proof.
  intros Hs Hi Hops Hreq Hk. destruct (init_session size memory A Hs Hi) as [Hinv Hsz].
  destruct (ra_session_inv ops _ Hops Hinv) as ([A' L] & Hrun & [Hinv' _] & Hsz'). exists A', L. split; [done|].
  simpl in *. pose proof (range_alloc_spec A' _ req alignment k al Hinv' Hk Hreq) as Ha.
  destruct (uvm_range_allocator_alloc _ _ _ _) as [[status al'] A''].
  destruct Ha as [[-> _]|[(-> & Hm & _)|(-> & Hno & _)]]; [by auto|by auto|]. right. right. split; [done|].
  intros s Hsm. destruct (Hno s Hsm) as (b & Hb & Hown). exists b. split; [done|].
  destruct (decide (0 ≤ b < ra_size A')) as [Hin|Hout]; [|left; lia]. right.
  apply (rai_cover _ _ Hinv') in Hin as [[x Hx]|(x & Hx & Hin)]; [congruence|].
  apply list_elem_of_fmap in Hx as (h & -> & Hh). eauto.
Qed.

(** C31: When every allocation of a session was freed, the free ranges have grown together into
    the one range the allocator began with, and ending the allocator gives back the last of its
    memory. *)
Theorem range_allocator_all_returned `{!RbOps} (HL : RbLaws) (size : Z) (memory : list bool) (A A' : uvm_range_allocator_t)
    (ops : list ra_op) :
  1 ≤ size < 2 ^ 64 → uvm_range_allocator_init size memory = (NV_OK, A) → Forall ra_op_ok ops →
  ra_session ops (A, []) = Some (A', []) →
  ∃ x A'', rt_head (ra_tree A') = [x] ∧ rt_node (ra_tree A') x = RangeNode 0 (size - 1) ∧
    uvm_range_allocator_deinit A' = Some A'' ∧ rt_head (ra_tree A'') = [] ∧ rt_nodes (ra_tree A'') = ∅.
Proof.
  intros Hs Hi Hops Hrun. destruct (init_session size memory A Hs Hi) as [Hinv Hsz].
  destruct (ra_session_inv ops _ Hops Hinv) as (st & Hrun' & [Hinv' _] & Hsz'). rewrite Hrun in Hrun'. simplify_eq/=.
  rewrite <-Hsz'. by apply range_deinit_spec.
Qed.

(** ** Witnesses *)

Definition ra_example : uvm_range_allocator_t := (uvm_range_allocator_init 0x10000 []).2.

Definition ra_example_ops : list ra_op :=
  [RaAlloc 0x1000 0; RaAlloc 0x10 0x1000; RaAlloc 0x20 0x800; RaFree 1; RaAlloc 0x8 0x8].

Lemma ra_example_ops_ok : Forall ra_op_ok (ra_example_ops ++ [RaFree 0; RaFree 0; RaFree 0]).
Proof.
  repeat apply Forall_cons_2; try exact I; [..|apply Forall_nil_2]; (split; [lia|]).
  - by exists 0.
  - by exists 12.
  - by exists 11.
  - by exists 3.
Qed.

Lemma range_allocations_disjoint_witness :
  option_map (λ st, map (λ h, al_aligned_start (h_alloc h)) st.2) (ra_session ra_example_ops (ra_example, [])) =
    Some [0x1000; 0x1800; 0] ∧
  ∃ A' L, ra_session ra_example_ops (ra_example, []) = Some (A', L) ∧
    (∀ h, h ∈ L → al_aligned_start (h_alloc h) mod h_alignment h = 0 ∧
      0 ≤ al_aligned_start (h_alloc h) ∧ al_aligned_start (h_alloc h) + h_size h ≤ 0x10000) ∧
    (∀ i j h h' k, L !! i = Some h → L !! j = Some h' → held_has h k → held_has h' k → i = j).
Proof.
  split; [vm_compute; reflexivity|].
  apply (range_allocations_disjoint plain_laws 0x10000 [] ra_example ra_example_ops).
  - lia.
  - vm_compute. reflexivity.
  - apply (Forall_app _ ra_example_ops [RaFree 0; RaFree 0; RaFree 0]), ra_example_ops_ok.
Defined.

Lemma range_alloc_complete_witness :
  option_map (λ st, (uvm_range_allocator_alloc 0xf000 0x1000 (RangeAllocation 0 None) st.1).1.1)
    (ra_session ra_example_ops (ra_example, [])) = Some NV_ERR_UVM_ADDRESS_IN_USE ∧
  ∃ A' L, ra_session ra_example_ops (ra_example, []) = Some (A', L) ∧
    let '(status, _, _) := uvm_range_allocator_alloc 0xf000 0x1000 (RangeAllocation 0 None) A' in
    status = NV_OK ∨ (status = NV_ERR_NO_MEMORY ∧ head (ra_memory A') = Some false) ∨
    (status = NV_ERR_UVM_ADDRESS_IN_USE ∧
     ∀ s, s mod alloc_alignment 0x1000 = 0 → ∃ b, s ≤ b ≤ s + 0xf000 - 1 ∧
       (¬ (0 ≤ b < 0x10000) ∨ ∃ h, h ∈ L ∧ node_has (ra_tree A') (held_node h) b)).
Proof.
  split; [vm_compute; reflexivity|].
  apply (range_alloc_complete plain_laws 0x10000 [] ra_example ra_example_ops 0xf000 0x1000 12 (RangeAllocation 0 None)).
  - lia.
  - vm_compute. reflexivity.
  - apply (Forall_app _ ra_example_ops [RaFree 0; RaFree 0; RaFree 0]), ra_example_ops_ok.
  - lia.
  - by split; [lia|].
Defined.

Lemma range_allocator_all_returned_witness :
  ∃ A' x A'', ra_session (ra_example_ops ++ [RaFree 0; RaFree 0; RaFree 0]) (ra_example, []) = Some (A', []) ∧
    rt_head (ra_tree A') = [x] ∧ rt_node (ra_tree A') x = RangeNode 0 (0x10000 - 1) ∧
    uvm_range_allocator_deinit A' = Some A'' ∧ rt_head (ra_tree A'') = [] ∧ rt_nodes (ra_tree A'') = ∅.
Proof.
  eexists. assert (ra_session (ra_example_ops ++ [RaFree 0; RaFree 0; RaFree 0]) (ra_example, []) = Some (_, [])) as Hrun
    by (vm_compute; reflexivity).
  edestruct (range_allocator_all_returned plain_laws 0x10000 [] ra_example) as (x & A'' & H1 & H2 & H3 & H4 & H5);
    [lia|vm_compute; reflexivity|exact ra_example_ops_ok|exact Hrun|].
  exists x, A''. split_and!; [exact Hrun|exact H1|exact H2|exact H3|exact H4|exact H5].
Defined.
