(* ===== verification/TraceText.v ===== *)
(** * The text of trace records: mc-trace.h and strace_diff.py

    MC_TRACE prints one line per record,

    [mc1 category/event key=value key=value ...]

    and the tools read it back: [_split_mc1] finds the records of a line,
    [MC1_RECORD_RE] takes one apart, [_mc1_fields] its fields and [_mc1_int] a number.
    The regular expressions are matchers with the same choices in the same order.
    [unescape] is Python's unicode_escape decoding of a quoted value, [None] where it
    raises. *)

From stdpp Require Import base numbers list gmap strings.
From S2P Require Import Prelude.
#[local] Open Scope Z_scope.

(** ** Printing *)

Definition digit_char (d : Z) : Z := if d <? 10 then 48 + d else 87 + d.

(** The digits of a number, most significant first; [fuel] of them at most. *)
Fixpoint digits (base : Z) (fuel : nat) (z : Z) : list Z :=
  match fuel with
  | O => []
  | S fuel => if z <? base then [z] else digits base fuel (z / base) ++ [z mod base]
  end.

(** [%u], [%d], [%llu] and [%x] of numbers of at most 64 bits. *)
Definition dec_text (z : Z) : text :=
  if z <? 0 then 45 :: (digit_char <$> digits 10 20 (- z)) else digit_char <$> digits 10 20 z.
Definition hex_text (z : Z) : text := digit_char <$> digits 16 16 z.

Definition pad_zeros (width : nat) (t : text) : text := replicate (width - length t) 48 ++ t.

(** The value of a field: [%u] or [%d], [0x%x] with a width, [%s], or an array as
    MC_ARR4 and MC_ARR8 print it. *)
Inductive mc_val :=
| MvDec (z : Z)
| MvHex (width : nat) (z : Z)
| MvStr (t : text)
| MvArr (width : nat) (zs : list Z).

Definition hex_val_text (width : nat) (z : Z) : text := codes "0x" ++ pad_zeros width (hex_text z).

Fixpoint join (sep : text) (ts : list text) : text :=
  match ts with
  | [] => []
  | [t] => t
  | t :: ts => t ++ sep ++ join sep ts
  end.

Definition print_val (v : mc_val) : text :=
  match v with
  | MvDec z => dec_text z
  | MvHex w z => hex_val_text w z
  | MvStr t => t
  | MvArr w zs => codes "[" ++ join (codes ",") (hex_val_text w <$> zs) ++ codes "]"
  end.

Definition mc_field : Type := text * mc_val.

Definition print_field (f : mc_field) : text := f.1 ++ codes "=" ++ print_val f.2.

(** A record, without the newline that ends it. *)
Record mc_record := McRecord {
  mr_cat : text;
  mr_event : text;
  mr_fields : list mc_field }.

Definition print_record (r : mc_record) : text :=
  codes "mc1 " ++ mr_cat r ++ codes "/" ++ mr_event r ++
  match mr_fields r with
  | [] => []
  | fs => codes " " ++ join (codes " ") (print_field <$> fs)
  end.

(** ** Python's texts *)

Definition is_space (c : Z) : bool :=
  ((9 <=? c) && (c <=? 13)) || ((28 <=? c) && (c <=? 32)) || (c =? 133) || (c =? 160) || (c =? 0x1680) ||
  ((0x2000 <=? c) && (c <=? 0x200a)) || (c =? 0x2028) || (c =? 0x2029) || (c =? 0x202f) || (c =? 0x205f) || (c =? 0x3000).

Definition non_space (c : Z) : bool := negb (is_space c).

Definition is_lower (c : Z) : bool := (97 <=? c) && (c <=? 122).
Definition is_digit (c : Z) : bool := (48 <=? c) && (c <=? 57).
Definition is_key (c : Z) : bool := is_lower c || is_digit c || (c =? 95).

Definition lstrip (t : text) : text := drop_while is_space t.
Definition rstrip (t : text) : text := reverse (drop_while is_space (reverse t)).
Definition strip (t : text) : text := rstrip (lstrip t).

(** [t.split(sep)] with a separator of one character. *)
Fixpoint split_on (sep : Z) (t : text) : list text :=
  match t with
  | [] => [[]]
  | c :: t =>
      if c =? sep then [] :: split_on sep t
      else match split_on sep t with
           | [] => [[c]]
           | w :: ws => (c :: w) :: ws
           end
  end.

(** [v[1:-1]] *)
Definition inner (v : text) : text := removelast (tail v).

(** *** [int(v, 0)] *)

Definition digit_value (base c : Z) : option Z :=
  let d := if is_digit c then c - 48
           else if is_lower c then c - 87
           else if (65 <=? c) && (c <=? 90) then c - 55
           else base in
  if d <? base then Some d else None.

(** Digits, with single underscores between them. *)
Fixpoint num_rest (base acc : Z) (t : text) : option Z :=
  match t with
  | [] => Some acc
  | 95 :: c :: t =>
      match digit_value base c with
      | Some d => num_rest base (acc * base + d) t
      | None => None
      end
  | c :: t =>
      match digit_value base c with
      | Some d => num_rest base (acc * base + d) t
      | None => None
      end
  end.

Definition num (base : Z) (t : text) : option Z :=
  match t with
  | [] => None
  | c :: t =>
      match digit_value base c with
      | Some d => num_rest base d t
      | None => None
      end
  end.

(** After a base prefix one underscore may stand. *)
Definition num_prefixed (base : Z) (t : text) : option Z :=
  match t with
  | 95 :: t => num base t
  | _ => num base t
  end.

Definition unsigned0 (t : text) : option Z :=
  match t with
  | 48 :: c :: t' =>
      if (c =? 120) || (c =? 88) then num_prefixed 16 t'
      else if (c =? 111) || (c =? 79) then num_prefixed 8 t'
      else if (c =? 98) || (c =? 66) then num_prefixed 2 t'
      else match num 10 t with
           | Some 0 => Some 0
           | _ => None
           end
  | _ => num 10 t
  end.

(** [None] is a ValueError. *)
Definition py_int0 (t : text) : option Z :=
  match strip t with
  | 45 :: t => Z.opp <$> unsigned0 t
  | 43 :: t => unsigned0 t
  | t => unsigned0 t
  end.

(** ** Parsing *)

(** The records of a line: from each occurrence of the sigil to the next. *)
Definition sigil : text := codes "mc1 ".

Definition emit_rec (cur : option text) : list text :=
  match cur with
  | None => []
  | Some r => match rstrip r with [] => [] | r => [r] end
  end.

Fixpoint split_go (cur : option text) (t : text) : list text :=
  match t with
  | [] => emit_rec cur
  | c :: t' =>
      if starts_with sigil t then emit_rec cur ++ split_go (Some [c]) t'
      else split_go ((λ r, r ++ [c]) <$> cur) t'
  end.

Definition _split_mc1 (payload : text) : list text := split_go None payload.

(** [[a-z][a-z0-9_]*] *)
Definition match_ident (t : text) : option (text * text) :=
  match t with
  | c :: _ => if is_lower c then Some (take_while is_key t, drop_while is_key t) else None
  | [] => None
  end.

Definition no_newline (t : text) : bool := forallb (λ c, negb (c =? 10)) t.

(** MC1_RECORD_RE: the category, the event and the text of the fields. *)
Definition match_record (rec : text) : option (text * text * text) :=
  if starts_with sigil rec then
    match match_ident (drop 4 rec) with
    | Some (cat, 47 :: t) =>
        match match_ident t with
        | Some (event, []) => Some (cat, event, [])
        | Some (event, 32 :: fields) => if no_newline fields then Some (cat, event, fields) else None
        | _ => None
        end
    | _ => None
    end
  else None.

(** [(?:[^"\\]|\\.)*"]: what a quoted value matches, with its closing quote. *)
Fixpoint match_quoted (t : text) : option (text * text) :=
  match t with
  | [] => None
  | c :: t =>
      if c =? 34 then Some ([34], t)
      else if c =? 92 then
        match t with
        | [] => None
        | d :: t => if d =? 10 then None else (λ '(v, r), (92 :: d :: v, r)) <$> match_quoted t
        end
      else (λ '(v, r), (c :: v, r)) <$> match_quoted t
  end.

(** [[^\]]*\]] *)
Fixpoint match_array (t : text) : option (text * text) :=
  match t with
  | [] => None
  | c :: t => if c =? 93 then Some ([93], t) else (λ '(v, r), (c :: v, r)) <$> match_array t
  end.

(** [\S+] *)
Definition match_bare (t : text) : option (text * text) :=
  match take_while non_space t with
  | [] => None
  | v => Some (v, drop_while non_space t)
  end.

Definition match_value (t : text) : option (text * text) :=
  match t with
  | 34 :: t' =>
      match match_quoted t' with
      | Some (v, r) => Some (34 :: v, r)
      | None => match_bare t
      end
  | 91 :: t' =>
      match match_array t' with
      | Some (v, r) => Some (91 :: v, r)
      | None => match_bare t
      end
  | _ => match_bare t
  end.

(** A match of MC1_KV_RE at the start of the text. *)
Definition match_kv (t : text) : option (text * text * text) :=
  match match_ident t with
  | Some (k, 61 :: t) =>
      match match_value t with
      | Some (v, r) => Some (k, v, r)
      | None => None
      end
  | _ => None
  end.

(** [MC1_KV_RE.finditer]; every turn consumes a character. *)
Fixpoint find_kvs (fuel : nat) (t : text) : list (text * text) :=
  match fuel with
  | O => []
  | S fuel =>
      match t with
      | [] => []
      | _ :: t' =>
          match match_kv t with
          | Some (k, v, r) => (k, v) :: find_kvs fuel r
          | None => find_kvs fuel t'
          end
      end
  end.

(** A value of the dictionary: a str or a list of str. *)
Inductive pyval :=
| PStr (t : text)
| PList (ts : list text).

Abbreviation mc1_dict := (gmap text pyval).

Section fields.
Context (unescape : text → option text).

Definition field_value (v : text) : option pyval :=
  match v with
  | 34 :: _ => PStr <$> unescape (inner v)
  | 91 :: _ =>
      match strip (inner v) with
      | [] => Some (PList [])
      | i => Some (PList (strip <$> split_on 44 i))
      end
  | _ => Some (PStr v)
  end.

Fixpoint add_fields (d : mc1_dict) (kvs : list (text * text)) : option mc1_dict :=
  match kvs with
  | [] => Some d
  | (k, v) :: kvs =>
      match field_value v with
      | None => None
      | Some w => add_fields (<[k := w]> d) kvs
      end
  end.

(** [None] is the ValueError of a quoted value that does not decode. *)
Definition _mc1_fields (s : text) : option mc1_dict := add_fields ∅ (find_kvs (length s) s).
End fields.

(** * Numbers print and parse *)

(** The value of a list of digits after [acc]. *)
Definition num_eval (base acc : Z) (ds : list Z) : Z := foldl (λ a d, a * base + d) acc ds.

Definition is_digit_of (base d : Z) : Prop := 0 ≤ d < base.

Lemma digits_range base fuel z : 2 ≤ base → 0 ≤ z → Forall (is_digit_of base) (digits base fuel z).
Proof.
  intros Hb. revert z. induction fuel as [|fuel IH]; intros z Hz; simpl; [constructor|].
  destruct (Z.ltb_spec z base); [constructor; [done|constructor]|].
  apply Forall_app. split; [apply IH, Z.div_pos; lia|constructor; [apply Z.mod_pos_bound; lia|constructor]].
Qed.

Lemma num_eval_app base acc ds ds' : num_eval base acc (ds ++ ds') = num_eval base (num_eval base acc ds) ds'.
Proof. apply foldl_app. Qed.

Lemma digits_eval base fuel z : 2 ≤ base → 0 ≤ z < base ^ Z.of_nat fuel → num_eval base 0 (digits base fuel z) = z.
Proof.
  intros Hb. revert z. induction fuel as [|fuel IH]; intros z Hz; simpl; [simpl in Hz; unfold num_eval; simpl; lia|].
  destruct (Z.ltb_spec z base); [done|]. rewrite num_eval_app, IH.
  - unfold num_eval. simpl. pose proof (Z.div_mod z base). lia.
  - rewrite Nat2Z.inj_succ, Z.pow_succ_r in Hz by lia. split; [apply Z.div_pos; lia|].
    apply Z.div_lt_upper_bound; lia.
Qed.

Lemma digits_nonempty base fuel z : digits base (S fuel) z ≠ [].
Proof. simpl. destruct (z <? base); [done|]. by destruct (digits base fuel (z / base)). Qed.

(** No leading zero. *)
Lemma digits_head base fuel z : 2 ≤ base → 0 < z < base ^ Z.of_nat fuel → ∃ d ds, digits base fuel z = d :: ds ∧ d ≠ 0.
Proof.
  intros Hb. revert z. induction fuel as [|fuel IH]; intros z Hz; [simpl in Hz; lia|]. simpl.
  destruct (Z.ltb_spec z base); [exists z, []; split; [done|lia]|].
  rewrite Nat2Z.inj_succ, Z.pow_succ_r in Hz by lia.
  destruct (IH (z / base)) as (d & ds & -> & Hd); [|by exists d, (ds ++ [z mod base])].
  split; [apply Z.div_str_pos; lia|apply Z.div_lt_upper_bound; lia].
Qed.

Lemma digit_char_value base d : 2 ≤ base ≤ 16 → is_digit_of base d → digit_value base (digit_char d) = Some d.
Proof.
  intros Hb [Hd1 Hd2]. unfold digit_value, digit_char, is_digit, is_lower. destruct (Z.ltb_spec d 10).
  - rewrite !(proj2 (Z.leb_le _ _)) by lia. simpl. replace (48 + d - 48) with d by lia. by rewrite (proj2 (Z.ltb_lt _ _)).
  - rewrite (proj2 (Z.leb_gt (87 + d) 57)) by lia. rewrite andb_false_r.
    rewrite (proj2 (Z.leb_le 97 _)), (proj2 (Z.leb_le _ 122)) by lia. simpl.
    replace (87 + d - 87) with d by lia. by rewrite (proj2 (Z.ltb_lt _ _)).
Qed.

Lemma digit_char_code d : is_digit_of 16 d → (48 ≤ digit_char d ≤ 57 ∧ d < 10) ∨ (97 ≤ digit_char d ≤ 102 ∧ 10 ≤ d).
Proof. intros [Hd1 Hd2]. unfold digit_char. destruct (Z.ltb_spec d 10); lia. Qed.

Lemma is_digit_of_16 base d : base ≤ 16 → is_digit_of base d → is_digit_of 16 d.
Proof. unfold is_digit_of. lia. Qed.

Lemma num_rest_digits base acc ds : 2 ≤ base ≤ 16 → Forall (is_digit_of base) ds →
  num_rest base acc (digit_char <$> ds) = Some (num_eval base acc ds).
Proof.
  intros Hb Hds. revert acc. induction Hds as [|d ds Hd _ IH]; intros acc; [done|].
  pose proof (digit_char_value base d Hb Hd) as Hv.
  pose proof (digit_char_code d (is_digit_of_16 base d ltac:(lia) Hd)) as Hc.
  rewrite fmap_cons. cbn [num_rest]. rewrite Hv.
  destruct (digit_char d) as [|p|p] eqn:Hp; [lia| |lia].
  assert (Z.pos p ≠ 95) as Hne by lia. clear - IH Hne.
  unfold num_eval in *. simpl.
  repeat (destruct p as [p|p|]; try apply IH). done.
Qed.

Lemma num_digits base ds : 2 ≤ base ≤ 16 → ds ≠ [] → Forall (is_digit_of base) ds →
  num base (digit_char <$> ds) = Some (num_eval base 0 ds).
Proof.
  intros Hb Hne Hds. destruct ds as [|d ds]; [done|]. apply Forall_cons in Hds as [Hd Hds].
  rewrite fmap_cons. cbn [num]. rewrite digit_char_value, num_rest_digits by done.
  unfold num_eval. simpl. by rewrite Z.add_0_l.
Qed.

(** *** Characters *)

Lemma digit_char_non_space d : is_digit_of 16 d → non_space (digit_char d) = true.
Proof.
  intros Hd. pose proof (digit_char_code d Hd). unfold non_space, is_space.
  destruct (negb _) eqn:Hn; [done|]. apply negb_false_iff in Hn. exfalso.
  repeat (apply orb_true_iff in Hn as [Hn|Hn]); try (apply andb_true_iff in Hn as [Hn1 Hn2]);
    rewrite ?Z.leb_le, ?Z.eqb_eq in *; lia.
Qed.

Lemma non_space_false c : non_space c = true → is_space c = false.
Proof. apply negb_true_iff. Qed.

Lemma strip_id t : Forall (λ c, non_space c = true) t → strip t = t.
Proof.
  intros Ht. unfold strip, lstrip, rstrip. rewrite (drop_while_stop _ t).
  - rewrite drop_while_stop; [apply reverse_involutive|]. intros c Hc%head_Some_elem_of.
    rewrite Forall_forall in Ht. apply non_space_false, Ht. by rewrite <-elem_of_reverse.
  - intros c Hc%head_Some_elem_of. rewrite Forall_forall in Ht. by apply non_space_false, Ht.
Qed.

Lemma digits_non_space base ds : base ≤ 16 → Forall (is_digit_of base) ds →
  Forall (λ c, non_space c = true) (digit_char <$> ds).
Proof.
  intros Hb Hds. apply Forall_fmap. eapply Forall_impl; [done|]. intros d Hd.
  apply digit_char_non_space. by apply (is_digit_of_16 base).
Qed.

(** Matching on a literal character. *)
Ltac char_cases c := destruct c as [|c|c]; [done| |done]; repeat (destruct c as [c|c|]; try done).

Lemma unsigned0_num c t : c ≠ 48 → unsigned0 (c :: t) = num 10 (c :: t).
Proof. intros Hc. unfold unsigned0. char_cases c. Qed.

Lemma py_int0_unsigned c t : Forall (λ c, non_space c = true) (c :: t) → c ≠ 45 → c ≠ 43 →
  py_int0 (c :: t) = unsigned0 (c :: t).
Proof. intros Ht H1 H2. unfold py_int0. rewrite strip_id by done. char_cases c. Qed.

Lemma unsigned0_dec z : 0 ≤ z < 10 ^ 20 → unsigned0 (digit_char <$> digits 10 20 z) = Some z.
Proof.
  intros Hz. destruct (decide (z = 0)) as [->|Hnz]; [done|].
  destruct (digits_head 10 20 z ltac:(lia) ltac:(change (Z.of_nat 20) with 20; lia)) as (d & ds & Hds & Hd).
  pose proof (digits_range 10 20 z ltac:(lia) ltac:(lia)) as Hr. rewrite Hds in *.
  rewrite fmap_cons, unsigned0_num, <-fmap_cons, num_digits; [|lia|done|done|].
  - rewrite <-Hds, digits_eval; [done|lia|]. change (Z.of_nat 20) with 20. lia.
  - apply Forall_cons in Hr as [[??] _]. unfold digit_char. destruct (Z.ltb_spec d 10); lia.
Qed.

Lemma dec_text_cons z : 0 ≤ z < 10 ^ 20 → ∃ c t, digit_char <$> digits 10 20 z = c :: t ∧ 48 ≤ c ≤ 57 ∧
  Forall (λ c, non_space c = true) (c :: t).
Proof.
  intros Hz. pose proof (digits_range 10 20 z ltac:(lia) ltac:(lia)) as Hr.
  pose proof (digits_non_space 10 _ ltac:(lia) Hr) as Hn.
  pose proof (digits_nonempty 10 19 z) as Hne. destruct (digits 10 20 z) as [|d ds]; [done|].
  exists (digit_char d), (digit_char <$> ds). apply Forall_cons in Hr as [[??] _].
  split_and!; [done|..|done]; unfold digit_char; destruct (Z.ltb_spec d 10); lia.
Qed.

Lemma py_int0_dec z : - 10 ^ 20 < z < 10 ^ 20 → py_int0 (dec_text z) = Some z.
Proof.
  intros Hz. unfold dec_text. destruct (Z.ltb_spec z 0).
  - destruct (dec_text_cons (- z)) as (c & t & Ht & _ & Hn); [lia|].
    unfold py_int0. rewrite strip_id by (constructor; [done|by rewrite Ht]).
    rewrite unsigned0_dec by lia. simpl. f_equal. lia.
  - destruct (dec_text_cons z) as (c & t & Ht & Hc & Hn); [lia|].
    rewrite Ht, py_int0_unsigned, <-Ht, unsigned0_dec by (done || lia). done.
Qed.

Lemma pad_zeros_digits w ds : pad_zeros w (digit_char <$> ds) = digit_char <$> (replicate (w - length ds) 0 ++ ds).
Proof. unfold pad_zeros. rewrite fmap_app, length_fmap, fmap_replicate. done. Qed.

Lemma num_eval_zeros base n ds : num_eval base 0 (replicate n 0 ++ ds) = num_eval base 0 ds.
Proof. rewrite num_eval_app. f_equal. induction n as [|n IH]; [done|]. simpl. unfold num_eval in *. simpl. done. Qed.

(** The digits after the prefix of a hexadecimal value. *)
Lemma hex_digits_of w z : 0 ≤ z < 2 ^ 64 → ∃ ds, pad_zeros w (hex_text z) = digit_char <$> ds ∧ ds ≠ [] ∧
  Forall (is_digit_of 16) ds ∧ num_eval 16 0 ds = z.
Proof.
  intros Hz. exists (replicate (w - length (digits 16 16 z)) 0 ++ digits 16 16 z). split_and!.
  - apply pad_zeros_digits.
  - intros [_ H]%app_eq_nil. by apply digits_nonempty in H.
  - apply Forall_app. split; [apply Forall_replicate; unfold is_digit_of; lia|apply digits_range; lia].
  - rewrite num_eval_zeros, digits_eval; [done|lia|]. change (Z.of_nat 16) with 16. change (16 ^ 16) with (2 ^ 64). lia.
Qed.

Lemma num_prefixed_digits ds : ds ≠ [] → Forall (is_digit_of 16) ds →
  num_prefixed 16 (digit_char <$> ds) = Some (num_eval 16 0 ds).
Proof.
  intros Hne Hds. rewrite <-num_digits by (done || lia). destruct ds as [|d ds]; [done|].
  apply Forall_cons in Hds as [Hd _]. pose proof (digit_char_code d Hd) as Hc. rewrite fmap_cons.
  unfold num_prefixed. assert (digit_char d ≠ 95) as Hn by lia. revert Hn. generalize (digit_char d). intros c Hn. char_cases c.
Qed.

Lemma py_int0_hex w z : 0 ≤ z < 2 ^ 64 → py_int0 (hex_val_text w z) = Some z.
Proof.
  intros Hz. unfold hex_val_text. destruct (hex_digits_of w z Hz) as (ds & -> & Hne & Hds & Hv).
  change (codes "0x" ++ (digit_char <$> ds)) with (48 :: 120 :: (digit_char <$> ds)).
  rewrite py_int0_unsigned; [|do 2 (constructor; [done|]); by apply (digits_non_space 16)|done|done].
  simpl. rewrite num_prefixed_digits by done. by rewrite Hv.
Qed.

(** * Records print and parse *)

Definition ident (k : text) : Prop := (∃ c t, k = c :: t ∧ is_lower c = true) ∧ Forall (λ c, is_key c = true) k.

(** What MC_TRACE's sites print: numbers of up to 64 bits, and words. *)
Definition word (t : text) : Prop :=
  Forall (λ c, non_space c = true) t ∧ ∃ c t', t = c :: t' ∧ c ≠ 34 ∧ c ≠ 91.

Definition clean_val (v : mc_val) : Prop :=
  match v with
  | MvDec z => - 10 ^ 20 < z < 10 ^ 20
  | MvHex _ z => is_u64 z
  | MvStr t => word t
  | MvArr _ zs => Forall is_u64 zs
  end.

Definition clean_field (f : mc_field) : Prop := ident f.1 ∧ clean_val f.2.

(** What the parser makes of a value. *)
Definition val_of (v : mc_val) : pyval :=
  match v with
  | MvArr w zs => PList (hex_val_text w <$> zs)
  | _ => PStr (print_val v)
  end.

Lemma dec_text_word z : - 10 ^ 20 < z < 10 ^ 20 → word (dec_text z).
Proof.
  intros Hz. unfold dec_text. destruct (Z.ltb_spec z 0).
  - destruct (dec_text_cons (- z)) as (c & t & -> & _ & Hn); [lia|]. split; [by constructor|]. by eexists _, _.
  - destruct (dec_text_cons z) as (c & t & -> & Hc & Hn); [lia|]. split; [done|]. exists c, t. split_and!; [done|lia|lia].
Qed.

Lemma hex_val_word w z : is_u64 z → word (hex_val_text w z).
Proof.
  intros Hz. unfold hex_val_text. destruct (hex_digits_of w z Hz) as (ds & -> & _ & Hds & _). split.
  - apply Forall_app. split; [by repeat constructor|]. by apply (digits_non_space 16).
  - by eexists _, _.
Qed.

(** A hexadecimal value has neither a comma nor a bracket. *)
Lemma hex_val_plain w z : is_u64 z → Forall (λ c, c ≠ 44 ∧ c ≠ 93) (hex_val_text w z).
Proof.
  intros Hz. unfold hex_val_text. destruct (hex_digits_of w z Hz) as (ds & -> & _ & Hds & _).
  apply Forall_app. split; [by repeat constructor|]. apply Forall_fmap. eapply Forall_impl; [done|].
  intros d Hd. simpl. pose proof (digit_char_code d Hd). lia.
Qed.

Lemma join_cons sep t ts : join sep (t :: ts) = t ++ match ts with [] => [] | _ => sep ++ join sep ts end.
Proof. destruct ts; simpl; [by rewrite app_nil_r|done]. Qed.

Lemma join_Forall (P : Z → Prop) sep ts : Forall P sep → Forall (Forall P) ts → Forall P (join sep ts).
Proof.
  intros Hsep. induction 1 as [|t ts Ht Hts IH]; [constructor|]. rewrite join_cons. apply Forall_app. split; [done|].
  destruct ts; [constructor|]. by apply Forall_app.
Qed.

Lemma split_on_nonempty sep t : split_on sep t ≠ [].
Proof. destruct t as [|c t]; simpl; [done|]. destruct (c =? sep); [done|]. by destruct (split_on sep t). Qed.

Lemma split_on_word sep t rest : Forall (λ c, c ≠ sep) t →
  split_on sep (t ++ rest) = match split_on sep rest with [] => [t] | w :: ws => (t ++ w) :: ws end.
Proof.
  induction 1 as [|c t Hc _ IH]; simpl.
  { pose proof (split_on_nonempty sep rest). by destruct (split_on sep rest). }
  rewrite (proj2 (Z.eqb_neq _ _)) by done. rewrite IH. by destruct (split_on sep rest).
Qed.

Lemma split_on_join sep ts : ts ≠ [] → Forall (Forall (λ c, c ≠ sep)) ts → split_on sep (join [sep] ts) = ts.
Proof.
  intros Hne Hts. induction Hts as [|t ts Ht Hts IH]; [done|]. rewrite join_cons.
  rewrite split_on_word by done. destruct ts as [|t' ts]; [simpl; by rewrite app_nil_r|].
  change (split_on sep ([sep] ++ join [sep] (t' :: ts))) with
    (if sep =? sep then [] :: split_on sep (join [sep] (t' :: ts)) else
      match split_on sep (join [sep] (t' :: ts)) with [] => [[sep]] | w :: ws => (sep :: w) :: ws end).
  rewrite Z.eqb_refl, IH by done. by rewrite app_nil_r.
Qed.

Lemma match_bare_word t rest : t ≠ [] → Forall (λ c, non_space c = true) t →
  (∀ c, head rest = Some c → non_space c = false) → match_bare (t ++ rest) = Some (t, rest).
Proof.
  intros Hne Ht Hr. unfold match_bare. rewrite take_while_all, drop_while_all, drop_while_stop by done.
  assert (take_while non_space rest = []) as ->.
  { destruct rest as [|c rest]; [done|]. simpl. by rewrite Hr. }
  rewrite app_nil_r. by destruct t.
Qed.

Lemma match_array_close t rest : Forall (λ c, c ≠ 93) t → match_array (t ++ 93 :: rest) = Some (t ++ [93], rest).
Proof.
  induction 1 as [|c t Hc _ IH]; [done|]. simpl. rewrite (proj2 (Z.eqb_neq _ _)) by done. by rewrite IH.
Qed.

Lemma match_value_bare c t : c ≠ 34 → c ≠ 91 → match_value (c :: t) = match_bare (c :: t).
Proof. intros H1 H2. unfold match_value. char_cases c. Qed.

Lemma field_value_bare un c t : c ≠ 34 → c ≠ 91 → field_value un (c :: t) = Some (PStr (c :: t)).
Proof. intros H1 H2. unfold field_value. char_cases c. Qed.

(** The elements of an array, and the text between its brackets. *)
Definition arr_inner (w : nat) (zs : list Z) : text := join (codes ",") (hex_val_text w <$> zs).

Lemma arr_inner_chars w zs : Forall is_u64 zs →
  Forall (λ c, c ≠ 93) (arr_inner w zs) ∧ Forall (λ c, non_space c = true) (arr_inner w zs).
Proof.
  intros Hz. split; (apply join_Forall; [by repeat constructor|]); apply Forall_fmap; (eapply Forall_impl; [done|]);
    intros z Hzz; simpl.
  - eapply Forall_impl; [by apply hex_val_plain|]. naive_solver.
  - by apply hex_val_word.
Qed.

Lemma match_value_print v rest : clean_val v → (∀ c, head rest = Some c → non_space c = false) →
  match_value (print_val v ++ rest) = Some (print_val v, rest).
Proof.
  intros Hv Hr. assert (∀ t, word t → match_value (t ++ rest) = Some (t, rest)) as Hw.
  { intros t [Ht (c & t' & -> & H1 & H2)]. rewrite <-app_comm_cons, match_value_bare, app_comm_cons by done.
    by apply match_bare_word. }
  destruct v as [z|w z|t|w zs]; cbn [clean_val print_val val_of] in *; [by apply Hw, dec_text_word|by apply Hw, hex_val_word|by apply Hw|].
  fold (arr_inner w zs). rewrite <-!(assoc_L (++)). change (codes "[") with [91]. change (codes "]") with [93]. cbn [app match_value].
  rewrite match_array_close by (by apply arr_inner_chars). done.
Qed.

Lemma inner_brackets a b t : inner (a :: t ++ [b]) = t.
Proof. unfold inner. simpl. apply removelast_last. Qed.

Lemma field_value_print un v : clean_val v → field_value un (print_val v) = Some (val_of v).
Proof.
  intros Hv. assert (∀ t, word t → field_value un t = Some (PStr t)) as Hw.
  { intros t [_ (c & t' & -> & H1 & H2)]. by apply field_value_bare. }
  destruct v as [z|w z|t|w zs]; cbn [clean_val print_val val_of] in *; [by apply Hw, dec_text_word|by apply Hw, hex_val_word|by apply Hw|].
  fold (arr_inner w zs). change (codes "[") with [91]. change (codes "]") with [93]. cbn [app field_value].
  rewrite inner_brackets, strip_id by (by apply arr_inner_chars).
  destruct zs as [|z zs]; [done|]. destruct (arr_inner w (z :: zs)) as [|c t] eqn:Hi.
  { unfold arr_inner in Hi. rewrite fmap_cons, join_cons in Hi. discriminate Hi. }
  rewrite <-Hi. clear Hi c t.
  unfold arr_inner. rewrite split_on_join; [|done|].
  - do 2 f_equal. rewrite <-list_fmap_compose. apply list_fmap_ext. intros i x Hx.
    assert (is_u64 x) as Hxu by (rewrite Forall_forall in Hv; apply Hv; by eapply list_elem_of_lookup_2).
    simpl. apply strip_id. by apply hex_val_word.
  - apply Forall_fmap. eapply Forall_impl; [done|]. intros x Hx. simpl.
    eapply Forall_impl; [by apply hex_val_plain|]. naive_solver.
Qed.

Lemma ident_match k rest : ident k → (∀ c, head rest = Some c → is_key c = false) → match_ident (k ++ rest) = Some (k, rest).
Proof.
  intros [(c & t & -> & Hc) Hk] Hr. unfold match_ident. rewrite <-app_comm_cons, Hc, app_comm_cons.
  rewrite take_while_all, drop_while_all, drop_while_stop by done.
  assert (take_while is_key rest = []) as ->; [|by rewrite app_nil_r].
  destruct rest as [|d rest]; [done|]. simpl. by rewrite Hr.
Qed.

Lemma match_kv_print f rest : clean_field f → (∀ c, head rest = Some c → non_space c = false) →
  match_kv (print_field f ++ rest) = Some (f.1, print_val f.2, rest).
Proof.
  intros [Hk Hv] Hr. destruct f as [k v]. unfold match_kv, print_field. cbn [fst snd] in *. rewrite <-!(assoc_L (++)).
  rewrite ident_match; [|done|by intros c [= <-]]. change (codes "=") with [61]. cbn [app].
  by rewrite match_value_print.
Qed.

Lemma print_field_nonempty f : ident f.1 → (0 < length (print_field f))%nat.
Proof. intros [(c & t & Hk & _) _]. unfold print_field. rewrite Hk. simpl. lia. Qed.

Lemma find_kvs_print fs fuel : Forall clean_field fs → (length (join (codes " ") (print_field <$> fs)) ≤ fuel)%nat →
  find_kvs fuel (join (codes " ") (print_field <$> fs)) = (λ f, (f.1, print_val f.2)) <$> fs.
Proof.
  intros Hfs. revert fuel. induction Hfs as [|f fs Hf Hfs IH]; intros fuel Hfuel; [by destruct fuel|].
  rewrite fmap_cons, join_cons in *. pose proof (print_field_nonempty f (proj1 Hf)) as Hpos.
  rewrite length_app in Hfuel. destruct fuel as [|fuel]; [lia|]. cbn [find_kvs].
  set (rest := match print_field <$> fs with [] => [] | _ => _ end) in *.
  assert (∀ c, head rest = Some c → non_space c = false) as Hr.
  { unfold rest. destruct (print_field <$> fs); [done|]. by intros c [= <-]. }
  destruct (print_field f ++ rest) as [|c t] eqn:Ht; [apply app_eq_nil in Ht as [Ht _]; rewrite Ht in Hpos; simpl in Hpos; lia|].
  rewrite <-Ht, match_kv_print by done. rewrite fmap_cons. f_equal. clear c t Ht Hr.
  destruct fs as [|f' fs]; [by destruct fuel|]. subst rest. rewrite fmap_cons in Hfuel |- *. cbn iota beta in *.
  rewrite <-(fmap_cons print_field f' fs) in Hfuel |- *. set (J := join (codes " ") _) in *.
  change (length (codes " " ++ J)) with (S (length J)) in Hfuel. destruct fuel as [|fuel]; [lia|].
  change (codes " " ++ J) with (32 :: J). cbn [find_kvs]. apply IH. lia.
Qed.

(** The dictionary of a record's fields: the last of equal keys counts. *)
Definition fields_dict (fs : list mc_field) : mc1_dict := foldl (λ d f, <[f.1 := val_of f.2]> d) ∅ fs.

Lemma add_fields_print un d fs : Forall clean_field fs →
  add_fields un d ((λ f, (f.1, print_val f.2)) <$> fs) = Some (foldl (λ d f, <[f.1 := val_of f.2]> d) d fs).
Proof.
  intros Hfs. revert d. induction Hfs as [|f fs [_ Hf] _ IH]; intros d; [done|].
  rewrite fmap_cons. cbn [add_fields foldl]. by rewrite field_value_print, IH.
Qed.

Lemma fields_print un fs : Forall clean_field fs →
  _mc1_fields un (join (codes " ") (print_field <$> fs)) = Some (fields_dict fs).
Proof. intros Hfs. unfold _mc1_fields. rewrite find_kvs_print by done. by apply add_fields_print. Qed.

(** *** The whole record *)

(** The letters of the sigil at the end of a word would be taken for it. *)
Definition not_sigil_end (w : text) : Prop := ∀ p, w ≠ p ++ codes "mc1".

Record clean_record (r : mc_record) : Prop := {
  cr_cat : ident (mr_cat r);
  cr_event : ident (mr_event r);
  cr_fields : Forall clean_field (mr_fields r);
  cr_event_end : not_sigil_end (mr_event r);
  cr_words t : t ∈ (mr_fields r).*2 ≫= (λ v, match v with MvStr t => [t] | _ => [] end) → not_sigil_end t }.

Definition fields_text (r : mc_record) : text := join (codes " ") (print_field <$> mr_fields r).

(** The sigil occurs nowhere in the text. *)
Definition no_sigil (t : text) : Prop := ∀ a b, t = a ++ b → starts_with sigil b = false.

Lemma no_sigil_cons c t : no_sigil (c :: t) ↔ starts_with sigil (c :: t) = false ∧ no_sigil t.
Proof.
  split.
  - intros H. split; [by apply (H [])|]. intros a b ->. by apply (H (c :: a)).
  - intros [H1 H2] [|d a] b Heq; simpl in Heq; [by subst|]. simplify_eq. by apply (H2 a).
Qed.

Lemma split_go_no_sigil r t : no_sigil t → split_go (Some r) t = emit_rec (Some (r ++ t)).
Proof.
  revert r. induction t as [|c t IH]; intros r Ht; [by rewrite app_nil_r|].
  apply no_sigil_cons in Ht as [Hc Ht]. cbn [split_go]. rewrite Hc. simpl fmap. rewrite IH by done.
  by rewrite <-(assoc_L (++)).
Qed.

(** A word that does not end with the sigil's letters. *)
Definition sigil_safe (w : text) : Prop := Forall (λ c, non_space c = true) w ∧ not_sigil_end w.

Lemma starts_with_sigil t : starts_with sigil t = true → ∃ t', t = 109 :: 99 :: 49 :: 32 :: t'.
Proof.
  unfold starts_with, sigil. intros H%bool_decide_eq_true.
  destruct t as [|c1 [|c2 [|c3 [|c4 t]]]]; try done. exists t. by simplify_eq/=.
Qed.

Lemma sigil_word w rest : sigil_safe w → (rest = [] ∨ ∃ t, rest = 32 :: t ∧ no_sigil t) → no_sigil (w ++ rest).
Proof.
  intros [Hw Hend] Hrest. assert (no_sigil rest) as Hnr.
  { destruct Hrest as [->|(t & -> & Ht)]; [|by apply no_sigil_cons].
    intros a b Hab. symmetry in Hab. by apply app_eq_nil in Hab as [-> ->]. }
  induction w as [|c w IH]; [done|]. apply Forall_cons in Hw as [Hc Hw]. rewrite <-app_comm_cons.
  apply no_sigil_cons. split; [|apply IH; [done|]; intros p Hp; apply (Hend (c :: p)); by rewrite Hp].
  destruct (starts_with sigil (c :: w ++ rest)) eqn:Hs; [|done].
  apply starts_with_sigil in Hs as [t' Ht]. simplify_eq. exfalso.
  destruct w as [|c2 w]; [destruct Hrest as [->|(t & -> & _)]; simplify_eq/=|].
  destruct w as [|c3 w]; [destruct Hrest as [->|(t & -> & _)]; simplify_eq/=|].
  destruct w as [|c4 w]; simplify_eq/=; [by apply (Hend [])|].
  apply Forall_cons in Hw as [_ Hw]. apply Forall_cons in Hw as [_ Hw]. by apply Forall_cons in Hw as [? _].
Qed.

Lemma sigil_words ws : Forall sigil_safe ws → no_sigil (join (codes " ") ws).
Proof.
  induction 1 as [|w ws Hw Hws IH].
  { intros a b Hab. symmetry in Hab. by apply app_eq_nil in Hab as [-> ->]. }
  rewrite join_cons. apply sigil_word; [done|]. destruct ws; [by left|]. right. eexists. split; [done|]. done.
Qed.

(** What holds of the characters of a text and fails of m keeps it from ending in the sigil. *)
Lemma sigil_safe_chars (P : Z → Prop) w : Forall (λ c, non_space c = true) w → Forall P w → ¬ P 109 → sigil_safe w.
Proof.
  intros Hn Hw Hm. split; [done|]. intros p ->. apply Forall_app in Hw as [_ Hw].
  by apply Forall_cons in Hw as [? _].
Qed.

Lemma print_val_non_space v : clean_val v → Forall (λ c, non_space c = true) (print_val v) ∧ print_val v ≠ [].
Proof.
  intros Hv. assert (∀ t, word t → Forall (λ c, non_space c = true) t ∧ t ≠ []) as Hw.
  { intros t [Ht (c & t' & -> & _)]. done. }
  destruct v as [z|w z|t|w zs]; cbn [clean_val print_val] in *; [by apply Hw, dec_text_word|by apply Hw, hex_val_word|by apply Hw|].
  split; [|done]. apply Forall_app. split; [by repeat constructor|]. apply Forall_app. split; [by apply arr_inner_chars|by repeat constructor].
Qed.

Lemma digits_not_m base ds : base ≤ 16 → Forall (is_digit_of base) ds → Forall (λ c, c ≠ 109) (digit_char <$> ds).
Proof.
  intros Hb Hds. apply Forall_fmap. eapply Forall_impl; [done|]. intros d Hd. simpl.
  pose proof (digit_char_code d (is_digit_of_16 base d Hb Hd)). lia.
Qed.

Lemma hex_val_not_m w z : is_u64 z → Forall (λ c, c ≠ 109) (hex_val_text w z).
Proof.
  intros Hz. unfold hex_val_text. destruct (hex_digits_of w z Hz) as (ds & -> & _ & Hds & _).
  apply Forall_app. split; [by repeat constructor|]. by apply (digits_not_m 16).
Qed.

Lemma print_val_end v : clean_val v → (∀ t, v = MvStr t → not_sigil_end t) → not_sigil_end (print_val v).
Proof.
  intros Hv Hs. destruct (print_val_non_space v Hv) as [Hn _].
  destruct v as [z|w z|t|w zs]; [| |by apply Hs|];
    (apply (sigil_safe_chars (λ c, c ≠ 109)); [done| |by intros H; apply H]); cbn [print_val clean_val] in *.
  - unfold dec_text. destruct (Z.ltb_spec z 0); [constructor; [done|]|]; apply (digits_not_m 10); try lia; apply digits_range; lia.
  - by apply hex_val_not_m.
  - apply Forall_app. split; [by repeat constructor|]. apply Forall_app. split; [|by repeat constructor].
    apply join_Forall; [by repeat constructor|]. apply Forall_fmap. eapply Forall_impl; [done|]. intros x Hx. by apply hex_val_not_m.
Qed.

Lemma field_end k v : v ≠ [] → not_sigil_end v → not_sigil_end (k ++ codes "=" ++ v).
Proof.
  intros Hne Hv q Hq. rewrite (assoc_L (++)) in Hq. apply app_eq_inv in Hq as [(x & Hx & Hm)|(x & -> & Hx)].
  2: { by apply (Hv x). }
  destruct x as [|c x _] using rev_ind; [by apply (Hv []); rewrite Hm|].
  rewrite (assoc_L (++)) in Hx. apply app_inj_2 in Hx as [_ [= <-]]; [|done].
  destruct x as [|c1 [|c2 [|c3 x]]]; simpl in Hm; simplify_eq. by destruct x, v.
Qed.

Lemma ident_non_space k : ident k → Forall (λ c, non_space c = true) k.
Proof.
  intros [_ Hk]. eapply Forall_impl; [done|]. intros c. simpl. unfold is_key, is_lower, is_digit, non_space, is_space. intros Hc.
  destruct (negb _) eqn:Hn; [done|]. apply negb_false_iff in Hn. exfalso.
  repeat (apply orb_true_iff in Hn as [Hn|Hn]); repeat (apply orb_true_iff in Hc as [Hc|Hc]);
    rewrite ?andb_true_iff, ?Z.leb_le, ?Z.eqb_eq in *; lia.
Qed.

Lemma field_safe f : clean_field f → (∀ t, f.2 = MvStr t → not_sigil_end t) → sigil_safe (print_field f).
Proof.
  intros [Hk Hv] Hs. destruct (print_val_non_space _ Hv) as [Hn Hne]. split.
  - unfold print_field. apply Forall_app. split; [by apply ident_non_space|]. by constructor.
  - apply field_end; [done|]. by apply print_val_end.
Qed.

(** A record as words. *)
Definition record_words (r : mc_record) : list text :=
  (mr_cat r ++ codes "/" ++ mr_event r) :: (print_field <$> mr_fields r).

Lemma print_record_words r : print_record r = codes "mc1 " ++ join (codes " ") (record_words r).
Proof.
  unfold print_record, record_words. rewrite join_cons, <-!(assoc_L (++)). by destruct (mr_fields r).
Qed.

Lemma record_words_safe r : clean_record r → Forall sigil_safe (record_words r).
Proof.
  intros [Hc He Hf Hee Hw]. constructor.
  - split.
    + apply Forall_app. split; [by apply ident_non_space|]. constructor; [done|]. by apply ident_non_space.
    + intros q Hq. apply (Hee (drop (length (mr_cat r ++ codes "/")) q)). rewrite (assoc_L (++)) in Hq.
      apply app_eq_inv in Hq as [(x & Hx & Hm)|(x & -> & Hx)]; [|by rewrite drop_app_length].
      exfalso. destruct x as [|c x _] using rev_ind.
      * apply (Hee []). by rewrite Hm.
      * rewrite (assoc_L (++)) in Hx. apply app_inj_2 in Hx as [_ [= <-]]; [|done].
        destruct x as [|c1 [|c2 [|c3 x]]]; simpl in Hm; simplify_eq. by destruct x, (mr_event r).
  - apply Forall_fmap, Forall_forall. intros f Hfin. simpl. rewrite Forall_forall in Hf. apply field_safe; [by apply Hf|].
    intros t Ht. apply Hw. apply list_elem_of_bind. exists (MvStr t). split; [set_solver|]. rewrite <-Ht. by apply list_elem_of_fmap_2.
Qed.

Lemma rstrip_last t c : non_space c = true → rstrip (t ++ [c]) = t ++ [c].
Proof.
  intros Hc. unfold rstrip. rewrite reverse_snoc. rewrite drop_while_stop.
  - by rewrite reverse_cons, reverse_involutive.
  - intros d [= <-]. by apply non_space_false.
Qed.

Lemma rstrip_words p ws : ws ≠ [] → Forall (λ w, Forall (λ c, non_space c = true) w ∧ w ≠ []) ws →
  rstrip (p ++ join (codes " ") ws) = p ++ join (codes " ") ws.
Proof.
  intros Hne Hws. revert p. induction Hws as [|w ws [Hw Hwn] Hws IH]; intros p; [done|]. rewrite join_cons.
  destruct ws as [|w' ws].
  - rewrite app_nil_r. destruct w as [|c w _] using rev_ind; [done|]. apply Forall_app in Hw as [_ Hc].
    apply Forall_cons in Hc as [Hc _]. rewrite (assoc_L (++)). by apply rstrip_last.
  - rewrite !(assoc_L (++)). by apply IH.
Qed.

Lemma record_words_nonempty r : clean_record r →
  Forall (λ w, Forall (λ c, non_space c = true) w ∧ w ≠ []) (record_words r).
Proof.
  intros Hr. pose proof (record_words_safe r Hr) as Hs. destruct Hr as [[(c & t & Hc & _) _] _ Hf _ _].
  rewrite Forall_forall in Hs |- *. intros w Hw. split; [by apply Hs|].
  apply elem_of_cons in Hw as [->|Hw]; [by rewrite Hc|]. apply list_elem_of_fmap in Hw as (f & -> & Hfin).
  rewrite Forall_forall in Hf. destruct (Hf f Hfin) as [Hk _]. pose proof (print_field_nonempty f Hk) as Hl.
  intros Hnil. rewrite Hnil in Hl. simpl in Hl. lia.
Qed.

Lemma split_go_cons cur c t : split_go cur (c :: t) =
  if starts_with sigil (c :: t) then emit_rec cur ++ split_go (Some [c]) t else split_go ((λ r, r ++ [c]) <$> cur) t.
Proof. done. Qed.

(** A line with one record has that record. *)
Lemma split_print r : clean_record r → _split_mc1 (print_record r) = [print_record r].
Proof.
  intros Hr. rewrite print_record_words. unfold _split_mc1. set (T := join (codes " ") (record_words r)).
  change (codes "mc1 " ++ T) with (109 :: 99 :: 49 :: 32 :: T). rewrite split_go_cons.
  assert (starts_with sigil (109 :: 99 :: 49 :: 32 :: T) = true) as ->.
  { unfold starts_with. apply bool_decide_eq_true. done. }
  assert (no_sigil (99 :: 49 :: 32 :: T)) as Hns.
  { apply (sigil_word (codes "c1") (32 :: T)).
    - split; [by repeat constructor|]. intros p Hp. apply (f_equal length) in Hp. rewrite length_app in Hp. simpl in Hp. lia.
    - right. eexists. split; [done|]. by apply sigil_words, record_words_safe. }
  rewrite split_go_no_sigil by done. simpl app. unfold emit_rec.
  change (109 :: 99 :: 49 :: 32 :: T) with (codes "mc1 " ++ T). unfold T.
  rewrite rstrip_words; [done|done|by apply record_words_nonempty].
Qed.

Lemma no_newline_words ws : Forall sigil_safe ws → no_newline (join (codes " ") ws) = true.
Proof.
  intros Hws. apply forallb_forall. intros c Hc%list_elem_of_In.
  assert (Forall (λ c, c ≠ 10) (join (codes " ") ws)) as H.
  { apply join_Forall; [by repeat constructor|]. eapply Forall_impl; [done|]. intros w [Hw _].
    eapply Forall_impl; [done|]. intros d Hd ->. done. }
  rewrite Forall_forall in H. apply negb_true_iff, Z.eqb_neq. by apply H.
Qed.

Lemma record_print r : clean_record r → match_record (print_record r) = Some (mr_cat r, mr_event r, fields_text r).
Proof.
  intros Hr. pose proof (record_words_safe r Hr) as Hs. apply Forall_cons in Hs as [_ Hs].
  pose proof (no_newline_words _ Hs) as Hnl. destruct Hr as [Hc He Hf _ _].
  unfold match_record. assert (starts_with sigil (print_record r) = true) as ->.
  { unfold starts_with. by apply bool_decide_eq_true. }
  unfold print_record. change (drop 4 (codes "mc1 " ++ ?t)) with t.
  rewrite ident_match; [|done|by intros c [= <-]]. change (codes "/" ++ ?t) with (47 :: t). cbn iota.
  unfold fields_text. destruct (mr_fields r) as [|f fs]; cbn [fmap list_fmap] in *.
  - rewrite ident_match by done. done.
  - rewrite ident_match; [|done|by intros c [= <-]]. change (codes " " ++ ?t) with (32 :: t). cbn iota. by rewrite Hnl.
Qed.

(** With distinct keys, every field is found under its key. *)
Lemma fields_dict_lookup fs k v : NoDup fs.*1 → (k, v) ∈ fs → fields_dict fs !! k = Some (val_of v).
Proof.
  unfold fields_dict. generalize (∅ : mc1_dict) as d. revert k v. induction fs as [|[k' v'] fs IH]; intros k v d Hnd Hin.
  { by apply elem_of_nil in Hin. }
  apply NoDup_cons in Hnd as [Hk' Hnd]. cbn [foldl fst snd]. apply elem_of_cons in Hin as [[= -> ->]|Hin]; [|by apply IH].
  clear IH Hnd. assert (∀ d : mc1_dict, d !! k' = Some (val_of v') →
    foldl (λ d f, <[f.1 := val_of f.2]> d) d fs !! k' = Some (val_of v')) as Hkeep.
  { induction fs as [|[k2 v2] fs IH]; intros d' Hd'; [done|]. cbn [foldl fst snd]. apply IH; [set_solver|].
    rewrite lookup_insert_ne; [done|]. set_solver. }
  apply Hkeep. apply lookup_insert_eq.
Qed.

Lemma fields_dict_none fs k : k ∉ fs.*1 → fields_dict fs !! k = None.
Proof.
  unfold fields_dict. intros Hk. assert (∀ d : mc1_dict, d !! k = None → foldl (λ d f, <[f.1 := val_of f.2]> d) d fs !! k = None) as H.
  { induction fs as [|[k2 v2] fs IH]; intros d Hd; [done|]. cbn [foldl fst snd]. apply IH; [set_solver|].
    rewrite lookup_insert_ne; [done|]. set_solver. }
  by apply H.
Qed.

Lemma array_ints w zs : Forall is_u64 zs → mapM py_int0 (hex_val_text w <$> zs) = Some zs.
Proof.
  induction 1 as [|z zs Hz _ IH]; [done|]. rewrite fmap_cons. simpl. rewrite py_int0_hex by done. simpl. by rewrite IH.
Qed.


(** ** Deciding that a record is clean *)

Definition identb (k : text) : bool := match k with c :: _ => is_lower c | [] => false end && forallb is_key k.

Definition wordb (t : text) : bool :=
  forallb non_space t && match t with c :: _ => negb (c =? 34) && negb (c =? 91) | [] => false end.

Definition sigil_endb (w : text) : bool := bool_decide (drop (length w - 3) w = codes "mc1").

Definition u64b (z : Z) : bool := (0 <=? z) && (z <? 2 ^ 64).

Definition clean_valb (v : mc_val) : bool :=
  match v with
  | MvDec z => (- 10 ^ 20 <? z) && (z <? 10 ^ 20)
  | MvHex _ z => u64b z
  | MvStr t => wordb t && negb (sigil_endb t)
  | MvArr _ zs => forallb u64b zs
  end.

Definition clean_recordb (r : mc_record) : bool :=
  identb (mr_cat r) && identb (mr_event r) && negb (sigil_endb (mr_event r)) &&
  forallb (λ f, identb f.1 && clean_valb f.2) (mr_fields r).

Lemma forallb_Forall {A} (p : A → bool) l : forallb p l = true → Forall (λ x, p x = true) l.
Proof. intros H. apply Forall_forall. intros x Hx. rewrite forallb_forall in H. by apply H, list_elem_of_In. Qed.

Lemma identb_ok k : identb k = true → ident k.
Proof.
  intros [H1 H2]%andb_true_iff. split; [|by apply forallb_Forall]. destruct k as [|c t]; [done|]. by exists c, t.
Qed.

Lemma sigil_endb_ok w : sigil_endb w = false → not_sigil_end w.
Proof.
  intros H%bool_decide_eq_false p ->. apply H. rewrite length_app. change (length (codes "mc1")) with 3%nat.
  rewrite Nat.add_sub. by rewrite drop_app_length.
Qed.

Lemma u64b_ok z : u64b z = true → is_u64 z.
Proof. unfold u64b, is_u64. rewrite andb_true_iff, Z.leb_le, Z.ltb_lt. done. Qed.

Lemma clean_valb_ok v : clean_valb v = true → clean_val v.
Proof.
  destruct v as [z|w z|t|w zs]; cbn [clean_valb clean_val]; [|by apply u64b_ok| |].
  - rewrite andb_true_iff, !Z.ltb_lt. done.
  - intros [[H1 H2]%andb_true_iff _]%andb_true_iff. split; [by apply forallb_Forall|].
    destruct t as [|c t]; [done|]. exists c, t. rewrite andb_true_iff, !negb_true_iff, !Z.eqb_neq in H2. done.
  - intros H%forallb_Forall. eapply Forall_impl; [done|]. intros z. apply u64b_ok.
Qed.

Lemma clean_recordb_ok r : clean_recordb r = true → clean_record r.
Proof.
  unfold clean_recordb. rewrite !andb_true_iff, negb_true_iff. intros [[[H1 H2] H3] H4%forallb_Forall].
  assert (∀ f, f ∈ mr_fields r → identb f.1 = true ∧ clean_valb f.2 = true) as Hf.
  { intros f Hin. rewrite Forall_forall in H4. by apply andb_true_iff, H4. }
  split; [by apply identb_ok..| |by apply sigil_endb_ok|].
  - apply Forall_forall. intros f Hin. destruct (Hf f Hin). split; [by apply identb_ok|by apply clean_valb_ok].
  - intros t Ht. apply list_elem_of_bind in Ht as (v & Ht & Hv). destruct v as [| |t'|]; try by apply elem_of_nil in Ht.
    apply list_elem_of_singleton in Ht as ->. apply list_elem_of_fmap in Hv as (f & Hv & Hin). apply sigil_endb_ok.
    destruct (Hf f Hin) as [_ Hc]. rewrite <-Hv in Hc. cbn [clean_valb] in Hc.
    apply andb_true_iff in Hc as [_ Hc]. by apply negb_true_iff.
Qed.

Definition example_record : mc_record :=
  McRecord (codes "body") (codes "alloc_row")
    [(codes "id", MvDec 116); (codes "off", MvHex 3 16); (codes "via", MvStr (codes "virtmem"));
     (codes "dw", MvArr 8 [1; 0; 0xc86f; 0xffffffff])].

