(* ===== verification/FtraceParse.v ===== *)
(** * From the driver's trace records to the events of the tools: parse_ftrace of strace_diff.py

    [parse_ftrace] reads the lines of a capture: [FTRACE_LINE_RE] takes the envelope of ftrace
    off a line, the records of the payload are taken apart (TraceText), and each is turned into
    events. Three families of records are collected first: an rm/alloc or uvm/ioctl record and
    the body rows with its id, flushed at the end, and the pb/bytes chunks of a sequence number,
    flushed when the last has come. Python's exceptions are values: a KeyError or a ValueError
    skips the record and keeps what was stored before it, the others end the run.

    The conversion of a time stamp's text to
    nanoseconds, [ts_ns_of], and the decoding of a quoted value, [unescape], are parameters. *)

From stdpp Require Import base numbers list gmap strings sorting.
From S2P Require Import Prelude TraceText.
#[local] Open Scope Z_scope.

(** ** Events *)

(** A value in the info tuple of an event. *)
Inductive pyobj :=
| OInt (z : Z)
| OStr (t : text)
| OStrs (ts : list text)
| OInts (zs : list Z)
| OBody (layout : text) (fields : list (text * Z))
| ONone.

Record event := Event {
  ev_line : Z;
  ev_pid : Z;
  ev_kind : text;
  ev_info : list pyobj;
  ev_ts : Z }.

Definition obj_of (v : pyval) : pyobj :=
  match v with
  | PStr t => OStr t
  | PList ts => OStrs ts
  end.

(** ** The state and the exceptions *)

Inductive exc := KeyError | ValueError | TypeError | IndexError.

Record alloc_acc := AllocAcc {
  aa_line : Z; aa_pid : Z; aa_ts : Z;
  aa_cls : Z; aa_root : Z; aa_parent : Z; aa_new : Z;
  aa_dwords : list Z }.

Record uvm_acc := UvmAcc {
  ua_line : Z; ua_pid : Z; ua_ts : Z;
  ua_cmd : Z;
  ua_dwords : list Z }.

Record pb_acc := PbAcc {
  pa_line : Z; pa_pid : Z; pa_ts : Z;
  pa_chid : Z; pa_idx : Z; pa_nchunks : Z;
  pa_chunks : gmap Z pyval }.

(** The dictionaries by id keep the order of insertion, which the flush follows. *)
Record ft_state := PState {
  p_events : list event;
  p_alloc : list (Z * alloc_acc);
  p_uvm : list (Z * uvm_acc);
  p_pb : gmap Z pb_acc }.

Definition pstate0 : ft_state := PState [] [] [] ∅.

Fixpoint dict_get {A} (k : Z) (d : list (Z * A)) : option A :=
  match d with
  | [] => None
  | (k', v) :: d => if k' =? k then Some v else dict_get k d
  end.

(** [d[k] = v] *)
Fixpoint dict_set {A} (k : Z) (v : A) (d : list (Z * A)) : list (Z * A) :=
  match d with
  | [] => [(k, v)]
  | (k', v') :: d => if k' =? k then (k, v) :: d else (k', v') :: dict_set k v d
  end.

(** Code that reads and writes the state and may raise. *)
Definition py (A : Type) : Type := ft_state → (exc + A) * ft_state.

#[global] Instance py_ret : MRet py := λ A a st, (inr a, st).
#[global] Instance py_bind : MBind py := λ A B k m st,
  match m st with
  | (inl e, st) => (inl e, st)
  | (inr a, st) => k a st
  end.

Definition raise {A} (e : exc) : py A := λ st, (inl e, st).
Definition py_gets {A} (f : ft_state → A) : py A := λ st, (inr (f st), st).
Definition py_modify (f : ft_state → ft_state) : py unit := λ st, (inr tt, f st).

(** [events.append(Event(...))] *)
Definition append_event (e : event) : py unit :=
  py_modify (λ st, PState (p_events st ++ [e]) (p_alloc st) (p_uvm st) (p_pb st)).

Definition set_alloc (id : Z) (a : alloc_acc) : py unit :=
  py_modify (λ st, PState (p_events st) (dict_set id a (p_alloc st)) (p_uvm st) (p_pb st)).
Definition set_uvm (id : Z) (u : uvm_acc) : py unit :=
  py_modify (λ st, PState (p_events st) (p_alloc st) (dict_set id u (p_uvm st)) (p_pb st)).
Definition set_pb (f : gmap Z pb_acc → gmap Z pb_acc) : py unit :=
  py_modify (λ st, PState (p_events st) (p_alloc st) (p_uvm st) (f (p_pb st))).

(** [d[k]] *)
Definition get_raw (d : mc1_dict) (k : text) : py pyval :=
  match d !! k with
  | Some v => mret v
  | None => raise KeyError
  end.

(** [_mc1_int(v)]: a list is not a string to convert. *)
Definition _mc1_int (v : pyval) : py Z :=
  match v with
  | PStr t => match py_int0 t with Some z => mret z | None => raise ValueError end
  | PList _ => raise TypeError
  end.

Definition get_int (d : mc1_dict) (k : text) : py Z := v ← get_raw d k; _mc1_int v.

Definition has_key (d : mc1_dict) (k : text) : bool := bool_decide (is_Some (d !! k)).

(** ** Names *)

Definition py_digits (z : Z) : text := digit_char <$> digits 16 (S (Z.to_nat (Z.log2 z))) z.

(** [f"{z:x}"] with a minimal width *)
Definition py_hex (width : nat) (z : Z) : text :=
  if z <? 0 then 45 :: pad_zeros (width - 1) (py_digits (- z)) else pad_zeros width (py_digits z).

Definition RM_ESCAPES : list (Z * string) :=
  [(0x27, "NV_ESC_RM_ALLOC_MEMORY"); (0x28, "NV_ESC_RM_ALLOC_OBJECT"); (0x29, "NV_ESC_RM_FREE");
   (0x2A, "NV_ESC_RM_CONTROL"); (0x2B, "NV_ESC_RM_ALLOC"); (0x34, "NV_ESC_RM_DUP_OBJECT");
   (0x35, "NV_ESC_RM_SHARE"); (0x39, "NV_ESC_RM_I2C_ACCESS"); (0x41, "NV_ESC_RM_IDLE_CHANNELS");
   (0x4A, "NV_ESC_RM_VID_HEAP_CONTROL"); (0x4D, "NV_ESC_RM_ACCESS_REGISTRY");
   (0x4E, "NV_ESC_RM_MAP_MEMORY"); (0x4F, "NV_ESC_RM_UNMAP_MEMORY"); (0x52, "NV_ESC_RM_GET_EVENT_DATA");
   (0x54, "NV_ESC_RM_ALLOC_CONTEXT_DMA2"); (0x56, "NV_ESC_RM_ADD_VBLANK_CALLBACK");
   (0x57, "NV_ESC_RM_MAP_MEMORY_DMA"); (0x58, "NV_ESC_RM_UNMAP_MEMORY_DMA");
   (0x59, "NV_ESC_RM_BIND_CONTEXT_DMA"); (0x5C, "NV_ESC_RM_EXPORT_OBJECT_TO_FD");
   (0x5D, "NV_ESC_RM_IMPORT_OBJECT_FROM_FD"); (0x5E, "NV_ESC_RM_UPDATE_DEVICE_MAPPING_INFO");
   (0x5F, "NV_ESC_RM_LOCKLESS_DIAGNOSTIC"); (0xC8, "NV_ESC_CARD_INFO"); (0xC9, "NV_ESC_REGISTER_FD");
   (0xCE, "NV_ESC_ALLOC_OS_EVENT"); (0xCF, "NV_ESC_FREE_OS_EVENT"); (0xD1, "NV_ESC_STATUS_CODE");
   (0xD2, "NV_ESC_CHECK_VERSION_STR"); (0xD3, "NV_ESC_IOCTL_XFER_CMD"); (0xD4, "NV_ESC_ATTACH_GPUS_TO_FD");
   (0xD5, "NV_ESC_QUERY_DEVICE_INTR"); (0xD6, "NV_ESC_SYS_PARAMS"); (0xD9, "NV_ESC_EXPORT_TO_DMABUF_FD");
   (0xDA, "NV_ESC_WAIT_OPEN_COMPLETE")].

Definition UVM_CMDS : list (Z * string) :=
  [(1, "UVM_RESERVE_VA"); (2, "UVM_RELEASE_VA"); (3, "UVM_REGION_COMMIT"); (4, "UVM_REGION_DECOMMIT");
   (5, "UVM_REGION_SET_STREAM"); (6, "UVM_SET_STREAM_RUNNING"); (7, "UVM_SET_STREAM_STOPPED");
   (8, "UVM_MIGRATE_LEGACY"); (23, "UVM_CREATE_RANGE_GROUP"); (24, "UVM_DESTROY_RANGE_GROUP");
   (25, "UVM_REGISTER_GPU_VASPACE"); (26, "UVM_UNREGISTER_GPU_VASPACE"); (27, "UVM_REGISTER_CHANNEL");
   (28, "UVM_UNREGISTER_CHANNEL"); (29, "UVM_ENABLE_PEER_ACCESS"); (30, "UVM_DISABLE_PEER_ACCESS");
   (31, "UVM_SET_RANGE_GROUP"); (32, "UVM_MAP_EXTERNAL_ALLOCATION_V1"); (33, "UVM_MAP_EXTERNAL_ALLOCATION");
   (34, "UVM_FREE"); (35, "UVM_MEM_MAP"); (37, "UVM_REGISTER_GPU"); (38, "UVM_UNREGISTER_GPU");
   (39, "UVM_PAGEABLE_MEM_ACCESS"); (40, "UVM_SET_PREFERRED_LOCATION"); (41, "UVM_UNSET_PREFERRED_LOCATION");
   (42, "UVM_ENABLE_READ_DUPLICATION"); (43, "UVM_DISABLE_READ_DUPLICATION"); (44, "UVM_SET_ACCESSED_BY");
   (45, "UVM_UNSET_ACCESSED_BY"); (49, "UVM_MIGRATE"); (50, "UVM_MIGRATE_RANGE_GROUP");
   (51, "UVM_TOOLS_READ_PROCESS_MEMORY"); (52, "UVM_TOOLS_WRITE_PROCESS_MEMORY");
   (53, "UVM_MAP_DYNAMIC_PARALLELISM_REGION"); (54, "UVM_UNMAP_DYNAMIC_PARALLELISM_REGION");
   (55, "UVM_ALLOC_SEMAPHORE_POOL"); (56, "UVM_PAGEABLE_MEM_ACCESS_ON_GPU");
   (57, "UVM_DISABLE_SYSTEM_WIDE_ATOMICS"); (58, "UVM_ENABLE_SYSTEM_WIDE_ATOMICS");
   (60, "UVM_TOOLS_INIT_EVENT_TRACKER"); (61, "UVM_TOOLS_SET_NOTIFICATION_THRESHOLD");
   (62, "UVM_TOOLS_EVENT_QUEUE_ENABLE_EVENTS"); (63, "UVM_TOOLS_EVENT_QUEUE_DISABLE_EVENTS");
   (65, "UVM_MAP_EXTERNAL_SPARSE"); (66, "UVM_UNMAP_EXTERNAL"); (67, "UVM_TOOLS_FLUSH_EVENTS");
   (68, "UVM_ALLOC_DEVICE_P2P"); (69, "UVM_CLEAR_ALL_PAGES_ACCESSED_BY_SM"); (70, "UVM_POPULATE_PAGEABLE");
   (71, "UVM_VALIDATE_VA_RANGE"); (72, "UVM_CREATE_EXTERNAL_RANGE_V1"); (73, "UVM_CREATE_EXTERNAL_RANGE");
   (74, "UVM_MM_INITIALIZE_V1"); (75, "UVM_MM_INITIALIZE"); (76, "UVM_IS_8_SUPPORTED")].

Definition UVM_INITIALIZE : Z := 0x30000001.

Definition escape_name (esc : Z) : text :=
  match dict_get esc RM_ESCAPES with
  | Some n => codes n
  | None => codes "ESC_0x" ++ py_hex 2 esc
  end.

Definition uvm_name (cmd : Z) : text :=
  if cmd =? UVM_INITIALIZE then codes "UVM_INITIALIZE"
  else match dict_get cmd UVM_CMDS with
       | Some n => codes n
       | None => codes "UVM_0x" ++ py_hex 0 cmd
       end.

(** ** The bodies *)

(** [if len(dwords) > i: body[k] = dwords[i]] *)
Definition dw1 (dws : list Z) (i : nat) (k : string) : list (text * Z) :=
  match dws !! i with
  | Some v => [(codes k, v)]
  | None => []
  end.

(** [if len(dwords) > i + 1: body[k] = (dwords[i + 1] << 32) | dwords[i]] *)
Definition dw2 (dws : list Z) (i : nat) (k : string) : list (text * Z) :=
  match dws !! i, dws !! S i with
  | Some lo, Some hi => [(codes k, Z.lor (Z.shiftl hi 32) lo)]
  | _, _ => []
  end.

Definition decode_alloc_body (cls : Z) (dws : list Z) : pyobj :=
  match dws with
  | [] => OBody [] []
  | _ =>
      if cls =? 0x0070 then
        OBody (codes "os_desc")
          (dw1 dws 0 "type" ++ dw1 dws 1 "flags" ++ dw1 dws 2 "attr" ++ dw1 dws 3 "attr2" ++ dw2 dws 6 "limit")
      else if (cls =? 0xc36f) || (cls =? 0xc56f) || (cls =? 0xc86f) then
        OBody (codes "channel")
          (dw2 dws 2 "gpFifoOffset" ++ dw1 dws 4 "gpFifoEntries" ++ dw1 dws 5 "flags" ++
           dw1 dws 6 "hContextShare" ++ dw1 dws 7 "hVASpace" ++ dw1 dws 8 "hHandleVASpace" ++
           dw1 dws 9 "hUserdMemory" ++ dw2 dws 18 "userdOffset" ++ dw1 dws 34 "engineType" ++ dw1 dws 35 "cid")
      else
        OBody (codes "main")
          (dw1 dws 0 "owner" ++ dw1 dws 1 "type" ++ dw1 dws 2 "flags" ++ dw1 dws 6 "attr" ++
           dw1 dws 7 "attr2" ++ dw1 dws 8 "format" ++ dw2 dws 16 "size" ++ dw1 dws 28 "internalflags")
  end.

Definition zero_extend (n : Z) (dws : list Z) : list Z :=
  dws ++ replicate (Z.to_nat (n - Z.of_nat (length dws))) 0.

(** [dwords[i] = v]; a negative index counts from the end, [None] is an IndexError. *)
Definition set_item (dws : list Z) (i v : Z) : option (list Z) :=
  let n := Z.of_nat (length dws) in
  let j := if i <? 0 then i + n else i in
  if (0 <=? j) && (j <? n) then Some (<[Z.to_nat j := v]> dws) else None.

Fixpoint set_items (dws : list Z) (i : Z) (vals : list Z) : option (list Z) :=
  match vals with
  | [] => Some dws
  | v :: vals =>
      match set_item dws i v with
      | Some dws => set_items dws (i + 1) vals
      | None => None
      end
  end.

Definition place_dwords (dws : list Z) (idx : Z) (arr : list text) : py (list Z) :=
  match mapM py_int0 arr with
  | None => raise ValueError
  | Some vals =>
      match set_items (zero_extend (idx + Z.of_nat (length vals)) dws) idx vals with
      | Some dws => mret dws
      | None => raise IndexError
      end
  end.

Definition flush_alloc (a : alloc_acc) : list event :=
  [Event (aa_line a) (aa_pid a) (codes "alloc")
     [OInt (aa_new a); OInt (aa_cls a); decode_alloc_body (aa_cls a) (aa_dwords a);
      OInt (aa_root a); OInt (aa_parent a)] (aa_ts a)].

Definition flush_uvm (u : uvm_acc) : list event :=
  let name := uvm_name (ua_cmd u) in
  [Event (ua_line u) (ua_pid u) (codes "uvm_ioctl")
     [OInt (ua_cmd u); OStr name; OInts (ua_dwords u)] (ua_ts u);
   Event (ua_line u) (ua_pid u) (codes "ioctl") [OStr (codes "nvidia-uvm"); OStr name] (ua_ts u)].

(** ** Records *)

(** How the table coerces a field: to an int or not at all. *)
Inductive coerce := _I | _S.

Definition ints (ks : list string) : list (string * coerce) := (λ k, (k, _I)) <$> ks.

Definition MC1_SIMPLE : list (string * string * (string * list (string * coerce))) :=
  [("rm", "control", ("control", ints ["cmd"; "hclient"; "hobject"; "params_size"]));
   ("rm", "map_memory", ("map_bar1", ints ["hmemory"; "length"; "flags"; "offset"; "fd"]));
   ("mmu", "pte_src_decision", ("pte_src_decision",
      ints ["carrier_h"; "carrier_class"; "carrier_aspace"; "src_h"; "src_class"; "src_aspace";
            "src_pte0"; "chosen_pte0"]));
   ("mmu", "intermap_call", ("intermap_call",
      ints ["hclient"; "hcarrier"; "carrier_class"; "hsrc"; "src_class"; "flags"; "dma_offset"; "length"]));
   ("mmu", "virtmem_backing", ("virtmem_backing",
      ints ["hmemory"; "class"; "va_size"; "hvaspace"; "aspace"; "has_heap"] ++ [("via", _S)]));
   ("mmu", "gmmu_pte_phys", ("gmmu_pte_phys",
      ints ["va_lo"; "va_hi"; "pte0_phys"; "pte_count"; "page_size"; "aperture"]));
   ("mmu", "bar1_reflect_phys", ("bar1_reflect_phys", ints ["at_gpu"; "fb_aperture_off"; "bar1_phys"; "size"]));
   ("fifo", "userd_resolve", ("userd_resolve",
      ints ["hclient"; "huserd"; "userd_offset"; "userd_addr"; "address_space"; "userd_size"]));
   ("fifo", "userd_rpc", ("userd_rpc", ints ["hchannel"; "base"; "size"; "address_space"; "cache_attrib"]));
   ("fifo", "userd_bind", ("userd_bind", ("retained", _S) :: ints ["resource_count"]));
   ("pb", "submit", ("pb", ints ["seq"; "chid"; "idx"; "entry0"; "entry1"; "pb_va"; "pb_len"]));
   ("pb", "bytes_miss", ("pb_bytes_miss", ints ["seq"; "chid"; "idx"; "pb_va"; "pb_len"]))].

Definition is_key_of (key : text * text) (cat event : string) : bool :=
  bool_decide (key = (codes cat, codes event)).

Section record.
Context (line_no pid ts_ns : Z).

Definition emit (kind : string) (info : list pyobj) : py unit :=
  append_event (Event line_no pid (codes kind) info ts_ns).

Definition int_obj (d : mc1_dict) (k : string) : py pyobj := z ← get_int d (codes k); mret (OInt z).
Definition raw_obj (d : mc1_dict) (k : string) : py pyobj := v ← get_raw d (codes k); mret (obj_of v).

Definition coerced (d : mc1_dict) (f : string * coerce) : py pyobj :=
  match f.2 with
  | _I => int_obj d f.1
  | _S => raw_obj d f.1
  end.

(** [events.append(Event(line_no, pid, kind, (..., ...), ts_ns))] *)
Definition emit_tuple (d : mc1_dict) (kind : string) (fs : list (string * coerce)) : py unit :=
  info ← mapM (coerced d) fs; emit kind info.

Definition on_alloc (d : mc1_dict) : py unit :=
  if has_key d (codes "new") && has_key d (codes "id") then
    cls ← get_int d (codes "hclass");
    root ← get_int d (codes "root");
    parent ← get_int d (codes "parent");
    new ← get_int d (codes "new");
    id ← get_int d (codes "id");
    set_alloc id (AllocAcc line_no pid ts_ns cls root parent new [])
  else mret tt.

Definition on_alloc_row (d : mc1_dict) : py unit :=
  id ← get_int d (codes "id");
  tbl ← py_gets p_alloc;
  match dict_get id tbl, d !! codes "dw" with
  | Some a, Some (PList dw) =>
      off ← get_int d (codes "off");
      dws ← place_dwords (aa_dwords a) (off / 4) dw;
      set_alloc id (AllocAcc (aa_line a) (aa_pid a) (aa_ts a) (aa_cls a) (aa_root a) (aa_parent a) (aa_new a) dws)
  | _, _ => mret tt
  end.

Definition on_uvm_ioctl (d : mc1_dict) : py unit :=
  if has_key d (codes "id") && has_key d (codes "cmd") then
    cmd ← get_int d (codes "cmd");
    id ← get_int d (codes "id");
    set_uvm id (UvmAcc line_no pid ts_ns cmd [])
  else mret tt.

Definition on_uvm_row (d : mc1_dict) : py unit :=
  id ← get_int d (codes "id");
  tbl ← py_gets p_uvm;
  match dict_get id tbl, d !! codes "dw" with
  | Some u, Some (PList dw) =>
      off ← get_int d (codes "off");
      dws ← place_dwords (ua_dwords u) (off / 4) dw;
      set_uvm id (UvmAcc (ua_line u) (ua_pid u) (ua_ts u) (ua_cmd u) dws)
  | _, _ => mret tt
  end.

Definition sorted_keys (m : gmap Z pyval) : list Z := merge_sort Z.le (map_to_list m).*1.

(** [acc["chunks"][k] for k in sorted(acc["chunks"])], [None] where one is not a str *)
Definition chunk_texts (m : gmap Z pyval) : option (list text) :=
  mapM (λ k, match m !! k with Some (PStr t) => Some t | _ => None end) (sorted_keys m).

Definition put_chunk (off : Z) (v : pyval) (a : pb_acc) : pb_acc :=
  PbAcc (pa_line a) (pa_pid a) (pa_ts a) (pa_chid a) (pa_idx a) (pa_nchunks a) (<[off := v]> (pa_chunks a)).

(** The accumulator of the sequence number, made from this record when there is none. *)
Definition find_acc (d : mc1_dict) (seq : Z) : py pb_acc :=
  tbl ← py_gets p_pb;
  match tbl !! seq with
  | Some acc => mret acc
  | None =>
      chid ← get_int d (codes "chid");
      idx ← get_int d (codes "idx");
      nchunks ← get_int d (codes "nchunks");
      let acc := PbAcc line_no pid ts_ns chid idx nchunks ∅ in
      set_pb (<[seq := acc]>);; mret acc
  end.

(** The chunk into the accumulator, and the event when it is the last. *)
Definition store_chunk (d : mc1_dict) (seq off : Z) (acc : pb_acc) : py unit :=
  hex ← get_raw d (codes "hex");
  let acc := put_chunk off hex acc in
  set_pb (<[seq := acc]>);;
  if Z.of_nat (size (pa_chunks acc)) =? pa_nchunks acc then
    match chunk_texts (pa_chunks acc) with
    | None => raise TypeError
    | Some ts =>
        let full := mjoin ts in
        append_event (Event (pa_line acc) (pa_pid acc) (codes "pb_bytes")
          [OInt seq; OInt (pa_chid acc); OInt (pa_idx acc); OInt (Z.of_nat (length full) / 2); OStr full] (pa_ts acc));;
        set_pb (delete seq)
    end
  else mret tt.

Definition on_pb_bytes (d : mc1_dict) : py unit :=
  seq ← get_int d (codes "seq");
  off ← get_int d (codes "off");
  acc ← find_acc d seq;
  store_chunk d seq off acc.

Definition on_rm_ioctl (d : mc1_dict) : py unit :=
  esc ← get_int d (codes "esc");
  emit "ioctl" [OStr (codes "nvidiactl"); OStr (escape_name esc)].

Definition on_free (d : mc1_dict) : py unit :=
  if negb (has_key d (codes "result")) && has_key d (codes "old") then emit_tuple d "free" (ints ["old"])
  else mret tt.

Definition on_map_external (d : mc1_dict) : py unit :=
  if has_key d (codes "base") then emit_tuple d "map_uvm" (ints ["hmemory"; "base"; "length"; "offset"])
  else mret tt.

(** [st = d.get("state")] compared with a str *)
Definition state_is (d : mc1_dict) (s : string) : bool :=
  match d !! codes "state" with
  | Some (PStr t) => bool_decide (t = codes s)
  | _ => false
  end.

Definition on_sysmem_track (d : mc1_dict) : py unit :=
  if state_is d "add" then
    emit_tuple d "sysmem_track_add"
      (ints ["slot"; "user_va_start"; "user_va_end"; "num_pages"] ++ [("kva", _S)])
  else if state_is d "remove" then
    emit_tuple d "sysmem_track_remove" (("kva", _S) :: ints ["num_pages"])
  else mret tt.

Definition on_bar1_track (d : mc1_dict) : py unit :=
  if state_is d "add" then
    emit_tuple d "bar1_track_add" (ints ["slot"; "phys"; "size"] ++ [("kva", _S)])
  else if state_is d "remove" then
    emit_tuple d "bar1_track_remove" (ints ["slot"] ++ [("kva", _S)])
  else mret tt.

Definition on_simple (key : text * text) (d : mc1_dict) : py unit :=
  match list_find (λ e, is_key_of key e.1.1 e.1.2) MC1_SIMPLE with
  | None => mret tt
  | Some (_, (_, (kind, fs))) =>
      emit_tuple d kind fs;;
      if String.eqb kind "pb" then emit "ioctl" [OStr (codes "kernel"); OStr (codes "pb/submit")] else mret tt
  end.

Definition dispatch (key : text * text) (d : mc1_dict) : py unit :=
  if is_key_of key "rm" "alloc" then on_alloc d
  else if is_key_of key "body" "alloc_hdr" then mret tt
  else if is_key_of key "body" "alloc_row" then on_alloc_row d
  else if is_key_of key "uvm" "ioctl" then on_uvm_ioctl d
  else if is_key_of key "body" "uvm_row" then on_uvm_row d
  else if is_key_of key "pb" "bytes" then on_pb_bytes d
  else if is_key_of key "rm" "ioctl" then on_rm_ioctl d
  else if is_key_of key "rm" "free" then on_free d
  else if is_key_of key "uvm" "map_external" then on_map_external d
  else if is_key_of key "dbell" "sysmem_track" then on_sysmem_track d
  else if is_key_of key "dbell" "bar1_track" then on_bar1_track d
  else on_simple key d.

(** [try: ... except (KeyError, ValueError): continue] *)
Definition catch (m : py unit) : py unit := λ st,
  match m st with
  | (inl KeyError, st') | (inl ValueError, st') => (inr tt, st')
  | r => r
  end.

Definition parse_record (unescape : text → option text) (rec : text) : py unit :=
  catch (
    match match_record rec with
    | None => mret tt
    | Some (cat, event, fields) =>
        match _mc1_fields unescape fields with
        | None => raise ValueError
        | Some d => dispatch (cat, event) d
        end
    end).
End record.

(** ** Lines *)

(** One or more characters of a class. *)
Definition span1 (p : Z → bool) (t : text) : option (text * text) :=
  match take_while p t with
  | [] => None
  | w => Some (w, drop_while p t)
  end.

(** [\S+-\d+] as a whole word: its digits. *)
Definition word_pid (w : text) : option text :=
  let ds := reverse (take_while is_digit (reverse w)) in
  match ds, drop_while is_digit (reverse w) with
  | _ :: _, 45 :: _ :: _ => Some ds
  | _, _ => None
  end.

Definition strip_prefix (p t : text) : option text := if starts_with p t then Some (drop (length p) t) else None.

(** FTRACE_LINE_RE on a line with at most one newline, at its end: the texts of pid, ts and payload. *)
Definition match_line (raw : text) : option (text * text * text) :=
  '(w, r) ← span1 non_space (lstrip raw);
  pid ← word_pid w;
  '(_, r) ← span1 is_space r;
  r ← strip_prefix (codes "[") r;
  '(_, r) ← span1 is_digit r;
  r ← strip_prefix (codes "]") r;
  '(_, r) ← span1 is_space r;
  '(_, r) ← span1 non_space r;
  '(_, r) ← span1 is_space r;
  '(t1, r) ← span1 is_digit r;
  r ← strip_prefix (codes ".") r;
  '(t2, r) ← span1 is_digit r;
  r ← strip_prefix (codes ":") r;
  '(_, r) ← span1 is_space r;
  r ← strip_prefix (codes "nv_trace_printf:") r;
  Some (pid, t1 ++ codes "." ++ t2, take_while (λ c, negb (c =? 10)) (lstrip r)).

Section parse.
Context (unescape : text → option text) (ts_ns_of : text → Z).

Fixpoint for_records (line_no pid ts : Z) (recs : list text) : py unit :=
  match recs with
  | [] => mret tt
  | rec :: recs => parse_record line_no pid ts unescape rec;; for_records line_no pid ts recs
  end.

Definition parse_line (line_no : Z) (raw : text) : py unit :=
  if starts_with (codes "#") raw then mret tt
  else match match_line raw with
       | None => mret tt
       | Some (pid, ts, payload) =>
           match num 10 pid with
           | None => raise ValueError
           | Some pid => for_records line_no pid (ts_ns_of ts) (_split_mc1 payload)
           end
       end.

Fixpoint parse_lines (line_no : Z) (raws : list text) : py unit :=
  match raws with
  | [] => mret tt
  | raw :: raws => parse_line line_no raw;; parse_lines (line_no + 1) raws
  end.

Definition parse_ftrace (raws : list text) : exc + list event :=
  match parse_lines 1 raws pstate0 with
  | (inl e, _) => inl e
  | (inr _, st) =>
      inr (p_events st ++ ((p_alloc st).*2 ≫= flush_alloc) ++ ((p_uvm st).*2 ≫= flush_uvm))
  end.
End parse.

(** * Running code that may raise *)

(** What the try block lets through, and what ends the run. *)
Definition benign {A} (r : exc + A) : Prop :=
  match r with
  | inr _ | inl KeyError | inl ValueError => True
  | _ => False
  end.

(** [m] raises nothing that ends the run and changes the state within [R]. *)
Definition safe {A} (R : relation ft_state) (m : py A) : Prop :=
  ∀ st, benign (m st).1 ∧ R st (m st).2.

Section safe.
Context (R : relation ft_state) `{!PreOrder R}.

Lemma safe_ret {A} (a : A) : safe R (mret a).
Proof. intros st. split; [done|]. simpl. reflexivity. Qed.

Lemma safe_raise {A} e : benign (A:=A) (inl e) → safe R (raise (A:=A) e).
Proof. intros He st. split; [done|]. simpl. reflexivity. Qed.

Lemma safe_bind {A B} (m : py A) (k : A → py B) : safe R m → (∀ a, safe R (k a)) → safe R (m ≫= k).
Proof.
  intros Hm Hk st. destruct (Hm st) as [H1 H2]. unfold mbind, py_bind.
  destruct (m st) as [[e|a] st'] eqn:Hms; simpl in *; [done|]. destruct (Hk a st') as [H3 H4]. split; [done|].
  by etrans.
Qed.

Lemma safe_gets {A} (f : ft_state → A) : safe R (py_gets f).
Proof. intros st. split; [done|]. simpl. reflexivity. Qed.

Lemma safe_modify f : (∀ st, R st (f st)) → safe R (py_modify f).
Proof. intros Hf st. split; [done|]. apply Hf. Qed.

Lemma safe_mapM {A B} (f : A → py B) l : (∀ x, x ∈ l → safe R (f x)) → safe R (mapM f l).
Proof.
  induction l as [|x l IH]; intros Hf; simpl; [apply safe_ret|].
  apply safe_bind; [apply Hf; set_solver|]. intros y. apply safe_bind; [apply IH; set_solver|]. intros. apply safe_ret.
Qed.

Lemma safe_catch m : safe R m → safe R (catch m).
Proof. intros Hm st. destruct (Hm st) as [H1 H2]. unfold catch. by destruct (m st) as [[[]|[]] st']. Qed.

Lemma safe_if {A} (b : bool) (m1 m2 : py A) : safe R m1 → safe R m2 → safe R (if b then m1 else m2).
Proof. by destruct b. Qed.
End safe.

Lemma safe_mono {A} (R R' : relation ft_state) (m : py A) : (∀ st st', R st st' → R' st st') → safe R m → safe R' m.
Proof. intros HR Hm st. destruct (Hm st). split; [done|]. by apply HR. Qed.

(** Code that cannot end the run does return. *)
Lemma safe_catch_returns (R : relation ft_state) m st : safe R m → ∃ st', catch m st = (inr tt, st') ∧ R st st'.
Proof.
  intros Hm. destruct (Hm st) as [H1 H2]. unfold catch.
  destruct (m st) as [[[]|[]] st']; simpl in *; try done; eauto.
Qed.

(** A dictionary whose values are texts, an array under dw apart, and whose offset is no negative number. *)
Record typed (d : mc1_dict) : Prop := Typed {
  ty_str : ∀ k ts, d !! k = Some (PList ts) → k = codes "dw";
  ty_off : ∀ t z, d !! codes "off" = Some (PStr t) → py_int0 t = Some z → 0 ≤ z }.

Definition field_int (d : mc1_dict) (k : string) : option Z :=
  match d !! codes k with
  | Some (PStr t) => py_int0 t
  | _ => None
  end.

Lemma get_int_some d k z st : field_int d k = Some z → get_int d (codes k) st = (inr z, st).
Proof.
  unfold field_int, get_int, get_raw. destruct (d !! codes k) as [[t|]|] eqn:Hd; try done.
  intros Ht. unfold mbind, py_bind. simpl. by rewrite Ht.
Qed.

Lemma get_raw_some d k v st : d !! codes k = Some v → get_raw d (codes k) st = (inr v, st).
Proof. intros Hd. unfold get_raw. by rewrite Hd. Qed.

(** Reading a number never changes the state; without one it raises. *)
Lemma get_int_none d k st : typed d → codes k ≠ codes "dw" → field_int d k = None →
  ∃ e, get_int d (codes k) st = (inl e, st) ∧ benign (A:=Z) (inl e).
Proof.
  intros Hty Hk. unfold field_int, get_int, get_raw. destruct (d !! codes k) as [[t|ts]|] eqn:Hd.
  - intros Ht. exists ValueError. unfold mbind, py_bind. simpl. by rewrite Ht.
  - by apply (ty_str _ Hty) in Hd.
  - intros _. by exists KeyError.
Qed.

Section safe_get.
Context (R : relation ft_state) `{!PreOrder R}.

Lemma safe_get_int d k : typed d → codes k ≠ codes "dw" → safe R (get_int d (codes k)).
Proof.
  intros Hty Hk st. destruct (field_int d k) as [z|] eqn:Hz.
  - rewrite (get_int_some _ _ _ _ Hz). split; [done|]. simpl. reflexivity.
  - destruct (get_int_none d k st Hty Hk Hz) as (e & -> & He). split; [done|]. simpl. reflexivity.
Qed.

Lemma safe_get_raw d k : safe R (get_raw d k).
Proof. unfold get_raw. destruct (d !! k); [by apply safe_ret|by apply safe_raise]. Qed.

Lemma safe_coerced d f : typed d → codes f.1 ≠ codes "dw" → safe R (coerced d f).
Proof.
  intros Hty Hk. unfold coerced, int_obj, raw_obj. destruct f as [k []]; simpl in *;
    (apply safe_bind; [done| |intros; by apply safe_ret]); [by apply safe_get_int|by apply safe_get_raw].
Qed.
End safe_get.

Create HintDb py.
#[export] Hint Resolve safe_ret safe_bind safe_gets safe_get_int safe_get_raw safe_if : py.

(** * What a record may change *)

(** The kinds of events that stand for more than one record. *)
Definition plain (e : event) : Prop :=
  ev_kind e ≠ codes "alloc" ∧ ev_kind e ≠ codes "uvm_ioctl" ∧ ev_kind e ≠ codes "pb_bytes".

Definition extends (P : event → Prop) (st st' : ft_state) : Prop :=
  ∃ es, p_events st' = p_events st ++ es ∧ Forall P es.

#[global] Instance extends_preorder P : PreOrder (extends P).
Proof.
  split.
  - intros st. exists []. by rewrite app_nil_r.
  - intros s1 s2 s3 (e1 & H1 & F1) (e2 & H2 & F2). exists (e1 ++ e2).
    rewrite H2, H1, (assoc_L (++)). split; [done|]. by apply Forall_app.
Qed.

(** Nothing but events of one record. *)
Definition plain_change (st st' : ft_state) : Prop :=
  extends plain st st' ∧ p_alloc st' = p_alloc st ∧ p_uvm st' = p_uvm st ∧ p_pb st' = p_pb st.

#[global] Instance quiet_preorder : PreOrder plain_change.
Proof.
  split.
  - intros st. by split_and!.
  - intros s1 s2 s3 (E1 & A1 & U1 & P1) (E2 & A2 & U2 & P2). split_and!; [by etrans|congruence..].
Qed.

Section plain_change.
Context (n p t : Z).

Definition plain_kind (k : string) : bool :=
  negb (bool_decide (codes k = codes "alloc")) && negb (bool_decide (codes k = codes "uvm_ioctl")) &&
  negb (bool_decide (codes k = codes "pb_bytes")).

Lemma emit_quiet k info : plain_kind k = true → safe plain_change (emit n p t k info).
Proof.
  intros Hk. apply safe_modify. intros st. split_and!; [|done..]. exists [Event n p (codes k) info t]. split; [done|].
  apply Forall_singleton. unfold plain_kind in Hk. rewrite !andb_true_iff, !negb_true_iff, !bool_decide_eq_false in Hk.
  unfold plain. simpl. naive_solver.
Qed.

Definition no_dw (fs : list (string * coerce)) : bool :=
  forallb (λ f, negb (bool_decide (codes f.1 = codes "dw"))) fs.

Lemma emit_tuple_quiet d k fs : typed d → plain_kind k && no_dw fs = true → safe plain_change (emit_tuple n p t d k fs).
Proof.
  intros Hty [Hk Hf]%andb_true_iff. unfold emit_tuple. apply safe_bind; [apply _| |intros; by apply emit_quiet].
  apply safe_mapM; [apply _|]. intros f Hin. unfold no_dw in Hf. rewrite forallb_forall in Hf.
  apply safe_coerced; [apply _|done|]. specialize (Hf f (proj1 (list_elem_of_In _ _) Hin)).
  by apply negb_true_iff, bool_decide_eq_false in Hf.
Qed.
End plain_change.
#[export] Hint Resolve emit_quiet emit_tuple_quiet : py.

Section one_shot.
Context (n p t : Z) (d : mc1_dict) (Hty : typed d).

Lemma on_rm_ioctl_quiet : safe plain_change (on_rm_ioctl n p t d).
Proof using Hty. apply safe_bind; [apply _|by apply safe_get_int; [apply _|..]|]. intros. by apply emit_quiet. Qed.

Lemma on_free_quiet : safe plain_change (on_free n p t d).
Proof using Hty. apply safe_if; [by apply emit_tuple_quiet|apply safe_ret, _]. Qed.

Lemma on_map_external_quiet : safe plain_change (on_map_external n p t d).
Proof using Hty. apply safe_if; [by apply emit_tuple_quiet|apply safe_ret, _]. Qed.

Lemma on_sysmem_track_quiet : safe plain_change (on_sysmem_track n p t d).
Proof using Hty. repeat apply safe_if; [by apply emit_tuple_quiet..|apply safe_ret, _]. Qed.

Lemma on_bar1_track_quiet : safe plain_change (on_bar1_track n p t d).
Proof using Hty. repeat apply safe_if; [by apply emit_tuple_quiet..|apply safe_ret, _]. Qed.

Lemma on_simple_quiet key : safe plain_change (on_simple n p t key d).
Proof using Hty.
  unfold on_simple. destruct (list_find _ MC1_SIMPLE) as [[i [[c e] [k fs]]]|] eqn:Hf; [|apply safe_ret, _].
  apply list_find_Some in Hf as (Hi & _). apply safe_bind; [apply _| |intros _; apply safe_if; [by apply emit_quiet|apply safe_ret, _]].
  apply emit_tuple_quiet; [done|].
  assert (Forall (λ e, plain_kind e.2.1 && no_dw e.2.2 = true) MC1_SIMPLE) as Hall by (by repeat constructor).
  by apply (Forall_lookup_1 _ _ _ _ Hall) in Hi.
Qed.
End one_shot.

(** * Dictionaries in insertion order *)

Section dict.
Context {A : Type}.
Implicit Types (d : list (Z * A)).

Lemma dict_get_set k v d k' : dict_get k' (dict_set k v d) = if k =? k' then Some v else dict_get k' d.
Proof.
  induction d as [|[k2 v2] d IH]; simpl; [done|]. destruct (Z.eqb_spec k2 k) as [->|Hne]; simpl; [by destruct (k =? k')|].
  rewrite IH. destruct (Z.eqb_spec k2 k'), (Z.eqb_spec k k'); congruence.
Qed.

Lemma dict_set_keys k v d : ∀ k', k' ∈ (dict_set k v d).*1 ↔ k' = k ∨ k' ∈ d.*1.
Proof.
  induction d as [|[k2 v2] d IH]; intros k'; simpl; [set_solver|].
  destruct (Z.eqb_spec k2 k) as [->|Hne]; simpl; [set_solver|]. rewrite !elem_of_cons, IH. naive_solver.
Qed.

Lemma dict_set_NoDup k v d : NoDup d.*1 → NoDup (dict_set k v d).*1.
Proof.
  induction d as [|[k2 v2] d IH]; intros Hnd; simpl; [apply NoDup_singleton|].
  apply NoDup_cons in Hnd as [H1 H2]. destruct (Z.eqb_spec k2 k) as [->|Hne]; simpl; apply NoDup_cons; [done|].
  split; [|by apply IH]. rewrite dict_set_keys. naive_solver.
Qed.

Lemma dict_get_elem k v d : NoDup d.*1 → (k, v) ∈ d ↔ dict_get k d = Some v.
Proof.
  induction d as [|[k2 v2] d IH]; intros Hnd; simpl; [set_solver|]. apply NoDup_cons in Hnd as [H1 H2].
  rewrite elem_of_cons, (IH H2). destruct (Z.eqb_spec k2 k) as [->|Hne]; [|naive_solver].
  split; [|naive_solver]. intros [?|Hd]; [naive_solver|]. destruct H1. apply IH in Hd; [|done].
  by apply (list_elem_of_fmap_2 fst) in Hd.
Qed.
End dict.

(** * Rows *)

Lemma set_items_inserts vals : ∀ dws i, 0 ≤ i → (Z.to_nat i + length vals ≤ length dws)%nat →
  set_items dws i vals = Some (list_inserts (Z.to_nat i) vals dws).
Proof.
  induction vals as [|v vals IH]; intros dws i Hi Hlen; simpl in *; [done|]. unfold set_item.
  rewrite (proj2 (Z.ltb_ge i 0)), (proj2 (Z.leb_le 0 i)), (proj2 (Z.ltb_lt i _)) by lia. cbn [andb].
  rewrite IH by (rewrite ?length_insert; lia). f_equal. replace (Z.to_nat (i + 1)) with (S (Z.to_nat i)) by lia.
  symmetry. apply list_insert_inserts_lt. lia.
Qed.

Lemma zero_extend_length k dws : (length (zero_extend k dws) = Nat.max (length dws) (Z.to_nat k))%nat.
Proof. unfold zero_extend. rewrite length_app, length_replicate. lia. Qed.

(** [place_dwords] at an index that is not negative: the list as it is after it. *)
Definition placed (dws : list Z) (idx : nat) (vals : list Z) : list Z :=
  list_inserts idx vals (zero_extend (Z.of_nat idx + Z.of_nat (length vals)) dws).

Lemma place_dwords_ok dws idx arr vals st : 0 ≤ idx → mapM py_int0 arr = Some vals →
  place_dwords dws idx arr st = (inr (placed dws (Z.to_nat idx) vals), st).
Proof.
  intros Hi Ha. unfold place_dwords, placed. rewrite Ha, Z2Nat.id by done.
  rewrite set_items_inserts; [done|done|]. rewrite zero_extend_length. lia.
Qed.

Lemma safe_place_dwords R `{!PreOrder R} dws idx arr : 0 ≤ idx → safe R (place_dwords dws idx arr).
Proof.
  intros Hi. destruct (mapM py_int0 arr) as [vals|] eqn:Ha.
  - intros st. rewrite (place_dwords_ok _ _ _ _ _ Hi Ha). split; [done|]. simpl. reflexivity.
  - unfold place_dwords. rewrite Ha. by apply safe_raise.
Qed.

(** * The collecting handlers *)

Lemma bind_inr {A B} (m : py A) (k : A → py B) st a st' : m st = (inr a, st') → (m ≫= k) st = k a st'.
Proof. intros Hm. unfold mbind, py_bind. by rewrite Hm. Qed.

(** A number is read or the record is skipped. *)
Lemma get_int_case {A} d k (K : Z → py A) st (Φ : (exc + A) * ft_state → Prop) : typed d → codes k ≠ codes "dw" →
  (∀ z, field_int d k = Some z → Φ (K z st)) → (∀ e, benign (A:=A) (inl e) → Φ (inl e, st)) →
  Φ ((get_int d (codes k) ≫= K) st).
Proof.
  intros Hty Hk H1 H2. destruct (field_int d k) as [z|] eqn:Hz.
  - rewrite (bind_inr _ _ _ _ _ (get_int_some d k z st Hz)). by apply H1.
  - destruct (get_int_none d k st Hty Hk Hz) as (e & He & Hb). unfold mbind, py_bind. rewrite He. by apply H2.
Qed.

Lemma row_index_pos d off : typed d → field_int d "off" = Some off → 0 ≤ off / 4.
Proof.
  intros Hty Hoff. apply Z.div_pos; [|lia]. unfold field_int in Hoff.
  destruct (d !! codes "off") as [[t|]|] eqn:Ht; try done. by eapply (ty_off _ Hty).
Qed.

(** At most the entry of one id is written: by this line, or keeping the line it came from. *)
Definition alloc_change (n : Z) (io : option Z) (st st' : ft_state) : Prop :=
  st' = st ∨ ∃ id a, io = Some id ∧
    st' = PState (p_events st) (dict_set id a (p_alloc st)) (p_uvm st) (p_pb st) ∧
    (aa_line a = n ∨ ∃ a0, dict_get id (p_alloc st) = Some a0 ∧ aa_line a = aa_line a0).

Definition uvm_change (n : Z) (io : option Z) (st st' : ft_state) : Prop :=
  st' = st ∨ ∃ id u, io = Some id ∧
    st' = PState (p_events st) (p_alloc st) (dict_set id u (p_uvm st)) (p_pb st) ∧
    (ua_line u = n ∨ ∃ u0, dict_get id (p_uvm st) = Some u0 ∧ ua_line u = ua_line u0).

Section collect.
Context (n p t : Z) (d : mc1_dict) (Hty : typed d).

Lemma on_alloc_change : safe (alloc_change n (field_int d "id")) (on_alloc n p t d).
Proof using Hty.
  intros st. unfold on_alloc. destruct (_ && _); [|by split; [|left]].
  set (Φ := λ r : (exc + unit) * ft_state, benign r.1 ∧ alloc_change n (field_int d "id") st r.2).
  assert (∀ e, benign (A:=unit) (inl e) → Φ (inl e, st)) as He by (by split; [|left]).
  do 5 (apply (get_int_case _ _ _ _ Φ); [done|done| |done]; intros ??). split; [done|]. right. eauto 10.
Qed.

Lemma on_alloc_row_change : safe (alloc_change n (field_int d "id")) (on_alloc_row d).
Proof using Hty.
  intros st. unfold on_alloc_row.
  set (Φ := λ r : (exc + unit) * ft_state, benign r.1 ∧ alloc_change n (field_int d "id") st r.2).
  assert (∀ e, benign (A:=unit) (inl e) → Φ (inl e, st)) as He by (by split; [|left]).
  apply (get_int_case _ _ _ _ Φ); [done|done| |done]. intros id Hid. rewrite (bind_inr _ _ st (p_alloc st) st) by done.
  destruct (dict_get id (p_alloc st)) as [a|] eqn:Ha; [|by split; [|left]].
  destruct (d !! codes "dw") as [[|dw]|]; [by split; [|left]| |by split; [|left]].
  apply (get_int_case _ _ _ _ Φ); [done|done| |done]. intros off Hoff.
  pose proof (row_index_pos d off Hty Hoff) as Hpos.
  destruct (mapM py_int0 dw) as [vals|] eqn:Hv.
  - erewrite bind_inr by (by apply place_dwords_ok). split; [done|]. right.
    eexists id, _. split_and!; [done|done|]. right. by exists a.
  - unfold place_dwords. rewrite Hv. by apply (He ValueError).
Qed.

Lemma on_uvm_ioctl_change : safe (uvm_change n (field_int d "id")) (on_uvm_ioctl n p t d).
Proof using Hty.
  intros st. unfold on_uvm_ioctl. destruct (_ && _); [|by split; [|left]].
  set (Φ := λ r : (exc + unit) * ft_state, benign r.1 ∧ uvm_change n (field_int d "id") st r.2).
  assert (∀ e, benign (A:=unit) (inl e) → Φ (inl e, st)) as He by (by split; [|left]).
  do 2 (apply (get_int_case _ _ _ _ Φ); [done|done| |done]; intros ??). split; [done|]. right. eauto 10.
Qed.

Lemma on_uvm_row_change : safe (uvm_change n (field_int d "id")) (on_uvm_row d).
Proof using Hty.
  intros st. unfold on_uvm_row.
  set (Φ := λ r : (exc + unit) * ft_state, benign r.1 ∧ uvm_change n (field_int d "id") st r.2).
  assert (∀ e, benign (A:=unit) (inl e) → Φ (inl e, st)) as He by (by split; [|left]).
  apply (get_int_case _ _ _ _ Φ); [done|done| |done]. intros id Hid. rewrite (bind_inr _ _ st (p_uvm st) st) by done.
  destruct (dict_get id (p_uvm st)) as [a|] eqn:Ha; [|by split; [|left]].
  destruct (d !! codes "dw") as [[|dw]|]; [by split; [|left]| |by split; [|left]].
  apply (get_int_case _ _ _ _ Φ); [done|done| |done]. intros off Hoff.
  pose proof (row_index_pos d off Hty Hoff) as Hpos.
  destruct (mapM py_int0 dw) as [vals|] eqn:Hv.
  - erewrite bind_inr by (by apply place_dwords_ok). split; [done|]. right.
    eexists id, _. split_and!; [done|done|]. right. by exists a.
  - unfold place_dwords. rewrite Hv. by apply (He ValueError).
Qed.
End collect.

(** ** Chunks *)

Definition str_chunks (m : gmap Z pyval) : Prop := ∀ off v, m !! off = Some v → ∃ t, v = PStr t.

Definition st_ok (st : ft_state) : Prop := map_Forall (λ _ a, str_chunks (pa_chunks a)) (p_pb st).

Lemma sorted_keys_elem m k : k ∈ sorted_keys m ↔ is_Some (m !! k).
Proof.
  unfold sorted_keys. rewrite (merge_sort_Permutation Z.le). rewrite list_elem_of_fmap. split.
  - intros ([k' v] & -> & Hin). apply elem_of_map_to_list in Hin. by exists v.
  - intros [v Hv]. exists (k, v). split; [done|]. by apply elem_of_map_to_list.
Qed.

Lemma chunk_texts_some m : str_chunks m → is_Some (chunk_texts m).
Proof.
  intros Hm. apply mapM_is_Some, Forall_forall. intros k Hk. apply sorted_keys_elem in Hk as [v Hv].
  simpl. rewrite Hv. destruct (Hm k v Hv) as [t ->]. by exists t.
Qed.

(** An event made of the chunks of [s]. *)
Definition pb_event (s : Z) (e : event) : Prop := ev_kind e = codes "pb_bytes" ∧ head (ev_info e) = Some (OInt s).

Record pb_change (so : option Z) (st st' : ft_state) : Prop := PbChange {
  pc_alloc : p_alloc st' = p_alloc st;
  pc_uvm : p_uvm st' = p_uvm st;
  pc_ok : st_ok st';
  pc_pb : ∀ s, so ≠ Some s → p_pb st' !! s = p_pb st !! s;
  pc_events : extends (λ e, ∃ s, so = Some s ∧ pb_event s e) st st' }.

Section pb.
Context (n p t : Z) (d : mc1_dict) (Hty : typed d).

(** The accumulator is in the table and has chunks of the table's, or none. *)
Lemma find_acc_case {A} (K : pb_acc → py A) seq st (Φ : (exc + A) * ft_state → Prop) :
  (∀ acc, (p_pb st !! seq = Some acc ∨
           p_pb st !! seq = None ∧ ∃ chid idx nc, field_int d "chid" = Some chid ∧ field_int d "idx" = Some idx ∧
             field_int d "nchunks" = Some nc ∧ acc = PbAcc n p t chid idx nc ∅) →
     Φ (K acc (PState (p_events st) (p_alloc st) (p_uvm st) (<[seq := acc]> (p_pb st))))) →
  (∀ e, benign (A:=A) (inl e) → Φ (inl e, st)) → Φ ((find_acc n p t d seq ≫= K) st).
Proof using Hty.
  intros H1 H2. unfold find_acc. destruct (p_pb st !! seq) as [acc|] eqn:Ha.
  - specialize (H1 acc (or_introl eq_refl)). rewrite insert_id in H1 by done.
    erewrite bind_inr by (rewrite (bind_inr _ _ st (p_pb st) st) by done; by rewrite Ha). by destruct st.
  - set (m := py_gets p_pb ≫= _). assert (m st = (chid ← get_int d (codes "chid"); idx ← get_int d (codes "idx");
      nc ← get_int d (codes "nchunks"); set_pb (<[seq := PbAcc n p t chid idx nc ∅]>);;
      mret (PbAcc n p t chid idx nc ∅)) st) as Hm.
    { unfold m. rewrite (bind_inr _ _ st (p_pb st) st) by done. by rewrite Ha. }
    unfold mbind at 1, py_bind at 1. rewrite Hm. clear m Hm.
    set (Ψ := λ r : (exc + pb_acc) * ft_state, Φ match r with (inl e, st) => (inl e, st) | (inr a, st) => K a st end).
    do 3 (apply (get_int_case _ _ _ _ Ψ); [done|done| |exact H2]; intros ??). apply H1. right. eauto 10.
Qed.

Lemma st_ok_insert st seq acc : st_ok st → str_chunks (pa_chunks acc) →
  st_ok (PState (p_events st) (p_alloc st) (p_uvm st) (<[seq := acc]> (p_pb st))).
Proof. intros Hst Ha. by apply map_Forall_insert_2. Qed.

Lemma pb_change_refl st so : st_ok st → pb_change so st st.
Proof. intros Hst. split; done. Qed.

Lemma on_pb_bytes_change st : st_ok st →
  benign (on_pb_bytes n p t d st).1 ∧ pb_change (field_int d "seq") st (on_pb_bytes n p t d st).2.
Proof using Hty.
  intros Hst. unfold on_pb_bytes.
  set (Φ := λ r : (exc + unit) * ft_state, benign r.1 ∧ pb_change (field_int d "seq") st r.2).
  assert (∀ e, benign (A:=unit) (inl e) → Φ (inl e, st)) as He by (by split; [|apply pb_change_refl]).
  apply (get_int_case _ _ _ _ Φ); [done|done| |done]. intros seq Hseq.
  apply (get_int_case _ _ _ _ Φ); [done|done| |done]. intros off Hoff.
  assert (∀ acc pb', str_chunks (pa_chunks acc) →
    (∀ s, seq ≠ s → pb' !! s = p_pb st !! s) → (pb' !! seq = Some acc ∨ pb' !! seq = None) →
    ∀ es, Forall (pb_event seq) es →
    pb_change (field_int d "seq") st (PState (p_events st ++ es) (p_alloc st) (p_uvm st) pb')) as Hch.
  { intros acc pb' Hacc Hpb' Hs es Hes. split; simpl; [done|done| | |].
    - intros s a Ha. simpl in Ha. destruct (decide (seq = s)) as [<-|Hne]; [destruct Hs as [Hs|Hs]; naive_solver|].
      rewrite Hpb' in Ha by done. by apply (Hst s).
    - intros s Hs'. apply Hpb'. congruence.
    - exists es. split; [done|]. eapply Forall_impl; [done|]. intros e Hev. eauto. }
  apply (find_acc_case _ _ _ Φ); [|done]. intros acc Hacc. unfold store_chunk.
  assert (str_chunks (pa_chunks acc)) as Hc.
  { destruct Hacc as [Hacc|(_ & ? & ? & ? & _ & _ & _ & ->)]; [by apply (Hst seq)|done]. }
  set (st1 := PState _ _ _ (<[seq := acc]> _)).
  destruct (d !! codes "hex") as [hex|] eqn:Hhex.
  2: { unfold get_raw. rewrite Hhex. split; [done|]. simpl. unfold st1. rewrite <-(app_nil_r (p_events st)).
       apply (Hch acc); [done|by intros; apply lookup_insert_ne|left; by apply lookup_insert_eq|done]. }
  rewrite (bind_inr _ _ _ _ _ (get_raw_some d "hex" hex st1 Hhex)). set (acc' := put_chunk off hex acc).
  assert (str_chunks (pa_chunks acc')) as Hc'.
  { intros o v. simpl. rewrite lookup_insert_Some. intros [[_ <-]|[_ Hv]]; [|by eapply Hc].
    destruct hex as [h|hs]; [by eexists|]. by apply (ty_str _ Hty) in Hhex. }
  rewrite (bind_inr _ _ st1 tt (PState (p_events st) (p_alloc st) (p_uvm st) (<[seq := acc']> (p_pb st))))
    by (unfold set_pb, py_modify, st1; simpl; by rewrite insert_insert_eq).
  destruct (_ =? _).
  - destruct (chunk_texts_some _ Hc') as [ts Hts]. rewrite Hts. split; [done|]. simpl.
    apply (Hch acc'); [done| |right; by apply lookup_delete_eq|by repeat constructor].
    intros s Hs. rewrite lookup_delete_ne, lookup_insert_ne by done. done.
  - split; [done|]. simpl. rewrite <-(app_nil_r (p_events st)).
    apply (Hch acc'); [done|by intros; apply lookup_insert_ne|left; by apply lookup_insert_eq|done].
Qed.
End pb.

(** * Any record *)

Definition key_is (key : text * text) (cat event : string) : Prop := key = (codes cat, codes event).

(** What a record does to the state: events of its own, or one entry of one table. *)
Definition change (n : Z) (key : text * text) (d : mc1_dict) (st st' : ft_state) : Prop :=
  plain_change st st' ∨
  ((key_is key "rm" "alloc" ∨ key_is key "body" "alloc_row") ∧ alloc_change n (field_int d "id") st st') ∨
  ((key_is key "uvm" "ioctl" ∨ key_is key "body" "uvm_row") ∧ uvm_change n (field_int d "id") st st') ∨
  (key_is key "pb" "bytes" ∧ pb_change (field_int d "seq") st st').

Lemma quiet_ok st st' : plain_change st st' → st_ok st → st_ok st'.
Proof. intros (_ & _ & _ & Hp) Hst. unfold st_ok. by rewrite Hp. Qed.

Lemma change_ok n key d st st' : change n key d st st' → st_ok st → st_ok st'.
Proof.
  intros [Hq|[[_ [->|(id & a & _ & -> & _)]]|[[_ [->|(id & a & _ & -> & _)]]|[_ Hp]]]]; try done; [by apply quiet_ok|].
  intros _. apply Hp.
Qed.

Lemma dispatch_change n p t key d st : typed d → st_ok st →
  benign (dispatch n p t key d st).1 ∧ change n key d st (dispatch n p t key d st).2.
Proof.
  intros Hty Hst. unfold dispatch, is_key_of, change, key_is.
  assert (∀ m : py unit, safe plain_change m → benign (m st).1 ∧ (plain_change st (m st).2 ∨
    ((key = (codes "rm", codes "alloc") ∨ key = (codes "body", codes "alloc_row")) ∧ alloc_change n (field_int d "id") st (m st).2) ∨
    ((key = (codes "uvm", codes "ioctl") ∨ key = (codes "body", codes "uvm_row")) ∧ uvm_change n (field_int d "id") st (m st).2) ∨
    key = (codes "pb", codes "bytes") ∧ pb_change (field_int d "seq") st (m st).2)) as Hq.
  { intros m Hm. destruct (Hm st). auto. }
  repeat case_bool_decide.
  - destruct (on_alloc_change n p t d Hty st). auto 10.
  - apply Hq, safe_ret, _.
  - destruct (on_alloc_row_change n d Hty st). auto 10.
  - destruct (on_uvm_ioctl_change n p t d Hty st). auto 10.
  - destruct (on_uvm_row_change n d Hty st). auto 10.
  - destruct (on_pb_bytes_change n p t d Hty st Hst). auto 10.
  - by apply Hq, on_rm_ioctl_quiet.
  - by apply Hq, on_free_quiet.
  - by apply Hq, on_map_external_quiet.
  - by apply Hq, on_sysmem_track_quiet.
  - by apply Hq, on_bar1_track_quiet.
  - by apply Hq, on_simple_quiet.
Qed.

Lemma catch_benign m st : benign (m st).1 → catch m st = (inr tt, (m st).2).
Proof. unfold catch. by destruct (m st) as [[[]|[]] st']. Qed.

(** * Lines of ftrace *)

(** The envelope of a line: padding, task, pid, cpu, flags and the two parts of the time. *)
Record envelope := Envelope {
  en_pad : nat; en_task : text; en_pid : Z; en_gap : nat; en_cpu : text; en_flags : text; en_sec : text; en_frac : text }.

Definition ts_text (e : envelope) : text := en_sec e ++ codes "." ++ en_frac e.

(** The line ftrace prints: [   task-pid   [cpu] flags sec.frac: nv_trace_printf: payload] *)
Definition print_line (e : envelope) (payload : text) : text :=
  replicate (en_pad e) 32 ++ (en_task e ++ codes "-" ++ dec_text (en_pid e)) ++ replicate (S (en_gap e)) 32 ++
  codes "[" ++ en_cpu e ++ codes "] " ++ en_flags e ++ codes " " ++ en_sec e ++ codes "." ++ en_frac e ++
  codes ": nv_trace_printf: " ++ payload ++ [10].

Definition all_digits (t : text) : Prop := t ≠ [] ∧ Forall (λ c, is_digit c = true) t.

Record wf_envelope (e : envelope) : Prop := WfEnvelope {
  we_task : Forall (λ c, non_space c = true) (en_task e) ∧ en_task e ≠ [] ∧ head (en_task e) ≠ Some 35;
  we_pid : 0 ≤ en_pid e < 10 ^ 20;
  we_cpu : all_digits (en_cpu e);
  we_flags : Forall (λ c, non_space c = true) (en_flags e) ∧ en_flags e ≠ [];
  we_sec : all_digits (en_sec e);
  we_frac : all_digits (en_frac e) }.

Definition digitsb (t : text) : bool := forallb is_digit t && negb (bool_decide (t = [])).
Definition spacelessb (t : text) : bool := forallb non_space t && negb (bool_decide (t = [])).

Definition wf_envelopeb (e : envelope) : bool :=
  spacelessb (en_task e) && negb (bool_decide (head (en_task e) = Some 35)) && (0 <=? en_pid e) && (en_pid e <? 10 ^ 20) &&
  digitsb (en_cpu e) && spacelessb (en_flags e) && digitsb (en_sec e) && digitsb (en_frac e).

Lemma wf_envelopeb_ok e : wf_envelopeb e = true → wf_envelope e.
Proof.
  unfold wf_envelopeb, digitsb, spacelessb. rewrite !andb_true_iff, !negb_true_iff, !bool_decide_eq_false, Z.leb_le, Z.ltb_lt.
  intros H. split; unfold all_digits; split_and!; try apply forallb_Forall; naive_solver.
Qed.

Lemma take_while_stop f t : (∀ c, head t = Some c → f c = false) → take_while f t = [].
Proof. destruct t as [|c t]; [done|]. intros H. simpl. by rewrite (H c). Qed.

Lemma span1_app p w rest : w ≠ [] → Forall (λ c, p c = true) w → (∀ c, head rest = Some c → p c = false) →
  span1 p (w ++ rest) = Some (w, rest).
Proof.
  intros Hne Hw Hr. unfold span1. rewrite take_while_all, drop_while_all, take_while_stop, drop_while_stop, app_nil_r by done.
  by destruct w.
Qed.

Lemma strip_prefix_app q t : strip_prefix q (q ++ t) = Some t.
Proof.
  unfold strip_prefix, starts_with. rewrite bool_decide_eq_true_2 by (by rewrite take_app_length).
  by rewrite drop_app_length.
Qed.

Lemma dec_text_digits z : 0 ≤ z → all_digits (dec_text z).
Proof.
  intros Hz. unfold dec_text. rewrite (proj2 (Z.ltb_ge _ _)) by done. split.
  - pose proof (digits_nonempty 10 19 z) as Hn. by destruct (digits 10 20 z).
  - apply Forall_fmap. eapply Forall_impl; [apply digits_range; lia|]. intros x [Hx1 Hx2]. simpl.
    unfold digit_char, is_digit. rewrite (proj2 (Z.ltb_lt _ _)) by lia. apply andb_true_iff. rewrite !Z.leb_le. lia.
Qed.

Lemma num_dec z : 0 ≤ z < 10 ^ 20 → num 10 (dec_text z) = Some z.
Proof.
  intros Hz. unfold dec_text. rewrite (proj2 (Z.ltb_ge _ _)) by lia.
  rewrite num_digits by (lia || apply digits_nonempty || apply digits_range; lia).
  f_equal. apply digits_eval; lia.
Qed.

Lemma digit_non_space c : is_digit c = true → non_space c = true.
Proof.
  unfold is_digit, non_space, is_space. intros [H1 H2]%andb_true_iff. rewrite Z.leb_le in *. apply negb_true_iff.
  repeat (apply orb_false_iff; split); rewrite ?andb_false_iff, ?Z.leb_gt, ?Z.eqb_neq; lia.
Qed.

Lemma word_pid_read task ds : task ≠ [] → all_digits ds → word_pid (task ++ codes "-" ++ ds) = Some ds.
Proof.
  intros Ht [Hne Hds]. unfold word_pid. rewrite !reverse_app. change (reverse (codes "-")) with [45].
  assert (Forall (λ c, is_digit c = true) (reverse ds)) as Hr by (by apply Forall_reverse).
  rewrite <-(assoc_L (++)). rewrite take_while_all, drop_while_all by done. simpl.
  rewrite app_nil_r, reverse_involutive. destruct ds as [|c ds]; [done|].
  destruct (reverse task) as [|c' r] eqn:Hrt; [|done]. apply (f_equal reverse) in Hrt. by rewrite reverse_involutive in Hrt.
Qed.

Lemma spaces_space k : Forall (λ c, is_space c = true) (replicate k 32).
Proof. apply Forall_forall. by intros c [-> _]%elem_of_replicate. Qed.

Lemma lstrip_spaces k c t : non_space c = true → lstrip (replicate k 32 ++ c :: t) = c :: t.
Proof.
  intros Hc. unfold lstrip. rewrite drop_while_all by apply spaces_space. apply drop_while_stop.
  intros c' [= <-]. by apply non_space_false.
Qed.

(** The parts of the envelope, read in turn. *)
Lemma envelope_head k task ds rest : task ≠ [] → Forall (λ c, non_space c = true) task → all_digits ds →
  span1 non_space (lstrip (replicate k 32 ++ (task ++ codes "-" ++ ds) ++ 32 :: rest)) =
    Some (task ++ codes "-" ++ ds, 32 :: rest).
Proof.
  intros Hne Ht [_ Hd]. destruct task as [|c task]; [done|]. apply Forall_cons in Ht as [Hc Ht].
  cbn [app]. rewrite lstrip_spaces by done. rewrite app_comm_cons. apply span1_app; [done| |by intros c' [= <-]].
  constructor; [done|]. apply Forall_app. split; [done|]. constructor; [done|].
  eapply Forall_impl; [done|]. intros c'. apply digit_non_space.
Qed.

(** A payload as MC_TRACE prints it: it starts with the sigil and has no newline of its own. *)
Lemma line_read e t : wf_envelope e → no_newline (109 :: t) = true →
  match_line (print_line e (109 :: t)) = Some (dec_text (en_pid e), ts_text e, 109 :: t).
Proof.
  intros [(Ht & Htn & _) Hp [Hc1 Hc2] [Hf1 Hf2] [Hs1 Hs2] [Hr1 Hr2]] Hnl. unfold print_line, match_line.
  change (replicate (S (en_gap e)) 32 ++ ?q) with (32 :: (replicate (en_gap e) 32 ++ q)).
  rewrite envelope_head by (done || (apply dec_text_digits; lia)). cbn [mbind option_bind].
  rewrite word_pid_read by (done || (apply dec_text_digits; lia)). cbn [mbind option_bind].
  change (32 :: (replicate (en_gap e) 32 ++ ?q)) with (replicate (S (en_gap e)) 32 ++ q).
  rewrite (span1_app is_space (replicate (S (en_gap e)) 32)); [|done|apply spaces_space|by intros c [= <-]].
  cbn [mbind option_bind]. rewrite strip_prefix_app. cbn [mbind option_bind].
  rewrite span1_app; [|done|done|by intros c [= <-]]. cbn [mbind option_bind].
  change (codes "] " ++ ?q) with (codes "]" ++ [32] ++ q). rewrite strip_prefix_app. cbn [mbind option_bind].
  rewrite (span1_app is_space [32]); [|done|by repeat constructor|].
  2: { destruct (en_flags e) as [|c f]; [done|]. intros c' [= <-]. apply Forall_cons in Hf1 as [Hc _]. by apply non_space_false. }
  cbn [mbind option_bind]. rewrite span1_app; [|done|done|by intros c [= <-]]. cbn [mbind option_bind].
  rewrite (span1_app is_space (codes " ")); [|done|by repeat constructor|].
  2: { destruct (en_sec e) as [|c f]; [done|]. intros c' [= <-]. apply Forall_cons in Hs2 as [Hc _].
       by apply non_space_false, digit_non_space. }
  cbn [mbind option_bind]. rewrite span1_app; [|done|done|by intros c [= <-]]. cbn [mbind option_bind].
  rewrite strip_prefix_app. cbn [mbind option_bind].
  rewrite span1_app; [|done|done|by intros c [= <-]]. cbn [mbind option_bind].
  change (codes ": nv_trace_printf: " ++ ?q) with (codes ":" ++ [32] ++ codes "nv_trace_printf:" ++ [32] ++ q).
  rewrite strip_prefix_app. cbn [mbind option_bind]. rewrite (span1_app is_space [32]); [|done|by repeat constructor|by intros c [= <-]].
  cbn [mbind option_bind]. rewrite strip_prefix_app. cbn [mbind option_bind].
  change ([32] ++ (109 :: t) ++ [10]) with (replicate 1 32 ++ 109 :: (t ++ [10])). rewrite lstrip_spaces by done.
  rewrite app_comm_cons, take_while_all.
  - cbn [take_while]. by rewrite app_nil_r.
  - apply Forall_forall. intros c Hc. unfold no_newline in Hnl. rewrite forallb_forall in Hnl. by apply Hnl, list_elem_of_In.
Qed.

(** * A capture *)

(** Records as the driver prints them: an array is under dw and no offset is negative. *)
Record driver_record (r : mc_record) : Prop := Printable {
  pr_clean : clean_record r;
  pr_nodup : NoDup (mr_fields r).*1;
  pr_arr : ∀ k w zs, (k, MvArr w zs) ∈ mr_fields r → k = codes "dw";
  pr_off : ∀ v z, (codes "off", v) ∈ mr_fields r → py_int0 (print_val v) = Some z → 0 ≤ z }.

Definition printableb (r : mc_record) : bool :=
  clean_recordb r && bool_decide (NoDup (mr_fields r).*1) &&
  forallb (λ f, match f.2 with
                | MvArr _ _ => bool_decide (f.1 = codes "dw")
                | MvStr _ => negb (bool_decide (f.1 = codes "off"))
                | MvDec z => negb (bool_decide (f.1 = codes "off")) || (0 <=? z)
                | MvHex _ _ => true
                end) (mr_fields r).

Lemma printableb_ok r : printableb r = true → driver_record r.
Proof.
  unfold printableb. rewrite !andb_true_iff. intros [[H1%clean_recordb_ok H2%bool_decide_eq_true] H3%forallb_Forall].
  rewrite Forall_forall in H3. split; [done|done| |].
  - intros k w zs Hin. specialize (H3 _ Hin). simpl in H3. by apply bool_decide_eq_true in H3.
  - intros v z Hin Hz. specialize (H3 _ Hin). pose proof (cr_fields _ H1) as Hf. rewrite Forall_forall in Hf.
    destruct (Hf _ Hin) as [_ Hv]. cbn [fst snd] in *. destruct v as [z'|w z'|t|w zs]; cbn [print_val clean_val] in *.
    + rewrite py_int0_dec in Hz by done. simplify_eq. rewrite bool_decide_eq_true_2 in H3 by done. by apply Z.leb_le.
    + rewrite py_int0_hex in Hz by done. simplify_eq. apply Hv.
    + rewrite bool_decide_eq_true_2 in H3 by done. done.
    + by apply bool_decide_eq_true in H3.
Qed.

Definition dict_of (r : mc_record) : mc1_dict := fields_dict (mr_fields r).
Definition key_of (r : mc_record) : text * text := (mr_cat r, mr_event r).

Lemma fields_dict_inv fs k w : NoDup fs.*1 → fields_dict fs !! k = Some w → ∃ v, (k, v) ∈ fs ∧ w = val_of v.
Proof.
  intros Hnd Hk. destruct (decide (k ∈ fs.*1)) as [Hin|Hin]; [|by rewrite fields_dict_none in Hk].
  apply list_elem_of_fmap in Hin as ([k' v] & -> & Hin). exists v. split; [done|].
  pose proof (fields_dict_lookup _ _ _ Hnd Hin) as Hl. simpl in *. congruence.
Qed.

Lemma printable_typed r : driver_record r → typed (dict_of r).
Proof.
  intros Hr. split.
  - intros k ts Hk. apply fields_dict_inv in Hk as (v & Hin & Hv); [|apply Hr]. destruct v; try done. by eapply pr_arr.
  - intros t z Hk Hz. apply fields_dict_inv in Hk as (v & Hin & Hv); [|apply Hr].
    eapply pr_off; [done|done|]. destruct v; by simplify_eq/=.
Qed.

Lemma field_int_print r k v z : driver_record r → (codes k, v) ∈ mr_fields r →
  match v with MvDec z' | MvHex _ z' => z' = z | _ => False end → field_int (dict_of r) k = Some z.
Proof.
  intros Hr Hin Hv. unfold field_int, dict_of. rewrite (fields_dict_lookup _ _ _ (pr_nodup _ Hr) Hin).
  pose proof (cr_fields _ (pr_clean _ Hr)) as Hf. rewrite Forall_forall in Hf. destruct (Hf _ Hin) as [_ Hcv].
  destruct v; simplify_eq/=; try done; [by apply py_int0_dec|by apply py_int0_hex].
Qed.

Section capture.
Context (unescape : text → option text) (ts_ns_of : text → Z).

Definition en_ts (e : envelope) : Z := ts_ns_of (ts_text e).

(** A record on a line of its own is handled as its dictionary. *)
Lemma line_step n e r st : wf_envelope e → driver_record r →
  parse_line unescape ts_ns_of n (print_line e (print_record r)) st =
  catch (dispatch n (en_pid e) (en_ts e) (key_of r) (dict_of r)) st.
Proof.
  intros He Hr. pose proof (pr_clean _ Hr) as Hc. unfold parse_line.
  assert (starts_with (codes "#") (print_line e (print_record r)) = false) as ->.
  { unfold starts_with, print_line. apply bool_decide_eq_false. destruct He as [(_ & Hne & Hh) _ _ _ _ _].
    destruct (en_pad e); simpl; [|done]. destruct (en_task e) as [|c w]; [done|]. simpl in *. naive_solver. }
  pose proof (split_print r Hc) as Hs. pose proof (record_print r Hc) as Hm.
  assert (no_newline (print_record r) = true) as Hnl.
  { rewrite print_record_words. unfold no_newline. rewrite forallb_app.
    fold (no_newline (join (codes " ") (record_words r))). rewrite no_newline_words; [done|]. by apply record_words_safe. }
  assert (∃ t, print_record r = 109 :: t) as [t Ht] by (by eexists). rewrite Ht in *.
  rewrite line_read by done. rewrite num_dec by apply He. rewrite Hs. cbn [for_records].
  unfold mbind, py_bind, parse_record. rewrite Hm. unfold fields_text. rewrite fields_print by apply Hc.
  fold (en_ts e) (dict_of r) (key_of r). by destruct (catch _ st) as [[?|[]] ?].
Qed.

(** The states a capture goes through. *)
Fixpoint run_trace (n : Z) (tr : list (envelope * mc_record)) (st : ft_state) : ft_state :=
  match tr with
  | [] => st
  | (e, r) :: tr => run_trace (n + 1) tr (dispatch n (en_pid e) (en_ts e) (key_of r) (dict_of r) st).2
  end.

Definition raw_lines (tr : list (envelope * mc_record)) : list text :=
  (λ er, print_line er.1 (print_record er.2)) <$> tr.

Definition wf_trace (tr : list (envelope * mc_record)) : Prop := Forall (λ er, wf_envelope er.1 ∧ driver_record er.2) tr.

Lemma parse_lines_trace tr : ∀ n st, wf_trace tr → st_ok st →
  parse_lines unescape ts_ns_of n (raw_lines tr) st = (inr tt, run_trace n tr st).
Proof.
  induction tr as [|[e r] tr IH]; intros n st Htr Hst; [done|]. apply Forall_cons in Htr as [[He Hr] Htr].
  destruct (dispatch_change n (en_pid e) (en_ts e) (key_of r) (dict_of r) st (printable_typed r Hr) Hst) as [Hb Hch].
  cbn [raw_lines fmap list_fmap parse_lines]. erewrite bind_inr.
  2: { cbn [fst snd]. rewrite line_step by done. by apply catch_benign. }
  cbn [run_trace]. apply IH; [done|]. by eapply change_ok.
Qed.

(** A capture of records the driver prints is parsed to the end. *)
Lemma parse_ftrace_trace tr : wf_trace tr →
  parse_ftrace unescape ts_ns_of (raw_lines tr) =
  let st := run_trace 1 tr pstate0 in
  inr (p_events st ++ ((p_alloc st).*2 ≫= flush_alloc) ++ ((p_uvm st).*2 ≫= flush_uvm)).
Proof. intros Htr. unfold parse_ftrace. by rewrite parse_lines_trace. Qed.

(** What one record leaves, and that the chunks stay texts, along a capture. *)
Lemma run_trace_ind (I : Z → ft_state → Prop) tr n st :
  wf_trace tr → st_ok st → I n st →
  (∀ m e r s s', (e, r) ∈ tr → n ≤ m → I m s → st_ok s → driver_record r → change m (key_of r) (dict_of r) s s' → I (m + 1) s') →
  I (n + Z.of_nat (length tr)) (run_trace n tr st).
Proof.
  revert n st. induction tr as [|[e r] tr IH]; intros n st Htr Hst HI Hstep.
  { simpl. by rewrite Z.add_0_r. }
  apply Forall_cons in Htr as [[He Hr] Htr].
  destruct (dispatch_change n (en_pid e) (en_ts e) (key_of r) (dict_of r) st (printable_typed r Hr) Hst) as [_ Hch].
  cbn [run_trace length]. replace (n + Z.of_nat (S (length tr))) with (n + 1 + Z.of_nat (length tr)) by lia.
  apply IH; [done|by eapply change_ok| |].
  - eapply (Hstep n); [by left|lia|done|done|done|done].
  - intros m e' r' s s' Hin Hm. apply (Hstep m e' r'); [by right|lia].
Qed.
End capture.
