(* ===== verification/TraceBodies.v ===== *)
(** * Parameter blocks through the trace: from the driver's buffers to the tools' events

    The driver prints the parameters of an allocation or of a UVM ioctl as rows of four dwords
    with the id of the operation; other operations, on other processors, print between them. The
    tools put the rows together again. The theorems go from the memory the driver copied to the
    event the tools report, through the printed lines: [mc_trace_alloc_params] of escape.c and
    [mc_trace_uvm_ioctl_params] of uvm.c on one side, [parse_ftrace] on the other. The rows are
    proved once, for any table of the parser that collects rows ([RowLaws]). *)

From stdpp Require Import base numbers list gmap strings sorting.
From S2P Require Import Prelude Kernel TraceText FtraceParse.
#[local] Open Scope Z_scope.

(** ** Printing *)

Definition cat_text (c : mc_cat) : text :=
  codes match c with
        | rm => "rm" | uvm => "uvm" | fifo => "fifo" | mmu => "mmu" | dbell => "dbell"
        | pb => "pb" | gsp => "gsp" | mmap_ => "mmap" | body => "body" | pte => "pte"
        end.

(** [MC_TRACE(cat, event, fmt, ...)] *)
Definition trace_rec (mask : Z) (c : mc_cat) (ev : string) (fs : list (string * mc_val)) : list mc_record :=
  if Z.land mask (MC_TRACE_CAT c) =? 0 then []
  else [McRecord (cat_text c) (codes ev) ((λ f, (codes f.1, f.2)) <$> fs)].

(** [MC_ARR4V(b, i)] *)
Definition MC_ARR4V (b : Z → Z) (i : Z) : list Z := [b i; b (i + 1); b (i + 2); b (i + 3)].

Section emit.
Context (mask : Z).

(** [id=%u off=0x%03x dw=] MC_ARR4 *)
Definition trace_row (ev : string) (id i : Z) (vals : list Z) : list mc_record :=
  trace_rec mask body ev [("id", MvDec id); ("off", MvHex 3 (u32 (i * 4))); ("dw", MvArr 8 vals)].

(** [for (i = 0; i + 3 < ndwords; i += 4)], from [i] on; the records and the index after the loop. *)
Fixpoint trace_rows (fuel : nat) (ev : string) (id : Z) (buf : Z → Z) (ndwords i : Z) : list mc_record * Z :=
  if i + 3 <? ndwords then
    match fuel with
    | O => ([], i)
    | S fuel =>
        let '(rs, i') := trace_rows fuel ev id buf ndwords (i + 4) in
        (trace_row ev id i (MC_ARR4V buf i) ++ rs, i')
    end
  else ([], i).

(** The sizes: [params_size] rounded up and the dwords copied. *)
Definition alloc_params_size (bAccessApi : bool) (paramsSize : Z) : Z :=
  let params_size := if bAccessApi then paramsSize else 0 in
  let params_size := if (params_size =? 0) || (512 <? params_size) then 512 else params_size in
  Z.land (u32 (params_size + 3)) (Z.lxor 0xffffffff 3).

Definition alloc_ndwords (params_size : Z) : Z := let n := params_size / 4 in if 128 <? n then 128 else n.

(** [copy] is the user's memory at pAllocParms: the dwords a copy of so many bytes gives, or its failure. *)
Definition mc_trace_alloc_params (mc_alloc_id pAllocParms : Z) (bAccessApi : bool) (paramsSize : Z)
    (copy : Z → option (Z → Z)) : list mc_record :=
  if (Z.land mask (MC_TRACE_CAT body) =? 0) || (pAllocParms =? 0) then []
  else
    let params_size := alloc_params_size bAccessApi paramsSize in
    let ndwords := alloc_ndwords params_size in
    match copy (ndwords * 4) with
    | None => []
    | Some data =>
        let buf := λ i, if i <? ndwords then data i else 0 in
        trace_rec mask body "alloc_hdr"
          [("id", MvDec mc_alloc_id); ("size", MvDec params_size); ("dwords", MvDec ndwords)] ++
        let '(rs, i) := trace_rows 32 "alloc_row" mc_alloc_id buf ndwords 0 in
        rs ++
        if i <? ndwords then
          let tail := λ k, if (i + k <? ndwords) && (k <? 4) then buf (i + k) else 0 in
          trace_row "alloc_row" mc_alloc_id i (MC_ARR4V tail 0)
        else []
    end.

(** The entry of NV_ESC_RM_ALLOC: the header and the parameters. *)
Definition trace_alloc (mc_alloc_id hClass hRoot hParent hNew pAllocParms : Z) (bAccessApi : bool) (paramsSize : Z)
    (copy : Z → option (Z → Z)) : list mc_record :=
  trace_rec mask rm "alloc"
    [("id", MvDec mc_alloc_id); ("hclass", MvHex 0 hClass); ("root", MvHex 0 hRoot);
     ("parent", MvHex 0 hParent); ("new", MvHex 0 hNew)] ++
  mc_trace_alloc_params mc_alloc_id pAllocParms bAccessApi paramsSize copy.

Definition mc_trace_uvm_ioctl_params (mc_id cmd arg : Z) (copy : Z → option (Z → Z)) : list mc_record :=
  trace_rec mask uvm "ioctl" [("id", MvDec mc_id); ("cmd", MvDec cmd)] ++
  if (Z.land mask (MC_TRACE_CAT body) =? 0) || (arg =? 0) then []
  else match copy 512 with
       | None => []
       | Some buf => (trace_rows 32 "uvm_row" mc_id buf 128 0).1
       end.
End emit.

(** * The rows a table collects *)

Lemma filter_none {A} (P : A → Prop) `{∀ x, Decision (P x)} l : Forall (λ x, ¬ P x) l → filter P l = [].
Proof. induction 1 as [|x l Hx _ IH]; [done|]. by rewrite filter_cons_False. Qed.

(** A table of the parser whose entries collect rows: its entries, the line of an entry, the placing of
    values at a dword index, and the keys of the records that open an entry and of its rows. *)
Record row_table (A : Type) := RowTable {
  tb_entries : ft_state → list (Z * A);
  tb_line : A → Z;
  tb_place : nat → list Z → A → A;
  tb_header : text * text;
  tb_row : string }.
Arguments tb_entries {_} _ _.
Arguments tb_line {_} _ _.
Arguments tb_place {_} _ _ _ _.
Arguments tb_header {_} _.
Arguments tb_row {_} _.

Class RowLaws {A} (T : row_table A) : Prop := {
  rl_init : tb_entries T pstate0 = [];
  rl_change : ∀ m key d s s', change m key d s s' →
    tb_entries T s' = tb_entries T s ∨
    (key = tb_header T ∨ key = (codes "body", codes (tb_row T))) ∧
    ∃ id a, field_int d "id" = Some id ∧ tb_entries T s' = dict_set id a (tb_entries T s) ∧
      (tb_line T a = m ∨ ∃ a0, dict_get id (tb_entries T s) = Some a0 ∧ tb_line T a = tb_line T a0);
  rl_row : ∀ n p t d i off dw vals a st, typed d →
    field_int d "id" = Some i → d !! codes "dw" = Some (PList dw) → field_int d "off" = Some off →
    mapM py_int0 dw = Some vals → dict_get i (tb_entries T st) = Some a →
    tb_entries T (dispatch n p t (codes "body", codes (tb_row T)) d st).2 =
      dict_set i (tb_place T (Z.to_nat (off / 4)) vals a) (tb_entries T st);
  rl_line : ∀ k vals a, tb_line T (tb_place T k vals a) = tb_line T a }.

Definition place_alloc (k : nat) (vals : list Z) (a : alloc_acc) : alloc_acc :=
  AllocAcc (aa_line a) (aa_pid a) (aa_ts a) (aa_cls a) (aa_root a) (aa_parent a) (aa_new a) (placed (aa_dwords a) k vals).

Definition place_uvm (k : nat) (vals : list Z) (u : uvm_acc) : uvm_acc :=
  UvmAcc (ua_line u) (ua_pid u) (ua_ts u) (ua_cmd u) (placed (ua_dwords u) k vals).

Definition alloc_table : row_table alloc_acc :=
  RowTable _ p_alloc aa_line place_alloc (codes "rm", codes "alloc") "alloc_row".
Definition uvm_table : row_table uvm_acc :=
  RowTable _ p_uvm ua_line place_uvm (codes "uvm", codes "ioctl") "uvm_row".

#[global] Instance alloc_laws : RowLaws alloc_table.
Proof.
  split; cbn [tb_entries tb_line tb_place tb_header tb_row alloc_table]; [done|..].
  - intros m key d s s' [(_ & Hq & _)|[[Hk [->|(id & a & Hid & -> & Hl)]]|[[_ [->|(id & u & _ & -> & _)]]|[_ Hp]]]];
      [by left|by left| |by left|by left|left; by apply Hp]. right. split; [exact Hk|]. eauto 10.
  - intros n p t d i off dw vals a st Hty Hid Hdw Hoff Hv Ha.
    assert (dispatch n p t (codes "body", codes "alloc_row") d = on_alloc_row d) as -> by reflexivity. unfold on_alloc_row.
    erewrite bind_inr by (by apply get_int_some). rewrite (bind_inr _ _ st (p_alloc st) st) by done. rewrite Ha, Hdw.
    erewrite bind_inr by (by apply get_int_some). erewrite bind_inr; [done|].
    apply place_dwords_ok; [by eapply row_index_pos|done].
  - done.
Qed.

#[global] Instance uvm_laws : RowLaws uvm_table.
Proof.
  split; cbn [tb_entries tb_line tb_place tb_header tb_row uvm_table]; [done|..].
  - intros m key d s s' [(_ & _ & Hq & _)|[[_ [->|(id & u & _ & -> & _)]]|[[Hk [->|(id & a & Hid & -> & Hl)]]|[_ Hp]]]];
      [by left|by left|by left|by left| |left; by apply Hp]. right. split; [exact Hk|]. eauto 10.
  - intros n p t d i off dw vals a st Hty Hid Hdw Hoff Hv Ha.
    assert (dispatch n p t (codes "body", codes "uvm_row") d = on_uvm_row d) as -> by reflexivity. unfold on_uvm_row.
    erewrite bind_inr by (by apply get_int_some). rewrite (bind_inr _ _ st (p_uvm st) st) by done. rewrite Ha, Hdw.
    erewrite bind_inr by (by apply get_int_some). erewrite bind_inr; [done|].
    apply place_dwords_ok; [by eapply row_index_pos|done].
  - done.
Qed.

Section table.
Context {A : Type} (T : row_table A) `{!RowLaws T} (ts_ns_of : text → Z) (i : Z).

Definition row_rec (ev : string) (id : Z) (k : nat) (vals : list Z) : mc_record :=
  McRecord (codes "body") (codes ev)
    [(codes "id", MvDec id); (codes "off", MvHex 3 (16 * Z.of_nat k)); (codes "dw", MvArr 8 vals)].

(** A row of [i], and a record that opens its entry. *)
Definition is_row (r : mc_record) : Prop :=
  key_of r = (codes "body", codes (tb_row T)) ∧ field_int (dict_of r) "id" = Some i.
Definition opens (r : mc_record) : Prop :=
  key_of r = tb_header T ∧ field_int (dict_of r) "id" = Some i.

#[global] Instance is_row_dec r : Decision (is_row r).
Proof. unfold is_row. apply _. Defined.

(** The entry after the rows [ks]. *)
Definition with_rows (f : nat → list Z) (ks : list nat) (a : A) : A :=
  foldl (λ a k, tb_place T (4 * k) (f k) a) a ks.

Lemma row_step n p t k vals a st : driver_record (row_rec (tb_row T) i k vals) →
  dict_get i (tb_entries T st) = Some a →
  dict_get i (tb_entries T (dispatch n p t (key_of (row_rec (tb_row T) i k vals)) (dict_of (row_rec (tb_row T) i k vals)) st).2)
    = Some (tb_place T (4 * k) vals a).
Proof.
  intros Hr Ha. set (r := row_rec _ _ _ _) in *.
  assert (field_int (dict_of r) "id" = Some i) as Hid by (apply (field_int_print r "id" (MvDec i)); [done|set_solver|done]).
  assert (field_int (dict_of r) "off" = Some (16 * Z.of_nat k)) as Hoff
    by (apply (field_int_print r "off" (MvHex 3 (16 * Z.of_nat k))); [done|set_solver|done]).
  assert (dict_of r !! codes "dw" = Some (PList (hex_val_text 8 <$> vals))) as Hdw.
  { apply (fields_dict_lookup (mr_fields r) (codes "dw") (MvArr 8 vals)); [apply Hr|set_solver]. }
  assert (Forall is_u64 vals) as Hv.
  { pose proof (cr_fields _ (pr_clean _ Hr)) as Hf. rewrite Forall_forall in Hf.
    by apply (Hf (codes "dw", MvArr 8 vals)); set_solver. }
  change (key_of r) with (codes "body", codes (tb_row T)).
  rewrite (rl_row n p t (dict_of r) i _ _ vals a st (printable_typed r Hr) Hid Hdw Hoff (array_ints 8 vals Hv) Ha).
  rewrite dict_get_set, Z.eqb_refl. do 2 f_equal. replace (16 * Z.of_nat k) with (4 * Z.of_nat k * 4) by lia. rewrite Z.div_mul by lia. lia.
Qed.

Lemma other_step m key d s s' : change m key d s s' →
  ¬ ((key = tb_header T ∨ key = (codes "body", codes (tb_row T))) ∧ field_int d "id" = Some i) →
  dict_get i (tb_entries T s') = dict_get i (tb_entries T s).
Proof.
  intros Hch Hno. destruct (rl_change m key d s s' Hch) as [->|(Hk & id & a & Hid & -> & _)]; [done|].
  rewrite dict_get_set. destruct (Z.eqb_spec id i) as [->|]; [|done]. by destruct Hno.
Qed.

Lemma rows_collected f tr : ∀ ks n st a, wf_trace tr → st_ok st →
  dict_get i (tb_entries T st) = Some a → Forall (λ er, ¬ opens er.2) tr →
  filter is_row tr.*2 = (λ k, row_rec (tb_row T) i k (f k)) <$> ks →
  dict_get i (tb_entries T (run_trace ts_ns_of n tr st)) = Some (with_rows f ks a).
Proof.
  induction tr as [|[e r] tr IH]; intros ks n st a Htr Hst Ha Hno Hks.
  { by destruct ks. }
  apply Forall_cons in Htr as [[He Hr] Htr]. apply Forall_cons in Hno as [Hno1 Hno].
  destruct (dispatch_change n (en_pid e) (en_ts ts_ns_of e) (key_of r) (dict_of r) st (printable_typed r Hr) Hst) as [_ Hch].
  pose proof (change_ok _ _ _ _ _ Hch Hst) as Hst'. cbn [run_trace]. rewrite fmap_cons in Hks.
  destruct (decide (is_row r)) as [Hrow|Hrow].
  - rewrite filter_cons_True in Hks by done. destruct ks as [|k ks]; [done|]. rewrite fmap_cons in Hks.
    injection Hks as Hrk Hks. cbn [snd] in Hrk. subst r.
    change (with_rows f (k :: ks) a) with (with_rows f ks (tb_place T (4 * k) (f k) a)). apply IH; try done. by apply row_step.
  - rewrite filter_cons_False in Hks by done. apply IH; try done. rewrite (other_step _ _ _ _ _ Hch); [done|].
    intros [[Hk|Hk] Hid]; [by apply Hno1|by apply Hrow].
Qed.

(** ** Lines *)

Definition lines_below (m : Z) (st : ft_state) : Prop :=
  NoDup (tb_entries T st).*1 ∧ ∀ id a, dict_get id (tb_entries T st) = Some a → tb_line T a < m.

Definition line_unique (n m : Z) (st : ft_state) : Prop :=
  NoDup (tb_entries T st).*1 ∧ n < m ∧ ∀ id a, dict_get id (tb_entries T st) = Some a → tb_line T a = n → id = i.

Lemma lines_below_step m key d s s' : change m key d s s' → lines_below m s → lines_below (m + 1) s'.
Proof.
  intros Hch [Hnd Hl]. destruct (rl_change m key d s s' Hch) as [Heq|(_ & id & a & _ & Heq & Ha)]; unfold lines_below; rewrite Heq.
  { split; [done|]. intros id a Ha. specialize (Hl id a Ha). lia. }
  split; [by apply dict_set_NoDup|]. intros id' a'. rewrite dict_get_set. destruct (Z.eqb_spec id id').
  - intros [= <-]. destruct Ha as [->|(a0 & Ha0 & ->)]; [lia|]. specialize (Hl _ _ Ha0). lia.
  - intros Ha'. specialize (Hl _ _ Ha'). lia.
Qed.

Lemma line_unique_step n m key d s s' : change m key d s s' → line_unique n m s → line_unique n (m + 1) s'.
Proof.
  intros Hch (Hnd & Hm & Hl). destruct (rl_change m key d s s' Hch) as [Heq|(_ & id & a & _ & Heq & Ha)];
    unfold line_unique; rewrite Heq; [by split_and!; [|lia|]|].
  split_and!; [by apply dict_set_NoDup|lia|]. intros id' a'. rewrite dict_get_set. destruct (Z.eqb_spec id id') as [<-|].
  - intros [= <-]. destruct Ha as [->|(a0 & Ha0 & ->)]; [lia|]. by apply Hl.
  - apply Hl.
Qed.

Lemma entry_of_line n m st a : line_unique n m st → dict_get i (tb_entries T st) = Some a → tb_line T a = n →
  filter (λ a, tb_line T a = n) (tb_entries T st).*2 = [a].
Proof.
  intros (Hnd & _ & Hu) Ha Hl. apply dict_get_elem in Ha; [|done].
  apply list_elem_of_split in Ha as (l1 & l2 & Heq). rewrite Heq in *. rewrite fmap_app, fmap_cons, filter_app.
  assert (∀ l, l ⊆ l1 ++ l2 → filter (λ a, tb_line T a = n) l.*2 = []) as Hf.
  { intros l Hsub. apply filter_none, Forall_fmap, Forall_forall. intros [id b] Hin Hb. simpl in Hb.
    assert (id = i) as ->. { apply (Hu id b); [|done]. apply dict_get_elem; [done|]. set_solver. }
    rewrite fmap_app, fmap_cons in Hnd. apply NoDup_app in Hnd as (_ & Hd & Hnd). apply NoDup_cons in Hnd as [Hn2 _].
    simpl in *. apply Hsub in Hin. apply elem_of_app in Hin as [Hin|Hin]; apply (list_elem_of_fmap_2 fst) in Hin; simpl in Hin; [|done].
    apply (Hd i); [done|]. by left. }
  rewrite (Hf l1), filter_cons_True, (Hf l2) by set_solver || done. done.
Qed.

Lemma run_trace_app tr1 tr2 n st :
  run_trace ts_ns_of n (tr1 ++ tr2) st =
  run_trace ts_ns_of (n + Z.of_nat (length tr1)) tr2 (run_trace ts_ns_of n tr1 st).
Proof using Type.
  revert n st. induction tr1 as [|[e r] tr1 IH]; intros n st; cbn [app length run_trace].
  { by rewrite Z.add_0_r. }
  rewrite IH. f_equal. lia.
Qed.

(** The entry of the record on the line of its header, with the rows that follow. *)
Lemma entry_collected f ks tr1 e hdr tr2 a0 :
  let n := 1 + Z.of_nat (length tr1) in
  wf_trace (tr1 ++ (e, hdr) :: tr2) →
  (∀ st, tb_entries T (dispatch n (en_pid e) (en_ts ts_ns_of e) (key_of hdr) (dict_of hdr) st).2 =
    dict_set i a0 (tb_entries T st)) →
  tb_line T a0 = n → Forall (λ er, ¬ opens er.2) tr2 →
  filter is_row tr2.*2 = (λ k, row_rec (tb_row T) i k (f k)) <$> ks →
  filter (λ a, tb_line T a = n) (tb_entries T (run_trace ts_ns_of 1 (tr1 ++ (e, hdr) :: tr2) pstate0)).*2 =
    [with_rows f ks a0].
Proof using All.
  intros n Hwf Hhdr Hline Hno Hks. apply Forall_app in Hwf as [Hwf1 Hwf2]. apply Forall_cons in Hwf2 as [[He Hr] Hwf2].
  rewrite run_trace_app. fold n. set (s1 := run_trace ts_ns_of 1 tr1 pstate0).
  assert (lines_below n s1 ∧ st_ok s1) as [Hbelow Hok].
  { apply (run_trace_ind ts_ns_of (λ m s, lines_below m s ∧ st_ok s)); [done|done| |].
    - split; [|done]. unfold lines_below. rewrite rl_init. split; [constructor|done].
    - intros m e' r' s s' _ _ [Hl Hs] _ _ Hch. split; [by eapply lines_below_step|by eapply change_ok]. }
  cbn [run_trace]. set (s2 := (dispatch n _ _ _ _ s1).2).
  destruct (dispatch_change n (en_pid e) (en_ts ts_ns_of e) (key_of hdr) (dict_of hdr) s1 (printable_typed hdr Hr) Hok) as [_ Hch].
  fold s2 in Hch. pose proof (change_ok _ _ _ _ _ Hch Hok) as Hok2. pose proof (Hhdr s1) as Hs2. fold s2 in Hs2.
  assert (line_unique n (n + 1) s2) as Hu.
  { destruct Hbelow as [Hnd Hl]. unfold line_unique. rewrite Hs2. split_and!; [by apply dict_set_NoDup|lia|].
    intros id a. rewrite dict_get_set. destruct (Z.eqb_spec i id); [done|]. intros Ha. specialize (Hl _ _ Ha). lia. }
  assert (line_unique n (n + 1 + Z.of_nat (length tr2)) (run_trace ts_ns_of (n + 1) tr2 s2)) as Hu'.
  { apply (run_trace_ind ts_ns_of (line_unique n)); [done|done|done|].
    intros m e' r' s s' _ _ Hl _ _ Hc. by eapply line_unique_step. }
  eapply entry_of_line; [done| |].
  - apply rows_collected; [done|done| |done|done]. by rewrite Hs2, dict_get_set, Z.eqb_refl.
  - rewrite <-Hline. clear -RowLaws0. revert a0. induction ks as [|k ks IH]; intros a0; [done|].
    change (with_rows f (k :: ks) a0) with (with_rows f ks (tb_place T (4 * k) (f k) a0)). by rewrite IH, rl_line.
Qed.
End table.

(** ** Rows in any order *)

Section fill.
Context (f : nat → list Z) (Hf : ∀ k, length (f k) = 4%nat).

(** The dwords after the rows [ks]: up to the last row, with each row in its place. *)
Record filled (ks : list nat) (dws : list Z) : Prop := Filled {
  fi_len : ∃ m, length dws = (4 * m)%nat ∧ (∀ k, k ∈ ks → (k < m)%nat) ∧ (m = O ∨ pred m ∈ ks);
  fi_row : ∀ k q, k ∈ ks → (q < 4)%nat → dws !! (k * 4 + q)%nat = f k !! q }.

Lemma placed_length dws k : length (placed dws (4 * k) (f k)) = Nat.max (length dws) (4 * S k).
Proof using Hf. unfold placed. rewrite length_inserts, zero_extend_length, Hf. lia. Qed.

Lemma filled_place ks dws k : filled ks dws → filled (ks ++ [k]) (placed dws (4 * k) (f k)).
Proof using Hf.
  intros [(m & Hlen & Hks & Hm) Hrow]. split.
  - exists (Nat.max m (S k)). rewrite placed_length, Hlen. split_and!; [lia| |].
    + intros k' [Hk'|Hk']%elem_of_app; [specialize (Hks k' Hk'); lia|]. apply list_elem_of_singleton in Hk'. lia.
    + right. destruct (decide (S k ≤ m)%nat) as [Hle|Hgt].
      * rewrite Nat.max_l by done. destruct Hm; [lia|]. set_solver.
      * rewrite Nat.max_r by lia. set_solver.
  - intros k' q Hk' Hq. unfold placed. destruct (decide (k' = k)) as [->|Hne].
    + rewrite list_lookup_inserts; [f_equal; lia|rewrite Hf; lia|rewrite zero_extend_length, Hf; lia].
    + assert (k' ∈ ks) as Hin by set_solver. specialize (Hks k' Hin).
      assert (list_inserts (4 * k) (f k) (zero_extend (Z.of_nat (4 * k) + Z.of_nat (length (f k))) dws) !! (k' * 4 + q)%nat =
              zero_extend (Z.of_nat (4 * k) + Z.of_nat (length (f k))) dws !! (k' * 4 + q)%nat) as ->.
      { destruct (decide (k' < k)%nat); [apply list_lookup_inserts_lt; lia|apply list_lookup_inserts_ge; rewrite Hf; lia]. }
      unfold zero_extend. rewrite lookup_app_l by lia. by apply Hrow.
Qed.

Lemma filled_rows ks : filled ks (foldl (λ dws k, placed dws (4 * k) (f k)) [] ks).
Proof using Hf.
  induction ks as [|k ks IH] using rev_ind; [split; [exists O; set_solver|set_solver]|].
  rewrite foldl_app. by apply filled_place.
Qed.

Lemma filled_all n dws : filled (seq 0 n) dws → dws = mjoin (f <$> seq 0 n).
Proof using Hf.
  intros [(m & Hlen & Hks & Hm) Hrow]. assert (m = n) as ->.
  { destruct Hm as [->|Hm]; [destruct n as [|n]; [done|]; specialize (Hks n); rewrite elem_of_seq in Hks; lia|].
    rewrite elem_of_seq in Hm. destruct n as [|n]; [lia|]. specialize (Hks n). rewrite elem_of_seq in Hks. lia. }
  assert (Forall (λ l, length l = 4%nat) (f <$> seq 0 n)) as Hlens by (apply Forall_fmap, Forall_true; intros; apply Hf).
  apply list_eq. intros x. apply option_eq. intros v.
  rewrite (Nat.div_mod_eq x 4), (Nat.mul_comm 4) by done. pose proof (Nat.mod_upper_bound x 4).
  rewrite (join_lookup_Some_same_length' 4) by (done || lia). set (j := (x / 4)%nat). set (q := (x mod 4)%nat). split.
  - intros Hv. assert (j < n)%nat as Hj by (apply lookup_lt_Some in Hv; lia). exists (f j).
    rewrite list_lookup_fmap, lookup_seq_lt by done. split; [done|]. rewrite <-Hrow; [done|apply elem_of_seq; lia|lia].
  - intros (l & Hl & Hlq). apply list_lookup_fmap_Some in Hl as (j' & -> & Hj'). apply lookup_seq in Hj' as [-> Hj'].
    rewrite Hrow; [done|apply elem_of_seq; lia|lia].
Qed.

Lemma filled_perm ks ks' dws : ks ≡ₚ ks' → filled ks dws → filled ks' dws.
Proof using Type.
  intros Hp [(m & Hlen & Hks & Hm) Hrow]. split.
  - exists m. split_and!; [done| |].
    + intros k. rewrite <-Hp. apply Hks.
    + by rewrite <-Hp.
  - intros k q. rewrite <-Hp. apply Hrow.
Qed.

(** Rows 0 to [n - 1], in whatever order, give the dwords of all of them. *)
Lemma place_rows n ks : ks ≡ₚ seq 0 n → foldl (λ dws k, placed dws (4 * k) (f k)) [] ks = mjoin (f <$> seq 0 n).
Proof using Hf. intros Hp. apply filled_all, (filled_perm ks); [done|]. apply filled_rows. Qed.
End fill.

(** ** The rows the driver prints *)

Definition row_vals (buf : Z → Z) (k : nat) : list Z := MC_ARR4V buf (4 * Z.of_nat k).

Lemma trace_rec_on mask c ev fs : mc_enabled mask c →
  trace_rec mask c ev fs = [McRecord (cat_text c) (codes ev) ((λ f, (codes f.1, f.2)) <$> fs)].
Proof. intros H. unfold trace_rec. unfold mc_enabled in H. by rewrite (proj2 (Z.eqb_neq _ _)). Qed.

Lemma trace_row_on mask ev id k vals : mc_enabled mask body → (k < 64)%nat →
  trace_row mask ev id (4 * Z.of_nat k) vals = [row_rec ev id k vals].
Proof.
  intros Hm Hk. unfold trace_row. rewrite trace_rec_on by done. rewrite u32_small by (unfold is_u32; lia).
  unfold row_rec. by replace (4 * Z.of_nat k * 4) with (16 * Z.of_nat k) by lia.
Qed.

Lemma trace_rows_spec mask ev id buf nd fuel : ∀ k, mc_enabled mask body → 0 ≤ nd ≤ 128 → (k ≤ 32)%nat →
  nd - 4 * Z.of_nat k < 4 * Z.of_nat (S fuel) →
  let c := Z.to_nat ((nd - 4 * Z.of_nat k) / 4) in
  trace_rows mask fuel ev id buf nd (4 * Z.of_nat k) =
    ((λ k, row_rec ev id k (row_vals buf k)) <$> seq k c, 4 * Z.of_nat (k + c)).
Proof.
  induction fuel as [|fuel IH]; intros k Hm Hnd Hk Hfuel c; cbn [trace_rows].
  { rewrite (proj2 (Z.ltb_ge _ _)) by lia. assert (c = O) as -> by (unfold c; zify_divmod). simpl. do 2 f_equal. lia. }
  destruct (Z.ltb_spec (4 * Z.of_nat k + 3) nd) as [Hlt|Hge]; cycle 1.
  { assert (c = O) as -> by (unfold c; zify_divmod). simpl. do 2 f_equal. lia. }
  assert (c = S (Z.to_nat ((nd - 4 * Z.of_nat (S k)) / 4))) as Hc by (unfold c; zify_divmod).
  replace (4 * Z.of_nat k + 4) with (4 * Z.of_nat (S k)) by lia. rewrite IH by (done || lia).
  rewrite trace_row_on by (done || lia). rewrite Hc. cbn [seq fmap list_fmap app]. f_equal. lia.
Qed.

Lemma alloc_size_range acc psz : is_u32 psz → let nd := alloc_ndwords (alloc_params_size acc psz) in 0 < nd ≤ 128.
Proof.
  intros Hp. unfold alloc_ndwords, alloc_params_size. set (sz := if acc then psz else 0).
  set (p := if (sz =? 0) || (512 <? sz) then 512 else sz).
  assert (1 ≤ p ≤ 512) as Hp'.
  { unfold p. destruct (Z.eqb_spec sz 0); [simpl; lia|]. destruct (Z.ltb_spec 512 sz); simpl; [lia|].
    unfold sz, is_u32 in *. destruct acc; lia. }
  assert (Z.land (u32 (p + 3)) (Z.lxor 0xffffffff 3) = (p + 3) / 4 * 4) as ->.
  { rewrite u32_small by (unfold is_u32; lia).
    change (Z.lxor 4294967295 3) with (Z.ldiff (Z.ones 32) (Z.ones 2)). rewrite Z.ldiff_land, Z.land_assoc, Z.land_ones by lia.
    rewrite Z.mod_small by lia. by rewrite <-Z.ldiff_land, Z.ldiff_ones_r, Z.shiftr_div_pow2, Z.shiftl_mul_pow2 by lia. }
  rewrite Z.div_mul by lia. destruct (Z.ltb_spec 128 ((p + 3) / 4)); zify_divmod.
Qed.

Lemma alloc_params_rows mask id ptr acc psz copy data :
  let nd := alloc_ndwords (alloc_params_size acc psz) in
  let buf := λ i, if i <? nd then data i else 0 in
  mc_enabled mask body → ptr ≠ 0 → is_u32 psz → copy (nd * 4) = Some data →
  ∃ h, key_of h = (codes "body", codes "alloc_hdr") ∧
    mc_trace_alloc_params mask id ptr acc psz copy =
      h :: ((λ k, row_rec "alloc_row" id k (row_vals buf k)) <$> seq 0 (Z.to_nat ((nd + 3) / 4))).
Proof.
  intros nd buf Hm Hptr Hpsz Hcopy. pose proof (alloc_size_range acc psz Hpsz) as Hnd. fold nd in Hnd. cbn zeta in Hnd.
  unfold mc_trace_alloc_params. rewrite (proj2 (Z.eqb_neq _ _) Hm), (proj2 (Z.eqb_neq _ _) Hptr). cbn [orb].
  fold nd. rewrite Hcopy. fold buf. rewrite trace_rec_on by done. eexists. split; [|cbn [app]; f_equal]; [done|].
  pose proof (trace_rows_spec mask "alloc_row" id buf nd 32 0) as Hrows. change (4 * Z.of_nat 0) with 0 in Hrows.
  rewrite Hrows by (done || lia). rewrite Z.sub_0_r. cbn [Nat.add].
  set (c := Z.to_nat (nd / 4)). destruct (Z.ltb_spec (4 * Z.of_nat c) nd) as [Hlt|Hge].
  - assert (Z.to_nat ((nd + 3) / 4) = S c) as -> by (unfold c; zify_divmod).
    rewrite seq_S, fmap_app. f_equal. rewrite trace_row_on by (done || (unfold c; zify_divmod)). cbn [fmap list_fmap Nat.add].
    do 2 f_equal. unfold row_vals, MC_ARR4V. cbn [Z.add]. unfold buf.
    repeat f_equal; repeat match goal with |- context [Z.ltb ?a ?b] => destruct (Z.ltb_spec a b) end; cbn [andb]; (done || (f_equal; lia) || lia).
  - assert (Z.to_nat ((nd + 3) / 4) = c) as -> by (unfold c in *; zify_divmod). by rewrite app_nil_r.
Qed.

Lemma join_row_vals buf m : mjoin (row_vals buf <$> seq 0 m) = buf <$> seqZ 0 (4 * Z.of_nat m).
Proof.
  induction m as [|m IH]; [done|]. rewrite seq_S, fmap_app, join_app, IH. replace (4 * Z.of_nat (S m)) with (4 * Z.of_nat m + 4) by lia.
  rewrite seqZ_app, fmap_app by lia. f_equal. unfold row_vals, MC_ARR4V.
  rewrite !seqZ_cons, seqZ_nil by lia. cbn. repeat f_equal; lia.
Qed.

Lemma zero_padded data nd n : 0 ≤ nd ≤ n →
  (λ i, if i <? nd then data i else 0) <$> seqZ 0 n = (data <$> seqZ 0 nd) ++ replicate (Z.to_nat (n - nd)) 0.
Proof.
  intros Hn. replace n with (nd + (n - nd)) at 1 by lia. rewrite seqZ_app, fmap_app by lia. f_equal.
  - apply list_fmap_ext. intros j x Hx. apply lookup_seqZ in Hx as [-> Hx]. by rewrite (proj2 (Z.ltb_lt _ _)) by lia.
  - apply list_eq_same_length with (n := Z.to_nat (n - nd)); rewrite ?length_fmap, ?length_seqZ, ?length_replicate; try done.
    intros j x y Hj Hx Hy. apply list_lookup_fmap_Some in Hx as (z & -> & Hz). apply lookup_seqZ in Hz as [-> Hz].
    apply lookup_replicate in Hy as [-> _]. by rewrite (proj2 (Z.ltb_ge _ _)) by lia.
Qed.

(** ** The events of the tables *)

Lemma filter_bind_one {A B} (P : B → Prop) `{∀ x, Decision (P x)} (Q : A → Prop) `{∀ x, Decision (Q x)} (g : A → list B) (g' : A → B) l :
  (∀ x, filter P (g x) = if decide (Q x) then [g' x] else []) → filter P (l ≫= g) = g' <$> filter Q l.
Proof.
  intros Hg. induction l as [|x l IH]; [done|]. rewrite bind_cons, filter_app, Hg, IH. rewrite filter_cons.
  by destruct (decide (Q x)).
Qed.

Definition no_table_event (e : event) : Prop := ev_kind e ≠ codes "alloc" ∧ ev_kind e ≠ codes "uvm_ioctl".

Lemma change_events n key d s s' : change n key d s s' →
  Forall no_table_event (p_events s) → Forall no_table_event (p_events s').
Proof.
  intros [((es & -> & Hes) & _)|[[_ [->|(? & ? & _ & -> & _)]]|[[_ [->|(? & ? & _ & -> & _)]]|[_ [_ _ _ _ (es & -> & Hes)]]]]] Hs;
    try done; apply Forall_app; (split; [done|]); (eapply Forall_impl; [exact Hes|]).
  - intros e (H1 & H2 & _). done.
  - intros e (q & _ & Hk & _). unfold no_table_event. by rewrite Hk.
Qed.

(** The event of an allocation, on the line of its header. *)
Definition on_line (kind : string) (n : Z) (e : event) : Prop := ev_kind e = codes kind ∧ ev_line e = n.
#[global] Instance on_line_dec kind n e : Decision (on_line kind n e).
Proof. unfold on_line. apply _. Defined.

Section events.
Context (unescape : text → option text) (ts_ns_of : text → Z) (tr : list (envelope * mc_record)) (Htr : wf_trace tr).

Lemma trace_no_table : Forall no_table_event (p_events (run_trace ts_ns_of 1 tr pstate0)).
Proof using Htr.
  apply (run_trace_ind ts_ns_of (λ _ s, Forall no_table_event (p_events s))); [done|done|constructor|].
  intros m e r s s' _ _ Hs _ _ Hch. by eapply change_events.
Qed.

Definition alloc_event (a : alloc_acc) : event :=
  Event (aa_line a) (aa_pid a) (codes "alloc")
    [OInt (aa_new a); OInt (aa_cls a); decode_alloc_body (aa_cls a) (aa_dwords a); OInt (aa_root a); OInt (aa_parent a)] (aa_ts a).

Definition uvm_event (u : uvm_acc) : event :=
  Event (ua_line u) (ua_pid u) (codes "uvm_ioctl") [OInt (ua_cmd u); OStr (uvm_name (ua_cmd u)); OInts (ua_dwords u)] (ua_ts u).

Lemma table_events : let st := run_trace ts_ns_of 1 tr pstate0 in
  ∃ evs, parse_ftrace unescape ts_ns_of (raw_lines tr) = inr evs ∧ ∀ n,
    filter (on_line "alloc" n) evs = alloc_event <$> filter (λ a, aa_line a = n) (p_alloc st).*2 ∧
    filter (on_line "uvm_ioctl" n) evs = uvm_event <$> filter (λ u, ua_line u = n) (p_uvm st).*2.
Proof using Htr.
  intros st. eexists. split; [by apply parse_ftrace_trace|]. intros n. fold st. cbn zeta. rewrite !filter_app.
  assert (∀ k, k = "alloc" ∨ k = "uvm_ioctl" → filter (on_line k n) (p_events st) = []) as Hp.
  { intros k Hk. apply filter_none. eapply Forall_impl; [apply trace_no_table|]. intros e [H1 H2] [H3 _].
    destruct Hk as [-> | ->]; [by apply H1|by apply H2]. }
  rewrite !Hp by auto. cbn [app]. split.
  - rewrite (filter_bind_one _ (λ a, aa_line a = n) flush_alloc alloc_event).
    + rewrite (filter_none _ ((p_uvm st).*2 ≫= flush_uvm)); [by rewrite app_nil_r|].
      apply Forall_bind, Forall_true. intros u. repeat constructor; intros [Hk _]; discriminate Hk.
    + intros a. unfold flush_alloc. rewrite filter_cons. unfold on_line at 1. cbn [ev_kind ev_line].
      destruct (decide (aa_line a = n)); [rewrite decide_True by done|rewrite decide_False by (intros [_ Hl]; done)]; done.
  - rewrite (filter_none _ ((p_alloc st).*2 ≫= flush_alloc)).
    + cbn [app]. apply filter_bind_one. intros u. unfold flush_uvm. rewrite !filter_cons, filter_nil.
      rewrite (decide_False (P:=on_line _ _ (Event _ _ (codes "ioctl") _ _))) by (intros [Hk _]; discriminate Hk).
      destruct (decide (ua_line u = n)); [by rewrite decide_True by done|].
      rewrite decide_False; [done|]. intros [_ Hl]. done.
    + apply Forall_bind, Forall_true. intros a. repeat constructor; intros [Hk _]; discriminate Hk.
Qed.
End events.

(** ** Headers *)

Definition alloc_header (id cls root parent new : Z) : mc_record :=
  McRecord (codes "rm") (codes "alloc")
    [(codes "id", MvDec id); (codes "hclass", MvHex 0 cls); (codes "root", MvHex 0 root);
     (codes "parent", MvHex 0 parent); (codes "new", MvHex 0 new)].

Definition uvm_header (id cmd : Z) : mc_record :=
  McRecord (codes "uvm") (codes "ioctl") [(codes "id", MvDec id); (codes "cmd", MvDec cmd)].

Lemma has_key_print r k v : driver_record r → (codes k, v) ∈ mr_fields r → has_key (dict_of r) (codes k) = true.
Proof.
  intros Hr Hin. unfold has_key. apply bool_decide_eq_true. unfold dict_of.
  rewrite (fields_dict_lookup _ _ _ (pr_nodup _ Hr) Hin). by eexists.
Qed.

Ltac read_field r k v := rewrite (bind_inr _ _ _ _ _ (get_int_some (dict_of r) k _ _
  (field_int_print r k v _ ltac:(assumption) ltac:(set_solver) eq_refl))).

Lemma alloc_header_step n p t id cls root parent new st : driver_record (alloc_header id cls root parent new) →
  let r := alloc_header id cls root parent new in
  p_alloc (dispatch n p t (key_of r) (dict_of r) st).2 = dict_set id (AllocAcc n p t cls root parent new []) (p_alloc st).
Proof.
  intros Hr r. fold r in Hr. assert (dispatch n p t (key_of r) (dict_of r) = on_alloc n p t (dict_of r)) as -> by reflexivity.
  unfold on_alloc. rewrite (has_key_print r "new" (MvHex 0 new)), (has_key_print r "id" (MvDec id)) by (done || set_solver).
  cbn [andb]. read_field r "hclass" (MvHex 0 cls). read_field r "root" (MvHex 0 root). read_field r "parent" (MvHex 0 parent).
  read_field r "new" (MvHex 0 new). read_field r "id" (MvDec id). done.
Qed.

Lemma uvm_header_step n p t id cmd st : driver_record (uvm_header id cmd) →
  let r := uvm_header id cmd in
  p_uvm (dispatch n p t (key_of r) (dict_of r) st).2 = dict_set id (UvmAcc n p t cmd []) (p_uvm st).
Proof.
  intros Hr r. fold r in Hr. assert (dispatch n p t (key_of r) (dict_of r) = on_uvm_ioctl n p t (dict_of r)) as -> by reflexivity.
  unfold on_uvm_ioctl. rewrite (has_key_print r "id" (MvDec id)), (has_key_print r "cmd" (MvDec cmd)) by (done || set_solver).
  cbn [andb]. read_field r "cmd" (MvDec cmd). read_field r "id" (MvDec id). done.
Qed.

Lemma alloc_with_rows f ks a : with_rows alloc_table f ks a =
  AllocAcc (aa_line a) (aa_pid a) (aa_ts a) (aa_cls a) (aa_root a) (aa_parent a) (aa_new a)
    (foldl (λ dws k, placed dws (4 * k) (f k)) (aa_dwords a) ks).
Proof.
  revert a. induction ks as [|k ks IH]; intros a; [by destruct a|].
  change (with_rows alloc_table f (k :: ks) a) with (with_rows alloc_table f ks (place_alloc (4 * k) (f k) a)). by rewrite IH.
Qed.

Lemma uvm_with_rows f ks u : with_rows uvm_table f ks u =
  UvmAcc (ua_line u) (ua_pid u) (ua_ts u) (ua_cmd u) (foldl (λ dws k, placed dws (4 * k) (f k)) (ua_dwords u) ks).
Proof.
  revert u. induction ks as [|k ks IH]; intros u; [by destruct u|].
  change (with_rows uvm_table f (k :: ks) u) with (with_rows uvm_table f ks (place_uvm (4 * k) (f k) u)). by rewrite IH.
Qed.

Lemma row_vals_length buf k : length (row_vals buf k) = 4%nat.
Proof. done. Qed.

(** C14: The parameters of an allocation reach the tools whole: when the driver prints the header and the
    rows of an NV_ESC_RM_ALLOC, and a capture has the header and then the rows, in whatever order and
    among whatever other records, the parser returns, and its one alloc event of the header's line has
    the handles of the call and the body decoded from the dwords the driver copied from the user, with
    zeros up to a full row. *)
Theorem alloc_body_reassembled unescape ts_ns_of mask id cls root parent new ptr acc psz copy data
    hdr sz rows tr1 e tr2 :
  let nd := alloc_ndwords (alloc_params_size acc psz) in
  let n := 1 + Z.of_nat (length tr1) in
  mc_enabled mask rm → mc_enabled mask body → ptr ≠ 0 → is_u32 psz → copy (nd * 4) = Some data →
  trace_alloc mask id cls root parent new ptr acc psz copy = hdr :: sz :: rows →
  wf_trace (tr1 ++ (e, hdr) :: tr2) →
  Forall (λ er, ¬ opens alloc_table id er.2) tr2 →
  filter (is_row alloc_table id) tr2.*2 ≡ₚ rows →
  ∃ evs, parse_ftrace unescape ts_ns_of (raw_lines (tr1 ++ (e, hdr) :: tr2)) = inr evs ∧
    filter (on_line "alloc" n) evs =
      [Event n (en_pid e) (codes "alloc")
         [OInt new; OInt cls;
          decode_alloc_body cls ((data <$> seqZ 0 nd) ++ replicate (Z.to_nat (4 * ((nd + 3) / 4) - nd)) 0);
          OInt root; OInt parent] (ts_ns_of (ts_text e))].
Proof.
  intros nd n Hrm Hbody Hptr Hpsz Hcopy Htrace Hwf Hno Hperm.
  destruct (alloc_params_rows mask id ptr acc psz copy data Hbody Hptr Hpsz Hcopy) as (h & _ & Hrows).
  unfold trace_alloc in Htrace. rewrite Hrows, trace_rec_on in Htrace by done. fold nd in Htrace. cbn [app] in Htrace.
  injection Htrace as <- _ <-. change (McRecord _ _ _) with (alloc_header id cls root parent new) in *.
  apply Permutation_map_inv in Hperm as (ks & Hks & Hp).
  destruct (table_events unescape ts_ns_of _ Hwf) as (evs & Hevs & Hev). exists evs. split; [done|].
  rewrite (proj1 (Hev n)). clear Hevs Hev evs. set (f := row_vals (λ i, if i <? nd then data i else 0)) in *.
  assert (driver_record (alloc_header id cls root parent new)) as Hr.
  { apply Forall_app in Hwf as [_ Hwf]. by apply Forall_cons in Hwf as [[_ ?] _]. }
  pose proof (entry_collected alloc_table ts_ns_of id f ks tr1 e (alloc_header id cls root parent new) tr2
    (AllocAcc n (en_pid e) (en_ts ts_ns_of e) cls root parent new []) Hwf) as Hc.
  cbn [tb_entries tb_line alloc_table] in Hc. fold n in Hc. rewrite Hc; [|by intros; apply alloc_header_step|done..].
  rewrite alloc_with_rows. cbn [aa_line aa_pid aa_ts aa_cls aa_root aa_parent aa_new aa_dwords].
  rewrite (place_rows f (row_vals_length _) _ ks (symmetry Hp)). unfold f. rewrite join_row_vals.
  pose proof (alloc_size_range acc psz Hpsz) as Hnd. fold nd in Hnd. cbn zeta in Hnd.
  rewrite Z2Nat.id, zero_padded by zify_divmod. done.
Qed.

Lemma uvm_params_rows mask id cmd arg copy data :
  mc_enabled mask uvm → mc_enabled mask body → arg ≠ 0 → copy 512 = Some data →
  ∃ m, m = 32%nat ∧ mc_trace_uvm_ioctl_params mask id cmd arg copy =
    uvm_header id cmd :: ((λ k, row_rec "uvm_row" id k (row_vals data k)) <$> seq 0 m).
Proof.
  intros Huvm Hbody Harg Hcopy. exists 32%nat. split; [done|]. unfold mc_trace_uvm_ioctl_params.
  rewrite trace_rec_on, (proj2 (Z.eqb_neq _ _) Hbody), (proj2 (Z.eqb_neq _ _) Harg), Hcopy by done.
  pose proof (trace_rows_spec mask "uvm_row" id data 128 32 0 Hbody) as Hrows. change (4 * Z.of_nat 0) with 0 in Hrows.
  cbn [orb]. by rewrite Hrows by lia.
Qed.

(** C15: The parameters of a UVM ioctl reach the tools whole: with the header and then its rows in a
    capture, in whatever order and among whatever other records, the parser's one uvm_ioctl event of the
    header's line has the command, its name and the 128 dwords the driver copied from the user. *)
Theorem uvm_params_reassembled unescape ts_ns_of mask id cmd arg copy data hdr rows tr1 e tr2 :
  let n := 1 + Z.of_nat (length tr1) in
  mc_enabled mask uvm → mc_enabled mask body → arg ≠ 0 → copy 512 = Some data →
  mc_trace_uvm_ioctl_params mask id cmd arg copy = hdr :: rows →
  wf_trace (tr1 ++ (e, hdr) :: tr2) →
  Forall (λ er, ¬ opens uvm_table id er.2) tr2 →
  filter (is_row uvm_table id) tr2.*2 ≡ₚ rows →
  ∃ evs, parse_ftrace unescape ts_ns_of (raw_lines (tr1 ++ (e, hdr) :: tr2)) = inr evs ∧
    filter (on_line "uvm_ioctl" n) evs =
      [Event n (en_pid e) (codes "uvm_ioctl") [OInt cmd; OStr (uvm_name cmd); OInts (data <$> seqZ 0 128)] (ts_ns_of (ts_text e))].
Proof.
  intros n Huvm Hbody Harg Hcopy Htrace Hwf Hno Hperm.
  destruct (uvm_params_rows mask id cmd arg copy data Huvm Hbody Harg Hcopy) as (m & Hm & Hrows).
  rewrite Hrows in Htrace. injection Htrace as <- <-. apply Permutation_map_inv in Hperm as (ks & Hks & Hp).
  destruct (table_events unescape ts_ns_of _ Hwf) as (evs & Hevs & Hev). exists evs. split; [done|].
  rewrite (proj2 (Hev n)). clear Hevs Hev evs.
  assert (driver_record (uvm_header id cmd)) as Hr.
  { apply Forall_app in Hwf as [_ Hwf]. by apply Forall_cons in Hwf as [[_ ?] _]. }
  pose proof (entry_collected uvm_table ts_ns_of id (row_vals data) ks tr1 e (uvm_header id cmd) tr2
    (UvmAcc n (en_pid e) (en_ts ts_ns_of e) cmd []) Hwf) as Hc.
  cbn [tb_entries tb_line uvm_table] in Hc. fold n in Hc. rewrite Hc; [|by intros; apply uvm_header_step|done..].
  rewrite uvm_with_rows. cbn [ua_line ua_pid ua_ts ua_cmd ua_dwords].
  rewrite (place_rows (row_vals data) (row_vals_length _) _ ks (symmetry Hp)). by rewrite join_row_vals, Hm.
Qed.

(** ** A capture with two allocations *)

Definition example_envelope (pid : Z) (sec : string) : envelope :=
  Envelope 2 (codes "cuda_reference") pid 2 (codes "014") (codes "d....") (codes sec) (codes "680905").

Definition example_copy (bytes : Z) : option (Z → Z) := Some (λ i, 0x100 + i).

Definition example_alloc : list mc_record :=
  trace_alloc 0x1ff 7 0xc86f 0xc1d00001 0x5c000001 0x5c000020 0x7ffe0000 true 22 example_copy.

Definition example_other : list mc_record :=
  trace_alloc 0x1ff 8 0x3e 0xc1d00001 0x5c000001 0x5c000021 0x7ffe1000 true 16 example_copy.

(** The two operations interleaved, the rows of the first out of order. *)
Definition example_capture_before : list (envelope * mc_record) :=
  (λ r, (example_envelope 31038 "2929", r)) <$> take 1 example_other.

Definition example_capture_after : list (envelope * mc_record) :=
  (λ r, (example_envelope 31040 "2930", r)) <$> drop 1 example_other ++ reverse (drop 1 example_alloc).

Lemma wf_traceb tr : forallb (λ er, wf_envelopeb er.1 && printableb er.2) tr = true → wf_trace tr.
Proof.
  intros H%forallb_Forall. eapply Forall_impl; [exact H|]. intros [e r] [H1 H2]%andb_true_iff.
  split; [by apply wf_envelopeb_ok|by apply printableb_ok].
Qed.

Lemma reversed_permutation {A} (l l' : list A) : l = reverse l' → l ≡ₚ l'.
Proof. intros ->. apply reverse_Permutation. Qed.

Lemma alloc_body_reassembled_witness :
  ∃ hdr evs, head example_alloc = Some hdr ∧
    parse_ftrace Some (λ _, 5)
      (raw_lines (example_capture_before ++ (example_envelope 31039 "2930", hdr) :: example_capture_after)) = inr evs ∧
    filter (on_line "alloc" 2) evs =
      [Event 2 31039 (codes "alloc")
         [OInt 0x5c000020; OInt 0xc86f;
          OBody (codes "channel")
            [(codes "gpFifoOffset", 0x10300000102); (codes "gpFifoEntries", 0x104); (codes "flags", 0x105);
             (codes "hContextShare", 0); (codes "hVASpace", 0)];
          OInt 0xc1d00001; OInt 0x5c000001] 5].
Proof.
  destruct (alloc_body_reassembled Some (λ _, 5) 0x1ff 7 0xc86f 0xc1d00001 0x5c000001 0x5c000020 0x7ffe0000 true 22
    example_copy (λ i, 0x100 + i) (default (alloc_header 0 0 0 0 0) (head example_alloc)) (default (alloc_header 0 0 0 0 0) (example_alloc !! 1%nat))
    (drop 2 example_alloc) example_capture_before (example_envelope 31039 "2930") example_capture_after) as (evs & Hevs & Hev).
  - done.
  - done.
  - done.
  - unfold is_u32. lia.
  - done.
  - vm_compute. reflexivity.
  - apply wf_traceb. vm_compute. reflexivity.
  - apply (bool_decide_unpack _). vm_compute. exact I.
  - apply reversed_permutation. vm_compute. reflexivity.
  - exists (default (alloc_header 0 0 0 0 0) (head example_alloc)), evs. split; [vm_compute; reflexivity|]. split; [exact Hevs|].
    etrans; [exact Hev|]. vm_compute. reflexivity.
Defined.

Lemma uvm_params_reassembled_witness :
  ∃ hdr evs, head (mc_trace_uvm_ioctl_params 0x1ff 9 37 1 example_copy) = Some hdr ∧
    parse_ftrace Some (λ _, 5)
      (raw_lines (example_capture_before ++ (example_envelope 31039 "2930", hdr) ::
        ((λ r, (example_envelope 31040 "2931", r)) <$> reverse (drop 1 (mc_trace_uvm_ioctl_params 0x1ff 9 37 1 example_copy))))) = inr evs ∧
    filter (on_line "uvm_ioctl" 2) evs =
      [Event 2 31039 (codes "uvm_ioctl") [OInt 37; OStr (codes "UVM_REGISTER_GPU"); OInts ((λ i, 0x100 + i) <$> seqZ 0 128)] 5].
Proof.
  set (rs := mc_trace_uvm_ioctl_params 0x1ff 9 37 1 example_copy).
  destruct (uvm_params_reassembled Some (λ _, 5) 0x1ff 9 37 1 example_copy (λ i, 0x100 + i) (uvm_header 9 37) (drop 1 rs)
    example_capture_before (example_envelope 31039 "2930") ((λ r, (example_envelope 31040 "2931", r)) <$> reverse (drop 1 rs)))
    as (evs & Hevs & Hev).
  - done.
  - done.
  - done.
  - done.
  - vm_compute. reflexivity.
  - apply wf_traceb. vm_compute. reflexivity.
  - apply (bool_decide_unpack _). vm_compute. exact I.
  - apply reversed_permutation. vm_compute. reflexivity.
  - exists (uvm_header 9 37), evs. split; [vm_compute; reflexivity|]. split; [exact Hevs|].
    etrans; [exact Hev|]. vm_compute. reflexivity.
Defined.

(** ** Lines that do not come whole, or not in this order *)

Definition example_line (s : string) : text :=
  codes "  cuda_reference-31039   [014] d....  2930.680905: nv_trace_printf: " ++ codes s ++ [10].

(** A row cut inside its array is not skipped: the characters after the bracket are taken as a list, without
    the last one, and the dwords read from them are stored. *)
Lemma torn_row_stored :
  parse_ftrace Some (λ _, 5)
    [example_line "mc1 rm/alloc id=7 hclass=0x3e root=0x1 parent=0x2 new=0x3";
     example_line "mc1 body/alloc_row id=7 off=0x000 dw=[0x00000100,0x00c0ffee"] =
  inr [Event 1 31039 (codes "alloc")
         [OInt 3; OInt 0x3e; OBody (codes "main") [(codes "owner", 0x100); (codes "type", 0xc0ffe)]; OInt 1; OInt 2] 5].
Proof. vm_compute. reflexivity. Qed.

(** A row that stands before its header is lost. *)
Lemma early_row_lost :
  parse_ftrace Some (λ _, 5)
    [example_line "mc1 body/alloc_row id=7 off=0x000 dw=[0x00000100,0x00000101,0x00000102,0x00000103]";
     example_line "mc1 rm/alloc id=7 hclass=0x3e root=0x1 parent=0x2 new=0x3"] =
  inr [Event 2 31039 (codes "alloc") [OInt 3; OInt 0x3e; OBody [] []; OInt 1; OInt 2] 5].
Proof. vm_compute. reflexivity. Qed.

(** A chunk cut inside its digits completes the dump, which is then short. *)
Lemma torn_chunk_completes :
  parse_ftrace Some (λ _, 5) [example_line "mc1 pb/bytes seq=1846 chid=3 idx=0 chunk=0 nchunks=1 off=0 hex=00800"] =
  inr [Event 1 31039 (codes "pb_bytes") [OInt 1846; OInt 3; OInt 0; OInt 2; OStr (codes "00800")] 5].
Proof. vm_compute. reflexivity. Qed.

(** A task whose name has a space is not matched by the envelope, and its records are lost. *)
Lemma spaced_task_lost :
  parse_ftrace Some (λ _, 5)
    [codes "  Web Content-31039   [014] d....  2930.680905: nv_trace_printf: mc1 rm/ioctl esc=0x2b" ++ [10]] = inr [].
Proof. vm_compute. reflexivity. Qed.
