(* ===== verification/TraceDump.v ===== *)
(** * Pushbuffer dumps through the trace: from the trap handler to the tools' events

    The trap handler (DbellHandler) dumps a pushbuffer segment as pb/bytes records of 64 bytes
    each, with the sequence number of the doorbell. The tools collect the chunks by sequence
    number and join them in the order of their offsets. The theorem goes from the bytes the
    handler read to the event the tools report, through the printed lines. *)

From stdpp Require Import base numbers list gmap strings sorting.
From S2P Require Import Prelude Kernel Trackers KthreadQ DbellCache DbellHandler TraceText FtraceParse TraceBodies.
#[local] Open Scope Z_scope.

(** The text of a pb record of the trap handler. *)
Definition pb_field (f : string * fval) : mc_field :=
  (codes f.1,
   match f.2 with
   | FDec z => MvDec z
   | FHex z => MvHex (if String.eqb f.1 "entry0" || String.eqb f.1 "entry1" then 8 else 0) z
   | FStr s => MvStr (codes s)
   end).

Definition pb_record (e : keff) : option mc_record :=
  match e with
  | KTrace pb ev fs => Some (McRecord (codes "pb") (codes ev) (pb_field <$> fs))
  | _ => None
  end.


(** * The chunks the handler prints *)

Definition ascii_codes (l : list Ascii.ascii) : text := (λ c, Z.of_N (Ascii.N_of_ascii c)) <$> l.

Lemma codes_of_ascii l : codes (String.string_of_list_ascii l) = ascii_codes l.
Proof. induction l as [|c l IH]; [done|]. cbn. by rewrite IH. Qed.

Section dump.
Context (mem : Z → Z) (seq_no chid idx kva len : Z).

(** The digits of chunk [k] and its record. *)
Definition chunk_hex (k : nat) : text :=
  let off := 64 * Z.of_nat k in ascii_codes (hex_bytes (mem_bytes mem (kva + off) (Z.min 64 (len - off)))).

Definition chunk_rec (nt : Z) (k : nat) : mc_record :=
  McRecord (codes "pb") (codes "bytes")
    [(codes "seq", MvDec seq_no); (codes "chid", MvDec chid); (codes "idx", MvDec idx);
     (codes "chunk", MvDec (Z.of_nat k)); (codes "nchunks", MvDec nt); (codes "off", MvDec (64 * Z.of_nat k));
     (codes "hex", MvStr (chunk_hex k))].

Lemma omap_reads (a : Z → Z) l : omap pb_record ((λ k, KRead (a k) 1) <$> l) = [].
Proof. induction l as [|x l IH]; [done|]. done. Qed.

Lemma emit_chunks_print mask nt fuel : mc_enabled mask pb → ∀ k s, len ≤ 4096 → (k ≤ 64)%nat → len - 64 * Z.of_nat k ≤ 64 * Z.of_nat fuel →
  omap pb_record (run_eff (emit_chunks mask mem fuel seq_no chid idx nt kva len (Z.of_nat k) (64 * Z.of_nat k)) s) =
  chunk_rec nt <$> seq k (Z.to_nat ((len - 64 * Z.of_nat k + 63) / 64)).
Proof.
  intros Hpb. induction fuel as [|fuel IH]; intros k s Hlen Hk Hf; cbn [emit_chunks];
    (destruct (Z.ltb_spec (64 * Z.of_nat k) len) as [Hlt|Hge]; cycle 1;
      [replace (Z.to_nat ((len - 64 * Z.of_nat k + 63) / 64)) with O by zify_divmod; done|]).
  { lia. }
  autorewrite with run. rewrite run_eff_bind, mc_trace_st, mc_trace_eff by done.
  rewrite !omap_app, (omap_reads (λ j, kva + (64 * Z.of_nat k + j))). cbn [app].
  replace (Z.of_nat k + 1) with (Z.of_nat (S k)) by lia.
  replace (u32 (64 * Z.of_nat k + CHUNK)) with (64 * Z.of_nat (S k))
    by (unfold CHUNK; rewrite u32_small by (unfold is_u32; lia); lia).
  rewrite IH by lia.
  replace (Z.to_nat ((len - 64 * Z.of_nat k + 63) / 64)) with (S (Z.to_nat ((len - 64 * Z.of_nat (S k) + 63) / 64))) by zify_divmod.
  cbn [seq fmap list_fmap]. cbn [omap list_omap pb_record app]. f_equal. unfold chunk_rec, chunk_hex. cbn [fmap list_fmap pb_field fst snd].
  replace (if len - 64 * Z.of_nat k <? CHUNK then len - 64 * Z.of_nat k else CHUNK) with (Z.min 64 (len - 64 * Z.of_nat k))
    by (unfold CHUNK; destruct (Z.ltb_spec (len - 64 * Z.of_nat k) 64); lia).
  unfold pb_field. cbn [fst snd]. by rewrite codes_of_ascii.
Qed.

(** The records of the dump of a segment. *)
Lemma emit_pb_bytes_print mask va s : mc_enabled mask pb → kva = nv_dbell_sysmem_gpu_va_to_kva (d_sysmem s) va len → kva ≠ NULL → 0 < len ≤ 4096 →
  omap pb_record (run_eff (emit_pb_bytes mask mem seq_no chid idx va len) s) =
  chunk_rec ((len + 63) / 64) <$> seq 0 (Z.to_nat ((len + 63) / 64)).
Proof.
  intros Hpb Hkva Hnn Hlen. unfold emit_pb_bytes. rewrite (proj2 (Z.ltb_lt _ _)), (proj2 (Z.leb_le _ _)) by lia. cbn [andb].
  autorewrite with run. rewrite <-Hkva, (proj2 (Z.eqb_neq _ _) Hnn). cbn [negb].
  pose proof (emit_chunks_print mask (pb_chunks_total len) 64 Hpb 0 s) as Hc. change (64 * Z.of_nat 0) with 0 in Hc.
  change (Z.of_nat 0) with 0 in Hc. rewrite Hc by lia. rewrite Z.sub_0_r. unfold pb_chunks_total, CHUNK.
  rewrite u32_small by (unfold is_u32; lia). by replace (len + 64 - 1) with (len + 63) by lia.
Qed.

(** The digits of all chunks are those of the segment. *)
Lemma join_chunk_hex j : 0 ≤ len → 64 * Z.of_nat j < len + 64 →
  mjoin (chunk_hex <$> seq 0 j) = ascii_codes (hex_bytes (mem_bytes mem kva (Z.min (64 * Z.of_nat j) len))).
Proof.
  intros Hlen. induction j as [|j IH]; intros Hj.
  { cbn. by rewrite mem_bytes_nil by lia. }
  rewrite seq_S, fmap_app, join_app, IH by lia. cbn [Nat.add fmap list_fmap mjoin list_join]. rewrite app_nil_r.
  unfold chunk_hex. cbn zeta. rewrite (Z.min_l (64 * Z.of_nat j)) by lia.
  replace (Z.min (64 * Z.of_nat (S j)) len) with (64 * Z.of_nat j + Z.min 64 (len - 64 * Z.of_nat j)) by lia.
  rewrite mem_bytes_app by lia. unfold hex_bytes. rewrite bind_app. unfold ascii_codes. by rewrite fmap_app.
Qed.

Lemma hex_length bs : length (ascii_codes (hex_bytes bs)) = (2 * length bs)%nat.
Proof.
  unfold ascii_codes. rewrite length_fmap. induction bs as [|b bs IH]; [done|].
  change (hex_bytes (b :: bs)) with (hex_byte b ++ hex_bytes bs). rewrite length_app, IH. simpl. lia.
Qed.

(** * The chunks the parser collects *)

Definition chunks (ks : list nat) : gmap Z pyval :=
  list_to_map ((λ k, (64 * Z.of_nat k, PStr (chunk_hex k))) <$> ks).

Lemma chunk_keys (ks : list nat) : ((λ k, (64 * Z.of_nat k, PStr (chunk_hex k))) <$> ks).*1 = (λ k, 64 * Z.of_nat k) <$> ks.
Proof. by rewrite <-list_fmap_compose. Qed.

Lemma chunk_keys_NoDup ks : NoDup ks → NoDup ((λ k, 64 * Z.of_nat k) <$> ks).
Proof. intros Hnd. apply NoDup_fmap_2; [|done]. intros x y Hxy. simpl in Hxy. lia. Qed.

Lemma chunks_size ks : NoDup ks → size (chunks ks) = length ks.
Proof.
  induction 1 as [|k ks Hk Hnd IH]; [done|]. unfold chunks in *. cbn [fmap list_fmap list_to_map foldr length].
  rewrite map_size_insert_None; [by rewrite IH|]. apply not_elem_of_list_to_map. rewrite chunk_keys.
  intros Hin. apply list_elem_of_fmap in Hin as (k' & Heq & Hin). simpl in Heq. assert (k = k') as -> by lia. done.
Qed.

(** All chunks, in the order of their offsets. *)
Lemma chunks_texts ks m : ks ≡ₚ seq 0 m → chunk_texts (chunks ks) = Some (chunk_hex <$> seq 0 m).
Proof.
  intros Hp. assert (NoDup ks) as Hnd by (rewrite Hp; apply NoDup_seq).
  assert (sorted_keys (chunks ks) = (λ k, 64 * Z.of_nat k) <$> seq 0 m) as Hkeys.
  { unfold sorted_keys, chunks. apply (StronglySorted_unique Z.le).
    - apply StronglySorted_merge_sort; apply _.
    - generalize 0%nat. clear. induction m as [|m IH]; intros j; cbn; constructor; [apply IH|].
      apply Forall_fmap, Forall_forall. intros x Hx%elem_of_seq. simpl. lia.
    - rewrite (merge_sort_Permutation Z.le), <-Hp, map_to_list_to_map by (rewrite chunk_keys; by apply chunk_keys_NoDup).
      by rewrite chunk_keys. }
  unfold chunk_texts. rewrite Hkeys. apply mapM_Some_2, Forall2_fmap, Forall_Forall2_diag, Forall_forall.
  intros k Hk. simpl. unfold chunks.
  rewrite (elem_of_list_to_map_1 _ (64 * Z.of_nat k) (PStr (chunk_hex k))); [done|rewrite chunk_keys; by apply chunk_keys_NoDup|].
  apply list_elem_of_fmap. exists k. split; [done|]. by rewrite Hp.
Qed.

Lemma find_acc_eq n p t d nt st : field_int d "chid" = Some chid → field_int d "idx" = Some idx → field_int d "nchunks" = Some nt →
  let acc := default (PbAcc n p t chid idx nt ∅) (p_pb st !! seq_no) in
  find_acc n p t d seq_no st = (inr acc, PState (p_events st) (p_alloc st) (p_uvm st) (<[seq_no := acc]> (p_pb st))).
Proof.
  intros H1 H2 H3 acc. unfold find_acc. rewrite (bind_inr _ _ st (p_pb st) st) by done. unfold acc.
  destruct (p_pb st !! seq_no) as [a|] eqn:Ha; cbn [default].
  - rewrite insert_id by done. by destruct st.
  - erewrite bind_inr by (by apply get_int_some). erewrite bind_inr by (by apply get_int_some).
    by erewrite bind_inr by (by apply get_int_some).
Qed.

(** The event of the whole segment. *)
Definition dump_event (n p t : Z) (full : text) : event :=
  Event n p (codes "pb_bytes") [OInt seq_no; OInt chid; OInt idx; OInt (Z.of_nat (length full) / 2); OStr full] t.

(** A record of a chunk goes into the accumulator; the last one completes it. *)
Lemma chunk_step n p t nt k st : driver_record (chunk_rec nt k) → let r := chunk_rec nt k in
  let acc := put_chunk (64 * Z.of_nat k) (PStr (chunk_hex k)) (default (PbAcc n p t chid idx nt ∅) (p_pb st !! seq_no)) in
  (∀ ts, Z.of_nat (size (pa_chunks acc)) = pa_nchunks acc → chunk_texts (pa_chunks acc) = Some ts →
    (dispatch n p t (key_of r) (dict_of r) st).2 =
      PState (p_events st ++ [Event (pa_line acc) (pa_pid acc) (codes "pb_bytes")
          [OInt seq_no; OInt (pa_chid acc); OInt (pa_idx acc); OInt (Z.of_nat (length (mjoin ts)) / 2); OStr (mjoin ts)] (pa_ts acc)])
        (p_alloc st) (p_uvm st) (delete seq_no (<[seq_no := acc]> (p_pb st)))) ∧
  (Z.of_nat (size (pa_chunks acc)) ≠ pa_nchunks acc →
    (dispatch n p t (key_of r) (dict_of r) st).2 = PState (p_events st) (p_alloc st) (p_uvm st) (<[seq_no := acc]> (p_pb st))).
Proof.
  intros Hr r acc. fold r in Hr.
  assert (dispatch n p t (key_of r) (dict_of r) = on_pb_bytes n p t (dict_of r)) as -> by reflexivity.
  assert (∀ key z, (codes key, MvDec z) ∈ mr_fields r → field_int (dict_of r) key = Some z) as Hf.
  { intros key z Hin. by apply (field_int_print r key (MvDec z)). }
  unfold on_pb_bytes. erewrite bind_inr by (apply get_int_some, (Hf "seq" seq_no); set_solver).
  erewrite bind_inr by (apply get_int_some, (Hf "off" (64 * Z.of_nat k)); set_solver).
  erewrite bind_inr by (apply (find_acc_eq n p t (dict_of r) nt); apply Hf; set_solver).
  set (a0 := default _ _) in *. unfold store_chunk. erewrite bind_inr.
  2: { apply (get_raw_some (dict_of r) "hex" (PStr (chunk_hex k))).
       apply (fields_dict_lookup (mr_fields r) (codes "hex") (MvStr (chunk_hex k))); [apply Hr|set_solver]. }
  fold acc. rewrite (bind_inr _ _ _ tt (PState (p_events st) (p_alloc st) (p_uvm st) (<[seq_no := acc]> (p_pb st))))
    by (unfold set_pb, py_modify; simpl; by rewrite insert_insert_eq).
  split.
  - intros ts Hsz Hts. rewrite (proj2 (Z.eqb_eq _ _) Hsz), Hts. done.
  - intros Hsz. by rewrite (proj2 (Z.eqb_neq _ _) Hsz).
Qed.

(** A pb/bytes record of the sequence number, and the events made of such records. *)
Definition bytes_of (r : mc_record) : Prop :=
  key_of r = (codes "pb", codes "bytes") ∧ field_int (dict_of r) "seq" = Some seq_no.

#[global] Instance bytes_of_dec r : Decision (bytes_of r).
Proof. unfold bytes_of. apply _. Defined.

#[global] Instance pb_event_dec s e : Decision (pb_event s e).
Proof. unfold pb_event. apply and_dec; [apply _|]. destruct (head (ev_info e)) as [[z| | | | |]|]; try (right; done).
  destruct (decide (z = s)) as [-> |]; [by left|right; congruence]. Defined.

Context (nt : nat).

(** After the chunks [ks]: an accumulator with them, or the event when they are all. *)
Definition collected (n0 p0 t0 : Z) (ks : list nat) (st : ft_state) : Prop :=
  if decide (length ks = nt) then
    p_pb st !! seq_no = None ∧ filter (pb_event seq_no) (p_events st) = [dump_event n0 p0 t0 (mjoin (chunk_hex <$> seq 0 nt))]
  else
    p_pb st !! seq_no = Some (PbAcc n0 p0 t0 chid idx (Z.of_nat nt) (chunks ks)) ∧ filter (pb_event seq_no) (p_events st) = [].

Lemma other_record m key d s s' : change m key d s s' → ¬ (key = (codes "pb", codes "bytes") ∧ field_int d "seq" = Some seq_no) →
  p_pb s' !! seq_no = p_pb s !! seq_no ∧ filter (pb_event seq_no) (p_events s') = filter (pb_event seq_no) (p_events s).
Proof.
  intros [((es & -> & Hes) & _ & _ & ->)|[[_ [->|(? & ? & _ & -> & _)]]|[[_ [->|(? & ? & _ & -> & _)]]|[Hk [_ _ _ Hpb (es & -> & Hes)]]]]] Hno;
    try done; (split; [|rewrite filter_app, (filter_none _ es), app_nil_r; [done|]]); try done.
  - eapply Forall_impl; [exact Hes|]. intros e (_ & _ & Hne) [Heq _]. done.
  - apply Hpb. intros Hs. by apply Hno.
  - eapply Forall_impl; [exact Hes|]. intros e (s2 & Hs2 & _ & Hh2) [_ Hh]. rewrite Hh2 in Hh. simplify_eq. by apply Hno.
Qed.

(** One more chunk. *)
Lemma collected_step n p t n0 p0 t0 k ks todo st : driver_record (chunk_rec (Z.of_nat nt) k) → k :: ks ++ todo ≡ₚ seq 0 nt →
  p_pb st !! seq_no = Some (PbAcc n0 p0 t0 chid idx (Z.of_nat nt) (chunks ks)) ∨
    ks = [] ∧ p_pb st !! seq_no = None ∧ (n0, p0, t0) = (n, p, t) →
  filter (pb_event seq_no) (p_events st) = [] →
  collected n0 p0 t0 (k :: ks) (dispatch n p t (key_of (chunk_rec (Z.of_nat nt) k)) (dict_of (chunk_rec (Z.of_nat nt) k)) st).2.
Proof.
  intros Hr Hp Hst Hev. destruct (chunk_step n p t (Z.of_nat nt) k st Hr) as [Hlast Hmore].
  assert (default (PbAcc n p t chid idx (Z.of_nat nt) ∅) (p_pb st !! seq_no) =
    PbAcc n0 p0 t0 chid idx (Z.of_nat nt) (chunks ks)) as Hacc.
  { destruct Hst as [-> |(-> & -> & [= -> -> ->])]; done. }
  rewrite Hacc in *. unfold put_chunk in *. cbn [pa_line pa_pid pa_ts pa_chid pa_idx pa_nchunks pa_chunks] in *.
  change (<[64 * Z.of_nat k := PStr (chunk_hex k)]> (chunks ks)) with (chunks (k :: ks)) in *.
  assert (NoDup (k :: ks)) as Hnd.
  { assert (NoDup (k :: ks ++ todo)) as Hnd by (rewrite Hp; apply NoDup_seq). rewrite app_comm_cons in Hnd.
    by apply NoDup_app in Hnd as (? & _ & _). }
  rewrite (chunks_size _ Hnd) in *. unfold collected. destruct (decide (length (k :: ks) = nt)) as [Heq|Hne].
  - assert (todo = []) as ->.
    { apply Permutation_length in Hp. rewrite length_seq, app_comm_cons, length_app in Hp. destruct todo; [done|]. simpl in *. lia. }
    rewrite app_nil_r in Hp. rewrite (Hlast _ (f_equal _ Heq) (chunks_texts _ _ Hp)).
    cbn [p_pb p_events]. split; [by apply lookup_delete_eq|]. rewrite filter_app, Hev. cbn [app]. rewrite filter_cons_True; [|by split].
    unfold dump_event. done.
  - rewrite Hmore by lia. cbn [p_pb p_events]. split; [by apply lookup_insert_eq|done].
Qed.

Context (ts_ns_of : text → Z).

Lemma collected_trace tr : ∀ n n0 p0 t0 ks todo st, wf_trace tr → st_ok st → collected n0 p0 t0 ks st → ks ≠ [] →
  filter bytes_of tr.*2 = chunk_rec (Z.of_nat nt) <$> todo → ks ++ todo ≡ₚ seq 0 nt →
  ∃ ks', ks' ≡ₚ seq 0 nt ∧ collected n0 p0 t0 ks' (run_trace ts_ns_of n tr st).
Proof.
  induction tr as [|[e r] tr IH]; intros n n0 p0 t0 ks todo st Hwf Hok Hst Hne Hf Hp.
  { destruct todo; [|done]. exists ks. rewrite app_nil_r in Hp. done. }
  apply Forall_cons in Hwf as [[He Hr] Hwf]. cbn [run_trace]. rewrite fmap_cons in Hf. cbn [snd] in Hf.
  destruct (dispatch_change n (en_pid e) (en_ts ts_ns_of e) (key_of r) (dict_of r) st (printable_typed r Hr) Hok) as [_ Hch].
  pose proof (change_ok _ _ _ _ _ Hch Hok) as Hok'. destruct (decide (bytes_of r)) as [Hb|Hb].
  - rewrite filter_cons_True in Hf by done. destruct todo as [|k todo]; [done|]. rewrite fmap_cons in Hf.
    injection Hf as -> Hf. assert (k :: ks ++ todo ≡ₚ seq 0 nt) as Hp' by (by rewrite <-Hp, <-Permutation_middle).
    assert (length ks ≠ nt) as Hlen.
    { apply Permutation_length in Hp'. rewrite length_seq in Hp'. simpl in Hp'. rewrite length_app in Hp'. lia. }
    unfold collected in Hst. rewrite decide_False in Hst by done. destruct Hst as [Hacc Hev].
    eapply (IH _ _ _ _ (k :: ks) todo); [done|done| |done|done|done]. eapply collected_step; [done|exact Hp'|by left|done].
  - rewrite filter_cons_False in Hf by done. eapply IH; [done|done| |done|done|done].
    destruct (other_record _ _ _ _ _ Hch Hb) as [H1 H2]. unfold collected. by rewrite H1, H2.
Qed.
End dump.

Lemma flush_no_pb s (l1 : list alloc_acc) (l2 : list uvm_acc) :
  filter (pb_event s) ((l1 ≫= flush_alloc) ++ (l2 ≫= flush_uvm)) = [].
Proof.
  apply filter_none, Forall_app. split; apply Forall_bind, Forall_true; intros x; repeat constructor; intros [Hk _]; discriminate Hk.
Qed.

(** C13: A pushbuffer dump reaches the tools whole: with the records the trap handler prints for a segment
    in a capture, in whatever order and among whatever other records, the parser returns and makes exactly
    one pb_bytes event of the sequence number, on the line of the first chunk, with the channel, the ring
    index, the length of the segment and the digits of the bytes the handler read. *)
Theorem pb_dump_reassembled unescape ts_ns_of mask mem seq_no chid idx va len s tr1 e r tr2 :
  let kva := nv_dbell_sysmem_gpu_va_to_kva (d_sysmem s) va len in
  let n := 1 + Z.of_nat (length tr1) in
  mc_enabled mask pb → kva ≠ NULL → 0 < len ≤ 4096 →
  wf_trace (tr1 ++ (e, r) :: tr2) →
  Forall (λ er, ¬ bytes_of seq_no er.2) tr1 →
  r :: filter (bytes_of seq_no) tr2.*2 ≡ₚ omap pb_record (run_eff (emit_pb_bytes mask mem seq_no chid idx va len) s) →
  ∃ evs, parse_ftrace unescape ts_ns_of (raw_lines (tr1 ++ (e, r) :: tr2)) = inr evs ∧
    filter (pb_event seq_no) evs =
      [Event n (en_pid e) (codes "pb_bytes")
         [OInt seq_no; OInt chid; OInt idx; OInt len; OStr (ascii_codes (hex_bytes (mem_bytes mem kva len)))]
         (ts_ns_of (ts_text e))].
Proof.
  intros kva n Hpb Hkva Hlen Hwf Hno Hperm. eexists. split; [by apply parse_ftrace_trace|]. cbn zeta.
  rewrite filter_app, flush_no_pb, app_nil_r. rewrite (emit_pb_bytes_print mem seq_no chid idx kva len mask va s) in Hperm by done.
  set (nt := Z.to_nat ((len + 63) / 64)) in *.
  assert ((len + 63) / 64 = Z.of_nat nt) as Hnt by (unfold nt; zify_divmod). rewrite Hnt in Hperm.
  apply Permutation_map_inv in Hperm as ([|k todo] & Hrs & Hp); [done|]. cbn [map] in Hrs. injection Hrs as Hrk Hf. subst r.
  apply Forall_app in Hwf as [Hwf1 Hwf2]. apply Forall_cons in Hwf2 as [[He Hr] Hwf2].
  rewrite run_trace_app. fold n. set (s1 := run_trace ts_ns_of 1 tr1 pstate0).
  assert ((p_pb s1 !! seq_no = None ∧ filter (pb_event seq_no) (p_events s1) = []) ∧ st_ok s1) as [[Hs1 Hev1] Hok1].
  { apply (run_trace_ind ts_ns_of (λ _ st, (p_pb st !! seq_no = None ∧ filter (pb_event seq_no) (p_events st) = []) ∧ st_ok st)); [done|done|done|].
    intros m e' r' st st' Hin _ [[H1 H2] Hst] _ _ Hch. rewrite Forall_forall in Hno.
    destruct (other_record seq_no _ _ _ _ _ Hch (Hno _ Hin)) as [-> ->]. split; [done|]. by eapply change_ok. }
  cbn [run_trace]. set (rk := chunk_rec _ _ _ _ _ _ _ k) in *.
  destruct (dispatch_change n (en_pid e) (en_ts ts_ns_of e) (key_of rk) (dict_of rk) s1 (printable_typed rk Hr) Hok1) as [_ Hch].
  pose proof (change_ok _ _ _ _ _ Hch Hok1) as Hok2.
  assert (collected mem seq_no chid idx kva len nt n (en_pid e) (en_ts ts_ns_of e) [k]
    (dispatch n (en_pid e) (en_ts ts_ns_of e) (key_of rk) (dict_of rk) s1).2) as Hcol.
  { eapply (collected_step mem seq_no chid idx kva len nt _ _ _ _ _ _ k [] todo); [done|by symmetry|by right|done]. }
  destruct (collected_trace mem seq_no chid idx kva len nt ts_ns_of tr2 (n + 1) _ _ _ [k] todo _ Hwf2 Hok2 Hcol) as (ks & Hks & Hfin);
    [done|done|by symmetry|].
  unfold collected in Hfin. rewrite decide_True in Hfin by (by rewrite Hks, length_seq). destruct Hfin as [_ ->].
  rewrite join_chunk_hex by zify_divmod. rewrite Z.min_r by zify_divmod. unfold dump_event. rewrite hex_length.
  unfold mem_bytes at 1. rewrite !length_fmap, length_seqZ. unfold en_ts. by replace (Z.of_nat (2 * Z.to_nat len) / 2) with len by zify_divmod.
Qed.

(** Three chunks of a segment of 150 bytes, the last one first, after an allocation. *)
Definition example_chunks : list mc_record :=
  omap pb_record (run_eff (emit_pb_bytes 0x1ff demo_mem 1846 3 0 0x204000010 150) demo_armed).

Definition example_chunk (k : nat) : mc_record := default (McRecord [] [] []) (example_chunks !! k).

Lemma pb_dump_reassembled_witness :
  ∃ evs full, parse_ftrace Some (λ _, 5)
      (raw_lines (example_capture_before ++ (example_envelope 31039 "2930", example_chunk 2) ::
        ((λ r, (example_envelope 31040 "2931", r)) <$> [example_chunk 1; example_chunk 0]))) = inr evs ∧
    filter (pb_event 1846) evs =
      [Event 2 31039 (codes "pb_bytes") [OInt 1846; OInt 3; OInt 0; OInt 150; OStr full] 5] ∧
    take 28 full = codes "101112131415161718191a1b0000" ∧ length full = 300%nat.
Proof.
  destruct (pb_dump_reassembled Some (λ _, 5) 0x1ff demo_mem 1846 3 0 0x204000010 150 demo_armed example_capture_before
    (example_envelope 31039 "2930") (example_chunk 2) ((λ r, (example_envelope 31040 "2931", r)) <$> [example_chunk 1; example_chunk 0]))
    as (evs & Hevs & Hev).
  - done.
  - done.
  - lia.
  - apply wf_traceb. vm_compute. reflexivity.
  - apply (bool_decide_unpack _). vm_compute. exact I.
  - apply reversed_permutation. vm_compute. reflexivity.
  - eexists evs, _. split; [exact Hevs|]. split; [exact Hev|]. split; vm_compute; reflexivity.
Defined.
