(* ===== verification/LcsDiff.v ===== *)
(** * The alignment of two ioctl sequences: lcs_diff of strace_diff.py

    [lcs_diff] fills a table of the lengths of longest common subsequences from the ends of
    the two sequences and walks it from their starts, which gives a script of what is common,
    what only the first has and what only the second has. The script is proved to be an
    alignment of the two sequences, with as much in common as any two subsequences have. *)

From stdpp Require Import base list.

(** [('=', x, x)], [('-', x, ...)] and [('+', ..., y)] *)
Inductive diff_op (A : Type) :=
| Same (x : A)
| OnlyA (x : A)
| OnlyB (y : A).
Arguments Same {_} _.
Arguments OnlyA {_} _.
Arguments OnlyB {_} _.

Section lcs.
Context {A : Type} `{!EqDecision A}.
Implicit Types (a b c : list A) (x y : A).

(** [dp[i]] from [dp[i + 1]], from the last column to the first. *)
Fixpoint dp_row (x : A) (b : list A) (next : list nat) : list nat :=
  match b, next with
  | y :: b, below :: next =>
      let row := dp_row x b next in
      (if decide (x = y) then 1 + default 0 (head next) else max below (default 0 (head row))) :: row
  | _, _ => [0]
  end.

(** [dp], from the last row to the first. *)
Fixpoint dp_table (a b : list A) : list (list nat) :=
  match a with
  | [] => [replicate (S (length b)) 0]
  | x :: a =>
      let dp := dp_table a b in
      dp_row x b (default [] (head dp)) :: dp
  end.

Definition dp_at (dp : list (list nat)) (i j : nat) : nat := default 0 (dp !! i ≫= (.!! j)).

(** The loop over [i] and [j], and the two that follow it. *)
Fixpoint diff_walk (fuel : nat) (a b : list A) (dp : list (list nat)) (i j : nat) : list (diff_op A) :=
  match fuel with
  | O => []
  | S fuel =>
      match a !! i, b !! j with
      | Some x, Some y =>
          if decide (x = y) then Same x :: diff_walk fuel a b dp (S i) (S j)
          else if decide (dp_at dp i (S j) ≤ dp_at dp (S i) j) then OnlyA x :: diff_walk fuel a b dp (S i) j
          else OnlyB y :: diff_walk fuel a b dp i (S j)
      | Some x, None => OnlyA x :: diff_walk fuel a b dp (S i) j
      | None, Some y => OnlyB y :: diff_walk fuel a b dp i (S j)
      | None, None => []
      end
  end.

Definition lcs_diff (a b : list A) : list (diff_op A) :=
  diff_walk (length a + length b) a b (dp_table a b) 0 0.

(** What a script says of each sequence, and of both. *)
Definition script_a (s : list (diff_op A)) : list A :=
  omap (λ o, match o with Same x | OnlyA x => Some x | OnlyB _ => None end) s.
Definition script_b (s : list (diff_op A)) : list A :=
  omap (λ o, match o with Same x | OnlyB x => Some x | OnlyA _ => None end) s.
Definition script_same (s : list (diff_op A)) : list A :=
  omap (λ o, match o with Same x => Some x | _ => None end) s.

(** * The table *)

(** The length of a longest common subsequence, by its recursion. *)
Fixpoint lcs (a : list A) : list A → nat :=
  match a with
  | [] => λ _, 0
  | x :: a =>
      fix go (b : list A) : nat :=
        match b with
        | [] => 0
        | y :: b => if decide (x = y) then S (lcs a b) else max (lcs a (y :: b)) (go b)
        end
  end.

Lemma lcs_nil_r a : lcs a [] = 0.
Proof. by destruct a. Qed.

Lemma lcs_cons x a y b :
  lcs (x :: a) (y :: b) = if decide (x = y) then S (lcs a b) else max (lcs a (y :: b)) (lcs (x :: a) b).
Proof. done. Qed.

(** The row of the suffixes of [b]. *)
Definition row_of (a b : list A) : list nat := (λ j, lcs a (drop j b)) <$> seq 0 (S (length b)).

Lemma row_of_nil a : row_of a [] = [0].
Proof. unfold row_of. simpl. by rewrite lcs_nil_r. Qed.

Lemma row_of_cons a y b : row_of a (y :: b) = lcs a (y :: b) :: row_of a b.
Proof.
  unfold row_of. cbn [length seq fmap list_fmap drop]. f_equal. f_equal. rewrite <-seq_shift, <-list_fmap_compose. done.
Qed.

Lemma row_of_nil_l b : row_of [] b = replicate (S (length b)) 0.
Proof. induction b as [|y b IH]; [done|]. by rewrite row_of_cons, IH. Qed.

Lemma row_of_head a b : head (row_of a b) = Some (lcs a b).
Proof. done. Qed.

Lemma dp_row_ok x a b : dp_row x b (row_of a b) = row_of (x :: a) b.
Proof.
  induction b as [|y b IH]; [by rewrite row_of_nil|]. rewrite !row_of_cons. cbn [dp_row]. rewrite IH, !row_of_head.
  cbn [default]. by rewrite lcs_cons.
Qed.

Lemma dp_table_ok a b : dp_table a b = (λ i, row_of (drop i a) b) <$> seq 0 (S (length a)).
Proof.
  induction a as [|x a IH].
  - cbn [dp_table length seq fmap list_fmap drop]. by rewrite row_of_nil_l.
  - change (dp_table (x :: a) b) with (dp_row x b (default [] (head (dp_table a b))) :: dp_table a b). rewrite IH.
    change (default [] (head ((λ i, row_of (drop i a) b) <$> seq 0 (S (length a))))) with (row_of a b). rewrite dp_row_ok.
    change (seq 0 (S (length (x :: a)))) with (0 :: seq 1 (S (length a))).
    rewrite fmap_cons, <-seq_shift, <-list_fmap_compose. done.
Qed.

Lemma dp_at_ok a b i j : i ≤ length a → j ≤ length b → dp_at (dp_table a b) i j = lcs (drop i a) (drop j b).
Proof.
  intros Hi Hj. unfold dp_at. rewrite dp_table_ok, list_lookup_fmap, lookup_seq_lt by lia. cbn [fmap option_fmap option_map mbind option_bind].
  unfold row_of. by rewrite list_lookup_fmap, lookup_seq_lt by lia.
Qed.

(** * The walk *)

(** The walk on the suffixes themselves. *)
Lemma diff_walk_spec a b fuel i j : i ≤ length a → j ≤ length b → length a - i + (length b - j) ≤ fuel →
  let s := diff_walk fuel a b (dp_table a b) i j in
  script_a s = drop i a ∧ script_b s = drop j b ∧ length (script_same s) = lcs (drop i a) (drop j b).
Proof.
  revert i j. induction fuel as [|fuel IH]; intros i j Hi Hj Hf s; unfold s; cbn [diff_walk].
  { rewrite !drop_ge by lia. done. }
  destruct (a !! i) as [x|] eqn:Hx; destruct (b !! j) as [y|] eqn:Hy.
  - pose proof (lookup_lt_Some _ _ _ Hx). pose proof (lookup_lt_Some _ _ _ Hy).
    rewrite (drop_S _ _ _ Hx), (drop_S _ _ _ Hy), lcs_cons. destruct (decide (x = y)) as [->|Hne].
    + destruct (IH (S i) (S j)) as (H1 & H2 & H3); [lia..|]. cbn -[lcs]. unfold script_a, script_b, script_same in *. by rewrite H1, H2, H3.
    + rewrite !dp_at_ok, (drop_S _ _ _ Hx), (drop_S _ _ _ Hy) by lia. case_decide as Hle.
      * destruct (IH (S i) j) as (H1 & H2 & H3); [lia..|]. rewrite (drop_S _ _ _ Hy) in H2, H3.
        cbn -[lcs]. unfold script_a, script_b, script_same in *. rewrite H1, H2, H3. split_and!; [done|done|lia].
      * destruct (IH i (S j)) as (H1 & H2 & H3); [lia..|]. rewrite (drop_S _ _ _ Hx) in H1, H3.
        cbn -[lcs]. unfold script_a, script_b, script_same in *. rewrite H1, H2, H3. split_and!; [done|done|lia].
  - pose proof (lookup_lt_Some _ _ _ Hx). apply lookup_ge_None in Hy. destruct (IH (S i) j) as (H1 & H2 & H3); [lia..|].
    cbn -[lcs]. unfold script_a, script_b, script_same in *. rewrite H1, H2, H3, (drop_S _ _ _ Hx), (drop_ge b) by lia.
    by rewrite !lcs_nil_r.
  - pose proof (lookup_lt_Some _ _ _ Hy). apply lookup_ge_None in Hx. destruct (IH i (S j)) as (H1 & H2 & H3); [lia..|].
    cbn -[lcs]. unfold script_a, script_b, script_same in *. rewrite H1, H2, H3, (drop_S _ _ _ Hy), (drop_ge a) by lia. done.
  - apply lookup_ge_None in Hx, Hy. by rewrite !drop_ge by lia.
Qed.

(** ** Longest *)

(** No common subsequence is longer. *)
Lemma lcs_longest c a b : c `sublist_of` a → c `sublist_of` b → length c ≤ lcs a b.
Proof.
  revert b c. induction a as [|x a IHa]; intros b c Ha; [apply sublist_nil_r in Ha as ->; simpl; lia|].
  revert c Ha. induction b as [|y b IHb]; intros c Ha Hb; [apply sublist_nil_r in Hb as ->; simpl; lia|].
  rewrite lcs_cons. apply sublist_cons_r in Ha, Hb. destruct (decide (x = y)) as [->|Hne].
  - destruct Ha as [Ha|(c1 & -> & Ha)].
    + destruct Hb as [Hb|(c2 & -> & Hb)].
      * specialize (IHa b c Ha Hb). lia.
      * simpl. enough (length c2 ≤ lcs a b) by lia. apply IHa; [|done]. eapply sublist_cons_l in Ha as (k1 & k2 & -> & Ha).
        by apply sublist_inserts_l, sublist_cons.
    + destruct Hb as [Hb|(c2 & [= <-] & Hb)].
      * simpl. enough (length c1 ≤ lcs a b) by lia. apply IHa; [done|]. eapply sublist_cons_l in Hb as (k1 & k2 & -> & Hb).
        by apply sublist_inserts_l, sublist_cons.
      * simpl. enough (length c1 ≤ lcs a b) by lia. by apply IHa.
  - destruct Ha as [Ha|(c1 & -> & Ha)].
    + enough (length c ≤ lcs a (y :: b)) by lia. apply IHa; [done|]. by apply sublist_cons_r.
    + destruct Hb as [Hb|(c2 & [= -> <-] & Hb)]; [|done].
      enough (length (x :: c1) ≤ lcs (x :: a) b) by lia. apply IHb; [by apply sublist_skip|done].
Qed.

Lemma script_same_a s : script_same s `sublist_of` script_a s.
Proof. induction s as [|[x|x|x] s IH]; cbn; [constructor|by apply sublist_skip|by apply sublist_cons|done]. Qed.

Lemma script_same_b s : script_same s `sublist_of` script_b s.
Proof. induction s as [|[x|x|x] s IH]; cbn; [constructor|by apply sublist_skip|done|by apply sublist_cons]. Qed.
End lcs.

(** C38: The diff of two sequences is an alignment, and a best one: read with its deletions it is the first
    sequence, read with its insertions the second, and no common subsequence of the two is longer than
    what it marks as common. *)
Theorem lcs_diff_aligns {A : Type} `{!EqDecision A} (a b : list A) :
  let s := lcs_diff a b in
  script_a s = a ∧ script_b s = b ∧ script_same s `sublist_of` a ∧ script_same s `sublist_of` b ∧
  ∀ c, c `sublist_of` a → c `sublist_of` b → length c ≤ length (script_same s).
Proof.
  intros s. destruct (diff_walk_spec a b (length a + length b) 0 0) as (H1 & H2 & H3); [lia..|].
  fold (lcs_diff a b) in *. fold s in H1, H2, H3. split; [exact H1|]. split; [exact H2|].
  pose proof (script_same_a s) as Ha. pose proof (script_same_b s) as Hb. rewrite H1 in Ha. rewrite H2 in Hb.
  split; [exact Ha|]. split; [exact Hb|]. intros c Hca Hcb. rewrite H3. by apply lcs_longest.
Qed.
