(* ===== verification/Timeline.v ===== *)
(** * The merged timeline: timeline_merge.py

    timeline_merge.py reads a capture's ftrace text with [parse_ftrace] (FtraceParse), the
    shim's own events and the events of strace, turns each into an object of one shape on one
    clock, sorts them and cuts the result down with a filter and a window. An object's data is
    a dictionary of JSON values in order; [None] stands for a Python exception. The events of
    the shim and of strace, and Python's [str] of a value that is no number or string, are
    arguments. *)

From stdpp Require Import base numbers list gmap strings sorting.
From S2P Require Import Prelude TraceText FtraceParse.
#[local] Open Scope Z_scope.

(** ** Data *)

#[warnings="-register-all"]
Inductive json :=
| JNull
| JBool (b : bool)
| JInt (z : Z)
| JStr (t : text)
| JList (l : list json)
| JDict (d : list (text * json)).

Definition jdict : Type := list (text * json).

(** [f"0x{z:0wx}"] *)
Definition hx (w : nat) (z : Z) : json := JStr (codes "0x" ++ py_hex w z).

(** The layout of a decoded body; an empty body has none. *)
Definition body_layout (layout : text) : jdict :=
  match layout with
  | [] => []
  | _ => [(codes "_layout", JStr layout)]
  end.

Definition jval (o : pyobj) : json :=
  match o with
  | OInt z => JInt z
  | OStr t => JStr t
  | OStrs ts => JList (JStr <$> ts)
  | OInts zs => JList (JInt <$> zs)
  | OBody layout fs => JDict (body_layout layout ++ ((λ f, (f.1, JInt f.2)) <$> fs))
  | ONone => JNull
  end.

Definition _jsonify_int (v : Z) : json := if 0xFFFFF <? v then hx 0 v else JInt v.

(** The dictionary of a decoded body. *)
Definition _jsonify_dict (layout : text) (fields : list (text * Z)) : jdict :=
  body_layout layout ++ ((λ f, (f.1, _jsonify_int f.2)) <$> fields).

Definition fld (k : string) (v : json) : text * json := (codes k, v).

Definition kind_is (kind : text) (k : string) : bool := bool_decide (kind = codes k).

Section project.
Context (py_str : list pyobj → text).

(** The tuple unpacked as its kind has it; a tuple of another length or a format applied to
    what is no int raises. *)
Definition _ftrace_info_to_dict (kind : text) (info : list pyobj) : option jdict :=
  if kind_is kind "alloc" then
    match info with
    | [OInt handle; OInt cls; OBody layout fs; OInt root; OInt parent] =>
        Some [fld "handle" (hx 8 handle); fld "class" (hx 4 cls); fld "root" (hx 8 root); fld "parent" (hx 8 parent);
              fld "body" (JDict (_jsonify_dict layout fs))]
    | _ => None
    end
  else if kind_is kind "map_bar1" then
    match info with
    | [OInt handle; length; OInt flags; offset; fd] =>
        Some [fld "handle" (hx 8 handle); fld "length" (jval length); fld "flags" (hx 8 flags); fld "offset" (jval offset);
              fld "fd" (jval fd)]
    | _ => None
    end
  else if kind_is kind "map_uvm" then
    match info with
    | [OInt handle; OInt base; length; off] =>
        Some [fld "handle" (hx 8 handle); fld "base" (hx 0 base); fld "length" (jval length); fld "offset" (jval off)]
    | _ => None
    end
  else if kind_is kind "free" then
    match info with
    | [OInt handle] => Some [fld "handle" (hx 8 handle)]
    | _ => None
    end
  else if kind_is kind "control" then
    match info with
    | [OInt ctrlcmd; OInt hc; OInt ho; ps] =>
        Some [fld "ctrlcmd" (hx 8 ctrlcmd); fld "hClient" (hx 8 hc); fld "hObject" (hx 8 ho); fld "paramsSize" (jval ps)]
    | _ => None
    end
  else if kind_is kind "uvm_ioctl" then
    match info with
    | [cmd; name; OInts dwords] =>
        Some [fld "cmd" (jval cmd); fld "cmd_name" (jval name); fld "dwords" (JList (hx 8 <$> take 16 dwords))]
    | _ => None
    end
  else if kind_is kind "pb" then
    match info with
    | [seq; chid; idx; OInt e0; OInt e1; OInt pb_va; pb_len] =>
        Some [fld "seq" (jval seq); fld "chid" (jval chid); fld "idx" (jval idx); fld "entry0" (hx 8 e0);
              fld "entry1" (hx 8 e1); fld "pb_va" (hx 0 pb_va); fld "pb_len" (jval pb_len)]
    | _ => None
    end
  else if kind_is kind "pb_bytes" then
    match info with
    | [seq; chid; idx; nbytes; hex_str] =>
        Some [fld "seq" (jval seq); fld "chid" (jval chid); fld "idx" (jval idx); fld "nbytes" (jval nbytes);
              fld "hex" (jval hex_str)]
    | _ => None
    end
  else if kind_is kind "pb_bytes_miss" then
    match info with
    | [seq; chid; idx; OInt pb_va; pb_len] =>
        Some [fld "seq" (jval seq); fld "chid" (jval chid); fld "idx" (jval idx); fld "pb_va" (hx 0 pb_va);
              fld "pb_len" (jval pb_len)]
    | _ => None
    end
  else if kind_is kind "sysmem_track_add" then
    match info with
    | [slot; OInt va_start; OInt va_end; pages; kva] =>
        Some [fld "slot" (jval slot); fld "base" (hx 0 va_start); fld "end" (hx 0 va_end);
              fld "length" (JInt (va_end - va_start)); fld "pages" (jval pages); fld "kva" (jval kva)]
    | _ => None
    end
  else if kind_is kind "sysmem_track_remove" then
    match info with
    | [kva; pages] => Some [fld "kva" (jval kva); fld "pages" (jval pages)]
    | _ => None
    end
  else if kind_is kind "bar1_track_add" then
    match info with
    | [slot; OInt phys; size; kva] =>
        Some [fld "slot" (jval slot); fld "phys" (hx 0 phys); fld "size" (jval size); fld "kva" (jval kva)]
    | _ => None
    end
  else if kind_is kind "bar1_track_remove" then
    match info with
    | [slot; kva] => Some [fld "slot" (jval slot); fld "kva" (jval kva)]
    | _ => None
    end
  else if kind_is kind "ioctl" then
    match info with
    | [path_family; cmd_name] => Some [fld "path_family" (jval path_family); fld "cmd_name" (jval cmd_name)]
    | fd :: path :: cmd_int :: cmd_name :: size :: rest =>
        match cmd_int with
        | OInt z => Some (hx 0 z)
        | ONone => Some JNull
        | _ => None
        end ≫= λ cmd,
        Some ([fld "fd" (jval fd); fld "path" (jval path); fld "cmd" cmd; fld "cmd_name" (jval cmd_name);
               fld "size" (jval size)] ++
              match rest with
              | [] | ONone :: _ => []
              | ret :: _ => [fld "ret" (jval ret)]
              end)
    | _ => None
    end
  else if kind_is kind "open" then
    match info with
    | [fd; path] => Some [fld "fd" (jval fd); fld "path" (jval path)]
    | _ => None
    end
  else if kind_is kind "close" then
    match info with
    | [fd] => Some [fld "fd" (jval fd)]
    | _ => None
    end
  else if kind_is kind "mmap" then
    match info with
    | [fd; path; OInt addr; length; prot; flags; offset] =>
        Some [fld "fd" (jval fd); fld "path" (jval path); fld "addr" (hx 0 addr); fld "length" (jval length);
              fld "prot" (jval prot); fld "flags" (jval flags); fld "offset" (jval offset)]
    | _ => None
    end
  else if kind_is kind "munmap" then
    match info with
    | [OInt addr; length] => Some [fld "addr" (hx 0 addr); fld "length" (jval length)]
    | _ => None
    end
  else if kind_is kind "pte_src_decision" then
    match info with
    | [OInt ch; OInt cc; ca; OInt sh; OInt sc; sa; OInt sp; OInt cp] =>
        Some [fld "carrier_h" (hx 8 ch); fld "carrier_class" (hx 4 cc); fld "carrier_aspace" (jval ca);
              fld "src_h" (hx 8 sh); fld "src_class" (hx 4 sc); fld "src_aspace" (jval sa);
              fld "src_pte0" (hx 0 sp); fld "chosen_pte0" (hx 0 cp)]
    | _ => None
    end
  else if kind_is kind "intermap_call" then
    match info with
    | [OInt hc; OInt car; OInt cc; OInt src; OInt sc; OInt fl; OInt dma; ln] =>
        Some [fld "hClient" (hx 8 hc); fld "hCarrier" (hx 8 car); fld "carrier_class" (hx 4 cc); fld "hSrc" (hx 8 src);
              fld "src_class" (hx 4 sc); fld "flags" (hx 8 fl); fld "dmaOffset" (hx 0 dma); fld "length" (jval ln)]
    | _ => None
    end
  else if kind_is kind "virtmem_backing" then
    match info with
    | [OInt hm; OInt cl; vs; OInt vas; asp; OInt heap; via] =>
        Some [fld "hMemory" (hx 8 hm); fld "class" (hx 4 cl); fld "vaSize" (jval vs); fld "hVASpace" (hx 8 vas);
              fld "aspace" (jval asp); fld "has_heap" (JBool (negb (heap =? 0))); fld "via" (jval via)]
    | _ => None
    end
  else if kind_is kind "gmmu_pte_phys" then
    match info with
    | [OInt lo; OInt hi; OInt pp; pc; OInt ps; ap] =>
        Some [fld "vaLo" (hx 0 lo); fld "vaHi" (hx 0 hi); fld "pte0_phys" (hx 0 pp); fld "pteCount" (jval pc);
              fld "pageSize" (hx 0 ps); fld "aperture" (jval ap)]
    | _ => None
    end
  else if kind_is kind "userd_resolve" then
    match info with
    | [OInt hc; OInt hu; OInt uo; OInt ua; asp; us] =>
        Some [fld "hClient" (hx 8 hc); fld "hUserd" (hx 8 hu); fld "userdOffset" (hx 0 uo); fld "userdAddr" (hx 0 ua);
              fld "addressSpace" (jval asp); fld "userdSize" (jval us)]
    | _ => None
    end
  else if kind_is kind "userd_rpc" then
    match info with
    | [OInt hch; OInt base; sz; asp; ca] =>
        Some [fld "hChannel" (hx 8 hch); fld "base" (hx 0 base); fld "size" (jval sz); fld "addressSpace" (jval asp);
              fld "cacheAttrib" (jval ca)]
    | _ => None
    end
  else if kind_is kind "userd_bind" then
    match info with
    | [rc; rsc] => Some [fld "retained" (jval rc); fld "resourceCount" (jval rsc)]
    | _ => None
    end
  else if kind_is kind "bar1_reflect_phys" then
    match info with
    | [OInt gpu; OInt fbo; OInt phys; sz] =>
        Some [fld "at_gpu" (hx 0 gpu); fld "fb_aperture_off" (hx 0 fbo); fld "bar1_phys" (hx 0 phys); fld "size" (jval sz)]
    | _ => None
    end
  else Some [fld "_raw" (JStr (py_str info))].
End project.

(** ** Events on one clock *)

Inductive source := Pbcap | Ftrace | Strace | Folded.

Record tev := TEv {
  te_ts : Z;
  te_src : source;
  te_pid : option json;
  te_tid : option json;
  te_kind : text;
  te_data : jdict;
  te_line : option Z }.

#[global] Instance source_eq_dec : EqDecision source.
Proof. solve_decision. Defined.

(** An event of strace: as the others, with a time stamp where strace printed one. *)
Record sevent := SEvent { se_event : event; se_has_ts : bool }.

(** An object of the shim's timeline, with the keys it may have. *)
Record pbev := PbEv {
  pe_ts : option Z;
  pe_pid : option json;
  pe_tid : option json;
  pe_kind : option text;
  pe_data : option jdict }.

Definition jget (d : jdict) (k : text) : option json := (λ p, p.2.2) <$> list_find (λ f, f.1 = k) d.

(** Python's [==] of two JSON values. *)
Fixpoint json_eqb (a b : json) {struct a} : bool :=
  match a, b with
  | JNull, JNull => true
  | JBool x, JBool y => eqb x y
  | JBool x, JInt y => Z.b2z x =? y
  | JInt x, JBool y => x =? Z.b2z y
  | JInt x, JInt y => x =? y
  | JStr x, JStr y => bool_decide (x = y)
  | JList l, JList m =>
      (fix go (l m : list json) : bool :=
         match l, m with
         | [], [] => true
         | x :: l, y :: m => json_eqb x y && go l m
         | _, _ => false
         end) l m
  | JDict d, JDict e =>
      bool_decide (length d = length e) &&
      (fix go (d : list (text * json)) : bool :=
         match d with
         | [] => true
         | (k, v) :: d => match jget e k with Some w => json_eqb v w | None => false end && go d
         end) d
  | _, _ => false
  end.

Definition truthy (v : json) : bool :=
  match v with
  | JNull => false
  | JBool b => b
  | JInt z => negb (z =? 0)
  | JStr t => bool_decide (t ≠ [])
  | JList l => match l with [] => false | _ => true end
  | JDict d => match d with [] => false | _ => true end
  end.

(** [d.get(k)] *)
Definition get_or_none (d : jdict) (k : string) : json := default JNull (jget d (codes k)).

Section normalize.
Context (py_str : list pyobj → text).

Definition normalize_event (src : source) (ts : Z) (e : event) : option tev :=
  match _ftrace_info_to_dict py_str (ev_kind e) (ev_info e) with
  | None => None
  | Some data => Some (TEv ts src (Some (JInt (ev_pid e))) None (ev_kind e) data (Some (ev_line e)))
  end.

Definition normalize_ftrace (events : list event) : option (list tev) :=
  mapM (λ e, normalize_event Ftrace (ev_ts e) e) events.

(** From the real-time to the monotonic clock; without the anchors strace is left out. *)
Definition normalize_strace (events : list sevent) (real_anchor mono_anchor : option Z) : option (list tev) :=
  match real_anchor, mono_anchor with
  | Some real, Some mono =>
      let delta := real - mono in
      mapM (λ e, normalize_event Strace (ev_ts (se_event e) - delta) (se_event e)) (filter (λ e, se_has_ts e = true) events)
  | _, _ => Some []
  end.
End normalize.

Definition normalize_pbcap (events : list pbev) : list tev :=
  omap (λ e, match pe_ts e with
             | None => None
             | Some ts => Some (TEv ts Pbcap (pe_pid e) (pe_tid e) (default (codes "unknown") (pe_kind e)) (default [] (pe_data e)) None)
             end) events.

(** The anchors: the first pbcap.init event that has both; the shim writes them as numbers. *)
Definition anchors_of (e : pbev) : option (Z * Z) :=
  if bool_decide (pe_kind e = Some (codes "pbcap.init")) then
    match jget (default [] (pe_data e)) (codes "mono_ns"), jget (default [] (pe_data e)) (codes "real_ns") with
    | Some (JInt mono), Some (JInt real) => Some (mono, real)
    | _, _ => None
    end
  else None.

Fixpoint find_anchors (events : list pbev) : option (Z * Z) :=
  match events with
  | [] => None
  | e :: events => match anchors_of e with Some a => Some a | None => find_anchors events end
  end.

(** [list.sort(key=...)], which is stable. *)
Fixpoint insert_by {A} (key : A → Z) (x : A) (l : list A) : list A :=
  match l with
  | [] => [x]
  | y :: l' => if key y <? key x then y :: insert_by key x l' else x :: l
  end.

Definition sort_by {A} (key : A → Z) (l : list A) : list A := foldr (insert_by key) [] l.

Definition merge_all (pbcap ftrace strace : list tev) : list tev := sort_by te_ts (pbcap ++ ftrace ++ strace).

(** ** The filter and the window *)

Definition ends_with (suffix t : text) : bool := starts_with (reverse suffix) (reverse t).

(** A pattern ends in [.*] and stands for its prefix with the dot, or stands for itself. *)
Definition kind_matches (k pattern : text) : bool :=
  if ends_with (codes ".*") pattern then starts_with (removelast pattern) k else bool_decide (k = pattern).

Definition apply_filter (events : list tev) (kinds : list text) : list tev :=
  match kinds with
  | [] => events
  | _ =>
      let wildcards := (λ k, removelast k) <$> filter (λ k, ends_with (codes ".*") k = true) kinds in
      let exacts := filter (λ k, ends_with (codes ".*") k = false) kinds in
      filter (λ e, bool_decide (te_kind e ∈ exacts) || existsb (λ w, starts_with w (te_kind e)) wildcards = true) events
  end.

Section window.
Context (py_repr : json → text).

Definition py_dec (z : Z) : text :=
  let ds := λ z, digit_char <$> digits 10 (S (Z.to_nat (Z.log2 z))) z in
  if z <? 0 then 45 :: ds (- z) else ds z.

(** [str(v)] *)
Definition str_of (v : json) : text :=
  match v with
  | JInt z => py_dec z
  | JStr t => t
  | _ => py_repr v
  end.

Definition is_anchor (key value : text) (e : tev) : bool :=
  match jget (te_data e) key with
  | None | Some JNull => false
  | Some v => bool_decide (str_of v = value)
  end.

(** [l[lo:hi]]; a negative bound counts from the end. *)
Definition slice {A} (lo hi : Z) (l : list A) : list A :=
  let at_ := λ i, if i <? 0 then Z.max 0 (i + Z.of_nat (length l)) else i in
  take (Z.to_nat (at_ hi - at_ lo)) (drop (Z.to_nat (at_ lo)) l).

Definition apply_window (events : list tev) (key value : text) (n_events : Z) : list tev :=
  match list_find (λ e, is_anchor key value e = true) events with
  | None => events
  | Some (i, _) =>
      let anchor := Z.of_nat i in
      slice (Z.max 0 (anchor - n_events)) (Z.min (Z.of_nat (length events)) (anchor + n_events + 1)) events
  end.
End window.

(** * The shape of events *)

Definition shape (c : coerce) (o : pyobj) : Prop :=
  match c with
  | _I => ∃ z, o = OInt z
  | _S => True
  end.

(** Code that appends events of [P] only. *)
Definition adds_only {A} (P : event → Prop) (m : py A) : Prop :=
  ∀ st, ∃ es, p_events (m st).2 = p_events st ++ es ∧ Forall P es.

Section keeps.
Context (P : event → Prop).

Lemma keeps_same {A} (m : py A) : (∀ st, p_events (m st).2 = p_events st) → adds_only P m.
Proof. intros Hm st. exists []. by rewrite Hm, app_nil_r. Qed.

Lemma keeps_bind {A B} (m : py A) (k : A → py B) : adds_only P m → (∀ a, adds_only P (k a)) → adds_only P (m ≫= k).
Proof.
  intros Hm Hk st. destruct (Hm st) as (es & He & Hes). unfold mbind, py_bind. destruct (m st) as [[e|a] st']; [by exists es|].
  destruct (Hk a st') as (es' & He' & Hes'). exists (es ++ es'). simpl in *. rewrite He', He, app_assoc. split; [done|]. by apply Forall_app.
Qed.

Lemma keeps_append e : P e → adds_only P (append_event e).
Proof. intros He st. exists [e]. split; [done|]. by apply Forall_singleton. Qed.

Lemma keeps_catch m : adds_only P m → adds_only P (catch m).
Proof. intros Hm st. specialize (Hm st). unfold catch. by destruct (m st) as [[[]|[]] st']. Qed.

Lemma keeps_weaken {A} (Q : event → Prop) (m : py A) : adds_only P m → (∀ e, P e → Q e) → adds_only Q m.
Proof. intros Hm Hpq st. destruct (Hm st) as (es & He & Hes). exists es. split; [done|]. by eapply Forall_impl. Qed.

Lemma keeps_ret {A} (a : A) : adds_only P (mret a).
Proof. by apply keeps_same. Qed.

Lemma keeps_raise {A} e : adds_only P (raise (A:=A) e).
Proof. by apply keeps_same. Qed.

Lemma keeps_get_raw d k : adds_only P (get_raw d k).
Proof. apply keeps_same. intros st. unfold get_raw. by destruct (d !! k). Qed.

Lemma keeps_get_int d k : adds_only P (get_int d k).
Proof.
  apply keeps_bind; [apply keeps_get_raw|]. intros [t|ts]; [|apply keeps_raise]. unfold _mc1_int.
  destruct (py_int0 t); [apply keeps_ret|apply keeps_raise].
Qed.

Lemma keeps_place dws idx arr : adds_only P (place_dwords dws idx arr).
Proof.
  apply keeps_same. intros st. unfold place_dwords. destruct (mapM py_int0 arr); [|done]. by destruct (set_items _ _ _).
Qed.
End keeps.
Create HintDb keeps.
#[export] Hint Resolve keeps_bind keeps_append keeps_catch keeps_ret keeps_raise keeps_get_raw keeps_get_int keeps_place : keeps.

Lemma bind_inl {A B} (m : py A) (k : A → py B) st e st' : m st = (inl e, st') → (m ≫= k) st = (inl e, st').
Proof. intros Hm. unfold mbind, py_bind. by rewrite Hm. Qed.

(** The values of a tuple, by the coercions of its fields. *)
Lemma coerced_shape d f st : (coerced d f st).2 = st ∧ ∀ o, (coerced d f st).1 = inr o → shape f.2 o.
Proof.
  destruct f as [k []]; unfold coerced, int_obj, raw_obj, get_int, get_raw; cbn [fst snd]; unfold mbind, py_bind;
    destruct (d !! codes k) as [[t|ts]|]; cbn; try done. destruct (py_int0 t); cbn; [|done]. split; [done|]. intros o [= <-]. by eexists.
Qed.

Lemma mapM_shape d fs st : (mapM (coerced d) fs st).2 = st ∧
  ∀ info, (mapM (coerced d) fs st).1 = inr info → Forall2 (λ f o, shape f.2 o) fs info.
Proof.
  induction fs as [|f fs [IH1 IH2]]; [split; [done|]; intros info [= <-]; constructor|].
  cbn [mapM]. destruct (coerced_shape d f st) as [H1 H2].
  destruct (coerced d f st) as [[e|o] st'] eqn:Ho; cbn in H1; subst st'; [by rewrite (bind_inl _ _ _ _ _ Ho)|].
  rewrite (bind_inr _ _ _ _ _ Ho).
  destruct (mapM (coerced d) fs st) as [[e|os] st'] eqn:Hos; cbn in IH1; subst st'; [by rewrite (bind_inl _ _ _ _ _ Hos)|].
  rewrite (bind_inr _ _ _ _ _ Hos). split; [done|]. intros info [= <-]. constructor; [by apply H2|by apply IH2].
Qed.

(** ** What the handler of a record makes *)

(** The tuples made of a record's fields. *)
Definition tuple_table : list (string * string * (string * list (string * coerce))) :=
  MC1_SIMPLE ++
  [("rm", "free", ("free", ints ["old"])); ("uvm", "map_external", ("map_uvm", ints ["hmemory"; "base"; "length"; "offset"]));
   ("dbell", "sysmem_track", ("sysmem_track_add",
      ints ["slot"; "user_va_start"; "user_va_end"; "num_pages"] ++ [("kva", _S)]));
   ("dbell", "sysmem_track", ("sysmem_track_remove", ("kva", _S) :: ints ["num_pages"]));
   ("dbell", "bar1_track", ("bar1_track_add", ints ["slot"; "phys"; "size"] ++ [("kva", _S)]));
   ("dbell", "bar1_track", ("bar1_track_remove", ints ["slot"] ++ [("kva", _S)]))].

Definition from_table (key : text * text) (e : event) : Prop :=
  ∃ c ev kind fs, (c, ev, (kind, fs)) ∈ tuple_table ∧ key = (codes c, codes ev) ∧ ev_kind e = codes kind ∧
    Forall2 (λ f o, shape f.2 o) fs (ev_info e).

(** An event a record of [key] can make. *)
Definition made (key : text * text) (e : event) : Prop :=
  from_table key e ∨ (ev_kind e = codes "ioctl" ∧ ∃ a b, ev_info e = [OStr a; OStr b]) ∨
  (ev_kind e = codes "pb_bytes" ∧ ∃ o1 o2 o3 o4 o5, ev_info e = [o1; o2; o3; o4; o5]).

Section handlers.
Context (n p t : Z) (d : mc1_dict).

Lemma emit_tuple_made c ev kind fs : (c, ev, (kind, fs)) ∈ tuple_table →
  adds_only (made (codes c, codes ev)) (emit_tuple n p t d kind fs).
Proof.
  intros Hin st. unfold emit_tuple, mbind, py_bind. destruct (mapM_shape d fs st) as [H1 H2].
  destruct (mapM (coerced d) fs st) as [[e|info] st'] eqn:Hm; cbn in H1; subst st'; [exists []; by rewrite app_nil_r|].
  apply keeps_append. left. exists c, ev, kind, fs. split_and!; [done..|]. by apply H2.
Qed.

Lemma on_simple_made key : adds_only (made key) (on_simple n p t key d).
Proof.
  unfold on_simple. destruct (list_find _ MC1_SIMPLE) as [[i [[c e] [k fs]]]|] eqn:Hf; [|apply keeps_ret].
  apply list_find_Some in Hf as (Hi & Hk%Is_true_true%bool_decide_eq_true & _). cbn [fst snd] in Hk. subst key. apply keeps_bind.
  - apply emit_tuple_made, elem_of_app. left. by eapply list_elem_of_lookup_2.
  - intros _. destruct (String.eqb k "pb"); [|apply keeps_ret]. apply keeps_append. right. left. split; [done|]. by eexists _, _.
Qed.

Lemma find_acc_made key seq : adds_only (made key) (find_acc n p t d seq).
Proof.
  apply keeps_bind; [by apply keeps_same|]. intros tbl. destruct (tbl !! seq); [apply keeps_ret|].
  do 3 (apply keeps_bind; [apply keeps_get_int|intros ?]). apply keeps_bind; [by apply keeps_same|]. intros _. apply keeps_ret.
Qed.

Lemma store_chunk_made key seq off acc : adds_only (made key) (store_chunk d seq off acc).
Proof.
  apply keeps_bind; [apply keeps_get_raw|]. intros hex. apply keeps_bind; [by apply keeps_same|]. intros _.
  destruct (_ =? _); [|apply keeps_ret]. destruct (chunk_texts _); [|apply keeps_raise].
  apply keeps_bind; [|intros _; by apply keeps_same]. apply keeps_append. right. right. split; [done|]. by eexists _, _, _, _, _.
Qed.

Ltac in_table := unfold tuple_table, MC1_SIMPLE; cbn [app]; repeat (apply list_elem_of_here || apply list_elem_of_further).

Lemma dispatch_made key : adds_only (made key) (dispatch n p t key d).
Proof.
  unfold dispatch, is_key_of. repeat case_bool_decide; try subst key.
  - unfold on_alloc. case_match; [|apply keeps_ret]. do 5 (apply keeps_bind; [apply keeps_get_int|intros ?]). by apply keeps_same.
  - apply keeps_ret.
  - apply keeps_bind; [apply keeps_get_int|intros id]. apply keeps_bind; [by apply keeps_same|intros tbl].
    destruct (dict_get id tbl); [|apply keeps_ret]. destruct (d !! codes "dw") as [[|dw]|]; try apply keeps_ret.
    apply keeps_bind; [apply keeps_get_int|intros off]. apply keeps_bind; [apply keeps_place|intros dws]. by apply keeps_same.
  - unfold on_uvm_ioctl. case_match; [|apply keeps_ret]. do 2 (apply keeps_bind; [apply keeps_get_int|intros ?]). by apply keeps_same.
  - apply keeps_bind; [apply keeps_get_int|intros id]. apply keeps_bind; [by apply keeps_same|intros tbl].
    destruct (dict_get id tbl); [|apply keeps_ret]. destruct (d !! codes "dw") as [[|dw]|]; try apply keeps_ret.
    apply keeps_bind; [apply keeps_get_int|intros off]. apply keeps_bind; [apply keeps_place|intros dws]. by apply keeps_same.
  - do 2 (apply keeps_bind; [apply keeps_get_int|intros ?]). apply keeps_bind; [apply find_acc_made|intros acc]. apply store_chunk_made.
  - apply keeps_bind; [apply keeps_get_int|intros esc]. apply keeps_append. right. left. split; [done|]. by eexists _, _.
  - unfold on_free. case_match; [|apply keeps_ret]. apply emit_tuple_made. in_table.
  - unfold on_map_external. case_match; [|apply keeps_ret]. apply emit_tuple_made. in_table.
  - unfold on_sysmem_track. repeat case_match; [| |apply keeps_ret]; apply emit_tuple_made; in_table.
  - unfold on_bar1_track. repeat case_match; [| |apply keeps_ret]; apply emit_tuple_made; in_table.
  - apply on_simple_made.
Qed.
End handlers.

Section shapes.
Context (py_str : list pyobj → text).

Definition projects (e : event) : Prop := is_Some (_ftrace_info_to_dict py_str (ev_kind e) (ev_info e)).

(** The tuples of a kind as the table or a handler makes them. *)
Definition shape_ok (kind : string) (fs : list (string * coerce)) : Prop :=
  ∀ info, Forall2 (λ f o, shape f.2 o) fs info → is_Some (_ftrace_info_to_dict py_str (codes kind) info).

Ltac solve_shape :=
  let info := fresh in let H := fresh in
  intros info H; cbn in H;
  repeat (let o := fresh in let Ho := fresh in apply Forall2_cons_inv_l in H as (o & ? & Ho & H & ->); cbn in Ho;
          match type of Ho with ex _ => destruct Ho as [? ->] | _ => clear Ho end);
  apply Forall2_nil_inv_l in H as ->; eexists; reflexivity.

Lemma table_shapes : Forall (λ e, shape_ok e.2.1 e.2.2) tuple_table.
Proof. unfold tuple_table. repeat (constructor; [cbn [fst snd]; solve_shape|]). constructor. Qed.

Lemma made_projects key e : made key e → projects e.
Proof.
  unfold projects. intros [(c & ev & kind & fs & Hin & _ & -> & Hfs)|[(-> & a & b & ->)|(-> & o1 & o2 & o3 & o4 & o5 & ->)]]; [|by eexists..].
  pose proof table_shapes as Ht. rewrite Forall_forall in Ht. by apply (Ht _ Hin).
Qed.

Lemma dispatch_projects n p t key d : adds_only projects (dispatch n p t key d).
Proof. eapply keeps_weaken; [apply dispatch_made|]. apply made_projects. Qed.

Context (unescape : text → option text) (ts_ns_of : text → Z).

Lemma parse_record_projects n p t rec : adds_only projects (parse_record n p t unescape rec).
Proof.
  apply keeps_catch. destruct (match_record rec) as [[[cat ev] fields]|]; [|apply keeps_ret].
  destruct (_mc1_fields unescape fields); [apply dispatch_projects|apply keeps_raise].
Qed.

Lemma for_records_projects n p t recs : adds_only projects (for_records unescape n p t recs).
Proof.
  induction recs as [|rec recs IH]; [apply keeps_ret|]. apply keeps_bind; [apply parse_record_projects|done].
Qed.

Lemma parse_lines_projects raws : ∀ n, adds_only projects (parse_lines unescape ts_ns_of n raws).
Proof.
  induction raws as [|raw raws IH]; intros n; [apply keeps_ret|]. apply keeps_bind; [|done]. unfold parse_line.
  destruct (starts_with _ raw); [apply keeps_ret|]. destruct (match_line raw) as [[[pid ts] payload]|]; [|apply keeps_ret].
  destruct (num 10 pid); [apply for_records_projects|apply keeps_raise].
Qed.

Lemma flush_projects (l1 : list alloc_acc) (l2 : list uvm_acc) : Forall projects ((l1 ≫= flush_alloc) ++ (l2 ≫= flush_uvm)).
Proof.
  apply Forall_app. split; apply Forall_bind, Forall_true; intros x; repeat constructor; unfold projects; cbn [ev_kind ev_info].
  - unfold decode_alloc_body. destruct (aa_dwords x); [by eexists|]. repeat case_match; by eexists.
  - by eexists.
  - by eexists.
Qed.
End shapes.

(** ** What escapes the parser *)

Definition escapes (e : exc) : Prop := e = TypeError ∨ e = IndexError.

Lemma take_while_Forall f t : Forall (λ c, f c = true) (take_while f t).
Proof. induction t as [|c t IH]; [constructor|]. simpl. destruct (f c) eqn:Hc; [by constructor|constructor]. Qed.

Lemma digit_value_digit c : is_digit c = true → ∃ d, digit_value 10 c = Some d.
Proof.
  intros Hc. unfold digit_value. rewrite Hc. unfold is_digit in Hc. apply andb_true_iff in Hc as [H1 H2]. rewrite Z.leb_le in *.
  rewrite (proj2 (Z.ltb_lt _ _)) by lia. by eexists.
Qed.

Lemma num_rest_digit c acc t : is_digit c = true → num_rest 10 acc (c :: t) =
  match digit_value 10 c with Some d => num_rest 10 (acc * 10 + d) t | None => None end.
Proof. intros Hc. cbn [num_rest]. char_cases c. Qed.

Lemma num_of_digits ds : all_digits ds → is_Some (num 10 ds).
Proof.
  intros [Hne Hds]. destruct ds as [|c ds]; [done|]. apply Forall_cons in Hds as [Hc Hds].
  destruct (digit_value_digit c Hc) as [d Hd]. cbn [num]. rewrite Hd. clear Hne Hc Hd. revert d.
  induction Hds as [|c' ds Hc' _ IH]; intros d; [by eexists|]. rewrite num_rest_digit by done.
  destruct (digit_value_digit c' Hc') as [d' ->]. apply IH.
Qed.

Lemma match_line_digits raw pid ts payload : match_line raw = Some (pid, ts, payload) → all_digits pid.
Proof.
  intros H. unfold match_line in H. apply bind_Some in H as ([w r] & _ & H). apply bind_Some in H as (pid' & Hp & H).
  assert (pid' = pid) as ->.
  { repeat (let x := fresh in apply bind_Some in H as (x & _ & H); try destruct x as [? x]). by simplify_eq. }
  unfold word_pid in Hp. pose proof (take_while_Forall is_digit (reverse w)) as Hf.
  destruct (reverse (take_while is_digit (reverse w))) as [|c ds] eqn:Hr; [done|].
  assert (pid = c :: ds) as ->. { destruct (drop_while is_digit (reverse w)) as [|x l]; [done|]. revert Hp. char_cases x; destruct l; naive_solver. }
  split; [done|]. rewrite <-Hr. by apply Forall_reverse.
Qed.

Section escape.
Context (unescape : text → option text) (ts_ns_of : text → Z).

Definition escaping (m : py unit) : Prop := ∀ st e, (m st).1 = inl e → escapes e.

Lemma escaping_bind m1 (m2 : unit → py unit) : escaping m1 → (∀ x, escaping (m2 x)) → escaping (m1 ≫= m2).
Proof.
  intros H1 H2 st e. destruct (m1 st) as [[e'|x] st'] eqn:Hm.
  - rewrite (bind_inl _ _ _ _ _ Hm). intros [= <-]. apply (H1 st). by rewrite Hm.
  - rewrite (bind_inr _ _ _ _ _ Hm). apply H2.
Qed.

Lemma escaping_catch m : escaping (catch m).
Proof. intros st e. unfold catch. destruct (m st) as [[[]|x] st']; simpl; intros [= <-]; [by left|by right]. Qed.

Lemma parse_lines_escaping raws : ∀ n, escaping (parse_lines unescape ts_ns_of n raws).
Proof.
  induction raws as [|raw raws IH]; intros n; [done|]. apply escaping_bind; [|done]. unfold parse_line.
  destruct (starts_with _ raw); [done|]. destruct (match_line raw) as [[[pid ts] payload]|] eqn:Hm; [|done].
  destruct (num_of_digits pid (match_line_digits _ _ _ _ Hm)) as [z ->].
  induction (_split_mc1 payload) as [|rec recs IHr]; [done|]. apply escaping_bind; [|done]. apply escaping_catch.
Qed.
End escape.

Lemma normalize_event_ok py_str src ts e data : _ftrace_info_to_dict py_str (ev_kind e) (ev_info e) = Some data →
  normalize_event py_str src ts e = Some (TEv ts src (Some (JInt (ev_pid e))) None (ev_kind e) data (Some (ev_line e))).
Proof. intros Hd. unfold normalize_event. by rewrite Hd. Qed.

Lemma normalize_all py_str evs : Forall (projects py_str) evs → ∃ out, normalize_ftrace py_str evs = Some out ∧
  Forall2 (λ e o, te_ts o = ev_ts e ∧ te_kind o = ev_kind e ∧ te_pid o = Some (JInt (ev_pid e)) ∧ te_line o = Some (ev_line e)) evs out.
Proof.
  unfold normalize_ftrace. induction 1 as [|e evs [data Hd] _ (out & Hout & Hf)]; [by exists []|].
  exists (TEv (ev_ts e) Ftrace (Some (JInt (ev_pid e))) None (ev_kind e) data (Some (ev_line e)) :: out). cbn [mapM].
  rewrite (normalize_event_ok _ _ _ _ _ Hd). cbn [mbind option_bind]. rewrite Hout. split; [done|]. by constructor.
Qed.

Lemma parse_projects py_str unescape ts_ns_of raws evs : parse_ftrace unescape ts_ns_of raws = inr evs → Forall (projects py_str) evs.
Proof.
  unfold parse_ftrace. destruct (parse_lines_projects py_str unescape ts_ns_of raws 1 pstate0) as (es & Hes & Hp).
  destruct (parse_lines unescape ts_ns_of 1 raws pstate0) as [[e|[]] st]; [done|]. cbn [snd p_events pstate0 app] in Hes.
  rewrite <-Hes in Hp. intros [= <-]. apply Forall_app. split; [done|apply flush_projects].
Qed.

(** C17: The two halves of the event contract agree: whatever the text of a capture, every event the parser
    makes has the shape the timeline unpacks for its kind, so each becomes an object with its time, process
    and kind; and what can end the parser is a value of the wrong type or a place before the start of a list. *)
Theorem ftrace_event_shapes py_str unescape ts_ns_of raws :
  match parse_ftrace unescape ts_ns_of raws with
  | inl e => e = TypeError ∨ e = IndexError
  | inr evs => ∃ out, normalize_ftrace py_str evs = Some out ∧
      Forall2 (λ e o, te_ts o = ev_ts e ∧ te_kind o = ev_kind e ∧ te_pid o = Some (JInt (ev_pid e)) ∧ te_line o = Some (ev_line e)) evs out
  end.
Proof.
  destruct (parse_ftrace unescape ts_ns_of raws) as [e|evs] eqn:Hparse; [|by eapply normalize_all, parse_projects].
  pose proof (parse_lines_escaping unescape ts_ns_of raws 1 pstate0) as He. unfold parse_ftrace in Hparse.
  destruct (parse_lines unescape ts_ns_of 1 raws pstate0) as [[e'|[]] st]; simplify_eq. by apply He.
Qed.

(** * The merge *)

Section sort.
Context {A : Type} (key : A → Z).

Definition not_after (x y : A) : Prop := key x ≤ key y.

Lemma insert_by_perm x l : insert_by key x l ≡ₚ x :: l.
Proof. induction l as [|y l IH]; [done|]. simpl. case_match; [|done]. rewrite IH. constructor. Qed.

Lemma insert_by_sorted x l : StronglySorted not_after l → StronglySorted not_after (insert_by key x l).
Proof.
  induction 1 as [|y l Hl IH Hf]; simpl; [by repeat constructor|]. destruct (Z.ltb_spec (key y) (key x)).
  - constructor; [done|]. rewrite insert_by_perm. constructor; [unfold not_after; lia|done].
  - constructor; [by constructor|]. constructor; [done|]. eapply Forall_impl; [exact Hf|]. unfold not_after. lia.
Qed.

(** Among elements of one key, the order of insertion is kept. *)
Lemma insert_by_stable x l t : StronglySorted not_after l →
  filter (λ z, key z = t) (insert_by key x l) = filter (λ z, key z = t) (x :: l).
Proof.
  induction 1 as [|y l Hl IH Hf]; [done|]. simpl insert_by. destruct (Z.ltb_spec (key y) (key x)); [|done].
  rewrite filter_cons, IH, !filter_cons. repeat case_decide; (done || lia).
Qed.

Lemma sort_by_ok l :
  StronglySorted not_after (sort_by key l) ∧ sort_by key l ≡ₚ l ∧
  ∀ t, filter (λ z, key z = t) (sort_by key l) = filter (λ z, key z = t) l.
Proof.
  induction l as [|x l (IH1 & IH2 & IH3)]; [split_and!; done || constructor|]. cbn [sort_by foldr]. fold (sort_by key l).
  split_and!; [by apply insert_by_sorted|by rewrite insert_by_perm, IH2|]. intros t.
  rewrite insert_by_stable, !filter_cons, IH3 by done. done.
Qed.
End sort.

(** The merged timeline has every event of the three sources exactly once, in the order of their times,
    and events of one time in the order shim, ftrace, strace and within a source as the source has them. *)
Lemma merge_all_sorted pbcap ftrace strace :
  let out := merge_all pbcap ftrace strace in
  StronglySorted (λ e1 e2, te_ts e1 ≤ te_ts e2) out ∧ out ≡ₚ pbcap ++ ftrace ++ strace ∧
  ∀ t, filter (λ e, te_ts e = t) out =
    filter (λ e, te_ts e = t) pbcap ++ filter (λ e, te_ts e = t) ftrace ++ filter (λ e, te_ts e = t) strace.
Proof.
  intros out. destruct (sort_by_ok te_ts (pbcap ++ ftrace ++ strace)) as (H1 & H2 & H3).
  split; [exact H1|]. split; [exact H2|]. intros t. unfold out, merge_all. by rewrite H3, !filter_app.
Qed.

(** ** The filter and the window *)

Lemma apply_filter_ok events kinds : kinds ≠ [] →
  apply_filter events kinds = filter (λ e, existsb (kind_matches (te_kind e)) kinds = true) events.
Proof.
  intros Hne. unfold apply_filter. destruct kinds as [|k0 ks]; [done|]. clear Hne. apply list_filter_iff. intros e.
  rewrite orb_true_iff, bool_decide_eq_true, !existsb_exists. split.
  - intros [Hin|(w & Hin & Hw)].
    + apply list_elem_of_filter in Hin as [Hx Hin]. exists (te_kind e). split; [by apply list_elem_of_In|].
      unfold kind_matches. rewrite Hx. by apply bool_decide_eq_true.
    + apply list_elem_of_In, list_elem_of_fmap in Hin as (k & -> & Hin). apply list_elem_of_filter in Hin as [Hx Hin].
      exists k. split; [by apply list_elem_of_In|]. unfold kind_matches. by rewrite Hx.
  - intros (k & Hin%list_elem_of_In & Hk). unfold kind_matches in Hk. destruct (ends_with (codes ".*") k) eqn:Hx.
    + right. exists (removelast k). split; [|done]. apply list_elem_of_In, list_elem_of_fmap. exists k. split; [done|].
      by apply list_elem_of_filter.
    + left. apply bool_decide_eq_true in Hk as ->. by apply list_elem_of_filter.
Qed.

(** The window is a part of the timeline with the first match in it and at most so many events on each side. *)
Lemma apply_window_ok py_repr events key value n i e :
  list_find (λ e, is_anchor py_repr key value e = true) events = Some (i, e) → 0 ≤ n →
  ∃ pre post, events = pre ++ apply_window py_repr events key value n ++ post ∧
    Z.of_nat (length pre) = Z.max 0 (Z.of_nat i - n) ∧
    Z.of_nat (length post) = Z.max 0 (Z.of_nat (length events) - Z.of_nat i - n - 1) ∧
    apply_window py_repr events key value n !! (i - length pre)%nat = Some e.
Proof.
  intros Hf Hn. unfold apply_window. rewrite Hf. apply list_find_Some in Hf as (Hi & _). pose proof (lookup_lt_Some _ _ _ Hi) as Hlt.
  unfold slice. set (lo := Z.max 0 (Z.of_nat i - n)). set (hi := Z.min _ _).
  rewrite !(proj2 (Z.ltb_ge _ 0)) by (unfold lo, hi; lia). exists (take (Z.to_nat lo) events), (drop (Z.to_nat hi) events).
  assert (Z.to_nat lo + Z.to_nat (hi - lo) = Z.to_nat hi)%nat as Hsum by (unfold lo, hi; lia).
  split_and!.
  - rewrite <-Hsum, <-drop_drop, take_drop. by rewrite take_drop.
  - rewrite length_take. unfold lo. lia.
  - rewrite length_drop. unfold hi. lia.
  - rewrite length_take, lookup_take_lt, lookup_drop by (unfold lo, hi; lia). rewrite <-Hi. f_equal. unfold lo. lia.
Qed.

(** The clock of strace: times keep their distances, and the anchor itself falls on the anchor. *)
Lemma normalize_strace_clock py_str events real mono out : normalize_strace py_str events (Some real) (Some mono) = Some out →
  Forall2 (λ e o, te_ts o - mono = ev_ts (se_event e) - real ∧ te_kind o = ev_kind (se_event e))
    (filter (λ e, se_has_ts e = true) events) out.
Proof.
  unfold normalize_strace. intros H%mapM_Some. eapply Forall2_impl; [exact H|]. intros e o Ho. cbn in Ho. unfold normalize_event in Ho.
  destruct (_ftrace_info_to_dict _ _ _); [|done]. simplify_eq/=. split; [lia|done].
Qed.
