(* ===== verification/TraceSection.v ===== *)
(** * Sections of the timeline: trace_section.py

    trace_section.py takes the merged timeline (Timeline), finds the events between a call's
    [.enter] and [.exit] and folds the rows that strace, the ioctl trace and the UVM trace
    leave of one ioctl into one event. *)

From stdpp Require Import base numbers list gmap strings sorting.
From S2P Require Import Prelude TraceText FtraceParse Timeline.
#[local] Open Scope Z_scope.

(** ** The window of a call *)

Record scan := Scan {
  sc_windows : list (nat * nat);    (** [zip(enters, exits)] *)
  sc_depth : nat;
  sc_pending : option nat }.

Definition enter_kind (section : text) : text := section ++ codes ".enter".

Definition exit_kind (section : text) : text := section ++ codes ".exit".

Definition scan_event (section : text) (i : nat) (ev : tev) (s : scan) : scan :=
  if bool_decide (te_kind ev = enter_kind section) then
    Scan (sc_windows s) (S (sc_depth s)) (if decide (sc_depth s = 0%nat) then Some i else sc_pending s)
  else if bool_decide (te_kind ev = exit_kind section) then
    match sc_depth s with
    | O => s
    | S d =>
        match d, sc_pending s with
        | O, Some p => Scan (sc_windows s ++ [(p, i)]) O None
        | _, _ => Scan (sc_windows s) d (sc_pending s)
        end
    end
  else s.

Fixpoint scan_from (section : text) (i : nat) (events : list tev) (s : scan) : scan :=
  match events with
  | [] => s
  | ev :: events => scan_from section (S i) events (scan_event section i ev s)
  end.

Inductive window :=
| NoWindow
| IndexErr
| Window (enter exit : tev) (inside : list tev).

(** An occurrence below zero counts from the last, as an index of a list does. *)
Definition find_window (events : list tev) (section : text) (occurrence : Z) : window :=
  let w := sc_windows (scan_from section 0 events (Scan [] 0 None)) in
  let n := Z.of_nat (length w) in
  if bool_decide (w = []) || (n <=? occurrence) then NoWindow
  else
    let at_ := if occurrence <? 0 then occurrence + n else occurrence in
    if at_ <? 0 then IndexErr
    else match w !! Z.to_nat at_ with
         | None => IndexErr
         | Some (e, x) =>
             match events !! e, events !! x with
             | Some enter, Some exit => Window enter exit (slice (Z.of_nat e) (Z.of_nat x + 1) events)
             | _, _ => IndexErr
             end
         end.

(** ** Folding *)

Definition FOLD_WINDOW_NS : Z := 100000.

Definition row_is (src : source) (kind : string) (ev : tev) : bool :=
  bool_decide (te_src ev = src) && kind_is (te_kind ev) kind.

Definition _is_ioctl_like (ev : tev) : bool :=
  row_is Strace "ioctl" ev || (row_is Ftrace "ioctl" ev || row_is Ftrace "uvm_ioctl" ev).

Definition cmd_name (ev : tev) : json := get_or_none (te_data ev) "cmd_name".

Definition src_kind (ev : tev) : source * text := (te_src ev, te_kind ev).

(** A candidate joins the cluster [first] opened, with the pairs in [seen]. *)
Definition joins (first : tev) (seen : list (source * text)) (cand : tev) : bool :=
  negb (FOLD_WINDOW_NS <? te_ts cand - te_ts first) && _is_ioctl_like cand &&
  json_eqb (cmd_name cand) (cmd_name first) && negb (bool_decide (src_kind cand ∈ seen)).

(** The inner loop: what joins, and what is left. *)
Fixpoint collect (first : tev) (seen : list (source * text)) (events : list tev) : list tev * list tev :=
  match events with
  | cand :: rest =>
      if joins first seen cand then
        let (c, later) := collect first (src_kind cand :: seen) rest in (cand :: c, later)
      else ([], events)
  | [] => ([], [])
  end.

Definition strace_part (c : tev) : json :=
  let cd := te_data c in
  JDict [fld "fd" (get_or_none cd "fd"); fld "path" (get_or_none cd "path"); fld "size" (get_or_none cd "size");
         fld "ret" (get_or_none cd "ret")].

Definition uvm_part (c : tev) : json :=
  let cd := te_data c in
  JDict [fld "cmd" (get_or_none cd "cmd");
         fld "dwords" (if truthy (get_or_none cd "dwords") then get_or_none cd "dwords" else JList [])].

(** What a row of the cluster adds to the data, and its name among the components. *)
Definition component (c : tev) : option ((text * json) * text) :=
  if row_is Strace "ioctl" c then Some (fld "strace" (strace_part c), codes "strace")
  else if row_is Ftrace "ioctl" c then Some (fld "ftrace_ioctl" (JBool true), codes "ftrace")
  else if row_is Ftrace "uvm_ioctl" c then Some (fld "uvm" (uvm_part c), codes "uvm")
  else None.

Definition synthetic (first : tev) (cluster : list tev) : tev :=
  let parts := omap component cluster in
  TEv (te_ts first) Folded (te_pid first) None (codes "_folded_ioctl")
    (fld "cmd_name" (cmd_name first) :: parts.*1 ++ [fld "_components" (JList (JStr <$> parts.*2))]) None.

(** The outer loop; every round takes at least one event, so the number of events is fuel enough. *)
Fixpoint fold_loop (fuel : nat) (events : list tev) : option (list tev) :=
  match events, fuel with
  | [], _ => Some []
  | _, O => None
  | ev :: rest, S fuel =>
      if negb (_is_ioctl_like ev) then cons ev <$> fold_loop fuel rest
      else if negb (truthy (cmd_name ev)) then cons ev <$> fold_loop fuel rest
      else
        match collect ev [src_kind ev] rest with
        | ([], _) => cons ev <$> fold_loop fuel rest
        | (c, later) => cons (synthetic ev (ev :: c)) <$> fold_loop fuel later
        end
  end.

Definition fold_ioctl_pairs (events : list tev) : option (list tev) := fold_loop (length events) events.

(** * The window is the call *)

Section window_proofs.
Context (section : text).

Definition is_enter (e : tev) : Prop := te_kind e = enter_kind section.

Definition is_exit (e : tev) : Prop := te_kind e = exit_kind section.

(** The number of calls open after an event. *)
Definition depth_after (d : nat) (e : tev) : nat :=
  if bool_decide (te_kind e = enter_kind section) then S d
  else if bool_decide (te_kind e = exit_kind section) then pred d else d.

(** With [d] calls open, the last of the events closes them all and none before it does. *)
Fixpoint closes (d : nat) (l : list tev) : bool :=
  match l with
  | [] => false
  | e :: l => match depth_after d e with O => bool_decide (length l = 0%nat) | S d' => closes (S d') l end
  end.

Fixpoint stays_open (d : nat) (l : list tev) : bool :=
  match l with
  | [] => true
  | e :: l => match depth_after d e with O => false | S d' => stays_open (S d') l end
  end.

(** One outermost call, from its [.enter] to the [.exit] that closes it. *)
Definition is_call (b : list tev) : Prop := ∃ en l, b = en :: l ∧ is_enter en ∧ closes 1 l = true.

(** Between calls there is no [.enter]; an [.exit] whose [.enter] was lost may be there. *)
Definition is_gap (g : list tev) : Prop := Forall (λ e, ¬ is_enter e) g.

(** After the last complete call: a gap, or a gap and a call that is still open. *)
Definition is_tail (t : list tev) : Prop :=
  is_gap t ∨ ∃ g en l, t = g ++ en :: l ∧ is_gap g ∧ is_enter en ∧ stays_open 1 l = true.

(** A timeline cut into gaps and calls. *)
Fixpoint timeline (cuts : list (list tev * list tev)) (tail : list tev) : list tev :=
  match cuts with
  | [] => tail
  | (g, b) :: cuts => g ++ b ++ timeline cuts tail
  end.

Fixpoint positions (i : nat) (cuts : list (list tev * list tev)) : list (nat * nat) :=
  match cuts with
  | [] => []
  | (g, b) :: cuts => (i + length g, i + length g + pred (length b))%nat :: positions (i + length g + length b) cuts
  end.

Lemma enter_not_exit : enter_kind section ≠ exit_kind section.
Proof. intros H. apply (f_equal length) in H. unfold enter_kind, exit_kind in H. rewrite !length_app in H. vm_compute (length (codes _)) in H. lia. Qed.

Lemma scan_gap g : ∀ i l w, is_gap g →
  scan_from section i (g ++ l) (Scan w 0 None) = scan_from section (i + length g) l (Scan w 0 None).
Proof.
  induction g as [|e g IH]; intros i l w Hg; [by rewrite Nat.add_0_r|]. inversion_clear Hg as [|?? He Hg']. simpl.
  unfold scan_event at 1. rewrite bool_decide_eq_false_2 by done. case_bool_decide; simpl; rewrite IH by done; f_equal; lia.
Qed.

Lemma scan_inside d e i w p : (0 < d)%nat → scan_event section i e (Scan w d (Some p)) =
  match depth_after d e with
  | O => Scan (w ++ [(p, i)]) 0 None
  | S d' => Scan w (S d') (Some p)
  end.
Proof.
  intros Hd. destruct d as [|d]; [lia|]. unfold scan_event, depth_after. case_bool_decide; [done|]. case_bool_decide; [|done].
  simpl. by destruct d.
Qed.

Lemma scan_call l : ∀ d i rest w p, (0 < d)%nat → closes d l = true →
  scan_from section i (l ++ rest) (Scan w d (Some p)) =
    scan_from section (i + length l) rest (Scan (w ++ [(p, i + pred (length l))%nat]) 0 None).
Proof.
  induction l as [|e l IH]; intros d i rest w p Hd Hc; [done|]. cbn [app scan_from]. rewrite scan_inside by done.
  simpl in Hc. destruct (depth_after d e) as [|d'].
  - apply bool_decide_eq_true, length_zero_iff_nil in Hc as ->. simpl. by rewrite Nat.add_0_r, Nat.add_1_r.
  - rewrite IH by (done || lia). destruct l as [|e' l]; [done|]. simpl. do 2 f_equal; [lia|]. do 3 f_equal. lia.
Qed.

Lemma scan_open l : ∀ d i w p, (0 < d)%nat → stays_open d l = true →
  sc_windows (scan_from section i l (Scan w d (Some p))) = w.
Proof.
  induction l as [|e l IH]; intros d i w p Hd Hc; [done|]. cbn [scan_from]. rewrite scan_inside by done.
  simpl in Hc. destruct (depth_after d e) as [|d']; [done|]. apply IH; [lia|done].
Qed.

Lemma scan_enter en i l w : is_enter en →
  scan_from section i (en :: l) (Scan w 0 None) = scan_from section (S i) l (Scan w 1 (Some i)).
Proof. intros He. simpl. unfold scan_event at 1. by rewrite bool_decide_eq_true_2. Qed.

Lemma scan_tail t i w : is_tail t → sc_windows (scan_from section i t (Scan w 0 None)) = w.
Proof.
  intros [Hg|(g & en & l & -> & Hg & He & Ho)].
  - rewrite <-(app_nil_r t), scan_gap by done. done.
  - rewrite scan_gap, scan_enter by done. apply scan_open; [lia|done].
Qed.

Lemma scan_timeline cuts tail : ∀ i w, Forall (λ c, is_gap c.1 ∧ is_call c.2) cuts → is_tail tail →
  sc_windows (scan_from section i (timeline cuts tail) (Scan w 0 None)) = w ++ positions i cuts.
Proof.
  induction cuts as [|[g b] cuts IH]; intros i w Hc Ht; [rewrite app_nil_r; by apply scan_tail|].
  apply Forall_cons in Hc as [[Hg (en & l & Hb & He & Hl)] Hc']. cbn [fst snd] in *. subst b. cbn [timeline].
  rewrite scan_gap by done. cbn [app]. rewrite scan_enter, scan_call, IH by (done || lia). cbn [positions length].
  destruct l as [|e l]; [done|]. rewrite <-app_assoc. cbn [app pred length]. do 2 f_equal; [f_equal; lia|]. f_equal. lia.
Qed.

Lemma length_positions cuts : ∀ i, length (positions i cuts) = length cuts.
Proof. induction cuts as [|[g b] cuts IH]; intros i; [done|]. simpl. by rewrite IH. Qed.

(** Where the call of a cut lies in the timeline. *)
Lemma positions_lookup cuts tail k g b : ∀ i, cuts !! k = Some (g, b) →
  ∃ pre post, timeline cuts tail = pre ++ b ++ post ∧
    positions i cuts !! k = Some (i + length pre, i + length pre + pred (length b))%nat.
Proof.
  revert k. induction cuts as [|[g' b'] cuts IH]; intros [|k] i Hk; simplify_eq/=.
  - by exists g, (timeline cuts tail).
  - destruct (IH k (i + length g' + length b')%nat Hk) as (pre & post & -> & ->). exists (g' ++ b' ++ pre), post.
    rewrite !length_app, <-!app_assoc. split; [done|]. do 2 f_equal; lia.
Qed.

Lemma slice_middle {A} (pre b post : list A) : b ≠ [] →
  slice (Z.of_nat (length pre)) (Z.of_nat (length pre + pred (length b)) + 1) (pre ++ b ++ post) = b.
Proof.
  intros Hb. destruct b as [|x b]; [done|]. unfold slice. rewrite !(proj2 (Z.ltb_ge _ 0)) by lia. rewrite Nat2Z.id, drop_app_length.
  replace (Z.to_nat _) with (length (x :: b)) by (cbn [length pred]; lia). apply take_app_length.
Qed.

Lemma ends_lookup {A} (pre : list A) en mid ex post :
  (pre ++ (en :: mid ++ [ex]) ++ post) !! length pre = Some en ∧
  (pre ++ (en :: mid ++ [ex]) ++ post) !! (length pre + pred (length (en :: mid ++ [ex])))%nat = Some ex.
Proof.
  split; [by apply list_lookup_middle|]. rewrite lookup_app_r by lia. rewrite lookup_app_l by (cbn; lia).
  replace (_ - _)%nat with (S (length mid)) by (cbn; rewrite length_app; cbn; lia). cbn. by apply list_lookup_middle.
Qed.

Lemma call_ends b : is_call b → ∃ en mid ex, b = en :: mid ++ [ex] ∧ is_enter en ∧ is_exit ex.
Proof.
  intros (en & l & -> & He & Hl). exists en. assert (∃ mid ex, l = mid ++ [ex] ∧ is_exit ex) as (mid & ex & -> & Hx); [|by exists mid, ex].
  revert Hl. assert (0 < 1)%nat as Hpos by lia. revert Hpos. generalize 1%nat as d.
  induction l as [|e l IH]; intros d Hpos Hl; [done|]. simpl in Hl. destruct (depth_after d e) as [|d'] eqn:Hd.
  - apply bool_decide_eq_true, length_zero_iff_nil in Hl as ->. exists [], e. split; [done|].
    unfold depth_after in Hd. repeat case_bool_decide; (done || lia).
  - destruct (IH (S d') ltac:(lia) Hl) as (mid & ex & -> & Hx). by exists (e :: mid), ex.
Qed.

(** Every timeline can be cut. *)
Lemma first_enter l : is_gap l ∨ ∃ g en r, l = g ++ en :: r ∧ is_gap g ∧ is_enter en.
Proof.
  induction l as [|e l [Hg|(g & en & r & -> & Hg & He)]]; [by left; apply Forall_nil_2|destruct (decide (te_kind e = enter_kind section)) as [Hk|Hk]..].
  - right. exists [], e, l. split_and!; [done|by apply Forall_nil_2|done].
  - left. by constructor.
  - right. exists [], e, (g ++ en :: r). split_and!; [done|by apply Forall_nil_2|done].
  - right. exists (e :: g), en, r. split_and!; [done|by constructor|done].
Qed.

Lemma closes_or_open l : ∀ d, stays_open d l = true ∨ ∃ b r, l = b ++ r ∧ closes d b = true.
Proof.
  induction l as [|e l IH]; intros d; [by left|]. simpl. destruct (depth_after d e) as [|d'] eqn:Hd.
  - right. exists [e], l. split; [done|]. simpl. by rewrite Hd.
  - destruct (IH (S d')) as [H|(b & r & -> & Hb)]; [by left|]. right. exists (e :: b), r. split; [done|]. simpl. by rewrite Hd.
Qed.

Lemma timeline_cut events : ∃ cuts tail, timeline cuts tail = events ∧
  Forall (λ c, is_gap c.1 ∧ is_call c.2) cuts ∧ is_tail tail.
Proof.
  induction events as [events IH] using (induction_ltof1 _ (length (A:=tev))). unfold ltof in IH.
  destruct (first_enter events) as [Hg|(g & en & r & -> & Hg & He)]; [exists [], events; by split_and!; try left|].
  destruct (closes_or_open r 1) as [Ho|(b & r' & -> & Hb)].
  { exists [], (g ++ en :: r). split_and!; [done..|]. right. by exists g, en, r. }
  destruct (IH r') as (cuts & tail & <- & Hc & Ht); [rewrite length_app; cbn; rewrite length_app; lia|].
  exists ((g, en :: b) :: cuts), tail. split_and!; [done| |done]. constructor; [|done]. split; [done|]. by exists en, b.
Qed.
End window_proofs.

(** In a timeline cut into gaps, complete outermost calls of a section and a tail, occurrence k of the
    section is exactly the k-th call, from its enter to the exit that closes it with nested calls inside;
    one below zero counts from the last call, and one out of range finds nothing or raises. *)
Theorem find_window_exact section cuts tail k :
  Forall (λ c, is_gap section c.1 ∧ is_call section c.2) cuts → is_tail section tail →
  match find_window (timeline cuts tail) section k with
  | NoWindow => Z.of_nat (length cuts) <= k ∨ cuts = []
  | IndexErr => k < - Z.of_nat (length cuts) ∧ cuts ≠ []
  | Window enter exit inside =>
      ∃ g mid, cuts !! Z.to_nat (if k <? 0 then k + Z.of_nat (length cuts) else k) = Some (g, inside) ∧
        - Z.of_nat (length cuts) <= k < Z.of_nat (length cuts) ∧
        inside = enter :: mid ++ [exit] ∧ is_enter section enter ∧ is_exit section exit
  end.
Proof.
  intros Hc Ht. unfold find_window. rewrite scan_timeline by done. cbn [app]. rewrite length_positions. set (n := Z.of_nat (length cuts)).
  destruct (bool_decide (positions 0 cuts = [])) eqn:Hn; cbn [orb].
  { right. apply bool_decide_eq_true in Hn. apply length_zero_iff_nil. by rewrite <-(length_positions cuts 0), Hn. }
  assert (cuts ≠ []) as Hne by (intros ->; by vm_compute in Hn). destruct (Z.leb_spec n k) as [|Hlt]; [by left|].
  set (j := if k <? 0 then k + n else k). assert (j < n) as Hjn by (unfold j; destruct (Z.ltb_spec k 0); lia).
  destruct (Z.ltb_spec j 0) as [Hj|Hj]; [split; [|done]; unfold j in Hj; destruct (Z.ltb_spec k 0); lia|].
  destruct (lookup_lt_is_Some_2 cuts (Z.to_nat j)) as [[g b] Hgb]; [lia|].
  destruct (positions_lookup cuts tail _ g b 0 Hgb) as (pre & post & -> & ->). cbn [Nat.add].
  assert (is_call section b) as Hcall by apply (Forall_lookup_1 _ _ _ _ Hc Hgb).
  destruct (call_ends _ _ Hcall) as (en & mid & ex & Hb & He & Hx).
  rewrite slice_middle by (rewrite Hb; done). subst b.
  destruct (ends_lookup pre en mid ex post) as [-> ->]. exists g, mid. split_and!; try done.
  unfold j in Hj. destruct (Z.ltb_spec k 0); lia.
Qed.

Lemma find_window_exact_witness :
  let ev := λ ts k, TEv ts Pbcap None None (codes k) [] None in
  let call := [ev 1 "f.enter"; ev 2 "f.enter"; ev 3 "f.exit"; ev 4 "f.exit"] in
  let cuts := [([ev 0 "g.exit"], call)] in
  find_window (timeline cuts [ev 5 "f.enter"]) (codes "f") (-1) = Window (ev 1 "f.enter") (ev 4 "f.exit") call ∧
  ∃ g mid, cuts !! 0%nat = Some (g, call) ∧ -1 <= -1 < 1 ∧ call = ev 1 "f.enter" :: mid ++ [ev 4 "f.exit"] ∧
    is_enter (codes "f") (ev 1 "f.enter") ∧ is_exit (codes "f") (ev 4 "f.exit").
Proof.
  intros ev call cuts. split; [reflexivity|]. apply (find_window_exact (codes "f") cuts [ev 5 "f.enter"] (-1)).
  - repeat constructor; [intros H; discriminate H|]. exists (ev 1 "f.enter"), [ev 2 "f.enter"; ev 3 "f.exit"; ev 4 "f.exit"].
    split_and!; reflexivity.
  - right. exists [], (ev 5 "f.enter"), []. split_and!; [done|constructor|reflexivity..].
Defined.

(** * Folding partitions the timeline *)

(** An event that opens a cluster. *)
Definition foldable (e : tev) : bool := _is_ioctl_like e && truthy (cmd_name e).

(** Rows of one ioctl: no two of one source and kind, all with the command and within the time of the first. *)
Definition cluster_ok (c : list tev) : Prop :=
  match c with
  | [] => False
  | [_] => True
  | first :: rest =>
      foldable first = true ∧ NoDup (src_kind <$> c) ∧
      Forall (λ e, _is_ioctl_like e = true ∧ json_eqb (cmd_name e) (cmd_name first) = true ∧
                   te_ts e - te_ts first <= FOLD_WINDOW_NS) rest
  end.

Definition fold_cluster (c : list tev) : list tev :=
  match c with
  | [] => []
  | [e] => [e]
  | first :: _ => [synthetic first c]
  end.

(** The event after the cluster does not join it. *)
Definition maximal (c later : list tev) : Prop :=
  match c, later with
  | first :: _, e :: _ => foldable first = true → joins first (src_kind <$> c) e = false
  | _, _ => True
  end.

Fixpoint all_maximal (cs : list (list tev)) : Prop :=
  match cs with
  | [] => True
  | c :: cs => maximal c (concat cs) ∧ all_maximal cs
  end.

Lemma joins_ok first seen e : joins first seen e = true ↔
  te_ts e - te_ts first <= FOLD_WINDOW_NS ∧ _is_ioctl_like e = true ∧
  json_eqb (cmd_name e) (cmd_name first) = true ∧ src_kind e ∉ seen.
Proof. unfold joins. rewrite !andb_true_iff, !negb_true_iff, bool_decide_eq_false, Z.ltb_ge. tauto. Qed.

Lemma joins_perm first seen seen' e : seen ≡ₚ seen' → joins first seen e = joins first seen' e.
Proof. intros Hp. apply eq_bool_prop_intro. rewrite !Is_true_true, !joins_ok. by rewrite Hp. Qed.

Lemma collect_ok first events : ∀ seen c later, NoDup seen → collect first seen events = (c, later) →
  events = c ++ later ∧ NoDup ((src_kind <$> c) ++ seen) ∧
  Forall (λ e, _is_ioctl_like e = true ∧ json_eqb (cmd_name e) (cmd_name first) = true ∧
               te_ts e - te_ts first <= FOLD_WINDOW_NS) c ∧
  match later with e :: _ => joins first ((src_kind <$> c) ++ seen) e = false | [] => True end.
Proof.
  induction events as [|e events IH]; intros seen c later Hnd Hc; simpl in Hc; [by simplify_eq/=|].
  destruct (joins first seen e) eqn:Hj; [|by simplify_eq/=]. destruct (collect _ _ events) as [c' later'] eqn:Hc'. simplify_eq/=.
  apply joins_ok in Hj as (Ht & Hi & Hn & Hs). destruct (IH _ _ _ (NoDup_cons_2 _ _ Hs Hnd) Hc') as (-> & Hnd' & Hf & Hm).
  assert ((src_kind <$> c') ++ src_kind e :: seen ≡ₚ src_kind e :: (src_kind <$> c') ++ seen) as Hp by by rewrite Permutation_middle.
  split_and!; [done|by rewrite <-Hp|by constructor|]. destruct later; [done|]. by rewrite <-(joins_perm _ _ _ _ Hp).
Qed.

Lemma fold_loop_clusters fuel : ∀ events, (length events ≤ fuel)%nat →
  ∃ cs, concat cs = events ∧ fold_loop fuel events = Some (cs ≫= fold_cluster) ∧ Forall cluster_ok cs ∧ all_maximal cs.
Proof.
  induction fuel as [|fuel IH]; intros [|ev rest] Hf; try (by exists []); [simpl in Hf; lia|]. simpl in Hf.
  destruct (IH rest) as (cs & Hcat & Hrun & Hok & Hmax); [lia|].
  assert (maximal [ev] rest → ∃ cs, concat cs = ev :: rest ∧ cons ev <$> fold_loop fuel rest = Some (cs ≫= fold_cluster) ∧
    Forall cluster_ok cs ∧ all_maximal cs) as Halone.
  { intros Hm. exists ([ev] :: cs). rewrite Hrun. split_and!; [by rewrite <-Hcat|done|by constructor|]. split; [by rewrite Hcat|done]. }
  cbn [fold_loop]. unfold maximal in Halone.
  destruct (_is_ioctl_like ev) eqn:Hi; cbn [negb]; [|apply Halone; unfold foldable; rewrite Hi; by destruct rest].
  destruct (truthy (cmd_name ev)) eqn:Hn; cbn [negb]; [|apply Halone; unfold foldable; rewrite Hi, Hn; by destruct rest].
  destruct (collect ev [src_kind ev] rest) as [c later] eqn:Hc. apply collect_ok in Hc as (Hrest & Hnd & Hall & Hm); [|apply NoDup_singleton].
  destruct c as [|e c]; [apply Halone; cbn in Hrest; subst later; by destruct rest|]. clear Halone.
  destruct (IH later) as (cs' & Hcat' & Hrun' & Hok' & Hmax'); [apply (f_equal length) in Hrest; rewrite length_app in Hrest; simpl in Hrest; lia|].
  assert ((src_kind <$> e :: c) ++ [src_kind ev] ≡ₚ src_kind <$> ev :: e :: c) as Hp by (rewrite Permutation_app_comm; done).
  exists ((ev :: e :: c) :: cs'). split_and!.
  - rewrite Hrest, <-Hcat'. done.
  - rewrite Hrun'. done.
  - constructor; [|done]. split_and!; [unfold foldable; by rewrite Hi, Hn|by rewrite <-Hp|done].
  - split; [|done]. rewrite Hcat'. destruct later; [done|]. intros _. by rewrite <-(joins_perm _ _ _ _ Hp).
Qed.

(** ** What a folded event carries *)

Lemma jget_unique d k v : (k, v) ∈ d → (∀ v', (k, v') ∈ d → v' = v) → jget d k = Some v.
Proof.
  intros Hin Hu. unfold jget. destruct (list_find_elem_of (λ f : text * json, f.1 = k) d (k, v) Hin eq_refl) as [[i [k' v']] Hf].
  rewrite Hf. simpl. apply list_find_Some in Hf as (Hl & Hk & _). simpl in Hk. subst k'. f_equal. eapply Hu, list_elem_of_lookup_2, Hl.
Qed.

Lemma row_is_ok src k e : row_is src k e = true ↔ src_kind e = (src, codes k).
Proof.
  unfold row_is, kind_is, src_kind. rewrite andb_true_iff, !bool_decide_eq_true. split; [by intros [-> ->]|by intros [= -> ->]].
Qed.

Lemma component_key e kv n : component e = Some (kv, n) →
  (src_kind e = (Strace, codes "ioctl") ∧ kv.1 = codes "strace") ∨
  (src_kind e = (Ftrace, codes "ioctl") ∧ kv.1 = codes "ftrace_ioctl") ∨
  (src_kind e = (Ftrace, codes "uvm_ioctl") ∧ kv.1 = codes "uvm").
Proof.
  unfold component. intros H. repeat case_match; simplify_eq; rewrite ?row_is_ok in *; [left|right; left|right; right]; done.
Qed.

Lemma component_src_kind e1 e2 k v1 v2 n1 n2 : component e1 = Some ((k, v1), n1) → component e2 = Some ((k, v2), n2) →
  src_kind e1 = src_kind e2.
Proof.
  intros [[H1 K1]|[[H1 K1]|[H1 K1]]]%component_key [[H2 K2]|[[H2 K2]|[H2 K2]]]%component_key; simpl in K1, K2; subst k; congruence || discriminate K2.
Qed.

(** Each row of a cluster is found in the folded event under its own key. *)
Lemma synthetic_carries first c e k v n : NoDup (src_kind <$> c) → e ∈ c → component e = Some ((k, v), n) →
  jget (te_data (synthetic first c)) k = Some v.
Proof.
  intros Hnd He Hc. unfold synthetic. cbn [te_data].
  assert (k ≠ codes "cmd_name" ∧ k ≠ codes "_components") as [Hk1 Hk2].
  { destruct (component_key _ _ _ Hc) as [[_ K]|[[_ K]|[_ K]]]; simpl in K; subst k; split; intros H; discriminate H. }
  apply jget_unique.
  - apply elem_of_cons. right. apply elem_of_app. left. apply list_elem_of_fmap. exists ((k, v), n). split; [done|].
    apply list_elem_of_omap. by exists e.
  - intros v' [H|[H|H%list_elem_of_singleton]%elem_of_app]%elem_of_cons; [by injection H| |by injection H].
    apply list_elem_of_fmap in H as ([[k' v''] n'] & [= <- <-] & (e' & He' & Hc')%list_elem_of_omap).
    assert (e' = e) as ->; [|congruence]. pose proof (component_src_kind _ _ _ _ _ _ _ Hc Hc') as Hs.
    apply list_elem_of_lookup in He as [i Hi], He' as [j Hj].
    assert (i = j) as ->; [|congruence]. eapply (NoDup_lookup _ _ _ (src_kind e) Hnd); rewrite list_lookup_fmap; [by rewrite Hi|by rewrite Hj, Hs].
Qed.


(** ** Examples *)

(** The rows of two processes are folded into one call: only the command is compared. *)
Lemma folds_two_processes :
  let strace := TEv 0 Strace (Some (JInt 1)) None (codes "ioctl") [fld "fd" (JInt 3); fld "cmd_name" (JStr (codes "NV_ESC_RM_ALLOC"))] None in
  let ftrace := TEv 5 Ftrace (Some (JInt 2)) None (codes "ioctl") [fld "cmd_name" (JStr (codes "NV_ESC_RM_ALLOC"))] None in
  fold_ioctl_pairs [strace; ftrace] = Some [synthetic strace [strace; ftrace]].
Proof. reflexivity. Qed.

(** A call whose [.exit] was lost hides the complete call after it. *)
Lemma lost_exit_hides :
  let ev := λ ts k, TEv ts Pbcap None None (codes k) [] None in
  find_window [ev 0 "f.enter"; ev 1 "f.enter"; ev 2 "f.exit"] (codes "f") 0 = NoWindow.
Proof. reflexivity. Qed.
