(* ===== verification/Atlas.v ===== *)
(** * The address atlas: address_atlas.py

    [build_atlas] walks the merged timeline (Timeline) once and keeps what is allocated, what
    is mapped for the GPU and for the CPU and when, which channel a mapping belongs to, and
    what was submitted; the passes after it name the owner of the ranges the kernel tracked,
    write a history of every handle and say of every submitted address in which range it
    lay. [None] stands for a Python exception. A submitted method stream is decoded by
    [decode_pushbuffer] and [fold_address_pairs] of Submit. *)

From stdpp Require Import base numbers list gmap strings sorting.
From S2P Require Import Prelude TraceText FtraceParse Submit Timeline.
#[local] Open Scope Z_scope.

(** ** Values *)

(** [int(s)] *)
Definition py_int10 (t : text) : option Z :=
  match strip t with
  | 45 :: t => Z.opp <$> num 10 t
  | 43 :: t => num 10 t
  | t => num 10 t
  end.

(** [int(v)] *)
Definition py_int (v : json) : option Z :=
  match v with
  | JInt z => Some z
  | JBool b => Some (Z.b2z b)
  | JStr t => py_int10 t
  | _ => None
  end.

Definition _int_hex (v : json) : option Z :=
  match v with
  | JInt z => Some z
  | JBool b => Some (Z.b2z b)
  | JStr t =>
      let s := strip t in
      if starts_with (codes "0x") s || starts_with (codes "0X") s then num_prefixed 16 (drop 2 s) else py_int10 s
  | _ => Some 0
  end.

(** [_int_hex(d.get(k, 0))] *)
Definition hex_field (d : jdict) (k : string) : option Z := _int_hex (default (JInt 0) (jget d (codes k))).

(** [int(d.get(k) or 0)] *)
Definition int_field (d : jdict) (k : string) : option Z :=
  let v := get_or_none d k in
  if truthy v then py_int v else Some 0.

Definition ascii_space (c : Z) : bool := (c =? 32) || ((9 <=? c) && (c <=? 13)).

(** [bytes.fromhex(t)]: pairs of digits with white space between them. *)
Fixpoint fromhex (t : text) : option (list Z) :=
  match t with
  | [] => Some []
  | c :: t =>
      if ascii_space c then fromhex t
      else match t with
           | [] => None
           | c' :: t => hi ← digit_value 16 c; lo ← digit_value 16 c'; cons (16 * hi + lo) <$> fromhex t
           end
  end.

(** [struct.unpack_from(f"<{len(data) // 4}I", data)] *)
Fixpoint le_words (bs : list Z) : list Z :=
  match bs with
  | b0 :: b1 :: b2 :: b3 :: bs => b0 + 256 * b1 + 65536 * b2 + 16777216 * b3 :: le_words bs
  | _ => []
  end.

(** ** The tables *)

Definition RM_CLASS_NAMES : list (Z * string) :=
  [(0x0000, "NV01_ROOT"); (0x0040, "NV01_MEMORY_LOCAL_USER"); (0x0041, "NV01_MEMORY_LOCAL_PRIVILEGED");
   (0x003E, "NV01_MEMORY_SYSTEM"); (0x0070, "NV01_MEMORY_SYSTEM_OS_DESC"); (0x0079, "NV01_EVENT_OS_EVENT");
   (0x0080, "NV01_DEVICE_0"); (0x00DE, "RM_USER_SHARED_DATA"); (0x2080, "NV20_SUBDEVICE_0"); (0x2081, "NV2081_BINAPI");
   (0x503C, "NV50_THIRD_PARTY_P2P"); (0x50A0, "NV50_MEMORY_VIRTUAL"); (0x83DE, "GT200_DEBUGGER");
   (0x9067, "FERMI_CONTEXT_SHARE_A"); (0x9072, "GF100_DISP_SW"); (0x90E6, "GF100_SUBDEVICE_MASTER");
   (0x90F1, "FERMI_VASPACE_A"); (0xA06C, "KEPLER_CHANNEL_GROUP_A"); (0xC597, "TURING_A"); (0xC661, "HOPPER_USERMODE_A");
   (0xC7C0, "AMPERE_COMPUTE_B"); (0xC86F, "HOPPER_CHANNEL_GPFIFO_A"); (0xC8B5, "HOPPER_DMA_COPY_A");
   (0xCB33, "NV_CONFIDENTIAL_COMPUTE"); (0xCBC0, "HOPPER_COMPUTE_A")].

Definition rm_class_name (cls : Z) : text :=
  match dict_get cls RM_CLASS_NAMES with
  | Some n => codes n
  | None => codes "class_0x" ++ py_hex 0 cls
  end.

(** What happened to a handle. *)
Inductive hist_what :=
| HAlloc (class_name : text)
| HFree
| HMmap (fd : option Z) (path : json) (addr length : Z)
| HMunmap (addr : Z)
| HGpuMap (source : text) (base length : Z)
| HGpuUnmap (source : text) (base : Z)
| HControl (ctrlcmd hClient paramsSize : json).

Record alloc_info := AllocInfo {
  ai_class : Z;
  ai_root : json;
  ai_parent : json;
  ai_body : json;
  ai_ts_alloc : Z;
  ai_ts_free : option Z;
  ai_events : list (Z * hist_what) }.

Inductive track := SysmemTrack | Bar1Track.

#[global] Instance track_eq_dec : EqDecision track.
Proof. solve_decision. Defined.

Record gpu_range := GpuRange {
  gr_base : Z;
  gr_end : Z;
  gr_length : Z;
  gr_offset : Z;
  gr_hMemory : Z;
  gr_source : option track;
  gr_kva : json;
  gr_slot : json;
  gr_class_name : option text;
  gr_user_va : Z * Z;
  gr_ts_mapped : Z;
  gr_ts_unmapped : option Z }.

Record cpu_range := CpuRange {
  cr_addr : Z;
  cr_end : Z;
  cr_length : Z;
  cr_fd : option Z;
  cr_path : json;
  cr_offset : Z;
  cr_prot : json;
  cr_ts_mapped : Z;
  cr_ts_unmapped : option Z;
  cr_src : source;
  cr_hMemory : Z;              (** 0 where the key is absent *)
  cr_map_flags : option Z }.

Record rm_map := RmMap { rm_hMemory : Z; rm_length : Z; rm_flags : Z; rm_offset : Z; rm_fd : Z; rm_ts : Z }.

Inductive role := RUserd | RGpfifo | RFb | RSysmem | RClass (cls : Z).

Record resource := Resource {
  rs_role : role;
  rs_hSrc : Z;
  rs_src_class : Z;
  rs_length : Z;
  rs_hCarrier : Z;
  rs_dmaOffset : Z;
  rs_ts_mapped : Z }.

Record channel_info := ChannelInfo {
  ch_class : Z;
  ch_hClient : json;
  ch_hVASpace : Z;
  ch_hUserdMemory : Z;
  ch_userdOffset : Z;
  ch_gpFifoOffset : Z;
  ch_gpFifoEntries : Z;
  ch_engineType : Z;
  ch_cid : Z;
  ch_ts_alloc : Z;
  ch_ts_free : option Z;
  ch_carriers : list Z;
  ch_resources : list resource }.

Record carrier_info := CarrierInfo {
  ca_class : Z;
  ca_hVASpace : Z;
  ca_vaSize : Z;
  ca_has_heap : bool;
  ca_via : json;
  ca_aspace : Z;
  ca_ts : Z }.

(** What [_resolve_gpu_va] says of an address, the numbers it prints in hexadecimal as numbers. *)
Record resolved := Resolved {
  rv_gpu_va : Z;
  rv_offset : Z;
  rv_base : Z;
  rv_length : Z;
  rv_hMemory : Z;
  rv_class : option text;
  rv_size : json }.

Record submission := PbEvent {
  pv_ts : Z;
  pv_pid : option json;
  pv_seq : Z;
  pv_chid : Z;
  pv_idx : Z;
  pv_entry0 : json;
  pv_entry1 : json;
  pv_pb_va : text;
  pv_pb_len : Z;
  pv_resolved : option resolved }.

(** A decoded method: an address with what it resolves to, or the method as it is. *)
Inductive decoded :=
| DVa (role : string) (class_id subchan : Z) (va : text) (r : option resolved)
| DMethod (m : pb_method).

Record pb_bytes_event := PbBytesEvent {
  by_ts : Z;
  by_pid : option json;
  by_seq : Z;
  by_chid : Z;
  by_idx : Z;
  by_nbytes : Z;
  by_methods : list decoded }.

(** An entry of a descriptor's history: the path an open found, [None] for a close. *)
Record fd_entry := FdEntry { fe_ts : Z; fe_open : option json; fe_pid : option json; fe_src : source }.

Record Atlas := MkAtlas {
  allocs : list (Z * alloc_info);
  gpu_ranges : list gpu_range;
  cpu_ranges : list cpu_range;
  pb_events : list submission;
  pb_bytes_events : list pb_bytes_event;
  anchor : option (Z * Z * option json);
  fd_history : list (Z * list fd_entry);
  pending_clients : list (Z * Z);          (** [fd_to_hClient["pending"]] *)
  pending_rm_maps : list rm_map;
  channels : list (Z * channel_info);
  carriers : list (Z * carrier_info);
  unattributed_intermaps : list resource }.

Definition atlas0 : Atlas := MkAtlas [] [] [] [] [] None [] [] [] [] [] [].

Definition with_allocs (f : list (Z * alloc_info) → list (Z * alloc_info)) (a : Atlas) : Atlas :=
  MkAtlas (f (allocs a)) (gpu_ranges a) (cpu_ranges a) (pb_events a) (pb_bytes_events a) (anchor a) (fd_history a)
    (pending_clients a) (pending_rm_maps a) (channels a) (carriers a) (unattributed_intermaps a).
Definition with_gpu (f : list gpu_range → list gpu_range) (a : Atlas) : Atlas :=
  MkAtlas (allocs a) (f (gpu_ranges a)) (cpu_ranges a) (pb_events a) (pb_bytes_events a) (anchor a) (fd_history a)
    (pending_clients a) (pending_rm_maps a) (channels a) (carriers a) (unattributed_intermaps a).
Definition with_cpu (f : list cpu_range → list cpu_range) (a : Atlas) : Atlas :=
  MkAtlas (allocs a) (gpu_ranges a) (f (cpu_ranges a)) (pb_events a) (pb_bytes_events a) (anchor a) (fd_history a)
    (pending_clients a) (pending_rm_maps a) (channels a) (carriers a) (unattributed_intermaps a).
Definition with_pb (f : list submission → list submission) (a : Atlas) : Atlas :=
  MkAtlas (allocs a) (gpu_ranges a) (cpu_ranges a) (f (pb_events a)) (pb_bytes_events a) (anchor a) (fd_history a)
    (pending_clients a) (pending_rm_maps a) (channels a) (carriers a) (unattributed_intermaps a).
Definition with_bytes (f : list pb_bytes_event → list pb_bytes_event) (a : Atlas) : Atlas :=
  MkAtlas (allocs a) (gpu_ranges a) (cpu_ranges a) (pb_events a) (f (pb_bytes_events a)) (anchor a) (fd_history a)
    (pending_clients a) (pending_rm_maps a) (channels a) (carriers a) (unattributed_intermaps a).
Definition with_anchor (x : Z * Z * option json) (a : Atlas) : Atlas :=
  MkAtlas (allocs a) (gpu_ranges a) (cpu_ranges a) (pb_events a) (pb_bytes_events a) (Some x) (fd_history a)
    (pending_clients a) (pending_rm_maps a) (channels a) (carriers a) (unattributed_intermaps a).
Definition with_fds (f : list (Z * list fd_entry) → list (Z * list fd_entry)) (a : Atlas) : Atlas :=
  MkAtlas (allocs a) (gpu_ranges a) (cpu_ranges a) (pb_events a) (pb_bytes_events a) (anchor a) (f (fd_history a))
    (pending_clients a) (pending_rm_maps a) (channels a) (carriers a) (unattributed_intermaps a).
Definition with_clients (f : list (Z * Z) → list (Z * Z)) (a : Atlas) : Atlas :=
  MkAtlas (allocs a) (gpu_ranges a) (cpu_ranges a) (pb_events a) (pb_bytes_events a) (anchor a) (fd_history a)
    (f (pending_clients a)) (pending_rm_maps a) (channels a) (carriers a) (unattributed_intermaps a).
Definition with_pending (f : list rm_map → list rm_map) (a : Atlas) : Atlas :=
  MkAtlas (allocs a) (gpu_ranges a) (cpu_ranges a) (pb_events a) (pb_bytes_events a) (anchor a) (fd_history a)
    (pending_clients a) (f (pending_rm_maps a)) (channels a) (carriers a) (unattributed_intermaps a).
Definition with_channels (f : list (Z * channel_info) → list (Z * channel_info)) (a : Atlas) : Atlas :=
  MkAtlas (allocs a) (gpu_ranges a) (cpu_ranges a) (pb_events a) (pb_bytes_events a) (anchor a) (fd_history a)
    (pending_clients a) (pending_rm_maps a) (f (channels a)) (carriers a) (unattributed_intermaps a).
Definition with_carriers (f : list (Z * carrier_info) → list (Z * carrier_info)) (a : Atlas) : Atlas :=
  MkAtlas (allocs a) (gpu_ranges a) (cpu_ranges a) (pb_events a) (pb_bytes_events a) (anchor a) (fd_history a)
    (pending_clients a) (pending_rm_maps a) (channels a) (f (carriers a)) (unattributed_intermaps a).
Definition with_unattributed (f : list resource → list resource) (a : Atlas) : Atlas :=
  MkAtlas (allocs a) (gpu_ranges a) (cpu_ranges a) (pb_events a) (pb_bytes_events a) (anchor a) (fd_history a)
    (pending_clients a) (pending_rm_maps a) (channels a) (carriers a) (f (unattributed_intermaps a)).

(** [if k in d: d[k] = f(d[k])] *)
Definition dict_alter {A} (k : Z) (f : A → A) (d : list (Z * A)) : list (Z * A) :=
  match dict_get k d with
  | Some v => dict_set k (f v) d
  | None => d
  end.

(** [for r in l: if p(r): r = f(r); break] *)
Fixpoint mark_first {A} (p : A → bool) (f : A → A) (l : list A) : list A :=
  match l with
  | [] => []
  | x :: l => if p x then f x :: l else x :: mark_first p f l
  end.

(** ** Resolution *)

Definition contains (r : gpu_range) (va : Z) : bool := (gr_base r <=? va) && (va <? gr_end r).

(** Mapped by [ts] and not unmapped before it. *)
Definition live_at (ts : Z) (r : gpu_range) : bool :=
  (gr_ts_mapped r <=? ts) && match gr_ts_unmapped r with Some u => ts <=? u | None => true end.

(** The first range that contains the address at the time. *)
Definition range_at (ranges : list gpu_range) (va ts : Z) : option gpu_range :=
  snd <$> list_find (λ r, contains r va && live_at ts r = true) ranges.

(** [(alloc or {}).get("body", {}).get("size")] *)
Definition body_size (a : option alloc_info) : option json :=
  match a with
  | None => Some JNull
  | Some a => match ai_body a with JDict d => Some (get_or_none d "size") | _ => None end
  end.

Definition _resolve_gpu_va (a : Atlas) (va ts : Z) : option (option resolved) :=
  match range_at (gpu_ranges a) va ts with
  | None => Some None
  | Some r =>
      let al := dict_get (gr_hMemory r) (allocs a) in
      size ← body_size al;
      Some (Some (Resolved va (va - gr_base r) (gr_base r) (gr_length r) (gr_hMemory r)
                    ((λ al, rm_class_name (ai_class al)) <$> al) size))
  end.

(** ** The events *)

(** [data.get("body") or {}] *)
Definition body_dict (data : jdict) : option jdict :=
  let b := get_or_none data "body" in
  if truthy b then match b with JDict d => Some d | _ => None end else Some [].

Definition on_init (ev : tev) (a : Atlas) : option Atlas :=
  let d := te_data ev in
  mono ← py_int (default (JInt 0) (jget d (codes "mono_ns")));
  real ← py_int (default (JInt 0) (jget d (codes "real_ns")));
  Some (with_anchor (mono, real, te_pid ev) a).

Definition is_channel_class (cls : Z) : bool := (cls =? 0xc36f) || (cls =? 0xc56f) || (cls =? 0xc86f).

Definition new_channel (cls ts : Z) (d : jdict) : option channel_info :=
  body ← body_dict d;
  hVASpace ← hex_field body "hVASpace";
  hUserdMemory ← hex_field body "hUserdMemory";
  userdOffset ← hex_field body "userdOffset";
  gpFifoOffset ← hex_field body "gpFifoOffset";
  gpFifoEntries ← hex_field body "gpFifoEntries";
  engineType ← hex_field body "engineType";
  cid ← hex_field body "cid";
  Some (ChannelInfo cls (get_or_none d "root") hVASpace hUserdMemory userdOffset gpFifoOffset gpFifoEntries engineType cid
          ts None [] []).

Definition on_alloc_event (ev : tev) (a : Atlas) : option Atlas :=
  let d := te_data ev in
  let ts := te_ts ev in
  h ← hex_field d "handle";
  if h =? 0 then Some a
  else
    cls ← hex_field d "class";
    let a := with_allocs (dict_set h (AllocInfo cls (get_or_none d "root") (get_or_none d "parent")
               (default (JDict []) (jget d (codes "body"))) ts None [])) a in
    a ← (if is_channel_class cls then
           ch ← new_channel cls ts d;
           Some (with_channels (dict_set h ch) a)
         else Some a);
    Some (if (cls =? 0) && json_eqb (get_or_none d "parent") (get_or_none d "root") then
            with_clients (λ l, l ++ [(ts, h)]) a
          else a).

Definition free_alloc (ts : Z) (i : alloc_info) : alloc_info :=
  AllocInfo (ai_class i) (ai_root i) (ai_parent i) (ai_body i) (ai_ts_alloc i) (Some ts) (ai_events i).

Definition free_channel (ts : Z) (c : channel_info) : channel_info :=
  ChannelInfo (ch_class c) (ch_hClient c) (ch_hVASpace c) (ch_hUserdMemory c) (ch_userdOffset c) (ch_gpFifoOffset c)
    (ch_gpFifoEntries c) (ch_engineType c) (ch_cid c) (ch_ts_alloc c) (Some ts) (ch_carriers c) (ch_resources c).

Definition on_free_event (ev : tev) (a : Atlas) : option Atlas :=
  h ← hex_field (te_data ev) "handle";
  Some (with_channels (dict_alter h (free_channel (te_ts ev))) (with_allocs (dict_alter h (free_alloc (te_ts ev))) a)).

Definition on_virtmem_backing (ev : tev) (a : Atlas) : option Atlas :=
  let d := te_data ev in
  car_h ← hex_field d "hMemory";
  if car_h =? 0 then Some a
  else
    cls ← hex_field d "class";
    hVASpace ← hex_field d "hVASpace";
    vaSize ← hex_field d "vaSize";
    aspace ← hex_field d "aspace";
    Some (with_carriers (dict_set car_h
            (CarrierInfo cls hVASpace vaSize (truthy (get_or_none d "has_heap")) (get_or_none d "via") aspace (te_ts ev))) a).

Definition _NV01_MEMORY_LOCAL_USER : Z := 0x40.
Definition _NV01_MEMORY_SYSTEM : Z := 0x3e.

Definition _infer_resource_role (src_cls length : Z) (channel : option channel_info) (src_h : Z) : role :=
  if match channel with Some c => negb (ch_hUserdMemory c =? 0) && (src_h =? ch_hUserdMemory c) | None => false end then RUserd
  else if src_cls =? _NV01_MEMORY_LOCAL_USER then
    (if length =? 0x200 then RUserd else if length =? 0x2000 then RGpfifo else RFb)
  else if src_cls =? _NV01_MEMORY_SYSTEM then RSysmem
  else RClass src_cls.

Definition is_freed (c : channel_info) : bool := match ch_ts_free c with Some _ => true | None => false end.

(** By the USERD the channel was created with. *)
Definition userd_owner (chs : list (Z * channel_info)) (src_h : Z) : option Z :=
  (λ p, p.2.1) <$> list_find (λ p, negb (ch_hUserdMemory p.2 =? 0) && (ch_hUserdMemory p.2 =? src_h) && negb (is_freed p.2) = true) chs.

(** By the address space of the carrier, where it is not the device's default. *)
Definition vas_owner (chs : list (Z * channel_info)) (car_vas : Z) : option Z :=
  if car_vas =? 0 then None
  else (λ p, p.2.1) <$> list_find (λ p, (ch_hVASpace p.2 =? car_vas) && negb (is_freed p.2) = true) chs.

Definition add_resource (r : resource) (c : channel_info) : channel_info :=
  ChannelInfo (ch_class c) (ch_hClient c) (ch_hVASpace c) (ch_hUserdMemory c) (ch_userdOffset c) (ch_gpFifoOffset c)
    (ch_gpFifoEntries c) (ch_engineType c) (ch_cid c) (ch_ts_alloc c) (ch_ts_free c)
    (if bool_decide (rs_hCarrier r ∈ ch_carriers c) then ch_carriers c else ch_carriers c ++ [rs_hCarrier r])
    (ch_resources c ++ [r]).

Definition on_intermap_call (ev : tev) (a : Atlas) : option Atlas :=
  let d := te_data ev in
  car_h ← hex_field d "hCarrier";
  src_h ← hex_field d "hSrc";
  src_cls ← hex_field d "src_class";
  length ← hex_field d "length";
  dma_off ← hex_field d "dmaOffset";
  let car_vas := match dict_get car_h (carriers a) with Some c => ca_hVASpace c | None => 0 end in
  let target := match userd_owner (channels a) src_h with Some ch => Some ch | None => vas_owner (channels a) car_vas end in
  let role := _infer_resource_role src_cls length (dict_get (default 0 target) (channels a)) src_h in
  let r := Resource role src_h src_cls length car_h dma_off (te_ts ev) in
  Some (match target with
        | Some ch => with_channels (dict_alter ch (add_resource r)) a
        | None => with_unattributed (λ l, l ++ [r]) a
        end).

Definition on_map_uvm (ev : tev) (a : Atlas) : option Atlas :=
  let d := te_data ev in
  h ← hex_field d "handle";
  base ← hex_field d "base";
  length ← int_field d "length";
  offset ← int_field d "offset";
  if (base =? 0) || (length =? 0) then Some a
  else Some (with_gpu (λ l, l ++ [GpuRange base (base + length) length offset h None JNull JNull None (0, 0) (te_ts ev) None]) a).

Definition on_map_bar1 (ev : tev) (a : Atlas) : option Atlas :=
  let d := te_data ev in
  h ← hex_field d "handle";
  length ← int_field d "length";
  match get_or_none d "fd" with
  | JNull => Some a
  | fd =>
      if length =? 0 then Some a
      else
        flags ← hex_field d "flags";
        offset ← int_field d "offset";
        fd ← py_int fd;
        Some (with_pending (λ l,
          let l := l ++ [RmMap h length flags offset fd (te_ts ev)] in
          if bool_decide (256 < List.length l)%nat then tail l else l) a)
  end.

Definition on_sysmem_add (ev : tev) (a : Atlas) : option Atlas :=
  let d := te_data ev in
  base ← hex_field d "base";
  end_ ← hex_field d "end";
  length ← int_field d "length";
  if (base =? 0) || (length =? 0) || (end_ <=? base) then Some a
  else Some (with_gpu (λ l, l ++ [GpuRange base end_ length 0 0 (Some SysmemTrack) (get_or_none d "kva") (get_or_none d "slot")
                                    None (0, 0) (te_ts ev) None]) a).

Definition is_unmapped (r : gpu_range) : bool := match gr_ts_unmapped r with Some _ => true | None => false end.

Definition unmap_range (ts : Z) (r : gpu_range) : gpu_range :=
  GpuRange (gr_base r) (gr_end r) (gr_length r) (gr_offset r) (gr_hMemory r) (gr_source r) (gr_kva r) (gr_slot r)
    (gr_class_name r) (gr_user_va r) (gr_ts_mapped r) (Some ts).

(** The tracker's first range of that address in the kernel that is still mapped. *)
Definition on_track_remove (src : track) (ev : tev) (a : Atlas) : option Atlas :=
  let kva := get_or_none (te_data ev) "kva" in
  Some (with_gpu (mark_first
    (λ r, bool_decide (gr_source r = Some src) && json_eqb (gr_kva r) kva && negb (is_unmapped r)) (unmap_range (te_ts ev))) a).

(** The base is the physical address. *)
Definition on_bar1_add (ev : tev) (a : Atlas) : option Atlas :=
  let d := te_data ev in
  phys ← hex_field d "phys";
  size ← int_field d "size";
  if (phys =? 0) || (size =? 0) then Some a
  else Some (with_gpu (λ l, l ++ [GpuRange phys (phys + size) size 0 0 (Some Bar1Track) (get_or_none d "kva") (get_or_none d "slot")
                                    None (0, 0) (te_ts ev) None]) a).

(** The newest pending mapping of the descriptor and length, and the others. *)
Fixpoint pop_newest (fd length : Z) (l : list rm_map) : option (rm_map * list rm_map) :=
  match l with
  | [] => None
  | p :: l =>
      match pop_newest fd length l with
      | Some (q, l') => Some (q, p :: l')
      | None => if (rm_fd p =? fd) && (rm_length p =? length) then Some (p, l) else None
      end
  end.

Definition on_mmap (ev : tev) (a : Atlas) : option Atlas :=
  let d := te_data ev in
  addr ← hex_field d "addr";
  length ← int_field d "length";
  if (addr =? 0) || (length =? 0) then Some a
  else
    fd ← match get_or_none d "fd" with JNull => Some None | v => Some <$> py_int v end;
    let joined := fd ≫= λ fd, pop_newest fd length (pending_rm_maps a) in
    let hMemory := match joined with Some (p, _) => rm_hMemory p | None => 0 end in
    let map_flags := if hMemory =? 0 then None else (λ j, rm_flags j.1) <$> joined in
    offset ← hex_field d "offset";
    let entry := CpuRange addr (addr + length) length fd (get_or_none d "path") offset (get_or_none d "prot") (te_ts ev) None
                   (te_src ev) hMemory map_flags in
    Some (with_cpu (λ l, l ++ [entry]) (with_pending (λ l, match joined with Some (_, l') => l' | None => l end) a)).

Definition unmap_cpu (ts : Z) (r : cpu_range) : cpu_range :=
  CpuRange (cr_addr r) (cr_end r) (cr_length r) (cr_fd r) (cr_path r) (cr_offset r) (cr_prot r) (cr_ts_mapped r) (Some ts)
    (cr_src r) (cr_hMemory r) (cr_map_flags r).

Definition on_munmap (ev : tev) (a : Atlas) : option Atlas :=
  addr ← hex_field (te_data ev) "addr";
  Some (with_cpu (mark_first (λ r, (cr_addr r =? addr) && bool_decide (cr_ts_unmapped r = None)) (unmap_cpu (te_ts ev))) a).

(** [fd_history.setdefault(fd, []).append(...)] *)
Definition add_fd (fd : Z) (e : fd_entry) (a : Atlas) : Atlas :=
  with_fds (λ d, dict_set fd (default [] (dict_get fd d) ++ [e]) d) a.

Definition on_open (ev : tev) (a : Atlas) : option Atlas :=
  match get_or_none (te_data ev) "fd" with
  | JNull => Some a
  | v => fd ← py_int v; Some (add_fd fd (FdEntry (te_ts ev) (Some (get_or_none (te_data ev) "path")) (te_pid ev) (te_src ev)) a)
  end.

Definition on_close (ev : tev) (a : Atlas) : option Atlas :=
  match py_int (get_or_none (te_data ev) "fd") with
  | None => Some a
  | Some fd => Some (add_fd fd (FdEntry (te_ts ev) None (te_pid ev) (te_src ev)) a)
  end.

Definition on_pb (ev : tev) (a : Atlas) : option Atlas :=
  let d := te_data ev in
  pb_va ← hex_field d "pb_va";
  pb_len ← int_field d "pb_len";
  r ← _resolve_gpu_va a pb_va (te_ts ev);
  seq ← int_field d "seq";
  chid ← int_field d "chid";
  idx ← int_field d "idx";
  Some (with_pb (λ l, l ++ [PbEvent (te_ts ev) (te_pid ev) seq chid idx (get_or_none d "entry0") (get_or_none d "entry1")
                              (codes "0x" ++ py_hex 0 pb_va) pb_len r]) a).

Definition decode_method (a : Atlas) (ts : Z) (m : folded) : option decoded :=
  match m with
  | FoldPair role va class_id subchan =>
      r ← _resolve_gpu_va a va ts;
      Some (DVa role class_id subchan (codes "0x" ++ py_hex 0 va) r)
  | FoldOther m => Some (DMethod m)
  end.

(** [data.get("hex") or ""], and what [bytes.fromhex] makes of it. *)
Definition event_bytes (d : jdict) : option (list Z) :=
  let v := get_or_none d "hex" in
  if truthy v then match v with JStr t => Some (default [] (fromhex t)) | _ => None end else Some [].

Definition on_pb_bytes_event (ev : tev) (a : Atlas) : option Atlas :=
  let d := te_data ev in
  seq ← int_field d "seq";
  chid ← int_field d "chid";
  idx ← int_field d "idx";
  nbytes ← int_field d "nbytes";
  raw ← event_bytes d;
  methods ← mapM (decode_method a (te_ts ev)) (fold_address_pairs (decode_pushbuffer (le_words raw)));
  Some (with_bytes (λ l, l ++ [PbBytesEvent (te_ts ev) (te_pid ev) seq chid idx nbytes methods]) a).

(** One turn of the loop; what no branch takes is left out. *)
Definition atlas_event (ev : tev) (a : Atlas) : option Atlas :=
  let kind := te_kind ev in
  if kind_is kind "pbcap.init" && bool_decide (anchor a = None) then on_init ev a
  else if kind_is kind "alloc" then on_alloc_event ev a
  else if kind_is kind "free" then on_free_event ev a
  else if kind_is kind "virtmem_backing" then on_virtmem_backing ev a
  else if kind_is kind "intermap_call" then on_intermap_call ev a
  else if kind_is kind "map_uvm" then on_map_uvm ev a
  else if kind_is kind "map_bar1" then on_map_bar1 ev a
  else if kind_is kind "sysmem_track_add" then on_sysmem_add ev a
  else if kind_is kind "sysmem_track_remove" then on_track_remove SysmemTrack ev a
  else if kind_is kind "bar1_track_add" then on_bar1_add ev a
  else if kind_is kind "bar1_track_remove" then on_track_remove Bar1Track ev a
  else if kind_is kind "mmap" then on_mmap ev a
  else if kind_is kind "munmap" then on_munmap ev a
  else if kind_is kind "open" then on_open ev a
  else if kind_is kind "close" then on_close ev a
  else if kind_is kind "pb" then on_pb ev a
  else if kind_is kind "pb_bytes" then on_pb_bytes_event ev a
  else Some a.

Fixpoint ingest (events : list tev) (a : Atlas) : option Atlas :=
  match events with
  | [] => Some a
  | ev :: events => a ← atlas_event ev a; ingest events a
  end.

(** ** The passes after it *)

Definition WINDOW_NS : Z := 10000000.

(** The first of the closest, among what has a distance. *)
Fixpoint closest {A} (dist : A → option Z) (best : option (A * Z)) (l : list A) : option (A * Z) :=
  match l with
  | [] => best
  | x :: l =>
      closest dist
        match dist x, best with
        | Some d, Some (_, bd) => if d <? bd then Some (x, d) else best
        | Some d, None => Some (x, d)
        | None, _ => best
        end l
  end.

Definition cpu_distance (r : gpu_range) (c : cpu_range) : option Z :=
  let dt := Z.abs (gr_ts_mapped r - cr_ts_mapped c) in
  if (cr_length c =? gr_length r) && negb (cr_hMemory c =? 0) && (dt <=? WINDOW_NS) then Some dt else None.

(** The owner of a tracked range, and for BAR1 its addresses in the process. *)
Definition own_range (h : Z) (class_name : option text) (user_va : Z * Z) (r : gpu_range) : gpu_range :=
  GpuRange (gr_base r) (gr_end r) (gr_length r) (gr_offset r) h (gr_source r) (gr_kva r) (gr_slot r) class_name user_va
    (gr_ts_mapped r) (gr_ts_unmapped r).

Definition backfill_cpu (a : Atlas) (r : gpu_range) : gpu_range :=
  match gr_source r with
  | None => r
  | Some src =>
      if negb (gr_hMemory r =? 0) then r
      else match closest (cpu_distance r) None (cpu_ranges a) with
           | None => r
           | Some (c, _) =>
               own_range (cr_hMemory c)
                 match dict_get (cr_hMemory c) (allocs a) with
                 | Some al => Some (rm_class_name (ai_class al))
                 | None => gr_class_name r
                 end
                 match src with Bar1Track => (cr_addr c, cr_end c) | SysmemTrack => gr_user_va r end r
           end
  end.

(** [(sz + PAGE - 1) & ~(PAGE - 1)] *)
Definition page_aligned (sz : Z) : Z := Z.land (sz + 0x1000 - 1) (Z.lnot (0x1000 - 1)).

(** [body.get("size", 0)] as a number *)
Definition size_of_body (al : alloc_info) : option Z :=
  body ← (if truthy (ai_body al) then match ai_body al with JDict d => Some d | _ => None end else Some []);
  match default (JInt 0) (jget body (codes "size")) with
  | JInt z => Some z
  | JBool b => Some (Z.b2z b)
  | JStr t => _int_hex (JStr t)
  | _ => None
  end.

(** The time from an allocation of system memory of that size to the range. *)
Definition alloc_distance (r : gpu_range) (p : Z * alloc_info) : option (option Z) :=
  if bool_decide (rm_class_name (ai_class p.2) = codes "NV01_MEMORY_SYSTEM") then
    sz ← size_of_body p.2;
    Some (if (page_aligned sz =? gr_length r) && (ai_ts_alloc p.2 <=? gr_ts_mapped r) then Some (gr_ts_mapped r - ai_ts_alloc p.2) else None)
  else Some None.

(** The handle is printed and read back, which changes nothing of what is not negative. *)
Definition backfill_alloc (a : Atlas) (r : gpu_range) : option gpu_range :=
  if bool_decide (gr_source r = Some SysmemTrack) && (gr_hMemory r =? 0) then
    ds ← mapM (λ p, d ← alloc_distance r p; Some (p, d)) (allocs a);
    Some (match closest snd None ds with
          | Some ((h, al, _), _) => if h =? 0 then r else own_range h (Some (rm_class_name (ai_class al))) (gr_user_va r) r
          | None => r
          end)
  else Some r.

(** *** The history of a handle *)

Definition add_hist (h : Z) (es : list (Z * hist_what)) (d : list (Z * alloc_info)) : list (Z * alloc_info) :=
  dict_alter h (λ i, AllocInfo (ai_class i) (ai_root i) (ai_parent i) (ai_body i) (ai_ts_alloc i) (ai_ts_free i) (ai_events i ++ es)) d.

Definition set_hist (f : alloc_info → list (Z * hist_what)) (i : alloc_info) : alloc_info :=
  AllocInfo (ai_class i) (ai_root i) (ai_parent i) (ai_body i) (ai_ts_alloc i) (ai_ts_free i) (f i).

Definition alloc_hist (i : alloc_info) : list (Z * hist_what) :=
  (ai_ts_alloc i, HAlloc (rm_class_name (ai_class i))) :: match ai_ts_free i with Some t => [(t, HFree)] | None => [] end.

Definition cpu_hist (c : cpu_range) : list (Z * hist_what) :=
  (cr_ts_mapped c, HMmap (cr_fd c) (cr_path c) (cr_addr c) (cr_length c)) ::
  match cr_ts_unmapped c with Some t => [(t, HMunmap (cr_addr c))] | None => [] end.

Definition source_name (r : gpu_range) : text :=
  match gr_source r with
  | Some SysmemTrack => codes "kernel_sysmem_track"
  | Some Bar1Track => codes "kernel_bar1_track"
  | None => codes "uvm"
  end.

Definition gpu_hist (g : gpu_range) : list (Z * hist_what) :=
  (gr_ts_mapped g, HGpuMap (source_name g) (gr_base g) (gr_length g)) ::
  match gr_ts_unmapped g with Some t => [(t, HGpuUnmap (source_name g) (gr_base g))] | None => [] end.

(** The second walk over the timeline, for control calls. *)
Fixpoint control_hist (events : list tev) (d : list (Z * alloc_info)) : option (list (Z * alloc_info)) :=
  match events with
  | [] => Some d
  | ev :: events =>
      if kind_is (te_kind ev) "control" then
        h ← hex_field (te_data ev) "hObject";
        control_hist events (add_hist h [(te_ts ev, HControl (get_or_none (te_data ev) "ctrlcmd")
          (get_or_none (te_data ev) "hClient") (get_or_none (te_data ev) "paramsSize"))] d)
      else control_hist events d
  end.

Definition map_infos (f : alloc_info → alloc_info) (d : list (Z * alloc_info)) : list (Z * alloc_info) :=
  (λ p : Z * alloc_info, (p.1, f p.2)) <$> d.

Definition histories (events : list tev) (a : Atlas) : option (list (Z * alloc_info)) :=
  let d := map_infos (set_hist alloc_hist) (allocs a) in
  let d := foldl (λ d c, if cr_hMemory c =? 0 then d else add_hist (cr_hMemory c) (cpu_hist c) d) d (cpu_ranges a) in
  let d := foldl (λ d g, if gr_hMemory g =? 0 then d else add_hist (gr_hMemory g) (gpu_hist g) d) d (gpu_ranges a) in
  d ← control_hist events d;
  Some (map_infos (set_hist (λ i, sort_by fst (ai_events i))) d).

(** *** Addresses again *)

Definition re_resolve_pb (a : Atlas) (e : submission) : option submission :=
  va ← _int_hex (JStr (pv_pb_va e));
  r ← _resolve_gpu_va a va (pv_ts e);
  Some (PbEvent (pv_ts e) (pv_pid e) (pv_seq e) (pv_chid e) (pv_idx e) (pv_entry0 e) (pv_entry1 e) (pv_pb_va e) (pv_pb_len e) r).

Definition re_resolve_method (a : Atlas) (ts : Z) (m : decoded) : option decoded :=
  match m with
  | DVa role class_id subchan va _ =>
      z ← _int_hex (JStr va);
      r ← _resolve_gpu_va a z ts;
      Some (DVa role class_id subchan va r)
  | DMethod _ => Some m
  end.

Definition re_resolve_bytes (a : Atlas) (e : pb_bytes_event) : option pb_bytes_event :=
  ms ← mapM (re_resolve_method a (by_ts e)) (by_methods e);
  Some (PbBytesEvent (by_ts e) (by_pid e) (by_seq e) (by_chid e) (by_idx e) (by_nbytes e) ms).

Definition post_passes (events : list tev) (a : Atlas) : option Atlas :=
  let a := with_gpu (fmap (backfill_cpu a)) a in
  rs ← mapM (backfill_alloc a) (gpu_ranges a);
  let a := with_gpu (λ _, rs) a in
  als ← histories events a;
  let a := with_allocs (λ _, als) a in
  pes ← mapM (re_resolve_pb a) (pb_events a);
  bes ← mapM (re_resolve_bytes a) (pb_bytes_events a);
  Some (with_bytes (λ _, bes) (with_pb (λ _, pes) a)).

Definition build_atlas (events : list tev) : option Atlas := ingest events atlas0 ≫= post_passes events.
