(* ===== verification/AtlasHistory.v ===== *)
(** * The atlas answers for the time asked about

    What [build_atlas] (Atlas) says of a submitted address is what the ranges mapped at the
    time of the submission say: later events and the passes at the end only name owners. *)

From stdpp Require Import base numbers list gmap strings sorting.
From S2P Require Import Prelude TraceText FtraceParse Submit Timeline Atlas.
#[local] Open Scope Z_scope.

(** ** Ranges over time *)

(** The same mapping: all but its owner and its end. *)
Definition same_mapping (r r' : gpu_range) : Prop :=
  gr_base r = gr_base r' ∧ gr_end r = gr_end r' ∧ gr_length r = gr_length r' ∧ gr_offset r = gr_offset r' ∧
  gr_source r = gr_source r' ∧ gr_kva r = gr_kva r' ∧ gr_slot r = gr_slot r' ∧ gr_ts_mapped r = gr_ts_mapped r'.

(** After [t] a mapping may end, and later. *)
Definition evolved (t : Z) (r r' : gpu_range) : Prop :=
  same_mapping r r' ∧
  (gr_ts_unmapped r' = gr_ts_unmapped r ∨ gr_ts_unmapped r = None ∧ ∃ u, gr_ts_unmapped r' = Some u ∧ t < u).

Definition grown (t : Z) (l l' : list gpu_range) : Prop :=
  ∃ old new, l' = old ++ new ∧ Forall2 (evolved t) l old ∧ Forall (λ r, t < gr_ts_mapped r) new.

#[global] Instance same_mapping_equiv : Equivalence same_mapping.
Proof. split; [intros ?|intros ???|intros ?????]; unfold same_mapping in *; naive_solver congruence. Qed.

Lemma evolved_refl t r : evolved t r r.
Proof. split; [done|by left]. Qed.

Lemma evolved_trans t r1 r2 r3 : evolved t r1 r2 → evolved t r2 r3 → evolved t r1 r3.
Proof.
  intros [Hs1 H1] [Hs2 H2]. split; [by etrans|]. destruct H1 as [H1|(H1 & u & Hu & Ht)], H2 as [H2|(H2 & u' & Hu' & Ht')].
  - left. congruence.
  - right. split; [congruence|by eexists].
  - right. split; [done|]. exists u. split; [congruence|done].
  - congruence.
Qed.

Lemma grown_refl t l : grown t l l.
Proof. exists l, []. rewrite app_nil_r. split_and!; [done| |constructor]. apply Forall_Forall2_diag, Forall_true, evolved_refl. Qed.

Lemma grown_same t l l' : Forall2 (evolved t) l l' → grown t l l'.
Proof. intros H. exists l', []. by rewrite app_nil_r. Qed.

Lemma grown_snoc t l r : t < gr_ts_mapped r → grown t l (l ++ [r]).
Proof.
  intros Hr. exists l, [r]. split_and!; [done| |by repeat constructor]. apply Forall_Forall2_diag, Forall_true, evolved_refl.
Qed.

Lemma grown_trans t l1 l2 l3 : grown t l1 l2 → grown t l2 l3 → grown t l1 l3.
Proof.
  intros (o1 & n1 & -> & H1 & Hn1) (o2 & n2 & -> & H2 & Hn2). apply Forall2_app_inv_l in H2 as (o & n & Ho & Hn & ->).
  exists o, (n ++ n2). rewrite app_assoc. split_and!; [done| |].
  - clear -H1 Ho. revert o Ho. induction H1 as [|r1 r2 l1 o1 Hr H1 IH]; intros o Ho; inversion_clear Ho as [|? r3 ? o3]; constructor; [|by apply IH].
    by eapply evolved_trans.
  - apply Forall_app. split; [|done]. clear -Hn1 Hn. induction Hn as [|r r' n n' [Hs _] Hn IH]; [done|].
    inversion_clear Hn1. constructor; [|by apply IH]. destruct Hs as (_ & _ & _ & _ & _ & _ & _ & <-). done.
Qed.

Lemma mark_first_evolved t u p l : t < u → (∀ r, p r = true → gr_ts_unmapped r = None) →
  Forall2 (evolved t) l (mark_first p (unmap_range u) l).
Proof.
  intros Hu Hp. induction l as [|r l IH]; [constructor|]. simpl. destruct (p r) eqn:Hr.
  - constructor; [|apply Forall_Forall2_diag, Forall_true, evolved_refl]. split; [done|]. right. split; [by apply Hp|]. by exists u.
  - constructor; [apply evolved_refl|done].
Qed.

Lemma own_range_evolved t h n v r : evolved t r (own_range h n v r).
Proof. split; [done|by left]. Qed.

(** ** What an event can do *)

Ltac on_event H :=
  unfold atlas_event in H;
  repeat match type of H with (if ?b then _ else _) = _ => destruct b eqn:? end;
  unfold on_init, on_alloc_event, on_free_event, on_virtmem_backing, on_intermap_call, on_map_uvm, on_map_bar1,
    on_sysmem_add, on_track_remove, on_bar1_add, on_mmap, on_munmap, on_open, on_close, on_pb, on_pb_bytes_event, add_fd in H;
  repeat (simplify_option_eq || case_match); simplify_eq/=.

(** An event after [t] changes no answer for [t]. *)
Lemma atlas_event_grown t ev a a' : t < te_ts ev → atlas_event ev a = Some a' → grown t (gpu_ranges a) (gpu_ranges a').
Proof.
  intros Ht H. on_event H; try apply grown_refl; try (by apply grown_snoc).
  all: apply grown_same, mark_first_evolved; [lia|]; intros r [_ Hr%negb_true_iff]%andb_true_iff; unfold is_unmapped in Hr; by case_match.
Qed.

Lemma ingest_grown t events : ∀ a a', Forall (λ ev, t < te_ts ev) events → ingest events a = Some a' →
  grown t (gpu_ranges a) (gpu_ranges a').
Proof.
  induction events as [|ev events IH]; intros a a' Hts H; simpl in H; simplify_eq; [apply grown_refl|].
  inversion_clear Hts. destruct (atlas_event ev a) as [a1|] eqn:Ha; [|done]. simpl in H.
  eapply grown_trans; [by eapply atlas_event_grown|by apply IH].
Qed.

Lemma ingest_app l1 l2 a : ingest (l1 ++ l2) a = ingest l1 a ≫= ingest l2.
Proof. revert a. induction l1 as [|ev l1 IH]; intros a; [done|]. simpl. destruct (atlas_event ev a); [apply IH|done]. Qed.

(** The passes name owners. *)
Lemma backfill_cpu_evolved t a r : evolved t r (backfill_cpu a r).
Proof. unfold backfill_cpu. repeat case_match; try apply evolved_refl; apply own_range_evolved. Qed.

Lemma backfill_alloc_evolved t a r r' : backfill_alloc a r = Some r' → evolved t r r'.
Proof.
  unfold backfill_alloc. intros H. repeat (simplify_option_eq || case_match); simplify_eq; try apply evolved_refl; apply own_range_evolved.
Qed.

Lemma passes_grown t a rs : mapM (backfill_alloc (with_gpu (fmap (backfill_cpu a)) a)) (backfill_cpu a <$> gpu_ranges a) = Some rs →
  grown t (gpu_ranges a) rs.
Proof.
  intros H%mapM_Some. apply grown_same. rewrite Forall2_fmap_l in H. eapply Forall2_impl; [exact H|]. intros r r' Hr. simpl in Hr.
  eapply evolved_trans; [apply (backfill_cpu_evolved t a)|by eapply backfill_alloc_evolved].
Qed.

(** ** Lookups *)

Lemma evolved_hit t r r' va : evolved t r r' → contains r va && live_at t r = contains r' va && live_at t r'.
Proof.
  intros [(Hb & He & _ & _ & _ & _ & _ & Hm) Hu]. unfold contains, live_at. rewrite Hb, He, Hm. do 2 f_equal.
  destruct Hu as [->|(-> & u & -> & Hu)]; [done|]. symmetry. apply Z.leb_le. lia.
Qed.

Lemma range_at_cons r l va t : range_at (r :: l) va t = if contains r va && live_at t r then Some r else range_at l va t.
Proof.
  unfold range_at. simpl. destruct (contains r va && live_at t r); [by rewrite decide_True|]. rewrite decide_False by done.
  by destruct (list_find _ l) as [[i x]|].
Qed.

Lemma range_at_none l va t : range_at l va t = None ↔ Forall (λ r, contains r va && live_at t r = false) l.
Proof.
  induction l as [|r l IH]; [by split|]. rewrite range_at_cons, Forall_cons, <-IH. destruct (contains r va && live_at t r); naive_solver.
Qed.

Lemma range_at_grown t l l' va : grown t l l' → option_Forall2 same_mapping (range_at l va t) (range_at l' va t).
Proof.
  intros (old & new & -> & Ho & Hn). induction Ho as [|r r' l old Hr Ho IH].
  - cbn [app]. assert (range_at new va t = None) as ->; [|constructor]. apply range_at_none. eapply Forall_impl; [exact Hn|].
    intros r Hr. simpl in Hr. unfold live_at. rewrite (proj2 (Z.leb_gt _ _)) by lia. by rewrite andb_false_r.
  - cbn [app]. rewrite !range_at_cons, <-(evolved_hit t r r') by done. case_match; [constructor; apply Hr|done].
Qed.

(** ** Addresses printed and read back *)

Lemma py_digits_ok z : 0 ≤ z → py_digits z = digit_char <$> digits 16 (S (Z.to_nat (Z.log2 z))) z ∧
  digits 16 (S (Z.to_nat (Z.log2 z))) z ≠ [] ∧ Forall (is_digit_of 16) (digits 16 (S (Z.to_nat (Z.log2 z))) z) ∧
  num_eval 16 0 (digits 16 (S (Z.to_nat (Z.log2 z))) z) = z.
Proof.
  intros Hz. split_and!; [done|apply digits_nonempty|apply digits_range; lia|]. apply digits_eval; [lia|]. split; [done|].
  rewrite Nat2Z.inj_succ, Z2Nat.id by apply Z.log2_nonneg. destruct (decide (z = 0)) as [->|]; [done|].
  destruct (Z.log2_spec z) as [_ Hl]; [lia|]. eapply Z.lt_le_trans; [exact Hl|]. apply Z.pow_le_mono_l. pose proof (Z.log2_nonneg z). lia.
Qed.

Lemma hex_roundtrip w z : 0 ≤ z → _int_hex (JStr (codes "0x" ++ py_hex w z)) = Some z.
Proof.
  intros Hz. unfold py_hex. rewrite (proj2 (Z.ltb_ge _ _)) by lia. destruct (py_digits_ok z Hz) as (-> & Hne & Hd & Hv).
  rewrite pad_zeros_digits. set (ds := replicate _ 0 ++ _).
  assert (Forall (is_digit_of 16) ds) as Hds by (apply Forall_app; split; [apply Forall_replicate; unfold is_digit_of; lia|done]).
  unfold _int_hex. rewrite strip_id; [|constructor; [done|constructor; [done|by eapply digits_non_space]]].
  change (starts_with (codes "0x") (codes "0x" ++ (digit_char <$> ds))) with true. cbn [orb].
  change (drop 2 (codes "0x" ++ (digit_char <$> ds))) with (digit_char <$> ds).
  rewrite num_prefixed_digits; [|unfold ds; by destruct (replicate _ 0)|done]. unfold ds. by rewrite num_eval_zeros, Hv.
Qed.

Lemma hex_read_back z z' : _int_hex (JStr (codes "0x" ++ py_hex 0 z)) = Some z' → z' = z.
Proof.
  intros H. destruct (decide (0 ≤ z)); [rewrite hex_roundtrip in H by done; congruence|]. exfalso.
  unfold py_hex in H. rewrite (proj2 (Z.ltb_lt _ _)) in H by lia. destruct (py_digits_ok (- z)) as (Hp & _ & Hd & _); [lia|].
  rewrite Hp, pad_zeros_digits in H. set (ds := replicate _ 0 ++ _) in H.
  assert (Forall (is_digit_of 16) ds) as Hds by (apply Forall_app; split; [apply Forall_replicate; unfold is_digit_of; lia|done]).
  unfold _int_hex in H. rewrite strip_id in H; [done|]. repeat (constructor; [done|]). by eapply digits_non_space.
Qed.

(** ** No exception on what the tools write *)

Definition hex_keys : list string :=
  ["handle"; "class"; "hMemory"; "hVASpace"; "vaSize"; "aspace"; "hCarrier"; "hSrc"; "src_class"; "length"; "dmaOffset"; "base";
   "flags"; "end"; "phys"; "addr"; "offset"; "pb_va"; "hObject"].
Definition int_keys : list string := ["length"; "offset"; "size"; "pb_len"; "seq"; "chid"; "idx"; "nbytes"].
Definition channel_keys : list string :=
  ["hVASpace"; "hUserdMemory"; "userdOffset"; "gpFifoOffset"; "gpFifoEntries"; "engineType"; "cid"].

Definition somes {A} (o : option A) : bool := match o with Some _ => true | None => false end.

(** The body of an allocation: a dictionary of numbers. *)
Definition readable_body (v : json) : bool :=
  match v with
  | JDict b => forallb (λ k, somes (hex_field b k)) channel_keys &&
               match default (JInt 0) (jget b (codes "size")) with
               | JInt _ | JBool _ => true
               | JStr t => somes (_int_hex (JStr t))
               | _ => false
               end
  | _ => false
  end.

(** The numbers of an event can be read and a submitted address is not negative. *)
Definition readable_event (ev : tev) : bool :=
  let d := te_data ev in
  forallb (λ k, somes (hex_field d k)) hex_keys && forallb (λ k, somes (int_field d k)) int_keys &&
  forallb (λ k, somes (py_int (default (JInt 0) (jget d (codes k))))) ["mono_ns"; "real_ns"] &&
  match get_or_none d "fd" with JNull => true | v => somes (py_int v) end &&
  match get_or_none d "hex" with JNull | JStr _ => true | _ => false end &&
  readable_body (default (JDict []) (jget d (codes "body"))) &&
  match hex_field d "pb_va" with Some va => 0 <=? va | None => false end.

Definition body_ok (i : alloc_info) : Prop := readable_body (ai_body i) = true.

Definition printed (t : text) : Prop := ∃ va, 0 ≤ va ∧ t = codes "0x" ++ py_hex 0 va.

Definition decoded_ok (m : decoded) : Prop := match m with DVa _ _ _ va _ => printed va | DMethod _ => True end.

Record atlas_ok (a : Atlas) : Prop := {
  ok_bodies : Forall (λ p, body_ok p.2) (allocs a);
  ok_pb : Forall (λ e, printed (pv_pb_va e)) (pb_events a);
  ok_bytes : Forall (λ e, Forall decoded_ok (by_methods e)) (pb_bytes_events a) }.

Lemma somes_ok {A} (o : option A) : somes o = true → ∃ x, o = Some x.
Proof. destruct o; [by eexists|done]. Qed.

Section readable_event.
Context (ev : tev) (Hev : readable_event ev = true).

Lemma readable_parts : forallb (λ k, somes (hex_field (te_data ev) k)) hex_keys = true ∧
  forallb (λ k, somes (int_field (te_data ev) k)) int_keys = true ∧
  forallb (λ k, somes (py_int (default (JInt 0) (jget (te_data ev) (codes k))))) ["mono_ns"; "real_ns"] = true ∧
  match get_or_none (te_data ev) "fd" with JNull => true | v => somes (py_int v) end = true ∧
  match get_or_none (te_data ev) "hex" with JNull | JStr _ => true | _ => false end = true ∧
  readable_body (default (JDict []) (jget (te_data ev) (codes "body"))) = true ∧
  match hex_field (te_data ev) "pb_va" with Some va => 0 <=? va | None => false end = true.
Proof using Hev. unfold readable_event in Hev. rewrite !andb_true_iff in Hev. tauto. Qed.

Lemma readable_hex k : bool_decide (k ∈ hex_keys) = true → ∃ z, hex_field (te_data ev) k = Some z.
Proof using Hev.
  intros Hk%bool_decide_eq_true. apply somes_ok. destruct readable_parts as (H & _).
  rewrite forallb_forall in H. by apply (H k), list_elem_of_In.
Qed.

Lemma readable_int k : bool_decide (k ∈ int_keys) = true → ∃ z, int_field (te_data ev) k = Some z.
Proof using Hev.
  intros Hk%bool_decide_eq_true. apply somes_ok. destruct readable_parts as (_ & H & _).
  rewrite forallb_forall in H. by apply (H k), list_elem_of_In.
Qed.
End readable_event.

Lemma readable_channel b k : readable_body (JDict b) = true → bool_decide (k ∈ channel_keys) = true → ∃ z, hex_field b k = Some z.
Proof.
  intros [H _]%andb_true_iff Hk%bool_decide_eq_true. apply somes_ok. rewrite forallb_forall in H. by apply (H k), list_elem_of_In.
Qed.

Lemma readable_dict d : readable_body (default (JDict []) (jget d (codes "body"))) = true →
  ∃ b, body_dict d = Some b ∧ readable_body (JDict b) = true.
Proof.
  unfold body_dict, get_or_none. destruct (jget d (codes "body")) as [[]|] eqn:Hb; cbn [default]; intros H; try done.
  - destruct d0 as [|x l]; [by exists []|]. by exists (x :: l).
  - by exists [].
Qed.

(** Reads the fields of a readable event. *)
Ltac read_fields Hev :=
  repeat match goal with
  | |- context [hex_field (te_data ?ev) ?k ≫= _] =>
      let z := fresh "z" in let E := fresh "E" in destruct (readable_hex ev Hev k eq_refl) as [z E]; rewrite E; cbn [mbind option_bind]
  | |- context [int_field (te_data ?ev) ?k ≫= _] =>
      let z := fresh "z" in let E := fresh "E" in destruct (readable_int ev Hev k eq_refl) as [z E]; rewrite E; cbn [mbind option_bind]
  end.

Lemma new_channel_ok ev cls ts : readable_event ev = true → ∃ ch, new_channel cls ts (te_data ev) = Some ch.
Proof.
  intros Hev. destruct (readable_parts ev Hev) as (_ & _ & _ & _ & _ & Hb & _). unfold new_channel.
  destruct (readable_dict _ Hb) as (b & -> & Hr). cbn [mbind option_bind].
  do 7 (match goal with |- context [hex_field b ?k ≫= _] => destruct (readable_channel b k Hr eq_refl) as [? ->]; cbn [mbind option_bind] end).
  by eexists.
Qed.

Lemma dict_set_Forall {A} (P : A → Prop) k v (d : list (Z * A)) : P v → Forall (λ p, P p.2) d → Forall (λ p, P p.2) (dict_set k v d).
Proof.
  intros Hv. induction 1 as [|[k' v'] d Hp Hd IH]; simpl; [by repeat constructor|]. case_match; by constructor.
Qed.

Lemma dict_get_Forall {A} (P : A → Prop) k v (d : list (Z * A)) : Forall (λ p, P p.2) d → dict_get k d = Some v → P v.
Proof. induction 1 as [|[k' v'] d Hp Hd IH]; simpl; [done|]. case_match; [by intros [= <-]|done]. Qed.

Lemma dict_alter_Forall {A} (P : A → Prop) k f (d : list (Z * A)) : (∀ v, P v → P (f v)) →
  Forall (λ p, P p.2) d → Forall (λ p, P p.2) (dict_alter k f d).
Proof. intros Hf Hd. unfold dict_alter. destruct (dict_get k d) eqn:E; [|done]. apply dict_set_Forall; [|done]. by eapply Hf, dict_get_Forall. Qed.

Lemma body_size_ok i : body_ok i → ∃ v, body_size (Some i) = Some v.
Proof. unfold body_ok, body_size. destruct (ai_body i); try done. by eexists. Qed.

Lemma resolve_ok a va ts : Forall (λ p, body_ok p.2) (allocs a) → ∃ r, _resolve_gpu_va a va ts = Some r.
Proof.
  intros Hb. unfold _resolve_gpu_va. destruct (range_at _ va ts) as [r|]; [|by eexists].
  destruct (dict_get (gr_hMemory r) (allocs a)) as [i|] eqn:Hi; [|by eexists].
  destruct (body_size_ok i) as [v ->]; [by eapply dict_get_Forall in Hi; [|exact Hb]|]. by eexists.
Qed.

(** *** The addresses of a method stream *)

Lemma digit_value_nonneg c d : digit_value 16 c = Some d → 0 ≤ d.
Proof. unfold digit_value, is_digit, is_lower. repeat case_match; intros; simplify_eq; lia. Qed.

Lemma fromhex_nonneg t : ∀ bs, fromhex t = Some bs → Forall (λ b, 0 ≤ b) bs.
Proof.
  induction t as [t IH] using (induction_ltof1 _ (length (A:=Z))). unfold ltof in IH. intros bs H.
  destruct t as [|c t]; [by simplify_eq/=|]. cbn [fromhex] in H. destruct (ascii_space c).
  { apply (IH t); [simpl; lia|done]. }
  destruct t as [|c' t]; [done|]. destruct (digit_value 16 c) as [hi|] eqn:Hh; [|done]. destruct (digit_value 16 c') as [lo|] eqn:Hl; [|done].
  cbn [mbind option_bind] in H. destruct (fromhex t) as [bs'|] eqn:Ht; [|done]. simplify_eq/=.
  apply digit_value_nonneg in Hh, Hl. constructor; [lia|]. apply (IH t); [simpl; lia|done].
Qed.

Lemma le_words_nonneg bs : Forall (λ b, 0 ≤ b) bs → Forall (λ w, 0 ≤ w) (le_words bs).
Proof.
  induction bs as [bs IH] using (induction_ltof1 _ (length (A:=Z))). unfold ltof in IH. intros Hb.
  destruct bs as [|b0 [|b1 [|b2 [|b3 bs]]]]; cbn [le_words]; try constructor.
  - rewrite !Forall_cons in Hb. lia.
  - apply IH; [simpl; lia|]. rewrite !Forall_cons in Hb. tauto.
Qed.

Lemma pb_entries_nonneg incr sc maddr dws : Forall (λ w, 0 ≤ w) dws → ∀ k subch,
  Forall (λ m, 0 ≤ pm_val m) (pb_entries incr sc maddr k dws subch).1.
Proof.
  induction 1 as [|dw dws Hd Hds IH]; intros k subch; [constructor|]. cbn [pb_entries].
  destruct (maddr + (if incr then 4 * k else 0) =? 0); cbn zeta; (destruct (pb_entries _ _ _ _ _ _) as [es s] eqn:E; simpl; constructor; [done|];
    match type of E with pb_entries _ _ _ ?k _ ?s' = _ => specialize (IH k s'); by rewrite E in IH end).
Qed.

Lemma decode_nonneg fuel : ∀ subch ws, Forall (λ w, 0 ≤ w) ws → Forall (λ m, 0 ≤ pm_val m) (decode_pb_loop fuel subch ws).
Proof.
  induction fuel as [|fuel IH]; intros subch ws Hw; [constructor|]. destruct ws as [|hdr ws]; [constructor|]. cbn [decode_pb_loop].
  inversion_clear Hw as [|?? Hh Hw']. destruct (hdr =? 0); [constructor|]. destruct (decode_header hdr) as [[[ty cnt] sc] maddr].
  destruct (ty =? METHOD_TYPE_IMMD).
  - constructor; [|by apply IH]. cbn [pm_val]. apply Z.land_nonneg. right. lia.
  - pose proof (pb_entries_nonneg (ty =? METHOD_TYPE_INCR) sc maddr (take (Z.to_nat cnt) ws) (Forall_take _ _ _ Hw') 0 subch) as Hp.
    destruct (pb_entries _ _ _ _ _ _) as [es s]. apply Forall_app. split; [done|]. by apply IH, Forall_drop.
Qed.

Lemma fold_nonneg ms : Forall (λ m, 0 ≤ pm_val m) ms →
  Forall (λ m, match m with FoldPair _ va _ _ => 0 ≤ va | FoldOther _ => True end) (fold_address_pairs ms).
Proof.
  induction ms as [ms IH] using (induction_ltof1 _ (length (A:=pb_method))). unfold ltof in IH. intros Hm.
  assert (∀ m, 0 ≤ pm_val m → 0 ≤ pm_data m) as Hd by (intros m Hv; unfold pm_data; destruct (pm_type m); lia).
  destruct ms as [|m ms]; [constructor|]. cbn [fold_address_pairs]. inversion_clear Hm as [|?? Hv Hm'].
  assert (Forall (λ m, match m with FoldPair _ va _ _ => 0 ≤ va | FoldOther _ => True end) (FoldOther m :: fold_address_pairs ms)) as Hother
    by (constructor; [done|apply IH; [simpl; lia|done]]).
  destruct (address_pair (pm_addr m)) as [[lower role]|]; [|done]. destruct ms as [|m2 ms]; [done|].
  inversion_clear Hm' as [|?? Hv2 Hm2]. destruct (pm_addr m2 =? lower); [|done]. constructor; [|apply IH; [simpl; lia|done]].
  apply Z.lor_nonneg. rewrite Z.shiftl_nonneg. auto.
Qed.

Lemma dump_bytes_ok ev : readable_event ev = true → ∃ raw, event_bytes (te_data ev) = Some raw ∧ Forall (λ b, 0 ≤ b) raw.
Proof.
  intros Hev. destruct (readable_parts ev Hev) as (_ & _ & _ & _ & Hh & _). unfold event_bytes.
  destruct (get_or_none (te_data ev) "hex"); try done; [by exists []|]. destruct (truthy _); [cbn [default]|by exists []].
  destruct (fromhex t) as [bs|] eqn:Hf; [exists bs|by exists []]. split; [done|]. by eapply fromhex_nonneg.
Qed.

Lemma decode_methods_ok a ts ms : Forall (λ p, body_ok p.2) (allocs a) →
  Forall (λ m, match m with FoldPair _ va _ _ => 0 ≤ va | FoldOther _ => True end) ms →
  ∃ ds, mapM (decode_method a ts) ms = Some ds ∧ Forall decoded_ok ds.
Proof.
  intros Hb. induction 1 as [|m ms Hm Hms (ds & Hds & Hok)]; [by exists []|]. cbn [mapM]. rewrite Hds.
  destruct m as [role va cls sc|m]; cbn [decode_method].
  - destruct (resolve_ok a va ts Hb) as [r ->]. cbn [mbind option_bind]. eexists. split; [done|]. constructor; [by exists va|done].
  - cbn [mbind option_bind]. eexists. split; [done|]. by constructor.
Qed.

(** *** One event, and all *)

Section event_ok.
Context (ev : tev) (a : Atlas) (Hev : readable_event ev = true) (Ha : atlas_ok a).

Definition goes_on (m : option Atlas) : Prop := ∃ a', m = Some a' ∧ atlas_ok a'.

(** A change elsewhere. *)
Lemma elsewhere a' : allocs a' = allocs a → pb_events a' = pb_events a → pb_bytes_events a' = pb_bytes_events a → goes_on (Some a').
Proof using Ha. intros H1 H2 H3. exists a'. split; [done|]. destruct Ha. split; by rewrite ?H1, ?H2, ?H3. Qed.

Lemma on_init_ok : goes_on (on_init ev a).
Proof using Hev Ha.
  destruct (readable_parts ev Hev) as (_ & _ & Hi & _). cbn [forallb] in Hi. rewrite !andb_true_iff in Hi. destruct Hi as (H1 & H2 & _).
  apply somes_ok in H1 as [x H1], H2 as [y H2]. unfold on_init. rewrite H1, H2. by apply elsewhere.
Qed.

Lemma on_alloc_ok : goes_on (on_alloc_event ev a).
Proof using Hev Ha.
  unfold on_alloc_event. read_fields Hev. case_match; [by apply elsewhere|]. read_fields Hev.
  destruct (readable_parts ev Hev) as (_ & _ & _ & _ & _ & Hb & _).
  set (al := dict_set _ _). assert (atlas_ok (with_allocs al a)) as Hok.
  { destruct Ha as [H1 H2 H3]. split; [|done|done]. apply (dict_set_Forall body_ok); done. }
  assert (∀ a', atlas_ok a' → ∀ b : bool, ∃ a'', Some (if b then with_clients (λ l, l ++ [(te_ts ev, z)]) a' else a') = Some a'' ∧ atlas_ok a'') as Hc.
  { intros a' [H1 H2 H3] b. eexists. split; [done|]. by destruct b. }
  destruct (is_channel_class z0).
  - destruct (new_channel_ok ev z0 (te_ts ev) Hev) as [ch ->]. cbn [mbind option_bind]. apply Hc. destruct Hok as [H1 H2 H3]. by split.
  - cbn [mbind option_bind]. by apply Hc.
Qed.

Lemma on_free_ok : goes_on (on_free_event ev a).
Proof using Hev Ha.
  unfold on_free_event. read_fields Hev. eexists. split; [done|]. destruct Ha as [H1 H2 H3]. split; [|done|done].
  apply (dict_alter_Forall body_ok); done.
Qed.

Lemma readable_fd : get_or_none (te_data ev) "fd" ≠ JNull → ∃ z, py_int (get_or_none (te_data ev) "fd") = Some z.
Proof using Hev.
  intros Hn. destruct (readable_parts ev Hev) as (_ & _ & _ & Hfd & _). apply somes_ok. by destruct (get_or_none _ "fd").
Qed.

Lemma on_map_bar1_ok : goes_on (on_map_bar1 ev a).
Proof using Hev Ha.
  unfold on_map_bar1. read_fields Hev. pose proof readable_fd as Hfd.
  destruct (get_or_none (te_data ev) "fd"); [by apply elsewhere|..];
    (destruct Hfd as [fd Hfd]; [done|]; case_match; [by apply elsewhere|]; read_fields Hev; rewrite Hfd; by apply elsewhere).
Qed.

Lemma on_mmap_ok : goes_on (on_mmap ev a).
Proof using Hev Ha.
  unfold on_mmap. read_fields Hev. case_match; [by apply elsewhere|]. pose proof readable_fd as Hfd.
  destruct (get_or_none (te_data ev) "fd"); [cbn [mbind option_bind]; read_fields Hev; by apply elsewhere|..];
    (destruct Hfd as [fd Hfd]; [done|]; rewrite Hfd; cbn [fmap option_fmap option_map mbind option_bind]; read_fields Hev; by apply elsewhere).
Qed.

Lemma on_open_ok : goes_on (on_open ev a).
Proof using Hev Ha.
  unfold on_open. pose proof readable_fd as Hfd.
  destruct (get_or_none (te_data ev) "fd"); [by apply elsewhere|..]; (destruct Hfd as [fd Hfd]; [done|]; rewrite Hfd; by apply elsewhere).
Qed.

Lemma on_pb_ok : goes_on (on_pb ev a).
Proof using Hev Ha.
  destruct (readable_parts ev Hev) as (_ & _ & _ & _ & _ & _ & Hva). destruct Ha as [H1 H2 H3].
  unfold on_pb. read_fields Hev. rewrite E in Hva. destruct (resolve_ok a z (te_ts ev) H1) as [r ->]. cbn [mbind option_bind]. read_fields Hev.
  eexists. split; [done|]. split; [done| |done]. apply Forall_app. split; [done|]. constructor; [|done]. exists z. split; [by apply Z.leb_le|done].
Qed.

Lemma on_pb_bytes_ok : goes_on (on_pb_bytes_event ev a).
Proof using Hev Ha.
  destruct Ha as [H1 H2 H3]. unfold on_pb_bytes_event. read_fields Hev.
  destruct (dump_bytes_ok ev Hev) as (raw & -> & Hraw). cbn [mbind option_bind].
  destruct (decode_methods_ok a (te_ts ev) (fold_address_pairs (decode_pushbuffer (le_words raw))) H1) as (ds & -> & Hds).
  { by apply fold_nonneg, decode_nonneg, le_words_nonneg. }
  eexists. split; [done|]. split; [done|done|]. apply Forall_app. by split; [|constructor].
Qed.

Lemma atlas_event_ok : goes_on (atlas_event ev a).
Proof using Hev Ha.
  unfold atlas_event.
  repeat (case_match; [first [apply on_init_ok|apply on_alloc_ok|apply on_free_ok|apply on_map_bar1_ok|apply on_mmap_ok|apply on_open_ok
    |apply on_pb_ok|apply on_pb_bytes_ok
    |unfold on_virtmem_backing, on_intermap_call, on_map_uvm, on_sysmem_add, on_bar1_add, on_track_remove, on_munmap, on_close;
     repeat (progress read_fields Hev || case_match); by apply elsewhere]|]).
  by apply elsewhere.
Qed.
End event_ok.

Lemma ingest_ok events : ∀ a, forallb readable_event events = true → atlas_ok a → ∃ a', ingest events a = Some a' ∧ atlas_ok a'.
Proof.
  induction events as [|ev events IH]; intros a Hev Ha; [by exists a|]. apply andb_true_iff in Hev as [He Hev].
  destruct (atlas_event_ok ev a He Ha) as (a1 & Ha1 & Hok). destruct (IH a1 Hev Hok) as (a' & Hi & Hok').
  exists a'. split; [|done]. cbn [ingest]. by rewrite Ha1.
Qed.

(** *** The passes *)

Lemma mapM_all {A B} (f : A → option B) l : Forall (λ x, ∃ y, f x = Some y) l → ∃ ys, mapM f l = Some ys.
Proof. intros H. apply mapM_is_Some. eapply Forall_impl; [exact H|]. intros x [y Hy]. by exists y. Qed.

Lemma size_of_body_ok i : body_ok i → ∃ z, size_of_body i = Some z.
Proof.
  unfold body_ok, size_of_body. destruct (ai_body i) as [| | | | |b]; try done. intros [_ H]%andb_true_iff.
  assert (∀ v, match v with JInt _ | JBool _ => true | JStr t => somes (_int_hex (JStr t)) | _ => false end = true →
    ∃ z, match v with JInt z => Some z | JBool b => Some (Z.b2z b) | JStr t => _int_hex (JStr t) | _ => None end = Some z) as Hv.
  { intros [] Hx; try done; try (by eexists). by apply somes_ok in Hx. }
  destruct b as [|x b]; [by eexists|]. cbn [truthy mbind option_bind]. exact (Hv _ H).
Qed.

Lemma backfill_alloc_ok a r : Forall (λ p, body_ok p.2) (allocs a) → ∃ r', backfill_alloc a r = Some r'.
Proof.
  intros Hb. unfold backfill_alloc. case_match; [|by eexists].
  destruct (mapM_all (λ p, d ← alloc_distance r p; Some (p, d)) (allocs a)) as [ds ->]; [|by eexists].
  eapply Forall_impl; [exact Hb|]. intros p Hp. unfold alloc_distance.
  match goal with |- context [if ?b then _ else _] => destruct b end; [|by eexists]. destruct (size_of_body_ok p.2 Hp) as [z ->]. by eexists.
Qed.

Lemma add_hist_bodies h es d : Forall (λ p, body_ok p.2) d → Forall (λ p, body_ok p.2) (add_hist h es d).
Proof. apply (dict_alter_Forall body_ok). done. Qed.

Lemma foldl_bodies {A} (f : list (Z * alloc_info) → A → list (Z * alloc_info)) l :
  (∀ d x, Forall (λ p, body_ok p.2) d → Forall (λ p, body_ok p.2) (f d x)) →
  ∀ d, Forall (λ p, body_ok p.2) d → Forall (λ p, body_ok p.2) (foldl f d l).
Proof. intros Hf. induction l as [|x l IH]; intros d Hd; [done|]. simpl. by apply IH, Hf. Qed.

Lemma map_infos_bodies f d : (∀ i, ai_body (f i) = ai_body i) → Forall (λ p, body_ok p.2) d → Forall (λ p, body_ok p.2) (map_infos f d).
Proof. intros Hf Hd. apply Forall_fmap. eapply Forall_impl; [exact Hd|]. intros p Hp. simpl. unfold body_ok. by rewrite Hf. Qed.

Lemma control_hist_ok events : ∀ d, forallb readable_event events = true → Forall (λ p, body_ok p.2) d →
  ∃ d', control_hist events d = Some d' ∧ Forall (λ p, body_ok p.2) d'.
Proof.
  induction events as [|ev events IH]; intros d Hev Hd; [by exists d|]. apply andb_true_iff in Hev as [He Hev]. cbn [control_hist].
  case_match; [|by apply IH]. destruct (readable_hex ev He "hObject" eq_refl) as [h ->]. cbn [mbind option_bind].
  apply IH; [done|]. by apply add_hist_bodies.
Qed.

Lemma histories_ok events a : forallb readable_event events = true → Forall (λ p, body_ok p.2) (allocs a) →
  ∃ d, histories events a = Some d ∧ Forall (λ p, body_ok p.2) d.
Proof.
  intros Hev Hb. unfold histories.
  edestruct (control_hist_ok events) as (d & -> & Hd); [done| |].
  { apply foldl_bodies; [intros; case_match; [done|by apply add_hist_bodies]|].
    apply foldl_bodies; [intros; case_match; [done|by apply add_hist_bodies]|]. by apply map_infos_bodies. }
  eexists. split; [done|]. by apply map_infos_bodies.
Qed.

Lemma re_resolve_method_ok a ts m : Forall (λ p, body_ok p.2) (allocs a) → decoded_ok m → ∃ m', re_resolve_method a ts m = Some m'.
Proof.
  intros Hb. destruct m as [role cls sc va r|m]; [|by eexists]. intros (z & Hz & ->). cbn [re_resolve_method].
  rewrite hex_roundtrip by done. cbn [mbind option_bind]. destruct (resolve_ok a z ts Hb) as [r' ->]. by eexists.
Qed.

Lemma post_passes_ok events a : forallb readable_event events = true → atlas_ok a → ∃ a', post_passes events a = Some a'.
Proof.
  intros Hev [Hb Hp Hy]. unfold post_passes. set (a1 := with_gpu _ a).
  destruct (mapM_all (backfill_alloc a1) (gpu_ranges a1)) as [rs ->].
  { apply Forall_true. intros r. by apply backfill_alloc_ok. }
  cbn [mbind option_bind]. destruct (histories_ok events (with_gpu (λ _, rs) a1) Hev) as (als & -> & Hals); [done|].
  cbn [mbind option_bind]. set (a2 := with_allocs _ _).
  destruct (mapM_all (re_resolve_pb a2) (pb_events a2)) as [pes ->].
  { eapply Forall_impl; [exact Hp|]. intros e (va & Hva & He). unfold re_resolve_pb. rewrite He, hex_roundtrip by done.
    cbn [mbind option_bind]. destruct (resolve_ok a2 va (pv_ts e) Hals) as [r ->]. by eexists. }
  cbn [mbind option_bind]. destruct (mapM_all (re_resolve_bytes a2) (pb_bytes_events a2)) as [bes ->]; [|by eexists].
  eapply Forall_impl; [exact Hy|]. intros e He. simpl in He. unfold re_resolve_bytes.
  destruct (mapM_all (re_resolve_method a2 (by_ts e)) (by_methods e)) as [ms ->]; [|by eexists].
  eapply Forall_impl; [exact He|]. intros m Hm. by apply re_resolve_method_ok.
Qed.

Lemma build_atlas_total events : forallb readable_event events = true → ∃ a, build_atlas events = Some a.
Proof.
  intros Hev. destruct (ingest_ok events atlas0 Hev) as (a1 & H1 & Hok); [by repeat constructor|].
  destruct (post_passes_ok events a1 Hev Hok) as [a Ha]. exists a. unfold build_atlas. by rewrite H1.
Qed.

(** * Submissions *)

(** What is recorded of a submission when it is read. *)
Definition submitted (ev : tev) (pe : submission) : Prop :=
  ∃ va, hex_field (te_data ev) "pb_va" = Some va ∧ pv_ts pe = te_ts ev ∧ pv_pb_va pe = codes "0x" ++ py_hex 0 va.

Definition is_pb (ev : tev) : Prop := kind_is (te_kind ev) "pb" = true.

#[global] Instance is_pb_dec ev : Decision (is_pb ev).
Proof. unfold is_pb. apply _. Defined.

Lemma atlas_event_pb ev a a' : atlas_event ev a = Some a' →
  if decide (is_pb ev) then ∃ pe, pb_events a' = pb_events a ++ [pe] ∧ submitted ev pe else pb_events a' = pb_events a.
Proof.
  intros H. case_decide as Hpb; unfold is_pb in Hpb.
  - apply bool_decide_eq_true in Hpb. unfold atlas_event in H. rewrite Hpb in H. change (on_pb ev a = Some a') in H.
    unfold on_pb in H. simplify_option_eq. eexists. split; [done|]. by eexists.
  - apply not_true_is_false in Hpb. on_event H; try done; congruence.
Qed.

Lemma ingest_pb events : ∀ a a', ingest events a = Some a' →
  ∃ pes, pb_events a' = pb_events a ++ pes ∧ Forall2 submitted (filter is_pb events) pes.
Proof.
  induction events as [|ev events IH]; intros a a' H; simpl in H.
  { simplify_eq. exists []. by rewrite app_nil_r. }
  destruct (atlas_event ev a) as [a1|] eqn:Ha; [|done]. simpl in H. apply atlas_event_pb in Ha.
  destruct (IH _ _ H) as (pes & -> & Hpes). rewrite filter_cons. case_decide.
  - destruct Ha as (pe & -> & Hpe). exists (pe :: pes). rewrite <-app_assoc. split; [done|by constructor].
  - rewrite Ha. by exists pes.
Qed.

Lemma build_atlas_parts events a : build_atlas events = Some a →
  ∃ a1 af, ingest events atlas0 = Some a1 ∧ (∀ t, grown t (gpu_ranges a1) (gpu_ranges a)) ∧
    gpu_ranges af = gpu_ranges a ∧ allocs af = allocs a ∧ mapM (re_resolve_pb af) (pb_events a1) = Some (pb_events a).
Proof.
  unfold build_atlas. destruct (ingest events atlas0) as [a1|] eqn:Hi; [|done]. cbn [mbind option_bind]. unfold post_passes.
  destruct (mapM (backfill_alloc _) _) as [rs|] eqn:Hrs; [|done]. cbn [mbind option_bind].
  destruct (histories _ _) as [als|]; [|done]. cbn [mbind option_bind]. set (af := with_allocs _ _).
  destruct (mapM (re_resolve_pb af) _) as [pes|] eqn:Hpes; [|done]. cbn [mbind option_bind].
  destruct (mapM (re_resolve_bytes af) _) as [bes|]; [|done]. intros [= <-]. exists a1, af. split_and!; try done.
  intros t. by eapply passes_grown.
Qed.

(** In a timeline in the order of time, what is read by [t] is a prefix. *)
Lemma sorted_prefix (events : list tev) t : StronglySorted (λ e1 e2, te_ts e1 ≤ te_ts e2) events →
  ∃ later, events = filter (λ e, te_ts e ≤ t) events ++ later ∧ Forall (λ e, t < te_ts e) later.
Proof.
  induction 1 as [|e events Hs (later & IH & Hl) Hf]; [by exists []|]. rewrite filter_cons. case_decide as Ht.
  - exists later. split; [by rewrite <-app_comm_cons, <-IH|done].
  - assert (Forall (λ e', t < te_ts e') events) as Hall by (eapply Forall_impl; [exact Hf|]; intros e' He'; simpl in *; lia).
    exists (e :: events). split; [|constructor; [lia|done]]. replace (filter (λ e', te_ts e' ≤ t) events) with (@nil tev); [done|].
    symmetry. clear -Hall. induction Hall as [|e' l He' Hl IH]; [done|]. rewrite filter_cons_False by lia. done.
Qed.

(** What the atlas says of an address, against a range of the time it was submitted. *)
Definition answers (a : Atlas) (va : Z) (r : option gpu_range) (v : option resolved) : Prop :=
  match r, v with
  | None, None => True
  | Some r, Some v =>
      rv_gpu_va v = va ∧ gr_base r ≤ va < gr_end r ∧ rv_base v = gr_base r ∧ rv_length v = gr_length r ∧ rv_offset v = va - gr_base r ∧
      rv_class v = (λ al, rm_class_name (ai_class al)) <$> dict_get (rv_hMemory v) (allocs a)
  | _, _ => False
  end.

Lemma resolve_answers af a va ts l v : allocs af = allocs a → option_Forall2 same_mapping (range_at l va ts) (range_at (gpu_ranges af) va ts) →
  _resolve_gpu_va af va ts = Some v → answers a va (range_at l va ts) v.
Proof.
  intros Hal Hs Hr. unfold _resolve_gpu_va in Hr. destruct (range_at (gpu_ranges af) va ts) as [r'|]; cycle 1.
  { inversion Hs. by simplify_eq. }
  inversion Hs as [r r'' Hm Hr1 Hr2|]; subst. destruct (body_size _) as [size|]; [|done]. simplify_eq/=.
  assert (contains r va = true) as Hc.
  { symmetry in Hr1. unfold range_at in Hr1. destruct (list_find _ l) as [[i x]|] eqn:Hf; [|done]. simplify_eq/=.
    apply list_find_Some in Hf as (_ & Hf & _). by apply andb_true_iff in Hf as [? _]. }
  unfold contains in Hc. apply andb_true_iff in Hc as [Hc1%Z.leb_le Hc2%Z.ltb_lt].
  destruct Hm as (Hb & He & Hl & _). rewrite Hal. split_and!; try done; try congruence; lia.
Qed.

Lemma Forall2_compose {A B C} (P : A → B → Prop) (Q : B → C → Prop) l1 l2 l3 :
  Forall2 P l1 l2 → Forall2 Q l2 l3 → Forall2 (λ x z, ∃ y, P x y ∧ Q y z) l1 l3.
Proof.
  intros H1. revert l3. induction H1 as [|x y l1 l2 Hx H1 IH]; intros l3 H2; inversion_clear H2; constructor; [by eexists|by apply IH].
Qed.


Definition example_timeline : list tev :=
  let ev := λ ts k d, TEv ts Ftrace (Some (JInt 7)) None (codes k) d None in
  [ev 10 "alloc" [fld "handle" (hx 8 0x5c000019); fld "class" (hx 4 0x3e); fld "body" (JDict [fld "size" (hx 0 0x200000)])];
   ev 20 "sysmem_track_add" [fld "base" (hx 0 0x7f0000000000); fld "end" (hx 0 0x7f0000200000); fld "length" (JInt 0x200000);
     fld "kva" (JStr (codes "00000000deadbeef"))];
   ev 30 "pb" [fld "pb_va" (hx 0 0x7f0000001000); fld "pb_len" (JInt 64); fld "seq" (JInt 1)];
   ev 40 "sysmem_track_remove" [fld "kva" (JStr (codes "00000000deadbeef"))];
   ev 50 "pb" [fld "pb_va" (hx 0 0x7f0000001000); fld "pb_len" (JInt 64); fld "seq" (JInt 2)]].


(** The owner of the first submission is named, the second is answered with nothing. *)
Lemma example_answers : (λ a, (λ pe, (λ v, (rv_offset v, rv_hMemory v)) <$> pv_resolved pe) <$> pb_events a) <$> build_atlas example_timeline =
  Some [Some (0x1000, 0x5c000019); None].
Proof. vm_compute. reflexivity. Qed.

(** ** Where the code differs from what it says *)

(** A mapping of BAR1 is found by its physical address and not by the address the process has for it. *)
Lemma bar1_found_by_phys_only :
  let ev := λ ts k d, TEv ts Ftrace None None (codes k) d None in
  let events :=
    [ev 10 "map_bar1" [fld "handle" (hx 8 0x5c000020); fld "length" (JInt 0x10000); fld "fd" (JInt 9)];
     ev 11 "mmap" [fld "addr" (hx 0 0x7f1000000000); fld "length" (JInt 0x10000); fld "fd" (JInt 9)];
     ev 12 "bar1_track_add" [fld "phys" (hx 0 0xb0000000); fld "size" (JInt 0x10000); fld "kva" (JStr (codes "1"))];
     ev 20 "pb" [fld "pb_va" (hx 0 0x7f1000000000)]; ev 21 "pb" [fld "pb_va" (hx 0 0xb0000000)]] in
  (λ a, (gr_user_va <$> gpu_ranges a, (λ pe, rv_hMemory <$> pv_resolved pe) <$> pb_events a)) <$> build_atlas events =
  Some ([(0x7f1000000000, 0x7f1000010000)], [None; Some 0x5c000020]).
Proof. vm_compute. reflexivity. Qed.

(** A handle that is allocated again names the earlier submission after the later allocation. *)
Lemma reused_handle_renames :
  let ev := λ ts k d, TEv ts Ftrace None None (codes k) d None in
  let events :=
    [ev 10 "alloc" [fld "handle" (hx 8 0x5c000001); fld "class" (hx 4 0x3e)];
     ev 11 "map_uvm" [fld "handle" (hx 8 0x5c000001); fld "base" (hx 0 0x10000000); fld "length" (JInt 0x1000)];
     ev 12 "pb" [fld "pb_va" (hx 0 0x10000000)]; ev 13 "free" [fld "handle" (hx 8 0x5c000001)];
     ev 14 "alloc" [fld "handle" (hx 8 0x5c000001); fld "class" (hx 4 0x80)]] in
  (λ a, (λ pe, rv_class <$> pv_resolved pe) <$> pb_events a) <$> build_atlas events = Some [Some (Some (codes "NV01_DEVICE_0"))].
Proof. vm_compute. reflexivity. Qed.
