(* ===== verification/AtlasMirror.v ===== *)
(** * From the driver's tracker to the atlas

    The driver's table of tracked system memory (Trackers) is printed, change by change, into
    the trace; the tools read the trace (FtraceParse), put its events on the timeline
    (Timeline) and keep ranges in the atlas (Atlas). The theorem goes the whole way: the
    tracked ranges the atlas has open are those in the driver's table. *)

From stdpp Require Import base numbers list gmap strings sorting.
From S2P Require Import Prelude Kernel Trackers TraceText FtraceParse TraceBodies Timeline Atlas AtlasHistory.
#[local] Open Scope Z_scope.

(** ** What the driver prints *)

Section driver.
(** [ptr_text]: how the kernel prints a pointer with [%p]. *)
Context (ptr_text : Z → text) (page_struct : Z → Z) (mask : Z).

Definition sys_field (f : string * fval) : mc_field :=
  (codes f.1,
   match f.2 with
   | FDec z => MvDec z
   | FHex z => if String.eqb f.1 "kva" then MvStr (ptr_text z) else MvHex 0 z
   | FStr s => MvStr (codes s)
   end).

Definition sys_record (e : keff) : option mc_record :=
  match e with
  | KTrace dbell ev fs =>
      if String.eqb ev "sysmem_track" then Some (McRecord (codes "dbell") (codes ev) (sys_field <$> fs)) else None
  | _ => None
  end.

(** A call of the tracker, with the answers of the kernel's allocators. *)
Inductive sys_op :=
| SysAdd (kmalloc_array : Z → Z) (nv_vm_map_pages : list Z → Z → Z) (vma : vm_area) (page_table : option (Z → Z))
    (page_index num_pages : Z)
| SysRemove (vma : Z).

Definition sys_call (op : sys_op) : prog keff (list sysmem_entry) unit :=
  match op with
  | SysAdd km vm vma pt idx n => nv_dbell_sysmem_track_add mask km vm page_struct vma pt idx n;; mret tt
  | SysRemove vma => nv_dbell_sysmem_track_remove mask vma
  end.

(** The records of a sequence of calls and the table after it. *)
Fixpoint sys_calls (ops : list sys_op) (tbl : list sysmem_entry) : list mc_record * list sysmem_entry :=
  match ops with
  | [] => ([], tbl)
  | op :: ops =>
      let '(rs, tbl') := sys_calls ops (run_st (sys_call op) tbl) in
      (omap sys_record (run_eff (sys_call op) tbl) ++ rs, tbl')
  end.

(** The addresses and the kernel address of what is in the table. *)
Definition sys_entry (e : sysmem_entry) : option (Z * Z * Z) :=
  if y_vma e =? NULL then None else Some (y_user_va_start e, y_user_va_end e, y_kernel_va e).

Definition sys_live (tbl : list sysmem_entry) : list (Z * Z * Z) := omap sys_entry tbl.

(** VMAs are not empty, and mappings that exist together print as different pointers. *)
Definition sane (tbl : list sysmem_entry) : Prop :=
  NoDup ((λ x, ptr_text x.2) <$> sys_live tbl) ∧ Forall (λ x, 0 < x.1.1 < x.1.2) (sys_live tbl).

Fixpoint always_sane (ops : list sys_op) (tbl : list sysmem_entry) : Prop :=
  match ops with
  | [] => True
  | op :: ops => let tbl' := run_st (sys_call op) tbl in sane tbl' ∧ always_sane ops tbl'
  end.

Definition table_ok (tbl : list sysmem_entry) : Prop :=
  sysmem_wf tbl ∧ Forall (λ e, y_vma e ≠ NULL → y_kernel_va e ≠ NULL) tbl.

(** What a record says. *)
Inductive change_of := Added (start end_ : Z) (kva : text) | Removed (kva : text).

Definition add_fields_of (slot start end_ n : Z) (kva : text) : list mc_field :=
  [(codes "state", MvStr (codes "add")); (codes "slot", MvDec slot); (codes "user_va_start", MvHex 0 start);
   (codes "user_va_end", MvHex 0 end_); (codes "num_pages", MvDec n); (codes "kva", MvStr kva)].

Definition remove_fields_of (kva : text) (n : Z) : list mc_field :=
  [(codes "state", MvStr (codes "remove")); (codes "kva", MvStr kva); (codes "num_pages", MvDec n)].

Definition says (r : mc_record) (c : option change_of) : Prop :=
  mr_cat r = codes "dbell" ∧ mr_event r = codes "sysmem_track" ∧
  match c with
  | Some (Added s e k) => ∃ slot n, mr_fields r = add_fields_of slot s e n k
  | Some (Removed k) => ∃ n, mr_fields r = remove_fields_of k n
  | None => ∃ st fs, mr_fields r = (codes "state", MvStr st) :: fs ∧ st ≠ codes "add" ∧ st ≠ codes "remove"
  end.

(** The table's entries follow the changes. *)
Definition follows (live : list (Z * Z * Z)) (cs : list (option change_of)) (live' : list (Z * Z * Z)) : Prop :=
  match cs with
  | [Some (Added s e k)] => ∃ kva, k = ptr_text kva ∧ live' ≡ₚ (s, e, kva) :: live
  | [Some (Removed k)] => ∃ s e kva, k = ptr_text kva ∧ live ≡ₚ (s, e, kva) :: live'
  | _ => Forall (λ c, c = None) cs ∧ live' = live
  end.

Lemma sys_live_middle l1 e l2 : sys_live (l1 ++ e :: l2) = sys_live l1 ++ option_list (sys_entry e) ++ sys_live l2.
Proof. unfold sys_live. rewrite omap_app. f_equal. cbn [omap list_omap]. by destruct (sys_entry e). Qed.

Lemma sys_live_insert tbl i e e' : tbl !! i = Some e → y_vma e = NULL → y_vma e' ≠ NULL →
  sys_live (<[i := e']> tbl) ≡ₚ (y_user_va_start e', y_user_va_end e', y_kernel_va e') :: sys_live tbl.
Proof.
  intros Hi He He'. rewrite insert_take_drop by by eapply lookup_lt_Some. rewrite sys_live_middle.
  rewrite <-(take_drop_middle tbl i e) at 3 by done. rewrite sys_live_middle. unfold sys_entry.
  rewrite He, (proj2 (Z.eqb_neq _ _) He'). cbn. by rewrite Permutation_middle.
Qed.

Lemma sys_live_delete tbl i e : tbl !! i = Some e → y_vma e ≠ NULL →
  sys_live tbl ≡ₚ (y_user_va_start e, y_user_va_end e, y_kernel_va e) :: sys_live (<[i := sysmem_free]> tbl).
Proof.
  intros Hi He. rewrite insert_take_drop by by eapply lookup_lt_Some. rewrite sys_live_middle.
  rewrite <-(take_drop_middle tbl i e) at 1 by done. rewrite sys_live_middle. unfold sys_entry.
  rewrite (proj2 (Z.eqb_neq _ _) He). cbn. by rewrite Permutation_middle.
Qed.

Lemma table_ok_insert tbl i e : table_ok tbl → (y_vma e = NULL → e = sysmem_free) → (y_vma e ≠ NULL → y_kernel_va e ≠ NULL) →
  table_ok (<[i := e]> tbl).
Proof. intros [Hwf Hk] H1 H2. split; by apply Forall_insert. Qed.

Lemma mc_trace_on {S} c ev fs : mc_enabled mask c → MC_TRACE (S:=S) mask c ev fs = tell [KTrace c ev fs].
Proof. intros H. unfold MC_TRACE. by rewrite (proj2 (Z.eqb_neq _ _) H). Qed.

(** A call changes the table as its records say. *)
Definition call_ok (m : prog keff (list sysmem_entry) unit) (tbl : list sysmem_entry) : Prop :=
  ∃ cs, Forall2 says (omap sys_record (run_eff m tbl)) cs ∧ follows (sys_live tbl) cs (sys_live (run_st m tbl)) ∧ table_ok (run_st m tbl).

Lemma call_quiet m tbl : table_ok tbl → run_st m tbl = tbl → omap sys_record (run_eff m tbl) = [] → call_ok m tbl.
Proof. intros Hok Hst Heff. exists []. rewrite Hst, Heff. split_and!; [apply Forall2_nil_2|by split; [apply Forall_nil_2|]|done]. Qed.

Lemma call_state m tbl st fs : table_ok tbl → run_st m tbl = tbl → st ≠ codes "add" → st ≠ codes "remove" →
  omap sys_record (run_eff m tbl) = [McRecord (codes "dbell") (codes "sysmem_track") ((codes "state", MvStr st) :: fs)] → call_ok m tbl.
Proof.
  intros Hok Hst H1 H2 Heff. exists [None]. rewrite Hst, Heff. split_and!; [|by split; [apply Forall_singleton|]|done].
  apply Forall2_cons_2; [|apply Forall2_nil_2]. split_and!; [done..|]. by exists st, fs.
Qed.

Lemma track_add_change km vm vma pt idx n tbl : mc_enabled mask dbell → table_ok tbl → call_ok (sys_call (SysAdd km vm vma pt idx n)) tbl.
Proof.
  intros Hm Hok. cbn [sys_call]. unfold nv_dbell_sysmem_track_add. rewrite !mc_trace_on by done.
  destruct pt as [pt|]; [|by apply call_quiet]. destruct (_ || _) eqn:Hnull; [by apply call_quiet|].
  apply orb_false_iff in Hnull as [Hvma%Z.eqb_neq _]. destruct (_ <? _); [by apply call_quiet|].
  destruct (km n =? NULL) eqn:Hp; [by apply call_quiet|]. set (kva := vm _ _). unfold kfree. rewrite Hp.
  destruct (kva =? NULL) eqn:Hkva; [eapply call_state; [done|done| | |reflexivity]; intros H; discriminate H|].
  apply Z.eqb_neq in Hkva. destruct (sysmem_insert vma kva n tbl) as [[i tbl']|] eqn:Hins.
  - exists [Some (Added (vm_start vma) (vm_end vma) (ptr_text kva))].
    match goal with |- context [run_st ?m tbl] => assert (run_st m tbl = tbl') as -> end.
    { unfold run_st, mbind, prog_bind. cbn. by rewrite Hins, mc_trace_on. }
    destruct (sysmem_insert_Some _ _ _ _ _ _ Hins) as (e & Hi & He & _ & ->). split_and!.
    + unfold run_eff, mbind, prog_bind. cbn. rewrite Hins, mc_trace_on by done. cbn. apply Forall2_cons_2; [|apply Forall2_nil_2]. split_and!; [done..|]. by eexists _, _.
    + exists kva. split; [done|]. by apply (sys_live_insert tbl i e).
    + by apply table_ok_insert.
  - eapply call_state; [done| | | |]; [unfold run_st, mbind, prog_bind; cbn; rewrite Hins; cbn; by rewrite ?mc_trace_on|..|unfold run_eff, mbind, prog_bind; cbn; rewrite Hins; cbn; rewrite ?mc_trace_on by done; reflexivity];
      intros H; discriminate H.
Qed.

Lemma track_remove_change vma tbl : mc_enabled mask dbell → table_ok tbl → call_ok (sys_call (SysRemove vma)) tbl.
Proof.
  intros Hm Hok. cbn [sys_call]. unfold nv_dbell_sysmem_track_remove, call_ok, run_st, run_eff, mbind, prog_bind. cbn.
  unfold sysmem_take. destruct (list_find _ tbl) as [[i e]|] eqn:Hf; cbn; [|by apply (call_quiet skip)].
  apply list_find_Some in Hf as (Hi & _). destruct Hok as [Hwf Hk]. pose proof (Forall_lookup_1 _ _ _ _ Hwf Hi) as Hfree.
  pose proof (Forall_lookup_1 _ _ _ _ Hk Hi) as Hlive. simpl in Hfree, Hlive. destruct (Z.eqb_spec (y_kernel_va e) NULL) as [Hn|Hn]; cbn.
  - assert (e = sysmem_free) as -> by (destruct (decide (y_vma e = NULL)); naive_solver). rewrite list_insert_id by done.
    by apply (call_quiet skip).
  - rewrite mc_trace_on by done. cbn. assert (y_vma e ≠ NULL) as Hv by (intros Hv; rewrite (Hfree Hv) in Hn; done).
    exists [Some (Removed (ptr_text (y_kernel_va e)))]. split_and!.
    + apply Forall2_cons_2; [|apply Forall2_nil_2]. split_and!; [done..|]. by eexists.
    + eexists _, _, _. split; [done|]. by apply sys_live_delete.
    + apply table_ok_insert; [by split|done|done].
Qed.

Lemma sys_call_change op tbl : mc_enabled mask dbell → table_ok tbl → call_ok (sys_call op) tbl.
Proof. destruct op; [apply track_add_change|apply track_remove_change]. Qed.

(** ** The changes of a run *)

Definition sane_live (l : list (Z * Z * Z)) : Prop := NoDup ((λ x, ptr_text x.2) <$> l) ∧ Forall (λ x, 0 < x.1.1 < x.1.2) l.

Inductive runs : list (Z * Z * Z) → list change_of → list (Z * Z * Z) → Prop :=
| runs_nil l : runs l [] l
| runs_add l s e kva l1 cs l' : l1 ≡ₚ (s, e, kva) :: l → sane_live l1 → runs l1 cs l' → runs l (Added s e (ptr_text kva) :: cs) l'
| runs_remove l s e kva l1 cs l' : l ≡ₚ (s, e, kva) :: l1 → sane_live l → runs l1 cs l' → runs l (Removed (ptr_text kva) :: cs) l'.

Lemma runs_cons l c cs l' : runs l (c :: cs) l' → ∃ s e kva l1, runs l1 cs l' ∧
  ((c = Added s e (ptr_text kva) ∧ l1 ≡ₚ (s, e, kva) :: l ∧ sane_live l1) ∨ (c = Removed (ptr_text kva) ∧ l ≡ₚ (s, e, kva) :: l1 ∧ sane_live l)).
Proof. intros H. inversion H; subst; eexists _, _, _, _; (split; [done|]); [left|right]; done. Qed.

Lemma follows_runs l cs l1 cs' l' : follows l cs l1 → sane_live l → sane_live l1 → runs l1 cs' l' → runs l (omap id cs ++ cs') l'.
Proof.
  intros Hf Hl Hl1 Hr. destruct cs as [|[[s e k|k]|] [|c cs]]; cbn [follows] in Hf.
  - destruct Hf as [_ ->]. done.
  - destruct Hf as (kva & -> & Hp). by eapply runs_add.
  - destruct Hf as [Hc _]. by inversion Hc.
  - destruct Hf as (s & e & kva & -> & Hp). by eapply runs_remove.
  - destruct Hf as [Hc _]. by inversion Hc.
  - destruct Hf as [_ ->]. done.
  - destruct Hf as [Hc ->]. assert (omap id (None :: c :: cs) = []) as ->; [|done].
    clear -Hc. induction Hc as [|x l -> _ IH]; [done|]. done.
Qed.

Lemma sys_calls_runs ops : ∀ tbl, mc_enabled mask dbell → table_ok tbl → sane tbl → always_sane ops tbl →
  ∃ cs, Forall2 says (sys_calls ops tbl).1 cs ∧ runs (sys_live tbl) (omap id cs) (sys_live (sys_calls ops tbl).2).
Proof.
  induction ops as [|op ops IH]; intros tbl Hm Hok Hs Hops; [exists []; split; [apply Forall2_nil_2|apply runs_nil]|].
  destruct Hops as [Hs1 Hops]. destruct (sys_call_change op tbl Hm Hok) as (cs & Hcs & Hf & Hok1).
  destruct (IH _ Hm Hok1 Hs1 Hops) as (cs' & Hcs' & Hr). cbn [sys_calls]. destruct (sys_calls ops _) as [rs tbl'].
  exists (cs ++ cs'). cbn [fst snd] in *. split; [by apply Forall2_app|]. rewrite omap_app. by eapply follows_runs.
Qed.
End driver.

(** ** The ranges the atlas has open *)

Definition open_range (r : gpu_range) : option (Z * Z * json) :=
  if bool_decide (gr_source r = Some SysmemTrack) && negb (is_unmapped r) then Some (gr_base r, gr_end r, gr_kva r) else None.

Definition open_ranges (l : list gpu_range) : list (Z * Z * json) := omap open_range l.

Definition is_sys (t : tev) : Prop := te_kind t = codes "sysmem_track_add" ∨ te_kind t = codes "sysmem_track_remove".

#[global] Instance is_sys_dec t : Decision (is_sys t).
Proof. unfold is_sys. apply _. Defined.

(** An object of the timeline that says a change. *)
Definition tev_says (t : tev) (c : change_of) : Prop :=
  match c with
  | Added s e k => te_kind t = codes "sysmem_track_add" ∧ ∃ slot n,
      te_data t = [fld "slot" (JInt slot); fld "base" (hx 0 s); fld "end" (hx 0 e); fld "length" (JInt (e - s));
                   fld "pages" (JInt n); fld "kva" (JStr k)]
  | Removed k => te_kind t = codes "sysmem_track_remove" ∧ ∃ n, te_data t = [fld "kva" (JStr k); fld "pages" (JInt n)]
  end.

Lemma opens_app l1 l2 : open_ranges (l1 ++ l2) = open_ranges l1 ++ open_ranges l2.
Proof. apply omap_app. Qed.

Lemma opens_cons r l : open_ranges (r :: l) = option_list (open_range r) ++ open_ranges l.
Proof. unfold open_ranges. cbn [omap list_omap]. by destruct (open_range r). Qed.

Lemma event_added t s e k a a' : tev_says t (Added s e k) → 0 < s < e → atlas_event t a = Some a' →
  open_ranges (gpu_ranges a') = open_ranges (gpu_ranges a) ++ [(s, e, JStr k)].
Proof.
  intros (Hk & slot & n & Hd) Hse H. unfold atlas_event in H. rewrite Hk in H. change (on_sysmem_add t a = Some a') in H.
  unfold on_sysmem_add in H. rewrite Hd in H.
  change (hex_field _ "base") with (_int_hex (hx 0 s)) in H. change (hex_field _ "end") with (_int_hex (hx 0 e)) in H.
  change (int_field _ "length") with (if truthy (JInt (e - s)) then Some (e - s) else Some 0) in H.
  unfold hx in H. rewrite !hex_roundtrip in H by lia. cbn [mbind option_bind] in H.
  assert (truthy (JInt (e - s)) = true) as Ht by (cbn; rewrite (proj2 (Z.eqb_neq _ _)) by lia; done). rewrite Ht in H. cbn [mbind option_bind] in H.
  rewrite !(proj2 (Z.eqb_neq _ _)), (proj2 (Z.leb_gt _ _)) in H by lia. cbn [orb] in H. simplify_eq/=. by rewrite opens_app.
Qed.

Lemma opens_mark src k u l : open_ranges (mark_first (λ r, bool_decide (gr_source r = Some src) && json_eqb (gr_kva r) k && negb (is_unmapped r))
    (unmap_range u) l) = open_ranges l ∧ (src = SysmemTrack → Forall (λ x, json_eqb x.2 k = false) (open_ranges l)) ∨
  src = SysmemTrack ∧ ∃ l1 x l2, open_ranges l = l1 ++ x :: l2 ∧ json_eqb x.2 k = true ∧
    open_ranges (mark_first (λ r, bool_decide (gr_source r = Some src) && json_eqb (gr_kva r) k && negb (is_unmapped r)) (unmap_range u) l) = l1 ++ l2.
Proof.
  induction l as [|r l IH]; [by left|]. cbn [mark_first]. destruct (bool_decide (gr_source r = Some src) && _ && _) eqn:Hr.
  - rewrite !andb_true_iff, bool_decide_eq_true in Hr. destruct Hr as [[Hs Hk] Hu].
    assert (open_range (unmap_range u r) = None) as Hun by (unfold open_range; cbn; by rewrite andb_false_r).
    rewrite !opens_cons, Hun. destruct src.
    + right. split; [done|]. exists [], (gr_base r, gr_end r, gr_kva r), (open_ranges l). split_and!; [|done|done].
      unfold open_range. by rewrite Hs, Hu.
    + left. unfold open_range. rewrite Hs. cbn. split; [done|]. intros [=].
  - rewrite !opens_cons. destruct IH as [[-> IH]|(-> & l1 & x & l2 & Hl & Hx & Hm)].
    + left. split; [done|]. intros ->. destruct (open_range r) as [x|] eqn:Ho; [|by apply IH]. cbn. constructor; [|by apply IH].
      unfold open_range in Ho. destruct (bool_decide _); [|done]. destruct (is_unmapped r); [done|]. simplify_eq/=.
      by rewrite andb_true_r in Hr.
    + right. split; [done|]. rewrite Hl, Hm. destruct (open_range r) as [y|]; [by exists (y :: l1), x, l2|by exists l1, x, l2].
Qed.

Lemma event_other t a a' : ¬ is_sys t → atlas_event t a = Some a' → open_ranges (gpu_ranges a') = open_ranges (gpu_ranges a).
Proof.
  intros Hn H. on_event H; try done; rewrite ?opens_app; cbn; rewrite ?app_nil_r; try done.
  all: try (match goal with Hk : kind_is (te_kind _) _ = true |- _ => apply bool_decide_eq_true in Hk end; exfalso; apply Hn; unfold is_sys; tauto).
  all: edestruct (opens_mark Bar1Track) as [[-> _]|[? _]]; done.
Qed.

Section simulation.
Context (ptr_text : Z → text).

(** An entry of the driver's table as the atlas has it. *)
Definition shown (x : Z * Z * Z) : Z * Z * json := (x.1.1, x.1.2, JStr (ptr_text x.2)).

Definition mirrors (ranges : list gpu_range) (live : list (Z * Z * Z)) : Prop := open_ranges ranges ≡ₚ shown <$> live.

Lemma event_removed t k a a' s e kva live live' : tev_says t (Removed k) → k = ptr_text kva → atlas_event t a = Some a' →
  mirrors (gpu_ranges a) live → live ≡ₚ (s, e, kva) :: live' → sane_live ptr_text live → mirrors (gpu_ranges a') live'.
Proof.
  intros (Hk & n & Hd) -> H Hmir Hp [Hnd _]. unfold atlas_event in H. rewrite Hk in H. change (on_track_remove SysmemTrack t a = Some a') in H.
  unfold on_track_remove in H. rewrite Hd in H. change (get_or_none _ "kva") with (JStr (ptr_text kva)) in H. simplify_eq/=.
  unfold mirrors in *. rewrite Hp in Hmir, Hnd. cbn [fmap list_fmap] in Hmir, Hnd. apply NoDup_cons in Hnd as [Hnin _].
  destruct (opens_mark SysmemTrack (JStr (ptr_text kva)) (te_ts t) (gpu_ranges a)) as [[_ Hno]|(_ & l1 & x & l2 & Hl & Hx & ->)].
  - specialize (Hno eq_refl). rewrite Hmir in Hno. inversion_clear Hno as [|?? Hbad _]. cbn in Hbad. by rewrite bool_decide_eq_true_2 in Hbad.
  - rewrite Hl in Hmir. assert (x ∈ shown (s, e, kva) :: (shown <$> live')) as Hin by (rewrite <-Hmir; set_solver).
    apply elem_of_cons in Hin as [->|Hin].
    + apply (Permutation_cons_inv (a:=shown (s, e, kva))). by rewrite <-Hmir, Permutation_middle.
    + apply list_elem_of_fmap in Hin as (y & -> & Hy). cbn in Hx. apply bool_decide_eq_true in Hx. destruct Hnin.
      apply list_elem_of_fmap. by exists y.
Qed.

Lemma ingest_mirrors events : ∀ a a' cs live live', ingest events a = Some a' → Forall2 tev_says (filter is_sys events) cs →
  runs ptr_text live cs live' → mirrors (gpu_ranges a) live → mirrors (gpu_ranges a') live'.
Proof.
  induction events as [|t events IH]; intros a a' cs live live' H Hf Hr Hm; cbn [ingest] in H.
  { simplify_eq. inversion Hf; subst. by inversion Hr; subst. }
  destruct (atlas_event t a) as [a1|] eqn:Ha; [|done]. cbn [mbind option_bind] in H. rewrite filter_cons in Hf. case_decide as Hs.
  - apply Forall2_cons_inv_l in Hf as (c & cs' & Hc & Hf' & ->).
    apply runs_cons in Hr as (s & e & kva & l1 & Hr' & [(-> & Hp & Hsane)|(-> & Hp & Hsane)]).
    + eapply IH; [exact H|exact Hf'|exact Hr'|]. unfold mirrors in *.
      assert (0 < s < e) as Hse by (destruct Hsane as [_ Hall]; rewrite Hp in Hall; by inversion_clear Hall).
      rewrite (event_added _ _ _ _ _ _ Hc Hse Ha), Hm, Hp, Permutation_app_comm. done.
    + eapply IH; [exact H|exact Hf'|exact Hr'|]. by eapply event_removed.
  - eapply IH; [exact H|exact Hf|exact Hr|]. unfold mirrors. by rewrite (event_other _ _ _ Hs Ha).
Qed.

Lemma grown_opens l l' : Forall2 (λ r r', same_mapping r r' ∧ gr_ts_unmapped r' = gr_ts_unmapped r) l l' → open_ranges l' = open_ranges l.
Proof.
  induction 1 as [|r r' l l' [(Hb & He & _ & _ & Hs & Hk & _ & _) Hu] _ IH]; [done|]. rewrite !opens_cons, IH. f_equal. f_equal.
  unfold open_range, is_unmapped. by rewrite Hb, He, Hs, Hk, Hu.
Qed.

Lemma passes_opens events a a' : post_passes events a = Some a' → open_ranges (gpu_ranges a') = open_ranges (gpu_ranges a).
Proof.
  unfold post_passes. destruct (mapM (backfill_alloc _) _) as [rs|] eqn:Hrs; [|done]. cbn [mbind option_bind].
  destruct (histories _ _); [|done]. cbn [mbind option_bind]. destruct (mapM (re_resolve_pb _) _); [|done]. cbn [mbind option_bind].
  destruct (mapM (re_resolve_bytes _) _); [|done]. intros [= <-]. cbn [gpu_ranges with_bytes with_pb with_allocs with_gpu].
  apply mapM_Some in Hrs. cbn [gpu_ranges with_gpu] in Hrs. rewrite Forall2_fmap_l in Hrs. apply grown_opens.
  eapply Forall2_impl; [exact Hrs|]. intros r r' Hr. cbn in Hr.
  assert (∀ h c v r, same_mapping r (own_range h c v r) ∧ gr_ts_unmapped (own_range h c v r) = gr_ts_unmapped r) as Hown by done.
  assert (same_mapping r (backfill_cpu a r) ∧ gr_ts_unmapped (backfill_cpu a r) = gr_ts_unmapped r) as [H1 H2].
  { unfold backfill_cpu. repeat case_match; try done; apply Hown. }
  assert (same_mapping (backfill_cpu a r) r' ∧ gr_ts_unmapped r' = gr_ts_unmapped (backfill_cpu a r)) as [H3 H4].
  { unfold backfill_alloc in Hr. repeat (simplify_option_eq || case_match); simplify_eq; try done; apply Hown. }
  split; [by etrans|congruence].
Qed.
End simulation.

(** ** The parser *)

Definition sys_kind (e : event) : Prop := ev_kind e = codes "sysmem_track_add" ∨ ev_kind e = codes "sysmem_track_remove".

#[global] Instance sys_kind_dec e : Decision (sys_kind e).
Proof. unfold sys_kind. apply _. Defined.

Definition ev_says (e : event) (c : change_of) : Prop :=
  match c with
  | Added s e' k => ev_kind e = codes "sysmem_track_add" ∧ ∃ slot n, ev_info e = [OInt slot; OInt s; OInt e'; OInt n; OStr k]
  | Removed k => ev_kind e = codes "sysmem_track_remove" ∧ ∃ n, ev_info e = [OStr k; OInt n]
  end.

Definition sys_key : text * text := (codes "dbell", codes "sysmem_track").

(** Records of other keys make no event of the tracker. *)
Lemma made_other key e : key ≠ sys_key → made key e → ¬ sys_kind e.
Proof.
  assert (Forall (λ x, codes x.2.1 = codes "sysmem_track_add" ∨ codes x.2.1 = codes "sysmem_track_remove" → (codes x.1.1, codes x.1.2) = sys_key)
    tuple_table) as Ht.
  { unfold tuple_table, MC1_SIMPLE. cbn [app]. repeat (constructor; [cbn [fst snd]; intros [H|H]; first [discriminate H|reflexivity]|]). constructor. }
  rewrite Forall_forall in Ht. intros Hkey [(c & ev & kind & fs & Hin & -> & Hk & _)|[(Hk & _)|(Hk & _)]] Hs; unfold sys_kind in Hs; rewrite Hk in Hs.
  - by apply Hkey, (Ht _ Hin).
  - destruct Hs as [Hs|Hs]; discriminate Hs.
  - destruct Hs as [Hs|Hs]; discriminate Hs.
Qed.

Lemma filter_other key es : key ≠ sys_key → Forall (made key) es → filter sys_kind es = [].
Proof.
  intros Hk. induction 1 as [|e es He _ IH]; [done|]. rewrite filter_cons_False; [done|]. by eapply made_other.
Qed.

Lemma coerced_int d k z st : field_int d k = Some z → coerced d (k, _I) st = (inr (OInt z), st).
Proof. intros H. unfold coerced, int_obj, mbind, py_bind. cbn [fst snd]. by rewrite (get_int_some _ _ _ _ H). Qed.

Lemma coerced_text d k t st : d !! codes k = Some (PStr t) → coerced d (k, _S) st = (inr (OStr t), st).
Proof. intros H. unfold coerced, raw_obj, get_raw, mbind, py_bind. cbn [fst snd]. by rewrite H. Qed.

Lemma mapM_coerced d fs info st : Forall2 (λ f o, coerced d f st = (inr o, st)) fs info → mapM (coerced d) fs st = (inr info, st).
Proof.
  induction 1 as [|f o fs info Hf _ IH]; [done|]. cbn [mapM]. rewrite (bind_inr _ _ _ _ _ Hf), (bind_inr _ _ _ _ _ IH). done.
Qed.

Lemma emit_tuple_eq n p t d kind fs info st : Forall2 (λ f o, coerced d f st = (inr o, st)) fs info →
  emit_tuple n p t d kind fs st = append_event (Event n p (codes kind) info t) st.
Proof. intros H. unfold emit_tuple. by rewrite (bind_inr _ _ _ _ _ (mapM_coerced _ _ _ _ H)). Qed.

Ltac in_list := solve [repeat first [apply list_elem_of_here|apply list_elem_of_further]].

(** A record of the tracker makes the event of its change. *)
Lemma dispatch_sys n p t r c st : driver_record r → says r c →
  ∃ es, p_events (dispatch n p t (key_of r) (dict_of r) st).2 = p_events st ++ es ∧ Forall2 ev_says es (option_list c) ∧
    Forall (λ e, ev_ts e = t) es.
Proof.
  intros Hr (Hcat & Hev & Hc). assert (key_of r = sys_key) as -> by (unfold key_of; by rewrite Hcat, Hev).
  change (dispatch n p t sys_key (dict_of r) st) with (on_sysmem_track n p t (dict_of r) st). unfold on_sysmem_track.
  assert (∀ k w, (codes k, MvStr w) ∈ mr_fields r → dict_of r !! codes k = Some (PStr w)) as Htext.
  { intros k w Hin. unfold dict_of. by rewrite (fields_dict_lookup _ _ _ (pr_nodup _ Hr) Hin). }
  assert (∀ k z st', (codes k, MvDec z) ∈ mr_fields r → coerced (dict_of r) (k, _I) st' = (inr (OInt z), st')) as Hdec.
  { intros k z st' Hin. apply coerced_int. by eapply field_int_print. }
  assert (∀ k z st', (codes k, MvHex 0 z) ∈ mr_fields r → coerced (dict_of r) (k, _I) st' = (inr (OInt z), st')) as Hhex.
  { intros k z st' Hin. apply coerced_int. by eapply field_int_print. }
  destruct c as [[s e k|k]|]; [destruct Hc as (slot & np & Hf)|destruct Hc as (np & Hf)|destruct Hc as (w & fs & Hf & Ha & Hm)].
  - assert (state_is (dict_of r) "add" = true) as ->.
    { unfold state_is. rewrite (Htext "state" (codes "add")) by (rewrite Hf; unfold add_fields_of, remove_fields_of; in_list). by apply bool_decide_eq_true. }
    eexists [_]. split; [|split; [apply Forall2_cons_2; [|apply Forall2_nil_2]|apply Forall_singleton]].
    + rewrite (emit_tuple_eq _ _ _ _ _ _ [OInt slot; OInt s; OInt e; OInt np; OStr k]); [reflexivity|].
      rewrite Hf in Hdec, Hhex, Htext. unfold add_fields_of in *.
      do 4 (apply Forall2_cons_2; [first [apply Hdec; in_list|apply Hhex; in_list]|]).
      apply Forall2_cons_2; [|apply Forall2_nil_2]. apply coerced_text, Htext. in_list.
    + split; [done|]. by exists slot, np.
    + done.
  - assert (state_is (dict_of r) "add" = false) as ->.
    { unfold state_is. rewrite (Htext "state" (codes "remove")) by (rewrite Hf; unfold add_fields_of, remove_fields_of; in_list). by apply bool_decide_eq_false. }
    assert (state_is (dict_of r) "remove" = true) as ->.
    { unfold state_is. rewrite (Htext "state" (codes "remove")) by (rewrite Hf; unfold add_fields_of, remove_fields_of; in_list). by apply bool_decide_eq_true. }
    eexists [_]. split; [|split; [apply Forall2_cons_2; [|apply Forall2_nil_2]|apply Forall_singleton]].
    + rewrite (emit_tuple_eq _ _ _ _ _ _ [OStr k; OInt np]); [reflexivity|].
      apply Forall2_cons_2; [apply coerced_text, Htext; rewrite Hf; unfold remove_fields_of; in_list|].
      apply Forall2_cons_2; [|apply Forall2_nil_2]. apply Hdec. rewrite Hf. unfold remove_fields_of. in_list.
    + split; [done|]. by exists np.
    + done.
  - assert (∀ x, w ≠ codes x → state_is (dict_of r) x = false) as Hx.
    { intros x Hx. unfold state_is. rewrite (Htext "state" w) by (rewrite Hf; unfold add_fields_of, remove_fields_of; in_list). by apply bool_decide_eq_false. }
    rewrite !Hx by done. exists []. rewrite app_nil_r. split_and!; [done|apply Forall2_nil_2|apply Forall_nil_2].
Qed.

Definition sys_line (er : envelope * mc_record) : Prop := key_of er.2 = sys_key.

#[global] Instance sys_line_dec er : Decision (sys_line er).
Proof. unfold sys_line. apply _. Defined.

Section capture.
Context (unescape : text → option text) (ts_ns_of : text → Z) (py_str : list pyobj → text).

Lemma run_trace_sys tr : ∀ n st cs, wf_trace tr → Forall2 (λ er c, says er.2 c) (filter sys_line tr) cs →
  ∃ es, filter sys_kind (p_events (run_trace ts_ns_of n tr st)) = filter sys_kind (p_events st) ++ es ∧
    Forall2 ev_says es (omap id cs) ∧ (ev_ts <$> es) `sublist_of` ((λ er, en_ts ts_ns_of er.1) <$> filter sys_line tr).
Proof.
  induction tr as [|[e r] tr IH]; intros n st cs Htr Hcs.
  { apply Forall2_nil_inv_l in Hcs as ->. exists []. rewrite app_nil_r. split_and!; [done|apply Forall2_nil_2|constructor]. }
  apply Forall_cons in Htr as [[_ Hr] Htr]. cbn [run_trace snd] in *. rewrite filter_cons in Hcs |- *. case_decide as Hk; cycle 1.
  - destruct (dispatch_made n (en_pid e) (en_ts ts_ns_of e) (dict_of r) (key_of r) st) as (es0 & He0 & Hmade).
    destruct (IH (n + 1) (dispatch n (en_pid e) (en_ts ts_ns_of e) (key_of r) (dict_of r) st).2 cs Htr Hcs) as (es & -> & Hes & Hsub).
    exists es. rewrite He0, filter_app, (filter_other _ _ Hk Hmade), app_nil_r. done.
  - apply Forall2_cons_inv_l in Hcs as (c & cs' & Hc & Hcs' & ->).
    destruct (dispatch_sys n (en_pid e) (en_ts ts_ns_of e) r c st Hr Hc) as (es0 & He0 & Hes0 & Hts0).
    destruct (IH (n + 1) (dispatch n (en_pid e) (en_ts ts_ns_of e) (key_of r) (dict_of r) st).2 cs' Htr Hcs') as (es & -> & Hes & Hsub).
    assert (filter sys_kind es0 = es0) as Hall.
    { clear -Hes0. induction Hes0 as [|x y l l' Hx _ IH]; [done|]. rewrite filter_cons_True; [by rewrite IH|].
      unfold sys_kind. destruct y; destruct Hx as [-> _]; tauto. }
    exists (es0 ++ es). rewrite He0, filter_app, Hall, app_assoc. split_and!; [done| |].
    + destruct c as [c|]; cbn [omap list_omap id option_list] in *; [change (c :: omap id cs') with ([c] ++ omap id cs'); by apply Forall2_app|].
      apply Forall2_nil_inv_r in Hes0 as ->. done.
    + cbn [fmap list_fmap fst]. rewrite fmap_app. destruct c as [c|]; cbn [option_list] in Hes0.
      * apply Forall2_cons_inv_r in Hes0 as (x & l & _ & Hl & ->). apply Forall2_nil_inv_r in Hl as ->.
        inversion_clear Hts0 as [|?? Hx _]. cbn. rewrite Hx. by apply sublist_skip.
      * apply Forall2_nil_inv_r in Hes0 as ->. by apply sublist_cons.
Qed.

Lemma flush_other (l1 : list alloc_acc) (l2 : list uvm_acc) : filter sys_kind ((l1 ≫= flush_alloc) ++ (l2 ≫= flush_uvm)) = [].
Proof.
  assert (∀ A (f : A → list event) l, (∀ x, filter sys_kind (f x) = []) → filter sys_kind (l ≫= f) = []) as H.
  { intros A f l Hf. induction l as [|x l IH]; [done|]. cbn [mbind list_bind]. by rewrite filter_app, Hf, IH. }
  rewrite filter_app, !H; [done|..]; intros x; repeat (rewrite filter_cons_False; [|intros [Hk|Hk]; discriminate Hk]); done.
Qed.

(** The objects of the tracker's events say the same. *)
Lemma normalize_says e c t : normalize_event py_str Ftrace (ev_ts e) e = Some t → ev_says e c → tev_says t c ∧ te_ts t = ev_ts e.
Proof.
  unfold normalize_event. intros Hn Hc. destruct c as [s e' k|k]; destruct Hc as [Hk Hi].
  - destruct Hi as (slot & n & Hi). rewrite Hk, Hi in Hn. cbn in Hn. simplify_eq/=. split; [|done]. split; [done|]. by exists slot, n.
  - destruct Hi as (n & Hi). rewrite Hk, Hi in Hn. cbn in Hn. simplify_eq/=. split; [|done]. split; [done|]. by exists n.
Qed.

Lemma normalize_kind e t : normalize_event py_str Ftrace (ev_ts e) e = Some t → te_kind t = ev_kind e.
Proof. unfold normalize_event. destruct (_ftrace_info_to_dict _ _ _); [|done]. by intros [= <-]. Qed.

Lemma normalize_sys evs ftr cs : normalize_ftrace py_str evs = Some ftr → Forall2 ev_says (filter sys_kind evs) cs →
  Forall2 tev_says (filter is_sys ftr) cs ∧ te_ts <$> filter is_sys ftr = ev_ts <$> filter sys_kind evs.
Proof.
  intros H%mapM_Some. revert cs. induction H as [|e t evs ftr Ht _ IH]; intros cs Hcs.
  { apply Forall2_nil_inv_l in Hcs as ->. split; [apply Forall2_nil_2|done]. }
  pose proof (normalize_kind _ _ Ht) as Hk. rewrite (filter_cons sys_kind) in Hcs |- *. destruct (decide (sys_kind e)) as [Hs|Hs].
  - apply Forall2_cons_inv_l in Hcs as (c & cs' & Hc & Hcs' & ->). destruct (normalize_says _ _ _ Ht Hc) as [Hsay Hts].
    destruct (IH _ Hcs') as [IH1 IH2]. rewrite filter_cons_True by (unfold is_sys; by rewrite Hk).
    split; [by apply Forall2_cons_2|]. by rewrite !fmap_cons, Hts, IH2.
  - rewrite (filter_cons_False is_sys) by (unfold is_sys; by rewrite Hk). by apply IH.
Qed.
End capture.

(** A stable sort keeps a subsequence that is in order. *)
Lemma insert_by_filter {A} (key : A → Z) (P : A → Prop) `{!∀ x, Decision (P x)} x l : StronglySorted (not_after key) l →
  filter P (insert_by key x l) = if decide (P x) then insert_by key x (filter P l) else filter P l.
Proof.
  induction 1 as [|y l Hl IH Hf]; [cbn [insert_by]; rewrite filter_cons; by case_decide|]. cbn [insert_by].
  destruct (Z.ltb_spec (key y) (key x)) as [Hlt|Hge].
  - rewrite filter_cons, IH, filter_cons. repeat case_decide; try done. cbn [insert_by]. by rewrite (proj2 (Z.ltb_lt _ _)).
  - rewrite (filter_cons P x). case_decide; [|done]. rewrite filter_cons. case_decide as Hy.
    + cbn [insert_by]. by rewrite (proj2 (Z.ltb_ge _ _)).
    + assert (Forall (λ z, key x ≤ key z) (filter P l)) as Hall.
      { apply Forall_forall. intros z [_ Hz]%list_elem_of_filter. rewrite Forall_forall in Hf. specialize (Hf z Hz). unfold not_after in Hf. lia. }
      destruct (filter P l) as [|z fl]; [done|]. inversion_clear Hall. cbn [insert_by]. by rewrite (proj2 (Z.ltb_ge _ _)).
Qed.

Lemma sort_by_filter {A} (key : A → Z) (P : A → Prop) `{!∀ x, Decision (P x)} l : StronglySorted Z.le (key <$> filter P l) →
  filter P (sort_by key l) = filter P l.
Proof.
  induction l as [|x l IH]; intros Hs; [done|]. cbn [sort_by foldr]. fold (sort_by key l).
  rewrite insert_by_filter by apply sort_by_ok. rewrite filter_cons in Hs |- *. case_decide; [|by apply IH].
  cbn [fmap list_fmap] in Hs. inversion_clear Hs as [|?? Hs' Hf]. rewrite IH by done. destruct (filter P l) as [|y fl]; [done|].
  inversion_clear Hf. cbn [insert_by]. by rewrite (proj2 (Z.ltb_ge _ _)).
Qed.

(** C18: The tools mirror the driver: print the changes the tracker makes to its table of system memory into a
    trace among any other records, read it, merge its events in time order with those of the shim and of strace,
    and build the atlas; then the tracked ranges it has open are the entries in the driver's table, with their
    addresses and the pointer as it was printed. *)
Theorem atlas_mirrors_sysmem_tracker ptr_text page_struct mask unescape ts_ns_of py_str ops tr pbcap strace
    (Hmask : mc_enabled mask dbell) (Hsane : always_sane ptr_text page_struct mask ops g_sysmem_tracked0)
    (Htr : wf_trace tr) (Hrec : (filter sys_line tr).*2 = (sys_calls ptr_text page_struct mask ops g_sysmem_tracked0).1)
    (Htime : StronglySorted Z.le ((λ er, en_ts ts_ns_of er.1) <$> filter sys_line tr))
    (Hpbcap : Forall (λ t, ¬ is_sys t) pbcap) (Hstrace : Forall (λ t, ¬ is_sys t) strace) :
  ∃ evs ftr, parse_ftrace unescape ts_ns_of (raw_lines tr) = inr evs ∧ normalize_ftrace py_str evs = Some ftr ∧
    (forallb readable_event (merge_all pbcap ftr strace) = true →
     ∃ a, build_atlas (merge_all pbcap ftr strace) = Some a ∧
       open_ranges (gpu_ranges a) ≡ₚ shown ptr_text <$> sys_live (sys_calls ptr_text page_struct mask ops g_sysmem_tracked0).2).
Proof.
  destruct (sys_calls_runs ptr_text page_struct mask ops g_sysmem_tracked0) as (cs & Hsays & Hruns); [done| | |done|].
  { split; apply Forall_replicate; [done|by intros []]. }
  { split; [apply NoDup_nil_2|apply Forall_nil_2]. }
  rewrite <-Hrec, Forall2_fmap_l in Hsays.
  pose proof (parse_ftrace_trace unescape ts_ns_of tr Htr) as Hparse. cbn zeta in Hparse. eexists.
  destruct (normalize_all py_str _ (parse_projects py_str _ _ _ _ Hparse)) as (ftr & Hftr & _). exists ftr. split; [exact Hparse|]. split; [exact Hftr|].
  destruct (run_trace_sys ts_ns_of tr 1 pstate0 cs Htr Hsays) as (es & Hes & Hev & Hsub). cbn [p_events pstate0] in Hes.
  assert (filter sys_kind (p_events (run_trace ts_ns_of 1 tr pstate0) ++
    ((p_alloc (run_trace ts_ns_of 1 tr pstate0)).*2 ≫= flush_alloc) ++ ((p_uvm (run_trace ts_ns_of 1 tr pstate0)).*2 ≫= flush_uvm)) = es) as Hfil.
  { rewrite filter_app, flush_other, app_nil_r, Hes. done. }
  destruct (normalize_sys py_str _ _ (omap id cs) Hftr) as [Hsay Hts]; [by rewrite Hfil|]. rewrite Hfil in Hts.
  intros Hread. destruct (build_atlas_total _ Hread) as [a Ha]. exists a. split; [done|].
  unfold build_atlas in Ha. destruct (ingest _ atlas0) as [a1|] eqn:Hi; [|done]. cbn [mbind option_bind] in Ha.
  rewrite (passes_opens _ _ _ Ha). eapply (ingest_mirrors ptr_text); [exact Hi| |exact Hruns|vm_compute; constructor].
  assert (∀ l, Forall (λ t, ¬ is_sys t) l → filter is_sys l = []) as Hnone.
  { induction 1 as [|t l Ht _ IH]; [done|]. by rewrite filter_cons_False. }
  assert (filter is_sys (pbcap ++ ftr ++ strace) = filter is_sys ftr) as Hall by (by rewrite !filter_app, (Hnone pbcap), (Hnone strace), app_nil_r).
  unfold merge_all. rewrite sort_by_filter; rewrite Hall; [done|]. rewrite Hts. by eapply sorted_sublist.
Qed.

(** ** An example *)

(** Two mappings are tracked, an allocation is freed in between, and the first mapping goes away. *)
Definition example_ops : list sys_op :=
  [SysAdd (λ _, 0x100) (λ _ _, 0xffff1000) (VmArea 1 0x7f0000000000 0x7f0000200000) (Some (λ j, j * 0x1000)) 0 512;
   SysAdd (λ _, 0x100) (λ _ _, 0xffff2000) (VmArea 2 0x7f1000000000 0x7f1000100000) (Some (λ j, j * 0x1000)) 0 256;
   SysRemove 1].

Definition example_records : list mc_record := (sys_calls hex_text id 0x1ff example_ops g_sysmem_tracked0).1.

Definition mirror_line (frac : string) (r : mc_record) : envelope * mc_record :=
  (Envelope 3 (codes "app") 4242 1 (codes "000") (codes ".....") (codes "100") (codes frac), r).

Definition example_capture : list (envelope * mc_record) :=
  match example_records with
  | [r1; r2; r3] =>
      [mirror_line "000001" r1;
       mirror_line "000002" (McRecord (codes "rm") (codes "free") [(codes "old", MvHex 8 0x5c000001)]);
       mirror_line "000003" r2; mirror_line "000004" r3]
  | _ => []
  end.

(** The time stamp without its point. *)
Definition example_time (t : text) : Z := default 0 (num 10 (filter (λ c, c ≠ 46) t)).

Lemma atlas_mirrors_sysmem_tracker_witness :
  ∃ evs ftr, parse_ftrace (λ _, None) example_time (raw_lines example_capture) = inr evs ∧ normalize_ftrace (λ _, []) evs = Some ftr ∧
    (forallb readable_event (merge_all [] ftr []) = true →
     ∃ a, build_atlas (merge_all [] ftr []) = Some a ∧
       open_ranges (gpu_ranges a) ≡ₚ shown hex_text <$> sys_live (sys_calls hex_text id 0x1ff example_ops g_sysmem_tracked0).2).
Proof.
  apply (atlas_mirrors_sysmem_tracker hex_text id 0x1ff (λ _, None) example_time (λ _, []) example_ops example_capture [] []).
  - vm_compute. discriminate.
  - repeat split; try (apply (bool_decide_unpack _); vm_compute; reflexivity).
  - apply wf_traceb. vm_compute. reflexivity.
  - vm_compute. reflexivity.
  - apply (bool_decide_unpack _). vm_compute. reflexivity.
  - apply Forall_nil_2.
  - apply Forall_nil_2.
Defined.

(** Computed: the timeline can be read, and the second mapping is the one that is open. *)
Lemma mirror_example :
  match parse_ftrace (λ _, None) example_time (raw_lines example_capture) with
  | inl _ => None
  | inr evs =>
      ftr ← normalize_ftrace (λ _, []) evs;
      a ← build_atlas (merge_all [] ftr []);
      Some (forallb readable_event (merge_all [] ftr []), open_ranges (gpu_ranges a))
  end = Some (true, [(0x7f1000000000, 0x7f1000100000, JStr (hex_text 0xffff2000))]).
Proof. vm_compute. reflexivity. Qed.
