(* ===== verification/AtlasLedger.v ===== *)
(** * The ledger of channels: no mapping is lost, and each is with its channel

    The atlas (Atlas) attributes every mapping of memory into a carrier to a channel, by the
    USERD the channel was created with or by the address space of the carrier, or keeps it
    apart. Where no handle of a channel or carrier is used twice, every mapping is kept once. *)

From stdpp Require Import base numbers list gmap strings sorting.
From S2P Require Import Prelude TraceText FtraceParse Timeline Atlas AtlasHistory.
#[local] Open Scope Z_scope.

(** What a mapping binds, apart from the role that is inferred. *)
Definition binding (r : resource) : Z * Z * Z * Z * Z * Z :=
  (rs_hSrc r, rs_src_class r, rs_length r, rs_hCarrier r, rs_dmaOffset r, rs_ts_mapped r).

Definition event_binding (ev : tev) : option (Z * Z * Z * Z * Z * Z) :=
  let d := te_data ev in
  car_h ← hex_field d "hCarrier";
  src_h ← hex_field d "hSrc";
  src_cls ← hex_field d "src_class";
  length ← hex_field d "length";
  dma_off ← hex_field d "dmaOffset";
  Some (src_h, src_cls, length, car_h, dma_off, te_ts ev).

Definition is_intermap (ev : tev) : Prop := kind_is (te_kind ev) "intermap_call" = true.

#[global] Instance is_intermap_dec ev : Decision (is_intermap ev).
Proof. unfold is_intermap. apply _. Defined.

(** The mappings of the channels, and those apart. *)
Definition attributed (chs : list (Z * channel_info)) : list resource := chs ≫= λ p, ch_resources p.2.

Definition all_bindings (a : Atlas) : list (Z * Z * Z * Z * Z * Z) :=
  binding <$> attributed (channels a) ++ unattributed_intermaps a.

(** The handles an event gives to a channel or to a carrier. *)
Definition channel_handle (ev : tev) : option Z :=
  if kind_is (te_kind ev) "alloc" then
    h ← hex_field (te_data ev) "handle";
    cls ← hex_field (te_data ev) "class";
    if negb (h =? 0) && is_channel_class cls then Some h else None
  else None.

Definition carrier_handle (ev : tev) : option Z :=
  if kind_is (te_kind ev) "virtmem_backing" then
    h ← hex_field (te_data ev) "hMemory";
    if h =? 0 then None else Some h
  else None.

(** A mapping of the channel's USERD, or into a carrier of the channel's own address space. *)
Definition owned_by (cars : list (Z * carrier_info)) (c : channel_info) (r : resource) : Prop :=
  (ch_hUserdMemory c ≠ 0 ∧ rs_hSrc r = ch_hUserdMemory c ∧ rs_role r = RUserd) ∨
  (ch_hVASpace c ≠ 0 ∧ ∃ ca, dict_get (rs_hCarrier r) cars = Some ca ∧ ca_hVASpace ca = ch_hVASpace c).

Record ledger_ok (a : Atlas) : Prop := {
  lo_channels : NoDup (channels a).*1;
  lo_carriers : NoDup (carriers a).*1;
  lo_owned : Forall (λ p, Forall (owned_by (carriers a) p.2) (ch_resources p.2)) (channels a) }.

(** ** Dictionaries *)

Lemma dict_get_none {A} k (d : list (Z * A)) : k ∉ d.*1 → dict_get k d = None.
Proof.
  induction d as [|[k' v] d IH]; [done|]. cbn. rewrite not_elem_of_cons. intros [Hne Hd].
  destruct (Z.eqb_spec k' k); [congruence|]. by apply IH.
Qed.

Lemma dict_set_new {A} k (v : A) d : k ∉ d.*1 → dict_set k v d = d ++ [(k, v)].
Proof.
  induction d as [|[k' v'] d IH]; [done|]. cbn. rewrite not_elem_of_cons. intros [Hne Hd].
  destruct (Z.eqb_spec k' k); [congruence|]. by rewrite IH.
Qed.

Lemma dict_set_split {A} k (v v' : A) d1 d2 : k ∉ d1.*1 → dict_set k v' (d1 ++ (k, v) :: d2) = d1 ++ (k, v') :: d2.
Proof.
  induction d1 as [|[k2 v2] d1 IH]; cbn; [by rewrite Z.eqb_refl|]. rewrite not_elem_of_cons. intros [Hne Hd].
  destruct (Z.eqb_spec k2 k); [congruence|]. by rewrite IH.
Qed.

Lemma dict_get_split {A} k (v : A) d : dict_get k d = Some v → ∃ d1 d2, d = d1 ++ (k, v) :: d2 ∧ k ∉ d1.*1.
Proof.
  induction d as [|[k' v'] d IH]; [done|]. cbn. destruct (Z.eqb_spec k' k) as [->|Hne].
  - intros [= ->]. exists [], d. split; [done|]. set_solver.
  - intros H. destruct (IH H) as (d1 & d2 & -> & Hd). exists ((k', v') :: d1), d2. split; [done|]. cbn. rewrite not_elem_of_cons. naive_solver.
Qed.

Lemma dict_alter_split {A} k (f : A → A) d : dict_alter k f d = d ∨
  ∃ v d1 d2, dict_get k d = Some v ∧ d = d1 ++ (k, v) :: d2 ∧ dict_alter k f d = d1 ++ (k, f v) :: d2.
Proof.
  unfold dict_alter. destruct (dict_get k d) as [v|] eqn:Hg; [|by left]. right. destruct (dict_get_split _ _ _ Hg) as (d1 & d2 & -> & Hd).
  exists v, d1, d2. split_and!; [done|done|]. by apply dict_set_split.
Qed.

Lemma attributed_app l1 l2 : attributed (l1 ++ l2) = attributed l1 ++ attributed l2.
Proof. unfold attributed. by rewrite bind_app. Qed.

Lemma attributed_middle l1 h c l2 : attributed (l1 ++ (h, c) :: l2) = attributed l1 ++ ch_resources c ++ attributed l2.
Proof. by rewrite attributed_app. Qed.

(** A carrier that is new changes no owner. *)
Lemma owned_mono cars h ca c r : h ∉ cars.*1 → owned_by cars c r → owned_by (dict_set h ca cars) c r.
Proof.
  intros Hh [H|(Hn & ca' & Hg & Hv)]; [by left|]. right. split; [done|]. exists ca'. split; [|done]. rewrite dict_get_set.
  destruct (Z.eqb_spec h (rs_hCarrier r)) as [->|]; [|done]. by rewrite dict_get_none in Hg.
Qed.

(** ** The events *)

Lemma event_ledger_other ev a a' : atlas_event ev a = Some a' → kind_is (te_kind ev) "alloc" = false → kind_is (te_kind ev) "free" = false →
  kind_is (te_kind ev) "virtmem_backing" = false → ¬ is_intermap ev →
  channels a' = channels a ∧ carriers a' = carriers a ∧ unattributed_intermaps a' = unattributed_intermaps a.
Proof. intros H H1 H2 H3 H4%not_true_is_false. on_event H; try done; congruence. Qed.

Lemma owner_ok chs src_h car_vas ch : NoDup chs.*1 →
  match userd_owner chs src_h with Some ch => Some ch | None => vas_owner chs car_vas end = Some ch →
  ∃ c, dict_get ch chs = Some c ∧
    ((ch_hUserdMemory c ≠ 0 ∧ src_h = ch_hUserdMemory c) ∨ (car_vas ≠ 0 ∧ ch_hVASpace c = car_vas)).
Proof.
  intros Hnd H. unfold userd_owner, vas_owner in H.
  destruct (list_find _ chs) as [[i [h c]]|] eqn:Hf; cbn in H.
  - simplify_eq. apply list_find_Some in Hf as (Hi & Hc & _). cbn in Hc. rewrite !andb_true_iff, negb_true_iff, Z.eqb_neq, Z.eqb_eq in Hc.
    exists c. split; [apply (dict_get_elem _ _ _ Hnd); by eapply list_elem_of_lookup_2|]. left. naive_solver.
  - clear Hf. destruct (Z.eqb_spec car_vas 0); [done|]. destruct (list_find _ chs) as [[i [h c]]|] eqn:Hf'; cbn in H; [|done].
    simplify_eq. apply list_find_Some in Hf' as (Hi & Hc & _). cbn in Hc. rewrite andb_true_iff, Z.eqb_eq in Hc.
    exists c. split; [apply (dict_get_elem _ _ _ Hnd); by eapply list_elem_of_lookup_2|]. right. naive_solver.
Qed.

(** One event: the ledger stays in order, no handle appears but the event's own, and the mappings are kept. *)
Record ledger_step (ev : tev) (a a' : Atlas) : Prop := {
  ls_ok : ledger_ok a';
  ls_channels : ∀ h, h ∈ (channels a').*1 → h ∈ (channels a).*1 ∨ channel_handle ev = Some h;
  ls_carriers : ∀ h, h ∈ (carriers a').*1 → h ∈ (carriers a).*1 ∨ carrier_handle ev = Some h;
  ls_bindings : if decide (is_intermap ev) then ∃ b, event_binding ev = Some b ∧ all_bindings a' ≡ₚ b :: all_bindings a
                else all_bindings a' ≡ₚ all_bindings a }.

Lemma step_same ev a a' : ledger_ok a → ¬ is_intermap ev → channels a' = channels a → carriers a' = carriers a →
  unattributed_intermaps a' = unattributed_intermaps a → ledger_step ev a a'.
Proof.
  intros [H1 H2 H3] Hi Hc Hr Hu.
  split; [split; by rewrite ?Hc, ?Hr|rewrite Hc; by left|rewrite Hr; by left|]. rewrite decide_False by done.
  unfold all_bindings. by rewrite Hc, Hu.
Qed.

Lemma step_alloc ev a a' : atlas_event ev a = Some a' → ledger_ok a → te_kind ev = codes "alloc" → (∀ h, channel_handle ev = Some h → h ∉ (channels a).*1) → ledger_step ev a a'.
Proof.
  intros Hev Hok Hk Hnew. assert (¬ is_intermap ev) as Hi by (unfold is_intermap; rewrite Hk; discriminate).
  assert (on_alloc_event ev a = Some a') as H by (unfold atlas_event in Hev; by rewrite Hk in Hev). clear Hev.
  unfold on_alloc_event in H. unfold channel_handle in Hnew. rewrite Hk in Hnew. change (kind_is (codes "alloc") "alloc") with true in Hnew.
  destruct (hex_field (te_data ev) "handle") as [h|] eqn:Hh; [|done]. cbn [mbind option_bind] in H, Hnew.
  destruct (h =? 0) eqn:Hh0; [simplify_eq; by apply step_same|].
  destruct (hex_field (te_data ev) "class") as [cls|] eqn:Hcls; [|done]. cbn [mbind option_bind] in H, Hnew.
  destruct (is_channel_class cls) eqn:Hcc; cycle 1.
  { cbn [mbind option_bind] in H. injection H as <-. apply step_same; [done|done|..]; by destruct ((cls =? 0) && _). }
  destruct (new_channel cls (te_ts ev) (te_data ev)) as [ch|] eqn:Hch; [|done]. cbn [mbind option_bind] in H.
  assert (channels a' = channels a ++ [(h, ch)] ∧ carriers a' = carriers a ∧ unattributed_intermaps a' = unattributed_intermaps a) as (Hc & Hr & Hu).
  { specialize (Hnew h eq_refl). injection H as <-. by destruct ((cls =? 0) && _); cbn; rewrite dict_set_new. }
  assert (ch_resources ch = []) as Hres by (unfold new_channel in Hch; by simplify_option_eq).
  destruct Hok as [H1 H2 H3]. specialize (Hnew h eq_refl). split.
  - split; rewrite ?Hc, ?Hr; [|done|].
    + rewrite fmap_app. apply NoDup_app. split_and!; [done| |apply NoDup_singleton]. intros x Hx ->%list_elem_of_singleton. done.
    + apply Forall_app. split; [done|]. apply Forall_singleton. cbn. rewrite Hres. apply Forall_nil_2.
  - intros x. rewrite Hc, fmap_app, elem_of_app. intros [Hx|Hx]; [by left|]. cbn in Hx. apply list_elem_of_singleton in Hx as ->. right.
    unfold channel_handle. rewrite Hk. change (kind_is (codes "alloc") "alloc") with true. rewrite Hh, Hcls. cbn [mbind option_bind]. by rewrite Hh0, Hcc.
  - rewrite Hr. by left.
  - rewrite decide_False by done. unfold all_bindings. rewrite Hc, Hu, attributed_app. cbn. by rewrite Hres, !app_nil_r.
Qed.

Lemma step_free ev a a' : atlas_event ev a = Some a' → ledger_ok a → te_kind ev = codes "free" → ledger_step ev a a'.
Proof.
  intros Hev Hok Hk. assert (¬ is_intermap ev) as Hi by (unfold is_intermap; rewrite Hk; discriminate).
  assert (on_free_event ev a = Some a') as H by (unfold atlas_event in Hev; by rewrite Hk in Hev). clear Hev.
  unfold on_free_event in H. destruct (hex_field _ "handle") as [h|]; [|done]. injection H as <-.
  destruct (dict_alter_split h (free_channel (te_ts ev)) (channels a)) as [Heq|(c & d1 & d2 & _ & Hd & Heq)].
  { by apply step_same. }
  destruct Hok as [H1 H2 H3]. rewrite Hd in H1, H3. split; [split| | |]; cbn [channels carriers with_channels with_allocs]; rewrite ?Heq, ?Hd.
  - by rewrite !fmap_app in *.
  - done.
  - rewrite Forall_app, Forall_cons in H3 |- *. done.
  - intros x Hx. left. by rewrite !fmap_app in *.
  - by left.
  - rewrite decide_False by done. unfold all_bindings. cbn [channels unattributed_intermaps with_channels with_allocs].
    by rewrite Heq, Hd, !attributed_middle.
Qed.

Lemma step_carrier ev a a' : atlas_event ev a = Some a' → ledger_ok a → te_kind ev = codes "virtmem_backing" → (∀ h, carrier_handle ev = Some h → h ∉ (carriers a).*1) → ledger_step ev a a'.
Proof.
  intros Hev Hok Hk Hnew. assert (¬ is_intermap ev) as Hi by (unfold is_intermap; rewrite Hk; discriminate).
  assert (on_virtmem_backing ev a = Some a') as H by (unfold atlas_event in Hev; by rewrite Hk in Hev). clear Hev.
  unfold on_virtmem_backing in H. destruct (hex_field _ "hMemory") as [h|] eqn:Hh; [|done]. cbn [mbind option_bind] in H.
  destruct (h =? 0) eqn:Hh0; [simplify_eq; by apply step_same|].
  assert (carrier_handle ev = Some h) as Hcar.
  { unfold carrier_handle. rewrite Hk. change (kind_is (codes "virtmem_backing") "virtmem_backing") with true. rewrite Hh. cbn [mbind option_bind]. by rewrite Hh0. }
  specialize (Hnew h Hcar). destruct Hok as [H1 H2 H3]. simplify_option_eq. split; [split| | |]; cbn [channels carriers with_carriers].
  - done.
  - by apply dict_set_NoDup.
  - eapply Forall_impl; [exact H3|]. intros p Hp. eapply Forall_impl; [exact Hp|]. intros r Hr. by apply owned_mono.
  - by left.
  - intros x [->|Hx]%dict_set_keys; [by right|by left].
  - by rewrite decide_False.
Qed.

Lemma step_intermap ev a a' : atlas_event ev a = Some a' → ledger_ok a → te_kind ev = codes "intermap_call" → ledger_step ev a a'.
Proof.
  intros Hev [H1 H2 H3] Hk. assert (is_intermap ev) as Hi by (unfold is_intermap; rewrite Hk; reflexivity).
  assert (on_intermap_call ev a = Some a') as H by (unfold atlas_event in Hev; by rewrite Hk in Hev). clear Hev.
  unfold on_intermap_call in H. destruct (hex_field _ "hCarrier") as [car_h|] eqn:E1; [|done]. destruct (hex_field _ "hSrc") as [src_h|] eqn:E2; [|done].
  destruct (hex_field _ "src_class") as [cls|] eqn:E3; [|done]. destruct (hex_field _ "length") as [len|] eqn:E4; [|done].
  destruct (hex_field _ "dmaOffset") as [off|] eqn:E5; [|done]. cbn [mbind option_bind] in H.
  set (vas := match dict_get car_h (carriers a) with Some c => ca_hVASpace c | None => 0 end) in H.
  set (target := match userd_owner (channels a) src_h with Some ch => Some ch | None => vas_owner (channels a) vas end) in H.
  set (r := Resource _ _ _ _ _ _ _) in H.
  assert (event_binding ev = Some (binding r)) as Hb by (unfold event_binding; by rewrite E1, E2, E3, E4, E5).
  destruct target as [ch|] eqn:Ht; injection H as <-.
  - destruct (owner_ok _ _ _ _ H1 Ht) as (c & Hc & Hown).
    destruct (dict_alter_split ch (add_resource r) (channels a)) as [Heq|(c' & d1 & d2 & Hc' & Hd & Heq)].
    { exfalso. unfold dict_alter in Heq. rewrite Hc in Heq. apply (f_equal (dict_get ch)) in Heq.
      rewrite dict_get_set, Z.eqb_refl, Hc in Heq. injection Heq as Heq. apply (f_equal (λ c, length (ch_resources c))) in Heq.
      cbn in Heq. rewrite length_app in Heq. cbn in Heq. lia. }
    assert (c' = c) as -> by congruence.
    assert (owned_by (carriers a) c r) as Hr.
    { destruct Hown as [[Hu1 Hu2]|[Hv1 Hv2]].
      - left. split_and!; [done|done|]. unfold r. cbn [rs_role from_option id]. unfold _infer_resource_role. cbn [from_option id]. rewrite Hc.
        rewrite (proj2 (Z.eqb_neq _ _) Hu1), (proj2 (Z.eqb_eq _ _) Hu2). done.
      - right. split; [congruence|]. unfold vas in *. cbn [rs_hCarrier r]. destruct (dict_get car_h (carriers a)) as [ca|]; [|done]. by exists ca. }
    rewrite Hd in H1, H3. split; [split| | |]; cbn [channels carriers with_channels]; rewrite ?Heq, ?Hd.
    + by rewrite !fmap_app in *.
    + done.
    + rewrite Forall_app, Forall_cons in H3 |- *. destruct H3 as (Ha & Hb' & Hc''). split_and!; [done| |done].
      cbn. apply Forall_app. split; [exact Hb'|]. by apply Forall_singleton.
    + intros x Hx. left. by rewrite !fmap_app in *.
    + by left.
    + rewrite decide_True by done. exists (binding r). split; [done|]. unfold all_bindings. cbn [channels unattributed_intermaps with_channels].
      rewrite Heq, Hd, !attributed_middle. cbn [ch_resources add_resource]. rewrite <-!app_assoc, !fmap_app. cbn [fmap list_fmap app].
      by rewrite <-!Permutation_middle.
  - split; [by split|by left|by left|]. rewrite decide_True by done. exists (binding r). split; [done|]. unfold all_bindings.
    cbn [channels unattributed_intermaps with_unattributed]. rewrite app_assoc, fmap_app, Permutation_app_comm. done.
Qed.

Lemma event_ledger ev a a' : atlas_event ev a = Some a' → ledger_ok a → (∀ h, channel_handle ev = Some h → h ∉ (channels a).*1) →
  (∀ h, carrier_handle ev = Some h → h ∉ (carriers a).*1) → ledger_step ev a a'.
Proof.
  intros Hev Hok Hch Hca.
  destruct (kind_is (te_kind ev) "alloc") eqn:K1; [apply bool_decide_eq_true in K1; by apply step_alloc|].
  destruct (kind_is (te_kind ev) "free") eqn:K2; [apply bool_decide_eq_true in K2; by apply step_free|].
  destruct (kind_is (te_kind ev) "virtmem_backing") eqn:K3; [apply bool_decide_eq_true in K3; by apply step_carrier|].
  destruct (decide (is_intermap ev)) as [K4|K4]; [apply bool_decide_eq_true in K4; by apply step_intermap|].
  destruct (event_ledger_other ev a a' Hev K1 K2 K3 K4) as (H1 & H2 & H3). by apply step_same.
Qed.

(** The handles that events give are new to the atlas, and given once. *)
Definition given_once (f : tev → option Z) (events : list tev) (keys : list Z) : Prop :=
  NoDup (omap f events) ∧ ∀ h, h ∈ omap f events → h ∉ keys.

Lemma given_once_cons f ev events keys keys' : given_once f (ev :: events) keys → (∀ h, h ∈ keys' → h ∈ keys ∨ f ev = Some h) →
  (∀ h, f ev = Some h → h ∉ keys) ∧ given_once f events keys'.
Proof.
  intros [Hnd Hnew] Hk. unfold given_once. cbn in Hnd, Hnew. destruct (f ev) as [h|].
  - apply NoDup_cons in Hnd as [Hn Hnd]. setoid_rewrite elem_of_cons in Hnew.
    split; [intros ? [= <-]; apply Hnew; by left|]. split; [done|]. intros x Hx [Hy|[= ->]]%Hk; [|done]. apply (Hnew x); [by right|done].
  - split; [done|]. split; [done|]. intros x Hx [Hy|Hy]%Hk; [|done]. by apply (Hnew x).
Qed.

Lemma run_ledger events : ∀ a a', ingest events a = Some a' → ledger_ok a →
  given_once channel_handle events (channels a).*1 → given_once carrier_handle events (carriers a).*1 →
  ledger_ok a' ∧ ∃ bs, Forall2 (λ ev b, event_binding ev = Some b) (filter is_intermap events) bs ∧ all_bindings a' ≡ₚ bs ++ all_bindings a.
Proof.
  induction events as [|ev events IH]; intros a a' Hrun Hok Hch Hca; cbn [ingest] in Hrun.
  { simplify_eq. split; [done|]. exists []. by split; [apply Forall2_nil_2|]. }
  destruct (atlas_event ev a) as [a1|] eqn:Hev; [|done]. cbn [mbind option_bind] in Hrun.
  destruct (event_ledger ev a a1 Hev Hok) as [Hok1 Hc1 Hr1 Hb1].
  { by apply (given_once_cons _ _ _ _ (channels a).*1 Hch); left. }
  { by apply (given_once_cons _ _ _ _ (carriers a).*1 Hca); left. }
  destruct (IH a1 a' Hrun Hok1) as (Hok' & bs & Hbs & Hall).
  { by apply (given_once_cons _ _ _ _ _ Hch). }
  { by apply (given_once_cons _ _ _ _ _ Hca). }
  split; [done|]. rewrite filter_cons. destruct (decide (is_intermap ev)).
  - destruct Hb1 as (b & Hb & Hp). exists (b :: bs). split; [by apply Forall2_cons_2|]. rewrite Hall, Hp. cbn. by rewrite Permutation_middle.
  - exists bs. split; [done|]. by rewrite Hall, Hb1.
Qed.

(** The passes after the events leave the ledger alone. *)
Lemma post_passes_ledger events a a' : post_passes events a = Some a' →
  channels a' = channels a ∧ carriers a' = carriers a ∧ unattributed_intermaps a' = unattributed_intermaps a.
Proof. unfold post_passes. intros H. by simplify_option_eq. Qed.

(** C36: Where no handle of a channel or of a carrier is given twice, the atlas of a readable timeline keeps every
    mapping into a carrier exactly once, with a channel or apart; and a mapping that is with a channel is of the
    channel's USERD, with that role, or lies in a carrier of the channel's own address space. *)
Theorem ledger_keeps_every_mapping events :
  forallb readable_event events = true → NoDup (omap channel_handle events) → NoDup (omap carrier_handle events) →
  ∃ a bs, build_atlas events = Some a ∧ Forall2 (λ ev b, event_binding ev = Some b) (filter is_intermap events) bs ∧
    all_bindings a ≡ₚ bs ∧ Forall (λ p, Forall (owned_by (carriers a) p.2) (ch_resources p.2)) (channels a).
Proof.
  intros Hr Hch Hca. destruct (build_atlas_total events Hr) as [a Ha]. unfold build_atlas in Ha.
  destruct (ingest events atlas0) as [a0|] eqn:Hin; [|done]. cbn [mbind option_bind] in Ha.
  destruct (run_ledger events atlas0 a0 Hin) as ([_ _ Hown] & bs & Hbs & Hall); [split; by constructor|split; [done|by intros ? _ ?%not_elem_of_nil]..|].
  destruct (post_passes_ledger _ _ _ Ha) as (H1 & H2 & H3). exists a, bs. unfold build_atlas. rewrite Hin. split_and!; [done|done| |by rewrite H1, H2].
  unfold all_bindings in *. rewrite H1, H3, Hall. by rewrite app_nil_r.
Qed.

Definition ledger_timeline (second : Z) : list tev :=
  let ev := λ ts k d, TEv ts Ftrace (Some (JInt 7)) None (codes k) d None in
  let im := λ ts src len car, ev ts "intermap_call" [fld "hCarrier" (hx 8 car); fld "hSrc" (hx 8 src); fld "src_class" (hx 4 0x40);
                                                    fld "length" (JInt len); fld "dmaOffset" (hx 0 0x1000)] in
  let chan := λ ts h vas userd, ev ts "alloc" [fld "handle" (hx 8 h); fld "class" (hx 4 0xc56f);
                                              fld "body" (JDict [fld "hVASpace" (hx 8 vas); fld "hUserdMemory" (hx 8 userd)])] in
  [ev 5 "virtmem_backing" [fld "hMemory" (hx 8 0xca1); fld "class" (hx 4 0x70); fld "hVASpace" (hx 8 0xa5)];
   chan 10 0xc1 0xa5 0xd1; im 11 0xd1 0x200 0xca2; im 12 0x77 0x2000 0xca1; im 13 0x78 0x9000 0xca9; chan 20 second 0xa6 0xd2].

Lemma ledger_keeps_every_mapping_witness :
  forallb readable_event (ledger_timeline 0xc2) = true ∧
  ∃ a bs, build_atlas (ledger_timeline 0xc2) = Some a ∧
    Forall2 (λ ev b, event_binding ev = Some b) (filter is_intermap (ledger_timeline 0xc2)) bs ∧
    all_bindings a ≡ₚ bs ∧ Forall (λ p, Forall (owned_by (carriers a) p.2) (ch_resources p.2)) (channels a).
Proof.
  split; [vm_compute; reflexivity|]. apply (ledger_keeps_every_mapping (ledger_timeline 0xc2)).
  - vm_compute. reflexivity.
  - vm_compute. repeat constructor; set_solver.
  - vm_compute. repeat constructor; set_solver.
Defined.

(** The USERD and the ring are with the channel, the mapping of an unknown carrier is apart; a channel that is given
    the handle again takes the place of the first, and its mappings are gone. *)
Lemma ledger_example : (λ a, ((λ p, rs_role <$> ch_resources p.2) <$> channels a, rs_role <$> unattributed_intermaps a)) <$> build_atlas (ledger_timeline 0xc2) =
    Some ([[RUserd; RGpfifo]; []], [RFb]) ∧
  (λ a, ((λ p, rs_role <$> ch_resources p.2) <$> channels a, rs_role <$> unattributed_intermaps a)) <$> build_atlas (ledger_timeline 0xc1) =
    Some ([[]], [RFb]).
Proof. vm_compute. done. Qed.
